(* ===== verification/_CoqProject ===== *)
-Q . S2P
Prelude.v
Utf8.v
Span.v
Diag.v
Hash.v
Text.v
Token.v
Lexer.v
LexerSpec.v
StringSpec.v
Ast.v
Parser.v
Depth.v
TemplateSpec.v
ParserSpec.v
GrammarSpec.v
FileSpec.v
ExactSpec.v
PrattSpec.v
Fmt.v
FmtSpec.v
Types.v
TypeLayout.v
LayoutSpec.v
LayoutBounds.v
KnownBits.v
KnownBitsSpec.v
DropPlan.v
DropPlanSpec.v
CopyType.v
Spelling.v
Interface.v
Codec.v
CodecSpec.v
CodecItems.v
CodecRoundtrip.v
Capability.v
CapabilitySpec.v
TimeFormats.v
CalendarSpec.v
TimeSpec.v
TimeMemory.v
Encoding.v
EncodingSpec.v
EscapeSpec.v
HtmlSpec.v
ReplEntry.v
Repl.v
ReplUndo.v
ReplSpec.v
ReplSession.v
ReplClaims.v
ReplTotal.v
Arena.v
ArenaSpec.v
Csv.v
CsvSpec.v
CsvCells.v
CsvValues.v
CsvTable.v
CsvDecode.v
CsvHeader.v
CsvEntry.v
CsvClaims.v
Mir.v
Cold.v
ColdGraph.v
ColdReturn.v
ColdSpec.v
DropState.v
MirSem.v
DropMoves.v
DropFlow.v
DropStateSpec.v
