(* ===== verification/Prelude.v ===== *)
(** * The Align compiler, verified: front end, type facts, interfaces, sessions

    Align is a compiled language; its compiler is a Rust workspace under
    [src/crates].  This library models the front end in full — everything
    between the bytes of a source file and the syntax tree the semantic passes
    receive — together with the source formatter and the content hash; the
    semantic pass's authorities on types (layout, ownership, copying, known
    bits); and the interface artifact a separately compiled unit publishes,
    with the analysis that guards its decoding; and two passes over the mid-level
    IR, which infer the cold functions and fold the guards of drops.  It proves
    what the other stages rely on.

    ** The program's parts

    - [align_span]: byte spans, source files, line and column numbers;
    - [align_diag]: diagnostics and their collector, threaded through every pass;
    - [align_hash]: wyhash, one-shot and streaming, used for cache keys and maps;
    - [align_lexer]: source bytes to tokens, with an implicit statement
      terminator at line ends; [decoded_string_runs] maps a string token's text
      back to its source bytes;
    - [align_ast]: the syntax tree;
    - [align_parser]: tokens to a tree, with recovery; templates are split into
      text and holes, and each hole is lexed and parsed by a sub-parser; a last
      pass caps the nesting of every item;
    - [align_fmt]: the formatter.  It lexes and parses, collects annotations
      from the tree, re-emits the tokens with canonical spacing and the comments
      of the gaps between them, and checks its own output;
    - [align_sema]: the semantic pass.  Its types ([Ty], [Scalar]) name
      definitions by their index in four tables; from these every later stage
      asks for the size and alignment of a type, its cleanup plan (is it Move?
      does it need a drop flag?), whether it can be copied out of storage, and
      which bits of an integer expression are known;
    - [align_interface]: the public surface of a unit as an artifact: a codec
      with a fingerprint of the surface, structural checks while reading, and
      gates on the whole summary after it;
    - [align_mir]: the mid-level IR, functions as graphs of basic blocks over
      slots and temporaries.  Of it two passes are modelled: drop-state
      simplification, which folds the branches on ownership flags that are known
      and takes out what is dead after that, and the cold-function pass, which
      marks the functions that only make errors and are called only where
      control has left the usual path;
    - [align_runtime]: the library compiled programs are linked with.  Of it the
      calendar with its wire timestamps, the text encodings, the arena allocator
      behind every [arena] block, and the CSV decoder, which fills columns in an
      arena, are modelled;
    - [align_repl]: the interactive session, an editor for one growing program.
      It classifies what is typed with the lexer and the parser, splices it into
      the program as an entry, and keeps the entry when the compiler accepts the
      program; entries can be replaced, undone and dropped.

    ** The files, in dependency order

    - [Prelude]: outcomes ([res]: a value, a panic, or exhausted fuel), slices,
      machine-width integers, the [let*] notation, shared tactics and lemmas.
    - [Utf8], [Text]: what the sources use of Rust's [str], [char], [u8],
      [i128], [u32] and [f64] parsing and printing ([from_utf8], [char_len],
      [from_str_radix], decimal to binary64).
    - [Span] ([crates/align_span]), [Diag] ([crates/align_diag]),
      [Hash] ([crates/align_hash]).
    - [Token], [Lexer] ([crates/align_lexer]); [LexerSpec] its invariant: what a
      token's range spells, what lies between tokens, where errors are reported;
      [StringSpec] the decoded runs.
    - [Ast] ([crates/align_ast]).
    - [Parser] ([crates/align_parser], [struct Parser] and its methods): a state
      and error monad [M] over the parser record; [let?] is Rust's [?] on an
      [Option].  The mutual recursion of the grammar goes through a record
      [Knot] of the functions that are called again ([parse_expr],
      [parse_prefix], [parse_if], and the hole parser), tied by [knot_fuel].
      [Depth] holds [cap_expr_depths], [discard_expr_tree] and [parse_file].
    - [TemplateSpec]: the template splitter.  [ParserSpec]: a weakest
      precondition calculus ([wp]) with its automation, the parser's invariant,
      and the specifications of the token, name, type, pattern, attribute and
      lookahead functions.  [GrammarSpec]: expressions, statements and blocks,
      proved against [good], what a knot promises.  [FileSpec]: items and whole
      files.  [PrattSpec]: operator precedence.
      [ExactSpec]: what the token matchers consume exactly, for [PrattSpec].
    - [Fmt] ([crates/align_fmt]); [FmtSpec] what the formatter keeps.
    - [Types] ([align_sema/src/lib.rs], [hir.rs]): the type universe and its
      conversions.
    - [TypeLayout] ([align_sema/src/type_layout.rs]): the iterative, memoising
      layout engine; [LayoutSpec] the recursive definition it refines and that
      it ends; [LayoutBounds] alignments, sizes and the order of fields.
    - [KnownBits] ([align_sema/src/known_bits.rs] and the conversion lint);
      [KnownBitsSpec] a semantics of the integer expressions and soundness.
    - [DropPlan] ([align_sema/src/lib.rs], [drop_plan] and its consumers);
      [DropPlanSpec] the by-value graph of a type and what the plans say of it.
    - [CopyType] ([independent_copy_type] and its consumers, with the
      specification); [Spelling] (the builtin spellings and their ownership).
    - [Interface] ([align_interface/src/lib.rs]: the summary's data and
      structural validators); [Codec] ([codec.rs]: every writer and reader);
      [CodecSpec] a calculus of readers ([spec]) and each reader specified by
      its writer; [CodecItems] the records of the surface; [CodecRoundtrip] the
      artifact.
    - [Capability] ([align_interface/src/lib.rs]: the index of local
      definitions, the three analyses, the rejection of generative cycles, the
      gate on transfer roots); [CapabilitySpec] the rules of borrowing and
      their least solution.
    - [TimeFormats] ([align_runtime/src/time_formats.rs], and the allocation
      helpers of [lib.rs]); [CalendarSpec] the calendar it computes; [TimeSpec]
      printing and parsing; [TimeMemory] the entry points on memory.
    - [Encoding] ([align_runtime/src/lib.rs], [std.encoding]); [EncodingSpec]
      slices, destinations and base64; [EscapeSpec] hex, percent and form;
      [HtmlSpec] HTML.
    - [Arena] ([align_runtime/src/lib.rs], [struct Arena]); [ArenaSpec] the life
      of an arena, its invariant, and the memory of its user.
    - [Csv] ([align_runtime/src/csv.rs]): cells, the record parser, descriptors,
      conversions, the header's hash table, the two passes, the entry point.
      [CsvSpec] the grammar, and the parser as a trace of cells; [CsvCells] what
      a cell's length, hash, comparison and copy are of its text; [CsvValues]
      the value of a text; [CsvTable] columns and writes; [CsvDecode] the two
      passes; [CsvHeader] the hash table; [CsvEntry] the abstract reading of a
      text and the whole of [decode_source]; [CsvClaims] the entry point.
    - [Mir] ([align_mir/src/lib.rs]): the part of the IR the pass reads, its
      graph, and [validate_exceptional_edges]; [Cold] ([align_mir/src/cold.rs]) the
      pass: reachable blocks, dominators, exceptional regions, functions that
      return only errors, and the fixed point over the calls.  [ColdGraph]
      reachability and dominance by paths, and the regions; [ColdReturn] a
      semantics of slots and temporaries, and what an accepted function returns;
      [ColdSpec] the cold functions as an inductive set, and the whole pass.
    - [DropState] ([align_mir/src/lib.rs], [simplify_drop_state]): the search for
      slots that are not read again, the analysis of boolean slots, folding and
      renumbering.  [MirSem] a semantics of functions over a class of machines
      that give operations their meaning; [DropMoves] the removal of
      statements, [DropFlow] the analysis and what it says of a run,
      [DropStateSpec] renumbering and the whole pass.
    - [ReplEntry] ([align_repl/src/entry.rs], [cmd.rs]): entries, the probes of a
      text, the commands, the classes of diagnostics.  [Repl] ([lib.rs],
      [build.rs], [echo.rs]): the session as a state, and every operation on it.
      The compiler and the runner are an argument, a record [Toolchain] of
      functions over a world of its own.  [ReplUndo] diffs of programs;
      [ReplSpec] what an edit may be; [ReplSession] events, reachable sessions
      and their invariant; [ReplClaims] the theorems and toolchains to run them
      with; [ReplTotal] that submitting returns.

    Definitions keep the source's names; a name that is a keyword here, or that
    two crates share, carries an underscore or its file's name.

    ** What the theorems show

    - Totality: lexing any bytes, parsing the tokens of any source below 1 GiB,
      and formatting it never panics — no index, slice, subtraction, [unwrap],
      [unreachable!], span merge or [u32] addition fails — and never runs on.
    - The lexer: tokens tile the source; each spells exactly its kind, string
      and character literals included; terminators follow only tokens that can
      end a statement.  [decoded_string_runs] agrees with it.
    - The parser: it reads every printed operator tree back; [parse_expr] gives
      up only with an error, succeeds only by consuming, and restores the depth
      counter and the struct-literal flag; a file is consumed to its end mark;
      [align(N)] yields powers of two; the reserved words are the keywords;
      templates split without loss.
    - The depth cap: at most [MAX_EXPR_DEPTH] levels, an error if anything was
      cut, the identity otherwise.
    - The formatter: every significant token and every comment survives in
      order, and no comment swallows a token; [formatting_can_join_statements]
      shows the one meaning its safety net does not protect.
    - The hash: the stream equals the one-shot hash under every chunking and
      rejects a wrong length.  Spans: [merge] is the least upper bound; line and
      column numbers count newlines and characters.
    - Layouts: the engine computes the recursive definition on every finite
      type, whatever its caches hold, and answers on every table; alignments
      are powers of two that divide sizes; the reordering of fields is minimal.
    - Known bits: every fact claimed of an expression holds of its value, and
      a cast the lint passes in silence keeps it.
    - Ownership: plans are valid exactly for finite types, a type is Copy
      exactly when it is finite and reaches nothing owned, and independent data
      is exactly what bottoms out in inline scalars, and is Copy.
    - Interfaces: what is written is read back; what is read was written that
      way, so an artifact has one encoding; decoding any bytes returns a summary
      or an error when the gates do; the borrow analysis leaves exactly the
      derivable facts; and [deserialize_can_panic] shows that the transfer gate
      itself need not return.
    - The runtime: [civil_date] is the Gregorian calendar; a printed instant is
      read back in each format, also through memory; encoders fill exactly the
      destinations they size; base64 and hex decoders accept exactly canonical
      texts; percent and form decoders equal a plain recursive decoder and take
      back what was encoded; escaped HTML holds no markup byte.
    - The arena: whatever is allocated, written and reset, and wherever the heap
      puts its chunks, an allocation is aligned, apart from all that is held,
      and zeroed when asked.  ([alloc_panics] says when there is none.)
    - CSV: a call returns a status, or aborts on the one block that an accepted
      table needs when neither the arena nor the heap has it; its status is OK
      exactly for the tables of the grammar whose fields have values; then the
      block holds every value in its slot — integers exactly, strings as views
      of their text — and the rest of memory is kept.
    - Cold functions: the iterated dominator sets hold exactly the dominators, so
      an exceptional region is what the unlikely side of a branch dominates; a
      function accepted as returning only errors returns nothing else, whatever
      its calls do; the pass marks the least set closed under its rule, and no
      chain of calls reaches a marked function but through an exceptional region.
    - Drop states: on any machine that changes boolean slots by stores only, a
      simplified function does what the function did, step for step; it stays
      well formed, and what nothing reaches is gone.  [lent_flag_folded] shows
      that a flag a call may change is folded all the same.
    - The session: whatever the toolchain answers, ordinals, wrappers, imports
      and the names of constants stay consistent; a rejected entry changes
      nothing; diffs implement a stack of programs, and undoing passes through
      the programs its steps restore down to the empty one, unless the compiler
      does not take the next of them; submitting returns; a run's output is shown without loss.
      [undo_after_drop_misplaces] and [failed_start_keeps_entry] show what it
      does not promise.

    ** Fuel and bounds

    Loops that are not structural take fuel.  A lexer loop consumes a byte per
    turn and gets [length src + 1]; a parser loop consumes a token per turn (the
    theorems prove it) and gets [length tokens + 1]; the knot gets the same,
    since every recursive call happens after a token was consumed; a template
    hole is parsed by a sub-parser of its own and cannot contain another hole,
    because a hole's text has no closing brace, so one level of sub-parsers is
    enough; the discard worklist gets the size of the tree.  That the fuel is
    enough is part of every totality theorem ([OutOfFuel] is not a [Ret]).
    The layout and plan engines get a cost computed from the tables: a
    definition is expanded once per activation that the caches do not cut, and
    the proofs bound the turns by it.  The copy search gets a turn per type it can
    meet and per part of one; the borrow sweeps one turn more than there are flags,
    since every changing sweep raises one.  The walks over an interface type
    get its size.  The sweeps for ownership and growth and the cycle search
    have fuel of the same form; that it is enough is not proved for them.
    The decoding and escaping loops of the runtime consume a byte per turn and
    get the input's length; so do the CSV loops, of which the probes of the
    header's table get a turn per slot and one more, since at most half of the
    slots are ever taken.  Of the cold pass, the worklist pops once per edge and
    once for the entry; every changing sweep over the dominators shrinks a set,
    and their sizes add up to at most the square of the blocks; the search for
    errors never meets a temporary or slot twice; and every changing sweep over the
    functions marks one.  The worklist of the drop-state analysis gets a turn per
    block and boolean slot, since a state is queued when it loses a constant or is
    the block's first; the search for reads never enters a block twice.  The session's loops are structural; an ordinal has
    at most ten digits.
    Sources are bounded by 1 GiB because spans are [u32] and a hole's span is
    computed by adding to one: an ill-formed byte decodes to three.

    ** What is not modelled

    - [align_sema]: name resolution, inference, move and escape checking and the
      lowering to HIR.
    - [align_interface]: building summaries from checked programs, import
      validation, owned-JSON descriptors, view effects and static artifacts.
      [deserialize_impl] takes the four gates it runs after reading as a record
      [Gates]; the gate on transfer roots is modelled in [Capability].
    - [align_mir]: the lowering of checked programs, its other passes, the
      validation of the IR and its text.  Variants of statements and values that
      the two passes do not read are one constructor with the slots they name;
      ids are natural numbers, where the code has [u32].  In [MirSem] slots have
      no aliases: only statements that name a slot read or change it.
    - [align_codegen_llvm], [align_driver] and [align_watch]: code generation
      through a third-party binding, and the parts that are input and output.
    - [align_repl]: [:time] and [:save] (a clock and files), the probe build at
      startup, the worker thread of the compiler, and the terminal loop.
    - [align_runtime]: its vector backends (the scalar paths are what they must
      agree with), and its input and output, threads, containers and JSON.  The
      crate [memchr], C's [malloc] and the heap an arena takes its chunks from are
      parameters.  The CSV decoder's source is a slice that its caller leaves
      alone; its [f32] and [f64] conversions are [Text]'s.
    - Rust's native stack, and sharing of [Arc]s: a plan is a tree here, so the
      visited set of [DropPlan::is_valid], which only cuts repeated work, is
      absent.

    ** What is left

    The ownership and growth solvers' least solutions and the correctness of the
    cycle search, import validation of interfaces, the region and task type
    checks of [align_sema], the drop-state effects of calls in [align_mir], round trips
    for the type grammar and for statements, and JSON in [align_runtime]. *)
From Stdlib Require Import ZArith Lia Strings.Byte String Ascii SpecFloat.
From stdpp Require Export base numbers list.
Export Stdlib.Strings.String.StringSyntax.
Local Open Scope Z_scope.

(** ** Bytes and byte strings

    A [u8] is a [Z] in [0, 256); a Rust [String] or [&str] is the list of its
    UTF-8 bytes.  ["c"%u8] is the code of an ASCII character, a literal of
    type [Z], so that [lia] sees a number; [str "..."] is the byte string of
    a literal. *)
Declare Scope u8_scope.
Delimit Scope u8_scope with u8.

Definition u8_parse (l : list Byte.byte) : option Z :=
  match l with [b] => Some (Z.of_N (Byte.to_N b)) | _ => None end.
Definition u8_print (_ : Z) : option (list Byte.byte) := None.
String Notation Z u8_parse u8_print : u8_scope.

Abbreviation bytes := (list Z).

Definition str (s : string) : bytes :=
  map (λ a, Z.of_N (N_of_ascii a)) (list_ascii_of_string s).
Arguments str s%_string : simpl never.

(** The double quote and the backslash, which a literal cannot spell plainly. *)
Abbreviation dquote := 34 (only parsing).
Abbreviation backslash := 92 (only parsing).

Definition is_byte (b : Z) : Prop := 0 ≤ b < 256.

(** ** Machine-width integers *)
Definition U32_MAX : Z := 2 ^ 32 - 1.
Definition I128_MAX : Z := 2 ^ 127 - 1.
Definition I128_MIN : Z := - 2 ^ 127.

(** [x as u32] and [x as u64]: truncation to the low bits. *)
Definition u32 (x : Z) : Z := x mod 2 ^ 32.
Definition u64 (x : Z) : Z := x mod 2 ^ 64.
Definition u32_of (n : nat) : Z := u32 (Z.of_nat n).

Lemma u32_of_small n : Z.of_nat n < 2 ^ 32 → u32_of n = Z.of_nat n.
Proof. intros. unfold u32_of, u32. apply Z.mod_small. lia. Qed.

(** Little-endian words: [u64::from_le_bytes], [u64::to_le_bytes] and their narrower kin. *)
Fixpoint from_le_bytes (l : bytes) : Z :=
  match l with [] => 0 | b :: l' => b + 256 * from_le_bytes l' end.
Fixpoint le_bytes (n : nat) (v : Z) : bytes :=
  match n with O => [] | S n => v mod 256 :: le_bytes n (v / 256) end.

Lemma le_bytes_length n v : length (le_bytes n v) = n.
Proof. revert v. induction n as [|n IH]; intros v; simpl; [done|]. by rewrite IH. Qed.

Lemma from_le_bytes_le n v : 0 ≤ v < 256 ^ Z.of_nat n → from_le_bytes (le_bytes n v) = v.
Proof.
  revert v. induction n as [|n IH]; intros v Hv; simpl; [simpl in Hv; lia|].
  rewrite Nat2Z.inj_succ, Z.pow_succ_r in Hv by lia. rewrite IH.
  - pose proof (Z.div_mod v 256). lia.
  - split; [apply Z.div_pos; lia|apply Z.div_lt_upper_bound; lia].
Qed.

Lemma le_bytes_from b : Forall is_byte b →
  0 ≤ from_le_bytes b < 256 ^ Z.of_nat (length b) ∧ le_bytes (length b) (from_le_bytes b) = b.
Proof.
  induction 1 as [|x b Hx _ [IHr IH]]; simpl from_le_bytes; [simpl; split; [lia|done]|]. unfold is_byte in Hx.
  cbn [length]. rewrite Nat2Z.inj_succ, Z.pow_succ_r by lia. split; [lia|]. cbn [le_bytes].
  replace ((x + 256 * from_le_bytes b) mod 256) with x.
  2: { rewrite Z.add_comm, Z.mul_comm, Z_mod_plus_full_l || rewrite Z.mul_comm, Z_mod_plus_full. symmetry. apply Z.mod_small. lia. }
  replace ((x + 256 * from_le_bytes b) / 256) with (from_le_bytes b); [by rewrite IH|].
  rewrite Z.mul_comm, Z.div_add, Z.div_small by lia. lia.
Qed.

(** ** Outcomes

    A Rust computation returns a value or panics; a modelled loop or recursion
    may in addition exhaust its fuel.  Theorems about a component show that
    the last two never happen. *)
Inductive res (A : Type) : Type :=
  | Ret (a : A)
  | Panic
  | OutOfFuel.
Arguments Ret {A} a.
Arguments Panic {A}.
Arguments OutOfFuel {A}.

Definition res_bind {A B} (m : res A) (f : A → res B) : res B :=
  match m with Ret a => f a | Panic => Panic | OutOfFuel => OutOfFuel end.

Declare Scope res_scope.
Delimit Scope res_scope with res.
Notation "'let*' x := m 'in' k" := (res_bind m (λ x, k))
  (at level 10, x binder, m at level 200, k at level 200) : res_scope.
Open Scope res_scope.

(** [Option::unwrap] and an index or slice that must be in range. *)
Definition unwrap {A} (o : option A) : res A :=
  match o with Some a => Ret a | None => Panic end.

(** Unsigned subtraction with the overflow check of a debug build. *)
Definition usub (a b : nat) : res nat := if (b <=? a)%nat then Ret (a - b)%nat else Panic.

Lemma res_bind_Ret_inv {A B} (m : res A) (f : A → res B) b :
  res_bind m f = Ret b → ∃ a, m = Ret a ∧ f a = Ret b.
Proof. destruct m; naive_solver. Qed.

Lemma res_bind_assoc {A B C} (m : res A) (f : A → res B) (g : B → res C) :
  res_bind (res_bind m f) g = res_bind m (λ x, res_bind (f x) g).
Proof. by destruct m. Qed.

Lemma usub_ok a b : (b ≤ a)%nat → usub a b = Ret (a - b)%nat.
Proof. intros H. unfold usub. by rewrite (proj2 (Nat.leb_le b a) H). Qed.

(** ** Slices: [&l[a..b]], which panics out of range *)
Definition slice {A} (a b : nat) (l : list A) : list A := take (b - a) (drop a l).

Definition slice_res {A} (a b : nat) (l : list A) : res (list A) :=
  if ((a <=? b) && (b <=? length l))%nat then Ret (slice a b l) else Panic.

(** [slice.get(a..b)] *)
Definition slice_get {A} (a b : nat) (l : list A) : option (list A) :=
  if ((a <=? b) && (b <=? length l))%nat then Some (slice a b l) else None.

(** [dst[off..off + src.len()].copy_from_slice(src)] *)
Definition splice {A} (off : nat) (src dst : list A) : res (list A) :=
  if (off + length src <=? length dst)%nat
  then Ret (take off dst ++ src ++ drop (off + length src) dst) else Panic.

Lemma slice_res_ok {A} a b (l : list A) :
  (a ≤ b)%nat → (b ≤ length l)%nat → slice_res a b l = Ret (slice a b l).
Proof.
  intros Ha Hb. unfold slice_res.
  by rewrite (proj2 (Nat.leb_le a b) Ha), (proj2 (Nat.leb_le b _) Hb).
Qed.

Lemma slice_get_ok {A} a b (l : list A) :
  (a ≤ b)%nat → (b ≤ length l)%nat → slice_get a b l = Some (slice a b l).
Proof.
  intros Ha Hb. unfold slice_get.
  by rewrite (proj2 (Nat.leb_le a b) Ha), (proj2 (Nat.leb_le b _) Hb).
Qed.

Lemma slice_length {A} a b (l : list A) :
  (a ≤ b)%nat → (b ≤ length l)%nat → length (slice a b l) = (b - a)%nat.
Proof. intros. unfold slice. rewrite length_take, length_drop. lia. Qed.

Lemma slice_full {A} a (l : list A) : slice a (length l) l = drop a l.
Proof. unfold slice. apply take_ge. rewrite length_drop. lia. Qed.

Lemma slice_nil {A} a (l : list A) : slice a a l = [].
Proof. unfold slice. by rewrite Nat.sub_diag. Qed.

Lemma slice_app {A} a b c (l : list A) :
  (a ≤ b)%nat → (b ≤ c)%nat → slice a c l = slice a b l ++ slice b c l.
Proof.
  intros Hab Hbc. unfold slice.
  replace (c - a)%nat with ((b - a) + (c - b))%nat by lia.
  rewrite <-take_take_drop, drop_drop.
  by replace (a + (b - a))%nat with b by lia.
Qed.

Lemma slice_lookup {A} a b i (l : list A) :
  (a + i < b)%nat → slice a b l !! i = l !! (a + i)%nat.
Proof. intros. unfold slice. by rewrite lookup_take_lt, lookup_drop by lia. Qed.

Lemma slice_take {A} a b n (l : list A) : (b ≤ n)%nat → slice a b (take n l) = slice a b l.
Proof.
  intros. unfold slice. rewrite skipn_firstn_comm, take_take. f_equal. lia.
Qed.

Lemma slice_slice {A} a b c d (l : list A) :
  (a + d ≤ b)%nat → slice c d (slice a b l) = slice (a + c) (a + d) l.
Proof.
  intros. unfold slice.
  rewrite skipn_firstn_comm, take_take, drop_drop. f_equal. lia.
Qed.

Lemma splice_ok {A} off (src dst : list A) :
  (off + length src ≤ length dst)%nat →
  splice off src dst = Ret (take off dst ++ src ++ drop (off + length src) dst).
Proof. intros H. unfold splice. by rewrite (proj2 (Nat.leb_le _ _) H). Qed.

(** ** Maximal runs: the [while] loops that skip bytes satisfying a test *)
Fixpoint count_while {A} (p : A → bool) (l : list A) : nat :=
  match l with
  | x :: l' => if p x then S (count_while p l') else 0
  | [] => 0
  end.

Lemma count_while_le {A} (p : A → bool) l : (count_while p l ≤ length l)%nat.
Proof. induction l as [|x l IH]; simpl; [lia|]. destruct (p x); simpl; lia. Qed.

Lemma count_while_take {A} (p : A → bool) l : Forall (λ x, p x = true) (take (count_while p l) l).
Proof. induction l as [|x l IH]; simpl; [constructor|]. destruct (p x) eqn:E; simpl; by constructor. Qed.

Lemma count_while_stop {A} (p : A → bool) l x :
  l !! count_while p l = Some x → p x = false.
Proof. induction l as [|y l IH]; simpl; [done|]. destruct (p y) eqn:E; simpl; naive_solver. Qed.

Lemma count_while_app {A} (p : A → bool) l x r :
  Forall (λ y, p y = true) l → p x = false → count_while p (l ++ x :: r) = length l.
Proof. induction 1 as [|y l Hy _ IH]; intros Hx; simpl; [by rewrite Hx|]. rewrite Hy. auto. Qed.

(** ** Tactics *)

(** Turn boolean comparisons into propositions. *)
Ltac b2p := repeat match goal with
  | H : _ && _ = true |- _ => apply andb_prop in H; destruct H
  | H : _ || _ = false |- _ => apply orb_false_elim in H; destruct H
  | H : negb _ = true |- _ => apply negb_true_iff in H
  | H : negb _ = false |- _ => apply negb_false_iff in H
  | H : (_ =? _)%Z = true |- _ => apply Z.eqb_eq in H
  | H : (_ =? _)%Z = false |- _ => apply Z.eqb_neq in H
  | H : (_ <=? _)%Z = true |- _ => apply Z.leb_le in H
  | H : (_ <=? _)%Z = false |- _ => apply Z.leb_gt in H
  | H : (_ <? _)%Z = true |- _ => apply Z.ltb_lt in H
  | H : (_ <? _)%Z = false |- _ => apply Z.ltb_ge in H
  | H : (_ =? _)%nat = true |- _ => apply Nat.eqb_eq in H
  | H : (_ =? _)%nat = false |- _ => apply Nat.eqb_neq in H
  | H : (_ <=? _)%nat = true |- _ => apply Nat.leb_le in H
  | H : (_ <=? _)%nat = false |- _ => apply Nat.leb_gt in H
  | H : (_ <? _)%nat = true |- _ => apply Nat.ltb_lt in H
  | H : (_ <? _)%nat = false |- _ => apply Nat.ltb_ge in H
  end.

(** Case analysis on the test of an [if] of the goal, remembered. *)
Ltac case_if := match goal with
  | |- context [if ?b then _ else _] =>
      lazymatch type of b with bool => destruct b eqn:? end
  end.

