(* ===== verification/Utf8.v ===== *)
(** * UTF-8, as the Rust standard library defines it

    [char::from_u32], [char::len_utf8], [String::push] and
    [std::str::from_utf8]: the parts of the language's [str] and [char] types
    the front end relies on.  A [char] is its Unicode scalar value, a [Z]. *)
From Stdlib Require Import ZArith Lia.
From S2P Require Import Prelude.
Local Open Scope Z_scope.

(** [char::from_u32]: surrogates and values past U+10FFFF are not scalars. *)
Definition is_scalar (c : Z) : bool :=
  ((0 <=? c) && (c <? 0xD800)) || ((0xE000 <=? c) && (c <=? 0x10FFFF)).
Definition char_from_u32 (v : Z) : option Z := if is_scalar v then Some v else None.

Definition len_utf8 (c : Z) : nat :=
  if c <? 0x80 then 1 else if c <? 0x800 then 2 else if c <? 0x10000 then 3 else 4.

(** The bytes [String::push] appends. *)
Definition utf8_encode (c : Z) : bytes :=
  if c <? 0x80 then [c]
  else if c <? 0x800 then [0xC0 + c / 64; 0x80 + c mod 64]
  else if c <? 0x10000 then [0xE0 + c / 4096; 0x80 + (c / 64) mod 64; 0x80 + c mod 64]
  else [0xF0 + c / 262144; 0x80 + (c / 4096) mod 64; 0x80 + (c / 64) mod 64; 0x80 + c mod 64].

Definition utf8_encode_all (cs : list Z) : bytes := concat (map utf8_encode cs).

Definition is_cont (b : Z) : bool := (0x80 <=? b) && (b <=? 0xBF).

(** The well-formed lead/second byte pairs of two-, three- and four-byte
    sequences (no overlong forms, no surrogates, nothing past U+10FFFF). *)
Definition lead2 (b0 : Z) : bool := (0xC2 <=? b0) && (b0 <=? 0xDF).
Definition lead3 (b0 b1 : Z) : bool :=
  ((b0 =? 0xE0) && ((0xA0 <=? b1) && (b1 <=? 0xBF)))
  || (((0xE1 <=? b0) && (b0 <=? 0xEC)) && is_cont b1)
  || ((b0 =? 0xED) && ((0x80 <=? b1) && (b1 <=? 0x9F)))
  || (((0xEE <=? b0) && (b0 <=? 0xEF)) && is_cont b1).
Definition lead4 (b0 b1 : Z) : bool :=
  ((b0 =? 0xF0) && ((0x90 <=? b1) && (b1 <=? 0xBF)))
  || (((0xF1 <=? b0) && (b0 <=? 0xF3)) && is_cont b1)
  || ((b0 =? 0xF4) && ((0x80 <=? b1) && (b1 <=? 0x8F))).

(** [std::str::from_utf8(l)] followed by [.chars()]: the scalars of a
    well-formed byte string, [None] for an ill-formed one. *)
Fixpoint from_utf8 (l : bytes) : option (list Z) :=
  match l with
  | [] => Some []
  | b0 :: r =>
    if (0 <=? b0) && (b0 <? 0x80) then cons b0 <$> from_utf8 r else
    match r with
    | [] => None
    | b1 :: r1 =>
      if lead2 b0 && is_cont b1
      then cons ((b0 - 0xC0) * 64 + (b1 - 0x80)) <$> from_utf8 r1 else
      match r1 with
      | [] => None
      | b2 :: r2 =>
        if lead3 b0 b1 && is_cont b2
        then cons ((b0 - 0xE0) * 4096 + (b1 - 0x80) * 64 + (b2 - 0x80)) <$> from_utf8 r2 else
        match r2 with
        | [] => None
        | b3 :: r3 =>
          if lead4 b0 b1 && is_cont b2 && is_cont b3
          then cons ((b0 - 0xF0) * 262144 + (b1 - 0x80) * 4096 + (b2 - 0x80) * 64 + (b3 - 0x80))
                 <$> from_utf8 r3
          else None
        end
      end
    end
  end.

Definition valid_utf8 (l : bytes) : Prop := is_Some (from_utf8 l).

(** [str::is_char_boundary] on a well-formed string: the bytes before the
    offset form a well-formed string of their own. *)
Definition char_boundary (l : bytes) (i : nat) : Prop :=
  (i ≤ length l)%nat ∧ valid_utf8 (take i l).

Ltac utf8_arith := unfold is_scalar, lead2, lead3, lead4, is_cont in *; lia.

Lemma length_utf8_encode c : length (utf8_encode c) = len_utf8 c.
Proof. unfold utf8_encode, len_utf8. repeat case_if; reflexivity. Qed.

Lemma len_utf8_pos c : (1 ≤ len_utf8 c ≤ 4)%nat.
Proof. unfold len_utf8. repeat case_if; lia. Qed.

(** Splitting a scalar into six-bit groups. *)
Lemma split64 c : 0 ≤ c → c = c / 64 * 64 + c mod 64 ∧ 0 ≤ c mod 64 < 64 ∧ 0 ≤ c / 64.
Proof. intros. pose proof (Z.div_mod c 64). pose proof (Z.mod_pos_bound c 64). lia. Qed.

(** Decoding what [String::push] wrote gives back the character, whatever follows. *)
Lemma from_utf8_encode c l :
  is_scalar c = true → from_utf8 (utf8_encode c ++ l) = cons c <$> from_utf8 l.
Proof.
  intros Hs. assert (0 ≤ c ≤ 0x10FFFF) as Hc by (unfold is_scalar in Hs; lia).
  unfold utf8_encode.
  pose proof (split64 c). pose proof (split64 (c / 64)). pose proof (split64 (c / 64 / 64)).
  rewrite !Z.div_div in * by lia. change (64 * 64) with 4096 in *. change (4096 * 64) with 262144 in *.
  repeat case_if; b2p; simpl.
  - replace ((0 <=? c) && (c <? 128)) with true by lia. done.
  - replace ((0 <=? _) && (_ <? 128)) with false by lia.
    replace (lead2 _ && is_cont _) with true by utf8_arith. do 2 f_equal. lia.
  - replace ((0 <=? _) && (_ <? 128)) with false by lia.
    replace (lead2 _ && is_cont _) with false by utf8_arith.
    replace (lead3 _ _ && is_cont _) with true by utf8_arith. do 2 f_equal. lia.
  - replace ((0 <=? _) && (_ <? 128)) with false by lia.
    replace (lead2 _ && is_cont _) with false by utf8_arith.
    replace (lead3 _ _ && is_cont _) with false by utf8_arith.
    replace (lead4 _ _ && is_cont _ && is_cont _) with true by utf8_arith. do 2 f_equal. lia.
Qed.

Lemma from_utf8_encode_all cs :
  Forall (λ c, is_scalar c = true) cs → from_utf8 (utf8_encode_all cs) = Some cs.
Proof.
  induction 1 as [|c cs Hc _ IH]; [done|].
  unfold utf8_encode_all in *; simpl. rewrite from_utf8_encode by done. by rewrite IH.
Qed.

(** One decoding step, read backwards. *)
Lemma from_utf8_cons_inv l c cs :
  from_utf8 l = Some (c :: cs) →
  ∃ l', l = utf8_encode c ++ l' ∧ is_scalar c = true ∧ from_utf8 l' = Some cs.
Proof.
  assert (∀ (x : Z) l', cons x <$> from_utf8 l' = Some (c :: cs) → c = x ∧ from_utf8 l' = Some cs) as Hc.
  { intros x l' H. apply fmap_Some in H as (? & ? & ?). by simplify_eq. }
  assert (∀ x, 64 * (x / 64) + x mod 64 = x ∧ 0 ≤ x mod 64 < 64) as Hd.
  { intros x. pose proof (Z.div_mod x 64). pose proof (Z.mod_pos_bound x 64). lia. }
  destruct l as [|b0 r]; simpl; [done|].
  destruct (_ && _) eqn:E1.
  { intros (-> & ?)%Hc. exists r. unfold utf8_encode.
    replace (b0 <? 128) with true by lia. split_and!; [done|utf8_arith|done]. }
  destruct r as [|b1 r1]; [done|]. destruct (lead2 b0 && is_cont b1) eqn:E2.
  { intros (-> & ?)%Hc. exists r1. unfold utf8_encode.
    set (x := (b0 - 192) * 64 + (b1 - 128)) in *. pose proof (Hd x).
    assert (128 ≤ x < 2048) by utf8_arith.
    replace (x <? 128) with false by lia. replace (x <? 2048) with true by lia.
    split_and!; [|utf8_arith|done]. assert (x / 64 = b0 - 192) by utf8_arith.
    simpl. repeat f_equal; lia. }
  destruct r1 as [|b2 r2]; [done|]. destruct (lead3 b0 b1 && is_cont b2) eqn:E3.
  { intros (-> & ?)%Hc. exists r2. unfold utf8_encode.
    set (x := (b0 - 224) * 4096 + (b1 - 128) * 64 + (b2 - 128)) in *.
    pose proof (Hd x). pose proof (Hd (x / 64)). rewrite Z.div_div in * by lia. change (64 * 64) with 4096 in *.
    assert (2048 ≤ x < 65536) by utf8_arith.
    replace (x <? 128) with false by lia. replace (x <? 2048) with false by lia.
    replace (x <? 65536) with true by lia.
    split_and!; [|utf8_arith|done].
    assert (x / 64 = (b0 - 224) * 64 + (b1 - 128)) by utf8_arith.
    assert (x / 4096 = b0 - 224) by utf8_arith.
    simpl. repeat f_equal; lia. }
  destruct r2 as [|b3 r3]; [done|]. destruct (lead4 _ _ && _ && _) eqn:E4; [|done].
  intros (-> & ?)%Hc. exists r3. unfold utf8_encode.
  set (x := (b0 - 240) * 262144 + (b1 - 128) * 4096 + (b2 - 128) * 64 + (b3 - 128)) in *.
  pose proof (Hd x). pose proof (Hd (x / 64)). pose proof (Hd (x / 4096)).
  rewrite !Z.div_div in * by lia. change (64 * 64) with 4096 in *. change (4096 * 64) with 262144 in *.
  assert (65536 ≤ x ≤ 0x10FFFF) by utf8_arith.
  replace (x <? 128) with false by lia. replace (x <? 2048) with false by lia.
  replace (x <? 65536) with false by lia.
  split_and!; [|utf8_arith|done].
  assert (x / 64 = (b0 - 240) * 4096 + (b1 - 128) * 64 + (b2 - 128)) by utf8_arith.
  assert (x / 4096 = (b0 - 240) * 64 + (b1 - 128)) by utf8_arith.
  assert (x / 262144 = b0 - 240) by utf8_arith.
  simpl. repeat f_equal; lia.
Qed.

Lemma from_utf8_nil_inv l : from_utf8 l = Some [] → l = [].
Proof.
  destruct l as [|b0 r]; [done|]; simpl.
  repeat (case_match; simpl; try done); intros Hf; try (apply fmap_Some in Hf as (?&?&?); done).
Qed.

(** A well-formed byte string is the encoding of its characters. *)
Lemma from_utf8_inv l cs :
  from_utf8 l = Some cs → l = utf8_encode_all cs ∧ Forall (λ c, is_scalar c = true) cs.
Proof.
  revert l. induction cs as [|c cs IH]; intros l H.
  - by rewrite (from_utf8_nil_inv _ H).
  - apply from_utf8_cons_inv in H as (l' & -> & ? & [-> ?]%IH). by split; [|constructor].
Qed.

Lemma from_utf8_app a b cs :
  from_utf8 a = Some cs → from_utf8 (a ++ b) = app cs <$> from_utf8 b.
Proof.
  revert a. induction cs as [|c cs IH]; intros a H.
  - rewrite (from_utf8_nil_inv _ H). simpl. by destruct (from_utf8 b).
  - apply from_utf8_cons_inv in H as (l' & -> & ? & H').
    rewrite <-app_assoc, from_utf8_encode, (IH _ H') by done. by destruct (from_utf8 b).
Qed.

Lemma utf8_encode_all_app a b : utf8_encode_all (a ++ b) = utf8_encode_all a ++ utf8_encode_all b.
Proof. unfold utf8_encode_all. by rewrite map_app, concat_app. Qed.

Lemma utf8_encode_all_cons c cs : utf8_encode_all (c :: cs) = utf8_encode c ++ utf8_encode_all cs.
Proof. done. Qed.

Lemma utf8_encode_nonnil c : utf8_encode c ≠ [].
Proof. unfold utf8_encode. by repeat case_if. Qed.

(** Validity splits at a character boundary. *)
Lemma valid_utf8_app a b : valid_utf8 a → (valid_utf8 (a ++ b) ↔ valid_utf8 b).
Proof.
  intros [cs H]. unfold valid_utf8. rewrite (from_utf8_app _ _ _ H).
  by destruct (from_utf8 b); split; intros [? ?]; eauto.
Qed.

Lemma ascii_valid l : Forall (λ b, 0 ≤ b < 128) l → from_utf8 l = Some l.
Proof.
  induction 1 as [|b l Hb _ IH]; [done|]. simpl.
  replace ((0 <=? b) && (b <? 128)) with true by lia. by rewrite IH.
Qed.
