(* ===== verification/Span.v ===== *)
(** * Source positions and files ([crates/align_span/src/lib.rs])

    [Span] and its [merge], [SourceFile::line_col] and the [SourceMap] that
    hands out file ids. *)
From Stdlib Require Import ZArith Lia.
From S2P Require Import Prelude Utf8.
Local Open Scope Z_scope.

Abbreviation FileId := Z (only parsing).

(** Byte-offset range [[lo, hi)] within a file; each field is a [u32]. *)
Record Span := MkSpan { file : FileId; lo : Z; hi : Z }.
#[export] Instance Span_eq_dec : EqDecision Span.
Proof. solve_decision. Defined.

(** [Span::merge]; the [debug_assert_eq!] on the file ids panics. *)
Definition merge (self other : Span) : res Span :=
  if file self =? file other
  then Ret (MkSpan (file self) (Z.min (lo self) (lo other)) (Z.max (hi self) (hi other)))
  else Panic.

Record SourceFile := MkSourceFile { sf_id : FileId; sf_name : bytes; sf_src : bytes }.

(** A [u32] increment with the overflow check of a debug build. *)
Definition u32_incr (x : Z) : res Z := if x <? U32_MAX then Ret (x + 1) else Panic.

(** The loop of [SourceFile::line_col] over the remaining characters. *)
Fixpoint line_col_loop (cs : list Z) (off byte_idx : nat) (line col : Z) : res (Z * Z) :=
  match cs with
  | [] => Ret (line, col)
  | c :: cs' =>
    if (off <=? byte_idx)%nat then Ret (line, col) else
    let byte_idx := (byte_idx + len_utf8 c)%nat in
    if c =? 10 then
      let* line := u32_incr line in line_col_loop cs' off byte_idx line 1
    else
      let* col := u32_incr col in line_col_loop cs' off byte_idx line col
  end.

(** [SourceFile::line_col]: 1-based line and column of a byte offset.  The
    contents are a [String], so decoding them cannot fail. *)
Definition line_col (self : SourceFile) (offset : Z) : res (Z * Z) :=
  let off := Nat.min (Z.to_nat offset) (length (sf_src self)) in
  let* cs := unwrap (from_utf8 (sf_src self)) in
  line_col_loop cs off 0 1 1.

(** [SourceMap]: the files in the order they were added. *)
Record SourceMap := MkSourceMap { sm_files : list SourceFile }.
Definition source_map_new : SourceMap := MkSourceMap [].

Definition add_file (self : SourceMap) (name src : bytes) : FileId * SourceMap :=
  let id := u32_of (length (sm_files self)) in
  (id, MkSourceMap (sm_files self ++ [MkSourceFile id name src])).

Definition get (self : SourceMap) (id : FileId) : res SourceFile :=
  unwrap (sm_files self !! Z.to_nat id).

Definition files (self : SourceMap) : list SourceFile := sm_files self.

(** ** Spans form a join semilattice per file *)

(** [a] covers [b]. *)
Definition covers (a b : Span) : Prop := file a = file b ∧ lo a ≤ lo b ∧ hi b ≤ hi a.

Lemma merge_same a b :
  file a = file b →
  merge a b = Ret (MkSpan (file a) (Z.min (lo a) (lo b)) (Z.max (hi a) (hi b))).
Proof. intros H. unfold merge. by rewrite (proj2 (Z.eqb_eq _ _) H). Qed.

Lemma covers_refl a : covers a a.
Proof. unfold covers. lia. Qed.

Lemma covers_trans a b c : covers a b → covers b c → covers a c.
Proof. unfold covers. intros (?&?&?) (?&?&?). split; [congruence|lia]. Qed.

(** [Span::merge] is the smallest span containing both operands: it covers
    each, and every span that covers both covers it; on spans of different
    files it panics. *)
Lemma merge_least_upper_bound a b :
  (file a = file b →
   ∃ m, merge a b = Ret m ∧ covers m a ∧ covers m b ∧
        ∀ c, covers c a → covers c b → covers c m) ∧
  (file a ≠ file b → merge a b = Panic).
Proof.
  split; intros H.
  - rewrite merge_same by done. eexists; split; [done|]. unfold covers; simpl.
    split_and!; try done; try lia.
  - unfold merge. by rewrite (proj2 (Z.eqb_neq _ _) H).
Qed.

(** ** Lines and columns *)

(** The position after reading the characters [cs] from line [line], column [col]. *)
Fixpoint advance (cs : list Z) (line col : Z) : Z * Z :=
  match cs with
  | [] => (line, col)
  | c :: cs' => if c =? 10 then advance cs' (line + 1) 1 else advance cs' line (col + 1)
  end.

(** Line: one more than the newlines read; column: one more than the
    characters read since the last of them. *)
Definition newlines (cs : list Z) : Z := Z.of_nat (count_occ Z.eq_dec cs 10).
Definition since_newline (cs : list Z) : Z := Z.of_nat (count_while (λ c, negb (c =? 10)) (reverse cs)).

Lemma advance_app a b line col :
  advance (a ++ b) line col = let '(l, c) := advance a line col in advance b l c.
Proof. revert line col. induction a as [|x a IH]; intros; simpl; [done|]. case_if; apply IH. Qed.

Lemma advance_spec cs :
  advance cs 1 1 = (1 + newlines cs, 1 + since_newline cs).
Proof.
  induction cs as [|c cs IH] using rev_ind; [done|].
  rewrite advance_app, IH. unfold newlines, since_newline; simpl.
  rewrite count_occ_app, reverse_app. simpl.
  destruct (c =? 10) eqn:E; b2p.
  - subst c. simpl. f_equal; lia.
  - destruct (Z.eq_dec c 10); [done|]. simpl. f_equal; lia.
Qed.

Lemma advance_bounds cs line col :
  1 ≤ line → 1 ≤ col →
  let '(l, c) := advance cs line col in
  line ≤ l ≤ line + Z.of_nat (length cs) ∧ 1 ≤ c ≤ col + Z.of_nat (length cs).
Proof.
  revert line col. induction cs as [|x cs IH]; intros line col Hl Hc; simpl; [lia|].
  case_if.
  - specialize (IH (line + 1) 1). destruct (advance _ _ _). lia.
  - specialize (IH line (col + 1)). destruct (advance _ _ _). lia.
Qed.

Lemma line_col_loop_spec pre post off idx line col :
  off = (idx + length (utf8_encode_all pre))%nat →
  1 ≤ line → 1 ≤ col →
  line + Z.of_nat (length pre) ≤ U32_MAX → col + Z.of_nat (length pre) ≤ U32_MAX →
  line_col_loop (pre ++ post) off idx line col = Ret (advance pre line col).
Proof.
  revert idx line col. induction pre as [|c pre IH]; intros idx line col Ho Hl Hc Hlb Hcb; simpl.
  - simpl in Ho. destruct post; simpl; [done|].
    by rewrite (proj2 (Nat.leb_le off idx)) by lia.
  - rewrite utf8_encode_all_cons, length_app, length_utf8_encode in Ho.
    pose proof (len_utf8_pos c). simpl in *.
    replace (_ <=? idx)%nat with false by (symmetry; apply Nat.leb_gt; lia).
    unfold u32_incr. case_if.
    + replace (line <? U32_MAX) with true by lia. simpl. apply IH; lia.
    + replace (col <? U32_MAX) with true by lia. simpl. apply IH; lia.
Qed.

Lemma chars_le_bytes cs : (length cs ≤ length (utf8_encode_all cs))%nat.
Proof.
  induction cs as [|c cs IH]; [done|].
  rewrite utf8_encode_all_cons, length_app, length_utf8_encode. pose proof (len_utf8_pos c). simpl. lia.
Qed.

(** [SourceFile::line_col] at the byte offset where the characters [pre] of
    the contents end is (1 + the newlines in [pre], 1 + the characters of [pre]
    after its last newline), and it does not panic on a file whose length fits
    a [u32] with room for the one-based column. *)
Lemma line_col_correct id name pre post :
  Forall (λ c, is_scalar c = true) pre → Forall (λ c, is_scalar c = true) post →
  Z.of_nat (length (utf8_encode_all pre)) < U32_MAX →
  line_col (MkSourceFile id name (utf8_encode_all pre ++ utf8_encode_all post))
    (Z.of_nat (length (utf8_encode_all pre)))
  = Ret (1 + newlines pre, 1 + since_newline pre).
Proof.
  intros Hpre Hpost Hlen. pose proof (chars_le_bytes pre).
  unfold line_col; simpl. rewrite <-utf8_encode_all_app, from_utf8_encode_all by (by apply Forall_app).
  rewrite utf8_encode_all_app, length_app, Nat2Z.id, Nat.min_l by lia. simpl.
  rewrite line_col_loop_spec by lia. by rewrite advance_spec.
Qed.

Lemma line_col_correct_witness :
  line_col (MkSourceFile 0 [] (utf8_encode_all [0x3042; 10] ++ utf8_encode_all [0x3044]))
    (Z.of_nat (length (utf8_encode_all [0x3042; 10])))
  = Ret (1 + newlines [0x3042; 10], 1 + since_newline [0x3042; 10]).
Proof. apply line_col_correct; [repeat constructor..|vm_compute; reflexivity]. Defined.


(** ** The source map hands out dense ids *)

Definition add_files (self : SourceMap) (fs : list (bytes * bytes)) : SourceMap :=
  foldl (λ sm '(name, src), (add_file sm name src).2) self fs.

(** [add_file] returns the index of the new file, [get] on that id returns
    it, and every id handed out earlier still names the same file. *)
Lemma add_file_get sm name src :
  Z.of_nat (length (files sm)) < 2 ^ 32 →
  let '(id, sm') := add_file sm name src in
  id = Z.of_nat (length (files sm)) ∧
  get sm' id = Ret (MkSourceFile id name src) ∧
  ∀ i f, get sm i = Ret f → get sm' i = Ret f.
Proof.
  unfold files. intros Hlen. unfold add_file; simpl. rewrite u32_of_small by done.
  split; [done|]. split.
  - unfold get; simpl. rewrite Nat2Z.id, list_lookup_middle; done.
  - intros i f. unfold get; simpl. destruct (sm_files sm !! Z.to_nat i) eqn:E; [|done].
    intros; simplify_eq. by rewrite (lookup_app_l_Some _ _ _ _ E).
Qed.

Lemma add_file_get_witness :
  let '(id, sm') := add_file (add_files source_map_new [([], [])]) (str "m.align") [] in
  id = 1 ∧ get sm' id = Ret (MkSourceFile id (str "m.align") []) ∧
  ∀ i f, get (add_files source_map_new [([], [])]) i = Ret f → get sm' i = Ret f.
Proof. apply (add_file_get (add_files source_map_new [([], [])]) (str "m.align") []). reflexivity. Defined.
