(* ===== verification/Diag.v ===== *)
(** * Diagnostics ([crates/align_diag/src/lib.rs])

    The accumulator every stage threads through: errors and warnings in
    emission order, with a checkpoint ([len]) and a rollback ([truncate]). *)
From Stdlib Require Import ZArith Lia.
From S2P Require Import Prelude Span.
Local Open Scope Z_scope.

Inductive Severity := Error | Warning.
#[export] Instance Severity_eq_dec : EqDecision Severity.
Proof. solve_decision. Defined.

Record Diagnostic := MkDiagnostic {
  severity : Severity;
  message : bytes;
  d_span : option Span
}.

Definition diagnostic_error (message : bytes) (span : Span) : Diagnostic :=
  MkDiagnostic Error message (Some span).
Definition diagnostic_warning (message : bytes) (span : Span) : Diagnostic :=
  MkDiagnostic Warning message (Some span).

(** Diagnostics accumulated over a single compilation. *)
Record Diagnostics := MkDiagnostics { items : list Diagnostic }.

Definition diags_new : Diagnostics := MkDiagnostics [].
Definition push (self : Diagnostics) (d : Diagnostic) : Diagnostics :=
  MkDiagnostics (items self ++ [d]).
Definition error (self : Diagnostics) (message : bytes) (span : Span) : Diagnostics :=
  push self (diagnostic_error message span).

Definition is_error (d : Diagnostic) : bool :=
  match severity d with Error => true | Warning => false end.

Definition has_errors (self : Diagnostics) : bool := existsb is_error (items self).
Definition error_count (self : Diagnostics) : nat := length (List.filter is_error (items self)).
Definition is_empty (self : Diagnostics) : bool :=
  match items self with [] => true | _ => false end.
Definition len (self : Diagnostics) : nat := length (items self).
Definition truncate (self : Diagnostics) (n : nat) : Diagnostics :=
  MkDiagnostics (take n (items self)).

(** ** Growth of the accumulator *)

(** [d'] is [d] with more diagnostics after it. *)
Definition extends (d d' : Diagnostics) : Prop := items d `prefix_of` items d'.
#[export] Instance extends_preorder : PreOrder extends.
Proof.
  split; unfold extends; repeat intro; [done|].
  by etrans.
Qed.

Lemma extends_push d x : extends d (push d x).
Proof. by apply prefix_app_r. Qed.

Lemma error_count_push d x :
  error_count (push d x) = (error_count d + (if is_error x then 1 else 0))%nat.
Proof.
  unfold error_count, push; simpl. rewrite List.filter_app, length_app. simpl. by case_if.
Qed.

Lemma error_count_error d m s : error_count (error d m s) = S (error_count d).
Proof. unfold error. rewrite error_count_push. simpl. lia. Qed.

Lemma extends_error d m s : extends d (error d m s).
Proof. apply extends_push. Qed.

Lemma error_count_extends d d' : extends d d' → (error_count d ≤ error_count d')%nat.
Proof.
  intros [l H]. unfold error_count. rewrite H, List.filter_app, length_app. lia.
Qed.

Lemma has_errors_count d : has_errors d = true ↔ (0 < error_count d)%nat.
Proof.
  unfold has_errors, error_count. induction (items d) as [|x l IH]; simpl; [split; [done|lia]|].
  destruct (is_error x); simpl; [split; [lia|done]|done].
Qed.

Arguments error_count : simpl never.
Arguments error : simpl never.

Create HintDb diag discriminated.
#[export] Hint Resolve extends_push extends_error : diag.

(** Rolling back to a checkpoint taken with [len] restores exactly the
    diagnostics of that moment, whatever a speculative pass emitted since; the
    error count and [has_errors] of the checkpoint come back with it. *)
Theorem truncate_rolls_back d emitted :
  truncate (foldl push d emitted) (len d) = d ∧
  (has_errors d = false ↔ error_count (truncate (foldl push d emitted) (len d)) = 0%nat).
Proof.
  assert (∀ l e, items (foldl push e l) = items e ++ l) as Hi.
  { induction l as [|x l IH]; intros e; simpl; [by rewrite app_nil_r|].
    rewrite IH. simpl. by rewrite <-app_assoc. }
  assert (truncate (foldl push d emitted) (len d) = d) as ->.
  { unfold truncate, len. rewrite Hi, take_app_length. by destruct d. }
  split; [done|]. pose proof (has_errors_count d). destruct (has_errors d); split; try done; lia.
Qed.
