(* ===== verification/Hash.v ===== *)
(** * wyhash final v3 ([crates/align_hash/src/lib.rs])

    The one-shot [wyhash] and the incremental [WyHashStream], on [u64] values
    written as [Z] with every wrap-around explicit.  A read past the end of a
    slice panics; the theorems show that no call does. *)
From Stdlib Require Import ZArith Lia.
From S2P Require Import Prelude.
Local Open Scope Z_scope.

Definition WY_SECRET0 : Z := 0xa0761d6478bd642f.
Definition WY_SECRET1 : Z := 0xe7037ed1a0b428db.
Definition WY_SECRET2 : Z := 0x8ebc6af09c88c6e3.
Definition WY_SECRET3 : Z := 0x589965cc75374cc3.
Definition WY_SEED : Z := 0.

Definition wymum (a b : Z) : Z * Z :=
  let r := (a * b) mod 2 ^ 128 in
  (u64 r, u64 (Z.shiftr r 64)).

Definition wymix (a b : Z) : Z :=
  let '(lo, hi) := wymum a b in Z.lxor lo hi.

Definition wyr8 (p : bytes) : res Z :=
  let* q := slice_res 0 8 p in Ret (from_le_bytes q).
Definition wyr4 (p : bytes) : res Z :=
  let* q := slice_res 0 4 p in Ret (from_le_bytes q).

(** Read 1..=3 trailing bytes into a 64-bit lane. *)
Definition wyr3 (p : bytes) (k : nat) : res Z :=
  let* a := unwrap (p !! 0%nat) in
  let* b := unwrap (p !! (k / 2)%nat) in
  let* k1 := usub k 1 in
  let* c := unwrap (p !! k1) in
  Ret (Z.lor (Z.lor (u64 (Z.shiftl a 16)) (u64 (Z.shiftl b 8))) c).

(** [&key[p..]] *)
Definition from_ (p : nat) (key : bytes) : res bytes := slice_res p (length key) key.

Definition rd8 (key : bytes) (p : nat) : res Z := let* q := from_ p key in wyr8 q.
Definition rd4 (key : bytes) (p : nat) : res Z := let* q := from_ p key in wyr4 q.

Definition shl32 (x : Z) : Z := u64 (Z.shiftl x 32).

(** The two lanes [a], [b] read from a key of at most 16 bytes; [buf] is the
    key itself, or the tail buffer that starts with it. *)
Definition short_lanes (buf : bytes) (len : nat) : res (Z * Z) :=
  if (4 <=? len)%nat then
    let off := (len / 8 * 4)%nat in
    let* a0 := rd4 buf 0 in
    let* a1 := rd4 buf off in
    let* i := usub len 4 in
    let* b0 := rd4 buf i in
    let* j := usub i off in
    let* b1 := rd4 buf j in
    Ret (Z.lor (shl32 a0) a1, Z.lor (shl32 b0) b1)
  else if (0 <? len)%nat then
    let* a := wyr3 buf len in Ret (a, 0)
  else Ret (0, 0).

Record lanes := MkLanes { seed : Z; see1 : Z; see2 : Z }.

(** One 48-byte step and one 16-byte step of the main loop, at offset [p]. *)
Definition step48 (key : bytes) (p : nat) (s : lanes) : res lanes :=
  let* k0 := rd8 key p in let* k1 := rd8 key (p + 8) in
  let* k2 := rd8 key (p + 16) in let* k3 := rd8 key (p + 24) in
  let* k4 := rd8 key (p + 32) in let* k5 := rd8 key (p + 40) in
  Ret (MkLanes (wymix (Z.lxor k0 WY_SECRET1) (Z.lxor k1 (seed s)))
               (wymix (Z.lxor k2 WY_SECRET2) (Z.lxor k3 (see1 s)))
               (wymix (Z.lxor k4 WY_SECRET3) (Z.lxor k5 (see2 s)))).

Definition step16 (key : bytes) (p : nat) (s : lanes) : res lanes :=
  let* k0 := rd8 key p in let* k1 := rd8 key (p + 8) in
  Ret (MkLanes (wymix (Z.lxor k0 WY_SECRET1) (Z.lxor k1 (seed s))) (see1 s) (see2 s)).

(** [seed ^= see1 ^ see2] *)
Definition fold_lanes (s : lanes) : lanes :=
  MkLanes (Z.lxor (seed s) (Z.lxor (see1 s) (see2 s))) (see1 s) (see2 s).

(** [while i > 48 { ... p += 48; i -= 48; }] *)
Fixpoint loop48 (fuel : nat) (key : bytes) (i p : nat) (s : lanes) : res (nat * nat * lanes) :=
  match fuel with
  | O => OutOfFuel
  | S fuel =>
    if (48 <? i)%nat then
      let* s := step48 key p s in loop48 fuel key (i - 48) (p + 48) s
    else Ret (i, p, s)
  end.

(** [while i > 16 { ... i -= 16; p += 16; }] *)
Fixpoint loop16 (fuel : nat) (key : bytes) (i p : nat) (s : lanes) : res (nat * nat * lanes) :=
  match fuel with
  | O => OutOfFuel
  | S fuel =>
    if (16 <? i)%nat then
      let* s := step16 key p s in loop16 fuel key (i - 16) (p + 16) s
    else Ret (i, p, s)
  end.

Definition init_seed (seed : Z) : Z := Z.lxor seed (wymix (Z.lxor seed WY_SECRET0) WY_SECRET1).

(** The finalization both entry points share. *)
Definition wyfinal (a b seed : Z) (len : nat) : Z :=
  let '(lo, hi) := wymum (Z.lxor a WY_SECRET1) (Z.lxor b seed) in
  wymix (Z.lxor (Z.lxor lo WY_SECRET0) (u64 (Z.of_nat len))) (Z.lxor hi WY_SECRET1).

Definition wyhash (key : bytes) (seed0 : Z) : res Z :=
  let len := length key in
  let sd := init_seed seed0 in
  if (len <=? 16)%nat then
    let* '(a, b) := short_lanes key len in
    Ret (wyfinal a b sd len)
  else
    let* '(i, p, s) :=
      (if (48 <? len)%nat then
         let* '(i, p, s) := loop48 (S len) key len 0 (MkLanes sd sd sd) in
         Ret (i, p, fold_lanes s)
       else Ret (len, 0%nat, MkLanes sd sd sd)) in
    let* '(_, _, s) := loop16 (S len) key i p s in
    let* a := rd8 key (len - 16) in
    let* b := rd8 key (len - 8) in
    Ret (wyfinal a b (seed s) len).

(** ** The incremental state *)
Record WyHashStream := MkStream {
  expected : nat; received : nat;
  triple_bytes : nat; process_bytes : nat; processed : nat;
  s_lanes : lanes;
  block : bytes; block_len : nat;
  tail : bytes; tail_len : nat
}.

Definition for_len (seed0 : Z) (len : nat) : WyHashStream :=
  let triple := if (48 <? len)%nat then ((len - 1) / 48 * 48)%nat else 0%nat in
  let remaining := (len - triple)%nat in
  let single := if (16 <? len)%nat then ((remaining - 1) / 16 * 16)%nat else 0%nat in
  let sd := init_seed seed0 in
  MkStream len 0 triple (triple + single) 0 (MkLanes sd sd sd)
    (replicate 48 0) 0 (replicate 16 0) 0.

Definition update_tail (self : WyHashStream) (bs : bytes) : res WyHashStream :=
  let cap := length (tail self) in
  if (cap <=? length bs)%nat then
    let* t := slice_res (length bs - cap) (length bs) bs in
    Ret (MkStream (expected self) (received self) (triple_bytes self) (process_bytes self)
           (processed self) (s_lanes self) (block self) (block_len self) t cap)
  else
    let keep := Nat.min (tail_len self) (cap - length bs) in
    (* copy_within(tail_len - keep..tail_len, 0) *)
    let* t :=
      (if (0 <? keep)%nat then
         let* from := usub (tail_len self) keep in
         let* mid := slice_res from (tail_len self) (tail self) in
         splice 0 mid (tail self)
       else Ret (tail self)) in
    let* t := splice keep bs t in
    Ret (MkStream (expected self) (received self) (triple_bytes self) (process_bytes self)
           (processed self) (s_lanes self) (block self) (block_len self) t (keep + length bs)).

Definition process_block (self : WyHashStream) (size : nat) : res WyHashStream :=
  let* s := (if (size =? 48)%nat then step48 (block self) 0 (s_lanes self)
             else step16 (block self) 0 (s_lanes self)) in
  let processed := (processed self + size)%nat in
  let s := if negb (triple_bytes self =? 0)%nat && (processed =? triple_bytes self)%nat
           then fold_lanes s else s in
  Ret (MkStream (expected self) (received self) (triple_bytes self) (process_bytes self)
         processed s (block self) 0 (tail self) (tail_len self)).

(** The buffering loop of [update]. *)
Fixpoint update_loop (fuel : nat) (bs : bytes) (cursor : nat) (self : WyHashStream) : res WyHashStream :=
  match fuel with
  | O => OutOfFuel
  | S fuel =>
    if (cursor <? length bs)%nat && (processed self + block_len self <? process_bytes self)%nat then
      let target := if (processed self <? triple_bytes self)%nat then 48%nat else 16%nat in
      let* r := usub (process_bytes self) (processed self) in
      let* remaining_prefix := usub r (block_len self) in
      let* room := usub target (block_len self) in
      let take := Nat.min (Nat.min room remaining_prefix) (length bs - cursor) in
      let* part := slice_res cursor (cursor + take) bs in
      let* b := splice (block_len self) part (block self) in
      let self := MkStream (expected self) (received self) (triple_bytes self) (process_bytes self)
                    (processed self) (s_lanes self) b (block_len self + take)
                    (tail self) (tail_len self) in
      let* self := (if (block_len self =? target)%nat then process_block self target else Ret self) in
      update_loop fuel bs (cursor + take) self
    else Ret self
  end.

Definition update (self : WyHashStream) (bs : bytes) : res (bool * WyHashStream) :=
  let* room := usub (expected self) (received self) in
  if (room <? length bs)%nat then Ret (false, self) else
  let* self := update_tail self bs in
  let self := MkStream (expected self) (received self + length bs) (triple_bytes self)
                (process_bytes self) (processed self) (s_lanes self) (block self)
                (block_len self) (tail self) (tail_len self) in
  let* self := update_loop (S (length bs)) bs 0 self in
  Ret (true, self).

Definition finish (self : WyHashStream) : res (option Z) :=
  if negb (received self =? expected self)%nat
     || negb (processed self =? process_bytes self)%nat
     || negb (block_len self =? 0)%nat
  then Ret None
  else
    let* '(a, b) :=
      (if (expected self <=? 16)%nat then short_lanes (tail self) (expected self)
       else
         let* a := rd8 (tail self) 0 in
         let* b := rd8 (tail self) 8 in Ret (a, b)) in
    Ret (Some (wyfinal a b (seed (s_lanes self)) (expected self))).

Example wyhash_reference_vectors :
  wyhash [] 0 = Ret 0x0409638ee2bde459 ∧
  wyhash (str "a") 1 = Ret 0xa8412d091b5fe0a9 ∧
  wyhash (str "abc") 2 = Ret 0x32dd92e4b2915153 ∧
  wyhash (str "message digest") 3 = Ret 0x8619124089a3a16b ∧
  wyhash (str "abcdefghijklmnopqrstuvwxyz") 4 = Ret 0x7a43afb61d7f5f40 ∧
  wyhash (str "score") 0 = Ret 0x1300a50cfadb78d9.
Proof. vm_compute. repeat split. Qed.

(** ** Range and totality *)

Lemma u64_range x : 0 ≤ u64 x < 2 ^ 64.
Proof. apply Z.mod_pos_bound. lia. Qed.

Lemma lxor_range n a b :
  0 ≤ n → 0 ≤ a < 2 ^ n → 0 ≤ b < 2 ^ n → 0 ≤ Z.lxor a b < 2 ^ n.
Proof.
  intros Hn Ha Hb.
  assert (0 ≤ Z.lxor a b) as Hpos by (apply Z.lxor_nonneg; lia).
  split; [done|]. rewrite <-(Z.mod_small a (2 ^ n)), <-(Z.mod_small b (2 ^ n)) by lia.
  rewrite <-!Z.land_ones by done.
  assert (Z.lxor (Z.land a (Z.ones n)) (Z.land b (Z.ones n)) = Z.land (Z.lxor a b) (Z.ones n)) as ->.
  { apply Z.bits_inj'. intros i Hi. rewrite Z.land_spec, !Z.lxor_spec, !Z.land_spec. by destruct (Z.testbit (Z.ones n) i); rewrite ?andb_true_r, ?andb_false_r. }
  rewrite Z.land_ones by done. apply Z.mod_pos_bound. lia.
Qed.

Lemma wymix_range a b : 0 ≤ wymix a b < 2 ^ 64.
Proof. apply lxor_range; [lia|apply u64_range..]. Qed.

Lemma wyfinal_range a b s len : 0 ≤ wyfinal a b s len < 2 ^ 64.
Proof. apply wymix_range. Qed.

Lemma from_ok p (key : bytes) : (p ≤ length key)%nat → from_ p key = Ret (drop p key).
Proof. intros. unfold from_. by rewrite slice_res_ok, slice_full by lia. Qed.

Lemma rd8_ok key p : (p + 8 ≤ length key)%nat → rd8 key p = Ret (from_le_bytes (slice p (p + 8) key)).
Proof.
  intros. unfold rd8, wyr8. rewrite from_ok by lia; simpl.
  rewrite slice_res_ok by (rewrite ?length_drop; lia); simpl. unfold slice. by rewrite drop_0, Nat.add_sub', Nat.sub_0_r.
Qed.

Lemma rd4_ok key p : (p + 4 ≤ length key)%nat → rd4 key p = Ret (from_le_bytes (slice p (p + 4) key)).
Proof.
  intros. unfold rd4, wyr4. rewrite from_ok by lia; simpl.
  rewrite slice_res_ok by (rewrite ?length_drop; lia); simpl. unfold slice. by rewrite drop_0, Nat.add_sub', Nat.sub_0_r.
Qed.

(** Reads agree on buffers that agree where they read. *)
Lemma slice_agree {A} n off a b (k1 k2 : list A) :
  slice off (off + n) k1 = take n k2 → (a ≤ b)%nat → (b ≤ n)%nat →
  slice a b k2 = slice (off + a) (off + b) k1.
Proof.
  intros H Hab Hb. rewrite <-(slice_take a b n k2) by done. rewrite <-H.
  by rewrite slice_slice by lia.
Qed.

Lemma rd8_agree n off k1 k2 p :
  slice off (off + n) k1 = take n k2 → (off + n ≤ length k1)%nat → (n ≤ length k2)%nat →
  (p + 8 ≤ n)%nat → rd8 k2 p = rd8 k1 (off + p).
Proof.
  intros. rewrite !rd8_ok by lia. f_equal.
  rewrite (slice_agree n off p (p + 8) k1 k2) by (done || lia). by rewrite Nat.add_assoc.
Qed.

Lemma rd4_agree n k1 k2 p :
  take n k1 = take n k2 → (n ≤ length k1)%nat → (n ≤ length k2)%nat →
  (p + 4 ≤ n)%nat → rd4 k2 p = rd4 k1 p.
Proof.
  intros. rewrite !rd4_ok by lia. do 2 f_equal.
  apply (slice_agree n 0 p (p + 4) k1 k2); [by rewrite <-H; unfold slice; rewrite drop_0, Nat.add_0_l, Nat.sub_0_r|lia..].
Qed.

Lemma step48_ok key p s : (p + 48 ≤ length key)%nat → ∃ s', step48 key p s = Ret s'.
Proof. intros. unfold step48. rewrite !rd8_ok by lia. simpl. eauto. Qed.

Lemma step16_ok key p s : (p + 16 ≤ length key)%nat → ∃ s', step16 key p s = Ret s'.
Proof. intros. unfold step16. rewrite !rd8_ok by lia. simpl. eauto. Qed.

Lemma step48_agree off k1 k2 s :
  slice off (off + 48) k1 = take 48 k2 → (off + 48 ≤ length k1)%nat → (48 ≤ length k2)%nat →
  step48 k2 0 s = step48 k1 off s.
Proof.
  intros. unfold step48.
  rewrite !(rd8_agree 48 off k1 k2) by (done || lia). by rewrite Nat.add_0_r.
Qed.

Lemma step16_agree off k1 k2 s :
  slice off (off + 16) k1 = take 16 k2 → (off + 16 ≤ length k1)%nat → (16 ≤ length k2)%nat →
  step16 k2 0 s = step16 k1 off s.
Proof.
  intros. unfold step16.
  rewrite !(rd8_agree 16 off k1 k2) by (done || lia). by rewrite Nat.add_0_r.
Qed.

Lemma div8_mul4 len : (4 ≤ len ≤ 16)%nat → (len / 8 * 4 + 4 ≤ len)%nat.
Proof. intros. do 17 (destruct len as [|len]; [cbv; lia|]). lia. Qed.

Lemma half_lt n : (0 < n)%nat → (n / 2 < n)%nat.
Proof. intros. apply Nat.div_lt; lia. Qed.

Lemma short_lanes_ok buf len :
  (len ≤ 16)%nat → (len ≤ length buf)%nat → ∃ ab, short_lanes buf len = Ret ab.
Proof.
  intros Hl Hb. unfold short_lanes. repeat case_if; b2p; [..|eauto].
  - pose proof (div8_mul4 len). rewrite usub_ok by lia. cbn [res_bind].
    rewrite usub_ok by lia. cbn [res_bind]. rewrite !rd4_ok by lia. cbn [res_bind]. eauto.
  - unfold wyr3. rewrite usub_ok by lia. cbn [res_bind].
    destruct (lookup_lt_is_Some_2 buf 0) as [x0 ->]; [lia|].
    destruct (lookup_lt_is_Some_2 buf (len / 2)) as [x1 ->].
    { pose proof (half_lt len). lia. }
    destruct (lookup_lt_is_Some_2 buf (len - 1)) as [x2 ->]; [lia|]. simpl. eauto.
Qed.

Lemma take_lookup_agree {A} n (k1 k2 : list A) i : take n k1 = take n k2 → (i < n)%nat → k2 !! i = k1 !! i.
Proof. intros H Hi. rewrite <-(lookup_take_lt k1 n i Hi), <-(lookup_take_lt k2 n i Hi). by rewrite H. Qed.

Lemma short_lanes_agree len k1 k2 :
  take len k1 = take len k2 → (len ≤ 16)%nat → (len ≤ length k1)%nat → (len ≤ length k2)%nat →
  short_lanes k2 len = short_lanes k1 len.
Proof.
  intros Ht Hl H1 H2. unfold short_lanes. repeat case_if; b2p; [..|done].
  - pose proof (div8_mul4 len). rewrite usub_ok by lia. cbn [res_bind]. rewrite usub_ok by lia. cbn [res_bind].
    by rewrite !(rd4_agree len k1 k2) by (done || lia).
  - unfold wyr3. pose proof (half_lt len).
    rewrite !(take_lookup_agree len k1 k2) by (done || lia).
    rewrite usub_ok by lia. cbn [res_bind]. by rewrite (take_lookup_agree len k1 k2) by (done || lia).
Qed.

(** ** The block structure both entry points follow

    A key of [len] bytes is read as [triples len] blocks of 48 bytes, then
    [singles len] blocks of 16; the last 1 to 16 bytes only enter the final lanes. *)
Definition triples (len : nat) : nat := ((len - 1) / 48)%nat.
Definition singles (len : nat) : nat := ((len - 48 * triples len - 1) / 16)%nat.

Fixpoint raw48 (key : bytes) (s0 : lanes) (k : nat) : res lanes :=
  match k with
  | O => Ret s0
  | S k => let* s := raw48 key s0 k in step48 key (48 * k) s
  end.

Fixpoint raw16 (key : bytes) (base : nat) (s0 : lanes) (m : nat) : res lanes :=
  match m with
  | O => Ret s0
  | S m => let* s := raw16 key base s0 m in step16 key (base + 16 * m) s
  end.

Definition after_triples (t : nat) (s : lanes) : lanes := if (t =? 0)%nat then s else fold_lanes s.

Lemma raw48_ok key s0 k : (48 * k ≤ length key)%nat → ∃ s, raw48 key s0 k = Ret s.
Proof.
  induction k as [|k IH]; intros Hk; cbn [raw48]; [eauto|].
  destruct IH as [s ->]; [lia|]. cbn [res_bind]. apply step48_ok. lia.
Qed.

Lemma raw16_ok key base s0 m : (base + 16 * m ≤ length key)%nat → ∃ s, raw16 key base s0 m = Ret s.
Proof.
  induction m as [|m IH]; intros Hm; cbn [raw16]; [eauto|].
  destruct IH as [s ->]; [lia|]. cbn [res_bind]. apply step16_ok. lia.
Qed.

Lemma triples_bound len : (0 < len)%nat → (48 * triples len < len ≤ 48 * triples len + 48)%nat.
Proof.
  intros. unfold triples. pose proof (Nat.div_mod_eq (len - 1) 48). pose proof (Nat.mod_upper_bound (len - 1) 48).
  lia.
Qed.

Lemma singles_bound len :
  (0 < len)%nat →
  (48 * triples len + 16 * singles len < len ≤ 48 * triples len + 16 * singles len + 16)%nat.
Proof.
  intros. pose proof (triples_bound len). unfold singles.
  pose proof (Nat.div_mod_eq (len - 48 * triples len - 1) 16).
  pose proof (Nat.mod_upper_bound (len - 48 * triples len - 1) 16). lia.
Qed.

Lemma loop48_spec fuel key s0 k s :
  (0 < length key)%nat → (k ≤ triples (length key))%nat → (length key < fuel + 48 * k)%nat →
  raw48 key s0 k = Ret s →
  ∃ r, raw48 key s0 (triples (length key)) = Ret r ∧
    loop48 fuel key (length key - 48 * k) (48 * k) s
    = Ret (length key - 48 * triples (length key), 48 * triples (length key), r)%nat.
Proof.
  intros Hpos. pose proof (triples_bound _ Hpos).
  revert k s. induction fuel as [|fuel IH]; intros k s Hk Hf Hs; [lia|].
  cbn [loop48]. destruct (decide (k = triples (length key))) as [->|].
  - exists s. replace (48 <? _)%nat with false by (symmetry; apply Nat.ltb_ge; lia). done.
  - replace (48 <? _)%nat with true by (symmetry; apply Nat.ltb_lt; lia).
    destruct (step48_ok key (48 * k) s) as [s' Hs']; [lia|]. rewrite Hs'. cbn [res_bind].
    replace (length key - 48 * k - 48)%nat with (length key - 48 * S k)%nat by lia.
    replace (48 * k + 48)%nat with (48 * S k)%nat by lia.
    apply IH; [lia..|]. cbn [raw48]. by rewrite Hs.
Qed.

Lemma loop16_spec fuel key base s0 m s :
  let len := length key in
  (0 < len)%nat → base = (48 * triples len)%nat → (m ≤ singles len)%nat → (len < fuel + (base + 16 * m))%nat →
  raw16 key base s0 m = Ret s →
  ∃ r i, raw16 key base s0 (singles len) = Ret r ∧
    loop16 fuel key (len - (base + 16 * m)) (base + 16 * m) s = Ret (i, base + 16 * singles len, r)%nat.
Proof.
  intros len Hpos Hbase. pose proof (singles_bound _ Hpos).
  revert m s. induction fuel as [|fuel IH]; intros m s Hm Hf Hs; [unfold len in *; lia|].
  cbn [loop16]. destruct (decide (m = singles len)) as [->|].
  - exists s. replace (16 <? _)%nat with false by (symmetry; apply Nat.ltb_ge; unfold len in *; lia). eauto.
  - replace (16 <? _)%nat with true by (symmetry; apply Nat.ltb_lt; unfold len in *; lia).
    destruct (step16_ok key (base + 16 * m) s) as [s' Hs']; [unfold len in *; lia|]. rewrite Hs'. cbn [res_bind].
    replace (len - (base + 16 * m) - 16)%nat with (len - (base + 16 * S m))%nat by lia.
    replace (base + 16 * m + 16)%nat with (base + 16 * S m)%nat by lia.
    apply IH; [lia..|]. cbn [raw16]. by rewrite Hs.
Qed.

(** The one-shot hash in terms of the block structure. *)
Lemma wyhash_spec key seed0 :
  let len := length key in
  let sd := init_seed seed0 in
  ∃ r s a b,
    raw48 key (MkLanes sd sd sd) (triples len) = Ret r ∧
    raw16 key (48 * triples len) (after_triples (triples len) r) (singles len) = Ret s ∧
    (if (len <=? 16)%nat then short_lanes key len
     else let* a := rd8 key (len - 16) in let* b := rd8 key (len - 8) in Ret (a, b)) = Ret (a, b) ∧
    wyhash key seed0 = Ret (wyfinal a b (seed s) len).
Proof.
  intros len sd. subst len. unfold wyhash. fold sd. destruct (Nat.leb_spec (length key) 16) as [Hlen|Hlen].
  - destruct (short_lanes_ok key (length key)) as [[a b] Hab]; [done..|]. rewrite Hab. cbn [res_bind].
    assert (triples (length key) = 0%nat) as Ht by (apply Nat.div_small; lia). rewrite Ht.
    assert (singles (length key) = 0%nat) as Hm by (unfold singles; rewrite Ht; apply Nat.div_small; lia). rewrite Hm.
    eexists _, _, _, _. done.
  - assert (0 < length key)%nat as Hpos by lia.
    pose proof (triples_bound _ Hpos). pose proof (singles_bound _ Hpos). 
    destruct (loop48_spec (S (length key)) key (MkLanes sd sd sd) 0 (MkLanes sd sd sd)) as (r & Hr & Hloop);
      [done|lia|lia|done|]. 
    destruct (raw16_ok key (48 * triples (length key)) (after_triples (triples (length key)) r) (singles (length key))) as [s Hs]; [lia|].
    destruct (loop16_spec (S (length key)) key (48 * triples (length key)) (after_triples (triples (length key)) r) 0
                (after_triples (triples (length key)) r)) as (s' & i & Hs' & Hloop16);
      [done|done|lia|lia|done|].  simplify_eq.
    rewrite !Nat.mul_0_r, ?Nat.add_0_r, Nat.sub_0_r in *.
    rewrite !rd8_ok by (lia). exists r, s'. eexists _, _. split; [done|]. split; [done|]. split; [done|].
    destruct (Nat.ltb_spec 48 (length key)) as [H48|H48].
    + rewrite Hloop. cbn [res_bind].
      replace (fold_lanes r) with (after_triples (triples (length key)) r).
      2:{ unfold after_triples. by replace (triples (length key) =? 0)%nat with false by (symmetry; apply Nat.eqb_neq; lia). }
      rewrite Hloop16. done.
    + cbn [res_bind]. assert (triples (length key) = 0%nat) as Ht by lia. rewrite Ht in *.
      cbn [raw48] in Hr. injection Hr as <-. unfold after_triples in *. simpl in *.
      rewrite Nat.sub_0_r in *. rewrite Hloop16. done.
Qed.

Lemma wyhash_ret key seed0 : ∃ h, wyhash key seed0 = Ret h ∧ 0 ≤ h < 2 ^ 64.
Proof.
  destruct (wyhash_spec key seed0) as (r & s & a & b & _ & _ & _ & ->).
  eexists; split; [done|]. apply wyfinal_range.
Qed.

(** [wyhash] returns on every key and seed (no slice read is out of range,
    no loop runs on) and the result is a [u64]. *)
Lemma wyhash_total key seed0 : ∃ h, wyhash key seed0 = Ret h ∧ 0 ≤ h < 2 ^ 64.
Proof. apply wyhash_ret. Qed.

(** ** The stream refines the one-shot hash *)
Section Stream.
Context (key : bytes) (seed0 : Z).
Let len := length key.
Let t := triples len.
Let m := singles len.
Let s0 := let sd := init_seed seed0 in MkLanes sd sd sd.

(** The lanes after the first [p] processed bytes. *)
Inductive at_block (p : nat) (s : lanes) : Prop :=
  | in_triples k : (k < t)%nat → p = (48 * k)%nat → raw48 key s0 k = Ret s → at_block p s
  | in_singles j r : (j ≤ m)%nat → p = (48 * t + 16 * j)%nat → raw48 key s0 t = Ret r →
      raw16 key (48 * t) (after_triples t r) j = Ret s → at_block p s.

Definition target_at (p : nat) : nat := if (p <? 48 * t)%nat then 48%nat else 16%nat.

(** The configuration the declared length fixes, the lanes and the partial
    block after [n] bytes of the key were buffered. *)
Record buffered (n : nat) (st : WyHashStream) : Prop := {
  bf_expected : expected st = len;
  bf_triple : triple_bytes st = (48 * t)%nat;
  bf_process : process_bytes st = (48 * t + 16 * m)%nat;
  bf_lanes : at_block (processed st) (s_lanes st);
  bf_count : (processed st + block_len st)%nat = Nat.min n (48 * t + 16 * m);
  bf_block : length (block st) = 48%nat;
  bf_room : (block_len st < target_at (processed st))%nat;
  bf_content : take (block_len st) (block st) = slice (processed st) (processed st + block_len st) key
}.

(** The last (up to 16) of the [n] bytes received. *)
Record tailed (n : nat) (st : WyHashStream) : Prop := {
  tl_size : length (tail st) = 16%nat;
  tl_len : tail_len st = Nat.min 16 n;
  tl_content : take (tail_len st) (tail st) = slice (n - tail_len st) n key
}.

Record streamed (n : nat) (st : WyHashStream) : Prop := {
  st_received : received st = n;
  st_bound : (n ≤ len)%nat;
  st_buffered : buffered n st;
  st_tailed : tailed n st
}.

Lemma blocks_fit : (48 * t + 16 * m ≤ len)%nat.
Proof.
  destruct (decide (len = 0)%nat) as [E|E].
  - unfold m, t. rewrite E. cbv. lia.
  - pose proof (singles_bound len). fold t m in H. lia.
Qed.

Lemma for_len_streamed : streamed 0 (for_len seed0 len).
Proof.
  assert ((if (48 <? len)%nat then ((len - 1) / 48 * 48)%nat else 0%nat) = (48 * t)%nat) as Ht.
  { unfold t, triples. destruct (Nat.ltb_spec 48 len); [lia|].
    rewrite Nat.div_small by lia. lia. }
  assert ((if (16 <? len)%nat then ((len - 48 * t - 1) / 16 * 16)%nat else 0%nat) = (16 * m)%nat) as Hm.
  { unfold m, singles. fold t. destruct (Nat.ltb_spec 16 len); [lia|].
    rewrite Nat.div_small by lia. lia. }
  unfold for_len. rewrite Ht, Hm.
  split; [done|lia| |split; simpl; [done|lia|by rewrite slice_nil]].
  split; simpl; try done.
  - destruct (decide (t = 0)%nat) as [E|E].
    + eapply (in_singles _ _ 0 s0); [lia|lia| |]; unfold after_triples; rewrite E; done.
    + eapply (in_triples _ _ 0); [lia|done|done].
  - unfold target_at. case_if; lia.
Qed.

(** Where a full block ends, and what processing it gives. *)
Lemma at_block_room p s b :
  at_block p s → (p + b < 48 * t + 16 * m)%nat → (b < target_at p)%nat →
  (p + target_at p ≤ 48 * t + 16 * m)%nat.
Proof.
  unfold target_at. intros [k Hk -> _|j r Hj -> _ _] Hb; case_if; b2p; lia.
Qed.

Lemma process_block_spec n st tgt :
  tgt = target_at (processed st) →
  at_block (processed st) (s_lanes st) → triple_bytes st = (48 * t)%nat →
  length (block st) = 48%nat → block_len st = target_at (processed st) →
  (processed st + target_at (processed st) ≤ 48 * t + 16 * m)%nat →
  take (block_len st) (block st) = slice (processed st) (processed st + block_len st) key →
  expected st = len → process_bytes st = (48 * t + 16 * m)%nat →
  (processed st + block_len st)%nat = Nat.min n (48 * t + 16 * m) →
  ∃ st', process_block st tgt = Ret st' ∧ buffered n st' ∧
    received st' = received st ∧ tail st' = tail st ∧ tail_len st' = tail_len st.
Proof.
  intros -> Hl Ht Hb Hbl Hfit Hc He Hp Hn. rewrite Hbl in *. pose proof blocks_fit.
  unfold process_block, target_at in *. destruct Hl as [k Hk Hpk Hr|j r Hj Hpj Hr Hs].
  - replace (processed st <? 48 * t)%nat with true in * by (symmetry; apply Nat.ltb_lt; lia).
    cbn [Nat.eqb]. rewrite (step48_agree (processed st) key) by (fold len; done || lia).
    destruct (step48_ok key (processed st) (s_lanes st)) as [s' Hs']; [fold len; lia|].
    rewrite Hs'. cbn [res_bind]. eexists; split; [done|]. split; [|done]. split; simpl; try done; try lia.
    + assert (raw48 key s0 (S k) = Ret s') as Hr'.
      { cbn [raw48]. rewrite Hr. cbn [res_bind]. by rewrite <-Hpk. }
      rewrite Ht. destruct (decide (S k = t)) as [E|E].
      * replace (negb _ && _) with true.
        2:{ symmetry; apply andb_true_intro. rewrite negb_true_iff, Nat.eqb_neq, Nat.eqb_eq. lia. }
        eapply (in_singles _ _ 0 s'); [lia|lia|by rewrite <-E|]. unfold after_triples.
        by replace (t =? 0)%nat with false by (symmetry; apply Nat.eqb_neq; lia).
      * replace (negb _ && _) with false.
        2:{ symmetry; apply andb_false_intro2. apply Nat.eqb_neq. lia. }
        eapply (in_triples _ _ (S k)); [lia|lia|done].
    + unfold target_at. case_if; lia.
    + by rewrite Nat.add_0_r, slice_nil.
  - replace (processed st <? 48 * t)%nat with false in * by (symmetry; apply Nat.ltb_ge; lia).
    cbn [Nat.eqb]. rewrite (step16_agree (processed st) key) by (fold len; done || lia).
    destruct (step16_ok key (processed st) (s_lanes st)) as [s' Hs']; [fold len; lia|].
    rewrite Hs'. cbn [res_bind]. eexists; split; [done|]. split; [|done]. split; simpl; try done; try lia.
    + rewrite Ht. replace (_ && (_ =? 48 * t)%nat) with false.
      2:{ symmetry; apply andb_false_intro2. apply Nat.eqb_neq. lia. }
      eapply (in_singles _ _ (S j) r); [lia|lia|done|].
      cbn [raw16]. rewrite Hs. cbn [res_bind]. by rewrite <-Hpj.
    + unfold target_at. case_if; lia.
    + by rewrite Nat.add_0_r, slice_nil.
Qed.

(** Appending a part of the input to the partial block. *)
Lemma splice_content (b : bytes) bl part p q :
  length b = 48%nat → (bl + length part ≤ 48)%nat → take bl b = slice p (p + bl) key →
  part = slice (p + bl) q key → (p + bl + length part = q)%nat →
  ∃ b', splice bl part b = Ret b' ∧ length b' = 48%nat ∧
        take (bl + length part) b' = slice p q key.
Proof.
  intros Hb Hfit Hc Hpart Hq. rewrite splice_ok by lia. eexists; split; [done|]. split.
  - rewrite !length_app, length_take, length_drop. lia.
  - rewrite app_assoc, take_app_le by (rewrite length_app, length_take; lia).
    rewrite take_ge by (rewrite length_app, length_take; lia).
    rewrite Hc, Hpart. symmetry. apply slice_app; lia.
Qed.

Lemma slice_input n (bs : bytes) a b :
  slice n (n + length bs) key = bs → (b ≤ length bs)%nat → slice a b bs = slice (n + a) (n + b) key.
Proof. intros Hbs Hb. rewrite <-Hbs at 1. by rewrite slice_slice by lia. Qed.

Lemma update_loop_spec fuel bs n0 c st :
  slice n0 (n0 + length bs) key = bs → (n0 + length bs ≤ len)%nat → (c ≤ length bs)%nat →
  (length bs < fuel + c)%nat → buffered (n0 + c) st →
  ∃ st', update_loop fuel bs c st = Ret st' ∧ buffered (n0 + length bs) st' ∧
    received st' = received st ∧ tail st' = tail st ∧ tail_len st' = tail_len st.
Proof.
  intros Hbs Hfit. revert c st. induction fuel as [|fuel IH]; intros c st Hc Hf Hst; [lia|].
  pose proof Hst as [He Ht Hp Hl Hn Hb Hr Hcont]. cbn [update_loop].
  destruct (_ && _) eqn:E; b2p.
  2:{ exists st. split; [done|]. split; [|done]. split; try done. rewrite Hn.
      apply andb_false_iff in E as [E|E]; b2p; lia. }
  fold (target_at (processed st)). rewrite Ht. fold (target_at (processed st)).
  pose proof (at_block_room _ _ (block_len st) Hl) as Hroom.
  assert (target_at (processed st) ≤ 48)%nat as Htgt by (unfold target_at; case_if; lia).
  rewrite Hp. rewrite (usub_ok (48 * t + 16 * m)) by lia. cbn [res_bind].
  rewrite usub_ok by lia. cbn [res_bind]. rewrite usub_ok by lia. cbn [res_bind].
  set (tk := Nat.min _ _). rewrite slice_res_ok by lia. cbn [res_bind].
  assert (length (slice c (c + tk) bs) = tk) as Hlp by (rewrite slice_length; lia).
  destruct (splice_content (block st) (block_len st) (slice c (c + tk) bs) (processed st) (n0 + c + tk))
    as (b' & -> & Hb' & Hc'); [done|lia|done| |lia|].
  { rewrite (slice_input n0) by (done || lia). f_equal; lia. }
  cbn [res_bind block_len]. rewrite Hlp in Hc'.
  destruct (_ =? _)%nat eqn:Efull; b2p.
  - match goal with |- context [process_block ?s ?g] =>
      destruct (process_block_spec (n0 + (c + tk)) s g) as (st' & -> & Hbuf & Hrec & Htl & Htll) end;
      simpl; try done; try lia.
    { rewrite Hc'. f_equal. lia. }
    cbn [res_bind]. destruct (IH (c + tk)%nat st') as (st'' & -> & Hbuf' & Hr' & Ht' & Htl'); [lia|lia|done|].
    exists st''. split; [done|]. split; [done|]. by rewrite Hr', Ht', Htl', Hrec, Htl, Htll.
  - cbn [res_bind]. edestruct (IH (c + tk)%nat) as (st'' & -> & Hbuf' & Hr' & Ht' & Htl'); [lia|lia| |].
    { split; simpl; try done; try lia. rewrite Hc'. f_equal. lia. }
    exists st''. done.
Qed.

Lemma update_tail_spec n bs st :
  slice n (n + length bs) key = bs → (n + length bs ≤ len)%nat → tailed n st →
  ∃ st', update_tail st bs = Ret st' ∧ tailed (n + length bs) st' ∧
    received st' = received st ∧ (∀ k, buffered k st → buffered k st').
Proof.
  intros Hbs Hfit [Hsz Hln Hc]. unfold update_tail. rewrite Hsz.
  destruct (Nat.leb_spec 16 (length bs)) as [Hbig|Hbig].
  - rewrite slice_res_ok by lia. cbn [res_bind]. eexists; split; [done|]. split; [|split; [done|]].
    + split; cbn [tail tail_len]; [rewrite slice_length; lia|lia|].
      rewrite take_ge by (rewrite slice_length; lia).
      rewrite (slice_input n) by (done || lia). f_equal; lia.
    + intros k []. by split.
  - set (keep := Nat.min (tail_len st) (16 - length bs)).
    assert (∃ tl, (if (0 <? keep)%nat then let* from := usub (tail_len st) keep in
         let* mid := slice_res from (tail_len st) (tail st) in splice 0 mid (tail st)
       else Ret (tail st)) = Ret tl ∧ length tl = 16%nat ∧ take keep tl = slice (n - keep) n key) as (tl & -> & Htl & Hk).
    { destruct (Nat.ltb_spec 0 keep) as [Hk|Hk].
      - rewrite usub_ok by lia. cbn [res_bind]. rewrite slice_res_ok by lia. cbn [res_bind].
        assert (length (slice (tail_len st - keep) (tail_len st) (tail st)) = keep) as Hls
          by (rewrite slice_length; lia).
        rewrite splice_ok by (rewrite Hls; lia). eexists; split; [done|].
        rewrite take_0. cbn [app]. split.
        + rewrite length_app, length_drop, Hls. lia.
        + rewrite take_app_le by (rewrite Hls; lia). rewrite take_ge by (rewrite Hls; lia).
          rewrite <-(slice_take _ _ (tail_len st)) by lia. rewrite Hc, slice_slice by lia. f_equal; lia.
      - exists (tail st). split; [done|]. split; [done|].
        replace keep with 0%nat by lia. by rewrite Nat.sub_0_r, slice_nil. }
    cbn [res_bind]. rewrite splice_ok by lia. cbn [res_bind]. eexists; split; [done|].
    split; [|split; [done|]].
    + split; cbn [tail tail_len].
      * rewrite !length_app, length_take, length_drop. lia.
      * lia.
      * rewrite app_assoc, take_app_le by (rewrite length_app, length_take; lia).
        rewrite take_ge by (rewrite length_app, length_take; lia).
        rewrite Hk. replace bs with (slice n (n + length bs) key) at 1 by done.
        rewrite <-slice_app by lia. f_equal; lia.
    + intros k []. by split.
Qed.

Lemma update_spec n bs st :
  slice n (n + length bs) key = bs → (n + length bs ≤ len)%nat → streamed n st →
  ∃ st', update st bs = Ret (true, st') ∧ streamed (n + length bs) st'.
Proof.
  intros Hbs Hfit [Hrec Hn Hbuf Htl]. unfold update.
  rewrite (bf_expected _ _ Hbuf), Hrec, usub_ok by done. cbn [res_bind].
  replace (len - n <? length bs)%nat with false by (symmetry; apply Nat.ltb_ge; lia).
  destruct (update_tail_spec n bs st) as (st1 & -> & Htl1 & Hr1 & Hb1); [done..|]. cbn [res_bind].
  match goal with |- context [update_loop _ _ _ ?s] => set (st2 := s) end.
  destruct (update_loop_spec (S (length bs)) bs n 0 st2) as (st3 & -> & Hb3 & Hr3 & Ht3 & Htl3);
    [done|done|lia|lia| |].
  { rewrite Nat.add_0_r. destruct (Hb1 _ Hbuf). by split. }
  cbn [res_bind]. eexists; split; [done|]. split; [|done|done|].
  - rewrite Hr3. simpl. lia.
  - destruct Htl1. by split; rewrite ?Ht3, ?Htl3.
Qed.

(** A full block never stays unprocessed. *)
Lemma streamed_all st : streamed len st →
  processed st = process_bytes st ∧ block_len st = 0%nat.
Proof.
  intros [_ _ [He Ht Hp Hl Hn Hb Hr Hc] _]. pose proof blocks_fit. rewrite Hp.
  rewrite Nat.min_r in Hn by done. unfold target_at in Hr.
  destruct Hl as [k Hk Hpk _|j r Hj Hpj _ _]; destruct (Nat.ltb_spec (processed st) (48 * t)); lia.
Qed.

Lemma finish_spec st : streamed len st →
  finish st = let* h := wyhash key seed0 in Ret (Some h).
Proof.
  intros Hst. pose proof (streamed_all _ Hst) as [Hpr Hbl]. pose proof blocks_fit.
  destruct Hst as [Hrec _ [He Ht Hp Hl Hn Hb Hr Hc] [Hsz Hln Htc]].
  destruct (wyhash_spec key seed0) as (r & s & a & b & Hr48 & Hr16 & Hab & ->).
  fold len in Hr48, Hr16, Hab |- *. fold t in Hr48, Hr16. fold m in Hr16. fold s0 in Hr48. cbn [res_bind]. unfold finish.
  rewrite Hrec, He, Hpr, Hbl, !Nat.eqb_refl. cbn [negb orb Nat.eqb].
  assert (s_lanes st = s) as ->.
  { rewrite Hpr, Hp in Hl. destruct Hl as [k Hk Hpk _|j r' Hj Hpj Hr' Hs']; [lia|].
    assert (j = m) as -> by lia. rewrite Hr' in Hr48. injection Hr48 as ->.
    rewrite Hs' in Hr16. by injection Hr16. }
  rewrite Hln in Htc. destruct (Nat.leb_spec len 16) as [Hs|Hs].
  - rewrite (short_lanes_agree len key (tail st)); [by rewrite Hab| |done|done|lia].
    rewrite Nat.min_r in Htc by done. rewrite Htc, Nat.sub_diag. unfold slice. by rewrite drop_0, Nat.sub_0_r.
  - rewrite Nat.min_l in Htc by lia.
    rewrite (rd8_agree 16 (len - 16) key (tail st) 0), (rd8_agree 16 (len - 16) key (tail st) 8);
      try (fold len; lia); [|rewrite Htc; f_equal; lia..].
    replace (len - 16 + 8)%nat with (len - 8)%nat by lia. rewrite Nat.add_0_r. by rewrite Hab.
Qed.
End Stream.

(** Feeding the chunks in order, stopping at the first rejected one. *)
Fixpoint feed (st : WyHashStream) (chunks : list bytes) : res (bool * WyHashStream) :=
  match chunks with
  | [] => Ret (true, st)
  | c :: cs =>
    let* '(ok, st) := update st c in
    if ok then feed st cs else Ret (false, st)
  end.

Lemma feed_spec key seed0 chunks n st rest :
  drop n key = concat chunks ++ rest → streamed key seed0 n st →
  ∃ st', feed st chunks = Ret (true, st') ∧ streamed key seed0 (n + length (concat chunks)) st'.
Proof.
  revert n st. induction chunks as [|c cs IH]; intros n st Hd Hst; cbn [feed concat].
  - exists st. by rewrite Nat.add_0_r.
  - pose proof (st_bound _ _ _ _ Hst) as Hn.
    assert (length (drop n key) = length c + length (concat cs) + length rest)%nat as Hl.
    { rewrite Hd. cbn [concat]. rewrite !length_app. lia. }
    rewrite length_drop in Hl.
    destruct (update_spec key seed0 n c st) as (st1 & -> & Hst1); [|lia|done|].
    { unfold slice. rewrite Hd, Nat.add_sub'. cbn [concat]. rewrite <-app_assoc. by rewrite take_app_length. }
    cbn [res_bind]. destruct (IH (n + length c)%nat st1) as (st' & -> & Hst').
    { rewrite <-drop_drop, Hd. cbn [concat]. rewrite <-app_assoc. by rewrite drop_app_length. }
    { done. }
    exists st'. split; [done|]. by rewrite length_app, Nat.add_assoc.
Qed.

(** C10. [WyHashStream] computes [wyhash]: a stream declared for the total
    length accepts every chunk of any chunking of the key and finishes with
    the hash of the whole key, at every seed. *)
Theorem stream_matches_one_shot seed0 chunks :
  let key := concat chunks in
  ∃ st h, feed (for_len seed0 (length key)) chunks = Ret (true, st) ∧
          wyhash key seed0 = Ret h ∧ finish st = Ret (Some h).
Proof.
  intros key. destruct (feed_spec key seed0 chunks 0 (for_len seed0 (length key)) []) as (st & Hf & Hst).
  { by rewrite drop_0, app_nil_r. }
  { apply for_len_streamed. }
  destruct (wyhash_ret key seed0) as (h & Hh & _).
  exists st, h. split; [done|]. split; [done|].
  rewrite (finish_spec key seed0), Hh by done. done.
Qed.

(** Short and excess input: after a proper prefix of the declared length,
    [finish] gives no hash; a chunk that would exceed the declared length is
    rejected and leaves the state exactly as it was. *)
Lemma stream_rejects_wrong_length seed0 chunks declared extra :
  (length (concat chunks) < declared)%nat → (declared < length (concat chunks) + length extra)%nat →
  ∃ st, feed (for_len seed0 declared) chunks = Ret (true, st) ∧
        finish st = Ret None ∧ update st extra = Ret (false, st).
Proof.
  intros Hlt Hgt. set (d := concat chunks) in *.
  set (key := d ++ replicate (declared - length d) 0).
  assert (length key = declared) as Hkey by (unfold key; rewrite length_app, length_replicate; lia).
  destruct (feed_spec key seed0 chunks 0 (for_len seed0 (length key)) (replicate (declared - length d) 0))
    as (st & Hf & Hst); [by rewrite drop_0|apply for_len_streamed|].
  rewrite Hkey in Hf. fold d in Hst. exists st. split; [done|].
  pose proof (st_received _ _ _ _ Hst) as Hr.
  pose proof (bf_expected _ _ _ _ (st_buffered _ _ _ _ Hst)) as He. simpl in Hr. rewrite Hkey in He. split.
  - unfold finish. rewrite Hr, He. by replace (length d =? declared)%nat with false by (symmetry; apply Nat.eqb_neq; lia).
  - unfold update. rewrite He, Hr, usub_ok by lia. cbn [res_bind].
    by replace (declared - length d <? length extra)%nat with true by (symmetry; apply Nat.ltb_lt; lia).
Qed.

Lemma stream_rejects_wrong_length_witness :
  ∃ st, feed (for_len 0 4) [str "ab"; str "c"] = Ret (true, st) ∧
        finish st = Ret None ∧ update st (str "de") = Ret (false, st).
Proof. apply stream_rejects_wrong_length; vm_compute; lia. Defined.
