(* ===== verification/Text.v ===== *)
(** * Text and numbers, as the Rust standard library defines them

    The [u8] classification methods, decimal and hexadecimal [Display],
    [i128::from_str_radix] and [str::parse::<f64>] — what the lexer and the
    parser use of [core]. *)
From Stdlib Require Import ZArith Lia SpecFloat.
From S2P Require Import Prelude Utf8.
Local Open Scope Z_scope.

(** ** Classification *)
Definition is_ascii_digit (c : Z) : bool := (48 <=? c) && (c <=? 57).
Definition is_ascii_lower (c : Z) : bool := (97 <=? c) && (c <=? 122).
Definition is_ascii_upper (c : Z) : bool := (65 <=? c) && (c <=? 90).
Definition is_ascii_alphabetic (c : Z) : bool := is_ascii_lower c || is_ascii_upper c.
Definition is_ascii_alphanumeric (c : Z) : bool := is_ascii_alphabetic c || is_ascii_digit c.
Definition is_ascii_hexdigit (c : Z) : bool :=
  is_ascii_digit c || ((97 <=? c) && (c <=? 102)) || ((65 <=? c) && (c <=? 70)).
Definition is_ascii_graphic (c : Z) : bool := (33 <=? c) && (c <=? 126).
Definition is_ascii_whitespace (c : Z) : bool :=
  (c =? 32) || (c =? 9) || (c =? 10) || (c =? 12) || (c =? 13).

Definition bytes_eqb (a b : bytes) : bool := bool_decide (a = b).

(** ** [Display] *)
Fixpoint uint_digits (u : Decimal.uint) : bytes :=
  match u with
  | Decimal.Nil => []
  | Decimal.D0 u => 48 :: uint_digits u | Decimal.D1 u => 49 :: uint_digits u
  | Decimal.D2 u => 50 :: uint_digits u | Decimal.D3 u => 51 :: uint_digits u
  | Decimal.D4 u => 52 :: uint_digits u | Decimal.D5 u => 53 :: uint_digits u
  | Decimal.D6 u => 54 :: uint_digits u | Decimal.D7 u => 55 :: uint_digits u
  | Decimal.D8 u => 56 :: uint_digits u | Decimal.D9 u => 57 :: uint_digits u
  end.

(** [format!("{n}")] *)
Definition show_int (n : Z) : bytes :=
  match Z.to_int n with
  | Decimal.Pos u => uint_digits u
  | Decimal.Neg u => "-"%u8 :: uint_digits u
  end.

Definition hex_digit (d : Z) : Z := if d <? 10 then 48 + d else 87 + d.
(** [format!("{b:02x}")] on a [u8] *)
Definition show_02x (b : Z) : bytes := [hex_digit (b / 16); hex_digit (b mod 16)].

(** ** Parsing *)

(** [char::to_digit(radix)] on an ASCII byte *)
Definition to_digit (radix c : Z) : option Z :=
  let d := if is_ascii_digit c then c - 48
           else if is_ascii_lower c then c - 87
           else if is_ascii_upper c then c - 55
           else 99 in
  if d <? radix then Some d else None.

(** The value of a digit string, [None] at the first invalid digit. *)
Fixpoint digits_value (radix : Z) (l : bytes) (acc : Z) : option Z :=
  match l with
  | [] => Some acc
  | c :: l' =>
    match to_digit radix c with
    | Some d => digits_value radix l' (acc * radix + d)
    | None => None
    end
  end.

Definition check_range (lo hi v : Z) : option Z := if (lo <=? v) && (v <=? hi) then Some v else None.

(** [i128::from_str_radix]: the running product and sum overflow exactly when
    the value is out of range, since they only grow in magnitude. *)
Definition from_str_radix_i128 (l : bytes) (radix : Z) : option Z :=
  match l with
  | [] => None
  | [c] => if (c =? "+"%u8) || (c =? "-"%u8) then None
           else v ← digits_value radix l 0; check_range I128_MIN I128_MAX v
  | c :: l' =>
    if c =? "+"%u8 then v ← digits_value radix l' 0; check_range I128_MIN I128_MAX v
    else if c =? "-"%u8 then v ← digits_value radix l' 0; check_range I128_MIN I128_MAX (- v)
    else v ← digits_value radix l 0; check_range I128_MIN I128_MAX v
  end.

(** [u32::from_str_radix] on unsigned digits *)
Definition from_str_radix_u32 (l : bytes) (radix : Z) : option Z :=
  match l with
  | [] => None
  | _ => v ← digits_value radix l 0; check_range 0 U32_MAX v
  end.

Abbreviation f64 := spec_float (only parsing).

(** The binary value nearest to [m * 10^e], ties to even, with [prec] bits of precision. *)
Definition decimal_to_float (prec emax m e : Z) : spec_float :=
  match m with
  | Zpos p =>
    if 0 <=? e then binary_normalize prec emax (m * 10 ^ e) 0 false
    else match 10 ^ (- e) with
         | Zpos q => SFdiv prec emax (S754_finite false p 0) (S754_finite false q 0)
         | _ => S754_nan
         end
  | _ => S754_zero false
  end.

(** What [str::parse] reads of an unsigned decimal form, as [m * 10^e]:
    digits, an optional fraction, an optional signed exponent; an empty
    exponent or an empty significand is an error. *)
Definition parse_decimal (l : bytes) : option (Z * Z) :=
  let ni := count_while is_ascii_digit l in
  let ip := take ni l in
  let r := drop ni l in
  let '(fp, r) :=
    match r with
    | c :: r' => if c =? "."%u8 then
                   let nf := count_while is_ascii_digit r' in (take nf r', drop nf r')
                 else ([], r)
    | [] => ([], [])
    end in
  match ip ++ fp with
  | [] => None
  | _ =>
    m ← digits_value 10 (ip ++ fp) 0;
    e ← (match r with
         | [] => Some 0
         | c :: r' =>
           if (c =? "e"%u8) || (c =? "E"%u8) then
             let '(neg, ds) :=
               match r' with
               | s :: r'' => if s =? "-"%u8 then (true, r'') else if s =? "+"%u8 then (false, r'') else (false, r')
               | [] => (false, [])
               end in
             match ds with
             | [] => None
             | _ => v ← digits_value 10 ds 0; Some (if neg : bool then - v else v)
             end
           else None
         end);
    Some (m, e - Z.of_nat (length fp))
  end.
(** [str::parse::<f64>] on the forms the lexer produces. *)
Definition parse_f64 (l : bytes) : option f64 := '(m, e) ← parse_decimal l; Some (decimal_to_float 53 1024 m e).

Definition is_infinite (x : f64) : bool :=
  match x with S754_infinity _ => true | _ => false end.

Example parse_f64_vectors :
  parse_f64 (str "0.1") = Some (S754_finite false 7205759403792794 (-56)) ∧
  parse_f64 (str "3.25") = Some (S754_finite false 7318349394477056 (-51)) ∧
  parse_f64 (str "1e400") = Some (S754_infinity false) ∧
  parse_f64 (str "1e-400") = Some (S754_zero false) ∧
  parse_f64 (str "1e") = None ∧
  show_int (-170141183460469231731687303715884105728) = str "-170141183460469231731687303715884105728".
Proof. vm_compute. repeat split. Qed.

(** ** Facts *)

Lemma digits_value_app radix a b acc :
  digits_value radix (a ++ b) acc = v ← digits_value radix a acc; digits_value radix b v.
Proof.
  revert acc. induction a as [|c a IH]; intros acc; simpl; [done|].
  destruct (to_digit radix c); [apply IH|done].
Qed.

Lemma check_range_Some lo hi v w : check_range lo hi v = Some w → w = v ∧ lo ≤ v ≤ hi.
Proof. unfold check_range. case_if; [|done]. b2p. intros [= <-]. lia. Qed.

(** A parsed [i128] is in range. *)
Lemma from_str_radix_i128_range l radix v :
  from_str_radix_i128 l radix = Some v → I128_MIN ≤ v ≤ I128_MAX.
Proof.
  unfold from_str_radix_i128. destruct l as [|c [|c' l']]; [done|..].
  all: repeat case_if; try done.
  all: intros (? & ? & [-> ?]%check_range_Some)%bind_Some; lia.
Qed.

Lemma alnum_ascii c : is_ascii_alphanumeric c = true → 0 ≤ c < 128.
Proof. unfold is_ascii_alphanumeric, is_ascii_alphabetic, is_ascii_lower, is_ascii_upper, is_ascii_digit. lia. Qed.

Lemma hexdigit_ascii c : is_ascii_hexdigit c = true → 0 ≤ c < 128.
Proof. unfold is_ascii_hexdigit, is_ascii_digit. lia. Qed.
