(* ===== verification/Token.v ===== *)
(** * Tokens ([crates/align_lexer/src/lib.rs], the data types)

    [TokKind] with the source's constructors, its [PartialEq], and the
    predicate that decides where a newline may end a statement. *)
From Stdlib Require Import ZArith Lia SpecFloat.
From S2P Require Import Prelude Span Text.
Local Open Scope Z_scope.

Module TokKind.
Inductive t : Type :=
  | Int (v : Z) | Float (v : spec_float) | Char (v : Z) | Str (s : bytes) | Ident (s : bytes)
  | Fn | Return | Mut | Pub | Module_ | Import_ | If | Else | True_ | False_ | Arena | FloatScope
  | TaskGroup | Match | Loop | Break | Template | Unsafe | Extern | As
  | ColonEq | Eq | Arrow | FatArrow | LParen | RParen | LBrace | RBrace | LBracket | RBracket
  | Comma | Colon | Dot | DotDot | DotDotEq | Plus | Minus | Star | Slash | Percent
  | EqEq | NotEq | Lt | Le | Gt | Ge | AndAnd | OrOr | Amp | Pipe | Caret | Tilde | Bang
  | Question | Semicolon | End_ | Eof.
End TokKind.
Abbreviation TokKind := TokKind.t.

(** The constructor's index: [mem::discriminant]. *)
Definition kind_tag (k : TokKind) : Z :=
  match k with
  | TokKind.Int _ => 0 | TokKind.Float _ => 1 | TokKind.Char _ => 2 | TokKind.Str _ => 3
  | TokKind.Ident _ => 4 | TokKind.Fn => 5 | TokKind.Return => 6 | TokKind.Mut => 7
  | TokKind.Pub => 8 | TokKind.Module_ => 9 | TokKind.Import_ => 10 | TokKind.If => 11
  | TokKind.Else => 12 | TokKind.True_ => 13 | TokKind.False_ => 14 | TokKind.Arena => 15
  | TokKind.FloatScope => 16 | TokKind.TaskGroup => 17 | TokKind.Match => 18 | TokKind.Loop => 19
  | TokKind.Break => 20 | TokKind.Template => 21 | TokKind.Unsafe => 22 | TokKind.Extern => 23
  | TokKind.As => 24 | TokKind.ColonEq => 25 | TokKind.Eq => 26 | TokKind.Arrow => 27
  | TokKind.FatArrow => 28 | TokKind.LParen => 29 | TokKind.RParen => 30 | TokKind.LBrace => 31
  | TokKind.RBrace => 32 | TokKind.LBracket => 33 | TokKind.RBracket => 34 | TokKind.Comma => 35
  | TokKind.Colon => 36 | TokKind.Dot => 37 | TokKind.DotDot => 38 | TokKind.DotDotEq => 39
  | TokKind.Plus => 40 | TokKind.Minus => 41 | TokKind.Star => 42 | TokKind.Slash => 43
  | TokKind.Percent => 44 | TokKind.EqEq => 45 | TokKind.NotEq => 46 | TokKind.Lt => 47
  | TokKind.Le => 48 | TokKind.Gt => 49 | TokKind.Ge => 50 | TokKind.AndAnd => 51
  | TokKind.OrOr => 52 | TokKind.Amp => 53 | TokKind.Pipe => 54 | TokKind.Caret => 55
  | TokKind.Tilde => 56 | TokKind.Bang => 57 | TokKind.Question => 58 | TokKind.Semicolon => 59
  | TokKind.End_ => 60 | TokKind.Eof => 61
  end.

(** The derived [PartialEq]: equal constructors with equal payloads; two
    floats compare as [f64] values. *)
Definition kind_eqb (a b : TokKind) : bool :=
  match a, b with
  | TokKind.Int x, TokKind.Int y => x =? y
  | TokKind.Float x, TokKind.Float y => SFeqb x y
  | TokKind.Char x, TokKind.Char y => x =? y
  | TokKind.Str x, TokKind.Str y => bytes_eqb x y
  | TokKind.Ident x, TokKind.Ident y => bytes_eqb x y
  | _, _ => kind_tag a =? kind_tag b
  end.

(** [TokKind::can_end_stmt] *)
Definition can_end_stmt (k : TokKind) : bool :=
  match k with
  | TokKind.Int _ | TokKind.Float _ | TokKind.Char _ | TokKind.Str _ | TokKind.Ident _
  | TokKind.Return | TokKind.True_ | TokKind.False_ | TokKind.RParen | TokKind.RBrace
  | TokKind.RBracket | TokKind.Question | TokKind.Break => true
  | _ => false
  end.

Record Token := MkToken {
  kind : TokKind;
  span : Span;
  integer_radix : option Z
}.

(** Kinds without a payload, for which [kind_eqb] is equality. *)
Definition nullary (k : TokKind) : bool := 5 <=? kind_tag k.

Lemma kind_eqb_nullary a k : nullary k = true → kind_eqb a k = true → a = k.
Proof.
  intros Hk He. assert (kind_tag a = kind_tag k) as Ht.
  { destruct k; try discriminate Hk; destruct a; try discriminate He; reflexivity. }
  destruct k; try discriminate Hk; destruct a; try discriminate Ht; reflexivity.
Qed.

Lemma kind_eqb_refl_nullary k : nullary k = true → kind_eqb k k = true.
Proof. by destruct k. Qed.
