(* ===== verification/Lexer.v ===== *)
(** * The lexer ([crates/align_lexer/src/lib.rs])

    [Lexer] and its methods, one definition each, over the source bytes; and
    [decoded_string_runs], which maps a string literal's decoded bytes back to
    the source.  A byte position is a [nat]; a loop carries fuel, and
    [LexerSpec.v] shows that the fuel given here is always enough. *)
From Stdlib Require Import ZArith Lia SpecFloat.
From S2P Require Import Prelude Utf8 Span Diag Text Token.
Local Open Scope Z_scope.

Definition is_ident_start (c : Z) : bool := (c =? "_"%u8) || is_ascii_alphabetic c.
Definition is_ident_continue (c : Z) : bool := (c =? "_"%u8) || is_ascii_alphanumeric c.

Definition display_escape_byte (b : Z) : bytes :=
  if is_ascii_graphic b || (b =? " "%u8) then utf8_encode b
  else str "byte 0x" ++ show_02x b.

(** Split [10i32]-like text into digits and a type-suffix tail. *)
Definition split_num_suffix (text : bytes) : option (bytes * bytes) :=
  let i := (length text - count_while is_ascii_digit (reverse text))%nat in
  if (i <? length text)%nat && (2 <=? i)%nat
     && match text !! (i - 1)%nat with
        | Some m => (m =? "i"%u8) || (m =? "u"%u8) || (m =? "f"%u8)
        | None => false
        end
     && match text !! (i - 2)%nat with Some d => is_ascii_alphanumeric d | None => false end
  then Some (take (i - 1) text, drop (i - 1) text)
  else None.

(** The number of bytes a UTF-8 lead byte announces. *)
Definition char_len (first_byte : Z) : nat :=
  if Z.land first_byte 0x80 =? 0 then 1
  else if Z.land first_byte 0xE0 =? 0xC0 then 2
  else if Z.land first_byte 0xF0 =? 0xE0 then 3
  else if Z.land first_byte 0xF8 =? 0xF0 then 4
  else 1.

(** [lex_ident]'s keyword table. *)
Definition keywords : list (bytes * TokKind) :=
  [ (str "fn", TokKind.Fn); (str "return", TokKind.Return); (str "mut", TokKind.Mut);
    (str "pub", TokKind.Pub); (str "module", TokKind.Module_); (str "import", TokKind.Import_);
    (str "if", TokKind.If); (str "else", TokKind.Else); (str "true", TokKind.True_);
    (str "false", TokKind.False_); (str "arena", TokKind.Arena); (str "float", TokKind.FloatScope);
    (str "task_group", TokKind.TaskGroup); (str "match", TokKind.Match); (str "loop", TokKind.Loop);
    (str "break", TokKind.Break); (str "template", TokKind.Template); (str "unsafe", TokKind.Unsafe);
    (str "extern", TokKind.Extern); (str "as", TokKind.As) ].

Definition keyword_or_ident (text : bytes) : TokKind :=
  match List.find (λ p, bytes_eqb text p.1) keywords with
  | Some (_, k) => k
  | None => TokKind.Ident text
  end.

(** [lex_symbol]'s table: the kind and length of the symbol that starts with
    [c], given the two bytes after it. *)
Definition symbol_of (c : Z) (two three : option Z) : option (TokKind * nat) :=
  let nxt o x := match o with Some y => y =? x | None => false end in
  if (c =? ":"%u8) && nxt two "="%u8 then Some (TokKind.ColonEq, 2%nat)
  else if (c =? "-"%u8) && nxt two ">"%u8 then Some (TokKind.Arrow, 2%nat)
  else if (c =? "="%u8) && nxt two "="%u8 then Some (TokKind.EqEq, 2%nat)
  else if (c =? "="%u8) && nxt two ">"%u8 then Some (TokKind.FatArrow, 2%nat)
  else if (c =? "!"%u8) && nxt two "="%u8 then Some (TokKind.NotEq, 2%nat)
  else if (c =? "<"%u8) && nxt two "="%u8 then Some (TokKind.Le, 2%nat)
  else if (c =? ">"%u8) && nxt two "="%u8 then Some (TokKind.Ge, 2%nat)
  else if (c =? "&"%u8) && nxt two "&"%u8 then Some (TokKind.AndAnd, 2%nat)
  else if (c =? "|"%u8) && nxt two "|"%u8 then Some (TokKind.OrOr, 2%nat)
  else if c =? "&"%u8 then Some (TokKind.Amp, 1%nat)
  else if c =? "|"%u8 then Some (TokKind.Pipe, 1%nat)
  else if c =? "^"%u8 then Some (TokKind.Caret, 1%nat)
  else if c =? "~"%u8 then Some (TokKind.Tilde, 1%nat)
  else if c =? "="%u8 then Some (TokKind.Eq, 1%nat)
  else if c =? "<"%u8 then Some (TokKind.Lt, 1%nat)
  else if c =? ">"%u8 then Some (TokKind.Gt, 1%nat)
  else if c =? "!"%u8 then Some (TokKind.Bang, 1%nat)
  else if c =? "("%u8 then Some (TokKind.LParen, 1%nat)
  else if c =? ")"%u8 then Some (TokKind.RParen, 1%nat)
  else if c =? "{"%u8 then Some (TokKind.LBrace, 1%nat)
  else if c =? "}"%u8 then Some (TokKind.RBrace, 1%nat)
  else if c =? "["%u8 then Some (TokKind.LBracket, 1%nat)
  else if c =? "]"%u8 then Some (TokKind.RBracket, 1%nat)
  else if c =? ","%u8 then Some (TokKind.Comma, 1%nat)
  else if c =? ":"%u8 then Some (TokKind.Colon, 1%nat)
  else if (c =? "."%u8) && nxt two "."%u8 then
    (if nxt three "="%u8 then Some (TokKind.DotDotEq, 3%nat) else Some (TokKind.DotDot, 2%nat))
  else if c =? "."%u8 then Some (TokKind.Dot, 1%nat)
  else if c =? "+"%u8 then Some (TokKind.Plus, 1%nat)
  else if c =? "-"%u8 then Some (TokKind.Minus, 1%nat)
  else if c =? "*"%u8 then Some (TokKind.Star, 1%nat)
  else if c =? "/"%u8 then Some (TokKind.Slash, 1%nat)
  else if c =? "%"%u8 then Some (TokKind.Percent, 1%nat)
  else if c =? "?"%u8 then Some (TokKind.Question, 1%nat)
  else if c =? ";"%u8 then Some (TokKind.Semicolon, 1%nat)
  else None.

(** The lexer's mutable part, with the diagnostics it reports into. *)
Record Lexer := MkLexer { pos : nat; tokens : list Token; diags : Diagnostics }.

Definition set_pos (st : Lexer) (p : nat) : Lexer := MkLexer p (tokens st) (diags st).
Definition add_token (st : Lexer) (t : Token) : Lexer := MkLexer (pos st) (tokens st ++ [t]) (diags st).

Section Lexing.
Context (file : FileId) (src : bytes).

Definition mk_span (lo hi : nat) : Span := MkSpan file (u32_of lo) (u32_of hi).

Definition report (st : Lexer) (msg : bytes) (lo hi : nat) : Lexer :=
  MkLexer (pos st) (tokens st) (error (diags st) msg (mk_span lo hi)).

Definition peek (st : Lexer) : option Z := src !! pos st.

(** The position after the maximal run of bytes satisfying [p]. *)
Definition run_from (p : Z → bool) (i : nat) : nat := (i + count_while p (drop i src))%nat.
Definition eat_while (p : Z → bool) (st : Lexer) : Lexer := set_pos st (run_from p (pos st)).

Definition is_at (i : nat) (x : Z) : bool :=
  match src !! i with Some c => c =? x | None => false end.

(** [push] *)
Definition radix_at (start : nat) : Z :=
  match slice_get start (start + 2) src with
  | Some [c; x] =>
    if c =? "0"%u8 then
      if (x =? "x"%u8) || (x =? "X"%u8) then 16
      else if (x =? "o"%u8) || (x =? "O"%u8) then 8
      else if (x =? "b"%u8) || (x =? "B"%u8) then 2
      else 10
    else 10
  | _ => 10
  end.

Definition push (st : Lexer) (k : TokKind) (start : nat) : Lexer :=
  let radix := match k with TokKind.Int _ => Some (radix_at start) | _ => None end in
  add_token st (MkToken k (mk_span start (pos st)) radix).

(** [skip_inline_ws_and_comments] *)
Fixpoint skip_loop (fuel : nat) (i : nat) : res nat :=
  match fuel with
  | O => OutOfFuel
  | S fuel =>
    match src !! i with
    | Some c =>
      if (c =? " "%u8) || (c =? 9) || (c =? 13) then skip_loop fuel (i + 1)
      else if (c =? "/"%u8) && is_at (i + 1) "/"%u8
      then skip_loop fuel (run_from (λ c, negb (c =? 10)) i)
      else Ret i
    | None => Ret i
    end
  end.

Definition skip_inline_ws_and_comments (st : Lexer) : res Lexer :=
  let* p := skip_loop (S (length src)) (pos st) in Ret (set_pos st p).

(** [next_significant_continues_line] *)
Fixpoint continues_loop (fuel : nat) (i : nat) : res bool :=
  match fuel with
  | O => OutOfFuel
  | S fuel =>
    match src !! i with
    | None => Ret false
    | Some c =>
      if (c =? " "%u8) || (c =? 9) || (c =? 13) || (c =? 10) then continues_loop fuel (i + 1)
      else if (c =? "/"%u8) && is_at (i + 1) "/"%u8
      then continues_loop fuel (run_from (λ c, negb (c =? 10)) (i + 2))
      else if (c =? "."%u8) || (c =? "+"%u8) || (c =? "*"%u8) || (c =? "/"%u8) || (c =? "%"%u8) then Ret true
      else if (c =? "<"%u8) || (c =? ">"%u8) || (c =? "="%u8) || (c =? "&"%u8) || (c =? "|"%u8) || (c =? "^"%u8)
      then Ret true
      else if c =? "!"%u8 then Ret (is_at (i + 1) "="%u8)
      else if c =? "-"%u8 then Ret (negb (is_at (i + 1) ">"%u8))
      else Ret false
    end
  end.

Definition next_significant_continues_line (st : Lexer) : res bool :=
  continues_loop (S (length src)) (pos st).

Definition maybe_insert_end (st : Lexer) : res Lexer :=
  let prev_ends := match last (tokens st) with Some t => can_end_stmt (kind t) | None => false end in
  if negb prev_ends then Ret st else
  let* c := next_significant_continues_line st in
  if c : bool then Ret st else
  Ret (add_token st (MkToken TokKind.End_ (mk_span (pos st) (pos st)) None)).

(** [lex_unicode_escape]: the braces-and-digits tail of a [\u] escape; [esc_start] is the
    position of the [u]. *)
Definition lex_unicode_escape (st : Lexer) (literal : bytes) (esc_start : nat) : res (option Z * Lexer) :=
  let bad st what :=
    let* lo := usub esc_start 1 in
    Ret (report st (str "invalid " ++ literal ++ str " unicode escape: " ++ what) lo (pos st)) in
  let skip_close st := if is_at (pos st) "}"%u8 then set_pos st (pos st + 1) else st in
  if negb (is_at (pos st) "{"%u8) then
    let* st := bad st (str "expected '{' after '\u'") in Ret (None, st)
  else
    let st := set_pos st (pos st + 1) in
    let digits_start := pos st in
    let st := eat_while is_ascii_hexdigit st in
    let digit_count := (pos st - digits_start)%nat in
    if (digit_count =? 0)%nat then
      let* st := bad st (str "expected 1-6 hex digits") in Ret (None, skip_close st)
    else if (6 <? digit_count)%nat then
      let* st := bad st (str "expected at most 6 hex digits") in Ret (None, skip_close st)
    else if negb (is_at (pos st) "}"%u8) then
      let* st := bad st (str "expected '}'") in Ret (None, st)
    else
      let st := set_pos st (pos st + 1) in
      let* ds := slice_res digits_start (digits_start + digit_count) src in
      let digits := match from_utf8 ds with Some _ => ds | None => [] end in
      let value := match from_str_radix_u32 digits 16 with Some v => v | None => 0x110000 end in
      match char_from_u32 value with
      | Some ch => Ret (Some ch, st)
      | None => let* st := bad st (str "not a Unicode scalar value") in Ret (None, st)
      end.

(** [lex_escape]: one escape, the backslash already consumed. *)
Definition lex_escape (st : Lexer) (literal : bytes) : res (option Z * Lexer) :=
  let esc_start := pos st in
  match peek st with
  | None => Ret (None, st)
  | Some e =>
    let st := set_pos st (pos st + 1) in
    if e =? "n"%u8 then Ret (Some 10, st)
    else if e =? "t"%u8 then Ret (Some 9, st)
    else if e =? "r"%u8 then Ret (Some 13, st)
    else if e =? "0"%u8 then Ret (Some 0, st)
    else if e =? backslash then Ret (Some backslash, st)
    else if e =? dquote then Ret (Some dquote, st)
    else if e =? "'"%u8 then Ret (Some "'"%u8, st)
    else if e =? "u"%u8 then lex_unicode_escape st literal esc_start
    else
      let* lo := usub esc_start 1 in
      Ret (None, report st (str "unknown " ++ literal ++ str " escape: '\" ++ display_escape_byte e ++ str "'")
                   lo (pos st))
  end.

(** Decode one UTF-8 scalar at the cursor: an ill-formed sequence gives U+FFFD
    and consumes exactly one byte. *)
Definition take_char (st : Lexer) (first_byte : Z) : res (Z * Lexer) :=
  let* rest := usub (length src) (pos st) in
  let max_len := Nat.min (char_len first_byte) rest in
  let* q := slice_res (pos st) (pos st + max_len) src in
  match from_utf8 q with
  | Some valid =>
    let c := match valid with c :: _ => c | [] => 0xFFFD end in
    Ret (c, set_pos st (pos st + len_utf8 c))
  | None => Ret (0xFFFD, set_pos st (pos st + 1))
  end.

(** Whether the literal cannot go on: end of input or of the line. *)
Definition at_line_end (o : option Z) : bool :=
  match o with None => true | Some c => (c =? 10) || (c =? 13) end.

(** The loop of [lex_string]; [s] is the decoded text so far. *)
Fixpoint string_loop (fuel : nat) (start : nat) (s : bytes) (st : Lexer) : res (bytes * Lexer) :=
  match fuel with
  | O => OutOfFuel
  | S fuel =>
    if at_line_end (peek st)
    then Ret (s, report st (str "unterminated string literal") start (pos st))
    else
      let* c := unwrap (peek st) in
      if c =? dquote then Ret (s, set_pos st (pos st + 1))
      else if c =? backslash then
        let st := set_pos st (pos st + 1) in
        if at_line_end (peek st)
        then Ret (s, report st (str "unterminated string literal") start (pos st))
        else
          let* '(ch, st) := lex_escape st (str "string") in
          match ch with
          | Some ch => string_loop fuel start (s ++ utf8_encode ch) st
          | None => string_loop fuel start s st
          end
      else
        let* '(ch, st) := take_char st c in
        string_loop fuel start (s ++ utf8_encode ch) st
  end.

Definition lex_string (st : Lexer) (start : nat) : res Lexer :=
  let st := set_pos st (pos st + 1) in
  let* '(s, st) := string_loop (S (length src)) start [] st in
  Ret (push st (TokKind.Str s) start).

Definition lex_char (st : Lexer) (start : nat) : res Lexer :=
  let unterminated st := report st (str "unterminated character literal") start (pos st) in
  let finish ch st :=
    let st :=
      if is_at (pos st) "'"%u8 then set_pos st (pos st + 1)
      else if at_line_end (peek st) then unterminated st
      else report st (str "character literal must contain exactly one character") start (pos st) in
    Ret (push st (TokKind.Char ch) start) in
  let st := set_pos st (pos st + 1) in
  if at_line_end (peek st) then Ret (unterminated st)
  else
    let* c := unwrap (peek st) in
    if c =? backslash then
      let st := set_pos st (pos st + 1) in
      if at_line_end (peek st) then Ret (unterminated st)
      else
        let* '(ch, st) := lex_escape st (str "character") in
        finish (match ch with Some ch => ch | None => 0xFFFD end) st
    else
      let* '(ch, st) := take_char st c in finish ch st.

Definition lex_ident (st : Lexer) (start : nat) : res Lexer :=
  let st := eat_while is_ident_continue st in
  let* text := slice_res start (pos st) src in
  let* _ := unwrap (from_utf8 text) in
  Ret (push st (keyword_or_ident text) start).

Definition lex_symbol (st : Lexer) (start : nat) : res Lexer :=
  let* c := unwrap (peek st) in
  match symbol_of c (src !! (pos st + 1)%nat) (src !! (pos st + 2)%nat) with
  | Some (k, n) => Ret (push (set_pos st (pos st + n)) k start)
  | None =>
    let* rest := usub (length src) (pos st) in
    let max_len := Nat.min (char_len c) rest in
    let* q := slice_res (pos st) (pos st + max_len) src in
    let '(display, adv) :=
      match from_utf8 q with
      | Some (ch :: _) => (utf8_encode ch, len_utf8 ch)
      | _ => (str "byte 0x" ++ show_02x c, 1%nat)
      end in
    let st := set_pos st (pos st + adv) in
    Ret (report st (str "unexpected character: '" ++ display ++ str "'") start (pos st))
  end.

(** The radix a [0x]/[0o]/[0b] prefix at [i] announces, with its name. *)
Definition radix_prefix (i : nat) : option (Z * bytes) :=
  match src !! (i + 1)%nat with
  | Some x =>
    if (x =? "x"%u8) || (x =? "X"%u8) then Some (16, str "hex")
    else if (x =? "o"%u8) || (x =? "O"%u8) then Some (8, str "octal")
    else if (x =? "b"%u8) || (x =? "B"%u8) then Some (2, str "binary")
    else None
  | None => None
  end.

Definition not_underscore (c : Z) : bool := negb (c =? "_"%u8).

Definition suffix_message (suffix prefix digits : bytes) : bytes :=
  str "numeric literal suffixes are not supported (`" ++ suffix ++ str "`); convert explicitly, e.g. `"
  ++ prefix ++ digits ++ str " as " ++ suffix ++ str "`".

(** The radix branch of [lex_number]. *)
Definition lex_radix_number (st : Lexer) (start : nat) (radix : Z) (name : bytes) : res Lexer :=
  let st := set_pos st (pos st + 2) in
  let digits_start := pos st in
  let st := eat_while is_ident_continue st in
  let* run := slice_res digits_start (pos st) src in
  let text := List.filter not_underscore run in
  match text with
  | [] => Ret (report st (name ++ str " literal has no digits") start (pos st))
  | _ =>
    match from_str_radix_i128 text radix with
    | Some v => Ret (push st (TokKind.Int v) start)
    | None =>
      let* prefix := slice_res start (start + 2) src in
      let invalid :=
        let* whole := slice_res start (pos st) src in
        let* _ := unwrap (from_utf8 whole) in
        Ret (report st (str "invalid " ++ name ++ str " integer literal: '" ++ whole ++ str "'") start (pos st)) in
      match split_num_suffix text with
      | Some (digits, suffix) =>
        match from_str_radix_i128 digits radix with
        | Some _ => Ret (report st (suffix_message suffix prefix digits) start (pos st))
        | None => invalid
        end
      | None => invalid
      end
    end
  end.

(** [eat_digits] *)
Definition is_digit_or_underscore (c : Z) : bool := is_ascii_digit c || (c =? "_"%u8).
Definition eat_digits (st : Lexer) : Lexer := eat_while is_digit_or_underscore st.

Definition digit_at (i : nat) : bool := match src !! i with Some c => is_ascii_digit c | None => false end.

(** The fraction and the exponent of a decimal literal; [true] for a float. *)
Definition lex_fraction (st : Lexer) : bool * Lexer :=
  if is_at (pos st) "."%u8 && digit_at (pos st + 1)
  then (true, eat_digits (set_pos st (pos st + 1))) else (false, st).

Definition lex_exponent (st : Lexer) (is_float : bool) : bool * Lexer :=
  if is_at (pos st) "e"%u8 || is_at (pos st) "E"%u8 then
    let st := set_pos st (pos st + 1) in
    let st := if is_at (pos st) "+"%u8 || is_at (pos st) "-"%u8 then set_pos st (pos st + 1) else st in
    (true, eat_digits st)
  else (is_float, st).

(** The type-suffix recovery after a decimal literal. *)
Definition lex_suffix (st : Lexer) (start : nat) (text : bytes) : res Lexer :=
  let at_alpha := match peek st with Some c => is_ascii_alphabetic c | None => false end in
  if at_alpha then
    let suf := pos st in
    let st := eat_while is_ident_continue st in
    let* suffix := slice_res suf (pos st) src in
    let* _ := unwrap (from_utf8 suffix) in
    Ret (report st (suffix_message suffix [] text) start (pos st))
  else Ret st.

Definition lex_number (st : Lexer) (start : nat) : res Lexer :=
  match (if is_at (pos st) "0"%u8 then radix_prefix (pos st) else None) with
  | Some (radix, name) => lex_radix_number st start radix name
  | None =>
    let st := eat_digits st in
    let '(is_float, st) := lex_fraction st in
    let '(is_float, st) := lex_exponent st is_float in
    let* raw := slice_res start (pos st) src in
    let* cs := unwrap (from_utf8 raw) in
    let text := utf8_encode_all (List.filter not_underscore cs) in
    let st :=
      if is_float : bool then
        match parse_f64 text with
        | Some v =>
          if is_infinite v
          then report st (str "float literal out of range (overflows to infinity): '" ++ text ++ str "'") start (pos st)
          else push st (TokKind.Float v) start
        | None => report st (str "invalid float literal: '" ++ text ++ str "'") start (pos st)
        end
      else
        match from_str_radix_i128 text 10 with
        | Some v => push st (TokKind.Int v) start
        | None => report st (str "integer literal out of range: '" ++ text ++ str "'") start (pos st)
        end in
    lex_suffix st start text
  end.

Definition lex_token (st : Lexer) : res Lexer :=
  let start := pos st in
  let* c := unwrap (peek st) in
  if is_ascii_digit c then lex_number st start
  else if c =? "'"%u8 then lex_char st start
  else if c =? dquote then lex_string st start
  else if is_ident_start c then lex_ident st start
  else lex_symbol st start.

(** The loop of [run]. *)
Fixpoint run_loop (fuel : nat) (st : Lexer) : res Lexer :=
  match fuel with
  | O => OutOfFuel
  | S fuel =>
    let* st := skip_inline_ws_and_comments st in
    match peek st with
    | None => Ret st
    | Some c =>
      if c =? 10 then
        let* st := maybe_insert_end (set_pos st (pos st + 1)) in run_loop fuel st
      else
        let* st := lex_token st in run_loop fuel st
    end
  end.

Definition run (st : Lexer) : res Lexer :=
  let* st := run_loop (S (length src)) st in
  let* st := maybe_insert_end st in
  Ret (add_token st (MkToken TokKind.Eof (mk_span (pos st) (pos st)) None)).

(** [tokenize]: the tokens and the diagnostics after it. *)
Definition tokenize (d : Diagnostics) : res (list Token * Diagnostics) :=
  let* st := run (MkLexer 0 [] d) in Ret (tokens st, diags st).
End Lexing.

(** ** Decoded string runs *)
Record DecodedStringRun := MkRun {
  decoded_start : Z; decoded_end : Z; source_start : Z; source_end : Z
}.

(** [u32::try_from] on a length, [u32::checked_add] *)
Definition u32_try (n : nat) : option Z := if Z.of_nat n <=? U32_MAX then Some (Z.of_nat n) else None.
Definition u32_checked_add (a b : Z) : option Z := if a + b <=? U32_MAX then Some (a + b) else None.

Section DecodedRuns.
Context (source literal : bytes) (start content_end : nat).

Definition lit_is (i : nat) (x : Z) : bool := match literal !! i with Some c => c =? x | None => false end.

(** The plain-text inner loop: [source.get(a..b)?.chars().next()?.len_utf8()]
    and [decoded.push_str(source.get(..)?)] — a [str] range that is not on
    character boundaries is [None]. *)
Definition str_get (a b : nat) (s : bytes) : option bytes :=
  q ← slice_get a b s;
  match from_utf8 (take a s), from_utf8 q with
  | Some _, Some _ => Some q
  | _, _ => None
  end.

Fixpoint plain_loop (fuel : nat) (index : nat) (decoded : bytes) : res (option (nat * bytes)) :=
  match fuel with
  | O => OutOfFuel
  | S fuel =>
    if (index <? content_end)%nat && negb (lit_is index backslash) then
      match (rest ← str_get (start + index) (start + content_end) source;
             cs ← from_utf8 rest; c ← head cs; Some (len_utf8 c)) with
      | None => Ret None
      | Some width =>
        if (content_end <? index + width)%nat then Ret None else
        match str_get (start + index) (start + index + width) source with
        | None => Ret None
        | Some piece => plain_loop fuel (index + width) (decoded ++ piece)
        end
      end
    else Ret (Some (index, decoded))
  end.

(** The escape branch: the new index and the decoded character. *)
Definition decode_escape (index : nat) : option (nat * Z) :=
  let index := (index + 1)%nat in
  escaped ← literal !! index;
  let index := (index + 1)%nat in
  if escaped =? "n"%u8 then Some (index, 10)
  else if escaped =? "t"%u8 then Some (index, 9)
  else if escaped =? "r"%u8 then Some (index, 13)
  else if escaped =? "0"%u8 then Some (index, 0)
  else if escaped =? backslash then Some (index, backslash)
  else if escaped =? dquote then Some (index, dquote)
  else if escaped =? "'"%u8 then Some (index, "'"%u8)
  else if escaped =? "u"%u8 then
    if negb (lit_is index "{"%u8) then None else
    let digits_start := (index + 1)%nat in
    let index := (digits_start
      + count_while is_ascii_hexdigit (drop digits_start (take content_end literal)))%nat in
    digits ← slice_get digits_start index literal;
    if (length digits =? 0)%nat || (6 <? length digits)%nat || negb (lit_is index "}"%u8) then None else
    _ ← from_utf8 digits;
    v ← from_str_radix_u32 digits 16;
    c ← char_from_u32 v;
    Some ((index + 1)%nat, c)
  else None.

Fixpoint runs_loop (fuel : nat) (span_lo : Z) (index : nat) (decoded : bytes) (runs : list DecodedStringRun)
  : res (option (bytes * list DecodedStringRun)) :=
  match fuel with
  | O => OutOfFuel
  | S fuel =>
    if (index <? content_end)%nat then
      let source_run_start := index in
      let decoded_start := length decoded in
      let* step :=
        (if negb (lit_is index backslash) then plain_loop (S (length literal)) index decoded
         else Ret ('(i, c) ← decode_escape index; Some (i, decoded ++ utf8_encode c))) in
      match step with
      | None => Ret None
      | Some (index, decoded) =>
        match (a ← u32_try decoded_start; b ← u32_try (length decoded);
               s ← u32_try source_run_start; s ← u32_checked_add span_lo s;
               e ← u32_try index; e ← u32_checked_add span_lo e;
               Some (MkRun a b s e)) with
        | None => Ret None
        | Some r => runs_loop fuel span_lo index decoded (runs ++ [r])
        end
      end
    else Ret (Some (decoded, runs))
  end.
End DecodedRuns.

Definition decoded_string_runs (source : bytes) (span : Span) : res (option (bytes * list DecodedStringRun)) :=
  let start := Z.to_nat (lo span) in
  let end_ := Z.to_nat (hi span) in
  match slice_get start end_ source with
  | None => Ret None
  | Some literal =>
    let n := length literal in
    if (n <? 2)%nat || negb (lit_is literal 0 dquote) || negb (lit_is literal (n - 1) dquote)
    then Ret None
    else runs_loop source literal start (n - 1) (S n) (lo span) 1 [] []
  end.
