(* ===== verification/LexerSpec.v ===== *)
(** * Correctness of the lexer

    Every source tokenizes (no panic, no exhausted fuel); the tokens tile the
    source; each token's text is the text of its kind; statement terminators
    stand where the Go-style rule puts them. *)
From Stdlib Require Import ZArith Lia SpecFloat.
From S2P Require Import Prelude Utf8 Span Diag Text Token Lexer.
Local Open Scope Z_scope.

(** ** Text of the kinds that have one *)
Definition keyword_text (k : TokKind) : option bytes :=
  fst <$> List.find (λ p, kind_eqb k p.2) keywords.

Definition symbol_text (k : TokKind) : option bytes :=
  match k with
  | TokKind.ColonEq => Some (str ":=") | TokKind.Eq => Some (str "=") | TokKind.Arrow => Some (str "->")
  | TokKind.FatArrow => Some (str "=>") | TokKind.LParen => Some (str "(") | TokKind.RParen => Some (str ")")
  | TokKind.LBrace => Some (str "{") | TokKind.RBrace => Some (str "}") | TokKind.LBracket => Some (str "[")
  | TokKind.RBracket => Some (str "]") | TokKind.Comma => Some (str ",") | TokKind.Colon => Some (str ":")
  | TokKind.Dot => Some (str ".") | TokKind.DotDot => Some (str "..") | TokKind.DotDotEq => Some (str "..=")
  | TokKind.Plus => Some (str "+") | TokKind.Minus => Some (str "-") | TokKind.Star => Some (str "*")
  | TokKind.Slash => Some (str "/") | TokKind.Percent => Some (str "%") | TokKind.EqEq => Some (str "==")
  | TokKind.NotEq => Some (str "!=") | TokKind.Lt => Some (str "<") | TokKind.Le => Some (str "<=")
  | TokKind.Gt => Some (str ">") | TokKind.Ge => Some (str ">=") | TokKind.AndAnd => Some (str "&&")
  | TokKind.OrOr => Some (str "||") | TokKind.Amp => Some (str "&") | TokKind.Pipe => Some (str "|")
  | TokKind.Caret => Some (str "^") | TokKind.Tilde => Some (str "~") | TokKind.Bang => Some (str "!")
  | TokKind.Question => Some (str "?") | TokKind.Semicolon => Some (str ";")
  | _ => None
  end.

Section Spec.
Context (fid : FileId) (src : bytes).

Abbreviation errs st := (error_count (diags st)).

(** The prefix up to [i] is a whole number of characters. *)
Definition bnd (i : nat) : Prop := valid_utf8 (take i src).

(** Diagnostics are only added, each at a span inside the source. *)
Definition span_in (sp : Span) : Prop :=
  file sp = fid ∧ 0 ≤ lo sp ≤ Z.of_nat (length src) ∧ 0 ≤ hi sp ≤ Z.of_nat (length src).
Definition reported (d d' : Diagnostics) : Prop :=
  ∃ l, items d' = items d ++ l ∧ Forall (λ x, ∃ sp, d_span x = Some sp ∧ span_in sp) l.

#[local] Instance reported_preorder : PreOrder reported.
Proof.
  split; [intros d; exists []; by rewrite app_nil_r|].
  intros a b c (l & Hl & Fl) (m & Hm & Fm). exists (l ++ m).
  rewrite Hm, Hl, <-app_assoc. split; [done|]. by apply Forall_app.
Qed.

Lemma reported_extends d d' : reported d d' → extends d d'.
Proof. intros (l & Hl & _). by exists l. Qed.

Lemma u32_of_le n : 0 ≤ u32_of n ≤ Z.of_nat n.
Proof. unfold u32_of, u32. pose proof (Z.mod_le (Z.of_nat n) (2 ^ 32)). pose proof (Z.mod_pos_bound (Z.of_nat n) (2 ^ 32)). lia. Qed.

Lemma span_in_mk a b : (a ≤ length src)%nat → (b ≤ length src)%nat → span_in (mk_span fid a b).
Proof. intros. pose proof (u32_of_le a). pose proof (u32_of_le b). unfold span_in. simpl. lia. Qed.

Lemma reported_report st msg lo hi :
  (lo ≤ length src)%nat → (hi ≤ length src)%nat → reported (diags st) (diags (report fid st msg lo hi)).
Proof.
  intros. eexists. split; [reflexivity|]. constructor; [|done]. eexists. split; [reflexivity|]. by apply span_in_mk.
Qed.

(** A sub-step of a token: the cursor moves on inside the source, diagnostics
    are only added, no token is emitted, and without an error the cursor stays
    on character boundaries. *)
Record adv (st st' : Lexer) : Prop := {
  adv_pos : (pos st ≤ pos st' ≤ length src)%nat;
  adv_diags : reported (diags st) (diags st');
  adv_tokens : tokens st' = tokens st;
  adv_bnd : valid_utf8 src → errs st' = errs st → bnd (pos st) → bnd (pos st')
}.

Lemma adv_errs st st' : adv st st' → (errs st ≤ errs st')%nat.
Proof. intros []. by apply error_count_extends, reported_extends. Qed.

Lemma adv_refl st : (pos st ≤ length src)%nat → adv st st.
Proof. intros. split; [lia|done|done|done]. Qed.

Lemma adv_trans a b c : adv a b → adv b c → adv a c.
Proof.
  intros Hab Hbc. pose proof (adv_errs _ _ Hab). pose proof (adv_errs _ _ Hbc).
  destruct Hab as [? ? ? Hb1], Hbc as [? ? ? Hb2]. split.
  - lia.
  - by etrans.
  - congruence.
  - intros Hv He Hb. apply Hb2; [done|lia|]. apply Hb1; [done|lia|done].
Qed.

Lemma adv_report st msg lo hi :
  (pos st ≤ length src)%nat → (lo ≤ length src)%nat → (hi ≤ length src)%nat → adv st (report fid st msg lo hi).
Proof.
  intros. split; simpl; [lia|by apply (reported_report st)|done|].
  rewrite error_count_error. lia.
Qed.

Lemma report_errs st msg lo hi : errs (report fid st msg lo hi) = S (errs st).
Proof. apply error_count_error. Qed.

(** Moving over ASCII bytes keeps the boundary. *)
Lemma take_slice i j : (i ≤ j)%nat → take j src = take i src ++ slice i j src.
Proof.
  intros. unfold slice. replace j with (i + (j - i))%nat at 1 by lia. by rewrite take_take_drop.
Qed.

Lemma bnd_ascii i j :
  (i ≤ j)%nat → Forall (λ b, 0 ≤ b < 128) (slice i j src) → bnd i → bnd j.
Proof.
  intros Hij Ha Hb. unfold bnd. rewrite (take_slice i j) by done.
  apply valid_utf8_app; [done|]. exists (slice i j src). by apply ascii_valid.
Qed.

Lemma adv_ascii st j :
  (pos st ≤ j ≤ length src)%nat → Forall (λ b, 0 ≤ b < 128) (slice (pos st) j src) →
  adv st (set_pos st j).
Proof.
  intros Hj Ha. split; simpl; [lia|done|done|]. intros _ _. apply bnd_ascii; [lia|done].
Qed.

Lemma slice_one i c : src !! i = Some c → slice i (i + 1) src = [c].
Proof.
  intros H. unfold slice. rewrite Nat.add_sub'. rewrite (drop_S _ _ _ H). done.
Qed.

Lemma lookup_len i c : src !! i = Some c → (i < length src)%nat.
Proof. apply lookup_lt_Some. Qed.

Lemma adv_one st c : src !! pos st = Some c → 0 ≤ c < 128 → adv st (set_pos st (pos st + 1)).
Proof.
  intros H Hc. pose proof (lookup_len _ _ H). apply adv_ascii; [lia|].
  rewrite (slice_one _ _ H). by constructor.
Qed.

Lemma run_from_le p i : (i ≤ length src)%nat → (i ≤ run_from src p i ≤ length src)%nat.
Proof.
  intros. unfold run_from. pose proof (count_while_le p (drop i src)) as H'.
  rewrite length_drop in H'. lia.
Qed.

Lemma run_from_all p i : Forall (λ c, p c = true) (slice i (run_from src p i) src).
Proof.
  unfold slice, run_from. rewrite Nat.add_sub'. apply count_while_take.
Qed.

Lemma run_from_lookup p i j c :
  (i ≤ j)%nat → (j < run_from src p i)%nat → src !! j = Some c → p c = true.
Proof.
  intros Hi Hj Hc. pose proof (run_from_all p i) as Ha. rewrite Forall_lookup in Ha.
  apply (Ha (j - i)%nat). rewrite slice_lookup by lia. by replace (i + (j - i))%nat with j by lia.
Qed.

Lemma run_from_stop p i c : src !! run_from src p i = Some c → p c = false.
Proof.
  unfold run_from. rewrite <-lookup_drop. apply count_while_stop.
Qed.

Lemma run_from_first p i c : src !! i = Some c → p c = true → (i < run_from src p i)%nat.
Proof.
  intros Hc Hp. unfold run_from. rewrite (drop_S _ _ _ Hc). simpl. rewrite Hp. lia.
Qed.

Lemma adv_eat_while p st :
  (∀ c, p c = true → 0 ≤ c < 128) → (pos st ≤ length src)%nat → adv st (eat_while src p st).
Proof.
  intros Hp Hl. pose proof (run_from_le p (pos st) Hl). apply adv_ascii; [lia|].
  eapply Forall_impl; [apply run_from_all|]. done.
Qed.

Lemma is_at_true i x : is_at src i x = true → src !! i = Some x.
Proof. unfold is_at. destruct (src !! i); [|done]. intros. b2p. by subst. Qed.

Lemma adv_is_at st x : is_at src (pos st) x = true → 0 ≤ x < 128 → adv st (set_pos st (pos st + 1)).
Proof. intros H Hx. eapply adv_one; [by apply is_at_true|done]. Qed.

Lemma ident_continue_ascii c : is_ident_continue c = true → 0 ≤ c < 128.
Proof.
  unfold is_ident_continue. intros [?|?]%orb_prop; [b2p; lia|by apply alnum_ascii].
Qed.

Lemma digit_us_ascii c : is_digit_or_underscore c = true → 0 ≤ c < 128.
Proof. unfold is_digit_or_underscore, is_ascii_digit. lia. Qed.

Lemma run_ascii_valid p a b :
  (∀ c, p c = true → 0 ≤ c < 128) → Forall (λ c, p c = true) (slice a b src) →
  from_utf8 (slice a b src) = Some (slice a b src).
Proof. intros Hp Ha. apply ascii_valid. eapply Forall_impl; [done|]. done. Qed.

(** ** Characters *)

Definition char_len_table (b : Z) : nat :=
  if b <? 128 then 1 else if b <? 192 then 1 else if b <? 224 then 2
  else if b <? 240 then 3 else if b <? 248 then 4 else 1.

Lemma char_len_spec b : 0 ≤ b < 256 → char_len b = char_len_table b.
Proof.
  intros Hb. assert (forallb (λ n, Nat.eqb (char_len (Z.of_nat n)) (char_len_table (Z.of_nat n))) (seq 0 256) = true)
    as H by (vm_compute; reflexivity).
  rewrite forallb_forall in H. specialize (H (Z.to_nat b)). rewrite Z2Nat.id in H by lia.
  apply Nat.eqb_eq, H, in_seq. lia.
Qed.

Lemma char_len_head c l b :
  is_scalar c = true → utf8_encode c ++ l = b :: [] ++ drop 1 (utf8_encode c ++ l) → char_len b = len_utf8 c.
Proof.
  intros Hs Hh. assert (0 ≤ c ≤ 0x10FFFF) as Hc by utf8_arith.
  pose proof (split64 c). pose proof (split64 (c / 64)). pose proof (split64 (c / 64 / 64)).
  rewrite !Z.div_div in * by lia. change (64 * 64) with 4096 in *. change (4096 * 64) with 262144 in *.
  unfold utf8_encode, len_utf8 in *.
  repeat case_if; b2p; simpl in Hh; injection Hh as <-; rewrite char_len_spec by lia; unfold char_len_table.
  - replace (c <? 128) with true by lia. done.
  - replace (_ <? 128) with false by lia. replace (_ <? 192) with false by lia.
    by replace (_ <? 224) with true by lia.
  - replace (_ <? 128) with false by lia. replace (_ <? 192) with false by lia.
    replace (_ <? 224) with false by lia. by replace (_ <? 240) with true by lia.
  - replace (_ <? 128) with false by lia. replace (_ <? 192) with false by lia.
    replace (_ <? 224) with false by lia. replace (_ <? 240) with false by lia.
    by replace (_ <? 248) with true by lia.
Qed.

(** At a character boundary of a well-formed source the next character is whole. *)
Lemma next_char i c :
  valid_utf8 src → bnd i → src !! i = Some c →
  ∃ ch, is_scalar ch = true ∧ char_len c = len_utf8 ch ∧
        (i + len_utf8 ch ≤ length src)%nat ∧ slice i (i + len_utf8 ch) src = utf8_encode ch.
Proof.
  intros Hv Hb Hc. rewrite <-(take_drop i src) in Hv. apply valid_utf8_app in Hv; [|done].
  destruct Hv as [cs Hcs]. pose proof (drop_S _ _ _ Hc) as Hd.
  destruct cs as [|ch cs].
  { apply from_utf8_nil_inv in Hcs. congruence. }
  apply from_utf8_cons_inv in Hcs as (l' & Hl & Hs & _). exists ch. split; [done|].
  assert (length (drop i src) = len_utf8 ch + length l')%nat as Hlen
    by (rewrite Hl, length_app, length_utf8_encode; lia).
  rewrite length_drop in Hlen. pose proof (lookup_len _ _ Hc). split_and!.
  - apply (char_len_head ch l'); [done|]. rewrite <-Hl, Hd. simpl. by rewrite drop_0.
  - lia.
  - unfold slice. rewrite Hl, Nat.add_sub', <-length_utf8_encode. by rewrite take_app_length.
Qed.

(** The bytes of a character's encoding: an ASCII byte is the character. *)
Lemma utf8_encode_ascii_byte ch b : is_scalar ch = true → b ∈ utf8_encode ch → 0 ≤ b < 128 → b = ch.
Proof.
  intros Hs. unfold utf8_encode. pose proof (Z.mod_pos_bound ch 64). pose proof (Z.mod_pos_bound (ch / 64) 64).
  pose proof (Z.mod_pos_bound (ch / 4096) 64). unfold is_scalar in Hs.
  assert (0 ≤ ch) by lia. pose proof (Z.div_pos ch 64). pose proof (Z.div_pos ch 4096). pose proof (Z.div_pos ch 262144).
  repeat case_if; intros Hb; rewrite ?elem_of_cons, elem_of_nil in Hb; lia.
Qed.

(** A character decoded from [[a, b)]: its encoding is at most three times as
    long, and a closing brace comes from a closing brace of the source. *)
Definition char_from (ch : Z) (a b : nat) : Prop :=
  is_scalar ch = true ∧ (len_utf8 ch ≤ 3 * (b - a))%nat ∧ (ch = "}"%u8 → "}"%u8 ∈ src).

Lemma take_char_spec st c :
  src !! pos st = Some c →
  ∃ ch st', take_char src st c = Ret (ch, st') ∧ adv st st' ∧ (pos st < pos st')%nat ∧ diags st' = diags st ∧
    char_from ch (pos st) (pos st') ∧
    (valid_utf8 src → bnd (pos st) →
     is_scalar ch = true ∧ pos st' = (pos st + len_utf8 ch)%nat ∧ slice (pos st) (pos st') src = utf8_encode ch).
Proof.
  intros Hc. pose proof (lookup_len _ _ Hc) as Hlt. unfold take_char.
  rewrite usub_ok by lia. cbn [res_bind]. set (n := Nat.min _ _).
  assert (1 ≤ n)%nat as Hn by (unfold n, char_len; repeat case_if; lia).
  rewrite slice_res_ok by lia. cbn [res_bind].
  destruct (from_utf8 (slice (pos st) (pos st + n) src)) as [[|ch cs]|] eqn:Hq.
  - apply from_utf8_nil_inv in Hq. apply (f_equal length) in Hq. rewrite slice_length in Hq by lia. simpl in Hq. lia.
  - apply from_utf8_cons_inv in Hq as (l' & Hl & Hs & _). pose proof (len_utf8_pos ch).
    assert (len_utf8 ch ≤ n)%nat.
    { apply (f_equal length) in Hl. rewrite slice_length, length_app, length_utf8_encode in Hl by lia. lia. }
    assert (slice (pos st) (pos st + len_utf8 ch) src = utf8_encode ch) as Hsl.
    { unfold slice in *. rewrite Nat.add_sub' in *. apply (f_equal (take (len_utf8 ch))) in Hl.
      rewrite take_take, Nat.min_l in Hl by lia. rewrite Hl, <-length_utf8_encode. by rewrite take_app_length. }
    do 2 eexists; split; [done|]. simpl.
    assert (char_from ch (pos st) (pos st + len_utf8 ch)) as Hcf.
    { split_and!; [done|lia|]. intros ->. apply (list_elem_of_lookup_2 _ (pos st)).
      change (slice (pos st) (pos st + 1) src = ["}"%u8]) in Hsl.
      rewrite <-(Nat.add_0_r (pos st)) at 1. rewrite <-(slice_lookup (pos st) (pos st + 1)) by lia. by rewrite Hsl. }
    split_and!; try done; try lia.
    split; simpl; [lia|done|done|]. intros _ _ Hb. unfold bnd. rewrite (take_slice (pos st)) by lia.
    apply valid_utf8_app; [done|]. rewrite Hsl. exists [ch].
    rewrite <-(app_nil_r (utf8_encode ch)). by rewrite from_utf8_encode.
  - assert (valid_utf8 src → bnd (pos st) → False) as Hbad.
    { intros Hv Hb. destruct (next_char _ _ Hv Hb Hc) as (ch & Hs & Hl & Hle & Hsl).
      assert (n = len_utf8 ch) as Hn' by (unfold n; lia). rewrite Hn', Hsl in Hq.
      rewrite <-(app_nil_r (utf8_encode ch)), from_utf8_encode in Hq by done. done. }
    do 2 eexists; split; [done|]. simpl.
    assert (char_from 0xFFFD (pos st) (pos st + 1)) by (split_and!; [done|change (len_utf8 0xFFFD) with 3%nat; lia|done]).
    split_and!; simpl; try done; try lia; [|naive_solver].
    split; simpl; [lia|done|done|naive_solver].
Qed.

(** ** Escapes *)

Lemma skip_close_adv st :
  (pos st ≤ length src)%nat →
  adv st (if is_at src (pos st) "}"%u8 then set_pos st (pos st + 1) else st).
Proof. intros. case_if; [eapply adv_is_at; [eassumption|lia]|by apply adv_refl]. Qed.

Ltac adv_tac := repeat (first
  [ eassumption
  | eapply adv_trans; [eassumption|]
  | apply adv_report; simpl in *; lia
  | apply adv_refl; simpl in *; lia ]).

(** The bytes [{H..H}] of a Unicode escape over [[a, b)]: one to six hexadecimal
    digits whose value is the character. *)
Definition unicode_digits (a b : nat) (ch : Z) : Prop :=
  ∃ ds, slice a b src = "{"%u8 :: ds ++ ["}"%u8] ∧ (1 ≤ length ds ≤ 6)%nat ∧
    Forall (λ c, is_ascii_hexdigit c = true) ds ∧ digits_value 16 ds 0 = Some ch ∧ is_scalar ch = true.

(** The simple escapes: the letter and the character it stands for. *)
Definition escapes : list (Z * Z) :=
  [("n"%u8, 10); ("t"%u8, 9); ("r"%u8, 13); ("0"%u8, 0); (backslash, backslash); (dquote, dquote); ("'"%u8, "'"%u8)].

(** One character of a literal, written over [[a, b)]: plainly, or escaped. *)
Inductive char_item (a b : nat) (ch : Z) : Prop :=
  | item_plain c :
      src !! a = Some c → c ≠ backslash → c ≠ 10 → c ≠ 13 → is_scalar ch = true →
      (b ≤ length src)%nat → slice a b src = utf8_encode ch → char_item a b ch
  | item_escape e :
      src !! a = Some backslash → src !! (a + 1)%nat = Some e → (e, ch) ∈ escapes → b = (a + 2)%nat → char_item a b ch
  | item_unicode :
      src !! a = Some backslash → src !! (a + 1)%nat = Some "u"%u8 → (a + 2 ≤ b ≤ length src)%nat →
      unicode_digits (a + 2) b ch → char_item a b ch.

(** The contents of a string literal over [[a, b)]: its characters in order, none
    of them opened by the closing quote. *)
Inductive decodes (a : nat) : nat → bytes → Prop :=
  | decodes_nil : decodes a a []
  | decodes_snoc b c s ch :
      decodes a b s → src !! b ≠ Some dquote → char_item b c ch → (b < c)%nat → decodes a c (s ++ utf8_encode ch).

(** A literal over [[a, b)] stands for its contents between the quotes. *)
Definition literal_ok (k : TokKind) (a b : nat) : Prop :=
  match k with
  | TokKind.Str s => ∃ e, b = S e ∧ (a + 1 ≤ e)%nat ∧ decodes (a + 1) e s ∧ src !! e = Some dquote
  | TokKind.Char ch => ∃ e, b = S e ∧ (a + 1 < e)%nat ∧ char_item (a + 1) e ch ∧ src !! e = Some "'"%u8
  | _ => True
  end.

Lemma unicode_digits_intro a b v :
  src !! a = Some "{"%u8 → src !! b = Some "}"%u8 → (a + 1 ≤ b)%nat →
  Forall (λ c, is_ascii_hexdigit c = true) (slice (a + 1) b src) → (1 ≤ b - (a + 1) ≤ 6)%nat →
  from_str_radix_u32 (slice (a + 1) b src) 16 = Some v → is_scalar v = true → unicode_digits a (b + 1) v.
Proof.
  intros Ha Hb Hab Hf Hl Hv Hs. pose proof (lookup_lt_Some _ _ _ Hb). exists (slice (a + 1) b src).
  rewrite slice_length by lia. split_and!; try done; try lia.
  - rewrite (slice_app a (a + 1)), (slice_app (a + 1) b) by lia. by rewrite (slice_one _ _ Ha), (slice_one _ _ Hb).
  - unfold from_str_radix_u32 in Hv. destruct (slice _ _ _); [done|].
    apply bind_Some in Hv as (w & -> & [-> _]%check_range_Some). done.
Qed.

Lemma lex_unicode_escape_spec st literal esc_start :
  (pos st ≤ length src)%nat → (1 ≤ esc_start ≤ pos st)%nat →
  ∃ o st', lex_unicode_escape fid src st literal esc_start = Ret (o, st') ∧ adv st st' ∧
           (o = None → (errs st < errs st')%nat) ∧
           (∀ ch, o = Some ch → char_from ch (pos st) (pos st') ∧ errs st' = errs st ∧
                               unicode_digits (pos st) (pos st') ch).
Proof.
  intros Hl He. unfold lex_unicode_escape. rewrite usub_ok by lia. cbn [res_bind].
  destruct (is_at src (pos st) _) eqn:Hb; cbn [negb].
  2:{ do 2 eexists; split; [done|]. split; [apply adv_report; lia|]. simpl. rewrite error_count_error. split; [intros _; lia|done]. }
  assert (adv st (set_pos st (pos st + 1))) as H1 by (eapply adv_is_at; [eassumption|lia]).
  set (st1 := set_pos st (pos st + 1)) in *.
  assert (adv st1 (eat_while src is_ascii_hexdigit st1)) as H2.
  { apply adv_eat_while; [apply hexdigit_ascii|]. apply H1. }
  set (st2 := eat_while _ _ _) in *. pose proof (adv_pos _ _ H1). pose proof (adv_pos _ _ H2).
  assert (errs st2 = errs st) as Herr by done.
  assert (Forall (λ c, is_ascii_hexdigit c = true) (slice (pos st + 1) (pos st2) src)) as Hhex by apply run_from_all.
  clearbody st2.
  assert (∀ msg lo hi, (lo ≤ length src)%nat → (hi ≤ length src)%nat → adv st (let st' := report fid st2 msg lo hi in
            if is_at src (pos st') "}"%u8 then set_pos st' (pos st' + 1) else st')) as Hrep.
  { intros msg lo hi ? ?. eapply adv_trans; [exact H1|]. eapply adv_trans; [exact H2|].
    eapply adv_trans; [apply (adv_report st2 msg lo hi); lia|]. apply skip_close_adv. simpl; lia. }
  assert (∀ msg lo hi, (errs st < errs (let st' := report fid st2 msg lo hi in
            if is_at src (pos st') "}"%u8 then set_pos st' (pos st' + 1) else st'))%nat) as Hre.
  { intros. cbv zeta. case_if; simpl; rewrite error_count_error; lia. }
  destruct (_ =? 0)%nat eqn:E0.
  { do 2 eexists; split; [done|]. split; [apply Hrep; lia|]. split; [intros _; apply Hre|done]. }
  destruct (6 <? _)%nat eqn:E6.
  { do 2 eexists; split; [done|]. split; [apply Hrep; lia|]. split; [intros _; apply Hre|done]. }
  destruct (is_at src (pos st2) _) eqn:Hc; cbn [negb].
  2:{ do 2 eexists; split; [done|]. split; [adv_tac|]. simpl. rewrite error_count_error. split; [intros _; lia|done]. }
  assert (adv st2 (set_pos st2 (pos st2 + 1))) as H3 by (eapply adv_is_at; [eassumption|lia]).
  rewrite slice_res_ok by lia. cbn [res_bind]. pose proof (adv_pos _ _ H3).
  change (pos st1) with (pos st + 1)%nat in *. b2p.
  replace (pos st + 1 + (pos st2 - (pos st + 1)))%nat with (pos st2) by lia.
  rewrite ascii_valid by (eapply Forall_impl; [exact Hhex|]; intros; by apply hexdigit_ascii).
  unfold char_from_u32. destruct (is_scalar _) eqn:Hs.
  - do 2 eexists; split; [done|]. split; [adv_tac|]. split; [done|]. intros ? [= <-]. split_and!; [|done|].
    + split_and!; [done| |intros _; by eapply list_elem_of_lookup_2, is_at_true].
      match goal with |- (len_utf8 ?c ≤ _)%nat => pose proof (len_utf8_pos c) end. simpl in *. lia.
    + apply unicode_digits_intro; [by apply is_at_true|by apply is_at_true|lia|done|lia| |done].
      by destruct (from_str_radix_u32 _ _).
  - do 2 eexists; split; [done|]. split; [adv_tac|]. simpl. rewrite error_count_error. split; [intros _; lia|done].
Qed.

Lemma lex_escape_spec st literal c :
  src !! pos st = Some c → (1 ≤ pos st)%nat →
  ∃ o st', lex_escape fid src st literal = Ret (o, st') ∧ adv st st' ∧ (pos st < pos st')%nat ∧
           (o = None → (errs st < errs st')%nat) ∧
           (∀ ch, o = Some ch → char_from ch (pos st) (pos st') ∧ errs st' = errs st ∧
                               (src !! (pos st - 1)%nat = Some backslash → char_item (pos st - 1) (pos st') ch)).
Proof.
  intros Hc Hp. pose proof (lookup_len _ _ Hc). unfold lex_escape, peek. rewrite Hc.
  set (st1 := set_pos st (pos st + 1)).
  assert (∀ ch, char_from ch (pos st) (pos st1) → 0 ≤ c < 128 → (c, ch) ∈ escapes →
    ∃ o st', Ret (Some ch, st1) = Ret (o, st') ∧ adv st st' ∧ (pos st < pos st')%nat ∧
      (o = None → (errs st < errs st')%nat) ∧
      (∀ ch, o = Some ch → char_from ch (pos st) (pos st') ∧ errs st' = errs st ∧
         (src !! (pos st - 1)%nat = Some backslash → char_item (pos st - 1) (pos st') ch))) as Hsimple.
  { intros ch Hs Hca Hin. do 2 eexists; split; [done|]. split; [by eapply adv_one|]. split; [simpl; lia|]. split; [done|].
    intros ? [= <-]. split_and!; [done|done|]. intros Hb. eapply (item_escape _ _ _ c); [done| |done|simpl; lia].
    by replace (pos st - 1 + 1)%nat with (pos st) by lia. }
  do 7 (case_if; [b2p; apply Hsimple; [split_and!; [done|unfold st1, len_utf8; cbn -[Nat.mul Nat.sub]; lia|done]|lia|];
    subst c; apply list_elem_of_In; repeat ((left; reflexivity) || right)|]).
  case_if; b2p.
  - destruct (lex_unicode_escape_spec st1 literal (pos st)) as (o & st' & -> & Ha & Hn & Hs); [simpl; lia|simpl; lia|].
    do 2 eexists; split; [done|]. pose proof (adv_pos _ _ Ha). simpl in *. split_and!; [|lia|done|].
    2:{ intros ch Hch. destruct (Hs ch Hch) as ((? & ? & ?) & ? & Hu). split_and!; [split_and!; [done|lia|done]|done|].
        intros Hb. apply item_unicode; [done| |lia|].
        - replace (pos st - 1 + 1)%nat with (pos st) by lia. congruence.
        - by replace (pos st - 1 + 2)%nat with (pos st + 1)%nat by lia. }
    eapply adv_trans; [eapply adv_one; [eassumption|lia]|done].
  - rewrite usub_ok by lia. cbn [res_bind]. do 2 eexists; split; [done|]. simpl.
    rewrite error_count_error. split_and!; [|lia|lia|done].
    split; simpl; [lia|apply (reported_report st1); simpl; lia|done|]. rewrite error_count_error. lia.
Qed.

(** ** Tokens and the text they stand for *)

(** Text decoded from [n] bytes of source: valid UTF-8, at most three times as
    long (an ill-formed byte becomes the three-byte U+FFFD), and with a closing
    brace only if the source has one. *)
Definition text_from (s : bytes) (n : nat) : Prop :=
  valid_utf8 s ∧ (length s ≤ 3 * n)%nat ∧ ("}"%u8 ∈ s → "}"%u8 ∈ src).

Lemma text_from_mono s n m : (n ≤ m)%nat → text_from s n → text_from s m.
Proof. intros ? (?&?&?). split_and!; [done|lia|done]. Qed.

Lemma text_from_snoc s ch n a b :
  (a ≤ b)%nat → text_from s n → char_from ch a b → text_from (s ++ utf8_encode ch) (n + (b - a)).
Proof.
  intros Hab (Hv & Hl & Hin) (Hs & Hlen & Hb). split_and!.
  - apply valid_utf8_app; [done|]. exists [ch]. rewrite <-(app_nil_r (utf8_encode ch)). by rewrite from_utf8_encode.
  - rewrite length_app, length_utf8_encode. lia.
  - intros [?|H]%elem_of_app; [auto|]. apply Hb. symmetry. eapply utf8_encode_ascii_byte; [done|exact H|lia].
Qed.

Definition starts_digit (a : nat) : Prop := ∃ c, src !! a = Some c ∧ is_ascii_digit c = true.

Definition is_identifier (s : bytes) : bool :=
  match s with c :: s' => is_ident_start c && forallb is_ident_continue s' | [] => false end.

(** What the source range [[a, b)] of a token must spell. *)
Definition spells (t : Token) (a b : nat) : Prop :=
  let text := slice a b src in
  match kind t with
  | TokKind.Int v =>
      starts_digit a ∧ ∃ r, integer_radix t = Some r ∧
        ((r = 10 ∧ from_str_radix_i128 (List.filter not_underscore text) 10 = Some v) ∨
         (∃ name, radix_prefix src a = Some (r, name) ∧
            from_str_radix_i128 (List.filter not_underscore (slice (a + 2) b src)) r = Some v))
  | TokKind.Float v => starts_digit a ∧ parse_f64 (List.filter not_underscore text) = Some v ∧ is_infinite v = false
  | TokKind.Char _ => src !! a = Some "'"%u8
  | TokKind.Str s => src !! a = Some dquote ∧ text_from s (b - a)
  | TokKind.Ident s => s = text ∧ is_identifier s = true ∧ keyword_or_ident s = TokKind.Ident s
  | TokKind.End_ | TokKind.Eof => a = b
  | k => keyword_text k = Some text ∨ symbol_text k = Some text
  end.

Record tok_at (t : Token) (a b : nat) : Prop := {
  ta_span : span t = mk_span fid a b;
  ta_range : (a ≤ b ≤ length src)%nat;
  ta_text : spells t a b
}.

Definition is_mark (k : TokKind) : bool :=
  match k with TokKind.End_ | TokKind.Eof => true | _ => false end.

(** The effect of lexing one token from [st]: it consumes input, and it emits
    one token that starts at the cursor or reports an error; without an error
    the token ends at the new cursor. *)
Record emitted (st st' : Lexer) : Prop := {
  em_pos : (pos st < pos st' ≤ length src)%nat;
  em_diags : reported (diags st) (diags st');
  em_tokens :
    (∃ t hi, tokens st' = tokens st ++ [t] ∧ tok_at t (pos st) hi ∧ (pos st < hi ≤ pos st')%nat ∧
             is_mark (kind t) = false ∧
             (errs st' = errs st → hi = pos st' ∧ (valid_utf8 src → bnd (pos st) → literal_ok (kind t) (pos st) hi))) ∨
    (tokens st' = tokens st ∧ (errs st < errs st')%nat);
  em_bnd : valid_utf8 src → errs st' = errs st → bnd (pos st) → bnd (pos st')
}.

Lemma emitted_push st st1 k :
  adv st st1 → (pos st < pos st1)%nat → is_mark k = false →
  spells (MkToken k (mk_span fid (pos st) (pos st1))
            match k with TokKind.Int _ => Some (radix_at src (pos st)) | _ => None end) (pos st) (pos st1) →
  (valid_utf8 src → errs st1 = errs st → bnd (pos st) → literal_ok k (pos st) (pos st1)) →
  emitted st (push fid src st1 k (pos st)).
Proof.
  intros Ha Hp Hk Hs Hlit. pose proof (adv_pos _ _ Ha). split; simpl.
  - lia.
  - apply Ha.
  - left. do 2 eexists. rewrite (adv_tokens _ _ Ha). split; [done|]. split; [split; [done|lia|done]|]. split; [lia|]. split; [done|].
    simpl. auto.
  - apply Ha.
Qed.

Lemma emitted_error st st1 :
  adv st st1 → (pos st < pos st1)%nat → (errs st < errs st1)%nat → emitted st st1.
Proof.
  intros Ha Hp He. pose proof (adv_pos _ _ Ha). split; [lia|apply Ha| |apply Ha].
  right. by rewrite (adv_tokens _ _ Ha).
Qed.

Lemma emitted_report st st1 msg :
  adv st st1 → (pos st < pos st1)%nat → emitted st (report fid st1 msg (pos st) (pos st1)).
Proof.
  intros Ha Hp. pose proof (adv_pos _ _ Ha). pose proof (adv_errs _ _ Ha). apply emitted_error; simpl.
  - eapply adv_trans; [done|]. apply adv_report; lia.
  - done.
  - rewrite error_count_error. lia.
Qed.

(** A literal may go on after its token was pushed, with an error. *)
Lemma emitted_adv st st1 st2 :
  emitted st st1 → adv st1 st2 → ((errs st1 < errs st2)%nat ∨ st2 = st1) → emitted st st2.
Proof.
  intros Hem Ha [He| ->]; [|done]. pose proof (adv_pos _ _ Ha). destruct Hem as [Hp Hd Ht Hb].
  pose proof (error_count_extends _ _ (reported_extends _ _ Hd)). split; [lia|by etrans; [|apply Ha]| |intros; lia].
  destruct Ht as [(t & hi & Ht & Hta & Hhi & Hm & _)|[Ht He']].
  - left. exists t, hi. rewrite (adv_tokens _ _ Ha). split_and!; try done; lia.
  - right. rewrite (adv_tokens _ _ Ha). split; [done|lia].
Qed.

(** ** String and character literals *)

Lemma set_pos_set_pos st a b : set_pos (set_pos st a) b = set_pos st b.
Proof. done. Qed.

Lemma at_line_end_false i : at_line_end (src !! i) = false → ∃ c, src !! i = Some c ∧ c ≠ 10 ∧ c ≠ 13.
Proof. unfold at_line_end. destruct (src !! i); [|done]. intros. b2p. eauto. Qed.

Lemma string_loop_spec fuel start s st :
  (start ≤ pos st ≤ length src)%nat → (length src < fuel + pos st)%nat →
  text_from s (pos st - start) →
  ∃ s' st', string_loop fid src fuel start s st = Ret (s', st') ∧ adv st st' ∧
            text_from s' (pos st' - start) ∧
            (errs st' = errs st → (pos st < pos st')%nat ∧ src !! (pos st' - 1)%nat = Some dquote ∧
               (valid_utf8 src → bnd (pos st) → ∀ a, decodes a (pos st) s → decodes a (pos st' - 1) s')).
Proof.
  revert s st. induction fuel as [|fuel IH]; intros s st Hl Hf Ht; [lia|]. cbn [string_loop].
  unfold peek. destruct (at_line_end (src !! pos st)) eqn:Hend.
  { do 2 eexists; split; [done|]. split; [apply adv_report; lia|]. split; [done|]. rewrite report_errs. lia. }
  apply at_line_end_false in Hend as (c & Hc & Hc1 & Hc2). rewrite Hc. cbn [unwrap res_bind].
  pose proof (lookup_len _ _ Hc).
  destruct (c =? 34) eqn:Hq; b2p.
  { do 2 eexists; split; [done|]. split; [eapply adv_one; [done|lia]|].
    split; [by eapply text_from_mono; [|exact Ht]; simpl; lia|]. simpl.
    intros _. rewrite Nat.add_sub. split_and!; [lia|congruence|done]. }
  assert (src !! pos st ≠ Some dquote) as Hnq by congruence.
  destruct (c =? 92) eqn:Hbs; b2p.
  - assert (adv st (set_pos st (pos st + 1))) as H1 by (eapply adv_one; [done|lia]).
    destruct (at_line_end (src !! pos (set_pos st (pos st + 1)))) eqn:Hend.
    { do 2 eexists; split; [done|]. split; [adv_tac|]. split; [by eapply text_from_mono; [|exact Ht]; simpl; lia|].
      simpl. rewrite error_count_error. lia. }
    apply at_line_end_false in Hend as (e & He & _ & _).
    destruct (lex_escape_spec (set_pos st (pos st + 1)) (str "string") e) as (o & st2 & -> & H2 & Hp2 & Hn & Hs);
      [done|simpl; lia|]. cbn [res_bind]. simpl in Hp2. pose proof (adv_pos _ _ H2). simpl in *.
    assert (∃ s', (match o with
                   | Some ch => string_loop fid src fuel start (s ++ utf8_encode ch) st2
                   | None => string_loop fid src fuel start s st2 end) = string_loop fid src fuel start s' st2 ∧
                  text_from s' (pos st2 - start) ∧
                  (errs st2 = errs st → ∀ a, decodes a (pos st) s → decodes a (pos st2) s')) as (s1 & -> & Ht1 & Hd1).
    { destruct o as [ch|]; (eexists; split; [done|]).
      - destruct (Hs ch eq_refl) as (Hcf & _ & Hit).
        split; [eapply text_from_mono; [|eapply text_from_snoc; [|exact Ht|exact Hcf]]; lia|].
        intros _ a Hd. eapply decodes_snoc; [done|done| |lia]. rewrite Nat.add_sub in Hit. apply Hit. congruence.
      - split; [eapply text_from_mono; [|exact Ht]; lia|]. specialize (Hn eq_refl). lia. }
    destruct (IH s1 st2) as (s' & st' & -> & H3 & Ht3 & Hfin); [lia|lia|done|].
    do 2 eexists; split; [done|]. pose proof (adv_errs _ _ H2). pose proof (adv_errs _ _ H3). simpl in *.
    assert (adv st st2) as H12 by adv_tac.
    split; [adv_tac|]. split; [done|]. intros Heq. pose proof (adv_pos _ _ H3). destruct Hfin as (?&?&Hd); [lia|].
    split_and!; [lia|done|]. intros Hv Hb a Ha. apply Hd; [done| |apply Hd1; [lia|done]]. apply H12; [done|lia|done].
  - destruct (take_char_spec st c Hc) as (ch & st2 & -> & H2 & Hp2 & He2 & Hcf & Hpl). cbn [res_bind].
    pose proof (adv_pos _ _ H2).
    destruct (IH (s ++ utf8_encode ch) st2) as (s' & st' & -> & H3 & Ht3 & Hfin); [lia|lia| |].
    { eapply text_from_mono; [|eapply text_from_snoc; [|exact Ht|exact Hcf]]; lia. }
    do 2 eexists; split; [done|]. pose proof (adv_errs _ _ H2). pose proof (adv_errs _ _ H3).
    split; [adv_tac|]. split; [done|]. intros Heq. pose proof (adv_pos _ _ H3). destruct Hfin as (?&?&Hd); [lia|].
    split_and!; [lia|done|]. intros Hv Hb a Ha. destruct (Hpl Hv Hb) as (Hsc & _ & Hsl).
    apply Hd; [done|apply H2; [done|congruence|done]|]. eapply decodes_snoc; [done|done| |lia]. by apply (item_plain _ _ _ c); try lia.
Qed.

Lemma lex_string_spec st :
  src !! pos st = Some dquote → ∃ st', lex_string fid src st (pos st) = Ret st' ∧ emitted st st'.
Proof.
  intros Hc. pose proof (lookup_len _ _ Hc). unfold lex_string.
  assert (adv st (set_pos st (pos st + 1))) as H1 by (eapply adv_one; [done|lia]).
  destruct (string_loop_spec (S (length src)) (pos st) [] (set_pos st (pos st + 1)))
    as (s & st' & -> & H2 & Ht & Hfin); [simpl; lia..| |].
  { split_and!; [by exists []|simpl; lia|by rewrite elem_of_nil]. }
  cbn [res_bind]. eexists; split; [done|]. pose proof (adv_pos _ _ H2). simpl in *.
  apply emitted_push; [adv_tac|lia|done|done|]. intros Hv He Hb. destruct Hfin as (? & Hq & Hd); [done|].
  exists (pos st' - 1)%nat. split_and!; [lia|lia| |done].
  apply Hd; [done|apply H1; [done|done|done]|constructor].
Qed.

Lemma lex_char_spec st :
  src !! pos st = Some "'"%u8 → ∃ st', lex_char fid src st (pos st) = Ret st' ∧ emitted st st'.
Proof.
  intros Hc. pose proof (lookup_len _ _ Hc). unfold lex_char, peek.
  assert (adv st (set_pos st (pos st + 1))) as H1 by (eapply adv_one; [done|lia]).
  assert (∀ ch st1, adv st st1 → (pos st + 1 < pos st1)%nat →
    (valid_utf8 src → errs st1 = errs st → bnd (pos st) → char_item (pos st + 1) (pos st1) ch) →
    emitted st (push fid src
      (if is_at src (pos st1) "'"%u8 then set_pos st1 (pos st1 + 1)
       else if at_line_end (src !! pos st1) then report fid st1 (str "unterminated character literal") (pos st) (pos st1)
       else report fid st1 (str "character literal must contain exactly one character") (pos st) (pos st1))
      (TokKind.Char ch) (pos st))) as Hfin.
  { intros ch st1 Ha Hp Hit. pose proof (adv_pos _ _ Ha). pose proof (adv_errs _ _ Ha). apply emitted_push; [..|done|done|].
    - case_if; [eapply adv_trans; [done|]; eapply adv_is_at; [eassumption|lia]|]. case_if; adv_tac.
    - repeat case_if; simpl; lia.
    - intros Hv. case_if; [|case_if; rewrite report_errs; lia]. intros He Hb. exists (pos st1). simpl in *.
      split_and!; [lia|lia|by apply Hit|by apply is_at_true]. }
  destruct (at_line_end _) eqn:Hend.
  { eexists; split; [done|]. apply emitted_report; [done|simpl; lia]. }
  apply at_line_end_false in Hend as (c & Hc' & Hn1 & Hn2). rewrite Hc'. cbn [unwrap res_bind].
  destruct (c =? 92) eqn:Hbs; b2p.
  - simpl in Hc'. assert (adv (set_pos st (pos st + 1)) (set_pos st (pos st + 1 + 1))) as H2.
    { apply (adv_one (set_pos st (pos st + 1)) c); [done|lia]. }
    change (pos (set_pos st (pos st + 1))) with (pos st + 1)%nat. rewrite set_pos_set_pos.
    change (pos (set_pos st (pos st + 1 + 1))) with (pos st + 1 + 1)%nat.
    destruct (at_line_end (src !! (pos st + 1 + 1)%nat)) eqn:Hend.
    { eexists; split; [done|]. apply emitted_report; [adv_tac|simpl; lia]. }
    apply at_line_end_false in Hend as (e & He & _ & _).
    destruct (lex_escape_spec (set_pos st (pos st + 1 + 1)) (str "character") e) as (o & st2 & -> & H3 & Hp3 & Hno & Hit);
      [done|simpl; lia|]. cbn [res_bind]. eexists; split; [done|]. apply Hfin; [adv_tac|simpl in *; lia|].
    intros Hv Heq Hb. destruct o as [ch|]; [|specialize (Hno eq_refl); simpl in *; lia].
    destruct (Hit ch eq_refl) as (_ & _ & Hi). simpl in Hi. rewrite Nat.add_sub in Hi. apply Hi. congruence.
  - destruct (take_char_spec (set_pos st (pos st + 1)) c Hc') as (ch & st2 & -> & H2 & Hp2 & _ & _ & Hpl). cbn [res_bind].
    eexists; split; [done|]. apply Hfin; [adv_tac|simpl in *; lia|]. intros Hv Heq Hb. simpl in *.
    destruct Hpl as (Hsc & _ & Hsl); [done|by apply H1|]. pose proof (adv_pos _ _ H2).
    by apply (item_plain _ _ _ c); try lia.
Qed.

(** ** Identifiers, keywords and symbols *)

(** Kinds whose text is a fixed keyword or symbol. *)
Definition fixed_text (k : TokKind) (text : bytes) : Prop :=
  is_mark k = false ∧ nullary k = true ∧
  ∀ sp a b, slice a b src = text → spells (MkToken k sp None) a b.

Lemma fixed_text_intro k text :
  (keyword_text k = Some text ∨ symbol_text k = Some text) → nullary k = true → is_mark k = false →
  fixed_text k text.
Proof.
  intros Ht Hn Hm. split_and!; [done|done|]. intros sp a b <-. unfold spells; simpl.
  destruct k; try discriminate Hn; try discriminate Hm; exact Ht.
Qed.

Lemma keyword_or_ident_spec text :
  keyword_or_ident text = TokKind.Ident text ∨ fixed_text (keyword_or_ident text) text.
Proof.
  unfold keyword_or_ident. destruct (List.find _ _) as [[w k]|] eqn:Hf; [right|by left].
  apply List.find_some in Hf as [Hin He]. apply bool_decide_eq_true in He. simpl in He. subst w.
  assert (Forall (λ p, keyword_text p.2 = Some p.1 ∧ nullary p.2 = true ∧ is_mark p.2 = false) keywords) as Hall
    by (repeat constructor).
  rewrite Forall_forall in Hall. apply list_elem_of_In in Hin. apply Hall in Hin as (?&?&?).
  by apply fixed_text_intro; [left|..].
Qed.

Lemma emitted_fixed st st1 k :
  adv st st1 → (pos st < pos st1)%nat → fixed_text k (slice (pos st) (pos st1) src) →
  emitted st (push fid src st1 k (pos st)).
Proof.
  intros Ha Hp (Hm & Hl & Hs). apply emitted_push; [done..| |intros _ _ _; by destruct k].
  specialize (Hs (mk_span fid (pos st) (pos st1)) (pos st) (pos st1) eq_refl). by destruct k.
Qed.

Lemma lex_ident_spec st c :
  src !! pos st = Some c → is_ident_start c = true →
  ∃ st', lex_ident fid src st (pos st) = Ret st' ∧ emitted st st'.
Proof.
  intros Hc Hs. pose proof (lookup_len _ _ Hc). unfold lex_ident.
  assert (adv st (eat_while src is_ident_continue st)) as Ha
    by (apply adv_eat_while; [apply ident_continue_ascii|lia]).
  assert (pos st < pos (eat_while src is_ident_continue st))%nat as Hp.
  { simpl. eapply run_from_first; [done|]. unfold is_ident_start, is_ident_continue, is_ascii_alphanumeric in *.
    by destruct (c =? 95), (is_ascii_alphabetic c). }
  pose proof (adv_pos _ _ Ha). rewrite slice_res_ok by lia. cbn [res_bind].
  rewrite (run_ascii_valid is_ident_continue) by (apply ident_continue_ascii || apply run_from_all).
  cbn [unwrap res_bind]. eexists; split; [done|].
  destruct (keyword_or_ident_spec (slice (pos st) (pos (eat_while src is_ident_continue st)) src)) as [Hk|Hk].
  - rewrite Hk. apply emitted_push; [done|done|done| |done]. split_and!; [done| |done].
    pose proof (run_from_all is_ident_continue (pos st)) as Hall.
    change (pos (eat_while src is_ident_continue st)) with (run_from src is_ident_continue (pos st)) in *.
    unfold slice in *. rewrite (drop_S _ _ _ Hc) in *. destruct (_ - _)%nat eqn:E; [lia|]. simpl in *.
    apply Forall_cons in Hall as [_ Hall]. rewrite Hs. simpl. apply forallb_forall. intros x Hx. rewrite Forall_forall in Hall. by apply Hall, list_elem_of_In.
  - by apply emitted_fixed.
Qed.

Definition option_list {A} (o : option A) : list A := match o with Some x => [x] | None => [] end.

Lemma symbol_of_spec c two three k n :
  symbol_of c two three = Some (k, n) →
  ∃ text, symbol_text k = Some text ∧ nullary k = true ∧ is_mark k = false ∧ length text = n ∧ (1 ≤ n)%nat ∧
    Forall (λ b, 0 ≤ b < 128) text ∧ text = take n (c :: option_list two ++ option_list three) ∧
    (n = 3%nat → is_Some two).
Proof.
  unfold symbol_of. intros H.
  repeat match type of H with
  | (if ?b then _ else _) = _ => destruct b eqn:?
  end; try discriminate H; injection H as <- <-;
  b2p; repeat match goal with H : match ?o with _ => _ end = true |- _ => destruct o; [|discriminate H] end; b2p; subst;
  eexists; (split; [reflexivity|]); vm_compute; repeat split; repeat constructor; try done; eauto.
Qed.

Lemma drop_lookups i c r :
  drop i src = c :: r → src !! (i + 1)%nat = head r ∧ (src !! (i + 2)%nat = head (drop 1 r)).
Proof.
  intros H. rewrite <-!lookup_drop, H. simpl. by destruct r as [|x [|y r]].
Qed.

Lemma lex_symbol_spec st c :
  src !! pos st = Some c → ∃ st', lex_symbol fid src st (pos st) = Ret st' ∧ emitted st st'.
Proof.
  intros Hc. pose proof (lookup_len _ _ Hc). unfold lex_symbol, peek. rewrite Hc. cbn [unwrap res_bind].
  destruct (symbol_of _ _ _) as [[k n]|] eqn:Hsym.
  - apply symbol_of_spec in Hsym as (text & Ht & Hnul & Hm & Hlen & Hn & Hasc & Htake & H3).
    pose proof (drop_S _ _ _ Hc) as Hd. pose proof (drop_lookups _ _ _ Hd) as [E1 E2].
    assert (slice (pos st) (pos st + n) src = text) as Hsl.
    { unfold slice. rewrite Nat.add_sub', Hd. rewrite E1, E2 in Htake.
      assert (n ≤ 3)%nat as Hn3.
      { rewrite <-Hlen, Htake, length_take. destruct (drop _ src) as [|x [|y r]]; simpl; lia. }
      rewrite Htake. destruct (drop (S (pos st)) src) as [|x [|y r]]; [done..|].
      destruct n as [|[|[|[|n]]]]; (done || lia). }
    assert (pos st + n ≤ length src)%nat.
    { apply (f_equal length) in Hsl. unfold slice in Hsl. rewrite length_take, length_drop, Hlen in Hsl. lia. }
    eexists; split; [done|]. apply emitted_fixed; simpl; [|lia|].
    + apply adv_ascii; [lia|]. by rewrite Hsl.
    + rewrite Hsl. apply fixed_text_intro; auto.
  - pose proof (take_char_spec st c Hc) as (ch & st2 & Htc & H2 & Hp2 & _). unfold take_char in Htc.
    rewrite usub_ok in * by lia. cbn [res_bind] in *. set (n := Nat.min _ _) in *.
    assert (n ≤ length src - pos st)%nat by lia.
    rewrite slice_res_ok in * by lia. cbn [res_bind] in *.
    destruct (from_utf8 _) as [[|c0 cs]|] eqn:Hq.
    + injection Htc as <- <-. apply from_utf8_nil_inv in Hq. apply (f_equal length) in Hq.
      rewrite slice_length in Hq by lia. simpl in Hq.
      assert (1 ≤ n)%nat by (unfold n, char_len; repeat case_if; lia). lia.
    + injection Htc as <- <-. eexists; split; [done|]. by apply emitted_report.
    + injection Htc as <- <-. eexists; split; [done|]. by apply emitted_report.
Qed.

(** ** Numbers *)

(** A move over ASCII bytes only. *)
Record ascii_adv (st st' : Lexer) : Prop := {
  aa_pos : (pos st ≤ pos st' ≤ length src)%nat;
  aa_state : st' = set_pos st (pos st');
  aa_bytes : Forall (λ b, 0 ≤ b < 128) (slice (pos st) (pos st') src)
}.

Lemma ascii_adv_adv st st' : ascii_adv st st' → adv st st'.
Proof. intros [Hp -> Hb]. by apply adv_ascii. Qed.

Lemma ascii_adv_trans a b c : ascii_adv a b → ascii_adv b c → ascii_adv a c.
Proof.
  intros [Hp1 Hs1 Hb1] [Hp2 Hs2 Hb2]. split; [lia| |].
  - rewrite Hs2. by rewrite Hs1 at 1.
  - rewrite (slice_app _ (pos b)) by lia. by apply Forall_app.
Qed.

Lemma ascii_adv_refl st : (pos st ≤ length src)%nat → ascii_adv st st.
Proof. intros. split; [lia|by destruct st|by rewrite slice_nil]. Qed.

Lemma ascii_adv_one st c : src !! pos st = Some c → 0 ≤ c < 128 → ascii_adv st (set_pos st (pos st + 1)).
Proof.
  intros Hc Ha. pose proof (lookup_len _ _ Hc). split; simpl; [lia|done|].
  rewrite (slice_one _ _ Hc). by constructor.
Qed.

Lemma ascii_adv_is_at st x : is_at src (pos st) x = true → 0 ≤ x < 128 → ascii_adv st (set_pos st (pos st + 1)).
Proof. intros H%is_at_true Hx. by eapply ascii_adv_one. Qed.

Lemma ascii_adv_eat p st :
  (∀ c, p c = true → 0 ≤ c < 128) → (pos st ≤ length src)%nat → ascii_adv st (eat_while src p st).
Proof.
  intros Hp Hl. pose proof (run_from_le p (pos st) Hl). split; simpl; [lia|done|].
  eapply Forall_impl; [apply run_from_all|]. done.
Qed.

Lemma eat_digits_adv st : (pos st ≤ length src)%nat → ascii_adv st (eat_digits src st).
Proof. apply ascii_adv_eat, digit_us_ascii. Qed.

Lemma lex_fraction_adv st f st' :
  (pos st ≤ length src)%nat → lex_fraction src st = (f, st') → ascii_adv st st'.
Proof.
  intros Hl. unfold lex_fraction. destruct (_ && _) eqn:E; intros [= <- <-]; [|by apply ascii_adv_refl].
  b2p. assert (ascii_adv st (set_pos st (pos st + 1))) as H1 by (eapply ascii_adv_is_at; [eassumption|lia]).
  eapply ascii_adv_trans; [done|]. apply eat_digits_adv. apply H1.
Qed.

Lemma lex_exponent_adv st f0 f st' :
  (pos st ≤ length src)%nat → lex_exponent src st f0 = (f, st') → ascii_adv st st'.
Proof.
  intros Hl. unfold lex_exponent. destruct (is_at src (pos st) _ || _) eqn:E; intros [= <- <-]; [|by apply ascii_adv_refl].
  assert (ascii_adv st (set_pos st (pos st + 1))) as H1.
  { apply orb_prop in E as [E|E]; (eapply ascii_adv_is_at; [exact E|lia]). }
  set (st1 := set_pos st (pos st + 1)) in *.
  assert (ascii_adv st1 (if is_at src (pos st1) "+"%u8 || is_at src (pos st1) "-"%u8 then set_pos st1 (pos st1 + 1) else st1)) as H2.
  { clear E. case_if; [|apply ascii_adv_refl, H1]. rename Heqb into E2.
    apply orb_prop in E2 as [E2|E2]; (eapply ascii_adv_is_at; [exact E2|lia]). }
  eapply ascii_adv_trans; [done|]. eapply ascii_adv_trans; [done|]. apply eat_digits_adv, H2.
Qed.

Lemma encode_ascii l : Forall (λ b, 0 ≤ b < 128) l → utf8_encode_all l = l.
Proof.
  induction 1 as [|b l Hb _ IH]; [done|]. rewrite utf8_encode_all_cons, IH. unfold utf8_encode.
  by replace (b <? 128) with true by lia.
Qed.

Lemma Forall_filter {A} (P : A → Prop) f (l : list A) : Forall P l → Forall P (List.filter f l).
Proof. induction 1; simpl; [done|]. case_if; by try constructor. Qed.

Lemma radix_prefix_spec i r name :
  radix_prefix src i = Some (r, name) → is_at src i "0"%u8 = true →
  radix_at src i = r ∧ ∃ x, src !! (i + 1)%nat = Some x ∧ 0 ≤ x < 128.
Proof.
  intros Hr H0%is_at_true. unfold radix_prefix in Hr. destruct (src !! (i + 1)%nat) as [x|] eqn:Hx; [|done].
  pose proof (lookup_len _ _ Hx). unfold radix_at. rewrite slice_get_ok by lia.
  assert (slice i (i + 2) src = [48; x]) as ->.
  { rewrite (slice_app i (i + 1)) by lia. rewrite (slice_one _ _ H0).
    replace (i + 2)%nat with (i + 1 + 1)%nat by lia. by rewrite (slice_one _ _ Hx). }
  simpl. repeat case_if; try discriminate Hr; injection Hr as <- <-; (split; [done|]); eexists; (split; [done|]); lia.
Qed.

Lemma radix_at_decimal i :
  (if is_at src i "0"%u8 then radix_prefix src i else None) = None → radix_at src i = 10.
Proof.
  unfold radix_at, slice_get. intros H. destruct (_ && _) eqn:E; [|done].
  destruct (slice i (i + 2) src) as [|c [|x [|]]] eqn:Hsl; try done. destruct (c =? 48) eqn:Hc; [|done]. b2p. subst.
  assert (src !! i = Some 48) as Hi.
  { rewrite <-(Nat.add_0_r i), <-(slice_lookup i (i + 2)) by lia. by rewrite Hsl. }
  assert (src !! (i + 1)%nat = Some x) as Hi1.
  { rewrite <-(slice_lookup i (i + 2)) by lia. by rewrite Hsl. }
  unfold is_at in H. rewrite Hi in H. simpl in H. unfold radix_prefix in H. rewrite Hi1 in H.
  by repeat case_if.
Qed.

Lemma lex_radix_number_spec st r name :
  is_at src (pos st) "0"%u8 = true → radix_prefix src (pos st) = Some (r, name) →
  ∃ st', lex_radix_number fid src st (pos st) r name = Ret st' ∧ emitted st st'.
Proof.
  intros H0 Hr. pose proof (radix_prefix_spec _ _ _ Hr H0) as (Hrad & x & Hx & Hxa).
  apply is_at_true in H0. pose proof (lookup_len _ _ Hx). unfold lex_radix_number.
  assert (ascii_adv st (set_pos st (pos st + 2))) as H1.
  { split; simpl; [lia|done|]. rewrite (slice_app _ (pos st + 1)) by lia.
    rewrite (slice_one _ _ H0). replace (pos st + 2)%nat with (pos st + 1 + 1)%nat by lia.
    rewrite (slice_one _ _ Hx). repeat constructor; lia. }
  set (st1 := set_pos st (pos st + 2)) in *.
  assert (ascii_adv st1 (eat_while src is_ident_continue st1)) as H2
    by (apply ascii_adv_eat; [apply ident_continue_ascii|apply H1]).
  set (st2 := eat_while _ _ _) in *. pose proof (aa_pos _ _ H1). pose proof (aa_pos _ _ H2).
  assert (ascii_adv st st2) as H12 by (by eapply ascii_adv_trans).
  assert (pos st1 = pos st + 2)%nat as Hp1 by done. clearbody st2.
  rewrite slice_res_ok by lia. cbn [res_bind].
  assert (∀ msg, ∃ st', Ret (report fid st2 msg (pos st) (pos st2)) = Ret st' ∧ emitted st st') as Hrep.
  { intros msg. eexists; split; [done|]. apply emitted_report; [by apply ascii_adv_adv|lia]. }
  assert (∃ st', (let* whole := slice_res (pos st) (pos st2) src in
    let* _ := unwrap (from_utf8 whole) in
    Ret (report fid st2 (str "invalid " ++ name ++ str " integer literal: '" ++ whole ++ str "'") (pos st) (pos st2)))
    = Ret st' ∧ emitted st st') as Hinv.
  { rewrite slice_res_ok by lia. cbn [res_bind]. rewrite ascii_valid by apply H12. apply Hrep. }
  destruct (List.filter _ _) as [|b text] eqn:Htext; [apply Hrep|]. rewrite <-Htext.
  destruct (from_str_radix_i128 _ r) as [v|] eqn:Hv.
  - eexists; split; [done|]. apply emitted_push; [by apply ascii_adv_adv|lia|done| |done].
    split; [by eexists|]. exists r. simpl. rewrite Hrad. split; [done|]. right. exists name. by rewrite Hp1 in Hv.
  - rewrite slice_res_ok by lia. cbn [res_bind].
    destruct (split_num_suffix _) as [[digits suffix]|]; [|apply Hinv].
    destruct (from_str_radix_i128 digits r); [apply Hrep|apply Hinv].
Qed.

Lemma lex_suffix_spec st start text :
  (start ≤ pos st ≤ length src)%nat →
  ∃ st', lex_suffix fid src st start text = Ret st' ∧ adv st st' ∧ ((errs st < errs st')%nat ∨ st' = st).
Proof.
  intros Hl. unfold lex_suffix. case_if; [|eexists; split; [done|]; split; [apply adv_refl; lia|by right]].
  assert (ascii_adv st (eat_while src is_ident_continue st)) as H2
    by (apply ascii_adv_eat; [apply ident_continue_ascii|lia]).
  pose proof (aa_pos _ _ H2). rewrite slice_res_ok by lia. cbn [res_bind].
  rewrite ascii_valid by apply H2. cbn [unwrap res_bind]. eexists; split; [done|].
  split; [|left; simpl; rewrite error_count_error; lia].
  eapply adv_trans; [by apply ascii_adv_adv|]. apply adv_report; lia.
Qed.

Lemma lex_number_spec st c :
  src !! pos st = Some c → is_ascii_digit c = true →
  ∃ st', lex_number fid src st (pos st) = Ret st' ∧ emitted st st'.
Proof.
  intros Hc Hd. pose proof (lookup_len _ _ Hc). unfold lex_number.
  destruct (if is_at _ _ _ then _ else _) as [[r name]|] eqn:Hr.
  { destruct (is_at _ _ _) eqn:H0; [|done]. by apply lex_radix_number_spec. }
  apply radix_at_decimal in Hr.
  assert (ascii_adv st (eat_digits src st)) as H1 by (apply eat_digits_adv; lia).
  assert (pos st < pos (eat_digits src st))%nat as Hp.
  { simpl. eapply run_from_first; [done|]. unfold is_digit_or_underscore. by rewrite Hd. }
  set (st1 := eat_digits src st) in *. clearbody st1. pose proof (aa_pos _ _ H1).
  destruct (lex_fraction src st1) as [f2 st2] eqn:E2. apply lex_fraction_adv in E2 as A2; [|lia]. pose proof (aa_pos _ _ A2).
  destruct (lex_exponent src st2 f2) as [f3 st3] eqn:E3. apply lex_exponent_adv in E3 as A3; [|lia]. pose proof (aa_pos _ _ A3).
  assert (ascii_adv st st3) as H13 by (eapply ascii_adv_trans; [done|]; by eapply ascii_adv_trans).
  clear E2 E3. rewrite slice_res_ok by lia. cbn [res_bind]. rewrite ascii_valid by apply H13. cbn [unwrap res_bind].
  rewrite encode_ascii by (apply Forall_filter, H13). set (text := List.filter _ _).
  assert (adv st st3) as Ha by (by apply ascii_adv_adv).
  match goal with |- context [lex_suffix _ _ ?s _ _] => set (st4 := s) end.
  assert (emitted st st4) as H4.
  { unfold st4. destruct f3.
    - destruct (parse_f64 text) as [v|] eqn:Hv; [|apply emitted_report; [done|lia]].
      destruct (is_infinite v) eqn:Hi; [apply emitted_report; [done|lia]|].
      apply emitted_push; [done|lia|done| |done]. split_and!; [by eexists|done|done].
    - destruct (from_str_radix_i128 text 10) as [v|] eqn:Hv; [|apply emitted_report; [done|lia]].
      apply emitted_push; [done|lia|done| |done]. split; [by eexists|]. exists 10. simpl. rewrite Hr. split; [done|]. by left. }
  destruct (lex_suffix_spec st4 (pos st) text) as (st5 & -> & H5 & He); [pose proof (em_pos _ _ H4); lia|].
  eexists; split; [done|]. by eapply emitted_adv.
Qed.

Lemma lex_token_spec st c :
  src !! pos st = Some c → ∃ st', lex_token fid src st = Ret st' ∧ emitted st st'.
Proof.
  intros Hc. unfold lex_token, peek. rewrite Hc. cbn [unwrap res_bind].
  repeat case_if; b2p; subst.
  - by eapply lex_number_spec.
  - by apply lex_char_spec.
  - by apply lex_string_spec.
  - by eapply lex_ident_spec.
  - by eapply lex_symbol_spec.
Qed.

(** ** Between the tokens *)

(** [[a, b)] holds only blanks, newlines and [//] comments, each comment
    running to the end of its line or of the source. *)
Inductive trivia : nat → nat → Prop :=
  | trivia_nil a : trivia a a
  | trivia_blank a b c : src !! a = Some c → (c = 32 ∨ c = 9 ∨ c = 13 ∨ c = 10) → trivia (a + 1) b → trivia a b
  | trivia_comment a e b :
      src !! a = Some "/"%u8 → src !! (a + 1)%nat = Some "/"%u8 →
      (a + 1 < e ≤ length src)%nat → Forall (λ c, c ≠ 10) (slice a e src) →
      (e = length src ∨ src !! e = Some 10) → trivia e b → trivia a b.

Lemma trivia_trans a b c : trivia a b → trivia b c → trivia a c.
Proof. induction 1; intros; [done|by eapply trivia_blank; eauto|by eapply trivia_comment; eauto]. Qed.

(** A position that holds an ASCII byte is a character boundary. *)
Lemma ascii_boundary (l : bytes) j c :
  valid_utf8 l → l !! j = Some c → 0 ≤ c < 128 → valid_utf8 (take j l).
Proof.
  intros [cs Hv]. apply from_utf8_inv in Hv as [-> Hs]. revert j.
  induction Hs as [|x cs Hx _ IH]; intros j Hj Hc; [done|].
  rewrite utf8_encode_all_cons in *. destruct (decide (j < len_utf8 x)%nat) as [Hlt|Hge].
  - destruct j as [|j]; [by exists []|]. exfalso.
    rewrite lookup_app_l in Hj by (rewrite length_utf8_encode; lia).
    unfold utf8_encode, len_utf8 in *. pose proof (Z.mod_pos_bound x 64). pose proof (Z.mod_pos_bound (x / 64) 64).
    pose proof (Z.mod_pos_bound (x / 4096) 64).
    destruct (x <? 128); [lia|]. destruct (x <? 2048); [|destruct (x <? 65536)];
      destruct j as [|[|[|j]]]; simpl in Hj; try done; try lia; simplify_eq; lia.
  - rewrite take_app_ge by (rewrite length_utf8_encode; lia). rewrite length_utf8_encode.
    rewrite lookup_app_r, length_utf8_encode in Hj by (rewrite length_utf8_encode; lia).
    apply valid_utf8_app; [|by apply IH]. exists [x]. rewrite <-(app_nil_r (utf8_encode x)).
    by rewrite from_utf8_encode.
Qed.

Lemma bnd_at j : valid_utf8 src → (j = length src ∨ ∃ c, src !! j = Some c ∧ 0 ≤ c < 128) → bnd j.
Proof.
  intros Hv [->|(c & Hc & Ha)]; unfold bnd; [by rewrite take_ge|by eapply ascii_boundary].
Qed.

Lemma run_from_end p i : (i ≤ length src)%nat → run_from src p i = length src ∨ is_Some (src !! run_from src p i).
Proof.
  intros Hi. pose proof (run_from_le p i Hi). destruct (decide (run_from src p i = length src)); [by left|].
  right. apply lookup_lt_is_Some. lia.
Qed.

Lemma skip_loop_spec fuel i :
  (i ≤ length src)%nat → (length src < fuel + i)%nat →
  ∃ j, skip_loop src fuel i = Ret j ∧ (i ≤ j ≤ length src)%nat ∧ trivia i j ∧
       (valid_utf8 src → bnd i → bnd j).
Proof.
  revert i. induction fuel as [|fuel IH]; intros i Hi Hf; [lia|]. cbn [skip_loop].
  destruct (src !! i) as [c|] eqn:Hc.
  2:{ exists i. split_and!; [done|lia|lia|constructor|done]. }
  pose proof (lookup_len _ _ Hc). destruct (_ || _ || _) eqn:Hb.
  { destruct (IH (i + 1)%nat) as (j & -> & Hj & Ht & Hbd); [lia|lia|]. exists j. split_and!; [done|lia|lia| |].
    - eapply trivia_blank; [done|lia|done].
    - intros Hv Hbi. apply Hbd; [done|]. apply (bnd_ascii i); [lia| |done]. rewrite (slice_one _ _ Hc). constructor; [lia|done]. }
  destruct (_ && _) eqn:Hs.
  2:{ exists i. split_and!; [done|lia|lia|constructor|done]. }
  b2p. subst c. match goal with H : is_at _ _ _ = true |- _ => apply is_at_true in H as Hs2 end.
  pose proof (lookup_len _ _ Hs2). set (e := run_from src _ i).
  pose proof (run_from_le (λ c, negb (c =? 10)) i Hi) as Hle. fold e in Hle.
  assert (i + 1 < e)%nat as He.
  { unfold e, run_from. rewrite (drop_S _ _ _ Hc). replace (i + 1)%nat with (S i) in Hs2 by lia.
    rewrite (drop_S _ _ _ Hs2). simpl. lia. }
  assert (e = length src ∨ src !! e = Some 10) as Hstop.
  { destruct (run_from_end (λ c, negb (c =? 10)) i Hi) as [?|[x Hx]]; [by left|right].
    pose proof (run_from_stop _ _ _ Hx) as Hxn. cbn beta in Hxn. b2p. subst x. exact Hx. }
  destruct (IH e) as (j & -> & Hj & Ht & Hbd); [lia|lia|]. exists j. split_and!; [done|lia|lia| |].
  - eapply trivia_comment; [done|done| | |done|done]; [lia|].
    eapply Forall_impl; [apply run_from_all|]. intros x Hx. cbn beta in Hx. b2p. done.
  - intros Hv _. apply Hbd; [done|]. apply bnd_at; [done|]. destruct Hstop; [by left|right; eexists; split; [done|lia]].
Qed.

Lemma continues_loop_ok fuel i :
  (length src < fuel + i)%nat → (0 < fuel)%nat → ∃ b, continues_loop src fuel i = Ret b.
Proof.
  revert i. induction fuel as [|fuel IH]; intros i Hf Hpos; [lia|]. cbn [continues_loop].
  destruct (src !! i) as [c|] eqn:Hc; [|eauto]. pose proof (lookup_len _ _ Hc).
  case_if; [apply IH; lia|]. case_if; [|repeat case_if; eauto].
  apply IH; unfold run_from; lia.
Qed.

Lemma maybe_insert_end_spec st :
  ∃ st', maybe_insert_end fid src st = Ret st' ∧ pos st' = pos st ∧ diags st' = diags st ∧
    (st' = st ∨ ∃ p, last (tokens st) = Some p ∧ can_end_stmt (kind p) = true ∧
       next_significant_continues_line src st = Ret false ∧
       tokens st' = tokens st ++ [MkToken TokKind.End_ (mk_span fid (pos st) (pos st)) None]).
Proof.
  unfold maybe_insert_end. destruct (last (tokens st)) as [p|] eqn:Hl; cbn [negb].
  2:{ eexists; split; [done|]. auto. }
  destruct (can_end_stmt (kind p)) eqn:Hp; cbn [negb].
  2:{ eexists; split; [done|]. auto. }
  destruct (continues_loop_ok (S (length src)) (pos st)) as [b Hb]; [lia|lia|].
  unfold next_significant_continues_line. rewrite Hb. cbn [res_bind]. destruct b.
  - eexists; split; [done|]. auto.
  - eexists; split; [done|]. split_and!; try done. right. exists p. done.
Qed.

(** ** The invariant of the main loop *)

(** The tokens lie in order, each where [tok_at] says; [gap] holds of every
    range between two of them, [edge] of every token end and [lit] of every
    token kind with its range. *)
Inductive tiled (gap : nat → nat → Prop) (edge : nat → Prop) (lit : TokKind → nat → nat → Prop) :
    list Token → nat → Prop :=
  | tiled_nil : tiled gap edge lit [] 0
  | tiled_snoc ts b t lo hi :
      tiled gap edge lit ts b → (b ≤ lo)%nat → gap b lo → edge lo → tok_at t lo hi → edge hi → lit (kind t) lo hi →
      tiled gap edge lit (ts ++ [t]) hi.

Lemma tiled_mono (g g' : nat → nat → Prop) (e e' : nat → Prop) (l l' : TokKind → nat → nat → Prop) ts b :
  (∀ x y, g x y → g' x y) → (∀ x, e x → e' x) → (∀ k x y, l k x y → l' k x y) → tiled g e l ts b → tiled g' e' l' ts b.
Proof. intros Hg He Hl. induction 1; [constructor|econstructor; eauto]. Qed.

(** Every statement terminator directly follows a token that can end a
    statement, and the end mark does not occur. *)
Definition ends_ok (ts : list Token) : Prop :=
  ∀ i t, ts !! i = Some t →
    kind t ≠ TokKind.Eof ∧
    (kind t = TokKind.End_ → ∃ j p, i = S j ∧ ts !! j = Some p ∧ can_end_stmt (kind p) = true).

Lemma ends_ok_snoc ts t :
  ends_ok ts → kind t ≠ TokKind.Eof →
  (kind t = TokKind.End_ → ∃ p, last ts = Some p ∧ can_end_stmt (kind p) = true) → ends_ok (ts ++ [t]).
Proof.
  intros Hts Ht He i x Hx. apply lookup_app_Some in Hx as [Hx|[Hi Hx]].
  - destruct (Hts i x Hx) as [? Hend]. split; [done|]. intros (j & p & -> & Hp & ?)%Hend.
    exists j, p. split_and!; [done| |done]. by apply lookup_app_l_Some.
  - apply list_lookup_singleton_Some in Hx as [Hi0 <-]. split; [done|]. intros (p & Hp & Hc)%He.
    rewrite last_lookup in Hp. pose proof (lookup_lt_Some _ _ _ Hp).
    exists (pred (length ts)), p. split_and!; [lia| |done]. by apply lookup_app_l_Some.
Qed.

Section Invariant.
Context (d0 : Diagnostics).

Definition clean (st : Lexer) : Prop := errs st = error_count d0.

Definition gap (st : Lexer) (a b : nat) : Prop := clean st → trivia a b.
Definition edge (st : Lexer) (a : nat) : Prop := valid_utf8 src → clean st → bnd a.
Definition lit (st : Lexer) (k : TokKind) (a b : nat) : Prop := valid_utf8 src → clean st → literal_ok k a b.

Record lex_inv (st : Lexer) : Prop := {
  li_pos : (pos st ≤ length src)%nat;
  li_diags : reported d0 (diags st);
  li_tiled : ∃ b, tiled (gap st) (edge st) (lit st) (tokens st) b ∧ (b ≤ pos st)%nat ∧ gap st b (pos st);
  li_edge : edge st (pos st);
  li_ends : ends_ok (tokens st);
  li_count : (length (tokens st) ≤ pos st)%nat
}.

Lemma clean_mono st st' : reported d0 (diags st) → reported (diags st) (diags st') → clean st' → clean st ∧ errs st' = errs st.
Proof.
  intros H1%reported_extends%error_count_extends H2%reported_extends%error_count_extends. unfold clean. lia.
Qed.

Lemma lex_inv_emitted st st' : lex_inv st → emitted st st' → lex_inv st'.
Proof.
  intros [Hp Hd (b & Ht & Hb & Hg) He Hends Hcnt] [Hp' Hd' Htok Hbnd].
  pose proof (clean_mono st st' Hd Hd') as Hcl.
  assert (tiled (gap st') (edge st') (lit st') (tokens st) b) as Ht'.
  { eapply tiled_mono; [| | |exact Ht]; unfold gap, edge, lit; intros; destruct Hcl; eauto. }
  assert (edge st' (pos st)) as He1 by (intros ? ?; destruct Hcl; by eauto).
  assert (edge st' (pos st')) as He2 by (intros Hv [Hc Heq]%Hcl; by apply Hbnd; [| |apply He]).
  split; [lia|by etrans| |done| |].
  - destruct Htok as [(t & hi & -> & Hta & Hhi & Hm & Heq)|[-> Herr]].
    + exists hi. split; [|split; [lia|]].
      * eapply tiled_snoc; [done|done| |done|done| |]; [intros ?; destruct Hcl; by eauto| |].
        -- intros Hv [Hc Hq]%Hcl. destruct (Heq Hq) as [-> _]. apply He2; [done|]. unfold clean in *. lia.
        -- intros Hv [Hc Hq]%Hcl. destruct (Heq Hq) as [_ Hlit]. auto.
      * intros [Hc Hq]%Hcl. destruct (Heq Hq) as [-> _]. constructor.
    + exists b. split; [done|]. split; [lia|]. intros [Hc Hq]%Hcl. lia.
  - destruct Htok as [(t & hi & -> & _ & _ & Hm & _)|[-> _]]; [|done].
    apply ends_ok_snoc; [done|by destruct (kind t)|by destruct (kind t)].
  - destruct Htok as [(t & hi & -> & _)|[-> _]]; [|lia]. rewrite length_app. simpl. lia.
Qed.

Lemma lex_inv_move st j :
  lex_inv st → (pos st ≤ j ≤ length src)%nat → trivia (pos st) j →
  (valid_utf8 src → bnd (pos st) → bnd j) → lex_inv (set_pos st j).
Proof.
  intros [Hp Hd (b & Ht & Hb & Hg) He Hends Hcnt] Hj Htr Hbd. split; simpl; try done; try lia.
  - exists b. split; [done|]. split; [lia|]. intros Hc. eapply trivia_trans; [by apply Hg|done].
  - intros Hv Hc. by apply Hbd, He.
Qed.

Lemma lex_inv_end st :
  lex_inv st → (∃ p, last (tokens st) = Some p ∧ can_end_stmt (kind p) = true) →
  (S (length (tokens st)) ≤ pos st)%nat →
  lex_inv (add_token st (MkToken TokKind.End_ (mk_span fid (pos st) (pos st)) None)).
Proof.
  intros [Hp Hd (b & Ht & Hb & Hg) He Hends Hcnt] Hlast Hc. split; simpl; try done.
  - exists (pos st). split; [|split; [done|intros _; constructor]].
    eapply tiled_snoc; [done|done|done|done| |done|done]. split; [done|lia|done].
  - apply ends_ok_snoc; [done|done|intros _; exact Hlast].
  - rewrite length_app. simpl. lia.
Qed.

Lemma lex_inv_maybe_end st st' :
  lex_inv st → (S (length (tokens st)) ≤ pos st)%nat → maybe_insert_end fid src st = Ret st' → lex_inv st'.
Proof.
  intros Hi Hc Hm. destruct (maybe_insert_end_spec st) as (st1 & Hm1 & Hp & Hd & Ht).
  rewrite Hm in Hm1. injection Hm1 as <-. destruct Ht as [->|(p & Hl & Hcan & _ & Ht)]; [done|].
  replace st' with (add_token st (MkToken TokKind.End_ (mk_span fid (pos st) (pos st)) None)).
  - apply lex_inv_end; eauto.
  - destruct st'; simpl in *; subst. done.
Qed.

Lemma run_loop_spec fuel st :
  lex_inv st → (length src < fuel + pos st)%nat →
  ∃ st', run_loop fid src fuel st = Ret st' ∧ lex_inv st' ∧ pos st' = length src.
Proof.
  revert st. induction fuel as [|fuel IH]; intros st Hi Hf; [pose proof (li_pos _ Hi); lia|].
  cbn [run_loop]. unfold skip_inline_ws_and_comments.
  destruct (skip_loop_spec (S (length src)) (pos st)) as (j & -> & Hj & Htr & Hbd); [apply Hi|lia|]. cbn [res_bind].
  pose proof (lex_inv_move st j Hi Hj Htr Hbd) as Hi1. unfold peek. cbn [pos set_pos].
  destruct (src !! j) as [c|] eqn:Hc.
  2:{ eexists; split; [done|]. split; [done|]. simpl. apply lookup_ge_None in Hc. lia. }
  pose proof (lookup_len _ _ Hc). destruct (c =? 10) eqn:Hnl; b2p.
  - subst c. change (pos (set_pos st j)) with j. rewrite set_pos_set_pos.
    assert (lex_inv (set_pos st (j + 1))) as Hi2.
    { rewrite <-(set_pos_set_pos st j). apply lex_inv_move; simpl; [done|lia| |].
      - eapply trivia_blank; [done|lia|constructor].
      - intros Hv. apply bnd_ascii; [lia|]. rewrite (slice_one _ _ Hc). constructor; [lia|done]. }
    destruct (maybe_insert_end_spec (set_pos st (j + 1))) as (st2 & Hm & Hp2 & _). rewrite Hm. cbn [res_bind].
    apply lex_inv_maybe_end in Hm; [|done|simpl; pose proof (li_count _ Hi1); simpl in *; lia].
    apply IH; [done|]. simpl in Hp2. lia.
  - destruct (lex_token_spec (set_pos st j) c Hc) as (st2 & -> & Hem). cbn [res_bind].
    pose proof (em_pos _ _ Hem). simpl in *. apply IH; [by eapply lex_inv_emitted|lia].
Qed.
End Invariant.

Lemma lex_inv_start d : lex_inv d (MkLexer 0 [] d).
Proof.
  split; simpl; try done; try lia.
  - exists 0%nat. split; [constructor|]. split; [done|]. intros _. constructor.
  - intros _ _. by exists [].
Qed.

(** The token stream in full: the main loop's tokens, a possible terminator,
    the end mark. *)
Lemma run_spec d :
  ∃ body d',
    tokenize fid src d
    = Ret (body ++ [MkToken TokKind.Eof (mk_span fid (length src) (length src)) None], d') ∧
    reported d d' ∧ ends_ok body ∧ (length body ≤ length src + 1)%nat ∧
    ∃ b, tiled (λ x y, error_count d' = error_count d → trivia x y)
               (λ x, valid_utf8 src → error_count d' = error_count d → bnd x)
               (λ k x y, valid_utf8 src → error_count d' = error_count d → literal_ok k x y) body b ∧
         (b ≤ length src)%nat ∧ (error_count d' = error_count d → trivia b (length src)).
Proof.
  unfold tokenize, run.
  destruct (run_loop_spec d (S (length src)) (MkLexer 0 [] d)) as (st & -> & Hi & Hp);
    [apply lex_inv_start|simpl; lia|]. cbn [res_bind].
  destruct (maybe_insert_end_spec st) as (st' & -> & Hp' & Hd' & Ht). cbn [res_bind].
  destruct Hi as [_ Hd (b & Htl & Hb & Hg) He Hends Hcnt]. unfold gap, edge, lit, clean in *.
  exists (tokens st'), (diags st'). cbn [add_token tokens diags]. rewrite Hp', Hp, Hd'.
  split; [done|]. split; [done|].
  destruct Ht as [->|(p & Hl & Hcan & _ & ->)].
  - split; [done|]. split; [lia|]. exists b. rewrite <-Hp. split; [exact Htl|]. split; [lia|exact Hg].
  - split; [|split].
    + apply ends_ok_snoc; [done|done|]. intros _. eauto.
    + rewrite length_app. simpl. lia.
    + exists (pos st). split; [|split; [lia|rewrite Hp; constructor]].
      eapply tiled_snoc; [done|done|done|done| |done|done]. split; [done|lia|done].
Qed.

Lemma tiled_Forall g e l ts b : tiled g e l ts b → Forall (λ t, ∃ lo hi, tok_at t lo hi) ts.
Proof. induction 1; [done|]. apply Forall_app. split; [done|]. constructor; eauto. Qed.

(** The stream as its consumers rely on it: every token stands in the source
    and spells its text, and the last one is the end mark. *)
Lemma tokenize_stream d :
  ∃ body d', tokenize fid src d
    = Ret (body ++ [MkToken TokKind.Eof (mk_span fid (length src) (length src)) None], d') ∧
    reported d d' ∧ (length body ≤ length src + 1)%nat ∧ Forall (λ t, ∃ lo hi, tok_at t lo hi) body.
Proof.
  destruct (run_spec d) as (body & d' & Ht & Hr & _ & Hl & b & Htl & _).
  exists body, d'. split_and!; [done..|]. by eapply tiled_Forall.
Qed.
End Spec.

Lemma tiled_elem fid src g e l ts b t :
  tiled fid src g e l ts b → t ∈ ts → ∃ lo hi, tok_at fid src t lo hi ∧ e lo ∧ e hi ∧ l (kind t) lo hi.
Proof.
  induction 1 as [|ts b t' lo hi _ IH _ _ He Ht Hh Hl]; [by intros ?%not_elem_of_nil|].
  intros [?|H]%elem_of_app; [auto|]. apply list_elem_of_singleton in H as ->. eauto 10.
Qed.

Lemma tokenize_tiled fid src d ts d' :
  tokenize fid src d = Ret (ts, d') → error_count d' = error_count d →
  tiled fid src (trivia src) (λ i, valid_utf8 src → bnd src i) (λ k a b, valid_utf8 src → literal_ok src k a b)
    ts (length src).
Proof.
  destruct (run_spec fid src d) as (body & d1 & -> & Hd & _ & _ & b & Ht & Hb & Hg).
  intros [= <- <-] Heq. eapply tiled_snoc; [|exact Hb|by apply Hg| | | |done].
  - eapply tiled_mono; [| | |exact Ht]; eauto.
  - intros Hv. apply bnd_at; auto.
  - split; [done|lia|done].
  - intros Hv. apply bnd_at; auto.
Qed.

(** Tokenizing any byte sequence returns: no index, slice or [unwrap] of the
    lexer panics, none of its loops exhausts the fuel [length src + 1], the
    diagnostics are only extended, and the stream has at most two tokens more
    than the source has bytes. *)
Lemma tokenize_total fid src d :
  ∃ ts d', tokenize fid src d = Ret (ts, d') ∧ extends d d' ∧ (length ts ≤ length src + 2)%nat.
Proof.
  destruct (run_spec fid src d) as (body & d' & -> & Hd & _ & Hl & _).
  eexists _, _. split; [done|]. split; [by eapply reported_extends|]. rewrite length_app. simpl. lia.
Qed.

(** The token stream ends with exactly one end mark, at the end of the
    source; every implicit statement terminator directly follows a token that
    can end a statement, so there is never an empty statement or a doubled
    terminator. *)
Lemma tokenize_marks fid src d ts d' :
  tokenize fid src d = Ret (ts, d') →
  ∃ body, ts = body ++ [MkToken TokKind.Eof (mk_span fid (length src) (length src)) None] ∧
    ∀ i t, body !! i = Some t →
      kind t ≠ TokKind.Eof ∧
      (kind t = TokKind.End_ → ∃ j p, i = S j ∧ body !! j = Some p ∧ can_end_stmt (kind p) = true).
Proof.
  destruct (run_spec fid src d) as (body & d1 & -> & Hd & He & _). intros [= <- <-]. eauto.
Qed.

Definition sample_source : bytes := str "x := 0x1F // hex
y := " ++ [dquote] ++ str "a\n" ++ [dquote].

Definition sample_lexed : list Token * Diagnostics :=
  match tokenize 0 sample_source diags_new with Ret r => r | _ => ([], diags_new) end.

Lemma tokenize_marks_witness :
  ∃ body, sample_lexed.1 = body ++ [MkToken TokKind.Eof (mk_span 0 (length sample_source) (length sample_source)) None] ∧
    ∀ i t, body !! i = Some t →
      kind t ≠ TokKind.Eof ∧
      (kind t = TokKind.End_ → ∃ j p, i = S j ∧ body !! j = Some p ∧ can_end_stmt (kind p) = true).
Proof. apply (tokenize_marks 0 sample_source diags_new sample_lexed.1 sample_lexed.2). vm_compute. reflexivity. Defined.

(** C3. A source that lexes without an error is tiled by its tokens: they stand
    in order, each spelling exactly the text of its kind (keyword and symbol
    verbatim, an identifier that is no keyword, an integer by the value of its
    digits in its radix, a float by its value), and only blanks, newlines and
    comments lie between them.  In a well-formed UTF-8 source every token starts
    and ends on a character boundary, and a string or character token holds the
    characters written between its quotes, escapes decoded. *)
Theorem tokens_tile_source fid src d ts d' :
  tokenize fid src d = Ret (ts, d') → error_count d' = error_count d →
  tiled fid src (trivia src) (λ i, valid_utf8 src → bnd src i) (λ k a b, valid_utf8 src → literal_ok src k a b)
    ts (length src).
Proof. apply tokenize_tiled. Qed.

Lemma tokens_tile_source_witness :
  tiled 0 sample_source (trivia sample_source) (λ i, valid_utf8 sample_source → bnd sample_source i)
    (λ k a b, valid_utf8 sample_source → literal_ok sample_source k a b)
    sample_lexed.1 (length sample_source).
Proof.
  apply (tokens_tile_source 0 sample_source diags_new sample_lexed.1 sample_lexed.2); vm_compute; reflexivity.
Defined.
