(* ===== verification/StringSpec.v ===== *)
(** * Decoded string runs

    [decoded_string_runs] recomputes the contents of a string token from its
    span, with the source range of every piece; it agrees with the lexer. *)
From Stdlib Require Import ZArith Lia.
From S2P Require Import Prelude Utf8 Span Diag Text Token Lexer LexerSpec.
Local Open Scope Z_scope.

Section Runs.
Context (src : bytes).
Hypothesis (Hv : valid_utf8 src).

Abbreviation char_item := (char_item src).
Abbreviation bnd := (bnd src).

(** The characters of a literal's contents, from the first on. *)
Inductive contents : nat → nat → list Z → Prop :=
  | contents_nil a : contents a a []
  | contents_cons a b c ch cs :
      char_item a b ch → (a < b)%nat → contents b c cs → contents a c (ch :: cs).

Lemma contents_snoc a b c ch cs :
  contents a b cs → char_item b c ch → (b < c)%nat → contents a c (cs ++ [ch]).
Proof.
  induction 1 as [|a b e ch' cs Hi Hlt _ IH]; intros Hc Hbc.
  - eapply contents_cons; [exact Hc|done|constructor].
  - eapply contents_cons; [exact Hi|done|auto].
Qed.

Lemma decodes_contents a b s : decodes src a b s → ∃ cs, s = utf8_encode_all cs ∧ contents a b cs.
Proof.
  induction 1 as [|b c s ch _ (cs & -> & IH) Hq Hi Hlt]; [exists []; split; [done|constructor]|].
  exists (cs ++ [ch]). split; [|by eapply contents_snoc].
  rewrite utf8_encode_all_app. f_equal. unfold utf8_encode_all. simpl. by rewrite app_nil_r.
Qed.

Lemma contents_le a b cs : contents a b cs → (a ≤ b)%nat.
Proof. induction 1; lia. Qed.

Lemma escape_facts e ch : (e, ch) ∈ escapes → is_scalar ch = true ∧ 0 ≤ e < 128.
Proof.
  assert (Forall (λ p, is_scalar p.2 = true ∧ 0 ≤ p.1 < 128) escapes) as H by (repeat constructor; done || lia).
  rewrite Forall_forall in H. intros Hin. exact (H _ Hin).
Qed.

Lemma char_item_scalar a b ch : char_item a b ch → is_scalar ch = true.
Proof.
  intros [c _ _ _ _ Hs _ _|e _ _ He _|_ _ _ (ds & _ & _ & _ & _ & Hs)]; [done| |done].
  by apply escape_facts in He as [? _].
Qed.

Lemma char_item_bnd a b ch : char_item a b ch → (a < b)%nat → bnd a → bnd b.
Proof.
  intros [c _ _ _ _ Hs Hle Hsl|e Ha He Hin ->|Ha Hu Hr (ds & Hds & _ & Hhex & _)] Hab Hb; unfold LexerSpec.bnd.
  - rewrite (take_slice _ a) by lia. apply valid_utf8_app; [done|]. rewrite Hsl. exists [ch].
    rewrite <-(app_nil_r (utf8_encode ch)). by rewrite from_utf8_encode.
  - rewrite (take_slice _ a) by lia. apply valid_utf8_app; [done|].
    rewrite (slice_app a (a + 1)) by lia. replace (a + 2)%nat with (a + 1 + 1)%nat by lia.
    rewrite (slice_one _ _ _ Ha), (slice_one _ _ _ He). eexists. apply ascii_valid.
    apply escape_facts in Hin as [_ ?]. repeat constructor; lia.
  - rewrite (take_slice _ a) by lia. apply valid_utf8_app; [done|].
    rewrite (slice_app a (a + 1)), (slice_app (a + 1) (a + 2)) by lia. replace (a + 2)%nat with (a + 1 + 1)%nat in * by lia.
    rewrite (slice_one _ _ _ Ha), (slice_one _ _ _ Hu), Hds. eexists. apply ascii_valid. simpl.
    repeat (constructor; [lia|]). apply Forall_app. split; [|repeat constructor; lia].
    eapply Forall_impl; [exact Hhex|]. intros. by apply hexdigit_ascii.
Qed.

Lemma slice_valid a b : (a ≤ b ≤ length src)%nat → bnd a → bnd b → valid_utf8 (slice a b src).
Proof. intros Hab Ha Hb. unfold LexerSpec.bnd in Hb. rewrite (take_slice _ a) in Hb by lia. by apply valid_utf8_app in Hb. Qed.

(** ** One literal: quotes at [a] and [e] *)
Section Literal.
Context (a e : nat).
Hypothesis (Hae : (a < e < length src)%nat) (He : bnd e).

Definition literal : bytes := slice a (S e) src.
Definition content_end : nat := (e - a)%nat.

Lemma literal_at i : (a + i ≤ e)%nat → literal !! i = src !! (a + i)%nat.
Proof. intros. unfold literal. apply slice_lookup. lia. Qed.

Lemma lit_is_at i x : (a + i ≤ e)%nat → lit_is literal i x = match src !! (a + i)%nat with Some c => c =? x | None => false end.
Proof. intros. unfold lit_is. by rewrite literal_at. Qed.

Lemma str_get_ok i j : (i ≤ j)%nat → (j ≤ length src)%nat → bnd i → bnd j → str_get i j src = Some (slice i j src).
Proof.
  intros Hij Hj Hi Hb. unfold str_get. rewrite slice_get_ok by done. simpl.
  destruct (slice_valid i j) as [? ->]; [lia|done|done|]. by destruct Hi as [? ->].
Qed.

Lemma radix_u32_of_digits ds v :
  (1 ≤ length ds ≤ 6)%nat → digits_value 16 ds 0 = Some v → is_scalar v = true → from_str_radix_u32 ds 16 = Some v.
Proof.
  intros Hl Hd Hs. unfold from_str_radix_u32. destruct ds; [simpl in Hl; lia|]. rewrite Hd. simpl. unfold check_range.
  change U32_MAX with 4294967295. unfold is_scalar in Hs. by replace ((0 <=? v) && (v <=? 4294967295)) with true by lia.
Qed.

(** An escape of the contents, as [decode_escape] reads it. *)
Lemma decode_escape_ok i j ch :
  (1 ≤ i)%nat → (a + j ≤ e)%nat → src !! (a + i)%nat = Some backslash → char_item (a + i) (a + j) ch → (i < j)%nat →
  decode_escape literal content_end i = Some (j, ch).
Proof using Hae.
  intros Hi Hj Hb Hit Hij.
  destruct Hit as [c Hc Hnb|x _ Hx Hin Hj2|_ Hu Hr (ds & Hds & Hlen & Hhex & Hval & Hsc)].
  - rewrite Hb in Hc. congruence.
  - unfold decode_escape. rewrite literal_at by lia. replace (a + (i + 1))%nat with (a + i + 1)%nat by lia.
    rewrite Hx. simpl. assert (j = i + 1 + 1)%nat as -> by lia.
    apply list_elem_of_In in Hin. simpl in Hin.
    repeat (destruct Hin as [[= <- <-]|Hin]; [reflexivity|]). done.
  - unfold decode_escape. rewrite literal_at by lia. replace (a + (i + 1))%nat with (a + i + 1)%nat by lia.
    rewrite Hu. simpl. assert (j = i + 3 + length ds + 1)%nat as Hj3.
    { apply (f_equal length) in Hds. rewrite slice_length in Hds by lia. simpl in Hds. rewrite length_app in Hds. simpl in Hds. lia. }
    replace (i + 1 + 1 + 1)%nat with (i + 3)%nat by lia. replace (i + 1 + 1)%nat with (i + 2)%nat by lia.
    assert (src !! (a + i + 2)%nat = Some "{"%u8) as Hopen.
    { rewrite <-(Nat.add_0_r (a + i + 2)), <-(slice_lookup _ (a + j)), Hds by lia. done. }
    rewrite (slice_app _ (a + i + 2 + 1)), (slice_one _ _ _ Hopen) in Hds by lia. injection Hds as Hds.
    replace (a + i + 2 + 1)%nat with (a + (i + 3))%nat in Hds by lia.
    assert (count_while is_ascii_hexdigit (drop (i + 3) (take content_end literal)) = length ds) as ->.
    { replace (drop (i + 3) (take content_end literal)) with (slice (a + (i + 3)) e src).
      - rewrite (slice_app _ (a + j)), Hds, <-app_assoc by lia. by apply count_while_app.
      - unfold literal, content_end, slice. rewrite take_take, skipn_firstn_comm, drop_drop. f_equal; lia. }
    rewrite lit_is_at by lia. rewrite Nat.add_assoc, Hopen. simpl.
    rewrite (slice_app _ (a + (i + 3 + length ds))) in Hds by lia.
    apply app_inj_1 in Hds as [Hd1 Hd2]; [|rewrite slice_length by lia; lia].
    assert (src !! (a + (i + 3 + length ds))%nat = Some "}"%u8) as Hclose.
    { rewrite <-(Nat.add_0_r (a + (i + 3 + length ds))), <-(slice_lookup _ (a + j)), Hd2 by lia. done. }
    rewrite slice_get_ok by (unfold literal; rewrite ?slice_length by lia; lia). simpl. unfold literal at 1 2 4 5.
    rewrite slice_slice, Hd1, lit_is_at, Hclose by lia. simpl. rewrite ascii_valid.
    2:{ eapply Forall_impl; [exact Hhex|]. intros. by apply hexdigit_ascii. }
    rewrite (proj2 (Nat.eqb_neq _ 0)), (proj2 (Nat.ltb_ge 6 _)) by lia. simpl.
    rewrite (radix_u32_of_digits _ _ Hlen Hval Hsc). simpl. unfold char_from_u32. rewrite Hsc. simpl. by rewrite Hj3.
Qed.

(** A maximal run of plain characters. *)
Lemma plain_loop_ok fuel i cs decoded :
  contents (a + i) e cs → bnd (a + i) → (e < fuel + (a + i))%nat →
  ∃ j c1 c2, plain_loop src literal a content_end fuel i decoded = Ret (Some (j, decoded ++ utf8_encode_all c1)) ∧
    cs = c1 ++ c2 ∧ contents (a + j) e c2 ∧ bnd (a + j) ∧ (i ≤ j)%nat ∧
    slice (a + i) (a + j) src = utf8_encode_all c1 ∧
    (src !! (a + i)%nat ≠ Some backslash → (a + i < e)%nat → (i < j)%nat).
Proof using Hae He.
  revert i cs decoded. induction fuel as [|fuel IH]; intros i cs decoded Hc Hb Hf.
  { apply contents_le in Hc. lia. }
  pose proof (contents_le _ _ _ Hc) as Hle. cbn [plain_loop].
  assert ((src !! (a + i)%nat = Some backslash ∨ (a + i)%nat = e) →
    ∃ j c1 c2, Ret (Some (i, decoded)) = Ret (Some (j, decoded ++ utf8_encode_all c1)) ∧
      cs = c1 ++ c2 ∧ contents (a + j) e c2 ∧ bnd (a + j) ∧ (i ≤ j)%nat ∧
      slice (a + i) (a + j) src = utf8_encode_all c1 ∧
      (src !! (a + i)%nat ≠ Some backslash → (a + i < e)%nat → (i < j)%nat)) as Hstop.
  { intros Hs. exists i, [], cs. rewrite app_nil_r, slice_nil. split_and!; try done. destruct Hs; [done|lia]. }
  destruct (Nat.ltb_spec i content_end) as [Hlt|Hge]; unfold content_end in *; [|apply Hstop; right; lia].
  pose proof (lit_is_at i backslash ltac:(lia)) as Hlit. inversion Hc as [|? b ? ch cs' Hit Hab Hrest]; subst; [lia|].
  pose proof (contents_le _ _ _ Hrest). pose proof (char_item_bnd _ _ _ Hit Hab Hb) as Hbb.
  destruct Hit as [c Hc1 Hnb _ _ Hsc Hbl Hsl|? Hbs _ _ _|Hbs _ _ _]; [|rewrite Hbs in Hlit; rewrite Hlit; apply Hstop; by left..].
  rewrite Hc1, (proj2 (Z.eqb_neq c backslash)) in Hlit by done. rewrite Hlit. cbn [negb andb].
  replace (a + (e - a))%nat with e by lia. rewrite str_get_ok by (done || lia). cbn [mbind option_bind].
  assert (b = a + i + len_utf8 ch)%nat as ->.
  { apply (f_equal length) in Hsl. rewrite slice_length, length_utf8_encode in Hsl by lia. lia. }
  assert (from_utf8 (slice (a + i) e src) = cons ch <$> from_utf8 (slice (a + i + len_utf8 ch) e src)) as Hhd.
  { rewrite (slice_app _ (a + i + len_utf8 ch)), Hsl by lia. by apply from_utf8_encode. }
  destruct (slice_valid (a + i + len_utf8 ch) e) as [rest Hr]; [lia|done|done|]. rewrite Hhd, Hr. cbn [fmap option_fmap option_map mbind option_bind head].
  rewrite (proj2 (Nat.ltb_ge (e - a) _)) by lia. rewrite str_get_ok, Hsl by (done || lia).
  rewrite <-Nat.add_assoc in Hrest, Hbb.
  destruct (IH (i + len_utf8 ch)%nat cs' (decoded ++ utf8_encode ch)) as (j & c1 & c2 & -> & -> & Hc2 & Hbj & Hij & Hsj & _);
    [done|done|lia|].
  exists j, (ch :: c1), c2. rewrite utf8_encode_all_cons, app_assoc. split_and!; try done; try lia.
  rewrite (slice_app _ (a + (i + len_utf8 ch))), Hsj by lia. by rewrite Nat.add_assoc, Hsl.
Qed.

(** ** The runs *)

(** The run from [d1] to [d2] of the text [s] comes from [[p1, p2)] of the source:
    plain text verbatim, or one escape. *)
Definition run_at (s : bytes) (d1 d2 p1 p2 : nat) : Prop :=
  (d1 < d2 ≤ length s)%nat ∧ (p1 < p2)%nat ∧
  (slice p1 p2 src = slice d1 d2 s ∨
   src !! p1 = Some backslash ∧ ∃ ch, char_item p1 p2 ch ∧ slice d1 d2 s = utf8_encode ch).

(** The runs follow one another in the text and in the source without a gap. *)
Inductive chained (s : bytes) (d p : nat) : list DecodedStringRun → nat → nat → Prop :=
  | chained_nil : chained s d p [] d p
  | chained_snoc rs d1 p1 d2 p2 :
      chained s d p rs d1 p1 → run_at s d1 d2 p1 p2 →
      chained s d p (rs ++ [MkRun (Z.of_nat d1) (Z.of_nat d2) (Z.of_nat p1) (Z.of_nat p2)]) d2 p2.

Lemma char_item_len p q ch : char_item p q ch → (len_utf8 ch ≤ q - p)%nat.
Proof.
  intros [c Hc _ _ _ _ Hle Hsl|x _ _ Hx ->|_ _ Hr (ds & Hds & Hl & _ & _ & Hs)].
  - apply (f_equal length) in Hsl. unfold slice in Hsl. rewrite length_take, length_utf8_encode in Hsl. lia.
  - apply escape_facts in Hx as Hx'. apply list_elem_of_In in Hx. simpl in Hx.
    assert (len_utf8 ch = 1)%nat; [|lia]. by repeat destruct Hx as [[= <- <-]|Hx].
  - apply (f_equal length) in Hds. rewrite slice_length in Hds by lia. simpl in Hds. rewrite length_app in Hds.
    pose proof (len_utf8_pos ch). simpl in Hds. lia.
Qed.

Lemma contents_len p q cs : contents p q cs → (length (utf8_encode_all cs) ≤ q - p)%nat.
Proof.
  induction 1 as [|p b q ch cs Hi Hlt Hc IH]; [simpl; lia|]. rewrite utf8_encode_all_cons, length_app, length_utf8_encode.
  pose proof (char_item_len _ _ _ Hi). pose proof (contents_le _ _ _ Hc). lia.
Qed.

Lemma u32_try_ok n : Z.of_nat n ≤ U32_MAX → u32_try n = Some (Z.of_nat n).
Proof. intros. unfold u32_try. by rewrite (proj2 (Z.leb_le _ _)). Qed.

Lemma slice_mid (x y z : bytes) : slice (length x) (length (x ++ y)) (x ++ y ++ z) = y.
Proof. unfold slice. rewrite drop_app_length, length_app, Nat.add_sub'. apply take_app_length. Qed.

(** One turn of the loop: a maximal plain run or one escape. *)
Lemma one_run i cs decoded :
  contents (a + i) e cs → bnd (a + i) → (1 ≤ i)%nat → (a + i < e)%nat →
  ∃ j c1 c2,
    (if negb (lit_is literal i backslash) then plain_loop src literal a content_end (S (length literal)) i decoded
     else Ret ('(i, c) ← decode_escape literal content_end i; Some (i, decoded ++ utf8_encode c)))
    = Ret (Some (j, decoded ++ utf8_encode_all c1)) ∧
    cs = c1 ++ c2 ∧ contents (a + j) e c2 ∧ bnd (a + j) ∧ (i < j)%nat ∧ (length (utf8_encode_all c1) ≤ j - i)%nat ∧
    run_at (decoded ++ utf8_encode_all cs) (length decoded) (length (decoded ++ utf8_encode_all c1)) (a + i) (a + j).
Proof using Hae He.
  intros Hc Hb Hi Hlt.
  assert (∀ c1 c2, cs = c1 ++ c2 → slice (length decoded) (length (decoded ++ utf8_encode_all c1))
            (decoded ++ utf8_encode_all cs) = utf8_encode_all c1) as Hmid.
  { intros c1 c2 ->. rewrite utf8_encode_all_app. apply slice_mid. }
  destruct (lit_is literal i backslash) eqn:Hl; cbn [negb].
  - rewrite lit_is_at in Hl by lia. destruct (src !! (a + i)%nat) as [c|] eqn:Hbs; [|done]. b2p. subst c.
    inversion Hc as [|? b ? ch c2 Hit Hab Hrest]; subst; [lia|]. pose proof (contents_le _ _ _ Hrest).
    assert (∃ j, b = a + j)%nat as [j ->] by (exists (b - a)%nat; lia).
    exists j, [ch], c2. rewrite (decode_escape_ok i j ch) by (done || lia). cbn [mbind option_bind].
    assert (utf8_encode_all [ch] = utf8_encode ch) as He1 by (unfold utf8_encode_all; simpl; by rewrite app_nil_r).
    pose proof (char_item_len _ _ _ Hit). pose proof (len_utf8_pos ch).
    split_and!; [by rewrite He1|done|done|by eapply char_item_bnd|lia|rewrite He1, length_utf8_encode; lia|].
    split; [|split; [lia|]].
    + rewrite He1, utf8_encode_all_cons, !length_app, length_utf8_encode. lia.
    + right. split; [done|]. exists ch. split; [done|]. rewrite (Hmid [ch] c2) by done. done.
  - rewrite lit_is_at in Hl by lia.
    destruct (plain_loop_ok (S (length literal)) i cs decoded) as (j & c1 & c2 & -> & -> & Hc2 & Hbj & _ & Hsl & Hij);
      [done|done|unfold literal; rewrite slice_length by lia; lia|].
    assert (i < j)%nat by (apply Hij; [intros Hx; by rewrite Hx in Hl|lia]). pose proof (contents_le _ _ _ Hc2).
    assert (length (utf8_encode_all c1) = j - i)%nat as Hlen by (rewrite <-Hsl, slice_length by lia; lia).
    exists j, c1, c2. split_and!; try done; [lia|]. split; [|split; [lia|]].
    + rewrite utf8_encode_all_app, !length_app. lia.
    + left. by rewrite (Hmid c1 c2), Hsl.
Qed.

Lemma runs_loop_ok fuel i cs decoded runs :
  Z.of_nat (length src) ≤ U32_MAX →
  contents (a + i) e cs → bnd (a + i) → (1 ≤ i)%nat → (e < fuel + (a + i))%nat →
  (length decoded ≤ i)%nat →
  chained (decoded ++ utf8_encode_all cs) 0 (a + 1) runs (length decoded) (a + i) →
  ∃ runs', runs_loop src literal a content_end fuel (Z.of_nat a) i decoded runs
           = Ret (Some (decoded ++ utf8_encode_all cs, runs')) ∧
    chained (decoded ++ utf8_encode_all cs) 0 (a + 1) runs' (length (decoded ++ utf8_encode_all cs)) e.
Proof using Hae He.
  intros Hmax. revert i cs decoded runs. induction fuel as [|fuel IH]; intros i cs decoded runs Hc Hb Hi Hf Hd Hch.
  { apply contents_le in Hc. lia. }
  pose proof (contents_le _ _ _ Hc) as Hle. cbn [runs_loop].
  destruct (Nat.ltb_spec i content_end) as [Hlt|Hge].
  2:{ assert (a + i = e)%nat as Hie by (unfold content_end in *; lia). inversion Hc; subst; [|apply contents_le in H1; lia].
      exists runs. rewrite app_nil_r in *. split; [done|]. rewrite <-Hie in *. done. }
  assert (a + i < e)%nat as Hlt' by (unfold content_end in *; lia).
  destruct (one_run i cs decoded) as (j & c1 & c2 & -> & -> & Hc2 & Hbj & Hij & Hlen & Hrun); [done..|].
  pose proof (contents_le _ _ _ Hc2). cbn [res_bind]. rewrite utf8_encode_all_app, app_assoc in *.
  assert (length (decoded ++ utf8_encode_all c1) ≤ j)%nat by (rewrite length_app; lia).
  rewrite !u32_try_ok by lia. cbn [mbind option_bind]. unfold u32_checked_add.
  rewrite (proj2 (Z.leb_le (Z.of_nat a + Z.of_nat i) _)), (proj2 (Z.leb_le (Z.of_nat a + Z.of_nat j) _)) by lia.
  cbn [mbind option_bind]. apply IH; [done|done|lia|lia|done|].
  rewrite <-!Nat2Z.inj_add. by apply (chained_snoc _ _ _ _ _ (a + i)).
Qed.
End Literal.
End Runs.

(** The quotes of a literal enclose its contents. *)
Lemma decoded_string_runs_ok src a e s fid :
  valid_utf8 src → Z.of_nat (length src) ≤ U32_MAX → bnd src a → src !! a = Some dquote →
  (a + 1 ≤ e < length src)%nat → src !! e = Some dquote → decodes src (a + 1) e s →
  ∃ runs, decoded_string_runs src (mk_span fid a (S e)) = Ret (Some (s, runs)) ∧ chained src s 0 (a + 1) runs (length s) e.
Proof.
  intros Hv Hmax Hb Ha Hr He Hd. destruct (decodes_contents _ _ _ _ Hd) as (cs & -> & Hc).
  assert (bnd src e) as Hbe by (eapply (ascii_boundary src e dquote); [done|done|lia]).
  assert (bnd src (a + 1)) as Hb1.
  { unfold bnd. rewrite (take_slice _ a) by lia. apply valid_utf8_app; [done|]. rewrite (slice_one _ _ _ Ha). by eexists. }
  assert (2 ^ 32 = U32_MAX + 1) by done. unfold decoded_string_runs. cbn [lo hi mk_span]. rewrite !u32_of_small by lia. rewrite !Nat2Z.id.
  rewrite slice_get_ok by lia. fold (literal src a e). rewrite (lit_is_at src a e), Nat.add_0_r, Ha by lia.
  assert (length (literal src a e) = S e - a)%nat as Hlen by (apply slice_length; lia). rewrite Hlen.
  rewrite (lit_is_at src a e) by lia. replace (a + (S e - a - 1))%nat with e by lia. rewrite He.
  rewrite (proj2 (Nat.ltb_ge (S e - a) 2)) by lia. change (34 =? dquote) with true. cbn [negb orb].
  replace (S e - a - 1)%nat with (content_end a e) by (unfold content_end; lia).
  apply (runs_loop_ok src a e ltac:(lia) Hbe (S (S e - a)) 1 cs [] []); try done; try (simpl; lia). constructor.
Qed.

(** C17. The decoded runs of a string token are the lexer's own reading of it: on
    the span of any string token of a source that lexes without an error,
    [decoded_string_runs] returns exactly the token's text, with runs that
    follow one another without gap or overlap through the text and through the
    source between the quotes, each a verbatim piece or a single escape with the
    character it stands for. *)
Theorem decoded_runs_match_token fid src d ts d' t s :
  valid_utf8 src → Z.of_nat (length src) ≤ U32_MAX →
  tokenize fid src d = Ret (ts, d') → error_count d' = error_count d →
  t ∈ ts → kind t = TokKind.Str s →
  ∃ runs, decoded_string_runs src (span t) = Ret (Some (s, runs)) ∧
    chained src s 0 (Z.to_nat (lo (span t)) + 1) runs (length s) (Z.to_nat (hi (span t)) - 1).
Proof.
  intros Hv Hmax Ht He Hin Hk. pose proof (tokenize_tiled _ _ _ _ _ Ht He) as Htl.
  destruct (tiled_elem _ _ _ _ _ _ _ _ Htl Hin) as (a & b & [Hsp Hr Htx] & Ha & _ & Hl). rewrite Hk in Hl.
  destruct (Hl Hv) as (e & -> & Hae & Hd & Hq). unfold spells in Htx. rewrite Hk in Htx. destruct Htx as [Hq0 _].
  assert (2 ^ 32 = U32_MAX + 1) by done. rewrite Hsp. simpl. rewrite !u32_of_small, !Nat2Z.id by lia.
  replace (S e - 1)%nat with e by lia. apply decoded_string_runs_ok; auto. lia.
Qed.

Lemma decoded_runs_match_token_witness :
  ∃ t runs, t ∈ sample_lexed.1 ∧ decoded_string_runs sample_source (span t) = Ret (Some ([97; 10], runs)) ∧ length runs = 2%nat.
Proof.
  exists (MkToken (TokKind.Str [97; 10]) (mk_span 0 22 27) None).
  destruct (decoded_runs_match_token 0 sample_source diags_new sample_lexed.1 sample_lexed.2
              (MkToken (TokKind.Str [97; 10]) (mk_span 0 22 27) None) [97; 10]) as (runs & Hr & _).
  - eexists. vm_compute. reflexivity.
  - vm_compute. discriminate.
  - vm_compute. reflexivity.
  - vm_compute. reflexivity.
  - apply (list_elem_of_lookup_2 _ 6). vm_compute. reflexivity.
  - reflexivity.
  - exists runs. split; [apply (list_elem_of_lookup_2 _ 6); vm_compute; reflexivity|]. split; [exact Hr|].
    vm_compute in Hr. injection Hr as <-. reflexivity.
Defined.
