(* ===== verification/Ast.v ===== *)
(** * The syntax tree ([crates/align_ast/src/lib.rs])

    Every node type with the source's constructors and fields.  [Ty] is the
    source's [Type]; an enum's variants carry the enum's initials. *)
From Stdlib Require Import ZArith Lia SpecFloat.
From S2P Require Import Prelude Span.
Local Open Scope Z_scope.

Record Ident := MkIdent { id_name : bytes; id_span : Span }.
(** A dotted path like [a.b.c]. *)
Record Path := MkPath { segments : list Ident; path_span : Span }.

Inductive Vis := Private | Pub.
Inductive ParamMode := ByValue | Out | Borrow | BorrowMut.

(** ** Types *)
Inductive Ty : Type :=
  | Ty_Named (path : Path) (args : list Ty) (sp : Span)
  | Ty_FixedArray (element : Ty) (length : Z) (separator sp : Span)
  | Ty_Tuple (elems : list Ty) (sp : Span)
  | Ty_Fn (params : list FnTypeParam) (ret : Ty) (sp : Span)
with FnTypeParam : Type :=
  | MkFnTypeParam (mode : ParamMode) (ty : Ty).

(** [Type::span] *)
Definition ty_span (t : Ty) : Span :=
  match t with
  | Ty_Named _ _ sp | Ty_FixedArray _ _ _ sp | Ty_Tuple _ sp | Ty_Fn _ _ sp => sp
  end.

Record TypeParam := MkTypeParam { tp_name : Ident; tp_bound : option Ident }.
Record Param := MkParam { p_mode : ParamMode; p_name : Ident; p_ty : Ty }.
Record LambdaParam := MkLambdaParam { lp_name : Ident; lp_ty : option Ty }.

(** ** Patterns *)
Inductive LiteralPat := LP_Int (v : Z) | LP_Char (v : Z) | LP_Str (s : bytes).

Inductive ValuePattern :=
  | VP_Single (l : LiteralPat) (sp : Span)
  | VP_Range (start end_ : LiteralPat) (inclusive : bool) (sp : Span).

(** [ValuePattern::span] *)
Definition vp_span (p : ValuePattern) : Span :=
  match p with VP_Single _ sp | VP_Range _ _ _ sp => sp end.

Inductive MatchPattern :=
  | MP_Variant (name : Ident) (bindings : list Ident)
  | MP_Or (variants : list Ident) (sp : Span)
  | MP_Wildcard (sp : Span)
  | MP_Value (patterns : list ValuePattern) (sp : Span).

(** ** Operators *)
Inductive BinOp :=
  | BO_Add | BO_Sub | BO_Mul | BO_Div | BO_Rem | BO_Eq | BO_Ne | BO_Lt | BO_Le | BO_Gt | BO_Ge
  | BO_And | BO_Or | BO_BitAnd | BO_BitOr | BO_BitXor | BO_Shl | BO_Shr.
Inductive UnOp := UO_Neg | UO_Not | UO_BitNot.

(** ** Expressions, blocks and statements *)
Inductive Expr : Type :=
  | MkExpr (kind : ExprKind) (sp : Span)
with ExprKind : Type :=
  | EK_Unit
  | EK_Int (v : Z)
  | EK_Float (v : spec_float)
  | EK_Char (v : Z)
  | EK_Str (s : bytes)
  | EK_Bool (b : bool)
  | EK_Path (p : Path)
  | EK_Unary (op : UnOp) (expr : Expr)
  | EK_Cast (expr : Expr) (ty : Ty)
  | EK_Binary (op : BinOp) (lhs rhs : Expr)
  | EK_Call (callee : Expr) (args : list Expr)
  | EK_FieldAccess (recv : Expr) (field : Ident)
  | EK_If (cond : Expr) (then_ : Block) (els : option Expr)
  | EK_Block (b : Block)
  | EK_StructLit (name : Path) (fields : list FieldInit)
  | EK_ElseUnwrap (opt fallback : Expr)
  | EK_Try (e : Expr)
  | EK_Loop (b : Block)
  | EK_Arena (b : Block)
  | EK_NamedArena (name : Ident) (block : Block)
  | EK_FloatScope (options : list Ident) (block : Block)
  | EK_Unsafe (b : Block)
  | EK_TaskGroup (b : Block)
  | EK_ArrayLit (es : list Expr)
  | EK_Index (recv index : Expr)
  | EK_SliceRange (recv : Expr) (start end_ : option Expr)
  | EK_FieldShorthand (field : Ident)
  | EK_Lambda (params : list LambdaParam) (body : Block)
  | EK_Match (scrutinee : Expr) (arms : list MatchArm)
  | EK_Tuple (es : list Expr)
  | EK_TupleIndex (recv : Expr) (index : Z)
  | EK_Template (parts : list TemplatePart)
with Block : Type :=
  | MkBlock (stmts : list Stmt) (tail : option Expr) (sp : Span)
with Stmt : Type :=
  | St_Let (is_mut : bool) (name : Ident) (ty : option Ty) (init : Expr) (align : option Z)
  | St_LetTuple (names : list (option Ident)) (init : Expr) (sp : Span)
  | St_Assign (place value : Expr)
  | St_Return (value : option Expr)
  | St_Break (value : option Expr) (sp : Span)
  | St_Expr (e : Expr)
with MatchArm : Type :=
  | MkMatchArm (pattern : MatchPattern) (body : Expr) (sp : Span)
with TemplatePart : Type :=
  | TP_Text (s : bytes)
  | TP_Hole (e : Expr)
with FieldInit : Type :=
  | MkFieldInit (name : Ident) (value : Expr) (sp : Span).

Definition expr_kind (e : Expr) : ExprKind := match e with MkExpr k _ => k end.
Definition expr_span (e : Expr) : Span := match e with MkExpr _ sp => sp end.
Definition block_span (b : Block) : Span := match b with MkBlock _ _ sp => sp end.

(** ** Items *)
Inductive FnBody := FB_Block (b : Block) | FB_Expr (e : Expr).

Record TestDecl := MkTestDecl { td_name : bytes; td_name_span : Span; td_body : Block; td_span : Span }.
Record ResourceDecl := MkResourceDecl {
  rd_vis : Vis; rd_name : Ident; rd_type_params : list TypeParam; rd_drop_hook : Path; rd_span : Span }.
Record ExternSig := MkExternSig { es_name : Ident; es_params : list Param; es_ret : option Ty; es_span : Span }.
Record ExternBlock := MkExternBlock {
  eb_abi : bytes; eb_link : option bytes; eb_fns : list ExternSig; eb_span : Span }.
Record ConstDecl := MkConstDecl {
  cd_vis : Vis; cd_name : Ident; cd_ty : option Ty; cd_value : Expr; cd_span : Span }.
Record VariantDef := MkVariantDef { vd_name : Ident; vd_payload : list Ty; vd_span : Span }.
Record EnumDecl := MkEnumDecl {
  ed_vis : Vis; ed_name : Ident; ed_type_params : list TypeParam; ed_variants : list VariantDef; ed_span : Span }.
Record FieldDef := MkFieldDef { fd_name : Ident; fd_ty : Ty; fd_span : Span }.
Record StructDecl := MkStructDecl {
  sd_vis : Vis; sd_name : Ident; sd_type_params : list TypeParam; sd_fields : list FieldDef;
  sd_align : option Z; sd_c_repr : bool; sd_span : Span }.
Record FnDecl := MkFnDecl {
  fn_vis : Vis; fn_name : Ident; fn_type_params : list TypeParam; fn_params : list Param;
  fn_ret : option Ty; fn_body : FnBody; fn_span : Span }.

Inductive Item :=
  | It_Fn (d : FnDecl) | It_Test (d : TestDecl) | It_Struct (d : StructDecl) | It_Enum (d : EnumDecl)
  | It_Resource (d : ResourceDecl) | It_Const (d : ConstDecl) | It_Extern (b : ExternBlock).

Record File := MkFile { f_module : option Path; f_imports : list Path; f_items : list Item }.
