(* ===== verification/Parser.v ===== *)
(** * The parser ([crates/align_parser/src/lib.rs])

    [Parser] and its methods over the token vector, one definition each, in a
    small state monad whose computations may panic.  Loops carry fuel; the
    recursion between expressions, prefix operators, [if] chains and blocks is
    open (the [Knot] record) and tied at the end by recursion on fuel.
    [ParserSpec.v] shows that the fuel given here is always enough. *)
From Stdlib Require Import ZArith Lia SpecFloat.
From S2P Require Import Prelude Utf8 Span Diag Text Token Lexer Ast.
Local Open Scope Z_scope.

Definition MAX_EXPR_DEPTH : Z := 128.

(** The lexer's reserved words. *)
Definition reserved_word (k : TokKind) : option bytes :=
  match k with
  | TokKind.Fn => Some (str "fn") | TokKind.Return => Some (str "return")
  | TokKind.Mut => Some (str "mut") | TokKind.Pub => Some (str "pub")
  | TokKind.Module_ => Some (str "module") | TokKind.Import_ => Some (str "import")
  | TokKind.If => Some (str "if") | TokKind.Else => Some (str "else")
  | TokKind.True_ => Some (str "true") | TokKind.False_ => Some (str "false")
  | TokKind.Arena => Some (str "arena") | TokKind.FloatScope => Some (str "float")
  | TokKind.TaskGroup => Some (str "task_group") | TokKind.Match => Some (str "match")
  | TokKind.Loop => Some (str "loop") | TokKind.Break => Some (str "break")
  | TokKind.Template => Some (str "template") | TokKind.Unsafe => Some (str "unsafe")
  | TokKind.Extern => Some (str "extern") | TokKind.As => Some (str "as")
  | _ => None
  end.

(** ** Template literals *)
Inductive RawPart := RP_Text (s : bytes) | RP_Hole (src : bytes) (off : nat).

(** [char::is_whitespace] *)
Definition is_whitespace (c : Z) : bool :=
  ((9 <=? c) && (c <=? 13)) || (c =? 32) || (c =? 0x85) || (c =? 0xA0) || (c =? 0x1680)
  || ((0x2000 <=? c) && (c <=? 0x200A)) || (c =? 0x2028) || (c =? 0x2029) || (c =? 0x202F)
  || (c =? 0x205F) || (c =? 0x3000).

(** [src.trim().is_empty()] *)
Definition trim_is_empty (cs : list Z) : bool := forallb is_whitespace cs.

(** The inner [for] of [split_template]: the characters up to the first closing
    brace, whether it was found, and what follows it. *)
Fixpoint scan_hole (cs : list Z) : list Z * bool * list Z :=
  match cs with
  | [] => ([], false, [])
  | d :: cs' =>
    if d =? "}"%u8 then ([], true, cs')
    else let '(src, found_close, rest) := scan_hole cs' in (d :: src, found_close, rest)
  end.

(** The outer [while let]: [idx] is the byte offset of the head of [cs], [text]
    the pending text and [parts] the pieces so far. *)
Fixpoint split_loop (fuel : nat) (cs : list Z) (idx : nat) (text : list Z) (parts : list RawPart)
  : res (list RawPart) :=
  match fuel with
  | O => OutOfFuel
  | S fuel =>
    match cs with
    | [] => Ret (match text with [] => parts | _ => parts ++ [RP_Text (utf8_encode_all text)] end)
    | c :: cs' =>
      if c =? "{"%u8 then
        let off := (idx + 1)%nat in
        let '(src, found_close, rest) := scan_hole cs' in
        let idx' := (off + length (utf8_encode_all src) + (if found_close : bool then 1 else 0))%nat in
        if found_close && negb (trim_is_empty src) then
          let parts := match text with [] => parts | _ => parts ++ [RP_Text (utf8_encode_all text)] end in
          split_loop fuel rest idx' [] (parts ++ [RP_Hole (utf8_encode_all src) off])
        else
          split_loop fuel rest idx' (text ++ ["{"%u8] ++ src ++ (if found_close then ["}"%u8] else [])) parts
      else split_loop fuel cs' (idx + len_utf8 c)%nat (text ++ [c]) parts
    end
  end.

Definition split_template (content : bytes) : res (list RawPart) :=
  let* cs := unwrap (from_utf8 content) in split_loop (S (length cs)) cs 0 [] [].

(** ** The parser state and its monad *)
Record Parser := MkParser {
  ptokens : list Token;
  ppos : nat;
  pdiags : Diagnostics;
  no_struct_literal : bool;
  depth : Z;
  rejected_identifiers : list bytes
}.

Definition set_ppos (s : Parser) (p : nat) : Parser :=
  MkParser (ptokens s) p (pdiags s) (no_struct_literal s) (depth s) (rejected_identifiers s).
Definition set_pdiags (s : Parser) (d : Diagnostics) : Parser :=
  MkParser (ptokens s) (ppos s) d (no_struct_literal s) (depth s) (rejected_identifiers s).
Definition set_nsl (s : Parser) (b : bool) : Parser :=
  MkParser (ptokens s) (ppos s) (pdiags s) b (depth s) (rejected_identifiers s).
Definition set_depth (s : Parser) (d : Z) : Parser :=
  MkParser (ptokens s) (ppos s) (pdiags s) (no_struct_literal s) d (rejected_identifiers s).
Definition set_rejected (s : Parser) (l : list bytes) : Parser :=
  MkParser (ptokens s) (ppos s) (pdiags s) (no_struct_literal s) (depth s) l.

Definition M (A : Type) : Type := Parser → res (A * Parser).
Definition ret {A} (a : A) : M A := λ s, Ret (a, s).
Definition bind {A B} (m : M A) (f : A → M B) : M B := λ s, let* '(a, s') := m s in f a s'.
Definition lift {A} (r : res A) : M A := λ s, let* a := r in Ret (a, s).
Definition stuck {A} : M A := λ _, OutOfFuel.

(** The [?] operator on [Option]: in a function body, and in a loop body whose
    result is [inl] to go round again and [inr] to leave the loop. *)
Definition try_ {A B} (m : M (option A)) (f : A → M (option B)) : M (option B) :=
  bind m (λ o, match o with Some a => f a | None => ret None end).
Definition try_loop {A B C} (m : M (option A)) (f : A → M (C + option B)) : M (C + option B) :=
  bind m (λ o, match o with Some a => f a | None => ret (inr None) end).

Declare Scope parser_scope.
Delimit Scope parser_scope with parser.
Notation "'let!' x := m 'in' k" := (bind m (λ x, k))
  (at level 10, x binder, m at level 200, k at level 200) : parser_scope.
Notation "'let?' x := m 'in' k" := (try_ m (λ x, k))
  (at level 10, x binder, m at level 200, k at level 200) : parser_scope.
Notation "'let%' x := m 'in' k" := (try_loop m (λ x, k))
  (at level 10, x binder, m at level 200, k at level 200) : parser_scope.
Local Open Scope parser_scope.

Definition next_ {A B} (a : A) : M (A + B) := ret (inl a).
Definition break_ {A B} (b : B) : M (A + B) := ret (inr b).

Fixpoint loop_fuel {A B} (fuel : nat) (body : A → M (A + B)) (a : A) : M B :=
  match fuel with
  | O => stuck
  | S fuel =>
    let! r := body a in
    match r with inl a' => loop_fuel fuel body a' | inr b => ret b end
  end.
(** A [loop] or [while] over the tokens: every turn consumes one at least, or
    looks one further ahead. *)
Definition loop_ {A B} (body : A → M (A + B)) (a : A) : M B :=
  λ s, loop_fuel (S (length (ptokens s))) body a s.

Fixpoint mapM {A B} (f : A → M B) (l : list A) : M (list B) :=
  match l with
  | [] => ret []
  | a :: l => let! b := f a in let! bs := mapM f l in ret (b :: bs)
  end.

(** ** Cursor operations *)
Definition peek : M TokKind :=
  λ s, let* t := unwrap (ptokens s !! ppos s) in Ret (kind t, s).

Definition peek_at (n : nat) : M TokKind :=
  λ s, let* last := usub (length (ptokens s)) 1 in
       let* t := unwrap (ptokens s !! Nat.min (ppos s + n) last) in Ret (kind t, s).

(** [matches!(k, TokKind::Ident(_))] and the like *)
Definition is_ident (k : TokKind) : bool := match k with TokKind.Ident _ => true | _ => false end.
Definition is_str (k : TokKind) : bool := match k with TokKind.Str _ => true | _ => false end.
Definition is_int (k : TokKind) : bool := match k with TokKind.Int _ => true | _ => false end.
Definition is_word (w : bytes) (k : TokKind) : bool :=
  match k with TokKind.Ident s => bytes_eqb s w | _ => false end.
Definition is_reserved (k : TokKind) : bool :=
  match reserved_word k with Some _ => true | None => false end.
Definition is_colon (k : TokKind) : bool := match k with TokKind.Colon => true | _ => false end.
Definition is_lparen (k : TokKind) : bool := match k with TokKind.LParen => true | _ => false end.
Definition is_binding_colon (k : TokKind) : bool :=
  match k with TokKind.ColonEq | TokKind.Colon => true | _ => false end.
Definition is_end (k : TokKind) : bool :=
  match k with TokKind.End_ | TokKind.Semicolon => true | _ => false end.

Definition identifier_at (offset : nat) : M bool :=
  let! k := peek_at offset in ret (is_ident k || is_reserved k).

Definition cur_span : M Span :=
  λ s, let* t := unwrap (ptokens s !! ppos s) in Ret (span t, s).
Definition prev_span : M Span :=
  λ s, let* t := unwrap (ptokens s !! (ppos s - 1)%nat) in Ret (span t, s).

Definition bump : M Token :=
  λ s, let* t := unwrap (ptokens s !! ppos s) in
       Ret (t, match kind t with TokKind.Eof => s | _ => set_ppos s (ppos s + 1) end).

Definition at_ (k : TokKind) : M bool := let! x := peek in ret (kind_eqb x k).

Definition eat (k : TokKind) : M bool :=
  let! b := at_ k in
  if b : bool then let! _ := bump in ret true else ret false.

(** [self.diags.error(msg, span)], at a given span and at the cursor *)
Definition err (msg : bytes) (sp : Span) : M unit :=
  λ s, Ret (tt, set_pdiags s (error (pdiags s) msg sp)).
Definition err_here (msg : bytes) : M unit := let! sp := cur_span in err msg sp.

Definition expect (k : TokKind) (what : bytes) : M bool :=
  let! b := eat k in
  if b : bool then ret true
  else let! _ := err_here (str "expected " ++ what) in ret false.

Definition at_stmt_end : M bool := let! k := peek in ret (is_end k).
Definition eat_stmt_end : M bool :=
  let! b := at_stmt_end in
  if b : bool then let! _ := bump in ret true else ret false.

Definition skip_ends : M unit :=
  loop_ (λ _, let! b := at_stmt_end in
              if b : bool then let! _ := bump in next_ tt else break_ tt) tt.

Definition expect_stmt_end : M unit :=
  let! b := at_stmt_end in
  if b : bool then skip_ends
  else
    let! k := peek in
    match k with
    | TokKind.RBrace | TokKind.Eof => ret tt
    | _ => err_here (str "expected a newline or `;` to separate statements")
    end.

Definition merge_ (a b : Span) : M Span := lift (merge a b).
(** [start.merge(self.prev_span())] *)
Definition span_from (start : Span) : M Span := let! p := prev_span in merge_ start p.

(** The loop header [self.at(close) || self.at(Eof)] *)
Definition at_close (close : TokKind) : M bool :=
  let! a := at_ close in let! b := at_ TokKind.Eof in ret (a || b).

(** [while !at(close) && !at(Eof) { push(item()?); if !eat(Comma) { break } }] *)
Definition comma_list {A} (close : TokKind) (item : M (option A)) : M (option (list A)) :=
  loop_ (λ acc,
    let! c := at_close close in
    if c : bool then break_ (Some acc) else
    let% x := item in
    let! m := eat TokKind.Comma in
    if m : bool then next_ (acc ++ [x]) else break_ (Some (acc ++ [x]))) [].

(** [loop { skip_ends(); if at(close) || at(Eof) { break } push(item()?); ... }]:
    [item] also consumes its own separator. *)
Definition line_list {A} (close : TokKind) (item : M (option A)) : M (option (list A)) :=
  loop_ (λ acc,
    let! _ := skip_ends in
    let! c := at_close close in
    if c : bool then break_ (Some acc) else
    let% x := item in
    next_ (acc ++ [x])) [].

(** ** Names, paths and types *)
Definition mem_word (w : bytes) (l : list bytes) : bool := existsb (bytes_eqb w) l.

(** Remember a reserved word that was used as a name. *)
Definition reject (word : bytes) : M unit :=
  λ s, Ret (tt, if mem_word word (rejected_identifiers s) then s
                else set_rejected s (rejected_identifiers s ++ [word])).

Definition parse_ident (what : bytes) : M (option Ident) :=
  let! sp := cur_span in
  let! k := peek in
  match k with
  | TokKind.Ident name => let! _ := bump in ret (Some (MkIdent name sp))
  | _ =>
    match reserved_word k with
    | Some word =>
      let! _ := err (str "`" ++ word ++ str "` is a reserved word and cannot be used as an identifier ("
                       ++ what ++ str ")") sp in
      let! _ := reject word in
      let! _ := bump in
      ret (Some (MkIdent word sp))
    | None => let! _ := err (str "expected " ++ what) sp in ret None
    end
  end.

Definition rejected (word : bytes) : M bool := λ s, Ret (mem_word word (rejected_identifiers s), s).

Definition parse_referenced_ident (what : bytes) : M (option Ident) :=
  let! k := peek in
  match reserved_word k with
  | Some word =>
    let! r := rejected word in
    if r : bool then let! t := bump in ret (Some (MkIdent word (span t)))
    else parse_ident what
  | None => parse_ident what
  end.

Definition noninitial_path_segment_at (offset : nat) : M bool := identifier_at offset.

Definition parse_noninitial_path_segment (what : bytes) : M (option Ident) :=
  let! sp := cur_span in
  let! k := peek in
  match k with
  | TokKind.Ident _ => parse_ident what
  | TokKind.Template => let! _ := bump in ret (Some (MkIdent (str "template") sp))
  | _ => parse_referenced_ident what
  end.

Definition snoc_opt {A} (l : list A) (o : option A) : list A :=
  match o with Some a => l ++ [a] | None => l end.

(** The [. segment] loop of [parse_path]. *)
Definition path_tail : list Ident → M (list Ident) :=
  loop_ (λ segs,
    let! d := at_ TokKind.Dot in
    let! n := noninitial_path_segment_at 1 in
    if d && n then
      let! _ := bump in
      let! id := parse_noninitial_path_segment (str "identifier") in
      next_ (snoc_opt segs id)
    else break_ segs).

Definition parse_path : M Path :=
  let! start := cur_span in
  let! first := parse_ident (str "identifier") in
  let! segs := path_tail (snoc_opt [] first) in
  let! sp := span_from start in
  ret (MkPath segs sp).

(** The tokens that can start a type after a parameter mode. *)
Definition starts_type (k : TokKind) : bool :=
  match k with
  | TokKind.Fn | TokKind.LParen | TokKind.LBracket | TokKind.Ident _ => true
  | _ => false
  end.

(** The mode prefix of a function type's parameter. *)
Definition fn_type_mode : M ParamMode :=
  let! k0 := peek in let! k1 := peek_at 1 in let! k2 := peek_at 2 in
  if is_word (str "out") k0 && starts_type k1 then let! _ := bump in ret Out
  else if is_word (str "borrow") k0 && kind_eqb k1 TokKind.Mut && starts_type k2
  then let! _ := bump in let! _ := bump in ret BorrowMut
  else if is_word (str "borrow") k0 && starts_type k1 then let! _ := bump in ret Borrow
  else ret ByValue.

(** The length token of [[T; N]]. *)
Definition fixed_array_length (t : Token) : M Z :=
  let decimal := match integer_radix t with Some r => r =? 10 | None => false end in
  match kind t with
  | TokKind.Int value =>
    if decimal && (0 <=? value) && (value <=? U32_MAX) then ret value
    else if negb decimal then
      let! _ := err (str "a fixed-array length must be an unsuffixed decimal integer literal") (span t) in ret 0
    else let! _ := err (str "fixed-array length is outside 0..=u32::MAX") (span t) in ret 0
  | _ =>
    let! _ := err (str "expected a decimal integer length in fixed-array type `[T; N]`") (span t) in ret 0
  end.

Section ParseType.
Context (parse_type : M (option Ty)).

Definition parse_array_type : M (option Ty) :=
  let! start := cur_span in
  let! _ := bump in
  let? element := parse_type in
  let! semi := at_ TokKind.Semicolon in
  if semi : bool then
    let! sep := bump in
    let! length_token := bump in
    let! len := fixed_array_length length_token in
    let! _ := expect TokKind.RBracket (str "']'") in
    let! sp := span_from start in
    ret (Some (Ty_FixedArray element len (span sep) sp))
  else
    let! _ := err_here (str "expected ';' in fixed-array type `[T; N]`") in
    ret None.

Definition parse_fn_type : M (option Ty) :=
  let! start := cur_span in
  let! _ := bump in
  let! _ := expect TokKind.LParen (str "'('") in
  let? params := comma_list TokKind.RParen
    (let! mode := fn_type_mode in
     let? ty := parse_type in
     ret (Some (MkFnTypeParam mode ty))) in
  let! _ := expect TokKind.RParen (str "')'") in
  let! _ := expect TokKind.Arrow (str "'->'") in
  let? r := parse_type in
  let! sp := span_from start in
  ret (Some (Ty_Fn params r sp)).

(** [(T)] is just grouping; [(T, U, ...)] is a tuple. *)
Definition group_or_tuple {A} (tuple : list A → A) (elems : list A) : A :=
  match elems with [e] => e | _ => tuple elems end.

Definition parse_paren_type : M (option Ty) :=
  let! start := cur_span in
  let! _ := bump in
  let! unit_ := eat TokKind.RParen in
  if unit_ : bool then
    let! sp := span_from start in
    ret (Some (Ty_Named (MkPath [MkIdent (str "()") sp] sp) [] sp))
  else
    let? first := parse_type in
    let? elems := loop_ (λ elems,
      let! c := eat TokKind.Comma in
      if c : bool then
        let! close := at_ TokKind.RParen in
        if close : bool then break_ (Some elems)
        else let% t := parse_type in next_ (elems ++ [t])
      else break_ (Some elems)) [first] in
    let! _ := expect TokKind.RParen (str "')'") in
    let! sp := span_from start in
    ret (Some (group_or_tuple (λ es, Ty_Tuple es sp) elems)).

Definition parse_named_type : M (option Ty) :=
  let! path := parse_path in
  match segments path with
  | [] => ret None
  | _ =>
    let! lt := eat TokKind.Lt in
    let? args :=
      (if lt : bool then
         let? args := comma_list TokKind.Gt parse_type in
         let! _ := expect TokKind.Gt (str "'>'") in ret (Some args)
       else ret (Some [])) in
    let! sp := span_from (path_span path) in
    ret (Some (Ty_Named path args sp))
  end.

(** One level of [parse_type]; the nested types go through [parse_type]. *)
Definition parse_type_body : M (option Ty) :=
  let! k := peek in
  match k with
  | TokKind.LBracket => parse_array_type
  | TokKind.Fn => parse_fn_type
  | TokKind.LParen => parse_paren_type
  | _ => parse_named_type
  end.
End ParseType.

Fixpoint parse_type_fuel (fuel : nat) : M (option Ty) :=
  match fuel with
  | O => stuck
  | S fuel => parse_type_body (parse_type_fuel fuel)
  end.
Definition parse_type : M (option Ty) := λ s, parse_type_fuel (S (length (ptokens s))) s.

(** ** Patterns *)
Definition at_value_pattern : M bool :=
  let! k0 := peek in
  let! k1 := peek_at 1 in
  ret (match k0 with
       | TokKind.Int _ | TokKind.Char _ | TokKind.Str _ => true
       | TokKind.Minus => is_int k1
       | _ => false
       end).

(** [i128::checked_neg] *)
Definition checked_neg (v : Z) : option Z := if v =? I128_MIN then None else Some (- v).

Definition parse_pattern_literal : M (option (LiteralPat * Span)) :=
  let! minus := eat TokKind.Minus in
  if minus : bool then
    let! minus_span := prev_span in
    let! k := peek in
    match k with
    | TokKind.Int v =>
      let! here := cur_span in
      let! sp := merge_ minus_span here in
      let! _ := bump in
      match checked_neg v with
      | None => let! _ := err (str "integer literal out of range: -" ++ show_int v) sp in ret None
      | Some val => ret (Some (LP_Int val, sp))
      end
    | _ => let! _ := err_here (str "expected integer literal after '-' in pattern") in ret None
    end
  else
    let! sp := cur_span in
    let! k := peek in
    match k with
    | TokKind.Int v => let! _ := bump in ret (Some (LP_Int v, sp))
    | TokKind.Char c => let! _ := bump in ret (Some (LP_Char c, sp))
    | TokKind.Str value => let! t := bump in ret (Some (LP_Str value, span t))
    | _ => let! _ := err_here (str "expected integer, character, or string literal in pattern") in ret None
    end.

Definition parse_single_value_pattern : M (option ValuePattern) :=
  let? '(start_lit, start_span) := parse_pattern_literal in
  let! incl := eat TokKind.DotDotEq in
  if incl : bool then
    let? '(end_lit, end_span) := parse_pattern_literal in
    let! sp := merge_ start_span end_span in
    ret (Some (VP_Range start_lit end_lit true sp))
  else
    let! excl := eat TokKind.DotDot in
    if excl : bool then
      let! p := prev_span in
      let! _ := err (str "half-open range patterns (`..`) are not supported in match; use inclusive range `..=`") p in
      let? '(end_lit, end_span) := parse_pattern_literal in
      let! sp := merge_ start_span end_span in
      ret (Some (VP_Range start_lit end_lit false sp))
    else ret (Some (VP_Single start_lit start_span)).

(** The pattern of one [match] arm. *)
Definition parse_value_patterns : M (option MatchPattern) :=
  let? first := parse_single_value_pattern in
  let pstart := vp_span first in
  let? patterns := loop_ (λ ps,
    let! p := eat TokKind.Pipe in
    if p : bool then
      let! _ := skip_ends in
      let% v := parse_single_value_pattern in
      next_ (ps ++ [v])
    else break_ (Some ps)) [first] in
  let! sp := span_from pstart in
  ret (Some (MP_Value patterns sp)).

Definition or_what : bytes := str "a variant name in an or-pattern".

Definition parse_or_pattern (id : Ident) : M (option MatchPattern) :=
  let? variants := loop_ (λ vs,
    let! p := eat TokKind.Pipe in
    if p : bool then
      let! _ := skip_ends in
      let% v := parse_ident or_what in
      next_ (vs ++ [v])
    else break_ (Some vs)) [id] in
  let! sp := span_from (id_span id) in
  ret (Some (MP_Or variants sp)).

Definition parse_variant_pattern (id : Ident) : M (option MatchPattern) :=
  let! paren := eat TokKind.LParen in
  if paren : bool then
    let? bindings := loop_ (λ bs,
      let! _ := skip_ends in
      let! c := at_close TokKind.RParen in
      if c : bool then break_ (Some bs) else
      let% b := parse_ident (str "a payload binding") in
      let! m := eat TokKind.Comma in
      if m : bool then next_ (bs ++ [b]) else break_ (Some (bs ++ [b]))) [] in
    let! _ := expect TokKind.RParen (str "')'") in
    let! pipe := at_ TokKind.Pipe in
    let! _ :=
      (if pipe : bool then
         let! _ := err_here (str "an or-pattern cannot bind a payload; list bare variant names (`A | B`) or use separate arms") in
         loop_ (λ _,
           let! p := eat TokKind.Pipe in
           if p : bool then
             let! _ := skip_ends in
             let! _ := parse_ident or_what in
             next_ tt
           else break_ tt) tt
       else ret tt) in
    ret (Some (MP_Variant id bindings))
  else ret (Some (MP_Variant id [])).

Definition parse_arm_pattern : M (option MatchPattern) :=
  let! vp := at_value_pattern in
  if vp : bool then parse_value_patterns
  else
    let? id := parse_ident (str "match pattern (a variant name, literal, or `_`)") in
    if bytes_eqb (id_name id) (str "_") then ret (Some (MP_Wildcard (id_span id)))
    else
      let! pipe := at_ TokKind.Pipe in
      if pipe : bool then parse_or_pattern id else parse_variant_pattern id.

(** ** Lookahead *)

(** The balanced scan of [looks_like_aligned_binding]: the index after the
    closing parenthesis, [None] at the end of input. *)
Definition align_scan : M (option nat) :=
  loop_ (λ '(i, depth),
    let! k := peek_at i in
    match k with
    | TokKind.LParen => next_ ((i + 1)%nat, (depth + 1)%nat)
    | TokKind.RParen =>
      let! depth := lift (usub depth 1) in
      if (depth =? 0)%nat then break_ (Some (i + 1)%nat) else next_ ((i + 1)%nat, depth)
    | TokKind.Eof => break_ None
    | _ => next_ ((i + 1)%nat, depth)
    end) (1%nat, 0%nat).

Definition looks_like_aligned_binding : M bool :=
  let! k0 := peek in
  if negb (is_word (str "align") k0) then ret false else
  let! k1 := peek_at 1 in
  if negb (is_lparen k1) then ret false else
  let! o := align_scan in
  match o with
  | None => ret false
  | Some i =>
    let! k := peek_at i in
    let! id := identifier_at i in
    let! c := peek_at (i + 1) in
    ret (kind_eqb k TokKind.Mut || (id && is_binding_colon c))
  end.

(** The name-list scan of [looks_like_destructure]: the index after the
    closing parenthesis and the number of names. *)
Definition destructure_scan : M (option (nat * nat)) :=
  loop_ (λ '(i, count),
    let! id := identifier_at i in
    if negb id then break_ None else
    let count := (count + 1)%nat in
    let i := (i + 1)%nat in
    let! k := peek_at i in
    match k with
    | TokKind.RParen => break_ (Some ((i + 1)%nat, count))
    | TokKind.Comma =>
      let i := (i + 1)%nat in
      let! k := peek_at i in
      match k with
      | TokKind.RParen => break_ (Some ((i + 1)%nat, count))
      | _ => next_ (i, count)
      end
    | _ => break_ None
    end) (1%nat, 0%nat).

Definition looks_like_destructure : M bool :=
  let! p := at_ TokKind.LParen in
  if negb p then ret false else
  let! o := destructure_scan in
  match o with
  | None => ret false
  | Some (i, count) =>
    let! k := peek_at i in
    ret ((2 <=? count)%nat && kind_eqb k TokKind.ColonEq)
  end.

Definition struct_lit_path_len : M (option nat) :=
  let! '(segs, i) := loop_ (λ '(segs, i),
    let! k := peek_at i in
    let! n := noninitial_path_segment_at (i + 1) in
    if kind_eqb k TokKind.Dot && n then next_ ((segs + 1)%nat, (i + 2)%nat) else break_ (segs, i))
    (1%nat, 1%nat) in
  let! k := peek_at i in
  let! n := identifier_at (i + 1) in
  let! c := peek_at (i + 2) in
  ret (if kind_eqb k TokKind.LBrace && n && is_colon c then Some segs else None).

(** [binop]: the operator, its binding power and how many tokens it spans. *)
Definition binop_of (k k1 : TokKind) : option (BinOp * Z * nat) :=
  match k, k1 with
  | TokKind.Lt, TokKind.Lt => Some (BO_Shl, 5, 2%nat)
  | TokKind.Gt, TokKind.Gt => Some (BO_Shr, 5, 2%nat)
  | TokKind.OrOr, _ => Some (BO_Or, 1, 1%nat)
  | TokKind.AndAnd, _ => Some (BO_And, 2, 1%nat)
  | TokKind.EqEq, _ => Some (BO_Eq, 3, 1%nat)
  | TokKind.NotEq, _ => Some (BO_Ne, 3, 1%nat)
  | TokKind.Lt, _ => Some (BO_Lt, 3, 1%nat)
  | TokKind.Le, _ => Some (BO_Le, 3, 1%nat)
  | TokKind.Gt, _ => Some (BO_Gt, 3, 1%nat)
  | TokKind.Ge, _ => Some (BO_Ge, 3, 1%nat)
  | TokKind.Plus, _ => Some (BO_Add, 4, 1%nat)
  | TokKind.Minus, _ => Some (BO_Sub, 4, 1%nat)
  | TokKind.Pipe, _ => Some (BO_BitOr, 4, 1%nat)
  | TokKind.Caret, _ => Some (BO_BitXor, 4, 1%nat)
  | TokKind.Star, _ => Some (BO_Mul, 5, 1%nat)
  | TokKind.Slash, _ => Some (BO_Div, 5, 1%nat)
  | TokKind.Percent, _ => Some (BO_Rem, 5, 1%nat)
  | TokKind.Amp, _ => Some (BO_BitAnd, 5, 1%nat)
  | _, _ => None
  end.
Definition binop : M (option (BinOp * Z * nat)) :=
  let! k := peek in let! k1 := peek_at 1 in ret (binop_of k k1).

(** [for _ in 0..n { self.bump(); }] *)
Fixpoint bump_n (n : nat) : M unit :=
  match n with O => ret tt | S n => let! _ := bump in bump_n n end.

(** ** Attributes *)

(** [align(N)] *)
Definition is_power_of_two (n : Z) : bool := (0 <? n) && (Z.land n (n - 1) =? 0).

Definition parse_align_attr : M (option Z) :=
  let! _ := bump in
  let! _ := expect TokKind.LParen (str "'(' after `align`") in
  let! sp := cur_span in
  let! k := peek in
  match k with
  | TokKind.Int n =>
    let! _ := bump in
    let! _ := expect TokKind.RParen (str "')'") in
    if (n <=? 0) || negb (is_power_of_two n) then
      let! _ := err (str "an alignment must be a positive power of two, got " ++ show_int n) sp in ret None
    else if n <=? 2 ^ 29 then ret (Some n)
    else let! _ := err (str "alignment " ++ show_int n ++ str " is too large") sp in ret None
  | _ =>
    let! _ := err (str "`align(N)` needs an integer alignment") sp in
    let! _ := eat TokKind.RParen in
    ret None
  end.

Definition parse_layout_attr (c_repr : bool) : M bool :=
  let! _ := bump in
  let! _ := expect TokKind.LParen (str "'(' after `layout`") in
  let! sp := cur_span in
  let! k := peek in
  let! c_repr :=
    (if is_word (str "C") k then let! _ := bump in ret true
     else
       let! _ := err (str "`layout(C)` is the only supported layout attribute") sp in
       let! c := at_close TokKind.RParen in
       if negb c then let! _ := bump in ret c_repr else ret c_repr) in
  let! _ := expect TokKind.RParen (str "')'") in
  ret c_repr.

Definition parse_type_attrs : M (option Z * bool) :=
  loop_ (λ '(align, c_repr),
    let! k0 := peek in
    let! k1 := peek_at 1 in
    if is_word (str "align") k0 && is_lparen k1 then
      let! a := parse_align_attr in
      next_ (match a with Some _ => a | None => align end, c_repr)
    else if is_word (str "layout") k0 && is_lparen k1 then
      let! c_repr := parse_layout_attr c_repr in
      next_ (align, c_repr)
    else break_ (align, c_repr)) (None, false).

(** ** Expressions, statements and blocks *)

(** The recursive entry points: [parse_expr], [parse_prefix] for an operator
    chain, [parse_if] for an [else if] chain, and [parse_expr(0)] of the
    sub-parser a template hole is parsed with. *)
Record Knot := MkKnot {
  k_expr : Z → M (option Expr);
  k_prefix : M (option Expr);
  k_if : M (option Expr);
  k_sub : M (option Expr)
}.

(** [u32] additions and subtractions with the overflow check of a debug build *)
Definition u32_add (a b : Z) : res Z := if a + b <=? U32_MAX then Ret (a + b) else Panic.
Definition u32_decr (a : Z) : res Z := if 0 <? a then Ret (a - 1) else Panic.

(** The guard around [parse_expr_inner] and [parse_prefix_inner]. *)
Definition guarded (inner : M (option Expr)) : M (option Expr) :=
  λ s,
  let* d := u32_incr (depth s) in
  let s := set_depth s d in
  if MAX_EXPR_DEPTH <? depth s then
    let* d := u32_decr (depth s) in
    (let! _ := err_here (str "expression nests too deeply") in ret None) (set_depth s d)
  else
    let* '(r, s) := inner s in
    let* d := u32_decr (depth s) in
    Ret (r, set_depth s d).

(** [mem::replace(&mut self.no_struct_literal, b)] around a computation. *)
Definition with_nsl {A} (b : bool) (m : M A) : M A :=
  λ s, let saved := no_struct_literal s in
       let* '(a, s) := m (set_nsl s b) in Ret (a, set_nsl s saved).

(** [Span] shifted into the template literal *)
Definition remap (base : Z) (sp : Span) : res Span :=
  let* l := u32_add (lo sp) base in
  let* h := u32_add (hi sp) base in
  Ret (MkSpan (file sp) l h).

Fixpoint map_res {A B} (f : A → res B) (l : list A) : res (list B) :=
  match l with
  | [] => Ret []
  | a :: l => let* b := f a in let* bs := map_res f l in Ret (b :: bs)
  end.

Definition remap_token (base : Z) (t : Token) : res Token :=
  let* sp := remap base (span t) in Ret (MkToken (kind t) sp (integer_radix t)).
Definition remap_diag (base : Z) (d : Diagnostic) : res Diagnostic :=
  match d_span d with
  | None => Ret d
  | Some sp => let* sp := remap base sp in Ret (MkDiagnostic (severity d) (message d) (Some sp))
  end.

Section Grammar.
Context (k : Knot).

(** [parse_hole_expr]: lex and parse the hole in a private sub-parser that
    shares the diagnostics. *)
Definition parse_hole_expr (src : bytes) (str_span : Span) (off : nat) : M Expr :=
  λ s,
  let* base := u32_add (lo str_span) 1 in
  let* base := u32_add base (u32_of off) in
  let* '(toks, hole_diags) := tokenize (file str_span) src diags_new in
  let* toks := map_res (remap_token base) toks in
  let* ds := map_res (remap_diag base) (items hole_diags) in
  let sub := MkParser toks 0 (foldl Diag.push (pdiags s) ds) false 0 (rejected_identifiers s) in
  let* '(expr, sub) :=
    (let! expr := k_sub k in
     let! _ := skip_ends in
     let! next := peek in
     let! _ :=
       (match expr with
        | Some _ =>
          if negb (kind_eqb next TokKind.Eof)
          then err_here (str "a template hole must be a single expression") else ret tt
        | None => ret tt
        end) in
     ret expr) sub in
  let* hole_hi := u32_add base (u32_of (length src)) in
  let hole_span := MkSpan (file str_span) base hole_hi in
  Ret (match expr with Some e => e | None => MkExpr EK_Unit hole_span end, set_pdiags s (pdiags sub)).

Definition parse_delimited_expr (min_bp : Z) : M (option Expr) := with_nsl false (k_expr k min_bp).

(** *** Statements *)
Definition parse_let_tuple : M (option Stmt) :=
  let! start := cur_span in
  let! _ := bump in
  let? names := loop_ (λ names,
    let% id := parse_ident (str "binding name or '_'") in
    let names := names ++ [if bytes_eqb (id_name id) (str "_") then None else Some id] in
    let! c := eat TokKind.RParen in
    if c : bool then break_ (Some names) else
    let! _ := expect TokKind.Comma (str "','") in
    let! c := eat TokKind.RParen in
    if c : bool then break_ (Some names) else next_ names) [] in
  let! _ := expect TokKind.ColonEq (str "':='") in
  let? init := k_expr k 0 in
  let! _ := expect_stmt_end in
  let! sp := span_from start in
  ret (Some (St_LetTuple names init sp)).

(** The optional [: Type] of a binding *)
Definition parse_opt_type (intro : TokKind) : M (option (option Ty)) :=
  let! c := eat intro in
  if c : bool then let? t := parse_type in ret (Some (Some t)) else ret (Some None).

Definition parse_let (align : option Z) : M (option Stmt) :=
  let! m := at_ TokKind.Mut in
  let! k1 := peek_at 1 in
  let! is_mut := (if m && negb (is_binding_colon k1) then eat TokKind.Mut else ret false) in
  let? name := parse_ident (str "variable name") in
  let? ty := parse_opt_type TokKind.Colon in
  let! _ := expect TokKind.ColonEq (str "':='") in
  let? init := k_expr k 0 in
  let! _ := expect_stmt_end in
  ret (Some (St_Let is_mut name ty init align)).

(** The optional value of [return] and [break] *)
Definition parse_opt_value : M (option (option Expr)) :=
  let! e := at_stmt_end in
  let! b := at_ TokKind.RBrace in
  if e || b then ret (Some None) else let? v := k_expr k 0 in ret (Some (Some v)).

Definition parse_return : M (option Stmt) :=
  let! _ := bump in
  let? value := parse_opt_value in
  let! _ := expect_stmt_end in
  ret (Some (St_Return value)).

Definition parse_break : M (option Stmt) :=
  let! sp := cur_span in
  let! _ := bump in
  let? value := parse_opt_value in
  let! _ := expect_stmt_end in
  ret (Some (St_Break value sp)).

(** The C/Rust control words rejected at statement position. *)
Definition foreign_word (kd : TokKind) : option bytes :=
  if is_word (str "for") kd then Some (str "for")
  else if is_word (str "while") kd then Some (str "while")
  else if is_word (str "continue") kd then Some (str "continue")
  else None.
Definition foreign_hint (kw : bytes) : bytes :=
  if bytes_eqb kw (str "continue")
  then str "there is no `continue`; guard the rest of the iteration with an `if`"
  else str "traverse data with a pipeline (`map`/`where`/`reduce`), or use `loop { ... break }` for control flow".

(** A statement that starts with a keyword or a binding form; [None] when an
    expression statement follows. *)
Definition parse_stmt_form : M (option (M (option Stmt))) :=
  let! destructure := looks_like_destructure in
  if destructure : bool then ret (Some parse_let_tuple) else
  let! aligned := looks_like_aligned_binding in
  if aligned : bool then ret (Some (let! align := parse_align_attr in parse_let align)) else
  let! m := at_ TokKind.Mut in
  let! id := identifier_at 0 in
  let! k1 := peek_at 1 in
  if m || (id && is_binding_colon k1) then ret (Some (parse_let None)) else
  let! r := at_ TokKind.Return in
  if r : bool then ret (Some parse_return) else
  let! b := at_ TokKind.Break in
  if b : bool then ret (Some parse_break) else ret None.

(** An expression statement or the block's tail: [inl] a statement, [inr] the
    tail, which ends the block. *)
Definition parse_expr_stmt : M (option (Stmt + Expr)) :=
  let? e := k_expr k 0 in
  let! assign := eat TokKind.Eq in
  if assign : bool then
    let? value := k_expr k 0 in
    let! _ := expect_stmt_end in
    ret (Some (inl (St_Assign e value)))
  else
    let! e_end := at_stmt_end in
    if e_end : bool then
      let! _ := bump in
      let! _ := skip_ends in
      let! close := at_ TokKind.RBrace in
      if close : bool then ret (Some (inr e)) else ret (Some (inl (St_Expr e)))
    else ret (Some (inr e)).

(** The statement loop of [parse_block]. *)
Definition block_loop : M (option (list Stmt * option Expr)) :=
  loop_ (λ stmts,
    let! _ := skip_ends in
    let! c := at_close TokKind.RBrace in
    if c : bool then break_ (Some (stmts, None)) else
    let! kd := peek in
    match foreign_word kd with
    | Some kw =>
      let! _ := err_here (str "`" ++ kw ++ str "` does not exist in Align: " ++ foreign_hint kw) in
      break_ None
    | None =>
      let! form := parse_stmt_form in
      match form with
      | Some m => let% st := m in next_ (stmts ++ [st])
      | None =>
        let% r := parse_expr_stmt in
        match r with
        | inl st => next_ (stmts ++ [st])
        | inr e => break_ (Some (stmts, Some e))
        end
      end
    end) [].

Definition parse_block : M (option Block) :=
  let! start := cur_span in
  let! _ := expect TokKind.LBrace (str "'{'") in
  let? '(stmts, tail) := block_loop in
  let! _ := expect TokKind.RBrace (str "'}'") in
  let! sp := span_from start in
  ret (Some (MkBlock stmts tail sp)).

Definition block_expr (b : Block) : Expr := MkExpr (EK_Block b) (block_span b).

(** *** [if], [match] and literals *)
Definition parse_if : M (option Expr) :=
  let! start := cur_span in
  let! _ := bump in
  let! cond := with_nsl true (k_expr k 0) in
  let? cond := ret cond in
  let? then_ := parse_block in
  let! has_else := eat TokKind.Else in
  let? els :=
    (if has_else : bool then
       let! chain := at_ TokKind.If in
       if chain : bool then let? e := k_if k in ret (Some (Some e))
       else let? b := parse_block in ret (Some (Some (block_expr b)))
     else ret (Some None)) in
  let! sp := span_from start in
  ret (Some (MkExpr (EK_If cond then_ els) sp)).

Definition parse_arm : M (option MatchArm) :=
  let! astart := cur_span in
  let? pattern := parse_arm_pattern in
  let! _ := expect TokKind.FatArrow (str "'=>'") in
  let? body := k_expr k 0 in
  let! sp := span_from astart in
  let! _ := eat TokKind.Comma in
  ret (Some (MkMatchArm pattern body sp)).

Definition parse_match : M (option Expr) :=
  let! start := cur_span in
  let! _ := bump in
  let! scrutinee := with_nsl true (k_expr k 0) in
  let? scrutinee := ret scrutinee in
  let! _ := expect TokKind.LBrace (str "'{'") in
  let? arms := line_list TokKind.RBrace parse_arm in
  let! _ := expect TokKind.RBrace (str "'}'") in
  let! sp := span_from start in
  ret (Some (MkExpr (EK_Match scrutinee arms) sp)).

(** [for _ in 1..segs { expect(Dot); push(segment()?) }] *)
Fixpoint struct_segments (n : nat) (acc : list Ident) : M (option (list Ident)) :=
  match n with
  | O => ret (Some acc)
  | S n =>
    let! _ := expect TokKind.Dot (str "'.'") in
    let? id := parse_noninitial_path_segment (str "type name") in
    struct_segments n (acc ++ [id])
  end.

Definition parse_field_init : M (option FieldInit) :=
  let! fstart := cur_span in
  let? fname := parse_referenced_ident (str "field name") in
  let! _ := expect TokKind.Colon (str "':'") in
  let? value := parse_delimited_expr 0 in
  let! sp := span_from fstart in
  let! _ := eat TokKind.Comma in
  ret (Some (MkFieldInit fname value sp)).

Definition parse_struct_lit (segs : nat) : M (option Expr) :=
  let! start := cur_span in
  let? first := parse_ident (str "type name") in
  let? segments := struct_segments (segs - 1) [first] in
  let! nsp := span_from start in
  let name := MkPath segments nsp in
  let! _ := expect TokKind.LBrace (str "'{'") in
  let? fields := line_list TokKind.RBrace parse_field_init in
  let! _ := expect TokKind.RBrace (str "'}'") in
  let! sp := span_from start in
  ret (Some (MkExpr (EK_StructLit name fields) sp)).

(** *** Primary expressions *)

(** The follow set that lets a rejected reserved word stand for a name. *)
Definition recovery_follow (kd : TokKind) : bool :=
  match kd with
  | TokKind.LParen | TokKind.LBracket | TokKind.Lt | TokKind.Gt | TokKind.Dot | TokKind.RParen
  | TokKind.RBracket | TokKind.RBrace | TokKind.Semicolon | TokKind.End_ | TokKind.Eof | TokKind.Comma
  | TokKind.Question | TokKind.Eq | TokKind.Plus | TokKind.Minus | TokKind.Star | TokKind.Slash
  | TokKind.Percent | TokKind.EqEq | TokKind.NotEq | TokKind.Le | TokKind.Ge | TokKind.AndAnd
  | TokKind.OrOr | TokKind.Amp | TokKind.Pipe | TokKind.Caret | TokKind.As => true
  | _ => false
  end.
Definition recovery_head (kd k1 : TokKind) : bool :=
  match kd with
  | TokKind.True_ | TokKind.False_ => false
  | TokKind.If | TokKind.Match =>
    match k1 with
    | TokKind.LParen | TokKind.LBracket | TokKind.Minus | TokKind.Dot => false
    | _ => recovery_follow k1
    end
  | _ => recovery_follow k1
  end.

(** The word to recover with at the cursor, if any. *)
Definition recovery_word : M (option bytes) :=
  let! kd := peek in
  let! k1 := peek_at 1 in
  match reserved_word kd with
  | Some word =>
    let! r := rejected word in
    ret (if r && recovery_head kd k1 then Some word else None)
  | None => ret None
  end.

(** A literal token's expression *)
Definition literal_of (kd : TokKind) : option ExprKind :=
  match kd with
  | TokKind.Int v => Some (EK_Int v)
  | TokKind.Float v => Some (EK_Float v)
  | TokKind.Char v => Some (EK_Char v)
  | TokKind.Str s => Some (EK_Str s)
  | TokKind.True_ => Some (EK_Bool true)
  | TokKind.False_ => Some (EK_Bool false)
  | _ => None
  end.

Definition parse_name_or_struct : M (option Expr) :=
  let! nsl := (λ s, Ret (no_struct_literal s, s)) in
  let! lit := (if negb nsl then struct_lit_path_len else ret None) in
  match lit with
  | Some segs => parse_struct_lit segs
  | None =>
    let? id := parse_ident (str "identifier") in
    ret (Some (MkExpr (EK_Path (MkPath [id] (id_span id))) (id_span id)))
  end.

Definition parse_template (sp : Span) : M (option Expr) :=
  let! _ := bump in
  let! str_span := cur_span in
  let! kd := peek in
  match kd with
  | TokKind.Str content =>
    let! _ := bump in
    let! raw := lift (split_template content) in
    let! parts := mapM (λ rp,
      match rp with
      | RP_Text s => ret (TP_Text s)
      | RP_Hole src off => let! e := parse_hole_expr src str_span off in ret (TP_Hole e)
      end) raw in
    let! sp := span_from sp in
    ret (Some (MkExpr (EK_Template parts) sp))
  | _ =>
    let! _ := err (str "expected a string literal after `template`") str_span in
    ret None
  end.

(** The bare, optionally typed parameters of a lambda. *)
Definition lambda_params : M (option (list LambdaParam)) :=
  let! kd := peek in
  if kind_eqb kd TokKind.LBrace then ret (Some []) else
  loop_ (λ ps,
    let% name := parse_ident (str "lambda parameter") in
    let% ty := parse_opt_type TokKind.Colon in
    let ps := ps ++ [MkLambdaParam name ty] in
    let! c := eat TokKind.Comma in
    if c : bool then next_ ps else break_ (Some ps)) [].

Definition parse_lambda : M (option Expr) :=
  let! start := cur_span in
  let! _ := bump in
  let? params := lambda_params in
  let? body := parse_block in
  let! sp := span_from start in
  ret (Some (MkExpr (EK_Lambda params body) sp)).

(** A keyword followed by a block: [loop], [unsafe], [task_group] *)
Definition parse_scope (mk : Block → ExprKind) : M (option Expr) :=
  let! start := cur_span in
  let! _ := bump in
  let? block := parse_block in
  let! sp := span_from start in
  ret (Some (MkExpr (mk block) sp)).

Definition parse_arena : M (option Expr) :=
  let! start := cur_span in
  let! _ := bump in
  let! named := identifier_at 0 in
  let! name := (if named : bool then parse_ident (str "arena binding") else ret None) in
  let? block := parse_block in
  let! sp := span_from start in
  ret (Some (MkExpr (match name with Some name => EK_NamedArena name block | None => EK_Arena block end) sp)).

(** The relaxation options of [float(...)]. *)
Definition float_options : M (option (list Ident)) :=
  let! kd := peek in
  if kind_eqb kd TokKind.RParen then ret (Some []) else
  loop_ (λ os,
    let% o := parse_ident (str "floating-point relaxation option") in
    let! c := eat TokKind.Comma in
    if c : bool then next_ (os ++ [o]) else break_ (Some (os ++ [o]))) [].

Definition parse_float_scope : M (option Expr) :=
  let! start := cur_span in
  let! _ := bump in
  let! open := eat TokKind.LParen in
  if negb open then let! _ := err_here (str "expected `(` after `float`") in ret None else
  let? options := float_options in
  let! close := eat TokKind.RParen in
  if negb close
  then let! _ := err_here (str "expected `)` after floating-point relaxation options") in ret None else
  let? block := parse_block in
  let! sp := span_from start in
  ret (Some (MkExpr (EK_FloatScope options block) sp)).

Definition parse_paren (sp : Span) : M (option Expr) :=
  let! _ := bump in
  let! unit_ := at_ TokKind.RParen in
  if unit_ : bool then
    let! _ := bump in
    let! sp := span_from sp in
    ret (Some (MkExpr EK_Unit sp))
  else
    let? first := parse_delimited_expr 0 in
    let? elems := loop_ (λ elems,
      let! c := eat TokKind.Comma in
      if c : bool then
        let! close := at_ TokKind.RParen in
        if close : bool then break_ (Some elems)
        else let% e := parse_delimited_expr 0 in next_ (elems ++ [e])
      else break_ (Some elems)) [first] in
    let! _ := expect TokKind.RParen (str "')'") in
    let! sp := span_from sp in
    ret (Some (group_or_tuple (λ es, MkExpr (EK_Tuple es) sp) elems)).

Definition parse_array_lit : M (option Expr) :=
  let! start := cur_span in
  let! _ := bump in
  let? elems := loop_ (λ elems,
    let! _ := skip_ends in
    let! c := at_close TokKind.RBracket in
    if c : bool then break_ (Some elems) else
    let% e := parse_delimited_expr 0 in
    let! _ := skip_ends in
    let! m := eat TokKind.Comma in
    if m : bool then next_ (elems ++ [e]) else break_ (Some (elems ++ [e]))) [] in
  let! _ := skip_ends in
  let! _ := expect TokKind.RBracket (str "']'") in
  let! sp := span_from start in
  ret (Some (MkExpr (EK_ArrayLit elems) sp)).

Definition parse_field_shorthand (sp : Span) : M (option Expr) :=
  let! _ := bump in
  let? field := parse_referenced_ident (str "field name") in
  let! sp := span_from sp in
  ret (Some (MkExpr (EK_FieldShorthand field) sp)).

Definition parse_primary : M (option Expr) :=
  let! sp := cur_span in
  let! word := recovery_word in
  match word with
  | Some word =>
    let! _ := bump in
    ret (Some (MkExpr (EK_Path (MkPath [MkIdent word sp] sp)) sp))
  | None =>
    let! kd := peek in
    let! id1 := identifier_at 1 in
    match literal_of kd with
    | Some lit => let! _ := bump in ret (Some (MkExpr lit sp))
    | None =>
      match kd with
      | TokKind.Ident _ => parse_name_or_struct
      | TokKind.Dot =>
        if id1 : bool then parse_field_shorthand sp
        else let! _ := err (str "expected expression") sp in ret None
      | TokKind.Template => parse_template sp
      | TokKind.Fn => parse_lambda
      | TokKind.If => parse_if
      | TokKind.Loop => parse_scope EK_Loop
      | TokKind.Arena => parse_arena
      | TokKind.FloatScope => parse_float_scope
      | TokKind.Unsafe => parse_scope EK_Unsafe
      | TokKind.TaskGroup => parse_scope EK_TaskGroup
      | TokKind.Match => parse_match
      | TokKind.LParen => parse_paren sp
      | TokKind.LBrace => let? b := parse_block in ret (Some (block_expr b))
      | TokKind.LBracket => parse_array_lit
      | _ => let! _ := err (str "expected expression") sp in ret None
      end
    end
  end.

(** *** Postfix, prefix, cast and binary expressions *)
Definition parse_call (e : Expr) : M (option Expr) :=
  let! _ := bump in
  let? args := comma_list TokKind.RParen (parse_delimited_expr 0) in
  let! _ := expect TokKind.RParen (str "')'") in
  let! sp := span_from (expr_span e) in
  ret (Some (MkExpr (EK_Call e args) sp)).

(** The [..] and optional end of a range slice whose start is [start]. *)
Definition parse_slice_end (e : Expr) (start : option Expr) : M (option Expr) :=
  let! _ := bump in
  let! close := at_ TokKind.RBracket in
  let? end_ :=
    (if close : bool then ret (Some None)
     else let? x := parse_delimited_expr 0 in ret (Some (Some x))) in
  let! _ := expect TokKind.RBracket (str "']'") in
  let! sp := span_from (expr_span e) in
  ret (Some (MkExpr (EK_SliceRange e start end_) sp)).

Definition parse_index (e : Expr) : M (option Expr) :=
  let! _ := bump in
  let! range := at_ TokKind.DotDot in
  if range : bool then parse_slice_end e None
  else
    let? first := parse_delimited_expr 0 in
    let! range := at_ TokKind.DotDot in
    if range : bool then parse_slice_end e (Some first)
    else
      let! _ := expect TokKind.RBracket (str "']'") in
      let! sp := span_from (expr_span e) in
      ret (Some (MkExpr (EK_Index e first) sp)).

(** [u32::try_from(v).unwrap_or(u32::MAX)] *)
Definition tuple_index (v : Z) : Z := if (0 <=? v) && (v <=? U32_MAX) then v else U32_MAX.

(** One postfix operator applied to [e]; [None] when there is none. *)
Definition parse_postfix_op (e : Expr) : M (option (M (option Expr))) :=
  let! kd := peek in
  let! seg := noninitial_path_segment_at 1 in
  let! k1 := peek_at 1 in
  match kd with
  | TokKind.LParen => ret (Some (parse_call e))
  | TokKind.Question =>
    ret (Some (let! _ := bump in
               let! sp := span_from (expr_span e) in
               ret (Some (MkExpr (EK_Try e) sp))))
  | TokKind.Dot =>
    if seg : bool then
      ret (Some (let! _ := bump in
                 let? field := parse_noninitial_path_segment (str "field or method name") in
                 let! sp := merge_ (expr_span e) (id_span field) in
                 ret (Some (MkExpr (EK_FieldAccess e field) sp))))
    else
      match k1 with
      | TokKind.Int v =>
        ret (Some (let! _ := bump in
                   let! ispan := cur_span in
                   let! _ := bump in
                   let! sp := merge_ (expr_span e) ispan in
                   ret (Some (MkExpr (EK_TupleIndex e (tuple_index v)) sp))))
      | _ => ret None
      end
  | TokKind.LBracket => ret (Some (parse_index e))
  | _ => ret None
  end.

Definition parse_postfix : M (option Expr) :=
  let? e := parse_primary in
  loop_ (λ e,
    let! op := parse_postfix_op e in
    match op with
    | Some m => let% e := m in next_ e
    | None => break_ (Some e)
    end) e.

Definition unop_of (kd : TokKind) : option UnOp :=
  match kd with
  | TokKind.Minus => Some UO_Neg
  | TokKind.Bang => Some UO_Not
  | TokKind.Tilde => Some UO_BitNot
  | _ => None
  end.

Definition parse_prefix_inner : M (option Expr) :=
  let! start := cur_span in
  let! kd := peek in
  match unop_of kd with
  | Some op =>
    let! _ := bump in
    let? e := k_prefix k in
    let! sp := merge_ start (expr_span e) in
    ret (Some (MkExpr (EK_Unary op e) sp))
  | None => parse_postfix
  end.

Definition parse_prefix : M (option Expr) := guarded parse_prefix_inner.

Definition parse_cast_type : M (option Ty) :=
  let! path := parse_path in
  match segments path with
  | [] => ret None
  | _ => ret (Some (Ty_Named path [] (path_span path)))
  end.

Definition parse_cast : M (option Expr) :=
  let? e := parse_prefix in
  loop_ (λ e,
    let! a := at_ TokKind.As in
    if a : bool then
      let! _ := bump in
      let% ty := parse_cast_type in
      let! sp := merge_ (expr_span e) (ty_span ty) in
      next_ (MkExpr (EK_Cast e ty) sp)
    else break_ (Some e)) e.

(** One turn of the left-associative binary loop, and the loop. *)
Definition binary_step (min_bp : Z) (lhs : Expr) : M (Expr + option Expr) :=
  let! o := binop in
  match o with
  | Some (op, bp, n) =>
    if bp <? min_bp then break_ (Some lhs) else
    let! _ := bump_n n in
    let% rhs := k_expr k (bp + 1) in
    let! sp := merge_ (expr_span lhs) (expr_span rhs) in
    next_ (MkExpr (EK_Binary op lhs rhs) sp)
  | None => break_ (Some lhs)
  end.

Definition binary_loop (min_bp : Z) (lhs : Expr) : M (option Expr) := loop_ (binary_step min_bp) lhs.

(** [opt else fallback] *)
Definition parse_else_unwrap (min_bp : Z) (lhs : Expr) : M (option Expr) :=
  let! els := at_ TokKind.Else in
  if (min_bp =? 0) && els then
    let! _ := bump in
    let! brace := at_ TokKind.LBrace in
    let? fallback :=
      (if brace : bool then let? b := parse_block in ret (Some (block_expr b)) else k_expr k 0) in
    let! sp := merge_ (expr_span lhs) (expr_span fallback) in
    ret (Some (MkExpr (EK_ElseUnwrap lhs fallback) sp))
  else ret (Some lhs).

Definition parse_expr_inner (min_bp : Z) : M (option Expr) :=
  let? lhs := parse_cast in
  let? lhs := binary_loop min_bp lhs in
  parse_else_unwrap min_bp lhs.

Definition parse_expr (min_bp : Z) : M (option Expr) := guarded (parse_expr_inner min_bp).
End Grammar.

(** ** Tying the knot

    Every recursive call happens after a token was consumed, so the number of
    remaining tokens bounds the recursion; a template hole is parsed by a
    parser of its own, one template level down, with fuel of its own. *)
Fixpoint knot_fuel (sub : M (option Expr)) (fuel : nat) : Knot :=
  match fuel with
  | O => MkKnot (λ _, stuck) stuck stuck sub
  | S fuel =>
    let k := knot_fuel sub fuel in
    MkKnot (parse_expr k) (parse_prefix k) (parse_if k) sub
  end.

Definition top_expr (sub : M (option Expr)) : M (option Expr) :=
  λ s, k_expr (knot_fuel sub (S (S (length (ptokens s))))) 0 s.

(** A hole contains no closing brace, so a template inside it has no holes:
    one level of sub-parsers is all there is. *)
Definition hole_expr : M (option Expr) := top_expr stuck.

Definition knot_for (s : Parser) : Knot := knot_fuel hole_expr (S (length (ptokens s))).
Definition with_knot {A} (f : Knot → M A) : M A := λ s, f (knot_for s) s.

(** ** Items *)

(** [<T, U: Ord>] *)
Definition parse_type_params : M (option (list TypeParam)) :=
  let! lt := eat TokKind.Lt in
  if lt : bool then
    let? ps := comma_list TokKind.Gt
      (let? name := parse_ident (str "a type parameter name") in
       let! c := eat TokKind.Colon in
       let? bound :=
         (if c : bool then let? b := parse_ident (str "a bound (Eq, Ord, or Num)") in ret (Some (Some b))
          else ret (Some None)) in
       ret (Some (MkTypeParam name bound))) in
    let! _ := expect TokKind.Gt (str "'>'") in
    ret (Some ps)
  else ret (Some []).

Definition test_shape_message : bytes :=
  str "a test declaration must be `test " ++ [dquote] ++ str "name" ++ [dquote]
  ++ str " { ... }` with no parameters, type parameters, return type, expression body, attributes, or declaration name".

(** [while !matches!(self.peek(), ...) { self.bump(); }] *)
Definition skip_until (stop : TokKind → bool) : M unit :=
  loop_ (λ _, let! kd := peek in if stop kd then break_ tt else let! _ := bump in next_ tt) tt.

Definition parse_test (vis : Vis) : M (option TestDecl) :=
  let! start := cur_span in
  let! _ := bump in
  let! name_token := bump in
  let name_span := span name_token in
  match kind name_token with
  | TokKind.Str name =>
    let! _ := (match vis with
               | Pub => err (str "a test declaration is private and cannot be `pub`") start
               | Private => ret tt
               end) in
    let! brace := at_ TokKind.LBrace in
    let? _ :=
      (if brace : bool then ret (Some tt) else
       let! _ := err_here test_shape_message in
       let! _ := skip_until (λ kd, match kd with
         | TokKind.LBrace | TokKind.End_ | TokKind.Semicolon | TokKind.Eof => true | _ => false end) in
       let! e := at_stmt_end in
       let! f := at_ TokKind.Eof in
       if e || f then ret None else ret (Some tt)) in
    let? body := with_knot parse_block in
    let! sp := merge_ start (block_span body) in
    ret (Some (MkTestDecl name name_span body sp))
  | _ => let! _ := err (str "a test declaration requires a string name") name_span in ret None
  end.

Definition parse_resource (vis : Vis) : M (option ResourceDecl) :=
  let! start := cur_span in
  let! _ := bump in
  let? name := parse_ident (str "resource name") in
  let? type_params := parse_type_params in
  let! _ := expect TokKind.Eq (str "'='") in
  let! drop_hook := parse_path in
  let! _ := eat_stmt_end in
  let! sp := span_from start in
  ret (Some (MkResourceDecl vis name type_params drop_hook sp)).

Definition set_expr_span (e : Expr) (sp : Span) : Expr := MkExpr (expr_kind e) sp.

Definition parse_const (vis : Vis) : M (option Item) :=
  let! start := cur_span in
  let? name := parse_ident (str "constant name") in
  let? ty := parse_opt_type TokKind.Colon in
  let! _ := expect TokKind.ColonEq (str "':='") in
  let! value_start := cur_span in
  let? value := with_knot (λ k, parse_expr k 0) in
  let! vsp := span_from value_start in
  let value := set_expr_span value vsp in
  let! _ := eat_stmt_end in
  let! sp := span_from start in
  ret (Some (It_Const (MkConstDecl vis name ty value sp))).

Definition parse_field_def : M (option FieldDef) :=
  let! fstart := cur_span in
  let? fname := parse_ident (str "field name") in
  let! _ := expect TokKind.Colon (str "':'") in
  let? ty := parse_type in
  let! sp := span_from fstart in
  let! _ := eat TokKind.Comma in
  ret (Some (MkFieldDef fname ty sp)).

Definition parse_variant : M (option VariantDef) :=
  let! vstart := cur_span in
  let? vname := parse_ident (str "variant name") in
  let! paren := eat TokKind.LParen in
  let? payload :=
    (if paren : bool then
       let? ts := loop_ (λ ts,
         let! _ := skip_ends in
         let! c := at_close TokKind.RParen in
         if c : bool then break_ (Some ts) else
         let% t := parse_type in
         let! m := eat TokKind.Comma in
         if m : bool then next_ (ts ++ [t]) else break_ (Some (ts ++ [t]))) [] in
       let! _ := expect TokKind.RParen (str "')'") in
       ret (Some ts)
     else ret (Some [])) in
  let! sp := span_from vstart in
  let! _ := eat TokKind.Comma in
  ret (Some (MkVariantDef vname payload sp)).

Definition parse_type_decl (vis : Vis) (align : option Z) (c_repr : bool) : M (option Item) :=
  let! start := cur_span in
  let? name := parse_ident (str "type name") in
  let? type_params := parse_type_params in
  let! _ := expect TokKind.LBrace (str "'{'") in
  let! _ := skip_ends in
  let! close := at_ TokKind.RBrace in
  let! k1 := peek_at 1 in
  if close || is_colon k1 then
    let? fields := line_list TokKind.RBrace parse_field_def in
    let! _ := expect TokKind.RBrace (str "'}'") in
    let! sp := span_from start in
    ret (Some (It_Struct (MkStructDecl vis name type_params fields align c_repr sp)))
  else
    let! _ := (match align with
               | Some _ => err (str "`align(N)` applies to a struct, not a sum type") start
               | None => ret tt
               end) in
    let! _ := (if c_repr then err (str "`layout(C)` applies to a struct, not a sum type") start else ret tt) in
    let? variants := line_list TokKind.RBrace parse_variant in
    let! _ := expect TokKind.RBrace (str "'}'") in
    let! sp := span_from start in
    ret (Some (It_Enum (MkEnumDecl vis name type_params variants sp))).

(** The mode prefix of a declared parameter: a weak keyword, a mode only when
    the whole [mode name :] shape is there. *)
Definition param_mode : M ParamMode :=
  let! k0 := peek in let! k1 := peek_at 1 in
  let! id1 := identifier_at 1 in let! id2 := identifier_at 2 in
  let! k2 := peek_at 2 in let! k3 := peek_at 3 in
  if is_word (str "out") k0 && id1 && is_colon k2 then let! _ := bump in ret Out
  else if is_word (str "borrow") k0 && kind_eqb k1 TokKind.Mut && id2 && is_colon k3
  then let! _ := bump in let! _ := bump in ret BorrowMut
  else if is_word (str "borrow") k0 && id1 && is_colon k2 then let! _ := bump in ret Borrow
  else ret ByValue.

(** One [name: Type] parameter with its mode already read. *)
Definition parse_param (mode : M ParamMode) : M (option Param) :=
  let! m := mode in
  let? pname := parse_ident (str "parameter name") in
  let! _ := expect TokKind.Colon (str "':'") in
  let? ty := parse_type in
  ret (Some (MkParam m pname ty)).

Definition parse_fn (vis : Vis) : M (option FnDecl) :=
  let! start := cur_span in
  let! _ := bump in
  let? name := parse_ident (str "function name") in
  let? type_params := parse_type_params in
  let! _ := expect TokKind.LParen (str "'('") in
  let? params := comma_list TokKind.RParen (parse_param param_mode) in
  let! _ := expect TokKind.RParen (str "')'") in
  let? r := parse_opt_type TokKind.Arrow in
  let! eq := eat TokKind.Eq in
  let? body :=
    (if eq : bool then
       let? e := with_knot (λ k, parse_expr k 0) in
       let! _ := eat_stmt_end in
       ret (Some (FB_Expr e))
     else let? b := with_knot parse_block in ret (Some (FB_Block b))) in
  let! sp := span_from start in
  ret (Some (MkFnDecl vis name type_params params r body sp)).

Definition parse_link_clause : M (option bytes) :=
  let message := str "`link(" ++ [dquote] ++ str "name" ++ [dquote]
    ++ str ")` needs a library-name string (e.g. `link(" ++ [dquote] ++ str "z" ++ [dquote] ++ str ")`)" in
  let! _ := bump in
  let! _ := expect TokKind.LParen (str "'(' after `link`") in
  let! kd := peek in
  let! name :=
    (match kd with
     | TokKind.Str s => let! _ := bump in ret (Some s)
     | TokKind.RParen | TokKind.Eof => let! _ := err_here message in ret None
     | _ => let! _ := err_here message in let! _ := bump in ret None
     end) in
  let! _ := expect TokKind.RParen (str "')'") in
  ret name.

Definition parse_extern_sig : M (option ExternSig) :=
  let! start := cur_span in
  let! _ := expect TokKind.Fn (str "'fn'") in
  let? name := parse_ident (str "function name") in
  let! _ := expect TokKind.LParen (str "'('") in
  let? params := comma_list TokKind.RParen (parse_param (ret ByValue)) in
  let! _ := expect TokKind.RParen (str "')'") in
  let? r := parse_opt_type TokKind.Arrow in
  let! _ := eat_stmt_end in
  let! sp := span_from start in
  ret (Some (MkExternSig name params r sp)).

Definition parse_extern : M (option ExternBlock) :=
  let! start := cur_span in
  let! _ := bump in
  let! kd := peek in
  match kd with
  | TokKind.Str abi =>
    let! _ := bump in
    let! k0 := peek in
    let! k1 := peek_at 1 in
    let! link := (if is_word (str "link") k0 && is_lparen k1 then parse_link_clause else ret None) in
    let! brace := eat TokKind.LBrace in
    let? fns :=
      (if brace : bool then
         let? fns := line_list TokKind.RBrace parse_extern_sig in
         let! _ := expect TokKind.RBrace (str "'}'") in
         ret (Some fns)
       else let? sig := parse_extern_sig in ret (Some [sig])) in
    let! sp := span_from start in
    ret (Some (MkExternBlock abi link fns sp))
  | _ =>
    let! _ := err_here (str "expected an ABI string after `extern` (e.g. `extern " ++ [dquote]
                        ++ str "C" ++ [dquote] ++ str "`)") in
    ret None
  end.

(** [.map(Item::X)] on an optional result *)
Definition map_opt {A B} (f : A → B) (m : M (option A)) : M (option B) :=
  let? a := m in ret (Some (f a)).

Definition parse_item : M (option Item) :=
  let! pub := eat TokKind.Pub in
  let vis := if pub then Pub else Private in
  let! k0 := peek in
  let! k1 := peek_at 1 in
  let! id1 := identifier_at 1 in
  if kind_eqb k0 TokKind.Extern then
    let! _ := (if pub
               then err_here (str "`pub` is not allowed on an `extern` declaration (a foreign symbol is already global)")
               else ret tt) in
    map_opt It_Extern parse_extern
  else if is_word (str "test") k0 && is_str k1 then map_opt It_Test (parse_test vis)
  else if kind_eqb k0 TokKind.Fn then map_opt It_Fn (parse_fn vis)
  else if is_word (str "resource") k0 && id1 then map_opt It_Resource (parse_resource vis)
  else if kind_eqb k0 TokKind.Mut then
    let! _ := err_here (str "a top-level constant is immutable; `mut` is not allowed here") in
    ret None
  else if (is_word (str "align") k0 || is_word (str "layout") k0) && is_lparen k1 then
    let! '(align, c_repr) := parse_type_attrs in
    parse_type_decl vis align c_repr
  else if is_ident k0 && (kind_eqb k1 TokKind.LBrace || kind_eqb k1 TokKind.Lt)
  then parse_type_decl vis None false
  else if is_ident k0 && is_binding_colon k1 then parse_const vis
  else
    let! _ := err_here (str "expected `fn`, a type declaration, or a constant (`NAME := …`) at top level") in
    ret None.

(** ** Files *)
Definition parse_module : M (option Path) :=
  let! m := at_ TokKind.Module_ in
  if m : bool then
    let! _ := bump in
    let! p := parse_path in
    let! _ := eat_stmt_end in
    ret (Some p)
  else ret None.

Definition parse_imports : M (list Path) :=
  loop_ (λ imports,
    let! _ := skip_ends in
    let! i := at_ TokKind.Import_ in
    if i : bool then
      let! _ := bump in
      let! p := parse_path in
      let! _ := eat_stmt_end in
      next_ (imports ++ [p])
    else break_ imports) [].

(** The tokens item recovery stops at. *)
Definition item_sync (kd : TokKind) : bool :=
  match kd with TokKind.Fn | TokKind.Eof | TokKind.End_ | TokKind.Semicolon => true | _ => false end.

Definition parse_items : M (list Item) :=
  loop_ (λ items,
    let! _ := skip_ends in
    let! e := at_ TokKind.Eof in
    if e : bool then break_ items else
    let! item := parse_item in
    match item with
    | Some item => next_ (items ++ [item])
    | None =>
      let! _ := bump in
      let! _ := skip_until item_sync in
      next_ items
    end) [].

(** [Parser::parse_file] *)
Definition parse_file_body : M File :=
  let! _ := skip_ends in
  let! module := parse_module in
  let! imports := parse_imports in
  let! items := parse_items in
  ret (MkFile module imports items).

Definition new_parser (toks : list Token) (d : Diagnostics) : Parser := MkParser toks 0 d false 0 [].
