(* ===== verification/Depth.v ===== *)
(** * The nesting ceiling ([crates/align_parser/src/lib.rs], [cap_expr_depths])

    The pass over the finished tree that truncates every expression nested
    deeper than [MAX_EXPR_DEPTH], and the worklist that drops what was cut
    without recursion. *)
From Stdlib Require Import ZArith Lia.
From S2P Require Import Prelude Span Diag Token Lexer Ast Parser.
Local Open Scope Z_scope.

(** ** Dropping a subtree with a worklist *)
Inductive DiscardExprTask :=
  | DT_Kind (k : ExprKind) | DT_Expr (e : Expr) | DT_Block (b : Block) | DT_Stmt (s : Stmt)
  | DT_Field (f : FieldInit) | DT_Arm (a : MatchArm) | DT_Template (p : TemplatePart).

(** The tasks one [ExprKind] pushes, in order. *)
Definition kind_tasks (k : ExprKind) : list DiscardExprTask :=
  match k with
  | EK_Unit | EK_Int _ | EK_Float _ | EK_Char _ | EK_Str _ | EK_Bool _ | EK_Path _ | EK_FieldShorthand _ => []
  | EK_Unary _ e | EK_Cast e _ | EK_Try e | EK_FieldAccess e _ | EK_TupleIndex e _ => [DT_Expr e]
  | EK_Binary _ lhs rhs => [DT_Expr lhs; DT_Expr rhs]
  | EK_Call callee args => DT_Expr callee :: map DT_Expr args
  | EK_If cond then_ els =>
    DT_Expr cond :: DT_Block then_ :: match els with Some e => [DT_Expr e] | None => [] end
  | EK_Block b | EK_Arena b | EK_NamedArena _ b | EK_FloatScope _ b | EK_Unsafe b | EK_TaskGroup b
  | EK_Loop b => [DT_Block b]
  | EK_StructLit _ fields => map DT_Field fields
  | EK_ElseUnwrap opt fallback => [DT_Expr opt; DT_Expr fallback]
  | EK_ArrayLit es | EK_Tuple es => map DT_Expr es
  | EK_Index recv index => [DT_Expr recv; DT_Expr index]
  | EK_SliceRange recv start end_ =>
    DT_Expr recv :: match start with Some e => [DT_Expr e] | None => [] end
    ++ match end_ with Some e => [DT_Expr e] | None => [] end
  | EK_Lambda _ body => [DT_Block body]
  | EK_Match scrutinee arms => DT_Expr scrutinee :: map DT_Arm arms
  | EK_Template parts => map DT_Template parts
  end.

Definition task_pushes (t : DiscardExprTask) : list DiscardExprTask :=
  match t with
  | DT_Kind k => kind_tasks k
  | DT_Expr (MkExpr k _) => [DT_Kind k]
  | DT_Block (MkBlock stmts tail _) =>
    match tail with Some e => [DT_Expr e] | None => [] end ++ map DT_Stmt stmts
  | DT_Stmt s =>
    match s with
    | St_Let _ _ _ init _ | St_LetTuple _ init _ => [DT_Expr init]
    | St_Assign place value => [DT_Expr place; DT_Expr value]
    | St_Return (Some e) | St_Break (Some e) _ | St_Expr e => [DT_Expr e]
    | St_Return None | St_Break None _ => []
    end
  | DT_Field (MkFieldInit _ value _) => [DT_Expr value]
  | DT_Arm (MkMatchArm _ body _) => [DT_Expr body]
  | DT_Template (TP_Hole e) => [DT_Expr e]
  | DT_Template (TP_Text _) => []
  end.

(** [while let Some(task) = pending.pop() { ... }]; the head of the list is the
    end of the vector. *)
Fixpoint discard_loop (fuel : nat) (pending : list DiscardExprTask) : res unit :=
  match pending with
  | [] => Ret tt
  | t :: rest =>
    match fuel with
    | O => OutOfFuel
    | S fuel => discard_loop fuel (reverse (task_pushes t) ++ rest)
    end
  end.

(** The number of nodes of a tree: each is popped once. *)
Definition sum_of {A} (f : A → nat) (l : list A) : nat := foldr (λ a n, (f a + n)%nat) 0%nat l.
Definition opt_of {A} (f : A → nat) (o : option A) : nat := match o with Some a => f a | None => 0%nat end.

Fixpoint expr_size (e : Expr) : nat :=
  match e with MkExpr k _ => S (kind_size k) end
with kind_size (k : ExprKind) : nat :=
  match k with
  | EK_Unit | EK_Int _ | EK_Float _ | EK_Char _ | EK_Str _ | EK_Bool _ | EK_Path _ | EK_FieldShorthand _ => 1
  | EK_Unary _ e | EK_Cast e _ | EK_Try e | EK_FieldAccess e _ | EK_TupleIndex e _ => S (expr_size e)
  | EK_Binary _ a b | EK_ElseUnwrap a b | EK_Index a b => S (expr_size a + expr_size b)
  | EK_Call callee args => S (expr_size callee + sum_of expr_size args)
  | EK_If cond then_ els => S (expr_size cond + (block_size then_ + opt_of expr_size els))
  | EK_Block b | EK_Arena b | EK_NamedArena _ b | EK_FloatScope _ b | EK_Unsafe b | EK_TaskGroup b
  | EK_Loop b | EK_Lambda _ b => S (block_size b)
  | EK_StructLit _ fields => S (sum_of field_size fields)
  | EK_ArrayLit es | EK_Tuple es => S (sum_of expr_size es)
  | EK_SliceRange recv a b => S (expr_size recv + (opt_of expr_size a + opt_of expr_size b))
  | EK_Match scrutinee arms => S (expr_size scrutinee + sum_of arm_size arms)
  | EK_Template parts => S (sum_of part_size parts)
  end
with block_size (b : Block) : nat :=
  match b with MkBlock stmts tail _ => S (opt_of expr_size tail + sum_of stmt_size stmts) end
with stmt_size (s : Stmt) : nat :=
  match s with
  | St_Let _ _ _ init _ | St_LetTuple _ init _ => S (expr_size init)
  | St_Assign place value => S (expr_size place + expr_size value)
  | St_Return v | St_Break v _ => S (opt_of expr_size v)
  | St_Expr e => S (expr_size e)
  end
with field_size (f : FieldInit) : nat := match f with MkFieldInit _ v _ => S (expr_size v) end
with arm_size (a : MatchArm) : nat := match a with MkMatchArm _ b _ => S (expr_size b) end
with part_size (p : TemplatePart) : nat :=
  match p with TP_Text _ => 1 | TP_Hole e => S (expr_size e) end.

Definition task_size (t : DiscardExprTask) : nat :=
  match t with
  | DT_Kind k => kind_size k | DT_Expr e => expr_size e | DT_Block b => block_size b
  | DT_Stmt s => stmt_size s | DT_Field f => field_size f | DT_Arm a => arm_size a
  | DT_Template p => part_size p
  end.

Definition discard_expr_tree (root : DiscardExprTask) : res unit := discard_loop (task_size root) [root].

(** ** The pass *)
Definition is_leaf_expr (k : ExprKind) : bool :=
  match k with
  | EK_Unit | EK_Int _ | EK_Float _ | EK_Char _ | EK_Str _ | EK_Bool _ | EK_Path _ | EK_FieldShorthand _ => true
  | _ => false
  end.

(** [for x in xs { f(x, d, diags) }] and [if let Some(x) = o { f(x, d, diags) }] *)
Definition cap_list {A} (f : A → Diagnostics → res (A * Diagnostics)) :
    list A → Diagnostics → res (list A * Diagnostics) :=
  fix go l ds :=
    match l with
    | [] => Ret ([], ds)
    | a :: l => let* '(a, ds) := f a ds in let* '(l, ds) := go l ds in Ret (a :: l, ds)
    end.
Definition cap_opt {A} (f : A → Diagnostics → res (A * Diagnostics)) (o : option A) (ds : Diagnostics) :
    res (option A * Diagnostics) :=
  match o with
  | Some a => let* '(a, ds) := f a ds in Ret (Some a, ds)
  | None => Ret (None, ds)
  end.

Definition too_deep : bytes := str "expression nests too deeply".

Fixpoint cap_expr_depth (e : Expr) (depth : Z) (ds : Diagnostics) {struct e} : res (Expr * Diagnostics) :=
  match e with
  | MkExpr k sp =>
    if MAX_EXPR_DEPTH <? depth then
      if negb (is_leaf_expr k) then
        let ds := error ds too_deep sp in
        let* _ := discard_expr_tree (DT_Kind k) in
        Ret (MkExpr EK_Unit sp, ds)
      else Ret (e, ds)
    else
      let d := depth + 1 in
      let* '(k, ds) :=
        match k with
        | EK_Unit | EK_Int _ | EK_Float _ | EK_Char _ | EK_Str _ | EK_Bool _ | EK_Path _
        | EK_FieldShorthand _ => Ret (k, ds)
        | EK_Unary op e => let* '(e, ds) := cap_expr_depth e d ds in Ret (EK_Unary op e, ds)
        | EK_Cast e t => let* '(e, ds) := cap_expr_depth e d ds in Ret (EK_Cast e t, ds)
        | EK_Try e => let* '(e, ds) := cap_expr_depth e d ds in Ret (EK_Try e, ds)
        | EK_FieldAccess e f => let* '(e, ds) := cap_expr_depth e d ds in Ret (EK_FieldAccess e f, ds)
        | EK_TupleIndex e i => let* '(e, ds) := cap_expr_depth e d ds in Ret (EK_TupleIndex e i, ds)
        | EK_Binary op a b =>
          let* '(a, ds) := cap_expr_depth a d ds in
          let* '(b, ds) := cap_expr_depth b d ds in Ret (EK_Binary op a b, ds)
        | EK_Call callee args =>
          let* '(callee, ds) := cap_expr_depth callee d ds in
          let* '(args, ds) := cap_list (λ a, cap_expr_depth a d) args ds in Ret (EK_Call callee args, ds)
        | EK_If cond then_ els =>
          let* '(cond, ds) := cap_expr_depth cond d ds in
          let* '(then_, ds) := cap_block_depth then_ d ds in
          let* '(els, ds) := cap_opt (λ e, cap_expr_depth e d) els ds in Ret (EK_If cond then_ els, ds)
        | EK_Block b => let* '(b, ds) := cap_block_depth b d ds in Ret (EK_Block b, ds)
        | EK_Arena b => let* '(b, ds) := cap_block_depth b d ds in Ret (EK_Arena b, ds)
        | EK_NamedArena n b => let* '(b, ds) := cap_block_depth b d ds in Ret (EK_NamedArena n b, ds)
        | EK_FloatScope o b => let* '(b, ds) := cap_block_depth b d ds in Ret (EK_FloatScope o b, ds)
        | EK_Unsafe b => let* '(b, ds) := cap_block_depth b d ds in Ret (EK_Unsafe b, ds)
        | EK_TaskGroup b => let* '(b, ds) := cap_block_depth b d ds in Ret (EK_TaskGroup b, ds)
        | EK_Loop b => let* '(b, ds) := cap_block_depth b d ds in Ret (EK_Loop b, ds)
        | EK_Lambda ps b => let* '(b, ds) := cap_block_depth b d ds in Ret (EK_Lambda ps b, ds)
        | EK_StructLit n fields =>
          let* '(fields, ds) := cap_list (λ f ds, match f with
            | MkFieldInit n v sp => let* '(v, ds) := cap_expr_depth v d ds in Ret (MkFieldInit n v sp, ds)
            end) fields ds in Ret (EK_StructLit n fields, ds)
        | EK_ElseUnwrap a b =>
          let* '(a, ds) := cap_expr_depth a d ds in
          let* '(b, ds) := cap_expr_depth b d ds in Ret (EK_ElseUnwrap a b, ds)
        | EK_ArrayLit es => let* '(es, ds) := cap_list (λ x, cap_expr_depth x d) es ds in Ret (EK_ArrayLit es, ds)
        | EK_Tuple es => let* '(es, ds) := cap_list (λ x, cap_expr_depth x d) es ds in Ret (EK_Tuple es, ds)
        | EK_Index a b =>
          let* '(a, ds) := cap_expr_depth a d ds in
          let* '(b, ds) := cap_expr_depth b d ds in Ret (EK_Index a b, ds)
        | EK_SliceRange recv a b =>
          let* '(recv, ds) := cap_expr_depth recv d ds in
          let* '(a, ds) := cap_opt (λ e, cap_expr_depth e d) a ds in
          let* '(b, ds) := cap_opt (λ e, cap_expr_depth e d) b ds in Ret (EK_SliceRange recv a b, ds)
        | EK_Match scrutinee arms =>
          let* '(scrutinee, ds) := cap_expr_depth scrutinee d ds in
          let* '(arms, ds) := cap_list (λ a ds, match a with
            | MkMatchArm p b sp => let* '(b, ds) := cap_expr_depth b d ds in Ret (MkMatchArm p b sp, ds)
            end) arms ds in Ret (EK_Match scrutinee arms, ds)
        | EK_Template parts =>
          let* '(parts, ds) := cap_list (λ p ds, match p with
            | TP_Hole h => let* '(h, ds) := cap_expr_depth h d ds in Ret (TP_Hole h, ds)
            | TP_Text s => Ret (TP_Text s, ds)
            end) parts ds in Ret (EK_Template parts, ds)
        end in
      Ret (MkExpr k sp, ds)
  end
with cap_block_depth (b : Block) (depth : Z) (ds : Diagnostics) {struct b} : res (Block * Diagnostics) :=
  match b with
  | MkBlock stmts tail sp =>
    if MAX_EXPR_DEPTH <? depth then
      let ds := error ds too_deep sp in
      let* _ := discard_expr_tree (DT_Block b) in
      Ret (MkBlock [] None sp, ds)
    else
      let d := depth + 1 in
      let* '(stmts, ds) := cap_list (λ s, cap_stmt_depth s d) stmts ds in
      let* '(tail, ds) := cap_opt (λ e, cap_expr_depth e d) tail ds in
      Ret (MkBlock stmts tail sp, ds)
  end
with cap_stmt_depth (s : Stmt) (d : Z) (ds : Diagnostics) {struct s} : res (Stmt * Diagnostics) :=
  match s with
  | St_Let m n t init a => let* '(init, ds) := cap_expr_depth init d ds in Ret (St_Let m n t init a, ds)
  | St_LetTuple ns init sp => let* '(init, ds) := cap_expr_depth init d ds in Ret (St_LetTuple ns init sp, ds)
  | St_Assign place value =>
    let* '(place, ds) := cap_expr_depth place d ds in
    let* '(value, ds) := cap_expr_depth value d ds in Ret (St_Assign place value, ds)
  | St_Return v => let* '(v, ds) := cap_opt (λ e, cap_expr_depth e d) v ds in Ret (St_Return v, ds)
  | St_Break v sp => let* '(v, ds) := cap_opt (λ e, cap_expr_depth e d) v ds in Ret (St_Break v sp, ds)
  | St_Expr e => let* '(e, ds) := cap_expr_depth e d ds in Ret (St_Expr e, ds)
  end.

Definition cap_item (it : Item) (ds : Diagnostics) : res (Item * Diagnostics) :=
  match it with
  | It_Fn (MkFnDecl v n tp ps r body sp) =>
    let* '(body, ds) :=
      match body with
      | FB_Block b => let* '(b, ds) := cap_block_depth b 1 ds in Ret (FB_Block b, ds)
      | FB_Expr e => let* '(e, ds) := cap_expr_depth e 1 ds in Ret (FB_Expr e, ds)
      end in
    Ret (It_Fn (MkFnDecl v n tp ps r body sp), ds)
  | It_Test (MkTestDecl n ns body sp) =>
    let* '(body, ds) := cap_block_depth body 1 ds in Ret (It_Test (MkTestDecl n ns body sp), ds)
  | It_Const (MkConstDecl v n t value sp) =>
    let* '(value, ds) := cap_expr_depth value 1 ds in Ret (It_Const (MkConstDecl v n t value sp), ds)
  | It_Struct _ | It_Enum _ | It_Resource _ | It_Extern _ => Ret (it, ds)
  end.

Definition cap_expr_depths (f : File) (ds : Diagnostics) : res (File * Diagnostics) :=
  let* '(its, ds) := cap_list cap_item (f_items f) ds in
  Ret (MkFile (f_module f) (f_imports f) its, ds).

(** [parse_file]: parse, then cap. *)
Definition parse_file (toks : list Token) (ds : Diagnostics) : res (File * Diagnostics) :=
  let* '(f, s) := parse_file_body (new_parser toks ds) in
  cap_expr_depths f (pdiags s).

(** ** The worklist drains *)
Lemma sum_of_app {A} (f : A → nat) l l' : sum_of f (l ++ l') = (sum_of f l + sum_of f l')%nat.
Proof. induction l as [|a l IH]; simpl; lia. Qed.

Lemma sum_of_reverse {A} (f : A → nat) l : sum_of f (reverse l) = sum_of f l.
Proof.
  induction l as [|a l IH]; [done|]. rewrite reverse_cons, sum_of_app, IH. simpl. lia.
Qed.

Lemma sum_of_map {A B} (f : B → nat) (g : A → B) l : sum_of f (map g l) = sum_of (λ a, f (g a)) l.
Proof. induction l as [|a l IH]; simpl; [done|]. by rewrite IH. Qed.

(** A task counts itself and what it pushes. *)
Lemma task_size_pushes t : task_size t = S (sum_of task_size (task_pushes t)).
Proof.
  destruct t as [k|[k ?]|[stmts tail ?]|s|[? v ?]|[? v ?]|p]; simpl; try lia.
  - destruct k; simpl; rewrite ?sum_of_map; simpl; try done; try lia;
      repeat match goal with o : option Expr |- _ => destruct o; simpl end; lia.
  - rewrite sum_of_app, sum_of_map. change (λ a, task_size (DT_Stmt a)) with stmt_size.
    destruct tail; simpl; lia.
  - destruct s as [| | |[?|]|[?|] ?|]; simpl; lia.
  - destruct p; simpl; lia.
Qed.

Lemma discard_loop_ok fuel pending : (sum_of task_size pending ≤ fuel)%nat → discard_loop fuel pending = Ret tt.
Proof.
  revert pending. induction fuel as [|fuel IH]; intros [|t rest] H; simpl in *; try done.
  { rewrite task_size_pushes in H. lia. }
  apply IH. rewrite sum_of_app, sum_of_reverse. rewrite task_size_pushes in H. lia.
Qed.

Lemma discard_ok root : discard_expr_tree root = Ret tt.
Proof. apply discard_loop_ok. simpl. lia. Qed.

(** ** Nesting, specified

    [nest_expr w e] counts the compound expressions and the blocks on the
    longest path from [e] down; an empty block counts [w]. *)
Definition max_of {A} (f : A → nat) (l : list A) : nat := foldr (λ a n, Nat.max (f a) n) 0%nat l.

Section Nest.
Context (w : nat).
Fixpoint nest_expr (e : Expr) : nat :=
  match e with MkExpr k _ => if is_leaf_expr k then 0%nat else S (nest_kids k) end
with nest_kids (k : ExprKind) : nat :=
  match k with
  | EK_Unit | EK_Int _ | EK_Float _ | EK_Char _ | EK_Str _ | EK_Bool _ | EK_Path _ | EK_FieldShorthand _ => 0
  | EK_Unary _ e | EK_Cast e _ | EK_Try e | EK_FieldAccess e _ | EK_TupleIndex e _ => nest_expr e
  | EK_Binary _ a b | EK_ElseUnwrap a b | EK_Index a b => Nat.max (nest_expr a) (nest_expr b)
  | EK_Call callee args => Nat.max (nest_expr callee) (max_of nest_expr args)
  | EK_If cond then_ els => Nat.max (nest_expr cond) (Nat.max (nest_block then_) (opt_of nest_expr els))
  | EK_Block b | EK_Arena b | EK_NamedArena _ b | EK_FloatScope _ b | EK_Unsafe b | EK_TaskGroup b
  | EK_Loop b | EK_Lambda _ b => nest_block b
  | EK_StructLit _ fields => max_of nest_field fields
  | EK_ArrayLit es | EK_Tuple es => max_of nest_expr es
  | EK_SliceRange recv a b => Nat.max (nest_expr recv) (Nat.max (opt_of nest_expr a) (opt_of nest_expr b))
  | EK_Match scrutinee arms => Nat.max (nest_expr scrutinee) (max_of nest_arm arms)
  | EK_Template parts => max_of nest_part parts
  end
with nest_block (b : Block) : nat :=
  match b with
  | MkBlock [] None _ => w
  | MkBlock stmts tail _ => S (Nat.max (max_of nest_stmt stmts) (opt_of nest_expr tail))
  end
with nest_stmt (s : Stmt) : nat :=
  match s with
  | St_Let _ _ _ init _ | St_LetTuple _ init _ => nest_expr init
  | St_Assign place value => Nat.max (nest_expr place) (nest_expr value)
  | St_Return v | St_Break v _ => opt_of nest_expr v
  | St_Expr e => nest_expr e
  end
with nest_field (f : FieldInit) : nat := match f with MkFieldInit _ v _ => nest_expr v end
with nest_arm (a : MatchArm) : nat := match a with MkMatchArm _ b _ => nest_expr b end
with nest_part (p : TemplatePart) : nat := match p with TP_Text _ => 0 | TP_Hole e => nest_expr e end.

Definition nest_item (it : Item) : nat :=
  match it with
  | It_Fn d => match fn_body d with FB_Block b => nest_block b | FB_Expr e => nest_expr e end
  | It_Test d => nest_block (td_body d)
  | It_Const d => nest_expr (cd_value d)
  | _ => 0
  end.
Definition nest_file (f : File) : nat := max_of nest_item (f_items f).
End Nest.

(** What capping [b] with [n] levels left achieves, [g w] measuring it: the
    result fits, a tree that already fits is returned unchanged and silently,
    and anything else is reported. *)
Definition capped {B} (n : nat) (g : nat → B → nat) (b : B) (ds : Diagnostics) (r : res (B * Diagnostics)) : Prop :=
  ∃ b' ds', r = Ret (b', ds') ∧ (g 0 b' ≤ n)%nat ∧ extends ds ds'
    ∧ ((g 1 b ≤ n)%nat → b' = b ∧ ds' = ds)
    ∧ ((n < g 1 b)%nat → (error_count ds < error_count ds')%nat).

Lemma capped_ret {B} n g (b : B) ds : (g 0 b ≤ n)%nat → (g 1 b ≤ n)%nat → capped n g b ds (Ret (b, ds)).
Proof. intros. exists b, ds. split_and!; [done|done|reflexivity|done|lia]. Qed.

(** Rebuilding a node around one capped part, around two, around three. *)
Lemma capped_map {A B} n (gA : nat → A → nat) (g : nat → B → nat) (C : A → B) a ds r :
  capped n gA a ds r → (∀ w a, g w (C a) = gA w a) →
  capped n g (C a) ds (let* '(a, ds) := r in Ret (C a, ds)).
Proof.
  intros (a' & ds' & -> & Hn & He & Hs & Hl) Hg. exists (C a'), ds'. rewrite !Hg.
  split_and!; [done|done|done| |done]. intros H. by destruct (Hs H) as [-> ->].
Qed.

Lemma capped_map2 {A1 A2 B} n (g1 : nat → A1 → nat) (g2 : nat → A2 → nat) (g : nat → B → nat)
    (C : A1 → A2 → B) a1 a2 ds r1 r2 :
  capped n g1 a1 ds r1 → (∀ ds, capped n g2 a2 ds (r2 ds)) →
  (∀ w a1 a2, g w (C a1 a2) = Nat.max (g1 w a1) (g2 w a2)) →
  capped n g (C a1 a2) ds (let* '(a1, ds) := r1 in let* '(a2, ds) := r2 ds in Ret (C a1 a2, ds)).
Proof.
  intros (a1' & ds1 & -> & Hn1 & He1 & Hs1 & Hl1) H2 Hg.
  destruct (H2 ds1) as (a2' & ds2 & Hr & Hn2 & He2 & Hs2 & Hl2). cbn [res_bind]. rewrite Hr. cbn [res_bind].
  exists (C a1' a2'), ds2. rewrite !Hg. split_and!; [done|lia|by etrans| |].
  - intros H. destruct Hs1 as [-> ->]; [lia|]. destruct Hs2 as [-> ->]; [lia|done].
  - intros H. pose proof (error_count_extends _ _ He1). pose proof (error_count_extends _ _ He2). lia.
Qed.

Lemma capped_map3 {A1 A2 A3 B} n (g1 : nat → A1 → nat) (g2 : nat → A2 → nat) (g3 : nat → A3 → nat)
    (g : nat → B → nat) (C : A1 → A2 → A3 → B) a1 a2 a3 ds r1 r2 r3 :
  capped n g1 a1 ds r1 → (∀ ds, capped n g2 a2 ds (r2 ds)) → (∀ ds, capped n g3 a3 ds (r3 ds)) →
  (∀ w a1 a2 a3, g w (C a1 a2 a3) = Nat.max (g1 w a1) (Nat.max (g2 w a2) (g3 w a3))) →
  capped n g (C a1 a2 a3) ds
    (let* '(a1, ds) := r1 in let* '(a2, ds) := r2 ds in let* '(a3, ds) := r3 ds in Ret (C a1 a2 a3, ds)).
Proof.
  intros H1 H2 H3 Hg.
  assert (capped n (λ w p, Nat.max (g1 w p.1) (Nat.max (g2 w p.2.1) (g3 w p.2.2))) (a1, (a2, a3)) ds
    (let* '(a1, ds) := r1 in
     let* '(p, ds) := (let* '(a2, ds) := r2 ds in let* '(a3, ds) := r3 ds in Ret ((a2, a3), ds)) in
     Ret ((a1, p), ds))) as H.
  { eapply (capped_map2 n g1 (λ w p, Nat.max (g2 w p.1) (g3 w p.2)) _ (λ a p, (a, p))); [done| |done].
    intros ds'. by eapply (capped_map2 n g2 g3 _ pair). }
  destruct H as ((x1 & x2 & x3) & ds' & Hr & Hn & He & Hs & Hl).
  exists (C x1 x2 x3), ds'. rewrite !Hg. simpl in *. split_and!; [|done|done| |done].
  - destruct r1 as [[? d1]| |]; simpl in *; try done. destruct (r2 d1) as [[? d2]| |]; simpl in *; try done.
    destruct (r3 d2) as [[? d3]| |]; simpl in *; congruence.
  - intros H. destruct (Hs H) as [[= -> -> ->] ->]. done.
Qed.

Lemma capped_list {A} n (g : nat → A → nat) f l ds :
  (∀ a ds, capped n g a ds (f a ds)) → capped n (λ w, max_of (g w)) l ds (cap_list f l ds).
Proof.
  intros Hf. revert ds. induction l as [|a l IH]; intros ds; simpl; [by apply capped_ret; simpl; lia|].
  by eapply (capped_map2 n g (λ w, max_of (g w)) _ cons).
Qed.

Lemma capped_opt {A} n (g : nat → A → nat) f o ds :
  (∀ a ds, capped n g a ds (f a ds)) → capped n (λ w, opt_of (g w)) o ds (cap_opt f o ds).
Proof.
  intros Hf. destruct o as [a|]; simpl; [|by apply capped_ret; simpl; lia].
  by apply (capped_map n g).
Qed.

Create HintDb cap discriminated.
#[local] Hint Resolve capped_list capped_opt : cap.

(** Solve the capping goal of a node from those of its parts. *)
Ltac cap_node :=
  first [ apply capped_ret; simpl; lia
        | eapply (capped_map3 _ _ _ _ _ (λ x y z, _)); cycle 3; [intros; simpl; reflexivity| | |]
        | eapply (capped_map2 _ _ _ _ (λ x y, _)); cycle 2; [intros; simpl; reflexivity| |]
        | eapply (capped_map _ _ _ (λ x, _)); cycle 1; [intros; simpl; reflexivity|] ];
  intros; eauto with cap.

Section Level.
Context (n : nat) (d : Z).
Hypothesis (Hexpr : ∀ e ds, capped n nest_expr e ds (cap_expr_depth e d ds)).
Hypothesis (Hblock : ∀ b ds, capped n nest_block b ds (cap_block_depth b d ds)).

Lemma cap_stmt_ok s ds : capped n nest_stmt s ds (cap_stmt_depth s d ds).
Proof using Hexpr. destruct s; simpl; cap_node. Qed.

(** One level up: a compound's parts have one level less. *)
Lemma cap_expr_step e depth ds :
  depth ≤ MAX_EXPR_DEPTH → d = depth + 1 →
  capped (S n) nest_expr e ds (cap_expr_depth e depth ds).
Proof using Hexpr Hblock.
  intros Hd ->. destruct e as [k sp].
  assert (∀ r, capped n nest_kids k ds r → (∀ k' ds', r = Ret (k', ds') → is_leaf_expr k' = is_leaf_expr k) →
    capped (S n) nest_expr (MkExpr k sp) ds (let* '(k, ds) := r in Ret (MkExpr k sp, ds))) as Hup.
  { intros r (k' & ds' & -> & Hn & He & Hs & Hl) Hleaf. exists (MkExpr k' sp), ds'.
    specialize (Hleaf _ _ eq_refl). simpl. rewrite Hleaf. split_and!; [done| |done| |].
    - destruct (is_leaf_expr k); lia.
    - intros H. destruct (is_leaf_expr k) eqn:El; [|destruct Hs as [-> ->]; [lia|done]].
      destruct Hs as [-> ->]; [|done]. destruct k; simpl in *; try discriminate El; lia.
    - destruct (is_leaf_expr k); [lia|]. intros. apply Hl. lia. }
  cbn [cap_expr_depth]. rewrite (proj2 (Z.ltb_ge _ _) Hd). cbn zeta. apply Hup.
  - destruct k; cap_node; apply capped_list; intros [] ?; cap_node.
  - intros k' ds' Hr. destruct k; simpl in *;
      repeat (apply res_bind_Ret_inv in Hr as ([? ?] & _ & Hr)); by injection Hr as <- <-.
Qed.

Lemma cap_block_step b depth ds :
  depth ≤ MAX_EXPR_DEPTH → d = depth + 1 →
  capped (S n) nest_block b ds (cap_block_depth b depth ds).
Proof using Hexpr.
  intros Hd Hd1. destruct b as [stmts tail sp]. cbn [cap_block_depth]. rewrite (proj2 (Z.ltb_ge _ _) Hd). cbn zeta. rewrite <-Hd1.
  assert (capped n (λ w (p : list Stmt * option Expr), Nat.max (max_of (nest_stmt w) p.1) (opt_of (nest_expr w) p.2))
    (stmts, tail) ds
    (let* '(stmts, ds) := cap_list (λ s, cap_stmt_depth s d) stmts ds in
     let* '(tail, ds) := cap_opt (λ e, cap_expr_depth e d) tail ds in Ret ((stmts, tail), ds)))
    as ([s' t'] & ds' & Hr & Hn & He & Hs & Hl).
  { apply (capped_map2 _ (λ w, max_of (nest_stmt w)) (λ w, opt_of (nest_expr w)) _ pair); intros; [|by apply capped_opt|done].
    apply capped_list. intros. apply cap_stmt_ok. }
  exists (MkBlock s' t' sp), ds'. simpl in *. split_and!; [|destruct s', t'; simpl in *; lia|done| |].
  - destruct (cap_list _ stmts ds) as [[? d1]| |]; simpl in *; try done.
    destruct (cap_opt _ tail d1) as [[? d2]| |]; simpl in *; congruence.
  - intros H. assert ((s', t') = (stmts, tail) ∧ ds' = ds) as [[= -> ->] ->]; [|done].
    apply Hs. destruct stmts, tail; simpl in *; lia.
  - intros H. apply Hl. destruct stmts, tail; simpl in *; lia.
Qed.
End Level.

(** With no level left, leaves stay and everything else is cut. *)
Lemma cap_expr_floor e depth ds : MAX_EXPR_DEPTH < depth → capped 0 nest_expr e ds (cap_expr_depth e depth ds).
Proof.
  intros Hd. destruct e as [k sp]. cbn [cap_expr_depth]. rewrite (proj2 (Z.ltb_lt _ _) Hd).
  destruct (is_leaf_expr k) eqn:El; cbn [negb]; [apply capped_ret; simpl; rewrite El; lia|].
  rewrite discard_ok. cbn [res_bind]. eexists _, _. split; [reflexivity|]. simpl. rewrite El.
  split_and!; [lia|apply extends_error|lia|]. intros _. rewrite error_count_error. lia.
Qed.

Lemma cap_block_floor b depth ds : MAX_EXPR_DEPTH < depth → capped 0 nest_block b ds (cap_block_depth b depth ds).
Proof.
  intros Hd. destruct b as [stmts tail sp]. cbn [cap_block_depth]. rewrite (proj2 (Z.ltb_lt _ _) Hd), discard_ok.
  cbn [res_bind]. eexists _, _. split; [reflexivity|]. simpl.
  split_and!; [lia|apply extends_error|destruct stmts, tail; lia|].
  intros _. rewrite error_count_error. lia.
Qed.

(** Capping at [depth] leaves [129 - depth] levels. *)
Lemma cap_level n : ∀ depth, depth = MAX_EXPR_DEPTH + 1 - Z.of_nat n →
  (∀ e ds, capped n nest_expr e ds (cap_expr_depth e depth ds)) ∧
  (∀ b ds, capped n nest_block b ds (cap_block_depth b depth ds)).
Proof.
  induction n as [|n IH]; intros depth Hd.
  - split; intros; [apply cap_expr_floor|apply cap_block_floor]; lia.
  - destruct (IH (depth + 1)) as [He Hb]; [lia|].
    split; intros; [eapply cap_expr_step|eapply cap_block_step]; try done; lia.
Qed.

Definition max_depth : nat := Z.to_nat MAX_EXPR_DEPTH.

Lemma cap_expr_root e ds : capped max_depth nest_expr e ds (cap_expr_depth e 1 ds).
Proof. by apply (cap_level max_depth 1). Qed.
Lemma cap_block_root b ds : capped max_depth nest_block b ds (cap_block_depth b 1 ds).
Proof. by apply (cap_level max_depth 1). Qed.

Lemma cap_item_ok it ds : capped max_depth nest_item it ds (cap_item it ds).
Proof.
  destruct it as [[v nm tp ps r body sp]|[nm ns body sp]| | | |[v nm t value sp]|]; simpl;
    try (apply capped_ret; simpl; lia).
  - eapply (capped_map _ (λ w body, match body with FB_Block b => nest_block w b | FB_Expr e => nest_expr w e end)
      _ (λ body, It_Fn (MkFnDecl v nm tp ps r body sp))); [|done].
    destruct body; (eapply (capped_map _ _ _ (λ x, _)); [|intros; reflexivity]);
      [apply cap_block_root|apply cap_expr_root].
  - eapply (capped_map _ _ _ (λ b, It_Test (MkTestDecl nm ns b sp))); [apply cap_block_root|done].
  - eapply (capped_map _ _ _ (λ e, It_Const (MkConstDecl v nm t e sp))); [apply cap_expr_root|done].
Qed.

Lemma cap_file_ok f ds :
  ∃ f' ds', cap_expr_depths f ds = Ret (f', ds') ∧ (nest_file 0 f' ≤ 128)%nat ∧ extends ds ds'
    ∧ ((nest_file 1 f ≤ 128)%nat → f' = f ∧ ds' = ds)
    ∧ ((128 < nest_file 1 f)%nat → (error_count ds < error_count ds')%nat).
Proof.
  pose proof (capped_list max_depth nest_item cap_item (f_items f) ds (λ a ds, cap_item_ok a ds))
    as (its & ds' & Hr & Hn & He & Hs & Hl).
  unfold cap_expr_depths. rewrite Hr. cbn [res_bind]. eexists _, _. split; [reflexivity|].
  split_and!; [done|done| |done]. intros H. destruct (Hs H) as [-> ->]. by destruct f.
Qed.

(** C9. The nesting ceiling: [cap_expr_depths] always finishes, and its output
    has at most [MAX_EXPR_DEPTH] levels of compound expressions and non-empty
    blocks in any item; a file within the ceiling is returned unchanged with no
    diagnostic, and one that exceeds it is reported as an error. *)
Theorem cap_expr_depths_ceiling f ds :
  ∃ f' ds', cap_expr_depths f ds = Ret (f', ds') ∧ (nest_file 0 f' ≤ 128)%nat ∧ extends ds ds'
    ∧ ((nest_file 1 f ≤ 128)%nat → f' = f ∧ ds' = ds)
    ∧ ((128 < nest_file 1 f)%nat → (error_count ds < error_count ds')%nat).
Proof. apply cap_file_ok. Qed.
