(* ===== verification/TemplateSpec.v ===== *)
(** * Correctness of template splitting ([split_template])

    The pieces of a template literal concatenate back to its content, every
    hole sits at the offset it claims and holds no closing brace, and texts are
    non-empty and maximal. *)
From Stdlib Require Import ZArith Lia.
From S2P Require Import Prelude Utf8 Span Diag Text Token Lexer LexerSpec Ast Parser.
Local Open Scope Z_scope.

(** A piece as it was written. *)
Definition render_part (p : RawPart) : bytes :=
  match p with
  | RP_Text s => s
  | RP_Hole src _ => ["{"%u8] ++ src ++ ["}"%u8]
  end.
Definition render (ps : list RawPart) : bytes := concat (map render_part ps).

Lemma render_app a b : render (a ++ b) = render a ++ render b.
Proof. unfold render. by rewrite List.map_app, concat_app. Qed.

Definition is_text (p : RawPart) : bool := match p with RP_Text _ => true | _ => false end.

(** The grammar of literal text: characters other than an opening brace and
    blank brace pairs, then perhaps an opening brace that is never closed. *)
Inductive closed_text : list Z → Prop :=
  | closed_nil : closed_text []
  | closed_char t c : closed_text t → c ≠ "{"%u8 → closed_text (t ++ [c])
  | closed_blank t src : closed_text t → "}"%u8 ∉ src → trim_is_empty src = true →
      closed_text (t ++ ["{"%u8] ++ src ++ ["}"%u8]).
Inductive plain_text : list Z → Prop :=
  | plain_closed t : closed_text t → plain_text t
  | plain_open t src : closed_text t → "}"%u8 ∉ src → plain_text (t ++ ["{"%u8] ++ src).

(** What each piece satisfies, given what comes before it. *)
Definition part_ok (before : list RawPart) (p : RawPart) : Prop :=
  match p with
  | RP_Text s =>
      s ≠ [] ∧ (∀ q, last before = Some q → is_text q = false) ∧
      ∃ cs, from_utf8 s = Some cs ∧ plain_text cs
  | RP_Hole src off =>
      off = (length (render before) + 1)%nat ∧ ("}"%u8 ∉ src) ∧
      ∃ cs, from_utf8 src = Some cs ∧ trim_is_empty cs = false
  end.
Definition parts_ok (ps : list RawPart) : Prop := ∀ i p, ps !! i = Some p → part_ok (take i ps) p.

Lemma parts_ok_snoc ps p : parts_ok ps → part_ok ps p → parts_ok (ps ++ [p]).
Proof.
  intros Hps Hp i q Hq. apply lookup_app_Some in Hq as [Hq|[Hi Hq]].
  - rewrite take_app_le by (apply lookup_lt_Some in Hq; lia). auto.
  - apply list_lookup_singleton_Some in Hq as [Hi0 <-].
    rewrite take_app_ge by lia. rewrite Hi0. simpl. by rewrite app_nil_r.
Qed.

Lemma scan_hole_spec cs src f rest :
  scan_hole cs = (src, f, rest) →
  cs = src ++ (if f then ["}"%u8] else []) ++ rest ∧ ("}"%u8 ∉ src) ∧ (f = false → rest = []) ∧
  (length rest ≤ length cs)%nat.
Proof.
  revert src f rest. induction cs as [|d cs IH]; intros src f rest H; simpl in H.
  { injection H as <- <- <-. split_and!; [done|apply not_elem_of_nil|done|done]. }
  destruct (d =? 125) eqn:E; b2p.
  { injection H as <- <- <-. subst. split_and!; [done|apply not_elem_of_nil|done|simpl; lia]. }
  destruct (scan_hole cs) as [[src' f'] rest'] eqn:Hs. injection H as <- <- <-.
  destruct (IH _ _ _ eq_refl) as (-> & Hn & Hf & Hl). split_and!; [done| |done|].
  - rewrite not_elem_of_cons. auto.
  - simpl. rewrite !length_app in *. lia.
Qed.

Definition close_text (text : list Z) (parts : list RawPart) : list RawPart :=
  match text with [] => parts | _ => parts ++ [RP_Text (utf8_encode_all text)] end.

Lemma utf8_encode_all_nil text : utf8_encode_all text = [] → text = [].
Proof.
  destruct text as [|c text]; [done|]. rewrite utf8_encode_all_cons.
  intros [H _]%app_eq_nil. by apply utf8_encode_nonnil in H.
Qed.

Lemma render_close text parts : render (close_text text parts) = render parts ++ utf8_encode_all text.
Proof.
  destruct text as [|c text]; simpl; [by rewrite app_nil_r|]. rewrite render_app. simpl.
  unfold render at 2. simpl. by rewrite app_nil_r.
Qed.

(** Text in progress: the pieces so far are fine and do not end with a text. *)
Definition open_ok (parts : list RawPart) : Prop :=
  parts_ok parts ∧ ∀ q, last parts = Some q → is_text q = false.

Lemma close_text_ok text parts :
  open_ok parts → plain_text text → Forall (λ c, is_scalar c = true) text → parts_ok (close_text text parts).
Proof.
  intros [Hp Hl] Ht Hs. destruct text as [|c text]; [done|]. apply parts_ok_snoc; [done|]. simpl. split_and!; [|done|].
  - by intros H%utf8_encode_all_nil.
  - exists (c :: text). split; [|done]. by apply from_utf8_encode_all.
Qed.

Lemma encode_no_brace cs : Forall (λ c, is_scalar c = true) cs → "}"%u8 ∉ cs → "}"%u8 ∉ utf8_encode_all cs.
Proof.
  induction 1 as [|c cs Hc _ IH]; [done|]. rewrite utf8_encode_all_cons, not_elem_of_cons, elem_of_app.
  intros [Hne Hin] [H|H]; [|by apply IH]. apply Hne. eapply utf8_encode_ascii_byte; [done|done|lia].
Qed.

Lemma encode_one c : utf8_encode_all [c] = utf8_encode c.
Proof. rewrite utf8_encode_all_cons. apply app_nil_r. Qed.

Lemma split_loop_spec fuel cs idx text parts :
  (length cs < fuel)%nat → Forall (λ c, is_scalar c = true) cs → open_ok parts →
  Forall (λ c, is_scalar c = true) text → (cs ≠ [] → closed_text text) → plain_text text →
  idx = length (render parts ++ utf8_encode_all text) →
  ∃ ps, split_loop fuel cs idx text parts = Ret ps ∧ parts_ok ps ∧
        render ps = render parts ++ utf8_encode_all text ++ utf8_encode_all cs.
Proof.
  revert cs idx text parts. induction fuel as [|fuel IH]; intros cs idx text parts Hf Hcs Ho Hts Hcl Hpl Hidx; [lia|].
  destruct cs as [|c cs]; cbn [split_loop].
  { exists (close_text text parts). split; [done|]. split; [by apply close_text_ok|].
    rewrite render_close, app_nil_r. done. }
  apply Forall_cons in Hcs as [Hc Hcs]. specialize (Hcl ltac:(done)). destruct (c =? "{"%u8) eqn:E.
  2:{ b2p. assert (closed_text (text ++ [c])) by (by constructor).
      destruct (IH cs (idx + len_utf8 c)%nat (text ++ [c]) parts) as (ps & -> & Hok & Hr);
        [simpl in *; lia|done|done|apply Forall_app; split; [done|by constructor]|done|by constructor| |].
      - rewrite Hidx, utf8_encode_all_app, encode_one, !length_app, length_utf8_encode. lia.
      - exists ps. split_and!; [done|done|].
        by rewrite Hr, utf8_encode_all_app, encode_one, utf8_encode_all_cons, <-app_assoc. }
  b2p. subst c. destruct (scan_hole cs) as [[src f] rest] eqn:Hs.
  apply scan_hole_spec in Hs as (Heq & Hn & Hfr & Hl). fold (close_text text parts).
  assert (Forall (λ c, is_scalar c = true) src ∧ Forall (λ c, is_scalar c = true) rest) as [Hsrc Hrest].
  { rewrite Heq in Hcs. apply Forall_app in Hcs as [? H]. by apply Forall_app in H as [_ ?]. }
  assert (utf8_encode_all ("{"%u8 :: cs)
    = ["{"%u8] ++ utf8_encode_all src ++ (if f then ["}"%u8] else []) ++ utf8_encode_all rest) as Henc.
  { rewrite utf8_encode_all_cons, Heq, !utf8_encode_all_app. by destruct f. }
  destruct (f && negb (trim_is_empty src)) eqn:Eh.
  - b2p. subst f. set (ps1 := close_text text parts).
    destruct (IH rest (idx + 1 + length (utf8_encode_all src) + 1)%nat []
      (ps1 ++ [RP_Hole (utf8_encode_all src) (idx + 1)])) as (ps & -> & Hok & Hr);
      [simpl in *; lia|done| |done|constructor|by do 2 constructor| |].
    + split; [|intros q; rewrite last_snoc; by intros [= <-]]. apply parts_ok_snoc; [by apply close_text_ok|].
      split_and!; [|by apply encode_no_brace|].
      * unfold ps1. by rewrite render_close, Hidx.
      * exists src. split; [|done]. by apply from_utf8_encode_all.
    + rewrite render_app. unfold ps1. rewrite render_close. unfold render at 2. simpl.
      rewrite !app_nil_r, Hidx. rewrite !length_app. simpl. rewrite length_app. simpl. lia.
    + exists ps. split_and!; [done|done|]. rewrite Hr, Henc, render_app. unfold ps1. rewrite render_close.
      unfold render at 2. simpl. rewrite app_nil_r. rewrite <-!app_assoc. simpl. by rewrite <-app_assoc.
  - destruct (IH rest (idx + 1 + length (utf8_encode_all src) + (if f then 1 else 0))%nat
      (text ++ ["{"%u8] ++ src ++ (if f then ["}"%u8] else [])) parts) as (ps & -> & Hok & Hr);
      [simpl in *; lia|done|done| | | | |].
    + rewrite !Forall_app. split_and!; [done|by constructor|done|destruct f; by constructor].
    + intros Hne. destruct f; [|by rewrite Hfr in Hne]. apply closed_blank; [done..|]. simpl in Eh. by b2p.
    + destruct f; [|rewrite app_nil_r; by apply plain_open]. constructor. apply closed_blank; [done..|]. simpl in Eh. by b2p.
    + rewrite Hidx, !utf8_encode_all_app, !length_app. destruct f; simpl; lia.
    + exists ps. split_and!; [done|done|]. rewrite Hr, Henc, !utf8_encode_all_app.
      rewrite <-!app_assoc. by destruct f.
Qed.

Lemma split_template_spec content :
  valid_utf8 content → ∃ ps, split_template content = Ret ps ∧ parts_ok ps ∧ render ps = content.
Proof.
  intros [cs Hcs]. unfold split_template. rewrite Hcs. cbn [unwrap res_bind].
  apply from_utf8_inv in Hcs as [-> Hs].
  destruct (split_loop_spec (S (length cs)) cs 0 [] []) as (ps & -> & Hok & Hr);
    [lia|done| |done|constructor|by do 2 constructor|done|eauto].
  by split; [intros ? ?; rewrite lookup_nil|].
Qed.

(** A hole lies inside the content. *)
Lemma hole_range content ps i src off :
  render ps = content → parts_ok ps → ps !! i = Some (RP_Hole src off) →
  slice off (off + length src) content = src ∧ (off + length src < length content)%nat ∧
  content !! (off + length src)%nat = Some "}"%u8.
Proof.
  intros <- Hok Hi. destruct (Hok _ _ Hi) as (-> & _).
  set (b := render (take i ps)). set (r := render (drop (S i) ps)).
  assert (render ps = b ++ "{"%u8 :: src ++ "}"%u8 :: r) as ->.
  { rewrite <-(take_drop_middle ps i _ Hi) at 1. rewrite render_app. unfold b, r, render. simpl.
    by rewrite <-app_assoc. }
  clearbody b r. split_and!.
  - unfold slice. assert (b ++ "{"%u8 :: src ++ "}"%u8 :: r = (b ++ ["{"%u8]) ++ src ++ "}"%u8 :: r) as ->
      by (by rewrite <-app_assoc).
    rewrite drop_app_length' by (rewrite length_app; simpl; lia).
    replace (length b + 1 + length src - (length b + 1))%nat with (length src) by lia. by rewrite take_app_length.
  - rewrite !length_app. simpl. rewrite !length_app. simpl. lia.
  - rewrite lookup_app_r by lia. replace (length b + 1 + length src - length b)%nat with (S (length src)) by lia.
    simpl. rewrite lookup_app_r by lia. by rewrite Nat.sub_diag.
Qed.

(** Template splitting loses nothing and finds every hole: the pieces of a
    well-formed literal concatenate back to its content; each hole's source is
    the slice of the content at the offset the hole records, runs to the first
    closing brace and is not blank; each text is non-empty, maximal, and contains
    no non-blank [{...}] (only blank pairs and a last unclosed brace). *)
Lemma split_template_roundtrip content :
  valid_utf8 content →
  ∃ ps, split_template content = Ret ps ∧ concat (map render_part ps) = content ∧
    (∀ i src off, ps !! i = Some (RP_Hole src off) →
       slice off (off + length src) content = src ∧ content !! (off + length src)%nat = Some "}"%u8 ∧
       ("}"%u8 ∉ src) ∧ ∃ cs, from_utf8 src = Some cs ∧ trim_is_empty cs = false) ∧
    (∀ i s, ps !! i = Some (RP_Text s) →
       s ≠ [] ∧ (∀ q, last (take i ps) = Some q → is_text q = false) ∧
       ∃ cs, from_utf8 s = Some cs ∧ plain_text cs).
Proof.
  intros (ps & Hs & Hok & Hr)%split_template_spec. exists ps. split_and!; [done|done| |].
  - intros i src off Hi. destruct (hole_range _ _ _ _ _ Hr Hok Hi) as (? & _ & ?).
    by destruct (Hok _ _ Hi) as (_ & ? & ?).
  - intros i s Hi. exact (Hok _ _ Hi).
Qed.

Lemma split_template_roundtrip_witness :
  ∃ ps, split_template (str "a {b} { } {c") = Ret ps ∧ concat (map render_part ps) = str "a {b} { } {c" ∧
    ps !! 1%nat = Some (RP_Hole (str "b") 3).
Proof.
  destruct (split_template_roundtrip (str "a {b} { } {c")) as (ps & Hs & Hr & _); [eexists; vm_compute; reflexivity|].
  exists ps. split_and!; [exact Hs|exact Hr|]. vm_compute in Hs. injection Hs as <-. vm_compute. reflexivity.
Defined.
