(* ===== verification/ParserSpec.v ===== *)
(** * Correctness of the parser: the calculus and the token-level operations

    A weakest-precondition calculus for the parser's monad and the
    specifications of every function below expressions: on any token vector
    that ends with the end mark, each returns (no panic, no exhausted fuel),
    only moves the cursor forward, restores the flags it changes, and reports an
    error whenever it gives up. *)
From Stdlib Require Import ZArith Lia SpecFloat.
From S2P Require Import Prelude Utf8 Span Diag Text Token Lexer LexerSpec Ast Parser.
Local Open Scope Z_scope.

Abbreviation perrs s := (error_count (pdiags s)).

(** ** Weakest preconditions *)
Definition wp {A} (m : M A) (Q : A → Parser → Prop) (s : Parser) : Prop :=
  ∃ a s', m s = Ret (a, s') ∧ Q a s'.

Lemma wp_mono {A} (m : M A) (P Q : A → Parser → Prop) s :
  wp m P s → (∀ a s', P a s' → Q a s') → wp m Q s.
Proof. intros (a & s' & H & HP) HPQ. exists a, s'. auto. Qed.

Lemma wp_ret {A} (a : A) (Q : A → Parser → Prop) s : Q a s → wp (ret a) Q s.
Proof. intros. by exists a, s. Qed.

Lemma wp_bind {A B} (m : M A) (f : A → M B) Q s : wp m (λ a s', wp (f a) Q s') s → wp (bind m f) Q s.
Proof.
  intros (a & s' & Hm & b & s'' & Hf & HQ). exists b, s''. split; [|done]. unfold bind. by rewrite Hm.
Qed.

Lemma wp_try {A B} (m : M (option A)) (f : A → M (option B)) Q s :
  wp m (λ o s', match o with Some a => wp (f a) Q s' | None => Q None s' end) s → wp (try_ m f) Q s.
Proof.
  intros H. unfold try_. apply wp_bind. eapply wp_mono; [exact H|]. intros [a|] s' Ha; [done|]. by apply wp_ret.
Qed.

Lemma wp_try_loop {A B C} (m : M (option A)) (f : A → M (C + option B)) Q s :
  wp m (λ o s', match o with Some a => wp (f a) Q s' | None => Q (inr None) s' end) s → wp (try_loop m f) Q s.
Proof.
  intros H. unfold try_loop. apply wp_bind. eapply wp_mono; [exact H|]. intros [a|] s' Ha; [done|]. by apply wp_ret.
Qed.

Lemma wp_lift {A} (r : res A) a (Q : A → Parser → Prop) s : r = Ret a → Q a s → wp (lift r) Q s.
Proof. intros -> HQ. by exists a, s. Qed.

(** A loop whose turns decrease a measure that starts within its fuel. *)
Lemma wp_loop {A B} (μ : A → Parser → nat) (I : A → Parser → Prop) (body : A → M (A + B)) (Q : B → Parser → Prop) a s :
  I a s → (μ a s ≤ length (ptokens s))%nat →
  (∀ a s, I a s →
    wp (body a) (λ r s', match r with inl a' => I a' s' ∧ (μ a' s' < μ a s)%nat | inr b => Q b s' end) s) →
  wp (loop_ body a) Q s.
Proof.
  intros HI Hμ Hbody. unfold wp, loop_. generalize dependent (length (ptokens s)). intros fuel.
  revert a s HI. induction fuel as [|fuel IH]; intros a s HI Hμ; cbn [loop_fuel]; apply wp_bind;
    (eapply wp_mono; [by apply Hbody|]); intros [a'|b] s' H; try by apply wp_ret.
  - destruct H as [_ H]. lia.
  - destruct H as [HI' Hlt]. apply IH; [done|lia].
Qed.

Lemma eof_dec (k : TokKind) : {k = TokKind.Eof} + {k ≠ TokKind.Eof}.
Proof. destruct k; (by left) || (by right). Qed.

(** ** The invariant of the state over one token vector *)

(** What a token must satisfy: it lies in file [fid], and a string with a
    closing brace (a template with holes, perhaps) is allowed only where
    [holes] says so and leaves room for the spans of its holes. *)
Definition tok_ok (holes : bool) (fid : FileId) (t : Token) : Prop :=
  file (span t) = fid ∧
  ∀ s, kind t = TokKind.Str s →
    valid_utf8 s ∧
    ("}"%u8 ∈ s → holes = true ∧ 0 ≤ lo (span t) ∧ lo (span t) + 1 + Z.of_nat (length s) ≤ U32_MAX).

Record toks_ok (holes : bool) (fid : FileId) (T : list Token) : Prop := {
  to_last : ∃ t, last T = Some t ∧ kind t = TokKind.Eof;
  to_all : Forall (tok_ok holes fid) T
}.

Section Tokens.
Context (holes : bool) (fid : FileId) (T : list Token).
Hypothesis (HT : toks_ok holes fid T).

Record inv (s : Parser) : Prop := {
  inv_tokens : ptokens s = T;
  inv_pos : (ppos s < length T)%nat;
  inv_depth : 0 ≤ depth s ≤ MAX_EXPR_DEPTH
}.

(** The kind of the token under the cursor. *)
Definition cur (s : Parser) : TokKind :=
  match T !! ppos s with Some t => kind t | None => TokKind.Eof end.

(** [s'] comes after [s]: the cursor and the diagnostics only grew, the flags
    are those of [s]. *)
Record ext (s s' : Parser) : Prop := {
  ext_inv : inv s';
  ext_pos : (ppos s ≤ ppos s')%nat;
  ext_diags : extends (pdiags s) (pdiags s');
  ext_depth : depth s' = depth s;
  ext_nsl : no_struct_literal s' = no_struct_literal s;
  ext_rejected : rejected_identifiers s `prefix_of` rejected_identifiers s'
}.

Lemma ext_refl s : inv s → ext s s.
Proof. by split. Qed.

Lemma ext_trans a b c : ext a b → ext b c → ext a c.
Proof. intros [] []. split; try done; try lia; try (by etrans); congruence. Qed.

Lemma ext_errs s s' : ext s s' → (perrs s ≤ perrs s')%nat.
Proof. intros []. by apply error_count_extends. Qed.

(** The result of a function that may give up: [R] holds of what it returns,
    and giving up was reported. *)
Definition opt_post {A} (R : A → Parser → Prop) (s : Parser) (o : option A) (s' : Parser) : Prop :=
  ext s s' ∧ match o with Some a => R a s' | None => (perrs s < perrs s')%nat end.

(** [R] with progress: at least one token was consumed since [s]. *)
Definition moved {A} (s : Parser) (R : A → Prop) (a : A) (s' : Parser) : Prop :=
  (ppos s < ppos s')%nat ∧ R a.
Definition any {A} (a : A) : Prop := True.
Definition any2 {A} (a : A) (s : Parser) : Prop := True.

(** A lookahead's answer [b]: the state is unchanged, and where it is [true]
    there are tokens left. *)
Definition guess (s : Parser) (b : bool) (s' : Parser) : Prop :=
  s' = s ∧ if b then cur s ≠ TokKind.Eof else any tt.

(** *** Reading the cursor *)
Lemma T_lookup i : (i < length T)%nat → ∃ t, T !! i = Some t ∧ tok_ok holes fid t.
Proof.
  intros [t Ht]%lookup_lt_is_Some. exists t. split; [done|]. destruct HT as [_ Hall].
  rewrite Forall_lookup in Hall. eauto.
Qed.

Lemma T_last : ∃ t, T !! (length T - 1)%nat = Some t ∧ kind t = TokKind.Eof ∧ (0 < length T)%nat.
Proof.
  destruct HT as [(t & Hl & Hk) _]. rewrite last_lookup in Hl. pose proof (lookup_lt_Some _ _ _ Hl).
  exists t. replace (length T - 1)%nat with (pred (length T)) by lia. split_and!; [done|done|lia].
Qed.

Lemma peek_wp s : inv s → wp peek (λ k s', s' = s ∧ k = cur s) s.
Proof.
  intros [Hk Hp _]. destruct (T_lookup _ Hp) as (t & Ht & _). exists (kind t), s.
  unfold peek, cur. by rewrite Hk, Ht.
Qed.

(** The kind of the token [n] after the cursor; past the end, the end mark. *)
Definition look (s : Parser) (n : nat) : TokKind :=
  match T !! Nat.min (ppos s + n) (length T - 1) with Some t => kind t | None => TokKind.Eof end.

Lemma look_end s n : (length T ≤ ppos s + n + 1)%nat → look s n = TokKind.Eof.
Proof.
  intros. destruct T_last as (e & He & Hek & Hl). unfold look. rewrite Nat.min_r by lia. by rewrite He.
Qed.

Lemma peek_at_wp n s : inv s → wp (peek_at n) (λ k s', s' = s ∧ k = look s n) s.
Proof.
  intros [Hk Hp _]. destruct T_last as (e & He & Hek & Hl).
  destruct (T_lookup (Nat.min (ppos s + n) (length T - 1))) as (t & Ht & _); [lia|].
  exists (kind t), s. unfold peek_at, look. rewrite Hk, usub_ok by lia. cbn [res_bind]. by rewrite Ht.
Qed.

Lemma cur_span_wp s : inv s → wp cur_span (λ sp s', s' = s ∧ file sp = fid) s.
Proof.
  intros [Hk Hp _]. destruct (T_lookup _ Hp) as (t & Ht & Hok & _). exists (span t), s.
  unfold cur_span. by rewrite Hk, Ht.
Qed.

Lemma prev_span_wp s : inv s → wp prev_span (λ sp s', s' = s ∧ file sp = fid) s.
Proof.
  intros [Hk Hp _]. destruct (T_lookup (ppos s - 1)) as (t & Ht & Hok & _); [lia|]. exists (span t), s.
  unfold prev_span. by rewrite Hk, Ht.
Qed.

Lemma merge_wp a b s : file a = fid → file b = fid → wp (merge_ a b) (λ sp s', s' = s ∧ file sp = fid) s.
Proof.
  intros Ha Hb. unfold merge_. eapply wp_lift; [apply merge_same; congruence|]. done.
Qed.

Lemma cur_not_last s : inv s → cur s ≠ TokKind.Eof → (ppos s + 1 < length T)%nat.
Proof.
  intros [_ Hp _] Hc. destruct T_last as (e & He & Hek & Hl). unfold cur in Hc.
  destruct (decide (ppos s = length T - 1)%nat) as [Heq|]; [|lia]. rewrite Heq, He in Hc. done.
Qed.

Lemma bump_wp s :
  inv s → wp bump (λ t s', ext s s' ∧ kind t = cur s ∧ tok_ok holes fid t ∧ pdiags s' = pdiags s ∧
                           (cur s ≠ TokKind.Eof → ppos s' = ppos s + 1)%nat) s.
Proof.
  intros Hi. pose proof Hi as [Hk Hp Hd]. destruct (T_lookup _ Hp) as (t & Ht & Hok). exists t.
  unfold bump. rewrite Hk, Ht. cbn [unwrap res_bind].
  assert (cur s = kind t) as Hc by (unfold cur; by rewrite Ht).
  destruct (eof_dec (kind t)) as [He|He].
  - exists s. split; [by rewrite He|]. split_and!; [by apply ext_refl|done|done|done|congruence].
  - exists (set_ppos s (ppos s + 1)). split; [by destruct (kind t)|].
    pose proof (cur_not_last s Hi) as Hl. rewrite Hc in Hl.
    split_and!; [|done|done|done|done]. split; simpl; try done; try lia. split; simpl; [done|auto|done].
Qed.

Lemma err_wp msg sp s :
  inv s → wp (err msg sp) (λ _ s', ext s s' ∧ (perrs s < perrs s')%nat ∧ ppos s' = ppos s) s.
Proof.
  intros [Hk Hp Hd]. exists tt. eexists. split; [done|]. simpl. rewrite error_count_error. split_and!; [|lia|done].
  split; simpl; try done; try lia. apply extends_error.
Qed.

End Tokens.

(** ** Automation

    [wp_go] runs through a function body: it applies the rules of the calculus
    and the specifications in the hint database [wp], keeps the facts each step
    yields ([ext] and what [lia] needs of it), and splits on the conditions. *)
Create HintDb wp discriminated.
#[export] Hint Resolve peek_wp peek_at_wp cur_span_wp prev_span_wp merge_wp bump_wp err_wp : wp.
#[export] Hint Extern 1 (_ = _) => first [assumption | reflexivity | congruence] : wp.
#[export] Hint Extern 1 (_ ≠ _) => discriminate : wp.
#[export] Hint Extern 1 (_ < _)%nat => lia : wp.
#[export] Hint Extern 1 (_ ≤ _)%nat => lia : wp.

(** The token under the cursor is not the end mark. *)
Ltac cur_ne := let E := fresh in intros E; first
  [ congruence | match goal with H : context [cur _ _] |- _ => rewrite E in H; discriminate H end ].

#[export] Hint Extern 1 (cur _ _ ≠ TokKind.Eof) => cur_ne : wp.

(** Break a specification's conclusion into facts about the new state. *)
Ltac wp_facts H :=
  lazymatch type of H with
  | _ ∧ _ => let H1 := fresh "H" in let H2 := fresh "H" in destruct H as [H1 H2]; wp_facts H1; wp_facts H2
  | ext ?T ?s ?s' =>
      pose proof (ext_inv T s s' H); pose proof (ext_pos T s s' H); pose proof (ext_errs T s s' H)
  | opt_post _ _ _ ?o _ =>
      let H1 := fresh "H" in let H2 := fresh "H" in destruct H as [H1 H2]; wp_facts H1;
      tryif is_var o then destruct o; cbn beta iota in H2; wp_facts H2 else (cbn beta iota in H2; wp_facts H2)
  | guess _ _ _ _ => unfold guess in H; wp_facts H
  | moved _ _ _ _ => let H1 := fresh "H" in let H2 := fresh "H" in destruct H as [H1 H2]; wp_facts H2
  | ?s' = ?s => first [is_var s'; subst s' | idtac]
  | if ?b then _ else _ => lazymatch type of b with bool => destruct b; wp_facts H | _ => idtac end
  | cur _ _ ≠ TokKind.Eof → _ => try specialize (H ltac:(cur_ne))
  | cur ?T ?s = ?k → ?P => try (match goal with E : cur T s = k |- _ => specialize (H E) end)
  | any _ => clear H
  | any2 _ _ => clear H
  | True => clear H
  | _ => idtac
  end.

Ltac wp_intro := cbn beta; let a := fresh "a" in let s' := fresh "s" in let H := fresh "H" in
  intros a s' H; wp_facts H.

Ltac wp_spec := eapply wp_mono; [solve [eauto 6 with wp]|]; wp_intro.

(** The rule for the list shapes, given below with their specification. *)
Ltac wp_list := fail.
(** The rule for a loop whose accumulator needs no invariant. *)
Ltac wp_any_loop := fail.

Ltac wp_step :=
  lazymatch goal with
  | |- wp (bind _ _) _ _ => apply wp_bind
  | |- wp (try_ _ _) _ _ => apply wp_try
  | |- wp (try_loop _ _) _ _ => apply wp_try_loop
  | |- wp (ret _) _ _ => apply wp_ret
  | |- wp (next_ _) _ _ => apply wp_ret
  | |- wp (break_ _) _ _ => apply wp_ret
  | |- wp (if ?b then _ else _) _ _ => destruct b eqn:?
  | |- wp (match ?x with _ => _ end) _ _ => destruct x eqn:?
  | |- wp (let _ := _ in _) _ _ => cbv zeta
  | |- wp (comma_list _ _) _ _ => wp_list
  | |- wp (line_list _ _) _ _ => wp_list
  | |- wp (loop_ _ _) _ _ => fail
  | |- wp _ _ _ => wp_spec
  end; cbn beta iota.

(** Chain the [ext] facts of the context. *)
Ltac ext_tac := lazymatch goal with
  | |- ext _ ?s ?s => by apply ext_refl
  | H : ext _ ?x ?s' |- ext _ ?s ?s' =>
      first [exact H | apply (ext_trans _ s x s'); [clear H; ext_tac|exact H]]
  end.

#[export] Hint Extern 2 (ext _ _ _) => ext_tac : wp.

Ltac wp_fin := unfold opt_post, moved, any, any2; cbn beta iota; split_and?;
  try (by eauto); try ext_tac; try lia.

Ltac wp_run := repeat wp_step; wp_fin.
Ltac wp_go := repeat (first [wp_step | wp_any_loop]); wp_fin.

Section Basics.
Context (holes : bool) (fid : FileId) (T : list Token).
Hypothesis (HT : toks_ok holes fid T).

Abbreviation inv := (inv T).
Abbreviation ext := (ext T).
Abbreviation cur := (cur T).
Abbreviation opt_post := (opt_post T).

Lemma at_wp k s :
  nullary k = true → inv s → wp (at_ k) (λ b s', s' = s ∧ if b : bool then cur s = k else cur s ≠ k) s.
Proof using HT.
  intros Hn Hi. unfold at_. wp_go. destruct (kind_eqb (cur s) k) eqn:E.
  - by apply kind_eqb_nullary.
  - intros <-. by rewrite kind_eqb_refl_nullary in E.
Qed.
#[local] Hint Resolve at_wp : wp.

Lemma eat_wp k s :
  nullary k = true → k ≠ TokKind.Eof → inv s →
  wp (eat k) (λ b s', ext s s' ∧ perrs s' = perrs s ∧
     if b : bool then cur s = k ∧ ppos s' = S (ppos s) else s' = s ∧ cur s ≠ k) s.
Proof using HT.
  intros Hn He Hi. unfold eat. wp_go. congruence.
Qed.
#[local] Hint Resolve eat_wp : wp.

Lemma err_here_wp msg s :
  inv s → wp (err_here msg) (λ _ s', ext s s' ∧ (perrs s < perrs s')%nat ∧ ppos s' = ppos s) s.
Proof using HT. intros. unfold err_here. wp_go. Qed.
#[local] Hint Resolve err_here_wp : wp.

Lemma expect_wp k what s :
  nullary k = true → k ≠ TokKind.Eof → inv s →
  wp (expect k what) (λ b s', ext s s' ∧ (cur s = k → (ppos s < ppos s')%nat)) s.
Proof using HT. intros. unfold expect. wp_go. Qed.
#[local] Hint Resolve expect_wp : wp.

Lemma at_stmt_end_wp s : inv s → wp at_stmt_end (λ b s', s' = s ∧ b = is_end (cur s)) s.
Proof using HT. intros. unfold at_stmt_end. wp_go. Qed.
#[local] Hint Resolve at_stmt_end_wp : wp.

Lemma eat_stmt_end_wp s : inv s → wp eat_stmt_end (λ b s', ext s s') s.
Proof using HT. intros. unfold eat_stmt_end. wp_go. Qed.
#[local] Hint Resolve eat_stmt_end_wp : wp.

(** A loop over the tokens: the invariant is relative to the state [s0] at the
    loop's entry, and every turn consumes a token. *)
Lemma wp_token_loop {A B} (body : A → M (A + B)) (I : A → Parser → Prop) (Q : B → Parser → Prop) a s0 :
  inv s0 → I a s0 →
  (∀ a s, I a s → ext s0 s →
    wp (body a) (λ r s', match r with
      | inl a' => ext s s' ∧ (ppos s < ppos s')%nat ∧ I a' s'
      | inr b => Q b s'
      end) s) →
  wp (loop_ body a) Q s0.
Proof using HT.
  intros Hi HI Hbody.
  apply (wp_loop (λ _ s, (length T - ppos s)%nat) (λ a s, I a s ∧ ext s0 s)).
  - split; [done|by apply ext_refl].
  - rewrite (inv_tokens _ _ Hi). lia.
  - intros a' s [HI' He]. eapply wp_mono; [by apply Hbody|]. intros [a''|b] s' H; [|done].
    destruct H as (H1 & H2 & H3). split; [split; [done|by eapply ext_trans]|].
    pose proof (inv_pos _ _ (ext_inv _ _ _ H1)). lia.
Qed.

Lemma skip_ends_wp s :
  inv s → wp skip_ends (λ _ s', ext s s' ∧ pdiags s' = pdiags s ∧ is_end (cur s') = false ∧
                                (is_end (cur s) = false → s' = s)) s.
Proof using HT.
  intros Hi. unfold skip_ends.
  apply (wp_loop (λ _ s, (length T - ppos s)%nat)
    (λ _ s1, ext s s1 ∧ pdiags s1 = pdiags s ∧ (is_end (cur s) = false → s1 = s))).
  - split_and!; [by apply ext_refl|done|done].
  - rewrite (inv_tokens _ _ Hi). lia.
  - intros _ s1 (He & Hd & Hs). pose proof (ext_inv _ _ _ He). wp_go; try congruence.
    + intros E. specialize (Hs E). congruence.
    + match goal with H : ext s1 _ |- _ => pose proof (inv_pos _ _ (ext_inv _ _ _ H)) end. lia.
Qed.
#[local] Hint Resolve skip_ends_wp : wp.

Lemma expect_stmt_end_wp s : inv s → wp expect_stmt_end (λ _ s', ext s s') s.
Proof using HT. intros. unfold expect_stmt_end. wp_go. Qed.
#[local] Hint Resolve expect_stmt_end_wp : wp.

Lemma span_from_wp start s : file start = fid → inv s → wp (span_from start) (λ sp s', s' = s ∧ file sp = fid) s.
Proof using HT. intros. unfold span_from. wp_go. Qed.
#[local] Hint Resolve span_from_wp : wp.

Lemma at_close_wp k s :
  nullary k = true → inv s →
  wp (at_close k) (λ b s', s' = s ∧ if b : bool then any tt else cur s ≠ TokKind.Eof ∧ cur s ≠ k) s.
Proof using HT. intros. unfold at_close. wp_go. Qed.
#[local] Hint Resolve at_close_wp : wp.

Lemma identifier_at_wp n s :
  inv s → wp (identifier_at n) (λ b s', s' = s ∧ if b : bool then (ppos s + n + 1 < length T)%nat else any tt) s.
Proof using HT.
  intros. unfold identifier_at. wp_go. case_if; [|done]. apply Nat.lt_nge. intros Hl.
  rewrite (look_end _ _ _ HT _ _ Hl) in *. done.
Qed.
#[local] Hint Resolve identifier_at_wp : wp.

Lemma noninitial_path_segment_at_wp n s :
  inv s → wp (noninitial_path_segment_at n) (λ b s', s' = s ∧ if b : bool then (ppos s + n + 1 < length T)%nat else any tt) s.
Proof using HT. apply identifier_at_wp. Qed.
#[local] Hint Resolve noninitial_path_segment_at_wp : wp.

(** The two list shapes of the grammar, for any item that consumes a token. *)
Lemma comma_list_wp {A} close (item : M (option A)) (R : A → Prop) s :
  nullary close = true → inv s →
  (∀ s1, ext s s1 → wp item (opt_post (moved s1 R) s1) s1) →
  wp (comma_list close item) (opt_post (λ l _, Forall R l) s) s.
Proof using HT.
  intros Hc Hi Hitem. apply (wp_token_loop _ (λ l _, Forall R l)); [done|done|].
  intros acc s1 Hacc He. pose proof (ext_inv _ _ _ He). pose proof (ext_errs _ _ _ He).
  wp_go; apply Forall_app; split; try done; by constructor.
Qed.

Lemma line_list_wp {A} close (item : M (option A)) (R : A → Prop) s :
  nullary close = true → inv s →
  (∀ s1, ext s s1 → cur s1 ≠ TokKind.Eof → wp item (opt_post (moved s1 R) s1) s1) →
  wp (line_list close item) (opt_post (λ l _, Forall R l) s) s.
Proof using HT.
  intros Hc Hi Hitem. apply (wp_token_loop _ (λ l _, Forall R l)); [done|done|].
  intros acc s1 Hacc He. pose proof (ext_inv _ _ _ He). pose proof (ext_errs _ _ _ He).
  wp_go; apply Forall_app; split; try done; by constructor.
Qed.
End Basics.

#[export] Hint Resolve at_wp eat_wp err_here_wp expect_wp at_stmt_end_wp eat_stmt_end_wp skip_ends_wp
  expect_stmt_end_wp span_from_wp at_close_wp identifier_at_wp noninitial_path_segment_at_wp : wp.

(** The facts an [ext] hypothesis of a loop's invariant carries. *)
Ltac ext_intro := let s' := fresh "s" in let H := fresh "H" in intros s' H; intros; wp_facts H.

Ltac wp_list ::=
  eapply wp_mono;
    [ lazymatch goal with
      | |- wp (comma_list _ _) _ _ => eapply (comma_list_wp _ _ _ ltac:(eassumption) _ _ any)
      | |- wp (line_list _ _) _ _ => eapply (line_list_wp _ _ _ ltac:(eassumption) _ _ any)
      end; [reflexivity|eassumption|ext_intro; wp_go]
    | wp_intro ].

(** Enter a token loop with the invariant [I] on its accumulator. *)
Ltac wp_loop_with I := eapply (wp_token_loop _ _ _ ltac:(eassumption) _ I);
  [eassumption| |let a := fresh "acc" in intros a; let s' := fresh "s" in let HI := fresh "HI" in
   let H := fresh "H" in intros s' HI H; wp_facts H].

Ltac wp_any_loop ::= lazymatch goal with
  | |- wp (loop_ (A := ?A) _ _) _ _ => wp_loop_with (λ (_ : A) (_ : Parser), True); [exact I|]; cbn beta iota
  end.

Lemma group_or_tuple_ok {A} (P : A → Prop) tuple l : Forall P l → P (tuple l) → P (group_or_tuple tuple l).
Proof. intros Hl Ht. destruct l as [|x [|y l]]; try done. by inversion Hl. Qed.

Lemma Forall_snoc {A} (P : A → Prop) l x : Forall P l → P x → Forall P (l ++ [x]).
Proof. intros. apply Forall_app. split; [done|]. by constructor. Qed.

(** *** Names, paths and types *)
Section Names.
Context (holes : bool) (fid : FileId) (T : list Token).
Hypothesis (HT : toks_ok holes fid T).

Abbreviation inv := (inv T).
Abbreviation ext := (ext T).
Abbreviation cur := (cur T).
Abbreviation opt_post := (opt_post T).

Definition ident_ok (id : Ident) : Prop := file (id_span id) = fid.
Definition ty_ok (t : Ty) : Prop := file (ty_span t) = fid.

Lemma reject_wp word s : inv s → wp (reject word) (λ _ s', ext s s' ∧ ppos s' = ppos s) s.
Proof using HT.
  intros Hi. eexists tt, _. split; [done|]. case_if; [split; [by apply ext_refl|done]|].
  destruct Hi. split; [|done]. split; simpl; try done; try lia. by apply prefix_app_r.
Qed.
#[local] Hint Resolve reject_wp : wp.

Lemma cur_pos s s' : ppos s' = ppos s → cur s' = cur s.
Proof. intros H. unfold ParserSpec.cur. by rewrite H. Qed.

Lemma parse_ident_wp what s : inv s → wp (parse_ident what) (opt_post (moved s ident_ok) s) s.
Proof using HT.
  intros Hi. unfold parse_ident. do 4 wp_step. destruct (cur s) eqn:Hcur; cbn [reserved_word]; try (by wp_go);
    do 4 wp_step; (match goal with |- wp _ _ ?s2 =>
      assert (cur s2 = cur s) as Hc by (apply cur_pos; congruence) end); wp_go.
Qed.
#[local] Hint Resolve parse_ident_wp : wp.

Lemma rejected_wp word s : wp (rejected word) (λ _ s', s' = s) s.
Proof. by eexists _, _. Qed.
#[local] Hint Resolve rejected_wp : wp.

Lemma parse_referenced_ident_wp what s : inv s → wp (parse_referenced_ident what) (opt_post (moved s ident_ok) s) s.
Proof using HT.
  intros Hi. unfold parse_referenced_ident. do 2 wp_step.
  destruct (cur s) eqn:Hcur; cbn [reserved_word]; wp_go;
    match goal with H : tok_ok _ _ _ |- _ => apply H end.
Qed.
#[local] Hint Resolve parse_referenced_ident_wp : wp.

Lemma parse_noninitial_path_segment_wp what s :
  inv s → wp (parse_noninitial_path_segment what) (opt_post (moved s ident_ok) s) s.
Proof using HT. intros Hi. unfold parse_noninitial_path_segment. wp_go. Qed.
#[local] Hint Resolve parse_noninitial_path_segment_wp : wp.

Lemma path_tail_wp segs s :
  inv s → wp (path_tail segs) (λ l s', ext s s' ∧
    match segs, l with _ :: _, [] => False | [], _ :: _ => (ppos s < ppos s')%nat | _, _ => True end) s.
Proof using HT.
  intros Hi. apply (wp_token_loop _ _ _ HT _ (λ l s', match segs, l with
    | _ :: _, [] => False | [], _ :: _ => (ppos s < ppos s')%nat | _, _ => True end)); [done|by destruct segs|].
  intros l s1 Hl He. pose proof (ext_inv _ _ _ He). pose proof (ext_pos _ _ _ He).
  wp_go; destruct segs, l; simpl; try done; try lia; match goal with o : option Ident |- _ => destruct o end; simpl in *; try done; lia.
Qed.
#[local] Hint Resolve path_tail_wp : wp.

(** A path: without segments it was reported, otherwise it consumed a token. *)
Lemma parse_path_wp s :
  inv s → wp parse_path (λ p s', ext s s' ∧ file (path_span p) = fid ∧
    match segments p with [] => (perrs s < perrs s')%nat | _ => (ppos s < ppos s')%nat end) s.
Proof using HT.
  intros Hi. unfold parse_path. wp_go; simpl in *; destruct a0; simpl in *; try done; lia.
Qed.
#[local] Hint Resolve parse_path_wp : wp.

Lemma fn_type_mode_wp s : inv s → wp fn_type_mode (λ _ s', ext s s') s.
Proof using HT. intros. unfold fn_type_mode. wp_go. Qed.
#[local] Hint Resolve fn_type_mode_wp : wp.

Lemma fixed_array_length_wp t s : inv s → wp (fixed_array_length t) (λ n s', ext s s' ∧ 0 ≤ n ≤ U32_MAX) s.
Proof using HT. intros. unfold fixed_array_length. wp_go; b2p; try lia; vm_compute; intuition congruence. Qed.
#[local] Hint Resolve fixed_array_length_wp : wp.

Section Types.
Context (n : nat) (pt : M (option Ty)).
Hypothesis (Hpt : ∀ s, inv s → (length T < n + ppos s)%nat → wp pt (opt_post (moved s ty_ok) s) s).

Lemma parse_array_type_wp s :
  inv s → cur s ≠ TokKind.Eof → (length T ≤ n + ppos s)%nat → wp (parse_array_type pt) (opt_post (moved s ty_ok) s) s.
Proof using HT Hpt. intros. unfold parse_array_type. wp_go. Qed.

Lemma parse_fn_type_wp s :
  inv s → cur s ≠ TokKind.Eof → (length T ≤ n + ppos s)%nat → wp (parse_fn_type pt) (opt_post (moved s ty_ok) s) s.
Proof using HT Hpt. intros. unfold parse_fn_type. wp_go. Qed.

Lemma parse_paren_type_wp s :
  inv s → cur s ≠ TokKind.Eof → (length T ≤ n + ppos s)%nat → wp (parse_paren_type pt) (opt_post (moved s ty_ok) s) s.
Proof using HT Hpt.
  intros. unfold parse_paren_type. wp_run. wp_loop_with (λ l (_ : Parser), Forall ty_ok l); [by constructor|].
  wp_go; first [by apply group_or_tuple_ok | by apply Forall_snoc].
Qed.

Lemma parse_named_type_wp s :
  inv s → (length T ≤ n + ppos s)%nat → wp (parse_named_type pt) (opt_post (moved s ty_ok) s) s.
Proof using HT Hpt.
  intros. unfold parse_named_type. do 2 wp_step. destruct (segments a) eqn:Hs; wp_go.
Qed.
#[local] Hint Resolve parse_array_type_wp parse_fn_type_wp parse_paren_type_wp parse_named_type_wp : wp.

Lemma parse_type_body_wp s :
  inv s → (length T ≤ n + ppos s)%nat → wp (parse_type_body pt) (opt_post (moved s ty_ok) s) s.
Proof using HT Hpt. intros. unfold parse_type_body. wp_go. Qed.
End Types.

Lemma parse_type_fuel_wp n s :
  inv s → (length T < n + ppos s)%nat → wp (parse_type_fuel n) (opt_post (moved s ty_ok) s) s.
Proof using HT.
  revert s. induction n as [|n IH]; intros s Hi Hn; [pose proof (inv_pos _ _ Hi); lia|].
  apply (parse_type_body_wp n); [done|done|lia].
Qed.

(** [parse_type]: the recursion needs no more levels than there are tokens. *)
Lemma parse_type_wp s : inv s → wp parse_type (opt_post (moved s ty_ok) s) s.
Proof using HT.
  intros Hi. apply (parse_type_fuel_wp _ s Hi). rewrite (inv_tokens _ _ Hi). lia.
Qed.
#[local] Hint Resolve parse_type_wp : wp.

Lemma parse_cast_type_wp s : inv s → wp parse_cast_type (opt_post (moved s ty_ok) s) s.
Proof using HT. intros. unfold parse_cast_type. do 2 wp_step. destruct (segments a) eqn:Hs; wp_go. Qed.

Lemma parse_opt_type_wp k s :
  nullary k = true → k ≠ TokKind.Eof → inv s → wp (parse_opt_type k) (opt_post any2 s) s.
Proof using HT. intros. unfold parse_opt_type. wp_go. Qed.

(** *** Patterns *)
Lemma at_value_pattern_wp s :
  inv s → wp at_value_pattern (λ b s', s' = s ∧ if b : bool then cur s ≠ TokKind.Eof else any tt) s.
Proof using HT. intros. unfold at_value_pattern. wp_go; destruct (cur s); simpl; try done. by case_if. Qed.
#[local] Hint Resolve at_value_pattern_wp : wp.

Lemma parse_pattern_literal_wp s :
  inv s → wp parse_pattern_literal (opt_post (moved s (λ p, file p.2 = fid)) s) s.
Proof using HT.
  intros. unfold parse_pattern_literal. wp_go; match goal with H : tok_ok _ _ _ |- _ => apply H end.
Qed.
#[local] Hint Resolve parse_pattern_literal_wp : wp.

Definition vpat_ok (p : ValuePattern) : Prop := file (vp_span p) = fid.

Lemma parse_single_value_pattern_wp s :
  inv s → wp parse_single_value_pattern (opt_post (moved s vpat_ok) s) s.
Proof using HT. intros. unfold parse_single_value_pattern. wp_go. Qed.
#[local] Hint Resolve parse_single_value_pattern_wp : wp.

Lemma parse_value_patterns_wp s : inv s → wp parse_value_patterns (opt_post (moved s any) s) s.
Proof using HT.
  intros. unfold parse_value_patterns. wp_go.
Qed.
#[local] Hint Resolve parse_value_patterns_wp : wp.

Lemma parse_or_pattern_wp id s : inv s → ident_ok id → wp (parse_or_pattern id) (opt_post any2 s) s.
Proof using HT.
  intros. unfold parse_or_pattern. wp_go.
Qed.
#[local] Hint Resolve parse_or_pattern_wp : wp.

Lemma parse_variant_pattern_wp id s : inv s → wp (parse_variant_pattern id) (opt_post any2 s) s.
Proof using HT.
  intros. unfold parse_variant_pattern. wp_go.
Qed.
#[local] Hint Resolve parse_variant_pattern_wp : wp.

Lemma parse_arm_pattern_wp s : inv s → wp parse_arm_pattern (opt_post (moved s any) s) s.
Proof using HT. intros. unfold parse_arm_pattern. wp_go. Qed.

(** *** Lookahead: the state does not change *)
Abbreviation look := (look T).
Abbreviation guess := (guess T).

Lemma look_lt s n : look s n ≠ TokKind.Eof → (ppos s + n + 1 < length T)%nat.
Proof using HT. intros H. apply Nat.lt_nge. intros Hl. apply H. by eapply look_end. Qed.

Lemma align_scan_wp s : inv s → look s 1 = TokKind.LParen → wp align_scan (λ _ s', s' = s) s.
Proof using HT.
  intros Hi Hl. pose proof (look_lt s 1). unfold align_scan.
  apply (wp_loop (λ p _, (length T - p.1)%nat)
    (λ p s', s' = s ∧ (p = (1, 0)%nat ∨ (1 ≤ p.2)%nat))); [auto|rewrite (inv_tokens _ _ Hi); simpl; lia|].
  intros [i d] ? (-> & [[= -> ->]|Hd]); do 2 wp_step.
  { rewrite Hl. pose proof (look_lt s 1 ltac:(congruence)). wp_go; simpl; lia. }
  simpl in Hd. destruct (look s i) eqn:Hk;
    try (pose proof (look_lt s i ltac:(congruence)); wp_go; simpl in *; lia).
  2: by wp_go.
  apply wp_bind. eapply wp_lift; [apply usub_ok; lia|].
  pose proof (look_lt s i ltac:(congruence)). wp_go; b2p; simpl in *; lia.
Qed.
#[local] Hint Resolve align_scan_wp : wp.

Lemma is_lparen_inv k : is_lparen k = true → k = TokKind.LParen.
Proof. by destruct k. Qed.

Lemma looks_like_aligned_binding_wp s : inv s → wp looks_like_aligned_binding (guess s) s.
Proof using HT.
  intros Hi. unfold looks_like_aligned_binding, ParserSpec.guess. wp_run.
  assert (look s 1 = TokKind.LParen) by (b2p; by apply is_lparen_inv). wp_run; try (case_if; [|done]); cur_ne.
Qed.

Lemma destructure_scan_wp s : inv s → wp destructure_scan (λ _ s', s' = s) s.
Proof using HT.
  intros Hi. pose proof (inv_pos _ _ Hi). unfold destructure_scan.
  apply (wp_loop (λ p _, (length T - p.1)%nat) (λ p s', s' = s));
    [done|rewrite (inv_tokens _ _ Hi); simpl; lia|].
  intros [i d] ? ->. wp_go; try done; simpl in *; lia.
Qed.
#[local] Hint Resolve destructure_scan_wp : wp.

Lemma looks_like_destructure_wp s : inv s → wp looks_like_destructure (guess s) s.
Proof using HT.
  intros Hi. unfold looks_like_destructure, ParserSpec.guess. wp_run. case_if; [|done]. congruence.
Qed.

Lemma struct_lit_path_len_wp s : inv s → wp struct_lit_path_len (λ _ s', s' = s) s.
Proof using HT.
  intros Hi. pose proof (inv_pos _ _ Hi). unfold struct_lit_path_len. apply wp_bind.
  apply (wp_loop (λ p _, (length T - p.2)%nat) (λ p s', s' = s));
    [done|rewrite (inv_tokens _ _ Hi); simpl; lia|].
  intros [n i] ? ->. wp_go; try done; simpl in *; lia.
Qed.

(** *** Operators and attributes *)
Lemma binop_wp s :
  inv s → wp binop (λ o s', s' = s ∧ match o with
    | Some (_, bp, n) => (1 ≤ n ≤ 2)%nat ∧ 1 ≤ bp ≤ 5 ∧ cur s ≠ TokKind.Eof | None => any tt end) s.
Proof using HT.
  intros. unfold binop. wp_go. destruct (cur s) eqn:E; simpl; try done; try (split_and!; by (lia || discriminate));
    destruct (look s 1); split_and!; by (lia || discriminate).
Qed.

Lemma bump_n_ext n s : inv s → wp (bump_n n) (λ _ s', ext s s') s.
Proof using HT. revert s. induction n as [|n IH]; intros s Hi; cbn [bump_n]; wp_go. Qed.

Lemma bump_n_wp n s :
  inv s → cur s ≠ TokKind.Eof → (1 ≤ n)%nat → wp (bump_n n) (λ _ s', ext s s' ∧ (ppos s < ppos s')%nat) s.
Proof using HT.
  intros Hi Hc Hn. destruct n as [|n]; [lia|]. cbn [bump_n]. do 2 wp_step.
  eapply wp_mono; [by apply bump_n_ext|]. wp_intro. wp_go.
Qed.

Lemma parse_align_attr_wp s :
  inv s → cur s ≠ TokKind.Eof →
  wp parse_align_attr (λ o s', ext s s' ∧ (ppos s < ppos s')%nat ∧
    match o with Some n => 0 < n ≤ 2 ^ 29 ∧ is_power_of_two n = true | None => (perrs s < perrs s')%nat end) s.
Proof using HT.
  intros. unfold parse_align_attr. wp_go; b2p; try lia; done.
Qed.
#[local] Hint Resolve parse_align_attr_wp : wp.

Lemma parse_layout_attr_wp c s :
  inv s → cur s ≠ TokKind.Eof → wp (parse_layout_attr c) (λ _ s', ext s s' ∧ (ppos s < ppos s')%nat) s.
Proof using HT. intros. unfold parse_layout_attr. wp_go. Qed.
#[local] Hint Resolve parse_layout_attr_wp : wp.

Lemma parse_type_attrs_wp s : inv s → wp parse_type_attrs (λ _ s', ext s s') s.
Proof using HT. intros. unfold parse_type_attrs. wp_go. Qed.
End Names.

#[export] Hint Resolve parse_ident_wp rejected_wp parse_referenced_ident_wp parse_noninitial_path_segment_wp
  parse_path_wp parse_type_wp parse_cast_type_wp parse_opt_type_wp at_value_pattern_wp parse_arm_pattern_wp
  looks_like_aligned_binding_wp looks_like_destructure_wp struct_lit_path_len_wp binop_wp bump_n_wp
  parse_align_attr_wp parse_type_attrs_wp : wp.
