(* ===== verification/GrammarSpec.v ===== *)
(** * Correctness of the parser: expressions, blocks and statements

    The specifications of the mutually recursive part of the grammar, first
    against an abstract knot that behaves well for one token less, then for the
    knot itself by induction on the fuel. *)
From Stdlib Require Import ZArith Lia SpecFloat.
From S2P Require Import Prelude Utf8 Span Diag Text Token Lexer LexerSpec Ast Parser TemplateSpec ParserSpec.
Local Open Scope Z_scope.

(** ** Template holes are lexed and shifted without overflow *)
Lemma map_res_ok {A B} (f : A → res B) (P : A → B → Prop) l :
  Forall (λ a, ∃ b, f a = Ret b ∧ P a b) l → ∃ bs, map_res f l = Ret bs ∧ Forall2 P l bs.
Proof.
  induction 1 as [|a l (b & Hb & HP) _ (bs & Hbs & HF)]; simpl; [by exists []|].
  rewrite Hb. cbn [res_bind]. rewrite Hbs. cbn [res_bind]. exists (b :: bs). split; [done|by constructor].
Qed.

Lemma u32_add_ok a b : a + b ≤ U32_MAX → u32_add a b = Ret (a + b).
Proof. intros. unfold u32_add. by rewrite (proj2 (Z.leb_le _ _) H). Qed.

Lemma remap_ok base sp n :
  lo sp ≤ n → hi sp ≤ n → base + n ≤ U32_MAX → remap base sp = Ret (MkSpan (file sp) (lo sp + base) (hi sp + base)).
Proof. intros. unfold remap. rewrite u32_add_ok by lia. cbn [res_bind]. by rewrite u32_add_ok by lia. Qed.

Lemma extends_foldl_push d l : extends d (foldl Diag.push d l).
Proof.
  revert d. induction l as [|x l IH]; intros d; simpl; [done|]. etrans; [apply extends_push|apply IH].
Qed.

(** The tokens of a hole, shifted into the literal: a well-formed vector in
    which no string can hold a template hole. *)
Lemma hole_tokens fid src base :
  "}"%u8 ∉ src → base + Z.of_nat (length src) ≤ U32_MAX →
  ∃ toks d T ds, tokenize fid src diags_new = Ret (toks, d) ∧ map_res (remap_token base) toks = Ret T ∧
    map_res (remap_diag base) (items d) = Ret ds ∧ toks_ok false fid T.
Proof.
  intros Hb Hu. destruct (tokenize_stream fid src diags_new) as (body & d & Ht & (l & Hl & Fl) & _ & Fb).
  simpl in Hl. assert (Forall (λ t, ∃ t', remap_token base t = Ret t' ∧ (kind t' = kind t ∧ file (span t') = fid)) 
    (body ++ [MkToken TokKind.Eof (mk_span fid (length src) (length src)) None])) as HF.
  { assert (∀ t, span_in fid src (span t) →
      ∃ t', remap_token base t = Ret t' ∧ (kind t' = kind t ∧ file (span t') = fid)) as Hone.
    { intros t (Hf & Hlo & Hhi). unfold remap_token. rewrite (remap_ok _ _ (Z.of_nat (length src))) by lia.
      cbn [res_bind]. eexists. by split. }
    apply Forall_app. split; [|constructor; [|done]].
    - eapply Forall_impl; [exact Fb|]. intros t (a & b & [Hsp Hr _]). apply Hone. rewrite Hsp. apply span_in_mk; lia.
    - apply Hone. by apply span_in_mk. }
  apply map_res_ok in HF as (T & HT & HF).
  assert (Forall (λ x, ∃ y, remap_diag base x = Ret y ∧ True) (items d)) as HD.
  { rewrite Hl. eapply Forall_impl; [exact Fl|]. intros x (sp & Hx & _ & Hlo & Hhi). unfold remap_diag.
    rewrite Hx, (remap_ok _ _ (Z.of_nat (length src))) by lia. cbn [res_bind]. eauto. }
  apply map_res_ok in HD as (ds & HD & _). eexists _, d, T, ds. split_and!; [exact Ht|exact HT|exact HD|].
  apply Forall2_app_inv_l in HF as (T1 & T2 & H1 & H2 & ->).
  inversion H2 as [|? e ? ? [Hke Hfe] H2' E1 E2]; subst. inversion H2'; subst. clear H2 H2'. split.
  - exists e. by rewrite last_snoc.
  - apply Forall_app. split; [|constructor; [|done]].
    + apply Forall_lookup. intros i t' Ht'. destruct (Forall2_lookup_r _ _ _ _ _ H1 Ht') as (t & Hi & Hk & Hf).
      split; [done|]. intros s Hs. rewrite Hk in Hs. rewrite Forall_lookup in Fb.
      destruct (Fb _ _ Hi) as (a & b & [_ _ Htx]). unfold spells in Htx. rewrite Hs in Htx.
      destruct Htx as (_ & Hv & _ & Hin). split; [done|]. intros H. by apply Hin in H.
    + split; [done|]. intros s. by rewrite Hke.
Qed.

Section Grammar.
Context (holes : bool) (fid : FileId) (T : list Token).
Hypothesis (HT : toks_ok holes fid T).

Abbreviation inv := (inv T).
Abbreviation ext := (ext T).
Abbreviation cur := (cur T).
Abbreviation opt_post := (opt_post T).

Definition expr_ok (e : Expr) : Prop := file (expr_span e) = fid.
Definition block_ok (b : Block) : Prop := file (block_span b) = fid.

(** A knot that behaves with fewer than [n] tokens left. *)
Record good (n : nat) (k : Knot) : Prop := {
  good_expr bp s : inv s → (length T < n + ppos s)%nat → wp (k_expr k bp) (opt_post (moved s expr_ok) s) s;
  good_prefix s : inv s → (length T < n + ppos s)%nat → wp (k_prefix k) (opt_post (moved s expr_ok) s) s;
  good_if s : inv s → cur s = TokKind.If → (length T < n + ppos s)%nat → wp (k_if k) (opt_post (moved s expr_ok) s) s;
  good_sub T' s : holes = true → toks_ok false fid T' → ParserSpec.inv T' s →
    wp (k_sub k) (ParserSpec.opt_post T' (moved s expr_ok) s) s
}.

Section WithKnot.
Context (n : nat) (k : Knot).
Hypothesis (Hk : good n k).

Lemma k_expr_wp bp s : inv s → (length T < n + ppos s)%nat → wp (k_expr k bp) (opt_post (moved s expr_ok) s) s.
Proof using Hk. apply (good_expr _ _ Hk). Qed.
Lemma k_prefix_wp s : inv s → (length T < n + ppos s)%nat → wp (k_prefix k) (opt_post (moved s expr_ok) s) s.
Proof using Hk. apply (good_prefix _ _ Hk). Qed.
Lemma k_if_wp s :
  inv s → cur s = TokKind.If → (length T < n + ppos s)%nat → wp (k_if k) (opt_post (moved s expr_ok) s) s.
Proof using Hk. apply (good_if _ _ Hk). Qed.
#[local] Hint Resolve k_expr_wp k_prefix_wp k_if_wp : wp.

Lemma parse_hole_expr_wp src sp off s :
  inv s → holes = true → file sp = fid → 0 ≤ lo sp → "}"%u8 ∉ src →
  lo sp + 1 + Z.of_nat off + Z.of_nat (length src) ≤ U32_MAX →
  wp (parse_hole_expr k src sp off) (λ e s', ext s s' ∧ ppos s' = ppos s ∧ expr_ok e) s.
Proof using Hk.
  intros Hi Hh Hf Hlo Hb Hu. unfold wp, parse_hole_expr.
  assert (U32_MAX < 2 ^ 32) by done.
  rewrite u32_add_ok by lia. cbn [res_bind]. rewrite (u32_of_small off), u32_add_ok by lia. cbn [res_bind].
  destruct (hole_tokens (file sp) src (lo sp + 1 + Z.of_nat off)) as (toks & d & T' & ds & -> & HT' & Hds & Hok);
    [done|lia|]. cbn [res_bind]. rewrite HT'. cbn [res_bind]. rewrite Hds. cbn [res_bind].
  set (sub := MkParser T' 0 _ false 0 _).
  rewrite Hf in Hok.
  assert (ParserSpec.inv T' sub) as Hsub.
  { destruct (T_last _ _ _ Hok) as (_ & _ & _ & ?). split; simpl; [done|lia|vm_compute; intuition congruence]. }
  assert (extends (pdiags s) (pdiags sub)) as Hd0 by apply extends_foldl_push. clearbody sub. clear HT' Hds.
  match goal with |- ∃ _ _, res_bind (?m sub) _ = _ ∧ _ =>
    assert (wp m (λ o s', ParserSpec.ext T' sub s' ∧ match o with Some e => expr_ok e | None => True end) sub)
      as (o & sub' & -> & He & Ho) end.
  { apply wp_bind. eapply wp_mono; [by apply (good_sub _ _ Hk)|]. intros o s1 H1. wp_facts H1; wp_go. }
  cbn [res_bind]. rewrite (u32_of_small (length src)), u32_add_ok by lia. cbn [res_bind].
  eexists _, _. split; [reflexivity|]. split_and!; [|done|by destruct o].
  destruct Hi as [H1 H2 H3], He as [_ _ He _ _ _]. split; simpl; try done; try lia. by etrans.
Qed.

(** *** Flags and the depth counter are restored *)
Lemma with_nsl_wp {A} b (m : M (option A)) (R : A → Prop) s :
  inv s → wp m (opt_post (moved (set_nsl s b) R) (set_nsl s b)) (set_nsl s b) →
  wp (with_nsl b m) (opt_post (moved s R) s) s.
Proof using Type.
  intros Hi (o & s1 & Hm & He & Ho). unfold wp, with_nsl. rewrite Hm. cbn [res_bind].
  eexists _, _. split; [reflexivity|]. destruct Hi, He as [[? ? ?] ? ? ? ? ?]. simpl in *. split; [|by destruct o].
  split; simpl; try done.
Qed.

Lemma parse_delimited_expr_wp bp s :
  inv s → (length T < n + ppos s)%nat → wp (parse_delimited_expr k bp) (opt_post (moved s expr_ok) s) s.
Proof using Hk.
  intros Hi Hn. apply with_nsl_wp; [done|]. apply k_expr_wp; [|done]. destruct Hi. by split.
Qed.

Lemma header_expr_wp bp s :
  inv s → (length T < n + ppos s)%nat → wp (with_nsl true (k_expr k bp)) (opt_post (moved s expr_ok) s) s.
Proof using Hk.
  intros Hi Hn. apply with_nsl_wp; [done|]. apply k_expr_wp; [|done]. destruct Hi. by split.
Qed.
#[local] Hint Resolve parse_delimited_expr_wp header_expr_wp : wp.

Lemma guarded_wp inner s :
  inv s →
  (∀ s1, inv s1 → ppos s1 = ppos s → wp inner (opt_post (moved s1 expr_ok) s1) s1) →
  wp (guarded inner) (opt_post (moved s expr_ok) s) s.
Proof using HT.
  intros Hi Hinner. pose proof Hi as [Ht Hp Hd]. unfold wp, guarded, u32_incr.
  assert (MAX_EXPR_DEPTH < U32_MAX) by done.
  rewrite (proj2 (Z.ltb_lt (depth s) U32_MAX)) by lia. cbn [res_bind]. simpl (depth (set_depth _ _)).
  assert (∀ d, 0 < d → u32_decr d = Ret (d - 1)) as Hdecr
    by (intros d Hpos; unfold u32_decr; by rewrite (proj2 (Z.ltb_lt _ _) Hpos)).
  destruct (MAX_EXPR_DEPTH <? depth s + 1) eqn:E; b2p.
  - rewrite Hdecr by lia. cbn [res_bind]. change (set_depth (set_depth s (depth s + 1)) (depth s + 1 - 1)) with (set_depth s (depth s + 1 - 1)).
    replace (depth s + 1 - 1) with (depth s) by lia. replace (set_depth s (depth s)) with s by (by destruct s).
    change (wp (bind (err_here (str "expression nests too deeply")) (λ _, ret None)) (opt_post (moved s expr_ok) s) s).
    wp_go.
  - destruct (Hinner (set_depth s (depth s + 1))) as (o & s1 & -> & He & Ho); [by split; simpl; [..|lia]|done|].
    cbn [res_bind]. destruct He as [[? ? ?] ? ? Hd1 ? ?]. simpl in *. rewrite Hdecr by lia. cbn [res_bind].
    eexists _, _. split; [reflexivity|]. split; [|by destruct o].
    split; simpl; try done; [|lia]. split; simpl; [done|done|lia].
Qed.

(** *** Statements and blocks *)
Lemma parse_opt_value_wp s :
  inv s → (length T < n + ppos s)%nat → wp (parse_opt_value k) (opt_post any2 s) s.
Proof using HT Hk. intros. unfold parse_opt_value. wp_go. Qed.
#[local] Hint Resolve parse_opt_value_wp : wp.

Lemma parse_let_tuple_wp s :
  inv s → cur s ≠ TokKind.Eof → (length T ≤ n + ppos s)%nat → wp (parse_let_tuple k) (opt_post (moved s any) s) s.
Proof using HT Hk. intros. unfold parse_let_tuple. wp_go. Qed.

Lemma parse_let_wp align s :
  inv s → (length T ≤ n + ppos s)%nat → wp (parse_let k align) (opt_post (moved s any) s) s.
Proof using HT Hk. intros. unfold parse_let. wp_go. Qed.

Lemma parse_return_wp s :
  inv s → cur s ≠ TokKind.Eof → (length T ≤ n + ppos s)%nat → wp (parse_return k) (opt_post (moved s any) s) s.
Proof using HT Hk. intros. unfold parse_return. wp_go. Qed.

Lemma parse_break_wp s :
  inv s → cur s ≠ TokKind.Eof → (length T ≤ n + ppos s)%nat → wp (parse_break k) (opt_post (moved s any) s) s.
Proof using HT Hk. intros. unfold parse_break. wp_go. Qed.
#[local] Hint Resolve parse_let_tuple_wp parse_let_wp parse_return_wp parse_break_wp : wp.

Lemma parse_stmt_form_wp s :
  inv s → cur s ≠ TokKind.Eof → (length T ≤ n + ppos s)%nat →
  wp (parse_stmt_form k) (λ o s', s' = s ∧ match o with
    | Some m => wp m (opt_post (moved s any) s) s | None => True end) s.
Proof using HT Hk. intros. unfold parse_stmt_form. wp_go; wp_go. Qed.
#[local] Hint Resolve parse_stmt_form_wp : wp.

Lemma parse_expr_stmt_wp s :
  inv s → (length T < n + ppos s)%nat → wp (parse_expr_stmt k) (opt_post (moved s any) s) s.
Proof using HT Hk. intros. unfold parse_expr_stmt. wp_go. Qed.
#[local] Hint Resolve parse_expr_stmt_wp : wp.

Lemma block_loop_wp s : inv s → (length T < n + ppos s)%nat → wp (block_loop k) (opt_post any2 s) s.
Proof using HT Hk. intros. unfold block_loop. wp_go. Qed.
#[local] Hint Resolve block_loop_wp : wp.

(** A block need not be at its opening brace (a missing one is reported). *)
Lemma parse_block_wp s :
  inv s → (length T < n + ppos s)%nat ∨ (cur s = TokKind.LBrace ∧ (length T ≤ n + ppos s)%nat) →
  wp (parse_block k) (opt_post (λ b s', block_ok b ∧ (cur s = TokKind.LBrace → (ppos s < ppos s')%nat)) s) s.
Proof using HT Hk.
  intros Hi Hn. unfold parse_block. do 4 wp_step.
  match goal with H : cur s = TokKind.LBrace → _ |- wp _ _ ?s1 =>
    assert (length T < n + ppos s1)%nat by (destruct Hn as [?|[Hc ?]]; [|specialize (H Hc)]; lia) end.
  wp_go. intros Hc. match goal with H : cur s = TokKind.LBrace → _ |- _ => specialize (H Hc) end. lia.
Qed.

(** The two ways blocks are parsed: after a token, and at a brace. *)
Lemma block_after_wp s :
  inv s → (length T < n + ppos s)%nat → wp (parse_block k) (opt_post (λ b _, block_ok b) s) s.
Proof using HT Hk.
  intros. eapply wp_mono; [apply parse_block_wp; auto|]. intros o s' [He Ho]. split; [done|]. by destruct o as [b|]; [destruct Ho|].
Qed.

Lemma block_brace_wp s :
  inv s → cur s = TokKind.LBrace → (length T ≤ n + ppos s)%nat →
  wp (parse_block k) (opt_post (moved s block_ok) s) s.
Proof using HT Hk.
  intros ? Hc ?. eapply wp_mono; [apply parse_block_wp; auto|]. intros o s' [He Ho]. split; [done|].
  destruct o as [b|]; [|done]. destruct Ho. split; auto.
Qed.
#[local] Hint Resolve block_after_wp | 2 : wp.
#[local] Hint Resolve block_brace_wp | 1 : wp.

(** *** [if], [match] and literals *)
Lemma parse_if_wp s :
  inv s → cur s = TokKind.If → (length T ≤ n + ppos s)%nat → wp (parse_if k) (opt_post (moved s expr_ok) s) s.
Proof using HT Hk. intros. unfold parse_if. wp_go. Qed.

Lemma parse_arm_wp s :
  inv s → (length T ≤ n + ppos s)%nat → wp (parse_arm k) (opt_post (moved s any) s) s.
Proof using HT Hk. intros. unfold parse_arm. wp_go. Qed.
#[local] Hint Resolve parse_arm_wp : wp.

Lemma parse_match_wp s :
  inv s → cur s = TokKind.Match → (length T ≤ n + ppos s)%nat → wp (parse_match k) (opt_post (moved s expr_ok) s) s.
Proof using HT Hk. intros. unfold parse_match. wp_go. Qed.

Lemma struct_segments_wp m acc s : inv s → wp (struct_segments m acc) (opt_post any2 s) s.
Proof using HT.
  revert acc s. induction m as [|m IH]; intros acc s Hi; cbn [struct_segments]; wp_go.
Qed.
#[local] Hint Resolve struct_segments_wp : wp.

Lemma parse_field_init_wp s :
  inv s → (length T ≤ n + ppos s)%nat → wp (parse_field_init k) (opt_post (moved s any) s) s.
Proof using HT Hk. intros. unfold parse_field_init. wp_go. Qed.
#[local] Hint Resolve parse_field_init_wp : wp.

Lemma parse_struct_lit_wp m s :
  inv s → (length T ≤ n + ppos s)%nat → wp (parse_struct_lit k m) (opt_post (moved s expr_ok) s) s.
Proof using HT Hk. intros. unfold parse_struct_lit. wp_go. Qed.
#[local] Hint Resolve parse_if_wp parse_match_wp parse_struct_lit_wp : wp.

(** *** Primary expressions *)
Lemma recovery_word_wp s :
  inv s → wp recovery_word (λ o s', s' = s ∧ match o with Some _ => cur s ≠ TokKind.Eof | None => True end) s.
Proof using HT.
  intros. unfold recovery_word. do 4 wp_step. destruct (cur s) eqn:Hc; cbn [reserved_word]; wp_go; by case_if.
Qed.
#[local] Hint Resolve recovery_word_wp : wp.

Lemma nsl_wp (s : Parser) : wp (λ s, Ret (no_struct_literal s, s)) (λ _ s', s' = s) s.
Proof. by eexists _, _. Qed.

Lemma parse_name_or_struct_wp s :
  inv s → cur s ≠ TokKind.Eof → (length T ≤ n + ppos s)%nat → wp (parse_name_or_struct k) (opt_post (moved s expr_ok) s) s.
Proof using HT Hk.
  intros. unfold parse_name_or_struct. apply wp_bind. eapply wp_mono; [apply nsl_wp|]. intros ? ? ->. wp_go.
Qed.
#[local] Hint Resolve parse_name_or_struct_wp : wp.

(** The holes of a template literal at a string token of the stream. *)
Lemma template_parts_wp sp content s :
  inv s → file sp = fid →
  ("}"%u8 ∈ content → holes = true ∧ 0 ≤ lo sp ∧ lo sp + 1 + Z.of_nat (length content) ≤ U32_MAX) →
  ∀ ps, (∀ i src off, ps !! i = Some (RP_Hole src off) →
          ("}"%u8 ∉ src) ∧ "}"%u8 ∈ content ∧ (off + length src ≤ length content)%nat) →
  wp (mapM (λ rp, match rp with
      | RP_Text t => ret (TP_Text t)
      | RP_Hole src off => let! e := parse_hole_expr k src sp off in ret (TP_Hole e)
      end)%parser ps) (λ _ s', ext s s' ∧ ppos s' = ppos s) s.
Proof using HT Hk.
  intros Hi Hf Hc ps. revert s Hi. induction ps as [|p ps IH]; intros s Hi Hps; cbn [mapM]; [wp_go|].
  assert (∀ s1, ext s s1 → wp (mapM (λ rp, match rp with
      | RP_Text t => ret (TP_Text t)
      | RP_Hole src off => let! e := parse_hole_expr k src sp off in ret (TP_Hole e)
      end)%parser ps) (λ _ s', ext s1 s' ∧ ppos s' = ppos s1) s1) as Hrest.
  { intros s1 He. apply IH; [apply He|]. intros i. apply (Hps (S i)). }
  destruct p as [t|src off]; [wp_go|].
  destruct (Hps 0%nat src off eq_refl) as (Hb & Hin & Hl). destruct (Hc Hin) as (Hh & Hlo & Hu).
  assert (wp (parse_hole_expr k src sp off) (λ e s', ext s s' ∧ ppos s' = ppos s ∧ expr_ok e) s) as Hp
    by (apply parse_hole_expr_wp; try done; lia).
  wp_go.
Qed.

Lemma parse_template_wp sp s :
  inv s → file sp = fid → cur s ≠ TokKind.Eof → wp (parse_template k sp) (opt_post (moved s expr_ok) s) s.
Proof using HT Hk.
  intros Hi Hf Hc. unfold parse_template. do 2 wp_step. match goal with |- wp _ _ ?x => rename x into s1 end.
  assert (inv s1) as Hi1 by done. destruct (T_lookup _ _ _ HT (ppos s1)) as (t & Ht & Hfile & Hstr); [apply Hi1|].
  assert (cur s1 = kind t) as Hct by (unfold ParserSpec.cur; by rewrite Ht).
  apply wp_bind. eapply (wp_mono _ (λ sp s', s' = s1 ∧ sp = span t)).
  { exists (span t), s1. unfold cur_span. by rewrite (inv_tokens _ _ Hi1), Ht. }
  intros ? ? [-> ->]. do 2 wp_step. destruct (cur s1) eqn:E; try (by wp_go).
  match type of E with _ = TokKind.Str ?c => rename c into content end.
  destruct (Hstr content) as [Hv Hroom]; [done|].
  destruct (split_template_spec content Hv) as (ps & Hsplit & Hok & Hr).
  do 2 wp_step. apply wp_bind. eapply wp_lift; [exact Hsplit|]. apply wp_bind.
  eapply wp_mono; [apply (template_parts_wp (span t) content); [done|done|done|]|].
  { intros i src off Hsrc. destruct (hole_range _ _ _ _ _ Hr Hok Hsrc) as (_ & Hl & Hin).
    destruct (Hok _ _ Hsrc) as (_ & Hn & _). split_and!; [done|by eapply list_elem_of_lookup_2|lia]. }
  wp_intro. wp_go.
Qed.
#[local] Hint Resolve parse_template_wp : wp.

Lemma lambda_params_wp s : inv s → wp lambda_params (opt_post any2 s) s.
Proof using HT. intros. unfold lambda_params. wp_go. Qed.

Lemma float_options_wp s : inv s → wp float_options (opt_post any2 s) s.
Proof using HT. intros. unfold float_options. wp_go. Qed.
#[local] Hint Resolve lambda_params_wp float_options_wp : wp.

Lemma parse_lambda_wp s :
  inv s → cur s = TokKind.Fn → (length T ≤ n + ppos s)%nat → wp (parse_lambda k) (opt_post (moved s expr_ok) s) s.
Proof using HT Hk. intros. unfold parse_lambda. wp_go. Qed.

Lemma parse_scope_wp mk s :
  inv s → cur s ≠ TokKind.Eof → (length T ≤ n + ppos s)%nat → wp (parse_scope k mk) (opt_post (moved s expr_ok) s) s.
Proof using HT Hk. intros. unfold parse_scope. wp_go. Qed.

Lemma parse_arena_wp s :
  inv s → cur s = TokKind.Arena → (length T ≤ n + ppos s)%nat → wp (parse_arena k) (opt_post (moved s expr_ok) s) s.
Proof using HT Hk. intros. unfold parse_arena. wp_go. Qed.

Lemma parse_float_scope_wp s :
  inv s → cur s = TokKind.FloatScope → (length T ≤ n + ppos s)%nat →
  wp (parse_float_scope k) (opt_post (moved s expr_ok) s) s.
Proof using HT Hk. intros. unfold parse_float_scope. wp_go. Qed.

Lemma parse_paren_wp sp s :
  inv s → file sp = fid → cur s = TokKind.LParen → (length T ≤ n + ppos s)%nat →
  wp (parse_paren k sp) (opt_post (moved s expr_ok) s) s.
Proof using HT Hk.
  intros. unfold parse_paren. wp_run. wp_loop_with (λ l (_ : Parser), Forall expr_ok l); [by constructor|].
  wp_go; first [by apply group_or_tuple_ok | by apply Forall_snoc].
Qed.

Lemma parse_array_lit_wp s :
  inv s → cur s = TokKind.LBracket → (length T ≤ n + ppos s)%nat →
  wp (parse_array_lit k) (opt_post (moved s expr_ok) s) s.
Proof using HT Hk. intros. unfold parse_array_lit. wp_go. Qed.

Lemma parse_field_shorthand_wp sp s :
  inv s → file sp = fid → cur s = TokKind.Dot → wp (parse_field_shorthand sp) (opt_post (moved s expr_ok) s) s.
Proof using HT Hk. intros. unfold parse_field_shorthand. wp_go. Qed.
#[local] Hint Resolve parse_lambda_wp parse_scope_wp parse_arena_wp parse_float_scope_wp parse_paren_wp
  parse_array_lit_wp parse_field_shorthand_wp : wp.

Lemma parse_primary_wp s :
  inv s → (length T ≤ n + ppos s)%nat → wp (parse_primary k) (opt_post (moved s expr_ok) s) s.
Proof using HT Hk.
  intros. unfold parse_primary. do 4 wp_step.
  match goal with |- wp (match ?o with _ => _ end) _ _ => destruct o; [by wp_go|] end.
  do 4 wp_step; destruct (cur s) eqn:E; cbn [literal_of]; wp_go.
Qed.
#[local] Hint Resolve parse_primary_wp : wp.

(** *** Postfix, prefix, cast and binary expressions *)
Lemma parse_call_wp e s :
  inv s → expr_ok e → cur s = TokKind.LParen → (length T ≤ n + ppos s)%nat →
  wp (parse_call k e) (opt_post (moved s expr_ok) s) s.
Proof using HT Hk. intros. unfold parse_call. wp_go. Qed.

Lemma parse_slice_end_wp e st s :
  inv s → expr_ok e → cur s = TokKind.DotDot → (length T ≤ n + ppos s)%nat →
  wp (parse_slice_end k e st) (opt_post (moved s expr_ok) s) s.
Proof using HT Hk. intros. unfold parse_slice_end. wp_go. Qed.
#[local] Hint Resolve parse_call_wp parse_slice_end_wp : wp.

Lemma parse_index_wp e s :
  inv s → expr_ok e → cur s = TokKind.LBracket → (length T ≤ n + ppos s)%nat →
  wp (parse_index k e) (opt_post (moved s expr_ok) s) s.
Proof using HT Hk. intros. unfold parse_index. wp_go. Qed.
#[local] Hint Resolve parse_index_wp : wp.

Lemma parse_postfix_op_wp e s :
  inv s → expr_ok e → (length T ≤ n + ppos s)%nat →
  wp (parse_postfix_op k e) (λ o s', s' = s ∧ match o with
    | Some m => wp m (opt_post (moved s expr_ok) s) s | None => True end) s.
Proof using HT Hk.
  intros. unfold parse_postfix_op. do 6 wp_step; destruct (cur s) eqn:E; wp_go; wp_go.
Qed.
#[local] Hint Resolve parse_postfix_op_wp : wp.

Lemma parse_postfix_wp s :
  inv s → (length T ≤ n + ppos s)%nat → wp (parse_postfix k) (opt_post (moved s expr_ok) s) s.
Proof using HT Hk.
  intros. unfold parse_postfix. wp_run. wp_loop_with (λ e (_ : Parser), expr_ok e); [done|]. wp_go.
Qed.
#[local] Hint Resolve parse_postfix_wp : wp.

Lemma parse_prefix_inner_wp s :
  inv s → (length T ≤ n + ppos s)%nat → wp (parse_prefix_inner k) (opt_post (moved s expr_ok) s) s.
Proof using HT Hk.
  intros. unfold parse_prefix_inner. do 4 wp_step. destruct (cur s) eqn:E; cbn [unop_of]; wp_go.
Qed.

Lemma parse_prefix_wp s :
  inv s → (length T ≤ n + ppos s)%nat → wp (parse_prefix k) (opt_post (moved s expr_ok) s) s.
Proof using HT Hk. intros. apply guarded_wp; [done|]. intros s1 ? ?. apply parse_prefix_inner_wp; [done|lia]. Qed.
#[local] Hint Resolve parse_prefix_wp : wp.

Lemma parse_cast_wp s :
  inv s → (length T ≤ n + ppos s)%nat → wp (parse_cast k) (opt_post (moved s expr_ok) s) s.
Proof using HT Hk.
  intros. unfold parse_cast. wp_run. wp_loop_with (λ e (_ : Parser), expr_ok e); [done|]. wp_go.
Qed.
#[local] Hint Resolve parse_cast_wp : wp.

Lemma binary_loop_wp bp lhs s :
  inv s → expr_ok lhs → (length T ≤ n + ppos s)%nat →
  wp (binary_loop k bp lhs) (opt_post (λ e _, expr_ok e) s) s.
Proof using HT Hk.
  intros. unfold binary_loop. wp_loop_with (λ e (_ : Parser), expr_ok e); [done|]. unfold binary_step. do 2 wp_step.
  destruct a as [[[op bp'] m]|]; [|wp_go].
  match goal with H : _ ∧ _ ∧ cur _ ≠ _ |- _ => destruct H as (? & _ & ?) end. wp_go.
Qed.
#[local] Hint Resolve binary_loop_wp : wp.

Lemma parse_else_unwrap_wp bp lhs s :
  inv s → expr_ok lhs → (length T < n + ppos s)%nat →
  wp (parse_else_unwrap k bp lhs) (opt_post (λ e _, expr_ok e) s) s.
Proof using HT Hk. intros. unfold parse_else_unwrap. wp_go. Qed.
#[local] Hint Resolve parse_else_unwrap_wp : wp.

Lemma parse_expr_inner_wp bp s :
  inv s → (length T ≤ n + ppos s)%nat → wp (parse_expr_inner k bp) (opt_post (moved s expr_ok) s) s.
Proof using HT Hk. intros. unfold parse_expr_inner. wp_go. Qed.

Lemma parse_expr_wp bp s :
  inv s → (length T ≤ n + ppos s)%nat → wp (parse_expr k bp) (opt_post (moved s expr_ok) s) s.
Proof using HT Hk. intros. apply guarded_wp; [done|]. intros s1 ? ?. apply parse_expr_inner_wp; [done|lia]. Qed.
End WithKnot.

(** ** Tying the knot *)
Lemma good_fuel sub m :
  (∀ T' s, holes = true → toks_ok false fid T' → ParserSpec.inv T' s →
     wp sub (ParserSpec.opt_post T' (moved s expr_ok) s) s) →
  good m (knot_fuel sub m).
Proof using HT.
  intros Hsub. induction m as [|m IH].
  - split; [| | |exact Hsub]; intros; exfalso; match goal with H : inv _ |- _ => destruct H end; lia.
  - split; [| | |exact Hsub]; intros.
    + apply (parse_expr_wp m); [done|done|lia].
    + apply (parse_prefix_wp m); [done|done|lia].
    + apply (parse_if_wp m); [done|done|done|lia].
Qed.
End Grammar.

Lemma top_expr_eq sub s : top_expr sub s = parse_expr (knot_fuel sub (S (length (ptokens s)))) 0 s.
Proof. reflexivity. Qed.

(** The sub-parser of a template hole: nothing is left to recurse into. *)
Lemma hole_expr_wp fid T s :
  toks_ok false fid T → inv T s → wp hole_expr (opt_post T (moved s (expr_ok fid)) s) s.
Proof.
  intros HT Hi.
  destruct (parse_expr_wp false fid T HT (S (length T)) (knot_fuel stuck (S (length T)))) with (bp := 0) (s := s)
    as (o & s' & H & HQ); [by apply good_fuel|done|lia|].
  exists o, s'. split; [|exact HQ]. unfold hole_expr. by rewrite top_expr_eq, (inv_tokens _ _ Hi).
Qed.

(** The knot the items use is good for every state over its tokens. *)
Lemma knot_for_good holes fid T s :
  toks_ok holes fid T → inv T s → good holes fid T (S (length T)) (knot_for s).
Proof.
  intros HT Hi. unfold knot_for. rewrite (inv_tokens _ _ Hi). apply good_fuel; [done|].
  intros. by apply hole_expr_wp.
Qed.
