(* ===== verification/FileSpec.v ===== *)
(** * Correctness of the parser: items and files

    The specifications of the item grammar, and the theorems about the whole
    front end: lexing and parsing any source returns a file whose expressions
    respect the nesting ceiling. *)
From Stdlib Require Import ZArith Lia SpecFloat.
From S2P Require Import Prelude Utf8 Span Diag Text Token Lexer LexerSpec Ast Parser Depth TemplateSpec ParserSpec GrammarSpec.
Local Open Scope Z_scope.

Section Items.
Context (holes : bool) (fid : FileId) (T : list Token).
Hypothesis (HT : toks_ok holes fid T).

Abbreviation inv := (inv T).
Abbreviation ext := (ext T).
Abbreviation cur := (cur T).
Abbreviation opt_post := (opt_post T).

Lemma expr_wp s : inv s → wp (with_knot (λ k, parse_expr k 0)) (opt_post (moved s (expr_ok fid)) s) s.
Proof using HT.
  intros Hi. destruct (parse_expr_wp holes fid T HT _ _ (knot_for_good _ _ _ s HT Hi) 0 s Hi) as (o & s' & H & HQ); [lia|].
  exists o, s'. split; [exact H|exact HQ].
Qed.

Lemma block_wp s : inv s → wp (with_knot parse_block) (opt_post (λ b _, block_ok fid b) s) s.
Proof using HT.
  intros Hi. destruct (block_after_wp holes fid T HT _ _ (knot_for_good _ _ _ s HT Hi) s Hi) as (o & s' & H & HQ);
    [pose proof (inv_pos _ _ Hi); lia|].
  exists o, s'. split; [exact H|exact HQ].
Qed.
#[local] Hint Resolve expr_wp block_wp : wp.

Lemma parse_type_params_wp s : inv s → wp parse_type_params (opt_post any2 s) s.
Proof using HT. intros. unfold parse_type_params. wp_go. Qed.
#[local] Hint Resolve parse_type_params_wp : wp.

Lemma skip_until_wp stop s :
  stop TokKind.Eof = true → inv s → wp (skip_until stop) (λ _ s', ext s s' ∧ stop (cur s') = true) s.
Proof using HT.
  intros Hs Hi. unfold skip_until. wp_go; cur_ne.
Qed.
#[local] Hint Resolve skip_until_wp : wp.

Lemma parse_test_wp vis s : inv s → cur s ≠ TokKind.Eof → wp (parse_test vis) (opt_post (moved s any) s) s.
Proof using HT. intros. unfold parse_test. wp_go. Qed.

Lemma parse_resource_wp vis s : inv s → wp (parse_resource vis) (opt_post (moved s any) s) s.
Proof using HT. intros. unfold parse_resource. wp_go. Qed.

Lemma parse_const_wp vis s : inv s → wp (parse_const vis) (opt_post (moved s any) s) s.
Proof using HT. intros. unfold parse_const. wp_go. Qed.

Lemma parse_field_def_wp s : inv s → wp parse_field_def (opt_post (moved s any) s) s.
Proof using HT. intros. unfold parse_field_def. wp_go. Qed.

Lemma parse_variant_wp s : inv s → wp parse_variant (opt_post (moved s any) s) s.
Proof using HT. intros. unfold parse_variant. wp_go. Qed.
#[local] Hint Resolve parse_field_def_wp parse_variant_wp : wp.

Lemma parse_type_decl_wp vis align c s : inv s → wp (parse_type_decl vis align c) (opt_post (moved s any) s) s.
Proof using HT. intros. unfold parse_type_decl. wp_go. Qed.

Lemma param_mode_wp s : inv s → wp param_mode (λ _ s', ext s s') s.
Proof using HT. intros. unfold param_mode. wp_go. Qed.
#[local] Hint Resolve param_mode_wp : wp.

Lemma parse_param_wp mode s :
  inv s → wp mode (λ _ s', ext s s') s → wp (parse_param mode) (opt_post (moved s any) s) s.
Proof using HT. intros. unfold parse_param. wp_go. Qed.
#[local] Hint Resolve parse_param_wp : wp.

Lemma ret_ext_wp {A} (a : A) s : inv s → wp (ret a) (λ _ s', ext s s') s.
Proof using HT. intros. wp_go. Qed.
#[local] Hint Resolve ret_ext_wp : wp.

Lemma parse_fn_wp vis s : inv s → cur s = TokKind.Fn → wp (parse_fn vis) (opt_post (moved s any) s) s.
Proof using HT. intros. unfold parse_fn. wp_go. Qed.

Lemma parse_link_clause_wp s : inv s → wp parse_link_clause (λ _ s', ext s s') s.
Proof using HT. intros. unfold parse_link_clause. wp_go. Qed.
#[local] Hint Resolve parse_link_clause_wp : wp.

Lemma parse_extern_sig_wp s : inv s → wp parse_extern_sig (opt_post (moved s any) s) s.
Proof using HT. intros. unfold parse_extern_sig. wp_go. Qed.
#[local] Hint Resolve parse_extern_sig_wp : wp.

Lemma parse_extern_wp s : inv s → cur s = TokKind.Extern → wp parse_extern (opt_post (moved s any) s) s.
Proof using HT. intros. unfold parse_extern. wp_go. Qed.

Lemma map_opt_wp {A B} (f : A → B) m s0 s :
  wp m (opt_post (moved s0 any) s0) s → wp (map_opt f m) (opt_post (moved s0 any) s0) s.
Proof using HT. intros Hm. unfold map_opt. apply wp_try. eapply wp_mono; [exact Hm|]. wp_intro; wp_go. Qed.

#[local] Hint Resolve map_opt_wp parse_test_wp parse_resource_wp parse_const_wp parse_type_decl_wp parse_fn_wp parse_extern_wp : wp.
#[local] Hint Extern 1 (ParserSpec.cur _ _ = _) => apply kind_eqb_nullary; [reflexivity|assumption] : wp.

Lemma parse_item_wp s : inv s → wp parse_item (opt_post (moved s any) s) s.
Proof using HT.
  intros. unfold parse_item. wp_go;
    (match goal with H : ppos ?b = ppos ?a |- wp _ _ ?b =>
       assert (cur b = TokKind.Extern) by (rewrite (cur_pos T a b H); by apply kind_eqb_nullary) end); wp_go.
Qed.
#[local] Hint Resolve parse_item_wp : wp.

Lemma parse_module_wp s : inv s → wp parse_module (λ _ s', ext s s') s.
Proof using HT. intros. unfold parse_module. wp_go. Qed.

Lemma parse_imports_wp s : inv s → wp parse_imports (λ _ s', ext s s') s.
Proof using HT. intros. unfold parse_imports. wp_go. Qed.

(** The item loop makes progress even where an item gives up on the spot, and
    stops only at the end mark. *)
Lemma parse_items_wp s : inv s → wp parse_items (λ _ s', ext s s' ∧ cur s' = TokKind.Eof) s.
Proof using HT.
  intros. unfold parse_items. wp_go.
  match goal with E : cur ?b ≠ TokKind.Eof, H : ext ?b ?c, F : cur ?c ≠ TokKind.Eof → _ |- _ =>
    destruct (decide (ppos c = ppos b)) as [Hp|]; [rewrite (cur_pos T b c Hp) in F; specialize (F E)|] end; lia.
Qed.
#[local] Hint Resolve parse_module_wp parse_imports_wp parse_items_wp : wp.

Lemma parse_file_body_wp s : inv s → wp parse_file_body (λ _ s', ext s s' ∧ cur s' = TokKind.Eof) s.
Proof using HT. intros. unfold parse_file_body. wp_go. Qed.

Lemma new_parser_inv d : inv (new_parser T d).
Proof using HT.
  destruct (T_last _ _ _ HT) as (_ & _ & _ & ?). split; simpl; [done|lia|vm_compute; intuition congruence].
Qed.

Lemma parse_file_spec d :
  ∃ f d', parse_file T d = Ret (f, d') ∧ extends d d' ∧ (nest_file 0 f ≤ 128)%nat.
Proof using HT.
  destruct (parse_file_body_wp _ (new_parser_inv d)) as (f & s & Hp & He & _). unfold parse_file. rewrite Hp. cbn [res_bind].
  destruct (cap_file_ok f (pdiags s)) as (f' & d' & -> & Hn & Hd & _). exists f', d'.
  split_and!; [done| |done]. etrans; [apply (ext_diags _ _ _ He)|done].
Qed.
End Items.

(** The lexer's output is a token vector the parser accepts, as long as the
    spans of template holes fit 32 bits. *)
Lemma tokenize_toks_ok fid src d :
  4 * Z.of_nat (length src) + 1 ≤ U32_MAX →
  ∃ ts d', tokenize fid src d = Ret (ts, d') ∧ extends d d' ∧ toks_ok true fid ts.
Proof.
  intros Hlen. destruct (tokenize_stream fid src d) as (body & d' & Ht & Hr & _ & Fb). eexists _, d'.
  split; [exact Ht|]. split; [by eapply reported_extends|]. split; [eexists; by rewrite last_snoc|].
  apply Forall_app. split; [|constructor; [|done]]; [|by split].
  eapply Forall_impl; [exact Fb|]. intros t (a & b & [Hsp Hr' Htx]). split; [by rewrite Hsp|]. intros s Hs.
  unfold spells in Htx. rewrite Hs in Htx. destruct Htx as (_ & Hv & Hl & _). split; [done|]. intros _.
  rewrite Hsp. simpl. pose proof (u32_of_le a). split_and!; [done|lia|lia].
Qed.

(** C1. The front end is total: lexing and parsing any source shorter than 1 GiB
    returns a syntax tree.  No index, subtraction, [unwrap], [unreachable!] or
    span merge of the lexer or the parser panics, no [u32] span arithmetic of a
    template hole overflows, no loop or recursion runs for ever, earlier
    diagnostics are kept, and no item nests deeper than 128 levels. *)
Theorem front_end_total fid src d :
  Z.of_nat (length src) < 2 ^ 30 →
  ∃ ts d1 f d2, tokenize fid src d = Ret (ts, d1) ∧ parse_file ts d1 = Ret (f, d2) ∧
    extends d d1 ∧ extends d1 d2 ∧ (nest_file 0 f ≤ 128)%nat.
Proof.
  intros Hlen. destruct (tokenize_toks_ok fid src d) as (ts & d1 & Ht & Hd1 & Hok).
  { change U32_MAX with (2 ^ 32 - 1). lia. }
  destruct (parse_file_spec _ _ _ Hok d1) as (f & d2 & Hp & Hd2 & Hn). eauto 10.
Qed.

Definition sample_program : bytes := str "fn f(x: i32) -> i32 {
  y := x + 1
  if y > 2 { y } else { 0 }
}
".

Lemma front_end_total_witness :
  ∃ ts d1 f d2, tokenize 0 sample_program diags_new = Ret (ts, d1) ∧ parse_file ts d1 = Ret (f, d2) ∧
    (nest_file 0 f ≤ 128)%nat ∧ error_count d2 = 0%nat ∧ length (f_items f) = 1%nat.
Proof.
  destruct (front_end_total 0 sample_program diags_new) as (ts & d1 & f & d2 & Ht & Hp & _ & _ & Hn);
    [vm_compute; reflexivity|].
  exists ts, d1, f, d2. split; [exact Ht|]. split; [exact Hp|]. split; [exact Hn|].
  vm_compute in Ht. injection Ht as <- <-. vm_compute in Hp. injection Hp as <- <-. split; reflexivity.
Defined.

(** The tokens of the sample and their well-formedness. *)
Definition sample_tokens : list Token :=
  match tokenize 0 sample_program diags_new with Ret (ts, _) => ts | _ => [] end.

Lemma sample_tokens_ok : toks_ok true 0 sample_tokens.
Proof.
  destruct (tokenize_toks_ok 0 sample_program diags_new) as (ts & d & Ht & _ & Hok); [vm_compute; discriminate|].
  unfold sample_tokens. by rewrite Ht.
Qed.

(** Parsing a file consumes its tokens to the end mark, however many errors
    it meets on the way, and leaves the struct-literal flag cleared and the
    depth counter at zero: no nested parse leaks its setting. *)
Lemma parse_file_consumes_all fid T d :
  toks_ok true fid T →
  ∃ f s, parse_file_body (new_parser T d) = Ret (f, s) ∧
    (∃ t, ptokens s !! ppos s = Some t ∧ kind t = TokKind.Eof) ∧
    ptokens s = T ∧ no_struct_literal s = false ∧ depth s = 0 ∧ extends d (pdiags s).
Proof.
  intros HT. destruct (parse_file_body_wp _ _ _ HT _ (new_parser_inv _ _ _ HT d)) as (f & s & Hp & [[Ht Hps Hd] _ Hx Hdp Hn _] & Hc).
  exists f, s. split; [exact Hp|]. split_and!; try done. rewrite Ht. unfold cur in Hc.
  destruct (T !! ppos s) as [t|] eqn:E; [eauto|]. apply lookup_ge_None in E. lia.
Qed.

Lemma parse_file_consumes_all_witness :
  ∃ f s, parse_file_body (new_parser sample_tokens diags_new) = Ret (f, s) ∧ depth s = 0 ∧ length (f_items f) = 1%nat.
Proof.
  destruct (parse_file_consumes_all 0 sample_tokens diags_new sample_tokens_ok) as (f & s & Hp & _ & _ & _ & Hd & _).
  exists f, s. split; [exact Hp|]. split; [exact Hd|]. vm_compute in Hp. injection Hp as <- <-. reflexivity.
Defined.

(** C11. [parse_expr] at any cursor of a well-formed token vector returns; it
    gives up only after reporting an error, and succeeds only after consuming a
    token, with a span in the file; in both cases the depth counter and the
    struct-literal flag are what they were, the tokens are untouched and the
    cursor did not move back. *)
Theorem parse_expr_contract fid T s bp :
  toks_ok true fid T → inv T s →
  ∃ o s', parse_expr (knot_for s) bp s = Ret (o, s') ∧
    ptokens s' = T ∧ (ppos s ≤ ppos s' < length T)%nat ∧ extends (pdiags s) (pdiags s') ∧
    depth s' = depth s ∧ no_struct_literal s' = no_struct_literal s ∧
    match o with
    | Some e => (ppos s < ppos s')%nat ∧ file (expr_span e) = fid
    | None => (error_count (pdiags s) < error_count (pdiags s'))%nat
    end.
Proof.
  intros HT Hi. destruct (parse_expr_wp _ _ _ HT _ _ (knot_for_good _ _ _ s HT Hi) bp s Hi) as (o & s' & H & He & Ho); [lia|].
  destruct He as [[Ht Hp Hd] ? ? ? ? _]. exists o, s'. split_and!; try done.
Qed.

Lemma parse_expr_contract_witness :
  ∃ o s', parse_expr (knot_for (set_ppos (new_parser sample_tokens diags_new) 12)) 0
            (set_ppos (new_parser sample_tokens diags_new) 12) = Ret (o, s') ∧
    depth s' = 0 ∧ ppos s' = 15%nat ∧ is_Some o.
Proof.
  destruct (parse_expr_contract 0 sample_tokens (set_ppos (new_parser sample_tokens diags_new) 12) 0)
    as (o & s' & Hp & _ & _ & _ & Hd & _).
  - exact sample_tokens_ok.
  - split; [reflexivity|vm_compute; lia|vm_compute; split; discriminate].
  - exists o, s'. split; [exact Hp|]. split; [exact Hd|]. vm_compute in Hp. injection Hp as <- <-.
    split; [reflexivity|]. eexists. reflexivity.
Defined.

(** The parser's table of reserved words is the lexer's keyword table: the
    word reserved for a kind is exactly the text the lexer turns into that kind
    instead of an identifier, so identifier diagnostics name every keyword and
    nothing else. *)
Lemma reserved_words_are_keywords k w :
  reserved_word k = Some w ↔ keyword_or_ident w = k ∧ k ≠ TokKind.Ident w.
Proof.
  split.
  - destruct k; intros [= <-]; split; vm_compute; congruence.
  - unfold keyword_or_ident. intros [Hk Hne].
    destruct (List.find _ keywords) as [[v kv]|] eqn:F; [|by subst k].
    apply List.find_some in F as [Hin Hb]. apply bool_decide_eq_true in Hb. simpl in Hb. subst v kv.
    simpl in Hin. decompose [or] Hin; simplify_eq; done.
Qed.

Lemma power_of_two_iff n : is_power_of_two n = true ↔ ∃ k, 0 ≤ k ∧ n = 2 ^ k.
Proof.
  unfold is_power_of_two. split.
  - intros H. b2p. exists (Z.log2 n). split; [apply Z.log2_nonneg|].
    destruct (Z.log2_spec n) as [Hl Hu]; [done|]. destruct (decide (n = 2 ^ Z.log2 n)) as [|Hne]; [done|exfalso].
    assert (Z.log2 (n - 1) = Z.log2 n) as Hlog by (apply Z.log2_unique; [apply Z.log2_nonneg|lia]).
    assert (Z.testbit (Z.land n (n - 1)) (Z.log2 n) = true) as Hbit.
    { rewrite Z.land_spec, Z.bit_log2 by done. rewrite <-Hlog at 1. apply Z.bit_log2.
      pose proof (Z.pow_pos_nonneg 2 (Z.log2 n)). pose proof (Z.log2_nonneg n). lia. }
    rewrite H0, Z.bits_0 in Hbit. done.
  - intros (k & Hk & ->). pose proof (Z.pow_pos_nonneg 2 k). apply andb_true_intro. split; [lia|].
    apply Z.eqb_eq. rewrite Z.sub_1_r, <-Z.ones_equiv, Z.land_ones, Z.mod_same by lia. done.
Qed.

(** [align(N)] on a type or a binding is accepted exactly for an alignment a
    backend can honour: what [parse_align_attr] returns is a power of two of at
    most [2^29]; any other spelling returns nothing and is reported. *)
Lemma align_attr_is_power_of_two fid T s :
  toks_ok true fid T → inv T s → cur T s ≠ TokKind.Eof →
  ∃ o s', parse_align_attr s = Ret (o, s') ∧ (ppos s < ppos s')%nat ∧
    match o with
    | Some n => ∃ k, 0 ≤ k ≤ 29 ∧ n = 2 ^ k
    | None => (error_count (pdiags s) < error_count (pdiags s'))%nat
    end.
Proof.
  intros HT Hi Hc. destruct (parse_align_attr_wp _ _ _ HT s Hi Hc) as (o & s' & H & _ & Hp & Ho).
  exists o, s'. split_and!; [exact H|exact Hp|]. destruct o as [n|]; [|done].
  destruct Ho as [Hn (k & Hk & ->)%power_of_two_iff]. exists k. split; [|done]. split; [done|].
  apply Z.lt_succ_r. destruct (Z.lt_ge_cases k (Z.succ 29)); [done|]. pose proof (Z.pow_le_mono_r 2 (Z.succ 29) k).
  change (2 ^ Z.succ 29) with (2 * 2 ^ 29) in *. lia.
Qed.

Definition align_tokens : list Token :=
  match tokenize 0 (str "align(64) x") diags_new with Ret (ts, _) => ts | _ => [] end.

Lemma align_attr_is_power_of_two_witness :
  ∃ s', parse_align_attr (new_parser align_tokens diags_new) = Ret (Some 64, s') ∧ (0 < ppos s')%nat ∧
    ∃ k, 0 ≤ k ≤ 29 ∧ 64 = 2 ^ k.
Proof.
  assert (toks_ok true 0 align_tokens) as HT.
  { destruct (tokenize_toks_ok 0 (str "align(64) x") diags_new) as (ts & d & Ht & _ & Hok); [vm_compute; discriminate|].
    unfold align_tokens. by rewrite Ht. }
  destruct (align_attr_is_power_of_two 0 align_tokens (new_parser align_tokens diags_new)) as (o & s' & H & Hp & Ho).
  - exact HT.
  - split; [reflexivity|vm_compute; lia|vm_compute; split; discriminate].
  - discriminate.
  - assert (o = Some 64) as -> by (vm_compute in H; injection H as <- _; reflexivity).
    exists s'. split; [exact H|]. split; [exact Hp|exact Ho].
Defined.
