(* ===== verification/ExactSpec.v ===== *)
(** * Exact steps over a token vector

    What the token primitives do when the tokens under the cursor are known:
    the state afterwards in full, not only an invariant.  The round trips of the
    expression and type grammars are built on them. *)
From Stdlib Require Import ZArith Lia.
From S2P Require Import Prelude Utf8 Span Diag Text Token Lexer LexerSpec Ast Parser ParserSpec.
Local Open Scope Z_scope.

Section Exact.
Context (holes : bool) (fid : FileId) (T : list Token).
Hypothesis (HT : toks_ok holes fid T).

Abbreviation inv := (inv T).
Abbreviation cur := (cur T).

(** The kind at a position, the end mark outside the vector. *)
Definition at_pos (p : nat) : TokKind := match T !! p with Some t => kind t | None => TokKind.Eof end.

(** [P] holds of the kinds [ks] at the positions from [p] on. *)
Definition each (P : nat → TokKind → Prop) (p : nat) (ks : list TokKind) : Prop :=
  ∀ i k, ks !! i = Some k → P (p + i)%nat k.

Lemma each_app P p a b : each P p (a ++ b) ↔ each P p a ∧ each P (p + length a) b.
Proof.
  split.
  - intros H. split; intros i k Hi; [apply H; by apply lookup_app_l_Some|].
    replace (p + length a + i)%nat with (p + (length a + i))%nat by lia. apply H.
    rewrite lookup_app_r by lia. by replace (length a + i - length a)%nat with i by lia.
  - intros [Ha Hb] i k [Hi|[Hl Hi]]%lookup_app_Some; [by apply Ha|].
    replace (p + i)%nat with (p + length a + (i - length a))%nat by lia. by apply Hb.
Qed.

Lemma each_cons P p k ks : each P p (k :: ks) ↔ P p k ∧ each P (S p) ks.
Proof.
  split.
  - intros H. split; [rewrite <-(Nat.add_0_r p); by apply (H 0%nat)|]. intros i k' Hi.
    replace (S p + i)%nat with (p + S i)%nat by lia. by apply H.
  - intros [H1 H2] [|i] k' Hi; [rewrite Nat.add_0_r; naive_solver|].
    replace (p + S i)%nat with (S p + i)%nat by lia. by apply H2.
Qed.

(** The kinds [ks] stand at position [p]. *)
Definition spelled : nat → list TokKind → Prop := each (λ p k, at_pos p = k).

Lemma spelled_app p a b : spelled p (a ++ b) ↔ spelled p a ∧ spelled (p + length a) b.
Proof. apply each_app. Qed.

Lemma spelled_cons p k ks : spelled p (k :: ks) ↔ at_pos p = k ∧ spelled (S p) ks.
Proof. apply (each_cons (λ p k, at_pos p = k)). Qed.

Lemma at_pos_next p : at_pos p ≠ TokKind.Eof → (S p < length T)%nat.
Proof using HT.
  unfold at_pos. intros H. destruct (T_last _ _ _ HT) as (t & Ht & Hk & Hl).
  destruct (T !! p) eqn:E; [|done]. apply lookup_lt_Some in E as Hp.
  destruct (decide (p = length T - 1)%nat) as [->|]; [rewrite Ht in E; congruence|lia].
Qed.

Lemma cur_at s : cur s = at_pos (ppos s).
Proof. done. Qed.

Lemma look_at s n : inv s → look T s n = at_pos (ppos s + n).
Proof using HT.
  intros [_ Hp _]. unfold at_pos. destruct (decide (ppos s + n < length T)%nat).
  - unfold look. by rewrite Nat.min_l by lia.
  - rewrite (look_end _ _ _ HT) by lia. by rewrite lookup_ge_None_2 by lia.
Qed.

(** [s] with its cursor moved by [n]. *)
Abbreviation fwd s n := (set_ppos s (ppos s + n)).

Lemma inv_fwd s n : inv s → (ppos s + n < length T)%nat → inv (fwd s n).
Proof. intros [] ?. by split. Qed.

Lemma bump_token s : inv s → cur s ≠ TokKind.Eof → wp bump (λ t s', T !! ppos s = Some t ∧ s' = fwd s 1) s.
Proof using HT.
  intros [Hk Hp Hd] Hc. destruct (T_lookup _ _ _ HT _ Hp) as (t & Ht & _). unfold ParserSpec.cur in *. rewrite Ht in *.
  exists t, (fwd s 1). unfold bump. rewrite Hk, Ht. cbn [unwrap res_bind]. split; [|done]. by destruct (kind t).
Qed.

Lemma bump_exact s : inv s → cur s ≠ TokKind.Eof → wp bump (λ t s', kind t = cur s ∧ s' = fwd s 1) s.
Proof using HT.
  intros Hi Hc. eapply wp_mono; [by apply bump_token|]. intros t s' [Ht ->]. unfold ParserSpec.cur. by rewrite Ht.
Qed.

Lemma eat_miss k s : inv s → nullary k = true → cur s ≠ k → wp (eat k) (λ b s', b = false ∧ s' = s) s.
Proof using HT.
  intros Hi Hn Hc. unfold eat. apply wp_bind. eapply wp_mono; [by apply (at_wp _ _ _ HT)|].
  intros b s' [-> Hb]. destruct b; [done|]. by apply wp_ret.
Qed.

Lemma eat_hit k s : inv s → nullary k = true → k ≠ TokKind.Eof → cur s = k → wp (eat k) (λ b s', b = true ∧ s' = fwd s 1) s.
Proof using HT.
  intros Hi Hn He Hc. unfold eat. apply wp_bind. eapply wp_mono; [by apply (at_wp _ _ _ HT)|].
  intros b s' [-> Hb]. destruct b; [|done]. apply wp_bind. eapply wp_mono; [apply bump_exact; [done|congruence]|].
  intros t s' [_ ->]. by apply wp_ret.
Qed.

Lemma expect_hit k w s : inv s → nullary k = true → k ≠ TokKind.Eof → cur s = k → wp (expect k w) (λ _ s', s' = fwd s 1) s.
Proof using HT.
  intros. unfold expect. apply wp_bind. eapply wp_mono; [by apply eat_hit|]. intros b s' [-> ->]. by apply wp_ret.
Qed.

(** A loop that leaves at its first turn. *)
Lemma wp_loop_break {A B} (body : A → M (A + B)) Q a s :
  wp (body a) (λ r s', match r with inr b => Q b s' | inl _ => False end) s → wp (loop_ body a) Q s.
Proof.
  intros H. unfold wp, loop_. cbn [loop_fuel]. apply wp_bind. eapply wp_mono; [exact H|].
  intros [?|b] s' Hr; [done|]. by apply wp_ret.
Qed.

Lemma spelled_end p ks : spelled p ks → TokKind.Eof ∉ ks → ks ≠ [] → (p + length ks < length T)%nat.
Proof using HT.
  intros Hs Hn Hne. destruct (exists_last Hne) as (l & k & ->). apply spelled_app in Hs as [_ Hs].
  apply spelled_cons in Hs as [Hk _]. rewrite length_app. simpl.
  assert (k ≠ TokKind.Eof) by (intros ->; apply Hn; rewrite elem_of_app, list_elem_of_singleton; by right). pose proof (at_pos_next (p + length l) ltac:(congruence)). lia.
Qed.

Lemma bump_n_exact ks s :
  inv s → spelled (ppos s) ks → TokKind.Eof ∉ ks → wp (bump_n (length ks)) (λ _ s', s' = fwd s (length ks)) s.
Proof using HT.
  revert s. induction ks as [|k ks IH]; intros s Hi Hs He; simpl.
  - apply wp_ret. destruct s; unfold set_ppos; simpl. f_equal. lia.
  - apply spelled_cons in Hs as [Hk Hs]. apply not_elem_of_cons in He as [Hne He]. apply wp_bind.
    eapply wp_mono; [apply bump_exact; [done|rewrite cur_at; congruence]|]. intros t s' [_ ->].
    pose proof (at_pos_next (ppos s) ltac:(congruence)).
    eapply wp_mono; [apply (IH (fwd s 1)); [apply inv_fwd; [done|lia]| |done]|].
    + simpl. by replace (ppos s + 1)%nat with (S (ppos s)) by lia.
    + intros _ s' ->. unfold set_ppos. simpl. f_equal. lia.
Qed.
End Exact.

(** [s] with its cursor moved by [n]. *)
Abbreviation fwd s n := (set_ppos s (ppos s + n)).
