(* ===== verification/PrattSpec.v ===== *)
(** * Operator precedence: printing and parsing expressions

    Trees of integers, unary and binary operators are printed with the fewest
    parentheses their binding powers need; [parse_expr] reads the same tree
    back, consuming exactly what was printed. *)
From Stdlib Require Import ZArith Lia.
From S2P Require Import Prelude Utf8 Span Diag Text Token Lexer LexerSpec Ast Parser TemplateSpec ParserSpec GrammarSpec FileSpec ExactSpec.
Local Open Scope Z_scope.

(** ** Trees and their printed form *)
Inductive tree := T_Int (v : Z) | T_Un (op : UnOp) (e : tree) | T_Bin (op : BinOp) (l r : tree).

(** The tree an expression stands for, its spans forgotten. *)
Fixpoint tree_of (e : Expr) : option tree :=
  match e with
  | MkExpr (EK_Int v) _ => Some (T_Int v)
  | MkExpr (EK_Unary op e) _ => T_Un op <$> tree_of e
  | MkExpr (EK_Binary op l r) _ => a ← tree_of l; b ← tree_of r; Some (T_Bin op a b)
  | _ => None
  end.

(** Binding powers, from the loosest: [||], [&&], comparisons, sums, products. *)
Definition power (op : BinOp) : Z :=
  match op with
  | BO_Or => 1
  | BO_And => 2
  | BO_Eq | BO_Ne | BO_Lt | BO_Le | BO_Gt | BO_Ge => 3
  | BO_Add | BO_Sub | BO_BitOr | BO_BitXor => 4
  | BO_Mul | BO_Div | BO_Rem | BO_BitAnd | BO_Shl | BO_Shr => 5
  end.

Definition op_kinds (op : BinOp) : list TokKind :=
  match op with
  | BO_Or => [TokKind.OrOr] | BO_And => [TokKind.AndAnd]
  | BO_Eq => [TokKind.EqEq] | BO_Ne => [TokKind.NotEq] | BO_Lt => [TokKind.Lt] | BO_Le => [TokKind.Le]
  | BO_Gt => [TokKind.Gt] | BO_Ge => [TokKind.Ge]
  | BO_Add => [TokKind.Plus] | BO_Sub => [TokKind.Minus] | BO_BitOr => [TokKind.Pipe] | BO_BitXor => [TokKind.Caret]
  | BO_Mul => [TokKind.Star] | BO_Div => [TokKind.Slash] | BO_Rem => [TokKind.Percent] | BO_BitAnd => [TokKind.Amp]
  | BO_Shl => [TokKind.Lt; TokKind.Lt] | BO_Shr => [TokKind.Gt; TokKind.Gt]
  end.

Definition un_kind (op : UnOp) : TokKind :=
  match op with UO_Neg => TokKind.Minus | UO_Not => TokKind.Bang | UO_BitNot => TokKind.Tilde end.

(** [print m e]: operators looser than [m] are parenthesized; the operand of a
    unary operator is printed at level 6, above every binary operator. *)
Fixpoint print (m : Z) (e : tree) : list TokKind :=
  match e with
  | T_Int v => [TokKind.Int v]
  | T_Un op e => un_kind op :: print 6 e
  | T_Bin op l r =>
    let body := print (power op) l ++ op_kinds op ++ print (power op + 1) r in
    if power op <? m then [TokKind.LParen] ++ body ++ [TokKind.RParen] else body
  end.

(** The levels of recursion a tree can need. *)
Fixpoint height (e : tree) : Z :=
  match e with
  | T_Int _ => 1
  | T_Un _ e => 1 + height e
  | T_Bin _ l r => 2 + Z.max (height l) (height r)
  end.

(** The tokens that let an expression end at level [m]: no postfix operator,
    no cast, no binary operator of that level, no [else] at the top. *)
Definition no_postfix (k : TokKind) : bool :=
  match k with
  | TokKind.LParen | TokKind.Question | TokKind.Dot | TokKind.LBracket | TokKind.As => false
  | _ => true
  end.
Definition ends_expr (m : Z) (k k1 : TokKind) : bool :=
  no_postfix k
  && match binop_of k k1 with Some (_, bp, _) => bp <? m | None => true end
  && negb ((m =? 0) && kind_eqb k TokKind.Else).

Lemma height_pos e : 1 ≤ height e.
Proof. induction e; simpl; lia. Qed.

Lemma print_head m e : ∃ k ks, print m e = k :: ks ∧
  (is_int k = true ∨ k = TokKind.LParen ∨ k = TokKind.Minus ∨ k = TokKind.Bang ∨ k = TokKind.Tilde).
Proof.
  revert m. induction e as [v|op e IH|op l IHl r IHr]; intros m; simpl.
  - eexists _, _. split; [done|]. auto.
  - eexists _, _. split; [done|]. destruct op; simpl; auto.
  - case_if; [eexists _, _; split; [done|]; auto|].
    destruct (IHl (power op)) as (k & ks & -> & H). eexists _, _. split; [done|]. exact H.
Qed.

Lemma print_no_eof m e : TokKind.Eof ∉ print m e.
Proof.
  revert m. induction e as [v|op e IH|op l IHl r IHr]; intros m; simpl.
  - by rewrite list_elem_of_singleton.
  - rewrite not_elem_of_cons. split; [by destruct op|apply IH].
  - assert (TokKind.Eof ∉ print (power op) l ++ op_kinds op ++ print (power op + 1) r) as H.
    { rewrite !not_elem_of_app. split_and!; [apply IHl| |apply IHr]. destruct op; simpl; rewrite ?not_elem_of_cons;
        split_and?; try done; apply not_elem_of_nil. }
    case_if; [|done]. rewrite not_elem_of_cons, not_elem_of_app. split_and!; [done|done|].
    rewrite not_elem_of_cons. split; [done|apply not_elem_of_nil].
Qed.

(** A binary operator before an operand is read as itself. *)
Lemma binop_of_op op k1 :
  (is_int k1 = true ∨ k1 = TokKind.LParen ∨ k1 = TokKind.Minus ∨ k1 = TokKind.Bang ∨ k1 = TokKind.Tilde) →
  match op_kinds op with
  | [k] => binop_of k k1 = Some (op, power op, 1%nat)
  | [k; k'] => binop_of k k' = Some (op, power op, 2%nat)
  | _ => False
  end.
Proof.
  intros H. destruct op; simpl; try done; destruct k1; try done; destruct H as [H|[H|[H|[H|H]]]]; discriminate H.
Qed.

(** ** Reading with exact steps *)
Section Exact.
Context (holes : bool) (fid : FileId) (T : list Token).
Hypothesis (HT : toks_ok holes fid T).

Abbreviation inv := (inv T).
Abbreviation cur := (cur T).
Abbreviation expr_ok := (expr_ok fid).
Abbreviation at_pos := (at_pos T).
Abbreviation spelled := (spelled T).
Abbreviation at_pos_next := (at_pos_next _ _ _ HT).
Abbreviation cur_at := (cur_at T).
Abbreviation inv_fwd := (inv_fwd T).
Abbreviation look_at := (look_at _ _ _ HT).
Abbreviation bump_exact := (bump_exact _ _ _ HT).
Abbreviation eat_miss := (eat_miss _ _ _ HT).
Abbreviation expect_hit := (expect_hit _ _ _ HT).
Abbreviation bump_n_exact := (bump_n_exact _ _ _ HT).
Abbreviation spelled_end := (spelled_end _ _ _ HT).

(** [m], run at [s], returns the tree [e] and stops after [n] tokens, leaving
    everything but the cursor as it was. *)
Definition yields (m : M (option Expr)) (s : Parser) (e : tree) (n : nat) : Prop :=
  wp m (λ o s', ∃ x, o = Some x ∧ tree_of x = Some e ∧ expr_ok x ∧ s' = fwd s n) s.

Lemma guarded_yields inner s e n :
  0 ≤ depth s < MAX_EXPR_DEPTH → yields inner (set_depth s (depth s + 1)) e n → yields (guarded inner) s e n.
Proof.
  intros Hd (o & s' & Hm & x & -> & Ht & Hx & ->). unfold yields, wp, guarded, u32_incr, u32_decr.
  assert (MAX_EXPR_DEPTH < U32_MAX) by done.
  rewrite (proj2 (Z.ltb_lt (depth s) U32_MAX)) by lia. cbn [res_bind]. simpl (depth (set_depth _ _)).
  rewrite (proj2 (Z.ltb_ge MAX_EXPR_DEPTH (depth s + 1))) by lia. rewrite Hm. cbn [res_bind]. simpl.
  rewrite (proj2 (Z.ltb_lt 0 (depth s + 1))) by lia. cbn [res_bind]. eexists _, _. split; [done|].
  exists x. split_and!; try done. unfold set_depth, set_ppos. simpl. by replace (depth s + 1 - 1) with (depth s) by lia.
Qed.

Lemma delimited_yields (k : Knot) s e n :
  yields (k_expr k 0) (set_nsl s false) e n → yields (parse_delimited_expr k 0) s e n.
Proof.
  intros (o & s' & Hm & x & -> & Ht & Hx & ->). unfold yields, wp, parse_delimited_expr, with_nsl.
  rewrite Hm. cbn [res_bind]. eexists _, _. split; [done|]. exists x. by split_and!.
Qed.

(** After an atom, a token that is no postfix operator ends the chain. *)
Lemma postfix_end (k : Knot) s x Q :
  inv s → no_postfix (cur s) = true → Q (Some x) s →
  wp (loop_ (λ e, let! op := parse_postfix_op k e in
       match op with Some m => let% e := m in next_ e | None => break_ (Some e) end)%parser x) Q s.
Proof using HT.
  intros Hi Hc HQ. apply wp_loop_break. unfold parse_postfix_op. do 7 wp_step;
    (destruct (cur s) eqn:E; try discriminate Hc; repeat wp_step; exact HQ).
Qed.

Lemma no_recovery s : inv s → reserved_word (cur s) = None → wp recovery_word (λ o s', o = None ∧ s' = s) s.
Proof using HT. intros Hi Hr. unfold recovery_word. do 4 wp_step. rewrite Hr. by apply wp_ret. Qed.

Lemma primary_int (k : Knot) s v :
  inv s → cur s = TokKind.Int v → yields (parse_primary k) s (T_Int v) 1.
Proof using HT.
  intros Hi Hc. unfold yields, parse_primary. do 2 wp_step. apply wp_bind.
  eapply wp_mono; [apply no_recovery; [done|by rewrite Hc]|]. intros ? ? [-> ->].
  do 4 wp_step; rewrite Hc; cbn [literal_of]; apply wp_bind;
    (eapply wp_mono; [apply bump_exact; [done|congruence]|]); intros t s' [_ ->]; apply wp_ret; by eexists.
Qed.

Lemma paren_yields (k : Knot) sp s e n :
  inv s → file sp = fid → cur s = TokKind.LParen → at_pos (ppos s + 1) ≠ TokKind.RParen →
  at_pos (ppos s + 1 + n) = TokKind.RParen →
  yields (k_expr k 0) (set_nsl (fwd s 1) false) e n → yields (parse_paren k sp) s e (1 + n + 1).
Proof using HT.
  intros Hi Hsp Hc Hne Hclose Hy.
  assert (S (ppos s + 1 + n) < length T)%nat as Hlen by (apply at_pos_next; by rewrite Hclose).
  unfold yields, parse_paren. apply wp_bind.
  eapply wp_mono; [apply bump_exact; [done|congruence]|]. intros t s' [_ ->].
  assert (inv (fwd s 1)) as Hi1 by (apply inv_fwd; [done|lia]).
  do 2 wp_step; [by destruct Hne|]. apply wp_try.
  eapply wp_mono; [by apply delimited_yields|]. intros o s' (x & -> & Ht & Hx & ->).
  assert (inv (fwd (fwd s 1) n)) as Hi2 by (apply inv_fwd; [done|simpl; lia]).
  apply wp_try, wp_loop_break, wp_bind.
  eapply wp_mono; [apply eat_miss; [done|done|by rewrite cur_at; simpl; rewrite Hclose]|].
  intros b s' [-> ->]. apply wp_ret, wp_bind.
  eapply wp_mono; [by apply expect_hit|]. intros b s' ->. apply wp_bind.
  eapply wp_mono; [apply (span_from_wp _ _ _ HT); [done|apply inv_fwd; [done|simpl; lia]]|].
  intros sp' s' [-> _]. apply wp_ret. exists x. split_and!; try done. unfold set_ppos. simpl. f_equal. lia.
Qed.

Lemma primary_paren (k : Knot) s e n :
  inv s → cur s = TokKind.LParen → at_pos (ppos s + 1) ≠ TokKind.RParen →
  at_pos (ppos s + 1 + n) = TokKind.RParen →
  yields (k_expr k 0) (set_nsl (fwd s 1) false) e n → yields (parse_primary k) s e (1 + n + 1).
Proof using HT.
  intros Hi Hc Hne Hclose Hy. unfold yields, parse_primary. do 2 wp_step. apply wp_bind.
  eapply wp_mono; [apply no_recovery; [done|by rewrite Hc]|]. intros ? ? [-> ->].
  do 4 wp_step; rewrite Hc; cbn [literal_of]; by apply paren_yields.
Qed.

(** ** Reading the printed form back *)
Context (sub : M (option Expr)).
Abbreviation kn n := (knot_fuel sub n).
Abbreviation len m e := (length (print m e)).

Lemma prefix_of_primary n s e c :
  inv s → unop_of (cur s) = None → depth s < MAX_EXPR_DEPTH → (ppos s + c < length T)%nat →
  no_postfix (at_pos (ppos s + c)) = true →
  yields (parse_primary (kn n)) (set_depth s (depth s + 1)) e c → yields (parse_prefix (kn n)) s e c.
Proof using HT.
  intros Hi Hu Hd Hl Hnp Hy. pose proof Hi as [Hk Hp Hdp]. apply guarded_yields; [lia|].
  assert (inv (set_depth s (depth s + 1))) as Hi1 by (split; simpl; [done|done|lia]).
  unfold yields, parse_prefix_inner. do 4 wp_step.
  change (cur (set_depth s (depth s + 1))) with (cur s). rewrite Hu. unfold parse_postfix. apply wp_try.
  eapply wp_mono; [exact Hy|]. intros o s' (x & -> & Ht & Hx & ->).
  apply postfix_end; [by apply inv_fwd|done|]. by exists x.
Qed.

(** [reads_operand]: an operand, printed at level 6, is read by [parse_prefix]. *)
Definition reads_operand (e : tree) : Prop := ∀ n s,
  inv s → spelled (ppos s) (print 6 e) → no_postfix (at_pos (ppos s + len 6 e)) = true →
  (length T ≤ n + ppos s)%nat → depth s + 2 * height e - 1 ≤ MAX_EXPR_DEPTH →
  yields (parse_prefix (kn n)) s e (len 6 e).

(** [reads_expr]: an expression printed at level [m] is read by [parse_expr(m)]. *)
Definition reads_expr (e : tree) : Prop := ∀ m n s,
  0 ≤ m ≤ 6 → inv s → spelled (ppos s) (print m e) →
  ends_expr m (at_pos (ppos s + len m e)) (at_pos (ppos s + len m e + 1)) = true →
  (length T ≤ n + ppos s)%nat → depth s + 2 * height e ≤ MAX_EXPR_DEPTH →
  yields (parse_expr (kn n) m) s e (len m e).

Lemma print_end p m e : spelled p (print m e) → (p + len m e < length T)%nat.
Proof using HT.
  intros H. apply spelled_end; [done|apply print_no_eof|].
  destruct (print_head m e) as (k & ks & -> & _). done.
Qed.

Lemma operand_int v : reads_operand (T_Int v).
Proof using HT.
  intros n s Hi Hs Hnp Hn Hd. pose proof (print_end _ _ _ Hs) as Hl. apply spelled_cons in Hs as [Hc _]. simpl in *.
  apply prefix_of_primary; [done|by rewrite cur_at, Hc|lia|done|done|].
  apply primary_int; [destruct Hi; split; simpl; [done|done|lia]|done].
Qed.

Lemma operand_un op e : reads_operand e → reads_operand (T_Un op e).
Proof using HT.
  intros HA n s Hi Hs Hnp Hn Hd. pose proof (print_end _ _ _ Hs) as Hl. pose proof (height_pos e). cbn [print height length] in *.
  apply spelled_cons in Hs as [Hc Hs]. pose proof Hi as [Hk Hp Hdp]. apply guarded_yields; [lia|].
  set (s1 := set_depth s (depth s + 1)). assert (inv s1) as Hi1 by (split; simpl; [done|done|lia]).
  unfold yields, parse_prefix_inner. do 4 wp_step. change (cur s1) with (at_pos (ppos s)). rewrite Hc.
  assert (unop_of (un_kind op) = Some op) as -> by (by destruct op).
  apply wp_bind. eapply wp_mono; [apply bump_exact; [done|change (cur s1) with (at_pos (ppos s)); rewrite Hc; by destruct op]|].
  intros t s' [_ ->]. apply wp_try. destruct n as [|n]; [lia|]. cbn [knot_fuel k_prefix].
  assert (yields (parse_prefix (kn n)) (fwd s1 1) e (len 6 e)) as Hy.
  { apply HA; simpl; [apply (inv_fwd s1 1); [done|simpl; lia]| | |lia|lia].
    - by replace (ppos s + 1)%nat with (S (ppos s)) by lia.
    - by replace (ppos s + 1 + len 6 e)%nat with (ppos s + S (len 6 e))%nat by lia. }
  eapply wp_mono; [exact Hy|]. intros o s' (x & -> & Ht & Hx & ->). do 2 wp_step. wp_step.
  eexists. split; [done|]. simpl. rewrite Ht. split_and!; [done|done|]. unfold set_ppos. simpl. f_equal. lia.
Qed.

Lemma cast_yields n s e c :
  inv s → (ppos s + c < length T)%nat → no_postfix (at_pos (ppos s + c)) = true →
  yields (parse_prefix (kn n)) s e c → yields (parse_cast (kn n)) s e c.
Proof using HT.
  intros Hi Hl Hnp Hy. unfold yields, parse_cast. apply wp_try. eapply wp_mono; [exact Hy|].
  intros o s' (x & -> & Ht & Hx & ->). assert (inv (fwd s c)) by (by apply inv_fwd).
  apply wp_loop_break. do 2 wp_step.
  - match goal with H : cur (fwd s c) = TokKind.As |- _ => rewrite cur_at in H; simpl in H; rewrite H in Hnp; done end.
  - wp_step. by exists x.
Qed.

(** [reads_spine]: reading the left spine.  With [e] printed at level [m] under the
    cursor, [parse_cast] and then the binary loop at level [M] reach the state
    after [e] with [e] as the left operand. *)
Definition top (m : Z) (e : tree) : Z :=
  match e with T_Bin op _ _ => if power op <? m then 6 else power op | _ => 6 end.
Definition follows (m : Z) (e : tree) (p : nat) : Prop :=
  no_postfix (at_pos p) = true ∧
  match binop_of (at_pos p) (at_pos (p + 1)) with Some (_, bp, _) => bp ≤ top m e | None => True end.

Definition reads_spine (e : tree) (m h : Z) : Prop := ∀ M n f Q s,
  M ≤ m → inv s → spelled (ppos s) (print m e) → follows m e (ppos s + len m e) →
  (length T ≤ n + ppos s)%nat → depth s + h ≤ MAX_EXPR_DEPTH → (len m e < f)%nat →
  (∀ x f', tree_of x = Some e → expr_ok x → (f ≤ f' + len m e)%nat →
     wp (loop_fuel f' (binary_step (kn n) M) x) Q (fwd s (len m e))) →
  wp (parse_cast (kn n))
    (λ o s', ∃ x, o = Some x ∧ ptokens s' = T ∧ wp (loop_fuel f (binary_step (kn n) M) x) Q s') s.

(** An operand that [parse_prefix] reads whole is the whole spine. *)
Lemma spine_atom e m : print m e = print 6 e → reads_operand e → reads_spine e m (2 * height e - 1).
Proof using HT.
  intros Hp HA M n f Q s HM Hi Hs [Hnp _] Hn Hd Hf Hk. pose proof (print_end _ _ _ Hs) as Hl. rewrite Hp in *.
  assert (yields (parse_cast (kn n)) s e (len 6 e)) as Hy.
  { apply cast_yields; [done|done|done|]. apply HA; try done. lia. }
  eapply wp_mono; [exact Hy|]. intros o s' (x & -> & Ht & Hx & ->). exists x.
  split_and!; [done|by destruct Hi|]. apply Hk; [done|done|lia].
Qed.

(** Where the next operator is too loose, the loop stops. *)
Lemma spine_stop n f M x Q s :
  inv s → match binop_of (at_pos (ppos s)) (at_pos (ppos s + 1)) with Some (_, bp, _) => bp <? M | None => true end = true →
  Q (Some x) s → wp (loop_fuel (S f) (binary_step (kn n) M) x) Q s.
Proof using HT.
  intros Hi Hb HQ. cbn [loop_fuel]. apply wp_bind. unfold binary_step, binop. do 5 wp_step. wp_step.
  rewrite look_at, cur_at by done. destruct (binop_of _ _) as [[[op bp] c]|]; [rewrite Hb|]; by repeat wp_step.
Qed.

(** From the spine to [parse_expr]. *)
Lemma expr_of_spine e m h n s :
  reads_spine e m h → 0 ≤ m → 0 ≤ h → inv s → spelled (ppos s) (print m e) →
  ends_expr m (at_pos (ppos s + len m e)) (at_pos (ppos s + len m e + 1)) = true → m ≤ top m e →
  (length T ≤ n + ppos s)%nat → depth s + 1 + h ≤ MAX_EXPR_DEPTH →
  yields (parse_expr (kn n) m) s e (len m e).
Proof using HT.
  intros HC Hm Hh Hi Hs He Htop Hn Hd. pose proof (print_end _ _ _ Hs) as Hl. pose proof Hi as [Hk Hp Hdp].
  apply andb_prop in He as [[Hnp Hbin]%andb_prop Helse]. apply guarded_yields; [lia|].
  set (s1 := set_depth s (depth s + 1)). assert (inv s1) as Hi1 by (split; simpl; [done|done|lia]).
  unfold yields, parse_expr_inner. apply wp_try. eapply wp_mono.
  { apply (HC m n (S (length T)) (λ o s', ∃ x, o = Some x ∧ tree_of x = Some e ∧ expr_ok x ∧ s' = fwd s1 (len m e)) s1);
      try done; try lia; [split; [done|]|].
    - simpl. revert Hbin. destruct (binop_of _ _) as [[[op bp] c]|]; [|done]. intros. b2p. lia.
    - intros x f' Ht Hx Hf. destruct f' as [|f']; [lia|]. apply spine_stop; [by apply inv_fwd|done|by exists x]. }
  intros o s' (x & -> & Hts & Hw). apply wp_try. unfold binary_loop, wp, loop_. rewrite Hts.
  eapply wp_mono; [exact Hw|]. intros o s2 (y & -> & Ht & Hy & ->).
  assert (inv (fwd s1 (len m e))) as Hi2 by (by apply inv_fwd).
  unfold parse_else_unwrap. apply wp_bind. eapply wp_mono; [by apply (at_wp _ _ _ HT)|]. intros b s3 [-> Hb].
  rewrite cur_at in Hb. change (ppos (fwd s1 (len m e))) with (ppos s + len m e)%nat in Hb.
  assert ((m =? 0) && b = false) as ->.
  { destruct (m =? 0), b; try done. rewrite Hb in Helse. discriminate Helse. }
  apply wp_ret. by exists y.
Qed.

Lemma op_kinds_no_eof op : TokKind.Eof ∉ op_kinds op.
Proof. destruct op; simpl; rewrite ?not_elem_of_cons; split_and?; try done; apply not_elem_of_nil. Qed.

Lemma power_range op : 1 ≤ power op ≤ 5.
Proof. destruct op; simpl; lia. Qed.

Lemma top_ge m e : m ≤ 6 → m ≤ top m e.
Proof. intros. destruct e; simpl; try lia. destruct (Z.ltb_spec (power op) m); lia. Qed.

(** The operator between two printed operands, as [binop] finds it. *)
Lemma op_spelled p op m r :
  spelled p (op_kinds op ++ print m r) →
  no_postfix (at_pos p) = true ∧ binop_of (at_pos p) (at_pos (p + 1)) = Some (op, power op, length (op_kinds op)).
Proof.
  intros Hs. destruct (print_head m r) as (k & ks & Hr & Hk). rewrite Hr in Hs.
  pose proof (binop_of_op op k Hk) as Hb.
  destruct op; simpl in Hs; apply spelled_cons in Hs as [H1 Hs]; apply spelled_cons in Hs as [H2 Hs];
    rewrite Nat.add_1_r, H1, H2; by split.
Qed.

(** One turn of the loop over an operator and its right operand. *)
Lemma spine_turn op r n f M x l Q s :
  reads_expr r → M ≤ power op → inv s → spelled (ppos s) (op_kinds op ++ print (power op + 1) r) →
  let c := length (op_kinds op ++ print (power op + 1) r) in
  ends_expr (power op + 1) (at_pos (ppos s + c)) (at_pos (ppos s + c + 1)) = true →
  (length T ≤ n + ppos s)%nat → depth s + 2 * height r ≤ MAX_EXPR_DEPTH →
  tree_of x = Some l → expr_ok x →
  (∀ y, tree_of y = Some (T_Bin op l r) → expr_ok y → wp (loop_fuel f (binary_step (kn n) M) y) Q (fwd s c)) →
  wp (loop_fuel (S f) (binary_step (kn n) M) x) Q s.
Proof using HT.
  intros HB HM Hi Hs c He Hn Hd Hx Hxok Hk. pose proof (power_range op). unfold c in *. rewrite length_app in *.
  destruct (op_spelled _ _ _ _ Hs) as [_ Hop]. apply spelled_app in Hs as [Hso Hsr].
  pose proof (print_end _ _ _ Hsr) as Hl.
  cbn [loop_fuel]. apply wp_bind. unfold binary_step, binop. do 5 wp_step. wp_step.
  rewrite look_at, cur_at, Hop by done. rewrite (proj2 (Z.ltb_ge (power op) M)) by lia. apply wp_bind.
  eapply wp_mono; [apply bump_n_exact; [done|done|apply op_kinds_no_eof]|]. intros _ s' ->.
  apply wp_try_loop. destruct n as [|n']; [pose proof (inv_pos _ _ Hi); lia|]. cbn [knot_fuel k_expr].
  assert (inv (fwd s (length (op_kinds op)))) as Hi1 by (apply inv_fwd; [done|lia]).
  assert (1 ≤ length (op_kinds op))%nat by (destruct op; simpl; lia).
  assert (yields (parse_expr (kn n') (power op + 1)) (fwd s (length (op_kinds op))) r (len (power op + 1) r)) as Hy.
  { apply HB; simpl; [lia|done|done| |lia|done].
    by replace (ppos s + length (op_kinds op) + len (power op + 1) r)%nat
      with (ppos s + (length (op_kinds op) + len (power op + 1) r))%nat by lia. }
  eapply wp_mono; [exact Hy|]. intros o s' (y & -> & Hty & Hyok & ->). apply wp_bind.
  eapply wp_mono; [by apply (merge_wp fid)|]. intros sp s' [-> Hsp]. apply wp_ret.
  replace (fwd (fwd s (length (op_kinds op))) (len (power op + 1) r))
    with (fwd s (length (op_kinds op) + len (power op + 1) r)) by (unfold set_ppos; simpl; f_equal; lia).
  apply Hk; [|done]. simpl. by rewrite Hx, Hty.
Qed.

Lemma print_bin op l r m :
  m ≤ power op → print m (T_Bin op l r) = print (power op) l ++ op_kinds op ++ print (power op + 1) r.
Proof. intros. simpl. by rewrite (proj2 (Z.ltb_ge (power op) m)). Qed.

Lemma print_paren op l r m :
  power op < m → print m (T_Bin op l r) = TokKind.LParen :: print 0 (T_Bin op l r) ++ [TokKind.RParen].
Proof.
  intros. pose proof (power_range op). rewrite (print_bin _ _ _ 0) by lia. simpl.
  by rewrite (proj2 (Z.ltb_lt (power op) m)).
Qed.

Lemma spine_bin op l r m hl :
  0 ≤ m ≤ power op → reads_spine l (power op) hl → reads_expr r → reads_spine (T_Bin op l r) m (Z.max hl (2 * height r)).
Proof using HT.
  intros Hm HCl HBr M n f Q s HM Hi Hs Hfo Hn Hd Hf Hk. pose proof (power_range op). pose proof (print_end _ _ _ Hs) as Hl.
  destruct Hfo as [Hnp Htop]. cbn [top] in Htop. rewrite (proj2 (Z.ltb_ge (power op) m)) in Htop by lia.
  rewrite print_bin in * by lia. rewrite length_app in *. set (t := op_kinds op ++ print (power op + 1) r) in *.
  pose proof Hs as [Hsl Hsr]%spelled_app. destruct (op_spelled _ _ _ _ Hsr) as [Hnp' Hop].
  assert (1 ≤ length t)%nat by (unfold t; rewrite length_app; destruct op; simpl; lia).
  apply (HCl M n f Q s); try done; try lia.
  - split; [done|]. rewrite Hop. apply top_ge. lia.
  - intros x f' Hx Hxok Hf'. destruct f' as [|f']; [lia|].
    apply (spine_turn op r n f' M x l); try done; try (simpl; lia); [apply inv_fwd; [done|lia]| |].
    + unfold ends_expr. simpl. change (op_kinds op ++ print (power op + 1) r) with t. rewrite <-!Nat.add_assoc in *.
      rewrite Hnp. simpl. apply andb_true_intro. split; [|by rewrite (proj2 (Z.eqb_neq (power op + 1) 0)) by lia].
      destruct (binop_of _ _) as [[[? bp] ?]|]; [|done]. apply Z.ltb_lt. lia.
    + intros y Hy Hyok. change (op_kinds op ++ print (power op + 1) r) with t.
      replace (fwd (fwd s (len (power op) l)) (length t)) with (fwd s (len (power op) l + length t))
        by (unfold set_ppos; simpl; f_equal; lia).
      apply Hk; [done|done|lia].
Qed.

Lemma spine_mono e m h h' : reads_spine e m h → h ≤ h' → reads_spine e m h'.
Proof. intros HC Hh M n f Q s HM Hi Hs Hfo Hn Hd. apply HC; try done. lia. Qed.

Lemma expr_of_spines e : (∀ m, 0 ≤ m ≤ 6 → reads_spine e m (2 * height e - 1)) → reads_expr e.
Proof using HT.
  intros HC m n s Hm Hi Hs He Hn Hd. pose proof (height_pos e).
  apply (expr_of_spine e m (2 * height e - 1)); try done; try lia; [by apply HC|apply top_ge; lia].
Qed.

(** reads_operand parenthesized binary expression is an operand. *)
Lemma operand_bin op l r : reads_spine (T_Bin op l r) 0 (2 * height (T_Bin op l r) - 4) → reads_operand (T_Bin op l r).
Proof using HT.
  intros HC n s Hi Hs Hnp Hn Hd. pose proof (print_end _ _ _ Hs) as Hl. pose proof (power_range op). set (e := T_Bin op l r) in *.
  assert (3 ≤ height e) by (pose proof (height_pos l); simpl; lia).
  unfold e in Hs, Hnp, Hl |- *. rewrite print_paren in * by lia. cbn [length] in *. rewrite length_app in *. cbn [length] in *. fold e in Hs, Hnp, Hl |- *.
  apply spelled_cons in Hs as [Hc Hs]. apply spelled_app in Hs as [Hs Hr]. apply spelled_cons in Hr as [Hr _].
  pose proof (print_head 0 e) as (k & ks & Hk & Hkk).
  assert (at_pos (ppos s + 1) ≠ TokKind.RParen) as Hne.
  { rewrite Nat.add_1_r. rewrite Hk in Hs. apply spelled_cons in Hs as [-> _].
    destruct Hkk as [Hkk|[ -> | [ -> | [ -> | -> ]]]]; try done. by destruct k. }
  destruct n as [|n]; [pose proof (inv_pos _ _ Hi); lia|]. pose proof Hi as [Hk1 Hp1 Hd1].
  apply prefix_of_primary; [done|by rewrite cur_at, Hc|lia|done|done|].
  replace (S (len 0 e + 1)) with (1 + len 0 e + 1)%nat by lia.
  apply primary_paren; cbn [ppos depth set_ppos set_depth]; [split; simpl; [done|done|lia]|done|done| |].
  { by replace (ppos s + 1 + len 0 e)%nat with (S (ppos s) + len 0 e)%nat by lia. }
  apply (expr_of_spine e 0 (2 * height e - 4)); cbn [ppos depth set_ppos set_depth set_nsl]; try done; try lia.
  - split; simpl; [done|lia|lia].
  - by rewrite Nat.add_1_r.
  - replace (ppos s + 1 + len 0 e)%nat with (S (ppos s) + len 0 e)%nat by lia. by rewrite Hr.
  - apply top_ge. lia.
Qed.

Lemma print_read e : reads_operand e ∧ ∀ m, 0 ≤ m ≤ 6 → reads_spine e m (2 * height e - 1).
Proof using HT.
  induction e as [v|op e [IHA IHC]|op l [IHAl IHCl] r [IHAr IHCr]].
  - split; [apply operand_int|]. intros. by apply spine_atom; [|apply operand_int].
  - split; [by apply operand_un|]. intros. by apply spine_atom; [|apply operand_un].
  - pose proof (power_range op).
    assert (∀ m, 0 ≤ m ≤ power op → reads_spine (T_Bin op l r) m (2 * height (T_Bin op l r) - 4)) as HC.
    { intros m Hm. eapply spine_mono; [apply spine_bin; [done|apply IHCl; lia|by apply expr_of_spines]|simpl; lia]. }
    assert (reads_operand (T_Bin op l r)) as HA by (apply operand_bin, HC; lia). split; [done|]. intros m Hm.
    destruct (Z.ltb_spec (power op) m); [|eapply spine_mono; [apply HC; lia|lia]].
    apply spine_atom; [|done]. by rewrite (print_paren _ _ _ m), (print_paren _ _ _ 6) by lia.
Qed.
End Exact.

(** C2. The precedence table, both ways round.  Let the cursor stand on the
    tokens that print an expression tree [e] of integers, unary and binary
    operators at level [m], with only the parentheses the binding powers call
    for, and let the tokens after it end an expression of that level.  Then
    [parse_expr(m)] succeeds, returns exactly [e] (the right operators, nested
    left-associatively and by power, the two-token shifts included), stops
    right after the printed tokens, and leaves the diagnostics, the depth and
    every other field of the parser as they were; the nesting budget it needs
    is twice the height of the tree. *)
Theorem print_parse_roundtrip holes fid T s m e :
  toks_ok holes fid T → inv T s → 0 ≤ m ≤ 6 → spelled T (ppos s) (print m e) →
  let n := length (print m e) in
  ends_expr m (at_pos T (ppos s + n)) (at_pos T (ppos s + n + 1)) = true →
  depth s + 2 * height e ≤ MAX_EXPR_DEPTH →
  ∃ x, parse_expr (knot_for s) m s = Ret (Some x, set_ppos s (ppos s + n)) ∧ tree_of x = Some e.
Proof.
  intros HT Hi Hm Hs n He Hd. destruct (print_read _ _ _ HT hole_expr e) as [_ HC].
  destruct (expr_of_spines _ _ _ HT _ _ HC m (S (length (ptokens s))) s) as (o & s' & Hp & x & -> & Hx & _ & ->); try done.
  - pose proof (inv_tokens _ _ Hi) as ->. lia.
  - by exists x.
Qed.

Definition sum_source : bytes := str "1 - 2 - 3 * (4 + !5 << 6) || 7".
Definition sum_tokens : list Token := match tokenize 0 sum_source diags_new with Ret (ts, _) => ts | _ => [] end.
Definition sum_tree : tree :=
  T_Bin BO_Or
    (T_Bin BO_Sub (T_Bin BO_Sub (T_Int 1) (T_Int 2))
       (T_Bin BO_Mul (T_Int 3) (T_Bin BO_Add (T_Int 4) (T_Bin BO_Shl (T_Un UO_Not (T_Int 5)) (T_Int 6)))))
    (T_Int 7).

Lemma print_parse_roundtrip_witness :
  ∃ x, parse_expr (knot_for (new_parser sum_tokens diags_new)) 0 (new_parser sum_tokens diags_new)
         = Ret (Some x, set_ppos (new_parser sum_tokens diags_new) 17) ∧ tree_of x = Some sum_tree.
Proof.
  assert (toks_ok true 0 sum_tokens) as HT.
  { destruct (tokenize_toks_ok 0 sum_source diags_new) as (ts & d & Ht & _ & Hok); [vm_compute; discriminate|].
    unfold sum_tokens. by rewrite Ht. }
  apply (print_parse_roundtrip true 0 sum_tokens (new_parser sum_tokens diags_new) 0 sum_tree HT).
  - split; [reflexivity|vm_compute; lia|vm_compute; split; discriminate].
  - lia.
  - intros i k Hi. do 17 (destruct i as [|i]; [injection Hi as <-; vm_compute; reflexivity|]). discriminate Hi.
  - vm_compute. reflexivity.
  - vm_compute. discriminate.
Defined.
