(* ===== verification/Fmt.v ===== *)
(** * The source formatter ([crates/align_fmt/src/lib.rs])

    The annotations collected from the syntax tree, the trivia recovered from
    the gaps between tokens, the emit pass and the entry point with its safety
    net.  A [HashSet<u32>] is a [gset Z], a [HashMap<u32, &str>] a [gmap Z bytes];
    slicing a [str] panics off a character boundary. *)
From Stdlib Require Import ZArith Lia.
From stdpp Require Import gmap.
From S2P Require Import Prelude Utf8 Span Diag Text Token Lexer Ast Parser Depth.
Local Open Scope Z_scope.

(** ** Text *)

(** [str::is_char_boundary] *)
Definition is_char_boundary (s : bytes) (i : nat) : bool :=
  (i =? 0)%nat ||
  match s !! i with Some b => negb (is_cont b) | None => (i =? length s)%nat end.

(** [&s[a..b]] on a [str] *)
Definition str_slice (a b : nat) (s : bytes) : res bytes :=
  if (a <=? b)%nat && is_char_boundary s a && is_char_boundary s b then Ret (slice a b s) else Panic.

(** [str::trim_end].  A [str] is well-formed, so its characters are defined. *)
Fixpoint drop_blank (cs : list Z) : list Z :=
  match cs with c :: cs' => if is_whitespace c then drop_blank cs' else cs | [] => [] end.
Definition trim_end (s : bytes) : bytes :=
  match from_utf8 s with
  | Some cs => utf8_encode_all (reverse (drop_blank (reverse cs)))
  | None => s
  end.

(** [String::ends_with] *)
Definition ends_with (suffix s : bytes) : bool :=
  bytes_eqb (drop (length s - length suffix) s) suffix.

Definition INDENT : bytes := str "  ".

(** ** Annotations *)
Record Annotations := MkAnn {
  type_ranges : list (Z * Z);
  unary_ops : gset Z;
  fixed_array_semicolons : gset Z;
  float_option_text : gmap Z bytes
}.

Definition push_range (r : Z * Z) (a : Annotations) : Annotations :=
  MkAnn (type_ranges a ++ [r]) (unary_ops a) (fixed_array_semicolons a) (float_option_text a).
Definition add_unary (off : Z) (a : Annotations) : Annotations :=
  MkAnn (type_ranges a) ({[off]} ∪ unary_ops a) (fixed_array_semicolons a) (float_option_text a).
Definition add_semicolon (off : Z) (a : Annotations) : Annotations :=
  MkAnn (type_ranges a) (unary_ops a) ({[off]} ∪ fixed_array_semicolons a) (float_option_text a).
Definition set_option_text (off : Z) (s : bytes) (a : Annotations) : Annotations :=
  MkAnn (type_ranges a) (unary_ops a) (fixed_array_semicolons a) (<[off := s]> (float_option_text a)).

(** [for x in xs { f(x) }] and [if let Some(x) = o { f(x) }] *)
Definition visit_all {A} (f : A → Annotations → Annotations) : list A → Annotations → Annotations :=
  fix go l a := match l with [] => a | x :: l => go l (f x a) end.
Definition visit_opt {A} (f : A → Annotations → Annotations) (o : option A) (a : Annotations) : Annotations :=
  match o with Some x => f x a | None => a end.

(** [in_type_range] *)
Definition in_type_range (a : Annotations) (off : Z) : bool :=
  existsb (λ r, (r.1 <=? off) && (off <? r.2)) (type_ranges a).

(** [visit_generics]: from the first name to the last bound, widened over blanks
    to the enclosing angle brackets.  The starting offsets are clamped to the
    source, so every index below is in range. *)
Section Generics.
Context (src : bytes).

Definition blank_at (i : nat) : bool :=
  match src !! i with Some c => is_ascii_whitespace c | None => false end.
Fixpoint widen_left (l : nat) : nat :=
  match l with S l' => if blank_at l' then widen_left l' else l | O => O end.
Definition widen_right (r : nat) : nat := (r + count_while is_ascii_whitespace (drop r src))%nat.

Definition visit_generics (params : list TypeParam) (a : Annotations) : Annotations :=
  match head params, last params with
  | Some first, Some last_ =>
    let lo := lo (id_span (tp_name first)) in
    let hi := match tp_bound last_ with Some b => hi (id_span b) | None => hi (id_span (tp_name last_)) end in
    let l := widen_left (Nat.min (Z.to_nat lo) (length src)) in
    let l := match l with
             | S l' => if bool_decide (src !! l' = Some "<"%u8) then l' else l
             | O => O
             end in
    let r := widen_right (Nat.min (Z.to_nat hi) (length src)) in
    let r := if bool_decide (src !! r = Some ">"%u8) then S r else r in
    push_range (u32_of l, u32_of r) a
  | _, _ => a
  end.
End Generics.

(** [visit_type] *)
Fixpoint visit_type (ty : Ty) (a : Annotations) : Annotations :=
  match ty with
  | Ty_Named _ args sp =>
    match args with
    | [] => a
    | _ => visit_all visit_type args (push_range (lo sp, hi sp) a)
    end
  | Ty_FixedArray element _ separator _ => visit_type element (add_semicolon (lo separator) a)
  | Ty_Tuple elems _ => visit_all visit_type elems a
  | Ty_Fn params ret _ =>
    visit_type ret (visit_all (λ p, match p with MkFnTypeParam _ ty => visit_type ty end) params a)
  end.

(** The canonical order of the two options of a [float] scope. *)
Definition visit_float_options (options : list Ident) (a : Annotations) : Annotations :=
  match options with
  | [o0; o1] =>
    if existsb (λ o, bytes_eqb (id_name o) (str "reassoc")) options
       && existsb (λ o, bytes_eqb (id_name o) (str "contract")) options
    then set_option_text (lo (id_span o1)) (str "contract") (set_option_text (lo (id_span o0)) (str "reassoc") a)
    else a
  | _ => a
  end.

(** [visit_expr], [visit_block], [visit_stmt] *)
Fixpoint visit_expr (e : Expr) (a : Annotations) {struct e} : Annotations :=
  match e with
  | MkExpr k sp =>
    match k with
    | EK_Unary _ e => visit_expr e (add_unary (lo sp) a)
    | EK_Cast e ty => visit_type ty (visit_expr e a)
    | EK_Binary _ l r => visit_expr r (visit_expr l a)
    | EK_Call callee args => visit_all visit_expr args (visit_expr callee a)
    | EK_FieldAccess recv _ => visit_expr recv a
    | EK_If cond then_ els => visit_opt visit_expr els (visit_block then_ (visit_expr cond a))
    | EK_Block b | EK_Arena b | EK_NamedArena _ b | EK_TaskGroup b | EK_Unsafe b | EK_Loop b => visit_block b a
    | EK_FloatScope options b => visit_block b (visit_float_options options a)
    | EK_StructLit _ fields => visit_all (λ f, match f with MkFieldInit _ v _ => visit_expr v end) fields a
    | EK_ElseUnwrap opt fallback => visit_expr fallback (visit_expr opt a)
    | EK_Try e => visit_expr e a
    | EK_ArrayLit es | EK_Tuple es => visit_all visit_expr es a
    | EK_Index recv index => visit_expr index (visit_expr recv a)
    | EK_SliceRange recv start end_ => visit_opt visit_expr end_ (visit_opt visit_expr start (visit_expr recv a))
    | EK_Lambda params body =>
      visit_block body (visit_all (λ p, visit_opt visit_type (lp_ty p)) params a)
    | EK_Match scrutinee arms =>
      visit_all (λ arm, match arm with MkMatchArm _ body _ => visit_expr body end) arms (visit_expr scrutinee a)
    | EK_TupleIndex recv _ => visit_expr recv a
    | EK_Template parts =>
      visit_all (λ p, match p with TP_Hole e => visit_expr e | TP_Text _ => λ a, a end) parts a
    | EK_Unit | EK_Int _ | EK_Float _ | EK_Char _ | EK_Str _ | EK_Bool _ | EK_Path _ | EK_FieldShorthand _ => a
    end
  end
with visit_block (b : Block) (a : Annotations) {struct b} : Annotations :=
  match b with MkBlock stmts tail _ => visit_opt visit_expr tail (visit_all visit_stmt stmts a) end
with visit_stmt (s : Stmt) (a : Annotations) {struct s} : Annotations :=
  match s with
  | St_Let _ _ ty init _ => visit_expr init (visit_opt visit_type ty a)
  | St_LetTuple _ init _ => visit_expr init a
  | St_Assign place value => visit_expr value (visit_expr place a)
  | St_Return e | St_Break e _ => visit_opt visit_expr e a
  | St_Expr e => visit_expr e a
  end.

(** [visit_item] *)
Definition visit_item (src : bytes) (it : Item) (a : Annotations) : Annotations :=
  match it with
  | It_Fn d =>
    let a := visit_generics src (fn_type_params d) a in
    let a := visit_all (λ p, visit_type (p_ty p)) (fn_params d) a in
    let a := visit_opt visit_type (fn_ret d) a in
    match fn_body d with FB_Block b => visit_block b a | FB_Expr e => visit_expr e a end
  | It_Test d => visit_block (td_body d) a
  | It_Struct d =>
    visit_all (λ f, visit_type (fd_ty f)) (sd_fields d) (visit_generics src (sd_type_params d) a)
  | It_Enum d =>
    visit_all (λ v, visit_all visit_type (vd_payload v)) (ed_variants d) (visit_generics src (ed_type_params d) a)
  | It_Resource d => visit_generics src (rd_type_params d) a
  | It_Const d => visit_expr (cd_value d) (visit_opt visit_type (cd_ty d) a)
  | It_Extern blk =>
    visit_all (λ sig a, visit_opt visit_type (es_ret sig) (visit_all (λ p, visit_type (p_ty p)) (es_params sig) a))
      (eb_fns blk) a
  end.

(** [Annotations::collect] *)
Definition collect (f : File) (src : bytes) : Annotations :=
  visit_all (visit_item src) (f_items f) (MkAnn [] ∅ ∅ ∅).

(** [is_skipped] *)
Definition is_skipped (a : Annotations) (t : Token) : bool :=
  match kind t with
  | TokKind.End_ | TokKind.Eof => true
  | TokKind.Semicolon => bool_decide (lo (span t) ∉ fixed_array_semicolons a)
  | _ => false
  end.
Definition significant (a : Annotations) (ts : list Token) : list Token := List.filter (λ t, negb (is_skipped a t)) ts.

(** [tok_text] *)
Definition tok_text (src : bytes) (t : Token) : res bytes :=
  let lo := Nat.min (Z.to_nat (lo (span t))) (length src) in
  let hi := Nat.min (Z.to_nat (hi (span t))) (length src) in
  if (lo <=? hi)%nat then str_slice lo hi src else Ret [].

(** [Annotations::token_text] *)
Definition token_text (a : Annotations) (src : bytes) (t : Token) : res bytes :=
  match float_option_text a !! lo (span t) with Some s => Ret s | None => tok_text src t end.

Fixpoint res_map {A B} (f : A → res B) (l : list A) : res (list B) :=
  match l with
  | [] => Ret []
  | x :: l => let* y := f x in let* ys := res_map f l in Ret (y :: ys)
  end.

(** [sig_texts] *)
Definition sig_texts (ts : list Token) (src : bytes) (a : Annotations) : res (list bytes) :=
  res_map (token_text a src) (significant a ts).

(** ** Trivia *)
Inductive Triv := Newline | Semi | Comment (c : bytes).

(** The loop of [scan_gap]. *)
Fixpoint scan_loop (gap : bytes) (fuel : nat) (i : nat) : res (list Triv) :=
  match fuel with
  | O => OutOfFuel
  | S fuel =>
    match gap !! i with
    | None => Ret []
    | Some c =>
      if c =? 10 then let* r := scan_loop gap fuel (i + 1) in Ret (Newline :: r)
      else if c =? ";"%u8 then let* r := scan_loop gap fuel (i + 1) in Ret (Semi :: r)
      else if (c =? "/"%u8) && bool_decide (gap !! (i + 1)%nat = Some "/"%u8) then
        let j := (i + count_while (λ c, negb (c =? 10)%Z) (drop i gap))%nat in
        let* text := str_slice i j gap in
        let* r := scan_loop gap fuel j in
        Ret (Comment (trim_end text) :: r)
      else scan_loop gap fuel (i + 1)
    end
  end.
Definition scan_gap (gap : bytes) : res (list Triv) := scan_loop gap (S (length gap)) 0.

(** ** The emit pass *)
Record Formatter := MkFormatter { out : bytes; fdepth : nat }.

Definition push_str (f : Formatter) (s : bytes) : Formatter := MkFormatter (out f ++ s) (fdepth f).

Definition at_line_start (f : Formatter) : bool :=
  match out f with [] => true | _ => ends_with [10] (out f) end.

Definition break_line (f : Formatter) (nl : nat) : Formatter :=
  match out f with
  | [] => f
  | _ =>
    let f := if negb (ends_with [10] (out f)) then push_str f [10] else f in
    if (2 <=? nl)%nat && negb (ends_with [10; 10] (out f)) then push_str f [10] else f
  end.

Definition indent_line (f : Formatter) (depth : nat) (continuation : bool) : Formatter :=
  let n := (depth + if continuation then 1 else 0)%nat in
  Nat.iter n (λ f, push_str f INDENT) f.

Section Emit.
Context (src : bytes) (ann : Annotations).

(** A line that starts with [.] or a binary operator continues the previous one. *)
Definition is_continuation (t : Token) : bool :=
  match kind t with
  | TokKind.Dot | TokKind.DotDot | TokKind.DotDotEq => true
  | TokKind.Plus | TokKind.Minus | TokKind.Star | TokKind.Slash | TokKind.Percent | TokKind.EqEq | TokKind.NotEq
  | TokKind.Lt | TokKind.Le | TokKind.Gt | TokKind.Ge | TokKind.AndAnd | TokKind.OrOr | TokKind.Amp | TokKind.Pipe
  | TokKind.Caret => bool_decide (lo (span t) ∉ unary_ops ann)
  | _ => false
  end.

Definition is_kind (ks : list TokKind) (k : TokKind) : bool := existsb (kind_eqb k) ks.

(** The kinds after which an opening bracket is a call or an index. *)
Definition ends_value (k : TokKind) : bool :=
  match k with
  | TokKind.Ident _ | TokKind.Int _ | TokKind.Float _ | TokKind.Str _ | TokKind.Char _
  | TokKind.RParen | TokKind.RBracket | TokKind.RBrace | TokKind.Question | TokKind.True_ | TokKind.False_ => true
  | _ => false
  end.

(** [sep]: the canonical space between two tokens of one line *)
Definition sep (prev cur : Token) : bytes :=
  let p := kind prev in
  let c := kind cur in
  let hug := [] in
  let space := [32] in
  if bool_decide (lo (span prev) ∈ unary_ops ann) && is_kind [TokKind.Minus; TokKind.Bang; TokKind.Tilde] p then hug else
  if ((is_kind [TokKind.Lt] p && is_kind [TokKind.Lt] c) || (is_kind [TokKind.Gt] p && is_kind [TokKind.Gt] c))
     && (hi (span prev) =? lo (span cur)) then hug else
  if is_kind [TokKind.Lt; TokKind.Gt] c && in_type_range ann (lo (span cur)) then hug else
  if is_kind [TokKind.Lt] p && in_type_range ann (lo (span prev)) then hug else
  if is_kind [TokKind.Comma; TokKind.Colon; TokKind.Semicolon; TokKind.Question; TokKind.Dot; TokKind.DotDot;
              TokKind.DotDotEq] c then hug else
  if is_kind [TokKind.Semicolon] p then space else
  if is_kind [TokKind.Dot; TokKind.DotDot; TokKind.DotDotEq] p then hug else
  if is_kind [TokKind.LParen; TokKind.LBracket] p || is_kind [TokKind.RParen; TokKind.RBracket] c then hug else
  let prev_type_close := is_kind [TokKind.Gt] p && in_type_range ann (lo (span prev)) in
  let value_end := ends_value p || prev_type_close in
  if (is_kind [TokKind.LParen; TokKind.LBracket] c && value_end)
     || (is_kind [TokKind.FloatScope] p && is_kind [TokKind.LParen] c) then hug else
  if is_kind [TokKind.LBrace] c then space else
  if is_kind [TokKind.LBrace] p then (if is_kind [TokKind.RBrace] c then hug else space) else
  if is_kind [TokKind.RBrace] c then (if is_kind [TokKind.LBrace] p then hug else space) else
  space.

(** A comment, trailing on the current line or on a line of its own. *)
Definition emit_comment (pending_nl : nat) (c : bytes) (f : Formatter) : nat * Formatter :=
  if (pending_nl =? 0)%nat && negb (at_line_start f) then (0%nat, push_str (push_str f [32]) c)
  else
    let f := break_line f pending_nl in
    let f := indent_line f (fdepth f) false in
    (0%nat, push_str f c).

(** The loop over the trivia of a gap. *)
Fixpoint emit_trivia (evs : list Triv) (pending_nl : nat) (had_semi : bool) (f : Formatter) : nat * bool * Formatter :=
  match evs with
  | [] => (pending_nl, had_semi, f)
  | Newline :: evs => emit_trivia evs (S pending_nl) had_semi f
  | Semi :: evs => emit_trivia evs pending_nl true f
  | Comment c :: evs => let '(n, f) := emit_comment pending_nl c f in emit_trivia evs n had_semi f
  end.

(** A closing bracket leaves its level before it is placed, an opening one enters
    its level after. *)
Definition leave_level (t : Token) (f : Formatter) : Formatter :=
  match kind t with
  | TokKind.RBrace | TokKind.RParen | TokKind.RBracket => MkFormatter (out f) (fdepth f - 1)
  | _ => f
  end.
Definition enter_level (t : Token) (f : Formatter) : Formatter :=
  match kind t with
  | TokKind.LBrace | TokKind.LParen | TokKind.LBracket => MkFormatter (out f) (fdepth f + 1)
  | _ => f
  end.

(** The break, the kept semicolon or the space before a token. *)
Definition place (pending_nl : nat) (had_semi : bool) (prev : option Token) (t : Token) (f : Formatter) : Formatter :=
  if (0 <? pending_nl)%nat || at_line_start f then
    let f := break_line f pending_nl in
    indent_line f (fdepth f) (is_continuation t)
  else if had_semi then push_str f (str "; ")
  else match prev with Some p => push_str f (sep p t) | None => f end.

(** [emit] *)
Definition emit (gap : bytes) (prev : option Token) (t : Token) (f : Formatter) : res Formatter :=
  let* evs := scan_gap gap in
  let '(pending_nl, had_semi, f) := emit_trivia evs 0 false f in
  let f := place pending_nl had_semi prev t (leave_level t f) in
  let* text := token_text ann src t in
  Ret (enter_level t (push_str f text)).

(** [emit_trailing] *)
Definition emit_trailing (tail : bytes) (f : Formatter) : res Formatter :=
  let* evs := scan_gap tail in
  let '(_, _, f) := emit_trivia evs 0 false f in Ret f.

(** The loop of [run] over the significant tokens. *)
Fixpoint emit_all (sig : list Token) (prev_hi : Z) (prev : option Token) (f : Formatter) : res (Z * Formatter) :=
  match sig with
  | [] => Ret (prev_hi, f)
  | t :: sig =>
    let lo := Nat.min (Z.to_nat prev_hi) (length src) in
    let hi := Nat.min (Z.to_nat (Span.lo (span t))) (length src) in
    let* gap := (if (lo <=? hi)%nat then str_slice lo hi src else Ret []) in
    let* f := emit gap prev t f in
    emit_all sig (Span.hi (span t)) (Some t) f
  end.

(** [while out.ends_with('\n') { out.pop(); }] *)
Definition pop_newlines (s : bytes) : bytes :=
  take (length s - count_while (λ c, (c =? 10)%Z) (reverse s)) s.

(** [Formatter::run] *)
Definition format_tokens (ts : list Token) : res bytes :=
  let* '(prev_hi, f) := emit_all (significant ann ts) 0 None (MkFormatter [] 0) in
  let* tail := str_slice (Nat.min (Z.to_nat prev_hi) (length src)) (length src) src in
  let* f := emit_trailing tail f in
  Ret (pop_newlines (out f) ++ [10]).
End Emit.

(** ** The entry point *)

(** The first half of [format_source]: parse, collect, re-lex, emit. *)
Definition candidate (fid : FileId) (src : bytes) : res (option (list Token * Annotations * bytes)) :=
  let* '(parse_tokens, d) := tokenize fid src diags_new in
  let* '(ast, d) := parse_file parse_tokens d in
  if has_errors d then Ret None else
  let ann := collect ast src in
  let* '(tokens, _) := tokenize fid src diags_new in
  let* out := format_tokens src ann tokens in
  Ret (Some (tokens, ann, out)).

(** The second half: the safety net. *)
Definition safety_net (fid : FileId) (src : bytes) (tokens : list Token) (ann : Annotations) (out : bytes) :
    res (option bytes) :=
  let* '(out_tokens, out_d) := tokenize fid out diags_new in
  let* '(out_ast, out_d) := parse_file out_tokens out_d in
  if has_errors out_d then Ret None else
  let out_ann := collect out_ast out in
  let* a := sig_texts tokens src ann in
  let* b := sig_texts out_tokens out out_ann in
  if negb (bool_decide (a = b)) then Ret None else Ret (Some out).

Definition format_source (fid : FileId) (src : bytes) : res (option bytes) :=
  let* c := candidate fid src in
  match c with
  | None => Ret None
  | Some (tokens, ann, out) => safety_net fid src tokens ann out
  end.
