(* ===== verification/FmtSpec.v ===== *)
(** * What the formatter keeps

    The gaps between significant tokens, the layout the emit pass writes for
    them, and the entry point: the formatter does not panic, keeps every token
    and every comment in order, and returns only text that lexes and parses
    cleanly with the same significant tokens. *)
From Stdlib Require Import ZArith Lia.
From stdpp Require Import gmap.
From S2P Require Import Prelude Utf8 Span Diag Text Token Lexer LexerSpec Ast Parser Depth ParserSpec FileSpec Fmt.
Local Open Scope Z_scope.

(** ** Character boundaries *)
Lemma valid_head_not_cont b l : valid_utf8 (b :: l) → is_cont b = false.
Proof.
  intros [cs H]. simpl in H. unfold is_cont.
  destruct ((0 <=? b) && (b <? 128)) eqn:E; [b2p; lia|].
  destruct l as [|b1 l]; [done|]. revert H. unfold lead2, lead3, lead4.
  repeat (case_match; try done); intros; b2p; lia.
Qed.

Lemma boundary_ok s i : valid_utf8 s → (i ≤ length s)%nat → valid_utf8 (take i s) → is_char_boundary s i = true.
Proof.
  intros Hv Hi Hb. unfold is_char_boundary. destruct (i =? 0)%nat; [done|]. simpl.
  destruct (s !! i) as [b|] eqn:E; [|apply lookup_ge_None in E; apply Nat.eqb_eq; lia].
  rewrite <-(take_drop i s) in Hv. apply valid_utf8_app in Hv; [|done]. rewrite (drop_S _ _ _ E) in Hv.
  by rewrite (valid_head_not_cont _ _ Hv).
Qed.

Lemma str_slice_ok s a b :
  valid_utf8 s → (a ≤ b ≤ length s)%nat → valid_utf8 (take a s) → valid_utf8 (take b s) →
  str_slice a b s = Ret (slice a b s) ∧ valid_utf8 (slice a b s).
Proof.
  intros Hv Hab Ha Hb. unfold str_slice.
  rewrite (proj2 (Nat.leb_le a b)), !boundary_ok by (done || lia). split; [done|].
  rewrite (take_slice _ a) in Hb by lia. by apply valid_utf8_app in Hb.
Qed.

(** ** Trivia of a gap *)
Definition comments (evs : list Triv) : list bytes :=
  concat (map (λ e, match e with Comment c => [c] | _ => [] end) evs).

(** A comment is followed by a newline or nothing. *)
Fixpoint parted (evs : list Triv) : Prop :=
  match evs with
  | Comment _ :: ((Newline :: _ | []) as r) => parted r
  | Comment _ :: _ => False
  | _ :: r => parted r
  | [] => True
  end.

(** A comment's text starts with two slashes, stays on its line and is
    well-formed. *)
Definition comment_ok (c : bytes) : Prop :=
  take 2 c = [47; 47] ∧ (10 ∉ c) ∧ valid_utf8 c.

Lemma drop_blank_suffix cs : ∃ l, cs = l ++ drop_blank cs.
Proof.
  induction cs as [|c cs (l & IH)]; simpl; [by exists []|]. case_if; [|by exists []]. exists (c :: l). simpl. by f_equal.
Qed.

Lemma trim_end_prefix cs : ∃ l, cs = reverse (drop_blank (reverse cs)) ++ l.
Proof.
  destruct (drop_blank_suffix (reverse cs)) as (l & H). exists (reverse l).
  rewrite <-reverse_app, <-H. by rewrite reverse_involutive.
Qed.

Lemma drop_blank_keep l c t : is_whitespace c = false → ∃ l', drop_blank (l ++ c :: t) = l' ++ c :: t.
Proof.
  intros Hc. induction l as [|x l (l' & IH)]; simpl; [rewrite Hc; by exists []|].
  case_if; [eauto|]. by exists (x :: l).
Qed.

Lemma trim_comment_ok text : valid_utf8 text → take 2 text = [47; 47] → (10 ∉ text) → comment_ok (trim_end text).
Proof.
  intros [cs Hcs] Ht Hn. destruct text as [|x [|y text]]; [done..|]. injection Ht as -> ->. unfold trim_end. rewrite Hcs.
  destruct (from_utf8_inv _ _ Hcs) as [He Hs]. destruct (trim_end_prefix cs) as (l & Hl).
  set (kept := reverse (drop_blank (reverse cs))) in *.
  assert (Forall (λ c, is_scalar c = true) kept) as Hk by (rewrite Hl in Hs; apply Forall_app in Hs as [? _]; done).
  assert (∃ r, kept = 47 :: 47 :: r) as (r & Hr).
  { assert (∃ r, cs = 47 :: 47 :: r) as (r & ->).
    { simpl in Hcs. destruct (from_utf8 text) as [r|]; [|done]. injection Hcs as <-. by exists r. }
    unfold kept. rewrite !reverse_cons, <-app_assoc. simpl. destruct (drop_blank_keep (reverse r) 47 [47]) as (l' & ->); [done|].
    exists (reverse l'). by rewrite reverse_app. }
  split_and!.
  - by rewrite Hr.
  - intros Hin. apply Hn. rewrite He, Hl, utf8_encode_all_app, elem_of_app. by left.
  - eexists. by apply from_utf8_encode_all.
Qed.

(** Scanning any gap succeeds; its comments are sound and each is followed by a
    newline, unless the gap ends with it. *)
Lemma scan_loop_ok gap fuel i :
  valid_utf8 gap → (i ≤ length gap)%nat → (length gap < fuel + i)%nat →
  ∃ evs, scan_loop gap fuel i = Ret evs ∧ parted evs ∧ Forall comment_ok (comments evs) ∧
    (gap !! i = Some 10 → head evs = Some Newline) ∧ (i = length gap → evs = []).
Proof.
  intros Hv. revert i. induction fuel as [|fuel IH]; intros i Hi Hf; [lia|]. cbn [scan_loop].
  destruct (gap !! i) as [c|] eqn:Hc.
  2:{ exists []. split_and!; try done. }
  pose proof (lookup_lt_Some _ _ _ Hc).
  destruct (IH (i + 1)%nat) as (evs & He & Hp & Hco & _ & _); [lia|lia|].
  destruct (c =? 10) eqn:E1; b2p.
  { rewrite He. exists (Newline :: evs). split_and!; try done. lia. }
  destruct (c =? 59) eqn:E2; b2p.
  { rewrite He. exists (Semi :: evs). split_and!; try done; [congruence|lia]. }
  destruct ((c =? 47) && _) eqn:E3; b2p.
  2:{ exists evs. split_and!; try done; [congruence|lia]. }
  subst c. rewrite bool_decide_eq_true in H1. set (n := count_while _ _).
  pose proof (count_while_le (λ c, negb (c =? 10)) (drop i gap)) as Hle. fold n in Hle. rewrite length_drop in Hle.
  assert (2 ≤ n)%nat as Hn2.
  { unfold n. rewrite (drop_S _ _ _ Hc). rewrite Nat.add_1_r in H1. rewrite (drop_S _ _ _ H1). simpl. lia. }
  pose proof (count_while_take (λ c, negb (c =? 10)) (drop i gap)) as Hall. fold n in Hall.
  assert (gap !! (i + n)%nat = Some 10 ∨ (i + n)%nat = length gap) as Hend.
  { destruct (gap !! (i + n)%nat) as [x|] eqn:Hx; [left|right; apply lookup_ge_None in Hx; lia].
    rewrite <-lookup_drop in Hx. apply count_while_stop in Hx. b2p. by subst. }
  assert (valid_utf8 (take (i + n) gap)) as Hb2.
  { destruct Hend as [Hx|Hx]; [eapply ascii_boundary; [done|done|lia]|by rewrite take_ge by lia]. }
  destruct (str_slice_ok gap i (i + n)) as [-> Hvt]; [done|lia|eapply ascii_boundary; [done|done|lia]|done|]. cbn [res_bind].
  destruct (IH (i + n)%nat) as (evs2 & -> & Hp2 & Hco2 & Hnl & Hnil); [lia|lia|]. cbn [res_bind].
  exists (Comment (trim_end (slice i (i + n) gap)) :: evs2). split; [done|]. split; [|split; [|split; [done|lia]]].
  - destruct Hend as [Hx|Hx]; [|by rewrite (Hnil Hx)]. specialize (Hnl Hx). destruct evs2 as [|[] ?]; done.
  - change (comments (Comment ?c :: evs2)) with (c :: comments evs2). constructor; [|done]. apply trim_comment_ok; [done| |].
    + unfold slice. rewrite Nat.add_sub', take_take, Nat.min_l by lia. rewrite (drop_S _ _ _ Hc).
      rewrite Nat.add_1_r in H1. by rewrite (drop_S _ _ _ H1).
    + unfold slice. rewrite Nat.add_sub'. intros Hin. rewrite Forall_forall in Hall. by apply Hall in Hin.
Qed.

Lemma scan_gap_ok gap :
  valid_utf8 gap → ∃ evs, scan_gap gap = Ret evs ∧ parted evs ∧ Forall comment_ok (comments evs).
Proof.
  intros Hv. destruct (scan_loop_ok gap (S (length gap)) 0) as (evs & H & ? & ? & _); [done|lia|lia|]. by exists evs.
Qed.

(** ** Gaps of a lexed source *)
Section Gaps.
Context (fid : FileId) (src : bytes).

(** [[a, b)] holds only blanks, newlines, semicolons and comments. *)
Inductive loose : nat → nat → Prop :=
  | loose_nil a : loose a a
  | loose_blank a b c : src !! a = Some c → c = 32 ∨ c = 9 ∨ c = 13 ∨ c = 10 ∨ c = 59 → loose (a + 1) b → loose a b
  | loose_comment a e b :
      src !! a = Some 47 → src !! (a + 1)%nat = Some 47 → (a + 1 < e ≤ length src)%nat →
      Forall (λ c, c ≠ 10) (slice a e src) → (e = length src ∨ src !! e = Some 10) → loose e b → loose a b.

Lemma loose_trivia a b : trivia src a b → loose a b.
Proof. induction 1; [constructor|eapply loose_blank; eauto; intuition|eapply loose_comment; eauto]. Qed.

Lemma loose_trans a b c : loose a b → loose b c → loose a c.
Proof. induction 1; intros; [done|by eapply loose_blank; eauto|by eapply loose_comment; eauto]. Qed.

Lemma loose_le a b : loose a b → (a ≤ b)%nat.
Proof. induction 1; lia. Qed.

(** The significant tokens from position [a] on, each at a place where a token
    can start, with loose gaps before, between and after them. *)
Inductive woven : nat → list Token → Prop :=
  | woven_end a : loose a (length src) → bnd src a → woven a []
  | woven_tok a t lo hi sig :
      loose a lo → bnd src a → bnd src lo → tok_at fid src t lo hi → (lo < length src)%nat → src !! lo ≠ Some 10 →
      woven hi sig → woven a (t :: sig).

Lemma woven_loose a b sig : loose a b → bnd src a → woven b sig → woven a sig.
Proof.
  intros Hl Ha H. inversion H; subst.
  - apply woven_end; [by eapply loose_trans|done].
  - eapply woven_tok; [by eapply loose_trans|done..].
Qed.

Lemma keyword_first k text : keyword_text k = Some text ∨ symbol_text k = Some text → ∃ c r, text = c :: r ∧ c ≠ 10.
Proof. destruct k; intros [[= <-]|[= <-]]; eexists _, _; (split; [reflexivity|done]). Qed.

(** No token starts at a newline. *)
Lemma token_start t a b :
  tok_at fid src t a b → is_mark (kind t) = false → (a < length src)%nat ∧ src !! a ≠ Some 10.
Proof.
  intros [_ Hr Hs] Hm. assert (∃ c, src !! a = Some c ∧ c ≠ 10) as (c & Hc & Hn).
  2:{ split; [by eapply lookup_lt_Some|congruence]. }
  assert (∀ c r, slice a b src = c :: r → src !! a = Some c) as Hfirst.
  { intros c r H. rewrite <-(Nat.add_0_r a). destruct (decide (a < b)%nat); [|unfold slice in H; by replace (b - a)%nat with 0%nat in H by lia].
    rewrite <-(slice_lookup a b) by lia. by rewrite H. }
  unfold spells in Hs. destruct (kind t); try discriminate Hm;
    try (apply keyword_first in Hs as (c & r & Hs & Hn); exists c; split; [by eapply Hfirst|done]).
  - destruct Hs as [(c & Hc & Hd) _]. exists c. split; [done|]. unfold is_ascii_digit in Hd. lia.
  - destruct Hs as [(c & Hc & Hd) _]. exists c. split; [done|]. unfold is_ascii_digit in Hd. lia.
  - by eexists.
  - by destruct Hs; eexists.
  - destruct Hs as (-> & Hid & _). destruct (slice a b src) as [|c r] eqn:E; [done|]. exists c. split; [by eapply Hfirst|].
    intros ->. discriminate Hid.
Qed.

Lemma skipped_loose ann t lo hi : tok_at fid src t lo hi → is_skipped ann t = true → loose lo hi.
Proof.
  intros [_ Hr Hs] Hk. unfold is_skipped in Hk. unfold spells in Hs. destruct (kind t); try discriminate Hk;
    try (subst; constructor). destruct Hs as [Hs|[= Hs]]; [discriminate Hs|].
  assert (hi = lo + 1)%nat as ->.
  { apply (f_equal length) in Hs. rewrite slice_length in Hs by lia. change (1 = hi - lo)%nat in Hs. lia. }
  eapply (loose_blank _ _ 59); [|auto|constructor]. rewrite <-(Nat.add_0_r lo), <-(slice_lookup lo (lo + 1)) by lia. by rewrite <-Hs.
Qed.

(** The significant tokens of a source that lexes cleanly. *)
Lemma tiled_woven ann l ts b sig :
  tiled fid src (trivia src) (bnd src) l ts b → woven b sig → woven 0 (significant ann ts ++ sig).
Proof.
  intros Ht. revert sig. induction Ht as [|ts b t lo hi Hts IH Hb Hg Hel Hta Heh Hl]; intros sig Hw; [done|].
  unfold significant. rewrite List.filter_app, <-app_assoc. fold (significant ann ts). apply IH.
  apply loose_trivia in Hg. assert (bnd src b) as Hbb by (inversion Hts; subst; [by exists []|done]). simpl.
  destruct (is_skipped ann t) eqn:Hk; simpl.
  - eapply woven_loose; [|done|done]. eapply loose_trans; [done|]. by eapply skipped_loose.
  - destruct (token_start _ _ _ Hta); [by unfold is_skipped in Hk; destruct (kind t)|]. by eapply woven_tok.
Qed.

(** A gap before a token does not end in a comment. *)
Definition trailing (evs : list Triv) : bool :=
  match last evs with Some (Comment _) => true | _ => false end.

Lemma scan_loose a lo p fuel i evs :
  loose p lo → (lo < length src)%nat → src !! lo ≠ Some 10 → p = (a + i)%nat →
  scan_loop (slice a lo src) fuel i = Ret evs → trailing evs = false.
Proof.
  intros Hl Hlo Hn. revert i fuel evs. induction Hl as [p|p b c Hc Hcc Hl IH|p e b H1 H2 He Hall Hend Hl IH];
    intros i fuel evs -> Hs; (destruct fuel as [|fuel]; [done|]); cbn [scan_loop] in Hs.
  - destruct (slice a (a + i) src !! i) eqn:E; [|by injection Hs as <-]. apply lookup_lt_Some in E.
    unfold slice in E. rewrite length_take in E. lia.
  - pose proof (loose_le _ _ Hl). rewrite slice_lookup, Hc in Hs by lia. rewrite <-Nat.add_assoc in IH.
    assert (∀ r e, scan_loop (slice a b src) fuel (i + 1) = Ret r →
              match e with Comment _ => False | _ => True end → trailing (e :: r) = false) as Hcons.
    { intros r e Hr He. specialize (IH Hlo Hn (i + 1)%nat fuel r eq_refl Hr). unfold trailing in *.
      destruct r; [by destruct e|]. by rewrite last_cons_cons. }
    repeat case_match; b2p; subst; try lia;
      try (apply res_bind_Ret_inv in Hs as (r & Hr & [= <-]); by apply Hcons). by eapply IH.
  - pose proof (loose_le _ _ Hl). assert (e < b)%nat.
    { destruct (decide (e = b)) as [->|]; [|lia]. destruct Hend; [lia|done]. }
    assert (src !! e = Some 10) as He10 by (destruct Hend; [lia|done]).
    rewrite slice_lookup, H1 in Hs by lia. simpl in Hs.
    rewrite slice_lookup, Nat.add_assoc, H2, bool_decide_true in Hs by (done || lia).
    assert (i + count_while (λ c, negb (c =? 10)%Z) (drop i (slice a b src)) = e - a)%nat as Hcnt.
    { replace (drop i (slice a b src)) with (slice (a + i) b src).
      - rewrite (slice_app _ e), (slice_app e (e + 1)), (slice_one _ _ _ He10) by lia. simpl.
        rewrite count_while_app; [rewrite slice_length by lia; lia| |done].
        eapply Forall_impl; [exact Hall|]. intros c Hc. simpl. destruct (Z.eqb_spec c 10); done.
      - unfold slice. rewrite skipn_firstn_comm, drop_drop. f_equal. lia. }
    rewrite Hcnt in Hs. apply res_bind_Ret_inv in Hs as (text & _ & Hs). apply res_bind_Ret_inv in Hs as (r & Hr & [= <-]).
    specialize (IH Hlo Hn (e - a)%nat fuel r ltac:(lia) Hr). unfold trailing in *.
    destruct r; [|by rewrite last_cons_cons].
    destruct fuel as [|fuel]; [done|]. cbn [scan_loop] in Hr. rewrite slice_lookup in Hr by lia.
    replace (a + (e - a))%nat with e in Hr by lia. rewrite He10 in Hr. by apply res_bind_Ret_inv in Hr as (? & _ & ?).
Qed.

(** Slices of the source between boundaries. *)
Lemma slice_src a b : valid_utf8 src → (a ≤ b ≤ length src)%nat → bnd src a → bnd src b →
  str_slice a b src = Ret (slice a b src) ∧ valid_utf8 (slice a b src).
Proof. intros. by apply str_slice_ok. Qed.
End Gaps.

(** ** The layout between two tokens *)

(** Blanks, newlines, semicolons and the comments [cs], every comment closed by
    a newline; the flag says whether the last comment is still open. *)
Inductive layout : bool → list bytes → bytes → Prop :=
  | layout_nil : layout false [] []
  | layout_blank cs l b : layout false cs l → b = 32 ∨ b = 59 ∨ b = 10 → layout false cs (l ++ [b])
  | layout_comment cs l c : layout false cs l → layout true (cs ++ [c]) (l ++ c)
  | layout_close cs l : layout true cs l → layout false cs (l ++ [10]).

(** [f'] is [f] with a layout [l] appended. *)
Record laid (base : bytes) (o : bool) (cs : list bytes) (f : Formatter) : Prop := {
  ld_layout : ∃ l, out f = base ++ l ∧ layout o cs l;
  ld_open : o = true → ends_with [10] (out f) = false ∧ out f ≠ []
}.

Lemma laid_blank base cs f b d :
  laid base false cs f → b = 32 ∨ b = 59 ∨ b = 10 → laid base false cs (MkFormatter (out f ++ [b]) d).
Proof.
  intros [(l & Hl & Hlay) _] Hb. split; [|done]. exists (l ++ [b]). simpl. rewrite Hl, <-app_assoc. split; [done|].
  by apply layout_blank.
Qed.

Lemma laid_blanks base cs f bs : laid base false cs f → Forall (λ b, b = 32 ∨ b = 59 ∨ b = 10) bs → laid base false cs (push_str f bs).
Proof.
  intros Hl Hb. unfold push_str. revert f Hl. induction Hb as [|b bs Hb _ IH]; intros f Hl.
  - by destruct f as [o d]; simpl; rewrite app_nil_r.
  - change (b :: bs) with ([b] ++ bs). rewrite app_assoc. apply (IH (MkFormatter (out f ++ [b]) (fdepth f))). by apply laid_blank.
Qed.

Lemma laid_indent base cs f n c : laid base false cs f → laid base false cs (indent_line f n c).
Proof.
  intros Hl. unfold indent_line. set (k := (_ + _)%nat). clearbody k. induction k as [|k IH]; [done|]. simpl.
  apply laid_blanks; [done|]. repeat constructor.
Qed.

(** Breaking the line closes an open comment. *)
Lemma laid_break base o cs f n : laid base o cs f → laid base false cs (break_line f n).
Proof.
  intros [(l & Hl & Hlay) Ho]. unfold break_line. destruct (out f) as [|x s] eqn:Hout.
  { destruct o; [by destruct Ho|]. split; [by exists l; rewrite Hout|done]. }
  rewrite <-Hout in *.
  assert (laid base false cs (if negb (ends_with [10] (out f)) then push_str f [10] else f)) as H1.
  { destruct o.
    - destruct Ho as [-> _]; [done|]. split; [|done]. exists (l ++ [10]). simpl. rewrite Hl, <-app_assoc. split; [done|].
      by apply layout_close.
    - assert (laid base false cs f) by (split; [by exists l|done]). case_if; [apply laid_blanks; [done|]; constructor; auto|done]. }
  set (f1 := if negb _ then _ else _) in *. case_if; [|done]. apply laid_blanks; [done|]. constructor; auto.
Qed.

Lemma not_ends_newline s c : c ≠ [] → (10 ∉ c) → ends_with [10] (s ++ c) = false.
Proof.
  intros Hne Hn. destruct (exists_last Hne) as (c' & y & ->). unfold ends_with. rewrite app_assoc, length_app. simpl.
  rewrite Nat.add_sub, drop_app_length. apply bool_decide_eq_false. intros [= ->]. apply Hn.
  rewrite elem_of_app, list_elem_of_singleton. by right.
Qed.

Lemma laid_comment base cs f c : laid base false cs f → comment_ok c → laid base true (cs ++ [c]) (push_str f c).
Proof.
  intros [(l & Hl & Hlay) _] (Ht & Hn & _). assert (c ≠ []) by (by intros ->). split.
  - exists (l ++ c). simpl. rewrite Hl, <-app_assoc. split; [done|]. by apply layout_comment.
  - intros _. simpl. split; [by apply not_ends_newline|]. intros [_ ?]%app_nil. done.
Qed.

Lemma depth_break f n : fdepth (break_line f n) = fdepth f.
Proof. unfold break_line. destruct (out f); [done|]. by repeat case_if. Qed.

Lemma depth_indent f n c : fdepth (indent_line f n c) = fdepth f.
Proof. unfold indent_line. induction (n + _)%nat as [|k IH]; [done|]. simpl. by rewrite IH. Qed.

Lemma emit_comment_ok base o cs f n c :
  laid base o cs f → comment_ok c → (o = true → (0 < n)%nat) →
  ∃ f', emit_comment n c f = (0%nat, f') ∧ laid base true (cs ++ [c]) f' ∧ fdepth f' = fdepth f.
Proof.
  intros Hl Hc Ho. unfold emit_comment. destruct ((n =? 0)%nat && _) eqn:E.
  - b2p. subst. destruct o; [specialize (Ho eq_refl); lia|]. eexists. split; [done|]. split; [|done].
    apply laid_comment; [|done]. apply laid_blanks; [done|]. constructor; auto.
  - eexists. split; [done|]. split; [apply laid_comment; [|done]; eapply laid_indent, laid_break; done|].
    simpl. by rewrite depth_indent, depth_break.
Qed.

Lemma emit_trivia_ok base evs n semi f o cs :
  laid base o cs f → parted evs → Forall comment_ok (comments evs) →
  (o = true → (0 < n)%nat ∨ head evs = Some Newline ∨ evs = []) →
  ∃ n' semi' f' o', emit_trivia evs n semi f = (n', semi', f') ∧ laid base o' (cs ++ comments evs) f' ∧
    (o' = true → (0 < n')%nat ∨ trailing evs = true ∨ (evs = [] ∧ o = true ∧ n' = n)).
Proof.
  revert n semi f o cs. induction evs as [|ev evs IH]; intros n semi f o cs Hl Hp Hc Ho.
  { exists n, semi, f, o. rewrite app_nil_r. split_and!; [done|done|]. tauto. }
  assert (trailing evs = true → trailing (ev :: evs) = true) as Htr.
  { unfold trailing. by destruct evs. }
  destruct ev as [| |c]; cbn [emit_trivia].
  - destruct (IH (S n) semi f o cs) as (n' & semi' & f' & o' & -> & Hl' & Ho'); [done|done|done|intros _; left; lia|].
    exists n', semi', f', o'. split_and!; [done|done|]. intros Hot. destruct (Ho' Hot) as [?|[?|(_ & _ & ->)]]; [auto|auto|left; lia].
  - assert (o = true → (0 < n)%nat) as Ho1 by (intros Hot; by destruct (Ho Hot) as [?|[?|?]]).
    destruct (IH n true f o cs) as (n' & semi' & f' & o' & -> & Hl' & Ho'); [done|done|done|auto|].
    exists n', semi', f', o'. split_and!; [done|done|]. intros Hot. destruct (Ho' Hot) as [?|[?|(_ & ? & ->)]]; auto.
  - assert (o = true → (0 < n)%nat) as Ho1 by (intros Hot; by destruct (Ho Hot) as [?|[?|?]]).
    change (comments (Comment c :: evs)) with ([c] ++ comments evs) in *. apply Forall_cons in Hc as [Hc1 Hc].
    destruct (emit_comment_ok base o cs f n c) as (f1 & -> & Hl1 & _); [done|done|done|].
    destruct (IH 0%nat semi f1 true (cs ++ [c])) as (n' & semi' & f' & o' & -> & Hl' & Ho'); [done|by destruct evs as [|[] ?]|done|
      by intros _; destruct evs as [|[] ?]; auto|].
    exists n', semi', f', o'. rewrite app_assoc. split_and!; [done|done|]. intros Hot.
    destruct (Ho' Hot) as [?|[?|(-> & _)]]; auto.
Qed.

(** ** One token *)
Section Tokens.
Context (fid : FileId) (src : bytes) (ann : Annotations).

Lemma laid_depth base o cs f d : laid base o cs f → laid base o cs (MkFormatter (out f) d).
Proof. intros [H1 H2]. by split. Qed.

Lemma sep_blank p t : Forall (λ b, b = 32 ∨ b = 59 ∨ b = 10) (sep ann p t).
Proof. unfold sep. repeat (case_if; [by repeat constructor|]). by repeat case_if; repeat constructor. Qed.

Lemma place_ok base o cs n semi prev t f :
  laid base o cs f → (o = true → (0 < n)%nat) → laid base false cs (place ann n semi prev t f).
Proof.
  intros Hl Ho. unfold place. destruct ((0 <? n)%nat || _) eqn:E; [eapply laid_indent, laid_break; done|].
  b2p. destruct o; [specialize (Ho eq_refl); lia|].
  destruct semi; [apply laid_blanks; [done|]; constructor; [auto|constructor; auto]|].
  destruct prev as [p|]; [|done]. apply laid_blanks; [done|apply sep_blank].
Qed.

Lemma emit_ok gap evs prev t f text :
  scan_gap gap = Ret evs → parted evs → Forall comment_ok (comments evs) → trailing evs = false →
  token_text ann src t = Ret text →
  ∃ f' l, emit src ann gap prev t f = Ret f' ∧ out f' = out f ++ l ++ text ∧ layout false (comments evs) l.
Proof.
  intros Hs Hp Hc Htr Ht. unfold emit. rewrite Hs. cbn [res_bind].
  destruct (emit_trivia_ok (out f) evs 0 false f false []) as (n & semi & f1 & o & -> & Hl & Ho); [|done|done|done|].
  { split; [|done]. exists []. split; [by rewrite app_nil_r|constructor]. }
  rewrite app_nil_l in Hl. assert (o = true → (0 < n)%nat) as Ho1.
  { intros Hot. destruct (Ho Hot) as [?|[?|(_ & ? & _)]]; [done|congruence|done]. }
  assert (laid (out f) o (comments evs) (leave_level t f1)) as Hl2 by (unfold leave_level; destruct (kind t); by try apply laid_depth).
  destruct (place_ok _ _ _ n semi prev t _ Hl2 Ho1) as [(l & Hout & Hlay) _].
  rewrite Ht. cbn [res_bind]. eexists _, l. split; [done|]. split; [|done].
  assert (∀ f, out (enter_level t f) = out f) as -> by (intros; unfold enter_level; by destruct (kind t)).
  simpl. by rewrite Hout, <-app_assoc.
Qed.

(** ** The whole emit pass *)

(** The text printed for the significant tokens from position [a] on: before
    each token a layout with the comments of its gap, then the token's text;
    after the last one a layout with the comments that remain. *)
Inductive printed : nat → list Token → bytes → Prop :=
  | printed_end a evs o l :
      scan_gap (slice a (length src) src) = Ret evs → layout o (comments evs) l → printed a [] l
  | printed_tok a t lo hi sig evs l text r :
      span t = mk_span fid lo hi → scan_gap (slice a lo src) = Ret evs → layout false (comments evs) l →
      token_text ann src t = Ret text → printed hi sig r → printed a (t :: sig) (l ++ text ++ r).

Lemma layout_valid o cs l : layout o cs l → Forall comment_ok cs → valid_utf8 l.
Proof.
  induction 1 as [|cs l b _ IH Hb|cs l c _ IH|cs l _ IH]; intros Hc.
  - by exists [].
  - apply valid_utf8_app; [auto|]. destruct Hb as [->|[->| ->]]; by eexists.
  - apply Forall_app in Hc as [Hc [(_ & _ & Hv) _]%Forall_cons]. apply valid_utf8_app; auto.
  - apply valid_utf8_app; [auto|]. by eexists.
Qed.

Context (Hv : valid_utf8 src) (Hmax : Z.of_nat (length src) ≤ U32_MAX).
Context (Hann : ∀ k s, float_option_text ann !! k = Some s → valid_utf8 s).

Lemma token_text_ok t lo hi :
  tok_at fid src t lo hi → bnd src lo → bnd src hi → ∃ text, token_text ann src t = Ret text ∧ valid_utf8 text.
Proof using Hv Hmax Hann.
  intros [Hsp Hr _] Hlo Hhi. assert (2 ^ 32 = U32_MAX + 1) by done. unfold token_text.
  destruct (float_option_text ann !! _) as [s|] eqn:E; [exists s; split; [done|by eapply Hann]|].
  unfold tok_text. rewrite Hsp. simpl. rewrite !u32_of_small, !Nat2Z.id, !Nat.min_l by lia.
  rewrite (proj2 (Nat.leb_le lo hi)) by lia. destruct (slice_src src lo hi) as [-> ?]; [done..|]. by eexists.
Qed.

Lemma woven_bnd a sig : woven fid src a sig → bnd src a ∧ (a ≤ length src)%nat.
Proof. intros H. inversion H; subst; split; try done; [by eapply loose_le|]. apply loose_le in H0. lia. Qed.

(** Emitting the rest of the tokens and the trailing trivia. *)
Definition emit_rest (sig : list Token) (prev_hi : Z) (prev : option Token) (f : Formatter) : res Formatter :=
  let* '(prev_hi, f) := emit_all src ann sig prev_hi prev f in
  let* tail := str_slice (Nat.min (Z.to_nat prev_hi) (length src)) (length src) src in
  emit_trailing tail f.

Lemma emit_rest_ok a sig prev f :
  woven fid src a sig →
  ∃ f' r, emit_rest sig (Z.of_nat a) prev f = Ret f' ∧ out f' = out f ++ r ∧ printed a sig r ∧ valid_utf8 r.
Proof using Hv Hmax Hann.
  intros Hw. revert prev f. assert (2 ^ 32 = U32_MAX + 1) by done. assert (bnd src (length src)) as Hbl by (unfold bnd; by rewrite take_ge).
  induction Hw as [a Hl Hb|a t lo hi sig Hl Hb Hblo Hta Hlt Hn Hw IH]; intros prev f; unfold emit_rest; cbn [emit_all res_bind].
  - pose proof (loose_le _ _ _ Hl). rewrite Nat2Z.id, Nat.min_l by lia.
    destruct (slice_src src a (length src)) as [-> Hvs]; [done|lia|done|done|]. cbn [res_bind].
    destruct (scan_gap_ok _ Hvs) as (evs & Hs & Hp & Hc). unfold emit_trailing. rewrite Hs. cbn [res_bind].
    destruct (emit_trivia_ok (out f) evs 0 false f false []) as (n & semi & f1 & o & -> & [(l & Hout & Hlay) _] & _); [|done|done|done|].
    { split; [|done]. exists []. split; [by rewrite app_nil_r|constructor]. }
    exists f1, l. split_and!; [done|done|by eapply printed_end|by eapply layout_valid].
  - pose proof (loose_le _ _ _ Hl). destruct (woven_bnd _ _ Hw) as [Hbhi Hle]. pose proof Hta as [Hsp Hr _].
    rewrite Hsp. cbn [Span.lo Span.hi mk_span]. rewrite !u32_of_small, !Nat2Z.id, !Nat.min_l by lia.
    rewrite (proj2 (Nat.leb_le a lo)) by lia.
    destruct (slice_src src a lo) as [-> Hvs]; [done|lia|done|done|]. cbn [res_bind].
    destruct (scan_gap_ok _ Hvs) as (evs & Hs & Hp & Hc). destruct (token_text_ok t lo hi) as (text & Ht & Hvt); [done..|].
    destruct (emit_ok (slice a lo src) evs prev t f text) as (f1 & l & -> & Hout & Hlay); [done..| |done|].
    { eapply (scan_loose src a lo a _ 0); [done|done|done|lia|exact Hs]. }
    cbn [res_bind]. destruct (IH (Some t) f1) as (f' & r & He & Ho & Hpr & Hvr). exists f', (l ++ text ++ r).
    split_and!; [exact He|by rewrite Ho, Hout, <-!app_assoc|by eapply printed_tok|].
    apply valid_utf8_app; [by eapply layout_valid|]. by apply valid_utf8_app.
Qed.
End Tokens.

(** ** The annotations rewrite only float options *)
Definition option_texts (a : Annotations) : Prop :=
  ∀ k s, float_option_text a !! k = Some s → s = str "reassoc" ∨ s = str "contract".

Definition keeps {A} (f : A → Annotations → Annotations) : Prop := ∀ x a, option_texts a → option_texts (f x a).

Definition visit_all_keeps {A} (f : A → Annotations → Annotations) (Hf : keeps f) : keeps (visit_all f) :=
  fix go l a H := match l with [] => H | x :: l => go l (f x a) (Hf x a H) end.
Definition visit_opt_keeps {A} (f : A → Annotations → Annotations) (Hf : keeps f) : keeps (visit_opt f) :=
  λ o a H, match o with Some x => Hf x a H | None => H end.

Lemma set_option_text_keeps off s a :
  option_texts a → s = str "reassoc" ∨ s = str "contract" → option_texts (set_option_text off s a).
Proof. intros Ha Hs k s' Hk. simpl in Hk. apply lookup_insert_Some in Hk as [[_ <-]|[_ Hk]]; eauto. Qed.

Lemma visit_float_options_keeps : keeps visit_float_options.
Proof.
  intros opts a Ha. unfold visit_float_options. destruct opts as [|o0 [|o1 [|]]]; try done. case_if; [|done].
  apply set_option_text_keeps; [|auto]. apply set_option_text_keeps; auto.
Qed.

Fixpoint visit_type_keeps (t : Ty) : ∀ a, option_texts a → option_texts (visit_type t a).
Proof.
  intros a Ha. destruct t as [p args sp|e n sep sp|elems sp|params ret sp]; simpl.
  - destruct args as [|x args]; [exact Ha|]. apply (visit_all_keeps visit_type visit_type_keeps (x :: args)). exact Ha.
  - apply visit_type_keeps. exact Ha.
  - apply (visit_all_keeps visit_type visit_type_keeps elems). exact Ha.
  - apply visit_type_keeps. apply visit_all_keeps; [|exact Ha]. intros [m ty] b Hb. apply visit_type_keeps. exact Hb.
Defined.

Fixpoint visit_expr_keeps (e : Expr) : ∀ a, option_texts a → option_texts (visit_expr e a)
with visit_block_keeps (b : Block) : ∀ a, option_texts a → option_texts (visit_block b a)
with visit_stmt_keeps (s : Stmt) : ∀ a, option_texts a → option_texts (visit_stmt s a).
Proof.
  - intros a Ha. destruct e as [k sp]. destruct k; simpl;
      repeat first
        [ exact Ha
        | apply visit_type_keeps
        | apply visit_block_keeps
        | apply visit_expr_keeps
        | apply visit_float_options_keeps
        | apply (visit_opt_keeps visit_expr visit_expr_keeps)
        | apply (visit_all_keeps visit_expr visit_expr_keeps) ].
    + apply visit_all_keeps; [|exact Ha]. intros [n v sp'] b Hb. apply visit_expr_keeps. exact Hb.
    + apply visit_all_keeps; [|exact Ha]. intros p b Hb. apply (visit_opt_keeps visit_type visit_type_keeps). exact Hb.
    + apply visit_all_keeps; [|apply visit_expr_keeps; exact Ha]. intros [p body sp'] b Hb. apply visit_expr_keeps. exact Hb.
    + apply visit_all_keeps; [|exact Ha]. intros [s|e] b Hb; [exact Hb|]. apply visit_expr_keeps. exact Hb.
  - intros a Ha. destruct b as [stmts tail sp]. simpl. apply (visit_opt_keeps visit_expr visit_expr_keeps).
    apply (visit_all_keeps visit_stmt visit_stmt_keeps). exact Ha.
  - intros a Ha. destruct s; simpl;
      repeat first
        [ exact Ha
        | apply visit_expr_keeps
        | apply (visit_opt_keeps visit_type visit_type_keeps)
        | apply (visit_opt_keeps visit_expr visit_expr_keeps) ].
Defined.

Lemma visit_generics_keeps src : keeps (visit_generics src).
Proof. intros ps a Ha. unfold visit_generics. by destruct (head ps), (last ps). Qed.

Lemma visit_item_keeps src : keeps (visit_item src).
Proof.
  intros it a Ha. assert (keeps visit_type) as Ht by exact visit_type_keeps.
  assert (∀ g (ps : list Param), option_texts g → option_texts (visit_all (λ p, visit_type (p_ty p)) ps g)) as Hps.
  { intros g ps Hg. apply visit_all_keeps; [|done]. intros p b. apply Ht. }
  destruct it as [d|d|d|d|d|d|b]; simpl.
  - destruct (fn_body d); [apply visit_block_keeps|apply visit_expr_keeps];
      apply (visit_opt_keeps visit_type Ht), Hps, visit_generics_keeps; done.
  - by apply visit_block_keeps.
  - apply visit_all_keeps; [|by apply visit_generics_keeps]. intros f b. apply Ht.
  - apply visit_all_keeps; [|by apply visit_generics_keeps]. intros v b Hb. by apply (visit_all_keeps visit_type Ht).
  - by apply visit_generics_keeps.
  - by apply visit_expr_keeps, (visit_opt_keeps visit_type Ht).
  - apply visit_all_keeps; [|done]. intros sig g Hg. by apply (visit_opt_keeps visit_type Ht), Hps.
Qed.

Lemma collect_texts f src : option_texts (collect f src).
Proof. unfold collect. apply (visit_all_keeps _ (visit_item_keeps src)). intros k s. simpl. by rewrite lookup_empty. Qed.

(** ** The entry point *)
Lemma pop_newlines_spec s :
  valid_utf8 s → valid_utf8 (pop_newlines s ++ [10]) ∧ last (pop_newlines s) ≠ Some 10.
Proof.
  intros Hv. unfold pop_newlines. set (n := count_while _ _).
  pose proof (count_while_le (λ c, c =? 10) (reverse s)) as Hle. fold n in Hle. rewrite length_reverse in Hle.
  split.
  - apply valid_utf8_app; [|by eexists]. destruct (decide (n = 0)%nat) as [->|]; [by rewrite Nat.sub_0_r, firstn_all|].
    apply (ascii_boundary s (length s - n) 10); [done| |lia].
    pose proof (count_while_take (λ c, c =? 10) (reverse s)) as Hall. fold n in Hall. rewrite Forall_lookup in Hall.
    destruct (lookup_lt_is_Some_2 s (length s - n)) as [x Hx]; [lia|]. rewrite Hx.
    specialize (Hall (n - 1)%nat x). simpl in Hall. assert ((x =? 10) = true) as He; [apply Hall|b2p; by subst].
    rewrite lookup_take_lt by lia. rewrite reverse_lookup by lia. by replace (length s - S (n - 1))%nat with (length s - n)%nat by lia.
  - rewrite last_lookup. intros H. apply lookup_take_Some in H as [H Hlt]. rewrite length_take, Nat.min_l in * by lia.
    assert (negb (10 =? 10) = true); [|done]. apply negb_true_iff.
    apply (count_while_stop (λ c, c =? 10) (reverse s)). fold n. rewrite reverse_lookup by lia.
    by replace (length s - S n)%nat with (pred (length s - n))%nat by lia.
Qed.

Lemma format_tokens_ok fid src ann ts d d' :
  valid_utf8 src → Z.of_nat (length src) ≤ U32_MAX → option_texts ann →
  tokenize fid src d = Ret (ts, d') → error_count d' = error_count d →
  ∃ r, format_tokens src ann ts = Ret (pop_newlines r ++ [10]) ∧ printed fid src ann 0 (significant ann ts) r ∧ valid_utf8 r.
Proof.
  intros Hv Hmax Hann Ht He. pose proof (tokenize_tiled _ _ _ _ _ Ht He) as Htl.
  assert (woven fid src 0 (significant ann ts ++ [])) as Hw.
  { eapply (tiled_woven _ _ _ (λ _ _ _, True) _ (length src)); [|apply woven_end; [constructor|unfold bnd; by rewrite take_ge]].
    eapply tiled_mono; [| | |exact Htl]; auto. }
  rewrite app_nil_r in Hw.
  destruct (emit_rest_ok fid src ann Hv Hmax) with (a := 0%nat) (sig := significant ann ts) (prev := @None Token) (f := MkFormatter [] 0)
    as (f & r & Hr & Ho & Hp & Hvr); [|done|].
  { intros k s [->| ->]%Hann; by eexists. }
  exists r. split_and!; [|done|done]. unfold emit_rest in Hr. change (Z.of_nat 0) with 0 in Hr. simpl in Ho.
  unfold format_tokens. apply res_bind_Ret_inv in Hr as ([ph f1] & -> & Hr). cbn [res_bind].
  apply res_bind_Ret_inv in Hr as (tail & -> & Hr). cbn [res_bind]. rewrite Hr. cbn [res_bind]. by rewrite Ho.
Qed.

Lemma no_errors d : has_errors d = false → error_count d = error_count diags_new.
Proof.
  intros H. pose proof (has_errors_count d) as Hc. change (error_count diags_new) with 0%nat.
  destruct (error_count d); [done|]. rewrite (proj2 Hc) in H by lia. done.
Qed.

Lemma sig_texts_ok fid src ann ts d :
  valid_utf8 src → Z.of_nat (length src) ≤ U32_MAX → option_texts ann →
  tokenize fid src diags_new = Ret (ts, d) → error_count d = error_count diags_new →
  ∃ l, sig_texts ts src ann = Ret l.
Proof.
  intros Hv Hmax Hann Ht He. pose proof (tokenize_tiled _ _ _ _ _ Ht He) as Htl. unfold sig_texts, significant.
  assert (∀ t, t ∈ ts → ∃ text, token_text ann src t = Ret text) as Hall.
  { intros t Hin. destruct (tiled_elem _ _ _ _ _ _ _ _ Htl Hin) as (lo & hi & Hta & Hlo & Hhi & _).
    destruct (token_text_ok fid src ann Hv Hmax) with (t := t) (lo := lo) (hi := hi) as (text & ? & _); auto; [|by eexists].
    intros k s [->| ->]%Hann; by eexists. }
  clear Htl Ht. induction ts as [|t ts IH]; simpl; [by eexists|].
  destruct IH as [l Hl]; [intros; apply Hall; by apply elem_of_cons; right|].
  case_if; [|by exists l]. simpl. destruct (Hall t) as [text ->]; [apply elem_of_cons; by left|]. cbn [res_bind].
  rewrite Hl. by eexists.
Qed.

(** The candidate: [format_tokens] runs to the end on every source that parses. *)
Lemma candidate_ok fid src :
  valid_utf8 src → Z.of_nat (length src) < 2 ^ 30 →
  ∃ c, candidate fid src = Ret c ∧
    match c with
    | None => True
    | Some (ts, ann, o) =>
      option_texts ann ∧ (∃ d, tokenize fid src diags_new = Ret (ts, d) ∧ error_count d = error_count diags_new) ∧
      ∃ r, o = pop_newlines r ++ [10] ∧ printed fid src ann 0 (significant ann ts) r ∧ valid_utf8 r
    end.
Proof.
  intros Hv Hlen. assert (U32_MAX = 2 ^ 32 - 1) as Hu by done. unfold candidate.
  destruct (tokenize_toks_ok fid src diags_new) as (ts & d & Ht & Hd & Hok); [lia|]. rewrite Ht. cbn [res_bind].
  destruct (parse_file_spec _ _ _ Hok d) as (f & d2 & -> & Hd2 & _). cbn [res_bind].
  destruct (has_errors d2) eqn:He; [by exists None|].
  assert (error_count d = error_count diags_new) as Hc.
  { apply no_errors in He. apply error_count_extends in Hd, Hd2. change (error_count diags_new) with 0%nat in *. lia. }
  destruct (format_tokens_ok fid src (collect f src) ts diags_new d) as (r & Hr & Hp & Hvr);
    [done|lia|apply collect_texts|done|done|].
  rewrite Hr. cbn [res_bind]. eexists. split; [done|]. split; [apply collect_texts|]. split; [by exists d|by exists r].
Qed.

(** The formatter does not panic and always decides: on every well-formed
    source below 1 GiB the emit pass runs to the end — every slice of the source
    lies on character boundaries — and, as long as its text is below 1 GiB too,
    the safety net returns either that text or nothing. *)
Lemma format_source_total fid src :
  valid_utf8 src → Z.of_nat (length src) < 2 ^ 30 →
  ∃ c, candidate fid src = Ret c ∧
    match c with
    | None => format_source fid src = Ret None
    | Some (_, _, o) =>
      valid_utf8 o ∧
      (Z.of_nat (length o) < 2 ^ 30 → format_source fid src = Ret None ∨ format_source fid src = Ret (Some o))
    end.
Proof.
  intros Hv Hlen. destruct (candidate_ok fid src Hv Hlen) as (c & Hc & Hcase). exists c. split; [done|].
  unfold format_source. rewrite Hc. cbn [res_bind]. destruct c as [[[ts ann] o]|]; [|done].
  destruct Hcase as (Hann & (d & Ht & He) & r & -> & _ & Hvr). destruct (pop_newlines_spec r Hvr) as [Hvo _].
  split; [done|]. intros Hlo. unfold safety_net. assert (U32_MAX = 2 ^ 32 - 1) as Hu by done.
  destruct (tokenize_toks_ok fid (pop_newlines r ++ [10]) diags_new) as (ots & od & Hot & Hod & Hok); [lia|]. rewrite Hot. cbn [res_bind].
  destruct (parse_file_spec _ _ _ Hok od) as (f & od2 & -> & Hod2 & _). cbn [res_bind].
  destruct (has_errors od2) eqn:Heo; [by left|].
  destruct (sig_texts_ok fid src ann ts d) as [la ->]; [done|lia|done|done|done|]. cbn [res_bind].
  destruct (sig_texts_ok fid (pop_newlines r ++ [10]) (collect f (pop_newlines r ++ [10])) ots od) as [lb ->];
    [done|lia|apply collect_texts|done| |].
  { apply no_errors in Heo. apply error_count_extends in Hod, Hod2. change (error_count diags_new) with 0%nat in *. lia. }
  cbn [res_bind]. case_if; auto.
Qed.

(** C16. What the formatter returns keeps the program's tokens and comments: the
    text is the source's significant tokens in order, each printed verbatim (or
    as one of the two canonical [float] options), with only blanks, line breaks,
    semicolons and the gap's own comments between them — every comment kept, in
    order, and closed by a line break before the next token — and it ends in
    exactly one newline; it lexes and parses without an error and has the same
    significant token texts. *)
Theorem format_source_keeps fid src o :
  valid_utf8 src → Z.of_nat (length src) < 2 ^ 30 → format_source fid src = Ret (Some o) →
  ∃ ts d ann ots od f od' r texts,
    tokenize fid src diags_new = Ret (ts, d) ∧ option_texts ann ∧
    printed fid src ann 0 (significant ann ts) r ∧ o = pop_newlines r ++ [10] ∧ last (pop_newlines r) ≠ Some 10 ∧
    tokenize fid o diags_new = Ret (ots, od) ∧ parse_file ots od = Ret (f, od') ∧ has_errors od' = false ∧
    sig_texts ts src ann = Ret texts ∧ sig_texts ots o (collect f o) = Ret texts.
Proof.
  intros Hv Hlen Hf. destruct (candidate_ok fid src Hv Hlen) as (c & Hc & Hcase).
  unfold format_source in Hf. rewrite Hc in Hf. cbn [res_bind] in Hf. destruct c as [[[ts ann] o']|]; [|done].
  destruct Hcase as (Hann & (d & Ht & He) & r & -> & Hp & Hvr). unfold safety_net in Hf.
  apply res_bind_Ret_inv in Hf as ([ots od] & Hot & Hf). apply res_bind_Ret_inv in Hf as ([f od'] & Hpf & Hf).
  destruct (has_errors od') eqn:Heo; [done|].
  apply res_bind_Ret_inv in Hf as (la & Hla & Hf). apply res_bind_Ret_inv in Hf as (lb & Hlb & Hf).
  destruct (bool_decide (la = lb)) eqn:Hab; [|done]. apply bool_decide_eq_true in Hab as ->. injection Hf as <-.
  exists ts, d, ann, ots, od, f, od', r, lb. split_and!; try done. by apply pop_newlines_spec.
Qed.

(** A small source, formatted. *)
Definition untidy : bytes := str "fn f (x:i32)->i32{
y:=x+1 ;  z := -  2 // note   


  y*z}".
Definition tidy : bytes := str "fn f(x: i32) -> i32 {
  y := x + 1; z := -2 // note

  y * z }
".

Lemma format_source_total_witness :
  ∃ ts ann, candidate 0 untidy = Ret (Some (ts, ann, tidy)) ∧
    (format_source 0 untidy = Ret None ∨ format_source 0 untidy = Ret (Some tidy)).
Proof.
  destruct (format_source_total 0 untidy) as (c & Hc & Hcase); [eexists; vm_compute; reflexivity|vm_compute; reflexivity|].
  assert (∃ ts ann, c = Some (ts, ann, tidy)) as (ts & ann & ->).
  { destruct (candidate 0 untidy) as [[[[ts ann] o]|]| |] eqn:E; try discriminate Hc.
    - exists ts, ann. injection Hc as <-. vm_compute in E. injection E as _ _ <-. reflexivity.
    - vm_compute in E. discriminate E. }
  exists ts, ann. split; [exact Hc|]. apply Hcase. vm_compute. reflexivity.
Defined.

Lemma format_source_keeps_witness :
  format_source 0 untidy = Ret (Some tidy) ∧
  ∃ ts d texts, tokenize 0 untidy diags_new = Ret (ts, d) ∧ length texts = 23%nat ∧
    ∃ ann, sig_texts ts untidy ann = Ret texts.
Proof.
  assert (format_source 0 untidy = Ret (Some tidy)) as Hf by (vm_compute; reflexivity). split; [exact Hf|].
  destruct (format_source_keeps 0 untidy tidy) as (ts & d & ann & ots & od & f & od' & r & texts & Ht & _ & _ & _ & _ & Hot & Hpf & _ & Hs & Hs');
    [eexists; vm_compute; reflexivity|vm_compute; reflexivity|exact Hf|].
  exists ts, d, texts. split; [exact Ht|]. split; [|exists ann; exact Hs].
  vm_compute in Hot. injection Hot as <- <-. vm_compute in Hpf. injection Hpf as <- <-. vm_compute in Hs'.
  injection Hs' as <-. reflexivity.
Defined.

(** ** A meaning the safety net does not protect

    Significant tokens leave statement terminators out, and a line that starts
    with a minus sign continues the one before.  Dropping the semicolon that
    ends a line before such a line joins the two statements. *)
Definition two_statements : bytes := str "fn f(a: i32, b: i32) -> i32 {
  x := a;
  -b
}
".
Definition one_statement : bytes := str "fn f(a: i32, b: i32) -> i32 {
  x := a
  -b
}
".

Definition body_of (src : bytes) : option Block :=
  match tokenize 0 src diags_new with
  | Ret (ts, d) =>
    match parse_file ts d with
    | Ret (MkFile _ _ [It_Fn d], _) => match fn_body d with FB_Block b => Some b | _ => None end
    | _ => None
    end
  | _ => None
  end.

(** A source whose function binds [x] to [a] and returns the negation of [b]
    passes the formatter and its safety net, and comes back as a function that
    binds [x] to [a - b] and has no result expression. *)
Lemma formatting_can_join_statements :
  format_source 0 two_statements = Ret (Some one_statement) ∧
  (∃ m n ty p s1 al e s2 sp, body_of two_statements
     = Some (MkBlock [St_Let m n ty (MkExpr (EK_Path p) s1) al] (Some (MkExpr (EK_Unary UO_Neg e) s2)) sp)) ∧
  (∃ m n ty l r s1 al sp, body_of one_statement
     = Some (MkBlock [St_Let m n ty (MkExpr (EK_Binary BO_Sub l r) s1) al] None sp)).
Proof. vm_compute. split; [reflexivity|]. split; repeat eexists. Qed.
