(* ===== verification/Types.v ===== *)
(** * Resolved types ([crates/align_sema/src/lib.rs], [src/hir.rs])

    The type universe of the checked program: [Scalar], what an aggregate may
    carry, and [Ty], every resolved type, with the source's constructors in the
    source's order; the conversions between them; the nominal tables a program
    carries.  A [u32] id or length is an [N]; a bit width ([u8]) is a [Z]. *)
From Stdlib Require Import ZArith Lia.
From S2P Require Import Prelude.
Local Open Scope Z_scope.

Record IntTy := { it_bits : Z; it_signed : bool }.
Record FloatTy := { ft_bits : Z }.

Module SignatureKeyKind.
Inductive t : Type :=
  | Rs256Private | Rs256Public | Es256Private | Es256Public | Ed25519Private | Ed25519Public.
End SignatureKeyKind.
Abbreviation SignatureKeyKind := SignatureKeyKind.t.

Module PrimScalar.
Inductive t : Type := Int (it : IntTy) | Float (ft : FloatTy) | Bool | Char | Str | String.
End PrimScalar.
Abbreviation PrimScalar := PrimScalar.t.

Module Layout.
Inductive t : Type := Aos | Soa.
End Layout.
Abbreviation Layout := Layout.t.

Module Scalar.
Inductive t : Type :=
    | Raw | Int (it : IntTy) | Float (ft : FloatTy) | Bool | Char | Unit | Struct (n : N) | Tuple (n : N)
    | String | DynArray (p : PrimScalar) | DynStructArray (n : N) | DynResponseArray | Str
    | Slice (p : PrimScalar) | Enum (n : N) | Tagged (n : N) | Soa (n : N) | SoaParam (n : N) | JsonDoc
    | Param (n : N) | Reader | Writer | Logger | XmlReader | CodecBatch | CodecI64Column | CodecF64Column
    | CodecBoolColumn | CodecStrColumn | CodecEncoder | CryptoDigest | FsDirectory | FsDirCursor | Command
    | ProcessSignalSubscription | ProcessChildScope | ProcessMember | FsMemoryWriter | FsSealedFile
    | ProcessImage | ProcessUserNamespace | Buffer | SignatureKey (k : SignatureKeyKind) | Regex | Captures
    | CliParsed | TcpConn | TcpListener | UdpSocket | Child | File | HttpClient | HttpRequest | HttpResponse
    | HttpServer | HttpRequestCtx | ResponseBuilder | HttpStream | HttpUpgrade | HttpReadStream
    | HttpSseStream | RunOutput | RunBytes | Fn (n : N) | Resource (n : N) | ResourceRef (n : N).
End Scalar.
Abbreviation Scalar := Scalar.t.

Module Ty.
Inductive t : Type :=
    | Int (it : IntTy) | Param (n : N) | IntVar (n : N) | Float (ft : FloatTy) | FloatVar (n : N) | Bool
    | Char | Option (s : Scalar) | Result (s : Scalar) (s' : Scalar) | Tagged (n : N) | Box (s : Scalar)
    | Array (s : Scalar) (n : N) | Vec (s : Scalar) (n : N) | Mask (s : Scalar) (n : N)
    | StructArray (n : N) (n' : N) | DynStructArray (n : N) (l : Layout) | Slice (s : Scalar) | Soa (n : N)
    | SoaParam (n : N) | DynSliceArray (p : PrimScalar) | DynArray (s : Scalar)
    | DynVecArray (s : Scalar) (n : N) | DynMaskArray (s : Scalar) (n : N)
    | DynFixedArray (s : Scalar) (n : N) | DynFixedStructArray (n : N) (n' : N) | DynResponseArray | Str
    | String | ArenaHandle | Raw | Resource (n : N) | ResourceRef (n : N) | Builder | Writer | Logger
    | XmlReader | CodecBatch | CodecI64Column | CodecF64Column | CodecBoolColumn | CodecStrColumn
    | CodecEncoder | CryptoDigest | FsDirectory | FsDirCursor | ProcessSignalSubscription | ProcessChildScope
    | ProcessMember | FsMemoryWriter | FsSealedFile | ProcessImage | ProcessUserNamespace | Reader | Buffer
    | SignatureKey (k : SignatureKeyKind) | ArrayBuilder (s : Scalar) | VecArrayBuilder (s : Scalar) (n : N)
    | MaskArrayBuilder (s : Scalar) (n : N) | FixedArrayBuilder (s : Scalar) (n : N)
    | FixedStructArrayBuilder (n : N) (n' : N) | StrFinder | File | Rng | Regex | Captures | CliCommand
    | CliParsed | TcpConn | TcpListener | UdpSocket | Child | Command | RunOutput | RunBytes | HttpRequest
    | HttpResponse | HttpClient | HttpServer | HttpRequestCtx | ResponseBuilder | HttpStream | HttpUpgrade
    | HttpReadStream | HttpSseStream | HttpHeaders | JsonDoc | JsonScanner (n : N) | Struct (n : N)
    | Tuple (n : N) | Fn (n : N) | Enum (n : N) | Task (s : Scalar) | DictEncoded (n : N) (n' : N) | Unit
    | Error | HttpRequestView.
End Ty.
Abbreviation Ty := Ty.t.

#[export] Instance IntTy_eq_dec : EqDecision IntTy.
Proof. solve_decision. Defined.
#[export] Instance FloatTy_eq_dec : EqDecision FloatTy.
Proof. solve_decision. Defined.
#[export] Instance SignatureKeyKind_eq_dec : EqDecision SignatureKeyKind.
Proof. solve_decision. Defined.
#[export] Instance PrimScalar_eq_dec : EqDecision PrimScalar.
Proof. solve_decision. Defined.
#[export] Instance Layout_eq_dec : EqDecision Layout.
Proof. solve_decision. Defined.
#[export] Instance Scalar_eq_dec : EqDecision Scalar.
Proof. solve_decision. Defined.
#[export] Instance Ty_eq_dec : EqDecision Ty.
Proof. solve_decision. Defined.

(** ** Conversions *)
Definition prim_to_scalar (p : PrimScalar) : Scalar :=
  match p with
  | PrimScalar.Int it => Scalar.Int it | PrimScalar.Float ft => Scalar.Float ft
  | PrimScalar.Bool => Scalar.Bool | PrimScalar.Char => Scalar.Char
  | PrimScalar.Str => Scalar.Str | PrimScalar.String => Scalar.String
  end.

Definition scalar_to_prim (s : Scalar) : option PrimScalar :=
  match s with
  | Scalar.Int it => Some (PrimScalar.Int it) | Scalar.Float ft => Some (PrimScalar.Float ft)
  | Scalar.Bool => Some PrimScalar.Bool | Scalar.Char => Some PrimScalar.Char
  | Scalar.Str => Some PrimScalar.Str | Scalar.String => Some PrimScalar.String
  | _ => None
  end.

Definition scalar_to_ty (s : Scalar) : Ty :=
  match s with
  | Scalar.Raw => Ty.Raw | Scalar.Int it => Ty.Int it | Scalar.Float ft => Ty.Float ft
  | Scalar.Bool => Ty.Bool | Scalar.Char => Ty.Char | Scalar.Unit => Ty.Unit
  | Scalar.Struct id => Ty.Struct id | Scalar.Tuple id => Ty.Tuple id | Scalar.Resource id => Ty.Resource id
  | Scalar.ResourceRef id => Ty.ResourceRef id | Scalar.String => Ty.String
  | Scalar.DynArray elem => Ty.DynArray (prim_to_scalar elem)
  | Scalar.DynStructArray id => Ty.DynStructArray id Layout.Aos
  | Scalar.DynResponseArray => Ty.DynResponseArray | Scalar.Str => Ty.Str
  | Scalar.Slice elem => Ty.Slice (prim_to_scalar elem) | Scalar.Enum id => Ty.Enum id
  | Scalar.Tagged id => Ty.Tagged id | Scalar.Soa id => Ty.Soa id | Scalar.SoaParam index => Ty.SoaParam index
  | Scalar.JsonDoc => Ty.JsonDoc | Scalar.Param i => Ty.Param i | Scalar.Reader => Ty.Reader
  | Scalar.Writer => Ty.Writer | Scalar.Logger => Ty.Logger | Scalar.XmlReader => Ty.XmlReader
  | Scalar.CodecBatch => Ty.CodecBatch | Scalar.CodecI64Column => Ty.CodecI64Column
  | Scalar.CodecF64Column => Ty.CodecF64Column | Scalar.CodecBoolColumn => Ty.CodecBoolColumn
  | Scalar.CodecStrColumn => Ty.CodecStrColumn | Scalar.CodecEncoder => Ty.CodecEncoder
  | Scalar.CryptoDigest => Ty.CryptoDigest | Scalar.FsDirectory => Ty.FsDirectory
  | Scalar.FsDirCursor => Ty.FsDirCursor | Scalar.Command => Ty.Command
  | Scalar.ProcessSignalSubscription => Ty.ProcessSignalSubscription
  | Scalar.ProcessChildScope => Ty.ProcessChildScope | Scalar.ProcessMember => Ty.ProcessMember
  | Scalar.FsMemoryWriter => Ty.FsMemoryWriter | Scalar.FsSealedFile => Ty.FsSealedFile
  | Scalar.ProcessImage => Ty.ProcessImage | Scalar.ProcessUserNamespace => Ty.ProcessUserNamespace
  | Scalar.Buffer => Ty.Buffer | Scalar.SignatureKey kind => Ty.SignatureKey kind | Scalar.Regex => Ty.Regex
  | Scalar.Captures => Ty.Captures | Scalar.File => Ty.File | Scalar.CliParsed => Ty.CliParsed
  | Scalar.TcpConn => Ty.TcpConn | Scalar.TcpListener => Ty.TcpListener | Scalar.UdpSocket => Ty.UdpSocket
  | Scalar.Child => Ty.Child | Scalar.HttpClient => Ty.HttpClient | Scalar.HttpRequest => Ty.HttpRequest
  | Scalar.HttpResponse => Ty.HttpResponse | Scalar.HttpServer => Ty.HttpServer
  | Scalar.HttpRequestCtx => Ty.HttpRequestCtx | Scalar.ResponseBuilder => Ty.ResponseBuilder
  | Scalar.HttpStream => Ty.HttpStream | Scalar.HttpUpgrade => Ty.HttpUpgrade
  | Scalar.HttpReadStream => Ty.HttpReadStream | Scalar.HttpSseStream => Ty.HttpSseStream
  | Scalar.RunOutput => Ty.RunOutput | Scalar.RunBytes => Ty.RunBytes | Scalar.Fn fid => Ty.Fn fid
  end.

Definition ty_to_scalar (ty : Ty) : option Scalar :=
  match ty with
  | Ty.Raw => Some Scalar.Raw | Ty.Int it => Some (Scalar.Int it) | Ty.Float ft => Some (Scalar.Float ft)
  | Ty.Bool => Some Scalar.Bool | Ty.Char => Some Scalar.Char | Ty.Unit => Some Scalar.Unit
  | Ty.Struct id => Some (Scalar.Struct id) | Ty.Tuple id => Some (Scalar.Tuple id)
  | Ty.Resource id => Some (Scalar.Resource id) | Ty.ResourceRef id => Some (Scalar.ResourceRef id)
  | Ty.String => Some Scalar.String | Ty.DynArray elem => Scalar.DynArray <$> scalar_to_prim elem
  | Ty.DynStructArray id Layout.Aos => Some (Scalar.DynStructArray id)
  | Ty.DynResponseArray => Some Scalar.DynResponseArray | Ty.Str => Some Scalar.Str
  | Ty.Slice elem => Scalar.Slice <$> scalar_to_prim elem | Ty.Reader => Some Scalar.Reader
  | Ty.Writer => Some Scalar.Writer | Ty.Logger => Some Scalar.Logger | Ty.XmlReader => Some Scalar.XmlReader
  | Ty.CodecBatch => Some Scalar.CodecBatch | Ty.CodecI64Column => Some Scalar.CodecI64Column
  | Ty.CodecF64Column => Some Scalar.CodecF64Column | Ty.CodecBoolColumn => Some Scalar.CodecBoolColumn
  | Ty.CodecStrColumn => Some Scalar.CodecStrColumn | Ty.CodecEncoder => Some Scalar.CodecEncoder
  | Ty.CryptoDigest => Some Scalar.CryptoDigest | Ty.FsDirectory => Some Scalar.FsDirectory
  | Ty.FsDirCursor => Some Scalar.FsDirCursor | Ty.Command => Some Scalar.Command
  | Ty.ProcessSignalSubscription => Some Scalar.ProcessSignalSubscription
  | Ty.ProcessChildScope => Some Scalar.ProcessChildScope | Ty.ProcessMember => Some Scalar.ProcessMember
  | Ty.FsMemoryWriter => Some Scalar.FsMemoryWriter | Ty.FsSealedFile => Some Scalar.FsSealedFile
  | Ty.ProcessImage => Some Scalar.ProcessImage | Ty.ProcessUserNamespace => Some Scalar.ProcessUserNamespace
  | Ty.Buffer => Some Scalar.Buffer | Ty.SignatureKey kind => Some (Scalar.SignatureKey kind)
  | Ty.Regex => Some Scalar.Regex | Ty.Captures => Some Scalar.Captures | Ty.File => Some Scalar.File
  | Ty.CliParsed => Some Scalar.CliParsed | Ty.TcpConn => Some Scalar.TcpConn
  | Ty.TcpListener => Some Scalar.TcpListener | Ty.UdpSocket => Some Scalar.UdpSocket
  | Ty.Child => Some Scalar.Child | Ty.HttpClient => Some Scalar.HttpClient
  | Ty.HttpRequest => Some Scalar.HttpRequest | Ty.HttpResponse => Some Scalar.HttpResponse
  | Ty.HttpServer => Some Scalar.HttpServer | Ty.HttpRequestCtx => Some Scalar.HttpRequestCtx
  | Ty.ResponseBuilder => Some Scalar.ResponseBuilder | Ty.HttpStream => Some Scalar.HttpStream
  | Ty.HttpUpgrade => Some Scalar.HttpUpgrade | Ty.HttpReadStream => Some Scalar.HttpReadStream
  | Ty.HttpSseStream => Some Scalar.HttpSseStream | Ty.RunOutput => Some Scalar.RunOutput
  | Ty.RunBytes => Some Scalar.RunBytes | Ty.Soa id => Some (Scalar.Soa id)
  | Ty.SoaParam index => Some (Scalar.SoaParam index) | Ty.JsonDoc => Some Scalar.JsonDoc
  | Ty.Enum id => Some (Scalar.Enum id) | Ty.Tagged id => Some (Scalar.Tagged id)
  | Ty.Param i => Some (Scalar.Param i)
  | _ => None
  end.

(** [Scalar::is_move] *)
Definition scalar_is_move (s : Scalar) : bool :=
  match s with
  | Scalar.String | Scalar.DynArray _ | Scalar.DynStructArray _ | Scalar.DynResponseArray | Scalar.Reader
   | Scalar.Writer | Scalar.Logger | Scalar.XmlReader | Scalar.CryptoDigest | Scalar.FsDirectory
   | Scalar.FsDirCursor | Scalar.ProcessSignalSubscription | Scalar.ProcessChildScope | Scalar.ProcessMember
   | Scalar.FsMemoryWriter | Scalar.FsSealedFile | Scalar.ProcessImage | Scalar.ProcessUserNamespace
   | Scalar.Command | Scalar.CodecEncoder | Scalar.Buffer | Scalar.SignatureKey _ | Scalar.Regex
   | Scalar.Captures | Scalar.CliParsed | Scalar.TcpConn | Scalar.TcpListener | Scalar.UdpSocket
   | Scalar.Child | Scalar.File | Scalar.HttpClient | Scalar.HttpRequest | Scalar.HttpResponse
   | Scalar.HttpServer | Scalar.HttpRequestCtx | Scalar.HttpStream | Scalar.HttpUpgrade
   | Scalar.HttpReadStream | Scalar.HttpSseStream | Scalar.ResponseBuilder | Scalar.RunOutput
   | Scalar.RunBytes | Scalar.Resource _ => true
  | _ => false
  end.

Definition MOVE_HANDLE_TYPES : list Ty :=
  [ Ty.Writer; Ty.Logger; Ty.XmlReader; Ty.CodecEncoder; Ty.CryptoDigest; Ty.FsDirectory; Ty.FsDirCursor
  ; Ty.ProcessSignalSubscription; Ty.ProcessChildScope; Ty.ProcessMember; Ty.FsMemoryWriter; Ty.FsSealedFile
  ; Ty.ProcessImage; Ty.ProcessUserNamespace; Ty.Reader; Ty.Buffer
  ; Ty.SignatureKey SignatureKeyKind.Rs256Private; Ty.SignatureKey SignatureKeyKind.Rs256Public
  ; Ty.SignatureKey SignatureKeyKind.Es256Private; Ty.SignatureKey SignatureKeyKind.Es256Public
  ; Ty.SignatureKey SignatureKeyKind.Ed25519Private; Ty.SignatureKey SignatureKeyKind.Ed25519Public; Ty.Regex
  ; Ty.Captures; Ty.CliCommand; Ty.CliParsed; Ty.TcpConn; Ty.TcpListener; Ty.UdpSocket; Ty.Child; Ty.File
  ; Ty.HttpRequest; Ty.HttpResponse; Ty.HttpClient; Ty.HttpServer; Ty.HttpRequestCtx; Ty.ResponseBuilder
  ; Ty.HttpStream; Ty.HttpUpgrade; Ty.HttpReadStream; Ty.HttpSseStream; Ty.Command; Ty.RunOutput; Ty.RunBytes ].

Definition is_move_handle (ty : Ty) : bool := existsb (λ h, bool_decide (h = ty)) MOVE_HANDLE_TYPES.

(** ** Array elements *)
Module AggregateArrayElem.
Inductive t : Type :=
  | Vec (s : Scalar) (n : N) | Mask (s : Scalar) (n : N) | FixedArray (s : Scalar) (n : N)
  | FixedStructArray (id : N) (n : N).
End AggregateArrayElem.
Abbreviation AggregateArrayElem := AggregateArrayElem.t.

Module ArrayBuilderElem.
Inductive t : Type := Scalar (s : Scalar) | Aggregate (a : AggregateArrayElem).
End ArrayBuilderElem.
Abbreviation ArrayBuilderElem := ArrayBuilderElem.t.

(** [AggregateArrayElem::ty], [ArrayBuilderElem::ty] *)
Definition aggregate_elem_ty (a : AggregateArrayElem) : Ty :=
  match a with
  | AggregateArrayElem.Vec elem lanes => Ty.Vec elem lanes
  | AggregateArrayElem.Mask elem lanes => Ty.Mask elem lanes
  | AggregateArrayElem.FixedArray elem len => Ty.Array elem len
  | AggregateArrayElem.FixedStructArray id len => Ty.StructArray id len
  end.

Definition builder_elem_ty (e : ArrayBuilderElem) : Ty :=
  match e with
  | ArrayBuilderElem.Scalar elem => scalar_to_ty elem
  | ArrayBuilderElem.Aggregate elem => aggregate_elem_ty elem
  end.

(** [array_builder_elem]: the element descriptor of a resolved type. *)
Definition array_builder_elem (ty : Ty) : option ArrayBuilderElem :=
  match ty with
  | Ty.Vec elem lanes => Some (ArrayBuilderElem.Aggregate (AggregateArrayElem.Vec elem lanes))
  | Ty.Mask elem lanes => Some (ArrayBuilderElem.Aggregate (AggregateArrayElem.Mask elem lanes))
  | Ty.Array elem len => Some (ArrayBuilderElem.Aggregate (AggregateArrayElem.FixedArray elem len))
  | Ty.StructArray id len => Some (ArrayBuilderElem.Aggregate (AggregateArrayElem.FixedStructArray id len))
  | Ty.Tuple _ => None
  | other => ArrayBuilderElem.Scalar <$> ty_to_scalar other
  end.

(** [Ty::array_builder], [Ty::array_builder_element] *)
Definition array_builder (e : ArrayBuilderElem) : Ty :=
  match e with
  | ArrayBuilderElem.Scalar elem => Ty.ArrayBuilder elem
  | ArrayBuilderElem.Aggregate (AggregateArrayElem.Vec elem lanes) => Ty.VecArrayBuilder elem lanes
  | ArrayBuilderElem.Aggregate (AggregateArrayElem.Mask elem lanes) => Ty.MaskArrayBuilder elem lanes
  | ArrayBuilderElem.Aggregate (AggregateArrayElem.FixedArray elem len) => Ty.FixedArrayBuilder elem len
  | ArrayBuilderElem.Aggregate (AggregateArrayElem.FixedStructArray id len) => Ty.FixedStructArrayBuilder id len
  end.

Definition array_builder_element (ty : Ty) : option ArrayBuilderElem :=
  match ty with
  | Ty.ArrayBuilder elem => Some (ArrayBuilderElem.Scalar elem)
  | Ty.VecArrayBuilder elem lanes => Some (ArrayBuilderElem.Aggregate (AggregateArrayElem.Vec elem lanes))
  | Ty.MaskArrayBuilder elem lanes => Some (ArrayBuilderElem.Aggregate (AggregateArrayElem.Mask elem lanes))
  | Ty.FixedArrayBuilder elem len => Some (ArrayBuilderElem.Aggregate (AggregateArrayElem.FixedArray elem len))
  | Ty.FixedStructArrayBuilder id len =>
      Some (ArrayBuilderElem.Aggregate (AggregateArrayElem.FixedStructArray id len))
  | _ => None
  end.

(** [Ty::dyn_aggregate_array], [Ty::dyn_aggregate_array_element] *)
Definition dyn_aggregate_array (a : AggregateArrayElem) : Ty :=
  match a with
  | AggregateArrayElem.Vec elem lanes => Ty.DynVecArray elem lanes
  | AggregateArrayElem.Mask elem lanes => Ty.DynMaskArray elem lanes
  | AggregateArrayElem.FixedArray elem len => Ty.DynFixedArray elem len
  | AggregateArrayElem.FixedStructArray id len => Ty.DynFixedStructArray id len
  end.

Definition dyn_aggregate_array_element (ty : Ty) : option AggregateArrayElem :=
  match ty with
  | Ty.DynVecArray elem lanes => Some (AggregateArrayElem.Vec elem lanes)
  | Ty.DynMaskArray elem lanes => Some (AggregateArrayElem.Mask elem lanes)
  | Ty.DynFixedArray elem len => Some (AggregateArrayElem.FixedArray elem len)
  | Ty.DynFixedStructArray id len => Some (AggregateArrayElem.FixedStructArray id len)
  | _ => None
  end.

Definition array_builder_result_ty (e : ArrayBuilderElem) : Ty :=
  match e with
  | ArrayBuilderElem.Scalar (Scalar.Struct id) => Ty.DynStructArray id Layout.Aos
  | ArrayBuilderElem.Scalar elem => Ty.DynArray elem
  | ArrayBuilderElem.Aggregate elem => dyn_aggregate_array elem
  end.

(** ** The nominal tables of a program ([src/hir.rs]) *)
Record FieldDef := { fd_name : bytes; fd_ty : Ty }.

Record StructDef := {
  sd_name : bytes; sd_source_name : bytes; sd_fields : list FieldDef;
  sd_align : option Z; sd_c_repr : bool
}.

Record TupleDef := { elems : list Scalar }.

Record EnumVariant := { ev_name : bytes; payload : list Scalar; field_base : N }.
Record EnumDef := { ed_name : bytes; ed_source_name : bytes; variants : list EnumVariant }.

Module TaggedType.
Inductive t : Type := Option (s : Scalar) | Result (ok err : Scalar).
End TaggedType.
Abbreviation TaggedType := TaggedType.t.

(** [table.get(id as usize)] *)
Definition get {A} (l : list A) (id : N) : option A := l !! N.to_nat id.

Definition expand_tagged_ty (ty : Ty) (tagged_types : list TaggedType) : Ty :=
  match ty with
  | Ty.Tagged id =>
      match get tagged_types id with
      | Some (TaggedType.Option payload) => Ty.Option payload
      | Some (TaggedType.Result ok err) => Ty.Result ok err
      | None => Ty.Error
      end
  | other => other
  end.

(** ** Properties *)
Lemma scalar_to_prim_to_scalar p : scalar_to_prim (prim_to_scalar p) = Some p.
Proof. by destruct p. Qed.

Lemma prim_to_scalar_to_prim s p : scalar_to_prim s = Some p → prim_to_scalar p = s.
Proof. destruct s; intros; simplify_eq/=; done. Qed.

Lemma scalar_to_ty_to_scalar s :
  ty_to_scalar (scalar_to_ty s) = match s with Scalar.Fn _ => None | _ => Some s end.
Proof. destruct s; simpl; try done; by rewrite scalar_to_prim_to_scalar. Qed.

Lemma ty_to_scalar_to_ty ty s : ty_to_scalar ty = Some s → scalar_to_ty s = ty.
Proof.
  destruct ty; simpl; intros H; simplify_eq/=; try done.
  - destruct l; by simplify_eq/=.
  - apply fmap_Some in H as (p & Hp & ->). simpl. f_equal. by apply prim_to_scalar_to_prim.
  - apply fmap_Some in H as (p & Hp & ->). simpl. f_equal. by apply prim_to_scalar_to_prim.
Qed.

(** The payload view of types: converting a payload to a type and back gives
    the payload for every payload except a function value, which [ty_to_scalar]
    does not accept; and a type that is accepted is the type of its payload. *)
Lemma scalar_ty_roundtrip :
  (∀ s, ty_to_scalar (scalar_to_ty s) = match s with Scalar.Fn _ => None | _ => Some s end) ∧
  (∀ ty s, ty_to_scalar ty = Some s → scalar_to_ty s = ty).
Proof. split; [exact scalar_to_ty_to_scalar|exact ty_to_scalar_to_ty]. Qed.

(** The payloads a move leaves as a whole two-word owner or a nominal resource. *)
Definition owned_not_handle (s : Scalar) : bool :=
  match s with
  | Scalar.String | Scalar.DynArray _ | Scalar.DynStructArray _ | Scalar.DynResponseArray | Scalar.Resource _ => true
  | _ => false
  end.

(** The two move classifications agree: a payload is a move payload exactly
    when its type is a bare handle of [MOVE_HANDLE_TYPES] or it is one of the
    owned collections or a resource; and no payload is both. *)
Lemma move_scalars_are_handles :
  ∀ s, scalar_is_move s = (is_move_handle (scalar_to_ty s) || owned_not_handle s) ∧
       is_move_handle (scalar_to_ty s) && owned_not_handle s = false.
Proof.
  intros s. destruct s as [| | | | | | | |  |[]| | | |[]| | | | | | | | | | | | | | | | | | | | | | | | | | | | |[]| | | | | | | |
    | | | | | | | | | | | | | | |]; vm_compute; done.
Qed.

(** Array descriptors round trip: a builder type and a dynamic array type
    give back the descriptor they were made from, a descriptor is recovered from
    the type it describes except where the source refuses it (tuples, function
    values), and a descriptor found for a type describes that type. *)
Lemma array_elem_roundtrips :
  (∀ e, array_builder_element (array_builder e) = Some e) ∧
  (∀ a, dyn_aggregate_array_element (dyn_aggregate_array a) = Some a) ∧
  (∀ e, array_builder_elem (builder_elem_ty e) =
        match e with ArrayBuilderElem.Scalar (Scalar.Tuple _ | Scalar.Fn _) => None | _ => Some e end) ∧
  (∀ ty e, array_builder_elem ty = Some e → builder_elem_ty e = ty).
Proof.
  split_and!.
  - by intros [|[]].
  - by intros [].
  - intros [[]|[]]; simpl; try done; by rewrite scalar_to_prim_to_scalar.
  - intros ty e. destruct ty; simpl; intros H; simplify_eq/=; try done;
      apply fmap_Some in H as (s0 & Hs & ->); by apply ty_to_scalar_to_ty.
Qed.
