(* ===== verification/TypeLayout.v ===== *)
(** * Type layout ([crates/align_sema/src/type_layout.rs])

    The natural size and alignment of every resolved type: an iterative,
    memoized traversal of the type graph with an explicit work stack, a stack of
    finished layouts, and per-kind sets of the nominal ids being expanded.  Sizes
    are [u64] and saturate. *)
From Stdlib Require Import ZArith Lia.
From stdpp Require Import gmap.
From S2P Require Import Prelude Types.
Local Open Scope Z_scope.

Definition U64_MAX : Z := 2 ^ 64 - 1.

(** [checked_add], [saturating_add], [saturating_mul] and [!] on [u64]. *)
Definition checked_add (a b : Z) : option Z := if a + b <=? U64_MAX then Some (a + b) else None.
Definition saturating_add (a b : Z) : Z := Z.min (a + b) U64_MAX.
Definition saturating_mul (a b : Z) : Z := Z.min (a * b) U64_MAX.
Definition not64 (a : Z) : Z := Z.lxor a U64_MAX.

Definition align_up (n align : Z) : Z :=
  if align <=? 1 then n
  else match checked_add n (align - 1) with
       | Some size => Z.land size (not64 (align - 1))
       | None => U64_MAX
       end.

(** Size and alignment, in bytes. *)
Abbreviation lay := (Z * Z)%type.

(** One turn of the loop over fields: place [field] after [(size, align)]. *)
Definition place (acc field : lay) : lay :=
  let '(size, align) := acc in
  let '(field_size, field_align) := field in
  let field_align := Z.max field_align 1 in
  (saturating_add (align_up size field_align) field_size, Z.max align field_align).

Definition aggregate_layout (fields : list lay) : lay :=
  let '(size, align) :=
    foldl (λ acc field, if field.1 =? 0 then acc else place acc field) (0, 1) fields in
  (align_up size align, align).

Definition tagged_union_layout (tag payload : lay) : lay :=
  if payload.1 =? 0 then tag
  else
    let payload_align := Z.max payload.2 1 in
    let align := Z.max tag.2 payload_align in
    let payload_offset := align_up tag.1 payload_align in
    (align_up (saturating_add payload_offset payload.1) align, align).

(** [sort_by_key(Reverse(align.max(1)))]: Rust's [sort_by_key] is stable. *)
Fixpoint insert_by_align (x : lay) (l : list lay) : list lay :=
  match l with
  | [] => [x]
  | y :: l' => if Z.max y.2 1 <=? Z.max x.2 1 then x :: y :: l' else y :: insert_by_align x l'
  end.
Fixpoint sort_by_align (l : list lay) : list lay :=
  match l with [] => [] | x :: l' => insert_by_align x (sort_by_align l') end.

(** The [ExitStruct] arm, on the layouts of the fields. *)
Definition struct_layout (c_repr : bool) (over_align : option Z) (layouts : list lay) : lay :=
  let layouts := if c_repr then layouts else sort_by_align layouts in
  let '(size, align) := foldl place (0, 1) layouts in
  let effective := match over_align with None => align | Some value => Z.max align value end in
  (align_up size effective, align).

(** The [ExitEnum] arm: [variants] are the payload counts, [layouts] all payloads. *)
Fixpoint widest_variant (variants : list nat) (layouts : list lay) (cursor : nat) (maximum : lay) : res lay :=
  match variants with
  | [] => Ret maximum
  | fields :: variants' =>
      let* part := slice_res cursor (cursor + fields) layouts in
      let layout := aggregate_layout part in
      widest_variant variants' layouts (cursor + fields)
        (if maximum.1 <? layout.1 then layout.1 else maximum.1,
         if maximum.2 <? layout.2 then layout.2 else maximum.2)
  end.

Definition enum_layout (variants : list nat) (layouts : list lay) : res lay :=
  let* maximum := widest_variant variants layouts 0 (0, 1) in
  Ret (tagged_union_layout (4, 4) maximum).

(** ** The cache *)
Record TypeLayoutCache := {
  structs : list StructDef; tuples : list TupleDef; enums : list EnumDef; tagged_types : list TaggedType;
  struct_cache : gmap N lay; tuple_cache : gmap N lay; enum_cache : gmap N lay; tagged_cache : gmap N lay
}.

Definition new_cache (ss : list StructDef) (tt : list TupleDef) (es : list EnumDef) (gs : list TaggedType) :
    TypeLayoutCache :=
  {| structs := ss; tuples := tt; enums := es; tagged_types := gs;
     struct_cache := ∅; tuple_cache := ∅; enum_cache := ∅; tagged_cache := ∅ |}.

(** A nominal or tagged id: the key of one of the four caches and sets. *)
Inductive Node := NStruct (id : N) | NTuple (id : N) | NEnum (id : N) | NTagged (id : N).

Definition cache_get (c : TypeLayoutCache) (n : Node) : option lay :=
  match n with
  | NStruct id => struct_cache c !! id | NTuple id => tuple_cache c !! id
  | NEnum id => enum_cache c !! id | NTagged id => tagged_cache c !! id
  end.

Definition cache_insert (n : Node) (l : lay) (c : TypeLayoutCache) : TypeLayoutCache :=
  {| structs := structs c; tuples := tuples c; enums := enums c; tagged_types := tagged_types c;
     struct_cache := match n with NStruct id => <[id := l]> (struct_cache c) | _ => struct_cache c end;
     tuple_cache := match n with NTuple id => <[id := l]> (tuple_cache c) | _ => tuple_cache c end;
     enum_cache := match n with NEnum id => <[id := l]> (enum_cache c) | _ => enum_cache c end;
     tagged_cache := match n with NTagged id => <[id := l]> (tagged_cache c) | _ => tagged_cache c end |}.

Record Active := {
  active_structs : gset N; active_tuples : gset N; active_enums : gset N; active_tagged : gset N
}.

Definition no_active : Active :=
  {| active_structs := ∅; active_tuples := ∅; active_enums := ∅; active_tagged := ∅ |}.

Definition is_active (a : Active) (n : Node) : bool :=
  match n with
  | NStruct id => bool_decide (id ∈ active_structs a) | NTuple id => bool_decide (id ∈ active_tuples a)
  | NEnum id => bool_decide (id ∈ active_enums a) | NTagged id => bool_decide (id ∈ active_tagged a)
  end.

Definition map_active (f : N → gset N → gset N) (n : Node) (a : Active) : Active :=
  {| active_structs := match n with NStruct id => f id (active_structs a) | _ => active_structs a end;
     active_tuples := match n with NTuple id => f id (active_tuples a) | _ => active_tuples a end;
     active_enums := match n with NEnum id => f id (active_enums a) | _ => active_enums a end;
     active_tagged := match n with NTagged id => f id (active_tagged a) | _ => active_tagged a end |}.
Definition activate : Node → Active → Active := map_active (λ id s, {[id]} ∪ s).
Definition deactivate : Node → Active → Active := map_active (λ id s, s ∖ {[id]}).

(** ** The traversal *)
Inductive Work :=
  | Enter (ty : Ty)
  | ExitStruct (id : N) (fields : nat) (c_repr : bool) (over_align : option Z)
  | ExitTuple (id : N) (elements : nat)
  | ExitEnum (id : N) (variants : list nat)
  | ExitOption
  | ExitResult
  | ExitTagged (id : N)
  | ExitArray (len : N).

(** Both stacks have their top at the head. *)
Record Traversal := { cache : TypeLayoutCache; work : list Work; built : list lay; active : Active }.

Definition push_built (l : lay) (s : Traversal) : Traversal :=
  {| cache := cache s; work := work s; built := l :: built s; active := active s |}.
Definition push_work (w : list Work) (s : Traversal) : Traversal :=
  {| cache := cache s; work := w ++ work s; built := built s; active := active s |}.
Definition set_active (a : Active) (s : Traversal) : Traversal :=
  {| cache := cache s; work := work s; built := built s; active := a |}.
Definition set_cache (c : TypeLayoutCache) (s : Traversal) : Traversal :=
  {| cache := c; work := work s; built := built s; active := active s |}.
Definition set_built (b : list lay) (s : Traversal) : Traversal :=
  {| cache := cache s; work := work s; built := b; active := active s |}.

(** The arm of a nominal type: the cached layout, the fallback of a type that is
    being expanded or does not exist, or its expansion. *)
Definition enter_node (n : Node) (fallback : lay) (expansion : option (list Work)) (s : Traversal) : Traversal :=
  match cache_get (cache s) n with
  | Some layout => push_built layout s
  | None =>
      if is_active (active s) n then push_built fallback s
      else
        let s := set_active (activate n (active s)) s in
        match expansion with
        | Some w => push_work w s
        | None => push_built fallback (set_active (deactivate n (active s)) s)
        end
  end.

Definition enter_scalars (l : list Scalar) : list Work := map (λ p, Enter (scalar_to_ty p)) l.

Definition enter (ty : Ty) (s : Traversal) : Traversal :=
  match ty with
  | Ty.Int it => let bytes := Z.max (it_bits it / 8) 1 in push_built (bytes, bytes) s
  | Ty.Float ft => let bytes := Z.max (ft_bits ft / 8) 1 in push_built (bytes, bytes) s
  | Ty.Bool => push_built (1, 1) s
  | Ty.Char => push_built (4, 4) s
  | Ty.Rng => push_built (32, 8) s
  | Ty.Unit => push_built (0, 1) s
  | Ty.Array element len =>
      match element with
      | Scalar.Unit => push_built (4, 4) (push_work [ExitArray len] s)
      | _ => push_work [Enter (scalar_to_ty element); ExitArray len] s
      end
  | Ty.StructArray id len => push_work [Enter (Ty.Struct id); ExitArray len] s
  | Ty.Tagged id =>
      enter_node (NTagged id) (0, 1)
        ((λ _, [Enter (expand_tagged_ty (Ty.Tagged id) (tagged_types (cache s))); ExitTagged id])
          <$> get (tagged_types (cache s)) id) s
  | Ty.Tuple id =>
      enter_node (NTuple id) (0, 1)
        ((λ d, enter_scalars (elems d) ++ [ExitTuple id (length (elems d))])
          <$> get (tuples (cache s)) id) s
  | Ty.Struct id =>
      enter_node (NStruct id) (0, 1)
        ((λ d, map (λ f, Enter (fd_ty f)) (sd_fields d) ++
               [ExitStruct id (length (sd_fields d)) (sd_c_repr d) (sd_align d)])
          <$> get (structs (cache s)) id) s
  | Ty.Enum id =>
      enter_node (NEnum id) (4, 4)
        ((λ d, enter_scalars (concat (map payload (variants d))) ++
               [ExitEnum id (map (λ v, length (payload v)) (variants d))])
          <$> get (enums (cache s)) id) s
  | Ty.Option payload => push_work [Enter (scalar_to_ty payload); ExitOption] s
  | Ty.Result ok err => push_work [Enter (scalar_to_ty ok); Enter (scalar_to_ty err); ExitResult] s
  | Ty.Raw | Ty.HttpHeaders | Ty.HttpRequestView | Ty.Resource _ | Ty.ResourceRef _ => push_built (8, 8) s
  | ty => if is_move_handle ty then push_built (8, 8) s else push_built (16, 8) s
  end.

(** [built.drain(start..)] with [start = built.len().saturating_sub(n)]: the last
    [n] layouts in the order they were pushed, and what stays. *)
Definition drain (n : nat) (b : list lay) : list lay * list lay := (rev (take n b), drop n b).

(** [built.pop().unwrap_or((0, 1))] *)
Definition pop_built (b : list lay) : lay * list lay :=
  match b with [] => ((0, 1), []) | l :: b' => (l, b') end.

(** The end of a nominal expansion: deactivate, memoize, push. *)
Definition finish (n : Node) (layout : lay) (rest : list lay) (s : Traversal) : Traversal :=
  push_built layout
    (set_cache (cache_insert n layout (cache s)) (set_active (deactivate n (active s)) (set_built rest s))).

Definition step (item : Work) (s : Traversal) : res Traversal :=
  match item with
  | Enter ty => Ret (enter ty s)
  | ExitStruct id fields c_repr over_align =>
      let '(layouts, rest) := drain fields (built s) in
      Ret (finish (NStruct id) (struct_layout c_repr over_align layouts) rest s)
  | ExitTuple id elements =>
      let '(fields, rest) := drain elements (built s) in
      Ret (finish (NTuple id) (aggregate_layout fields) rest s)
  | ExitEnum id variants =>
      let '(layouts, rest) := drain (sum_list variants) (built s) in
      let* layout := enum_layout variants layouts in
      Ret (finish (NEnum id) layout rest s)
  | ExitOption =>
      let '(payload, rest) := pop_built (built s) in
      Ret (push_built (tagged_union_layout (1, 1) payload) (set_built rest s))
  | ExitResult =>
      let '((err_size, err_align), rest) := pop_built (built s) in
      let '((ok_size, ok_align), rest) := pop_built rest in
      Ret (push_built (tagged_union_layout (1, 1) (Z.max ok_size err_size, Z.max ok_align err_align))
             (set_built rest s))
  | ExitTagged id =>
      let '(layout, rest) := pop_built (built s) in
      Ret (finish (NTagged id) layout rest s)
  | ExitArray len =>
      let '((stride, align), rest) := pop_built (built s) in
      Ret (push_built (saturating_mul stride (Z.of_N len), align) (set_built rest s))
  end.

Fixpoint run (fuel : nat) (s : Traversal) : res (lay * TypeLayoutCache) :=
  match fuel with
  | O => OutOfFuel
  | S fuel =>
      match work s with
      | [] => Ret ((pop_built (built s)).1, cache s)
      | item :: rest =>
          let* s' := step item {| cache := cache s; work := rest; built := built s; active := active s |} in
          run fuel s'
      end
  end.

(** Turns an entered type takes before its nominal parts, and the turns of one
    expansion of a nominal type. *)
Definition enter_cost (ty : Ty) : nat :=
  match ty with
  | Ty.Option _ | Ty.Array _ _ | Ty.StructArray _ _ => 3
  | Ty.Result _ _ => 4
  | _ => 1
  end.
Definition struct_cost (d : StructDef) : nat := S (sum_list_with (λ f, enter_cost (fd_ty f)) (sd_fields d)).
Definition tuple_cost (d : TupleDef) : nat := S (length (elems d)).
Definition enum_cost (d : EnumDef) : nat := S (length (concat (map payload (variants d)))).
Definition layout_fuel (c : TypeLayoutCache) : nat :=
  (5 + sum_list_with struct_cost (structs c) + sum_list_with tuple_cost (tuples c)
   + sum_list_with enum_cost (enums c) + 5 * length (tagged_types c))%nat.

(** [TypeLayoutCache::layout]: the layout, and the cache as the call leaves it. *)
Definition layout (c : TypeLayoutCache) (ty : Ty) : res (lay * TypeLayoutCache) :=
  run (layout_fuel c) {| cache := c; work := [Enter ty]; built := []; active := no_active |}.

Definition ty_abi_layout (ty : Ty) (ss : list StructDef) (tt : list TupleDef) (es : list EnumDef)
    (gs : list TaggedType) : res lay :=
  let* r := layout (new_cache ss tt es gs) ty in Ret r.1.
