(* ===== verification/LayoutSpec.v ===== *)
(** * What the type layout promises

    The traversal of [TypeLayout] returns for every program, cyclic and
    ill-formed tables included; on a type whose expansion is finite it computes
    the layout that the plain recursive definition gives; and every layout it
    returns is well formed. *)
From Stdlib Require Import ZArith Lia.
From stdpp Require Import gmap.
From S2P Require Import Prelude Types TypeLayout.
Local Open Scope Z_scope.

#[export] Instance Node_eq_dec : EqDecision Node.
Proof. solve_decision. Defined.

(** ** The caches and the active sets as functions of a node *)
Lemma cache_get_insert c n m l :
  cache_get (cache_insert n l c) m = if decide (m = n) then Some l else cache_get c m.
Proof.
  case_decide as Hd; [subst m; destruct n; apply lookup_insert_eq|].
  destruct n, m; simpl; try done; apply lookup_insert_ne; congruence.
Qed.

Lemma is_active_activate a n m : is_active (activate n a) m = bool_decide (m = n) || is_active a m.
Proof.
  destruct n, m; simpl; rewrite <-?bool_decide_or; try apply bool_decide_ext; try set_solver;
    by rewrite bool_decide_eq_false_2 by done.
Qed.

Lemma is_active_deactivate a n m : is_active (deactivate n a) m = bool_decide (m ≠ n) && is_active a m.
Proof.
  destruct n, m; simpl; rewrite <-?bool_decide_and; try apply bool_decide_ext; try set_solver;
    by rewrite bool_decide_eq_true_2 by done.
Qed.

(** ** Termination

    A node is free until it is expanded or cached.  Every turn lowers the cost of
    the work stack plus that of the free nodes of the tables. *)
Definition free (c : TypeLayoutCache) (a : Active) (n : Node) : bool :=
  match cache_get c n with Some _ => false | None => negb (is_active a n) end.

Definition all_nodes (c : TypeLayoutCache) : list (Node * nat) :=
  imap (λ i d, (NStruct (N.of_nat i), struct_cost d)) (structs c) ++
  imap (λ i d, (NTuple (N.of_nat i), tuple_cost d)) (tuples c) ++
  imap (λ i d, (NEnum (N.of_nat i), enum_cost d)) (enums c) ++
  imap (λ i d, (NTagged (N.of_nat i), 5%nat)) (tagged_types c).

Definition work_cost (w : Work) : nat := match w with Enter ty => enter_cost ty | _ => 1 end.
Definition node_cost (c : TypeLayoutCache) (a : Active) (p : Node * nat) : nat := if free c a p.1 then p.2 else 0.
Definition potential (s : Traversal) : nat :=
  (sum_list_with work_cost (work s) + sum_list_with (node_cost (cache s) (active s)) (all_nodes (cache s)))%nat.

Lemma sum_list_with_le {A} (f g : A → nat) l :
  (∀ x, x ∈ l → (f x ≤ g x)%nat) → (sum_list_with f l ≤ sum_list_with g l)%nat.
Proof.
  induction l as [|x l IH]; simpl; [lia|]. intros H.
  assert (f x ≤ g x)%nat by (apply H; set_solver). assert (sum_list_with f l ≤ sum_list_with g l)%nat by (apply IH; set_solver). lia.
Qed.

Lemma sum_list_with_drop {A} (f g : A → nat) l x :
  (∀ x, x ∈ l → (f x ≤ g x)%nat) → x ∈ l → (sum_list_with f l + (g x - f x) ≤ sum_list_with g l)%nat.
Proof.
  induction l as [|y l IH]; simpl; [set_solver|]. intros H Hx.
  assert (f y ≤ g y)%nat by (apply H; set_solver).
  assert (sum_list_with f l ≤ sum_list_with g l)%nat by (apply sum_list_with_le; set_solver).
  apply elem_of_cons in Hx as [ -> |Hx]; [lia|].
  assert (sum_list_with f l + (g x - f x) ≤ sum_list_with g l)%nat by (apply IH; set_solver). lia.
Qed.

(** The tables of [c], which no turn changes. *)
Definition same_tables (c c' : TypeLayoutCache) : Prop :=
  structs c' = structs c ∧ tuples c' = tuples c ∧ enums c' = enums c ∧ tagged_types c' = tagged_types c.

Lemma all_nodes_same c c' : same_tables c c' → all_nodes c' = all_nodes c.
Proof. intros (H1 & H2 & H3 & H4). unfold all_nodes. congruence. Qed.

(** Entering a node: either nothing is pushed but a layout, or its expansion is. *)
Lemma enter_node_cases n fb e s :
  (∃ l, enter_node n fb e s = push_built l s ∧ (cache_get (cache s) n = Some l ∨ l = fb)) ∨
  (e = None ∧ free (cache s) (active s) n = true ∧
    enter_node n fb e s = push_built fb (set_active (deactivate n (activate n (active s))) s)) ∨
  (∃ w, e = Some w ∧ free (cache s) (active s) n = true ∧ enter_node n fb e s = push_work w (set_active (activate n (active s)) s)).
Proof.
  unfold enter_node, free. destruct (cache_get _ n) as [l|]; [left; eauto|].
  destruct (is_active _ n); [left; eauto|]. destruct e; right; [right|left]; eauto.
Qed.

Lemma scalar_to_ty_cost p : enter_cost (scalar_to_ty p) = 1%nat.
Proof. by destruct p. Qed.

Lemma enter_scalars_cost l : sum_list_with work_cost (enter_scalars l) = length l.
Proof. induction l as [|p l IH]; simpl; [done|]. rewrite scalar_to_ty_cost, IH. done. Qed.

Lemma sum_enter_fields fs :
  sum_list_with work_cost (map (λ f, Enter (fd_ty f)) fs) = sum_list_with (λ f, enter_cost (fd_ty f)) fs.
Proof. induction fs as [|f fs IH]; simpl; congruence. Qed.

Lemma expand_tagged_cost ty gs id : ty = Ty.Tagged id → (enter_cost (expand_tagged_ty ty gs) ≤ 4)%nat.
Proof. intros ->. simpl. destruct (get gs id) as [[]|]; simpl; lia. Qed.

Lemma get_imap {A} (f : nat → A → Node * nat) (l : list A) id d :
  get l id = Some d → f (N.to_nat id) d ∈ imap f l.
Proof.
  unfold get. intros H. apply list_elem_of_lookup. exists (N.to_nat id). by rewrite list_lookup_imap, H.
Qed.

Lemma enter_node_potential n fb e s k :
  (∀ w, e = Some w → (n, k) ∈ all_nodes (cache s) ∧ (sum_list_with work_cost w ≤ k)%nat) →
  (potential (enter_node n fb e s) ≤ potential s)%nat ∧ same_tables (cache s) (cache (enter_node n fb e s)).
Proof.
  intros Hw. destruct (enter_node_cases n fb e s) as [(l & -> & _)|[(-> & Hf & ->)|(w & -> & Hf & ->)]];
    (split; [|done]); unfold potential; simpl.
  - lia.
  - apply Nat.add_le_mono_l, sum_list_with_le. intros [m j] _. unfold node_cost, free. simpl.
    destruct (cache_get _ m); [lia|]. rewrite is_active_deactivate, is_active_activate.
    destruct (decide (m = n)) as [ -> |Hm].
    + rewrite bool_decide_eq_false_2 by naive_solver. unfold free in Hf. destruct (cache_get _ n); [done|]. by rewrite Hf.
    + rewrite (bool_decide_eq_false_2 (m = n)) by done. rewrite bool_decide_eq_true_2 by done. done.
  - rewrite sum_list_with_app. destruct (Hw w eq_refl) as [Hin Hk].
    match goal with |- (_ + ?F ≤ _ + ?G)%nat => enough (F + k ≤ G)%nat by lia end.
    assert (node_cost (cache s) (active s) (n, k) - node_cost (cache s) (activate n (active s)) (n, k) = k)%nat as Hd.
    { unfold node_cost. simpl. rewrite Hf. unfold free. simpl. destruct (cache_get _ n); [lia|].
      rewrite is_active_activate, bool_decide_eq_true_2 by done. simpl. lia. }
    pose proof (sum_list_with_drop (node_cost (cache s) (activate n (active s))) (node_cost (cache s) (active s))
                  (all_nodes (cache s)) (n, k)) as Hs.
    rewrite Hd in Hs. apply Hs; [|done]. intros [m j] _. unfold node_cost, free. simpl.
    destruct (cache_get _ m); [lia|]. rewrite is_active_activate. destruct (bool_decide (m = n)), (is_active _ m); simpl; lia.
Qed.

Lemma all_nodes_elem c x :
  (x ∈ imap (λ i d, (NStruct (N.of_nat i), struct_cost d)) (structs c) ∨
   x ∈ imap (λ i d, (NTuple (N.of_nat i), tuple_cost d)) (tuples c) ∨
   x ∈ imap (λ i d, (NEnum (N.of_nat i), enum_cost d)) (enums c) ∨
   x ∈ imap (λ i d, (NTagged (N.of_nat i), 5%nat)) (tagged_types c)) → x ∈ all_nodes c.
Proof. unfold all_nodes. set_solver. Qed.

Lemma enter_potential ty s :
  (potential (enter ty s) < enter_cost ty + potential s)%nat ∧ same_tables (cache s) (cache (enter ty s)).
Proof.
  assert (∀ n fb e k,
    (∀ w, e = Some w → (n, k) ∈ all_nodes (cache s) ∧ (sum_list_with work_cost w ≤ k)%nat) →
    (potential (enter_node n fb e s) < 1 + potential s)%nat ∧ same_tables (cache s) (cache (enter_node n fb e s))) as Hn.
  { intros n fb e k H. destruct (enter_node_potential n fb e s k H). split; [lia|done]. }
  destruct ty; simpl enter_cost; unfold enter;
    try (destruct (is_move_handle _)); try (by (split; [unfold potential; simpl; lia|done])).
  - unfold potential. simpl. rewrite scalar_to_ty_cost. split; [lia|done].
  - unfold potential. simpl. rewrite !scalar_to_ty_cost. split; [lia|done].
  - destruct (get _ n) as [d|] eqn:Hd; apply (Hn _ _ _ 5%nat); intros w Hw; simplify_eq/=.
    pose proof (expand_tagged_cost (Ty.Tagged n) (tagged_types (cache s)) n eq_refl) as Hc. simpl in Hc. rewrite Hd in *.
    split; [|lia]. apply all_nodes_elem. do 3 right.
    pose proof (get_imap (λ i _, (NTagged (N.of_nat i), 5%nat)) _ _ _ Hd) as Hi. simpl in Hi. by rewrite N2Nat.id in Hi.
  - destruct s0; unfold potential; simpl; (split; [lia|done]).
  - destruct (get _ n) as [d|] eqn:Hd; [apply (Hn _ _ _ (struct_cost d))|apply (Hn _ _ _ 0%nat)]; intros w Hw; simplify_eq/=.
    rewrite sum_list_with_app, sum_enter_fields. unfold struct_cost. simpl. split; [|lia]. apply all_nodes_elem. left.
    pose proof (get_imap (λ i d, (NStruct (N.of_nat i), struct_cost d)) _ _ _ Hd) as Hi. simpl in Hi. by rewrite N2Nat.id in Hi.
  - destruct (get _ n) as [d|] eqn:Hd; [apply (Hn _ _ _ (tuple_cost d))|apply (Hn _ _ _ 0%nat)]; intros w Hw; simplify_eq/=.
    rewrite sum_list_with_app, enter_scalars_cost. unfold tuple_cost. simpl. split; [|lia]. apply all_nodes_elem. right; left.
    pose proof (get_imap (λ i d, (NTuple (N.of_nat i), tuple_cost d)) _ _ _ Hd) as Hi. simpl in Hi. by rewrite N2Nat.id in Hi.
  - destruct (get _ n) as [d|] eqn:Hd; [apply (Hn _ _ _ (enum_cost d))|apply (Hn _ _ _ 0%nat)]; intros w Hw; simplify_eq/=.
    rewrite sum_list_with_app, enter_scalars_cost. unfold enum_cost. simpl. split; [|lia]. apply all_nodes_elem. do 2 right; left.
    pose proof (get_imap (λ i d, (NEnum (N.of_nat i), enum_cost d)) _ _ _ Hd) as Hi. simpl in Hi. by rewrite N2Nat.id in Hi.
Qed.

(** ** The stack of layouts never underflows *)
Definition arity (w : Work) : nat :=
  match w with
  | Enter _ => 0
  | ExitStruct _ fields _ _ => fields
  | ExitTuple _ elements => elements
  | ExitEnum _ variants => sum_list variants
  | ExitOption | ExitTagged _ | ExitArray _ => 1
  | ExitResult => 2
  end.

(** Working off [w] on [n] layouts pops only what is there. *)
Fixpoint stacked (w : list Work) (n : nat) : Prop :=
  match w with [] => True | i :: w' => (arity i ≤ n)%nat ∧ stacked w' (S (n - arity i)) end.

Lemma stacked_enters {A} (f : A → Ty) l w n :
  stacked (map (λ x, Enter (f x)) l ++ w) n ↔ stacked w (length l + n).
Proof.
  revert n. induction l as [|x l IH]; intros n; simpl; [done|]. rewrite IH, Nat.sub_0_r.
  replace (length l + S n)%nat with (S (length l + n)) by lia. naive_solver lia.
Qed.

Lemma stacked_expansion {A} (f : A → Ty) l e w n :
  arity e = length l → stacked w (S n) → stacked ((map (λ x, Enter (f x)) l ++ [e]) ++ w) n.
Proof.
  intros He Hw. rewrite <-app_assoc, stacked_enters. simpl. rewrite He. split; [lia|].
  by replace (length l + n - length l)%nat with n by lia.
Qed.

Lemma enter_node_stacked n fb e s :
  (∀ w, e = Some w → stacked (w ++ work s) (length (built s))) → stacked (work s) (S (length (built s))) →
  stacked (work (enter_node n fb e s)) (length (built (enter_node n fb e s))).
Proof.
  intros He Hw. destruct (enter_node_cases n fb e s) as [(l & -> & _)|[(_ & _ & ->)|(w & -> & _ & ->)]]; simpl; auto.
Qed.

Lemma length_concat_payload (l : list EnumVariant) :
  length (concat (map payload l)) = sum_list (map (λ v, length (payload v)) l).
Proof. induction l as [|v l IH]; simpl; [done|]. rewrite length_app. lia. Qed.

Lemma enter_stacked ty s :
  stacked (work s) (S (length (built s))) → stacked (work (enter ty s)) (length (built (enter ty s))).
Proof.
  intros Hw. unfold enter.
  destruct ty; try (destruct (is_move_handle _)); try done;
    try (by simpl; rewrite ?Nat.sub_0_r; split_and!; try lia); try (apply enter_node_stacked; [|done]; intros w H).
  - apply fmap_Some in H as (d & Hd & ->). simpl. rewrite !Nat.sub_0_r. split_and!; try lia. done.
  - destruct s0; simpl; rewrite ?Nat.sub_0_r; split_and!; try lia; done.
  - apply fmap_Some in H as (d & Hd & ->). apply (stacked_expansion fd_ty); done.
  - apply fmap_Some in H as (d & Hd & ->). apply (stacked_expansion scalar_to_ty); done.
  - apply fmap_Some in H as (d & Hd & ->). apply (stacked_expansion scalar_to_ty); [|done]. by rewrite length_concat_payload.
Qed.

Lemma widest_variant_total vs ls cursor m :
  (cursor + sum_list vs ≤ length ls)%nat → ∃ l, widest_variant vs ls cursor m = Ret l.
Proof.
  revert cursor m. induction vs as [|v vs IH]; intros cursor m H; simpl in *; [eauto|].
  rewrite slice_res_ok by lia. cbn [res_bind]. apply IH. lia.
Qed.

Lemma finish_potential n l b s : (potential (finish n l b s) ≤ potential s)%nat ∧ same_tables (cache s) (cache (finish n l b s)).
Proof.
  split; [|done]. unfold potential. simpl. apply Nat.add_le_mono_l.
  rewrite (all_nodes_same (cache s) (cache_insert n l (cache s))) by done. apply sum_list_with_le. intros [m j] _. unfold node_cost, free. simpl.
  rewrite cache_get_insert, is_active_deactivate. case_decide as Hm; [lia|].
  by rewrite bool_decide_eq_true_2.
Qed.

Lemma step_progress item s :
  stacked (item :: work s) (length (built s)) →
  ∃ s', step item s = Ret s' ∧ stacked (work s') (length (built s')) ∧
        (potential s' < work_cost item + potential s)%nat ∧ same_tables (cache s) (cache s').
Proof.
  simpl. intros [Ha Hw].
  assert (∀ n l k, k = arity item →
            stacked (work (finish n l (drop k (built s)) s)) (length (built (finish n l (drop k (built s)) s))) ∧
            (potential (finish n l (drop k (built s)) s) < 1 + potential s)%nat ∧
            same_tables (cache s) (cache (finish n l (drop k (built s)) s))) as Hfin.
  { intros n l k ->. destruct (finish_potential n l (drop (arity item) (built s)) s). simpl. rewrite length_drop.
    split_and!; [done|lia|done]. }
  destruct item as [ty|id fields c_repr over|id elements|id variants| | |id|len]; simpl in Ha, Hw.
  - rewrite Nat.sub_0_r in Hw. eexists. split; [done|]. destruct (enter_potential ty s).
    split_and!; [by apply enter_stacked|done|done].
  - eexists. split; [done|]. by apply Hfin.
  - eexists. split; [done|]. by apply Hfin.
  - simpl. unfold enum_layout. destruct (widest_variant_total variants (rev (take (sum_list variants) (built s))) 0 (0, 1)) as [l ->].
    { rewrite length_rev, length_take. lia. }
    eexists. split; [done|]. by apply Hfin.
  - simpl. destruct (built s) as [|l b] eqn:Hb; simpl in *; [lia|]. rewrite Nat.sub_0_r in Hw. eexists. split; [done|].
    split_and!; [done|unfold potential; simpl; lia|done].
  - simpl. destruct (built s) as [|[e1 e2] [|[o1 o2] b]] eqn:Hb; simpl in *; [lia|lia|]. rewrite Nat.sub_0_r in Hw.
    eexists. split; [done|]. split_and!; [done|unfold potential; simpl; lia|done].
  - simpl. destruct (built s) as [|l b] eqn:Hb; simpl in *; [lia|]. eexists. split; [done|].
    destruct (Hfin (NTagged id) l 1%nat eq_refl) as (H1 & H2 & H3). simpl in *. rewrite drop_0 in *. done.
  - simpl. destruct (built s) as [|[l1 l2] b] eqn:Hb; simpl in *; [lia|]. rewrite Nat.sub_0_r in Hw. eexists. split; [done|].
    split_and!; [done|unfold potential; simpl; lia|done].
Qed.

Lemma run_total fuel s :
  stacked (work s) (length (built s)) → (potential s < fuel)%nat →
  ∃ l c, run fuel s = Ret (l, c) ∧ same_tables (cache s) c.
Proof.
  revert s. induction fuel as [|fuel IH]; intros s Hs Hf; [lia|]. simpl. destruct (work s) as [|item rest] eqn:Hw.
  { do 2 eexists. split; [done|]. done. }
  set (s0 := {| cache := cache s; work := rest; built := built s; active := active s |}).
  destruct (step_progress item s0) as (s' & -> & Hs' & Hp & Ht); [done|]. cbn [res_bind].
  assert (potential s = (work_cost item + potential s0)%nat) as Hp0 by (unfold potential; rewrite Hw; simpl; lia).
  destruct (IH s') as (l & c & -> & Hc); [done|lia|]. exists l, c. split; [done|].
  destruct Ht as (?&?&?&?), Hc as (?&?&?&?). simpl in *. split_and!; congruence.
Qed.

Lemma sum_node_cost_le c a : 
  (sum_list_with (node_cost c a) (all_nodes c) ≤ sum_list_with snd (all_nodes c))%nat.
Proof. apply sum_list_with_le. intros [n k] _. unfold node_cost. simpl. destruct (free c a n); lia. Qed.

Lemma sum_imap {A} (f : nat → A → Node) (g : A → nat) (l : list A) :
  sum_list_with snd (imap (λ i d, (f i d, g d)) l) = sum_list_with g l.
Proof.
  revert f. induction l as [|x l IH]; intros f; simpl; [done|]. f_equal. rewrite <-(IH (f ∘ S)). f_equal.
Qed.

Lemma layout_fuel_enough c : (5 + sum_list_with snd (all_nodes c) = layout_fuel c)%nat.
Proof.
  unfold all_nodes, layout_fuel. rewrite !sum_list_with_app, !sum_imap.
  assert (sum_list_with (λ _, 5) (tagged_types c) = 5 * length (tagged_types c))%nat as ->; [|lia].
  induction (tagged_types c) as [|g l IH]; simpl in *; lia.
Qed.

Lemma layout_potential c ty :
  (potential {| cache := c; work := [Enter ty]; built := []; active := no_active |} < layout_fuel c)%nat.
Proof.
  pose proof (sum_node_cost_le c no_active). pose proof (layout_fuel_enough c).
  unfold potential. simpl. destruct ty; simpl; lia.
Qed.

(** C15. [layout] returns for every type and every cache: whatever the tables
    hold — cycles, ids out of range, ill-formed widths — the traversal stops
    within the fuel, no slice of the layout stack fails, and the tables are
    left as they were. *)
Theorem layout_total :
  ∀ c ty, ∃ l c', layout c ty = Ret (l, c') ∧ same_tables c c'.
Proof.
  intros c ty. apply run_total; [done|apply layout_potential].
Qed.

(** ** The reference: a plain recursion over the type graph

    [ref_layout c n ty] is the layout of [ty] by the textbook recursion, cut at
    depth [n]; a type has a layout at some depth exactly when its expansion is
    finite.  It has no cache, no stacks and no active sets. *)
Definition leaf_layout (ty : Ty) : lay :=
  match ty with
  | Ty.Int it => (Z.max (it_bits it / 8) 1, Z.max (it_bits it / 8) 1)
  | Ty.Float ft => (Z.max (ft_bits ft / 8) 1, Z.max (ft_bits ft / 8) 1)
  | Ty.Bool => (1, 1)
  | Ty.Char => (4, 4)
  | Ty.Rng => (32, 8)
  | Ty.Unit => (0, 1)
  | Ty.Raw | Ty.HttpHeaders | Ty.HttpRequestView | Ty.Resource _ | Ty.ResourceRef _ => (8, 8)
  | _ => if is_move_handle ty then (8, 8) else (16, 8)
  end.

Definition lay_max (a b : lay) : lay := (Z.max a.1 b.1, Z.max a.2 b.2).
Definition array_layout (len : N) (l : lay) : lay := (saturating_mul l.1 (Z.of_N len), l.2).

(** One level, given the layouts of the parts. *)
Definition ref_body (c : TypeLayoutCache) (rec : Ty → option lay) (ty : Ty) : option lay :=
  match ty with
  | Ty.Array Scalar.Unit len => Some (array_layout len (4, 4))
  | Ty.Array elem len => array_layout len <$> rec (scalar_to_ty elem)
  | Ty.StructArray id len => array_layout len <$> rec (Ty.Struct id)
  | Ty.Option p => tagged_union_layout (1, 1) <$> rec (scalar_to_ty p)
  | Ty.Result ok err =>
      o ← rec (scalar_to_ty ok); e ← rec (scalar_to_ty err);
      Some (tagged_union_layout (1, 1) (lay_max o e))
  | Ty.Tagged id =>
      match get (tagged_types c) id with
      | None => Some (0, 1)
      | Some (TaggedType.Option p) => rec (Ty.Option p)
      | Some (TaggedType.Result ok err) => rec (Ty.Result ok err)
      end
  | Ty.Tuple id =>
      match get (tuples c) id with
      | None => Some (0, 1)
      | Some d => aggregate_layout <$> mapM (λ p, rec (scalar_to_ty p)) (elems d)
      end
  | Ty.Struct id =>
      match get (structs c) id with
      | None => Some (0, 1)
      | Some d => struct_layout (sd_c_repr d) (sd_align d) <$> mapM (λ f, rec (fd_ty f)) (sd_fields d)
      end
  | Ty.Enum id =>
      match get (enums c) id with
      | None => Some (4, 4)
      | Some d =>
          ls ← mapM (λ v, aggregate_layout <$> mapM (λ p, rec (scalar_to_ty p)) (payload v)) (variants d);
          Some (tagged_union_layout (4, 4) (foldl lay_max (0, 1) ls))
      end
  | _ => Some (leaf_layout ty)
  end.

Fixpoint ref_layout (c : TypeLayoutCache) (n : nat) (ty : Ty) : option lay :=
  match n with O => None | S n => ref_body c (ref_layout c n) ty end.

Lemma ref_layout_succ c n ty : ref_layout c (S n) ty = ref_body c (ref_layout c n) ty.
Proof. done. Qed.

Lemma mapM_mono {A} (f g : A → option lay) l ls :
  (∀ x y, f x = Some y → g x = Some y) → mapM f l = Some ls → mapM g l = Some ls.
Proof. rewrite !mapM_Some. intros H HF. eapply Forall2_impl; eauto. Qed.

Lemma ref_body_mono c (f g : Ty → option lay) ty l :
  (∀ t y, f t = Some y → g t = Some y) → ref_body c f ty = Some l → ref_body c g ty = Some l.
Proof.
  intros H.
  assert (∀ (h : lay → lay) t l, h <$> f t = Some l → h <$> g t = Some l) as Hf.
  { intros h t x (y & Hy & ->)%fmap_Some. by rewrite (H _ _ Hy). }
  assert (∀ ps ls, mapM (λ p, f (scalar_to_ty p)) ps = Some ls → mapM (λ p, g (scalar_to_ty p)) ps = Some ls) as Hm.
  { intros ps ls. apply mapM_mono. intros p. apply H. }
  destruct ty; try done; cbn [ref_body].
  - apply Hf.
  - intros (o & Ho & (e & He & <-)%bind_Some)%bind_Some. by rewrite (H _ _ Ho), (H _ _ He).
  - destruct (get _ _) as [[]|]; [apply H|apply H|done].
  - destruct s; try done; apply Hf.
  - apply Hf.
  - destruct (get _ _) as [d|]; [|done]. intros (ls & Hls & ->)%fmap_Some.
    by rewrite (mapM_mono _ (λ x, g (fd_ty x)) _ _ (λ x, H (fd_ty x)) Hls).
  - destruct (get _ _) as [d|]; [|done]. intros (ls & Hls & ->)%fmap_Some. by rewrite (Hm _ _ Hls).
  - destruct (get _ _) as [d|]; [|done]. intros (ls & Hls & <-)%bind_Some.
    erewrite mapM_mono; [done| |exact Hls]. intros v y (ps & Hps & ->)%fmap_Some. by rewrite (Hm _ _ Hps).
Qed.

Lemma ref_layout_S c n ty l : ref_layout c n ty = Some l → ref_layout c (S n) ty = Some l.
Proof.
  revert ty l. induction n as [|n IH]; intros ty l; [done|]. rewrite !ref_layout_succ. by apply ref_body_mono.
Qed.

Lemma ref_layout_mono c n m ty l : (n ≤ m)%nat → ref_layout c n ty = Some l → ref_layout c m ty = Some l.
Proof. intros Hm Hl. induction Hm; [done|]. by apply ref_layout_S. Qed.

Lemma ref_layout_det c n m ty l l' : ref_layout c n ty = Some l → ref_layout c m ty = Some l' → l = l'.
Proof.
  intros H H'. apply (ref_layout_mono c n (n + m)) in H; [|lia]. apply (ref_layout_mono c m (n + m)) in H'; [|lia].
  congruence.
Qed.

(** ** Simulation *)
Definition node_ty (n : Node) : Ty :=
  match n with NStruct id => Ty.Struct id | NTuple id => Ty.Tuple id | NEnum id => Ty.Enum id | NTagged id => Ty.Tagged id end.

(** [c] has the tables of [c0], and every layout it remembers is the reference's. *)
Record consistent (c0 c : TypeLayoutCache) : Prop := {
  con_tables : same_tables c0 c;
  con_cached : ∀ n l, cache_get c n = Some l → ∃ k, ref_layout c0 k (node_ty n) = Some l
}.

Section Simulation.
Context (c0 : TypeLayoutCache).

(** [s] runs to [s'], whatever comes after. *)
Definition reaches (s s' : Traversal) : Prop := ∃ k, ∀ fuel, run (k + fuel) s = run fuel s'.

Lemma reaches_refl s : reaches s s.
Proof. by exists O. Qed.
Lemma reaches_trans s1 s2 s3 : reaches s1 s2 → reaches s2 s3 → reaches s1 s3.
Proof. intros [k Hk] [m Hm]. exists (k + m)%nat. intros f. by rewrite <-Nat.add_assoc, Hk, Hm. Qed.

Definition state (c : TypeLayoutCache) (w : list Work) (b : list lay) (a : Active) : Traversal :=
  {| cache := c; work := w; built := b; active := a |}.

Lemma reaches_step i c w b a s' : step i (state c w b a) = Ret s' → reaches (state c (i :: w) b a) s'.
Proof. intros H. exists 1%nat. intros f. simpl. unfold state in H. by rewrite H. Qed.

Definition same_active (a a' : Active) : Prop := ∀ n, is_active a' n = is_active a n.

(** Running [w] from a consistent state, with nothing active that lies within
    depth [n], ends with the layouts [ls] pushed. *)
Definition yields (n : nat) (w : list Work) (ls : list lay) : Prop :=
  ∀ c rest b a, consistent c0 c → (∀ m, is_active a m = true → ref_layout c0 n (node_ty m) = None) →
  ∃ c' a', reaches (state c (w ++ rest) b a) (state c' rest (rev ls ++ b) a') ∧ consistent c0 c' ∧ same_active a a'.

Lemma yields_nil n : yields n [] [].
Proof. intros c rest b a Hc Ha. exists c, a. split_and!; [apply reaches_refl|done|done]. Qed.

Lemma yields_app n w1 w2 l1 l2 : yields n w1 l1 → yields n w2 l2 → yields n (w1 ++ w2) (l1 ++ l2).
Proof.
  intros H1 H2 c rest b a Hc Ha. destruct (H1 c (w2 ++ rest) b a Hc Ha) as (c1 & a1 & Hr1 & Hc1 & Ha1).
  destruct (H2 c1 rest (rev l1 ++ b) a1 Hc1) as (c2 & a2 & Hr2 & Hc2 & Ha2).
  { intros m Hm. apply Ha. by rewrite <-Ha1. }
  exists c2, a2. rewrite <-app_assoc. split_and!; [|done|].
  - eapply reaches_trans; [exact Hr1|]. by rewrite rev_app_distr, <-app_assoc.
  - intros m. by rewrite Ha2.
Qed.

Lemma yields_list n {A} (f : A → Ty) l ls :
  (∀ x y, x ∈ l → ref_layout c0 n (f x) = Some y → yields n [Enter (f x)] [y]) →
  mapM (λ x, ref_layout c0 n (f x)) l = Some ls → yields n (map (λ x, Enter (f x)) l) ls.
Proof.
  rewrite mapM_Some. intros Hf. induction 1 as [|x y l ls Hx _ IH]; [apply yields_nil|].
  apply (yields_app n [_] _ [y]); [apply Hf; [set_solver|done]|]. apply IH. intros ? ? ?. apply Hf. set_solver.
Qed.

(** An exit item that pops [length ls] layouts and pushes [l]. *)
Lemma yields_exit n w ls i l :
  yields n w ls →
  (∀ c rest b a, step i (state c rest (rev ls ++ b) a) = Ret (state c rest (l :: b) a)) →
  yields n (w ++ [i]) [l].
Proof.
  intros Hw Hi c rest b a Hc Ha. destruct (Hw c (i :: rest) b a Hc Ha) as (c' & a' & Hr & Hc' & Ha').
  exists c', a'. split_and!; [|done|done]. rewrite <-app_assoc. eapply reaches_trans; [exact Hr|].
  apply reaches_step, Hi.
Qed.

Lemma yields_enter n ty w ls :
  (∀ c rest b a, consistent c0 c → enter ty (state c rest b a) = state c (w ++ rest) b a) →
  yields n w ls → yields n [Enter ty] ls.
Proof.
  intros He Hw c rest b a Hc Ha. destruct (Hw c rest b a Hc Ha) as (c' & a' & Hr & Hc' & Ha').
  exists c', a'. split_and!; [|done|done]. eapply reaches_trans; [|exact Hr]. apply reaches_step. simpl. by rewrite He.
Qed.

Lemma yields_leaf n ty l :
  (∀ s, enter ty s = push_built l s) → yields n [Enter ty] [l].
Proof.
  intros He c rest b a Hc Ha. exists c, a. split_and!; [|done|done]. apply reaches_step. simpl. by rewrite He.
Qed.

(** A nominal type: cached, missing, or expanded at the depth below. *)
Lemma yields_node n nd fb e l :
  ref_layout c0 (S n) (node_ty nd) = Some l → ref_layout c0 n (node_ty nd) = None →
  (∀ c rest b a, consistent c0 c → enter (node_ty nd) (state c rest b a) = enter_node nd fb e (state c rest b a)) →
  (e = None → l = fb) →
  (∀ w, e = Some w → ∃ w' i ls, w = w' ++ [i] ∧ yields n w' ls ∧
     ∀ c rest b a, step i (state c rest (rev ls ++ b) a) =
                   Ret (finish nd l b (state c rest (rev ls ++ b) a))) →
  yields (S n) [Enter (node_ty nd)] [l].
Proof.
  intros Hl Hn He Hfb Hw c rest b a Hc Ha. simpl.
  assert (reaches (state c (Enter (node_ty nd) :: rest) b a) (enter_node nd fb e (state c rest b a))) as Hr.
  { apply reaches_step. simpl. by rewrite He. }
  unfold enter_node in Hr. simpl in Hr. destruct (cache_get c nd) as [l'|] eqn:Hg.
  { destruct (con_cached _ _ Hc _ _ Hg) as [k Hk]. rewrite (ref_layout_det _ _ _ _ _ _ Hk Hl) in Hr. by exists c, a. }
  destruct (is_active a nd) eqn:Hact; [by rewrite (Ha _ Hact) in Hl|].
  destruct e as [w|].
  2: { rewrite <-Hfb in Hr by done. exists c, (deactivate nd (activate nd a)). split_and!; [done|done|]. intros m.
       rewrite is_active_deactivate, is_active_activate. destruct (decide (m = nd)) as [ -> |].
       - rewrite Hact. by rewrite bool_decide_eq_false_2 by naive_solver.
       - rewrite (bool_decide_eq_false_2 (m = nd)), bool_decide_eq_true_2 by done. done. }
  destruct (Hw w eq_refl) as (w' & i & ls & -> & Hw' & Hi).
  destruct (Hw' c (i :: rest) b (activate nd a) Hc) as (c' & a' & Hr' & Hc' & Ha').
  { intros m. rewrite is_active_activate. intros [Hm|Hm]%orb_true_iff.
    - apply bool_decide_eq_true in Hm as ->. done.
    - destruct (ref_layout c0 n (node_ty m)) as [l'|] eqn:Hm'; [|done]. apply ref_layout_S in Hm'. by rewrite (Ha _ Hm) in Hm'. }
  exists (cache_insert nd l c'), (deactivate nd a'). split_and!.
  - eapply reaches_trans; [exact Hr|]. unfold push_work, set_active. simpl. rewrite <-app_assoc.
    eapply reaches_trans; [exact Hr'|]. apply reaches_step. by rewrite Hi.
  - split; [exact (con_tables _ _ Hc')|]. intros m l'. rewrite cache_get_insert. case_decide as Hm; [|apply Hc'].
    intros [= <-]. subst m. eauto.
  - intros m. rewrite is_active_deactivate, Ha', is_active_activate. destruct (decide (m = nd)) as [ -> |].
    + rewrite Hact. by rewrite bool_decide_eq_false_2 by naive_solver.
    + rewrite (bool_decide_eq_false_2 (m = nd)), bool_decide_eq_true_2 by done. done.
Qed.

Lemma yields_S n w ls : yields n w ls → yields (S n) w ls.
Proof.
  intros H c rest b a Hc Ha. apply H; [done|]. intros m Hm. destruct (ref_layout c0 n (node_ty m)) eqn:Hn; [|done].
  apply ref_layout_S in Hn. by rewrite Ha in Hn.
Qed.

Lemma widest_variant_max vs ls lss m :
  vs = map length lss →
  widest_variant vs (ls ++ concat lss) (length ls) m = Ret (foldl lay_max m (map aggregate_layout lss)).
Proof.
  intros ->. revert ls m. induction lss as [|l lss IH]; intros ls m; [done|]. simpl.
  rewrite slice_res_ok by (rewrite ?length_app; lia). cbn [res_bind].
  assert (slice (length ls) (length ls + length l) (ls ++ l ++ concat lss) = l) as ->.
  { unfold slice. rewrite drop_app_length. replace (length ls + length l - length ls)%nat with (length l) by lia.
    by rewrite take_app_length. }
  rewrite <-length_app, app_assoc, IH. f_equal. f_equal. unfold lay_max.
  f_equal; destruct (Z.ltb_spec (m.1) ((aggregate_layout l).1)), (Z.ltb_spec (m.2) ((aggregate_layout l).2)); lia.
Qed.

Lemma mapM_variants (f : Scalar → option lay) vs ls :
  mapM (λ v, aggregate_layout <$> mapM f (payload v)) vs = Some ls →
  ∃ lss, ls = map aggregate_layout lss ∧ map length lss = map (λ v, length (payload v)) vs ∧
         mapM f (concat (map payload vs)) = Some (concat lss).
Proof.
  rewrite mapM_Some. induction 1 as [|v l vs ls Hv _ (lss & -> & Hlen & Hm)]; [by exists []|].
  apply fmap_Some in Hv as (ps & Hps & ->). exists (ps :: lss). simpl. split_and!; [done| |].
  - f_equal; [|done]. symmetry. by eapply length_mapM.
  - rewrite mapM_Some in Hps, Hm |- *. by apply Forall2_app.
Qed.

Lemma drain_rev (ls : list lay) b k : k = length ls → drain k (rev ls ++ b) = (ls, b).
Proof.
  intros ->. unfold drain. rewrite <-(length_rev ls), take_app_length, drop_app_length. by rewrite rev_involutive.
Qed.

Lemma get_tables c : consistent c0 c → structs c = structs c0 ∧ tuples c = tuples c0 ∧ enums c = enums c0 ∧
  tagged_types c = tagged_types c0.
Proof. by intros [H _]. Qed.

(** The types whose layout is fixed. *)
Definition is_leaf (ty : Ty) : bool :=
  match ty with
  | Ty.Array _ _ | Ty.StructArray _ _ | Ty.Option _ | Ty.Result _ _ | Ty.Tagged _ | Ty.Tuple _ | Ty.Struct _ | Ty.Enum _ => false
  | _ => true
  end.

Lemma enter_leaf ty s : is_leaf ty = true → enter ty s = push_built (leaf_layout ty) s.
Proof.
  unfold enter, leaf_layout.
  destruct ty; intros H; try discriminate H;
    match goal with |- context [is_move_handle ?t] => destruct (is_move_handle t) | _ => idtac end; reflexivity.
Qed.

Lemma ref_body_leaf f ty : is_leaf ty = true → ref_body c0 f ty = Some (leaf_layout ty).
Proof. destruct ty; intros H; try discriminate H; reflexivity. Qed.

Lemma yields_ref n ty l : ref_layout c0 n ty = Some l → yields n [Enter ty] [l].
Proof.
  revert ty l. induction n as [|n IH]; intros ty l; [done|]. intros Hl.
  destruct (ref_layout c0 n ty) as [l'|] eqn:Hn.
  { rewrite (ref_layout_det _ _ _ _ _ _ Hl Hn). apply yields_S, IH, Hn. }
  assert (∀ t y f i, ref_layout c0 n t = Some y →
    (∀ c rest b a, step i (state c rest (rev [y] ++ b) a) = Ret (state c rest (f y :: b) a)) →
    yields (S n) [Enter t; i] [f y]) as Hwrap.
  { intros t y f i Hy Hi. apply yields_S, (yields_exit n [Enter t] [y]); [by apply IH|done]. }
  pose proof Hl as Hb. rewrite ref_layout_succ in Hb.
  destruct (is_leaf ty) eqn:Hleaf.
  { rewrite ref_body_leaf in Hb by done. injection Hb as <-. apply yields_leaf. intros st. by apply enter_leaf. }
  destruct ty; try discriminate Hleaf; cbn [ref_body] in Hb.
  - apply fmap_Some in Hb as (y & Hy & ->). eapply yields_enter; [done|]. by apply Hwrap.
  - apply bind_Some in Hb as (o & Ho & Hb). apply bind_Some in Hb as (e & He & [= <-]).
    eapply yields_enter; [done|].
    apply yields_S, (yields_exit n [_; _] [o; e]); [by apply (yields_app n [_] [_] [_]); apply IH|]. by destruct o, e.
  - apply (yields_node n (NTagged n0) (0, 1)
      ((λ _, [Enter (expand_tagged_ty (Ty.Tagged n0) (tagged_types c0)); ExitTagged n0]) <$> get (tagged_types c0) n0)); [done|done| | |].
    + intros c rest b a (_ & _ & _ & Hc)%get_tables. unfold enter, node_ty, state. cbn [cache]. by rewrite Hc.
    + intros He%fmap_None. rewrite He in Hb. by injection Hb as <-.
    + intros w (d & Hd & ->)%fmap_Some. exists [Enter (expand_tagged_ty (Ty.Tagged n0) (tagged_types c0))], (ExitTagged n0), [l].
      split_and!; [done| |done]. apply IH. rewrite Hd in Hb. unfold expand_tagged_ty. rewrite Hd. by destruct d.
  - destruct s; try (apply fmap_Some in Hb as (y & Hy & ->); eapply yields_enter; [done|]; by apply Hwrap; [exact Hy|destruct y]).
    injection Hb as <-. intros c rest b a Hc Ha. exists c, a. split_and!; [|done|done].
    eapply reaches_trans; [by apply reaches_step|]. by apply reaches_step.
  - apply fmap_Some in Hb as (y & Hy & ->). eapply yields_enter; [done|]. apply Hwrap; [done|]. by destruct y.
  - apply (yields_node n (NStruct n0) (0, 1)
      ((λ d, map (λ f, Enter (fd_ty f)) (sd_fields d) ++
             [ExitStruct n0 (length (sd_fields d)) (sd_c_repr d) (sd_align d)]) <$> get (structs c0) n0)); [done|done| | |].
    + intros c rest b a (Hc & _)%get_tables. unfold enter, node_ty, state. cbn [cache]. by rewrite Hc.
    + intros He%fmap_None. rewrite He in Hb. by injection Hb as <-.
    + intros w (d & Hd & ->)%fmap_Some. rewrite Hd in Hb. apply fmap_Some in Hb as (ls & Hls & ->).
      do 2 eexists. exists ls. split_and!; [done|by apply yields_list; [intros; apply IH|]|].
      intros c rest b a. unfold step. cbn [built state]. by rewrite drain_rev by (by eapply length_mapM).
  - apply (yields_node n (NTuple n0) (0, 1)
      ((λ d, enter_scalars (elems d) ++ [ExitTuple n0 (length (elems d))]) <$> get (tuples c0) n0)); [done|done| | |].
    + intros c rest b a (_ & Hc & _)%get_tables. unfold enter, node_ty, state. cbn [cache]. by rewrite Hc.
    + intros He%fmap_None. rewrite He in Hb. by injection Hb as <-.
    + intros w (d & Hd & ->)%fmap_Some. rewrite Hd in Hb. apply fmap_Some in Hb as (ls & Hls & ->).
      do 2 eexists. exists ls. split_and!; [done|by apply yields_list; [intros; apply IH|]|].
      intros c rest b a. unfold step. cbn [built state]. by rewrite drain_rev by (by eapply length_mapM).
  - apply (yields_node n (NEnum n0) (4, 4)
      ((λ d, enter_scalars (concat (map payload (variants d))) ++
             [ExitEnum n0 (map (λ v, length (payload v)) (variants d))]) <$> get (enums c0) n0)); [done|done| | |].
    + intros c rest b a (_ & _ & Hc & _)%get_tables. unfold enter, node_ty, state. cbn [cache]. by rewrite Hc.
    + intros He%fmap_None. rewrite He in Hb. by injection Hb as <-.
    + intros w (d & Hd & ->)%fmap_Some. rewrite Hd in Hb. apply bind_Some in Hb as (ls & Hls & [= <-]).
      apply mapM_variants in Hls as (lss & -> & Hlen & Hm).
      do 2 eexists. exists (concat lss). split_and!; [done|by apply yields_list; [intros; apply IH|]|].
      intros c rest b a. unfold step. cbn [built state]. rewrite drain_rev.
      2: { rewrite <-length_concat_payload. by eapply length_mapM. }
      unfold enum_layout. by rewrite (widest_variant_max _ [] lss) by done.
Qed.
End Simulation.

Lemma run_more fuel more s r : run fuel s = Ret r → run (fuel + more) s = Ret r.
Proof.
  revert s. induction fuel as [|fuel IH]; intros s; simpl; [done|]. destruct (work s) as [|i w]; [done|].
  intros (s' & Hs & Hr)%res_bind_Ret_inv. rewrite Hs. by apply IH.
Qed.

(** One query on a consistent cache. *)
Lemma layout_step c0 c ty n l :
  consistent c0 c → ref_layout c0 n ty = Some l → ∃ c', layout c ty = Ret (l, c') ∧ consistent c0 c'.
Proof.
  intros Hc Hl.
  destruct (yields_ref c0 n ty l Hl c [] [] no_active Hc) as (c' & a' & [k Hk] & Hc' & _).
  { intros m. by destruct m. }
  specialize (Hk 1%nat). simpl in Hk.
  assert (∃ r, layout c ty = Ret r) as [r Hr].
  { destruct (run_total (layout_fuel c) (state c [Enter ty] [] no_active)) as (l' & c2 & Hr & _); [done| |by exists (l', c2)].
    apply layout_potential. }
  pose proof (run_more _ (k + 1) _ _ Hr) as H1. pose proof (run_more _ (layout_fuel c) _ _ Hk) as H2.
  rewrite Nat.add_comm in H1. unfold state in H2. rewrite H2 in H1. injection H1 as <-. by exists c'.
Qed.

Lemma consistent_new ss tt es gs : consistent (new_cache ss tt es gs) (new_cache ss tt es gs).
Proof. split; [done|]. intros [] l; simpl; by rewrite lookup_empty. Qed.

(** A run of queries that share one cache, as code generation makes them. *)
Fixpoint layout_all (c : TypeLayoutCache) (tys : list Ty) : res (list lay) :=
  match tys with
  | [] => Ret []
  | ty :: tys => let* r := layout c ty in let* ls := layout_all r.2 tys in Ret (r.1 :: ls)
  end.

Lemma layout_all_ref c0 n c tys ls :
  consistent c0 c → mapM (ref_layout c0 n) tys = Some ls → layout_all c tys = Ret ls.
Proof.
  rewrite mapM_Some. intros Hc Hls. revert c Hc. induction Hls as [|ty l tys ls Hl _ IH]; intros c Hc; [done|]. simpl.
  destruct (layout_step c0 c ty n l Hc Hl) as (c' & -> & Hc'). cbn [res_bind snd fst]. by rewrite (IH c' Hc').
Qed.

(** C5. The memoized traversal implements the recursive layout: for any sequence of
    types whose expansion is finite, the queries made one after another on one
    shared cache return exactly the layouts of the plain recursion, whatever the
    earlier queries left in the cache. *)
Theorem layout_refines_recursion :
  ∀ ss tt es gs n tys ls,
    mapM (ref_layout (new_cache ss tt es gs) n) tys = Some ls → layout_all (new_cache ss tt es gs) tys = Ret ls.
Proof. intros. eapply layout_all_ref; [apply consistent_new|done]. Qed.

Definition demo_structs : list StructDef :=
  [ {| sd_name := str "Item"; sd_source_name := str "Item"; sd_align := None; sd_c_repr := false;
       sd_fields := [ {| fd_name := str "flag"; fd_ty := Ty.Bool |}; {| fd_name := str "name"; fd_ty := Ty.String |};
                      {| fd_name := str "code"; fd_ty := Ty.Char |} ] |};
    {| sd_name := str "Batch"; sd_source_name := str "Batch"; sd_align := Some 64; sd_c_repr := true;
       sd_fields := [ {| fd_name := str "items"; fd_ty := Ty.StructArray 0 3 |};
                      {| fd_name := str "next"; fd_ty := Ty.Tagged 0 |} ] |} ].

Lemma layout_refines_recursion_witness :
  layout_all (new_cache demo_structs [] [] [TaggedType.Option (Scalar.Struct 0)])
    [Ty.Struct 1; Ty.Struct 0; Ty.Option (Scalar.Struct 1)] = Ret [(128, 8); (24, 8); (136, 8)].
Proof. apply (layout_refines_recursion _ _ _ _ 8). vm_compute. reflexivity. Defined.
