(* ===== verification/LayoutBounds.v ===== *)
(** * Alignment, padding and saturation of layouts

    The arithmetic of [align_up] on [u64], the invariant of every layout the
    traversal builds, and the size of a reordered struct. *)
From Stdlib Require Import ZArith Lia Sorted.
From stdpp Require Import gmap.
From S2P Require Import Prelude Types TypeLayout LayoutSpec.
Local Open Scope Z_scope.

(** ** [align_up] *)
Lemma testbit_high x i : 0 ≤ i → 0 ≤ x < 2 ^ i → Z.testbit x i = false.
Proof. intros Hi Hx. rewrite <-(Z.mod_small x (2 ^ i)) by lia. apply Z.mod_pow2_bits_high. lia. Qed.

Lemma low_bits_clear x k :
  0 ≤ x ≤ U64_MAX → 0 ≤ k < 64 → Z.land x (not64 (2 ^ k - 1)) = 2 ^ k * (x / 2 ^ k).
Proof.
  intros Hx Hk. replace (2 ^ k * (x / 2 ^ k)) with (Z.shiftl (Z.shiftr x k) k).
  2: { rewrite Z.shiftl_mul_pow2, Z.shiftr_div_pow2 by lia. ring. }
  apply Z.bits_inj'. intros i Hi. unfold not64, U64_MAX in *. rewrite Z.land_spec, Z.lxor_spec.
  replace (2 ^ k - 1) with (Z.ones k) by (rewrite Z.ones_equiv; lia).
  change (2 ^ 64 - 1) with (Z.ones 64). rewrite Z.shiftl_spec by lia.
  destruct (Z.lt_ge_cases i 64) as [H64|H64].
  - rewrite (Z.ones_spec_low 64) by lia. destruct (Z.lt_ge_cases i k) as [Hik|Hik].
    + rewrite Z.ones_spec_low, (Z.testbit_neg_r _ (i - k)) by lia. by rewrite andb_false_r.
    + rewrite Z.ones_spec_high, Z.shiftr_spec by lia. rewrite andb_true_r. f_equal. lia.
  - assert (x < 2 ^ i) by (apply Z.lt_le_trans with (2 ^ 64); [lia|apply Z.pow_le_mono_r; lia]).
    rewrite Z.shiftr_spec by lia. replace (i - k + k) with i by lia. by rewrite testbit_high by lia.
Qed.

(** Rounding up to a power of two: to the next multiple, or to the top of the range. *)
Lemma align_up_pow2 n k :
  0 ≤ n ≤ U64_MAX → 0 ≤ k < 64 →
  (n + 2 ^ k - 1 ≤ U64_MAX ∧ n ≤ align_up n (2 ^ k) < n + 2 ^ k ∧ (2 ^ k | align_up n (2 ^ k))) ∨
  (U64_MAX < n + 2 ^ k - 1 ∧ align_up n (2 ^ k) = U64_MAX).
Proof.
  intros Hn Hk. assert (0 < 2 ^ k) by (apply Z.pow_pos_nonneg; lia). unfold align_up, checked_add.
  destruct (Z.leb_spec (2 ^ k) 1).
  { left. replace (2 ^ k) with 1 by lia. split_and!; try lia. apply Z.divide_1_l. }
  case_if; b2p; [left|right; split; [lia|done]]. rewrite low_bits_clear by lia.
  pose proof (Z.div_mod (n + (2 ^ k - 1)) (2 ^ k)). pose proof (Z.mod_pos_bound (n + (2 ^ k - 1)) (2 ^ k)).
  split_and!; try lia. apply Z.divide_factor_l.
Qed.

(** ** Well-formed layouts *)
Definition pow2 (a : Z) : Prop := ∃ k, 0 ≤ k < 64 ∧ a = 2 ^ k.
(** The natural alignments. *)
Definition natural (a : Z) : Prop := a = 1 ∨ a = 2 ∨ a = 4 ∨ a = 8.
Definition in_u64 (n : Z) : Prop := 0 ≤ n ≤ U64_MAX.

(** A size that is a multiple of the alignment, or that has saturated. *)
Record lay_ok (l : lay) : Prop := {
  lo_align : natural l.2;
  lo_size : in_u64 l.1;
  lo_multiple : (l.2 | l.1) ∨ l.1 = U64_MAX
}.

Lemma natural_pow2 a : natural a → pow2 a.
Proof. intros [ -> |[ -> |[ -> | -> ]]]; [exists 0|exists 1|exists 2|exists 3]; lia. Qed.

Lemma natural_max a b : natural a → natural b → natural (Z.max a b).
Proof. unfold natural. lia. Qed.

Lemma natural_divide a b : natural a → pow2 b → a ≤ b → (a | b).
Proof.
  intros Ha (k & Hk & ->) Hle.
  assert (∀ j, 0 ≤ j → 2 ^ j ≤ 2 ^ k → (2 ^ j | 2 ^ k)) as H.
  { intros j Hj Hjk. assert (j ≤ k) by (destruct (Z.le_gt_cases j k); [done|]; pose proof (Z.pow_lt_mono_r 2 k j); lia).
    exists (2 ^ (k - j)). rewrite <-Z.pow_add_r by lia. f_equal. lia. }
  destruct Ha as [ -> |[ -> |[ -> | -> ]]]; [apply (H 0)|apply (H 1)|apply (H 2)|apply (H 3)]; simpl; lia.
Qed.

Lemma align_up_ok n a : in_u64 n → pow2 a →
  in_u64 (align_up n a) ∧ n ≤ align_up n a ∧ ((a | align_up n a) ∨ align_up n a = U64_MAX).
Proof.
  intros Hn (k & Hk & ->). assert (0 < 2 ^ k) by (apply Z.pow_pos_nonneg; lia). unfold in_u64 in *.
  destruct (align_up_pow2 n k) as [(? & ? & ?)|[? ->]]; try done; split_and!; try lia; auto.
Qed.

(** A running layout of fields: not rounded yet. *)
Definition partial_ok (l : lay) : Prop := natural l.2 ∧ in_u64 l.1.

Lemma lay_ok_partial l : lay_ok l → partial_ok l.
Proof. by intros [? ? _]. Qed.

Lemma place_lay_ok acc f : partial_ok acc → partial_ok f → partial_ok (place acc f).
Proof.
  destruct acc as [s a], f as [fs fa]. intros [Ha Hs] [Hfa Hfs]. simpl in *.
  assert (Z.max fa 1 = fa) as -> by (unfold natural in Hfa; lia).
  destruct (align_up_ok s fa Hs (natural_pow2 _ Hfa)) as ((? & ?) & ? & _).
  split; simpl; [by apply natural_max|]. unfold in_u64, saturating_add in *. lia.
Qed.

Lemma round_ok size align a : partial_ok (size, align) → pow2 a → align ≤ a → lay_ok (align_up size a, align).
Proof.
  intros [Hal Hs] Ha Hle. simpl in *. destruct (align_up_ok size a Hs Ha) as (Hr & _ & Hm). split; simpl; [done|done|].
  destruct Hm as [Hm| -> ]; [left|by right]. etrans; [|exact Hm]. by apply natural_divide.
Qed.

Lemma foldl_place_ok (f : lay → lay → lay) acc ls :
  (∀ a l, partial_ok a → partial_ok l → partial_ok (f a l)) → partial_ok acc → Forall partial_ok ls →
  partial_ok (foldl f acc ls).
Proof. intros Hf Ha Hls. revert acc Ha. induction Hls as [|l ls Hl _ IH]; simpl; auto. Qed.

Lemma partial_start : partial_ok (0, 1).
Proof. split; simpl; unfold natural, in_u64, U64_MAX; lia. Qed.

Lemma aggregate_layout_ok ls : Forall partial_ok ls → lay_ok (aggregate_layout ls).
Proof.
  intros Hls. unfold aggregate_layout.
  destruct (foldl _ (0, 1) ls) as [size align] eqn:Hf.
  assert (partial_ok (size, align)) as Hp.
  { rewrite <-Hf. apply foldl_place_ok; [|apply partial_start|done]. intros a l Ha Hl. case_if; [done|by apply place_lay_ok]. }
  apply round_ok; [done|apply natural_pow2; apply Hp|lia].
Qed.

Lemma tagged_union_layout_ok tag p : lay_ok tag → partial_ok p → lay_ok (tagged_union_layout tag p).
Proof.
  intros Ht [Ha Hs]. unfold tagged_union_layout. case_if; [done|]. destruct Ht as [Hta Hts _].
  assert (Z.max p.2 1 = p.2) as -> by (unfold natural in Ha; lia).
  destruct (align_up_ok tag.1 p.2 Hts (natural_pow2 _ Ha)) as (Hr & _ & _). pose proof (natural_max _ _ Hta Ha) as Hm.
  apply round_ok; [|by apply natural_pow2|lia]. split; simpl; [done|]. unfold in_u64, saturating_add in *. lia.
Qed.

Lemma sort_by_align_perm ls : sort_by_align ls ≡ₚ ls.
Proof.
  induction ls as [|x ls IH]; simpl; [done|]. transitivity (x :: sort_by_align ls); [|by rewrite IH].
  generalize (sort_by_align ls) as l. clear. induction l as [|y l IH]; simpl; [done|]. case_if; [done|].
  rewrite IH. constructor.
Qed.

Lemma struct_layout_ok c_repr over ls :
  Forall partial_ok ls → (∀ v, over = Some v → pow2 v) → lay_ok (struct_layout c_repr over ls).
Proof.
  intros Hls Hover. unfold struct_layout.
  assert (Forall partial_ok (if c_repr then ls else sort_by_align ls)) as Hs.
  { destruct c_repr; [done|]. by rewrite sort_by_align_perm. }
  destruct (foldl place (0, 1) _) as [size align] eqn:Hf.
  assert (partial_ok (size, align)) as Hp by (rewrite <-Hf; by apply foldl_place_ok; [apply place_lay_ok|apply partial_start|]).
  assert (pow2 align) by (apply natural_pow2, Hp).
  apply round_ok; [done| |destruct over; lia]. destruct over as [v|]; [|done].
  destruct (Z.max_spec align v) as [[_ -> ]|[_ -> ]]; auto.
Qed.

Lemma array_layout_ok len l : lay_ok l → lay_ok (array_layout len l).
Proof.
  intros [Ha [H0 Hs] Hm]. unfold array_layout, saturating_mul. assert (0 ≤ l.1 * Z.of_N len) by nia.
  split; simpl; [done|unfold in_u64, U64_MAX in *; lia|].
  destruct (Z.min_spec (l.1 * Z.of_N len) U64_MAX) as [[Hlt -> ]|[_ -> ]]; [|by right].
  destruct Hm as [Hm|Hm]; [left; by apply Z.divide_mul_l|]. rewrite Hm in *. left.
  assert (Z.of_N len = 0) as -> by (unfold U64_MAX in *; nia). rewrite Z.mul_0_r. apply Z.divide_0_r.
Qed.

(** ** Every layout of a checked program

    The widths the language has, and the alignments its attribute admits (the
    parser lets only powers of two through). *)
Definition width_ok (bits : Z) : Prop := bits = 8 ∨ bits = 16 ∨ bits = 32 ∨ bits = 64.
Definition scalar_ok (s : Scalar) : Prop :=
  match s with Scalar.Int it => width_ok (it_bits it) | Scalar.Float ft => width_ok (ft_bits ft) | _ => True end.
Definition ty_ok (ty : Ty) : Prop :=
  match ty with
  | Ty.Int it => width_ok (it_bits it)
  | Ty.Float ft => width_ok (ft_bits ft)
  | Ty.Option p | Ty.Array p _ => scalar_ok p
  | Ty.Result ok err => scalar_ok ok ∧ scalar_ok err
  | _ => True
  end.

Record tables_ok (c : TypeLayoutCache) : Prop := {
  to_structs : Forall (λ d, Forall (λ f, ty_ok (fd_ty f)) (sd_fields d) ∧
                            ∀ v, sd_align d = Some v → pow2 v) (structs c);
  to_tuples : Forall (λ d, Forall scalar_ok (elems d)) (tuples c);
  to_enums : Forall (λ d, Forall (λ v, Forall scalar_ok (payload v)) (variants d)) (enums c);
  to_tagged : Forall (λ g, match g with
                           | TaggedType.Option p => scalar_ok p
                           | TaggedType.Result ok err => scalar_ok ok ∧ scalar_ok err
                           end) (tagged_types c)
}.

Definition cache_ok (c : TypeLayoutCache) : Prop := tables_ok c ∧ ∀ n l, cache_get c n = Some l → lay_ok l.

Definition item_ok (i : Work) : Prop :=
  match i with
  | Enter ty => ty_ok ty
  | ExitStruct _ _ _ over => ∀ v, over = Some v → pow2 v
  | _ => True
  end.

Record traversal_ok (s : Traversal) : Prop := {
  tr_cache : cache_ok (cache s);
  tr_work : Forall item_ok (work s);
  tr_built : Forall lay_ok (built s)
}.

Lemma scalar_to_ty_ok p : scalar_ok p → ty_ok (scalar_to_ty p).
Proof. by destruct p. Qed.

Lemma enter_scalars_ok l : Forall scalar_ok l → Forall item_ok (enter_scalars l).
Proof. intros H. apply Forall_map. eapply Forall_impl; [exact H|]. intros p. apply scalar_to_ty_ok. Qed.

(** Layouts written out in the source. *)
Lemma lay_ok_fixed size align :
  natural align → in_u64 size → size mod align = 0 → lay_ok (size, align).
Proof. intros Ha Hs Hm. split; simpl; [done|done|]. left. apply Z.mod_divide; [unfold natural in Ha; lia|done]. Qed.

Ltac fixed_layout := apply lay_ok_fixed; unfold natural, in_u64, U64_MAX; first [done|lia].

Lemma leaf_layout_ok ty : ty_ok ty → lay_ok (leaf_layout ty).
Proof.
  assert (∀ bits, width_ok bits → lay_ok (Z.max (bits / 8) 1, Z.max (bits / 8) 1)) as Hw.
  { intros bits [ -> |[ -> |[ -> | -> ]]]; apply lay_ok_fixed; vm_compute; try done; auto; by intuition. }
  intros Hty. unfold leaf_layout. destruct ty; try (by apply Hw);
    try (match goal with |- context [is_move_handle ?t] => destruct (is_move_handle t) end); fixed_layout.
Qed.

Lemma pop_built_ok b : Forall lay_ok b → lay_ok (pop_built b).1 ∧ Forall lay_ok (pop_built b).2.
Proof.
  intros H. destruct b as [|l b]; simpl; [split; [fixed_layout|done]|]. by apply Forall_cons in H.
Qed.

Lemma drain_ok n b : Forall lay_ok b → Forall partial_ok (drain n b).1 ∧ Forall lay_ok (drain n b).2.
Proof.
  intros H. simpl. split; [|by apply Forall_drop]. apply Forall_rev, Forall_take.
  eapply Forall_impl; [exact H|apply lay_ok_partial].
Qed.

Lemma widest_variant_ok vs ls cursor m l :
  Forall partial_ok ls → partial_ok m → widest_variant vs ls cursor m = Ret l → partial_ok l.
Proof.
  intros Hls. revert cursor m. induction vs as [|v vs IH]; intros cursor m Hm; simpl; [by intros [= <-]|].
  unfold slice_res. case_if; [|done]. cbn [res_bind]. apply IH.
  assert (lay_ok (aggregate_layout (slice cursor (cursor + v) ls))) as [Ha Hs _].
  { apply aggregate_layout_ok. unfold slice. by apply Forall_take, Forall_drop. }
  destruct Hm. split; simpl; case_if; done.
Qed.

Lemma cache_insert_ok n l c : cache_ok c → lay_ok l → cache_ok (cache_insert n l c).
Proof.
  intros [[] Hc] Hl. split; [done|]. intros m l'. rewrite cache_get_insert. case_decide; [by intros [= <-]|apply Hc].
Qed.

Lemma finish_ok n l b s :
  traversal_ok s → lay_ok l → Forall lay_ok b → traversal_ok (finish n l b s).
Proof. intros [Hc Hw Hb] Hl Hr. split; simpl; [by apply cache_insert_ok|done|by constructor]. Qed.

Lemma push_built_ok l s : traversal_ok s → lay_ok l → traversal_ok (push_built l s).
Proof. intros [Hc Hw Hb] Hl. split; simpl; [done|done|by constructor]. Qed.

Lemma push_work_ok w s : traversal_ok s → Forall item_ok w → traversal_ok (push_work w s).
Proof. intros [Hc Hw Hb] Hl. split; simpl; [done|by apply Forall_app|done]. Qed.

Lemma enter_node_ok n fb e s :
  traversal_ok s → lay_ok fb → (∀ w, e = Some w → Forall item_ok w) → traversal_ok (enter_node n fb e s).
Proof.
  intros Hs Hfb Hw. assert (∀ a, traversal_ok (set_active a s)) as Ha by (intros; by destruct Hs).
  destruct (enter_node_cases n fb e s) as [(l & -> & Hl)|[(_ & _ & ->)|(w & -> & _ & ->)]].
  - apply push_built_ok; [done|]. destruct Hl as [Hl| -> ]; [|done]. by eapply Hs.
  - by apply push_built_ok.
  - apply push_work_ok; auto.
Qed.

Lemma get_forall {A} (P : A → Prop) l id d : Forall P l → get l id = Some d → P d.
Proof. intros H Hd. eapply Forall_lookup_1; [exact H|exact Hd]. Qed.

Lemma enter_ok ty s : traversal_ok s → ty_ok ty → traversal_ok (enter ty s).
Proof.
  intros Hs Hty. destruct (is_leaf ty) eqn:Hleaf.
  { rewrite enter_leaf by done. by apply push_built_ok, leaf_layout_ok. }
  destruct (tr_cache _ Hs) as [[Hss Htt Hes Hgs] _].
  destruct ty; try discriminate Hleaf; unfold enter; simpl in Hty.
  - apply push_work_ok; [done|]. repeat constructor. by apply scalar_to_ty_ok.
  - apply push_work_ok; [done|]. destruct Hty. repeat constructor; by apply scalar_to_ty_ok.
  - apply enter_node_ok; [done|fixed_layout|]. intros w (d & Hd & ->)%fmap_Some.
    pose proof (get_forall _ _ _ _ Hgs Hd). repeat constructor. simpl. rewrite Hd. by destruct d.
  - destruct s0; try (apply push_work_ok; [done|]; constructor; [exact Hty|by repeat constructor]).
    apply push_built_ok; [apply push_work_ok; [done|by repeat constructor]|fixed_layout].
  - apply push_work_ok; [done|]. by repeat constructor.
  - apply enter_node_ok; [done|fixed_layout|]. intros w (d & Hd & ->)%fmap_Some.
    destruct (get_forall _ _ _ _ Hss Hd) as [Hf Ha]. apply Forall_app. split; [by apply Forall_map|by repeat constructor].
  - apply enter_node_ok; [done|fixed_layout|]. intros w (d & Hd & ->)%fmap_Some.
    pose proof (get_forall _ _ _ _ Htt Hd) as Hf. apply Forall_app. split; [by apply enter_scalars_ok|by repeat constructor].
  - apply enter_node_ok; [done|fixed_layout|]. intros w (d & Hd & ->)%fmap_Some.
    pose proof (get_forall _ _ _ _ Hes Hd) as Hf. apply Forall_app. split; [|by repeat constructor].
    apply enter_scalars_ok, Forall_concat, Forall_map. exact Hf.
Qed.

Lemma step_ok i s s' : traversal_ok s → item_ok i → step i s = Ret s' → traversal_ok s'.
Proof.
  intros Hs Hi. pose proof (tr_built _ Hs) as Hb. assert (∀ b, Forall lay_ok b → traversal_ok (set_built b s)) as Hset.
  { intros b ?. by destruct Hs. }
  destruct i as [ty|id k c_repr over|id k|id vs| | |id|len]; simpl; intros H.
  - injection H as <-. by apply enter_ok.
  - injection H as <-. destruct (drain_ok k _ Hb). apply finish_ok; [done|by apply struct_layout_ok|done].
  - injection H as <-. destruct (drain_ok k _ Hb). apply finish_ok; [done|by apply aggregate_layout_ok|done].
  - destruct (drain_ok (sum_list vs) _ Hb). unfold enum_layout in H. rewrite res_bind_assoc in H.
    apply res_bind_Ret_inv in H as (l & Hl & [= <-]). apply finish_ok; [done| |done].
    apply tagged_union_layout_ok; [fixed_layout|]. eapply widest_variant_ok; [done|apply partial_start|exact Hl].
  - destruct (pop_built_ok _ Hb) as [Hl Hr]. destruct (pop_built (built s)) as [l b]. injection H as <-.
    apply push_built_ok; [by apply Hset|]. apply tagged_union_layout_ok; [fixed_layout|by apply lay_ok_partial].
  - destruct (pop_built_ok _ Hb) as [He Hr]. destruct (pop_built (built s)) as [[es ea] b].
    destruct (pop_built_ok _ Hr) as [Ho Hr']. simpl in Ho, Hr'. destruct (pop_built b) as [[os oa] b']. injection H as <-.
    apply push_built_ok; [by apply Hset|]. apply tagged_union_layout_ok; [fixed_layout|]. destruct He, Ho.
    split; simpl in *; [by apply natural_max|unfold in_u64 in *; lia].
  - destruct (pop_built_ok _ Hb) as [Hl Hr]. destruct (pop_built (built s)) as [l b]. injection H as <-. by apply finish_ok.
  - destruct (pop_built_ok _ Hb) as [Hl Hr]. destruct (pop_built (built s)) as [[st al] b]. injection H as <-.
    apply push_built_ok; [by apply Hset|]. by apply (array_layout_ok len (st, al)).
Qed.

Lemma run_ok fuel s l c : traversal_ok s → run fuel s = Ret (l, c) → lay_ok l ∧ cache_ok c.
Proof.
  revert s. induction fuel as [|fuel IH]; intros s Hs; simpl; [done|]. destruct (work s) as [|i w] eqn:Hw.
  { intros [= <- <-]. split; [apply pop_built_ok, Hs|apply Hs]. }
  intros (s' & Hst & Hr)%res_bind_Ret_inv. apply (IH s'); [|done]. destruct Hs as [Hc Hwk Hb]. rewrite Hw in Hwk.
  apply Forall_cons in Hwk as [Hi Hwk]. eapply step_ok; [|exact Hi|exact Hst]. by split.
Qed.

(** C39. Every layout of a checked program is well formed: on tables with the
    language's widths and power-of-two over-alignments — cyclic or dangling ones
    included — the alignment is 1, 2, 4 or 8, and the size fits [u64] and is a
    multiple of the alignment, unless it has saturated at [u64::MAX]; and the
    cache keeps that property for the next query. *)
Theorem layout_well_formed :
  ∀ c ty, cache_ok c → ty_ok ty → ∃ l c', layout c ty = Ret (l, c') ∧ lay_ok l ∧ cache_ok c'.
Proof.
  intros c ty Hc Hty. destruct (run_total (layout_fuel c) (state c [Enter ty] [] no_active)) as (l & c' & Hr & _); [done| |].
  { by apply layout_potential. }
  exists l, c'. split; [done|]. eapply run_ok; [|exact Hr]. split; [done|by repeat constructor|done].
Qed.

Lemma layout_well_formed_witness :
  ∃ l c', layout (new_cache demo_structs [] [] [TaggedType.Option (Scalar.Struct 0)]) (Ty.Struct 1) = Ret (l, c') ∧
          lay_ok l ∧ cache_ok c'.
Proof.
  apply layout_well_formed; [|exact I]. split; [|intros [] l; simpl; by rewrite lookup_empty].
  split; simpl; repeat constructor; simpl; intros; simplify_eq. exists 6. lia.
Defined.

(** ** The order of fields *)
Definition total_size (ls : list lay) : Z := foldr (λ l n, l.1 + n) 0 ls.

Lemma total_size_perm l1 l2 : l1 ≡ₚ l2 → total_size l1 = total_size l2.
Proof. induction 1; simpl; lia. Qed.

Lemma total_size_nonneg ls : Forall partial_ok ls → 0 ≤ total_size ls.
Proof. induction 1 as [|l ls [_ [? _]] _ IH]; simpl; lia. Qed.

Lemma align_up_multiple n a : in_u64 n → pow2 a → (a | n) → align_up n a = n.
Proof.
  intros Hn (k & Hk & ->) [q Hq]. assert (0 < 2 ^ k) by (apply Z.pow_pos_nonneg; lia).
  assert (2 ^ 64 = 2 ^ k * 2 ^ (64 - k)) as H64 by (rewrite <-Z.pow_add_r by lia; f_equal; lia).
  destruct (align_up_pow2 n k Hn Hk) as [(? & ? & [r Hr])|[Hbig _]].
  - assert (q = r) by nia. congruence.
  - unfold in_u64, U64_MAX in *. set (p := 2 ^ k) in *. set (t := 2 ^ (64 - k)) in *. assert (q < t) by nia. nia.
Qed.

Lemma align_up_mono n m a : in_u64 n → in_u64 m → pow2 a → n ≤ m → align_up n a ≤ align_up m a.
Proof.
  intros Hn Hm (k & Hk & ->) Hnm. assert (0 < 2 ^ k) by (apply Z.pow_pos_nonneg; lia).
  destruct (align_up_pow2 n k Hn Hk) as [(? & ? & [q Hq])|[? Hq]],
    (align_up_pow2 m k Hm Hk) as [(? & ? & [r Hr])|[? Hr]]; unfold in_u64 in *; try lia.
  assert (q ≤ r) by nia. rewrite Hq, Hr. nia.
Qed.

(** Placing fields in any order takes at least the sum of their sizes. *)
Lemma place_lower acc ls :
  partial_ok acc → Forall partial_ok ls → Z.min (acc.1 + total_size ls) U64_MAX ≤ (foldl place acc ls).1.
Proof.
  intros Ha Hls. revert acc Ha. induction Hls as [|[fs fa] ls [Hfa Hfs] Hls IH]; intros [s a] Hp; simpl in *.
  { destruct Hp as [_ [? ?]]. simpl in *. lia. }
  etrans; [|apply (IH _ (place_lay_ok (s, a) (fs, fa) Hp (conj Hfa Hfs)))]. simpl.
  assert (Z.max fa 1 = fa) as -> by (unfold natural in Hfa; simpl in *; lia).
  destruct (align_up_ok s fa) as (_ & ? & _); [apply Hp|by apply natural_pow2|]. unfold saturating_add. pose proof (total_size_nonneg ls Hls). lia.
Qed.

Lemma place_align acc ls :
  partial_ok acc → Forall partial_ok ls → (foldl place acc ls).2 = foldr (λ l a, Z.max l.2 a) acc.2 ls.
Proof.
  intros Ha Hls. revert acc Ha. induction Hls as [|[fs fa] ls [Hfa Hfs] _ IH]; intros [s a] Hp; cbn [foldl foldr fst snd] in *; [done|].
  rewrite (IH _ (place_lay_ok (s, a) (fs, fa) Hp (conj Hfa Hfs))). simpl. assert (Z.max fa 1 = fa) as -> by (unfold natural in Hfa; simpl in *; lia).
  clear. induction ls as [|l ls IH]; simpl; lia.
Qed.

Lemma max_align_perm a l1 l2 : l1 ≡ₚ l2 → foldr (λ (l : lay) a, Z.max l.2 a) a l1 = foldr (λ l a, Z.max l.2 a) a l2.
Proof. induction 1; simpl; lia. Qed.

(** Widest alignment first. *)
Definition descending : list lay → Prop := StronglySorted (λ x y, y.2 ≤ x.2).

Lemma sort_by_align_descending ls : Forall lay_ok ls → descending (sort_by_align ls).
Proof.
  unfold descending. induction 1 as [|x ls Hx Hls IH]; simpl; [constructor|].
  assert (Forall lay_ok (sort_by_align ls)) as Hok by (by rewrite sort_by_align_perm).
  revert IH Hok. generalize (sort_by_align ls) as l. clear Hls. intros l Hs Hok. induction Hs as [|y l Hs IH Hy]; simpl.
  { by repeat constructor. }
  apply Forall_cons in Hok as [Hyok Hok]. specialize (IH Hok). destruct Hx as [Hx _ _], Hyok as [Hyok _ _]. unfold natural in *.
  case_if; b2p.
  - constructor; [by constructor|]. constructor; [lia|]. eapply Forall_impl; [exact Hy|]. simpl. intros. lia.
  - constructor; [done|]. clear IH Hs. induction l as [|z l IHl]; simpl; [constructor; [lia|done]|].
    apply Forall_cons in Hy as [Hz Hy], Hok as [Hzo Hok]. case_if; constructor; try done; try lia; [by constructor|auto].
Qed.

(** Fields placed widest alignment first leave no gap between them. *)
Lemma place_descending s a ls :
  descending ls → Forall lay_ok ls → 0 ≤ s → (∀ l, l ∈ ls → (l.2 | s)) → s + total_size ls < U64_MAX →
  (foldl place (s, a) ls).1 = s + total_size ls.
Proof.
  intros Hd Hok. revert s a. induction Hd as [|[fs fa] ls Hd IH Hf]; intros s a Hs Hm Ht; simpl in *; [lia|].
  apply Forall_cons in Hok as [[Hfa [Hfs _] Hmul] Hok]. simpl in *.
  assert (0 ≤ total_size ls) by (apply total_size_nonneg; eapply Forall_impl; [exact Hok|apply lay_ok_partial]).
  assert (fa | s) by (apply (Hm (fs, fa)); set_solver).
  assert (fa | fs) by (destruct Hmul; [done|lia]).
  assert (Z.max fa 1 = fa) as -> by (unfold natural in Hfa; lia).
  rewrite align_up_multiple; [|unfold in_u64; lia|by apply natural_pow2|done].
  unfold saturating_add. rewrite Z.min_l by lia. rewrite IH; [lia|done|lia| |lia].
  intros l Hl. apply Z.divide_add_r; [apply Hm; set_solver|].
  rewrite Forall_forall in Hf, Hok. etrans; [|exact (ltac:(eassumption) : (fa | fs))].
  apply natural_divide; [apply Hok, Hl|by apply natural_pow2|apply (Hf l Hl)].
Qed.

(** C38. Reordering the fields of a struct is optimal: the default layout, which
    places the widest alignment first, is never larger than the declaration-order
    layout of the same fields in any order, with the same alignment; and below
    saturation it has no gap between fields — its size is the sum of theirs,
    rounded up once at the end. *)
Theorem reordered_struct_minimal :
  ∀ over ls perm, Forall lay_ok ls → (∀ v, over = Some v → pow2 v) → perm ≡ₚ ls →
  (struct_layout false over ls).2 = (struct_layout true over perm).2 ∧
  (struct_layout false over ls).1 ≤ (struct_layout true over perm).1 ∧
  (total_size ls < U64_MAX →
   (struct_layout false over ls).1 =
     align_up (total_size ls) (Z.max (struct_layout false over ls).2 (default 1 over))).
Proof.
  intros over ls perm Hok Hover Hp.
  assert (Forall partial_ok ls) as Hpl by (eapply Forall_impl; [exact Hok|apply lay_ok_partial]).
  assert (Forall partial_ok perm) as Hpp by (by rewrite Hp).
  assert (Forall partial_ok (sort_by_align ls)) as Hps by (by rewrite sort_by_align_perm).
  pose proof (place_align _ _ partial_start Hpp) as Ha1. pose proof (place_align _ _ partial_start Hps) as Ha2.
  rewrite (max_align_perm _ _ _ Hp) in Ha1. rewrite (max_align_perm _ _ _ (sort_by_align_perm ls)) in Ha2.
  pose proof (place_lower _ _ partial_start Hpp) as Hlow. rewrite (total_size_perm _ _ Hp) in Hlow.
  pose proof (foldl_place_ok place _ _ place_lay_ok partial_start Hpp) as Ho1.
  pose proof (foldl_place_ok place _ _ place_lay_ok partial_start Hps) as Ho2.
  assert (total_size ls < U64_MAX → (foldl place (0, 1) (sort_by_align ls)).1 = total_size ls) as Hex.
  { intros Ht. rewrite <-(total_size_perm _ _ (sort_by_align_perm ls)) in Ht |- *.
    apply (place_descending 0); [by apply sort_by_align_descending|by rewrite sort_by_align_perm|lia| |lia].
    intros. apply Z.divide_0_r. }
  unfold struct_layout. destruct (foldl place (0, 1) perm) as [s1 a1], (foldl place (0, 1) (sort_by_align ls)) as [s2 a2].
  simpl in *. assert (a1 = a2) as -> by congruence. destruct Ho1 as [Hn1 Hs1], Ho2 as [Hn2 Hs2]. simpl in *.
  split_and!; [done| |].
  - apply align_up_mono; [done|done| |].
    + destruct over as [v|]; [|by apply natural_pow2]. destruct (Z.max_spec a2 v) as [[_ -> ]|[_ -> ]]; [auto|by apply natural_pow2].
    + unfold in_u64 in *. destruct (Z.lt_ge_cases (total_size ls) U64_MAX) as [Ht|Ht]; [rewrite (Hex Ht); lia|lia].
  - intros Ht. rewrite (Hex Ht). f_equal. destruct over; simpl; [done|]. unfold natural in Hn2. lia.
Qed.

Lemma reordered_struct_minimal_witness :
  let ls := [(1, 1); (16, 8); (4, 4)] in
  (struct_layout false None ls).1 = 24 ∧ (struct_layout true None ls).1 = 32 ∧
  (struct_layout false None ls).1 ≤ (struct_layout true None ls).1.
Proof.
  split; [done|]. split; [done|].
  apply (reordered_struct_minimal None [(1, 1); (16, 8); (4, 4)] [(1, 1); (16, 8); (4, 4)]); [|done|done].
  repeat apply Forall_cons_2; try apply Forall_nil_2; fixed_layout.
Defined.
