(* ===== verification/KnownBits.v ===== *)
(** * Known bits and the lossy-conversion lint ([crates/align_sema/src/known_bits.rs], [lib.rs])

    The expression-local integer facts behind the lint on [as]: for each bit of a
    checked expression, whether it is known to be 0 or known to be 1.  Of the
    checked expression ([hir::Expr]) the model has the variants the analysis
    looks into; every other variant is [Other].  [Bits] are [u64] masks. *)
From Stdlib Require Import ZArith Lia.
From stdpp Require Import gmap.
From S2P Require Import Prelude Ast Types TypeLayout.
Local Open Scope Z_scope.

(** ** Checked expressions *)
Inductive HExpr : Type :=
  | MkHExpr (kind : HExprKind) (ty : Ty)
with HExprKind : Type :=
  | HK_Int (v : Z)
  | HK_Float (v : SpecFloat.spec_float)
  | HK_Unary (op : UnOp) (expr : HExpr)
  | HK_Cast (expr : HExpr)
  | HK_Binary (op : BinOp) (lhs rhs : HExpr)
  | HK_Other (tag : N).

Definition hkind (e : HExpr) : HExprKind := match e with MkHExpr k _ => k end.
Definition hty (e : HExpr) : Ty := match e with MkHExpr _ t => t end.

Record Bits := { zero : Z; one : Z }.
Definition no_bits : Bits := {| zero := 0; one := 0 |}.

Definition mask (bits : Z) : option Z :=
  if (bits =? 8) || (bits =? 16) || (bits =? 32) then Some (Z.shiftl 1 bits - 1)
  else if bits =? 64 then Some U64_MAX
  else None.

(** [u64::try_from], [u32::try_from] of an [i128]. *)
Definition try_u64 (v : Z) : option Z := if (0 <=? v) && (v <=? U64_MAX) then Some v else None.
Definition try_u32 (v : Z) : option Z := if (0 <=? v) && (v <=? U32_MAX) then Some v else None.
Definition checked_neg (v : Z) : option Z := if v =? I128_MIN then None else Some (- v).

(** All bits of a known value. *)
Definition literal_bits (v bits : Z) : Bits :=
  match try_u64 (v mod Z.shiftl 1 bits) with
  | Some low => {| zero := not64 low; one := low |}
  | None => no_bits
  end.

(** The shift arms. *)
Definition shl_bits (left : Bits) (shift : Z) : Bits :=
  {| zero := Z.lor (u64 (Z.shiftl (zero left) shift)) (Z.shiftl 1 shift - 1);
     one := u64 (Z.shiftl (one left) shift) |}.

Definition shr_bits (integer : IntTy) (value_mask : Z) (left : Bits) (shift : Z) : Bits :=
  let upper := Z.lxor value_mask (Z.shiftr value_mask shift) in
  let sign := Z.shiftl 1 (it_bits integer - 1) in
  {| zero := Z.lor (Z.shiftr (zero left) shift)
               (if negb (it_signed integer) || negb (Z.land (zero left) sign =? 0) then upper else 0);
     one := Z.lor (Z.shiftr (one left) shift)
              (if it_signed integer && negb (Z.land (one left) sign =? 0) then upper else 0) |}.

Definition shift_bits (op : BinOp) (integer : IntTy) (value_mask : Z) (left : Bits) (rhs : HExprKind) : Bits :=
  match rhs with
  | HK_Int amount =>
      match try_u32 amount with
      | Some shift =>
          if it_bits integer <=? shift then no_bits
          else match op with BO_Shl => shl_bits left shift | _ => shr_bits integer value_mask left shift end
      | None => no_bits
      end
  | _ => no_bits
  end.

Definition binary_bits (op : BinOp) (integer : IntTy) (value_mask : Z) (left right : Bits) (rhs : HExprKind) : Bits :=
  match op with
  | BO_BitAnd => {| zero := Z.lor (zero left) (zero right); one := Z.land (one left) (one right) |}
  | BO_BitOr => {| zero := Z.land (zero left) (zero right); one := Z.lor (one left) (one right) |}
  | BO_BitXor =>
      {| zero := Z.lor (Z.land (zero left) (zero right)) (Z.land (one left) (one right));
         one := Z.lor (Z.land (zero left) (one right)) (Z.land (one left) (zero right)) |}
  | BO_Shl | BO_Shr => shift_bits op integer value_mask left rhs
  | _ => no_bits
  end.

(** The [Cast] arm, from facts [bits] of a [source] value. *)
Definition cast_bits (integer source : IntTy) (value_mask source_mask : Z) (bits : Bits) : Bits :=
  if it_bits source <? it_bits integer then
    let upper := Z.lxor value_mask source_mask in
    let sign := Z.shiftl 1 (it_bits source - 1) in
    if negb (it_signed source) || negb (Z.land (zero bits) sign =? 0)
    then {| zero := Z.lor (zero bits) upper; one := one bits |}
    else if negb (Z.land (one bits) sign =? 0)
    then {| zero := zero bits; one := Z.lor (one bits) upper |}
    else bits
  else bits.

Fixpoint facts (expr : HExpr) (budget : nat) : Bits :=
  match hty expr with
  | Ty.Int integer =>
      match mask (it_bits integer) with
      | Some value_mask =>
          match budget with
          | O => no_bits
          | S budget =>
              let result :=
                match hkind expr with
                | HK_Int value => literal_bits value (it_bits integer)
                | HK_Unary UO_Neg inner =>
                    match hkind inner with
                    | HK_Int value =>
                        match checked_neg value with
                        | Some negative => literal_bits negative (it_bits integer)
                        | None => no_bits
                        end
                    | _ => no_bits
                    end
                | HK_Unary UO_BitNot inner =>
                    let bits := facts inner budget in {| zero := one bits; one := zero bits |}
                | HK_Binary op lhs rhs =>
                    if bool_decide (hty lhs = hty expr) && bool_decide (hty rhs = hty expr)
                    then binary_bits op integer value_mask (facts lhs budget) (facts rhs budget) (hkind rhs)
                    else no_bits
                | HK_Cast inner =>
                    match hty inner with
                    | Ty.Int source =>
                        match mask (it_bits source) with
                        | Some source_mask => cast_bits integer source value_mask source_mask (facts inner budget)
                        | None => no_bits
                        end
                    | _ => no_bits
                    end
                | _ => no_bits
                end in
              {| zero := Z.land (zero result) value_mask; one := Z.land (one result) value_mask |}
          end
      | None => no_bits
      end
  | _ => no_bits
  end.

(** The interval the facts leave to a value of [source]. *)
Definition bounds (source : IntTy) (source_mask : Z) (bits : Bits) : Z * Z :=
  let sign := Z.shiftl 1 (it_bits source - 1) in
  let maximum_bits := Z.land source_mask (not64 (zero bits)) in
  if negb (it_signed source) then (one bits, maximum_bits)
  else
    let signed value := value - (if negb (Z.land value sign =? 0) then Z.shiftl 1 (it_bits source) else 0) in
    let minimum := if negb (Z.land (zero bits) sign =? 0) then one bits else Z.lor (one bits) sign in
    let maximum := if negb (Z.land (one bits) sign =? 0) then maximum_bits else Z.land maximum_bits (not64 sign) in
    (signed minimum, signed maximum).

(** The range of an integer type. *)
Definition int_range (t : IntTy) : Z * Z :=
  if it_signed t then (- Z.shiftl 1 (it_bits t - 1), Z.shiftl 1 (it_bits t - 1) - 1)
  else (0, Z.shiftl 1 (it_bits t) - 1).

Definition lossless_integer_cast (expr : HExpr) (target : Ty) : bool :=
  match hty expr, target with
  | Ty.Int source, Ty.Int target =>
      match mask (it_bits source), mask (it_bits target) with
      | Some source_mask, Some _ =>
          let '(minimum, maximum) := bounds source source_mask (facts expr 48) in
          let '(low, high) := int_range target in
          (low <=? minimum) && (maximum <=? high)
      | _, _ => false
      end
  | _, _ => false
  end.

(** ** The lint ([cast_loss], [is_numeric_literal] and the [Cast] arm of [finalize_expr]) *)
Definition int_bits (t : Ty) : option Z :=
  match t with Ty.Int it => Some (it_bits it) | Ty.Char => Some 32 | _ => None end.
Definition float_bits (t : Ty) : option Z :=
  match t with Ty.Float ft => Some (ft_bits ft) | _ => None end.

Definition then_some (b : bool) (s : bytes) : option bytes := if b then Some s else None.

Definition cast_loss (from to : Ty) : option bytes :=
  match float_bits from, float_bits to with
  | Some fb, Some tb => then_some (tb <? fb) (str "narrows a float to fewer bits, which may lose precision")
  | Some _, None => Some (str "truncates the fractional part (out-of-range values saturate to MIN/MAX)")
  | None, Some tb =>
      match int_bits from with
      | Some fb =>
          let mantissa := if tb <=? 32 then 24 else 53 in
          then_some (mantissa <? fb)
            (str "the integer is wider than the float's mantissa, so large values lose precision")
      | None => None
      end
  | None, None =>
      match int_bits from, int_bits to with
      | Some fb, Some tb => then_some (tb <? fb) (str "truncates the high bits")
      | _, _ => None
      end
  end.

Fixpoint is_numeric_literal (e : HExpr) : bool :=
  match hkind e with
  | HK_Int _ | HK_Float _ => true
  | HK_Unary UO_Neg expr => is_numeric_literal expr
  | _ => false
  end.

Definition numeric_or_char (t : Ty) : bool :=
  match t with Ty.Int _ | Ty.Float _ | Ty.Char => true | _ => false end.

(** The reason of the warning a cast of [expr] to [tgt] gets, if it gets one. *)
Definition cast_lint (expr : HExpr) (tgt : Ty) : option bytes :=
  let src := hty expr in
  let char_float :=
    (bool_decide (src = Ty.Char) && match tgt with Ty.Float _ => true | _ => false end) ||
    (match src with Ty.Float _ => true | _ => false end && bool_decide (tgt = Ty.Char)) in
  if numeric_or_char src && numeric_or_char tgt && negb char_float && negb (is_numeric_literal expr)
     && negb (lossless_integer_cast expr tgt)
  then cast_loss src tgt
  else None.
