(* ===== verification/KnownBitsSpec.v ===== *)
(** * Soundness of the known-bits analysis

    The integer semantics of the language specification (two's complement
    patterns, shift counts taken modulo the width, arithmetic right shift on
    signed values, casts that wrap) as a relation between a checked expression
    and its possible values, and the proof that the facts of [KnownBits] hold of
    every value. *)
From Stdlib Require Import ZArith Lia.
From stdpp Require Import gmap.
From S2P Require Import Prelude Ast Types TypeLayout LayoutBounds KnownBits.
Local Open Scope Z_scope.

(** ** Patterns and values *)
Definition pattern (t : IntTy) (p : Z) : Prop := 0 ≤ p < 2 ^ it_bits t.
Definition value (t : IntTy) (p : Z) : Z :=
  if it_signed t && (2 ^ (it_bits t - 1) <=? p) then p - 2 ^ it_bits t else p.
(** The pattern of type [t] of a mathematical value. *)
Definition wrap (t : IntTy) (v : Z) : Z := v mod 2 ^ it_bits t.
Definition cast (source target : IntTy) (p : Z) : Z := wrap target (value source p).

(** The operators whose result the semantics fixes; a shift count is masked. *)
Definition bin_value (op : BinOp) (t : IntTy) (p q : Z) : option Z :=
  match op with
  | BO_BitAnd => Some (Z.land p q)
  | BO_BitOr => Some (Z.lor p q)
  | BO_BitXor => Some (Z.lxor p q)
  | BO_Shl => Some (wrap t (Z.shiftl p (q mod it_bits t)))
  | BO_Shr => Some (wrap t (Z.shiftr (value t p) (q mod it_bits t)))
  | _ => None
  end.

(** [evals e p]: the checked integer expression [e] may have the pattern [p].
    Variables, calls and the other operators may have any pattern of their type. *)
Inductive evals : HExpr → Z → Prop :=
  | ev_int v t : evals (MkHExpr (HK_Int v) (Ty.Int t)) (wrap t v)
  | ev_neg e t p : hty e = Ty.Int t → evals e p →
      evals (MkHExpr (HK_Unary UO_Neg e) (Ty.Int t)) (wrap t (- p))
  | ev_not e t p : hty e = Ty.Int t → evals e p →
      evals (MkHExpr (HK_Unary UO_BitNot e) (Ty.Int t)) (wrap t (Z.lnot p))
  | ev_bin op l r t p q x : hty l = Ty.Int t → hty r = Ty.Int t → evals l p → evals r q →
      bin_value op t p q = Some x → evals (MkHExpr (HK_Binary op l r) (Ty.Int t)) x
  | ev_bin_any op l r t x : (∀ p q, bin_value op t p q = None) ∨ hty l ≠ Ty.Int t ∨ hty r ≠ Ty.Int t →
      pattern t x → evals (MkHExpr (HK_Binary op l r) (Ty.Int t)) x
  | ev_cast e s t p : hty e = Ty.Int s → evals e p → evals (MkHExpr (HK_Cast e) (Ty.Int t)) (cast s t p)
  | ev_cast_any e t x : (∀ s, hty e ≠ Ty.Int s) → pattern t x → evals (MkHExpr (HK_Cast e) (Ty.Int t)) x
  | ev_other tag t x : pattern t x → evals (MkHExpr (HK_Other tag) (Ty.Int t)) x.

(** The widths with a mask. *)
Lemma mask_some bits m : mask bits = Some m → width_ok bits ∧ m = 2 ^ bits - 1.
Proof.
  unfold mask. destruct (_ || _) eqn:H1.
  { intros [= <-]. rewrite Z.shiftl_1_l. split; [|done]. unfold width_ok.
    apply orb_true_iff in H1 as [[H1|H1]%orb_true_iff|H1]; b2p; lia. }
  destruct (Z.eqb_spec bits 64); [|done]. intros [= <-]. subst. split; [by do 3 right|done].
Qed.

(** ** Facts about bits *)
(** Below bit [w], every claim of [b] holds of [p]. *)
Definition agrees (w : Z) (b : Bits) (p : Z) : Prop :=
  ∀ i, 0 ≤ i < w →
    (Z.testbit (zero b) i = true → Z.testbit p i = false) ∧ (Z.testbit (one b) i = true → Z.testbit p i = true).

(** [b] claims nothing from bit [w] on. *)
Record within (w : Z) (b : Bits) : Prop := {
  wi_zero : 0 ≤ zero b < 2 ^ w;
  wi_one : 0 ≤ one b < 2 ^ w
}.

Lemma within_high w b i : 0 ≤ w ≤ i → within w b → Z.testbit (zero b) i = false ∧ Z.testbit (one b) i = false.
Proof.
  intros Hi [Hz Ho]. assert (2 ^ w ≤ 2 ^ i) by (apply Z.pow_le_mono_r; lia). split; apply testbit_high; lia.
Qed.

Lemma no_bits_agrees w p : agrees w no_bits p.
Proof. intros i _. simpl. rewrite Z.testbit_0_l. by split. Qed.

Lemma no_bits_within w : 0 ≤ w → within w no_bits.
Proof. intros. assert (0 < 2 ^ w) by (apply Z.pow_pos_nonneg; lia). split; simpl; lia. Qed.

Lemma mask_bit w i : 0 ≤ i → 0 ≤ w → Z.testbit (2 ^ w - 1) i = (i <? w).
Proof.
  intros Hi Hw. replace (2 ^ w - 1) with (Z.ones w) by (rewrite Z.ones_equiv; lia).
  destruct (Z.ltb_spec i w); [apply Z.ones_spec_low|apply Z.ones_spec_high]; lia.
Qed.

Lemma mod_bit x w i : 0 ≤ i → 0 ≤ w → Z.testbit (x mod 2 ^ w) i = (i <? w) && Z.testbit x i.
Proof.
  intros Hi Hw. destruct (Z.ltb_spec i w); [apply Z.mod_pow2_bits_low|apply Z.mod_pow2_bits_high]; lia.
Qed.

Lemma sign_bit t p : 0 < it_bits t → pattern t p → Z.testbit p (it_bits t - 1) = (2 ^ (it_bits t - 1) <=? p).
Proof.
  unfold pattern. set (w := it_bits t). intros Hw Hp.
  assert (2 ^ w = 2 * 2 ^ (w - 1)) as H2 by (rewrite <-Z.pow_succ_r by lia; f_equal; lia).
  apply eq_true_iff_eq. rewrite Z.testbit_true, Z.leb_le by lia.
  assert (p / 2 ^ (w - 1) = if 2 ^ (w - 1) <=? p then 1 else 0) as ->.
  { case_if; b2p; [symmetry; apply (Z.div_unique _ _ _ (p - 2 ^ (w - 1))); lia|apply Z.div_small; lia]. }
  case_if; b2p; split; intros; try done; lia.
Qed.

(** The bits of a value repeat the sign bit upwards. *)
Lemma value_bit t p i :
  0 < it_bits t → pattern t p → 0 ≤ i →
  Z.testbit (value t p) i = if i <? it_bits t then Z.testbit p i else it_signed t && Z.testbit p (it_bits t - 1).
Proof.
  intros Hw Hp Hi. unfold value. set (w := it_bits t) in *.
  pose proof (sign_bit t p Hw Hp) as Hsign. fold w in Hsign. unfold pattern in Hp. fold w in Hp.
  rewrite Hsign. destruct (it_signed t && (2 ^ (w - 1) <=? p)) eqn:Hs.
  - apply andb_true_iff in Hs as [_ Hs]. destruct (Z.ltb_spec i w).
    + rewrite <-(Z.mod_pow2_bits_low (p - 2 ^ w) w i) by lia. rewrite <-(Z.mod_pow2_bits_low p w i) by lia. f_equal.
      rewrite <-(Z_mod_plus_full (p - 2 ^ w) 1). f_equal. lia.
    + b2p. assert (2 ^ w ≤ 2 ^ i) by (apply Z.pow_le_mono_r; lia).
      replace (p - 2 ^ w) with (Z.lnot (2 ^ w - 1 - p)) by (unfold Z.lnot; lia).
      rewrite Z.lnot_spec, testbit_high by lia. done.
  - destruct (Z.ltb_spec i w); [done|]. assert (2 ^ w ≤ 2 ^ i) by (apply Z.pow_le_mono_r; lia).
    apply testbit_high; lia.
Qed.

(** Testing the sign bit with a mask. *)
Lemma sign_test x w : 0 ≤ x → 0 < w → negb (Z.land x (Z.shiftl 1 (w - 1)) =? 0) = Z.testbit x (w - 1).
Proof.
  intros Hx Hw. rewrite Z.shiftl_1_l. destruct (Z.testbit x (w - 1)) eqn:Hb.
  - destruct (Z.eqb_spec (Z.land x (2 ^ (w - 1))) 0) as [H0|]; [|done]. exfalso.
    assert (Z.testbit (Z.land x (2 ^ (w - 1))) (w - 1) = true) as H by (rewrite Z.land_spec, Hb, Z.pow2_bits_true by lia; done).
    by rewrite H0, Z.testbit_0_l in H.
  - replace (Z.land x (2 ^ (w - 1))) with 0; [done|]. apply Z.bits_inj'. intros i Hi. rewrite Z.testbit_0_l, Z.land_spec.
    rewrite Z.pow2_bits_eqb by lia. destruct (Z.eqb_spec (w - 1) i) as [ <- |]; [by rewrite Hb|by rewrite andb_false_r].
Qed.

(** The bits a shift vacates, and those a widening cast adds. *)
Lemma upper_bit w v i :
  0 ≤ v ≤ w → 0 ≤ i → Z.testbit (Z.lxor (2 ^ w - 1) (2 ^ v - 1)) i = (v <=? i) && (i <? w).
Proof.
  intros Hv Hi. rewrite Z.lxor_spec, !mask_bit by lia.
  destruct (Z.ltb_spec i w), (Z.ltb_spec i v), (Z.leb_spec v i); simpl; lia || done.
Qed.

Lemma shiftr_mask w s : 0 ≤ s ≤ w → Z.shiftr (2 ^ w - 1) s = 2 ^ (w - s) - 1.
Proof.
  intros Hs. apply Z.bits_inj'. intros i Hi. rewrite Z.shiftr_spec, !mask_bit by lia.
  destruct (Z.ltb_spec (i + s) w), (Z.ltb_spec i (w - s)); lia || done.
Qed.

Lemma not64_bit x i : 0 ≤ i < 64 → Z.testbit (not64 x) i = negb (Z.testbit x i).
Proof.
  intros Hi. unfold not64, U64_MAX. rewrite Z.lxor_spec, mask_bit by lia. destruct (Z.ltb_spec i 64); [|lia].
  apply xorb_true_r.
Qed.

Lemma literal_bits_agrees w v : 0 ≤ w ≤ 64 → agrees w (literal_bits v w) (v mod 2 ^ w).
Proof.
  intros Hw. unfold literal_bits, try_u64. rewrite Z.shiftl_1_l. case_if; [|apply no_bits_agrees].
  intros i Hi. simpl. rewrite not64_bit by lia. destruct (Z.testbit _ i); done.
Qed.

Lemma shl_bits_agrees w b p s :
  0 < w ≤ 64 → 0 ≤ s < w → within w b → agrees w b p → agrees w (shl_bits b s) (Z.shiftl p s mod 2 ^ w).
Proof.
  intros Hw Hs Hin Hb i Hi. simpl. unfold u64. rewrite Z.lor_spec, Z.shiftl_1_l, mask_bit by lia.
  rewrite !mod_bit, !Z.shiftl_spec by lia.
  destruct (Z.ltb_spec i 64), (Z.ltb_spec i w), (Z.ltb_spec i s); try lia; simpl.
  - rewrite !(Z.testbit_neg_r _ (i - s)) by lia. by split.
  - rewrite orb_false_r. apply Hb. lia.
Qed.

Lemma shr_bits_agrees t b p s :
  let w := it_bits t in 0 < w ≤ 64 → 0 ≤ s < w → pattern t p → within w b → agrees w b p →
  agrees w (shr_bits t (2 ^ w - 1) b s) (wrap t (Z.shiftr (value t p) s)).
Proof.
  intros w Hw Hs Hp Hin Hb i Hi. simpl. unfold wrap. fold w.
  rewrite mod_bit, Z.shiftr_spec, value_bit by (fold w; lia || done). fold w.
  destruct (Z.ltb_spec i w); [|lia]. simpl.
  assert (0 ≤ zero b ∧ 0 ≤ one b) as [? ?] by (split; apply Hin).
  rewrite !sign_test, !Z.lor_spec, !Z.shiftr_spec, shiftr_mask by lia.
  destruct (Hb (w - 1)) as [Hsz Hso]; [lia|].
  destruct (Z.ltb_spec (i + s) w) as [Hlow|Hhigh].
  - destruct (Hb (i + s)) as [Hz Ho]; [lia|].
    assert (∀ c : bool, Z.testbit (if c then Z.lxor (2 ^ w - 1) (2 ^ (w - s) - 1) else 0) i = false) as Hup.
    { intros []; [|apply Z.testbit_0_l]. rewrite upper_bit by lia. destruct (Z.leb_spec (w - s) i); [lia|done]. }
    by rewrite !Hup, !orb_false_r.
  - destruct (within_high w b (i + s)) as [-> ->]; [lia|done|]. simpl. split.
    + destruct (it_signed t); simpl; [|done]. destruct (Z.testbit (zero b) (w - 1)); [auto|]. by rewrite Z.testbit_0_l.
    + destruct (it_signed t); simpl; [|by rewrite Z.testbit_0_l]. destruct (Z.testbit (one b) (w - 1)); [auto|].
      by rewrite Z.testbit_0_l.
Qed.

Lemma cast_bits_agrees s t b p :
  width_ok (it_bits s) → width_ok (it_bits t) → pattern s p → within (it_bits s) b → agrees (it_bits s) b p →
  agrees (it_bits t) (cast_bits t s (2 ^ it_bits t - 1) (2 ^ it_bits s - 1) b) (cast s t p).
Proof.
  intros Hs Ht Hp Hin Hb i Hi. unfold width_ok in *. unfold cast, wrap.
  rewrite mod_bit, value_bit by (lia || done). destruct (Z.ltb_spec i (it_bits t)); [|lia]. simpl.
  unfold cast_bits. assert (0 ≤ zero b ∧ 0 ≤ one b) as [? ?] by (split; apply Hin).
  rewrite !sign_test by lia. destruct (Hb (it_bits s - 1)) as [Hsz Hso]; [lia|].
  destruct (Z.ltb_spec i (it_bits s)) as [Hlow|Hhigh].
  - assert (it_bits s < it_bits t → Z.testbit (Z.lxor (2 ^ it_bits t - 1) (2 ^ it_bits s - 1)) i = false) as Hup.
    { intros. rewrite upper_bit by lia. destruct (Z.leb_spec (it_bits s) i); [lia|done]. }
    repeat case_if; b2p; simpl; rewrite ?Z.lor_spec, ?Hup, ?orb_false_r by lia; apply Hb; lia.
  - destruct (within_high (it_bits s) b i) as [Hz Ho]; [lia|done|].
    repeat case_if; b2p; simpl; rewrite ?Z.lor_spec, ?Hz, ?Ho; try lia; (split; [|try done]); simpl; try done.
    + intros _. destruct (it_signed s); simpl in *; [|done]. auto.
    + intros _. destruct (it_signed s); simpl in *; [auto|done].
Qed.

Lemma pattern_bits t y : 0 < it_bits t → 0 ≤ y → (∀ i, it_bits t ≤ i → Z.testbit y i = false) → pattern t y.
Proof.
  intros Hw Hy Hi. split; [done|]. destruct (Z.eq_dec y 0) as [ -> |]; [apply Z.pow_pos_nonneg; lia|].
  apply Z.log2_lt_pow2; [lia|]. destruct (Z.lt_ge_cases (Z.log2 y) (it_bits t)) as [|Hge]; [done|].
  pose proof (Z.bit_log2 y ltac:(lia)) as Hb. by rewrite Hi in Hb.
Qed.

Lemma evals_pattern e p t : evals e p → hty e = Ty.Int t → 0 < it_bits t → pattern t p.
Proof.
  assert (∀ t v, 0 < it_bits t → pattern t (wrap t v)) as Hwrap.
  { intros t' v Hw. apply Z.mod_pos_bound, Z.pow_pos_nonneg; lia. }
  intros He. revert t. induction He as [v t'|e t' p _ _ IH|e t' p _ _ IH|op l r t' p q x Hl Hr _ IHl _ IHr Hx|op l r t' x _ Hx|
    e s t' p _ _ IH|e t' x _ Hx|tag t' x Hx]; simpl; intros t [= <-] Hw; auto.
  - destruct (IHl t' Hl Hw) as [Hp0 Hp], (IHr t' Hr Hw) as [Hq0 Hq].
    pose proof (λ y, pattern_bits t' y Hw) as Hpat.
    assert (∀ i, it_bits t' ≤ i → Z.testbit p i = false ∧ Z.testbit q i = false) as Hpq.
    { intros i Hi. assert (2 ^ it_bits t' ≤ 2 ^ i) by (apply Z.pow_le_mono_r; lia). split; apply testbit_high; lia. }
    destruct op; simplify_eq/=; try (by apply Hwrap).
    + apply Hpat; [apply Z.land_nonneg; lia|]. intros i Hi. rewrite Z.land_spec. destruct (Hpq i Hi) as [-> _]. done.
    + apply Hpat; [apply Z.lor_nonneg; lia|]. intros i Hi. rewrite Z.lor_spec. destruct (Hpq i Hi) as [-> ->]. done.
    + apply Hpat; [apply Z.lxor_nonneg; lia|]. intros i Hi. rewrite Z.lxor_spec. destruct (Hpq i Hi) as [-> ->]. done.
  - by apply Hwrap.
Qed.

Lemma land_mask_within w x y : 0 ≤ w → within w {| zero := Z.land x (2 ^ w - 1); one := Z.land y (2 ^ w - 1) |}.
Proof.
  intros Hw. replace (2 ^ w - 1) with (Z.ones w) by (rewrite Z.ones_equiv; lia).
  assert (0 < 2 ^ w) by (apply Z.pow_pos_nonneg; lia).
  split; simpl; rewrite Z.land_ones by lia; apply Z.mod_pos_bound; lia.
Qed.

Lemma facts_within e n t m : hty e = Ty.Int t → mask (it_bits t) = Some m → within (it_bits t) (facts e n).
Proof.
  intros Ht Hm. destruct (mask_some _ _ Hm) as [Hw ->]. unfold width_ok in Hw.
  destruct e as [k ty]. simpl in Ht. subst ty. destruct n; cbn [facts hty hkind]; rewrite Hm; [apply no_bits_within|apply land_mask_within]; lia.
Qed.

Lemma agrees_masked w b p :
  0 ≤ w → agrees w b p → agrees w {| zero := Z.land (zero b) (2 ^ w - 1); one := Z.land (one b) (2 ^ w - 1) |} p.
Proof.
  intros Hw Hb i Hi. simpl. rewrite !Z.land_spec, !mask_bit by lia. destruct (Z.ltb_spec i w); [|lia].
  rewrite !andb_true_r. by apply Hb.
Qed.

Lemma literal_evals e v p t : hkind e = HK_Int v → hty e = Ty.Int t → evals e p → p = wrap t v.
Proof. intros Hk Ht He. by inversion He; subst; simplify_eq/=. Qed.

Lemma binary_agrees op t m l r p q x k :
  mask (it_bits t) = Some m → pattern t p → within (it_bits t) l → agrees (it_bits t) l p → agrees (it_bits t) r q →
  (∀ v, k = HK_Int v → q = wrap t v) → bin_value op t p q = Some x →
  agrees (it_bits t) (binary_bits op t m l r k) x.
Proof.
  intros Hm Hp Hin Hl Hr Hk Hx. destruct (mask_some _ _ Hm) as [Hw ->]. unfold width_ok in Hw.
  assert (∀ v s, k = HK_Int v → try_u32 v = Some s → s < it_bits t → q mod it_bits t = s ∧ 0 ≤ s) as Hshift.
  { intros v s -> Hs Hlt. unfold try_u32 in Hs. case_match eqn:Hc; [|done]. injection Hs as <-.
    apply andb_true_iff in Hc as [Hc%Z.leb_le _]. rewrite (Hk v eq_refl). unfold wrap.
    assert (it_bits t < 2 ^ it_bits t) by (apply Z.pow_gt_lin_r; lia).
    rewrite (Z.mod_small v (2 ^ it_bits t)), Z.mod_small by lia. lia. }
  destruct op; simplify_eq/=; try apply no_bits_agrees.
  - intros i Hi. simpl. rewrite Z.lor_spec, !Z.land_spec. destruct (Hl i Hi), (Hr i Hi).
    destruct (Z.testbit p i), (Z.testbit q i), (Z.testbit (zero l) i), (Z.testbit (zero r) i), (Z.testbit (one l) i), (Z.testbit (one r) i); simpl; intuition congruence.
  - intros i Hi. simpl. rewrite !Z.lor_spec, !Z.land_spec. destruct (Hl i Hi), (Hr i Hi).
    destruct (Z.testbit p i), (Z.testbit q i), (Z.testbit (zero l) i), (Z.testbit (zero r) i), (Z.testbit (one l) i), (Z.testbit (one r) i); simpl; intuition congruence.
  - intros i Hi. simpl. rewrite !Z.lor_spec, !Z.land_spec, !Z.lxor_spec. destruct (Hl i Hi), (Hr i Hi).
    destruct (Z.testbit p i), (Z.testbit q i), (Z.testbit (zero l) i), (Z.testbit (zero r) i), (Z.testbit (one l) i), (Z.testbit (one r) i); simpl; intuition congruence.
  - unfold shift_bits. destruct k; try apply no_bits_agrees. destruct (try_u32 v) as [s|] eqn:Hs; [|apply no_bits_agrees].
    case_if; [apply no_bits_agrees|]. b2p. destruct (Hshift v s) as [-> ?]; [done|done|lia|]. apply shl_bits_agrees; [lia|lia|done|done].
  - unfold shift_bits. destruct k; try apply no_bits_agrees. destruct (try_u32 v) as [s|] eqn:Hs; [|apply no_bits_agrees].
    case_if; [apply no_bits_agrees|]. b2p. destruct (Hshift v s) as [-> ?]; [done|done|lia|]. apply shr_bits_agrees; [lia|lia|done|done|done].
Qed.

Lemma facts_agree e p n t : evals e p → hty e = Ty.Int t → agrees (it_bits t) (facts e n) p.
Proof.
  intros He. revert t n. induction He as [v t'|e t' p Ht He IH|e t' p Ht He IH|op l r t' p q x Hl Hr Hel IHl Her IHr Hx|op l r t' x Hany Hx|
    e s t' p Hs He IH|e t' x Hany Hx|tag t' x Hx]; cbn [hty]; intros t n [= <-]; cbn [facts hty hkind];
    (destruct (mask (it_bits t')) as [m|] eqn:Hm; [|apply no_bits_agrees]);
    (destruct n as [|n]; [apply no_bits_agrees|]);
    destruct (mask_some _ _ Hm) as [Hw ->]; 
    (apply agrees_masked; [unfold width_ok in Hw; lia|]).
  - apply literal_bits_agrees. unfold width_ok in Hw. lia.
  - destruct (hkind e) eqn:Hk; try apply no_bits_agrees. rewrite (literal_evals _ _ _ _ Hk Ht He).
    unfold checked_neg. case_if; [apply no_bits_agrees|]. unfold wrap.
    replace ((- (v mod 2 ^ it_bits t')) mod 2 ^ it_bits t') with ((- v) mod 2 ^ it_bits t').
    2: { unfold width_ok in Hw. assert (0 < 2 ^ it_bits t') by (apply Z.pow_pos_nonneg; lia).
         rewrite <-(Z_mod_plus_full (- (v mod _)) (- (v / 2 ^ it_bits t'))). f_equal.
         pose proof (Z.div_mod v (2 ^ it_bits t')). lia. }
    apply literal_bits_agrees. unfold width_ok in Hw. lia.
  - intros i Hi. simpl. unfold wrap. rewrite mod_bit, Z.lnot_spec by lia. destruct (Z.ltb_spec i (it_bits t')); [|lia].
    destruct (IH t' n Ht i Hi). simpl. destruct (Z.testbit p i); naive_solver.
  - rewrite Hl, Hr, !bool_decide_eq_true_2 by done. simpl. eapply binary_agrees; [exact Hm| | |by apply IHl|by apply IHr| |exact Hx].
    + eapply evals_pattern; [exact Hel|done|unfold width_ok in Hw; lia].
    + by eapply facts_within.
    + intros v Hk. by eapply literal_evals.
  - destruct (decide (hty l = Ty.Int t')) as [Hl|Hl]; [|rewrite bool_decide_eq_false_2 by done; apply no_bits_agrees].
    destruct (decide (hty r = Ty.Int t')) as [Hr|Hr]; [|rewrite (bool_decide_eq_false_2 (hty r = _)), andb_false_r by done; apply no_bits_agrees].
    rewrite Hl, Hr, !bool_decide_eq_true_2 by done. simpl. destruct Hany as [Hany|[|]]; [|done|done].
    specialize (Hany 0 0). destruct op; try done; apply no_bits_agrees.
  - rewrite Hs. destruct (mask (it_bits s)) as [ms|] eqn:Hms; [|apply no_bits_agrees]. destruct (mask_some _ _ Hms) as [Hws ->].
    apply cast_bits_agrees; [done|done| |by eapply facts_within|by apply IH].
    eapply evals_pattern; [exact He|done|unfold width_ok in Hws; lia].
  - destruct (hty e); try apply no_bits_agrees. by destruct (Hany it).
  - apply no_bits_agrees.
Qed.

(** C7. The facts hold of every value: whatever pattern an expression may have, the
    bits claimed to be zero are clear in it and the bits claimed to be one are
    set, at every analysis budget. *)
Theorem known_bits_sound :
  ∀ e p n, evals e p → Z.land p (zero (facts e n)) = 0 ∧ Z.land p (one (facts e n)) = one (facts e n).
Proof.
  intros e p n He. assert (∃ t, hty e = Ty.Int t) as [t Ht] by (destruct He; simpl; eauto).
  destruct (mask (it_bits t)) as [m|] eqn:Hm.
  2: { destruct e as [k ty]. simpl in Ht. subst ty. destruct n; cbn [facts hty]; rewrite Hm; simpl; by rewrite Z.land_0_r. }
  destruct (mask_some _ _ Hm) as [Hw ->]. unfold width_ok in Hw.
  pose proof (facts_agree e p n t He Ht) as Ha. pose proof (facts_within e n t _ Ht Hm) as Hin.
  assert (∀ i, 0 ≤ i → (Z.testbit (zero (facts e n)) i = true → Z.testbit p i = false) ∧
                       (Z.testbit (one (facts e n)) i = true → Z.testbit p i = true)) as Hall.
  { intros i Hi. destruct (Z.lt_ge_cases i (it_bits t)); [by apply Ha|].
    destruct (within_high (it_bits t) (facts e n) i) as [-> ->]; [lia|done|]. by split. }
  split; apply Z.bits_inj'; intros i Hi; destruct (Hall i Hi) as [Hz Ho]; rewrite Z.land_spec, ?Z.testbit_0_l.
  - destruct (Z.testbit (zero _) i); [by rewrite Hz|by rewrite andb_false_r].
  - destruct (Z.testbit (one _) i); [by rewrite Ho|by rewrite andb_false_r].
Qed.

(** ** The interval *)
Lemma submask_le a b : 0 ≤ b → (∀ i, 0 ≤ i → Z.testbit a i = true → Z.testbit b i = true) → a ≤ b.
Proof.
  intros Hb H. apply Z.ldiff_le; [done|]. apply Z.bits_inj'. intros i Hi. rewrite Z.ldiff_spec, Z.testbit_0_l.
  destruct (Z.testbit a i) eqn:Ha; [by rewrite (H i Hi Ha)|done].
Qed.

Lemma pattern_high t p i : 0 ≤ it_bits t ≤ i → pattern t p → Z.testbit p i = false.
Proof. intros Hi [H0 Hp]. assert (2 ^ it_bits t ≤ 2 ^ i) by (apply Z.pow_le_mono_r; lia). apply testbit_high; lia. Qed.

(** A pattern that the facts allow, seen through a signed reading of the sign bit. *)
Lemma signed_reading t x :
  0 < it_bits t → pattern t x →
  x - (if negb (Z.land x (Z.shiftl 1 (it_bits t - 1)) =? 0) then Z.shiftl 1 (it_bits t) else 0) =
  value {| it_bits := it_bits t; it_signed := true |} x.
Proof.
  intros Hw Hx. rewrite sign_test, sign_bit, Z.shiftl_1_l by (done || apply Hx). unfold value. simpl. case_if; lia.
Qed.

(** The signed order on patterns: negative ones first, then by pattern. *)
Lemma signed_le t x y :
  let w := it_bits t in let v := value {| it_bits := w; it_signed := true |} in
  0 < w → pattern t x → pattern t y →
  (Z.testbit y (w - 1) = true → Z.testbit x (w - 1) = true) →
  (Z.testbit x (w - 1) = Z.testbit y (w - 1) → x ≤ y) → v x ≤ v y.
Proof.
  intros w v Hw Hx Hy. subst w v. rewrite !(sign_bit t) by done. unfold value, pattern in *. simpl.
  assert (2 ^ it_bits t = 2 * 2 ^ (it_bits t - 1)) by (rewrite <-Z.pow_succ_r by lia; f_equal; lia).
  destruct (Z.leb_spec (2 ^ (it_bits t - 1)) x), (Z.leb_spec (2 ^ (it_bits t - 1)) y); intros Hs Hle; lia.
Qed.

Lemma bounds_sound t m b p lo hi :
  mask (it_bits t) = Some m → pattern t p → within (it_bits t) b → agrees (it_bits t) b p →
  bounds t m b = (lo, hi) → lo ≤ value t p ≤ hi.
Proof.
  intros Hm Hp Hin Hb. destruct (mask_some _ _ Hm) as [Hw ->]. unfold width_ok in Hw.
  assert (∀ i, 0 ≤ i → Z.testbit p i = true → i < it_bits t) as Hlow.
  { intros i Hi H. destruct (Z.lt_ge_cases i (it_bits t)); [done|]. by rewrite (pattern_high t p i) in H by (lia || done). }
  assert (∀ i, 0 ≤ i → Z.testbit (one b) i = true → Z.testbit p i = true) as Hone.
  { intros i Hi H. destruct (Z.lt_ge_cases i (it_bits t)); [by apply (Hb i)|].
    by rewrite (proj2 (within_high (it_bits t) b i ltac:(lia) Hin)) in H. }
  unfold bounds. set (mx := Z.land (2 ^ it_bits t - 1) (not64 (zero b))).
  assert (∀ i, 0 ≤ i → Z.testbit p i = true → Z.testbit mx i = true) as Hmx.
  { intros i Hi H. pose proof (Hlow i Hi H). unfold mx. rewrite Z.land_spec, mask_bit, not64_bit by lia.
    destruct (Z.ltb_spec i (it_bits t)); [|lia]. destruct (Z.testbit (zero b) i) eqn:Hz; [|done].
    by rewrite (proj1 (Hb i ltac:(lia)) Hz) in H. }
  assert (∀ x, pattern t (Z.land (2 ^ it_bits t - 1) x)) as Hpm.
  { intros x. unfold pattern. rewrite Z.land_comm. replace (2 ^ it_bits t - 1) with (Z.ones (it_bits t)) by (rewrite Z.ones_equiv; lia).
    rewrite Z.land_ones by lia. apply Z.mod_pos_bound, Z.pow_pos_nonneg; lia. }
  assert (one b ≤ p) as Hle by (apply submask_le; [apply Hp|exact Hone]).
  assert (p ≤ mx) as Hge by (apply submask_le; [apply Hpm|exact Hmx]).
  assert (pattern t (one b)) as Hpo by apply Hin. assert (pattern t mx) as Hpx by apply Hpm.
  destruct (it_signed t) eqn:Hs; simpl.
  2: { intros [= <- <-]. unfold value. rewrite Hs. simpl. lia. }
  assert (value t p = value {| it_bits := it_bits t; it_signed := true |} p) as -> by (unfold value; by rewrite Hs).
  set (w := it_bits t) in *. set (sign := Z.shiftl 1 (w - 1)).
  assert (∀ i, Z.testbit sign i = true → i = w - 1) as Hsg.
  { intros i. unfold sign. rewrite Z.shiftl_1_l, Z.pow2_bits_eqb by lia. intros ?%Z.eqb_eq. lia. }
  assert (Z.testbit sign (w - 1) = true) as Hsg1 by (unfold sign; rewrite Z.shiftl_1_l; apply Z.pow2_bits_true; lia).
  assert (0 ≤ sign) as Hsg0 by (unfold sign; rewrite Z.shiftl_1_l; apply Z.pow_nonneg; lia).
  assert (pattern t (Z.lor (one b) sign)) as Hpor.
  { apply pattern_bits; [fold w; lia|apply Z.lor_nonneg; split; [apply Hpo|done]|]. fold w. intros i Hi. rewrite Z.lor_spec.
    rewrite (pattern_high t) by (fold w; lia || done). destruct (Z.testbit sign i) eqn:H; [apply Hsg in H; lia|done]. }
  assert (pattern t (Z.land mx (not64 sign))) as Hpand by (unfold mx; rewrite <-Z.land_assoc; apply Hpm).
  assert (∀ x, 0 ≤ x → negb (Z.land x sign =? 0) = Z.testbit x (w - 1)) as Hst by (intros; apply sign_test; lia).
  intros [= <- <-]. rewrite (Hst (zero b)), (Hst (one b)) by apply Hin. unfold sign.
  rewrite !(signed_reading t) by (fold w; try lia; repeat case_if; done). fold w sign. split.
  - apply (signed_le t); fold w; [lia|by case_if|done| |]; destruct (Z.testbit (zero b) (w - 1)) eqn:Hz.
    + intros H. by rewrite (proj1 (Hb (w - 1) ltac:(lia)) Hz) in H.
    + rewrite Z.lor_spec, Hsg1. by rewrite orb_true_r.
    + done.
    + rewrite Z.lor_spec, Hsg1, orb_true_r. intros Hsp. apply submask_le; [apply Hp|]. intros i Hi. rewrite Z.lor_spec.
      intros [H|H]%orb_true_iff; [by apply Hone|]. by rewrite (Hsg i H).
  - apply (signed_le t); fold w; [lia|done|by case_if| |]; destruct (Z.testbit (one b) (w - 1)) eqn:Ho.
    + intros _. apply Hone; [lia|done].
    + rewrite Z.land_spec, not64_bit, Hsg1 by lia. by rewrite andb_false_r.
    + done.
    + rewrite Z.land_spec, not64_bit, Hsg1, andb_false_r by lia. intros Hsp. apply submask_le; [apply Hpand|]. intros i Hi H.
      rewrite Z.land_spec, (Hmx i Hi H). pose proof (Hlow i Hi H). rewrite not64_bit by lia. simpl.
      destruct (Z.testbit sign i) eqn:H'; [|done]. rewrite (Hsg i H') in H. congruence.
Qed.

(** ** Casts *)
Lemma value_in_range t p : 0 < it_bits t → pattern t p → (int_range t).1 ≤ value t p ≤ (int_range t).2.
Proof.
  intros Hw Hp. unfold pattern, value, int_range in *. rewrite !Z.shiftl_1_l.
  assert (2 ^ it_bits t = 2 * 2 ^ (it_bits t - 1)) by (rewrite <-Z.pow_succ_r by lia; f_equal; lia).
  destruct (it_signed t); simpl; [case_if|]; b2p; simpl; lia.
Qed.

(** A value in range is read back from its pattern. *)
Lemma value_wrap t v : 0 < it_bits t → (int_range t).1 ≤ v ≤ (int_range t).2 → value t (wrap t v) = v.
Proof.
  intros Hw. unfold value, wrap, int_range. rewrite !Z.shiftl_1_l.
  assert (2 ^ it_bits t = 2 * 2 ^ (it_bits t - 1)) by (rewrite <-Z.pow_succ_r by lia; f_equal; lia).
  destruct (it_signed t); simpl; intros Hv; [|apply Z.mod_small; lia].
  destruct (Z.lt_ge_cases v 0).
  - rewrite <-(Z_mod_plus_full v 1), Z.mod_small by lia. case_if; b2p; lia.
  - rewrite Z.mod_small by lia. case_if; b2p; lia.
Qed.

Lemma wrap_value t p : 0 < it_bits t → pattern t p → wrap t (value t p) = p.
Proof.
  intros Hw Hp. unfold wrap, value, pattern in *. case_if; [|by apply Z.mod_small].
  rewrite <-(Z_mod_plus_full _ 1), Z.mod_small; lia.
Qed.

Lemma lossless_cast_value e s t p :
  lossless_integer_cast e (Ty.Int t) = true → hty e = Ty.Int s → evals e p →
  0 < it_bits s ∧ pattern s p ∧ value t (cast s t p) = value s p.
Proof.
  unfold lossless_integer_cast. intros Hl Hs He. rewrite Hs in Hl.
  destruct (mask (it_bits s)) as [ms|] eqn:Hms; [|done]. destruct (mask (it_bits t)) as [mt|] eqn:Hmt; [|done].
  destruct (mask_some _ _ Hms) as [Hws _], (mask_some _ _ Hmt) as [Hwt _]. unfold width_ok in *.
  assert (pattern s p) as Hp by (eapply evals_pattern; [exact He|done|lia]).
  destruct (bounds s ms (facts e 48)) as [lo hi] eqn:Hb. destruct (int_range t) as [low high] eqn:Hr.
  apply andb_true_iff in Hl as [Hlo%Z.leb_le Hhi%Z.leb_le].
  pose proof (bounds_sound s ms (facts e 48) p lo hi Hms Hp (facts_within _ _ _ _ Hs Hms) (facts_agree _ _ _ _ He Hs) Hb).
  split_and!; [lia|done|]. apply value_wrap; [lia|]. rewrite Hr. simpl. lia.
Qed.

(** [lossless_integer_cast] proves what it says: when it accepts a cast, no value
    of the expression changes — the pattern the wrapping cast produces denotes, in
    the target type, the very integer the operand denotes in its own. *)
Lemma lossless_integer_cast_sound :
  ∀ e s t p, lossless_integer_cast e (Ty.Int t) = true → hty e = Ty.Int s → evals e p →
    value t (cast s t p) = value s p.
Proof. intros e s t p Hl Hs He. by apply (lossless_cast_value e s t p Hl Hs He). Qed.

Definition i64_ty : IntTy := {| it_bits := 64; it_signed := true |}.
Definition i8_ty : IntTy := {| it_bits := 8; it_signed := true |}.
(** [(x & 127) | -128] at [i64], with a free [x]. *)
Definition demo_expr : HExpr :=
  let i64 := Ty.Int i64_ty in
  MkHExpr (HK_Binary BO_BitOr
    (MkHExpr (HK_Binary BO_BitAnd (MkHExpr (HK_Other 0) i64) (MkHExpr (HK_Int 127) i64)) i64)
    (MkHExpr (HK_Unary UO_Neg (MkHExpr (HK_Int 128) i64)) i64)) i64.

Lemma demo_evals : evals demo_expr (2 ^ 64 - 123).
Proof.
  unfold demo_expr. eapply (ev_bin _ _ _ _ 5 (2 ^ 64 - 128)); [done|done| | |done].
  - eapply (ev_bin _ _ _ _ 1029 127); [done|done|by apply ev_other|exact (ev_int 127 i64_ty)|done].
  - apply (ev_neg (MkHExpr (HK_Int 128) (Ty.Int i64_ty)) i64_ty 128); [done|exact (ev_int 128 i64_ty)].
Qed.

Lemma known_bits_sound_witness :
  let b := facts demo_expr 48 in
  zero b = 0 ∧ one b = 2 ^ 64 - 128 ∧ Z.land (2 ^ 64 - 123) (one b) = one b.
Proof.
  split; [vm_compute; done|]. split; [vm_compute; done|]. exact (proj2 (known_bits_sound demo_expr _ 48 demo_evals)).
Defined.

Lemma lossless_integer_cast_sound_witness :
  value i8_ty (cast i64_ty i8_ty (2 ^ 64 - 123)) = -123.
Proof.
  rewrite (lossless_integer_cast_sound demo_expr i64_ty i8_ty (2 ^ 64 - 123)).
  - reflexivity.
  - vm_compute. reflexivity.
  - reflexivity.
  - exact demo_evals.
Defined.

(** A silent cast keeps every bit: when the lint says nothing about a cast
    between integer types of an operand that is not a literal, casting the result
    back to the operand's type gives the operand again, for every value it may
    have. *)
Lemma silent_cast_keeps_bits :
  ∀ e s t p, width_ok (it_bits s) → width_ok (it_bits t) → hty e = Ty.Int s → is_numeric_literal e = false →
    cast_lint e (Ty.Int t) = None → evals e p → cast t s (cast s t p) = p.
Proof.
  intros e s t p Hws Hwt Hs Hlit Hlint He. unfold cast_lint in Hlint. rewrite Hs, Hlit in Hlint. unfold width_ok in *.
  assert (pattern s p) as Hp by (eapply evals_pattern; [exact He|done|lia]).
  destruct (lossless_integer_cast e (Ty.Int t)) eqn:Hl.
  { destruct (lossless_cast_value e s t p Hl Hs He) as (_ & _ & Hv). unfold cast at 1. rewrite Hv. apply wrap_value; [lia|done]. }
  simpl in Hlint. unfold cast_loss, then_some in Hlint. simpl in Hlint.
  destruct (Z.ltb_spec (it_bits t) (it_bits s)) as [|Hle]; [done|]. clear Hlint Hl.
  assert (2 ^ it_bits t = 2 ^ (it_bits t - it_bits s) * 2 ^ it_bits s) as Hpow
    by (rewrite <-Z.pow_add_r by lia; f_equal; lia).
  assert (0 < 2 ^ it_bits s) by (apply Z.pow_pos_nonneg; lia).
  assert (∀ v, wrap s (value t (wrap t v)) = wrap s v) as Hback.
  { intros v. unfold wrap, value. set (m := v mod 2 ^ it_bits t).
    assert (m mod 2 ^ it_bits s = v mod 2 ^ it_bits s) as <-.
    { apply Z.mod_mod_divide. rewrite Hpow. apply Z.divide_factor_r. }
    case_if; [|done]. replace (m - 2 ^ it_bits t) with (m + (- 2 ^ (it_bits t - it_bits s)) * 2 ^ it_bits s) by lia.
    apply Z_mod_plus_full. }
  unfold cast. rewrite Hback. apply wrap_value; [lia|done].
Qed.

Lemma silent_cast_keeps_bits_witness :
  cast i8_ty i64_ty (cast i64_ty i8_ty (2 ^ 64 - 123)) = 2 ^ 64 - 123.
Proof.
  apply (silent_cast_keeps_bits demo_expr).
  - by do 3 right.
  - by left.
  - reflexivity.
  - reflexivity.
  - vm_compute. reflexivity.
  - exact demo_evals.
Defined.
