(* ===== verification/DropPlan.v ===== *)
(** * Ownership: cleanup plans ([drop_plan] in [crates/align_sema/src/lib.rs])

    Which values own something that must be dropped.  [drop_plan] walks the by-value
    type graph with an explicit work stack, a stack of built plans, a cache and a set
    of the ids being expanded per nominal kind; a cycle or a missing definition gives
    the plan [Invalid].  Every Move/Copy question of the compiler is answered from the
    plan.  Plans are shared by reference count in the source; they are immutable, so
    a shared plan is the plan. *)
From Stdlib Require Import ZArith Lia.
From stdpp Require Import gmap.
From S2P Require Import Prelude Types TypeLayout.
Local Open Scope Z_scope.

Inductive DropPlan : Type :=
  | DP_None
  | DP_Leaf (ty : Ty)
  | DP_FixedArray (element : DropPlan) (len : N)
  | DP_Struct (id : N) (fields : list (N * DropPlan)) (needs : bool)
  | DP_Tuple (id : N) (elements : list DropPlan) (needs : bool)
  | DP_Option (payload : DropPlan)
  | DP_Result (ok err : DropPlan)
  | DP_Enum (id : N) (variants : list (list DropPlan)) (needs : bool)
  | DP_Invalid.

(** The nodes of a plan: the turns of a walk over it. *)
Fixpoint plan_size (p : DropPlan) : nat :=
  match p with
  | DP_None | DP_Leaf _ | DP_Invalid => 1
  | DP_FixedArray e _ => S (plan_size e)
  | DP_Option e => S (plan_size e)
  | DP_Result ok err => S (plan_size ok + plan_size err)
  | DP_Struct _ fields _ => S (sum_list_with (λ f, plan_size f.2) fields)
  | DP_Tuple _ es _ => S (sum_list_with plan_size es)
  | DP_Enum _ vs _ => S (sum_list_with (sum_list_with plan_size) vs)
  end.

(** [DropPlan::needs_drop]: a stack of plans to look at, the next one at the head. *)
Fixpoint needs_drop_loop (fuel : nat) (work : list DropPlan) : res bool :=
  match work with
  | [] => Ret false
  | plan :: work =>
      match fuel with
      | O => OutOfFuel
      | S fuel =>
          match plan with
          | DP_None => needs_drop_loop fuel work
          | DP_Leaf _ | DP_Invalid => Ret true
          | DP_Struct _ _ needs | DP_Tuple _ _ needs | DP_Enum _ _ needs =>
              if needs then Ret true else needs_drop_loop fuel work
          | DP_FixedArray payload _ | DP_Option payload => needs_drop_loop fuel (payload :: work)
          | DP_Result ok err => needs_drop_loop fuel (ok :: err :: work)
          end
      end
  end.
Definition needs_drop (p : DropPlan) : res bool := needs_drop_loop (plan_size p) [p].

(** [DropPlan::is_valid].  The source skips a plan it has met at the same address;
    such a plan was looked at already. *)
Fixpoint is_valid_loop (fuel : nat) (work : list DropPlan) : res bool :=
  match work with
  | [] => Ret true
  | plan :: work =>
      match fuel with
      | O => OutOfFuel
      | S fuel =>
          match plan with
          | DP_Invalid => Ret false
          | DP_None | DP_Leaf _ => is_valid_loop fuel work
          | DP_Struct _ fields _ => is_valid_loop fuel (map snd fields ++ work)
          | DP_Tuple _ es _ => is_valid_loop fuel (es ++ work)
          | DP_FixedArray payload _ | DP_Option payload => is_valid_loop fuel (payload :: work)
          | DP_Result ok err => is_valid_loop fuel (ok :: err :: work)
          | DP_Enum _ vs _ => is_valid_loop fuel (concat vs ++ work)
          end
      end
  end.
Definition is_valid (p : DropPlan) : res bool := is_valid_loop (plan_size p) [p].

(** ** The builder *)
Record Tables := { t_structs : list StructDef; t_tuples : list TupleDef; t_enums : list EnumDef; t_tagged : list TaggedType }.

Record Built := { b_plan : DropPlan; b_needs : bool }.
Definition none_built : Built := {| b_plan := DP_None; b_needs := false |}.
Definition invalid_built : Built := {| b_plan := DP_Invalid; b_needs := true |}.

Inductive PlanWork :=
  | PEnter (ty : Ty)
  | PExitTagged (id : N)
  | PExitStruct (id : N) (fields : nat)
  | PExitTuple (id : N) (elements : nat)
  | PExitFixedArray (len : N)
  | PExitOption
  | PExitResult
  | PExitEnum (id : N) (variants : list nat).

(** The four caches, keyed by id. *)
Record PlanCaches := {
  tuple_plans : gmap N Built; struct_plans : gmap N Built; enum_plans : gmap N Built; tagged_plans : gmap N Built
}.
Definition no_plans : PlanCaches := {| tuple_plans := ∅; struct_plans := ∅; enum_plans := ∅; tagged_plans := ∅ |}.
Definition plan_get (c : PlanCaches) (n : Node) : option Built :=
  match n with
  | NStruct id => struct_plans c !! id | NTuple id => tuple_plans c !! id
  | NEnum id => enum_plans c !! id | NTagged id => tagged_plans c !! id
  end.
Definition plan_insert (n : Node) (b : Built) (c : PlanCaches) : PlanCaches :=
  {| struct_plans := match n with NStruct id => <[id := b]> (struct_plans c) | _ => struct_plans c end;
     tuple_plans := match n with NTuple id => <[id := b]> (tuple_plans c) | _ => tuple_plans c end;
     enum_plans := match n with NEnum id => <[id := b]> (enum_plans c) | _ => enum_plans c end;
     tagged_plans := match n with NTagged id => <[id := b]> (tagged_plans c) | _ => tagged_plans c end |}.

(** Both stacks have their top at the head. *)
Record PlanState := { p_caches : PlanCaches; p_active : Active; p_work : list PlanWork; p_built : list Built }.

Definition push_plan (b : Built) (s : PlanState) : PlanState :=
  {| p_caches := p_caches s; p_active := p_active s; p_work := p_work s; p_built := b :: p_built s |}.
Definition push_items (w : list PlanWork) (s : PlanState) : PlanState :=
  {| p_caches := p_caches s; p_active := p_active s; p_work := w ++ p_work s; p_built := p_built s |}.
Definition with_active (a : Active) (s : PlanState) : PlanState :=
  {| p_caches := p_caches s; p_active := a; p_work := p_work s; p_built := p_built s |}.
Definition with_built (b : list Built) (s : PlanState) : PlanState :=
  {| p_caches := p_caches s; p_active := p_active s; p_work := p_work s; p_built := b |}.

(** The arm of a nominal type: its cached plan, [Invalid] when it is being expanded or
    has no usable definition, or its expansion. *)
Definition plan_node (n : Node) (expansion : option (list PlanWork)) (s : PlanState) : PlanState :=
  match plan_get (p_caches s) n with
  | Some b => push_plan b s
  | None =>
      if is_active (p_active s) n then push_plan invalid_built s
      else
        let s := with_active (activate n (p_active s)) s in
        match expansion with
        | Some w => push_items w s
        | None => push_plan invalid_built (with_active (deactivate n (p_active s)) s)
        end
  end.

Definition plan_scalars (l : list Scalar) : list PlanWork := map (λ p, PEnter (scalar_to_ty p)) l.

(** The types with a cleanup of their own. *)
Definition drop_leaf (ty : Ty) : bool :=
  match ty with
  | Ty.Box _ | Ty.Task _ | Ty.DynArray _ | Ty.DynVecArray _ _ | Ty.DynMaskArray _ _ | Ty.DynFixedArray _ _
  | Ty.DynFixedStructArray _ _ | Ty.DynStructArray _ _ | Ty.DynSliceArray _ | Ty.DynResponseArray | Ty.String
  | Ty.Builder | Ty.StrFinder | Ty.Writer | Ty.Logger | Ty.XmlReader | Ty.CryptoDigest | Ty.FsDirectory
  | Ty.FsDirCursor | Ty.ProcessSignalSubscription | Ty.ProcessChildScope | Ty.ProcessMember | Ty.FsMemoryWriter
  | Ty.FsSealedFile | Ty.ProcessImage | Ty.ProcessUserNamespace | Ty.CodecEncoder | Ty.Reader | Ty.Buffer
  | Ty.SignatureKey _ | Ty.ArrayBuilder _ | Ty.VecArrayBuilder _ _ | Ty.MaskArrayBuilder _ _
  | Ty.FixedArrayBuilder _ _ | Ty.FixedStructArrayBuilder _ _ | Ty.Regex | Ty.Captures | Ty.CliCommand
  | Ty.CliParsed | Ty.TcpConn | Ty.TcpListener | Ty.UdpSocket | Ty.Child | Ty.File | Ty.HttpRequest
  | Ty.HttpResponse | Ty.HttpClient | Ty.HttpServer | Ty.HttpRequestCtx | Ty.ResponseBuilder | Ty.HttpStream
  | Ty.HttpUpgrade | Ty.HttpReadStream | Ty.HttpSseStream | Ty.Command | Ty.RunOutput | Ty.RunBytes
  | Ty.DictEncoded _ _ | Ty.Resource _ => true
  | _ => false
  end.

Section Builder.
Context (t : Tables).

Definition plan_enter (ty : Ty) (s : PlanState) : PlanState :=
  match ty with
  | Ty.Tagged id =>
      plan_node (NTagged id)
        ((λ _, [PEnter (expand_tagged_ty (Ty.Tagged id) (t_tagged t)); PExitTagged id]) <$> get (t_tagged t) id) s
  | Ty.Tuple id =>
      plan_node (NTuple id)
        (d ← get (t_tuples t) id;
         if (length (elems d) <? 2)%nat then None
         else Some (plan_scalars (elems d) ++ [PExitTuple id (length (elems d))])) s
  | Ty.Struct id =>
      plan_node (NStruct id)
        ((λ d, map (λ f, PEnter (fd_ty f)) (sd_fields d) ++ [PExitStruct id (length (sd_fields d))])
          <$> get (t_structs t) id) s
  | Ty.StructArray id len => push_items [PEnter (Ty.Struct id); PExitFixedArray len] s
  | Ty.Array element len => push_items [PEnter (scalar_to_ty element); PExitFixedArray len] s
  | Ty.Option payload => push_items [PEnter (scalar_to_ty payload); PExitOption] s
  | Ty.Result ok err => push_items [PEnter (scalar_to_ty ok); PEnter (scalar_to_ty err); PExitResult] s
  | Ty.Enum id =>
      plan_node (NEnum id)
        ((λ d, plan_scalars (concat (map payload (variants d))) ++
               [PExitEnum id (map (λ v, length (payload v)) (variants d))]) <$> get (t_enums t) id) s
  | ty => if drop_leaf ty then push_plan {| b_plan := DP_Leaf ty; b_needs := true |} s else push_plan none_built s
  end.

(** [built.len().checked_sub(n)] and [built.drain(start..)]: the last [n] plans in the
    order they were pushed, and what stays. *)
Definition drain_plans (n : nat) (b : list Built) : option (list Built * list Built) :=
  if (n <=? length b)%nat then Some (rev (take n b), drop n b) else None.

(** The end of a nominal expansion: deactivate, memoize, push. *)
Definition plan_finish (n : Node) (b : Built) (rest : list Built) (s : PlanState) : PlanState :=
  {| p_caches := plan_insert n b (p_caches s); p_active := deactivate n (p_active s); p_work := p_work s;
     p_built := b :: rest |}.

(** [children.by_ref().take(count)], variant by variant. *)
Fixpoint regroup {A} (counts : list nat) (l : list A) : list (list A) :=
  match counts with [] => [] | n :: counts => take n l :: regroup counts (drop n l) end.

(** One turn; [inr] is an early return of the whole function. *)
Definition plan_step (item : PlanWork) (s : PlanState) : res (PlanState + DropPlan) :=
  match item with
  | PEnter ty => Ret (inl (plan_enter ty s))
  | PExitTagged id =>
      let* plan := unwrap (head (p_built s)) in
      Ret (inl {| p_caches := plan_insert (NTagged id) plan (p_caches s); p_active := deactivate (NTagged id) (p_active s);
                  p_work := p_work s; p_built := p_built s |})
  | PExitStruct id fields =>
      let* '(children, rest) := unwrap (drain_plans fields (p_built s)) in
      let needs := existsb b_needs children in
      Ret (inl (plan_finish (NStruct id)
        {| b_plan := DP_Struct id (imap (λ i c, (N.of_nat i, b_plan c)) children) needs; b_needs := needs |} rest s))
  | PExitTuple id elements =>
      match drain_plans elements (p_built s) with
      | None => Ret (inr DP_Invalid)
      | Some (children, rest) =>
          let needs := existsb b_needs children in
          Ret (inl (plan_finish (NTuple id) {| b_plan := DP_Tuple id (map b_plan children) needs; b_needs := needs |} rest s))
      end
  | PExitFixedArray len =>
      match p_built s with
      | [] => Ret (inr DP_Invalid)
      | element :: rest =>
          Ret (inl (with_built ({| b_plan := DP_FixedArray (b_plan element) len; b_needs := b_needs element |} :: rest) s))
      end
  | PExitOption =>
      match p_built s with
      | [] => Panic
      | payload :: rest =>
          Ret (inl (with_built ({| b_plan := DP_Option (b_plan payload); b_needs := b_needs payload |} :: rest) s))
      end
  | PExitResult =>
      match p_built s with
      | err :: ok :: rest =>
          Ret (inl (with_built ({| b_plan := DP_Result (b_plan ok) (b_plan err); b_needs := b_needs ok || b_needs err |} :: rest) s))
      | _ => Panic
      end
  | PExitEnum id variants =>
      let* '(children, rest) := unwrap (drain_plans (sum_list variants) (p_built s)) in
      let needs := existsb b_needs children in
      Ret (inl (plan_finish (NEnum id)
        {| b_plan := DP_Enum id (regroup variants (map b_plan children)) needs; b_needs := needs |} rest s))
  end.

Fixpoint plan_run (fuel : nat) (s : PlanState) : res DropPlan :=
  match p_work s with
  | [] => Ret (b_plan (default none_built (head (p_built s))))
  | item :: rest =>
      match fuel with
      | O => OutOfFuel
      | S fuel =>
          let* o := plan_step item {| p_caches := p_caches s; p_active := p_active s; p_work := rest; p_built := p_built s |} in
          match o with inl s' => plan_run fuel s' | inr plan => Ret plan end
      end
  end.

(** The turns an entered type takes before its nominal parts, and all expansions. *)
Definition plan_fuel : nat :=
  (4 + sum_list_with struct_cost (t_structs t) + sum_list_with tuple_cost (t_tuples t)
   + sum_list_with enum_cost (t_enums t) + 5 * length (t_tagged t))%nat.

Definition drop_plan (ty : Ty) : res DropPlan :=
  plan_run plan_fuel {| p_caches := no_plans; p_active := no_active; p_work := [PEnter ty]; p_built := [] |}.

(** ** The questions answered from the plan *)
Definition ty_is_move (ty : Ty) : res bool := let* p := drop_plan ty in needs_drop p.
Definition struct_is_move (id : N) : res bool := ty_is_move (Ty.Struct id).

Definition is_owned_droppable (ty : Ty) : res bool :=
  let* own :=
    match ty with
    | Ty.Box _ | Ty.Task _ => Ret false
    | _ => let* p := drop_plan ty in needs_drop p
    end in
  if own : bool then Ret true
  else match ty with Ty.StructArray id _ => struct_is_move id | _ => Ret false end.

Definition tuple_discard_needs_hidden_local (ty : Ty) : res bool := is_owned_droppable ty.
Definition needs_drop_flag (ty : Ty) : res bool := is_owned_droppable ty.
Definition owned_field_extraction_is_valid (ty : Ty) : res bool :=
  let* plan := drop_plan ty in
  let* valid := is_valid plan in
  if valid then needs_drop plan else Ret false.
End Builder.
