(* ===== verification/DropPlanSpec.v ===== *)
(** * What a cleanup plan promises

    The by-value graph of types, stated without stacks, caches or active sets; the
    plan built for a type is valid exactly when that graph is finite below the type,
    and the type is Move exactly unless the graph is finite and owns nothing. *)
From Stdlib Require Import ZArith Lia.
From stdpp Require Import gmap relations.
From S2P Require Import Prelude Types TypeLayout LayoutSpec DropPlan.
Local Open Scope Z_scope.

(** ** The by-value graph *)
Section Graph.
Context (t : Tables).

(** The types stored inside a value of [ty]; [None] when its definition is missing or
    malformed. *)
Definition parts (ty : Ty) : option (list Ty) :=
  match ty with
  | Ty.Tagged id => (λ _, [expand_tagged_ty ty (t_tagged t)]) <$> get (t_tagged t) id
  | Ty.Tuple id => d ← get (t_tuples t) id; if (length (elems d) <? 2)%nat then None else Some (map scalar_to_ty (elems d))
  | Ty.Struct id => (λ d, map fd_ty (sd_fields d)) <$> get (t_structs t) id
  | Ty.Enum id => (λ d, map scalar_to_ty (concat (map payload (variants d)))) <$> get (t_enums t) id
  | Ty.StructArray id _ => Some [Ty.Struct id]
  | Ty.Array element _ => Some [scalar_to_ty element]
  | Ty.Option p => Some [scalar_to_ty p]
  | Ty.Result ok err => Some [scalar_to_ty ok; scalar_to_ty err]
  | _ => Some []
  end.
Definition part (ty c : Ty) : Prop := ∃ cs, parts ty = Some cs ∧ c ∈ cs.

(** Every definition exists and no type contains itself by value. *)
Inductive finite (ty : Ty) : Prop :=
  | finite_intro cs : parts ty = Some cs → (∀ c, c ∈ cs → finite c) → finite ty.
(** A cleanup is reachable. *)
Inductive owns (ty : Ty) : Prop :=
  | owns_leaf : drop_leaf ty = true → owns ty
  | owns_part c : part ty c → owns c → owns ty.
(** Finite, and without a cleanup. *)
Inductive copyable (ty : Ty) : Prop :=
  | copyable_intro cs : parts ty = Some cs → drop_leaf ty = false → (∀ c, c ∈ cs → copyable c) → copyable ty.

Lemma copyable_spec ty : copyable ty ↔ finite ty ∧ ¬ owns ty.
Proof.
  split.
  - induction 1 as [ty cs Hp Hl _ IH]. split; [exists cs; naive_solver|].
    destruct 1 as [|c (cs' & Hp' & Hc)]; [congruence|]. naive_solver.
  - intros [Hf Ho]. induction Hf as [ty cs Hp _ IH]. exists cs; [done| |].
    + destruct (drop_leaf ty) eqn:Hl; [|done]. destruct Ho. by constructor.
    + intros c Hc. apply IH; [done|]. intros Hoc. apply Ho. eapply owns_part; [|done]. by exists cs.
Qed.

Lemma finite_acyclic ty : finite ty → ¬ tc part ty ty.
Proof.
  induction 1 as [ty cs Hp _ IH]. intros Hc. inversion Hc as [? ? (cs' & Hp' & Hin)|? c ? (cs' & Hp' & Hin) Hr]; subst.
  - eapply IH; [naive_solver|]. exact Hc.
  - eapply IH; [naive_solver|]. eapply tc_r; [exact Hr|]. by exists cs'.
Qed.
End Graph.

(** ** Plans as values *)
Fixpoint plan_valid (p : DropPlan) : bool :=
  match p with
  | DP_Invalid => false
  | DP_None | DP_Leaf _ => true
  | DP_FixedArray e _ => plan_valid e
  | DP_Option e => plan_valid e
  | DP_Result ok err => plan_valid ok && plan_valid err
  | DP_Struct _ fields _ => forallb (λ f, plan_valid f.2) fields
  | DP_Tuple _ es _ => forallb plan_valid es
  | DP_Enum _ vs _ => forallb (forallb plan_valid) vs
  end.
Fixpoint plan_moves (p : DropPlan) : bool :=
  match p with
  | DP_None => false
  | DP_Leaf _ | DP_Invalid => true
  | DP_Struct _ _ needs | DP_Tuple _ _ needs | DP_Enum _ _ needs => needs
  | DP_FixedArray e _ => plan_moves e
  | DP_Option e => plan_moves e
  | DP_Result ok err => plan_moves ok || plan_moves err
  end.

Lemma plan_size_pos p : (0 < plan_size p)%nat.
Proof. destruct p; simpl; lia. Qed.

Lemma needs_drop_loop_spec fuel work :
  (sum_list_with plan_size work ≤ fuel)%nat → needs_drop_loop fuel work = Ret (existsb plan_moves work).
Proof.
  revert work. induction fuel as [|fuel IH]; intros [|p work] H; try done; simpl in H.
  { pose proof (plan_size_pos p). lia. }
  cbn [needs_drop_loop existsb]. destruct p; simpl in *; try (destruct needs; [done|]); try done; rewrite IH by (simpl; lia); simpl; by rewrite ?orb_assoc.
Qed.

Lemma needs_drop_spec p : needs_drop p = Ret (plan_moves p).
Proof. unfold needs_drop. rewrite needs_drop_loop_spec by (simpl; lia). simpl. by rewrite orb_false_r. Qed.

Lemma forallb_concat {A} (f : A → bool) l : forallb f (concat l) = forallb (forallb f) l.
Proof. induction l as [|x l IH]; simpl; [done|]. by rewrite forallb_app, IH. Qed.
Lemma forallb_map {A B} (f : B → bool) (g : A → B) l : forallb f (map g l) = forallb (λ x, f (g x)) l.
Proof. induction l as [|x l IH]; simpl; congruence. Qed.
Lemma sum_list_with_concat {A} (f : A → nat) l : sum_list_with f (concat l) = sum_list_with (sum_list_with f) l.
Proof. induction l as [|x l IH]; simpl; [done|]. rewrite sum_list_with_app. lia. Qed.
Lemma sum_list_with_map {A B} (f : B → nat) (g : A → B) l : sum_list_with f (map g l) = sum_list_with (λ x, f (g x)) l.
Proof. induction l as [|x l IH]; simpl; congruence. Qed.

Lemma is_valid_loop_spec fuel work :
  (sum_list_with plan_size work ≤ fuel)%nat → is_valid_loop fuel work = Ret (forallb plan_valid work).
Proof.
  revert work. induction fuel as [|fuel IH]; intros [|p work] H; try done; simpl in H.
  { pose proof (plan_size_pos p). lia. }
  cbn [is_valid_loop forallb]. destruct p; simpl in *; try done;
    rewrite IH by (simpl; rewrite ?sum_list_with_app, ?sum_list_with_map, ?sum_list_with_concat; lia); simpl;
    by rewrite ?forallb_app, ?forallb_map, ?forallb_concat, ?andb_assoc.
Qed.

Lemma is_valid_spec p : is_valid p = Ret (plan_valid p).
Proof. unfold is_valid. rewrite is_valid_loop_spec by (simpl; lia). simpl. by rewrite andb_true_r. Qed.

(** ** The builder *)
Section Simulation.
Context (t : Tables).
Let nodes : list (Node * nat) := all_nodes (new_cache (t_structs t) (t_tuples t) (t_enums t) (t_tagged t)).

Definition st (c : PlanCaches) (a : Active) (w : list PlanWork) (b : list Built) : PlanState :=
  {| p_caches := c; p_active := a; p_work := w; p_built := b |}.

(** What a plan says of its type. *)
Record good (ty : Ty) (b : Built) : Prop := {
  g_copy : b_needs b = false ↔ copyable t ty;
  g_moves : plan_moves (b_plan b) = b_needs b;
  g_valid : plan_valid (b_plan b) = true ↔ finite t ty
}.
Definition cached_good (c : PlanCaches) : Prop := ∀ n b, plan_get c n = Some b → good (node_ty n) b.

Lemma good_invalid ty : ¬ finite t ty → good ty invalid_built.
Proof. intros Hf. split; [|done|]; (split; [done|]); [|done]. intros [? _]%copyable_spec. done. Qed.

Lemma good_leaf ty : parts t ty = Some [] → drop_leaf ty = true → good ty {| b_plan := DP_Leaf ty; b_needs := true |}.
Proof.
  intros Hp Hl. split; simpl; [|done|].
  - split; [done|]. intros Hc. inversion Hc. congruence.
  - split; [|done]. intros _. exists []; [done|]. set_solver.
Qed.
Lemma good_none ty : parts t ty = Some [] → drop_leaf ty = false → good ty none_built.
Proof.
  intros Hp Hl. split; simpl; [|done|]; (split; [|done]); intros _; exists []; try done; set_solver.
Qed.

(** A composite is judged by its parts. *)
Lemma good_parts ty cs bs p :
  parts t ty = Some cs → drop_leaf ty = false → Forall2 good cs bs →
  plan_moves p = existsb b_needs bs → plan_valid p = forallb (λ b, plan_valid (b_plan b)) bs →
  good ty {| b_plan := p; b_needs := existsb b_needs bs |}.
Proof.
  intros Hp Hl Hg Hm Hv. split; simpl; [|done|].
  - rewrite <-not_true_iff_false, existsb_exists. split.
    + intros Hn. exists cs; [done|done|]. intros c (i & Hi)%list_elem_of_lookup.
      destruct (Forall2_lookup_l _ _ _ _ _ Hg Hi) as (b & Hb & [Hc _ _]). apply Hc.
      destruct (b_needs b) eqn:E; [|done]. destruct Hn. exists b. split; [|done]. apply list_elem_of_In, list_elem_of_lookup. eauto.
    + intros Hc (b & (i & Hi)%list_elem_of_In%list_elem_of_lookup & Hb).
      destruct (Forall2_lookup_r _ _ _ _ _ Hg Hi) as (c & Hci & [Hcc _ _]). inversion Hc as [cs' Hp' _ Hall]. rewrite Hp in Hp'. simplify_eq.
      assert (b_needs b = false) by (apply Hcc, Hall, list_elem_of_lookup; eauto). congruence.
  - rewrite Hv, forallb_forall. split.
    + intros Hall. exists cs; [done|]. intros c (i & Hi)%list_elem_of_lookup.
      destruct (Forall2_lookup_l _ _ _ _ _ Hg Hi) as (b & Hb & [_ _ Hc]). apply Hc, Hall, list_elem_of_In, list_elem_of_lookup. eauto.
    + intros Hc b (i & Hi)%list_elem_of_In%list_elem_of_lookup.
      destruct (Forall2_lookup_r _ _ _ _ _ Hg Hi) as (c & Hci & [_ _ Hcc]). inversion Hc as [cs' Hp' Hall]. rewrite Hp in Hp'. simplify_eq.
      apply Hcc, Hall, list_elem_of_lookup. eauto.
Qed.

(** *** Turns *)
Definition reaches (k : nat) (s s' : PlanState) : Prop := ∀ fuel, plan_run t (k + fuel) s = plan_run t fuel s'.
Lemma plan_refl s : reaches 0 s s.
Proof. by intros fuel. Qed.
Lemma plan_trans k1 k2 s1 s2 s3 : reaches k1 s1 s2 → reaches k2 s2 s3 → reaches (k1 + k2) s1 s3.
Proof. intros H1 H2 fuel. rewrite <-Nat.add_assoc, H1. apply H2. Qed.
Lemma plan_turn c a i w b s' : plan_step t i (st c a w b) = Ret (inl s') → reaches 1 (st c a (i :: w) b) s'.
Proof. intros H fuel. simpl. unfold st in H. by rewrite H. Qed.

(** *** The cost of what is still free *)
Definition unplanned (c : PlanCaches) (a : Active) (n : Node) : bool :=
  match plan_get c n with Some _ => false | None => negb (is_active a n) end.
Definition free_cost (c : PlanCaches) (a : Active) : nat := sum_list_with (λ p, if unplanned c a p.1 then p.2 else 0%nat) nodes.

Lemma plan_get_insert c n m b : plan_get (plan_insert n b c) m = if decide (m = n) then Some b else plan_get c m.
Proof.
  case_decide as Hd; [subst m; destruct n; apply lookup_insert_eq|].
  destruct n, m; simpl; try done; apply lookup_insert_ne; congruence.
Qed.

Lemma free_cost_activate c a n k :
  (n, k) ∈ nodes → unplanned c a n = true → (k + free_cost c (activate n a) ≤ free_cost c a)%nat.
Proof.
  intros Hin Hf. unfold free_cost.
  pose proof (sum_list_with_drop (λ p, if unplanned c (activate n a) p.1 then p.2 else 0%nat)
    (λ p, if unplanned c a p.1 then p.2 else 0%nat) nodes (n, k)) as H. simpl in H.
  assert (unplanned c (activate n a) n = false) as Hn.
  { unfold unplanned in *. destruct (plan_get c n); [done|]. rewrite is_active_activate, bool_decide_eq_true_2 by done. done. }
  rewrite Hf, Hn in H. enough (∀ x : Node * nat, x ∈ nodes →
    ((if unplanned c (activate n a) x.1 then x.2 else 0%nat) ≤ (if unplanned c a x.1 then x.2 else 0%nat))%nat) as Hle.
  { specialize (H Hle Hin). lia. }
  intros [m j] _. simpl. unfold unplanned. destruct (plan_get c m); [lia|]. rewrite is_active_activate.
  destruct (bool_decide (m = n)), (is_active a m); simpl; lia.
Qed.

Lemma free_cost_le c a c' a' :
  (∀ m, unplanned c' a' m = true → unplanned c a m = true) → (free_cost c' a' ≤ free_cost c a)%nat.
Proof.
  intros H. apply sum_list_with_le. intros [m j] _. simpl. specialize (H m).
  destruct (unplanned c' a' m); [rewrite H by done; lia|lia].
Qed.

(** *** Entering a type builds a good plan of it *)
Definition above (a : Active) (ty : Ty) : Prop := ∀ m, is_active a m = true → tc (part t) (node_ty m) ty.
Definition enters (ty : Ty) (c : PlanCaches) (a : Active) (rest : list PlanWork) (b : list Built) : Prop :=
  ∃ k c' a' p, reaches k (st c a (PEnter ty :: rest) b) (st c' a' rest (p :: b)) ∧ cached_good c' ∧
    (∀ m, is_active a' m = is_active a m) ∧ good ty p ∧
    (k + free_cost c' a' ≤ enter_cost ty + free_cost c a)%nat ∧ (free_cost c' a' ≤ free_cost c a)%nat.
Definition enters_within (F : nat) (ty : Ty) : Prop :=
  ∀ c a rest b, cached_good c → above a ty → (free_cost c a ≤ F)%nat → enters ty c a rest b.

Lemma enters_list F tys c a rest b :
  (∀ ty, ty ∈ tys → enters_within F ty ∧ above a ty) → cached_good c → (free_cost c a ≤ F)%nat →
  ∃ k c' a' bs, reaches k (st c a (map PEnter tys ++ rest) b) (st c' a' rest (rev bs ++ b)) ∧ cached_good c' ∧
    (∀ m, is_active a' m = is_active a m) ∧ Forall2 good tys bs ∧
    (k + free_cost c' a' ≤ sum_list_with enter_cost tys + free_cost c a)%nat ∧ (free_cost c' a' ≤ free_cost c a)%nat.
Proof.
  revert c a b. induction tys as [|ty tys IH]; intros c a b Hty Hc HF.
  { exists 0%nat, c, a, []. by split_and!. }
  destruct (Hty ty) as [Hin Hab]; [set_solver|].
  destruct (Hin c a (map PEnter tys ++ rest) b Hc Hab HF) as (k1 & c1 & a1 & p & Hr1 & Hc1 & Ha1 & Hg & Hk1 & Hf1).
  destruct (IH c1 a1 (p :: b)) as (k2 & c2 & a2 & bs & Hr2 & Hc2 & Ha2 & Hgs & Hk2 & Hf2); [|done|lia|].
  { intros ty' Hty'. destruct (Hty ty') as [H1 H2]; [set_solver|]. split; [done|]. intros m Hm. apply H2. by rewrite <-Ha1. }
  exists (k1 + k2)%nat, c2, a2, (p :: bs). split_and!; [|done| |by constructor|simpl; lia|lia].
  - simpl. rewrite <-app_assoc. eapply plan_trans; [exact Hr1|exact Hr2].
  - intros m. by rewrite Ha2.
Qed.

Lemma above_part a ty cs c : parts t ty = Some cs → c ∈ cs → above a ty → above a c.
Proof. intros Hp Hc Ha m Hm. eapply tc_r; [by apply Ha|]. by exists cs. Qed.

(** A type whose expansion is not memoized. *)
Lemma enters_wrapper F ty cs i :
  parts t ty = Some cs → (∀ c, c ∈ cs → enters_within F c) →
  (∀ s, plan_enter t ty s = push_items (map PEnter cs ++ [i]) s) →
  (∀ bs c a w b, Forall2 good cs bs → ∃ p, good ty p ∧ plan_step t i (st c a w (rev bs ++ b)) = Ret (inl (st c a w (p :: b)))) →
  (2 + sum_list_with enter_cost cs ≤ enter_cost ty)%nat → enters_within F ty.
Proof.
  intros Hp Hcs He Hi Hcost c a rest b Hc Ha HF.
  destruct (enters_list F cs c a (i :: rest) b) as (k & c' & a' & bs & Hr & Hc' & Ha' & Hg & Hk & Hf); [|done|done|].
  { intros x Hx. split; [by apply Hcs|by eapply above_part]. }
  destruct (Hi bs c' a' rest b Hg) as (p & Hgp & Hs).
  exists (1 + k + 1)%nat, c', a', p. split_and!; [|done|done|done|lia|done].
  eapply plan_trans; [|by apply plan_turn]. eapply plan_trans; [apply plan_turn; simpl; by rewrite He|].
  unfold push_items. simpl. rewrite <-app_assoc. exact Hr.
Qed.

(** A nominal type: cached, being expanded, without a definition, or expanded. *)
Lemma enters_node F n e kn :
  (∀ s, plan_enter t (node_ty n) s = plan_node n e s) →
  (e = None → parts t (node_ty n) = None) →
  (∀ w, e = Some w → ∃ cs i, w = map PEnter cs ++ [i] ∧ parts t (node_ty n) = Some cs ∧
     (∀ F' c, (F' < F)%nat → c ∈ cs → enters_within F' c) ∧ (n, kn) ∈ nodes ∧ (1 + sum_list_with enter_cost cs ≤ kn)%nat ∧
     (∀ bs c a w b, Forall2 good cs bs → ∃ p, good (node_ty n) p ∧
        plan_step t i (st c a w (rev bs ++ b)) = Ret (inl (st (plan_insert n p c) (deactivate n a) w (p :: b))))) →
  enters_within F (node_ty n).
Proof.
  intros He Hnone Hsome c a rest b Hc Ha HF.
  assert (Hr0 : reaches 1 (st c a (PEnter (node_ty n) :: rest) b) (plan_node n e (st c a rest b))).
  { apply plan_turn. simpl. by rewrite He. }
  assert (Hcost : (1 ≤ enter_cost (node_ty n))%nat) by (destruct n; simpl; lia).
  unfold plan_node in Hr0. simpl in Hr0. destruct (plan_get c n) as [p|] eqn:Hg.
  { exists 1%nat, c, a, p. split_and!; [done|done|done|by apply Hc|lia|done]. }
  destruct (is_active a n) eqn:Hact.
  { exists 1%nat, c, a, invalid_built. split_and!; [done|done|done| |lia|done].
    apply good_invalid. intros Hf. apply (finite_acyclic t _ Hf). by apply Ha. }
  assert (Hsame : ∀ m, is_active (deactivate n (activate n a)) m = is_active a m).
  { intros m. rewrite is_active_deactivate, is_active_activate. destruct (decide (m = n)) as [ -> |].
    - rewrite Hact. by rewrite bool_decide_eq_false_2 by naive_solver.
    - rewrite (bool_decide_eq_false_2 (m = n)), bool_decide_eq_true_2 by done. done. }
  destruct e as [w|].
  2: { exists 1%nat, c, (deactivate n (activate n a)), invalid_built.
       assert (free_cost c (deactivate n (activate n a)) ≤ free_cost c a)%nat as Hle.
       { apply free_cost_le. intros m. unfold unplanned. by rewrite Hsame. }
       split_and!; [done|done|done| |lia|done]. apply good_invalid. intros [cs Hp _]. rewrite Hnone in Hp by done. done. }
  destruct (Hsome w eq_refl) as (cs & i & -> & Hp & Hcs & Hin & Hkn & Hi).
  assert (Hun : unplanned c a n = true) by (unfold unplanned; rewrite Hg, Hact; done).
  pose proof (free_cost_activate c a n kn Hin Hun) as Hfc.
  destruct (enters_list (free_cost c (activate n a)) cs c (activate n a) (i :: rest) b)
    as (k & c' & a' & bs & Hr & Hc' & Ha' & Hgs & Hk & Hf); [|done|lia|].
  { intros x Hx. split; [apply Hcs; [lia|done]|]. intros m. rewrite is_active_activate. intros [Hm|Hm]%orb_true_iff.
    - apply bool_decide_eq_true in Hm as ->. apply tc_once. by exists cs.
    - eapply above_part; [exact Hp|done|done|done]. }
  destruct (Hi bs c' a' rest b Hgs) as (p & Hgp & Hs).
  assert (Hact' : ∀ m, is_active (deactivate n a') m = is_active a m).
  { intros m. rewrite <-Hsame, !is_active_deactivate. by rewrite Ha'. }
  assert (free_cost (plan_insert n p c') (deactivate n a') ≤ free_cost c' a')%nat as Hfin.
  { apply free_cost_le. intros m. unfold unplanned. rewrite plan_get_insert, is_active_deactivate.
    case_decide as Hd; [done|]. by rewrite bool_decide_eq_true_2. }
  exists (1 + k + 1)%nat, (plan_insert n p c'), (deactivate n a'), p. split_and!; [| |done|done|lia|lia].
  - eapply plan_trans; [|by apply plan_turn]. eapply plan_trans; [exact Hr0|].
    unfold push_items, with_active. simpl. rewrite <-app_assoc. exact Hr.
  - intros m b'. rewrite plan_get_insert. case_decide as Hd; [|apply Hc']. intros [= <-]. by subst m.
Qed.

Lemma drain_plans_rev bs b k : k = length bs → drain_plans k (rev bs ++ b) = Some (bs, b).
Proof.
  intros ->. unfold drain_plans. rewrite length_app, length_rev. destruct (Nat.leb_spec (length bs) (length bs + length b)); [|lia].
  rewrite <-(length_rev bs), take_app_length, drop_app_length. by rewrite rev_involutive.
Qed.

Lemma concat_regroup {A} counts (l : list A) : sum_list counts = length l → concat (regroup counts l) = l.
Proof.
  revert l. induction counts as [|n counts IH]; intros l H; simpl in *; [by destruct l|].
  rewrite IH; [apply take_drop|]. rewrite length_drop. lia.
Qed.

Lemma forallb_imap (bs : list Built) (f : nat → N) :
  forallb (λ x : N * DropPlan, plan_valid x.2) (imap (λ i c, (f i, b_plan c)) bs) = forallb (λ b, plan_valid (b_plan b)) bs.
Proof. revert f. induction bs as [|b bs IH]; intros f; simpl; [done|]. f_equal. apply (IH (f ∘ S)). Qed.

(** The exits, on the plans of the parts. *)
Lemma exit_struct id d bs c a w b :
  get (t_structs t) id = Some d → Forall2 good (map fd_ty (sd_fields d)) bs →
  ∃ p, good (Ty.Struct id) p ∧ plan_step t (PExitStruct id (length (sd_fields d))) (st c a w (rev bs ++ b)) =
    Ret (inl (st (plan_insert (NStruct id) p c) (deactivate (NStruct id) a) w (p :: b))).
Proof.
  intros Hd Hg. pose proof (Forall2_length _ _ _ Hg) as Hl. rewrite length_map in Hl. eexists. split.
  2: { unfold plan_step. cbn [p_built st]. rewrite drain_plans_rev by done. reflexivity. }
  eapply good_parts; [simpl; by rewrite Hd|done|exact Hg|done|]. simpl. apply forallb_imap.
Qed.

Lemma exit_tuple id d bs c a w b :
  get (t_tuples t) id = Some d → (2 ≤ length (elems d))%nat → Forall2 good (map scalar_to_ty (elems d)) bs →
  ∃ p, good (Ty.Tuple id) p ∧ plan_step t (PExitTuple id (length (elems d))) (st c a w (rev bs ++ b)) =
    Ret (inl (st (plan_insert (NTuple id) p c) (deactivate (NTuple id) a) w (p :: b))).
Proof.
  intros Hd H2 Hg. pose proof (Forall2_length _ _ _ Hg) as Hl. rewrite length_map in Hl. eexists. split.
  2: { unfold plan_step. cbn [p_built st]. rewrite drain_plans_rev by done. reflexivity. }
  eapply good_parts; [|done|exact Hg|done|simpl; apply forallb_map]. simpl. rewrite Hd. simpl.
  destruct (Nat.ltb_spec (length (elems d)) 2); [lia|done].
Qed.

Lemma exit_enum id d bs c a w b :
  get (t_enums t) id = Some d → Forall2 good (map scalar_to_ty (concat (map payload (variants d)))) bs →
  ∃ p, good (Ty.Enum id) p ∧ plan_step t (PExitEnum id (map (λ v, length (payload v)) (variants d))) (st c a w (rev bs ++ b)) =
    Ret (inl (st (plan_insert (NEnum id) p c) (deactivate (NEnum id) a) w (p :: b))).
Proof.
  intros Hd Hg. pose proof (Forall2_length _ _ _ Hg) as Hl. rewrite length_map, length_concat_payload in Hl. eexists. split.
  2: { unfold plan_step. cbn [p_built st]. rewrite drain_plans_rev by done. reflexivity. }
  eapply good_parts; [simpl; by rewrite Hd|done|exact Hg|done|]. cbn [plan_valid].
  rewrite <-forallb_concat, concat_regroup by (by rewrite length_map). apply forallb_map.
Qed.

Lemma good_same ty cs bs p needs :
  needs = existsb b_needs bs → parts t ty = Some cs → drop_leaf ty = false → Forall2 good cs bs →
  plan_moves p = existsb b_needs bs → plan_valid p = forallb (λ b, plan_valid (b_plan b)) bs → good ty {| b_plan := p; b_needs := needs |}.
Proof. intros ->. apply good_parts. Qed.

Lemma exit_one ty x bs c a w b i (f : DropPlan → DropPlan) :
  parts t ty = Some [x] → drop_leaf ty = false → Forall2 good [x] bs →
  (∀ p, plan_moves (f p) = plan_moves p) → (∀ p, plan_valid (f p) = plan_valid p) →
  (∀ y, plan_step t i (st c a w (y :: b)) = Ret (inl (st c a w ({| b_plan := f (b_plan y); b_needs := b_needs y |} :: b)))) →
  ∃ p, good ty p ∧ plan_step t i (st c a w (rev bs ++ b)) = Ret (inl (st c a w (p :: b))).
Proof.
  intros Hp Hl Hg Hm Hv Hi. inversion Hg as [|? y ? ys Hy Hys]; subst. inversion Hys; subst. eexists. split; [|apply Hi].
  eapply good_same; [|exact Hp|done|exact Hg| |]; simpl; rewrite ?orb_false_r, ?andb_true_r; [done|rewrite Hm; apply Hy|apply Hv].
Qed.

Lemma exit_result ok err bs c a w b :
  Forall2 good [scalar_to_ty ok; scalar_to_ty err] bs →
  ∃ p, good (Ty.Result ok err) p ∧ plan_step t PExitResult (st c a w (rev bs ++ b)) = Ret (inl (st c a w (p :: b))).
Proof.
  intros Hg. inversion Hg as [|? o ? ys Ho Hys]; subst. inversion Hys as [|? e ? zs He Hzs]; subst. inversion Hzs; subst.
  eexists. split; [|reflexivity].
  eapply good_same; [|done|done|exact Hg| |]; simpl; rewrite ?orb_false_r, ?andb_true_r; [done| |done].
  by rewrite (g_moves _ _ Ho), (g_moves _ _ He).
Qed.

Lemma exit_tagged id d bs c a w b :
  get (t_tagged t) id = Some d → Forall2 good [expand_tagged_ty (Ty.Tagged id) (t_tagged t)] bs →
  ∃ p, good (Ty.Tagged id) p ∧ plan_step t (PExitTagged id) (st c a w (rev bs ++ b)) =
    Ret (inl (st (plan_insert (NTagged id) p c) (deactivate (NTagged id) a) w (p :: b))).
Proof.
  intros Hd Hg. inversion Hg as [|? y ? ys Hy Hys]; subst. inversion Hys; subst. exists y. split; [|done].
  destruct y as [p n]. eapply good_same; [|unfold parts; by rewrite Hd|done|exact Hg| |]; simpl; rewrite ?orb_false_r, ?andb_true_r; [done|apply Hy|done].
Qed.

Definition wraps (ty : Ty) : bool :=
  match ty with Ty.Option _ | Ty.Result _ _ | Ty.Array _ _ | Ty.StructArray _ _ => true | _ => false end.
Lemma scalar_no_wrap p : wraps (scalar_to_ty p) = false.
Proof. by destruct p. Qed.

Lemma enters_leaf F ty b :
  good ty b → (∀ s, plan_enter t ty s = push_plan b s) → (1 ≤ enter_cost ty)%nat → enters_within F ty.
Proof.
  intros Hg He Hcost c a rest bs Hc Ha HF. exists 1%nat, c, a, b. split_and!; [|done|done|done|lia|done].
  apply plan_turn. simpl. by rewrite He.
Qed.

Lemma node_in {A} (f : nat → A → Node * nat) (l : list A) id d :
  (∀ x, x ∈ imap f l → x ∈ nodes) → get l id = Some d → f (N.to_nat id) d ∈ nodes.
Proof. intros H Hd. apply H. by apply get_imap. Qed.

Lemma map_fields l : map (λ f, PEnter (fd_ty f)) l = map PEnter (map fd_ty l).
Proof. by rewrite map_map. Qed.
Lemma map_scalars l : plan_scalars l = map PEnter (map scalar_to_ty l).
Proof. unfold plan_scalars. by rewrite map_map. Qed.
Lemma sum_scalars l : sum_list_with enter_cost (map scalar_to_ty l) = length l.
Proof. induction l as [|p l IH]; simpl; [done|]. rewrite scalar_to_ty_cost, IH. done. Qed.

Lemma enters_plain F ty :
  (∀ F' ty, (F' < F)%nat → enters_within F' ty) → wraps ty = false → enters_within F ty.
Proof.
  intros IH Hw.
  assert (∀ x, x ∈ imap (λ i d, (NStruct (N.of_nat i), struct_cost d)) (t_structs t) → x ∈ nodes) as Hs.
  { intros x Hx. apply all_nodes_elem. by left. }
  assert (∀ x, x ∈ imap (λ i d, (NTuple (N.of_nat i), tuple_cost d)) (t_tuples t) → x ∈ nodes) as Ht.
  { intros x Hx. apply all_nodes_elem. by right; left. }
  assert (∀ x, x ∈ imap (λ i d, (NEnum (N.of_nat i), enum_cost d)) (t_enums t) → x ∈ nodes) as He.
  { intros x Hx. apply all_nodes_elem. by do 2 right; left. }
  assert (∀ x, x ∈ imap (λ i d, (NTagged (N.of_nat i), 5%nat)) (t_tagged t) → x ∈ nodes) as Hg.
  { intros x Hx. apply all_nodes_elem. by do 3 right. }
  destruct ty; try discriminate Hw;
    try (eapply enters_leaf; [first [by apply good_leaf|by apply good_none]|done|simpl; lia]).
  - apply (enters_node F (NTagged n) ((λ _, [PEnter (expand_tagged_ty (Ty.Tagged n) (t_tagged t)); PExitTagged n]) <$> get (t_tagged t) n) 5); [done| |].
    + intros H%fmap_None. unfold parts, node_ty. by rewrite H.
    + intros w (d & Hd & ->)%fmap_Some. eexists [_], _. split; [reflexivity|]. split; [unfold parts, node_ty; by rewrite Hd|].
      split; [by intros; apply IH|]. pose proof (node_in _ _ _ _ Hg Hd) as Hin. simpl in Hin. rewrite N2Nat.id in Hin.
      split; [done|]. split; [|intros; by eapply exit_tagged].
      pose proof (expand_tagged_cost (Ty.Tagged n) (t_tagged t) n eq_refl). cbn [sum_list_with]. lia.
  - apply (enters_node F (NStruct n) ((λ d, map (λ f, PEnter (fd_ty f)) (sd_fields d) ++ [PExitStruct n (length (sd_fields d))]) <$> get (t_structs t) n)
      (default 0%nat (struct_cost <$> get (t_structs t) n))); [done| |].
    + intros H%fmap_None. unfold parts, node_ty. by rewrite H.
    + intros w (d & Hd & ->)%fmap_Some. unfold parts, node_ty. rewrite Hd. simpl. rewrite map_fields. do 2 eexists. split; [reflexivity|]. split; [done|].
      split; [by intros; apply IH|]. pose proof (node_in _ _ _ _ Hs Hd) as Hin. simpl in Hin. rewrite N2Nat.id in Hin.
      split; [done|]. split; [unfold struct_cost; rewrite sum_list_with_map; lia|intros; by apply exit_struct].
  - apply (enters_node F (NTuple n) (d ← get (t_tuples t) n; if (length (elems d) <? 2)%nat then None
         else Some (plan_scalars (elems d) ++ [PExitTuple n (length (elems d))]))
      (default 0%nat (tuple_cost <$> get (t_tuples t) n))); [done| |].
    + unfold parts, node_ty. destruct (get (t_tuples t) n) as [d|]; simpl; [|done]. by destruct (length (elems d) <? 2)%nat.
    + intros w (d & Hd & Hw')%bind_Some. unfold parts, node_ty. rewrite Hd. simpl.
      destruct (Nat.ltb_spec (length (elems d)) 2); [done|]. injection Hw' as <-. rewrite map_scalars.
      do 2 eexists. split; [reflexivity|]. split; [done|].
      split; [by intros; apply IH|]. pose proof (node_in _ _ _ _ Ht Hd) as Hin. simpl in Hin. rewrite N2Nat.id in Hin.
      split; [done|]. split; [unfold tuple_cost; rewrite sum_scalars; lia|intros; by apply exit_tuple].
  - apply (enters_node F (NEnum n) ((λ d, plan_scalars (concat (map payload (variants d))) ++
               [PExitEnum n (map (λ v, length (payload v)) (variants d))]) <$> get (t_enums t) n)
      (default 0%nat (enum_cost <$> get (t_enums t) n))); [done| |].
    + intros H%fmap_None. unfold parts, node_ty. by rewrite H.
    + intros w (d & Hd & ->)%fmap_Some. unfold parts, node_ty. rewrite Hd. simpl. rewrite map_scalars. do 2 eexists.
      split; [reflexivity|]. split; [done|]. split; [by intros; apply IH|].
      pose proof (node_in _ _ _ _ He Hd) as Hin. simpl in Hin. rewrite N2Nat.id in Hin.
      split; [done|]. split; [unfold enum_cost; rewrite sum_scalars; lia|intros; by apply exit_enum].
Qed.

Lemma enters_all F ty : enters_within F ty.
Proof.
  revert ty. induction (lt_wf F) as [F _ IH]. intros ty.
  assert (Hplain : ∀ x, wraps x = false → enters_within F x) by (intros x; apply enters_plain; eauto).
  destruct (wraps ty) eqn:Hw; [|by apply Hplain]. destruct ty; try discriminate Hw.
  - eapply (enters_wrapper F _ [_] PExitOption); [done| |done| |simpl; rewrite scalar_to_ty_cost; lia].
    + intros c Hc. apply Hplain. apply list_elem_of_singleton in Hc as ->. apply scalar_no_wrap.
    + intros. by eapply (exit_one _ _ _ _ _ _ _ _ DP_Option).
  - eapply (enters_wrapper F _ [_; _] PExitResult); [done| |done| |simpl; rewrite !scalar_to_ty_cost; lia].
    + intros c Hc. apply Hplain. apply elem_of_cons in Hc as [ -> |Hc]; [apply scalar_no_wrap|].
      apply list_elem_of_singleton in Hc as ->. apply scalar_no_wrap.
    + intros. by eapply exit_result.
  - eapply (enters_wrapper F _ [_] (PExitFixedArray n)); [done| |done| |simpl; rewrite scalar_to_ty_cost; lia].
    + intros c Hc. apply Hplain. apply list_elem_of_singleton in Hc as ->. apply scalar_no_wrap.
    + intros. by eapply (exit_one _ _ _ _ _ _ _ _ (λ p, DP_FixedArray p n)).
  - eapply (enters_wrapper F _ [_] (PExitFixedArray n')); [done| |done| |simpl; lia].
    + intros c Hc. apply Hplain. by apply list_elem_of_singleton in Hc as ->.
    + intros. by eapply (exit_one _ _ _ _ _ _ _ _ (λ p, DP_FixedArray p n')).
Qed.

(** The plan of a type, and what it says. *)
Lemma drop_plan_good ty : ∃ b, drop_plan t ty = Ret (b_plan b) ∧ good ty b.
Proof.
  destruct (enters_all (free_cost no_plans no_active) ty no_plans no_active [] []) as (k & c' & a' & p & Hr & _ & _ & Hg & Hk & _).
  { intros [] b; simpl; by rewrite lookup_empty. }
  { intros m. by destruct m. }
  { done. }
  exists p. split; [|done]. unfold drop_plan.
  assert (k ≤ plan_fuel t)%nat as Hle.
  { assert (free_cost no_plans no_active ≤ sum_list_with snd nodes)%nat.
    { apply sum_list_with_le. intros [m j] _. simpl. destruct (unplanned _ _ _); lia. }
    pose proof (layout_fuel_enough (new_cache (t_structs t) (t_tuples t) (t_enums t) (t_tagged t))) as Hf. fold nodes in Hf.
    unfold layout_fuel in Hf. simpl in Hf. unfold plan_fuel. assert (enter_cost ty ≤ 4)%nat by (destruct ty; simpl; lia). lia. }
  specialize (Hr (plan_fuel t - k)%nat). replace (k + (plan_fuel t - k))%nat with (plan_fuel t) in Hr by lia.
  unfold st in Hr. rewrite Hr. by destruct (plan_fuel t - k)%nat.
Qed.
End Simulation.

Lemma ty_is_move_decides t ty : ∃ b, ty_is_move t ty = Ret b ∧ (b = false ↔ copyable t ty).
Proof.
  destruct (drop_plan_good t ty) as (b & Hp & Hg). exists (b_needs b). unfold ty_is_move. rewrite Hp. cbn [res_bind].
  rewrite needs_drop_spec, (g_moves _ _ _ Hg). split; [done|apply Hg].
Qed.

(** Values whose storage a region frees in bulk. *)
Definition region_freed (ty : Ty) : bool := match ty with Ty.Box _ | Ty.Task _ => true | _ => false end.

Lemma needs_drop_flag_eq t ty :
  needs_drop_flag t ty = if region_freed ty then Ret false else ty_is_move t ty.
Proof.
  unfold needs_drop_flag, is_owned_droppable. destruct (region_freed ty) eqn:Hr; [by destruct ty|].
  assert (match ty with Ty.Box _ | Ty.Task _ => Ret false | _ => let* p := drop_plan t ty in needs_drop p end = ty_is_move t ty) as ->.
  { by destruct ty. }
  destruct (ty_is_move_decides t ty) as (b & Hb & Hc). rewrite Hb. cbn [res_bind]. destruct b; [done|].
  destruct ty; try done. unfold struct_is_move. destruct (ty_is_move_decides t (Ty.Struct n)) as (b' & Hb' & Hc'). rewrite Hb'. f_equal.
  destruct b'; [|done]. exfalso. assert (copyable t (Ty.StructArray n n')) as Hs by (by apply Hc). inversion Hs as [cs [= <-] _ Hall].
  assert (true = false) by (apply Hc', Hall; set_solver). done.
Qed.

(** C6. Move or Copy is decided by the by-value graph: for every type and every table,
    cyclic and ill-formed ones included, the ownership question is answered, a type is
    Copy exactly when it is finite and no cleanup is reachable from it, and a drop flag
    is asked for exactly the Move types whose storage no region frees. *)
Theorem ty_is_move_spec :
  ∀ t ty, ∃ b, ty_is_move t ty = Ret b ∧ (b = false ↔ finite t ty ∧ ¬ owns t ty) ∧
    needs_drop_flag t ty = Ret (b && negb (region_freed ty)).
Proof.
  intros t ty. destruct (ty_is_move_decides t ty) as (b & Hb & Hc). exists b. split; [done|]. split; [by rewrite Hc, copyable_spec|].
  rewrite needs_drop_flag_eq, Hb. by destruct (region_freed ty), b.
Qed.

(** C13. A cleanup plan is valid exactly when every definition below the type exists and no
    type contains itself by value: the builder fails closed on every other table, without
    a panic and within its fuel, whatever the caches hold when the cycle is met. *)
Theorem drop_plan_valid_iff_finite :
  ∀ t ty, ∃ p v, drop_plan t ty = Ret p ∧ is_valid p = Ret v ∧ (v = true ↔ finite t ty).
Proof.
  intros t ty. destruct (drop_plan_good t ty) as (b & Hp & Hg). exists (b_plan b), (plan_valid (b_plan b)).
  split; [done|]. split; [apply is_valid_spec|apply Hg].
Qed.
