(* ===== verification/CopyType.v ===== *)
(** * Independent copies ([independent_copy_type] in [crates/align_sema/src/lib.rs])

    Which types hold inline data that can be copied out of storage without keeping
    its authority: a depth-first search of the by-value graph with the set of types
    on the path and the set of finished types, that stops at the first cycle, missing
    definition or type that borrows, calls or owns. *)
From Stdlib Require Import ZArith Lia.
From stdpp Require Import gmap relations.
From S2P Require Import Prelude Types TypeLayout LayoutSpec DropPlan DropPlanSpec.
Local Open Scope Z_scope.

Definition one_of (bits : Z) (l : list Z) : bool := existsb (Z.eqb bits) l.

Definition independent_copy_numeric (ty : Ty) : bool :=
  match ty with
  | Ty.Int it => one_of (it_bits it) [8; 16; 32; 64]
  | Ty.Float ft => one_of (ft_bits ft) [32; 64]
  | _ => false
  end.

Definition independent_copy_vector (ty : Ty) : option (Scalar * N) :=
  match ty with
  | Ty.Vec element lanes =>
      if one_of (Z.of_N lanes) [2; 4; 8; 16] && independent_copy_numeric (scalar_to_ty element)
      then Some (element, lanes) else None
  | _ => None
  end.

Definition independent_copy_leaf (ty : Ty) : bool :=
  match ty with Ty.Unit | Ty.Bool | Ty.Char | Ty.Rng => true | _ => false end
  || independent_copy_numeric ty
  || match ty with
     | Ty.Array element _ =>
         match element with Scalar.Unit | Scalar.Bool | Scalar.Char => true | _ => false end
         || independent_copy_numeric (scalar_to_ty element)
     | _ => false
     end
  || bool_decide (is_Some (independent_copy_vector ty))
  || match ty with Ty.Mask element lanes => bool_decide (is_Some (independent_copy_vector (Ty.Vec element lanes))) | _ => false end.

Section Copy.
Context (t : Tables).

(** What the arm of a type pushes; [None] where it returns [false]. *)
Definition copy_parts (ty : Ty) : option (list Ty) :=
  match ty with
  | Ty.Struct id => (λ d, map fd_ty (sd_fields d)) <$> get (t_structs t) id
  | Ty.Tuple id => (λ d, map scalar_to_ty (elems d)) <$> get (t_tuples t) id
  | Ty.Enum id => (λ d, map scalar_to_ty (concat (map payload (variants d)))) <$> get (t_enums t) id
  | Ty.Array element _ | Ty.Option element => Some [scalar_to_ty element]
  | Ty.StructArray id _ => Some [Ty.Struct id]
  | Ty.Result ok error => Some [scalar_to_ty ok; scalar_to_ty error]
  | Ty.Tagged id =>
      match get (t_tagged t) id with
      | Some (TaggedType.Option payload) => Some [scalar_to_ty payload]
      | Some (TaggedType.Result ok error) => Some [scalar_to_ty ok; scalar_to_ty error]
      | None => None
      end
  | _ => None
  end.

(** The stack has its top at the head; the sets are lists without order. *)
Fixpoint copy_loop (fuel : nat) (pending : list (Ty * bool)) (active complete : list Ty) : res bool :=
  match pending with
  | [] => Ret true
  | (ty, exiting) :: pending =>
      match fuel with
      | O => OutOfFuel
      | S fuel =>
          if exiting : bool then copy_loop fuel pending (filter (.≠ ty) active) (ty :: complete)
          else if bool_decide (ty ∈ complete) || independent_copy_leaf ty then copy_loop fuel pending active complete
          else if bool_decide (ty ∈ active) then Ret false
          else match copy_parts ty with
               | None => Ret false
               | Some cs => copy_loop fuel (rev (map (λ c, (c, false)) cs) ++ (ty, true) :: pending) (ty :: active) complete
               end
      end
  end.

(** The types a search from [root] can meet, and the turns it can take. *)
Definition table_types : list Ty :=
  concat (map (λ d, map fd_ty (sd_fields d)) (t_structs t)) ++
  concat (map (λ d, map scalar_to_ty (elems d)) (t_tuples t)) ++
  concat (map (λ d, map scalar_to_ty (concat (map payload (variants d)))) (t_enums t)) ++
  concat (map (λ g, match g with
                    | TaggedType.Option p => [scalar_to_ty p]
                    | TaggedType.Result ok err => [scalar_to_ty ok; scalar_to_ty err] end) (t_tagged t)).
Definition wrapped (ty : Ty) : list Ty :=
  match ty with
  | Ty.Array e _ | Ty.Option e => [scalar_to_ty e]
  | Ty.StructArray id _ => [Ty.Struct id]
  | Ty.Result ok err => [scalar_to_ty ok; scalar_to_ty err]
  | _ => []
  end.
Definition universe (root : Ty) : list Ty := let base := root :: table_types in base ++ concat (map wrapped base).
Definition copy_fuel (root : Ty) : nat :=
  (2 + sum_list_with (λ ty, S (length (default [] (copy_parts ty)))) (universe root))%nat.

Definition independent_copy_type (root : Ty) : res bool :=
  if independent_copy_leaf root then Ret true else copy_loop (copy_fuel root) [(root, false)] [] [].

(** Consumers of the predicate. *)
Definition independent_record_array_result (elem : Ty) : res (option Ty) :=
  match elem with
  | Ty.Struct id =>
      match get (t_structs t) id with
      | None => Ret None
      | Some d =>
          match sd_align d with
          | Some _ => Ret None
          | None => let* ok := independent_copy_type elem in Ret (if ok : bool then Some (Ty.DynStructArray id Layout.Aos) else None)
          end
      end
  | _ => Ret None
  end.
Definition copy_sort_result (elem : Ty) : res (option Ty) :=
  match elem with
  | Ty.Struct _ => independent_record_array_result elem
  | _ =>
      Ret (scalar ← ty_to_scalar elem;
           if bool_decide (is_Some (scalar_to_prim scalar)) || bool_decide (scalar = Scalar.Str)
           then Some (Ty.DynArray scalar) else None)
  end.
Definition indexed_array_field_copy_element (ty : Ty) : res (option Ty) :=
  match (match ty with
         | Ty.DynArray element => Some (scalar_to_ty element)
         | Ty.DynStructArray id Layout.Aos => Some (Ty.Struct id)
         | _ => None end) with
  | None => Ret None
  | Some element => let* ok := independent_copy_type element in Ret (if ok : bool then Some element else None)
  end.
Definition indexed_array_field_has_length (ty : Ty) : bool :=
  match ty with Ty.DynArray _ | Ty.DynStructArray _ Layout.Aos => true | _ => false end.
Definition indexed_field_view_element (ty : Ty) : res (option Scalar) :=
  match (match ty with
         | Ty.Array element _ | Ty.DynArray element => Some element
         | Ty.StructArray id _ | Ty.DynStructArray id Layout.Aos => Some (Scalar.Struct id)
         | _ => None end) with
  | None => Ret None
  | Some element => let* ok := independent_copy_type (scalar_to_ty element) in Ret (if ok : bool then Some element else None)
  end.

(** ** The search decides an inductive predicate *)
Inductive independent (ty : Ty) : Prop :=
  | independent_leaf : independent_copy_leaf ty = true → independent ty
  | independent_parts cs : copy_parts ty = Some cs → (∀ c, c ∈ cs → independent c) → independent ty.
Definition copy_part (ty c : Ty) : Prop := ∃ cs, copy_parts ty = Some cs ∧ independent_copy_leaf ty = false ∧ c ∈ cs.

Lemma independent_acyclic ty : independent ty → ¬ tc copy_part ty ty.
Proof.
  induction 1 as [ty Hl|ty cs Hp _ IH]; intros Hc.
  - inversion Hc as [? ? (? & _ & Hl' & _)|? ? ? (? & _ & Hl' & _)]; congruence.
  - inversion Hc as [? ? (cs' & Hp' & _ & Hin)|? c ? (cs' & Hp' & Hl & Hin) Hr]; subst.
    + eapply IH; [naive_solver|]. exact Hc.
    + eapply IH; [naive_solver|]. eapply tc_r; [exact Hr|]. by exists cs'.
Qed.

Section Search.
Context (root : Ty).
Let U := universe root.

Definition weight (active complete : list Ty) (ty : Ty) : nat :=
  if bool_decide (ty ∈ active ∨ ty ∈ complete) then 0%nat else S (length (default [] (copy_parts ty))).
Definition copy_cost (active complete : list Ty) : nat := sum_list_with (weight active complete) U.

(** Searching [ty] ends with it finished, or ends the search. *)
Definition searched (F : nat) (ty : Ty) : Prop :=
  ∀ active complete rest,
    (∀ x, x ∈ complete → independent x) → (∀ m, m ∈ active → tc copy_part m ty) →
    (copy_cost active complete ≤ F)%nat →
    (independent ty ∧ ∃ k complete',
       (∀ fuel, copy_loop (k + fuel) ((ty, false) :: rest) active complete = copy_loop fuel rest active complete') ∧
       (∀ x, x ∈ complete' → independent x) ∧ (k + copy_cost active complete' ≤ 1 + copy_cost active complete)%nat ∧
       (copy_cost active complete' ≤ copy_cost active complete)%nat) ∨
    (¬ independent ty ∧ ∃ k, (∀ fuel, copy_loop (k + fuel) ((ty, false) :: rest) active complete = Ret false) ∧
       (k ≤ 1 + copy_cost active complete)%nat).

Lemma search_list F cs active complete rest :
  (∀ c, c ∈ cs → searched F c ∧ ∀ m, m ∈ active → tc copy_part m c) →
  (∀ x, x ∈ complete → independent x) → (copy_cost active complete ≤ F)%nat →
  ((∀ c, c ∈ cs → independent c) ∧ ∃ k complete',
     (∀ fuel, copy_loop (k + fuel) (map (λ c, (c, false)) cs ++ rest) active complete = copy_loop fuel rest active complete') ∧
     (∀ x, x ∈ complete' → independent x) ∧ (k + copy_cost active complete' ≤ length cs + copy_cost active complete)%nat ∧
     (copy_cost active complete' ≤ copy_cost active complete)%nat) ∨
  ((∃ c, c ∈ cs ∧ ¬ independent c) ∧ ∃ k,
     (∀ fuel, copy_loop (k + fuel) (map (λ c, (c, false)) cs ++ rest) active complete = Ret false) ∧
     (k ≤ length cs + copy_cost active complete)%nat).
Proof.
  revert complete. induction cs as [|c cs IH]; intros complete Hcs Hc HF.
  { left. split; [set_solver|]. exists 0%nat, complete. split_and!; [done|done|simpl; lia|lia]. }
  destruct (Hcs c) as [Hs Hab]; [set_solver|]. simpl.
  destruct (Hs active complete (map (λ c, (c, false)) cs ++ rest) Hc Hab HF) as [(Hi & k & complete' & Hk & Hc' & Hb & Hle)|(Hi & k & Hk & Hb)].
  2: { right. split; [exists c; set_solver|]. exists k. split; [done|lia]. }
  destruct (IH complete') as [(His & k2 & complete2 & Hk2 & Hc2 & Hb2 & Hle2)|((c2 & Hin & Hi2) & k2 & Hk2 & Hb2)];
    [intros x Hx; apply Hcs; set_solver|done|lia| |].
  - left. split; [set_solver|]. exists (k + k2)%nat, complete2. split_and!; [|done|lia|lia].
    intros fuel. by rewrite <-Nat.add_assoc, Hk, Hk2.
  - right. split; [exists c2; set_solver|]. exists (k + k2)%nat. split; [|lia]. intros fuel. by rewrite <-Nat.add_assoc, Hk, Hk2.
Qed.

Lemma weight_mono active complete active' complete' ty :
  (∀ x, x ∈ active ∨ x ∈ complete → x ∈ active' ∨ x ∈ complete') →
  (weight active' complete' ty ≤ weight active complete ty)%nat.
Proof. intros H. unfold weight. repeat case_bool_decide; try lia. naive_solver. Qed.

Lemma cost_activate active complete ty cs :
  ty ∈ U → ty ∉ active → ty ∉ complete → copy_parts ty = Some cs →
  (S (length cs) + copy_cost (ty :: active) complete ≤ copy_cost active complete)%nat.
Proof.
  intros HU Ha Hc Hp. unfold copy_cost.
  pose proof (sum_list_with_drop (weight (ty :: active) complete) (weight active complete) U ty) as H.
  assert (weight active complete ty = S (length cs)) as E1 by (unfold weight; rewrite Hp, bool_decide_eq_false_2 by naive_solver; done).
  assert (weight (ty :: active) complete ty = 0%nat) as E2 by (unfold weight; rewrite bool_decide_eq_true_2 by set_solver; done).
  rewrite E1, E2 in H. enough (∀ x, x ∈ U → (weight (ty :: active) complete x ≤ weight active complete x)%nat) as Hm by (specialize (H Hm HU); lia).
  intros x _. apply weight_mono. set_solver.
Qed.

Lemma cost_exit ty active complete : (copy_cost active (ty :: complete) ≤ copy_cost (ty :: active) complete)%nat.
Proof. apply sum_list_with_le. intros x _. apply weight_mono. set_solver. Qed.

Lemma list_elem_of_rev {A} (x : A) l : x ∈ rev l ↔ x ∈ l.
Proof. by rewrite !list_elem_of_In, <-in_rev. Qed.

Lemma filter_fresh ty (active : list Ty) : ty ∉ active → filter (.≠ ty) (ty :: active) = active.
Proof.
  intros H. rewrite filter_cons_False by naive_solver. induction active as [|x l IH]; [done|].
  rewrite filter_cons_True by set_solver. f_equal. apply IH. set_solver.
Qed.

Lemma search F ty :
  (∀ F' c, (F' < F)%nat → c ∈ U → searched F' c) → (∀ cs c, copy_parts ty = Some cs → c ∈ cs → c ∈ U) → ty ∈ U → searched F ty.
Proof.
  intros IH Hclosed HU active complete rest Hc Hab HF.
  destruct (bool_decide (ty ∈ complete) || independent_copy_leaf ty) eqn:Hdone.
  { left. split.
    - apply orb_true_iff in Hdone as [H%bool_decide_eq_true|H]; [by apply Hc|by apply independent_leaf].
    - exists 1%nat, complete. split_and!; [|done|lia|lia]. intros fuel. simpl. by rewrite Hdone. }
  apply orb_false_iff in Hdone as [Hcomp Hleaf]. assert (E : bool_decide (ty ∈ complete) || independent_copy_leaf ty = false) by (by rewrite Hcomp, Hleaf).
  apply bool_decide_eq_false in Hcomp.
  destruct (decide (ty ∈ active)) as [Hact|Hact].
  { right. split; [intros Hi; eapply independent_acyclic; [exact Hi|by apply Hab]|]. exists 1%nat. split; [|lia].
    intros fuel. simpl. rewrite E. by rewrite bool_decide_eq_true_2. }
  destruct (copy_parts ty) as [cs|] eqn:Hp.
  2: { right. split; [intros Hi; inversion Hi; congruence|]. exists 1%nat. split; [|lia].
       intros fuel. simpl. rewrite E, bool_decide_eq_false_2 by done. by rewrite Hp. }
  pose proof (cost_activate active complete ty cs HU Hact Hcomp Hp) as Hcost.
  assert (Hstep : ∀ fuel, copy_loop (S fuel) ((ty, false) :: rest) active complete =
    copy_loop fuel (map (λ c, (c, false)) (rev cs) ++ (ty, true) :: rest) (ty :: active) complete).
  { intros fuel. cbn [copy_loop]. rewrite E, bool_decide_eq_false_2 by done. rewrite Hp, map_rev. done. }
  destruct (search_list (copy_cost (ty :: active) complete) (rev cs) (ty :: active) complete ((ty, true) :: rest))
    as [(Hi & k & complete' & Hk & Hc' & Hb & Hle)|((c & Hin & Hi) & k & Hk & Hb)]; [|done|lia| |].
  { intros c Hin. rewrite list_elem_of_rev in Hin. split; [apply IH; [lia|by apply (Hclosed cs)]|].
    intros m [ -> |Hm]%elem_of_cons; [apply tc_once; by exists cs|]. eapply tc_r; [by apply Hab|]. by exists cs. }
  - left. split; [apply (independent_parts _ cs); [done|]; intros c Hin; apply Hi; by rewrite list_elem_of_rev|].
    rewrite length_rev in Hb. pose proof (cost_exit ty active complete').
    exists (S (k + 1))%nat, (ty :: complete'). split_and!; [| |lia|lia].
    + intros fuel. rewrite Nat.add_succ_l, Hstep, <-Nat.add_assoc, Hk. cbn [copy_loop Nat.add]. by rewrite filter_fresh.
    + intros x [ -> |Hx]%elem_of_cons; [|by apply Hc']. apply (independent_parts _ cs); [done|]. intros c Hin. apply Hi. by rewrite list_elem_of_rev.
  - right. split; [|exists (S k); split; [intros fuel; by rewrite Nat.add_succ_l, Hstep, Hk|rewrite length_rev in Hb; lia]].
    intros Hind. inversion Hind as [|cs' Hp' Hall]; [congruence|]. apply Hi, Hall. simplify_eq. by rewrite list_elem_of_rev in Hin.
Qed.

Lemma in_concat_get {A} (f : A → list Ty) l id d c : get l id = Some d → c ∈ f d → c ∈ concat (map f l).
Proof.
  unfold get. intros Hd Hc. apply list_elem_of_In, in_concat. exists (f d). split; [|by apply list_elem_of_In].
  apply in_map, list_elem_of_In, list_elem_of_lookup. eauto.
Qed.

Lemma nominal_parts ty cs c : wraps ty = false → copy_parts ty = Some cs → c ∈ cs → c ∈ table_types.
Proof.
  intros Hw Hp Hc. unfold table_types. destruct ty; try discriminate Hw; try discriminate Hp; simpl in Hp.
  - do 3 (apply elem_of_app; right). destruct (get (t_tagged t) n) as [g|] eqn:Hg; [|done].
    eapply in_concat_get; [exact Hg|]. destruct g; by injection Hp as <-.
  - apply elem_of_app. left. apply fmap_Some in Hp as (d & Hd & ->). by eapply in_concat_get.
  - apply elem_of_app. right. apply elem_of_app. left. apply fmap_Some in Hp as (d & Hd & ->). by eapply in_concat_get.
  - do 2 (apply elem_of_app; right). apply elem_of_app. left. apply fmap_Some in Hp as (d & Hd & ->).
    by eapply (in_concat_get (λ d, map scalar_to_ty (concat (map payload (variants d))))).
Qed.

Lemma wrapped_plain ty c : c ∈ wrapped ty → wraps c = false.
Proof. destruct ty; simpl; rewrite ?elem_of_cons, ?elem_of_nil; try tauto; intros H; destruct_or?; subst; try done; apply scalar_no_wrap. Qed.

Lemma universe_closed ty cs c : ty ∈ U → copy_parts ty = Some cs → c ∈ cs → c ∈ U.
Proof.
  intros HU Hp Hc. unfold U, universe. destruct (wraps ty) eqn:Hw.
  - apply elem_of_app. right. apply list_elem_of_In, in_concat. exists (wrapped ty). split.
    + apply in_map, list_elem_of_In. apply elem_of_app in HU as [HU|HU]; [done|].
      apply list_elem_of_In, in_concat in HU as (l & Hl & Hty). apply in_map_iff in Hl as (x & <- & _).
      apply list_elem_of_In, wrapped_plain in Hty. congruence.
    + apply list_elem_of_In. destruct ty; try discriminate Hw; simpl in Hp; by injection Hp as <-.
  - apply elem_of_app. left. apply elem_of_cons. right. by eapply nominal_parts.
Qed.

Lemma searched_all F ty : ty ∈ U → searched F ty.
Proof.
  revert ty. induction (lt_wf F) as [F _ IH]. intros ty HU. apply search; [intros; by apply IH| |done].
  intros cs c Hp Hc. by eapply universe_closed.
Qed.
End Search.

Lemma independent_copy_decides root :
  ∃ b, independent_copy_type root = Ret b ∧ (b = true ↔ independent root).
Proof.
  unfold independent_copy_type. destruct (independent_copy_leaf root) eqn:Hl.
  { exists true. split; [done|]. split; [intros _; by apply independent_leaf|done]. }
  assert (HU : root ∈ universe root) by (unfold universe; set_solver).
  assert (Hfuel : (1 + copy_cost root [] [] ≤ copy_fuel root)%nat).
  { unfold copy_fuel, copy_cost. enough (sum_list_with (weight [] []) (universe root) ≤ sum_list_with (λ ty, S (length (default [] (copy_parts ty)))) (universe root))%nat by lia.
    apply sum_list_with_le. intros x _. unfold weight. case_bool_decide; lia. }
  destruct (searched_all root (copy_cost root [] []) root HU [] [] []) as [(Hi & k & complete' & Hk & _ & Hb & _)|(Hi & k & Hk & Hb)];
    [set_solver|set_solver|lia| |].
  - exists true. split; [|done]. specialize (Hk (copy_fuel root - k)%nat).
    replace (k + (copy_fuel root - k))%nat with (copy_fuel root) in Hk by lia. rewrite Hk. by destruct (copy_fuel root - k)%nat.
  - exists false. split; [|done]. specialize (Hk (copy_fuel root - k)%nat).
    by replace (k + (copy_fuel root - k))%nat with (copy_fuel root) in Hk by lia.
Qed.

(** Independent data owns nothing, provided every tuple has two elements. *)
Lemma numeric_copyable ty : independent_copy_numeric ty = true → copyable t ty.
Proof. destruct ty; try done; intros _; exists []; try done; set_solver. Qed.

Lemma leaf_copyable ty : independent_copy_leaf ty = true → copyable t ty.
Proof.
  destruct ty; try discriminate; try (intros _; exists []; try done; set_solver).
  intros H. exists [scalar_to_ty s]; [done|done|]. intros c Hc. apply list_elem_of_singleton in Hc as ->.
  unfold independent_copy_leaf in H. simpl in H. rewrite !orb_false_r in H. apply orb_true_iff in H as [H|H]; [|by apply numeric_copyable].
  destruct s; try discriminate H; exists []; try done; set_solver.
Qed.

Lemma independent_copyable ty :
  (∀ d, d ∈ t_tuples t → (2 ≤ length (elems d))%nat) → independent ty → copyable t ty.
Proof.
  intros Ht. induction 1 as [ty Hl|ty cs Hp _ IH]; [by apply leaf_copyable|].
  assert (parts t ty = Some cs ∧ drop_leaf ty = false → copyable t ty) as Hsame by (intros [? ?]; by exists cs).
  destruct ty; try discriminate Hp; try (apply Hsame; split; [exact Hp|done]).
  - simpl in Hp. destruct (get (t_tagged t) n) as [g|] eqn:Hg; [|done].
    eexists; [unfold parts; by rewrite Hg|done|]. intros c Hc. apply list_elem_of_singleton in Hc as ->. simpl. rewrite Hg.
    destruct g; injection Hp as <-; eexists; try done; exact IH.
  - apply Hsame. split; [|done]. simpl in Hp |- *. destruct (get (t_tuples t) n) as [d|] eqn:Hg; [|done]. simpl in *.
    destruct (Nat.ltb_spec (length (elems d)) 2); [|done]. exfalso.
    assert (d ∈ t_tuples t) as Hd by (unfold get in Hg; apply list_elem_of_lookup; eauto). apply Ht in Hd. lia.
Qed.
End Copy.

(** C14. The search for independent data decides its inductive definition: on every table
    it answers, and it accepts a type exactly when its by-value parts bottom out in
    inline scalars with every definition present and no cycle. *)
Theorem independent_copy_spec :
  ∀ t root, ∃ b, independent_copy_type t root = Ret b ∧ (b = true ↔ independent t root).
Proof. intros t root. apply independent_copy_decides. Qed.

(** Independent data is never Move: what the copy search admits, the ownership
    authority classifies as Copy, provided every tuple has at least two elements. *)
Lemma independent_copy_is_copy :
  ∀ t root, (∀ d, d ∈ t_tuples t → (2 ≤ length (elems d))%nat) →
    independent_copy_type t root = Ret true → ty_is_move t root = Ret false.
Proof.
  intros t root Ht Hi. destruct (independent_copy_decides t root) as (b & Hb & Hind). rewrite Hb in Hi. injection Hi as ->.
  destruct (ty_is_move_decides t root) as (m & -> & Hm). f_equal. apply Hm, independent_copyable; [done|]. by apply Hind.
Qed.

Definition copy_tables : Tables :=
  {| t_structs := [ {| sd_name := str "P"; sd_source_name := str "P"; sd_align := None; sd_c_repr := false;
                       sd_fields := [ {| fd_name := str "k"; fd_ty := Ty.Tagged 0 |}; {| fd_name := str "v"; fd_ty := Ty.Tuple 0 |} ] |} ];
     t_tuples := [ {| elems := [Scalar.Bool; Scalar.Int {| it_bits := 64; it_signed := true |}] |} ];
     t_enums := []; t_tagged := [TaggedType.Option Scalar.Char] |}.
Lemma independent_copy_is_copy_witness : ty_is_move copy_tables (Ty.Struct 0) = Ret false.
Proof.
  apply independent_copy_is_copy; [|vm_compute; reflexivity].
  intros d Hd. apply list_elem_of_singleton in Hd as ->. simpl. lia.
Defined.

(** The arity condition is needed: a tuple of one element is independent and Move. *)
Example short_tuple_is_move :
  let t := {| t_structs := []; t_tuples := [ {| elems := [Scalar.Bool] |} ]; t_enums := []; t_tagged := [] |} in
  independent_copy_type t (Ty.Tuple 0) = Ret true ∧ ty_is_move t (Ty.Tuple 0) = Ret true.
Proof. vm_compute. done. Qed.
