(* ===== verification/Spelling.v ===== *)
(** * Builtin type spellings ([crates/align_sema/src/lib.rs], [process_live.rs])

    The bridge from the spelling of a builtin type in source or in an interface to
    its ownership: the answer is always that of [needs_drop_flag] and [ty_is_move] on
    the type the spelling denotes. *)
From Stdlib Require Import ZArith Lia String.
From S2P Require Import Prelude Types DropPlan.
Local Open Scope Z_scope.

Definition strip_prefix (p s : bytes) : option bytes :=
  if bool_decide (take (length p) s = p) then Some (drop (length p) s) else None.
(** [matches!(path, "..." | ...)] and [LIST.contains(&path)] *)
Definition is_one_of (path : bytes) (names : list string) : bool := existsb (λ n, bool_decide (path = str n)) names.

Definition BRIDGE_ELEM : Scalar := Scalar.Int {| it_bits := 64; it_signed := true |}.

Definition BUILTIN_SPELLING_TYS : list (bytes * Ty) :=
  [
   (str "()", Ty.Unit); (str "bool", Ty.Bool); (str "char", Ty.Char);
   (str "f32", Ty.Float {| ft_bits := 32 |}); (str "f64", Ty.Float {| ft_bits := 64 |}); (str "raw", Ty.Raw);
   (str "region", Ty.ArenaHandle); (str "rng", Ty.Rng); (str "str", Ty.Str); (str "string", Ty.String);
   (str "builder", Ty.Builder); (str "json.doc", Ty.JsonDoc); (str "http_headers", Ty.HttpHeaders);
   (str "http_request_view", Ty.HttpRequestView); (str "reader", Ty.Reader); (str "writer", Ty.Writer);
   (str "log.logger", Ty.Logger); (str "xml.reader", Ty.XmlReader); (str "codec.batch", Ty.CodecBatch);
   (str "codec.i64_column", Ty.CodecI64Column); (str "codec.f64_column", Ty.CodecF64Column);
   (str "codec.bool_column", Ty.CodecBoolColumn); (str "codec.str_column", Ty.CodecStrColumn);
   (str "codec.encoder", Ty.CodecEncoder); (str "crypto.digest", Ty.CryptoDigest);
   (str "fs.directory", Ty.FsDirectory); (str "fs.dir_cursor", Ty.FsDirCursor);
   (str "process.signal_subscription", Ty.ProcessSignalSubscription);
   (str "process.child_scope", Ty.ProcessChildScope); (str "process.member", Ty.ProcessMember);
   (str "fs.memory_writer", Ty.FsMemoryWriter); (str "fs.sealed_file", Ty.FsSealedFile);
   (str "process.image", Ty.ProcessImage); (str "process.user_namespace", Ty.ProcessUserNamespace);
   (str "buffer", Ty.Buffer); (str "rs256_private_key", Ty.SignatureKey SignatureKeyKind.Rs256Private);
   (str "crypto.rs256_private_key", Ty.SignatureKey SignatureKeyKind.Rs256Private);
   (str "rs256_public_key", Ty.SignatureKey SignatureKeyKind.Rs256Public);
   (str "crypto.rs256_public_key", Ty.SignatureKey SignatureKeyKind.Rs256Public);
   (str "es256_private_key", Ty.SignatureKey SignatureKeyKind.Es256Private);
   (str "crypto.es256_private_key", Ty.SignatureKey SignatureKeyKind.Es256Private);
   (str "es256_public_key", Ty.SignatureKey SignatureKeyKind.Es256Public);
   (str "crypto.es256_public_key", Ty.SignatureKey SignatureKeyKind.Es256Public);
   (str "ed25519_private_key", Ty.SignatureKey SignatureKeyKind.Ed25519Private);
   (str "crypto.ed25519_private_key", Ty.SignatureKey SignatureKeyKind.Ed25519Private);
   (str "ed25519_public_key", Ty.SignatureKey SignatureKeyKind.Ed25519Public);
   (str "crypto.ed25519_public_key", Ty.SignatureKey SignatureKeyKind.Ed25519Public); (str "file", Ty.File);
   (str "regex", Ty.Regex); (str "captures", Ty.Captures); (str "tcp_conn", Ty.TcpConn);
   (str "tcp_listener", Ty.TcpListener); (str "udp_socket", Ty.UdpSocket); (str "child", Ty.Child);
   (str "command", Ty.Command); (str "run_output", Ty.RunOutput); (str "run_bytes", Ty.RunBytes);
   (str "http_client", Ty.HttpClient); (str "http_request", Ty.HttpRequest);
   (str "http_response", Ty.HttpResponse); (str "http_server", Ty.HttpServer);
   (str "http_request_ctx", Ty.HttpRequestCtx); (str "response_builder", Ty.ResponseBuilder);
   (str "http_stream", Ty.HttpStream); (str "http_upgrade", Ty.HttpUpgrade);
   (str "http_read_stream", Ty.HttpReadStream); (str "http_sse_stream", Ty.HttpSseStream);
   (str "array", Ty.DynArray BRIDGE_ELEM); (str "array_builder", Ty.ArrayBuilder BRIDGE_ELEM);
   (str "box", Ty.Box BRIDGE_ELEM); (str "slice", Ty.Slice BRIDGE_ELEM)
  ].

(** [str::parse::<u8>]: an optional [+], then decimal digits, no overflow. *)
Definition digit (c : Z) : option Z := if (48 <=? c) && (c <=? 57) then Some (c - 48) else None.
Fixpoint digits (acc : Z) (l : bytes) : option Z :=
  match l with
  | [] => Some acc
  | c :: l => d ← digit c; let v := acc * 10 + d in if v <=? 255 then digits v l else None
  end.
Definition parse_u8 (l : bytes) : option Z :=
  let l := match l with 43 :: l' => l' | _ => l end in
  match l with [] => None | _ => digits 0 l end.

Definition parse_int_name (name : bytes) : option IntTy :=
  match name with
  | [] => None
  | c :: rest =>
      signed ← (if c =? 105 then Some true else if c =? 117 then Some false else None);
      bits ← parse_u8 rest;
      if existsb (Z.eqb bits) [8; 16; 32; 64] then Some {| it_bits := bits; it_signed := signed |} else None
  end.

Definition assoc {A} (k : bytes) (l : list (bytes * A)) : option A := snd <$> List.find (λ p, bool_decide (p.1 = k)) l.

Definition builtin_spelling_ty (head : bytes) : option Ty :=
  match assoc head BUILTIN_SPELLING_TYS with
  | Some ty => Some ty
  | None => Ty.Int <$> parse_int_name head
  end.

(** ** The records of the standard library *)
Definition int_ty (bits : Z) (signed : bool) : Ty := Ty.Int {| it_bits := bits; it_signed := signed |}.
Definition record (name : string) (fields : list (string * Ty)) : StructDef :=
  {| sd_name := str name; sd_source_name := str name; sd_align := None; sd_c_repr := false;
     sd_fields := map (λ f, {| fd_name := str f.1; fd_ty := f.2 |}) fields |}.

Definition COPY_NAMES : list string :=
  ["fs.memory_kind"; "process.termination"; "process.wait_result"; "process.readiness"; "process.signal";
   "process.signal_set"; "process.snapshot"; "process.reaped"]%string.
Definition member_info_definition : StructDef :=
  record "process.member_info" [("handle"%string, Ty.ProcessMember); ("pid"%string, int_ty 64 true)].
Definition host_info_definition : StructDef :=
  record "os.host_info"
    [("system"%string, Ty.String); ("release"%string, Ty.String); ("machine"%string, Ty.String);
     ("cpu"%string, Ty.Option Scalar.String);
     ("logical_cpu_count"%string, Ty.Option (Scalar.Int {| it_bits := 64; it_signed := true |}))].
Definition fs_entry_kind_definition : EnumDef :=
  {| ed_name := str "fs.entry_kind"; ed_source_name := str "fs.entry_kind";
     variants := map (λ n, {| ev_name := str n; payload := []; field_base := 1 |})
                   ["Regular"; "Directory"; "Symlink"; "Other"]%string |}.
Definition fs_dir_entry_definition : StructDef :=
  record "fs.dir_entry" [("name"%string, Ty.DynArray (Scalar.Int {| it_bits := 8; it_signed := false |}))].
Definition fs_metadata_definition (kind : N) : StructDef :=
  record "fs.metadata"
    [("kind"%string, Ty.Enum kind); ("device"%string, int_ty 64 false); ("inode"%string, int_ty 64 false);
     ("links"%string, int_ty 64 false); ("mode"%string, int_ty 32 false); ("size"%string, int_ty 64 true);
     ("modified_seconds"%string, int_ty 64 true); ("modified_nanoseconds"%string, int_ty 32 false);
     ("changed_seconds"%string, int_ty 64 true); ("changed_nanoseconds"%string, int_ty 32 false)].

Definition tables_of (structs : list StructDef) (enums : list EnumDef) : Tables :=
  {| t_structs := structs; t_tuples := []; t_enums := enums; t_tagged := [] |}.

(** The two bridges ask the same question of the same type. *)
Definition builtin_spelling_answer (ask : Tables → Ty → res bool) (head : bytes) : res (option bool) :=
  let some (m : res bool) : res (option bool) := let* b := m in Ret (Some b) in
  if bool_decide (head = str "process.member_info") then some (ask (tables_of [member_info_definition] []) (Ty.Struct 0))
  else if is_one_of head COPY_NAMES then Ret (Some false)
  else if bool_decide (head = str "fs.dir_entry") then some (ask (tables_of [fs_dir_entry_definition] []) (Ty.Struct 0))
  else if is_one_of head ["fs.metadata"; "fs.entry_kind"]%string then
    let ty := if bool_decide (head = str "fs.metadata") then Ty.Struct 0 else Ty.Enum 0 in
    some (ask (tables_of [fs_metadata_definition 0] [fs_entry_kind_definition]) ty)
  else if is_one_of head ["os.identity_info"; "fs.access_mode"]%string then Ret (Some false)
  else if bool_decide (head = str "os.host_info") then some (ask (tables_of [host_info_definition] []) (Ty.Struct 0))
  else match builtin_spelling_ty head with
       | None => Ret None
       | Some ty => some (ask (tables_of [] []) ty)
       end.
Definition builtin_spelling_needs_return_cleanup : bytes → res (option bool) := builtin_spelling_answer needs_drop_flag.
Definition builtin_spelling_is_move : bytes → res (option bool) := builtin_spelling_answer ty_is_move.

Example builtin_spellings :
  builtin_spelling_needs_return_cleanup (str "string") = Ret (Some true) ∧
  builtin_spelling_needs_return_cleanup (str "box") = Ret (Some false) ∧
  builtin_spelling_is_move (str "box") = Ret (Some true) ∧
  builtin_spelling_needs_return_cleanup (str "fs.metadata") = Ret (Some false) ∧
  builtin_spelling_is_move (str "os.host_info") = Ret (Some true) ∧
  builtin_spelling_is_move (str "u16") = Ret (Some false) ∧ builtin_spelling_is_move (str "u17") = Ret None.
Proof. vm_compute. done. Qed.
