(* ===== verification/Interface.v ===== *)
(** * Interface summaries ([crates/align_interface/src/lib.rs], [hash.rs]; [crates/align_sema/src/hir.rs])

    What a compilation unit exports to the units that import it: signatures,
    nominal definitions, constants, and the provenance and effect summaries of its
    functions, with the structural checks that make those summaries canonical and
    the 128-bit fingerprint of the whole.  A [u32] is a [Z]; strings are bytes. *)
From Stdlib Require Import ZArith Lia.
From S2P Require Import Prelude Hash Ast.
Local Open Scope Z_scope.

(** ** Fingerprints *)
Record Hash128 := { lo : Z; hi : Z }.

Definition SEED_LO : Z := 0x9E3779B97F4A7C15.
Definition SEED_HI : Z := 0xC2B2AE3D27D4EB4F.

Definition hash128_of (b : bytes) : res Hash128 :=
  let* l := wyhash b SEED_LO in
  let* h := wyhash b SEED_HI in
  Ret {| lo := l; hi := h |}.

(** ** Provenance and effect summaries ([hir.rs]) *)
Inductive ReturnCleanupAbi := RC_None | RC_DynamicBit.
Inductive DropStateEffect := DS_NotApplicable | DS_Invariant | DS_MayChange | DS_Deferred.
Inductive ReturnBorrowSummary := RB_None | RB_Roots (params captures : list Z).
Inductive ReturnRegionSummary := RR_None | RR_Roots (params captures : list Z).

Inductive MutableRetentionRoot := MR_Contained (i : Z) | MR_Storage (i : Z).
Definition retention_index (r : MutableRetentionRoot) : Z := match r with MR_Contained i | MR_Storage i => i end.
Record MutableRetentionDestination := { may_mutate : bool; mrd_roots : list MutableRetentionRoot }.
Abbreviation MutableRetentionSummary := (option (list MutableRetentionDestination)).

Inductive MutableAccessRoot := MA_Contained (i : Z) | MA_Storage (i : Z).
Definition access_index (r : MutableAccessRoot) : Z := match r with MA_Contained i | MA_Storage i => i end.

Inductive CallbackProjection :=
  | CP_StructField (i : Z) | CP_TupleElement (i : Z) | CP_EnumPayload (variant index : Z)
  | CP_OptionSome | CP_ResultOk | CP_ResultErr | CP_ArrayElement.
Record CallbackInput := { ci_parameter : Z; ci_path : list CallbackProjection }.
Inductive CallbackRead := CR_Environment | CR_Argument (i : Z).
Record CallbackRequirement := { cq_input : CallbackInput; cq_read : CallbackRead }.
Record CallbackEffects := { environment_write : bool; argument_writes : list Z }.
Inductive CallbackSource := CS_Parameter (input : CallbackInput) | CS_Known (e : CallbackEffects) | CS_Unknown.
Record CallbackReturn := { cr_path : list CallbackProjection; cr_sources : list CallbackSource }.
Record CallbackContract := { requirements : list CallbackRequirement; cc_returns : list CallbackReturn }.
Record ConditionalAccess := { ca_requirement : CallbackRequirement; ca_roots : list MutableAccessRoot }.
Record MutableAccessEffects := { direct : list MutableAccessRoot; conditional : list ConditionalAccess }.
Abbreviation MutableAccessSummary := (option MutableAccessEffects).

Record MutableViewEffect := {
  may_write_original : bool; must_write_original_element : bool; may_rebind : bool; must_rebind : bool;
  mve_write_roots : list MutableRetentionRoot; mve_rebind_roots : list MutableRetentionRoot
}.
Abbreviation MutableViewEffectSummary := (option (list (option MutableViewEffect))).

(** ** Exported items ([lib.rs]) *)
Inductive Effect := Pure | Impure | Unknown.
Inductive ProducerCertification := RevalidateGenericBody | ValidatedBody.
Definition INLINE_BODY_POLICY_VERSION : Z := 3.

Inductive IType : Type :=
  | IT_Named (path : bytes) (args : list IType)
  | IT_FixedArray (element : IType) (len : Z)
  | IT_Tuple (es : list IType)
  | IT_Fn (params : list IParam) (ret : IType) (return_borrow : ReturnBorrowSummary)
      (return_region : ReturnRegionSummary) (return_cleanup : ReturnCleanupAbi)
with IParam : Type := MkIParam (mode : ParamMode) (ty : IType).
Definition ip_mode (p : IParam) : ParamMode := match p with MkIParam m _ => m end.
Definition ip_ty (p : IParam) : IType := match p with MkIParam _ t => t end.

Record ITypeParam := { tp_name : bytes; tp_bound : option bytes }.
Record IInlineExtern := { ie_link : option bytes; ie_name : bytes; ie_params : list IType; ie_ret : IType }.

Inductive IFnBody :=
  | FB_Absent
  | FB_GenericTemplate (source : bytes)
  | FB_ConcreteInline (policy_version : Z) (source : bytes) (externs : list IInlineExtern).

Record IFnSig := {
  f_name : bytes; f_type_params : list ITypeParam; f_params : list IParam; f_ret : IType;
  f_return_borrow : ReturnBorrowSummary; f_return_region : ReturnRegionSummary;
  f_return_cleanup : ReturnCleanupAbi; f_drop_state_effects : list DropStateEffect;
  f_producer_certification : ProducerCertification; f_effect : Effect;
  f_parallel_transfer_params : list Z; f_mutable_access : MutableAccessSummary;
  f_callback_contract : option CallbackContract; f_mutable_retention : MutableRetentionSummary;
  f_mutable_view_effect : MutableViewEffectSummary; f_resource_hook_body : bool; f_body : IFnBody
}.

Record IStructDef := {
  is_name : bytes; is_type_params : list ITypeParam; is_fields : list (bytes * IType);
  is_align : option Z; is_c_repr : bool; is_generic_body : option bytes
}.
Record IEnumDef := {
  ie_ename : bytes; ie_type_params : list ITypeParam; ie_variants : list (bytes * list IType);
  ie_generic_body : option bytes
}.
Record IResourceDef := {
  ir_name : bytes; ir_type_params : list ITypeParam; ir_generic_arity : Z;
  ir_representation_version : Z; ir_drop_thunk : bytes; ir_drop_abi_fingerprint : bytes
}.
Record IConst := { ic_name : bytes; ic_ty : option IType; ic_value_src : bytes }.
Record OwnedJsonGraphInterfaceEntry := { oj_type_name : bytes; oj_envelope : bytes }.

Record InterfaceSummary := {
  s_unit : bytes; s_fns : list IFnSig; s_structs : list IStructDef;
  s_owned_json_graphs : list OwnedJsonGraphInterfaceEntry; s_enums : list IEnumDef;
  s_resources : list IResourceDef; s_consts : list IConst; s_capabilities : list bytes;
  s_interface_hash : Hash128; s_impl_hash : Hash128
}.

(** ** Derived orders

    [derive(PartialOrd, Ord)]: variants in declaration order, then the fields
    lexicographically; a [Vec], a [str] and a tuple lexicographically; [None]
    before [Some]. *)
Definition lex (a b : comparison) : comparison := match a with Eq => b | c => c end.

Fixpoint list_cmp {A} (cmp : A → A → comparison) (l m : list A) : comparison :=
  match l, m with
  | [], [] => Eq
  | [], _ => Lt
  | _, [] => Gt
  | x :: l, y :: m => lex (cmp x y) (list_cmp cmp l m)
  end.

Definition option_cmp {A} (cmp : A → A → comparison) (a b : option A) : comparison :=
  match a, b with None, None => Eq | None, Some _ => Lt | Some _, None => Gt | Some x, Some y => cmp x y end.

Definition bool_cmp (a b : bool) : comparison := match a, b with false, true => Lt | true, false => Gt | _, _ => Eq end.

Definition str_cmp : bytes → bytes → comparison := list_cmp Z.compare.

Definition retention_cmp (a b : MutableRetentionRoot) : comparison :=
  match a, b with
  | MR_Contained i, MR_Contained j | MR_Storage i, MR_Storage j => i ?= j
  | MR_Contained _, MR_Storage _ => Lt
  | MR_Storage _, MR_Contained _ => Gt
  end.

Definition access_cmp (a b : MutableAccessRoot) : comparison :=
  match a, b with
  | MA_Contained i, MA_Contained j | MA_Storage i, MA_Storage j => i ?= j
  | MA_Contained _, MA_Storage _ => Lt
  | MA_Storage _, MA_Contained _ => Gt
  end.

Definition projection_rank (p : CallbackProjection) : Z :=
  match p with
  | CP_StructField _ => 0 | CP_TupleElement _ => 1 | CP_EnumPayload _ _ => 2 | CP_OptionSome => 3
  | CP_ResultOk => 4 | CP_ResultErr => 5 | CP_ArrayElement => 6
  end.
Definition projection_cmp (a b : CallbackProjection) : comparison :=
  match a, b with
  | CP_StructField i, CP_StructField j | CP_TupleElement i, CP_TupleElement j => i ?= j
  | CP_EnumPayload v i, CP_EnumPayload w j => lex (v ?= w) (i ?= j)
  | _, _ => projection_rank a ?= projection_rank b
  end.
Definition path_cmp : list CallbackProjection → list CallbackProjection → comparison := list_cmp projection_cmp.

Definition input_cmp (a b : CallbackInput) : comparison :=
  lex (ci_parameter a ?= ci_parameter b) (path_cmp (ci_path a) (ci_path b)).
Definition read_cmp (a b : CallbackRead) : comparison :=
  match a, b with
  | CR_Environment, CR_Environment => Eq
  | CR_Environment, CR_Argument _ => Lt
  | CR_Argument _, CR_Environment => Gt
  | CR_Argument i, CR_Argument j => i ?= j
  end.
Definition requirement_cmp (a b : CallbackRequirement) : comparison :=
  lex (input_cmp (cq_input a) (cq_input b)) (read_cmp (cq_read a) (cq_read b)).
Definition effects_cmp (a b : CallbackEffects) : comparison :=
  lex (bool_cmp (environment_write a) (environment_write b))
      (list_cmp Z.compare (argument_writes a) (argument_writes b)).
Definition source_cmp (a b : CallbackSource) : comparison :=
  match a, b with
  | CS_Parameter x, CS_Parameter y => input_cmp x y
  | CS_Parameter _, _ => Lt
  | CS_Known _, CS_Parameter _ => Gt
  | CS_Known x, CS_Known y => effects_cmp x y
  | CS_Known _, CS_Unknown => Lt
  | CS_Unknown, CS_Unknown => Eq
  | CS_Unknown, _ => Gt
  end.

(** [windows(2).any(|p| p[0] >= p[1])] *)
Definition ge (c : comparison) : bool := match c with Lt => false | _ => true end.
Fixpoint any_descent {A} (cmp : A → A → comparison) (l : list A) : bool :=
  match l with
  | x :: ((y :: _) as l') => ge (cmp x y) || any_descent cmp l'
  | _ => false
  end.

(** ** Structural checks ([hir.rs]): [Some reason] is a rejection *)
Definition first_error (l : list (option bytes)) : option bytes :=
  foldr (λ e rest, match e with Some r => Some r | None => rest end) None l.

(** [index as usize >= count] *)
Definition outside (count : nat) (i : Z) : bool := Z.of_nat count <=? i.

Definition validate_callback_source (count : nat) (source : CallbackSource) : option bytes :=
  match source with
  | CS_Parameter input => if outside count (ci_parameter input) then Some (str "callback source parameter") else None
  | CS_Known e => if any_descent Z.compare (argument_writes e) then Some (str "callback source effects order") else None
  | CS_Unknown => None
  end.

Definition validate_callback_return (count : nat) (row : CallbackReturn) : option bytes :=
  if any_descent source_cmp (cr_sources row) then Some (str "callback return canonical structure")
  else first_error (map (validate_callback_source count) (cr_sources row)).

Definition validate_callback_record_order (c : option CallbackContract) (count : nat) (generic : bool) : option bytes :=
  match c with
  | None => None
  | Some c =>
      if generic || any_descent requirement_cmp (requirements c)
         || existsb (λ r, outside count (ci_parameter (cq_input r))) (requirements c)
         || any_descent (λ a b, path_cmp (cr_path a) (cr_path b)) (cc_returns c)
      then Some (str "callback contract canonical structure")
      else first_error (map (validate_callback_return count) (cc_returns c))
  end.

Definition validate_conditional (count : nat) (row : ConditionalAccess) : option bytes :=
  if outside count (ci_parameter (cq_input (ca_requirement row)))
     || (match ca_roots row with [] => true | _ => false end)
     || any_descent access_cmp (ca_roots row)
     || existsb (λ r, outside count (access_index r)) (ca_roots row)
  then Some (str "conditional access roots") else None.

Definition validate_mutable_access (summary : MutableAccessSummary) (count : nat) (generic : bool) : option bytes :=
  match summary with
  | None => None
  | Some e =>
      if generic || any_descent access_cmp (direct e) || existsb (λ r, outside count (access_index r)) (direct e)
      then Some (str "mutable-access roots")
      else if any_descent (λ a b, requirement_cmp (ca_requirement a) (ca_requirement b)) (conditional e)
      then Some (str "conditional access ordering")
      else first_error (map (validate_conditional count) (conditional e))
  end.

Definition is_borrow_mut (m : ParamMode) : bool := match m with BorrowMut => true | _ => false end.

Definition validate_destination (count : nat) (d : MutableRetentionDestination) (mode : ParamMode) : option bytes :=
  if existsb (λ r, outside count (retention_index r)) (mrd_roots d)
  then Some (str "mutable-retention source index out of range")
  else if any_descent retention_cmp (mrd_roots d)
  then Some (str "mutable-retention roots are not strictly ordered")
  else if negb (match mrd_roots d with [] => true | _ => false end) && negb (match mode with BorrowMut | Out => true | _ => false end)
  then Some (str "mutable-retention roots require a mutable destination")
  else if may_mutate d && negb (is_borrow_mut mode)
  then Some (str "mutable-retention mutation flag requires borrow mut")
  else None.

Definition validate_mutable_retention (summary : MutableRetentionSummary) (modes : list ParamMode) (generic : bool) : option bytes :=
  match summary with
  | None => None
  | Some ds =>
      if negb (length ds =? length modes)%nat then Some (str "mutable-retention destination arity mismatch")
      else match first_error (zip_with (validate_destination (length modes)) ds modes) with
           | Some r => Some r
           | None => if generic then Some (str "generic templates cannot carry mutable-retention summaries") else None
           end
  end.
