(* ===== verification/Codec.v ===== *)
(** * The interface artifact codec ([crates/align_interface/src/codec.rs])

    The on-disk form of an interface summary: length-prefixed, little-endian and
    self-delimiting.  A writer yields the bytes it appends, or panics when a
    length does not fit its [u32] prefix; a reader is a bounds-checked cursor over
    a byte slice that fails with a [DecodeError]. *)
From Stdlib Require Import ZArith Lia String.
From S2P Require Import Prelude Utf8 Hash Ast Interface.
Local Open Scope Z_scope.

Definition FORMAT_VERSION : Z := 21.
Definition MAX_TYPE_DEPTH : nat := 128.

(** ** Writer *)
Abbreviation W := (res bytes).

Definition w_cat (a b : W) : W := let* x := a in let* y := b in Ret (x ++ y).
Declare Scope writer_scope.
Delimit Scope writer_scope with writer.
Notation "a +++ b" := (w_cat a b) (at level 60, right associativity) : writer_scope.
Local Open Scope writer_scope.

Definition u32_len (n : nat) : res Z := if Z.of_nat n <=? U32_MAX then Ret (Z.of_nat n) else Panic.

Definition w_bytes (b : bytes) : W := Ret b.
Definition w_u8 (v : Z) : W := Ret [v].
Definition w_bool (v : bool) : W := w_u8 (if v then 1 else 0).
Definition w_u32 (v : Z) : W := Ret (le_bytes 4 v).
Definition w_u64 (v : Z) : W := Ret (le_bytes 8 v).
Definition w_len (n : nat) : W := let* l := u32_len n in w_u32 l.
Definition w_str (s : bytes) : W := w_len (length s) +++ w_bytes s.
Definition w_option {A} (f : A → W) (v : option A) : W := match v with Some x => w_u8 1 +++ f x | None => w_u8 0 end.
Definition w_opt_u32 : option Z → W := w_option w_u32.
Definition w_opt_str : option bytes → W := w_option w_str.
Definition w_all {A} (f : A → W) : list A → W :=
  fix go l := match l with [] => Ret [] | x :: l => f x +++ go l end.
Definition w_seq {A} (f : A → W) (items : list A) : W := w_len (length items) +++ w_all f items.

Definition write_roots (params captures : list Z) : W := w_seq w_u32 params +++ w_seq w_u32 captures.
Definition write_return_borrow (s : ReturnBorrowSummary) : W :=
  match s with RB_None => w_u8 0 | RB_Roots params captures => w_u8 1 +++ write_roots params captures end.
Definition write_return_region (s : ReturnRegionSummary) : W :=
  match s with RR_None => w_u8 0 | RR_Roots params captures => w_u8 1 +++ write_roots params captures end.
Definition write_return_cleanup (v : ReturnCleanupAbi) : W := w_u8 (match v with RC_None => 0 | RC_DynamicBit => 1 end).

Definition mode_tag (m : ParamMode) : Z := match m with ByValue => 0 | Out => 1 | Borrow => 2 | BorrowMut => 3 end.

Fixpoint write_type (t : IType) : W :=
  match t with
  | IT_Named path args => w_u8 0 +++ w_str path +++ w_seq write_type args
  | IT_Tuple es => w_u8 1 +++ w_seq write_type es
  | IT_FixedArray element len => w_u8 3 +++ write_type element +++ w_u32 len
  | IT_Fn params ret borrow region cleanup =>
      w_u8 2 +++ w_seq write_param params +++ write_type ret +++ write_return_borrow borrow +++
      write_return_region region +++ write_return_cleanup cleanup
  end
with write_param (p : IParam) : W :=
  match p with MkIParam mode ty => w_u8 (mode_tag mode) +++ write_type ty end.

Definition write_type_param (tp : ITypeParam) : W := w_str (tp_name tp) +++ w_opt_str (tp_bound tp).
Definition write_type_params : list ITypeParam → W := w_seq write_type_param.
Definition write_effect (e : Effect) : W := w_u8 (match e with Pure => 0 | Impure => 1 | Unknown => 2 end).
Definition write_producer_certification (v : ProducerCertification) : W :=
  w_u8 (match v with RevalidateGenericBody => 0 | ValidatedBody => 1 end).

Definition write_projection (p : CallbackProjection) : W :=
  match p with
  | CP_StructField i => w_u8 0 +++ w_u32 i
  | CP_TupleElement i => w_u8 1 +++ w_u32 i
  | CP_EnumPayload variant index => w_u8 2 +++ w_u32 variant +++ w_u32 index
  | CP_OptionSome => w_u8 3
  | CP_ResultOk => w_u8 4
  | CP_ResultErr => w_u8 5
  | CP_ArrayElement => w_u8 6
  end.
Definition write_callback_path : list CallbackProjection → W := w_seq write_projection.
Definition write_callback_input (i : CallbackInput) : W := w_u32 (ci_parameter i) +++ write_callback_path (ci_path i).
Definition write_callback_read (r : CallbackRead) : W :=
  match r with CR_Environment => w_u8 0 | CR_Argument i => w_u8 1 +++ w_u32 i end.
Definition write_callback_requirement (row : CallbackRequirement) : W :=
  write_callback_input (cq_input row) +++ write_callback_read (cq_read row).
Definition write_callback_source (s : CallbackSource) : W :=
  match s with
  | CS_Parameter input => w_u8 0 +++ write_callback_input input
  | CS_Known e => w_u8 1 +++ w_bool (environment_write e) +++ w_seq w_u32 (argument_writes e)
  | CS_Unknown => w_u8 2
  end.
Definition write_callback_return (row : CallbackReturn) : W :=
  write_callback_path (cr_path row) +++ w_seq write_callback_source (cr_sources row).
Definition write_contract (c : CallbackContract) : W :=
  w_seq write_callback_requirement (requirements c) +++ w_seq write_callback_return (cc_returns c).
Definition write_callback_contract : option CallbackContract → W := w_option write_contract.

Definition write_access_root (r : MutableAccessRoot) : W :=
  match r with MA_Contained i => w_u8 0 +++ w_u32 i | MA_Storage i => w_u8 1 +++ w_u32 i end.
Definition write_conditional (row : ConditionalAccess) : W :=
  write_callback_requirement (ca_requirement row) +++ w_seq write_access_root (ca_roots row).
Definition write_access_effects (e : MutableAccessEffects) : W :=
  w_seq write_access_root (direct e) +++ w_seq write_conditional (conditional e).
Definition write_mutable_access : MutableAccessSummary → W := w_option write_access_effects.

Definition write_retention_root (r : MutableRetentionRoot) : W :=
  w_u8 (match r with MR_Contained _ => 0 | MR_Storage _ => 1 end) +++ w_u32 (retention_index r).
Definition write_destination (d : MutableRetentionDestination) : W :=
  w_bool (may_mutate d) +++ w_seq write_retention_root (mrd_roots d).
Definition write_mutable_retention : MutableRetentionSummary → W := w_option (w_seq write_destination).

Definition b2z (b : bool) : Z := if b then 1 else 0.
Definition view_flags (e : MutableViewEffect) : Z :=
  Z.lor (Z.lor (Z.lor (b2z (may_write_original e)) (Z.shiftl (b2z (must_write_original_element e)) 1))
               (Z.shiftl (b2z (may_rebind e)) 2)) (Z.shiftl (b2z (must_rebind e)) 3).
Definition write_view_effect (e : MutableViewEffect) : W :=
  w_u8 (view_flags e) +++ w_seq write_retention_root (mve_write_roots e) +++ w_seq write_retention_root (mve_rebind_roots e).
Definition write_mutable_view_effect : MutableViewEffectSummary → W := w_option (w_seq (w_option write_view_effect)).

Definition write_drop_state (e : DropStateEffect) : W :=
  w_u8 (match e with DS_NotApplicable => 0 | DS_Invariant => 1 | DS_MayChange => 2 | DS_Deferred => 3 end).
Definition write_drop_state_effects : list DropStateEffect → W := w_seq write_drop_state.

Definition write_extern (e : IInlineExtern) : W :=
  w_opt_str (ie_link e) +++ w_str (ie_name e) +++ w_seq write_type (ie_params e) +++ write_type (ie_ret e).
Definition write_fn_body (b : IFnBody) : W :=
  match b with
  | FB_Absent => w_u8 0
  | FB_GenericTemplate source => w_u8 1 +++ w_str source
  | FB_ConcreteInline version source externs => w_u8 2 +++ w_u32 version +++ w_str source +++ w_seq write_extern externs
  end.

Definition write_fn (f : IFnSig) : W :=
  w_str (f_name f) +++ write_type_params (f_type_params f) +++ w_seq write_param (f_params f) +++ write_type (f_ret f) +++
  write_return_borrow (f_return_borrow f) +++ write_return_region (f_return_region f) +++
  write_return_cleanup (f_return_cleanup f) +++ write_drop_state_effects (f_drop_state_effects f) +++
  write_producer_certification (f_producer_certification f) +++ write_effect (f_effect f) +++
  w_seq w_u32 (f_parallel_transfer_params f) +++ write_mutable_access (f_mutable_access f) +++
  write_callback_contract (f_callback_contract f) +++ write_mutable_retention (f_mutable_retention f) +++
  write_mutable_view_effect (f_mutable_view_effect f) +++ w_bool (f_resource_hook_body f) +++ write_fn_body (f_body f).

Definition write_field (p : bytes * IType) : W := w_str p.1 +++ write_type p.2.
Definition write_struct (s : IStructDef) : W :=
  w_str (is_name s) +++ write_type_params (is_type_params s) +++ w_seq write_field (is_fields s) +++
  w_opt_u32 (is_align s) +++ w_bool (is_c_repr s) +++ w_opt_str (is_generic_body s).
Definition write_owned_json_entry (e : OwnedJsonGraphInterfaceEntry) : W :=
  w_str (oj_type_name e) +++ w_len (length (oj_envelope e)) +++ w_bytes (oj_envelope e).
Definition write_variant (v : bytes * list IType) : W := w_str v.1 +++ w_seq write_type v.2.
Definition write_enum (e : IEnumDef) : W :=
  w_str (ie_ename e) +++ write_type_params (ie_type_params e) +++ w_seq write_variant (ie_variants e) +++
  w_opt_str (ie_generic_body e).
Definition write_resource (r : IResourceDef) : W :=
  w_str (ir_name r) +++ write_type_params (ir_type_params r) +++ w_u32 (ir_generic_arity r) +++
  w_u32 (ir_representation_version r) +++ w_str (ir_drop_thunk r) +++ w_bytes (ir_drop_abi_fingerprint r).
Definition write_const (c : IConst) : W := w_str (ic_name c) +++ w_option write_type (ic_ty c) +++ w_str (ic_value_src c).

Definition write_surface (s : InterfaceSummary) : W :=
  w_u32 FORMAT_VERSION +++ w_str (s_unit s) +++ w_seq write_fn (s_fns s) +++ w_seq write_struct (s_structs s) +++
  w_seq write_owned_json_entry (s_owned_json_graphs s) +++ w_seq write_enum (s_enums s) +++
  w_seq write_resource (s_resources s) +++ w_seq write_const (s_consts s).

Definition encode_interface_surface (s : InterfaceSummary) : W := write_surface s.

Definition write_hash (h : Hash128) : W := w_u64 (lo h) +++ w_u64 (hi h).
Definition serialize (s : InterfaceSummary) : W :=
  write_surface s +++ w_seq w_str (s_capabilities s) +++ write_hash (s_interface_hash s) +++ write_hash (s_impl_hash s).

(** ** Reader *)
Inductive DecodeError :=
  | UnknownVersion (v : Z) | Truncated | BadTag (what : bytes) (tag : Z) | BadUtf8 | TrailingBytes
  | InterfaceHashMismatch | InvalidSummary (reason : bytes) | InvalidOwnedJson (reason : bytes).

Record Reader := { r_buf : bytes; r_pos : nat }.
Definition R (A : Type) : Type := Reader → res (A * Reader + DecodeError).

Definition r_ret {A} (a : A) : R A := λ r, Ret (inl (a, r)).
Definition r_err {A} (e : DecodeError) : R A := λ r, Ret (inr e).
Definition r_bind {A B} (m : R A) (k : A → R B) : R B :=
  λ r, let* o := m r in match o with inl (a, r') => k a r' | inr e => Ret (inr e) end.
Declare Scope reader_scope.
Delimit Scope reader_scope with reader.
Notation "'let!' x := m 'in' k" := (r_bind m (λ x, k))
  (at level 10, x binder, m at level 200, k at level 200) : reader_scope.
Local Open Scope reader_scope.

Definition r_take (n : Z) : R bytes := λ r,
  if Z.of_nat (r_pos r) + n <=? Z.of_nat (length (r_buf r)) then
    let end_ := (r_pos r + Z.to_nat n)%nat in
    Ret (inl (slice (r_pos r) end_ (r_buf r), {| r_buf := r_buf r; r_pos := end_ |}))
  else Ret (inr Truncated).

(** [take(1)?[0]], [take(n)?.try_into().unwrap()] *)
Definition r_u8 : R Z := λ r,
  let* o := r_take 1 r in
  match o with inl (s, r') => let* b := unwrap (s !! 0%nat) in Ret (inl (b, r')) | inr e => Ret (inr e) end.
Definition r_le (n : nat) : R Z := λ r,
  let* o := r_take (Z.of_nat n) r in
  match o with
  | inl (s, r') => if (length s =? n)%nat then Ret (inl (from_le_bytes s, r')) else Panic
  | inr e => Ret (inr e)
  end.
Definition r_u32 : R Z := r_le 4.
Definition r_u64 : R Z := r_le 8.
Definition bad_tag {A} (what : string) (tag : Z) : R A := r_err (BadTag (str what) tag).
Definition invalid {A} (reason : string) : R A := r_err (InvalidSummary (str reason)).

Definition r_bool : R bool :=
  let! t := r_u8 in if t =? 0 then r_ret false else if t =? 1 then r_ret true else bad_tag "bool" t.
(** The options: tag 0 is [None], tag 1 is [Some]. *)
Definition r_option {A} (what : string) (m : R A) : R (option A) :=
  let! t := r_u8 in
  if t =? 0 then r_ret None else if t =? 1 then let! x := m in r_ret (Some x) else bad_tag what t.
Definition r_opt_u32 : R (option Z) := r_option "option" r_u32.
Definition r_str : R bytes :=
  let! len := r_u32 in
  let! b := r_take len in
  match from_utf8 b with Some _ => r_ret b | None => r_err BadUtf8 end.
Definition r_opt_str : R (option bytes) := r_option "option" r_str.

(** [for _ in 0..n], the body given the item pushed before: every turn reads at least
    one byte, so the buffer bounds the turns. *)
Fixpoint r_times {A} (fuel : nat) (n : Z) (f : option A → R A) (last : option A) : R (list A) :=
  if n <=? 0 then r_ret []
  else match fuel with
       | O => λ _, OutOfFuel
       | S fuel => let! x := f last in let! xs := r_times fuel (n - 1) f (Some x) in r_ret (x :: xs)
       end.
Definition r_loop_from {A} (n : Z) (f : option A → R A) : R (list A) :=
  λ r, r_times (S (length (r_buf r))) n f None r.
Definition r_loop {A} (n : Z) (f : R A) : R (list A) := r_loop_from n (λ _, f).
Definition r_seq {A} (f : R A) : R (list A) := let! n := r_u32 in r_loop n f.
Definition r_finish : R () := λ r,
  if (r_pos r =? length (r_buf r))%nat then Ret (inl (tt, r)) else Ret (inr TrailingBytes).
(** [result.map_err(DecodeError::InvalidSummary)?] *)
Definition check (e : option bytes) : R () := match e with None => r_ret tt | Some reason => r_err (InvalidSummary reason) end.

Definition validate_roots (params captures : list Z) (count : nat) : option bytes :=
  if any_descent Z.compare params then Some (str "parameter roots must be strictly increasing")
  else if existsb (outside count) params then Some (str "parameter root is outside the signature")
  else if negb (match captures with [] => true | _ => false end)
  then Some (str "capture roots are forbidden in exported interfaces")
  else if match params with [] => true | _ => false end
  then Some (str "an empty root set must use the canonical None tag")
  else None.

Definition validate_transfer_roots (params : list Z) (count : nat) : option bytes :=
  if any_descent Z.compare params then Some (str "parallel-transfer roots must be strictly increasing")
  else if existsb (outside count) params then Some (str "parallel-transfer root is outside the signature")
  else None.

Definition read_roots (count : nat) : R (list Z * list Z) :=
  let! params := r_seq r_u32 in
  let! captures := r_seq r_u32 in
  let! _ := check (validate_roots params captures count) in
  r_ret (params, captures).

Definition read_return_borrow (count : nat) : R ReturnBorrowSummary :=
  let! t := r_u8 in
  if t =? 0 then r_ret RB_None
  else if t =? 1 then let! p := read_roots count in r_ret (RB_Roots p.1 p.2)
  else bad_tag "return-borrow summary" t.
Definition read_return_region (count : nat) : R ReturnRegionSummary :=
  let! t := r_u8 in
  if t =? 0 then r_ret RR_None
  else if t =? 1 then let! p := read_roots count in r_ret (RR_Roots p.1 p.2)
  else bad_tag "return-region summary" t.
Definition read_return_cleanup : R ReturnCleanupAbi :=
  let! t := r_u8 in
  if t =? 0 then r_ret RC_None else if t =? 1 then r_ret RC_DynamicBit else bad_tag "return cleanup ABI" t.

Definition read_mode : R ParamMode :=
  let! t := r_u8 in
  if t =? 0 then r_ret ByValue else if t =? 1 then r_ret Out else if t =? 2 then r_ret Borrow
  else if t =? 3 then r_ret BorrowMut else bad_tag "parameter mode" t.

(** [read_param_at_depth], given the reader of types at its depth. *)
Definition read_param_with (ty : R IType) : R IParam :=
  let! mode := read_mode in let! t := ty in r_ret (MkIParam mode t).

(** [read_type_at_depth(r, depth)], where [room = MAX_TYPE_DEPTH + 1 - depth]. *)
Fixpoint read_type_at (room : nat) : R IType :=
  match room with
  | O => invalid "interface type nesting exceeds 128 records"
  | S room =>
      let! t := r_u8 in
      if t =? 0 then
        let! path := r_str in let! args := r_seq (read_type_at room) in r_ret (IT_Named path args)
      else if t =? 1 then let! es := r_seq (read_type_at room) in r_ret (IT_Tuple es)
      else if t =? 2 then
        let! params := r_seq (read_param_with (read_type_at room)) in
        let! ret := read_type_at room in
        let! borrow := read_return_borrow (length params) in
        let! region := read_return_region (length params) in
        let! cleanup := read_return_cleanup in
        r_ret (IT_Fn params ret borrow region cleanup)
      else if t =? 3 then
        let! element := read_type_at room in let! len := r_u32 in r_ret (IT_FixedArray element len)
      else bad_tag "type" t
  end.
Definition read_type : R IType := read_type_at MAX_TYPE_DEPTH.
Definition read_param : R IParam := read_param_with read_type.

Definition read_type_param : R ITypeParam :=
  let! name := r_str in let! bound := r_opt_str in r_ret {| tp_name := name; tp_bound := bound |}.
Definition read_type_params : R (list ITypeParam) := r_seq read_type_param.
Definition read_effect : R Effect :=
  let! t := r_u8 in
  if t =? 0 then r_ret Pure else if t =? 1 then r_ret Impure else if t =? 2 then r_ret Unknown else bad_tag "effect" t.
Definition read_producer_certification : R ProducerCertification :=
  let! t := r_u8 in
  if t =? 0 then r_ret RevalidateGenericBody else if t =? 1 then r_ret ValidatedBody
  else bad_tag "producer certification" t.

Definition read_projection : R CallbackProjection :=
  let! t := r_u8 in
  if t =? 0 then let! i := r_u32 in r_ret (CP_StructField i)
  else if t =? 1 then let! i := r_u32 in r_ret (CP_TupleElement i)
  else if t =? 2 then let! variant := r_u32 in let! index := r_u32 in r_ret (CP_EnumPayload variant index)
  else if t =? 3 then r_ret CP_OptionSome
  else if t =? 4 then r_ret CP_ResultOk
  else if t =? 5 then r_ret CP_ResultErr
  else if t =? 6 then r_ret CP_ArrayElement
  else bad_tag "callback projection" t.
Definition read_callback_path : R (list CallbackProjection) := r_seq read_projection.
Definition read_callback_input : R CallbackInput :=
  let! p := r_u32 in let! path := read_callback_path in r_ret {| ci_parameter := p; ci_path := path |}.
Definition read_callback_read : R CallbackRead :=
  let! t := r_u8 in
  if t =? 0 then r_ret CR_Environment
  else if t =? 1 then let! i := r_u32 in r_ret (CR_Argument i)
  else bad_tag "callback read" t.
Definition read_callback_requirement : R CallbackRequirement :=
  let! input := read_callback_input in let! read := read_callback_read in
  r_ret {| cq_input := input; cq_read := read |}.
Definition read_callback_source : R CallbackSource :=
  let! t := r_u8 in
  if t =? 0 then let! input := read_callback_input in r_ret (CS_Parameter input)
  else if t =? 1 then
    let! env := r_bool in let! writes := r_seq r_u32 in
    r_ret (CS_Known {| environment_write := env; argument_writes := writes |})
  else if t =? 2 then r_ret CS_Unknown
  else bad_tag "callback source" t.
Definition read_callback_return : R CallbackReturn :=
  let! path := read_callback_path in let! sources := r_seq read_callback_source in
  r_ret {| cr_path := path; cr_sources := sources |}.
Definition read_contract : R CallbackContract :=
  let! reqs := r_seq read_callback_requirement in let! returns := r_seq read_callback_return in
  r_ret {| requirements := reqs; cc_returns := returns |}.
Definition read_callback_contract : R (option CallbackContract) := r_option "callback contract" read_contract.

Definition read_access_root : R MutableAccessRoot :=
  let! t := r_u8 in
  if t =? 0 then let! i := r_u32 in r_ret (MA_Contained i)
  else if t =? 1 then let! i := r_u32 in r_ret (MA_Storage i)
  else bad_tag "mutable-access root" t.
Definition read_conditional : R ConditionalAccess :=
  let! req := read_callback_requirement in let! roots := r_seq read_access_root in
  r_ret {| ca_requirement := req; ca_roots := roots |}.
Definition read_access_effects : R MutableAccessEffects :=
  let! d := r_seq read_access_root in let! c := r_seq read_conditional in r_ret {| direct := d; conditional := c |}.
Definition read_mutable_access (count : nat) (generic : bool) : R MutableAccessSummary :=
  let! summary := r_option "mutable-access option" read_access_effects in
  let! _ := check (validate_mutable_access summary count generic) in
  r_ret summary.

Definition read_retention_root : R MutableRetentionRoot :=
  let! t := r_u8 in
  if t =? 0 then let! i := r_u32 in r_ret (MR_Contained i)
  else if t =? 1 then let! i := r_u32 in r_ret (MR_Storage i)
  else bad_tag "mutable-retention root" t.
Definition read_destination : R MutableRetentionDestination :=
  let! m := r_bool in let! roots := r_seq read_retention_root in r_ret {| may_mutate := m; mrd_roots := roots |}.
Definition read_mutable_retention (modes : list ParamMode) (generic : bool) : R MutableRetentionSummary :=
  let! summary := r_option "mutable-retention option" (r_seq read_destination) in
  let! _ := check (validate_mutable_retention summary modes generic) in
  r_ret summary.

(** The roots of a view effect are checked one by one, against the one before. *)
Definition read_view_root (count : nat) (last : option MutableRetentionRoot) : R MutableRetentionRoot :=
  let! t := r_u8 in
  let! ordinal := (if (t =? 0) || (t =? 1) then r_u32 else bad_tag "mutable-view-effect root" t) in
  if outside count ordinal then invalid "mutable-view-effect roots"
  else
    let root := if t =? 0 then MR_Contained ordinal else MR_Storage ordinal in
    if match last with Some previous => ge (retention_cmp previous root) | None => false end
    then invalid "mutable-view-effect roots"
    else r_ret root.
Definition read_view_roots (count : nat) : R (list MutableRetentionRoot) :=
  let! n := r_u32 in
  if 2 * Z.of_nat count <? n then invalid "mutable-view-effect count"
  else r_loop_from n (read_view_root count).

Definition bit_set (flags mask : Z) : bool := negb (Z.land flags mask =? 0).
Definition read_view_effect (count : nat) : R MutableViewEffect :=
  let! flags := r_u8 in
  if bit_set flags 0xf0 || (bit_set flags 2 && negb (bit_set flags 1)) || (bit_set flags 8 && negb (bit_set flags 4))
  then invalid "mutable-view-effect flags"
  else
    let! wr := read_view_roots count in
    let! rr := read_view_roots count in
    if negb (bit_set flags 4) && negb (match rr with [] => true | _ => false end)
    then invalid "mutable-view-effect roots"
    else r_ret {| may_write_original := bit_set flags 1; must_write_original_element := bit_set flags 2;
                  may_rebind := bit_set flags 4; must_rebind := bit_set flags 8;
                  mve_write_roots := wr; mve_rebind_roots := rr |}.
Definition read_view_effects (count : nat) (generic : bool) : R (list (option MutableViewEffect)) :=
  let! n := r_u32 in
  if generic || negb (n =? Z.of_nat count) then invalid "mutable-view-effect count"
  else r_loop n (r_option "mutable-view-effect option" (read_view_effect count)).
Definition read_mutable_view_effect (count : nat) (generic : bool) : R MutableViewEffectSummary :=
  r_option "mutable-view-effect option" (read_view_effects count generic).

Definition read_drop_state : R DropStateEffect :=
  let! t := r_u8 in
  if t =? 0 then r_ret DS_NotApplicable else if t =? 1 then r_ret DS_Invariant else if t =? 2 then r_ret DS_MayChange
  else if t =? 3 then r_ret DS_Deferred else bad_tag "drop-state effect" t.
Definition read_drop_state_effects : R (list DropStateEffect) := r_seq read_drop_state.

(** The per-parameter rule between mode and drop-state effect. *)
Definition is_deferred (d : DropStateEffect) : bool := match d with DS_Deferred => true | _ => false end.
Definition drop_state_valid (generic : bool) (p : IParam) (d : DropStateEffect) : bool :=
  if generic then Bool.eqb (is_deferred d) (is_borrow_mut (ip_mode p))
  else if is_borrow_mut (ip_mode p) then negb (is_deferred d)
  else match d with DS_NotApplicable => true | _ => false end.
Definition validate_drop_states (generic : bool) (params : list IParam) (ds : list DropStateEffect) : option bytes :=
  if negb (length ds =? length params)%nat then Some (str "drop-state effect arity disagrees with parameters")
  else if forallb id (zip_with (drop_state_valid generic) params ds) then None
  else Some (str "drop-state effect disagrees with parameter mode or template state").

Definition read_extern : R IInlineExtern :=
  let! link := r_opt_str in let! name := r_str in let! params := r_seq read_type in let! ret := read_type in
  r_ret {| ie_link := link; ie_name := name; ie_params := params; ie_ret := ret |}.
Definition extern_cmp (a b : IInlineExtern) : comparison :=
  lex (option_cmp str_cmp (ie_link a) (ie_link b)) (str_cmp (ie_name a) (ie_name b)).
(** [any(|e| !symbols.insert(name))] *)
Fixpoint any_repeated (l : list bytes) : bool :=
  match l with [] => false | x :: l => bool_decide (x ∈ l) || any_repeated l end.
Definition read_fn_body : R IFnBody :=
  let! t := r_u8 in
  if t =? 0 then r_ret FB_Absent
  else if t =? 1 then let! source := r_str in r_ret (FB_GenericTemplate source)
  else if t =? 2 then
    let! version := r_u32 in
    if negb (version =? INLINE_BODY_POLICY_VERSION) then invalid "unsupported concrete-inline policy version"
    else
      let! source := r_str in
      let! externs := r_seq read_extern in
      if any_descent extern_cmp externs || any_repeated (map ie_name externs)
      then invalid "concrete-inline externs are not canonical"
      else r_ret (FB_ConcreteInline version source externs)
  else bad_tag "function body" t.

Definition is_generic_template (b : IFnBody) : bool := match b with FB_GenericTemplate _ => true | _ => false end.
Definition certification_matches_body (c : ProducerCertification) (generic : bool) (b : IFnBody) : bool :=
  match c with
  | RevalidateGenericBody => generic && is_generic_template b
  | ValidatedBody => negb generic && negb (is_generic_template b)
  end.

Definition read_fn : R IFnSig :=
  let! name := r_str in
  let! type_params := read_type_params in
  let! params := r_seq read_param in
  let! ret := read_type in
  let! borrow := read_return_borrow (length params) in
  let! region := read_return_region (length params) in
  let! cleanup := read_return_cleanup in
  let! drops := read_drop_state_effects in
  let generic := negb (match type_params with [] => true | _ => false end) in
  let! _ := check (validate_drop_states generic params drops) in
  let! certification := read_producer_certification in
  let! effect := read_effect in
  let! transfer := r_seq r_u32 in
  let! _ := check (validate_transfer_roots transfer (length params)) in
  let! access := read_mutable_access (length params) generic in
  let! contract := read_callback_contract in
  let! _ := check (validate_callback_record_order contract (length params) generic) in
  let! retention := read_mutable_retention (map ip_mode params) generic in
  let! view := read_mutable_view_effect (length params) generic in
  let! hook := r_bool in
  let! body := read_fn_body in
  if negb (certification_matches_body certification generic body)
  then invalid "producer certification disagrees with function body presence"
  else r_ret {| f_name := name; f_type_params := type_params; f_params := params; f_ret := ret;
                f_return_borrow := borrow; f_return_region := region; f_return_cleanup := cleanup;
                f_drop_state_effects := drops; f_producer_certification := certification; f_effect := effect;
                f_parallel_transfer_params := transfer; f_mutable_access := access; f_callback_contract := contract;
                f_mutable_retention := retention; f_mutable_view_effect := view; f_resource_hook_body := hook;
                f_body := body |}.

Definition read_field : R (bytes * IType) := let! name := r_str in let! ty := read_type in r_ret (name, ty).
Definition read_struct : R IStructDef :=
  let! name := r_str in let! tps := read_type_params in let! fields := r_seq read_field in
  let! align := r_opt_u32 in let! c_repr := r_bool in let! body := r_opt_str in
  r_ret {| is_name := name; is_type_params := tps; is_fields := fields; is_align := align; is_c_repr := c_repr;
           is_generic_body := body |}.
Definition read_variant : R (bytes * list IType) := let! name := r_str in let! p := r_seq read_type in r_ret (name, p).
Definition read_enum : R IEnumDef :=
  let! name := r_str in let! tps := read_type_params in let! variants := r_seq read_variant in
  let! body := r_opt_str in
  r_ret {| ie_ename := name; ie_type_params := tps; ie_variants := variants; ie_generic_body := body |}.
Definition read_resource : R IResourceDef :=
  let! name := r_str in let! tps := read_type_params in let! arity := r_u32 in let! version := r_u32 in
  let! thunk := r_str in let! fingerprint := r_take 16 in
  r_ret {| ir_name := name; ir_type_params := tps; ir_generic_arity := arity; ir_representation_version := version;
           ir_drop_thunk := thunk; ir_drop_abi_fingerprint := fingerprint |}.
Definition read_const : R IConst :=
  let! name := r_str in let! ty := r_option "option" read_type in let! value := r_str in
  r_ret {| ic_name := name; ic_ty := ty; ic_value_src := value |}.
Definition read_owned_json_entry : R OwnedJsonGraphInterfaceEntry :=
  let! name := r_str in let! len := r_u32 in let! envelope := r_take len in
  r_ret {| oj_type_name := name; oj_envelope := envelope |}.
Definition read_hash : R Hash128 := let! l := r_u64 in let! h := r_u64 in r_ret {| lo := l; hi := h |}.

(** [r.pos] *)
Definition r_position : R nat := λ r, Ret (inl (r_pos r, r)).

(** The surface: [deserialize_impl] up to the consts. *)
Definition read_surface : R (bytes * list IFnSig * list IStructDef * list OwnedJsonGraphInterfaceEntry *
    list IEnumDef * list IResourceDef * list IConst) :=
  let! version := r_u32 in
  if negb (version =? FORMAT_VERSION) then r_err (UnknownVersion version)
  else
    let! unit_ := r_str in
    let! fns := r_seq read_fn in
    let! structs := r_seq read_struct in
    let! graphs := r_seq read_owned_json_entry in
    let! enums := r_seq read_enum in
    let! resources := r_seq read_resource in
    let! consts := r_seq read_const in
    r_ret (unit_, fns, structs, graphs, enums, resources, consts).

(** The wire part of [deserialize_impl]: everything up to [finish], with the length
    of the surface. *)
Definition read_summary : R (InterfaceSummary * nat) :=
  let! '(unit_, fns, structs, graphs, enums, resources, consts) := read_surface in
  let! surface_len := r_position in
  let! capabilities := r_seq r_str in
  let! interface_hash := read_hash in
  let! impl_hash := read_hash in
  let! _ := r_finish in
  r_ret ({| s_unit := unit_; s_fns := fns; s_structs := structs; s_owned_json_graphs := graphs; s_enums := enums;
            s_resources := resources; s_consts := consts; s_capabilities := capabilities;
            s_interface_hash := interface_hash; s_impl_hash := impl_hash |}, surface_len).

(** [Hash128::of(&bytes[..surface_len]) != summary.interface_hash] *)
Definition hash_eqb (a b : Hash128) : bool := (lo a =? lo b) && (hi a =? hi b).
Definition check_surface_hash (b : bytes) (surface_len : nat) (s : InterfaceSummary) : res (option DecodeError) :=
  let* surface := slice_res 0 surface_len b in
  let* h := hash128_of surface in
  Ret (if hash_eqb h (s_interface_hash s) then None else Some InterfaceHashMismatch).

(** The semantic gates [deserialize_impl] consults about the decoded summary, in the
    order it asks them: the type graph of the transfer roots, the owned-JSON
    descriptors (for the target, if one is given), the mutable-view effects and the
    drop-state effects. *)
Record Gates := {
  transfer_roots_capable : InterfaceSummary → res bool;
  validate_entries : InterfaceSummary → res (option bytes);
  validate_view_effects : InterfaceSummary → res (option bytes);
  drop_state_mismatch : InterfaceSummary → res bool
}.

Definition deserialize_impl (g : Gates) (b : bytes) : res (InterfaceSummary + DecodeError) :=
  let* o := read_summary {| r_buf := b; r_pos := 0 |} in
  match o with
  | inr err => Ret (inr err)
  | inl ((s, surface_len), _) =>
      let* capable := transfer_roots_capable g s in
      if negb capable then Ret (inr (InvalidSummary (str "parallel-transfer root is not borrow-capable")))
      else
        let* entries := validate_entries g s in
        match entries with
        | Some reason => Ret (inr (InvalidOwnedJson reason))
        | None =>
            let* stale := check_surface_hash b surface_len s in
            match stale with
            | Some err => Ret (inr err)
            | None =>
                let* view := validate_view_effects g s in
                match view with
                | Some reason => Ret (inr (InvalidSummary reason))
                | None =>
                    let* mismatch := drop_state_mismatch g s in
                    if mismatch : bool
                    then Ret (inr (InvalidSummary (str "drop-state effect disagrees with resolved parameter ownership")))
                    else Ret (inl s)
                end
            end
        end
  end.
