(* ===== verification/CodecSpec.v ===== *)
(** * The codec is a bijection

    A calculus for the readers of [Codec]: [spec m Q] says that [m] never panics or
    runs on, that what it accepts is related by [Q] to exactly the bytes it
    consumed, and that it accepts every pair in [Q] wherever the bytes stand.
    Each reader is specified by its writer, so that the summaries the format can
    carry and the byte strings it accepts correspond one to one. *)
From Stdlib Require Import ZArith Lia String.
From S2P Require Import Prelude Utf8 Hash Ast Interface Codec.
Local Open Scope Z_scope.
Local Open Scope writer_scope.
Local Open Scope reader_scope.

#[local] Arguments w_cat : simpl never.
#[local] Arguments w_u8 : simpl never.
#[local] Arguments w_u32 : simpl never.
#[local] Arguments w_bytes : simpl never.

(** ** The calculus *)
Definition cursor (pre rest : bytes) : Reader := {| r_buf := pre ++ rest; r_pos := length pre |}.

Record spec {A} (m : R A) (Q : A → bytes → Prop) : Prop := {
  sp_run : ∀ pre rest, Forall is_byte rest →
    (∃ e, m (cursor pre rest) = Ret (inr e)) ∨
    (∃ a bs post, rest = bs ++ post ∧ Q a bs ∧ m (cursor pre rest) = Ret (inl (a, cursor (pre ++ bs) post)));
  sp_complete : ∀ a bs pre post, Q a bs → m (cursor pre (bs ++ post)) = Ret (inl (a, cursor (pre ++ bs) post))
}.

Lemma cursor_app pre bs post : cursor pre (bs ++ post) = {| r_buf := (pre ++ bs) ++ post; r_pos := length pre |}.
Proof. unfold cursor. by rewrite app_assoc. Qed.

Lemma spec_iff {A} (m : R A) (Q Q' : A → bytes → Prop) :
  spec m Q → (∀ a bs, Q a bs ↔ Q' a bs) → spec m Q'.
Proof.
  intros [Hr Hc] HQ. split.
  - intros pre rest Hb. destruct (Hr pre rest Hb) as [He|(a & bs & post & H1 & H2 & H3)]; [by left|right].
    exists a, bs, post. by rewrite <-HQ.
  - intros a bs pre post H. apply Hc. by apply HQ.
Qed.

Lemma spec_ret {A} (a : A) : spec (r_ret a) (λ b bs, b = a ∧ bs = []).
Proof.
  split.
  - intros pre rest _. right. exists a, [], rest. by rewrite app_nil_r.
  - intros b bs pre post [-> ->]. simpl. by rewrite app_nil_r.
Qed.

Lemma spec_err {A} e : spec (A := A) (r_err e) (λ _ _, False).
Proof. split; [|done]. intros pre rest _. left. by exists e. Qed.

Lemma spec_bind {A B} (m : R A) (k : A → R B) Q1 Q2 :
  spec m Q1 → (∀ a, (∃ bs, Q1 a bs) → spec (k a) (Q2 a)) →
  spec (r_bind m k) (λ b bs, ∃ a b1 b2, bs = b1 ++ b2 ∧ Q1 a b1 ∧ Q2 a b b2).
Proof.
  intros [Hr Hc] Hk. split.
  - intros pre rest Hb. destruct (Hr pre rest Hb) as [[e He]|(a & bs & post & -> & HQ & Hm)].
    { left. exists e. unfold r_bind. by rewrite He. }
    apply Forall_app in Hb as [_ Hb]. unfold r_bind. rewrite Hm. cbn [res_bind].
    destruct (sp_run _ _ (Hk a (ex_intro _ bs HQ)) (pre ++ bs) post Hb) as [[e He]|(b & b2 & post' & -> & HQ' & Hm')].
    { left. by exists e. }
    right. exists b, (bs ++ b2), post'. rewrite app_assoc. split_and!; [done|by exists a, bs, b2|]. rewrite Hm'. by rewrite app_assoc.
  - intros b bs pre post (a & b1 & b2 & -> & H1 & H2). unfold r_bind. rewrite <-app_assoc, (Hc a b1) by done. cbn [res_bind].
    rewrite (sp_complete _ _ (Hk a (ex_intro _ b1 H1)) b b2) by done. by rewrite app_assoc.
Qed.

Lemma spec_if {A} (c : bool) (m1 m2 : R A) Q1 Q2 :
  (c = true → spec m1 Q1) → (c = false → spec m2 Q2) →
  spec (if c then m1 else m2) (λ a bs, if c then Q1 a bs else Q2 a bs).
Proof. destruct c; auto. Qed.

(** The last read of a record. *)
Lemma spec_map {A B} (m : R A) (f : A → B) Q :
  spec m Q → spec (r_bind m (λ a, r_ret (f a))) (λ b bs, ∃ a, Q a bs ∧ b = f a).
Proof.
  intros H. eapply spec_iff; [eapply spec_bind; [exact H|intros a _; apply spec_ret]|]. intros b bs. simpl. split.
  - intros (a & b1 & b2 & -> & HQ & -> & ->). rewrite app_nil_r. eauto.
  - intros (a & HQ & ->). exists a, bs, []. by rewrite app_nil_r.
Qed.

Lemma spec_map_guard {A B} (m : R A) (c : A → bool) e (f : A → B) Q :
  spec m Q →
  spec (r_bind m (λ a, if c a then r_err e else r_ret (f a))) (λ b bs, ∃ a, Q a bs ∧ c a = false ∧ b = f a).
Proof.
  intros H. eapply (spec_iff _ (λ b bs, ∃ a b1 b2, bs = b1 ++ b2 ∧ Q a b1 ∧ (c a = false ∧ b = f a ∧ b2 = []))).
  - eapply spec_bind; [exact H|]. intros a _. destruct (c a); eapply spec_iff; [apply spec_err|naive_solver|apply spec_ret|naive_solver].
  - intros b bs. simpl. split.
    + intros (a & b1 & b2 & -> & HQ & Hc & -> & ->). rewrite app_nil_r. eauto.
    + intros (a & HQ & Hc & ->). exists a, bs, []. by rewrite app_nil_r.
Qed.

Lemma spec_map_check {A B} (m : R A) (e : A → option bytes) (f : A → B) Q :
  spec m Q →
  spec (r_bind m (λ a, r_bind (check (e a)) (λ _, r_ret (f a)))) (λ b bs, ∃ a, Q a bs ∧ e a = None ∧ b = f a).
Proof.
  intros H. eapply (spec_iff _ (λ b bs, ∃ a b1 b2, bs = b1 ++ b2 ∧ Q a b1 ∧ (e a = None ∧ b = f a ∧ b2 = []))).
  - eapply spec_bind; [exact H|]. intros a _. destruct (e a) as [r|]; simpl.
    + eapply (spec_iff (r_err (InvalidSummary r))); [apply spec_err|naive_solver].
    + eapply (spec_iff (r_ret (f a))); [apply spec_ret|naive_solver].
  - intros b bs. simpl. split.
    + intros (a & b1 & b2 & -> & HQ & Hc & -> & ->). rewrite app_nil_r. eauto.
    + intros (a & HQ & Hc & ->). exists a, bs, []. by rewrite app_nil_r.
Qed.

(** A check that reads nothing. *)
Lemma spec_check {A} e (k : () → R A) Q :
  spec (k tt) Q → spec (r_bind (check e) k) (λ a bs, e = None ∧ Q a bs).
Proof.
  intros H. destruct e as [reason|]; simpl.
  - eapply (spec_iff (r_err (InvalidSummary reason))); [apply spec_err|]. naive_solver.
  - eapply (spec_iff (k tt)); [exact H|]. naive_solver.
Qed.

Lemma spec_guard {A} (c : bool) e (m : R A) Q : spec m Q → spec (if c then r_err e else m) (λ a bs, c = false ∧ Q a bs).
Proof. intros H. destruct c; eapply spec_iff; [apply spec_err| |exact H|]; naive_solver. Qed.

(** ** Bytes and integers *)
Lemma r_take_spec n : 0 ≤ n → spec (r_take n) (λ b bs, bs = b ∧ Z.of_nat (length b) = n).
Proof.
  intros Hn. split.
  - intros pre rest _. unfold r_take. simpl. rewrite length_app. case_if; [right|left; eauto]. b2p.
    set (k := Z.to_nat n). assert (k ≤ length rest)%nat by lia.
    exists (take k rest), (take k rest), (drop k rest). rewrite take_drop, length_take. split_and!; [done|done|lia|].
    unfold cursor, slice. rewrite <-app_assoc, take_drop, length_app, length_take.
    replace (length pre + k - length pre)%nat with k by lia. rewrite drop_app_length.
    by replace (k `min` length rest)%nat with k by lia.
  - intros b bs pre post [-> <-]. unfold r_take. simpl. rewrite !length_app. case_if; b2p; [|lia].
    rewrite Nat2Z.id. unfold cursor, slice. rewrite length_app, drop_app_length, app_assoc.
    replace (length pre + length b - length pre)%nat with (length b) by lia. by rewrite take_app_length.
Qed.

Lemma r_u8_spec : spec r_u8 (λ v bs, is_byte v ∧ bs = [v]).
Proof.
  destruct (r_take_spec 1) as [Hr Hc]; [lia|]. split.
  - intros pre rest Hb. unfold r_u8. destruct (Hr pre rest Hb) as [[e He]|(a & bs & post & -> & [-> Hl] & Hm)].
    { left. exists e. by rewrite He. }
    right. rewrite Hm. cbn [res_bind]. destruct a as [|v [|]]; simpl in Hl; try lia.
    apply Forall_app in Hb as [Hb _]. apply Forall_cons in Hb as [Hv _]. by exists v, [v], post.
  - intros v bs pre post [_ ->]. unfold r_u8. by rewrite (Hc [v]).
Qed.

Lemma r_le_spec n : spec (r_le n) (λ v bs, 0 ≤ v < 256 ^ Z.of_nat n ∧ bs = le_bytes n v).
Proof.
  destruct (r_take_spec (Z.of_nat n)) as [Hr Hc]; [lia|]. split.
  - intros pre rest Hb. unfold r_le. destruct (Hr pre rest Hb) as [[e He]|(a & bs & post & -> & [-> Hl] & Hm)].
    { left. exists e. by rewrite He. }
    right. rewrite Hm. cbn [res_bind]. apply Nat2Z.inj in Hl. subst n. rewrite Nat.eqb_refl.
    apply Forall_app in Hb as [Hb _]. destruct (le_bytes_from a Hb) as [Hv Ha].
    exists (from_le_bytes a), a, post. by rewrite Ha.
  - intros v bs pre post [Hv ->]. unfold r_le. rewrite (Hc (le_bytes n v)) by (by rewrite le_bytes_length). cbn [res_bind].
    rewrite le_bytes_length, Nat.eqb_refl. by rewrite from_le_bytes_le.
Qed.

(** ** Writers *)
Lemma w_cat_Ret a b bs : a +++ b = Ret bs ↔ ∃ x y, bs = x ++ y ∧ a = Ret x ∧ b = Ret y.
Proof.
  unfold w_cat. destruct a as [x| |], b as [y| |]; simpl; split; naive_solver.
Qed.

Definition nonempty (w : W) : Prop := ∀ bs, w = Ret bs → bs ≠ [].

Lemma nonempty_cat a b : nonempty a → nonempty (a +++ b).
Proof. intros Ha bs (x & y & -> & Hx & _)%w_cat_Ret. apply Ha in Hx. by destruct x. Qed.
Lemma nonempty_u8 v : nonempty (w_u8 v).
Proof. by intros bs [= <-]. Qed.
Lemma nonempty_u32 v : nonempty (w_u32 v).
Proof. by intros bs [= <-]. Qed.
Lemma nonempty_len n : nonempty (w_len n).
Proof. unfold w_len, u32_len. case_if; [apply nonempty_u32|done]. Qed.
Lemma nonempty_bool b : nonempty (w_bool b).
Proof. apply nonempty_u8. Qed.
Lemma nonempty_option {A} (f : A → W) o : nonempty (w_option f o).
Proof. destruct o; [apply nonempty_cat|]; apply nonempty_u8. Qed.

Create HintDb nonempty.
#[export] Hint Resolve nonempty_cat nonempty_u8 nonempty_u32 nonempty_len nonempty_bool nonempty_option : nonempty.
#[export] Hint Unfold w_str w_seq w_opt_u32 w_opt_str : nonempty.

(** A reader that inverts a writer on the values satisfying [P]. *)
Definition enc {A} (w : A → W) (P : A → Prop) (a : A) (bs : bytes) : Prop := P a ∧ w a = Ret bs.
Abbreviation codec w P rd := (spec rd (enc w P)).

(** ** Repetition *)
Fixpoint chunks {A} (Q : option A → A → bytes → Prop) (last : option A) (l : list A) (bs : bytes) : Prop :=
  match l with
  | [] => bs = []
  | a :: l => ∃ b1 b2, bs = b1 ++ b2 ∧ Q last a b1 ∧ chunks Q (Some a) l b2
  end.

Section Repetition.
Context {A : Type} (f : option A → R A) (Q : option A → A → bytes → Prop).
Hypothesis (Hf : ∀ last, spec (f last) (Q last)) (Hne : ∀ last a bs, Q last a bs → bs ≠ []).

Lemma r_times_run fuel n last pre rest :
  Forall is_byte rest → (length rest < fuel)%nat → 0 ≤ n →
  (∃ e, r_times fuel n f last (cursor pre rest) = Ret (inr e)) ∨
  (∃ l bs post, rest = bs ++ post ∧ (Z.of_nat (length l) = n ∧ chunks Q last l bs) ∧
     r_times fuel n f last (cursor pre rest) = Ret (inl (l, cursor (pre ++ bs) post))).
Proof using Hf Hne.
  revert n last pre rest. induction fuel as [|fuel IH]; intros n last pre rest Hb Hl Hn; [lia|]. cbn [r_times]. case_if; b2p.
  { right. exists [], [], rest. rewrite app_nil_r. split_and!; [done|simpl; lia|done|done]. }
  unfold r_bind at 1 3. destruct (sp_run _ _ (Hf last) pre rest Hb) as [[e He]|(a & bs & post & -> & HQ & Hm)].
  { left. exists e. by rewrite He. }
  rewrite Hm. cbn [res_bind]. apply Forall_app in Hb as [_ Hb]. apply Hne in HQ as Hbs. rewrite length_app in Hl.
  destruct (IH (n - 1) (Some a) (pre ++ bs) post Hb) as [[e He]|(l & b2 & post' & -> & [Hlen Hch] & Hm')]; [destruct bs; simpl in *; [done|lia]|lia| |].
  { left. exists e. unfold r_bind. by rewrite He. }
  right. exists (a :: l), (bs ++ b2), post'. unfold r_bind. rewrite Hm'. rewrite !app_assoc. split_and!; [done|simpl; lia| |done].
  by exists bs, b2.
Qed.

Lemma r_times_complete fuel l last bs pre post :
  chunks Q last l bs → (length l < fuel)%nat →
  r_times fuel (Z.of_nat (length l)) f last (cursor pre (bs ++ post)) = Ret (inl (l, cursor (pre ++ bs) post)).
Proof using Hf.
  revert fuel last bs pre. induction l as [|a l IH]; intros fuel last bs pre Hch Hl.
  { simpl in Hch. subst bs. rewrite app_nil_r. by destruct fuel. }
  destruct Hch as (b1 & b2 & -> & HQ & Hch). destruct fuel as [|fuel]; [simpl in Hl; lia|]. cbn [r_times].
  destruct (Z.leb_spec (Z.of_nat (length (a :: l))) 0); [simpl in *; lia|]. unfold r_bind at 1.
  rewrite <-app_assoc, (sp_complete _ _ (Hf last) a b1) by done. cbn [res_bind]. unfold r_bind.
  replace (Z.of_nat (length (a :: l)) - 1) with (Z.of_nat (length l)) by (simpl; lia).
  rewrite IH; [|done|simpl in Hl; lia]. by rewrite app_assoc.
Qed.

Lemma chunks_length l last bs : chunks Q last l bs → (length l ≤ length bs)%nat.
Proof using Hne.
  revert last bs. induction l as [|a l IH]; intros last bs; [simpl; lia|]. intros (b1 & b2 & -> & HQ & Hch).
  apply IH in Hch. apply Hne in HQ. rewrite length_app. destruct b1; [done|]. simpl. lia.
Qed.

Lemma r_loop_spec n : 0 ≤ n → spec (r_loop_from n f) (λ l bs, Z.of_nat (length l) = n ∧ chunks Q None l bs).
Proof using Hf Hne.
  intros Hn. split.
  - intros pre rest Hb. apply r_times_run; [done| |done]. simpl. rewrite length_app. lia.
  - intros l bs pre post [<- Hch]. apply chunks_length in Hch as Hlen. unfold r_loop_from. apply r_times_complete; [done|].
    simpl. rewrite !length_app. lia.
Qed.
End Repetition.

(** ** Primitive codecs *)
Definition u32v (v : Z) : Prop := 0 ≤ v < 2 ^ 32.
Definition u64v (v : Z) : Prop := 0 ≤ v < 2 ^ 64.
Definition short {A} (l : list A) : Prop := Z.of_nat (length l) ≤ U32_MAX.
Definition strv (s : bytes) : Prop := valid_utf8 s ∧ short s.
Definition optv {A} (P : A → Prop) (o : option A) : Prop := match o with Some a => P a | None => True end.
Definition seqv {A} (P : A → Prop) (l : list A) : Prop := short l ∧ Forall P l.

Lemma u32_codec : codec w_u32 u32v r_u32.
Proof.
  eapply spec_iff; [apply r_le_spec|]. intros v bs. unfold enc, u32v, w_u32. change (256 ^ Z.of_nat 4) with (2 ^ 32).
  split; [intros [? ->]|intros [? [= <-]]]; done.
Qed.

Lemma u64_codec : codec w_u64 u64v r_u64.
Proof.
  eapply spec_iff; [apply r_le_spec|]. intros v bs. unfold enc, u64v, w_u64. change (256 ^ Z.of_nat 8) with (2 ^ 64).
  split; [intros [? ->]|intros [? [= <-]]]; done.
Qed.

Lemma w_len_Ret n bs : w_len n = Ret bs ↔ Z.of_nat n ≤ U32_MAX ∧ bs = le_bytes 4 (Z.of_nat n).
Proof. unfold w_len, u32_len. case_if; b2p; simpl; split; [intros [= <-]|intros [_ ->]|done|lia]; done. Qed.

(** A length prefix read as a number. *)
Lemma prefix_spec : spec r_u32 (λ n bs, 0 ≤ n ∧ w_len (Z.to_nat n) = Ret bs).
Proof.
  eapply spec_iff; [apply r_le_spec|]. intros v bs. rewrite w_len_Ret. change (256 ^ Z.of_nat 4) with (2 ^ 32). unfold U32_MAX.
  split; [intros [? ->]|intros (? & ? & ->)]; rewrite ?Z2Nat.id by lia; split_and!; try done; lia.
Qed.

(** What each item of a list must satisfy, given the one before it. *)
Fixpoint chainv {A} (P : option A → A → Prop) (last : option A) (l : list A) : Prop :=
  match l with [] => True | a :: l => P last a ∧ chainv P (Some a) l end.

Lemma chainv_Forall {A} (P : A → Prop) last l : chainv (λ _, P) last l ↔ Forall P l.
Proof. revert last. induction l as [|a l IH]; intros last; [by split; [constructor|]|]. simpl. rewrite Forall_cons. by rewrite IH. Qed.

Lemma chunks_w_all {A} (w : A → W) (P : option A → A → Prop) last l bs :
  chunks (λ last, enc w (P last)) last l bs ↔ chainv P last l ∧ w_all w l = Ret bs.
Proof.
  revert last bs. induction l as [|a l IH]; intros last bs; simpl; [split; [intros ->|intros [_ [= <-]]]; done|].
  rewrite w_cat_Ret. unfold enc. setoid_rewrite IH. naive_solver.
Qed.

(** A repetition of known length. *)
Lemma loop_spec {A} (w : A → W) (P : option A → A → Prop) rd n :
  (∀ last, codec w (P last) (rd last)) → (∀ a, nonempty (w a)) → 0 ≤ n →
  spec (r_loop_from n rd) (λ l bs, Z.of_nat (length l) = n ∧ chainv P None l ∧ w_all w l = Ret bs).
Proof.
  intros Hrd Hne Hn. eapply spec_iff; [eapply (r_loop_spec rd (λ last, enc w (P last))); [exact Hrd|by intros last a b [_ ?]; eapply Hne|done]|].
  intros l bs. simpl. by rewrite chunks_w_all.
Qed.

(** A repetition behind its length. *)
Lemma counted_codec {A} (w : A → W) (P : option A → A → Prop) (ok : Z → bool) e rd :
  (∀ last, codec w (P last) (rd last)) → (∀ a, nonempty (w a)) →
  codec (w_seq w) (λ l, short l ∧ ok (Z.of_nat (length l)) = false ∧ chainv P None l)
    (let! n := r_u32 in if ok n then r_err e else r_loop_from n rd).
Proof.
  intros Hrd Hne. eapply spec_iff.
  { eapply spec_bind; [apply prefix_spec|]. intros n (bs & Hn & _). apply spec_guard. by apply (loop_spec w P). }
  intros l bs. unfold enc, w_seq, short. rewrite w_cat_Ret. split.
  - intros (n & b1 & b2 & -> & [Hn Hlen] & Hok & <- & Hall & Hw). rewrite Nat2Z.id in Hlen. apply w_len_Ret in Hlen as Hl.
    split_and!; [naive_solver|done|done|]. eauto 10.
  - intros ((Hs & Hok & Hall) & x & y & -> & Hx & Hy). exists (Z.of_nat (length l)), x, y. rewrite Nat2Z.id. split_and!; try done. lia.
Qed.

Lemma seq_codec {A} (w : A → W) (P : A → Prop) rd :
  codec w P rd → (∀ a, nonempty (w a)) → codec (w_seq w) (seqv P) (r_seq rd).
Proof.
  intros Hrd Hne. eapply spec_iff; [apply (counted_codec w (λ _, P) (λ _, false) Truncated); [by intros _|done]|].
  intros l bs. unfold enc, seqv. rewrite chainv_Forall. naive_solver.
Qed.

Lemma utf8_spec b :
  spec (match from_utf8 b with Some _ => r_ret b | None => r_err BadUtf8 end) (λ a bs, valid_utf8 b ∧ a = b ∧ bs = []).
Proof.
  unfold valid_utf8. destruct (from_utf8 b); [eapply spec_iff; [apply spec_ret|]|eapply spec_iff; [apply spec_err|]]; intros a bs.
  - split; [intros [-> ->]; eauto|naive_solver].
  - split; [done|]. intros [[? ?] _]. done.
Qed.

Lemma str_codec : codec w_str strv r_str.
Proof.
  eapply spec_iff.
  { eapply spec_bind; [apply prefix_spec|]. intros n (bs & Hn & _). eapply spec_bind; [by apply r_take_spec|]. intros b _. apply utf8_spec. }
  intros s bs. unfold enc, w_str, strv, short. rewrite w_cat_Ret. simpl. split.
  - intros (n & b1 & b2 & -> & [Hn Hlen] & b & c1 & c2 & -> & [-> Hb] & Hu & -> & ->). rewrite <-Hb, Nat2Z.id in Hlen.
    apply w_len_Ret in Hlen as Hl. split; [split; [done|naive_solver]|]. exists b1, b. rewrite app_nil_r. done.
  - intros [[Hu Hs] (x & y & -> & Hx & [= <-])]. exists (Z.of_nat (length s)), x, s. rewrite Nat2Z.id. split_and!; [done|lia|done|].
    exists s, s, []. rewrite app_nil_r. done.
Qed.

(** A tag byte and what it selects. *)
Lemma spec_tag {A} (k : Z → R A) Q :
  (∀ t, spec (k t) (Q t)) → spec (r_bind r_u8 k) (λ a bs, ∃ t bs', is_byte t ∧ bs = t :: bs' ∧ Q t a bs').
Proof.
  intros Hk. eapply spec_iff; [eapply spec_bind; [apply r_u8_spec|intros t _; apply Hk]|]. intros a bs. simpl. split.
  - intros (t & b1 & b2 & -> & [Ht ->] & HQ). by exists t, b2.
  - intros (t & bs' & Ht & -> & HQ). by exists t, [t], bs'.
Qed.

(** ** Automation *)
Create HintDb codec.

(** Specify a reader by its structure. *)
Ltac spec_step :=
  lazymatch goal with
  | |- spec (r_bind (check _) _) _ => eapply spec_check
  | |- spec (r_bind r_u8 _) _ => eapply spec_tag; intros ?
  | |- spec (r_bind _ (λ x, r_ret _)) _ => eapply spec_map
  | |- spec (r_bind _ (λ x, r_bind (check _) (λ _, r_ret _))) _ => eapply spec_map_check
  | |- spec (r_bind _ (λ x, if _ then invalid _ else r_ret _)) _ => eapply spec_map_guard
  | |- spec (r_bind _ _) _ => eapply spec_bind; [|intros ? _]
  | |- spec (if _ then invalid _ else _) _ => eapply spec_guard
  | |- spec (if _ then r_err _ else _) _ => eapply spec_guard
  | |- spec (if _ then _ else _) _ => eapply spec_if; intros _
  | |- spec (r_ret _) _ => apply spec_ret
  | |- spec (bad_tag _ _) _ => apply spec_err
  | |- spec (invalid _) _ => apply spec_err
  | |- spec r_u8 _ => apply r_u8_spec
  | |- spec _ _ => solve [eauto with codec]
  end.
Ltac spec_reader := repeat spec_step.

(** Take a relation apart, down to the chunks. *)
Ltac chunk_inv :=
  repeat match goal with
  | H : False |- _ => destruct H
  | H : ∃ _, _ |- _ => destruct H
  | H : _ ∧ _ |- _ => destruct H
  | H : enc _ _ _ _ |- _ => destruct H
  | H : if ?c =? ?n then _ else _ |- _ => destruct (Z.eqb_spec c n)
  | H : _ +++ _ = Ret _ |- _ => apply w_cat_Ret in H
  | H : Ret _ = Ret _ |- _ => injection H as H
  | H : w_u8 _ = Ret _ |- _ => injection H as H
  end; subst; cbn [app] in *.

(** Build the bytes of a writer from those of its parts. *)
Ltac chunk_write :=
  unfold w_cat; simpl;
  repeat match goal with H : ?w = Ret _ |- context [?w] => rewrite H; cbn [res_bind] end;
  rewrite ?app_nil_r; try done.

(** Choose the tag that the bytes start with, then the parts. *)
Ltac tag_is t := exists t; eexists; split; [unfold is_byte; lia|split; [reflexivity|simpl]].

#[export] Hint Resolve u32_codec u64_codec str_codec : codec.

Lemma option_codec {A} (w : A → W) (P : A → Prop) what rd :
  codec w P rd → codec (w_option w) (optv P) (r_option what rd).
Proof.
  intros Hrd. eapply spec_iff; [unfold r_option; spec_reader; exact Hrd|]. intros o bs. simpl. unfold enc. split.
  - intros H. chunk_inv; simpl; (split; [done|]); chunk_write.
  - intros [HP Hw]. destruct o as [a|]; simpl in *; chunk_inv; [tag_is 1|tag_is 0]; eauto.
Qed.

(** A codec narrowed by a check on what was read. *)
Lemma checked_codec {A} (w : A → W) (P : A → Prop) rd (e : A → option bytes) :
  codec w P rd → codec w (λ a, P a ∧ e a = None) (let! a := rd in let! _ := check (e a) in r_ret a).
Proof. intros Hrd. eapply spec_iff; [eapply spec_map_check, Hrd|]. unfold enc. naive_solver. Qed.

(** Assemble a relation from chunks: the bytes fix the parts, the parts the value. *)
Ltac chunk_build :=
  repeat lazymatch goal with
  | |- ∃ _, _ => eexists
  | |- enc _ _ _ _ => refine (conj _ _); [|first [eassumption|reflexivity]]
  | |- _ ∧ _ => split
  | |- _ ++ _ = _ => reflexivity
  | |- _ :: _ = _ => reflexivity
  end; try first [reflexivity|assumption|done].
Ltac any_tag tac :=
  first [tag_is 0; tac|tag_is 1; tac|tag_is 2; tac|tag_is 3; tac|tag_is 4; tac|tag_is 5; tac|tag_is 6; tac].

(** The reader [rd] inverts a writer given by cases on the value. *)
Ltac codec_of rd :=
  eapply spec_iff; [unfold rd; spec_reader|];
  let a := fresh "a" in let bs := fresh "bs" in let H := fresh "H" in
  intros a bs; simpl; split;
  [intros H; chunk_inv; simpl; (split; [try done|chunk_write])
  |intros H; destruct H as [? H]; destruct a; simpl in *; chunk_inv;
   first [any_tag ltac:(solve [chunk_build])|solve [chunk_build]|idtac]].

(** ** Records of the format *)
#[local] Opaque w_u32 w_u64.
Abbreviation anyv := (λ _, True).

Lemma bool_codec : codec w_bool anyv r_bool.
Proof. unfold w_bool. codec_of r_bool. Qed.
#[local] Opaque w_bool.
Lemma mode_codec : codec (λ m, w_u8 (mode_tag m)) anyv read_mode.
Proof. codec_of read_mode. Qed.
Lemma return_cleanup_codec : codec write_return_cleanup anyv read_return_cleanup.
Proof. unfold write_return_cleanup. codec_of read_return_cleanup. Qed.
Lemma effect_codec : codec write_effect anyv read_effect.
Proof. unfold write_effect. codec_of read_effect. Qed.
Lemma producer_certification_codec : codec write_producer_certification anyv read_producer_certification.
Proof. unfold write_producer_certification. codec_of read_producer_certification. Qed.
Lemma drop_state_codec : codec write_drop_state anyv read_drop_state.
Proof. unfold write_drop_state. codec_of read_drop_state. Qed.
#[export] Hint Resolve bool_codec mode_codec return_cleanup_codec effect_codec producer_certification_codec drop_state_codec : codec.

Definition type_paramv (tp : ITypeParam) : Prop := strv (tp_name tp) ∧ optv strv (tp_bound tp).
Lemma opt_str_codec : codec w_opt_str (optv strv) r_opt_str.
Proof. by apply option_codec, str_codec. Qed.
Lemma opt_u32_codec : codec w_opt_u32 (optv u32v) r_opt_u32.
Proof. by apply option_codec, u32_codec. Qed.
#[export] Hint Resolve opt_str_codec opt_u32_codec : codec.
Lemma type_param_codec : codec write_type_param type_paramv read_type_param.
Proof. unfold write_type_param, type_paramv. codec_of read_type_param. Qed.

#[export] Hint Resolve type_param_codec : codec.

Ltac nonempty_writer := intros; cbv beta; autounfold with nonempty; eauto with nonempty.
#[export] Hint Extern 1 (spec (r_seq _) _) => eapply seq_codec; [solve [eauto with codec]|nonempty_writer] : codec.
#[export] Hint Extern 1 (spec (r_option _ _) _) => eapply option_codec : codec.

Lemma type_params_codec : codec write_type_params (seqv type_paramv) read_type_params.
Proof. unfold write_type_params, read_type_params. eauto with codec. Qed.
#[export] Hint Resolve type_params_codec : codec.

Definition rootsv (count : nat) (params captures : list Z) : Prop :=
  seqv u32v params ∧ seqv u32v captures ∧ validate_roots params captures count = None.
Definition borrowv (count : nat) (s : ReturnBorrowSummary) : Prop :=
  match s with RB_None => True | RB_Roots params captures => rootsv count params captures end.
Definition regionv (count : nat) (s : ReturnRegionSummary) : Prop :=
  match s with RR_None => True | RR_Roots params captures => rootsv count params captures end.

Lemma roots_codec count : codec (λ p, write_roots p.1 p.2) (λ p, rootsv count p.1 p.2) (read_roots count).
Proof. unfold write_roots, rootsv. codec_of read_roots. Qed.
#[export] Hint Resolve roots_codec : codec.
Lemma return_borrow_codec count : codec write_return_borrow (borrowv count) (read_return_borrow count).
Proof. codec_of read_return_borrow. tag_is 1. exists (params, captures). done. Qed.
Lemma return_region_codec count : codec write_return_region (regionv count) (read_return_region count).
Proof. codec_of read_return_region. tag_is 1. exists (params, captures). done. Qed.
#[export] Hint Resolve return_borrow_codec return_region_codec : codec.

(** *** Types, to the depth the format admits *)
Fixpoint typev (room : nat) (t : IType) : Prop :=
  match room with
  | O => False
  | S room =>
      match t with
      | IT_Named path args => strv path ∧ seqv (typev room) args
      | IT_Tuple es => seqv (typev room) es
      | IT_FixedArray element len => typev room element ∧ u32v len
      | IT_Fn params ret borrow region cleanup =>
          seqv (λ p, typev room (ip_ty p)) params ∧ typev room ret ∧
          borrowv (length params) borrow ∧ regionv (length params) region
      end
  end.

Lemma nonempty_type t : nonempty (write_type t).
Proof. destruct t; simpl; auto with nonempty. Qed.
Lemma nonempty_param q : nonempty (write_param q).
Proof. destruct q; simpl; auto with nonempty. Qed.
#[export] Hint Resolve nonempty_type nonempty_param : nonempty.

Lemma param_codec rd P : codec write_type P rd → codec write_param (λ q, P (ip_ty q)) (read_param_with rd).
Proof.
  intros Hrd. eapply spec_iff; [unfold read_param_with; spec_reader; exact Hrd|]. intros q bs. simpl. split.
  - intros H. chunk_inv. simpl. split; [done|]. chunk_write.
  - intros [? H]. destruct q; simpl in *; chunk_inv. chunk_build.
Qed.

Lemma type_codec room : codec write_type (typev room) (read_type_at room).
Proof.
  induction room as [|room IH]; [eapply spec_iff; [apply spec_err|]; intros; split; [done|by intros [? _]]|].
  pose proof (param_codec _ _ IH) as Hp.
  pose proof (seq_codec _ _ _ IH nonempty_type) as Hs. pose proof (seq_codec _ _ _ Hp nonempty_param) as Hps.
  cbn [read_type_at]. eapply spec_iff; [spec_reader; first [exact Hs|exact Hps|exact IH]|]. intros t bs. simpl. split.
  - intros H. chunk_inv; simpl; (split; [done|chunk_write]).
  - intros [? H]. destruct t; simpl in *; chunk_inv; [tag_is 0|tag_is 3|tag_is 1|tag_is 2]; chunk_build.
Qed.

Abbreviation itypev := (typev MAX_TYPE_DEPTH).
Lemma itype_codec : codec write_type itypev read_type.
Proof. apply type_codec. Qed.
Lemma iparam_codec : codec write_param (λ q, itypev (ip_ty q)) read_param.
Proof. apply param_codec, type_codec. Qed.
#[export] Hint Resolve itype_codec iparam_codec : codec.

(** *** Callbacks and accesses *)
Definition projectionv (p : CallbackProjection) : Prop :=
  match p with
  | CP_StructField i | CP_TupleElement i => u32v i
  | CP_EnumPayload variant index => u32v variant ∧ u32v index
  | _ => True
  end.
Definition inputv (i : CallbackInput) : Prop := u32v (ci_parameter i) ∧ seqv projectionv (ci_path i).
Definition readv (r : CallbackRead) : Prop := match r with CR_Environment => True | CR_Argument i => u32v i end.
Definition requirementv (r : CallbackRequirement) : Prop := inputv (cq_input r) ∧ readv (cq_read r).
Definition sourcev (s : CallbackSource) : Prop :=
  match s with CS_Parameter i => inputv i | CS_Known e => seqv u32v (argument_writes e) | CS_Unknown => True end.
Definition returnv (r : CallbackReturn) : Prop := seqv projectionv (cr_path r) ∧ seqv sourcev (cr_sources r).
Definition contractv (c : CallbackContract) : Prop := seqv requirementv (requirements c) ∧ seqv returnv (cc_returns c).
Definition access_rootv (r : MutableAccessRoot) : Prop := u32v (access_index r).
Definition conditionalv (c : ConditionalAccess) : Prop := requirementv (ca_requirement c) ∧ seqv access_rootv (ca_roots c).
Definition access_effectsv (e : MutableAccessEffects) : Prop := seqv access_rootv (direct e) ∧ seqv conditionalv (conditional e).
Definition retention_rootv (r : MutableRetentionRoot) : Prop := u32v (retention_index r).
Definition destinationv (d : MutableRetentionDestination) : Prop := seqv retention_rootv (mrd_roots d).

Lemma nonempty_projection p : nonempty (write_projection p).
Proof. destruct p; simpl; auto with nonempty. Qed.
Lemma nonempty_source s : nonempty (write_callback_source s).
Proof. destruct s; simpl; auto with nonempty. Qed.
Lemma nonempty_access_root r : nonempty (write_access_root r).
Proof. destruct r; simpl; auto with nonempty. Qed.
#[export] Hint Resolve nonempty_projection nonempty_source nonempty_access_root : nonempty.
#[export] Hint Unfold write_type_param write_callback_path write_callback_input write_callback_requirement
  write_callback_return write_conditional write_retention_root write_destination write_drop_state : nonempty.

Lemma projection_codec : codec write_projection projectionv read_projection.
Proof. codec_of read_projection. Qed.
#[export] Hint Resolve projection_codec : codec.
Lemma path_codec : codec write_callback_path (seqv projectionv) read_callback_path.
Proof. unfold read_callback_path. eauto with codec. Qed.
#[export] Hint Resolve path_codec : codec.
Lemma input_codec : codec write_callback_input inputv read_callback_input.
Proof. unfold write_callback_input, inputv. codec_of read_callback_input. Qed.
#[export] Hint Resolve input_codec : codec.
Lemma read_codec : codec write_callback_read readv read_callback_read.
Proof. codec_of read_callback_read. Qed.
#[export] Hint Resolve read_codec : codec.
Lemma requirement_codec : codec write_callback_requirement requirementv read_callback_requirement.
Proof. unfold write_callback_requirement, requirementv. codec_of read_callback_requirement. Qed.
#[export] Hint Resolve requirement_codec : codec.
Lemma source_codec : codec write_callback_source sourcev read_callback_source.
Proof. codec_of read_callback_source. destruct e. chunk_inv. tag_is 1. chunk_build. Qed.
#[export] Hint Resolve source_codec : codec.
Lemma return_codec : codec write_callback_return returnv read_callback_return.
Proof. unfold write_callback_return, returnv. codec_of read_callback_return. Qed.
#[export] Hint Resolve return_codec : codec.
Lemma contract_codec : codec write_contract contractv read_contract.
Proof. unfold write_contract, contractv. codec_of read_contract. Qed.
#[export] Hint Resolve contract_codec : codec.
Lemma callback_contract_codec : codec write_callback_contract (optv contractv) read_callback_contract.
Proof. unfold read_callback_contract. eauto with codec. Qed.
#[export] Hint Resolve callback_contract_codec : codec.

Lemma access_root_codec : codec write_access_root access_rootv read_access_root.
Proof. unfold access_rootv. codec_of read_access_root. Qed.
#[export] Hint Resolve access_root_codec : codec.
Lemma conditional_codec : codec write_conditional conditionalv read_conditional.
Proof. unfold write_conditional, conditionalv. codec_of read_conditional. Qed.
#[export] Hint Resolve conditional_codec : codec.
Lemma access_effects_codec : codec write_access_effects access_effectsv read_access_effects.
Proof. unfold write_access_effects, access_effectsv. codec_of read_access_effects. Qed.
#[export] Hint Resolve access_effects_codec : codec.
Lemma mutable_access_codec count generic :
  codec write_mutable_access (λ s, optv access_effectsv s ∧ validate_mutable_access s count generic = None)
    (read_mutable_access count generic).
Proof. apply (checked_codec _ _ _ (λ s, validate_mutable_access s count generic)). eauto with codec. Qed.
#[export] Hint Resolve mutable_access_codec : codec.

Lemma retention_root_codec : codec write_retention_root retention_rootv read_retention_root.
Proof. unfold write_retention_root, retention_rootv. codec_of read_retention_root. Qed.
#[export] Hint Resolve retention_root_codec : codec.
Lemma destination_codec : codec write_destination destinationv read_destination.
Proof. unfold write_destination, destinationv. codec_of read_destination. Qed.
#[export] Hint Resolve destination_codec : codec.
Lemma mutable_retention_codec modes generic :
  codec write_mutable_retention (λ s, optv (seqv destinationv) s ∧ validate_mutable_retention s modes generic = None)
    (read_mutable_retention modes generic).
Proof. apply (checked_codec _ _ _ (λ s, validate_mutable_retention s modes generic)). eauto with codec. Qed.
#[export] Hint Resolve mutable_retention_codec : codec.
