(* ===== verification/CodecItems.v ===== *)
(** * Codecs of the exported items

    The readers of functions, nominal definitions and constants invert their
    writers: the validity predicates here say which values the format can carry. *)
From Stdlib Require Import ZArith Lia String.
From S2P Require Import Prelude Utf8 Hash Ast Interface Codec CodecSpec.
Local Open Scope Z_scope.
Local Open Scope writer_scope.
Local Open Scope reader_scope.

#[local] Arguments w_cat : simpl never.
#[local] Arguments w_u8 : simpl never.
#[local] Arguments w_bytes : simpl never.
#[local] Opaque w_u32 w_u64 w_bool write_return_cleanup write_producer_certification write_effect typev MAX_TYPE_DEPTH.

(** ** Mutable view effects *)
Definition view_rootv (count : nat) (last : option MutableRetentionRoot) (r : MutableRetentionRoot) : Prop :=
  retention_rootv r ∧ outside count (retention_index r) = false ∧
  optv (λ previous, ge (retention_cmp previous r) = false) last.
Definition view_rootsv (count : nat) (l : list MutableRetentionRoot) : Prop :=
  short l ∧ (2 * Z.of_nat count <? Z.of_nat (length l)) = false ∧ chainv (view_rootv count) None l.
Definition viewv (count : nat) (e : MutableViewEffect) : Prop :=
  (must_write_original_element e = true → may_write_original e = true) ∧ (must_rebind e = true → may_rebind e = true) ∧
  view_rootsv count (mve_write_roots e) ∧ view_rootsv count (mve_rebind_roots e) ∧
  (may_rebind e = false → mve_rebind_roots e = []).
Definition viewsv (count : nat) (generic : bool) (l : list (option MutableViewEffect)) : Prop :=
  generic = false ∧ length l = count ∧ seqv (optv (viewv count)) l.

Lemma view_root_codec count last : codec write_retention_root (view_rootv count last) (read_view_root count last).
Proof.
  eapply spec_iff; [unfold read_view_root; spec_reader|]. intros r bs. unfold view_rootv, write_retention_root. simpl. split.
  - intros H. chunk_inv. destruct ((x =? 0) || (x =? 1)) eqn:Ht; [|done]. chunk_inv.
    destruct (Z.eqb_spec x 0); [|destruct (Z.eqb_spec x 1); [|done]]; subst; (split; [by destruct last|]); chunk_write.
  - intros [(Hr & Ho & Hl) H]. chunk_inv.
    destruct r as [i|i]; [tag_is 0|tag_is 1]; exists i, x0, []; rewrite app_nil_r; (split_and!; [done|done|done| |done|done]); by destruct last.
Qed.

Lemma view_roots_codec count : codec (w_seq write_retention_root) (view_rootsv count) (read_view_roots count).
Proof.
  apply (counted_codec write_retention_root (view_rootv count) (λ n, 2 * Z.of_nat count <? n)); [apply view_root_codec|nonempty_writer].
Qed.
#[export] Hint Resolve view_roots_codec : codec.

(** The flag byte and its four booleans. *)
Definition flags_of (mw sw mr sr : bool) : Z :=
  Z.lor (Z.lor (Z.lor (b2z mw) (Z.shiftl (b2z sw) 1)) (Z.shiftl (b2z mr) 2)) (Z.shiftl (b2z sr) 3).
Lemma flags_bits t : is_byte t → bit_set t 0xf0 = false →
  flags_of (bit_set t 1) (bit_set t 2) (bit_set t 4) (bit_set t 8) = t.
Proof.
  intros Ht Hb.
  assert (Hall : forallb (λ t, bit_set t 0xf0 || (flags_of (bit_set t 1) (bit_set t 2) (bit_set t 4) (bit_set t 8) =? t)) (seqZ 0 256) = true)
    by (vm_compute; reflexivity).
  assert (Hin : In t (seqZ 0 256)) by (apply list_elem_of_In, elem_of_seqZ; unfold is_byte in Ht; lia).
  rewrite forallb_forall in Hall. apply Hall in Hin. rewrite Hb in Hin. by apply Z.eqb_eq in Hin.
Qed.

Lemma bits_flags mw sw mr sr :
  let t := flags_of mw sw mr sr in
  is_byte t ∧ bit_set t 0xf0 = false ∧ bit_set t 1 = mw ∧ bit_set t 2 = sw ∧ bit_set t 4 = mr ∧ bit_set t 8 = sr.
Proof. unfold is_byte. destruct mw, sw, mr, sr; vm_compute; repeat split; congruence. Qed.

Lemma view_effect_codec count : codec write_view_effect (viewv count) (read_view_effect count).
Proof.
  eapply spec_iff; [unfold read_view_effect; spec_reader|]. intros e bs. unfold viewv, write_view_effect. split.
  - intros H. chunk_inv. apply orb_false_elim in H1 as [[Hh H1]%orb_false_elim H2].
    split; [|change (view_flags _) with (flags_of (bit_set x 1) (bit_set x 2) (bit_set x 4) (bit_set x 8)); rewrite flags_bits by done; chunk_write].
    simpl. split_and!; [by destruct (bit_set x 1), (bit_set x 2)|by destruct (bit_set x 4), (bit_set x 8)|done|done|].
    intros Hr. rewrite Hr in *. by destruct x4.
  - destruct e as [mw sw mr sr wr rr]. simpl. intros [(Hw & Hr & Hwr & Hrr & Hn) H]. chunk_inv.
    change (view_flags _) with (flags_of mw sw mr sr). destruct (bits_flags mw sw mr sr) as (Hb & Hh & E1 & E2 & E4 & E8).
    exists (flags_of mw sw mr sr). eexists. split; [done|]. split; [reflexivity|]. rewrite Hh, E1, E2, E4, E8. chunk_build.
    + destruct mw, sw, mr, sr; naive_solver.
    + destruct mr; [done|]. by rewrite Hn.
Qed.
#[export] Hint Resolve view_effect_codec : codec.

Lemma mutable_view_effect_codec count generic :
  codec write_mutable_view_effect (optv (viewsv count generic)) (read_mutable_view_effect count generic).
Proof.
  apply option_codec. eapply spec_iff.
  { apply (counted_codec (w_option write_view_effect) (λ _, optv (viewv count)) (λ n, generic || negb (n =? Z.of_nat count)));
      [intros _; eauto with codec|nonempty_writer]. }
  intros l bs. unfold enc, viewsv, seqv. rewrite chainv_Forall, orb_false_iff, negb_false_iff, Z.eqb_eq, Nat2Z.inj_iff. tauto.
Qed.
#[export] Hint Resolve mutable_view_effect_codec : codec.

(** ** Functions *)
Definition externv (e : IInlineExtern) : Prop :=
  optv strv (ie_link e) ∧ strv (ie_name e) ∧ seqv itypev (ie_params e) ∧ itypev (ie_ret e).
Definition bodyv (b : IFnBody) : Prop :=
  match b with
  | FB_Absent => True
  | FB_GenericTemplate source => strv source
  | FB_ConcreteInline version source externs =>
      version = INLINE_BODY_POLICY_VERSION ∧ strv source ∧ seqv externv externs ∧
      any_descent extern_cmp externs || any_repeated (map ie_name externs) = false
  end.
Definition is_generic (tps : list ITypeParam) : bool := negb (match tps with [] => true | _ => false end).
Record fnv (f : IFnSig) : Prop := {
  fv_name : strv (f_name f);
  fv_type_params : seqv type_paramv (f_type_params f);
  fv_params : seqv (λ p, itypev (ip_ty p)) (f_params f);
  fv_ret : itypev (f_ret f);
  fv_borrow : borrowv (length (f_params f)) (f_return_borrow f);
  fv_region : regionv (length (f_params f)) (f_return_region f);
  fv_drops : seqv anyv (f_drop_state_effects f);
  fv_drops_ok : validate_drop_states (is_generic (f_type_params f)) (f_params f) (f_drop_state_effects f) = None;
  fv_transfer : seqv u32v (f_parallel_transfer_params f);
  fv_transfer_ok : validate_transfer_roots (f_parallel_transfer_params f) (length (f_params f)) = None;
  fv_access : optv access_effectsv (f_mutable_access f);
  fv_access_ok : validate_mutable_access (f_mutable_access f) (length (f_params f)) (is_generic (f_type_params f)) = None;
  fv_contract : optv contractv (f_callback_contract f);
  fv_contract_ok :
    validate_callback_record_order (f_callback_contract f) (length (f_params f)) (is_generic (f_type_params f)) = None;
  fv_retention : optv (seqv destinationv) (f_mutable_retention f);
  fv_retention_ok :
    validate_mutable_retention (f_mutable_retention f) (map ip_mode (f_params f)) (is_generic (f_type_params f)) = None;
  fv_view : optv (viewsv (length (f_params f)) (is_generic (f_type_params f))) (f_mutable_view_effect f);
  fv_body : bodyv (f_body f);
  fv_certified : certification_matches_body (f_producer_certification f) (is_generic (f_type_params f)) (f_body f) = true
}.

Lemma extern_codec : codec write_extern externv read_extern.
Proof. unfold write_extern, externv. codec_of read_extern. Qed.
#[export] Hint Resolve extern_codec : codec.
#[export] Hint Unfold write_extern write_fn write_struct write_field write_variant write_enum write_resource write_const
  write_owned_json_entry : nonempty.

Lemma fn_body_codec : codec write_fn_body bodyv read_fn_body.
Proof.
  codec_of read_fn_body. apply negb_false_iff, Z.eqb_eq in H3. done.
Qed.
#[export] Hint Resolve fn_body_codec : codec.

Lemma drop_state_effects_codec : codec write_drop_state_effects (seqv anyv) read_drop_state_effects.
Proof. unfold read_drop_state_effects. eauto with codec. Qed.
#[export] Hint Resolve drop_state_effects_codec : codec.

Lemma fn_codec : codec write_fn fnv read_fn.
Proof.
  eapply spec_iff; [unfold read_fn; cbv zeta; spec_reader|]. intros f bs. unfold write_fn. split.
  - intros H. chunk_inv. simpl. split; [constructor; simpl; try done; by apply negb_false_iff|chunk_write].
  - intros [[] H]. destruct f; simpl in *. chunk_inv. chunk_build. by rewrite negb_false_iff.
Qed.
#[export] Hint Resolve fn_codec : codec.

(** ** Nominal definitions and constants *)
Definition fieldv (p : bytes * IType) : Prop := strv p.1 ∧ itypev p.2.
Definition variantv (p : bytes * list IType) : Prop := strv p.1 ∧ seqv itypev p.2.
Definition structv (s : IStructDef) : Prop :=
  strv (is_name s) ∧ seqv type_paramv (is_type_params s) ∧ seqv fieldv (is_fields s) ∧ optv u32v (is_align s) ∧
  optv strv (is_generic_body s).
Definition enumv (e : IEnumDef) : Prop :=
  strv (ie_ename e) ∧ seqv type_paramv (ie_type_params e) ∧ seqv variantv (ie_variants e) ∧ optv strv (ie_generic_body e).
Definition resourcev (r : IResourceDef) : Prop :=
  strv (ir_name r) ∧ seqv type_paramv (ir_type_params r) ∧ u32v (ir_generic_arity r) ∧
  u32v (ir_representation_version r) ∧ strv (ir_drop_thunk r) ∧ length (ir_drop_abi_fingerprint r) = 16%nat.
Definition constv (c : IConst) : Prop := strv (ic_name c) ∧ optv itypev (ic_ty c) ∧ strv (ic_value_src c).
Definition owned_jsonv (e : OwnedJsonGraphInterfaceEntry) : Prop := strv (oj_type_name e) ∧ short (oj_envelope e).
Definition hashv (h : Hash128) : Prop := u64v (lo h) ∧ u64v (hi h).

Lemma field_codec : codec write_field fieldv read_field.
Proof. unfold write_field, fieldv. codec_of read_field. Qed.
Lemma variant_codec : codec write_variant variantv read_variant.
Proof. unfold write_variant, variantv. codec_of read_variant. Qed.
#[export] Hint Resolve field_codec variant_codec : codec.
Lemma struct_codec : codec write_struct structv read_struct.
Proof. unfold write_struct, structv. codec_of read_struct. Qed.
Lemma enum_codec : codec write_enum enumv read_enum.
Proof. unfold write_enum, enumv. codec_of read_enum. Qed.
Lemma const_codec : codec write_const constv read_const.
Proof. unfold write_const, constv. codec_of read_const. Qed.
Lemma hash_codec : codec write_hash hashv read_hash.
Proof. unfold write_hash, hashv. codec_of read_hash. Qed.

(** Raw bytes of a given length. *)
Lemma take_codec n : codec w_bytes (λ b, length b = n) (r_take (Z.of_nat n)).
Proof.
  eapply spec_iff; [apply r_take_spec; lia|]. intros b bs. unfold enc, w_bytes.
  split; [intros [-> Hl]|intros [Hl [= <-]]]; split; [lia|done|done|lia].
Qed.
Lemma owned_json_codec : codec write_owned_json_entry owned_jsonv read_owned_json_entry.
Proof.
  eapply spec_iff.
  { eapply spec_bind; [apply str_codec|intros name _]. eapply spec_bind; [apply prefix_spec|]. intros n (b & Hn & _).
    eapply spec_map, r_take_spec, Hn. }
  intros e bs. unfold write_owned_json_entry, owned_jsonv, short. split.
  - intros H. chunk_inv. rewrite Nat2Z.id in *. simpl. apply w_len_Ret in H6 as Hl. split; [naive_solver|chunk_write].
  - intros [[Hn Hs] H]. destruct e as [name env]; simpl in *. chunk_inv. injection H3 as <-. exists name, x, (x1 ++ env). split_and!; [done|done|].
    exists (Z.of_nat (length env)), x1, env. rewrite Nat2Z.id. split_and!; [done|lia|done|by exists env].
Qed.
#[local] Opaque w_bytes.
Lemma resource_codec : codec write_resource resourcev read_resource.
Proof.
  pose proof (take_codec 16) as H16. unfold write_resource, resourcev. codec_of read_resource.
Qed.
#[export] Hint Resolve struct_codec enum_codec const_codec hash_codec resource_codec owned_json_codec : codec.
