(* ===== verification/CodecRoundtrip.v ===== *)
(** * The artifact format is canonical and total

    The whole artifact: writing every valid summary returns bytes that decode to it;
    every byte buffer decodes to a summary or an error; and what decodes is the one
    encoding of its summary. *)
From Stdlib Require Import ZArith Lia String.
From S2P Require Import Prelude Utf8 Hash Ast Interface Codec CodecSpec CodecItems.
Local Open Scope Z_scope.
Local Open Scope writer_scope.
Local Open Scope reader_scope.

#[local] Arguments w_cat : simpl never.
#[local] Opaque w_u32 w_u64 w_bool typev MAX_TYPE_DEPTH.

(** ** Summaries the format can carry *)
Record summaryv (s : InterfaceSummary) : Prop := {
  sv_unit : strv (s_unit s);
  sv_fns : seqv fnv (s_fns s);
  sv_structs : seqv structv (s_structs s);
  sv_graphs : seqv owned_jsonv (s_owned_json_graphs s);
  sv_enums : seqv enumv (s_enums s);
  sv_resources : seqv resourcev (s_resources s);
  sv_consts : seqv constv (s_consts s);
  sv_capabilities : seqv strv (s_capabilities s);
  sv_interface_hash : hashv (s_interface_hash s);
  sv_impl_hash : hashv (s_impl_hash s)
}.
(** The interface hash is that of the surface, as the builder sets it. *)
Definition fingerprinted (s : InterfaceSummary) : Prop :=
  (let* surface := encode_interface_surface s in hash128_of surface) = Ret (s_interface_hash s).

(** ** Readers that end the buffer *)
Record whole {A} (m : R A) (Q : A → bytes → bytes → Prop) : Prop := {
  wh_run : ∀ pre rest, Forall is_byte rest →
    (∃ e, m (cursor pre rest) = Ret (inr e)) ∨
    (∃ a r, Q a pre rest ∧ m (cursor pre rest) = Ret (inl (a, r)));
  wh_complete : ∀ a pre rest, Q a pre rest → ∃ r, m (cursor pre rest) = Ret (inl (a, r))
}.

Lemma whole_iff {A} (m : R A) (Q Q' : A → bytes → bytes → Prop) :
  whole m Q → (∀ a pre rest, Q a pre rest ↔ Q' a pre rest) → whole m Q'.
Proof.
  intros [Hr Hc] HQ. split.
  - intros pre rest Hb. destruct (Hr pre rest Hb) as [He|(a & r & H1 & H2)]; [by left|right]. exists a, r. by rewrite <-HQ.
  - intros a pre rest H. apply Hc. by apply HQ.
Qed.

Lemma whole_bind {A B} (m : R A) (k : A → R B) Q1 Q2 :
  spec m Q1 → (∀ a, whole (k a) (Q2 a)) →
  whole (r_bind m k) (λ b pre rest, ∃ a b1 b2, rest = b1 ++ b2 ∧ Q1 a b1 ∧ Q2 a b (pre ++ b1) b2).
Proof.
  intros [Hr Hc] Hk. split.
  - intros pre rest Hb. destruct (Hr pre rest Hb) as [[e He]|(a & bs & post & -> & HQ & Hm)].
    { left. exists e. unfold r_bind. by rewrite He. }
    apply Forall_app in Hb as [_ Hb]. unfold r_bind. rewrite Hm. cbn [res_bind].
    destruct (wh_run _ _ (Hk a) (pre ++ bs) post Hb) as [?|(b & r & HQ' & Hm')]; [by left|right]. exists b, r. eauto 10.
  - intros b pre rest (a & b1 & b2 & -> & H1 & H2). unfold r_bind. rewrite (Hc a b1) by done. cbn [res_bind].
    by apply (wh_complete _ _ (Hk a)).
Qed.

Lemma whole_position {A} (k : nat → R A) Q :
  (∀ n, whole (k n) (Q n)) → whole (r_bind r_position k) (λ a pre rest, Q (length pre) a pre rest).
Proof. intros Hk. split; [intros pre rest Hb; by apply (wh_run _ _ (Hk (length pre)))|intros a pre rest; apply (wh_complete _ _ (Hk (length pre)))]. Qed.

Lemma whole_finish {A} (a : A) : whole (r_bind r_finish (λ _, r_ret a)) (λ b pre rest, b = a ∧ rest = []).
Proof.
  assert (Hf : ∀ pre rest, r_finish (cursor pre rest) = Ret (match rest with [] => inl (tt, cursor pre rest) | _ => inr TrailingBytes end)).
  { intros pre [|x rest]; unfold r_finish; simpl; rewrite length_app; simpl; case_if; b2p; done || lia. }
  split.
  - intros pre rest _. unfold r_bind. rewrite Hf. destruct rest; simpl; [right|left]; eauto.
  - intros b pre rest [-> ->]. unfold r_bind. rewrite Hf. simpl. eauto.
Qed.

(** ** The summary *)
Abbreviation Surface := (bytes * list IFnSig * list IStructDef * list OwnedJsonGraphInterfaceEntry *
    list IEnumDef * list IResourceDef * list IConst)%type.
Definition surface_parts (s : InterfaceSummary) : Surface :=
  (s_unit s, s_fns s, s_structs s, s_owned_json_graphs s, s_enums s, s_resources s, s_consts s).
Definition with_surface (p : Surface) caps ih impl : InterfaceSummary :=
  let '(unit_, fns, structs, graphs, enums, resources, consts) := p in
  {| s_unit := unit_; s_fns := fns; s_structs := structs; s_owned_json_graphs := graphs; s_enums := enums;
     s_resources := resources; s_consts := consts; s_capabilities := caps; s_interface_hash := ih; s_impl_hash := impl |}.
Definition surfacev (s : InterfaceSummary) : Prop :=
  strv (s_unit s) ∧ seqv fnv (s_fns s) ∧ seqv structv (s_structs s) ∧ seqv owned_jsonv (s_owned_json_graphs s) ∧
  seqv enumv (s_enums s) ∧ seqv resourcev (s_resources s) ∧ seqv constv (s_consts s).
Definition no_hash : Hash128 := {| lo := 0; hi := 0 |}.
Abbreviation bare p := (with_surface p [] no_hash no_hash).

Lemma surface_codec : codec (λ p, write_surface (bare p)) (λ p, surfacev (bare p)) read_surface.
Proof.
  eapply spec_iff; [unfold read_surface; spec_reader|]. intros p bs. unfold write_surface, surfacev. split.
  - intros H. chunk_inv. apply negb_false_iff, Z.eqb_eq in H1 as ->. simpl. split; [done|]. chunk_write.
  - intros [H Hw]. destruct p as [[[[[[u fs] ss] gs] es] rs] cs]. simpl in *. chunk_inv. chunk_build.
Qed.

(** ** Writing is total on valid values *)
Definition returns (w : W) : Prop := ∃ bs, w = Ret bs.
Abbreviation writes w P := (∀ a, P a → returns (w a)).

#[local] Transparent w_u32 w_u64 w_bool.
Lemma returns_cat a b : returns a → returns b → returns (a +++ b).
Proof. intros [x ->] [y ->]. by eexists. Qed.
Lemma returns_u8 v : returns (w_u8 v).
Proof. by eexists. Qed.
Lemma returns_u32 v : returns (w_u32 v).
Proof. by eexists. Qed.
Lemma returns_u64 v : returns (w_u64 v).
Proof. by eexists. Qed.
Lemma returns_bool v : returns (w_bool v).
Proof. by eexists. Qed.
Lemma returns_bytes v : returns (w_bytes v).
Proof. by eexists. Qed.
#[local] Opaque w_u32 w_u64 w_bool.
Lemma returns_len {A} (l : list A) : short l → returns (w_len (length l)).
Proof. intros Hs. eexists. by apply w_len_Ret. Qed.
Lemma returns_str s : strv s → returns (w_str s).
Proof. intros [_ Hs]. apply returns_cat; [by apply returns_len|apply returns_bytes]. Qed.
Lemma returns_option {A} (w : A → W) P : writes w P → writes (w_option w) (optv P).
Proof. intros Hw [a|] Ha; simpl; [|apply returns_u8]. apply returns_cat; [apply returns_u8|by apply Hw]. Qed.
Lemma returns_seq {A} (w : A → W) P : writes w P → writes (w_seq w) (seqv P).
Proof.
  intros Hw l [Hs Hl]. apply returns_cat; [by apply returns_len|].
  clear Hs. induction Hl as [|a l Ha _ IH]; simpl; [by eexists|]. by apply returns_cat; [apply Hw|].
Qed.

Create HintDb writes.
#[export] Hint Resolve returns_u8 returns_u32 returns_u64 returns_bool returns_bytes returns_len returns_str : writes.
#[export] Hint Extern 1 (returns (w_option _ _)) => eapply returns_option; [|eassumption] : writes.
#[export] Hint Extern 1 (returns (w_seq _ _)) => eapply returns_seq; [|eassumption] : writes.
Ltac writes_of :=
  intros; simpl in *; destruct_and?;
  repeat lazymatch goal with |- returns (_ +++ _) => apply returns_cat end; eauto 10 with writes.

Lemma returns_roots count params captures : rootsv count params captures → returns (write_roots params captures).
Proof. intros (? & ? & _). unfold write_roots. writes_of. Qed.
#[export] Hint Resolve returns_roots : writes.
Lemma returns_borrow count : writes write_return_borrow (borrowv count).
Proof. intros []; writes_of. Qed.
Lemma returns_region count : writes write_return_region (regionv count).
Proof. intros []; writes_of. Qed.
#[export] Hint Resolve returns_borrow returns_region : writes.
Lemma returns_opt_str o : optv strv o → returns (w_opt_str o).
Proof. unfold w_opt_str. writes_of. Qed.
Lemma returns_opt_u32 o : optv u32v o → returns (w_opt_u32 o).
Proof. unfold w_opt_u32. writes_of. Qed.
#[export] Hint Resolve returns_opt_str returns_opt_u32 : writes.
Lemma returns_type_params : writes write_type_params (seqv type_paramv).
Proof. intros l Hl. unfold write_type_params. eapply returns_seq; [|done]. intros a [? ?]. unfold write_type_param. writes_of. Qed.
#[export] Hint Resolve returns_type_params : writes.

Lemma returns_type room : writes write_type (typev room).
Proof.
  induction room as [|room IH]; [done|]. intros [path args|element len|es|params ret borrow region cleanup] Ht; cbn [typev] in Ht.
  - destruct Ht. writes_of.
  - destruct Ht. writes_of.
  - writes_of.
  - destruct Ht as (Hp & Hr & Hb & Hg). writes_of.
    eapply returns_seq; [|exact Hp]. intros [mode ty] Hty. writes_of.
Qed.
#[export] Hint Resolve returns_type : writes.
Lemma returns_param q : itypev (ip_ty q) → returns (write_param q).
Proof. destruct q. writes_of. Qed.
#[export] Hint Resolve returns_param : writes.

Lemma returns_projection : writes write_projection projectionv.
Proof. intros []; writes_of. Qed.
#[export] Hint Resolve returns_projection : writes.
Lemma returns_path : writes write_callback_path (seqv projectionv).
Proof. apply returns_seq, returns_projection. Qed.
#[export] Hint Resolve returns_path : writes.
Lemma returns_input : writes write_callback_input inputv.
Proof. intros i [? ?]. unfold write_callback_input. writes_of. Qed.
#[export] Hint Resolve returns_input : writes.
Lemma returns_read : writes write_callback_read readv.
Proof. intros []; writes_of. Qed.
#[export] Hint Resolve returns_read : writes.
Lemma returns_requirement : writes write_callback_requirement requirementv.
Proof. intros i [? ?]. unfold write_callback_requirement. writes_of. Qed.
#[export] Hint Resolve returns_requirement : writes.
Lemma returns_source : writes write_callback_source sourcev.
Proof. intros []; writes_of. Qed.
#[export] Hint Resolve returns_source : writes.
Lemma returns_return : writes write_callback_return returnv.
Proof. intros i [? ?]. unfold write_callback_return. writes_of. Qed.
#[export] Hint Resolve returns_return : writes.
Lemma returns_contract : writes write_contract contractv.
Proof. intros i [? ?]. unfold write_contract. writes_of. Qed.
Lemma returns_callback_contract : writes write_callback_contract (optv contractv).
Proof. apply returns_option, returns_contract. Qed.
#[export] Hint Resolve returns_callback_contract : writes.

Lemma returns_access_root : writes write_access_root access_rootv.
Proof. intros []; writes_of. Qed.
#[export] Hint Resolve returns_access_root : writes.
Lemma returns_conditional : writes write_conditional conditionalv.
Proof. intros i [? ?]. unfold write_conditional. writes_of. Qed.
#[export] Hint Resolve returns_conditional : writes.
Lemma returns_mutable_access : writes write_mutable_access (optv access_effectsv).
Proof. apply returns_option. intros e [? ?]. unfold write_access_effects. writes_of. Qed.
#[export] Hint Resolve returns_mutable_access : writes.

Lemma returns_retention_root r : returns (write_retention_root r).
Proof. unfold write_retention_root. writes_of. Qed.
#[export] Hint Resolve returns_retention_root : writes.
Lemma returns_mutable_retention : writes write_mutable_retention (optv (seqv destinationv)).
Proof. apply returns_option, returns_seq. intros d Hd. unfold destinationv in Hd. unfold write_destination. writes_of. Qed.
#[export] Hint Resolve returns_mutable_retention : writes.
Lemma returns_view_roots count : writes (w_seq write_retention_root) (view_rootsv count).
Proof. intros l (Hs & _). apply (returns_seq write_retention_root anyv); [intros; apply returns_retention_root|split; [done|by apply Forall_true]]. Qed.
#[export] Hint Resolve returns_view_roots : writes.
Lemma returns_mutable_view count generic : writes write_mutable_view_effect (optv (viewsv count generic)).
Proof.
  apply returns_option. intros l (_ & _ & Hl). eapply returns_seq; [|exact Hl]. apply returns_option.
  intros e (_ & _ & ? & ? & _). unfold write_view_effect. writes_of.
Qed.
#[export] Hint Resolve returns_mutable_view : writes.
Lemma returns_drop_states : writes write_drop_state_effects (seqv anyv).
Proof. apply returns_seq. intros. apply returns_u8. Qed.
#[export] Hint Resolve returns_drop_states : writes.

Lemma returns_extern : writes write_extern externv.
Proof. intros e (? & ? & ? & ?). unfold write_extern. writes_of. Qed.
#[export] Hint Resolve returns_extern : writes.
Lemma returns_body : writes write_fn_body bodyv.
Proof. intros []; writes_of. Qed.
#[export] Hint Resolve returns_body : writes.
Lemma returns_fn : writes write_fn fnv.
Proof.
  intros f []. unfold write_fn, write_return_cleanup, write_producer_certification, write_effect. writes_of.
Qed.
#[export] Hint Resolve returns_fn : writes.

Lemma returns_field : writes write_field fieldv.
Proof. intros e (? & ?). unfold write_field. writes_of. Qed.
Lemma returns_variant : writes write_variant variantv.
Proof. intros e (? & ?). unfold write_variant. writes_of. Qed.
#[export] Hint Resolve returns_field returns_variant : writes.
Lemma returns_struct : writes write_struct structv.
Proof. intros e (? & ? & ? & ? & ?). unfold write_struct. writes_of. Qed.
Lemma returns_enum : writes write_enum enumv.
Proof. intros e (? & ? & ? & ?). unfold write_enum. writes_of. Qed.
Lemma returns_resource : writes write_resource resourcev.
Proof. intros e (? & ? & ? & ? & ? & ?). unfold write_resource. writes_of. Qed.
Lemma returns_const : writes write_const constv.
Proof. intros e (? & ? & ?). unfold write_const. writes_of. Qed.
Lemma returns_owned_json : writes write_owned_json_entry owned_jsonv.
Proof. intros e (? & ?). unfold write_owned_json_entry. writes_of. Qed.
#[export] Hint Resolve returns_struct returns_enum returns_resource returns_const returns_owned_json : writes.
Lemma returns_surface : writes write_surface surfacev.
Proof. intros s (? & ? & ? & ? & ? & ? & ?). unfold write_surface. writes_of. Qed.
Lemma returns_serialize : writes serialize summaryv.
Proof.
  intros s []. unfold serialize, write_hash. apply returns_cat; [by apply returns_surface|]. writes_of.
Qed.

(** ** Decoding *)
Definition tailq (p : Surface) (q : InterfaceSummary * nat) (pre rest : bytes) : Prop :=
  ∃ caps ih impl, q = (with_surface p caps ih impl, length pre) ∧ seqv strv caps ∧ hashv ih ∧ hashv impl ∧
    w_seq w_str caps +++ write_hash ih +++ write_hash impl = Ret rest.

Lemma with_surface_writes p caps ih impl : write_surface (with_surface p caps ih impl) = write_surface (bare p).
Proof. by destruct p as [[[[[[u fs] ss] gs] es] rs] cs]. Qed.
Lemma with_surface_valid p caps ih impl :
  summaryv (with_surface p caps ih impl) ↔ surfacev (bare p) ∧ seqv strv caps ∧ hashv ih ∧ hashv impl.
Proof.
  destruct p as [[[[[[u fs] ss] gs] es] rs] cs]. unfold surfacev. simpl.
  split; [intros []|intros [(?&?&?&?&?&?&?) (?&?&?)]; constructor]; simpl in *; tauto.
Qed.
Lemma with_surface_eta s : s = with_surface (surface_parts s) (s_capabilities s) (s_interface_hash s) (s_impl_hash s).
Proof. by destruct s. Qed.

Lemma summary_whole :
  whole read_summary (λ q pre rest, ∃ surface tail, rest = surface ++ tail ∧ q.2 = length (pre ++ surface) ∧
    summaryv q.1 ∧ write_surface q.1 = Ret surface ∧ serialize q.1 = Ret rest).
Proof.
  eapply whole_iff.
  { eapply (whole_bind _ _ _ tailq); [apply surface_codec|]. intros p. destruct p as [[[[[[u fs] ss] gs] es] rs] cs].
    eapply whole_iff.
    { eapply whole_position. intros n. eapply whole_bind; [apply seq_codec; [apply str_codec|nonempty_writer]|intros caps].
      eapply whole_bind; [apply hash_codec|intros ih]. eapply whole_bind; [apply hash_codec|intros impl].
      exact (whole_finish (with_surface (u, fs, ss, gs, es, rs, cs) caps ih impl, n)). }
    intros q pre rest. unfold tailq. split.
    - intros H. chunk_inv. do 3 eexists. split; [reflexivity|]. split_and!; [done..|]. rewrite app_nil_r. chunk_write.
    - intros H. chunk_inv. chunk_build. by rewrite app_nil_r. }
  intros [s n] pre rest. unfold tailq, enc. simpl. split.
  - intros (p & b1 & b2 & -> & [Hp Hw] & caps & ih & impl & [= -> ->] & Hc & Hi & Hm & Ht). exists b1, b2.
    rewrite with_surface_valid, with_surface_writes. split_and!; try done.
    unfold serialize. rewrite with_surface_writes. destruct p as [[[[[[u fs] ss] gs] es] rs] cs]. unfold w_cat at 1. rewrite Hw. simpl in *. by rewrite Ht.
  - intros (b1 & tail & -> & -> & Hv & Hw & Hs). rewrite (with_surface_eta s) in *. set (p := surface_parts s) in *.
    apply with_surface_valid in Hv as (Hp & Hc & Hi & Hm). rewrite with_surface_writes in Hw.
    exists p, b1, tail. split_and!; [done|done|done|]. do 3 eexists. split; [reflexivity|]. split_and!; [done..|].
    unfold serialize in Hs. rewrite with_surface_writes in Hs. unfold w_cat at 1 in Hs. rewrite Hw in Hs. subst p. rewrite <-with_surface_eta in Hs.
    destruct (w_seq w_str _ +++ _) as [y| |]; [|done..]. cbn [res_bind] in Hs. injection Hs as Hs. apply app_inv_head in Hs. by subst.
Qed.

Lemma hash128_ret b : ∃ h, hash128_of b = Ret h ∧ hashv h.
Proof.
  unfold hash128_of. destruct (wyhash_ret b SEED_LO) as (l & -> & Hl), (wyhash_ret b SEED_HI) as (h & -> & Hh).
  by eexists.
Qed.
Lemma hash_eqb_eq a b : hash_eqb a b = true ↔ a = b.
Proof.
  destruct a, b. unfold hash_eqb. simpl. rewrite andb_true_iff, !Z.eqb_eq. split; [intros [-> ->]|intros [= -> ->]]; done.
Qed.

(** The surface check compares with the hash of the surface's own bytes. *)
Lemma check_surface_ok s surface tail : write_surface s = Ret surface →
  ∃ e, check_surface_hash (surface ++ tail) (length surface) s = Ret e ∧ (e = None ↔ fingerprinted s).
Proof.
  intros Hw. unfold check_surface_hash, fingerprinted, encode_interface_surface.
  rewrite slice_res_ok by (rewrite ?length_app; lia). unfold slice. rewrite drop_0, Nat.sub_0_r, take_app_length, Hw. cbn [res_bind].
  destruct (hash128_ret surface) as (h & -> & _). cbn [res_bind]. eexists. split; [reflexivity|].
  destruct (hash_eqb h (s_interface_hash s)) eqn:E.
  - apply hash_eqb_eq in E as ->. done.
  - split; [done|]. intros [= H]. apply hash_eqb_eq in H. congruence.
Qed.

Lemma serialize_surface s b : serialize s = Ret b → ∃ surface tail, b = surface ++ tail ∧ write_surface s = Ret surface.
Proof. intros (x & y & -> & Hx & _)%w_cat_Ret. eauto. Qed.

(** What the gates say of a summary. *)
Definition accepted (g : Gates) (s : InterfaceSummary) : Prop :=
  transfer_roots_capable g s = Ret true ∧ validate_entries g s = Ret None ∧
  validate_view_effects g s = Ret None ∧ drop_state_mismatch g s = Ret false.
Definition answers (g : Gates) (s : InterfaceSummary) : Prop :=
  (∃ r, transfer_roots_capable g s = Ret r) ∧ (∃ r, validate_entries g s = Ret r) ∧
  (∃ r, validate_view_effects g s = Ret r) ∧ (∃ r, drop_state_mismatch g s = Ret r).

Section Gated.
Context (g : Gates).

(** After the wire part, only the gates and the surface hash decide. *)
Lemma gates_spec b s surface tail r :
  b = surface ++ tail → write_surface s = Ret surface →
  read_summary {| r_buf := b; r_pos := 0 |} = Ret (inl ((s, length surface), r)) →
  (deserialize_impl g b = Ret (inl s) ↔ accepted g s ∧ fingerprinted s) ∧
  (∀ s', deserialize_impl g b = Ret (inl s') → s' = s) ∧
  (answers g s → ∃ out, deserialize_impl g b = Ret out).
Proof.
  intros -> Hw Hr. unfold deserialize_impl, accepted, answers. rewrite Hr. cbn [res_bind].
  destruct (check_surface_ok s surface tail Hw) as (e & -> & He).
  destruct (transfer_roots_capable g s) as [[] | | ]; cbn [res_bind negb]; [|naive_solver..].
  destruct (validate_entries g s) as [[] | | ]; cbn [res_bind]; [naive_solver| |naive_solver..].
  destruct e; [naive_solver|]. destruct (validate_view_effects g s) as [[] | | ]; cbn [res_bind]; [naive_solver| |naive_solver..].
  destruct (drop_state_mismatch g s) as [[] | | ]; cbn [res_bind]; naive_solver.
Qed.

(** The reader's verdict on a buffer: an error, or one summary whose encoding it is. *)
Lemma wire_spec b : Forall is_byte b →
  (∃ e, read_summary {| r_buf := b; r_pos := 0 |} = Ret (inr e)) ∨
  (∃ s surface tail r, b = surface ++ tail ∧ write_surface s = Ret surface ∧ summaryv s ∧ serialize s = Ret b ∧
     read_summary {| r_buf := b; r_pos := 0 |} = Ret (inl ((s, length surface), r))).
Proof.
  intros Hb. change {| r_buf := b; r_pos := 0 |} with (cursor [] b).
  destruct (wh_run _ _ summary_whole [] b Hb) as [He|([s n] & r & (surface & tail & -> & Hn & Hv & Hw & Hs) & Hr)]; [by left|right].
  simpl in Hn, Hv, Hw, Hs. subst n. by exists s, surface, tail, r.
Qed.

Lemma deserialize_serialized s b :
  summaryv s → serialize s = Ret b → (deserialize_impl g b = Ret (inl s) ↔ accepted g s ∧ fingerprinted s).
Proof.
  intros Hv Hs. destruct (serialize_surface s b Hs) as (surface & tail & -> & Hw).
  destruct (wh_complete _ _ summary_whole (s, length surface) [] (surface ++ tail)) as (r & Hr); [by exists surface, tail|].
  by apply (gates_spec (surface ++ tail) s surface tail r).
Qed.

Lemma deserialize_ok b s : Forall is_byte b → deserialize_impl g b = Ret (inl s) →
  summaryv s ∧ serialize s = Ret b.
Proof.
  intros Hb Hd. destruct (wire_spec b Hb) as [[e He]|(s' & surface & tail & r & Hsplit & Hw & Hv & Hs & Hr)].
  { unfold deserialize_impl in Hd. by rewrite He in Hd. }
  destruct (gates_spec b s' surface tail r Hsplit Hw Hr) as (_ & Heq & _). by rewrite (Heq s Hd).
Qed.
End Gated.

(** ** A sample artifact *)
Definition i32_ty : IType := IT_Named (str "i32") [].
Definition sample_fn : IFnSig :=
  {| f_name := str "bump"; f_type_params := []; f_params := [MkIParam BorrowMut i32_ty; MkIParam ByValue (IT_Tuple [i32_ty])];
     f_ret := i32_ty; f_return_borrow := RB_Roots [0] []; f_return_region := RR_None; f_return_cleanup := RC_None;
     f_drop_state_effects := [DS_Invariant; DS_NotApplicable]; f_producer_certification := ValidatedBody;
     f_effect := Pure; f_parallel_transfer_params := [0]; f_mutable_access := Some {| direct := [MA_Contained 0; MA_Storage 1]; conditional := [] |};
     f_callback_contract := None;
     f_mutable_retention := Some [{| may_mutate := true; mrd_roots := [MR_Storage 1] |}; {| may_mutate := false; mrd_roots := [] |}];
     f_mutable_view_effect := None; f_resource_hook_body := false; f_body := FB_Absent |}.
Definition sample_parts : Surface :=
  (str "m", [sample_fn],
   [{| is_name := str "P"; is_type_params := []; is_fields := [(str "x", i32_ty)]; is_align := Some 16; is_c_repr := true;
       is_generic_body := None |}],
   [], [], [], [{| ic_name := str "N"; ic_ty := Some i32_ty; ic_value_src := str "1" |}]).
Definition sample_hash : Hash128 :=
  match (let* surface := write_surface (bare sample_parts) in hash128_of surface) with Ret h => h | _ => no_hash end.
Definition sample_summary : InterfaceSummary := with_surface sample_parts [str "io"] sample_hash no_hash.
Definition sample_artifact : bytes := match serialize sample_summary with Ret b => b | _ => [] end.

Ltac valid_sample :=
  repeat match goal with
  | |- validate_roots _ _ _ = None => vm_compute; reflexivity
  | |- strv _ => split
  | |- valid_utf8 _ => eexists; vm_compute; reflexivity
  | |- short _ => vm_compute; congruence
  | |- seqv _ _ => split
  | |- Forall _ _ => constructor
  | |- optv _ (Some _) => cbn [optv]
  | |- optv _ None => exact I
  | |- u32v _ => unfold u32v; simpl; lia
  | |- u64v _ => unfold u64v; simpl; lia
  | |- _ ∧ _ => split
  | |- True => exact I
  end.

#[local] Transparent typev MAX_TYPE_DEPTH.
Lemma i32_valid n : typev (S n) i32_ty.
Proof. cbn [typev i32_ty]. valid_sample. Qed.
Lemma pair_valid n : typev (S (S n)) (IT_Tuple [i32_ty]).
Proof. change (seqv (typev (S n)) [i32_ty]). split; [vm_compute; congruence|]. constructor; [apply i32_valid|constructor]. Qed.

Lemma i32_itype : itypev i32_ty.
Proof. exact (i32_valid 127). Qed.
Lemma pair_itype : itypev (IT_Tuple [i32_ty]).
Proof. exact (pair_valid 126). Qed.
#[local] Opaque typev MAX_TYPE_DEPTH.
Ltac valid_types := repeat match goal with |- typev _ i32_ty => exact i32_itype | |- typev _ (IT_Tuple _) => exact pair_itype end.

Lemma sample_fn_valid : fnv sample_fn.
Proof.
  constructor; try (lazymatch goal with |- _ = _ => vm_compute; reflexivity end);
    cbn [sample_fn f_name f_type_params f_params f_ret f_return_borrow f_return_region f_drop_state_effects
         f_parallel_transfer_params f_mutable_access f_callback_contract f_mutable_retention f_mutable_view_effect
         f_body borrowv regionv bodyv ip_ty rootsv]; valid_sample; cbn [ip_ty]; valid_types.
  all: unfold rootsv, access_effectsv, access_rootv, destinationv, retention_rootv; simpl; valid_sample.
Qed.

Lemma sample_valid : summaryv sample_summary.
Proof.
  unfold sample_summary. apply with_surface_valid. unfold surfacev, sample_parts, structv, constv, fieldv; simpl.
  valid_sample; simpl; valid_sample; valid_types;
    try (lazymatch goal with |- hashv _ => repeat split; vm_compute; congruence end). exact sample_fn_valid.
Qed.
Lemma sample_fingerprinted : fingerprinted sample_summary.
Proof. vm_compute. reflexivity. Qed.

(** Gates that accept every summary. *)
Definition open_gates : Gates :=
  {| transfer_roots_capable := λ _, Ret true; validate_entries := λ _, Ret None;
     validate_view_effects := λ _, Ret None; drop_state_mismatch := λ _, Ret false |}.

(** ** The claims *)

(** C4. A round trip through the artifact: every summary the format can carry, its
    interface hash set from its surface, is written without a panic and read back as
    the same summary, once the semantic gates accept it. *)
Theorem serialize_deserialize_roundtrip g s :
  summaryv s → fingerprinted s → accepted g s →
  ∃ b, serialize s = Ret b ∧ deserialize_impl g b = Ret (inl s).
Proof.
  intros Hv Hf Ha. destruct (returns_serialize s Hv) as [b Hb]. exists b. split; [done|]. by apply deserialize_serialized.
Qed.

Lemma serialize_deserialize_roundtrip_witness :
  ∃ b, serialize sample_summary = Ret b ∧ deserialize_impl open_gates b = Ret (inl sample_summary).
Proof. apply serialize_deserialize_roundtrip; [exact sample_valid|exact sample_fingerprinted|done]. Defined.

(** C12. The format is canonical and fails closed: what is accepted is the only encoding
    of the summary it decodes to, that summary passes every structural check and every
    gate, and its interface hash is the hash of its surface. *)
Theorem deserialize_canonical g b s :
  Forall is_byte b → deserialize_impl g b = Ret (inl s) →
  serialize s = Ret b ∧ summaryv s ∧ fingerprinted s ∧ accepted g s.
Proof.
  intros Hb Hd. destruct (deserialize_ok g b s Hb Hd) as [Hv Hs]. apply (deserialize_serialized g s b Hv Hs) in Hd. naive_solver.
Qed.

Lemma deserialize_canonical_witness : serialize sample_summary = Ret sample_artifact.
Proof.
  apply (deserialize_canonical open_gates sample_artifact sample_summary); [|vm_compute; reflexivity].
  apply (bool_decide_unpack _). vm_compute. exact I.
Defined.

(** Decoding answers on every byte buffer when the gates do: it returns a summary or
    an error, never panics on a slice or a length, and never runs on, whatever the
    lengths in the buffer claim. *)
Lemma deserialize_total g b :
  Forall is_byte b → (∀ s, summaryv s → answers g s) → ∃ r, deserialize_impl g b = Ret r.
Proof.
  intros Hb Hg. destruct (wire_spec b Hb) as [[e He]|(s & surface & tail & r & Hsplit & Hw & Hv & Hs & Hr)].
  { exists (inr e). unfold deserialize_impl. by rewrite He. }
  by apply (gates_spec g b s surface tail r Hsplit Hw Hr), Hg.
Qed.

Lemma deserialize_total_witness : ∃ r, deserialize_impl open_gates [21; 0; 0; 0; 255; 255; 255; 255] = Ret r.
Proof.
  apply deserialize_total; [apply (bool_decide_unpack _); vm_compute; exact I|].
  intros s _. repeat split; by eexists.
Defined.
