(* ===== verification/Capability.v ===== *)
(** * The capability analysis of an interface ([crates/align_interface/src/lib.rs])

    What the nominal types of a decoded summary can carry: borrows, owned values and
    the type parameters they expose, each the fixed point of a sweep over the local
    definitions, and the rejection of definitions that would instantiate without
    end.  The gate on the transfer roots of a decoded summary is the consumer the
    codec calls. *)
From Stdlib Require Import ZArith Lia String.
From stdpp Require Import gmap.
From S2P Require Import Prelude Types Hash Ast DropPlan Spelling Interface.
Local Open Scope Z_scope.

Inductive ImportCompatibilityError :=
  | DuplicateLocalType (name : bytes) | DuplicateTypeParameter (name : bytes)
  | TypeParameterShadowsLocalType (name : bytes) | TypeParameterWithArguments (name : bytes)
  | InvalidTypeArity (name : bytes) (expected actual : nat) | UnresolvedBareType (name : bytes)
  | GenericCLayoutUnsupported (name : bytes) | GenericBodySyntax (name : bytes) | GenericBodyMismatch (name : bytes)
  | InlineBodySyntax (name : bytes) | InlineBodyMismatch (name : bytes) | InlineExternInvalid (name : bytes)
  | ResourceArityMismatch (name : bytes) | ResourceRepresentationVersion (name : bytes) (version : Z)
  | ResourceDropThunk (name : bytes) | ResourceDropAbi (name : bytes) | BorrowParamRegion
  | ReturnSummaryOnNonBorrowingType | ReturnSummaryRootCannotBorrow (root : Z) | ReturnSummaryCaptureRoot
  | ReturnSummaryDisagreement | ReturnSummaryOnUnsupportedSignature | ReturnSummaryGenerativeCapabilityGraph
  | ParallelTransferRootsNonCanonical | InvalidMutableRetention (reason : bytes) | InvalidMutableAccess (reason : bytes)
  | InvalidMutableViewEffect (reason : bytes) | ReturnCleanupMismatch | DropStateEffectMismatch.

(** ** The local definitions *)
Inductive LocalDefinition := LD_Struct (d : IStructDef) | LD_Enum (d : IEnumDef) | LD_Resource (d : IResourceDef).

Definition ld_name (d : LocalDefinition) : bytes :=
  match d with LD_Struct d => is_name d | LD_Enum d => ie_ename d | LD_Resource d => ir_name d end.
Definition ld_type_params (d : LocalDefinition) : list ITypeParam :=
  match d with LD_Struct d => is_type_params d | LD_Enum d => ie_type_params d | LD_Resource d => ir_type_params d end.
Definition ld_values (d : LocalDefinition) : list IType :=
  match d with
  | LD_Struct d => map snd (is_fields d)
  | LD_Enum d => concat (map snd (ie_variants d))
  | LD_Resource _ => []
  end.
Definition is_resource (d : LocalDefinition) : bool := match d with LD_Resource _ => true | _ => false end.

Record LocalDefinitionIndex := {
  x_unit : bytes; x_definitions : list LocalDefinition; x_by_name : gmap bytes nat;
  x_param_offsets : list nat; x_total_params : nat
}.

(** The three loops of [new]: each definition takes the next index. *)
Fixpoint add_definitions (ds : list LocalDefinition) (definitions : list LocalDefinition) (by_name : gmap bytes nat) :
    (list LocalDefinition * gmap bytes nat) + ImportCompatibilityError :=
  match ds with
  | [] => inl (definitions, by_name)
  | d :: ds =>
      match by_name !! ld_name d with
      | Some _ => inr (DuplicateLocalType (ld_name d))
      | None => add_definitions ds (definitions ++ [d]) (<[ld_name d := length definitions]> by_name)
      end
  end.
Fixpoint offsets_from (total : nat) (ds : list LocalDefinition) : list nat * nat :=
  match ds with
  | [] => ([], total)
  | d :: ds => let '(os, n) := offsets_from (total + length (ld_type_params d)) ds in (total :: os, n)
  end.
Definition index_new (s : InterfaceSummary) : LocalDefinitionIndex + ImportCompatibilityError :=
  match add_definitions (map LD_Struct (s_structs s) ++ map LD_Enum (s_enums s) ++ map LD_Resource (s_resources s)) [] ∅ with
  | inr e => inr e
  | inl (definitions, by_name) =>
      let '(offsets, total) := offsets_from 0 definitions in
      inl {| x_unit := s_unit s; x_definitions := definitions; x_by_name := by_name;
             x_param_offsets := offsets; x_total_params := total |}
  end.

Definition contains_dot (path : bytes) : bool := existsb (Z.eqb 46) path.
Definition strip_unit (x : LocalDefinitionIndex) (path : bytes) : option bytes :=
  rest ← strip_prefix (x_unit x) path; strip_prefix [46] rest.
Definition local (x : LocalDefinitionIndex) (path : bytes) : option nat :=
  match strip_unit x path with
  | Some name => x_by_name x !! name
  | None => if contains_dot path then None else x_by_name x !! path
  end.
Definition is_missing_qualified_local (x : LocalDefinitionIndex) (path : bytes) : bool :=
  match strip_unit x path with
  | Some name => negb (contains_dot name) && bool_decide (x_by_name x !! name = None)
  | None => false
  end.

(** ** Builtin spellings *)
Inductive BuiltinCapability := BorrowLeaf | Transparent | OpaqueType.

Definition BUILTIN_CAPABILITIES : list (bytes * nat * BuiltinCapability) :=
  [
   (str "str", 0%nat, BorrowLeaf); (str "region", 0%nat, BorrowLeaf); (str "reader", 0%nat, BorrowLeaf);
   (str "writer", 0%nat, BorrowLeaf); (str "log.logger", 0%nat, BorrowLeaf);
   (str "codec.batch", 0%nat, BorrowLeaf); (str "codec.i64_column", 0%nat, BorrowLeaf);
   (str "codec.f64_column", 0%nat, BorrowLeaf); (str "codec.bool_column", 0%nat, BorrowLeaf);
   (str "codec.str_column", 0%nat, BorrowLeaf); (str "http_read_stream", 0%nat, BorrowLeaf);
   (str "http_sse_stream", 0%nat, BorrowLeaf); (str "http_sse_event", 0%nat, BorrowLeaf);
   (str "http.http_sse_event", 0%nat, BorrowLeaf); (str "http_headers", 0%nat, BorrowLeaf);
   (str "http_request_view", 0%nat, BorrowLeaf); (str "json.doc", 0%nat, BorrowLeaf);
   (str "slice", 1%nat, BorrowLeaf); (str "soa", 1%nat, BorrowLeaf); (str "json.scanner", 1%nat, BorrowLeaf);
   (str "resource_ref", 1%nat, BorrowLeaf); (str "Option", 1%nat, Transparent);
   (str "array", 1%nat, Transparent); (str "Result", 2%nat, Transparent); (str "box", 1%nat, OpaqueType);
   (str "array_builder", 1%nat, OpaqueType); (str "builder", 0%nat, OpaqueType);
   (str "buffer", 0%nat, OpaqueType); (str "xml.reader", 0%nat, OpaqueType);
   (str "codec.encoder", 0%nat, OpaqueType); (str "crypto.digest", 0%nat, OpaqueType);
   (str "fs.directory", 0%nat, OpaqueType); (str "fs.dir_cursor", 0%nat, OpaqueType);
   (str "fs.dir_entry", 0%nat, OpaqueType); (str "fs.metadata", 0%nat, OpaqueType);
   (str "fs.entry_kind", 0%nat, OpaqueType); (str "process.termination", 0%nat, OpaqueType);
   (str "process.wait_result", 0%nat, OpaqueType); (str "process.readiness", 0%nat, OpaqueType);
   (str "process.signal", 0%nat, OpaqueType); (str "process.signal_set", 0%nat, OpaqueType);
   (str "process.snapshot", 0%nat, OpaqueType); (str "rs256_private_key", 0%nat, OpaqueType);
   (str "crypto.rs256_private_key", 0%nat, OpaqueType); (str "rs256_public_key", 0%nat, OpaqueType);
   (str "crypto.rs256_public_key", 0%nat, OpaqueType); (str "es256_private_key", 0%nat, OpaqueType);
   (str "crypto.es256_private_key", 0%nat, OpaqueType); (str "es256_public_key", 0%nat, OpaqueType);
   (str "crypto.es256_public_key", 0%nat, OpaqueType); (str "ed25519_private_key", 0%nat, OpaqueType);
   (str "crypto.ed25519_private_key", 0%nat, OpaqueType); (str "ed25519_public_key", 0%nat, OpaqueType);
   (str "crypto.ed25519_public_key", 0%nat, OpaqueType); (str "file", 0%nat, OpaqueType);
   (str "rng", 0%nat, OpaqueType); (str "regex", 0%nat, OpaqueType); (str "captures", 0%nat, OpaqueType);
   (str "tcp_conn", 0%nat, OpaqueType); (str "tcp_listener", 0%nat, OpaqueType);
   (str "udp_socket", 0%nat, OpaqueType); (str "child", 0%nat, OpaqueType);
   (str "process.signal_subscription", 0%nat, OpaqueType); (str "process.child_scope", 0%nat, OpaqueType);
   (str "process.member", 0%nat, OpaqueType); (str "process.member_info", 0%nat, OpaqueType);
   (str "process.reaped", 0%nat, OpaqueType); (str "fs.memory_writer", 0%nat, OpaqueType);
   (str "fs.sealed_file", 0%nat, OpaqueType); (str "process.image", 0%nat, OpaqueType);
   (str "process.user_namespace", 0%nat, OpaqueType); (str "fs.memory_kind", 0%nat, OpaqueType);
   (str "command", 0%nat, OpaqueType); (str "run_output", 0%nat, OpaqueType);
   (str "run_bytes", 0%nat, OpaqueType); (str "http_client", 0%nat, OpaqueType);
   (str "http_request", 0%nat, OpaqueType); (str "http_response", 0%nat, OpaqueType);
   (str "http_server", 0%nat, OpaqueType); (str "http_request_ctx", 0%nat, OpaqueType);
   (str "response_builder", 0%nat, OpaqueType); (str "http_stream", 0%nat, OpaqueType);
   (str "http_upgrade", 0%nat, OpaqueType); (str "json.kind", 0%nat, OpaqueType);
   (str "json.encode_options", 0%nat, OpaqueType); (str "log.level", 0%nat, OpaqueType);
   (str "buffer.page_policy", 0%nat, OpaqueType); (str "codec.kind", 0%nat, OpaqueType);
   (str "Error", 0%nat, OpaqueType); (str "core.Error", 0%nat, OpaqueType);
   (str "os.host_info", 0%nat, OpaqueType); (str "os.identity_info", 0%nat, OpaqueType);
   (str "fs.access_mode", 0%nat, OpaqueType); (str "argon2_params", 0%nat, OpaqueType);
   (str "crypto.argon2_params", 0%nat, OpaqueType); (str "regex_match", 0%nat, OpaqueType);
   (str "regex.regex_match", 0%nat, OpaqueType); (str "()", 0%nat, OpaqueType);
   (str "bool", 0%nat, OpaqueType); (str "char", 0%nat, OpaqueType); (str "string", 0%nat, OpaqueType);
   (str "i8", 0%nat, OpaqueType); (str "i16", 0%nat, OpaqueType); (str "i32", 0%nat, OpaqueType);
   (str "i64", 0%nat, OpaqueType); (str "u8", 0%nat, OpaqueType); (str "u16", 0%nat, OpaqueType);
   (str "u32", 0%nat, OpaqueType); (str "u64", 0%nat, OpaqueType); (str "f32", 0%nat, OpaqueType);
   (str "f64", 0%nat, OpaqueType); (str "raw", 0%nat, OpaqueType)
  ].

Definition builtin_capability (path : bytes) : option (nat * BuiltinCapability) :=
  match List.find (λ p, bool_decide (p.1.1 = path)) BUILTIN_CAPABILITIES with
  | Some (_, arity, capability) => Some (arity, capability)
  | None =>
      let width := match strip_prefix (str "vec") path with Some w => Some w | None => strip_prefix (str "mask") path end in
      match width with
      | Some w => if is_one_of w ["2"; "4"; "8"; "16"]%string then Some (1%nat, OpaqueType) else None
      | None => None
      end
  end.

Definition bare_nominal_alias_prefers_local (path : bytes) : bool :=
  is_one_of path ["Error"; "command"; "run_output"; "argon2_params"; "regex_match"; "rs256_private_key";
                  "rs256_public_key"; "es256_private_key"; "es256_public_key"; "ed25519_private_key";
                  "ed25519_public_key"]%string.
Definition shadowed (x : LocalDefinitionIndex) (path : bytes) : bool :=
  bare_nominal_alias_prefers_local path && bool_decide (is_Some (local x path)).
Definition builtin_capability_after_local (x : LocalDefinitionIndex) (path : bytes) : option (nat * BuiltinCapability) :=
  if shadowed x path then None else builtin_capability path.

(** ** Facts *)
Record BorrowFacts := { bf_intrinsic : bool; bf_params : list bool }.
Definition borrow_empty (n : nat) : BorrowFacts := {| bf_intrinsic := false; bf_params := replicate n false |}.
(** The zip leaves the longer tail of the left side as it is. *)
Fixpoint or_flags (l m : list bool) : list bool :=
  match l, m with b :: l, c :: m => (b || c) :: or_flags l m | l, _ => l end.
Definition borrow_union (f g : BorrowFacts) : BorrowFacts :=
  {| bf_intrinsic := bf_intrinsic f || bf_intrinsic g; bf_params := or_flags (bf_params f) (bf_params g) |}.

Record OwnershipFacts := { of_intrinsic : bool; of_unknown : bool; of_params : list bool }.
Definition ownership_empty (n : nat) : OwnershipFacts :=
  {| of_intrinsic := false; of_unknown := false; of_params := replicate n false |}.
Definition ownership_union (f g : OwnershipFacts) : OwnershipFacts :=
  {| of_intrinsic := of_intrinsic f || of_intrinsic g; of_unknown := of_unknown f || of_unknown g;
     of_params := or_flags (of_params f) (of_params g) |}.

#[export] Instance BorrowFacts_eq_dec : EqDecision BorrowFacts.
Proof. solve_decision. Defined.
#[export] Instance OwnershipFacts_eq_dec : EqDecision OwnershipFacts.
Proof. solve_decision. Defined.

(** [params[i] = true] *)
Definition set_flag (i : nat) (l : list bool) : res (list bool) := if (i <? length l)%nat then Ret (<[i := true]> l) else Panic.

(** [type_params.iter().position(|parameter| parameter.name == *path)], for a bare name *)
Fixpoint position (path : bytes) (tps : list ITypeParam) : option nat :=
  match tps with
  | [] => None
  | p :: tps => if bool_decide (tp_name p = path) then Some 0%nat else S <$> position path tps
  end.
Definition parameter_index (path : bytes) (args : list IType) (tps : list ITypeParam) : option nat :=
  match args with [] => position path tps | _ => None end.

(** The arguments at the flagged positions. *)
Fixpoint selected (flags : list bool) (args : list IType) : list IType :=
  match flags, args with
  | b :: flags, a :: args => if b : bool then a :: selected flags args else selected flags args
  | _, _ => []
  end.

(** The records of a type: the turns of a walk over it. *)
Fixpoint itype_size (t : IType) : nat :=
  match t with
  | IT_Named _ args => S (sum_list_with itype_size args)
  | IT_FixedArray e _ => S (itype_size e)
  | IT_Tuple es => S (sum_list_with itype_size es)
  | IT_Fn params ret _ _ _ => S (sum_list_with iparam_size params + itype_size ret)
  end
with iparam_size (p : IParam) : nat := match p with MkIParam _ t => itype_size t end.

(** ** The walks: a stack of types, its top at the head *)
Section Walks.
Context (x : LocalDefinitionIndex) (tps : list ITypeParam).

Fixpoint borrow_walk (sums : list BorrowFacts) (fuel : nat) (work : list IType) (result : BorrowFacts) : res BorrowFacts :=
  match work with
  | [] => Ret result
  | current :: work =>
      match fuel with
      | O => OutOfFuel
      | S fuel =>
          let intrinsic := {| bf_intrinsic := true; bf_params := bf_params result |} in
          match current with
          | IT_FixedArray element _ => borrow_walk sums fuel (element :: work) result
          | IT_Tuple elements => borrow_walk sums fuel (rev elements ++ work) result
          | IT_Fn _ _ _ _ _ => borrow_walk sums fuel work intrinsic
          | IT_Named path args =>
              match parameter_index path args tps with
              | Some i =>
                  let* ps := set_flag i (bf_params result) in
                  borrow_walk sums fuel work {| bf_intrinsic := bf_intrinsic result; bf_params := ps |}
              | None =>
                  match builtin_capability_after_local x path with
                  | Some (_, BorrowLeaf) => borrow_walk sums fuel work intrinsic
                  | Some (_, Transparent) => borrow_walk sums fuel (rev args ++ work) result
                  | Some (_, OpaqueType) => borrow_walk sums fuel work result
                  | None =>
                      match local x path with
                      | Some i =>
                          let* summary := unwrap (sums !! i) in
                          borrow_walk sums fuel (rev (selected (bf_params summary) args) ++ work)
                            {| bf_intrinsic := bf_intrinsic result || bf_intrinsic summary; bf_params := bf_params result |}
                      | None => borrow_walk sums fuel work (if contains_dot path then intrinsic else result)
                      end
                  end
              end
          end
      end
  end.
Definition eval_borrow (ty : IType) (sums : list BorrowFacts) : res BorrowFacts :=
  borrow_walk sums (itype_size ty) [ty] (borrow_empty (length tps)).

Fixpoint ownership_walk (sums : list OwnershipFacts) (fuel : nat) (work : list IType) (result : OwnershipFacts) :
    res OwnershipFacts :=
  match work with
  | [] => Ret result
  | current :: work =>
      match fuel with
      | O => OutOfFuel
      | S fuel =>
          match current with
          | IT_FixedArray element _ => ownership_walk sums fuel (element :: work) result
          | IT_Tuple elements => ownership_walk sums fuel (rev elements ++ work) result
          | IT_Fn _ _ _ _ _ => ownership_walk sums fuel work result
          | IT_Named path args =>
              match parameter_index path args tps with
              | Some i =>
                  let* ps := set_flag i (of_params result) in
                  ownership_walk sums fuel work
                    {| of_intrinsic := of_intrinsic result; of_unknown := of_unknown result; of_params := ps |}
              | None =>
                  if is_one_of path ["Option"; "Result"]%string then ownership_walk sums fuel (rev args ++ work) result
                  else
                    let* builtin := (if shadowed x path then Ret None else builtin_spelling_needs_return_cleanup path) in
                    match builtin with
                    | Some owns_droppable =>
                        ownership_walk sums fuel work
                          {| of_intrinsic := of_intrinsic result || owns_droppable; of_unknown := of_unknown result;
                             of_params := of_params result |}
                    | None =>
                        match builtin_capability_after_local x path with
                        | Some _ => ownership_walk sums fuel work result
                        | None =>
                            match local x path with
                            | Some i =>
                                let* summary := unwrap (sums !! i) in
                                ownership_walk sums fuel (rev (selected (of_params summary) args) ++ work)
                                  {| of_intrinsic := of_intrinsic result || of_intrinsic summary;
                                     of_unknown := of_unknown result || of_unknown summary; of_params := of_params result |}
                            | None =>
                                ownership_walk sums fuel work
                                  (if contains_dot path
                                   then {| of_intrinsic := of_intrinsic result; of_unknown := true; of_params := of_params result |}
                                   else result)
                            end
                        end
                    end
              end
          end
      end
  end.
Definition eval_ownership (ty : IType) (sums : list OwnershipFacts) : res OwnershipFacts :=
  ownership_walk sums (itype_size ty) [ty] (ownership_empty (length tps)).

Fixpoint growth_walk (sums : list (list bool)) (fuel : nat) (work : list IType) (result : list bool) : res (list bool) :=
  match work with
  | [] => Ret result
  | current :: work =>
      match fuel with
      | O => OutOfFuel
      | S fuel =>
          match current with
          | IT_FixedArray element _ => growth_walk sums fuel (element :: work) result
          | IT_Tuple elements => growth_walk sums fuel (rev elements ++ work) result
          | IT_Fn _ _ _ _ _ => growth_walk sums fuel work result
          | IT_Named path args =>
              match parameter_index path args tps with
              | Some i => let* result := set_flag i result in growth_walk sums fuel work result
              | None =>
                  match builtin_capability_after_local x path with
                  | Some (_, Transparent) => growth_walk sums fuel (rev args ++ work) result
                  | Some _ => growth_walk sums fuel work result
                  | None =>
                      match local x path with
                      | Some i =>
                          let* summary := unwrap (sums !! i) in
                          growth_walk sums fuel (rev (selected summary args) ++ work) result
                      | None => growth_walk sums fuel work result
                      end
                  end
              end
          end
      end
  end.
Definition eval_growth (ty : IType) (sums : list (list bool)) : res (list bool) :=
  growth_walk sums (itype_size ty) [ty] (replicate (length tps) false).
End Walks.

(** ** The solvers: sweeps over the definitions until one changes nothing *)
Section Solve.
Context {F : Type} `{EqDecision F} (next : nat → list F → res F).

Fixpoint sweep (indices : list nat) (facts : list F) (changed : bool) : res (list F * bool) :=
  match indices with
  | [] => Ret (facts, changed)
  | i :: indices =>
      let* new := next i facts in
      let* current := unwrap (facts !! i) in
      if bool_decide (new = current) then sweep indices facts changed else sweep indices (<[i := new]> facts) true
  end.
Fixpoint solve (fuel : nat) (facts : list F) : res (list F) :=
  match fuel with
  | O => OutOfFuel
  | S fuel =>
      let* '(facts, changed) := sweep (seq 0 (length facts)) facts false in
      if changed : bool then solve fuel facts else Ret facts
  end.
End Solve.

(** [for value in definition.values() { next.union(&eval(value)) }] *)
Fixpoint union_all {F} (union : F → F → F) (eval : IType → res F) (values : list IType) (acc : F) : res F :=
  match values with
  | [] => Ret acc
  | v :: values => let* f := eval v in union_all union eval values (union acc f)
  end.

Section Solvers.
Context (x : LocalDefinitionIndex).

Definition next_borrow (i : nat) (facts : list BorrowFacts) : res BorrowFacts :=
  let* d := unwrap (x_definitions x !! i) in
  let* current := unwrap (facts !! i) in
  union_all borrow_union (λ v, eval_borrow x (ld_type_params d) v facts) (ld_values d)
    (if is_resource d then {| bf_intrinsic := true; bf_params := bf_params current |} else current).
Definition next_ownership (i : nat) (facts : list OwnershipFacts) : res OwnershipFacts :=
  let* d := unwrap (x_definitions x !! i) in
  let empty := ownership_empty (length (ld_type_params d)) in
  union_all ownership_union (λ v, eval_ownership x (ld_type_params d) v facts) (ld_values d)
    (if is_resource d then {| of_intrinsic := true; of_unknown := of_unknown empty; of_params := of_params empty |} else empty).
Definition next_growth (i : nat) (facts : list (list bool)) : res (list bool) :=
  let* d := unwrap (x_definitions x !! i) in
  union_all or_flags (λ v, eval_growth x (ld_type_params d) v facts) (ld_values d)
    (replicate (length (ld_type_params d)) false).

(** A sweep that changes something turns a flag, so the flags bound the sweeps. *)
Definition arities : list nat := map (λ d, length (ld_type_params d)) (x_definitions x).
Definition solve_borrow : res (list BorrowFacts) := solve next_borrow (S (sum_list_with S arities)) (map borrow_empty arities).
Definition solve_ownership : res (list OwnershipFacts) :=
  solve next_ownership (S (sum_list_with (λ n, S (S n)) arities)) (map ownership_empty arities).
Definition solve_growth : res (list (list bool)) := solve next_growth (S (sum_list arities)) (map (λ n, replicate n true) arities).
End Solvers.

(** ** Definitions that instantiate without end

    Nodes are the type parameters of the local definitions; an edge leads from a
    parameter to the parameter it is passed for, positive when it is passed inside
    another type. *)
Record CapabilityAnalysis := {
  an_index : LocalDefinitionIndex; an_borrow : list BorrowFacts; an_ownership : list OwnershipFacts;
  an_growth : list (list bool)
}.
Abbreviation Edge := (nat * nat * bool)%type.

Fixpoint occurrence_walk (x : LocalDefinitionIndex) (source_params : list ITypeParam) (from to : nat) (fuel : nat)
    (work : list (IType * bool)) (edges : list Edge) : res (list Edge) :=
  match work with
  | [] => Ret edges
  | (current, wrapped) :: work =>
      match fuel with
      | O => OutOfFuel
      | S fuel =>
          match current with
          | IT_FixedArray element _ => occurrence_walk x source_params from to fuel ((element, true) :: work) edges
          | IT_Named path args =>
              match parameter_index path args source_params with
              | Some p => occurrence_walk x source_params from to fuel work (edges ++ [((from + p)%nat, to, wrapped)])
              | None => occurrence_walk x source_params from to fuel (rev (map (λ a, (a, true)) args) ++ work) edges
              end
          | IT_Tuple elements => occurrence_walk x source_params from to fuel (rev (map (λ e, (e, true)) elements) ++ work) edges
          | IT_Fn params ret _ _ _ =>
              occurrence_walk x source_params from to fuel
                ((ret, true) :: rev (map (λ p, (ip_ty p, true)) params) ++ work) edges
          end
      end
  end.

Section Cycles.
Context (a : CapabilityAnalysis).
Let x := an_index a.

Definition add_occurrence_edges (source target target_param : nat) (actual : IType) (edges : list Edge) : res (list Edge) :=
  let* d := unwrap (x_definitions x !! source) in
  let* from := unwrap (x_param_offsets x !! source) in
  let* to := unwrap (x_param_offsets x !! target) in
  occurrence_walk x (ld_type_params d) from (to + target_param) (itype_size actual) [(actual, false)] edges.

(** The arguments of one application: their edges, and those to walk on. *)
Fixpoint argument_edges (source target : nat) (position : nat) (args : list IType) (work : list IType) (edges : list Edge) :
    res (list IType * list Edge) :=
  match args with
  | [] => Ret (work, edges)
  | argument :: args =>
      let* edges := add_occurrence_edges source target position argument edges in
      let* flags := unwrap (an_growth a !! target) in
      let* grows := unwrap (flags !! position) in
      argument_edges source target (S position) args (if grows : bool then argument :: work else work) edges
  end.
Fixpoint collect_walk (source : nat) (fuel : nat) (work : list IType) (edges : list Edge) : res (list Edge) :=
  match work with
  | [] => Ret edges
  | current :: work =>
      match fuel with
      | O => OutOfFuel
      | S fuel =>
          match current with
          | IT_FixedArray element _ => collect_walk source fuel (element :: work) edges
          | IT_Tuple elements => collect_walk source fuel (rev elements ++ work) edges
          | IT_Fn _ _ _ _ _ => collect_walk source fuel work edges
          | IT_Named path args =>
              match builtin_capability_after_local x path with
              | Some (_, Transparent) => collect_walk source fuel (rev args ++ work) edges
              | Some _ => collect_walk source fuel work edges
              | None =>
                  match local x path with
                  | None => collect_walk source fuel work edges
                  | Some target =>
                      let* '(work, edges) := argument_edges source target 0 args work edges in
                      collect_walk source fuel work edges
                  end
              end
          end
      end
  end.
Definition collect_edges (source : nat) (root : IType) (edges : list Edge) : res (list Edge) :=
  collect_walk source (itype_size root) [root] edges.
Fixpoint collect_values (source : nat) (values : list IType) (edges : list Edge) : res (list Edge) :=
  match values with
  | [] => Ret edges
  | v :: values => let* edges := collect_edges source v edges in collect_values source values edges
  end.
Fixpoint collect_all (source : nat) (ds : list LocalDefinition) (edges : list Edge) : res (list Edge) :=
  match ds with
  | [] => Ret edges
  | d :: ds => let* edges := collect_values source (ld_values d) edges in collect_all (S source) ds edges
  end.
End Cycles.

(** [forward[from].push(to)], [reverse[to].push(from)]; [None] is the rejection of an
    edge outside the graph. *)
Fixpoint adjacency (edges : list Edge) (forward reverse : list (list nat)) : option (list (list nat) * list (list nat)) :=
  match edges with
  | [] => Some (forward, reverse)
  | (from, to, _) :: edges =>
      out ← forward !! from; inc ← reverse !! to;
      adjacency edges (<[from := out ++ [to]]> forward) (<[to := inc ++ [from]]> reverse)
  end.

(** The first pass: nodes in the order they are finished. *)
Fixpoint finish_walk (forward : list (list nat)) (fuel : nat) (stack : list (nat * nat)) (seen : list bool) (order : list nat) :
    res (list bool * list nat) :=
  match stack with
  | [] => Ret (seen, order)
  | (node, edge_index) :: stack =>
      match fuel with
      | O => OutOfFuel
      | S fuel =>
          let* out := unwrap (forward !! node) in
          match out !! edge_index with
          | Some next =>
              let stack := (node, S edge_index) :: stack in
              let* visited := unwrap (seen !! next) in
              if visited : bool then finish_walk forward fuel stack seen order
              else finish_walk forward fuel ((next, 0%nat) :: stack) (<[next := true]> seen) order
          | None => finish_walk forward fuel stack seen (order ++ [node])
          end
      end
  end.
Fixpoint finish_order (forward : list (list nat)) (fuel : nat) (starts : list nat) (seen : list bool) (order : list nat) :
    res (list nat) :=
  match starts with
  | [] => Ret order
  | start :: starts =>
      let* visited := unwrap (seen !! start) in
      if visited : bool then finish_order forward fuel starts seen order
      else
        let* '(seen, order) := finish_walk forward fuel [(start, 0%nat)] (<[start := true]> seen) order in
        finish_order forward fuel starts seen order
  end.

(** The second pass, on the reversed edges; [None] is [usize::MAX]. *)
Fixpoint claim (id : nat) (nexts : list nat) (component : list (option nat)) (stack : list nat) : res (list (option nat) * list nat) :=
  match nexts with
  | [] => Ret (component, stack)
  | next :: nexts =>
      let* c := unwrap (component !! next) in
      match c with
      | None => claim id nexts (<[next := Some id]> component) (next :: stack)
      | Some _ => claim id nexts component stack
      end
  end.
Fixpoint component_walk (reverse : list (list nat)) (id : nat) (fuel : nat) (stack : list nat) (component : list (option nat)) :
    res (list (option nat)) :=
  match stack with
  | [] => Ret component
  | node :: stack =>
      match fuel with
      | O => OutOfFuel
      | S fuel =>
          let* nexts := unwrap (reverse !! node) in
          let* '(component, stack) := claim id nexts component stack in
          component_walk reverse id fuel stack component
      end
  end.
Fixpoint components (reverse : list (list nat)) (fuel : nat) (order : list nat) (id : nat) (component : list (option nat)) :
    res (list (option nat)) :=
  match order with
  | [] => Ret component
  | start :: order =>
      let* c := unwrap (component !! start) in
      match c with
      | Some _ => components reverse fuel order id component
      | None =>
          let* component := component_walk reverse id fuel [start] (<[start := Some id]> component) in
          components reverse fuel order (S id) component
      end
  end.

(** [edges.any(|(from, to, positive)| positive && component[from] == component[to])] *)
Fixpoint positive_inside (component : list (option nat)) (edges : list Edge) : res bool :=
  match edges with
  | [] => Ret false
  | (from, to, positive) :: edges =>
      let* inside :=
        (if positive : bool then
           let* c := unwrap (component !! from) in
           let* d := unwrap (component !! to) in
           Ret (bool_decide (c = d))
         else Ret false) in
      if inside : bool then Ret true else positive_inside component edges
  end.

Definition reject_generative_cycles (a : CapabilityAnalysis) : res (option ImportCompatibilityError) :=
  let n := x_total_params (an_index a) in
  let* edges := collect_all a 0 (x_definitions (an_index a)) [] in
  match adjacency edges (replicate n []) (replicate n []) with
  | None => Ret (Some ReturnSummaryGenerativeCapabilityGraph)
  | Some (forward, reverse) =>
      let fuel := (2 * n + length edges)%nat in
      let* order := finish_order forward fuel (seq 0 n) (replicate n false) [] in
      let* component := components reverse fuel (rev order) 0 (replicate n None) in
      let* cyclic := positive_inside component edges in
      Ret (if cyclic : bool then Some ReturnSummaryGenerativeCapabilityGraph else None)
  end.

Definition analysis_new (x : LocalDefinitionIndex) : res (CapabilityAnalysis + ImportCompatibilityError) :=
  let* borrow := solve_borrow x in
  let* ownership := solve_ownership x in
  let* growth := solve_growth x in
  let a := {| an_index := x; an_borrow := borrow; an_ownership := ownership; an_growth := growth |} in
  let* rejected := reject_generative_cycles a in
  Ret (match rejected with Some e => inr e | None => inl a end).

(** ** The questions *)
Definition may_borrow (a : CapabilityAnalysis) (ty : IType) (tps : list ITypeParam) : res bool :=
  let* facts := eval_borrow (an_index a) tps ty (an_borrow a) in
  Ret (bf_intrinsic facts || existsb id (bf_params facts)).
Definition return_cleanup (a : CapabilityAnalysis) (ty : IType) (tps : list ITypeParam) : res (option ReturnCleanupAbi) :=
  let* facts := eval_ownership (an_index a) tps ty (an_ownership a) in
  Ret (if of_unknown facts || existsb id (of_params facts) then None
       else if of_intrinsic facts then Some RC_DynamicBit else Some RC_None).

Definition is_borrowed (m : ParamMode) : bool := match m with Borrow | BorrowMut => true | _ => false end.
(** Does the type hold a builtin that is Move and yet carries no return cleanup (a region value)? *)
Fixpoint noncleanup_walk (x : LocalDefinitionIndex) (fuel : nat) (work : list IType) : res bool :=
  match work with
  | [] => Ret false
  | current :: work =>
      match fuel with
      | O => OutOfFuel
      | S fuel =>
          match current with
          | IT_FixedArray element _ => noncleanup_walk x fuel (element :: work)
          | IT_Tuple elements => noncleanup_walk x fuel (rev elements ++ work)
          | IT_Fn _ _ _ _ _ => noncleanup_walk x fuel work
          | IT_Named path args =>
              let* found :=
                (if shadowed x path then Ret false
                 else let* moved := builtin_spelling_is_move path in
                      if bool_decide (moved = Some true)
                      then let* cleanup := builtin_spelling_needs_return_cleanup path in Ret (bool_decide (cleanup = Some false))
                      else Ret false) in
              if found : bool then Ret true
              else noncleanup_walk x fuel (if is_one_of path ["Option"; "Result"]%string then rev args ++ work else work)
          end
      end
  end.
Definition contains_noncleanup_move_builtin (a : CapabilityAnalysis) (ty : IType) : res bool :=
  noncleanup_walk (an_index a) (itype_size ty) [ty].
Definition may_supply_return_provenance (a : CapabilityAnalysis) (ty : IType) (tps : list ITypeParam) : res bool :=
  let* b := may_borrow a ty tps in
  if b : bool then Ret true
  else let* cleanup := return_cleanup a ty tps in
       match cleanup with
       | Some RC_DynamicBit => Ret true
       | _ => contains_noncleanup_move_builtin a ty
       end.
Definition parameter_may_supply_return_provenance (a : CapabilityAnalysis) (p : IParam) (tps : list ITypeParam) : res bool :=
  let* b := may_borrow a (ip_ty p) tps in
  if b : bool then Ret true
  else if is_borrowed (ip_mode p) then may_supply_return_provenance a (ip_ty p) tps else Ret false.

(** *** The gate on decoded transfer roots *)
Fixpoint all_res {A} (f : A → res bool) (l : list A) : res bool :=
  match l with [] => Ret true | x :: l => let* b := f x in if b : bool then all_res f l else Ret false end.
Definition root_capable (a : CapabilityAnalysis) (f : IFnSig) (root : Z) : res bool :=
  match f_params f !! Z.to_nat root with
  | None => Ret false
  | Some p =>
      let* b := may_borrow a (ip_ty p) (f_type_params f) in
      Ret (b || is_borrowed (ip_mode p))
  end.
Definition decoded_parallel_transfer_roots_are_borrow_capable (s : InterfaceSummary) : res bool :=
  if forallb (λ f, match f_parallel_transfer_params f with [] => true | _ => false end) (s_fns s) then Ret true
  else match index_new s with
       | inr _ => Ret false
       | inl x =>
           let* an := analysis_new x in
           match an with
           | inr _ => Ret false
           | inl a => all_res (λ f, all_res (root_capable a f) (f_parallel_transfer_params f)) (s_fns s)
           end
       end.
