(* ===== verification/CapabilitySpec.v ===== *)
(** * What the borrow analysis promises

    The borrow facts of an interface as the least solution of their rules, and the
    sweeping solver as a computation of it; the transfer gate built on the analysis. *)
From Stdlib Require Import ZArith Lia String.
From stdpp Require Import gmap.
From S2P Require Import Prelude Utf8 Types Hash Ast DropPlan Spelling Interface Codec CodecSpec CodecItems CodecRoundtrip Capability.
Local Open Scope Z_scope.

(** ** Solving by sweeps *)
Section Solve.
Context {F : Type} `{EqDecision F} (next : nat → list F → res F) (P : list F → Prop) (μ : list F → nat) (M : nat).
Hypothesis next_ok : ∀ i fs f, P fs → fs !! i = Some f →
  ∃ n, next i fs = Ret n ∧ (n ≠ f → P (<[i := n]> fs) ∧ (μ fs < μ (<[i := n]> fs))%nat).
Hypothesis bounded : ∀ fs, P fs → (μ fs ≤ M)%nat.

Lemma sweep_spec l fs ch :
  P fs → (∀ i, i ∈ l → i < length fs)%nat →
  ∃ fs' ch', sweep next l fs ch = Ret (fs', ch') ∧ P fs' ∧ length fs' = length fs ∧
    ((ch' = ch ∧ fs' = fs ∧ ∀ i f, i ∈ l → fs !! i = Some f → next i fs = Ret f) ∨ (ch' = true ∧ (μ fs < μ fs')%nat)).
Proof.
  revert fs ch. induction l as [|i l IH]; intros fs ch HP Hlen; simpl.
  { exists fs, ch. split_and!; [done..|]. left. split_and!; [done..|set_solver]. }
  destruct (lookup_lt_is_Some_2 fs i) as [f Hf]; [apply Hlen; set_solver|].
  destruct (next_ok i fs f HP Hf) as (n & Hn & Hstep). rewrite Hn, Hf. cbn [res_bind unwrap]. case_bool_decide as Heq.
  - subst n. destruct (IH fs ch HP) as (fs' & ch' & Hs & HP' & Hl & Hc); [set_solver|]. exists fs', ch'. split_and!; [done..|].
    destruct Hc as [(-> & -> & Hall)|Hc]; [left|by right]. split_and!; [done..|].
    intros j g [ -> |Hj]%elem_of_cons Hg; [by simplify_eq|by apply Hall].
  - destruct (Hstep Heq) as [HP1 Hμ]. destruct (IH (<[i := n]> fs) true HP1) as (fs' & ch' & Hs & HP' & Hl & Hc).
    { intros j Hj. rewrite length_insert. apply Hlen. set_solver. }
    exists fs', ch'. rewrite length_insert in Hl. split_and!; [done..|]. right. destruct Hc as [(-> & -> & _)|[ -> Hlt]]; split; try done. lia.
Qed.

Lemma solve_spec fuel fs :
  P fs → (M - μ fs < fuel)%nat →
  ∃ fs', solve next fuel fs = Ret fs' ∧ P fs' ∧ ∀ i f, fs' !! i = Some f → next i fs' = Ret f.
Proof.
  revert fs. induction fuel as [|fuel IH]; intros fs HP Hfuel; [lia|]. cbn [solve].
  destruct (sweep_spec (seq 0 (length fs)) fs false HP) as (fs' & ch' & -> & HP' & Hl & Hc).
  { intros i Hi%elem_of_seq. lia. }
  cbn [res_bind]. destruct Hc as [(-> & -> & Hall)|[ -> Hlt]].
  - exists fs. split_and!; [done..|]. intros i f Hf. apply Hall; [|done]. apply elem_of_seq. apply lookup_lt_Some in Hf. lia.
  - apply bounded in HP' as Hb. apply IH; [done|]. lia.
Qed.
End Solve.

(** ** The rules *)
Inductive fact := Intrinsic | Param (i : nat).
Section Rules.
Context (x : LocalDefinitionIndex).

(** What a type carries, given what the local definitions carry. *)
Inductive carries (D : nat → fact → Prop) (tps : list ITypeParam) : IType → fact → Prop :=
  | c_array e n f : carries D tps e f → carries D tps (IT_FixedArray e n) f
  | c_tuple es e f : e ∈ es → carries D tps e f → carries D tps (IT_Tuple es) f
  | c_fn ps r b g c : carries D tps (IT_Fn ps r b g c) Intrinsic
  | c_param path args i : parameter_index path args tps = Some i → carries D tps (IT_Named path args) (Param i)
  | c_leaf path args k : parameter_index path args tps = None →
      builtin_capability_after_local x path = Some (k, BorrowLeaf) → carries D tps (IT_Named path args) Intrinsic
  | c_transparent path args k a f : parameter_index path args tps = None →
      builtin_capability_after_local x path = Some (k, Transparent) → a ∈ args → carries D tps a f →
      carries D tps (IT_Named path args) f
  | c_local path args i : parameter_index path args tps = None → builtin_capability_after_local x path = None →
      local x path = Some i → D i Intrinsic → carries D tps (IT_Named path args) Intrinsic
  | c_local_arg path args i j a f : parameter_index path args tps = None → builtin_capability_after_local x path = None →
      local x path = Some i → D i (Param j) → args !! j = Some a → carries D tps a f → carries D tps (IT_Named path args) f
  | c_foreign path args : parameter_index path args tps = None → builtin_capability_after_local x path = None →
      local x path = None → contains_dot path = true → carries D tps (IT_Named path args) Intrinsic.

Definition def_step (D : nat → fact → Prop) (i : nat) (f : fact) : Prop :=
  ∃ d, x_definitions x !! i = Some d ∧
    ((is_resource d = true ∧ f = Intrinsic) ∨ ∃ v, v ∈ ld_values d ∧ carries D (ld_type_params d) v f).
(** The least facts closed under the definitions. *)
Definition def_carries (i : nat) (f : fact) : Prop := ∀ D, (∀ i f, def_step D i f → D i f) → D i f.

Lemma carries_mono (D E : nat → fact → Prop) tps ty f : (∀ i f, D i f → E i f) → carries D tps ty f → carries E tps ty f.
Proof. intros H. induction 1; eauto using carries. Qed.
Lemma def_step_mono (D E : nat → fact → Prop) i f : (∀ i f, D i f → E i f) → def_step D i f → def_step E i f.
Proof. intros H (d & Hd & Hf). exists d. split; [done|]. destruct Hf as [|(v & Hv & Hc)]; [by left|]. right. eauto using carries_mono. Qed.
Lemma def_carries_closed i f : def_step def_carries i f → def_carries i f.
Proof. intros Hs D HD. apply HD. eapply def_step_mono; [|exact Hs]. intros j g Hg. by apply Hg. Qed.
End Rules.

(** ** Facts as sets *)
Definition has (b : BorrowFacts) (f : fact) : Prop :=
  match f with Intrinsic => bf_intrinsic b = true | Param i => bf_params b !! i = Some true end.
Definition flagged (fs : list BorrowFacts) (i : nat) (f : fact) : Prop := ∃ b, fs !! i = Some b ∧ has b f.

Lemma selected_spec flags args a : a ∈ selected flags args ↔ ∃ j, flags !! j = Some true ∧ args !! j = Some a.
Proof.
  revert args. induction flags as [|b flags IH]; intros args; simpl; [split; [set_solver|by intros ([|] & ? & ?)]|].
  destruct args as [|y args]; [split; [set_solver|by intros ([|] & ? & ?)]|].
  destruct b; rewrite ?elem_of_cons, IH; split.
  - intros [ -> |(j & Hj)]; [by exists 0%nat|by exists (S j)].
  - intros ([|j] & Hf & Ha); [left; by simplify_eq/=|right; by exists j].
  - intros (j & Hj). by exists (S j).
  - intros ([|j] & Hf & Ha); [done|by exists j].
Qed.

Lemma selected_size flags args : (sum_list_with itype_size (selected flags args) ≤ sum_list_with itype_size args)%nat.
Proof. revert args. induction flags as [|[] flags IH]; intros [|a args]; simpl; try lia; specialize (IH args); lia. Qed.
Lemma sum_rev {A} (f : A → nat) l : sum_list_with f (rev l) = sum_list_with f l.
Proof. induction l as [|a l IH]; simpl; [done|]. rewrite sum_list_with_app. simpl. lia. Qed.
Lemma in_rev_app {A} (w : A) l m : w ∈ rev l ++ m ↔ w ∈ l ∨ w ∈ m.
Proof. rewrite elem_of_app, !list_elem_of_In, <-in_rev. done. Qed.
Lemma itype_size_pos t : (0 < itype_size t)%nat.
Proof. destruct t; simpl; lia. Qed.

Lemma parameter_index_lt path args tps i : parameter_index path args tps = Some i → (i < length tps)%nat.
Proof.
  unfold parameter_index. destruct args; [|done]. revert i. induction tps as [|p tps IH]; intros i; simpl; [done|].
  case_bool_decide; [intros [= <-]; lia|]. intros (j & Hj & ->)%fmap_Some. apply IH in Hj. lia.
Qed.

Lemma has_intrinsic b f (c : bool) :
  has {| bf_intrinsic := bf_intrinsic b || c; bf_params := bf_params b |} f ↔ has b f ∨ (c = true ∧ f = Intrinsic).
Proof. destruct f; simpl; [rewrite orb_true_iff; naive_solver|naive_solver]. Qed.
Lemma has_intrinsic_true b f : has {| bf_intrinsic := true; bf_params := bf_params b |} f ↔ has b f ∨ f = Intrinsic.
Proof. destruct f; simpl; naive_solver. Qed.
Lemma has_set_flag b f i ps : set_flag i (bf_params b) = Ret ps →
  length ps = length (bf_params b) ∧
  (has {| bf_intrinsic := bf_intrinsic b; bf_params := ps |} f ↔ has b f ∨ f = Param i).
Proof.
  unfold set_flag. destruct (Nat.ltb_spec i (length (bf_params b))); [|done]. intros [= <-]. rewrite length_insert. split; [done|].
  destruct f as [|j]; simpl; [naive_solver|]. destruct (decide (i = j)) as [ -> |].
  - rewrite list_lookup_insert_eq by done. naive_solver.
  - rewrite list_lookup_insert_ne by done. naive_solver.
Qed.

Section Walk.
Context (x : LocalDefinitionIndex) (tps : list ITypeParam) (fs : list BorrowFacts).
Hypothesis local_ok : ∀ path i, local x path = Some i → (i < length fs)%nat.
Let D := flagged fs.

(** What the arms of the walk add, rule by rule. *)
Lemma carries_named path args f :
  carries x D tps (IT_Named path args) f ↔
  match parameter_index path args tps with
  | Some i => f = Param i
  | None =>
      match builtin_capability_after_local x path with
      | Some (_, BorrowLeaf) => f = Intrinsic
      | Some (_, Transparent) => ∃ a, a ∈ args ∧ carries x D tps a f
      | Some (_, OpaqueType) => False
      | None =>
          match local x path with
          | Some i => (D i Intrinsic ∧ f = Intrinsic) ∨ ∃ j a, D i (Param j) ∧ args !! j = Some a ∧ carries x D tps a f
          | None => contains_dot path = true ∧ f = Intrinsic
          end
      end
  end.
Proof.
  split.
  - intros H; inversion H as [| | |? ? ? H1|? ? ? H1 H2|? ? ? ? ? H1 H2|? ? ? H1 H2 H3|? ? ? ? ? ? H1 H2 H3|? ? H1 H2 H3]; subst;
      rewrite H1; try rewrite H2; try rewrite H3; eauto 10.
  - destruct (parameter_index path args tps) eqn:H1; [intros ->; by constructor|].
    destruct (builtin_capability_after_local x path) as [[k []]|] eqn:H2.
    + intros ->. by eapply c_leaf.
    + intros (a & Ha & Hc). by eapply c_transparent.
    + done.
    + destruct (local x path) as [i|] eqn:H3.
      * intros [[Hd ->]|(j & a & Hd & Ha & Hc)]; [by eapply c_local|by eapply c_local_arg].
      * intros [Hdot ->]. by eapply c_foreign.
Qed.
Lemma carries_array e n f : carries x D tps (IT_FixedArray e n) f ↔ carries x D tps e f.
Proof. split; [by inversion 1|by constructor]. Qed.
Lemma carries_tuple es f : carries x D tps (IT_Tuple es) f ↔ ∃ e, e ∈ es ∧ carries x D tps e f.
Proof. split; [inversion 1; eauto|intros (e & ? & ?); by econstructor]. Qed.
Lemma carries_fn ps r b g c f : carries x D tps (IT_Fn ps r b g c) f ↔ f = Intrinsic.
Proof. split; [by inversion 1|intros ->; by constructor]. Qed.

Definition adds (work : list IType) (f : fact) : Prop := ∃ w, w ∈ work ∧ carries x D tps w f.
Lemma adds_cons w work f : adds (w :: work) f ↔ carries x D tps w f ∨ adds work f.
Proof. unfold adds. setoid_rewrite elem_of_cons. naive_solver. Qed.
Lemma adds_rev l work f : adds (rev l ++ work) f ↔ adds l f ∨ adds work f.
Proof. unfold adds. setoid_rewrite in_rev_app. naive_solver. Qed.

Lemma borrow_walk_spec fuel work result :
  (sum_list_with itype_size work ≤ fuel)%nat → length (bf_params result) = length tps →
  ∃ r, borrow_walk x tps fs fuel work result = Ret r ∧ length (bf_params r) = length tps ∧
    ∀ f, has r f ↔ has result f ∨ adds work f.
Proof.
  revert work result. induction fuel as [|fuel IH]; intros [|w work] result Hsize Hlen; simpl in Hsize.
  1, 3: exists result; split_and!; [done..|]; intros f; split; [by left|intros [|(w & Hw & _)]; [done|set_solver]].
  { pose proof (itype_size_pos w). lia. }
  assert (Hgo : ∀ work' result', (sum_list_with itype_size work' ≤ fuel)%nat → length (bf_params result') = length tps →
    (∀ f, has result' f ∨ adds work' f ↔ has result f ∨ adds (w :: work) f) →
    ∃ r, borrow_walk x tps fs fuel work' result' = Ret r ∧ length (bf_params r) = length tps ∧
      ∀ f, has r f ↔ has result f ∨ adds (w :: work) f).
  { intros work' result' H1 H2 H3. destruct (IH work' result' H1 H2) as (r & Hr & Hl & Hf). exists r. split_and!; [done..|].
    intros f. by rewrite Hf, H3. }
  cbn [borrow_walk]. destruct w as [path args|e n|es|ps r b g c]; simpl in Hsize.
  - pose proof (λ f, carries_named path args f) as Hc. destruct (parameter_index path args tps) as [i|] eqn:Hp.
    { pose proof (parameter_index_lt _ _ _ _ Hp) as Hi. unfold set_flag. destruct (Nat.ltb_spec i (length (bf_params result))) as [Hlt|]; [|lia].
      cbn [res_bind]. assert (Hs : set_flag i (bf_params result) = Ret (<[i := true]> (bf_params result)))
        by (unfold set_flag; by destruct (Nat.ltb_spec i (length (bf_params result))); [|lia]).
      apply Hgo; [lia|simpl; by rewrite length_insert|]. intros f. rewrite adds_cons, Hc, (proj2 (has_set_flag result f i _ Hs)). tauto. }
    destruct (builtin_capability_after_local x path) as [[k []]|].
    + apply Hgo; [lia|done|]. intros f. rewrite adds_cons, Hc, has_intrinsic_true. tauto.
    + apply Hgo; [rewrite sum_list_with_app, sum_rev; lia|done|]. intros f. rewrite adds_cons, Hc, adds_rev. unfold adds at 1. tauto.
    + apply Hgo; [lia|done|]. intros f. rewrite adds_cons, Hc. tauto.
    + destruct (local x path) as [i|] eqn:Hl.
      * destruct (lookup_lt_is_Some_2 fs i) as [b Hb]; [by eapply local_ok|]. rewrite Hb. cbn [res_bind unwrap].
        apply Hgo; [pose proof (selected_size (bf_params b) args); rewrite sum_list_with_app, sum_rev; lia|done|].
        intros f. rewrite adds_cons, Hc, adds_rev, has_intrinsic. unfold adds at 1. setoid_rewrite selected_spec.
        assert (∀ g, D i g ↔ has b g) as HD by (intros g; unfold D, flagged; naive_solver).
        setoid_rewrite HD. simpl.
        assert ((∃ w, (∃ j, bf_params b !! j = Some true ∧ args !! j = Some w) ∧ carries x D tps w f) ↔
                ∃ j a, bf_params b !! j = Some true ∧ args !! j = Some a ∧ carries x D tps a f) as ->.
        { split; [intros (w & (j & ? & ?) & ?); by exists j, w|intros (j & w & ? & ? & ?); exists w; split; [by exists j|done]]. }
        tauto.
      * destruct (contains_dot path); (apply Hgo; [lia|done|]); intros f; rewrite adds_cons, Hc; [rewrite has_intrinsic_true|]; naive_solver.
  - apply Hgo; [simpl; lia|done|]. intros f. by rewrite !adds_cons, carries_array.
  - apply Hgo; [rewrite sum_list_with_app, sum_rev; lia|done|]. intros f. by rewrite adds_cons, carries_tuple, adds_rev.
  - apply Hgo; [lia|done|]. intros f. rewrite adds_cons, carries_fn, has_intrinsic_true. tauto.
Qed.

Lemma eval_borrow_spec ty :
  ∃ r, eval_borrow x tps ty fs = Ret r ∧ length (bf_params r) = length tps ∧ ∀ f, has r f ↔ carries x D tps ty f.
Proof.
  destruct (borrow_walk_spec (itype_size ty) [ty] (borrow_empty (length tps))) as (r & Hr & Hl & Hf).
  { simpl. lia. }
  { simpl. by rewrite length_replicate. }
  exists r. split_and!; [done..|]. intros f. rewrite Hf, adds_cons. unfold adds. split; [|by auto].
  intros [Hh|[Hc|(w & Hw & _)]]; [|done|set_solver]. destruct f as [|i]; simpl in Hh; [done|].
  apply lookup_replicate in Hh as [? _]. done.
Qed.
End Walk.

(** ** The solver *)
Lemma or_flags_length l m : length (or_flags l m) = length l.
Proof. revert m. induction l as [|b l IH]; intros [|c m]; simpl; [done..|]. by rewrite IH. Qed.
Lemma or_flags_lookup l m i : length l = length m → or_flags l m !! i = Some true ↔ l !! i = Some true ∨ m !! i = Some true.
Proof.
  revert m i. induction l as [|b l IH]; intros [|c m] i Hl; simpl in *; try done; [by destruct i; naive_solver|].
  destruct i as [|i]; simpl; [destruct b, c; naive_solver|]. apply IH. lia.
Qed.
Lemma has_union b c f : length (bf_params b) = length (bf_params c) → has (borrow_union b c) f ↔ has b f ∨ has c f.
Proof. intros Hl. destruct f; simpl; [by rewrite orb_true_iff|by apply or_flags_lookup]. Qed.

(** The flags that are set. *)
Definition flags_set (b : BorrowFacts) : nat := (Nat.b2n (bf_intrinsic b) + length (filter (λ c, c = true) (bf_params b)))%nat.

Lemma filter_le (l m : list bool) : length l = length m → (∀ i, l !! i = Some true → m !! i = Some true) →
  (length (filter (λ c, c = true) l) ≤ length (filter (λ c, c = true) m))%nat ∧
  (length (filter (λ c, c = true) l) = length (filter (λ c, c = true) m) → l = m).
Proof.
  revert m. induction l as [|b l IH]; intros [|c m] Hl H; simpl in Hl; try done. destruct (IH m) as [Hle Heq]; [lia|intros i; apply (H (S i))|].
  specialize (H 0%nat). rewrite !filter_cons. destruct b, c; simpl in *; try (by specialize (H eq_refl)); split; try lia; intros E; f_equal; apply Heq; lia.
Qed.
Lemma flags_set_le b c : length (bf_params b) = length (bf_params c) → (∀ f, has b f → has c f) →
  (flags_set b ≤ flags_set c)%nat ∧ (b ≠ c → (flags_set b < flags_set c)%nat).
Proof.
  intros Hl H. destruct (filter_le (bf_params b) (bf_params c) Hl (λ i, H (Param i))) as [Hle Heq]. specialize (H Intrinsic). simpl in H.
  unfold flags_set. split; [destruct (bf_intrinsic b); [rewrite H by done|destruct (bf_intrinsic c)]; simpl; lia|].
  intros Hne. destruct b as [bi bp], c as [ci cp]; simpl in *. destruct bi, ci; simpl; try (by specialize (H eq_refl)); try lia.
  - destruct (decide (length (filter (λ c, c = true) bp) = length (filter (λ c, c = true) cp))) as [E|]; [|lia]. apply Heq in E. congruence.
  - destruct (decide (length (filter (λ c, c = true) bp) = length (filter (λ c, c = true) cp))) as [E|]; [|lia]. apply Heq in E. congruence.
Qed.

Lemma union_all_borrow (eval : IType → res BorrowFacts) (C : IType → fact → Prop) n values acc :
  length (bf_params acc) = n →
  (∀ v, v ∈ values → ∃ r, eval v = Ret r ∧ length (bf_params r) = n ∧ ∀ f, has r f ↔ C v f) →
  ∃ r, union_all borrow_union eval values acc = Ret r ∧ length (bf_params r) = n ∧
    ∀ f, has r f ↔ has acc f ∨ ∃ v, v ∈ values ∧ C v f.
Proof.
  revert acc. induction values as [|v values IH]; intros acc Hl Hv; simpl.
  { exists acc. split_and!; [done..|]. intros f. split; [by left|]. intros [|(v & Hv' & _)]; [done|set_solver]. }
  destruct (Hv v) as (r & -> & Hr & Hf); [set_solver|]. cbn [res_bind].
  destruct (IH (borrow_union acc r)) as (r' & Hr' & Hl' & Hf').
  { simpl. by rewrite or_flags_length. }
  { intros w Hw. apply Hv. set_solver. }
  exists r'. split_and!; [done..|]. intros f. rewrite Hf', has_union, Hf by congruence. setoid_rewrite elem_of_cons. naive_solver.
Qed.

Lemma sum_list_with_insert {A} (f : A → nat) l i a b :
  l !! i = Some a → (sum_list_with f (<[i := b]> l) + f a = sum_list_with f l + f b)%nat.
Proof. revert i. induction l as [|y l IH]; intros [|i] H; simplify_eq/=; [lia|]. apply IH in H. lia. Qed.

Section Borrow.
Context (x : LocalDefinitionIndex).
Hypothesis local_ok : ∀ path i, local x path = Some i → (i < length (x_definitions x))%nat.

Definition shaped (fs : list BorrowFacts) : Prop :=
  Forall2 (λ b d, length (bf_params b) = length (ld_type_params d)) fs (x_definitions x).
Definition sound (fs : list BorrowFacts) : Prop := ∀ i f, flagged fs i f → def_carries x i f.

Lemma next_borrow_spec fs i b :
  shaped fs → fs !! i = Some b →
  ∃ n, next_borrow x i fs = Ret n ∧ length (bf_params n) = length (bf_params b) ∧
    ∀ f, has n f ↔ has b f ∨ def_step x (flagged fs) i f.
Proof.
  intros Hsh Hb. destruct (Forall2_lookup_l _ _ _ _ _ Hsh Hb) as (d & Hd & Hlen). unfold next_borrow. rewrite Hd, Hb. cbn [res_bind unwrap].
  assert (Hlocal : ∀ path i, local x path = Some i → (i < length fs)%nat).
  { intros path j Hj. rewrite (Forall2_length _ _ _ Hsh). by eapply local_ok. }
  set (acc := if is_resource d then _ else b).
  destruct (union_all_borrow (λ v, eval_borrow x (ld_type_params d) v fs) (carries x (flagged fs) (ld_type_params d))
    (length (ld_type_params d)) (ld_values d) acc) as (r & Hr & Hl & Hf).
  { subst acc. by destruct (is_resource d). }
  { intros v _. by apply eval_borrow_spec. }
  exists r. split_and!; [done|congruence|]. intros f. rewrite Hf. unfold def_step.
  assert (has acc f ↔ has b f ∨ (is_resource d = true ∧ f = Intrinsic)) as ->.
  { subst acc. destruct (is_resource d); [rewrite has_intrinsic_true|]; naive_solver. }
  split.
  - intros [[|]|]; [by left|right; exists d; auto..].
  - intros [|(d' & Hd' & H)]; [by left; left|]. rewrite Hd in Hd'. simplify_eq. tauto.
Qed.

Lemma borrow_step i fs b : shaped fs ∧ sound fs → fs !! i = Some b →
  ∃ n, next_borrow x i fs = Ret n ∧ (n ≠ b → (shaped (<[i := n]> fs) ∧ sound (<[i := n]> fs)) ∧
    (sum_list_with flags_set fs < sum_list_with flags_set (<[i := n]> fs))%nat).
Proof.
  intros [Hsh Hso] Hb. destruct (next_borrow_spec fs i b Hsh Hb) as (n & Hn & Hl & Hf). exists n. split; [done|]. intros Hne.
  pose proof (lookup_lt_Some _ _ _ Hb) as Hi. split; [split|].
  - destruct (Forall2_lookup_l _ _ _ _ _ Hsh Hb) as (d & Hd & Hlen). unfold shaped.
    rewrite <-(list_insert_id (x_definitions x) i d) by done. apply Forall2_insert; [done|]. congruence.
  - intros j f (c & Hc & Hh). destruct (decide (i = j)) as [ <- |Hij].
    + rewrite list_lookup_insert_eq in Hc by done. simplify_eq. apply Hf in Hh as [Hh|Hs]; [apply Hso; by exists b|].
      apply def_carries_closed. eapply def_step_mono; [|exact Hs]. exact Hso.
    + rewrite list_lookup_insert_ne in Hc by done. apply Hso. by exists c.
  - pose proof (sum_list_with_insert flags_set fs i b n Hb). destruct (flags_set_le b n) as [_ Hlt]; [done|intros f Hh; apply Hf; by left|].
    specialize (Hlt (not_eq_sym Hne)). lia.
Qed.

Lemma shaped_bound fs : shaped fs → (sum_list_with flags_set fs ≤ sum_list_with S (arities x))%nat.
Proof.
  clear local_ok. unfold shaped, arities. induction 1 as [|b d fs ds Hl _ IH]; simpl; [lia|]. unfold flags_set at 1.
  pose proof (length_filter (λ c, c = true) (bf_params b)). destruct (bf_intrinsic b); simpl; lia.
Qed.

(** The solver returns the least facts. *)
Lemma solve_borrow_least :
  ∃ fs, solve_borrow x = Ret fs ∧ shaped fs ∧ ∀ i f, flagged fs i f ↔ def_carries x i f.
Proof.
  destruct (solve_spec (next_borrow x) (λ fs, shaped fs ∧ sound fs) (sum_list_with flags_set) (sum_list_with S (arities x)))
    with (fuel := S (sum_list_with S (arities x))) (fs := map borrow_empty (arities x)) as (fs & Hs & [Hsh Hso] & Hfix).
  { intros i fs b HP Hb. by apply borrow_step. }
  { intros fs [Hsh _]. by apply shaped_bound. }
  { split.
    - unfold shaped, arities. rewrite map_map. apply Forall2_fmap_l, Forall_Forall2_diag, Forall_true. intros d. simpl. by rewrite length_replicate.
    - intros i f (b & Hb & Hh). apply list_lookup_fmap_Some in Hb as (n & -> & _). destruct f as [|j]; simpl in Hh; [done|].
      apply lookup_replicate in Hh as [? _]. done. }
  { lia. }
  exists fs. split_and!; [done..|]. intros i f. split; [apply Hso|]. intros Hd. apply (Hd (flagged fs)). clear i f Hd.
  intros i f Hstep. destruct Hstep as (d & Hd & Hf) eqn:E. clear E.
  destruct (Forall2_lookup_r _ _ _ _ _ Hsh Hd) as (b & Hb & _). exists b. split; [done|].
  destruct (next_borrow_spec fs i b Hsh Hb) as (n & Hn & _ & Hh). rewrite (Hfix i b Hb) in Hn. injection Hn as <-. apply Hh. right. by exists d.
Qed.
End Borrow.

Lemma add_definitions_bound ds defs names defs' names' :
  (∀ k i, names !! k = Some i → (i < length defs)%nat) → add_definitions ds defs names = inl (defs', names') →
  ∀ k i, names' !! k = Some i → (i < length defs')%nat.
Proof.
  revert defs names. induction ds as [|d ds IH]; intros defs names Hb; simpl; [intros [= <- <-]; exact Hb|].
  destruct (names !! ld_name d) eqn:Hd; [done|]. intros H. eapply IH; [|exact H].
  intros k i. rewrite length_app. simpl. destruct (decide (k = ld_name d)) as [ -> |Hk].
  - rewrite lookup_insert_eq. intros [= <-]. lia.
  - rewrite lookup_insert_ne by done. intros Hi%Hb. lia.
Qed.

Lemma index_local_ok s x path i : index_new s = inl x → local x path = Some i → (i < length (x_definitions x))%nat.
Proof.
  unfold index_new. destruct (add_definitions _ _ _) as [[defs names]|] eqn:Ha; [|done].
  destruct (offsets_from 0 defs) as [os total]. intros [= <-]. intros Hl.
  apply (add_definitions_bound _ _ _ _ _ (λ k i, ltac:(rewrite lookup_empty; done)) Ha) with (k := default path (strip_unit
    {| x_unit := s_unit s; x_definitions := defs; x_by_name := names; x_param_offsets := os; x_total_params := total |} path)).
  unfold local in Hl. destruct (strip_unit _ path); [done|]. by destruct (contains_dot path).
Qed.

(** ** The claims *)

(** C8. The borrow analysis computes the least solution: for the definitions of every
    summary that can be indexed, the sweeps end, the facts they leave are exactly those
    derivable from the rules, recursive and mutually recursive definitions included, and
    a type is reported to borrow exactly when the rules derive a borrow or a dependence
    on a parameter for it. *)
Theorem borrow_analysis_least :
  ∀ s x, index_new s = inl x →
  ∃ fs, solve_borrow x = Ret fs ∧ (∀ i f, flagged fs i f ↔ def_carries x i f) ∧
    ∀ a ty tps, an_index a = x → an_borrow a = fs →
      ∃ r, may_borrow a ty tps = Ret r ∧ (r = true ↔ ∃ f, carries x (def_carries x) tps ty f).
Proof.
  intros s x Hx. assert (Hlocal : ∀ path i, local x path = Some i → (i < length (x_definitions x))%nat) by (intros; by eapply index_local_ok).
  destruct (solve_borrow_least x Hlocal) as (fs & Hs & Hsh & Hfs). exists fs. split_and!; [done..|].
  intros a ty tps <- <-. destruct (eval_borrow_spec (an_index a) tps (an_borrow a)) with (ty := ty) as (r & Hr & Hl & Hf).
  { intros path i Hi. rewrite (Forall2_length _ _ _ Hsh). by eapply Hlocal. }
  unfold may_borrow. rewrite Hr. cbn [res_bind]. eexists. split; [reflexivity|].
  rewrite orb_true_iff, existsb_exists. split.
  - intros [Hi|(b & Hb & Hid)]; [exists Intrinsic|].
    + eapply carries_mono; [|apply Hf, Hi]. intros; by apply Hfs.
    + apply list_elem_of_In, list_elem_of_lookup in Hb as (i & Hi). destruct b; [|done]. exists (Param i).
      eapply carries_mono; [|apply Hf, Hi]. intros; by apply Hfs.
  - intros (f & Hc). assert (has r f) as Hh by (apply Hf; eapply carries_mono; [|exact Hc]; intros; by apply Hfs).
    destruct f as [|i]; [by left|right]. exists true. split; [|done]. apply list_elem_of_In, list_elem_of_lookup. by exists i.
Qed.

(** A function that transfers a root, beside a record with one field. *)
Definition transfer_fn : IFnSig :=
  {| f_name := str "f"; f_type_params := []; f_params := [MkIParam Borrow i32_ty]; f_ret := i32_ty; f_return_borrow := RB_None;
     f_return_region := RR_None; f_return_cleanup := RC_None; f_drop_state_effects := [DS_NotApplicable];
     f_producer_certification := ValidatedBody; f_effect := Pure; f_parallel_transfer_params := [0]; f_mutable_access := None;
     f_callback_contract := None; f_mutable_retention := None; f_mutable_view_effect := None; f_resource_hook_body := false;
     f_body := FB_Absent |}.
Definition record_parts (field : IType) : Surface :=
  (str "m", [transfer_fn],
   [{| is_name := str "S"; is_type_params := []; is_fields := [(str "x", field)]; is_align := None; is_c_repr := false;
       is_generic_body := None |}], [], [], [], []).
Definition record_hash (field : IType) : Hash128 :=
  match (let* surface := write_surface (with_surface (record_parts field) [] no_hash no_hash) in hash128_of surface) with
  | Ret h => h | _ => no_hash end.
Definition record_summary (field : IType) : InterfaceSummary :=
  with_surface (record_parts field) [] (record_hash field) no_hash.

Lemma borrow_analysis_least_witness :
  ∃ x fs, index_new (record_summary (IT_Named (str "S") [])) = inl x ∧ solve_borrow x = Ret fs.
Proof.
  destruct (index_new (record_summary (IT_Named (str "S") []))) as [x|] eqn:Hx; [|vm_compute in Hx; discriminate Hx].
  destruct (borrow_analysis_least _ x Hx) as (fs & Hs & _). by exists x, fs.
Defined.

(** [deserialize_impl] with the transfer gate of the code. *)
Definition with_transfer_gate (g : Gates) : Gates :=
  {| transfer_roots_capable := decoded_parallel_transfer_roots_are_borrow_capable; validate_entries := validate_entries g;
     validate_view_effects := validate_view_effects g; drop_state_mismatch := drop_state_mismatch g |}.

(** A record whose own field applies it to an argument it does not take. *)
Definition over_applied : InterfaceSummary := record_summary (IT_Named (str "S") [i32_ty]).

#[local] Opaque typev MAX_TYPE_DEPTH.
Lemma transfer_fn_valid : fnv transfer_fn.
Proof.
  constructor; try (lazymatch goal with |- _ = _ => vm_compute; reflexivity end);
    cbn [transfer_fn f_name f_type_params f_params f_ret f_return_borrow f_return_region f_drop_state_effects
         f_parallel_transfer_params f_mutable_access f_callback_contract f_mutable_retention f_mutable_view_effect
         f_body borrowv regionv bodyv]; valid_sample; cbn [ip_ty]; valid_types.
Qed.

#[local] Transparent typev MAX_TYPE_DEPTH.
Lemma applied_valid n : typev (S (S n)) (IT_Named (str "S") [i32_ty]).
Proof.
  change (strv (str "S") ∧ seqv (typev (S n)) [i32_ty]). split; [valid_sample|]. split; [vm_compute; congruence|].
  constructor; [apply i32_valid|constructor].
Qed.
Lemma applied_itype : itypev (IT_Named (str "S") [i32_ty]).
Proof. exact (applied_valid 126). Qed.
#[local] Opaque typev MAX_TYPE_DEPTH.

Lemma over_applied_valid : summaryv over_applied.
Proof.
  pose proof applied_itype as Hty.
  unfold over_applied, record_summary. apply with_surface_valid. unfold surfacev, record_parts, structv, fieldv; simpl.
  valid_sample; simpl; valid_sample; try exact Hty; try exact transfer_fn_valid;
    lazymatch goal with |- hashv _ => repeat split; vm_compute; congruence end.
Qed.

(** Decoding can panic: the gate on transfer roots runs the capability analysis before
    any check of type arity, and the analysis indexes the growth flags of a definition by
    the position of an argument the definition does not take.  An artifact that passes
    every structural check and carries the hash of its own surface makes
    [deserialize_impl] panic, whatever the later gates are. *)
Lemma deserialize_can_panic :
  ∃ s b, summaryv s ∧ fingerprinted s ∧ serialize s = Ret b ∧ Forall is_byte b ∧
    ∀ g, deserialize_impl (with_transfer_gate g) b = Panic.
Proof.
  destruct (serialize over_applied) as [b| |] eqn:Hb; [|vm_compute in Hb; discriminate Hb..].
  exists over_applied, b. split; [exact over_applied_valid|]. split; [vm_compute; reflexivity|]. split; [done|]. split.
  { vm_compute in Hb. injection Hb as <-. apply (bool_decide_unpack _). vm_compute. exact I. }
  intros g. destruct (serialize_surface over_applied b Hb) as (surface & tail & -> & Hw).
  destruct (wh_complete _ _ summary_whole (over_applied, length surface) [] (surface ++ tail)) as (r & Hr).
  { exists surface, tail. split_and!; [done|done|exact over_applied_valid|done|done]. }
  unfold deserialize_impl. change {| r_buf := surface ++ tail; r_pos := 0 |} with (cursor [] (surface ++ tail)).
  rewrite Hr. cbn [res_bind]. assert (Hg : decoded_parallel_transfer_roots_are_borrow_capable over_applied = Panic) by (vm_compute; reflexivity).
  cbn [transfer_roots_capable with_transfer_gate]. by rewrite Hg.
Qed.
