(* ===== verification/TimeFormats.v ===== *)
(** * Calendar and wire timestamps ([crates/align_runtime/src/time_formats.rs])

    The UTC calendar of the runtime: day numbers to civil dates and back, the five
    named timestamp formats printed into a 32-byte buffer and parsed from at most
    35 bytes, and the two entry points compiled programs call, with the memory
    they read and write.  Every number stands for its [i64], [u32] or [i128]: where
    the source checks an operation the model does, and where it does not, the
    operands are bounded (days by a 64-bit count of nanoseconds, parsed fields by
    four digits).  Rust's [/] and [%] truncate ([Z.quot], [Z.rem]); [div_euclid]
    and [rem_euclid] by a positive number are [Z.div] and [Z.modulo]. *)
From Stdlib Require Import ZArith Lia String.
From S2P Require Import Prelude.
Local Open Scope Z_scope.

Definition I64_MIN : Z := - 2 ^ 63.
Definition I64_MAX : Z := 2 ^ 63 - 1.
(** [i64::try_from], and the result of a checked [i64] operation. *)
Definition to_i64 (v : Z) : option Z := if (I64_MIN <=? v) && (v <=? I64_MAX) then Some v else None.
(** [usize::try_from] on a 64-bit target. *)
Definition to_usize (v : Z) : option nat := if 0 <=? v then Some (Z.to_nat v) else None.

Definition SECOND : Z := 1000000000.
Definition DAY : Z := 86400 * SECOND.
Definition MONTHS : list bytes :=
  map str ["Jan"; "Feb"; "Mar"; "Apr"; "May"; "Jun"; "Jul"; "Aug"; "Sep"; "Oct"; "Nov"; "Dec"]%string.
Definition WEEKDAYS : list bytes := map str ["Sun"; "Mon"; "Tue"; "Wed"; "Thu"; "Fri"; "Sat"]%string.

Fixpoint name_index (name : bytes) (i : nat) (names : list bytes) : option nat :=
  match names with
  | [] => None
  | n :: names => if decide (name = n) then Some i else name_index name (S i) names
  end.
Definition weekday_index (name : bytes) : option nat :=
  name_index name 0 (map str ["Sun"; "Mon"; "Tue"; "Wed"; "Thu"; "Fri"; "Sat"]%string).
Definition month_index (name : bytes) : option nat :=
  name_index name 0 (map str ["Jan"; "Feb"; "Mar"; "Apr"; "May"; "Jun"; "Jul"; "Aug"; "Sep"; "Oct"; "Nov"; "Dec"]%string).

Definition resolution (kind : Z) : option Z :=
  match kind with
  | 0 => Some 1
  | 1 => Some 1000000
  | 2 | 3 => Some SECOND
  | 4 => Some DAY
  | _ => None
  end.

(** ** The calendar *)
Definition is_leap (year : Z) : bool :=
  (Z.rem year 4 =? 0) && (negb (Z.rem year 100 =? 0) || (Z.rem year 400 =? 0)).
Definition month_days (year month : Z) : option Z :=
  match month with
  | 1 | 3 | 5 | 7 | 8 | 10 | 12 => Some 31
  | 4 | 6 | 9 | 11 => Some 30
  | 2 => Some (if is_leap year then 29 else 28)
  | _ => None
  end.

Definition civil_days (year month day : Z) : option Z :=
  last ← month_days year month;
  if negb ((1 <=? day) && (day <=? last)) then None
  else
    let adjusted_year := year - (if month <=? 2 then 1 else 0) in
    let era := adjusted_year / 400 in
    let year_in_era := adjusted_year mod 400 in
    let march_month := if 2 <? month then month - 3 else month + 9 in
    let day_in_year := Z.quot (153 * march_month + 2) 5 + day - 1 in
    let day_in_era := year_in_era * 365 + Z.quot year_in_era 4 - Z.quot year_in_era 100 + day_in_year in
    Some (era * 146097 + day_in_era - 719468).

Definition civil_date (days : Z) : option (Z * Z * Z) :=
  shifted ← to_i64 (days + 719468);
  let era := shifted / 146097 in
  let within := shifted mod 146097 in
  let year_in_era := Z.quot (within - Z.quot within 1460 + Z.quot within 36524 - Z.quot within 146096) 365 in
  let march_day := within - (365 * year_in_era + Z.quot year_in_era 4 - Z.quot year_in_era 100) in
  let march_month := Z.quot (5 * march_day + 2) 153 in
  let day := march_day - Z.quot (153 * march_month + 2) 5 + 1 in
  let month := if march_month <? 10 then march_month + 3 else march_month - 9 in
  scaled ← to_i64 (era * 400);
  year ← to_i64 (scaled + year_in_era);
  year ← to_i64 (year + (if month <=? 2 then 1 else 0));
  Some (year, month, day).

(** ** The output buffer *)
Record Text := { t_bytes : bytes; t_len : nat }.
Definition no_text : Text := {| t_bytes := replicate 32 0; t_len := 0 |}.

(** [self.bytes.get_mut(self.len..end)?.copy_from_slice(value); self.len = end] *)
Definition text_push (value : bytes) (t : Text) : option Text :=
  let end_ := (t_len t + length value)%nat in
  if ((t_len t <=? end_) && (end_ <=? length (t_bytes t)))%nat
  then Some {| t_bytes := take (t_len t) (t_bytes t) ++ value ++ drop end_ (t_bytes t); t_len := end_ |}
  else None.

(** The loop over the reversed bytes: the digits of [value], the last one first, and what is left of it. *)
Fixpoint render (width : nat) (value : Z) (acc : bytes) : bytes * Z :=
  match width with
  | O => (acc, value)
  | S width => render width (value / 10) (48 + value mod 10 :: acc)
  end.
Definition text_digits (width : nat) (value : Z) (t : Text) : option Text :=
  if negb ((0 <=? value) && (value <=? U32_MAX)) then None
  else
    let end_ := (t_len t + width)%nat in
    if negb (end_ <=? length (t_bytes t))%nat then None
    else
      let '(digits, rest) := render width value [] in
      if rest =? 0
      then Some {| t_bytes := take (t_len t) (t_bytes t) ++ digits ++ drop end_ (t_bytes t); t_len := end_ |}
      else None.

(** [while out.len > start && out.bytes.get(out.len - 1) == Some(&b'0') { out.len -= 1 }], with [n] = [out.len - start] *)
Fixpoint trim_zeros (start n : nat) (t : Text) : Text :=
  match n with
  | O => t
  | S n =>
      if decide (t_bytes t !! (t_len t - 1)%nat = Some 48)
      then trim_zeros start n {| t_bytes := t_bytes t; t_len := (t_len t - 1)%nat |}
      else t
  end.

(** ** Printing *)
(** The time of day: hour, minute, second, nanoseconds. *)
Definition clock (within : Z) : Z * Z * Z * Z :=
  (Z.quot within (3600 * SECOND), Z.rem (Z.quot within (60 * SECOND)) 60, Z.rem (Z.quot within SECOND) 60, Z.rem within SECOND).

(** The [match kind] that prints the fields. *)
Definition print_fields (kind year month day days hour minute second fraction : Z) : option Text :=
  let out := no_text in
  match kind with
  | 0 | 1 =>
      out ← text_digits 4 year out;
      out ← text_push (str "-") out;
      out ← text_digits 2 month out;
      out ← text_push (str "-") out;
      out ← text_digits 2 day out;
      out ← text_push (str "T") out;
      out ← text_digits 2 hour out;
      out ← text_push (str ":") out;
      out ← text_digits 2 minute out;
      out ← text_push (str ":") out;
      out ← text_digits 2 second out;
      out ← (if kind =? 1 then
               out ← text_push (str ".") out;
               text_digits 3 (Z.quot fraction 1000000) out
             else if negb (fraction =? 0) then
               let start := t_len out in
               out ← text_push (str ".") out;
               out ← text_digits 9 fraction out;
               Some (trim_zeros start (t_len out - start) out)
             else Some out);
      text_push (str "Z") out
  | 2 =>
      i ← to_usize ((days + 4) mod 7);
      weekday ← WEEKDAYS !! i;
      j ← to_usize (month - 1);
      month_name ← MONTHS !! j;
      out ← text_push weekday out;
      out ← text_push (str ", ") out;
      out ← text_digits 2 day out;
      out ← text_push (str " ") out;
      out ← text_push month_name out;
      out ← text_push (str " ") out;
      out ← text_digits 4 year out;
      out ← text_push (str " ") out;
      out ← text_digits 2 hour out;
      out ← text_push (str ":") out;
      out ← text_digits 2 minute out;
      out ← text_push (str ":") out;
      out ← text_digits 2 second out;
      text_push (str " GMT") out
  | 3 | 4 =>
      out ← text_digits 4 year out;
      out ← text_digits 2 month out;
      out ← text_digits 2 day out;
      if kind =? 3 then
        out ← text_push (str "T") out;
        out ← text_digits 2 hour out;
        out ← text_digits 2 minute out;
        out ← text_digits 2 second out;
        text_push (str "Z") out
      else Some out
  | _ => None
  end.

Definition format (ns kind : Z) : option Text :=
  precision ← resolution kind;
  let rounded := ns / precision * precision in
  _ ← to_i64 rounded;
  days ← to_i64 (rounded / DAY);
  '(year, month, day) ← civil_date days;
  let '(hour, minute, second, fraction) := clock (rounded mod DAY) in
  print_fields kind year month day days hour minute second fraction.

(** ** Parsing *)
Record TimeParser := { p_bytes : bytes; p_pos : nat }.
Definition p_at (n : nat) (p : TimeParser) : TimeParser := {| p_bytes := p_bytes p; p_pos := n |}.

Definition is_ascii_digit (b : Z) : bool := (48 <=? b) && (b <=? 57).
Fixpoint digits_value (value : Z) (l : bytes) : option Z :=
  match l with
  | [] => Some value
  | b :: l => if is_ascii_digit b then digits_value (value * 10 + (b - 48)) l else None
  end.
Definition p_digits (width : nat) (p : TimeParser) : option (Z * TimeParser) :=
  let end_ := (p_pos p + width)%nat in
  l ← slice_get (p_pos p) end_ (p_bytes p);
  value ← digits_value 0 l;
  Some (value, p_at end_ p).
Definition p_literal (expected : bytes) (p : TimeParser) : option TimeParser :=
  let end_ := (p_pos p + length expected)%nat in
  l ← slice_get (p_pos p) end_ (p_bytes p);
  if decide (l = expected) then Some (p_at end_ p) else None.
Definition p_peek (p : TimeParser) : option Z := p_bytes p !! p_pos p.
Definition p_literal_if (b : bool) (expected : bytes) (p : TimeParser) : option TimeParser :=
  if b then p_literal expected p else Some p.

(** The fraction loop with [9 - budget] digits read; it returns the fraction and the budget left. *)
Fixpoint fraction_loop (budget : nat) (fraction : Z) (p : TimeParser) : option (Z * nat * TimeParser) :=
  match p_peek p with
  | Some b =>
      if is_ascii_digit b then
        match budget with
        | O => None
        | S budget =>
            '(d, p) ← p_digits 1 p;
            fraction_loop budget (fraction * 10 + d) p
        end
      else Some (fraction, budget, p)
  | None => Some (fraction, budget, p)
  end.

(** The fraction of a second in nanoseconds, and the number of its digits. *)
Definition parse_fraction (p : TimeParser) : option (Z * nat * TimeParser) :=
  if decide (p_peek p = Some ("."%u8)) then
    p ← p_literal (str ".") p;
    '(fraction, budget, p) ← fraction_loop 9 0 p;
    if (budget =? 9)%nat then None
    else Some (Nat.iter budget (Z.mul 10) fraction, (9 - budget)%nat, p)
  else Some (0, O, p).

(** The zone designator, as what it subtracts from the value. *)
Definition parse_offset (p : TimeParser) : option (Z * TimeParser) :=
  sign ← p_peek p;
  if (sign =? "Z"%u8) || (sign =? "z"%u8) then Some (0, p_at (p_pos p + 1) p)
  else if (sign =? "+"%u8) || (sign =? "-"%u8) then
    let p := p_at (p_pos p + 1) p in
    '(hour, p) ← p_digits 2 p;
    p ← p_literal (str ":") p;
    '(minute, p) ← p_digits 2 p;
    if (23 <? hour) || (59 <? minute) || ((sign =? "-"%u8) && (hour =? 0) && (minute =? 0)) then None
    else
      let offset := (hour * 3600 + minute * 60) * SECOND in
      Some (if sign =? "+"%u8 then offset else - offset, p)
  else None.

(** The date of an RFC 1123 timestamp, with the weekday it names. *)
Definition parse_named_date (p : TimeParser) : option (Z * Z * Z * option nat * TimeParser) :=
  name ← slice_get 0 3 (p_bytes p);
  weekday ← weekday_index name;
  p ← p_literal (str ", ") (p_at 3 p);
  '(day, p) ← p_digits 2 p;
  p ← p_literal (str " ") p;
  name ← slice_get (p_pos p) (p_pos p + 3) (p_bytes p);
  month ← month_index name;
  p ← p_literal (str " ") (p_at (p_pos p + 3) p);
  '(year, p) ← p_digits 4 p;
  p ← p_literal (str " ") p;
  Some (year, Z.of_nat month + 1, day, Some weekday, p).
Definition parse_numeric_date (kind : Z) (p : TimeParser) : option (Z * Z * Z * option nat * TimeParser) :=
  '(year, p) ← p_digits 4 p;
  p ← p_literal_if (kind <? 2) (str "-") p;
  '(month, p) ← p_digits 2 p;
  p ← p_literal_if (kind <? 2) (str "-") p;
  '(day, p) ← p_digits 2 p;
  p ← (if negb (kind =? 4) then
         if (kind <? 2) && bool_decide (p_peek p = Some ("t"%u8)) then p_literal (str "t") p else p_literal (str "T") p
       else Some p);
  Some (year, month, day, None, p).

(** The time of day and what follows it, as nanoseconds. *)
Definition parse_time (kind : Z) (p : TimeParser) : option (Z * TimeParser) :=
  '(hour, p) ← p_digits 2 p;
  p ← p_literal_if (kind <? 3) (str ":") p;
  '(minute, p) ← p_digits 2 p;
  p ← p_literal_if (kind <? 3) (str ":") p;
  '(second, p) ← p_digits 2 p;
  if (23 <? hour) || (59 <? minute) || (59 <? second) then None
  else
    let value := (hour * 3600 + minute * 60 + second) * SECOND in
    if kind <? 2 then
      '(fraction, digits, p) ← parse_fraction p;
      if (kind =? 1) && negb (digits =? 3)%nat then None
      else
        '(offset, p) ← parse_offset p;
        Some (value + fraction - offset, p)
    else if kind =? 2 then p ← p_literal (str " GMT") p; Some (value, p)
    else p ← p_literal (str "Z") p; Some (value, p).

Definition parse (input : bytes) (kind : Z) : option Z :=
  _ ← resolution kind;
  if (35 <? length input)%nat || negb (forallb (λ b, b <? 128) input) then None
  else
    let p := {| p_bytes := input; p_pos := 0 |} in
    '(year, month, day, weekday, p) ← (if kind =? 2 then parse_named_date p else parse_numeric_date kind p);
    days ← civil_days year month day;
    if match weekday with Some w => negb (Z.of_nat w =? (days + 4) mod 7) | None => false end then None
    else
      '(time, p) ← (if negb (kind =? 4) then parse_time kind p else Some (0, p));
      if negb (p_pos p =? length input)%nat then None
      else to_i64 (days * DAY + time).

(** ** The entry points

    Memory is the byte at every address; null is the address 0. *)
Definition Memory : Type := Z → Z.
Definition store (addr : Z) (bs : bytes) (m : Memory) : Memory :=
  λ a, if addr <=? a then default (m a) (bs !! Z.to_nat (a - addr)) else m a.
Definition load (addr : Z) (n : nat) (m : Memory) : bytes := map (λ i, m (addr + Z.of_nat i)) (seq 0 n).
(** A 64-bit word, little-endian; an [i64] is stored in two's complement. *)
Definition word_bytes (v : Z) : bytes := map (λ i, v / 256 ^ Z.of_nat i mod 256) (seq 0 8).
Definition load_u64 (addr : Z) (m : Memory) : Z := foldr (λ b acc, b + 256 * acc) 0 (load addr 8 m).
Definition load_i64 (addr : Z) (m : Memory) : Z :=
  let v := load_u64 addr m in if v <? 2 ^ 63 then v else v - 2 ^ 64.

Definition USIZE_MAX : Z := 2 ^ 64 - 1.
Definition AL_INVALID : Z := 2.

(** [output_range] of a type of the given size, 8-byte aligned. *)
Definition output_range (size out : Z) : option (Z * Z) :=
  if (out =? 0) || negb (out mod 8 =? 0) then None
  else if out + size <=? USIZE_MAX then Some (out, out + size) else None.

(** An [AlignStr] is a pointer and an [i64] length. *)
Definition str_bytes (ptr len : Z) : bytes := word_bytes ptr ++ word_bytes len.

(** [align_rt_alloc] over C's [malloc], which aborts when there is no memory. *)
Definition align_rt_alloc (malloc : Z → Z) (size : Z) : res Z :=
  if size <=? 0 then Ret 0
  else if I64_MAX <? size then Panic
  else let ptr := malloc size in if ptr =? 0 then Panic else Ret ptr.
(** [owned_str_exact], given the bytes its callback writes. *)
Definition owned_str_exact (malloc : Z → Z) (content : bytes) (m : Memory) : res (Z * Z * Memory) :=
  let len := Z.of_nat (length content) in
  if len =? 0 then Ret (0, 0, m)
  else if I64_MAX <? len then Panic
  else let* dst := align_rt_alloc malloc len in Ret (dst, len, store dst content m).

Definition align_rt_time_format (malloc : Z → Z) (out ns kind : Z) (m : Memory) : res (Z * Memory) :=
  match output_range 16 out with
  | None => Ret (AL_INVALID, m)
  | Some _ =>
      let m := store out (str_bytes 0 0) m in
      match format ns kind with
      | None => Ret (AL_INVALID, m)
      | Some text =>
          let* '(ptr, len, m) := owned_str_exact malloc (take (t_len text) (t_bytes text)) m in
          Ret (0, store out (str_bytes ptr len) m)
      end
  end.

Definition align_rt_time_parse (out input len kind : Z) (m : Memory) : Z * Memory :=
  match output_range 8 out with
  | None => (AL_INVALID, m)
  | Some (out_start, out_end) =>
      let m := store out (word_bytes 0) m in
      match resolution kind with
      | None => (AL_INVALID, m)
      | Some _ =>
          match to_usize len with
          | None => (AL_INVALID, m)
          | Some n =>
              if (n =? 0)%nat || (35 <? n)%nat || (input =? 0) then (AL_INVALID, m)
              else
                let end_ := input + len in
                if negb (end_ <=? USIZE_MAX) then (AL_INVALID, m)
                else if (input <? out_end) && (out_start <? end_) then (AL_INVALID, m)
                else
                  match parse (load input n m) kind with
                  | None => (AL_INVALID, m)
                  | Some value => (0, store out (word_bytes (value mod 2 ^ 64)) m)
                  end
          end
      end
  end.

Example format_vectors :
  map (λ '(ns, kind), (λ t, take (t_len t) (t_bytes t)) <$> format ns kind)
    [(0, 0); (-1, 0); (951782400123456789, 0); (I64_MIN, 0); (951782400123456789, 1); (951782400123456789, 2);
     (951782400123456789, 3); (951782400123456789, 4); (I64_MIN, 1)] =
  [Some (str "1970-01-01T00:00:00Z"); Some (str "1969-12-31T23:59:59.999999999Z"); Some (str "2000-02-29T00:00:00.123456789Z");
   Some (str "1677-09-21T00:12:43.145224192Z"); Some (str "2000-02-29T00:00:00.123Z"); Some (str "Tue, 29 Feb 2000 00:00:00 GMT");
   Some (str "20000229T000000Z"); Some (str "20000229"); None].
Proof. vm_compute. reflexivity. Qed.

Example parse_vectors :
  map (λ '(s, kind), parse (str s) kind)
    [("1970-01-01t01:00:00+01:00", 0); ("1970-01-01T00:00:00.000z", 1); ("Thu, 01 Jan 1970 00:00:00 GMT", 2);
     ("1677-09-21T01:12:43.145224192+01:00", 0); ("1900-02-29T00:00:00Z", 0); ("1970-01-01T00:00:00-00:00", 0);
     ("1970-01-01T00:00:00.0000000000Z", 0); ("2262-04-11T23:47:16.854775808Z", 0); ("Fri, 01 Jan 1970 00:00:00 GMT", 2)]%string =
  [Some 0; Some 0; Some 0; Some I64_MIN; None; None; None; None; None].
Proof. vm_compute. reflexivity. Qed.
