(* ===== verification/CalendarSpec.v ===== *)
(** * The calendar is the Gregorian one

    [civil_date] and [civil_days] against the calendar as it is defined: the months
    and leap years of [month_days], the successor of a date, and the day 0 on which
    the epoch falls. *)
From Stdlib Require Import ZArith Lia String.
From S2P Require Import Prelude TimeFormats.
Local Open Scope Z_scope.

(** ** Dates *)
Definition valid_date (year month day : Z) : Prop := ∃ last, month_days year month = Some last ∧ 1 ≤ day ≤ last.
(** The day after. *)
Definition next_day (date : Z * Z * Z) : Z * Z * Z :=
  let '(year, month, day) := date in
  if decide (month_days year month = Some day)
  then if month =? 12 then (year + 1, 1, 1) else (year, month + 1, 1)
  else (year, month, day + 1).

(** ** Years that begin in March *)
(** The days before the March of year [a], from the March of year 0. *)
Definition year_start (a : Z) : Z := 365 * a + a / 4 - a / 100 + a / 400.
Definition month_start (mm : Z) : Z := (153 * mm + 2) / 5.
Definition march_year (year month : Z) : Z := year - (if month <=? 2 then 1 else 0).
Definition march_month (month : Z) : Z := if 2 <? month then month - 3 else month + 9.

Lemma rem_zero y k : 0 < k → (Z.rem y k =? 0) = (y mod k =? 0).
Proof.
  intros Hk. destruct (Z.eqb_spec (y mod k) 0) as [H|H].
  - apply Z.eqb_eq, Z.rem_divide; [lia|]. by apply Z.mod_divide; [lia|].
  - apply Z.eqb_neq. intros H'. apply H, Z.mod_divide; [lia|]. by apply Z.rem_divide in H'; [|lia].
Qed.

Lemma div_succ a k : 0 < k → (a + 1) / k = a / k + (if (a + 1) mod k =? 0 then 1 else 0).
Proof.
  intros Hk. pose proof (Z.div_mod a k ltac:(lia)). pose proof (Z.div_mod (a + 1) k ltac:(lia)).
  pose proof (Z.mod_pos_bound a k Hk). pose proof (Z.mod_pos_bound (a + 1) k Hk). case_if; b2p; nia.
Qed.

Lemma mod_mul_zero a k j : 0 < k → 0 < j → a mod (k * j) = 0 → a mod k = 0.
Proof.
  intros Hk Hj H. apply Z.mod_divide in H; [|lia]. apply Z.mod_divide; [lia|].
  destruct H as [q Hq]. exists (q * j). lia.
Qed.

Lemma year_length a : year_start (a + 1) - year_start a = if is_leap (a + 1) then 366 else 365.
Proof.
  unfold year_start, is_leap. rewrite !rem_zero, !div_succ by lia.
  pose proof (mod_mul_zero (a + 1) 4 25 ltac:(lia) ltac:(lia)) as H1. pose proof (mod_mul_zero (a + 1) 100 4 ltac:(lia) ltac:(lia)) as H2.
  change (4 * 25) with 100 in H1. change (100 * 4) with 400 in H2.
  destruct (Z.eqb_spec ((a + 1) mod 4) 0), (Z.eqb_spec ((a + 1) mod 100) 0), (Z.eqb_spec ((a + 1) mod 400) 0); simpl; intuition lia.
Qed.

Lemma year_start_era e y : 0 ≤ y < 400 → year_start (400 * e + y) = e * 146097 + 365 * y + y / 4 - y / 100.
Proof.
  intros Hy. unfold year_start.
  replace ((400 * e + y) / 4) with (100 * e + y / 4) by (rewrite <-Z.div_add_l by lia; f_equal; lia).
  replace ((400 * e + y) / 100) with (4 * e + y / 100) by (rewrite <-Z.div_add_l by lia; f_equal; lia).
  replace ((400 * e + y) / 400) with (e + y / 400) by (rewrite <-Z.div_add_l by lia; f_equal; lia).
  rewrite (Z.div_small y 400) by lia. lia.
Qed.

Lemma year_start_mono a b : a ≤ b → year_start a ≤ year_start b.
Proof.
  intros H. replace b with (a + Z.of_nat (Z.to_nat (b - a))) by lia. generalize (Z.to_nat (b - a)). intros n.
  induction n as [|n IH]; [by rewrite Z.add_0_r|].
  pose proof (year_length (a + Z.of_nat n)). rewrite Nat2Z.inj_succ, Z.add_succ_r. unfold Z.succ. destruct (is_leap _); lia.
Qed.

(** ** The year of a day of the era *)
Definition year_guess (within : Z) : Z := within - within / 1460 + within / 36524 - within / 146096.

Lemma year_guess_mono a b : 0 ≤ a ≤ b → year_guess a ≤ year_guess b.
Proof.
  intros H. replace b with (a + Z.of_nat (Z.to_nat (b - a))) by lia. generalize (Z.to_nat (b - a)). intros n.
  induction n as [|n IH]; [by rewrite Z.add_0_r|]. rewrite Nat2Z.inj_succ, Z.add_succ_r. unfold Z.succ.
  etransitivity; [exact IH|]. clear IH. generalize (a + Z.of_nat n). intros w. unfold year_guess. rewrite !div_succ by lia.
  pose proof (mod_mul_zero (w + 1) 36524 4 ltac:(lia) ltac:(lia)) as H1. change (36524 * 4) with 146096 in H1.
  destruct (Z.eqb_spec ((w + 1) mod 1460) 0), (Z.eqb_spec ((w + 1) mod 36524) 0), (Z.eqb_spec ((w + 1) mod 146096) 0); intuition lia.
Qed.

(** The first and the last day of each year of the era. *)
Lemma year_guess_ends y : 0 ≤ y < 400 →
  365 * y ≤ year_guess (year_start y) ∧ year_guess (year_start (y + 1) - 1) < 365 * (y + 1).
Proof.
  intros Hy. assert (forallb (λ n, let y := Z.of_nat n in
    (365 * y <=? year_guess (year_start y)) && (year_guess (year_start (y + 1) - 1) <? 365 * (y + 1))) (seq 0 400) = true) as Hall
    by (vm_compute; reflexivity).
  rewrite forallb_forall in Hall. specialize (Hall (Z.to_nat y)). rewrite in_seq in Hall. cbv beta zeta in Hall.
  specialize (Hall ltac:(split; [apply Nat.le_0_l|clear Hall; simpl; lia])).
  rewrite Z2Nat.id in Hall by lia. b2p. lia.
Qed.

Lemma year_of_day y w : 0 ≤ y < 400 → year_start y ≤ w < year_start (y + 1) → year_guess w / 365 = y.
Proof.
  intros Hy Hw. pose proof (year_guess_ends y Hy) as [H1 H2].
  assert (0 ≤ year_start y) by (pose proof (year_start_mono 0 y ltac:(lia)); change (year_start 0) with 0 in *; lia).
  pose proof (year_guess_mono (year_start y) w ltac:(lia)). pose proof (year_guess_mono w (year_start (y + 1) - 1) ltac:(lia)).
  symmetry. apply (Z.div_unique _ _ _ (year_guess w - 365 * y)); lia.
Qed.

(** Every day is in one year. *)
Lemma year_exists s : ∃ a, year_start a ≤ s < year_start (a + 1).
Proof.
  assert (Hup : ∀ n a, year_start a ≤ s → s < year_start (a + Z.of_nat n) → ∃ a, year_start a ≤ s < year_start (a + 1)).
  { induction n as [|n IH]; intros a H1 H2; [rewrite Z.add_0_r in H2; lia|].
    destruct (Z_lt_le_dec s (year_start (a + 1))); [by exists a|]. apply (IH (a + 1)); [done|].
    by replace (a + 1 + Z.of_nat n) with (a + Z.of_nat (S n)) by lia. }
  assert (Hlow : year_start (- Z.abs s) ≤ s).
  { unfold year_start. pose proof (Z.div_mod (- Z.abs s) 4 ltac:(lia)). pose proof (Z.mod_pos_bound (- Z.abs s) 4 ltac:(lia)).
    pose proof (Z.div_mod (- Z.abs s) 100 ltac:(lia)). pose proof (Z.mod_pos_bound (- Z.abs s) 100 ltac:(lia)).
    pose proof (Z.div_mod (- Z.abs s) 400 ltac:(lia)). pose proof (Z.mod_pos_bound (- Z.abs s) 400 ltac:(lia)). lia. }
  apply (Hup (Z.to_nat (2 * Z.abs s + 1)) (- Z.abs s)); [done|].
  replace (- Z.abs s + Z.of_nat _) with (Z.abs s + 1) by lia.
  unfold year_start. set (a := Z.abs s + 1). pose proof (Z.div_mod a 4 ltac:(lia)). pose proof (Z.mod_pos_bound a 4 ltac:(lia)).
  pose proof (Z.div_mod a 100 ltac:(lia)). pose proof (Z.mod_pos_bound a 100 ltac:(lia)).
  pose proof (Z.div_mod a 400 ltac:(lia)). pose proof (Z.mod_pos_bound a 400 ltac:(lia)). unfold a in *. lia.
Qed.

(** ** The two functions in terms of years and months *)
Definition day_number (year month day : Z) : Z :=
  year_start (march_year year month) + month_start (march_month month) + day - 1 - 719468.

Lemma month_days_range y m last : month_days y m = Some last → 1 ≤ m ≤ 12 ∧ 28 ≤ last ≤ 31.
Proof.
  intros H. assert (1 ≤ m ≤ 12) as Hm.
  { destruct m as [|m|m]; simpl in H; try done. do 4 (destruct m as [m|m|]; simpl in H; try done; try lia). }
  split; [done|]. assert (m ∈ [1; 2; 3; 4; 5; 6; 7; 8; 9; 10; 11; 12]) as Hin by (rewrite list_elem_of_In; simpl; lia).
  rewrite !elem_of_cons, elem_of_nil in Hin.
  repeat destruct Hin as [ -> |Hin]; try done; simpl in H; try destruct (is_leap y); injection H as <-; lia.
Qed.

Lemma civil_days_spec y m d n : civil_days y m d = Some n ↔ valid_date y m d ∧ n = day_number y m d.
Proof.
  unfold civil_days, valid_date. destruct (month_days y m) as [last|] eqn:Hl; simpl; [|split; [done|intros [(? & ? & _) _]; done]].
  pose proof (month_days_range _ _ _ Hl) as [Hm Hlast].
  destruct ((1 <=? d) && (d <=? last)) eqn:Hd; simpl.
  2: { split; [done|]. intros [(l & [= <-] & Hr) _]. apply andb_false_iff in Hd as [Hd|Hd]; b2p; lia. }
  b2p. set (a := y - (if m <=? 2 then 1 else 0)).
  pose proof (Z.mod_pos_bound a 400 ltac:(lia)) as Ha.
  assert (a / 400 * 146097 + (a mod 400 * 365 + a mod 400 ÷ 4 - a mod 400 ÷ 100 +
      ((153 * march_month m + 2) ÷ 5 + d - 1)) - 719468 = day_number y m d) as Heq.
  { unfold day_number. change (march_year y m) with a. pose proof (Z.div_mod a 400 ltac:(lia)) as Hdm.
    pose proof (year_start_era (a / 400) (a mod 400) Ha) as He. rewrite <-Hdm in He. rewrite He.
    rewrite !Z.quot_div_nonneg by (try lia; unfold march_month; destruct (Z.ltb_spec 2 m); lia). unfold month_start. lia. }
  change (if 2 <? m then m - 3 else m + 9) with (march_month m). rewrite Heq.
  split; [intros [= <-]; split; [exists last; split; [done|lia]|done]|by intros [_ ->]].
Qed.

(** The date [md] days after the beginning of the March year [a]. *)
Definition date_of (a md : Z) : Z * Z * Z :=
  let mm := (5 * md + 2) / 153 in
  let month := if mm <? 10 then mm + 3 else mm - 9 in
  (a + (if month <=? 2 then 1 else 0), month, md - month_start mm + 1).

Lemma to_i64_ok v : I64_MIN ≤ v ≤ I64_MAX → to_i64 v = Some v.
Proof. intros H. unfold to_i64. by rewrite (proj2 (Z.leb_le _ _) (proj1 H)), (proj2 (Z.leb_le _ _) (proj2 H)). Qed.

Lemma to_i64_range v w : to_i64 v = Some w → w = v ∧ I64_MIN ≤ v ≤ I64_MAX.
Proof. unfold to_i64. case_if; [|done]. intros [= <-]. b2p. lia. Qed.

Lemma year_length_bounds a : 365 ≤ year_start (a + 1) - year_start a ≤ 366.
Proof. rewrite year_length. destruct (is_leap _); lia. Qed.

Lemma civil_date_eq days a :
  I64_MIN ≤ days + 719468 ≤ I64_MAX → year_start a ≤ days + 719468 < year_start (a + 1) →
  civil_date days = Some (date_of a (days + 719468 - year_start a)).
Proof.
  intros Hi Hy. unfold civil_date. rewrite to_i64_ok by done. cbn [option_bind mbind].
  set (s := days + 719468) in *. pose proof (Z.div_mod a 400 ltac:(lia)) as Ha. pose proof (Z.mod_pos_bound a 400 ltac:(lia)) as Hm.
  set (e := a / 400) in *. set (y := a mod 400) in *. pose proof (year_start_era e y Hm) as He.
  pose proof (year_start_era 0 y Hm) as H0. rewrite Z.mul_0_r, Z.add_0_l in H0.
  assert (year_start (a + 1) - year_start a = year_start (y + 1) - year_start y) as Hlen.
  { rewrite !year_length. unfold is_leap. rewrite !rem_zero by lia.
    assert (∀ k, 0 < k → (k | 400) → (a + 1) mod k = (y + 1) mod k) as Hk.
    { intros k Hk [q Hq]. rewrite Ha, Hq. replace (q * k * e + y + 1) with (y + 1 + q * e * k) by ring. by rewrite Z.mod_add by lia. }
    rewrite !Hk by (try lia; first [by exists 100|by exists 4|by exists 1]). done. }
  rewrite Ha in Hy, Hlen. rewrite Ha, He in *. 
  pose proof (year_start_mono 0 y ltac:(lia)) as Hp. change (year_start 0) with 0 in Hp.
  pose proof (year_start_mono (y + 1) 400 ltac:(lia)) as Hq. change (year_start 400) with 146097 in Hq.
  assert (s / 146097 = e) as -> by (symmetry; apply (Z.div_unique _ _ _ (s - e * 146097)); lia).
  assert (s mod 146097 = s - e * 146097) as Hw by (symmetry; apply (Z.mod_unique _ _ e); lia).
  rewrite Hw. set (w := s - e * 146097) in *. assert (0 ≤ w < 146097) by lia.
  rewrite !(Z.quot_div_nonneg w) by lia. change (w - w / 1460 + w / 36524 - w / 146096) with (year_guess w).
  assert (0 ≤ year_guess w) by (pose proof (year_guess_mono 0 w ltac:(lia)); change (year_guess 0) with 0 in *; lia).
  rewrite (Z.quot_div_nonneg (year_guess w)), (year_of_day y w) by lia.
  rewrite !(Z.quot_div_nonneg y) by lia.
  pose proof (year_length_bounds y).
  set (md := w - (365 * y + y / 4 - y / 100)). assert (0 ≤ md < 366) by (unfold md; lia).
  rewrite (Z.quot_div_nonneg (5 * md + 2)) by lia. pose proof (Z.div_pos (5 * md + 2) 153 ltac:(lia) ltac:(lia)).
  rewrite (Z.quot_div_nonneg (153 * _ + 2)) by lia.
  assert (-146097 * 2 ^ 49 ≤ e * 146097 ≤ 146097 * 2 ^ 49).
  { unfold I64_MIN, I64_MAX in Hi. lia. }
  rewrite (to_i64_ok (e * 400)) by (unfold I64_MIN, I64_MAX; lia). cbn [option_bind mbind].
  rewrite (to_i64_ok (e * 400 + y)) by (unfold I64_MIN, I64_MAX; lia). cbn [option_bind mbind].
  set (month := if (5 * md + 2) / 153 <? 10 then _ else _).
  rewrite to_i64_ok by (unfold I64_MIN, I64_MAX; destruct (month <=? 2); lia). cbn [option_bind mbind].
  unfold date_of. replace (s - (e * 146097 + 365 * y + y / 4 - y / 100)) with md by (unfold md, w; lia).
  fold month. unfold month_start. do 2 f_equal. f_equal. lia.
Qed.

(** The 366 days of a March year, checked one by one: the month is found again, and the
    day is one of its month — in every year but for the last, which needs a leap year. *)
Definition date_checks (md : Z) : bool :=
  let '(carry, month, day) := date_of 0 md in
  (march_month month =? (5 * md + 2) / 153) && (1 <=? month) && (month <=? 12) && (1 <=? day) &&
  (carry =? (if month <=? 2 then 1 else 0)) &&
  (if month =? 2 then day <=? (if md =? 365 then 29 else 28)
   else match month_days 1 month with Some last => day <=? last | None => false end).

Lemma date_checks_all md : 0 ≤ md < 366 → date_checks md = true.
Proof.
  intros H. assert (forallb (λ n, date_checks (Z.of_nat n)) (seq 0 366) = true) as Hall by (vm_compute; reflexivity).
  rewrite forallb_forall in Hall. specialize (Hall (Z.to_nat md)). rewrite in_seq in Hall.
  specialize (Hall ltac:(split; [apply Nat.le_0_l|clear Hall; simpl; lia])). by rewrite Z2Nat.id in Hall by lia.
Qed.

Lemma month_days_other y y' m : m ≠ 2 → month_days y m = month_days y' m.
Proof. intros H. destruct m as [|m|m]; simpl; try done. do 4 (destruct m as [m|m|]; simpl; try done). Qed.

Lemma date_of_valid a md : 0 ≤ md < year_start (a + 1) - year_start a →
  let '(year, month, day) := date_of a md in
  valid_date year month day ∧ march_year year month = a ∧ month_start (march_month month) + day - 1 = md.
Proof.
  intros Hmd. pose proof (year_length_bounds a). pose proof (date_checks_all md ltac:(lia)) as Hc.
  unfold date_checks, date_of in Hc. unfold date_of. set (month := if (5 * md + 2) / 153 <? 10 then _ else _) in *.
  set (day := md - _ + 1) in *. b2p. unfold march_year. split; [|split; [destruct (month <=? 2); lia|]].
  - destruct (Z.eqb_spec month 2) as [E|E].
    + rewrite E. eexists. split; [reflexivity|]. split; [done|]. change (2 <=? 2) with true. cbv iota.
      rewrite year_length in Hmd. destruct (is_leap (a + 1)); destruct (Z.eqb_spec md 365); b2p; lia.
    + unfold valid_date. rewrite (month_days_other _ 1) by done.
      destruct (month_days 1 month) as [last|]; [|done]. b2p. by exists last.
  - replace (march_month month) with ((5 * md + 2) / 153) by lia. unfold day. lia.
Qed.

Ltac each_month H :=
  let Hin := fresh in
  match type of H with 1 ≤ ?m ≤ 12 =>
    assert (m ∈ [1; 2; 3; 4; 5; 6; 7; 8; 9; 10; 11; 12]) as Hin by (rewrite list_elem_of_In; simpl; lia);
    rewrite !elem_of_cons, elem_of_nil in Hin; clear H; repeat destruct Hin as [ -> |Hin]; try done
  end.

(** The months of a March year follow each other without a gap. *)
Lemma month_found y m d : valid_date y m d →
  let md := month_start (march_month m) + d - 1 in
  (5 * md + 2) / 153 = march_month m ∧ 0 ≤ md < (if m =? 2 then (if is_leap y then 366 else 365) else 337).
Proof.
  intros (last & Hl & Hd). pose proof (month_days_range _ _ _ Hl) as [Hm _].
  each_month Hm; simpl in Hl; injection Hl as <-; cbv zeta;
    match goal with |- context [march_month ?m] =>
      let mm := eval vm_compute in (march_month m) in let ms := eval vm_compute in (month_start mm) in
      change (march_month m) with mm; change (month_start mm) with ms;
      split; [symmetry; apply (Z.div_unique _ _ mm (5 * (ms + d - 1) + 2 - 153 * mm)); [|lia]|];
      cbn -[is_leap Z.sub Z.add Z.mul]; try destruct (is_leap y); lia
    end.
Qed.

(** A valid date lies within its March year, and is found there. *)
Lemma date_of_date y m d : valid_date y m d →
  let md := month_start (march_month m) + d - 1 in
  0 ≤ md < year_start (march_year y m + 1) - year_start (march_year y m) ∧ date_of (march_year y m) md = (y, m, d).
Proof.
  intros Hv. pose proof (month_found _ _ _ Hv) as [Hmm Hr]. cbv zeta in *. destruct Hv as (last & Hl & _).
  pose proof (month_days_range _ _ _ Hl) as [Hm _]. clear Hl. split.
  - rewrite year_length. destruct (Z.eqb_spec m 2) as [ -> |Hne]; [|destruct (is_leap (march_year y m + 1)); lia].
    unfold march_year. change (2 <=? 2) with true. cbv iota. by replace (y - 1 + 1) with y by lia.
  - unfold date_of. rewrite Hmm. clear Hmm Hr. set (ms := month_start (march_month m)).
    assert ((if march_month m <? 10 then march_month m + 3 else march_month m - 9) = m) as -> by (each_month Hm).
    unfold march_year. destruct (m <=? 2); do 2 f_equal; lia.
Qed.

Lemma civil_date_spec days y m d : I64_MIN ≤ days ≤ I64_MAX - 719468 →
  civil_date days = Some (y, m, d) ↔ civil_days y m d = Some days.
Proof.
  intros Hi. rewrite civil_days_spec. split.
  - destruct (year_exists (days + 719468)) as (a & Ha). rewrite (civil_date_eq days a) by (unfold I64_MIN in *; lia).
    intros Hd%(inj Some). pose proof (date_of_valid a (days + 719468 - year_start a) ltac:(lia)) as Hv. rewrite Hd in Hv.
    destruct Hv as (Hv & Hy & Hmd). split; [done|]. unfold day_number. rewrite Hy. lia.
  - intros [Hv Hn]. pose proof (date_of_date _ _ _ Hv) as [Hr Hd]. cbv zeta in *. unfold day_number in Hn.
    rewrite (civil_date_eq days (march_year y m)) by (unfold I64_MIN in *; lia). rewrite <-Hd. do 2 f_equal. lia.
Qed.

Lemma next_day_number y m d : valid_date y m d →
  let '(y', m', d') := next_day (y, m, d) in valid_date y' m' d' ∧ day_number y' m' d' = day_number y m d + 1.
Proof.
  intros (last & Hl & Hd). unfold next_day. pose proof (month_days_range _ _ _ Hl) as [Hm _].
  destruct (decide (month_days y m = Some d)) as [He|He].
  2: { split; [exists last; split; [done|]; rewrite Hl in He; assert (last ≠ d) by congruence; lia|unfold day_number; lia]. }
  destruct (Z.eqb_spec m 12) as [ -> |H12].
  { injection He as <-. split; [exists 31; split; [done|lia]|]. unfold day_number, march_year. simpl. replace (y + 1 - 1) with y by lia. rewrite Z.sub_0_r.
    change (month_start (march_month 12)) with 275. change (month_start (march_month 1)) with 306. lia. }
  split.
  { unfold valid_date. each_month Hm; eexists; (split; [reflexivity|]); try destruct (is_leap y); lia. }
  unfold day_number. pose proof (year_length (y - 1)) as Hlen. replace (y - 1 + 1) with y in Hlen by lia.
  each_month Hm; injection He as <-; unfold march_year;
    match goal with |- context [march_month (?m + 1)] =>
      let s := eval vm_compute in (month_start (march_month m)) in let s' := eval vm_compute in (month_start (march_month (m + 1))) in
      change (month_start (march_month m)) with s; change (month_start (march_month (m + 1))) with s';
      let b := eval vm_compute in (m + 1 <=? 2) in change (m + 1 <=? 2) with b; cbn -[is_leap Z.sub Z.add Z.mul];
      rewrite ?Z.sub_0_r; try destruct (is_leap y); lia
    end.
Qed.

Lemma civil_date_valid days : I64_MIN ≤ days ≤ I64_MAX - 719468 →
  ∃ y m d, civil_date days = Some (y, m, d) ∧ valid_date y m d ∧ days = day_number y m d.
Proof.
  intros Hi. destruct (year_exists (days + 719468)) as (a & Ha).
  destruct (date_of a (days + 719468 - year_start a)) as [[y m] d] eqn:Hd. exists y, m, d.
  assert (civil_date days = Some (y, m, d)) as Hc by (rewrite (civil_date_eq days a) by (unfold I64_MIN in *; lia); by rewrite Hd).
  split; [done|]. by apply civil_days_spec, civil_date_spec.
Qed.

(** ** The claims *)

(** C33. [civil_date] is the Gregorian calendar: day 0 is 1 January 1970, every further day
    that can be represented is the day after, by the lengths of the months and the leap
    years, and a day so late that the computation would overflow is refused. *)
Theorem civil_date_calendar :
  civil_date 0 = Some (1970, 1, 1) ∧
  (∀ days, I64_MIN ≤ days → days + 1 ≤ I64_MAX - 719468 →
     ∃ date, civil_date days = Some date ∧ civil_date (days + 1) = Some (next_day date)) ∧
  (∀ days, I64_MAX - 719468 < days → civil_date days = None).
Proof.
  split; [reflexivity|]. split.
  - intros days H1 H2. destruct (civil_date_valid days ltac:(lia)) as (y & m & d & Hc & Hv & Hn). exists (y, m, d). split; [done|].
    pose proof (next_day_number _ _ _ Hv) as Hnx. destruct (next_day (y, m, d)) as [[y' m'] d']. destruct Hnx as [Hv' Hn'].
    apply civil_date_spec; [lia|]. apply civil_days_spec. split; [done|lia].
  - intros days H. unfold civil_date, to_i64. rewrite (proj2 (Z.leb_gt (days + 719468) I64_MAX)) by lia. by rewrite andb_false_r.
Qed.
Lemma civil_date_calendar_witness :
  ∃ date, civil_date 11015 = Some date ∧ civil_date 11016 = Some (next_day date) ∧ next_day date = (2000, 2, 29).
Proof.
  destruct (proj1 (proj2 civil_date_calendar) 11015 ltac:(unfold I64_MIN; lia) ltac:(unfold I64_MAX; lia)) as (date & H1 & H2).
  exists date. split; [exact H1|]. split; [exact H2|]. vm_compute in H1. injection H1 as <-. reflexivity.
Defined.

(** Days and dates correspond one to one: on every representable day, [civil_date]
    returns a date exactly when [civil_days] accepts the date and returns the day. *)
Lemma civil_date_roundtrip :
  ∀ days y m d, I64_MIN ≤ days ≤ I64_MAX - 719468 → civil_date days = Some (y, m, d) ↔ civil_days y m d = Some days.
Proof. intros. by apply civil_date_spec. Qed.
Lemma civil_date_roundtrip_witness : civil_date (-719468) = Some (0, 3, 1).
Proof. apply civil_date_roundtrip; [unfold I64_MIN, I64_MAX; lia|]. vm_compute. reflexivity. Defined.
