(* ===== verification/TimeSpec.v ===== *)
(** * Timestamps are read back as they were printed

    What the output buffer of [format] holds, how the parser reads digits and
    literals, and the round trip of the five formats, first on byte strings and then
    through the memory of the two entry points. *)
From Stdlib Require Import ZArith Lia String.
From S2P Require Import Prelude TimeFormats CalendarSpec.
Local Open Scope Z_scope.

(** ** Decimal digits *)
Definition dec (width : nat) (value : Z) : bytes := (render width value []).1.

Lemma render_acc width value acc : render width value acc = (dec width value ++ acc, value / 10 ^ Z.of_nat width).
Proof.
  unfold dec. revert value acc. induction width as [|width IH]; intros value acc; simpl.
  - by rewrite Z.div_1_r.
  - rewrite (IH _ (_ :: acc)), (IH _ [_]). change (Z.pos (Pos.of_succ_nat width)) with (Z.of_nat (S width)).
    rewrite Nat2Z.inj_succ, Z.pow_succ_r, Z.div_div by lia. simpl. by rewrite <-app_assoc.
Qed.

Lemma dec_S width value : dec (S width) value = dec width (value / 10) ++ [48 + value mod 10].
Proof. unfold dec at 1. simpl. by rewrite render_acc. Qed.

Lemma dec_length width value : length (dec width value) = width.
Proof. revert value. induction width as [|width IH]; intros; [done|]. rewrite dec_S, length_app, IH. simpl. lia. Qed.

Lemma dec_digits width value : Forall (λ b, 48 ≤ b ≤ 57) (dec width value).
Proof.
  revert value. induction width as [|width IH]; intros value; [constructor|]. rewrite dec_S. apply Forall_app. split; [apply IH|].
  constructor; [|constructor]. pose proof (Z.mod_pos_bound value 10 ltac:(lia)). lia.
Qed.

Lemma decimal_value_app l l' v : digits_value v (l ++ l') = v' ← digits_value v l; digits_value v' l'.
Proof. revert v. induction l as [|b l IH]; intros v; simpl; [done|]. by destruct (is_ascii_digit b). Qed.

Lemma digit_ok b : 48 ≤ b ≤ 57 → is_ascii_digit b = true.
Proof. intros H. unfold is_ascii_digit. rewrite andb_true_iff, !Z.leb_le. lia. Qed.

Lemma digits_value_dec width value v : 0 ≤ value < 10 ^ Z.of_nat width →
  digits_value v (dec width value) = Some (v * 10 ^ Z.of_nat width + value).
Proof.
  revert value v. induction width as [|width IH]; intros value v Hv.
  { simpl in *. f_equal. lia. }
  rewrite Nat2Z.inj_succ, Z.pow_succ_r in * by lia. pose proof (Z.div_mod value 10 ltac:(lia)). pose proof (Z.mod_pos_bound value 10 ltac:(lia)).
  rewrite dec_S, decimal_value_app, IH by lia. simpl. rewrite digit_ok by lia. f_equal. lia.
Qed.

Lemma digits_value_scale l v : digits_value v l = (λ x, v * 10 ^ Z.of_nat (length l) + x) <$> digits_value 0 l.
Proof.
  induction l as [|b l IH] using rev_ind; [simpl; f_equal; lia|].
  rewrite !decimal_value_app, IH. destruct (digits_value 0 l) as [x|]; simpl; [|done]. destruct (is_ascii_digit b); simpl; [|done].
  f_equal. rewrite length_app. simpl. rewrite Nat2Z.inj_add, Z.pow_add_r by lia. lia.
Qed.

(** ** The output buffer *)
Record holds (t : Text) (l : bytes) : Prop := {
  h_size : length (t_bytes t) = 32%nat;
  h_len : t_len t = length l;
  h_fits : (length l ≤ 32)%nat;
  h_text : take (length l) (t_bytes t) = l
}.

Lemma holds_nil : holds no_text [].
Proof. split; simpl; [done..|lia|done]. Qed.

Lemma holds_app t l v : holds t l → (length l + length v ≤ 32)%nat →
  holds {| t_bytes := take (t_len t) (t_bytes t) ++ v ++ drop (t_len t + length v) (t_bytes t); t_len := t_len t + length v |} (l ++ v).
Proof.
  intros [Hs Hl Hf Ht] H. rewrite Hl, Ht. split; simpl; rewrite ?length_app, ?length_drop; [lia..|].
  rewrite app_assoc, take_app_length'; [done|]. by rewrite length_app.
Qed.

Lemma text_push_holds t l v : holds t l → (length l + length v ≤ 32)%nat → ∃ t', text_push v t = Some t' ∧ holds t' (l ++ v).
Proof.
  intros Ht H. eexists. split; [|by apply holds_app]. unfold text_push. destruct Ht as [Hs Hl _ _].
  by rewrite Hl, Hs, (proj2 (Nat.leb_le _ _)), (proj2 (Nat.leb_le _ 32%nat)) by lia.
Qed.

Lemma text_digits_holds t l w v : holds t l → (length l + w ≤ 32)%nat → (w ≤ 9)%nat → 0 ≤ v < 10 ^ Z.of_nat w →
  ∃ t', text_digits w v t = Some t' ∧ holds t' (l ++ dec w v).
Proof.
  intros Ht H Hw Hv. assert (10 ^ Z.of_nat w ≤ 10 ^ 9) by (apply Z.pow_le_mono_r; lia).
  exists {| t_bytes := take (t_len t) (t_bytes t) ++ dec w v ++ drop (t_len t + length (dec w v)) (t_bytes t);
            t_len := t_len t + length (dec w v) |}.
  split; [|apply holds_app; [done|by rewrite dec_length]]. unfold text_digits. destruct Ht as [Hs Hl _ _].
  rewrite (proj2 (Z.leb_le 0 v)), (proj2 (Z.leb_le v U32_MAX)) by (unfold U32_MAX; lia). simpl.
  rewrite Hl, Hs, (proj2 (Nat.leb_le _ 32%nat)) by lia. simpl. rewrite render_acc, Z.div_small by lia. simpl.
  by rewrite app_nil_r, dec_length.
Qed.

Lemma push_bind {Q : Text → Prop} t l v k : holds t l → (length l + length v ≤ 32)%nat →
  (∀ t', holds t' (l ++ v) → ∃ r, k t' = Some r ∧ Q r) → ∃ r, (t' ← text_push v t; k t') = Some r ∧ Q r.
Proof. intros Ht H Hk. destruct (text_push_holds t l v Ht H) as (t' & -> & Ht'). by apply Hk. Qed.
Lemma digits_bind {Q : Text → Prop} t l w v k : holds t l → (length l + w ≤ 32)%nat → (w ≤ 9)%nat → 0 ≤ v < 10 ^ Z.of_nat w →
  (∀ t', holds t' (l ++ dec w v) → ∃ r, k t' = Some r ∧ Q r) → ∃ r, (t' ← text_digits w v t; k t') = Some r ∧ Q r.
Proof. intros Ht H Hw Hv Hk. destruct (text_digits_holds t l w v Ht H Hw Hv) as (t' & -> & Ht'). by apply Hk. Qed.

(** What [trim_zeros] leaves is the text without some of its last zeros, and does not end in one. *)
Lemma trim_zeros_holds n t l start : holds t l → length l = (start + n)%nat →
  ∃ l' k, l = l' ++ replicate k 48 ∧ (start ≤ length l')%nat ∧ holds (trim_zeros start n t) l' ∧
    ((start < length l')%nat → last l' ≠ Some 48).
Proof.
  revert t l. induction n as [|n IH]; intros t l Ht Hn; simpl.
  { exists l, 0%nat. rewrite app_nil_r. split_and!; [done|lia|done|lia]. }
  destruct l as [|b l _] using rev_ind; [simpl in Hn; lia|]. rewrite length_app in Hn. simpl in Hn.
  pose proof Ht as [Hs Hl Hf Htx]. rewrite length_app in Hl, Hf, Htx. simpl in Hl, Hf, Htx.
  assert (t_bytes t !! (t_len t - 1)%nat = Some b) as ->.
  { rewrite Hl. replace (length l + 1 - 1)%nat with (length l) by lia. rewrite <-(lookup_take_lt _ (length l + 1)) by lia.
    rewrite Htx. by rewrite list_lookup_middle. }
  destruct (decide (Some b = Some 48)) as [[= ->]|Hb].
  - destruct (IH {| t_bytes := t_bytes t; t_len := (t_len t - 1)%nat |} l) as (l' & k & -> & H1 & H2 & H3); [|lia|].
    { split; simpl; [done|lia|lia|]. replace (take (length l) (t_bytes t)) with (take (length l) (take (length l + 1) (t_bytes t)))
        by (rewrite take_take; f_equal; lia).
      by rewrite Htx, take_app_length. }
    exists l', (S k). split_and!; [|done|done|done]. rewrite <-app_assoc. f_equal. by rewrite <-replicate_S_end.
  - exists (l ++ [b]), 0%nat. rewrite app_nil_r. split_and!; [done|rewrite length_app; simpl; lia|done|].
    intros _. rewrite last_snoc. done.
Qed.

(** ** What the formats print *)
Record clock_ok (h mi s f : Z) : Prop := { c_h : 0 ≤ h ≤ 23; c_mi : 0 ≤ mi ≤ 59; c_s : 0 ≤ s ≤ 59; c_f : 0 ≤ f < SECOND }.
Definition clock_value (h mi s : Z) : Z := (h * 3600 + mi * 60 + s) * SECOND.

Lemma clock_spec w : 0 ≤ w < DAY →
  let '(h, mi, s, f) := clock w in clock_ok h mi s f ∧ w = clock_value h mi s + f.
Proof.
  unfold clock, DAY, SECOND. intros Hw. rewrite !Z.quot_div_nonneg by lia.
  pose proof (Z.div_pos w (60 * 1000000000) ltac:(lia) ltac:(lia)). pose proof (Z.div_pos w 1000000000 ltac:(lia) ltac:(lia)).
  rewrite !Z.rem_mod_nonneg by lia.
  assert (w / (60 * 1000000000) = w / 1000000000 / 60) as -> by (by rewrite Z.div_div by lia).
  assert (w / (3600 * 1000000000) = w / 1000000000 / 60 / 60) as -> by (by rewrite !Z.div_div by lia).
  set (q := w / 1000000000). pose proof (Z.div_mod w 1000000000 ltac:(lia)) as E1. fold q in E1.
  pose proof (Z.mod_pos_bound w 1000000000 ltac:(lia)). pose proof (Z.div_mod q 60 ltac:(lia)) as E2.
  pose proof (Z.mod_pos_bound q 60 ltac:(lia)). pose proof (Z.div_mod (q / 60) 60 ltac:(lia)) as E3.
  pose proof (Z.mod_pos_bound (q / 60) 60 ltac:(lia)). split; [split; unfold SECOND; lia|unfold clock_value, SECOND; lia].
Qed.

(** A printed fraction of [count] digits that stands for [value] nanoseconds. *)
Definition fraction_text (F : bytes) (value : Z) (count : nat) : Prop :=
  (F = [] ∧ value = 0 ∧ count = 0%nat) ∨
  (∃ ds x, F = str "." ++ ds ∧ length ds = count ∧ (1 ≤ count ≤ 9)%nat ∧ Forall (λ b, 48 ≤ b ≤ 57) ds ∧
     digits_value 0 ds = Some x ∧ value = x * 10 ^ Z.of_nat (9 - count)).

Definition clock_text (sep : bytes) (h mi s : Z) : bytes := dec 2 h ++ sep ++ dec 2 mi ++ sep ++ dec 2 s.
Definition date_text (sep : bytes) (y m d : Z) : bytes := dec 4 y ++ sep ++ dec 2 m ++ sep ++ dec 2 d.

(** The text of a kind, for a date, its day number and a time of day. *)
Definition stamp (kind y m d days h mi s f : Z) (l : bytes) : Prop :=
  match kind with
  | 0 | 1 => ∃ F count, fraction_text F f count ∧ (kind = 1 → count = 3%nat) ∧
      l = date_text (str "-") y m d ++ str "T" ++ clock_text (str ":") h mi s ++ F ++ str "Z"
  | 2 => f = 0 ∧ ∃ weekday month, WEEKDAYS !! Z.to_nat ((days + 4) mod 7) = Some weekday ∧ MONTHS !! Z.to_nat (m - 1) = Some month ∧
      l = weekday ++ str ", " ++ dec 2 d ++ str " " ++ month ++ str " " ++ dec 4 y ++ str " " ++ clock_text (str ":") h mi s ++ str " GMT"
  | 3 => f = 0 ∧ l = date_text [] y m d ++ str "T" ++ clock_text [] h mi s ++ str "Z"
  | 4 => clock_value h mi s + f = 0 ∧ l = date_text [] y m d
  | _ => False
  end.

Lemma nanos_text t l f : holds t l → (length l + 11 ≤ 32)%nat → 0 < f < SECOND →
  ∃ r, (out ← text_push (str ".") t; out ← text_digits 9 f out; Some (trim_zeros (t_len t) (t_len out - t_len t) out)) = Some r ∧
    ∃ F count, fraction_text F f count ∧ (length F ≤ 10)%nat ∧ holds r (l ++ F).
Proof.
  intros Ht Hl Hf. eapply push_bind; [done|simpl; lia|]. intros t1 H1.
  eapply digits_bind; [done|rewrite length_app; simpl; lia|lia|change (10 ^ Z.of_nat 9) with SECOND; lia|]. intros t2 H2.
  eexists. split; [reflexivity|]. pose proof (h_len _ _ Ht) as Hlen. pose proof (h_len _ _ H2) as Hlen2.
  rewrite !length_app, dec_length in Hlen2. simpl in Hlen2.
  destruct (trim_zeros_holds (t_len t2 - t_len t) t2 _ (t_len t) H2) as (l' & k & Heq & Hk & Hh & Hlast).
  { rewrite !length_app, dec_length. simpl. lia. }
  rewrite <-app_assoc in Heq. rewrite Hlen in Hk. assert (∃ F, l' = l ++ F) as [F ->].
  { apply app_eq_inv in Heq as [(G & -> & _)|(G & -> & _)]; [|by exists G].
    exists []. rewrite length_app in Hk. destruct G; simpl in *; [by rewrite !app_nil_r|lia]. }
  rewrite <-app_assoc in Heq. apply app_inv_head in Heq. exists F.
  assert (length F + k = 10)%nat as Hsum by (apply (f_equal length) in Heq; rewrite !length_app, dec_length, length_replicate in Heq; simpl in Heq; lia).
  destruct F as [|c ds]; [destruct k; [simpl in *; lia|discriminate Heq]|]. injection Heq as <- Heq. simpl in Hsum.
  assert (digits_value 0 (dec 9 f) = Some f) as Hv by (rewrite digits_value_dec; [f_equal; lia|change (10 ^ Z.of_nat 9) with SECOND; lia]).
  assert (∀ n v, digits_value v (replicate n 48) = Some (v * 10 ^ Z.of_nat n)) as Hz.
  { induction n as [|n IH]; intros v; simpl; [f_equal; lia|]. rewrite IH. f_equal.
    change (Z.pos (Pos.of_succ_nat n)) with (Z.of_nat (S n)). rewrite Nat2Z.inj_succ, Z.pow_succ_r by lia. lia. }
  rewrite Heq, decimal_value_app in Hv. destruct (digits_value 0 ds) as [x|] eqn:Hx; [|done]. simpl in Hv. rewrite Hz in Hv. injection Hv as Hv.
  exists (length ds). split; [|split; [simpl; lia|done]]. right. exists ds, x. split; [done|]. split; [done|].
  split. { destruct ds; simpl in *; [injection Hx as <-; lia|lia]. }
  split. { pose proof (dec_digits 9 f) as Hd. rewrite Heq in Hd. by apply Forall_app in Hd as [? _]. }
  split; [done|]. rewrite <-Hv. do 3 f_equal. lia.
Qed.

(** ** [format] prints the stamp of the rounded instant *)
Lemma year_bounds y m d : valid_date y m d → -106753 ≤ day_number y m d ≤ 106752 → 0 ≤ y < 10000.
Proof.
  intros Hv Hn. pose proof (date_of_date _ _ _ Hv) as [Hr _]. cbv zeta in Hr. unfold day_number in Hn.
  destruct (Z_lt_le_dec y 0); [|destruct (Z_lt_le_dec y 10000); [done|]]; exfalso.
  - pose proof (year_start_mono (march_year y m + 1) 0) as Hm. change (year_start 0) with 0 in Hm.
    unfold march_year in *. destruct (m <=? 2); lia.
  - pose proof (year_start_mono 9999 (march_year y m)) as Hm. change (year_start 9999) with 3652059 in Hm.
    unfold march_year in *. destruct (m <=? 2); lia.
Qed.

Lemma push_last {Q : Text → Prop} t l v : holds t l → (length l + length v ≤ 32)%nat →
  (∀ t', holds t' (l ++ v) → Q t') → ∃ r, text_push v t = Some r ∧ Q r.
Proof. intros Ht H HQ. destruct (text_push_holds t l v Ht H) as (t' & Hp & Ht'). exists t'. split; [done|by apply HQ]. Qed.

Ltac fits := rewrite ?length_app, ?dec_length; simpl; lia.
Ltac emit :=
  first [eapply push_bind; [eassumption|fits|intros ? ?] | eapply push_last; [eassumption|fits|intros ? ?]
        | eapply digits_bind; [eassumption|fits|lia|simpl; unfold SECOND in *; lia|intros ? ?]].

Lemma name_length n i names : names = WEEKDAYS ∨ names = MONTHS → names !! i = Some n → length n = 3%nat.
Proof.
  intros Hn Hi. assert (Forall (λ n : bytes, length n = 3%nat) names) as Hall.
  { destruct Hn as [-> | ->]; apply (bool_decide_unpack _); vm_compute; exact I. }
  by eapply Forall_lookup_1 in Hall.
Qed.

Lemma resolution_cases kind p : resolution kind = Some p →
  (kind = 0 ∧ p = 1) ∨ (kind = 1 ∧ p = 1000000) ∨ (kind = 2 ∧ p = SECOND) ∨ (kind = 3 ∧ p = SECOND) ∨ (kind = 4 ∧ p = DAY).
Proof.
  intros Hres. destruct kind as [|q|q]; simpl in Hres; [injection Hres as <-; auto| |done].
  do 3 (try destruct q as [q|q|]; simpl in Hres; try done); injection Hres as <-; auto 10.
Qed.

(** The precision leaves no fraction that the kind cannot print. *)
Definition printable (kind h mi s f : Z) : Prop :=
  (kind = 1 → f mod 1000000 = 0) ∧ (kind = 2 ∨ kind = 3 → f = 0) ∧ (kind = 4 → clock_value h mi s + f = 0).

Section Print.
Context (y m d days h mi s f : Z) (Hy : 0 ≤ y < 10000) (Hm : 1 ≤ m ≤ 12) (Hd : 1 ≤ d ≤ 31) (Hc : clock_ok h mi s f).

Definition prints (kind : Z) : Prop :=
  ∃ t, print_fields kind y m d days h mi s f = Some t ∧ ∃ l, holds t l ∧ stamp kind y m d days h mi s f l.

Ltac start := destruct Hc; pose proof holds_nil; unfold prints, print_fields; cbv iota zeta.
Ltac finish := eexists; split; [eassumption|]; unfold stamp, date_text, clock_text; cbv iota.

Lemma prints_nanos : prints 0.
Proof.
  start. do 11 emit. destruct (Z.eqb_spec f 0) as [E|E]; cbn [negb].
  - change (0 =? 1) with false. cbv iota. cbn [mbind option_bind]. emit. finish. exists [], 0%nat. split; [by left|]. split; [done|].
    by rewrite <-!app_assoc.
  - change (0 =? 1) with false. cbv iota.
    match goal with H : holds ?t _ |- context [text_push (str ".") ?t] =>
      destruct (nanos_text t _ f H) as (r & -> & F & count & HF & Hlen & Hr); [fits|lia|] end.
    cbn [mbind option_bind]. emit. finish. exists F, count. split; [done|]. split; [done|]. by rewrite <-!app_assoc.
Qed.
Lemma prints_millis : printable 1 h mi s f → prints 1.
Proof.
  intros [Hf _]. start. specialize (Hf eq_refl). pose proof (Z.div_mod f 1000000 ltac:(lia)) as Hdm. rewrite Hf, Z.add_0_r in Hdm.
  assert (0 ≤ f / 1000000 < 1000) by (unfold SECOND in *; lia).
  do 11 emit. change (1 =? 1) with true. cbv iota. rewrite Z.quot_div_nonneg by lia.
  cut (∃ r, (out ← text_push (str ".") t'9; out ← text_digits 3 (f / 1000000) out; text_push (str "Z") out) = Some r ∧
    ∃ l, holds r l ∧ stamp 1 y m d days h mi s f l).
  { intros (r & Hr & HQ). exists r. split; [|done]. by destruct (text_push (str ".") t'9). }
  do 3 emit. finish. exists (str "." ++ dec 3 (f / 1000000)), 3%nat. split; [|split; [done|by rewrite <-!app_assoc]].
  right. exists (dec 3 (f / 1000000)), (f / 1000000). split_and!; [done|apply dec_length|lia|lia|apply dec_digits| |change (10 ^ Z.of_nat (9 - 3)) with 1000000; lia].
  rewrite digits_value_dec by (change (10 ^ Z.of_nat 3) with 1000; lia). reflexivity.
Qed.
Lemma prints_rfc1123 : printable 2 h mi s f → prints 2.
Proof.
  intros [_ [Hf _]]. start.
  pose proof (Z.mod_pos_bound (days + 4) 7 ltac:(lia)) as Hw. unfold to_usize.
  rewrite (proj2 (Z.leb_le 0 ((days + 4) mod 7))), (proj2 (Z.leb_le 0 (m - 1))) by lia.
  destruct (lookup_lt_is_Some_2 WEEKDAYS (Z.to_nat ((days + 4) mod 7))) as (weekday & Hwd); [simpl; lia|].
  destruct (lookup_lt_is_Some_2 MONTHS (Z.to_nat (m - 1))) as (month & Hmo); [simpl; lia|].
  cbn [mbind option_bind]. rewrite Hwd, Hmo. cbn [mbind option_bind].
  pose proof (name_length _ _ _ (or_introl eq_refl) Hwd). pose proof (name_length _ _ _ (or_intror eq_refl) Hmo).
  do 14 emit. finish. split; [auto|]. exists weekday, month. split; [done|]. split; [done|]. by rewrite <-!app_assoc.
Qed.
Lemma prints_compact : printable 3 h mi s f → prints 3.
Proof.
  intros [_ [Hf _]]. start. do 8 emit. finish. split; [auto|]. by rewrite <-!app_assoc.
Qed.
Lemma prints_date : printable 4 h mi s f → prints 4.
Proof.
  intros [_ [_ Hf]]. start. do 3 emit. change (4 =? 3) with false. cbv iota. eexists. split; [reflexivity|]. finish.
  split; [auto|]. by rewrite <-!app_assoc.
Qed.
End Print.

Lemma prints_kind kind p y m d days h mi s f :
  resolution kind = Some p → 0 ≤ y < 10000 → 1 ≤ m ≤ 12 → 1 ≤ d ≤ 31 → clock_ok h mi s f → printable kind h mi s f →
  prints y m d days h mi s f kind.
Proof.
  intros Hres Hy Hm Hd Hc Hp. destruct (resolution_cases _ _ Hres) as [[-> _]|[[-> _]|[[-> _]|[[-> _]|[-> _]]]]].
  - by apply prints_nanos.
  - by apply prints_millis.
  - by apply prints_rfc1123.
  - by apply prints_compact.
  - by apply prints_date.
Qed.

Lemma rounded_printable kind p q h mi s f : resolution kind = Some p → clock_ok h mi s f →
  (q * p) mod DAY = clock_value h mi s + f → printable kind h mi s f.
Proof.
  intros Hres [Hh Hmi Hs Hf] Hw. unfold printable, clock_value in *.
  assert (∀ k, 0 < k → (k | p) → (k | DAY) → (k | SECOND) → f mod k = 0) as Hk.
  { intros k H0 Hp HD [c HS]. assert (((h * 3600 + mi * 60 + s) * SECOND + f) mod k = 0) as Hm.
    { rewrite <-Hw, (Z.mod_mod_divide _ DAY k) by done. apply Z.mod_divide; [lia|]. by apply Z.divide_mul_r. }
    rewrite HS, Z.mul_assoc, Z.add_comm, Z.mod_add in Hm by lia. done. }
  destruct (resolution_cases _ _ Hres) as [[-> ->]|[[-> ->]|[[-> ->]|[[-> ->]|[-> ->]]]]]; split_and!; try (intros ?; lia).
  - intros _. apply Hk; [lia|done|by exists 86400000|by exists 1000].
  - intros _. rewrite <-(Z.mod_small f SECOND) by lia. apply Hk; [done|done|by exists 86400|done].
  - intros _. rewrite <-(Z.mod_small f SECOND) by lia. apply Hk; [done|done|by exists 86400|done].
  - intros _. rewrite <-Hw. by apply Z.mod_mul.
Qed.

(** What [format] prints for an instant that survives the rounding. *)
Lemma format_text ns kind p : resolution kind = Some p → I64_MIN ≤ ns / p * p ≤ I64_MAX →
  ∃ t y m d h mi s f l, format ns kind = Some t ∧ holds t l ∧ civil_days y m d = Some (ns / p * p / DAY) ∧
    0 ≤ y < 10000 ∧ 1 ≤ m ≤ 12 ∧ 1 ≤ d ≤ 31 ∧ clock_ok h mi s f ∧
    (ns / p * p) mod DAY = clock_value h mi s + f ∧ stamp kind y m d (ns / p * p / DAY) h mi s f l.
Proof.
  intros Hres Hr. unfold format. rewrite Hres. cbn [mbind option_bind]. rewrite (to_i64_ok _ Hr). cbn [mbind option_bind].
  set (days := ns / p * p / DAY). assert (-106752 ≤ days ≤ 106751) as Hdays.
  { unfold days. split; [apply Z.div_le_lower_bound|apply Z.lt_succ_r, Z.div_lt_upper_bound]; unfold DAY, SECOND, I64_MIN, I64_MAX in *; lia. }
  assert (I64_MIN ≤ days ≤ I64_MAX - 719468) as Hi by (unfold I64_MIN, I64_MAX; lia).
  rewrite to_i64_ok by lia. cbn [mbind option_bind].
  destruct (civil_date_valid days Hi) as (y & m & d & Hc & Hv & Hn). rewrite Hc. cbn [mbind option_bind].
  pose proof (clock_spec _ (Z.mod_pos_bound (ns / p * p) DAY eq_refl)) as Hclock.
  destruct (clock (ns / p * p mod DAY)) as [[[h mi] s] f]. destruct Hclock as [Hok Hw].
  pose proof Hv as (last & Hl & Hd). pose proof (month_days_range _ _ _ Hl) as [Hm Hlast].
  destruct (prints_kind kind p y m d days h mi s f) as (t & Ht & l & Hh & Hst); [done|apply (year_bounds y m d); [done|lia]|done|lia|done| |].
  { by eapply rounded_printable. }
  exists t, y, m, d, h, mi, s, f, l. split_and!; try done; try lia; [by apply civil_date_spec|apply (year_bounds y m d); [done|lia]..].
Qed.

(** ** The parser on a known text *)
Definition cur (pre rest : bytes) : TimeParser := {| p_bytes := pre ++ rest; p_pos := length pre |}.

Lemma cur_next pre l rest : p_at (length pre + length l) (cur pre (l ++ rest)) = cur (pre ++ l) rest.
Proof. unfold p_at, cur. simpl. by rewrite app_assoc, length_app. Qed.

Lemma slice_cur (pre l rest : bytes) : slice_get (length pre) (length pre + length l) (pre ++ l ++ rest) = Some l.
Proof.
  rewrite slice_get_ok by (rewrite ?length_app; lia). f_equal. unfold slice.
  replace (length pre + length l - length pre)%nat with (length l) by lia. by rewrite drop_app_length, take_app_length.
Qed.

Lemma p_literal_ok pre l rest : p_literal l (cur pre (l ++ rest)) = Some (cur (pre ++ l) rest).
Proof. unfold p_literal. simpl. rewrite slice_cur. simpl. by rewrite decide_True, cur_next. Qed.

Lemma p_literal_end pre l : p_literal l (cur pre l) = Some (cur (pre ++ l) []).
Proof. rewrite <-(app_nil_r l) at 2. apply p_literal_ok. Qed.

Lemma p_digits_ok pre w v rest : 0 ≤ v < 10 ^ Z.of_nat w → p_digits w (cur pre (dec w v ++ rest)) = Some (v, cur (pre ++ dec w v) rest).
Proof.
  intros Hv. unfold p_digits. cbn [p_pos p_bytes cur].
  replace (length pre + w)%nat with (length pre + length (dec w v))%nat by (by rewrite dec_length). rewrite slice_cur. cbn [mbind option_bind].
  rewrite digits_value_dec by done. cbn [mbind option_bind]. rewrite cur_next. reflexivity.
Qed.

Lemma p_peek_cur pre b rest : p_peek (cur pre (b :: rest)) = Some b.
Proof. unfold p_peek, cur. simpl. by rewrite list_lookup_middle. Qed.

Lemma fraction_loop_ok ds : ∀ pre budget v c rest, Forall (λ b, 48 ≤ b ≤ 57) ds → (length ds ≤ budget)%nat → is_ascii_digit c = false →
  ∃ x, digits_value v ds = Some x ∧
    fraction_loop budget v (cur pre (ds ++ c :: rest)) = Some (x, (budget - length ds)%nat, cur (pre ++ ds) (c :: rest)).
Proof.
  induction ds as [|b ds IH]; intros pre budget v c rest Hds Hb Hc; simpl.
  - exists v. split; [done|]. rewrite app_nil_r, Nat.sub_0_r. destruct budget; simpl; by rewrite p_peek_cur, Hc.
  - inversion_clear Hds as [|? ? Hd Hds']. rewrite digit_ok by done. destruct budget as [|budget]; simpl in Hb; [lia|].
    destruct (IH (pre ++ [b]) budget (v * 10 + (b - 48)) c rest) as (x & Hx & Hl); [done|lia|done|]. exists x. split; [done|].
    cbn [fraction_loop]. rewrite p_peek_cur, digit_ok by done.
    assert (p_digits 1 (cur pre (b :: ds ++ c :: rest)) = Some (b - 48, cur (pre ++ [b]) (ds ++ c :: rest))) as ->.
    { unfold p_digits. change (b :: ds ++ c :: rest) with ([b] ++ ds ++ c :: rest). cbn [p_pos p_bytes cur].
      change (length pre + 1)%nat with (length pre + length [b])%nat. rewrite (slice_cur pre [b]). cbn [mbind option_bind digits_value]. rewrite digit_ok by done.
      cbn [mbind option_bind]. by rewrite (cur_next pre [b]). }
    cbn [mbind option_bind]. rewrite Hl, <-app_assoc. done.
Qed.

Lemma parse_fraction_ok F value count pre rest : fraction_text F value count →
  parse_fraction (cur pre (F ++ str "Z" ++ rest)) = Some (value, count, cur (pre ++ F) (str "Z" ++ rest)).
Proof.
  unfold parse_fraction. intros [(-> & -> & ->)|(ds & x & -> & Hlen & Hc & Hds & Hx & ->)].
  - simpl. change (str "Z" ++ rest) with (90 :: rest). rewrite decide_False by (by rewrite p_peek_cur). by rewrite app_nil_r.
  - rewrite <-app_assoc. rewrite decide_True by apply (p_peek_cur pre 46). rewrite p_literal_ok. cbn [mbind option_bind].
    change (str "Z" ++ rest) with (90 :: rest).
    destruct (fraction_loop_ok ds (pre ++ str ".") 9 0 90 rest Hds) as (x' & Hx' & Hl); [lia|done|]. rewrite Hx in Hx'. injection Hx' as <-.
    rewrite Hl. cbn [mbind option_bind]. rewrite Hlen. rewrite (proj2 (Nat.eqb_neq (9 - count) 9)) by lia.
    assert (∀ n v, Nat.iter n (Z.mul 10) v = v * 10 ^ Z.of_nat n) as Hiter.
    { induction n as [|n IH]; intros v; [simpl; lia|]. rewrite Nat2Z.inj_succ, Z.pow_succ_r by lia. cbn [Nat.iter nat_rect]. 
      change (nat_rect _ v _ n) with (Nat.iter n (Z.mul 10) v). rewrite IH. lia. }
    rewrite Hiter, <-app_assoc. do 4 f_equal. lia.
Qed.

Lemma parse_offset_ok pre : parse_offset (cur pre (str "Z")) = Some (0, cur (pre ++ str "Z") []).
Proof.
  unfold parse_offset. change (str "Z") with [90]. rewrite p_peek_cur. simpl.
  by rewrite <-(cur_next pre [90] []).
Qed.

(** Reading two or four digits, or a literal, at the cursor. *)
Ltac read_step :=
  first [rewrite p_digits_ok by (simpl; lia) | rewrite p_literal_ok]; cbn [mbind option_bind].

Lemma clock_in_range h mi s f : clock_ok h mi s f → (23 <? h) || (59 <? mi) || (59 <? s) = false.
Proof.
  intros [Hh Hmi Hs _]. rewrite (proj2 (Z.ltb_ge 23 h)), (proj2 (Z.ltb_ge 59 mi)), (proj2 (Z.ltb_ge 59 s)) by lia. done.
Qed.

Lemma parse_time_iso kind h mi s f F count pre : kind = 0 ∨ kind = 1 → clock_ok h mi s f → fraction_text F f count →
  (kind = 1 → count = 3%nat) →
  parse_time kind (cur pre (clock_text (str ":") h mi s ++ F ++ str "Z")) =
  Some (clock_value h mi s + f, cur (pre ++ clock_text (str ":") h mi s ++ F ++ str "Z") []).
Proof.
  intros Hk Hc HF H3. pose proof Hc as [Hh Hmi Hs Hf]. unfold parse_time, clock_text. rewrite <-!app_assoc.
  assert ((kind <? 3) = true) as E3 by lia. assert ((kind <? 2) = true) as E2 by lia. unfold p_literal_if. rewrite E3, E2.
  do 5 read_step. rewrite (clock_in_range _ _ _ _ Hc).
  pose proof (parse_fraction_ok F f count (((((pre ++ dec 2 h) ++ str ":") ++ dec 2 mi) ++ str ":") ++ dec 2 s) [] HF) as HP.
  rewrite app_nil_r in HP. rewrite HP. cbn [mbind option_bind].
  assert ((kind =? 1) && negb (count =? 3)%nat = false) as ->.
  { destruct (Z.eqb_spec kind 1); simpl; [by rewrite H3|done]. }
  rewrite parse_offset_ok. cbn [mbind option_bind]. rewrite <-!app_assoc. do 3 f_equal. unfold clock_value. lia.
Qed.

Lemma parse_time_gmt h mi s f pre : clock_ok h mi s f →
  parse_time 2 (cur pre (clock_text (str ":") h mi s ++ str " GMT")) =
  Some (clock_value h mi s, cur (pre ++ clock_text (str ":") h mi s ++ str " GMT") []).
Proof.
  intros Hc. pose proof Hc as [Hh Hmi Hs Hf]. unfold parse_time, clock_text, p_literal_if. rewrite <-!app_assoc. change (2 <? 3) with true. change (2 <? 2) with false. cbv iota.
  do 5 read_step. rewrite (clock_in_range _ _ _ _ Hc). change (2 =? 2) with true. cbv iota.
  rewrite p_literal_end. cbn [mbind option_bind]. by rewrite <-!app_assoc.
Qed.

Lemma parse_time_compact h mi s f pre : clock_ok h mi s f →
  parse_time 3 (cur pre (clock_text [] h mi s ++ str "Z")) =
  Some (clock_value h mi s, cur (pre ++ clock_text [] h mi s ++ str "Z") []).
Proof.
  intros Hc. pose proof Hc as [Hh Hmi Hs Hf]. unfold parse_time, clock_text, p_literal_if. rewrite <-!app_assoc. change (3 <? 3) with false. change (3 <? 2) with false. cbv iota.
  rewrite !(app_nil_l (_ : bytes)). do 3 (rewrite p_digits_ok by (simpl; lia); cbn [mbind option_bind]).
  rewrite (clock_in_range _ _ _ _ Hc). change (3 =? 2) with false. cbv iota.
  rewrite p_literal_end. cbn [mbind option_bind]. by rewrite <-!app_assoc.
Qed.

Lemma name_index_lookup names : NoDup names → ∀ n i k, names !! i = Some n → name_index n k names = Some (k + i)%nat.
Proof.
  induction 1 as [|x names Hx Hnd IH]; intros n i k Hi; [done|]. simpl. destruct i as [|i]; simpl in Hi.
  - injection Hi as ->. rewrite decide_True by done. f_equal. lia.
  - rewrite decide_False. { rewrite (IH n i (S k) Hi). f_equal. lia. }
    intros ->. apply Hx. by eapply list_elem_of_lookup_2.
Qed.

Lemma weekday_index_ok n i : WEEKDAYS !! i = Some n → weekday_index n = Some i.
Proof. apply (name_index_lookup WEEKDAYS). apply (bool_decide_unpack _). vm_compute. exact I. Qed.
Lemma month_index_ok n i : MONTHS !! i = Some n → month_index n = Some i.
Proof. apply (name_index_lookup MONTHS). apply (bool_decide_unpack _). vm_compute. exact I. Qed.

Section Dates.
Context (y m d : Z) (Hy : 0 ≤ y < 10000) (Hm : 1 ≤ m ≤ 12) (Hd : 1 ≤ d ≤ 31).

Lemma parse_date_iso kind rest : kind = 0 ∨ kind = 1 →
  parse_numeric_date kind (cur [] (date_text (str "-") y m d ++ str "T" ++ rest)) =
  Some (y, m, d, None, cur (date_text (str "-") y m d ++ str "T") rest).
Proof.
  intros Hk. unfold parse_numeric_date, date_text, p_literal_if. rewrite <-!app_assoc.
  assert ((kind <? 2) = true) as -> by lia. assert ((kind =? 4) = false) as -> by lia.
  do 5 read_step. cbn [negb andb]. rewrite bool_decide_false by (change (str "T" ++ rest) with (84 :: rest); by rewrite p_peek_cur).
  read_step. by rewrite <-!app_assoc.
Qed.
Lemma parse_date_compact rest :
  parse_numeric_date 3 (cur [] (date_text [] y m d ++ str "T" ++ rest)) = Some (y, m, d, None, cur (date_text [] y m d ++ str "T") rest).
Proof.
  unfold parse_numeric_date, date_text, p_literal_if. rewrite <-!app_assoc, !(app_nil_l (_ : bytes)).
  change (3 <? 2) with false. change (3 =? 4) with false. cbv iota. cbn [negb andb].
  rewrite p_digits_ok by (simpl; lia). cbn [mbind option_bind]. rewrite p_digits_ok by (simpl; lia). cbn [mbind option_bind].
  rewrite p_digits_ok by (simpl; lia). cbn [mbind option_bind]. read_step. by rewrite <-!app_assoc.
Qed.
Lemma parse_date_only :
  parse_numeric_date 4 (cur [] (date_text [] y m d)) = Some (y, m, d, None, cur (date_text [] y m d) []).
Proof.
  unfold parse_numeric_date, date_text, p_literal_if. rewrite !(app_nil_l (_ : bytes)).
  change (4 <? 2) with false. change (4 =? 4) with true. cbv iota. cbn [negb].
  rewrite p_digits_ok by (simpl; lia). cbn [mbind option_bind]. rewrite p_digits_ok by (simpl; lia). cbn [mbind option_bind].
  rewrite <-(app_nil_r (dec 2 d)) at 1. rewrite p_digits_ok by (simpl; lia). cbn [mbind option_bind]. by rewrite <-!app_assoc.
Qed.
Lemma parse_date_named weekday month w rest : WEEKDAYS !! w = Some weekday → MONTHS !! Z.to_nat (m - 1) = Some month →
  parse_named_date (cur [] (weekday ++ str ", " ++ dec 2 d ++ str " " ++ month ++ str " " ++ dec 4 y ++ str " " ++ rest)) =
  Some (y, m, d, Some w, cur (weekday ++ str ", " ++ dec 2 d ++ str " " ++ month ++ str " " ++ dec 4 y ++ str " ") rest).
Proof.
  intros Hw Hmo. pose proof (name_length _ _ _ (or_introl eq_refl) Hw) as Lw. pose proof (name_length _ _ _ (or_intror eq_refl) Hmo) as Lm.
  unfold parse_named_date. pose proof (slice_cur [] weekday (str ", " ++ dec 2 d ++ str " " ++ month ++ str " " ++ dec 4 y ++ str " " ++ rest)) as Hs.
  rewrite Lw in Hs. cbn [p_bytes cur]. cbn [length Nat.add] in Hs. rewrite Hs. cbn [mbind option_bind]. rewrite (weekday_index_ok _ _ Hw).
  cbn [mbind option_bind]. pose proof (cur_next [] weekday (str ", " ++ dec 2 d ++ str " " ++ month ++ str " " ++ dec 4 y ++ str " " ++ rest)) as Hn.
  rewrite Lw in Hn. cbn [length Nat.add] in Hn. rewrite Hn. do 3 read_step. cbn [p_bytes p_pos cur].
  set (pre := ((([] ++ weekday) ++ str ", ") ++ dec 2 d) ++ str " ").
  pose proof (slice_cur pre month (str " " ++ dec 4 y ++ str " " ++ rest)) as Hs2. rewrite Lm in Hs2. rewrite Hs2. cbn [mbind option_bind].
  rewrite (month_index_ok _ _ Hmo). cbn [mbind option_bind].
  pose proof (cur_next pre month (str " " ++ dec 4 y ++ str " " ++ rest)) as Hn2. rewrite Lm in Hn2. rewrite Hn2.
  do 3 read_step. unfold pre. rewrite <-!app_assoc. cbn [app]. do 4 f_equal. repeat f_equal; lia.
Qed.
End Dates.

(** Every stamp is ASCII. *)
Abbreviation ascii := (Forall (λ b : Z, b < 128)).
Lemma dec_ascii w v : ascii (dec w v).
Proof. eapply Forall_impl; [apply dec_digits|]. simpl. lia. Qed.
Lemma str_ascii s : forallb (λ b, b <? 128) (str s) = true → ascii (str s).
Proof. rewrite forallb_forall. intros H. apply Forall_forall. intros b Hb. apply Z.ltb_lt, H. by apply list_elem_of_In. Qed.
Lemma names_ascii n i names : names = WEEKDAYS ∨ names = MONTHS → names !! i = Some n → ascii n.
Proof.
  intros Hn Hi. assert (Forall (λ n : bytes, ascii n) names) as Hall.
  { destruct Hn as [-> | ->]; apply (bool_decide_unpack _); vm_compute; exact I. }
  by eapply Forall_lookup_1 in Hall.
Qed.
Lemma fraction_ascii F v count : fraction_text F v count → ascii F.
Proof.
  intros [(-> & _)|(ds & x & -> & _ & _ & Hds & _)]; [constructor|]. apply Forall_app. split; [by apply str_ascii|].
  eapply Forall_impl; [exact Hds|]. simpl. lia.
Qed.

Lemma stamp_ascii kind y m d days h mi s f l : stamp kind y m d days h mi s f l → forallb (λ b, b <? 128) l = true.
Proof.
  intros H. apply forallb_forall. intros b Hb. apply Z.ltb_lt. revert b Hb. cut (ascii l).
  { rewrite Forall_forall. intros Hl b Hb. apply Hl. by apply list_elem_of_In. }
  assert (ascii []) as Hnil by constructor.
  assert (∀ sep, ascii sep → ascii (date_text sep y m d)) as Hdate by (intros; unfold date_text; rewrite !Forall_app; auto using dec_ascii).
  assert (∀ sep, ascii sep → ascii (clock_text sep h mi s)) as Hclock by (intros; unfold clock_text; rewrite !Forall_app; auto using dec_ascii).
  assert (kind = 0 ∨ kind = 1 ∨ kind = 2 ∨ kind = 3 ∨ kind = 4) as Hk.
  { destruct kind as [|k|k]; [auto| |done]. do 3 (try destruct k as [k|k|]; try done); auto. }
  destruct Hk as [->|[->|[->|[->| ->]]]].
  1,2: destruct H as (F & count & HF & _ & ->); rewrite !Forall_app; split_and!; eauto using str_ascii, fraction_ascii.
  - destruct H as (_ & wd & mo & Hw & Hmo & ->). rewrite !Forall_app. split_and!; eauto using str_ascii, names_ascii, dec_ascii.
  - destruct H as [_ ->]. rewrite !Forall_app. split_and!; eauto using str_ascii.
  - destruct H as [_ ->]. eauto.
Qed.

(** A stamp is parsed to its instant. *)
Lemma parse_stamp kind p y m d days h mi s f l :
  resolution kind = Some p → (length l ≤ 32)%nat → 0 ≤ y < 10000 → 1 ≤ m ≤ 12 → 1 ≤ d ≤ 31 → clock_ok h mi s f →
  civil_days y m d = Some days → stamp kind y m d days h mi s f l →
  parse l kind = to_i64 (days * DAY + (clock_value h mi s + f)).
Proof.
  intros Hres Hlen Hy Hm Hd Hc Hdays Hst. unfold parse. rewrite Hres. cbn [mbind option_bind].
  rewrite (stamp_ascii _ _ _ _ _ _ _ _ _ _ Hst), (proj2 (Nat.ltb_ge 35 (length l))) by lia. cbn [orb negb].
  change {| p_bytes := l; p_pos := 0 |} with (cur [] l).
  assert (∀ pre tail, (pre ++ tail) = l → (if negb (p_pos (cur (pre ++ tail) []) =? length l)%nat then None
    else to_i64 (days * DAY + (clock_value h mi s + f))) = to_i64 (days * DAY + (clock_value h mi s + f))) as Hend.
  { intros pre tail <-. cbn [p_pos cur]. by rewrite Nat.eqb_refl. }
  destruct (resolution_cases _ _ Hres) as [[-> _]|[[-> _]|[[-> _]|[[-> _]|[-> _]]]]].
  1,2: destruct Hst as (F & count & HF & H3 & Hl); rewrite (f_equal (cur []) Hl);
    lazymatch goal with |- context [?k =? 2] => change (k =? 2) with false; change (k =? 4) with false end; cbv iota;
    rewrite parse_date_iso by auto; cbn [mbind option_bind negb]; rewrite Hdays; cbn [mbind option_bind];
    rewrite (parse_time_iso _ _ _ _ f F count) by auto; cbn [mbind option_bind]; apply Hend; rewrite Hl; by rewrite <-!app_assoc.
  - destruct Hst as (-> & weekday & month & Hw & Hmo & Hl). rewrite (f_equal (cur []) Hl). change (2 =? 2) with true. change (2 =? 4) with false. cbv iota.
    rewrite (parse_date_named y m d Hy Hm Hd _ _ _ _ Hw Hmo). cbn [mbind option_bind negb]. rewrite Hdays. cbn [mbind option_bind].
    pose proof (Z.mod_pos_bound (days + 4) 7 ltac:(lia)). rewrite Z2Nat.id by lia. rewrite Z.eqb_refl. cbn [negb].
    rewrite (parse_time_gmt _ _ _ 0) by done. cbn [mbind option_bind]. rewrite Z.add_0_r in *. apply Hend. rewrite Hl. by rewrite <-!app_assoc.
  - destruct Hst as [-> Hl]. rewrite (f_equal (cur []) Hl). change (3 =? 2) with false. change (3 =? 4) with false. cbv iota.
    rewrite (parse_date_compact y m d Hy Hm Hd). cbn [mbind option_bind negb]. rewrite Hdays. cbn [mbind option_bind].
    rewrite (parse_time_compact _ _ _ 0) by done. cbn [mbind option_bind]. rewrite Z.add_0_r in *. apply Hend. rewrite Hl. by rewrite <-!app_assoc.
  - destruct Hst as [Hz Hl]. rewrite (f_equal (cur []) Hl). change (4 =? 2) with false. change (4 =? 4) with true. cbv iota.
    rewrite (parse_date_only y m d Hy Hm Hd). cbn [mbind option_bind negb]. rewrite Hdays. cbn [mbind option_bind]. rewrite Hz in *.
    specialize (Hend l [] (app_nil_r l)). rewrite app_nil_r in Hend. by rewrite <-Hl.
Qed.

(** The result of [format], and what it parses to. *)
Lemma format_parse ns kind p : resolution kind = Some p →
  match to_i64 (ns / p * p) with
  | Some rounded => ∃ t l, format ns kind = Some t ∧ holds t l ∧ l ≠ [] ∧ parse l kind = Some rounded
  | None => format ns kind = None
  end.
Proof.
  intros Hres. destruct (to_i64 (ns / p * p)) as [rounded|] eqn:Hr.
  2: { unfold format. rewrite Hres. cbn [mbind option_bind]. by rewrite Hr. }
  destruct (to_i64_range _ _ Hr) as [-> Hi].
  destruct (format_text ns kind p Hres Hi) as (t & y & m & d & h & mi & s & f & l & Hf & Hh & Hc & Hy & Hm & Hd & Hok & Hw & Hst).
  exists t, l. pose proof (h_fits _ _ Hh) as Hfit.
  assert (parse l kind = Some (ns / p * p)) as Hp.
  { rewrite (parse_stamp kind p y m d _ h mi s f l) by done. rewrite <-Hw.
    pose proof (Z.div_mod (ns / p * p) DAY) as Hdm. rewrite (Z.mul_comm _ DAY), <-Hdm by done. exact Hr. }
  split_and!; [done|done| |done]. intros ->. unfold parse in Hp. rewrite Hres in Hp. cbn [mbind option_bind] in Hp.
  destruct (kind =? 2); [done|]. unfold parse_numeric_date in Hp. done.
Qed.

(** C34. Every instant is read back from every format: [format] rounds down to the
    format's precision, refuses only an instant whose rounding leaves the 64-bit range,
    stays within its 32 bytes and its digit widths, and [parse] returns the rounded
    instant. *)
Theorem time_format_parse_roundtrip :
  ∀ ns kind p, resolution kind = Some p →
  match to_i64 (ns / p * p) with
  | Some rounded => ∃ t, format ns kind = Some t ∧ parse (take (t_len t) (t_bytes t)) kind = Some rounded
  | None => format ns kind = None
  end.
Proof.
  intros ns kind p Hres. pose proof (format_parse ns kind p Hres) as H. destruct (to_i64 _); [|done].
  destruct H as (t & l & Hf & Hh & _ & Hp). exists t. split; [done|]. by rewrite (h_len _ _ Hh), (h_text _ _ Hh).
Qed.
Lemma time_format_parse_roundtrip_witness :
  ∃ t, format (-1) 2 = Some t ∧ parse (take (t_len t) (t_bytes t)) 2 = Some (-1000000000).
Proof. exact (time_format_parse_roundtrip (-1) 2 1000000000 eq_refl). Defined.
