(* ===== verification/TimeMemory.v ===== *)
(** * Timestamps through memory

    The two entry points of the calendar on an explicit memory: what they write,
    that a rejected call clears its output, that the parser's input is read
    before any byte of it can change, and the round trip of a compiled program. *)
From Stdlib Require Import ZArith Lia String.
From S2P Require Import Prelude TimeFormats CalendarSpec TimeSpec.
Local Open Scope Z_scope.

(** ** Memory *)
Lemma store_in addr bs m i b : bs !! i = Some b → store addr bs m (addr + Z.of_nat i) = b.
Proof. intros Hb. unfold store. rewrite (proj2 (Z.leb_le _ _)) by lia. replace (Z.to_nat _) with i by lia. by rewrite Hb. Qed.

Lemma store_out addr bs m a : a < addr ∨ addr + Z.of_nat (length bs) ≤ a → store addr bs m a = m a.
Proof.
  intros H. unfold store. destruct (Z.leb_spec addr a); [|done]. rewrite lookup_ge_None_2 by lia. done.
Qed.

Lemma load_store_same addr bs m : load addr (length bs) (store addr bs m) = bs.
Proof.
  unfold load. apply list_eq. intros i. rewrite list_lookup_fmap. destruct (bs !! i) as [b|] eqn:Hb.
  - rewrite lookup_seq_lt by (by eapply lookup_lt_Some). simpl. f_equal. by apply store_in.
  - rewrite lookup_seq_ge; [done|]. by apply lookup_ge_None.
Qed.

Lemma load_agree addr n m m' : (∀ i, (i < n)%nat → m (addr + Z.of_nat i) = m' (addr + Z.of_nat i)) → load addr n m = load addr n m'.
Proof.
  intros H. unfold load. apply map_ext_in. intros i Hi. apply H. apply in_seq in Hi. lia.
Qed.

(** [[a, a + n)] and [[b, b + k)] share no address. *)
Definition disjoint_spans (a n b k : Z) : Prop := a + n ≤ b ∨ b + k ≤ a.

Lemma load_store_disjoint addr n a bs m : disjoint_spans addr (Z.of_nat n) a (Z.of_nat (length bs)) →
  load addr n (store a bs m) = load addr n m.
Proof. intros H. apply load_agree. intros i Hi. apply store_out. destruct H; lia. Qed.

Lemma load_app addr n k m : load addr (n + k) m = load addr n m ++ load (addr + Z.of_nat n) k m.
Proof.
  unfold load. rewrite seq_app, map_app. f_equal. rewrite Nat.add_0_l.
  pose proof (fmap_add_seq n 0 k) as Hs. rewrite Nat.add_0_r in Hs. rewrite <-Hs. change (fmap (Nat.add n)) with (map (Nat.add n)).
  rewrite map_map. apply map_ext. intros i. f_equal. lia.
Qed.

Lemma word_value v : 0 ≤ v < 2 ^ 64 → foldr (λ b acc, b + 256 * acc) 0 (word_bytes v) = v.
Proof.
  intros Hv. assert (∀ n, foldr (λ b acc, b + 256 * acc) 0 (map (λ i, v / 256 ^ Z.of_nat i mod 256) (seq 0 n)) = v mod 256 ^ Z.of_nat n) as H.
  { assert (∀ n k, foldr (λ b acc, b + 256 * acc) 0 (map (λ i, v / 256 ^ Z.of_nat i mod 256) (seq k n)) =
      v / 256 ^ Z.of_nat k mod 256 ^ Z.of_nat n) as Hk.
    { induction n as [|n IH]; intros k; [simpl; by rewrite Z.mod_1_r|]. simpl. rewrite IH.
      rewrite !Nat2Z.inj_succ, !Z.pow_succ_r, (Z.mul_comm 256 (256 ^ Z.of_nat k)), <-Z.div_div by lia.
      rewrite Z.rem_mul_r by lia. done. }
    intros n. rewrite Hk. simpl. by rewrite Z.div_1_r. }
  unfold word_bytes. rewrite H. apply Z.mod_small. change (256 ^ Z.of_nat 8) with (2 ^ 64). lia.
Qed.

Lemma load_i64_store a v m : I64_MIN ≤ v ≤ I64_MAX → load_i64 a (store a (word_bytes (v mod 2 ^ 64)) m) = v.
Proof.
  intros Hv. unfold load_i64, load_u64. change 8%nat with (length (word_bytes (v mod 2 ^ 64))). rewrite load_store_same, word_value by (apply Z.mod_pos_bound; lia).
  unfold I64_MIN, I64_MAX in Hv. destruct (Z_lt_le_dec v 0).
  - rewrite <-(Z.mod_add v 1), Z.mod_small by lia. destruct (Z.ltb_spec (v + 1 * 2 ^ 64) (2 ^ 63)); lia.
  - rewrite Z.mod_small by lia. destruct (Z.ltb_spec v (2 ^ 63)); lia.
Qed.

Lemma load_u64_store a v m : 0 ≤ v < 2 ^ 64 → load_u64 a (store a (word_bytes v) m) = v.
Proof. intros Hv. unfold load_u64. change 8%nat with (length (word_bytes v)). by rewrite load_store_same, word_value. Qed.

Lemma parse_range l kind v : parse l kind = Some v → I64_MIN ≤ v ≤ I64_MAX.
Proof.
  unfold parse. intros H. repeat (case_match; simplify_option_eq; try done); apply to_i64_range in H as [-> ?]; done.
Qed.

Lemma parse_resolution l kind v : parse l kind = Some v → is_Some (resolution kind).
Proof. unfold parse. destruct (resolution kind); [by eexists|done]. Qed.

Lemma output_range_spec size out r : output_range size out = Some r → r = (out, out + size).
Proof. unfold output_range. case_if; [done|]. by case_if; [intros [= <-]|]. Qed.

Lemma word_bytes_length v : length (word_bytes v) = 8%nat.
Proof. done. Qed.

(** What the parser asks of its input span. *)
Definition parse_request (out input len : Z) : Prop :=
  0 < len ≤ 35 ∧ input ≠ 0 ∧ input + len ≤ USIZE_MAX ∧ disjoint_spans input len out 8.

Lemma time_parse_cases out input len kind m r : output_range 8 out = Some r →
  (∃ v, parse_request out input len ∧ parse (load input (Z.to_nat len) m) kind = Some v ∧
     align_rt_time_parse out input len kind m = (0, store out (word_bytes (v mod 2 ^ 64)) (store out (word_bytes 0) m))) ∨
  (¬ (parse_request out input len ∧ is_Some (parse (load input (Z.to_nat len) m) kind)) ∧
     align_rt_time_parse out input len kind m = (AL_INVALID, store out (word_bytes 0) m)).
Proof.
  intros Hr. unfold align_rt_time_parse. rewrite Hr. pose proof (output_range_spec _ _ _ Hr) as ->.
  destruct (resolution kind) as [p|] eqn:Hk.
  2: { right. split; [|done]. intros [_ [v Hv]]. apply parse_resolution in Hv as [? ?]. congruence. }
  unfold to_usize. destruct (Z.leb_spec 0 len).
  2: { right. split; [|done]. intros [[? _] _]. lia. }
  destruct ((Z.to_nat len =? 0)%nat || (35 <? Z.to_nat len)%nat || (input =? 0)) eqn:E1.
  { right. split; [|done]. intros [(? & ? & _) _]. apply orb_true_iff in E1 as [E1|E1]; [apply orb_true_iff in E1 as [E1|E1]|]; 
      [apply Nat.eqb_eq in E1|apply Nat.ltb_lt in E1|apply Z.eqb_eq in E1]; lia. }
  b2p. destruct (Z.leb_spec (input + len) USIZE_MAX); cbn [negb].
  2: { right. split; [|done]. intros [(_ & _ & ? & _) _]. lia. }
  destruct ((input <? out + 8) && (out <? input + len)) eqn:E2.
  { right. split; [|done]. intros [(_ & _ & _ & [?|?]) _]; b2p; lia. }
  assert (disjoint_spans input len out 8) as Hd.
  { apply andb_false_iff in E2 as [E2|E2]; b2p; [by right|by left]. }
  rewrite load_store_disjoint by (rewrite word_bytes_length, Z2Nat.id by lia; exact Hd).
  assert (parse_request out input len) by (unfold parse_request; split_and!; [lia..|done|done|done]).
  destruct (parse _ kind) as [v|] eqn:Hp; [left; by exists v|right].
  split; [|done]. intros [_ [v Hv]]. done.
Qed.

(** The parsing entry point on memory: it succeeds exactly when its output cell is a
    cell, its input span is one it accepts and apart from the cell, and the bytes that
    stood there at the call are a timestamp; then the cell holds the instant.  A
    rejected call leaves zero in a valid cell, and no call writes anywhere else. *)
Lemma time_parse_memory :
  ∀ out input len kind m, let '(status, m') := align_rt_time_parse out input len kind m in
    (∀ a, a < out ∨ out + 8 ≤ a → m' a = m a) ∧
    match output_range 8 out with
    | None => status = AL_INVALID ∧ m' = m
    | Some _ =>
        (status = 0 ∧ parse_request out input len ∧ parse (load input (Z.to_nat len) m) kind = Some (load_i64 out m')) ∨
        (status = AL_INVALID ∧ load_i64 out m' = 0 ∧
         ¬ (parse_request out input len ∧ is_Some (parse (load input (Z.to_nat len) m) kind)))
    end.
Proof.
  intros out input len kind m. destruct (output_range 8 out) as [r|] eqn:Hr; [|unfold align_rt_time_parse; by rewrite Hr].
  destruct (time_parse_cases out input len kind m r Hr) as [(v & Hreq & Hp & ->)|[Hno ->]]; split.
  - intros a Ha. by rewrite !store_out.
  - left. split; [done|]. split; [done|]. rewrite Hp, load_i64_store; [done|]. by eapply parse_range.
  - intros a Ha. by rewrite !store_out.
  - right. split; [done|]. split; [|done]. apply (load_i64_store out 0). unfold I64_MIN, I64_MAX. lia.
Qed.

(** ** A compiled program prints a timestamp and reads it back *)
(** C's [malloc], as the printer uses it: a block that is not null, does not wrap and is
    apart from the caller's string cell. *)
Definition fresh_block (malloc : Z → Z) (out : Z) : Prop :=
  ∀ n, 0 < n ≤ 32 → 0 < malloc n ∧ malloc n + n ≤ USIZE_MAX ∧ disjoint_spans (malloc n) n out 16.

(** The round trip through memory: with a string cell and a fresh block, the printing
    entry point returns 0 whenever the rounded instant fits, and the parsing entry
    point, given the pointer and the length found in the string cell and an instant cell
    apart from the text, returns 0 and leaves the rounded instant there. *)
Lemma time_memory_roundtrip :
  ∀ malloc out ns kind p rounded m, output_range 16 out = Some (out, out + 16) → fresh_block malloc out →
    resolution kind = Some p → to_i64 (ns / p * p) = Some rounded →
    ∃ m', align_rt_time_format malloc out ns kind m = Ret (0, m') ∧
      ∀ cell, output_range 8 cell = Some (cell, cell + 8) →
        disjoint_spans (load_u64 out m') (load_i64 (out + 8) m') cell 8 →
        let '(status, m2) := align_rt_time_parse cell (load_u64 out m') (load_i64 (out + 8) m') kind m' in
        status = 0 ∧ load_i64 cell m2 = rounded.
Proof.
  intros malloc out ns kind p rounded m Hout Hfresh Hres Hr. pose proof (format_parse ns kind p Hres) as Hf. rewrite Hr in Hf.
  destruct Hf as (t & l & Hf & Hh & Hne & Hp). pose proof (h_fits _ _ Hh) as Hfit.
  assert (0 < Z.of_nat (length l)) as Hpos by (destruct l; [done|simpl; lia]).
  destruct (Hfresh (Z.of_nat (length l)) ltac:(lia)) as (Hm0 & Hm1 & Hm2). set (ptr := malloc (Z.of_nat (length l))) in *.
  set (len := Z.of_nat (length l)) in *.
  exists (store out (str_bytes ptr len) (store ptr l (store out (str_bytes 0 0) m))). split.
  { unfold align_rt_time_format. rewrite Hout, Hf, (h_len _ _ Hh), (h_text _ _ Hh). unfold owned_str_exact. fold len.
    rewrite (proj2 (Z.eqb_neq len 0)), (proj2 (Z.ltb_ge I64_MAX len)) by (unfold I64_MAX, len; lia). unfold align_rt_alloc. fold ptr.
    rewrite (proj2 (Z.leb_gt len 0)), (proj2 (Z.ltb_ge I64_MAX len)), (proj2 (Z.eqb_neq ptr 0)) by (unfold I64_MAX, len; lia). done. }
  set (m1 := store ptr l _). assert (load out 16 (store out (str_bytes ptr len) m1) = str_bytes ptr len) as Hcell
    by apply (load_store_same out (str_bytes ptr len)).
  change 16%nat with (8 + 8)%nat in Hcell. rewrite load_app in Hcell. unfold str_bytes in Hcell at 3.
  apply app_inj_1 in Hcell as [H1 H2]; [|done]. change (Z.of_nat 8) with 8 in H2.
  assert (load_u64 out (store out (str_bytes ptr len) m1) = ptr) as Hptr by (unfold load_u64; rewrite H1; apply word_value; unfold USIZE_MAX in *; lia).
  assert (load_i64 (out + 8) (store out (str_bytes ptr len) m1) = len) as Hlen.
  { unfold load_i64, load_u64. rewrite H2, word_value by lia. rewrite (proj2 (Z.ltb_lt len (2 ^ 63))) by lia. done. }
  rewrite Hptr, Hlen. intros cell Hcell Hdis.
  assert (load ptr (Z.to_nat len) (store out (str_bytes ptr len) m1) = l) as Htext.
  { unfold len. rewrite Nat2Z.id. rewrite load_store_disjoint by exact Hm2. apply load_store_same. }
  destruct (time_parse_cases cell ptr len kind (store out (str_bytes ptr len) m1) _ Hcell) as [(v & _ & Hv & ->)|[Hno _]].
  - rewrite Htext, Hp in Hv. injection Hv as <-. split; [done|]. apply load_i64_store. by eapply parse_range.
  - exfalso. apply Hno. rewrite Htext, Hp. split; [|by eexists]. unfold parse_request. split_and!; [lia..|done].
Qed.
Lemma time_memory_roundtrip_witness :
  ∃ m', align_rt_time_format (λ _, 4096) 8 951782400123456789 0 (λ _, 0) = Ret (0, m') ∧
    let '(status, m2) := align_rt_time_parse 64 (load_u64 8 m') (load_i64 16 m') 0 m' in
    status = 0 ∧ load_i64 64 m2 = 951782400123456789.
Proof.
  destruct (time_memory_roundtrip (λ _, 4096) 8 951782400123456789 0 1 951782400123456789 (λ _, 0)) as (m' & Hf & Hp).
  - reflexivity.
  - intros n Hn. unfold disjoint_spans, USIZE_MAX. lia.
  - reflexivity.
  - vm_compute. reflexivity.
  - exists m'. split; [exact Hf|]. apply (Hp 64); [reflexivity|]. right.
    rewrite <-(f_equal (λ r, match r with Ret (_, m) => load_u64 8 m | _ => 0 end) Hf : _ = load_u64 8 m'). vm_compute. discriminate.
Defined.
