(* ===== verification/Encoding.v ===== *)
(** * Text encodings of the runtime ([crates/align_runtime/src/lib.rs], [std.encoding])

    Base64, hex, percent, form and HTML encodings as the runtime computes them: an
    exact length first, then a writer that fills a destination of that length.  A
    destination is a list of slots that may be uninitialised; a write out of range,
    a wrong final offset and a length that does not fit abort ([Panic]).  A [u8] is a
    [Z] in [0, 256).  The vector backends (AVX2, NEON) are not modelled: the scalar
    writers are what they must agree with and what runs without them.  The crate
    [memchr] is a parameter. *)
From Stdlib Require Import ZArith Lia String.
From S2P Require Import Prelude Utf8.
Local Open Scope Z_scope.

(** ** Slices *)
(** [l.chunks(n)] *)
Fixpoint chunks_fuel {A} (fuel n : nat) (l : list A) : list (list A) :=
  match fuel, l with
  | O, _ | _, [] => []
  | S fuel, _ => take n l :: chunks_fuel fuel n (drop n l)
  end.
Definition slice_chunks {A} (n : nat) (l : list A) : list (list A) := chunks_fuel (length l) n l.
(** [l.chunks_exact(n)] and its [remainder()]. *)
Definition chunks_exact {A} (n : nat) (l : list A) : list (list A) :=
  filter (λ c, length c = n) (slice_chunks n l).
Definition remainder {A} (n : nat) (l : list A) : list A := drop (length l / n * n) l.

(** A destination: [&mut [MaybeUninit<u8>]]. *)
Abbreviation Out := (list (option Z)).
(** [out[o].write(b)] *)
Definition write (o : nat) (b : Z) (out : Out) : res Out :=
  if (o <? length out)%nat then Ret (<[o := Some b]> out) else Panic.
(** A few writes in a row, from [out[o]] on. *)
Fixpoint write_bytes (o : nat) (bs : bytes) (out : Out) : res Out :=
  match bs with
  | [] => Ret out
  | b :: bs => let* out := write o b out in write_bytes (S o) bs out
  end.
(** [out[o..][..bs.len()].write_copy_of_slice(bs)] *)
Definition write_copy (o : nat) (bs : bytes) (out : Out) : res Out :=
  if (o + length bs <=? length out)%nat then Ret (take o out ++ map Some bs ++ drop (o + length bs) out) else Panic.
(** [out.write_copy_of_slice(bs)], which takes a source of the destination's length. *)
Definition copy_slice (bs : bytes) (out : Out) : res Out :=
  if (length bs =? length out)%nat then Ret (map Some bs) else Panic.
(** [out.split_at_mut(n)] *)
Definition split_at (n : nat) (out : Out) : res (Out * Out) :=
  if (n <=? length out)%nat then Ret (take n out, drop n out) else Panic.
(** [assert_eq!(o, out.len())] *)
Definition assert_len (o : nat) (out : Out) : res Out := if (o =? length out)%nat then Ret out else Panic.

Definition ISIZE_MAX : Z := 2 ^ 63 - 1.
Definition USIZE_MAX : Z := 2 ^ 64 - 1.
Definition checked_usize (v : Z) : option Z := if v <=? USIZE_MAX then Some v else None.
(** [owned_str_exact]: the string whose destination [fill] wrote; a length no [i64] holds aborts. *)
Definition owned_str_exact (fill_len : Z) (fill : Out → res Out) : res Out :=
  if fill_len =? 0 then Ret []
  else if ISIZE_MAX <? fill_len then Panic
  else fill (replicate (Z.to_nat fill_len) None).
(** [let Some(n) = .. else { align_rt_alloc_size_fail() }] *)
Definition or_abort (n : option Z) (k : Z → res Out) : res Out := match n with Some n => k n | None => Panic end.

(** A [u8] shift to the left drops the high bits. *)
Definition shl8 (a k : Z) : Z := Z.land (Z.shiftl a k) 255.

(** ** Base64 *)
Definition BASE64_STD : bytes := str "ABCDEFGHIJKLMNOPQRSTUVWXYZabcdefghijklmnopqrstuvwxyz0123456789+/".
Definition BASE64_URL : bytes := str "ABCDEFGHIJKLMNOPQRSTUVWXYZabcdefghijklmnopqrstuvwxyz0123456789-_".

Definition base64_decode_table (alphabet : bytes) : list Z :=
  fold_left (λ table i, <[Z.to_nat (nth i alphabet 0) := Z.of_nat i]> table) (seq 0 64) (replicate 256 255).
Definition BASE64_STD_TABLE : list Z := Eval vm_compute in base64_decode_table BASE64_STD.
Definition BASE64_URL_TABLE : list Z := Eval vm_compute in base64_decode_table BASE64_URL.
(** [table[usize::from(b)]] and [alphabet[n as usize]], which are in range for a byte and six bits. *)
Definition entry (table : list Z) (b : Z) : Z := nth (Z.to_nat b) table 0.

Definition base64_encoded_len (input_len : Z) (pad : bool) : option Z :=
  let groups := input_len / 3 in
  let tail := input_len mod 3 in
  n ← checked_usize (groups * 4);
  checked_usize (n + (if tail =? 0 then 0 else if pad then 4 else if tail =? 1 then 2 else 3)).

Definition sextet (alphabet : bytes) (n k : Z) : Z := entry alphabet (Z.land (Z.shiftr n k) 63).
(** One turn of the loop over whole groups. *)
Definition base64_group (alphabet c : bytes) : bytes :=
  let n := Z.lor (Z.lor (Z.shiftl (nth 0 c 0) 16) (Z.shiftl (nth 1 c 0) 8)) (nth 2 c 0) in
  [sextet alphabet n 18; sextet alphabet n 12; sextet alphabet n 6; sextet alphabet n 0].
Fixpoint base64_groups (alphabet : bytes) (cs : list bytes) (o : nat) (out : Out) : res Out :=
  match cs with
  | [] => Ret out
  | c :: cs => let* out := write_bytes o (base64_group alphabet c) out in base64_groups alphabet cs (o + 4) out
  end.
Definition base64_tail (alphabet : bytes) (pad : bool) (rem : bytes) : bytes :=
  match rem with
  | [a] => let n := Z.shiftl a 16 in [sextet alphabet n 18; sextet alphabet n 12] ++ (if pad then str "==" else [])
  | [a; b] =>
      let n := Z.lor (Z.shiftl a 16) (Z.shiftl b 8) in
      [sextet alphabet n 18; sextet alphabet n 12; sextet alphabet n 6] ++ (if pad then str "=" else [])
  | _ => []
  end.
Definition base64_encode_into_scalar (data alphabet : bytes) (pad : bool) (out : Out) : res Out :=
  if decide (base64_encoded_len (Z.of_nat (length data)) pad = Some (Z.of_nat (length out))) then
    let groups := (length data / 3)%nat in
    let* out := base64_groups alphabet (chunks_exact 3 data) 0 out in
    write_bytes (groups * 4) (base64_tail alphabet pad (remainder 3 data)) out
  else Panic.

Definition align_rt_base64_encode (data : bytes) : res Out :=
  or_abort (base64_encoded_len (Z.of_nat (length data)) true)
    (λ n, owned_str_exact n (base64_encode_into_scalar data BASE64_STD true)).
Definition align_rt_base64url_encode (data : bytes) : res Out :=
  or_abort (base64_encoded_len (Z.of_nat (length data)) false)
    (λ n, owned_str_exact n (base64_encode_into_scalar data BASE64_URL false)).

(** The loop over the trailing [=], from the reversed input: the number of pads. *)
Fixpoint count_pads (rev_input : bytes) (pads : nat) : option nat :=
  match rev_input with
  | 61 :: l => if (pads =? 2)%nat then None else count_pads l (S pads)
  | _ => Some pads
  end.
Definition base64_decode_tail (table : list Z) (rem : bytes) : option bytes :=
  match rem with
  | [] => Some []
  | [a; b] =>
      let a := entry table a in let b := entry table b in
      if (Z.lor a b =? 255) || negb (Z.land b 15 =? 0) then None
      else Some [Z.lor (shl8 a 2) (Z.shiftr b 4)]
  | [a; b; c] =>
      let a := entry table a in let b := entry table b in let c := entry table c in
      if (Z.lor (Z.lor a b) c =? 255) || negb (Z.land c 3 =? 0) then None
      else Some [Z.lor (shl8 a 2) (Z.shiftr b 4); Z.lor (shl8 b 4) (Z.shiftr c 2)]
  | _ => None
  end.
Fixpoint base64_decode_quanta (table : list Z) (qs : list bytes) : option bytes :=
  match qs with
  | [] => Some []
  | q :: qs =>
      let a := entry table (nth 0 q 0) in let b := entry table (nth 1 q 0) in
      let c := entry table (nth 2 q 0) in let d := entry table (nth 3 q 0) in
      if Z.lor (Z.lor (Z.lor a b) c) d =? 255 then None
      else
        out ← base64_decode_quanta table qs;
        Some ([Z.lor (shl8 a 2) (Z.shiftr b 4); Z.lor (shl8 b 4) (Z.shiftr c 2); Z.lor (shl8 c 6) d] ++ out)
  end.
Definition base64_decode_with (table : list Z) (input : bytes) : option bytes :=
  if match input with b :: _ => entry table b =? 255 | [] => false end then None
  else
    pads ← count_pads (rev input) 0;
    let content := take (length input - pads) input in
    if (length content mod 4 =? 1)%nat then None
    else if (0 <? pads)%nat && negb ((length content + pads) mod 4 =? 0)%nat then None
    else
      tail ← base64_decode_tail table (remainder 4 content);
      out ← base64_decode_quanta table (chunks_exact 4 content);
      Some (out ++ tail).
Definition base64_decode_impl (input : bytes) (url : bool) : option bytes :=
  base64_decode_with (if url then BASE64_URL_TABLE else BASE64_STD_TABLE) input.

(** ** Hex *)
Definition HEX_LOWER : bytes := str "0123456789abcdef".
Definition HEX_UPPER : bytes := str "0123456789ABCDEF".

(** A writer that spells each byte of its input with [spell], from [out[o]] on; it returns the final offset. *)
Fixpoint spell_into (spell : Z → bytes) (data : bytes) (o : nat) (out : Out) : res (nat * Out) :=
  match data with
  | [] => Ret (o, out)
  | b :: data => let* out := write_bytes o (spell b) out in spell_into spell data (o + length (spell b)) out
  end.

Definition hex_pair (hex : bytes) (b : Z) : bytes := [entry hex (Z.shiftr b 4); entry hex (Z.land b 15)].
Definition hex_encode_into_scalar (data : bytes) (out : Out) : res Out :=
  if decide (checked_usize (Z.of_nat (length data) * 2) = Some (Z.of_nat (length out)))
  then let* '(_, out) := spell_into (hex_pair HEX_LOWER) data 0 out in Ret out
  else Panic.
Definition align_rt_hex_encode (data : bytes) : res Out :=
  or_abort (checked_usize (Z.of_nat (length data) * 2)) (λ n, owned_str_exact n (hex_encode_into_scalar data)).

Definition HEX_DECODE_TABLE : list Z :=
  let table := replicate 256 255 in
  let table := fold_left (λ t i, <[(48 + i)%nat := Z.of_nat i]> t) (seq 0 10) table in
  fold_left (λ t i, <[(97 + i)%nat := 10 + Z.of_nat i]> (<[(65 + i)%nat := 10 + Z.of_nat i]> t)) (seq 0 6) table.

(** [a << 4 | b] *)
Definition nibbles (a b : Z) : Z := Z.lor (shl8 a 4) b.
Definition hex_value (b : Z) : Z := entry HEX_DECODE_TABLE b.
Fixpoint hex_groups (groups : list bytes) : option bytes :=
  match groups with
  | [] => Some []
  | g :: groups =>
      let v i := hex_value (nth i g 0) in
      if Z.lor (Z.lor (Z.lor (Z.lor (Z.lor (Z.lor (Z.lor (v 0%nat) (v 1%nat)) (v 2%nat)) (v 3%nat)) (v 4%nat)) (v 5%nat)) (v 6%nat)) (v 7%nat) =? 255
      then None
      else
        out ← hex_groups groups;
        Some ([nibbles (v 0%nat) (v 1%nat); nibbles (v 2%nat) (v 3%nat); nibbles (v 4%nat) (v 5%nat); nibbles (v 6%nat) (v 7%nat)] ++ out)
  end.
Fixpoint hex_pairs (pairs : list bytes) : option bytes :=
  match pairs with
  | [] => Some []
  | p :: pairs =>
      let hi := hex_value (nth 0 p 0) in let lo := hex_value (nth 1 p 0) in
      if Z.lor hi lo =? 255 then None else out ← hex_pairs pairs; Some (nibbles hi lo :: out)
  end.
Definition hex_decode_impl (input : bytes) : option bytes :=
  if negb (length input mod 2 =? 0)%nat then None
  else
    out ← hex_groups (chunks_exact 8 input);
    rest ← hex_pairs (chunks_exact 2 (remainder 8 input));
    Some (out ++ rest).

(** ** Percent and form encoding *)
Definition is_ascii_alphanumeric (b : Z) : bool :=
  ((48 <=? b) && (b <=? 57)) || ((65 <=? b) && (b <=? 90)) || ((97 <=? b) && (b <=? 122)).
Definition is_unreserved (b : Z) : bool :=
  is_ascii_alphanumeric b || (b =? "-"%u8) || (b =? "."%u8) || (b =? "_"%u8) || (b =? "~"%u8).

(** [a.wrapping_sub(b)] on [u8] *)
Definition wrapping_sub8 (a b : Z) : Z := (a - b) mod 256.
Definition lane_unescaped (slash space : bool) (byte : Z) : bool :=
  (wrapping_sub8 (Z.lor byte 32) 97 <=? 25) || (wrapping_sub8 byte 48 <=? 9) ||
  (byte =? "-"%u8) || (byte =? "."%u8) || (byte =? "_"%u8) || (byte =? "~"%u8) ||
  (slash && (byte =? "/"%u8)) || (space && (byte =? " "%u8)).

(** [count += ..] in a [u8] *)
Fixpoint sum_u8 (weight : Z → Z) (chunk : bytes) (count : Z) : res Z :=
  match chunk with
  | [] => Ret count
  | b :: chunk => if count + weight b <=? 255 then sum_u8 weight chunk (count + weight b) else Panic
  end.
Fixpoint sum_chunks (weight : Z → Z) (chunks : list bytes) (total : Z) : res Z :=
  match chunks with
  | [] => Ret total
  | c :: chunks => let* count := sum_u8 weight c 0 in sum_chunks weight chunks (total + count)
  end.
Definition escaped_weight (slash space : bool) (b : Z) : Z := if lane_unescaped slash space b then 0 else 1.
Definition escaped_byte_count (slash space : bool) (data : bytes) : res Z :=
  sum_chunks (escaped_weight slash space) (slice_chunks 128 data) 0.

(** [data.len().checked_add(escaped.checked_mul(2)?)] *)
Definition grown_len (data : bytes) (escaped : Z) : option Z :=
  twice ← checked_usize (escaped * 2); checked_usize (Z.of_nat (length data) + twice).
Definition percent_encoded_len_with_slash (data : bytes) (preserve_slash : bool) : res (option Z) :=
  let* escaped := escaped_byte_count preserve_slash false data in Ret (grown_len data escaped).
Definition percent_encoded_len (data : bytes) : res (option Z) := percent_encoded_len_with_slash data false.
Definition form_encoded_len (data : bytes) : res (option Z) :=
  let* escaped := escaped_byte_count false true data in Ret (grown_len data escaped).

Fixpoint same_width_chunks (slash space : bool) (chunks : list bytes) : res nat :=
  match chunks with
  | [] => Ret 0%nat
  | c :: chunks =>
      let* n := escaped_byte_count slash space c in
      if n =? 0 then let* rest := same_width_chunks slash space chunks in Ret (length c + rest)%nat else Ret 0%nat
  end.
Definition escaped_same_width_prefix (slash space : bool) (data : bytes) : res nat :=
  if (length data <? 512)%nat then Ret 0%nat else same_width_chunks slash space (chunks_exact 128 data).

Definition percent_spell (slash : bool) (b : Z) : bytes :=
  if is_unreserved b || (slash && (b =? "/"%u8)) then [b] else "%"%u8 :: hex_pair HEX_UPPER b.
Definition percent_encode_into_with_slash (data : bytes) (out : Out) (preserve_slash : bool) : res Out :=
  let* '(o, out) := spell_into (percent_spell preserve_slash) data 0 out in assert_len o out.
Definition percent_encode_into (data : bytes) (out : Out) : res Out := percent_encode_into_with_slash data out false.
Definition percent_encode_expanded_into (slash : bool) (data : bytes) (out : Out) : res Out :=
  let* prefix := escaped_same_width_prefix slash false data in
  let* '(ordinary, remaining) := split_at prefix out in
  let* ordinary := copy_slice (take prefix data) ordinary in
  let* remaining :=
    (if slash then percent_encode_into_with_slash (drop prefix data) remaining true
     else percent_encode_into (drop prefix data) remaining) in
  Ret (ordinary ++ remaining).

Definition form_spell (b : Z) : bytes :=
  if b =? " "%u8 then ["+"%u8] else if is_unreserved b then [b] else "%"%u8 :: hex_pair HEX_UPPER b.
Definition form_encode_into (data : bytes) (out : Out) : res Out :=
  let* '(o, out) := spell_into form_spell data 0 out in assert_len o out.
Definition form_same_width_into (data : bytes) (out : Out) : res Out :=
  let* out := assert_len (length data) out in
  write_copy 0 (map (λ b, if b =? " "%u8 then "+"%u8 else b) data) out.
Definition form_encode_expanded_into (data : bytes) (out : Out) : res Out :=
  let* prefix := escaped_same_width_prefix false true data in
  let* '(same_width, remaining) := split_at prefix out in
  let* same_width := form_same_width_into (take prefix data) same_width in
  let* remaining := form_encode_into (drop prefix data) remaining in
  Ret (same_width ++ remaining).

Definition percent_encode_entry (slash : bool) (data : bytes) : res Out :=
  let* len := percent_encoded_len_with_slash data slash in
  or_abort len (λ out_len, owned_str_exact out_len (λ out,
    if out_len =? Z.of_nat (length data) then copy_slice data out else percent_encode_expanded_into slash data out)).
Definition align_rt_percent_encode : bytes → res Out := percent_encode_entry false.
Definition align_rt_percent_encode_path : bytes → res Out := percent_encode_entry true.
Definition align_rt_form_encode (data : bytes) : res Out :=
  let* len := form_encoded_len data in
  or_abort len (λ out_len, owned_str_exact out_len (λ out,
    if out_len =? Z.of_nat (length data) then form_same_width_into data out else form_encode_expanded_into data out)).

Definition percent_escape_byte (high low : Z) : option Z :=
  let hi := hex_value high in let lo := hex_value low in
  if Z.lor hi lo =? 255 then None else Some (nibbles hi lo).

(** ** The decoders and the HTML writer search with [memchr] *)
Section Search.
Context (memchr : Z → bytes → option nat) (memchr2 : Z → Z → bytes → option nat) (memchr3 : Z → Z → Z → bytes → option nat).

(** The search for the next escape: of [%], or of [%] and [+] in a form. *)
Definition find_escape (form : bool) (tail : bytes) : option nat :=
  if form then memchr2 "%"%u8 "+"%u8 tail else memchr "%"%u8 tail.
Definition is_escape (form : bool) (b : Z) : bool := (b =? "%"%u8) || (form && (b =? "+"%u8)).
Definition escaped_literal_prefix (form : bool) (input : bytes) : nat :=
  if (length input <? 64)%nat then 0%nat
  else if existsb (is_escape form) (take 16 input) then 0%nat
  else let tail := drop 16 input in (16 + default (length tail) (find_escape form tail))%nat.

(** The loop of [percent_decode_runs] and of [form_decode_runs]: what is pushed from [input[i]] on. *)
Fixpoint decode_loop (form bulk : bool) (input : bytes) (fuel : nat) (i ordinary : nat) : res (option bytes) :=
  if negb (i <? length input)%nat then Ret (Some [])
  else
    match fuel with
    | O => OutOfFuel
    | S fuel =>
        let* b := unwrap (input !! i) in
        if form && (b =? "+"%u8) then
          let* rest := decode_loop form bulk input fuel (i + 1) 0 in Ret (cons " "%u8 <$> rest)
        else if b =? "%"%u8 then
          if (length input <=? i + 2)%nat then Ret None
          else
            let* high := unwrap (input !! (i + 1)%nat) in
            let* low := unwrap (input !! (i + 2)%nat) in
            match percent_escape_byte high low with
            | None => Ret None
            | Some v => let* rest := decode_loop form bulk input fuel (i + 3) 0 in Ret (cons v <$> rest)
            end
        else
          let i := (i + 1)%nat in
          let ordinary := if bulk then S ordinary else ordinary in
          if bulk && (ordinary =? 16)%nat && (64 <=? length input - i)%nat then
            let tail := drop i input in
            let copied := default (length tail) (find_escape form tail) in
            if (copied <=? length tail)%nat then
              let* rest := decode_loop form bulk input fuel (i + copied) 0 in Ret (app (b :: take copied tail) <$> rest)
            else Panic
          else let* rest := decode_loop form bulk input fuel i ordinary in Ret (cons b <$> rest)
    end.
Definition decode_runs (form bulk : bool) (input : bytes) : res (option bytes) :=
  let i := escaped_literal_prefix form input in
  if (i <=? length input)%nat then
    let* rest := decode_loop form bulk input (length input) i 0 in Ret (app (take i input) <$> rest)
  else Panic.
Definition percent_decode_impl (input : bytes) : res (option bytes) :=
  if (length input <? 80)%nat then decode_runs false false input else decode_runs false true input.
Definition form_decode_impl (input : bytes) : res (option bytes) :=
  if (length input <? 80)%nat then decode_runs true false input else decode_runs true true input.

(** ** HTML *)
Definition html_entity (b : Z) : option bytes :=
  if b =? "&"%u8 then Some (str "&amp;") else if b =? "<"%u8 then Some (str "&lt;") else if b =? ">"%u8 then Some (str "&gt;")
  else if b =? dquote then Some (str "&quot;") else if b =? "'"%u8 then Some (str "&#39;") else None.
Definition html_weight (b : Z) : Z :=
  if (b =? "<"%u8) || (b =? ">"%u8) then 3 else if (b =? "&"%u8) || (b =? "'"%u8) then 4 else if b =? dquote then 5 else 0.
Fixpoint html_lens (chunks : list bytes) (len : Z) : res (option Z) :=
  match chunks with
  | [] => Ret (Some len)
  | c :: chunks =>
      let* additional := sum_u8 html_weight c 0 in
      match checked_usize (len + additional) with Some len => html_lens chunks len | None => Ret None end
  end.
Definition html_escaped_len (data : bytes) : res (option Z) := html_lens (slice_chunks 32 data) (Z.of_nat (length data)).

(** [iter().enumerate()] up to the first entity. *)
Fixpoint first_entity (l : bytes) : option nat :=
  match l with [] => None | b :: l => match html_entity b with Some _ => Some 0%nat | None => S <$> first_entity l end end.
Definition html_entity_in_window (window : bytes) : res (option nat) :=
  let prefix := Nat.min (length window) 16 in
  match first_entity (take prefix window) with
  | Some index => Ret (Some index)
  | None =>
      let tail := drop prefix window in
      let markup := default (length tail) (memchr3 "&"%u8 "<"%u8 ">"%u8 tail) in
      if (markup <=? length tail)%nat then
        let first := default markup (memchr2 dquote "'"%u8 (take markup tail)) in
        Ret (if (first <? length tail)%nat then Some (prefix + first)%nat else None)
      else Panic
  end.
Fixpoint literal_run (windows : list bytes) (offset : nat) : res nat :=
  match windows with
  | [] => Ret offset
  | w :: windows =>
      let* found := html_entity_in_window w in
      match found with Some index => Ret (offset + index)%nat | None => literal_run windows (offset + length w) end
  end.
Definition html_literal_run (data : bytes) : res nat := literal_run (slice_chunks 256 data) 0.

Fixpoint html_loop (bulk : bool) (data : bytes) (fuel : nat) (i o ordinary : nat) (out : Out) : res (nat * Out) :=
  if negb (i <? length data)%nat then Ret (o, out)
  else
    match fuel with
    | O => OutOfFuel
    | S fuel =>
        let* b := unwrap (data !! i) in
        let i := (i + 1)%nat in
        match html_entity b with
        | Some ent => let* out := write_bytes o ent out in html_loop bulk data fuel i (o + length ent) 0 out
        | None =>
            let* out := write o b out in
            let o := (o + 1)%nat in
            let ordinary := if bulk then S ordinary else ordinary in
            if bulk && (ordinary =? 16)%nat && (64 <=? length data - i)%nat then
              let tail := drop i data in
              let* copied := html_literal_run tail in
              if (copied <=? length tail)%nat then
                let* out := write_copy o (take copied tail) out in
                html_loop bulk data fuel (i + copied) (o + copied) 0 out
              else Panic
            else html_loop bulk data fuel i o ordinary out
        end
    end.
Definition html_escape_runs (bulk : bool) (data : bytes) (out : Out) : res Out :=
  let* '(o, out) := html_loop bulk data (length data) 0 0 0 out in assert_len o out.
Definition html_escape_into (data : bytes) (out : Out) : res Out :=
  if (length data <? 80)%nat then html_escape_runs false data out else html_escape_runs true data out.
(** The text is validated before its length is computed. *)
Definition align_rt_html_escape (data : bytes) : res Out :=
  match from_utf8 data with
  | Some _ =>
      let* len := html_escaped_len data in
      or_abort len (λ out_len, owned_str_exact out_len (λ out,
        if out_len =? Z.of_nat (length data) then copy_slice data out else html_escape_into data out))
  | None => Panic
  end.
End Search.

(** A [memchr] to run the definitions with. *)
Fixpoint find_byte (p : Z → bool) (l : bytes) : option nat :=
  match l with [] => None | b :: l => if p b then Some 0%nat else S <$> find_byte p l end.

Example base64_vectors :
  map (λ s, align_rt_base64_encode (str s)) [""; "f"; "fo"; "foo"; "foob"; "fooba"; "foobar"]%string =
  map (λ s, Ret (map Some (str s))) [""; "Zg=="; "Zm8="; "Zm9v"; "Zm9vYg=="; "Zm9vYmE="; "Zm9vYmFy"]%string.
Proof. vm_compute. reflexivity. Qed.
Example base64_decode_vectors :
  map (λ s, base64_decode_impl (str s) false) ["Zm9vYmE="; "Zm9vYmE"; "Zm9vYmF="; "Zm9vYg="; "Z"; "Zm=v"; "===="]%string =
  [Some (str "fooba"); Some (str "fooba"); None; None; None; None; None].
Proof. vm_compute. reflexivity. Qed.
Example percent_vectors :
  align_rt_percent_encode (str "a b/~") = Ret (map Some (str "a%20b%2F~")) ∧ align_rt_form_encode (str "a b/") = Ret (map Some (str "a+b%2F")) ∧
  percent_decode_impl (λ c, find_byte (Z.eqb c)) (λ c d, find_byte (λ b, (b =? c) || (b =? d))) (str "a%2fb+") = Ret (Some (str "a/b+")).
Proof. vm_compute. done. Qed.
