(* ===== verification/EncodingSpec.v ===== *)
(** * Encodings against their reference functions

    Each writer fills its destination exactly, with the text a plain function of the
    input spells; decoding is the inverse of encoding, and where the source promises
    more (canonical Base64, both cases of hex) exactly that much more is accepted. *)
From Stdlib Require Import ZArith Lia String.
From S2P Require Import Prelude Utf8 Encoding.
Local Open Scope Z_scope.

(** ** Chunks *)
Section Chunks.
Context {A : Type} (n : nat) (Hn : (0 < n)%nat).
Implicit Types l c : list A.

Lemma chunk_induction (P : list A → Prop) :
  (∀ l, (length l < n)%nat → P l) → (∀ c l, length c = n → P l → P (c ++ l)) → ∀ l, P l.
Proof.
  intros Hs Hc l. remember (length l) as k eqn:Hk. revert l Hk. induction k as [k IH] using lt_wf_ind. intros l ->.
  destruct (decide (length l < n)%nat) as [|H]; [by apply Hs|]. rewrite <-(take_drop n l). apply Hc; [rewrite length_take; lia|].
  eapply IH; [|reflexivity]. rewrite length_drop. lia.
Qed.

Lemma chunks_fuel_more fuel fuel' l : (length l ≤ fuel)%nat → (length l ≤ fuel')%nat → chunks_fuel fuel n l = chunks_fuel fuel' n l.
Proof.
  revert fuel' l. induction fuel as [|fuel IH]; intros fuel' l H1 H2.
  - destruct l; [|simpl in H1; lia]. by destruct fuel'.
  - destruct l as [|x l]; [by destruct fuel'|]. destruct fuel' as [|fuel']; [simpl in H2; lia|]. simpl. f_equal.
    apply IH; rewrite length_drop; simpl in *; lia.
Qed.

Lemma slice_chunks_app c l : length c = n → slice_chunks n (c ++ l) = c :: slice_chunks n l.
Proof.
  intros Hc. unfold slice_chunks. destruct c as [|x c]; [simpl in Hc; lia|]. rewrite length_app. cbn [length Nat.add app chunks_fuel].
  change (x :: c ++ l) with ((x :: c) ++ l). rewrite take_app_length', drop_app_length' by done. f_equal.
  apply chunks_fuel_more; lia.
Qed.
Lemma slice_chunks_short l : (length l ≤ n)%nat → slice_chunks n l = match l with [] => [] | _ => [l] end.
Proof.
  intros Hl. unfold slice_chunks. destruct l as [|x l]; [done|]. cbn [length chunks_fuel]. rewrite take_ge, drop_ge by done.
  by destruct (length l).
Qed.

Lemma chunks_exact_app c l : length c = n → chunks_exact n (c ++ l) = c :: chunks_exact n l.
Proof. intros Hc. unfold chunks_exact. rewrite slice_chunks_app by done. by rewrite filter_cons_True. Qed.
Lemma chunks_exact_short l : (length l < n)%nat → chunks_exact n l = [].
Proof.
  intros Hl. unfold chunks_exact. rewrite slice_chunks_short by lia. destruct l; [done|]. rewrite filter_cons_False by lia. done.
Qed.
Lemma remainder_app c l : length c = n → remainder n (c ++ l) = remainder n l.
Proof.
  intros Hc. unfold remainder. rewrite length_app, Hc. replace ((n + length l) / n)%nat with (S (length l / n)).
  - rewrite Nat.mul_succ_l, Nat.add_comm, <-drop_drop. by rewrite drop_app_length'.
  - replace (n + length l)%nat with (1 * n + length l)%nat by lia. rewrite Nat.div_add_l; lia.
Qed.
Lemma remainder_short l : (length l < n)%nat → remainder n l = l.
Proof. intros Hl. unfold remainder. by rewrite Nat.div_small by done. Qed.
Lemma remainder_length l : (length (remainder n l) < n)%nat.
Proof.
  induction l as [l Hl|c l Hc IH] using chunk_induction; [by rewrite remainder_short|by rewrite remainder_app].
Qed.
Lemma chunks_concat l : concat (chunks_exact n l) ++ remainder n l = l.
Proof.
  induction l as [l Hl|c l Hc IH] using chunk_induction; [by rewrite chunks_exact_short, remainder_short|].
  rewrite chunks_exact_app, remainder_app by done. simpl. by rewrite <-app_assoc, IH.
Qed.
Lemma chunks_concat_whole l : remainder n (concat (chunks_exact n l)) = [].
Proof.
  induction l as [l Hl|c l Hc IH] using chunk_induction; [by rewrite chunks_exact_short, remainder_short|].
  rewrite chunks_exact_app by done. simpl. by rewrite remainder_app.
Qed.
Lemma whole_length l : remainder n l = [] → (length l mod n = 0)%nat.
Proof.
  induction l as [l Hl|c l Hc IH] using chunk_induction; intros H.
  - rewrite remainder_short in H by done. subst l. by apply Nat.Div0.mod_0_l.
  - rewrite remainder_app in H by done. rewrite length_app, Hc. rewrite <-Nat.Div0.add_mod_idemp_l, Nat.Div0.mod_same. by apply IH.
Qed.
Lemma chunks_count l : length (chunks_exact n l) = (length l / n)%nat.
Proof.
  induction l as [l Hl|c l Hc IH] using chunk_induction; [by rewrite chunks_exact_short, Nat.div_small|].
  rewrite chunks_exact_app, length_app, Hc by done. simpl. rewrite IH. replace (n + length l)%nat with (1 * n + length l)%nat by lia.
  rewrite Nat.div_add_l; lia.
Qed.
Lemma remainder_mod l : length (remainder n l) = (length l mod n)%nat.
Proof. unfold remainder. rewrite length_drop, Nat.Div0.mod_eq. lia. Qed.
Lemma slice_chunks_concat l : concat (slice_chunks n l) = l.
Proof.
  induction l as [l Hl|c l Hc IH] using chunk_induction; [|by rewrite slice_chunks_app by done; simpl; rewrite IH].
  rewrite slice_chunks_short by lia. destruct l; [done|]. simpl. by rewrite app_nil_r.
Qed.
Lemma slice_chunks_size l : Forall (λ c, (length c ≤ n)%nat) (slice_chunks n l).
Proof.
  induction l as [l Hl|c l Hc IH] using chunk_induction; [|rewrite slice_chunks_app by done; constructor; [lia|done]].
  rewrite slice_chunks_short by lia. destruct l; constructor; [lia|constructor].
Qed.
End Chunks.

(** ** Destinations *)
Lemma write_bytes_ok bs o out : (o + length bs ≤ length out)%nat →
  write_bytes o bs out = Ret (take o out ++ map Some bs ++ drop (o + length bs) out).
Proof.
  revert o out. induction bs as [|b bs IH]; intros o out H; simpl.
  - by rewrite Nat.add_0_r, take_drop.
  - simpl in H. unfold write. rewrite (proj2 (Nat.ltb_lt o _)) by lia. cbn [res_bind]. rewrite IH by (rewrite length_insert; lia).
    f_equal. rewrite <-Nat.add_succ_comm. rewrite (take_S_r _ _ (Some b)) by (by rewrite list_lookup_insert_eq by lia).
    rewrite take_insert_ge by lia. rewrite drop_insert_lt by lia. by rewrite <-app_assoc.
Qed.

Definition spelled_by (spell : Z → bytes) (data : bytes) : bytes := concat (map spell data).

Lemma write_bytes_app a b o out : write_bytes o (a ++ b) out = let* out := write_bytes o a out in write_bytes (o + length a) b out.
Proof.
  revert o out. induction a as [|x a IH]; intros o out; simpl; [by rewrite Nat.add_0_r|].
  destruct (write o x out); simpl; [|done..]. by rewrite IH, Nat.add_succ_r.
Qed.
Lemma write_fresh bs out : length out = length bs → write_bytes 0 bs out = Ret (map Some bs).
Proof. intros H. rewrite write_bytes_ok by lia. simpl. rewrite drop_ge by lia. by rewrite app_nil_r. Qed.

Lemma spell_into_eq spell data o out :
  spell_into spell data o out =
  let* out := write_bytes o (spelled_by spell data) out in Ret ((o + length (spelled_by spell data))%nat, out).
Proof.
  revert o out. induction data as [|b data IH]; intros o out; cbn [spell_into]; unfold spelled_by in *; cbn [map concat].
  - by rewrite Nat.add_0_r.
  - rewrite write_bytes_app, length_app, res_bind_assoc. destruct (write_bytes o (spell b) out); cbn [res_bind]; [|done..].
    rewrite IH, Nat.add_assoc. done.
Qed.

(** A writer that fills a fresh destination. *)
Lemma spell_fresh spell data out : length out = length (spelled_by spell data) →
  spell_into spell data 0 out = Ret (length out, map Some (spelled_by spell data)).
Proof. intros H. rewrite spell_into_eq, write_fresh by done. cbn [res_bind]. by rewrite H. Qed.

(** ** Bits *)
Ltac powers := repeat match goal with |- context [2 ^ Zpos ?p] => let v := eval vm_compute in (2 ^ Zpos p) in change (2 ^ Zpos p) with v end; change (2 ^ 0) with 1.
Ltac divs := powers; Z.to_euclidean_division_equations; lia.

Lemma lor_low x k y : 0 ≤ k → 0 ≤ y < 2 ^ k → Z.lor (Z.shiftl x k) y = x * 2 ^ k + y.
Proof.
  intros Hk Hy. rewrite <-Z.shiftl_mul_pow2 by done. rewrite <-(Z.add_lor_land (Z.shiftl x k) y).
  assert (Z.land (Z.shiftl x k) y = 0) as ->; [|by rewrite Z.add_0_r].
  apply Z.bits_inj'. intros i Hi. rewrite Z.land_spec, Z.bits_0. destruct (Z_lt_le_dec i k).
  - by rewrite Z.shiftl_spec_low.
  - rewrite <-(Z.mod_small y (2 ^ k)) by done. by rewrite Z.mod_pow2_bits_high, andb_false_r by lia.
Qed.
Lemma land_low x k : 0 ≤ k → Z.land x (2 ^ k - 1) = x mod 2 ^ k.
Proof. intros Hk. rewrite <-Z.land_ones by done. by rewrite Z.ones_equiv. Qed.
Lemma shl8_mul a k : 0 ≤ k → shl8 a k = (a * 2 ^ k) mod 256.
Proof. intros Hk. unfold shl8. rewrite Z.shiftl_mul_pow2 by done. apply (land_low _ 8). lia. Qed.

(** ** Base64 *)
Record symbols (alphabet table : list Z) : Prop := {
  sy_range : ∀ i, 0 ≤ i < 64 → 0 ≤ entry alphabet i < 256 ∧ entry alphabet i ≠ 61 ∧ entry table (entry alphabet i) = i;
  sy_back : ∀ b, 0 ≤ b < 256 → (entry table b = 255 ∨ 0 ≤ entry table b < 64) ∧ (entry table b ≠ 255 → entry alphabet (entry table b) = b)
}.

(** A check of all bytes below a bound, as a fact about them. *)
Lemma below_all (n : nat) (P : Z → bool) : forallb (λ i, P (Z.of_nat i)) (seq 0 n) = true → ∀ b, 0 ≤ b < Z.of_nat n → P b = true.
Proof.
  rewrite forallb_forall. intros H b Hb. rewrite <-(Z2Nat.id b) by lia. apply H, in_seq. lia.
Qed.

Definition symbol_check (alphabet table : list Z) (i : Z) : bool :=
  let b := entry alphabet i in (0 <=? b) && (b <? 256) && negb (b =? 61) && (entry table b =? i).
Definition byte_check (alphabet table : list Z) (b : Z) : bool :=
  let v := entry table b in (v =? 255) || ((0 <=? v) && (v <? 64) && (entry alphabet v =? b)).
Lemma symbols_check alphabet table :
  forallb (λ i, symbol_check alphabet table (Z.of_nat i)) (seq 0 64) = true →
  forallb (λ i, byte_check alphabet table (Z.of_nat i)) (seq 0 256) = true → symbols alphabet table.
Proof.
  intros H1 H2. split.
  - intros i Hi. pose proof (below_all 64 _ H1 i Hi) as H. unfold symbol_check in H. b2p. split_and!; lia.
  - intros b Hb. pose proof (below_all 256 _ H2 b Hb) as H. unfold byte_check in H. apply orb_true_iff in H as [H|H]; b2p.
    + split; [by left|done].
    + split; [right; lia|done].
Qed.

Lemma std_symbols : symbols BASE64_STD BASE64_STD_TABLE.
Proof. apply symbols_check; vm_compute; reflexivity. Qed.
Lemma url_symbols : symbols BASE64_URL BASE64_URL_TABLE.
Proof. apply symbols_check; vm_compute; reflexivity. Qed.

(** What the table says of a byte: six bits, or not a symbol. *)
Definition table_value (v : Z) : Prop := v = 255 ∨ 0 ≤ v < 64.
Lemma table_lor a b : table_value a → table_value b → table_value (Z.lor a b) ∧ (Z.lor a b = 255 ↔ a = 255 ∨ b = 255).
Proof.
  intros Ha Hb. assert (∀ v, 0 ≤ v < 64 → Z.lor 255 v = 255) as H255.
  { intros v Hv. apply Z.eqb_eq. by apply (below_all 64 (λ v, Z.lor 255 v =? 255)). }
  destruct Ha as [->|Ha], Hb as [->|Hb].
  - split; [by left|]. vm_compute. tauto.
  - rewrite H255 by done. split; [by left|]. tauto.
  - rewrite Z.lor_comm, H255 by done. split; [by left|]. tauto.
  - assert (0 ≤ Z.lor a b < 64).
    { split; [apply Z.lor_nonneg; lia|]. destruct (Z.eq_dec a 0) as [->|Ha0]; [rewrite Z.lor_0_l; lia|].
      destruct (Z.eq_dec b 0) as [->|Hb0]; [rewrite Z.lor_0_r; lia|].
      apply (Z.log2_lt_cancel _ 64). change (Z.log2 64) with 6. rewrite Z.log2_lor by lia. apply Z.max_lub_lt; apply Z.log2_lt_pow2; lia. }
    split; [by right|]. lia.
Qed.

Section Base64.
Context (alphabet table : list Z) (Hsy : symbols alphabet table).
Let al (v : Z) : Z := entry alphabet v.

(** The group of three bytes, and the one or two bytes at the end. *)
Definition quad (a b c : Z) : bytes := [al (a / 4); al (a mod 4 * 16 + b / 16); al (b mod 16 * 4 + c / 64); al (c mod 64)].
Lemma sextet_div n k : 0 ≤ k → sextet alphabet n k = al (n / 2 ^ k mod 64).
Proof. intros Hk. unfold sextet. rewrite Z.shiftr_div_pow2 by done. by rewrite (land_low _ 6). Qed.

Lemma group_quad a b c : is_byte a → is_byte b → is_byte c → base64_group alphabet [a; b; c] = quad a b c.
Proof.
  unfold is_byte. intros Ha Hb Hc. unfold base64_group, quad. cbn [nth].
  rewrite <-Z.lor_assoc, (lor_low b 8 c), (lor_low a 16) by lia. rewrite !sextet_div by done.
  f_equal; [f_equal; divs|]. f_equal; [f_equal; divs|]. f_equal; [f_equal; divs|]. f_equal. f_equal. divs.
Qed.
Lemma tail_one pad a : is_byte a → base64_tail alphabet pad [a] = [al (a / 4); al (a mod 4 * 16)] ++ (if pad then str "==" else []).
Proof.
  unfold is_byte. intros Ha. unfold base64_tail. rewrite !sextet_div, Z.shiftl_mul_pow2 by done. f_equal.
  f_equal; [f_equal; divs|]. f_equal. f_equal. divs.
Qed.
Lemma tail_two pad a b : is_byte a → is_byte b →
  base64_tail alphabet pad [a; b] = [al (a / 4); al (a mod 4 * 16 + b / 16); al (b mod 16 * 4)] ++ (if pad then str "=" else []).
Proof.
  unfold is_byte. intros Ha Hb. unfold base64_tail. rewrite lor_low by (rewrite ?Z.shiftl_mul_pow2 by done; lia).
  rewrite !sextet_div, Z.shiftl_mul_pow2 by done. f_equal.
  f_equal; [f_equal; divs|]. f_equal; [f_equal; divs|]. f_equal. f_equal. divs.
Qed.

(** *** Decoding a quantum *)
Lemma al_range v : 0 ≤ v < 64 → is_byte (al v) ∧ al v ≠ 61 ∧ entry table (al v) = v.
Proof. intros Hv. destruct (sy_range _ _ Hsy v Hv) as (? & ? & ?). done. Qed.

Definition symbol (b : Z) : Prop := ∃ v, 0 ≤ v < 64 ∧ b = al v.
Lemma symbol_entry b : is_byte b → table_value (entry table b) ∧ (entry table b ≠ 255 → symbol b ∧ 0 ≤ entry table b < 64).
Proof.
  intros Hb. destruct (sy_back _ _ Hsy b Hb) as [Hv Hback]. split; [done|]. intros Hn. destruct Hv as [Hv|Hv]; [done|].
  split; [|done]. exists (entry table b). split; [done|]. symmetry. by apply Hback.
Qed.

Lemma first_byte x y : 0 ≤ x < 64 → 0 ≤ y < 64 → Z.lor (shl8 x 2) (Z.shiftr y 4) = x * 4 + y / 16.
Proof.
  intros Hx Hy. rewrite shl8_mul, Z.shiftr_div_pow2, Z.mod_small by lia. rewrite <-Z.shiftl_mul_pow2, lor_low by (try lia; divs). done.
Qed.
Lemma second_byte y z : 0 ≤ y < 64 → 0 ≤ z < 64 → Z.lor (shl8 y 4) (Z.shiftr z 2) = y mod 16 * 16 + z / 4.
Proof.
  intros Hy Hz. rewrite shl8_mul, Z.shiftr_div_pow2 by lia. replace (y * 2 ^ 4 mod 256) with (Z.shiftl (y mod 16) 4) by (rewrite Z.shiftl_mul_pow2 by lia; divs).
  rewrite lor_low by (try lia; divs). done.
Qed.
Lemma third_byte z w : 0 ≤ z < 64 → 0 ≤ w < 64 → Z.lor (shl8 z 6) w = z mod 4 * 64 + w.
Proof.
  intros Hz Hw. rewrite shl8_mul by lia. replace (z * 2 ^ 6 mod 256) with (Z.shiftl (z mod 4) 6) by (rewrite Z.shiftl_mul_pow2 by lia; divs).
  rewrite lor_low by (try lia; divs). done.
Qed.

(** Four symbols are the spelling of three bytes. *)
Lemma quad_values x y z w : 0 ≤ x < 64 → 0 ≤ y < 64 → 0 ≤ z < 64 → 0 ≤ w < 64 →
  let a := x * 4 + y / 16 in let b := y mod 16 * 16 + z / 4 in let c := z mod 4 * 64 + w in
  is_byte a ∧ is_byte b ∧ is_byte c ∧ [al x; al y; al z; al w] = quad a b c.
Proof.
  intros Hx Hy Hz Hw. cbv zeta. unfold is_byte, quad. split_and!; try divs.
  f_equal; [f_equal; divs|]. f_equal; [f_equal; divs|]. f_equal; [f_equal; divs|]. f_equal. f_equal. divs.
Qed.

Lemma quad_sextets a b c : is_byte a → is_byte b → is_byte c →
  ∃ x y z w, (0 ≤ x < 64 ∧ 0 ≤ y < 64 ∧ 0 ≤ z < 64 ∧ 0 ≤ w < 64) ∧ quad a b c = [al x; al y; al z; al w] ∧
    a = x * 4 + y / 16 ∧ b = y mod 16 * 16 + z / 4 ∧ c = z mod 4 * 64 + w.
Proof.
  unfold is_byte. intros Ha Hb Hc. exists (a / 4), (a mod 4 * 16 + b / 16), (b mod 16 * 4 + c / 64), (c mod 64).
  split_and!; try done; divs.
Qed.
Lemma al_inj v w : 0 ≤ v < 64 → 0 ≤ w < 64 → al v = al w → v = w.
Proof. intros Hv Hw H. rewrite <-(proj2 (proj2 (al_range v Hv))), <-(proj2 (proj2 (al_range w Hw))). by rewrite H. Qed.

Lemma decode_quanta_cons q qs out : length q = 4%nat → Forall is_byte q →
  base64_decode_quanta table (q :: qs) = Some out ↔
  ∃ a b c rest, is_byte a ∧ is_byte b ∧ is_byte c ∧ q = quad a b c ∧ base64_decode_quanta table qs = Some rest ∧ out = [a; b; c] ++ rest.
Proof.
  intros Hq Hb. destruct q as [|q0 [|q1 [|q2 [|q3 [|]]]]]; try done. rewrite !Forall_cons in Hb. destruct Hb as (H0 & H1 & H2 & H3 & _).
  cbn [base64_decode_quanta nth].
  destruct (symbol_entry q0 H0) as [V0 S0], (symbol_entry q1 H1) as [V1 S1], (symbol_entry q2 H2) as [V2 S2], (symbol_entry q3 H3) as [V3 S3].
  destruct (table_lor _ _ V0 V1) as [V01 E01]. destruct (table_lor _ _ V01 V2) as [V012 E012]. destruct (table_lor _ _ V012 V3) as [_ E].
  destruct (Z.eqb_spec (Z.lor (Z.lor (Z.lor (entry table q0) (entry table q1)) (entry table q2)) (entry table q3)) 255) as [Hbad|Hgood].
  - split; [done|]. intros (a & b & c & rest & Ha & Hb' & Hc & Hquad & _). exfalso. rewrite E, E012, E01 in Hbad.
    destruct (quad_sextets a b c Ha Hb' Hc) as (x & y & z & w & (Hx & Hy & Hz & Hw) & Hs & _). rewrite Hs in Hquad. injection Hquad as -> -> -> ->.
    rewrite (proj2 (proj2 (al_range _ Hx))), (proj2 (proj2 (al_range _ Hy))), (proj2 (proj2 (al_range _ Hz))), (proj2 (proj2 (al_range _ Hw))) in Hbad.
    clear -Hbad Hx Hy Hz Hw. lia.
  - rewrite E, E012, E01 in Hgood.
    destruct (S0 ltac:(tauto)) as [(x & Hx & ->) _], (S1 ltac:(tauto)) as [(y & Hy & ->) _], (S2 ltac:(tauto)) as [(z & Hz & ->) _], (S3 ltac:(tauto)) as [(w & Hw & ->) _].
    rewrite !(proj2 (proj2 (al_range _ Hx))), !(proj2 (proj2 (al_range _ Hy))), !(proj2 (proj2 (al_range _ Hz))), !(proj2 (proj2 (al_range _ Hw))).
    rewrite first_byte, second_byte, third_byte by done. destruct (quad_values x y z w Hx Hy Hz Hw) as (Ba & Bb & Bc & Hquad).
    split.
    + intros Hout. apply bind_Some in Hout as (rest & Hr & Hout). injection Hout as <-.
      eexists _, _, _, rest. split_and!; [exact Ba|exact Bb|exact Bc|exact Hquad|exact Hr|done].
    + intros (a & b & c & rest & Ha & Hb' & Hc & Hq4 & Hr & ->). rewrite Hr. cbn [mbind option_bind]. do 2 f_equal.
      destruct (quad_sextets a b c Ha Hb' Hc) as (x' & y' & z' & w' & (Hx' & Hy' & Hz' & Hw') & Hs & -> & -> & ->). rewrite Hs in Hq4.
      injection Hq4 as Q0%al_inj Q1%al_inj Q2%al_inj Q3%al_inj; try done. by subst.
Qed.

(** *** The symbols that are left over *)
Lemma tail_one_values x y : 0 ≤ x < 64 → 0 ≤ y < 64 → Z.land y 15 = 0 →
  let a := x * 4 + y / 16 in is_byte a ∧ base64_tail alphabet false [a] = [al x; al y].
Proof.
  intros Hx Hy H. change 15 with (2 ^ 4 - 1) in H. rewrite land_low in H by lia. cbv zeta. assert (is_byte (x * 4 + y / 16)) as Ha by (unfold is_byte; divs).
  split; [done|]. rewrite tail_one by done. rewrite app_nil_r. f_equal; [f_equal; divs|]. f_equal. f_equal. revert H. powers. intros. divs.
Qed.
Lemma tail_two_values x y z : 0 ≤ x < 64 → 0 ≤ y < 64 → 0 ≤ z < 64 → Z.land z 3 = 0 →
  let a := x * 4 + y / 16 in let b := y mod 16 * 16 + z / 4 in
  is_byte a ∧ is_byte b ∧ base64_tail alphabet false [a; b] = [al x; al y; al z].
Proof.
  intros Hx Hy Hz H. change 3 with (2 ^ 2 - 1) in H. rewrite land_low in H by lia. cbv zeta. assert (is_byte (x * 4 + y / 16)) as Ha by (unfold is_byte; divs).
  assert (is_byte (y mod 16 * 16 + z / 4)) as Hb by (unfold is_byte; divs).
  split; [done|]. split; [done|]. rewrite tail_two by done. rewrite app_nil_r.
  f_equal; [f_equal; divs|]. f_equal; [f_equal; divs|]. f_equal. f_equal. revert H. powers. intros. divs.
Qed.

Lemma decode_tail_iff rem t : (length rem < 4)%nat → Forall is_byte rem →
  base64_decode_tail table rem = Some t ↔ Forall is_byte t ∧ (length t < 3)%nat ∧ rem = base64_tail alphabet false t.
Proof.
  intros Hlen Hb. split.
  - destruct rem as [|p [|q [|r [|]]]]; try done; simpl in Hlen; try lia; rewrite ?Forall_cons in Hb; cbn [base64_decode_tail].
    + intros [= <-]. split_and!; [constructor|simpl; lia|done].
    + destruct Hb as (Hp & Hq & _). destruct (symbol_entry p Hp) as [V0 S0], (symbol_entry q Hq) as [V1 S1].
      destruct (table_lor _ _ V0 V1) as [_ E]. intros H. destruct ((_ =? 255) || _) eqn:C; [done|]. apply orb_false_iff in C as [C1 C2].
      apply Z.eqb_neq in C1. apply negb_false_iff, Z.eqb_eq in C2. rewrite E in C1. injection H as <-.
      destruct (S0 ltac:(tauto)) as [(x & Hx & ->) _], (S1 ltac:(tauto)) as [(y & Hy & ->) _].
      rewrite (proj2 (proj2 (al_range _ Hx))), (proj2 (proj2 (al_range _ Hy))) in *. rewrite first_byte by done.
      destruct (tail_one_values x y Hx Hy C2) as [Ha Ht]. split_and!; [by constructor|simpl; lia|done].
    + destruct Hb as (Hp & Hq & Hr & _). destruct (symbol_entry p Hp) as [V0 S0], (symbol_entry q Hq) as [V1 S1], (symbol_entry r Hr) as [V2 S2].
      destruct (table_lor _ _ V0 V1) as [V01 E01]. destruct (table_lor _ _ V01 V2) as [_ E].
      intros H. destruct ((_ =? 255) || _) eqn:C; [done|]. apply orb_false_iff in C as [C1 C2].
      apply Z.eqb_neq in C1. apply negb_false_iff, Z.eqb_eq in C2. rewrite E, E01 in C1. injection H as <-.
      destruct (S0 ltac:(tauto)) as [(x & Hx & ->) _], (S1 ltac:(tauto)) as [(y & Hy & ->) _], (S2 ltac:(tauto)) as [(z & Hz & ->) _].
      rewrite !(proj2 (proj2 (al_range _ Hx))), !(proj2 (proj2 (al_range _ Hy))), !(proj2 (proj2 (al_range _ Hz))) in *.
      rewrite first_byte, second_byte by done. destruct (tail_two_values x y z Hx Hy Hz C2) as (Ha & Hb' & Ht).
      split_and!; [apply Forall_cons; split; [done|]; by apply Forall_singleton|simpl; lia|done].
  - intros (Ht & Hl & ->). destruct t as [|a [|b [|]]]; try done; simpl in Hl; try lia; rewrite ?Forall_cons in Ht.
    + destruct Ht as [Ha _]. rewrite tail_one by done. cbn [app base64_decode_tail]. unfold is_byte in Ha.
      assert (0 ≤ a / 4 < 64) as H1 by divs. assert (0 ≤ a mod 4 * 16 < 64) as H2 by divs.
      rewrite (proj2 (proj2 (al_range _ H1))), (proj2 (proj2 (al_range _ H2))). destruct (table_lor _ _ (or_intror H1) (or_intror H2)) as [_ E].
      rewrite (proj2 (Z.eqb_neq _ 255)) by (rewrite E; clear -H1 H2; lia). change 15 with (2 ^ 4 - 1). rewrite land_low by lia.
      rewrite (proj2 (Z.eqb_eq (_ mod _) 0)) by (clear; divs). cbn [orb negb]. rewrite first_byte by done. do 2 f_equal. clear -Ha. divs.
    + destruct Ht as (Ha & Hb' & _). rewrite tail_two by done. cbn [app base64_decode_tail]. unfold is_byte in Ha, Hb'.
      assert (0 ≤ a / 4 < 64) as H1 by divs. assert (0 ≤ a mod 4 * 16 + b / 16 < 64) as H2 by divs. assert (0 ≤ b mod 16 * 4 < 64) as H3 by divs.
      rewrite (proj2 (proj2 (al_range _ H1))), (proj2 (proj2 (al_range _ H2))), (proj2 (proj2 (al_range _ H3))).
      destruct (table_lor _ _ (or_intror H1) (or_intror H2)) as [V E]. destruct (table_lor _ _ V (or_intror H3)) as [_ E'].
      rewrite (proj2 (Z.eqb_neq _ 255)) by (rewrite E', E; clear -H1 H2 H3; lia). change 3 with (2 ^ 2 - 1). rewrite land_low by lia.
      rewrite (proj2 (Z.eqb_eq (_ mod _) 0)) by (clear; divs). cbn [orb negb]. rewrite first_byte, second_byte by done.
      f_equal. f_equal; [clear -Ha Hb'; divs|]. f_equal. clear -Ha Hb'. divs.
Qed.

(** *** The encoding of a byte string *)
Definition b64_groups (data : bytes) : bytes := concat (map (base64_group alphabet) (chunks_exact 3 data)).
Definition b64 (pad : bool) (data : bytes) : bytes := b64_groups data ++ base64_tail alphabet pad (remainder 3 data).

Lemma b64_groups_app c data : length c = 3%nat → b64_groups (c ++ data) = base64_group alphabet c ++ b64_groups data.
Proof. intros Hc. unfold b64_groups. by rewrite chunks_exact_app by (done || lia). Qed.
Lemma three_bytes (c : bytes) : length c = 3%nat → ∃ x y z, c = [x; y; z].
Proof. intros H. destruct c as [|x [|y [|z [|]]]]; try done. by exists x, y, z. Qed.

Lemma whole_split (data : bytes) : remainder 3 data = [] → data = [] ∨ ∃ c rest, length c = 3%nat ∧ data = c ++ rest ∧ remainder 3 rest = [].
Proof.
  induction data as [data Hd|c data Hc _] using (chunk_induction 3 ltac:(lia)); intros H.
  - left. by rewrite remainder_short in H.
  - right. exists c, data. rewrite remainder_app in H by (done || lia). done.
Qed.

Lemma decode_quanta_iff l : Forall is_byte l → ∀ out,
  base64_decode_quanta table (chunks_exact 4 l) = Some out ↔
  Forall is_byte out ∧ remainder 3 out = [] ∧ concat (chunks_exact 4 l) = b64_groups out.
Proof.
  induction l as [l Hl|q l Hq IH] using (chunk_induction 4 ltac:(lia)); intros Hb out.
  - rewrite chunks_exact_short by lia. simpl. split; [by intros [= <-]|]. intros (_ & Hr & He).
    destruct (whole_split out Hr) as [->|(c & rest & Hc & -> & _)]; [done|]. rewrite b64_groups_app in He by done. done.
  - apply Forall_app in Hb as [Hbq Hbl]. rewrite chunks_exact_app by (done || lia). rewrite decode_quanta_cons by done. simpl concat. split.
    + intros (a & b & c & rest & Ha & Hb & Hc & -> & Hrest & ->). apply (IH Hbl) in Hrest as (Hr1 & Hr2 & ->).
      split; [rewrite Forall_app, !Forall_cons; done|]. split; [by rewrite (remainder_app 3 ltac:(lia) [a; b; c])|].
      rewrite (b64_groups_app [a; b; c]) by done. by rewrite group_quad.
    + intros (Ho & Hr & He). destruct (whole_split out Hr) as [->|(t & rest & Ht & -> & Hr')].
      { apply (f_equal length) in He. rewrite length_app in He. simpl in He. lia. }
      destruct (three_bytes t Ht) as (a & b & c & ->). apply Forall_app in Ho as [Hot Hor]. rewrite !Forall_cons in Hot.
      destruct Hot as (Ha & Hb & Hc & _). rewrite (b64_groups_app [a; b; c]) in He by done. rewrite group_quad in He by done.
      apply app_inj_1 in He as [-> He]; [|by rewrite Hq]. exists a, b, c, rest. split_and!; try done. by apply IH.
Qed.

(** *** Padding *)
Lemma count_pads_stop l pads : head l ≠ Some 61 → count_pads l pads = Some pads.
Proof.
  intros H. destruct l as [|b l]; [done|]. simpl in *. assert (b ≠ 61) as Hb by congruence. clear H.
  destruct b as [|p|p]; try done. do 6 (destruct p as [p|p|]; try done).
Qed.
Lemma count_pads_step l pads : count_pads (61 :: l) pads = if (pads =? 2)%nat then None else count_pads l (S pads).
Proof. done. Qed.
Lemma count_pads_spec l n k : count_pads l k = Some n → (k ≤ 2)%nat →
  (k ≤ n ≤ 2)%nat ∧ ∃ l', l = replicate (n - k) 61 ++ l' ∧ head l' ≠ Some 61.
Proof.
  revert k. induction l as [|b l IH]; intros k H Hk.
  - injection H as <-. split; [lia|]. exists []. by rewrite Nat.sub_diag.
  - destruct (decide (b = 61)) as [->|Hb].
    + rewrite count_pads_step in H. destruct (Nat.eqb_spec k 2); [done|]. destruct (IH (S k) H ltac:(lia)) as (Hn & l' & -> & Hl').
      split; [lia|]. exists l'. split; [|done]. replace (n - k)%nat with (S (n - S k)) by lia. done.
    + rewrite count_pads_stop in H by (simpl; congruence). injection H as <-. split; [lia|]. exists (b :: l). rewrite Nat.sub_diag. split; [done|simpl; congruence].
Qed.
Lemma count_pads_replicate l k j : head l ≠ Some 61 → (k + j ≤ 2)%nat → count_pads (replicate k 61 ++ l) j = Some (k + j)%nat.
Proof.
  revert j. induction k as [|k IH]; intros j Hl Hk; [by apply count_pads_stop|].
  change (replicate (S k) 61 ++ l) with (61 :: replicate k 61 ++ l). rewrite count_pads_step, (proj2 (Nat.eqb_neq j 2)) by lia.
  rewrite IH by (done || lia). f_equal. lia.
Qed.

Lemma b64_symbols data : Forall is_byte data → Forall symbol (b64 false data).
Proof.
  intros Hd. unfold b64. apply Forall_app. pose proof (chunks_concat 3 ltac:(lia) data) as Hcat.
  assert (Forall is_byte (concat (chunks_exact 3 data)) ∧ Forall is_byte (remainder 3 data)) as [_ Ht] by (rewrite <-Forall_app, Hcat; done).
  split.
  - induction data as [data Hl|c data Hc IH] using (chunk_induction 3 ltac:(lia)).
    { unfold b64_groups. rewrite chunks_exact_short by lia. constructor. }
    apply Forall_app in Hd as [Hdc Hdd]. rewrite b64_groups_app by done. apply Forall_app. split.
    + destruct (three_bytes c Hc) as (x & y & z & ->). rewrite !Forall_cons in Hdc. destruct Hdc as (? & ? & ? & _).
      rewrite group_quad by done. destruct (quad_sextets x y z) as (v0 & v1 & v2 & v3 & (? & ? & ? & ?) & -> & _); [done..|].
      rewrite !Forall_cons. unfold symbol. split_and!; eauto.
    + rewrite remainder_app in Ht by (done || lia). apply IH; [done|by apply chunks_concat; lia|done].
  - pose proof (remainder_length 3 ltac:(lia) data) as Hr. destruct (remainder 3 data) as [|x [|y [|]]]; simpl in Hr; try lia; rewrite ?Forall_cons in Ht; [constructor| |].
    + destruct Ht as [Hx _]. rewrite tail_one by done. cbn [app]. unfold is_byte, symbol in *. rewrite !Forall_cons. split_and!; [eexists; split; [|reflexivity]; divs..|constructor].
    + destruct Ht as (Hx & Hy & _). rewrite tail_two by done. cbn [app]. unfold is_byte, symbol in *. rewrite !Forall_cons. split_and!; [eexists; split; [|reflexivity]; divs..|constructor].
Qed.

Lemma symbol_facts b : symbol b → is_byte b ∧ b ≠ 61 ∧ entry table b ≠ 255.
Proof. intros (v & Hv & ->). destruct (al_range v Hv) as (? & ? & ->). split; [done|]. split; [done|]. lia. Qed.

(** The padding a text of [n] bytes takes. *)
Definition pad_len (n : nat) : nat := match (n mod 3)%nat with 1%nat => 2%nat | 2%nat => 1%nat | _ => 0%nat end.
Lemma b64_pad data : Forall is_byte data → b64 true data = b64 false data ++ replicate (pad_len (length (remainder 3 data))) 61.
Proof.
  intros Hd. unfold b64. rewrite <-app_assoc. f_equal. pose proof (remainder_length 3 ltac:(lia) data) as Hr.
  assert (Forall is_byte (remainder 3 data)) as Ht by (by apply Forall_drop).
  destruct (remainder 3 data) as [|x [|y [|]]]; simpl in Hr; try lia; rewrite ?Forall_cons in Ht; [done| |].
  - rewrite !tail_one by tauto. done.
  - rewrite !tail_two by tauto. done.
Qed.
Lemma b64_groups_length data : (length (b64_groups data) mod 4 = 0)%nat.
Proof.
  unfold b64_groups. induction (chunks_exact 3 data) as [|c cs IH]; [done|]. cbn [map concat]. rewrite length_app.
  change (length (base64_group alphabet c)) with 4%nat. rewrite <-Nat.Div0.add_mod_idemp_r, IH. done.
Qed.
Lemma b64_length data : ((length (b64 false data) + pad_len (length (remainder 3 data))) mod 4 = 0)%nat ∧ (length (b64 false data) mod 4 ≠ 1)%nat.
Proof.
  unfold b64. rewrite length_app.
  rewrite <-Nat.add_assoc, <-(Nat.Div0.add_mod_idemp_l (length (b64_groups data))), <-(Nat.Div0.add_mod_idemp_l (length (b64_groups data)) (length (base64_tail _ _ _))), b64_groups_length, !Nat.add_0_l.
  pose proof (remainder_length 3 ltac:(lia) data) as Hr. destruct (remainder 3 data) as [|x [|y [|]]]; simpl in Hr; try lia; vm_compute; lia.
Qed.

Lemma b64_tail_parts out t : Forall is_byte out → remainder 3 out = [] → (length t < 3)%nat →
  b64 false (out ++ t) = b64_groups out ++ base64_tail alphabet false t ∧ remainder 3 (out ++ t) = t.
Proof.
  intros _ Hr Ht. unfold b64. induction out as [out Hl|c out Hc IH] using (chunk_induction 3 ltac:(lia)).
  - rewrite remainder_short in Hr by lia. subst out. rewrite app_nil_l, remainder_short by lia. unfold b64_groups.
    rewrite !chunks_exact_short by (simpl; lia). done.
  - rewrite remainder_app in Hr by (done || lia). destruct (IH Hr) as [H1 H2]. rewrite <-app_assoc, remainder_app by (done || lia).
    rewrite (b64_groups_app c (out ++ t)), (b64_groups_app c out) by done. rewrite <-!app_assoc, H1. by split.
Qed.

Lemma content_decode content : Forall is_byte content → (length content mod 4 ≠ 1)%nat → ∀ d,
  (tail ← base64_decode_tail table (remainder 4 content); out ← base64_decode_quanta table (chunks_exact 4 content); Some (out ++ tail)) = Some d ↔
  Forall is_byte d ∧ content = b64 false d.
Proof.
  intros Hb Hm d. pose proof (chunks_concat 4 ltac:(lia) content) as Hcat. pose proof (remainder_length 4 ltac:(lia) content) as Hrl.
  assert (Forall is_byte (remainder 4 content)) as Hbr by (by apply Forall_drop). split.
  - intros H. apply bind_Some in H as (t & Ht & H). apply bind_Some in H as (out & Ho & H). injection H as <-.
    apply decode_tail_iff in Ht as (Bt & Lt & Et); [|done..]. apply (decode_quanta_iff _ Hb) in Ho as (Bo & Ro & Eo).
    split; [by apply Forall_app|]. destruct (b64_tail_parts out t Bo Ro Lt) as [-> _]. by rewrite <-Hcat, Eo, <-Et.
  - intros [Hd Hc]. set (out := concat (chunks_exact 3 d)). set (t := remainder 3 d).
    assert (d = out ++ t) as Hot by (symmetry; by apply chunks_concat; lia).
    assert (Forall is_byte out ∧ Forall is_byte t) as [Bo Bt] by (by rewrite <-Forall_app, <-Hot).
    assert (length t < 3)%nat as Lt by (by apply remainder_length; lia).
    assert (remainder 3 out = []) as Ro by (by apply chunks_concat_whole; lia).
    destruct (b64_tail_parts out t Bo Ro Lt) as [Heq _]. rewrite <-Hot in Heq. rewrite Heq, <-Hcat in Hc.
    assert (concat (chunks_exact 4 content) = b64_groups out ∧ remainder 4 content = base64_tail alphabet false t) as [E1 E2].
    { assert (length (base64_tail alphabet false t) < 4)%nat by (destruct t as [|x [|y [|]]]; simpl in *; lia).
      apply app_inj_1; [|done]. apply (f_equal length) in Hc. rewrite !length_app in Hc.
      pose proof (whole_length 4 ltac:(lia) _ (chunks_concat_whole 4 ltac:(lia) content)) as Ha.
      pose proof (b64_groups_length out) as Hg. apply Nat.Div0.mod_divides in Ha as [ka Ha], Hg as [kg Hg]. lia. }
    rewrite (proj2 (decode_tail_iff _ t Hrl Hbr)) by done. cbn [mbind option_bind].
    rewrite (proj2 (decode_quanta_iff content Hb out)) by done. cbn [mbind option_bind]. by rewrite <-Hot.
Qed.

(** Decoding accepts the encodings, padded or not, and nothing else. *)
Lemma decode_with_iff input d : Forall is_byte input →
  base64_decode_with table input = Some d ↔ Forall is_byte d ∧ ∃ pad, input = b64 pad d.
Proof.
  intros Hb. unfold base64_decode_with. split.
  - intros H. case_match; [done|]. apply bind_Some in H as (pads & Hp & H). cbv zeta in H.
    apply count_pads_spec in Hp as (Hn & l' & Hrev & Hl'); [|lia]. rewrite Nat.sub_0_r in Hrev.
    apply (f_equal (@rev Z)) in Hrev. rewrite rev_involutive, rev_app_distr in Hrev.
    assert (rev (replicate pads (61 : Z)) = replicate pads 61) as Hrr by (etransitivity; [apply rev_alt|apply reverse_replicate]).
    rewrite Hrr in Hrev. set (content := rev l') in *. assert (take (length input - pads) input = content) as Hc.
    { rewrite Hrev, length_app, length_replicate, Nat.add_sub. by apply take_app_length. }
    rewrite Hc in H. destruct (length content mod 4 =? 1)%nat eqn:E1; [done|]. destruct ((0 <? pads)%nat && _) eqn:E2; [done|].
    assert (Forall is_byte content) as Hbc by (rewrite Hrev in Hb; by apply Forall_app in Hb as [? _]).
    b2p. apply content_decode in H as [Hd Hcd]; [|done..]. split; [done|]. destruct pads as [|pads].
    { exists false. by rewrite Hrev, app_nil_r. }
    exists true. rewrite Hrev, b64_pad, <-Hcd by done. do 2 f_equal.
    destruct (b64_length d) as [Hlen Hlen1]. rewrite <-Hcd in Hlen, Hlen1. pose proof (remainder_length 3 ltac:(lia) d) as Hr3.
    assert (pad_len (length (remainder 3 d)) ≤ 2)%nat by (unfold pad_len; repeat case_match; lia).
    apply Nat.Div0.mod_divides in Hlen as [k1 Hk1].
    apply andb_false_iff in E2 as [E2|E2]; [done|]. apply negb_false_iff, Nat.eqb_eq, Nat.Div0.mod_divides in E2 as [k2 Hk2]. lia.
  - intros [Hd [pad ->]]. pose proof (b64_symbols d Hd) as Hsym. destruct (b64_length d) as [Hlen Hlen1].
    assert (∃ k, b64 pad d = b64 false d ++ replicate k 61 ∧ (k ≤ 2)%nat ∧ (k = 0%nat ∨ ((length (b64 false d) + k) mod 4 = 0)%nat)) as (k & Heq & Hk & Hk4).
    { destruct pad; [|exists 0%nat; rewrite app_nil_r; split_and!; [done|lia|by left]].
      eexists. split; [by apply b64_pad|]. split; [unfold pad_len; repeat case_match; lia|by right]. }
    rewrite Heq in *. set (content := b64 false d) in *.
    assert (Forall is_byte content) as Hbc by (by apply Forall_app in Hb as [? _]).
    assert (match content ++ replicate k 61 with b :: _ => entry table b =? 255 | [] => false end = false) as ->.
    { destruct content as [|b content']; [|simpl; apply Z.eqb_neq; by apply symbol_facts, (Forall_inv Hsym)].
      destruct k as [|k]; [done|]. exfalso. destruct Hk4 as [|Hk4]; [done|]. simpl in Hk4. destruct k as [|[|]]; simpl in Hk4; lia. }
    assert (count_pads (rev (content ++ replicate k 61)) 0 = Some k) as ->.
    { rewrite rev_app_distr. assert (rev (replicate k (61 : Z)) = replicate k 61) as -> by (etransitivity; [apply rev_alt|apply reverse_replicate]).
      rewrite count_pads_replicate; [f_equal; lia| |lia].
      intros H. assert (61 ∈ content) as Hin by (apply list_elem_of_In, in_rev; destruct (rev content); [done|injection H as ->; by left]).
      rewrite Forall_forall in Hsym. by apply Hsym, symbol_facts in Hin as (_ & ? & _). }
    cbn [mbind option_bind]. cbv zeta. assert (take (length (content ++ replicate k 61) - k) (content ++ replicate k 61) = content) as ->.
    { rewrite length_app, length_replicate, Nat.add_sub. by apply take_app_length. }
    rewrite (proj2 (Nat.eqb_neq _ 1)) by done. assert ((0 <? k)%nat && negb ((length content + k) mod 4 =? 0)%nat = false) as ->.
    { destruct Hk4 as [->|Hk4]; [done|]. rewrite (proj2 (Nat.eqb_eq _ 0)) by done. by rewrite andb_false_r. }
    by apply content_decode.
Qed.

(** *** The encoder *)
Lemma base64_groups_ok cs o out : base64_groups alphabet cs o out = write_bytes o (concat (map (base64_group alphabet) cs)) out.
Proof.
  revert o out. induction cs as [|c cs IH]; intros o out; [done|]. cbn [base64_groups map concat]. rewrite write_bytes_app.
  change (length (base64_group alphabet c)) with 4%nat. destruct (write_bytes o (base64_group alphabet c) out); cbn [res_bind]; auto.
Qed.

Lemma tail_length pad rem : (length rem < 3)%nat → length (base64_tail alphabet pad rem) =
  match length rem with 0 => 0 | 1 => if pad then 4 else 2 | _ => if pad then 4 else 3 end%nat.
Proof. intros H. destruct rem as [|x [|y [|]]]; simpl in H; try lia; by destruct pad. Qed.

Lemma groups_length data : length (b64_groups data) = (4 * (length data / 3))%nat.
Proof.
  rewrite <-chunks_count by lia. unfold b64_groups. induction (chunks_exact 3 data) as [|c cs IH]; [done|].
  cbn [map concat length]. rewrite length_app, IH. change (length (base64_group alphabet c)) with 4%nat. lia.
Qed.

Lemma encoded_len_ok data pad : Z.of_nat (length (b64 pad data)) ≤ ISIZE_MAX →
  base64_encoded_len (Z.of_nat (length data)) pad = Some (Z.of_nat (length (b64 pad data))).
Proof.
  intros H. unfold base64_encoded_len. pose proof (Nat2Z.inj_div (length data) 3) as E1. pose proof (Nat2Z.inj_mod (length data) 3) as E2.
  change (Z.of_nat 3) with 3 in *. rewrite <-E1, <-E2, <-(remainder_mod 3 ltac:(lia)). clear E1 E2.
  unfold b64 in *. rewrite length_app, groups_length in *. pose proof (remainder_length 3 ltac:(lia) data) as Hr.
  pose proof (tail_length pad (remainder 3 data) Hr) as Ht.
  set (t := length (base64_tail alphabet pad (remainder 3 data))) in *. set (r := length (remainder 3 data)) in *.
  assert ((if Z.of_nat r =? 0 then 0 else if pad then 4 else if Z.of_nat r =? 1 then 2 else 3) = Z.of_nat t) as ->.
  { rewrite Ht. destruct r as [|[|[|]]]; [by destruct pad..|lia]. }
  clear Ht. unfold checked_usize, ISIZE_MAX, Encoding.USIZE_MAX in *.
  rewrite (proj2 (Z.leb_le _ (2 ^ 64 - 1))) by lia. cbn [mbind option_bind]. rewrite (proj2 (Z.leb_le _ (2 ^ 64 - 1))) by lia. f_equal. lia.
Qed.

Lemma encode_into_ok data pad : Z.of_nat (length (b64 pad data)) ≤ ISIZE_MAX →
  base64_encode_into_scalar data alphabet pad (replicate (length (b64 pad data)) None) = Ret (map Some (b64 pad data)).
Proof.
  intros H. unfold base64_encode_into_scalar. rewrite length_replicate, encoded_len_ok, decide_True by done.
  pose proof (chunks_count 3 ltac:(lia) data) as Hn. pose proof (groups_length data) as Hg.
  assert (length (b64 pad data) = 4 * (length data / 3) + length (base64_tail alphabet pad (remainder 3 data)))%nat as Hl by (unfold b64; rewrite length_app; lia).
  rewrite base64_groups_ok. change (concat (map (base64_group alphabet) (chunks_exact 3 data))) with (b64_groups data).
  replace (length data / 3 * 4)%nat with (0 + length (b64_groups data))%nat by lia. rewrite <-write_bytes_app.
  change (b64_groups data ++ base64_tail alphabet pad (remainder 3 data)) with (b64 pad data). apply write_fresh. by rewrite length_replicate.
Qed.
End Base64.

(** The two alphabets. *)
Definition alphabet_of (url : bool) : bytes := if url then BASE64_URL else BASE64_STD.
Definition base64_text (url pad : bool) (data : bytes) : bytes := b64 (alphabet_of url) pad data.

Lemma alphabet_symbols url : symbols (alphabet_of url) (if url then BASE64_URL_TABLE else BASE64_STD_TABLE).
Proof. destruct url; [apply url_symbols|apply std_symbols]. Qed.

Lemma exact_fill n fill content : n = Z.of_nat (length content) → n ≤ ISIZE_MAX →
  (content ≠ [] → fill (replicate (length content) None) = Ret (map Some content)) → owned_str_exact n fill = Ret (map Some content).
Proof.
  intros -> H Hf. unfold owned_str_exact. destruct content as [|b content]; [done|]. rewrite (proj2 (Z.eqb_neq _ 0)) by (simpl; lia).
  rewrite (proj2 (Z.ltb_ge _ _)) by done. rewrite Nat2Z.id. by apply Hf.
Qed.

(** C35. Base64 is canonical: the encoder fills its exact destination with the padded
    (standard) or unpadded (URL-safe) spelling whenever the length fits an [i64], and the
    decoder of either alphabet accepts exactly the two spellings of byte strings, padded
    and unpadded, and returns what they spell; whatever else — a foreign symbol, a stray
    or excess pad, an impossible length, non-zero trailing bits — it rejects. *)
Theorem base64_canonical :
  (∀ data, Z.of_nat (length (base64_text false true data)) ≤ ISIZE_MAX →
     align_rt_base64_encode data = Ret (map Some (base64_text false true data))) ∧
  (∀ data, Z.of_nat (length (base64_text true false data)) ≤ ISIZE_MAX →
     align_rt_base64url_encode data = Ret (map Some (base64_text true false data))) ∧
  (∀ url input d, Forall is_byte input →
     base64_decode_impl input url = Some d ↔ Forall is_byte d ∧ ∃ pad, input = base64_text url pad d).
Proof.
  split; [|split].
  - intros data H. unfold align_rt_base64_encode, base64_text in *. rewrite (encoded_len_ok BASE64_STD data true) by done.
    apply exact_fill; [done..|]. intros _. by apply encode_into_ok.
  - intros data H. unfold align_rt_base64url_encode, base64_text in *. rewrite (encoded_len_ok BASE64_URL data false) by done.
    apply exact_fill; [done..|]. intros _. by apply encode_into_ok.
  - intros url input d Hb. unfold base64_decode_impl. by apply decode_with_iff; [apply alphabet_symbols|].
Qed.
Lemma base64_canonical_witness : base64_decode_impl (str "Zm9vYg") false = Some (str "foob").
Proof.
  apply (proj2 (proj2 base64_canonical)); [|split; [|exists false]].
  - apply (bool_decide_unpack _). vm_compute. exact I.
  - apply (bool_decide_unpack _). vm_compute. exact I.
  - vm_compute. reflexivity.
Defined.
