(* ===== verification/EscapeSpec.v ===== *)
(** * Hex, percent, form and HTML encodings against their reference functions

    The writers fill exact destinations with the text their spelling gives; the
    counting loops that size them never overflow their narrow counters; the decoders,
    grouped and bulk-copying, compute a plain recursive decoder, which inverts the
    encoders. *)
From Stdlib Require Import ZArith Lia String.
From S2P Require Import Prelude Utf8 Encoding EncodingSpec.
Local Open Scope Z_scope.

(** ** Hex *)
Definition to_lower (b : Z) : Z := if (65 <=? b) && (b <=? 90) then b + 32 else b.
Definition hex_check (b : Z) : bool :=
  let v := hex_value b in
  ((v =? 255) || ((0 <=? v) && (v <? 16) && (entry HEX_LOWER v =? to_lower b))) &&
  forallb (λ n, implb (to_lower b =? entry HEX_LOWER (Z.of_nat n)) (v =? Z.of_nat n)) (seq 0 16).
Lemma hex_checked : forallb (λ i, hex_check (Z.of_nat i)) (seq 0 256) = true.
Proof. vm_compute. reflexivity. Qed.

Lemma hex_value_spec b : is_byte b →
  table_value (hex_value b) ∧ (hex_value b ≠ 255 → 0 ≤ hex_value b < 16 ∧ entry HEX_LOWER (hex_value b) = to_lower b).
Proof.
  intros Hb. pose proof (below_all 256 hex_check hex_checked b Hb) as H. unfold hex_check in H. apply andb_prop in H as [H _].
  unfold table_value. apply orb_true_iff in H as [H|H]; b2p; [split; [by left|done]|]. split; [right; lia|]. intros _. split; [lia|done].
Qed.
Lemma hex_value_of b v : is_byte b → 0 ≤ v < 16 → to_lower b = entry HEX_LOWER v → hex_value b = v.
Proof.
  intros Hb Hv Hl. pose proof (below_all 256 hex_check hex_checked b Hb) as H. unfold hex_check in H. apply andb_prop in H as [_ H].
  pose proof (below_all 16 (λ w, implb (to_lower b =? entry HEX_LOWER w) (hex_value b =? w)) H v Hv) as Hw. cbv beta in Hw.
  rewrite (proj2 (Z.eqb_eq _ _) Hl) in Hw. by apply Z.eqb_eq in Hw.
Qed.

Lemma nibbles_value a b : 0 ≤ a < 16 → 0 ≤ b < 16 → nibbles a b = a * 16 + b.
Proof.
  intros Ha Hb. unfold nibbles. rewrite shl8_mul, Z.mod_small by lia. rewrite <-Z.shiftl_mul_pow2, lor_low by lia. done.
Qed.
Lemma hex_pair_value hex b : is_byte b → hex_pair hex b = [entry hex (b / 16); entry hex (b mod 16)].
Proof. intros Hb. unfold hex_pair. rewrite Z.shiftr_div_pow2 by lia. change 15 with (2 ^ 4 - 1). by rewrite land_low. Qed.

(** Two hex digits are the lower-case spelling of one byte, up to case. *)
Lemma escape_byte_iff h l v : is_byte h → is_byte l →
  percent_escape_byte h l = Some v ↔ is_byte v ∧ [to_lower h; to_lower l] = hex_pair HEX_LOWER v.
Proof.
  intros Hh Hl. unfold percent_escape_byte. destruct (hex_value_spec h Hh) as [Vh Sh], (hex_value_spec l Hl) as [Vl Sl].
  destruct (table_lor _ _ Vh Vl) as [_ E]. unfold is_byte in *. split.
  - case_match; [done|]. intros [= <-]. b2p. rewrite E in *. destruct (Sh ltac:(tauto)) as [Rh Eh], (Sl ltac:(tauto)) as [Rl El].
    rewrite nibbles_value by done. split; [lia|]. rewrite hex_pair_value by (unfold is_byte; lia). rewrite <-Eh, <-El.
    f_equal; [f_equal; divs|]. f_equal. f_equal. divs.
  - intros [Hv Hp]. rewrite hex_pair_value in Hp by done. injection Hp as H1 H2.
    assert (0 ≤ v / 16 < 16) as R1 by divs. assert (0 ≤ v mod 16 < 16) as R2 by divs.
    pose proof (hex_value_of h _ Hh R1 H1) as E1. pose proof (hex_value_of l _ Hl R2 H2) as E2. rewrite E1, E2 in *.
    rewrite (proj2 (Z.eqb_neq _ 255)) by (rewrite E; clear -R1 R2; lia). rewrite nibbles_value by done. f_equal. clear. divs.
Qed.

(** The decoder, one pair at a time. *)
Fixpoint unhex (l : bytes) : option bytes :=
  match l with
  | [] => Some []
  | h :: l => match l with
              | [] => None
              | lo :: l => v ← percent_escape_byte h lo; rest ← unhex l; Some (v :: rest)
              end
  end.

Lemma hex_pairs_unhex l : (length l mod 2 = 0)%nat → hex_pairs (chunks_exact 2 l) = unhex l.
Proof.
  induction l as [l Hl|c l Hc IH] using (chunk_induction 2 ltac:(lia)); intros H.
  - destruct l as [|x [|]]; simpl in *; [done|done|lia].
  - rewrite length_app, Hc in H. rewrite <-Nat.Div0.add_mod_idemp_l, Nat.Div0.mod_same in H. rewrite chunks_exact_app by (done || lia).
    destruct c as [|x [|y [|]]]; try done. cbn [hex_pairs app unhex nth]. rewrite IH by done. unfold percent_escape_byte. by case_match.
Qed.
Lemma unhex_app a b : (length a mod 2 = 0)%nat → unhex (a ++ b) = x ← unhex a; y ← unhex b; Some (x ++ y).
Proof.
  induction a as [a Ha|c a Hc IH] using (chunk_induction 2 ltac:(lia)); intros H.
  - destruct a as [|x [|]]; simpl in *; [by destruct (unhex b)|done|lia].
  - rewrite length_app, Hc in H. rewrite <-Nat.Div0.add_mod_idemp_l, Nat.Div0.mod_same in H.
    destruct c as [|x [|y [|]]]; try done. cbn [app unhex]. destruct (percent_escape_byte x y); cbn [mbind option_bind]; [|done].
    rewrite IH by done. destruct (unhex a); cbn [mbind option_bind]; [|done]. by destruct (unhex b).
Qed.

Lemma lor_eight a b c d e f g h : table_value a → table_value b → table_value c → table_value d → table_value e → table_value f → table_value g → table_value h →
  (Z.lor (Z.lor (Z.lor (Z.lor (Z.lor (Z.lor (Z.lor a b) c) d) e) f) g) h =? 255) =
  (Z.lor a b =? 255) || (Z.lor c d =? 255) || (Z.lor e f =? 255) || (Z.lor g h =? 255).
Proof.
  intros Ha Hb Hc Hd He Hf Hg Hh.
  destruct (table_lor _ _ Ha Hb) as [V1 _], (table_lor _ _ Hc Hd) as [V2 _], (table_lor _ _ He Hf) as [V3 _], (table_lor _ _ Hg Hh) as [V4 _].
  destruct (table_lor _ _ V1 V2) as [V12 E12]. destruct (table_lor _ _ V12 V3) as [V123 E123]. destruct (table_lor _ _ V123 V4) as [_ E].
  replace (Z.lor (Z.lor (Z.lor (Z.lor (Z.lor (Z.lor (Z.lor a b) c) d) e) f) g) h) with (Z.lor (Z.lor (Z.lor (Z.lor a b) (Z.lor c d)) (Z.lor e f)) (Z.lor g h))
    by (by rewrite !Z.lor_assoc).
  apply eq_true_iff_eq. rewrite !orb_true_iff, !Z.eqb_eq. rewrite E, E123, E12. tauto.
Qed.

Lemma hex_groups_cons g gs : length g = 8%nat → Forall is_byte g →
  hex_groups (g :: gs) = x ← unhex g; y ← hex_groups gs; Some (x ++ y).
Proof.
  intros Hg Hb. destruct g as [|a [|b [|c [|d [|e [|f [|k [|h [|]]]]]]]]]; try done. rewrite !Forall_cons in Hb.
  destruct Hb as (Ba & Bb & Bc & Bd & Be & Bf & Bk & Bh & _).
  cbn [hex_groups nth unhex]. rewrite lor_eight by (by apply hex_value_spec). unfold percent_escape_byte. cbv zeta.
  destruct (Z.lor (hex_value a) (hex_value b) =? 255); [done|]. destruct (Z.lor (hex_value c) (hex_value d) =? 255); [done|].
  destruct (Z.lor (hex_value e) (hex_value f) =? 255); [done|]. destruct (Z.lor (hex_value k) (hex_value h) =? 255); [done|].
  cbn [orb mbind option_bind]. by destruct (hex_groups gs).
Qed.

Lemma hex_decode_unhex l : Forall is_byte l → hex_decode_impl l = unhex l.
Proof.
  intros Hb. unfold hex_decode_impl. destruct (Nat.eqb_spec (length l mod 2) 0) as [Hl|Hl]; cbn [negb].
  - transitivity (unhex (concat (chunks_exact 8 l) ++ remainder 8 l)); [|by rewrite chunks_concat by lia]. pose proof (chunks_concat 8 ltac:(lia) l) as Hcat.
    assert (length (concat (chunks_exact 8 l)) mod 2 = 0)%nat as Hc.
    { pose proof (whole_length 8 ltac:(lia) _ (chunks_concat_whole 8 ltac:(lia) l)) as H8. apply Nat.Div0.mod_divides in H8 as [k ->].
      replace (8 * k)%nat with (4 * k * 2)%nat by lia. apply Nat.Div0.mod_mul. }
    assert (length (remainder 8 l) mod 2 = 0)%nat as Hr.
    { rewrite <-Hcat, length_app, <-Nat.Div0.add_mod_idemp_l, Hc in Hl. done. }
    rewrite unhex_app by done. rewrite hex_pairs_unhex by done. f_equal.
    clear Hl Hcat Hc Hr. induction l as [l Hl|c l Hc IH] using (chunk_induction 8 ltac:(lia)); [by rewrite chunks_exact_short by lia|].
    apply Forall_app in Hb as [Hbc Hbl]. rewrite chunks_exact_app by (done || lia). rewrite hex_groups_cons by done. simpl concat.
    rewrite unhex_app by (by rewrite Hc). rewrite IH by done. done.
  - clear Hb. symmetry. induction l as [l H|c l Hc IH] using (chunk_induction 2 ltac:(lia)).
    + destruct l as [|x [|]]; simpl in *; [done|done|lia].
    + rewrite length_app, Hc in Hl. rewrite <-Nat.Div0.add_mod_idemp_l, Nat.Div0.mod_same in Hl.
      destruct c as [|x [|y [|]]]; try done. cbn [app unhex]. destruct (percent_escape_byte x y); cbn [mbind option_bind]; [|done]. by rewrite IH.
Qed.

Definition hex_text (data : bytes) : bytes := spelled_by (hex_pair HEX_LOWER) data.

Lemma unhex_iff l d : Forall is_byte l → unhex l = Some d ↔ Forall is_byte d ∧ map to_lower l = hex_text d.
Proof.
  revert d. induction l as [l Hl|c l Hc IH] using (chunk_induction 2 ltac:(lia)); intros d Hb.
  - destruct l as [|x [|]]; simpl in *; [|split; [done|]; intros [_ H]; by destruct d|lia].
    split; [by intros [= <-]|]. intros [_ H]. by destruct d.
  - destruct c as [|x [|y [|]]]; try done. apply Forall_app in Hb as [Hc2 Hbl]. rewrite !Forall_cons in Hc2. destruct Hc2 as (Hx & Hy & _).
    cbn [app unhex map]. split.
    + intros H. apply bind_Some in H as (v & Hv & H). apply bind_Some in H as (rest & Hr & H). injection H as <-.
      apply escape_byte_iff in Hv as [Bv Ev]; [|done..]. apply IH in Hr as [Br Er]; [|done]. split; [by constructor|].
      unfold hex_text, spelled_by. cbn [map concat]. rewrite <-Ev. cbn [app]. by rewrite Er.
    + intros [Hd He]. destruct d as [|v d]; [done|]. apply Forall_cons in Hd as [Bv Bd]. unfold hex_text, spelled_by in He. cbn [map concat] in He.
      assert (hex_pair HEX_LOWER v = [entry HEX_LOWER (Z.shiftr v 4); entry HEX_LOWER (Z.land v 15)]) as Hp by done. rewrite Hp in He.
      cbn [app] in He. injection He as H1 H2 H3.
      rewrite (proj2 (escape_byte_iff x y v Hx Hy)) by (split; [done|]; by rewrite Hp, H1, H2). cbn [mbind option_bind].
      rewrite (proj2 (IH d Hbl)) by done. done.
Qed.

Lemma hex_text_length d : length (hex_text d) = (2 * length d)%nat.
Proof. unfold hex_text, spelled_by. induction d as [|b d IH]; [done|]. cbn [map concat length]. rewrite length_app, IH. simpl. lia. Qed.

(** Hex: the encoder fills its exact destination with two lower-case digits a byte, and
    the decoder, which reads eight digits at a time, accepts exactly the texts that are
    such an encoding up to the case of their letters. *)
Lemma hex_canonical :
  (∀ data, Z.of_nat (2 * length data) ≤ ISIZE_MAX → align_rt_hex_encode data = Ret (map Some (hex_text data))) ∧
  (∀ input d, Forall is_byte input → hex_decode_impl input = Some d ↔ Forall is_byte d ∧ map to_lower input = hex_text d).
Proof.
  split.
  - intros data H. unfold align_rt_hex_encode, hex_encode_into_scalar. pose proof (hex_text_length data) as Hl.
    assert (checked_usize (Z.of_nat (length data) * 2) = Some (Z.of_nat (length (hex_text data)))) as Hc.
    { unfold checked_usize, ISIZE_MAX, Encoding.USIZE_MAX in *. rewrite (proj2 (Z.leb_le _ _)) by lia. f_equal. lia. }
    rewrite Hc. cbn [or_abort]. apply exact_fill; [done|lia|]. intros _. rewrite length_replicate, decide_True by done.
    rewrite spell_fresh by (by rewrite length_replicate). done.
  - intros input d Hb. rewrite hex_decode_unhex by done. by apply unhex_iff.
Qed.
Lemma hex_canonical_witness : hex_decode_impl (str "00fFA9") = Some [0; 255; 169].
Proof.
  apply (proj2 hex_canonical); [|split].
  - apply (bool_decide_unpack _). vm_compute. exact I.
  - apply (bool_decide_unpack _). vm_compute. exact I.
  - vm_compute. reflexivity.
Defined.

(** ** Counting in narrow counters *)
Definition total_weight (weight : Z → Z) (data : bytes) : Z := foldr (λ b acc, weight b + acc) 0 data.
Lemma total_weight_app weight a b : total_weight weight (a ++ b) = total_weight weight a + total_weight weight b.
Proof. unfold total_weight. induction a as [|x a IH]; simpl; [done|]. rewrite IH. lia. Qed.

Section Weights.
Context (weight : Z → Z) (k : Z) (Hweight : ∀ b, 0 ≤ weight b ≤ k).
Lemma total_weight_bounds data : 0 ≤ total_weight weight data ≤ k * Z.of_nat (length data).
Proof. induction data as [|b data IH]; simpl; [lia|]. pose proof (Hweight b). lia. Qed.
Lemma sum_u8_ok c count : 0 ≤ count → count + k * Z.of_nat (length c) ≤ 255 → sum_u8 weight c count = Ret (count + total_weight weight c).
Proof.
  revert count. induction c as [|b c IH]; intros count H0 H; simpl; [f_equal; lia|]. pose proof (Hweight b). cbn [length] in H.
  assert (0 ≤ k) by lia. rewrite (proj2 (Z.leb_le _ _)) by nia. rewrite IH by nia. f_equal. lia.
Qed.
Lemma sum_chunks_ok n data total : k * Z.of_nat n ≤ 255 → (0 < n)%nat →
  sum_chunks weight (slice_chunks n data) total = Ret (total + total_weight weight data).
Proof.
  intros Hk Hn. rewrite <-(slice_chunks_concat n Hn data) at 2. pose proof (slice_chunks_size n Hn data) as Hs.
  revert total. induction (slice_chunks n data) as [|c cs IH]; intros total; simpl; [f_equal; lia|]. apply Forall_cons in Hs as [Hc Hs].
  pose proof (Hweight 0). rewrite sum_u8_ok by nia. cbn [res_bind]. rewrite IH by done. rewrite total_weight_app. f_equal. lia.
Qed.
End Weights.

Lemma lane_check : forallb (λ i, let b := Z.of_nat i in
  forallb (λ ss : bool * bool, Bool.eqb (lane_unescaped ss.1 ss.2 b) (is_unreserved b || (ss.1 && (b =? 47)) || (ss.2 && (b =? 32))))
    [(false, false); (true, false); (false, true); (true, true)]) (seq 0 256) = true.
Proof. vm_compute. reflexivity. Qed.
(** The lane comparisons classify bytes as the scalar test does. *)
Lemma lane_unescaped_spec slash space b : is_byte b →
  lane_unescaped slash space b = is_unreserved b || (slash && (b =? "/"%u8)) || (space && (b =? " "%u8)).
Proof.
  intros Hb. pose proof (below_all 256 (λ b, forallb (λ ss : bool * bool, Bool.eqb (lane_unescaped ss.1 ss.2 b)
    (is_unreserved b || (ss.1 && (b =? 47)) || (ss.2 && (b =? 32)))) [(false, false); (true, false); (false, true); (true, true)]) lane_check b Hb) as H.
  cbn [forallb fst snd] in H. repeat (apply andb_prop in H as [? H]).
  destruct slash, space; apply eqb_prop; assumption.
Qed.

(** ** Writers whose escapes take two more bytes *)
Section Escape.
Context (slash space : bool) (spell : Z → bytes).
Context (Hspell : ∀ b, is_byte b → Z.of_nat (length (spell b)) = 1 + 2 * escaped_weight slash space b).
Let weight : Z → Z := escaped_weight slash space.

Lemma escaped_weight_bounds b : 0 ≤ weight b ≤ 1.
Proof. unfold weight, escaped_weight. destruct (lane_unescaped slash space b); lia. Qed.
Lemma spelled_length data : Forall is_byte data →
  Z.of_nat (length (spelled_by spell data)) = Z.of_nat (length data) + 2 * total_weight weight data.
Proof.
  induction 1 as [|b data Hb _ IH]; [done|]. unfold spelled_by in *. cbn [map concat length total_weight foldr].
  rewrite length_app, !Nat2Z.inj_add, Hspell by done. change (foldr _ 0 data) with (total_weight weight data). fold weight. lia.
Qed.
Lemma escaped_byte_count_ok data : escaped_byte_count slash space data = Ret (total_weight weight data).
Proof. unfold escaped_byte_count. rewrite (sum_chunks_ok weight 1 escaped_weight_bounds) by lia. done. Qed.

Lemma grown_len_ok data : Forall is_byte data → Z.of_nat (length (spelled_by spell data)) ≤ ISIZE_MAX →
  grown_len data (total_weight weight data) = Some (Z.of_nat (length (spelled_by spell data))).
Proof.
  intros Hd H. rewrite spelled_length in * by done. pose proof (total_weight_bounds weight 1 escaped_weight_bounds data).
  unfold grown_len, checked_usize, ISIZE_MAX, Encoding.USIZE_MAX in *. rewrite (proj2 (Z.leb_le (_ * 2) _)) by lia. cbn [mbind option_bind].
  rewrite (proj2 (Z.leb_le _ _)) by lia. f_equal. lia.
Qed.

Definition unescaped (data : bytes) : Prop := Forall (λ b, weight b = 0) data.
Lemma total_weight_zero data : total_weight weight data = 0 → unescaped data.
Proof.
  induction data as [|b data IH]; [constructor|]. cbn [total_weight foldr]. intros H.
  pose proof (total_weight_bounds weight 1 escaped_weight_bounds data) as Hb. unfold total_weight in Hb.
  pose proof (escaped_weight_bounds b). constructor; [lia|]. apply IH. unfold total_weight. lia.
Qed.

Lemma same_width_ok data : ∃ p, escaped_same_width_prefix slash space data = Ret p ∧ (p ≤ length data)%nat ∧ unescaped (take p data).
Proof.
  unfold escaped_same_width_prefix. case_if; [exists 0%nat; split_and!; [done|lia|constructor]|].
  assert (∃ p, same_width_chunks slash space (chunks_exact 128 data) = Ret p ∧ (p ≤ length (concat (chunks_exact 128 data)))%nat ∧
    unescaped (take p (concat (chunks_exact 128 data)))) as (p & Hp & Hl & Hu).
  { induction (chunks_exact 128 data) as [|c cs IH]; [exists 0%nat; split_and!; [done|simpl; lia|constructor]|]. simpl.
    rewrite escaped_byte_count_ok. cbn [res_bind]. destruct (Z.eqb_spec (total_weight weight c) 0) as [H0|H0].
    - destruct IH as (p & -> & Hl & Hu). exists (length c + p)%nat. cbn [res_bind]. rewrite length_app. split_and!; [done|lia|].
      rewrite take_app_add. apply Forall_app. split; [by apply total_weight_zero|done].
    - exists 0%nat. split_and!; [done|lia|constructor]. }
  exists p. pose proof (chunks_concat 128 ltac:(lia) data) as Hcat. split; [done|]. rewrite <-Hcat, length_app. split; [lia|].
  by rewrite take_app_le.
Qed.

Lemma copy_slice_fresh bs out : length out = length bs → copy_slice bs out = Ret (map Some bs).
Proof. intros H. unfold copy_slice. by rewrite H, Nat.eqb_refl. Qed.
Lemma assert_fresh bs : assert_len (length bs) (map Some bs) = Ret (map Some bs).
Proof. unfold assert_len. by rewrite length_map, Nat.eqb_refl. Qed.

(** The whole entry: an unchanged copy, or a prefix written as it is and the rest spelled. *)
Lemma escape_entry (copy : bytes → Out → res Out) (rest : bytes → Out → res Out) data :
  (∀ bs out, Forall is_byte bs → unescaped bs → length out = length bs → copy bs out = Ret (map Some (spelled_by spell bs))) →
  (∀ bs out, length out = length (spelled_by spell bs) → rest bs out = Ret (map Some (spelled_by spell bs))) →
  Forall is_byte data → Z.of_nat (length (spelled_by spell data)) ≤ ISIZE_MAX →
  or_abort (grown_len data (total_weight weight data)) (λ out_len, owned_str_exact out_len (λ out,
    if out_len =? Z.of_nat (length data) then copy data out
    else
      let* prefix := escaped_same_width_prefix slash space data in
      let* '(same, remaining) := split_at prefix out in
      let* same := copy (take prefix data) same in
      let* remaining := rest (drop prefix data) remaining in
      Ret (same ++ remaining))) = Ret (map Some (spelled_by spell data)).
Proof.
  intros Hcopy Hrest Hd H. rewrite grown_len_ok by done. cbn [or_abort]. apply exact_fill; [done..|]. intros _.
  pose proof (spelled_length data Hd) as Hl. destruct (Z.eqb_spec (Z.of_nat (length (spelled_by spell data))) (Z.of_nat (length data))) as [He|He].
  - apply Hcopy; [done|apply total_weight_zero; lia|rewrite length_replicate; lia].
  - destruct (same_width_ok data) as (p & -> & Hp & Hu). cbn [res_bind].
    assert (Forall is_byte (take p data)) as Hb by (by apply Forall_take).
    assert (length (spelled_by spell (take p data)) = p) as Hsp.
    { pose proof (spelled_length (take p data) Hb) as Hs. assert (total_weight weight (take p data) = 0) as H0.
      { clear -Hu. induction Hu as [|b l Hb _ IH]; [done|]. unfold total_weight in *. simpl. lia. }
      rewrite H0, length_take in Hs. lia. }
    assert (spelled_by spell data = spelled_by spell (take p data) ++ spelled_by spell (drop p data)) as Hcat.
    { unfold spelled_by. rewrite <-concat_app, <-map_app, take_drop. done. }
    rewrite Hcat, length_app, Hsp. unfold split_at. rewrite length_replicate, (proj2 (Nat.leb_le _ _)) by lia. cbn [res_bind].
    rewrite take_replicate, drop_replicate. rewrite Hcopy by (try done; rewrite length_replicate, length_take; lia). cbn [res_bind].
    rewrite Hrest by (rewrite length_replicate; lia). cbn [res_bind]. by rewrite map_app.
Qed.
End Escape.

(** ** Percent and form encoders *)
Lemma percent_spell_width slash b : is_byte b →
  Z.of_nat (length (percent_spell slash b)) = 1 + 2 * escaped_weight slash false b.
Proof.
  intros Hb. unfold percent_spell, escaped_weight. rewrite lane_unescaped_spec by done. cbn [andb]. rewrite orb_false_r. by case_if.
Qed.
Lemma form_spell_width b : is_byte b → Z.of_nat (length (form_spell b)) = 1 + 2 * escaped_weight false true b.
Proof.
  intros Hb. unfold form_spell, escaped_weight. rewrite lane_unescaped_spec by done. cbn [andb]. rewrite orb_false_r.
  destruct (b =? " "%u8); [by rewrite orb_true_r|]. rewrite orb_false_r. by destruct (is_unreserved b).
Qed.
Lemma percent_copy slash bs : Forall is_byte bs → unescaped slash false bs → spelled_by (percent_spell slash) bs = bs.
Proof.
  intros Hb Hu. induction Hu as [|b bs H0 _ IH]; [done|]. apply Forall_cons in Hb as [Hb Hbs]. unfold spelled_by in *. cbn [map concat].
  rewrite IH by done. pose proof (percent_spell_width slash b Hb) as Hw. rewrite H0 in Hw. unfold percent_spell in *. by destruct (_ || _).
Qed.
Lemma form_copy bs : Forall is_byte bs → unescaped false true bs →
  spelled_by form_spell bs = map (λ b, if b =? " "%u8 then "+"%u8 else b) bs.
Proof.
  intros Hb Hu. induction Hu as [|b bs H0 _ IH]; [done|]. apply Forall_cons in Hb as [Hb Hbs]. unfold spelled_by in *. cbn [map concat].
  rewrite IH by done. pose proof (form_spell_width b Hb) as Hw. rewrite H0 in Hw. unfold form_spell in *.
  destruct (b =? " "%u8); [done|]. by destruct (is_unreserved b).
Qed.
Lemma percent_rest_fresh slash bs out : length out = length (spelled_by (percent_spell slash) bs) →
  percent_encode_into_with_slash bs out slash = Ret (map Some (spelled_by (percent_spell slash) bs)).
Proof. intros H. unfold percent_encode_into_with_slash. rewrite spell_fresh by done. cbn [res_bind]. rewrite H. apply assert_fresh. Qed.
Lemma form_rest_fresh bs out : length out = length (spelled_by form_spell bs) →
  form_encode_into bs out = Ret (map Some (spelled_by form_spell bs)).
Proof. intros H. unfold form_encode_into. rewrite spell_fresh by done. cbn [res_bind]. rewrite H. apply assert_fresh. Qed.
Lemma form_copy_fresh bs out : Forall is_byte bs → unescaped false true bs → length out = length bs →
  form_same_width_into bs out = Ret (map Some (spelled_by form_spell bs)).
Proof.
  intros Hb Hu H. unfold form_same_width_into, assert_len. rewrite H, Nat.eqb_refl. cbn [res_bind].
  rewrite form_copy by done. unfold write_copy. rewrite length_map, (proj2 (Nat.leb_le _ _)) by lia. simpl.
  rewrite drop_ge by lia. by rewrite app_nil_r.
Qed.

Lemma percent_entry_ok slash data : Forall is_byte data → Z.of_nat (length (spelled_by (percent_spell slash) data)) ≤ ISIZE_MAX →
  percent_encode_entry slash data = Ret (map Some (spelled_by (percent_spell slash) data)).
Proof.
  intros Hd H. unfold percent_encode_entry, percent_encoded_len_with_slash. rewrite escaped_byte_count_ok. cbn [res_bind].
  rewrite <-(escape_entry slash false (percent_spell slash) (percent_spell_width slash) copy_slice
    (λ bs out, if slash then percent_encode_into_with_slash bs out true else percent_encode_into bs out) data); [done| | |done..].
  - intros bs out Hb Hu Hl. rewrite percent_copy by done. by apply copy_slice_fresh.
  - intros bs out Hl. destruct slash; by apply percent_rest_fresh.
Qed.
Lemma form_entry_ok data : Forall is_byte data → Z.of_nat (length (spelled_by form_spell data)) ≤ ISIZE_MAX →
  align_rt_form_encode data = Ret (map Some (spelled_by form_spell data)).
Proof.
  intros Hd H. unfold align_rt_form_encode, form_encoded_len. rewrite escaped_byte_count_ok. cbn [res_bind].
  rewrite <-(escape_entry false true form_spell form_spell_width form_same_width_into form_encode_into data); [done| | |done..].
  - intros bs out Hb Hu Hl. by apply form_copy_fresh.
  - intros bs out Hl. by apply form_rest_fresh.
Qed.

(** ** The reference decoder *)
Fixpoint unescape (form : bool) (l : bytes) : option bytes :=
  match l with
  | [] => Some []
  | b :: l =>
      if form && (b =? "+"%u8) then cons " "%u8 <$> unescape form l
      else if b =? "%"%u8 then
        match l with
        | h :: lo :: l => v ← percent_escape_byte h lo; cons v <$> unescape form l
        | _ => None
        end
      else cons b <$> unescape form l
  end.

Lemma unescape_literal form a l : Forall (λ b, is_escape form b = false) a → unescape form (a ++ l) = app a <$> unescape form l.
Proof.
  induction 1 as [|b a Hb _ IH]; [simpl; by destruct (unescape form l)|]. unfold is_escape in Hb. apply orb_false_iff in Hb as [Hp Hf].
  cbn [app unescape]. rewrite Hf, Hp, IH. simpl. by destruct (unescape form l).
Qed.

Lemma hex_upper_check : forallb (λ i, let b := Z.of_nat i in
  match percent_escape_byte (entry HEX_UPPER (Z.shiftr b 4)) (entry HEX_UPPER (Z.land b 15)) with Some v => v =? b | None => false end) (seq 0 256) = true.
Proof. vm_compute. reflexivity. Qed.
Lemma hex_upper_escape b : is_byte b → percent_escape_byte (entry HEX_UPPER (Z.shiftr b 4)) (entry HEX_UPPER (Z.land b 15)) = Some b.
Proof.
  intros Hb. pose proof (below_all 256 (λ b, match percent_escape_byte (entry HEX_UPPER (Z.shiftr b 4)) (entry HEX_UPPER (Z.land b 15))
    with Some v => v =? b | None => false end) hex_upper_check b Hb) as H. cbv beta in H. case_match; [|done]. apply Z.eqb_eq in H. by subst.
Qed.

Lemma unescape_percent slash data : Forall is_byte data → unescape false (spelled_by (percent_spell slash) data) = Some data.
Proof.
  induction 1 as [|b data Hb _ IH]; [done|]. unfold spelled_by in *. cbn [map concat]. unfold percent_spell at 1.
  destruct (is_unreserved b || _) eqn:Hu.
  - cbn [app unescape andb]. rewrite IH. destruct (Z.eqb_spec b "%"%u8) as [->|]; [|done]. by destruct slash.
  - cbn [app unescape andb hex_pair]. change ("%"%u8 =? "%"%u8) with true. cbn match. rewrite hex_upper_escape by done.
    cbn [mbind option_bind]. by rewrite IH.
Qed.
Lemma unescape_form data : Forall is_byte data → unescape true (spelled_by form_spell data) = Some data.
Proof.
  induction 1 as [|b data Hb _ IH]; [done|]. unfold spelled_by in *. cbn [map concat]. unfold form_spell at 1.
  destruct (Z.eqb_spec b " "%u8) as [->|Hs]; [cbn [app unescape andb]; by rewrite IH|]. destruct (is_unreserved b) eqn:Hu.
  - cbn [app unescape andb]. rewrite IH. destruct (Z.eqb_spec b "+"%u8) as [->|]; [done|].
    by destruct (Z.eqb_spec b "%"%u8) as [->|].
  - cbn [app unescape andb hex_pair]. change ("%"%u8 =? "+"%u8) with false. change ("%"%u8 =? "%"%u8) with true. cbn match.
    rewrite hex_upper_escape by done. cbn [mbind option_bind]. by rewrite IH.
Qed.

(** ** What a search returns *)
Definition first_hit (p : Z → bool) (l : bytes) (found : option nat) : Prop :=
  match found with
  | Some i => (∃ b, l !! i = Some b ∧ p b = true) ∧ Forall (λ b, p b = false) (take i l)
  | None => Forall (λ b, p b = false) l
  end.
Lemma first_hit_prefix p l found : first_hit p l found →
  (default (length l) found ≤ length l)%nat ∧ Forall (λ b, p b = false) (take (default (length l) found) l).
Proof.
  destruct found as [i|]; simpl; [|intros H; split; [done|by rewrite take_ge]].
  intros [(b & Hl & _) H]. apply lookup_lt_Some in Hl. split; [lia|done].
Qed.
Lemma find_byte_hit p l : first_hit p l (find_byte p l).
Proof.
  induction l as [|b l IH]; simpl; [constructor|]. destruct (p b) eqn:Hb; [split; [by exists b|constructor]|].
  destruct (find_byte p l) as [i|]; simpl in *; [|by constructor]. destruct IH as [Hi Hf]. split; [done|by constructor].
Qed.

Section Decoders.
Context (memchr : Z → bytes → option nat) (memchr2 : Z → Z → bytes → option nat).
(** What the crate documents: the index of the first occurrence. *)
Context (Hmemchr : ∀ c l, first_hit (λ b, b =? c) l (memchr c l)).
Context (Hmemchr2 : ∀ c d l, first_hit (λ b, (b =? c) || (b =? d)) l (memchr2 c d l)).

Lemma find_escape_hit form l : first_hit (is_escape form) l (find_escape memchr memchr2 form l).
Proof.
  destruct form; simpl; [apply Hmemchr2|]. pose proof (Hmemchr "%"%u8 l) as H.
  assert (∀ b, is_escape false b = (b =? "%"%u8)) as E by (intros b; unfold is_escape; cbn [andb]; apply orb_false_r).
  destruct (memchr _ l) as [i|]; simpl in *.
  - destruct H as [(b & Hl & Hb) H]. split; [exists b; by rewrite E|]. eapply Forall_impl; [exact H|]. intros x Hx. by rewrite E.
  - eapply Forall_impl; [exact H|]. intros x Hx. by rewrite E.
Qed.

Lemma unescape_step form input i b : input !! i = Some b →
  unescape form (drop i input) =
    if form && (b =? "+"%u8) then cons " "%u8 <$> unescape form (drop (i + 1) input)
    else if b =? "%"%u8 then
      match input !! (i + 1)%nat, input !! (i + 2)%nat with
      | Some h, Some l => v ← percent_escape_byte h l; cons v <$> unescape form (drop (i + 3) input)
      | _, _ => None
      end
    else cons b <$> unescape form (drop (i + 1) input).
Proof.
  intros Hb. rewrite (drop_S _ _ _ Hb). cbn [unescape]. rewrite Nat.add_1_r. case_match; [done|]. case_match; [|done].
  destruct (input !! S i) as [h|] eqn:Hh; [|rewrite drop_ge by (by apply lookup_ge_None); done]. rewrite (drop_S _ _ _ Hh).
  replace (i + 2)%nat with (S (S i)) by lia.
  destruct (input !! S (S i)) as [l|] eqn:Hl; [|rewrite drop_ge by (by apply lookup_ge_None); done]. rewrite (drop_S _ _ _ Hl).
  by replace (i + 3)%nat with (S (S (S i))) by lia.
Qed.

(** The loop computes the reference decoder of what is left, whatever its run counter, with fuel for each byte left. *)
Lemma decode_loop_ok form bulk input fuel i ordinary : (i ≤ length input)%nat → (length input ≤ fuel + i)%nat →
  decode_loop memchr memchr2 form bulk input fuel i ordinary = Ret (unescape form (drop i input)).
Proof.
  revert i ordinary. induction fuel as [|fuel IH]; intros i ordinary Hi Hf; cbn [decode_loop].
  - rewrite (proj2 (Nat.ltb_ge _ _)) by lia. cbn [negb]. by rewrite drop_ge by lia.
  - destruct (Nat.ltb_spec i (length input)) as [Hlt|Hge]; cbn [negb]; [|by rewrite drop_ge by lia].
    destruct (lookup_lt_is_Some_2 input i Hlt) as [b Hb]. rewrite (unescape_step form input i b Hb). rewrite Hb. cbn [unwrap res_bind].
    destruct (form && (b =? "+"%u8)) eqn:Hplus; [rewrite IH by lia; done|].
    destruct (b =? "%"%u8) eqn:Hpct.
    + destruct (Nat.leb_spec (length input) (i + 2)) as [Hs|Hs].
      * rewrite (lookup_ge_None_2 input (i + 2)) by lia. by destruct (input !! (i + 1)%nat).
      * destruct (lookup_lt_is_Some_2 input (i + 1) ltac:(lia)) as [h Hh]. destruct (lookup_lt_is_Some_2 input (i + 2) ltac:(lia)) as [l Hl].
        rewrite Hh, Hl. cbn [unwrap res_bind]. destruct (percent_escape_byte h l); [|done]. cbn [mbind option_bind]. rewrite IH by lia. done.
    + cbv zeta. destruct (_ && _ && _) eqn:Hbulk; [|rewrite IH by lia; done].
      pose proof (find_escape_hit form (drop (i + 1) input)) as Hhit. apply first_hit_prefix in Hhit as [Hle Hfree].
      set (copied := default (length (drop (i + 1) input)) (find_escape memchr memchr2 form (drop (i + 1) input))) in *.
      rewrite (proj2 (Nat.leb_le _ _)) by done. rewrite length_drop in Hle. rewrite IH by lia. cbn [res_bind].
      rewrite <-(take_drop copied (drop (i + 1) input)) at 2. rewrite unescape_literal by done. rewrite drop_drop.
      by destruct (unescape form (drop (i + 1 + copied) input)).
Qed.

Lemma literal_prefix_ok form input : (escaped_literal_prefix memchr memchr2 form input ≤ length input)%nat ∧
  Forall (λ b, is_escape form b = false) (take (escaped_literal_prefix memchr memchr2 form input) input).
Proof.
  unfold escaped_literal_prefix. destruct (Nat.ltb_spec (length input) 64) as [|Hl]; [split; [lia|constructor]|].
  destruct (existsb _ _) eqn:He; [split; [lia|constructor]|].
  pose proof (first_hit_prefix _ _ _ (find_escape_hit form (drop 16 input))) as [Hle Hfree].
  set (n := default _ _) in *. rewrite length_drop in Hle. split; [lia|].
  rewrite <-(take_drop 16 input), take_app_add' by (rewrite length_take; lia). apply Forall_app. split; [|done].
  apply Forall_forall. intros x Hx. destruct (is_escape form x) eqn:Ex; [|done].
  assert (existsb (is_escape form) (take 16 input) = true); [|congruence]. apply existsb_exists. exists x. split; [by apply list_elem_of_In|done].
Qed.
Lemma decode_runs_ok form bulk input : decode_runs memchr memchr2 form bulk input = Ret (unescape form input).
Proof.
  unfold decode_runs. destruct (literal_prefix_ok form input) as [Hle Hfree]. set (i := escaped_literal_prefix _ _ _ _) in *.
  rewrite (proj2 (Nat.leb_le _ _)) by done. rewrite decode_loop_ok by lia. cbn [res_bind].
  rewrite <-(take_drop i input) at 3. by rewrite unescape_literal.
Qed.

(** C36. Percent and form decoding, with its copied literal prefix, its runs copied up to the
    next escape and its two loops by length, computes a plain recursive decoder on every
    input: no index or slice is out of range, a bad or truncated escape is the only refusal,
    and the fuel is enough. *)
Theorem escape_decoders_reference input :
  percent_decode_impl memchr memchr2 input = Ret (unescape false input) ∧
  form_decode_impl memchr memchr2 input = Ret (unescape true input).
Proof. unfold percent_decode_impl, form_decode_impl. split; case_if; apply decode_runs_ok. Qed.
End Decoders.

Lemma escape_decoders_reference_witness :
  percent_decode_impl (λ c, find_byte (λ b, b =? c)) (λ c d, find_byte (λ b, (b =? c) || (b =? d))) (str "a%2Fb+%") = Ret None.
Proof.
  refine (eq_trans (proj1 (escape_decoders_reference (λ c, find_byte (λ b, b =? c)) (λ c d, find_byte (λ b, (b =? c) || (b =? d))) _ _
    (str "a%2Fb+%"))) _).
  - intros c l. apply find_byte_hit.
  - intros c d l. apply find_byte_hit.
  - vm_compute. reflexivity.
Defined.

Lemma spelled_fits slash space spell : (∀ b, is_byte b → Z.of_nat (length (spell b)) = 1 + 2 * escaped_weight slash space b) →
  ∀ data, Forall is_byte data → 3 * Z.of_nat (length data) ≤ ISIZE_MAX → Z.of_nat (length (spelled_by spell data)) ≤ ISIZE_MAX.
Proof.
  intros Hspell data Hd H. rewrite (spelled_length slash space spell Hspell data Hd).
  pose proof (total_weight_bounds _ 1 (escaped_weight_bounds slash space) data). lia.
Qed.

(** The percent, path and form encoders fill exactly the destination they sized: every
    byte is copied or spelled by its escape, the unchanged copy and the copied prefix are the
    same text, and the narrow counters that size it never overflow.  Percent decoding takes
    back what both percent encoders wrote, form decoding what the form encoder wrote. *)
Lemma escape_roundtrip memchr memchr2 data :
  (∀ c l, first_hit (λ b, b =? c) l (memchr c l)) → (∀ c d l, first_hit (λ b, (b =? c) || (b =? d)) l (memchr2 c d l)) →
  Forall is_byte data → 3 * Z.of_nat (length data) ≤ ISIZE_MAX →
  (align_rt_percent_encode data = Ret (map Some (spelled_by (percent_spell false) data)) ∧
   percent_decode_impl memchr memchr2 (spelled_by (percent_spell false) data) = Ret (Some data)) ∧
  (align_rt_percent_encode_path data = Ret (map Some (spelled_by (percent_spell true) data)) ∧
   percent_decode_impl memchr memchr2 (spelled_by (percent_spell true) data) = Ret (Some data)) ∧
  (align_rt_form_encode data = Ret (map Some (spelled_by form_spell data)) ∧
   form_decode_impl memchr memchr2 (spelled_by form_spell data) = Ret (Some data)).
Proof.
  intros H1 H2 Hd H. split_and!.
  - apply percent_entry_ok; [done|by apply (spelled_fits _ _ _ (percent_spell_width _))].
  - unfold percent_decode_impl. rewrite <-(unescape_percent false data Hd). case_if; by apply decode_runs_ok.
  - apply percent_entry_ok; [done|by apply (spelled_fits _ _ _ (percent_spell_width _))].
  - unfold percent_decode_impl. rewrite <-(unescape_percent true data Hd). case_if; by apply decode_runs_ok.
  - apply form_entry_ok; [done|by apply (spelled_fits _ _ _ form_spell_width)].
  - unfold form_decode_impl. rewrite <-(unescape_form data Hd). case_if; by apply decode_runs_ok.
Qed.
Lemma escape_roundtrip_witness :
  align_rt_form_encode (str "a b/") = Ret (map Some (str "a+b%2F")) ∧
  form_decode_impl (λ c, find_byte (λ b, b =? c)) (λ c d, find_byte (λ b, (b =? c) || (b =? d))) (str "a+b%2F") = Ret (Some (str "a b/")).
Proof.
  apply (escape_roundtrip (λ c, find_byte (λ b, b =? c)) (λ c d, find_byte (λ b, (b =? c) || (b =? d))) (str "a b/")).
  - intros c l. apply find_byte_hit.
  - intros c d l. apply find_byte_hit.
  - apply (bool_decide_unpack _). vm_compute. exact I.
  - vm_compute. discriminate.
Defined.
