(* ===== verification/HtmlSpec.v ===== *)
(** * HTML escaping against its spelling

    The writer copies runs of literal text found through windows of 256 bytes; whatever
    the runs, the destination receives the entity spelling of each byte. *)
From Stdlib Require Import ZArith Lia String.
From S2P Require Import Prelude Utf8 Encoding EncodingSpec EscapeSpec.
Local Open Scope Z_scope.

Definition html_spell (b : Z) : bytes := default [b] (html_entity b).
Definition literal (b : Z) : Prop := html_entity b = None.

Lemma html_spell_width b : Z.of_nat (length (html_spell b)) = 1 + html_weight b.
Proof.
  unfold html_spell, html_entity, html_weight. repeat case_match; b2p; subst; try done; try lia;
    match goal with H : _ || _ = true |- _ => apply orb_true_iff in H as [H|H] | H : _ || _ = false |- _ => apply orb_false_iff in H as [? H] end; b2p; subst; done.
Qed.
Lemma html_weight_bounds b : 0 ≤ html_weight b ≤ 5.
Proof. unfold html_weight. repeat case_match; lia. Qed.
Lemma literal_iff b : literal b ↔ ((b =? "&"%u8) || (b =? "<"%u8) || (b =? ">"%u8)) = false ∧ ((b =? dquote) || (b =? "'"%u8)) = false.
Proof.
  unfold literal, html_entity. destruct (b =? "&"%u8); [by split; [|intros []]|]. destruct (b =? "<"%u8); [by split; [|intros []]|].
  destruct (b =? ">"%u8); [by split; [|intros []]|]. destruct (b =? dquote); [by split; [|intros []]|]. by destruct (b =? "'"%u8); split; [|intros []| |].
Qed.
Lemma spelled_literal bs : Forall literal bs → spelled_by html_spell bs = bs.
Proof. unfold spelled_by. induction 1 as [|b bs Hb _ IH]; [done|]. cbn [map concat]. unfold html_spell at 1. by rewrite Hb, IH. Qed.
Lemma spelled_by_app spell a b : spelled_by spell (a ++ b) = spelled_by spell a ++ spelled_by spell b.
Proof. unfold spelled_by. by rewrite map_app, concat_app. Qed.
Lemma html_spelled_length data : Z.of_nat (length (spelled_by html_spell data)) = Z.of_nat (length data) + total_weight html_weight data.
Proof.
  induction data as [|b data IH]; [done|]. unfold spelled_by in *. cbn [map concat length total_weight foldr].
  rewrite length_app, !Nat2Z.inj_add, html_spell_width. change (foldr _ 0 data) with (total_weight html_weight data). lia.
Qed.

Lemma html_weight_zero b : html_weight b = 0 → literal b.
Proof.
  intros H. pose proof (html_spell_width b) as Hw. rewrite H in Hw. unfold html_spell, literal, html_entity in *.
  repeat case_match; subst; try done.
Qed.
Lemma zero_weight_literal data : total_weight html_weight data = 0 → Forall literal data.
Proof.
  induction data as [|b data IH]; [constructor|]. cbn [total_weight foldr]. change (foldr _ 0 data) with (total_weight html_weight data).
  pose proof (total_weight_bounds html_weight 5 html_weight_bounds data). pose proof (html_weight_bounds b). intros H1.
  constructor; [apply html_weight_zero; lia|apply IH; lia].
Qed.

(** ** The length *)
Lemma html_lens_ok chunks len : Forall (λ c, (length c ≤ 32)%nat) chunks → len + total_weight html_weight (concat chunks) ≤ Encoding.USIZE_MAX →
  html_lens chunks len = Ret (Some (len + total_weight html_weight (concat chunks))).
Proof.
  revert len. induction chunks as [|c cs IH]; intros len Hs H; simpl; [by rewrite Z.add_0_r|]. apply Forall_cons in Hs as [Hc Hs].
  simpl in H. rewrite total_weight_app in *. rewrite (sum_u8_ok html_weight 5 html_weight_bounds) by lia. cbn [res_bind].
  pose proof (total_weight_bounds html_weight 5 html_weight_bounds (concat cs)). unfold checked_usize.
  rewrite (proj2 (Z.leb_le _ _)) by lia. rewrite IH by (done || lia). f_equal. f_equal. lia.
Qed.
Lemma html_len_ok data : Z.of_nat (length (spelled_by html_spell data)) ≤ ISIZE_MAX →
  html_escaped_len data = Ret (Some (Z.of_nat (length (spelled_by html_spell data)))).
Proof.
  intros H. unfold html_escaped_len. rewrite html_spelled_length in *.
  rewrite html_lens_ok; rewrite ?slice_chunks_concat by lia; [done|apply slice_chunks_size; lia|].
  unfold ISIZE_MAX, Encoding.USIZE_MAX in *. lia.
Qed.

Lemma first_entity_hit l : first_hit (λ b, match html_entity b with Some _ => true | None => false end) l (first_entity l).
Proof.
  induction l as [|b l IH]; simpl; [constructor|]. destruct (html_entity b) eqn:Hb; [split; [exists b; by rewrite Hb|constructor]|].
  destruct (first_entity l) as [i|]; simpl in *; [|by constructor; [rewrite Hb|]]. destruct IH as [Hi Hf]. split; [done|by constructor; [rewrite Hb|]].
Qed.
Lemma entity_free l : Forall (λ b, match html_entity b with Some _ => true | None => false end = false) l → Forall literal l.
Proof. intros H. eapply Forall_impl; [exact H|]. intros b. unfold literal. by destruct (html_entity b). Qed.

Lemma Forall_and_literal l : Forall (λ b, (b =? "&"%u8) || (b =? "<"%u8) || (b =? ">"%u8) = false) l →
  Forall (λ b, (b =? dquote) || (b =? "'"%u8) = false) l → Forall literal l.
Proof. rewrite !Forall_forall. intros H1 H2 b Hb. apply literal_iff. by split; [apply H1|apply H2]. Qed.

Section Html.
Context (memchr2 : Z → Z → bytes → option nat) (memchr3 : Z → Z → Z → bytes → option nat).
Context (Hmemchr2 : ∀ c d l, first_hit (λ b, (b =? c) || (b =? d)) l (memchr2 c d l)).
Context (Hmemchr3 : ∀ c d e l, first_hit (λ b, (b =? c) || (b =? d) || (b =? e)) l (memchr3 c d e l)).

(** A window's answer: an index in it with only literal bytes before, or no entity at all. *)
Definition run_of (w : bytes) (found : option nat) : Prop :=
  match found with Some n => (n ≤ length w)%nat ∧ Forall literal (take n w) | None => Forall literal w end.

Lemma window_ok w : ∃ found, html_entity_in_window memchr2 memchr3 w = Ret found ∧ run_of w found.
Proof.
  unfold html_entity_in_window. set (p := Nat.min (length w) 16). pose proof (first_entity_hit (take p w)) as Hf.
  destruct (first_entity (take p w)) as [i|].
  - exists (Some i). split; [done|]. destruct Hf as [(b & Hi & _) Hf]. apply entity_free in Hf.
    apply lookup_lt_Some in Hi. rewrite length_take in Hi. rewrite take_take, Nat.min_l in Hf by lia. split; [lia|done].
  - apply entity_free in Hf. cbv zeta. set (tail := drop p w). pose proof (first_hit_prefix _ _ _ (Hmemchr3 "&"%u8 "<"%u8 ">"%u8 tail)) as [Hm Hfm].
    set (markup := default (length tail) (memchr3 "&"%u8 "<"%u8 ">"%u8 tail)) in *. rewrite (proj2 (Nat.leb_le _ _)) by done.
    pose proof (first_hit_prefix _ _ _ (Hmemchr2 dquote "'"%u8 (take markup tail))) as [Hq Hfq].
    rewrite length_take, Nat.min_l in Hq, Hfq by lia. set (first := default markup _) in *. rewrite take_take, Nat.min_l in Hfq by done.
    assert (Forall literal (take first tail)) as Ht.
    { rewrite <-(Nat.min_l first markup Hq), <-take_take in *. apply Forall_and_literal; [by apply Forall_take|].
      by rewrite take_take, Nat.min_l in Hfq |- * by done. }
    pose proof (take_drop p w) as Hw. fold tail in Hw.
    assert (length w = (length (take p w) + length tail)%nat) as Hlen by (rewrite <-Hw at 1; apply length_app).
    eexists. split; [done|]. destruct (Nat.ltb_spec first (length tail)) as [Hlt|Hge].
    + assert (p = length (take p w)) as Hp by (rewrite length_take; lia). split; [lia|].
      rewrite <-Hw, take_app_add' by done. by apply Forall_app.
    + rewrite take_ge in Ht by done. simpl. rewrite <-Hw. by apply Forall_app.
Qed.

Lemma literal_run_ok windows offset : ∃ n, literal_run memchr2 memchr3 windows offset = Ret (offset + n)%nat ∧
  (n ≤ length (concat windows))%nat ∧ Forall literal (take n (concat windows)).
Proof.
  revert offset. induction windows as [|w ws IH]; intros offset; simpl; [exists 0%nat; split_and!; [f_equal; lia|lia|constructor]|].
  destruct (window_ok w) as (found & -> & Hf). cbn [res_bind]. destruct found as [n|]; simpl in Hf.
  - destruct Hf as [Hn Hf]. exists n. rewrite length_app. split_and!; [done|lia|]. by rewrite take_app_le.
  - destruct (IH (offset + length w)%nat) as (n & -> & Hn & Hl). exists (length w + n)%nat. rewrite length_app, take_app_add.
    split_and!; [f_equal; lia|lia|]. by apply Forall_app.
Qed.
Lemma html_literal_run_ok data : ∃ n, html_literal_run memchr2 memchr3 data = Ret n ∧ (n ≤ length data)%nat ∧ Forall literal (take n data).
Proof.
  destruct (literal_run_ok (slice_chunks 256 data) 0) as (n & Hr & H). rewrite slice_chunks_concat in H by lia. by exists n.
Qed.

(** ** The loop *)
Lemma write_bytes_step o bs out : (o + length bs ≤ length out)%nat →
  ∃ out', write_bytes o bs out = Ret out' ∧ length out' = length out ∧ write_copy o bs out = Ret out'.
Proof.
  intros H. eexists. split; [by apply write_bytes_ok|]. split.
  - rewrite !length_app, length_map, length_take, length_drop. lia.
  - unfold write_copy. by rewrite (proj2 (Nat.leb_le _ _)).
Qed.
Lemma write_one o b out : write o b out = write_bytes o [b] out.
Proof. simpl. by destruct (write o b out). Qed.

(** From any point the loop writes the spelling of what is left, whatever its run counter. *)
Lemma html_loop_ok bulk data fuel i o ordinary out : (i ≤ length data)%nat → (length data ≤ fuel + i)%nat →
  (o + length (spelled_by html_spell (drop i data)) ≤ length out)%nat →
  html_loop memchr2 memchr3 bulk data fuel i o ordinary out = spell_into html_spell (drop i data) o out.
Proof.
  revert i o ordinary out. induction fuel as [|fuel IH]; intros i o ordinary out Hi Hf Hout; cbn [html_loop].
  - rewrite (proj2 (Nat.ltb_ge _ _)) by lia. cbn [negb]. by rewrite drop_ge by lia.
  - destruct (Nat.ltb_spec i (length data)) as [Hlt|Hge]; cbn [negb]; [|by rewrite drop_ge by lia].
    destruct (lookup_lt_is_Some_2 data i Hlt) as [b Hb]. rewrite Hb. cbn [unwrap res_bind]. cbv zeta.
    rewrite (drop_S _ _ _ Hb) in *. rewrite <-(Nat.add_1_r i) in *. change (b :: drop (i + 1) data) with ([b] ++ drop (i + 1) data) in Hout.
    rewrite spelled_by_app, length_app in Hout. unfold spelled_by at 1 in Hout. cbn [map concat] in Hout. rewrite app_nil_r in Hout.
    cbn [spell_into]. unfold html_spell in Hout at 1. unfold html_spell at 1 3. destruct (html_entity b) as [ent|] eqn:He; cbn [from_option id] in *.
    + destruct (write_bytes_step o ent out) as (out' & -> & Hl & _); [lia|]. cbn [res_bind]. apply IH; lia.
    + rewrite write_one. cbn [length] in Hout. destruct (write_bytes_step o [b] out) as (out' & -> & Hl & _); [cbn [length]; lia|]. cbn [res_bind length].
      destruct (_ && _ && _); [|apply IH; lia].
      destruct (html_literal_run_ok (drop (i + 1) data)) as (n & -> & Hn & Hlit). cbn [res_bind]. rewrite (proj2 (Nat.leb_le _ _)) by done.
      rewrite length_drop in Hn. rewrite <-(take_drop n (drop (i + 1) data)) in Hout |- * at 2. rewrite drop_drop in *.
      rewrite spelled_by_app, (spelled_literal (take n _)), length_app in Hout by done. rewrite length_take, length_drop in Hout.
      destruct (write_bytes_step (o + 1) (take n (drop (i + 1) data)) out') as (out2 & Hw & Hl2 & ->); [rewrite length_take, length_drop; lia|].
      cbn [res_bind]. rewrite IH by lia. rewrite !spell_into_eq, spelled_by_app, (spelled_literal (take n _)) by done.
      rewrite write_bytes_app, Hw. cbn [res_bind]. rewrite length_app, length_take, length_drop, Nat.min_l by lia. by rewrite Nat.add_assoc.
Qed.
Lemma html_into_ok data out : length out = length (spelled_by html_spell data) →
  html_escape_into memchr2 memchr3 data out = Ret (map Some (spelled_by html_spell data)).
Proof.
  intros H. unfold html_escape_into, html_escape_runs. case_if.
  all: rewrite html_loop_ok by (rewrite ?drop_0; lia); rewrite drop_0, spell_fresh by done; cbn [res_bind]; rewrite H; apply assert_fresh.
Qed.
End Html.

(** ** What the spelling is good for *)
Definition markup_byte (b : Z) : bool := (b =? "<"%u8) || (b =? ">"%u8) || (b =? dquote) || (b =? "'"%u8).
Lemma html_spell_safe b : Forall (λ x, markup_byte x = false) (html_spell b).
Proof.
  unfold html_spell, html_entity, markup_byte. repeat case_match; try (apply (bool_decide_unpack _); vm_compute; exact I).
  constructor; [|constructor]. by repeat match goal with H : (_ =? _) = false |- _ => rewrite H; clear H end.
Qed.
Lemma html_spell_prefix a b x y : html_spell a ++ x = html_spell b ++ y → a = b ∧ x = y.
Proof.
  unfold html_spell, html_entity.
  destruct (Z.eqb_spec a "&"%u8), (Z.eqb_spec a "<"%u8), (Z.eqb_spec a ">"%u8), (Z.eqb_spec a dquote), (Z.eqb_spec a "'"%u8); subst; try done;
  destruct (Z.eqb_spec b "&"%u8), (Z.eqb_spec b "<"%u8), (Z.eqb_spec b ">"%u8), (Z.eqb_spec b dquote), (Z.eqb_spec b "'"%u8); subst; try done;
  cbn; intros H; injection H; intros; by subst.
Qed.
Lemma spelled_html_inj data data' : spelled_by html_spell data = spelled_by html_spell data' → data = data'.
Proof.
  assert (∀ b, html_spell b ≠ []) as Hne by (intros b Hb; pose proof (html_spell_width b) as H; pose proof (html_weight_bounds b); rewrite Hb in H; simpl in H; lia).
  revert data'. unfold spelled_by. induction data as [|b data IH]; intros [|b' data']; cbn [map concat]; intros H; [done|..].
  - symmetry in H. by apply app_eq_nil, proj1, Hne in H.
  - by apply app_eq_nil, proj1, Hne in H.
  - apply html_spell_prefix in H as [-> H]. f_equal. by apply IH.
Qed.

(** C37. HTML escaping of valid text fills exactly the destination its 8-bit counters sized,
    with the entity spelling of each byte whatever literal runs were copied in bulk; the
    result holds no markup byte outside an entity, and different texts escape differently. *)
Theorem html_escape_exact memchr2 memchr3 data :
  (∀ c d l, first_hit (λ b, (b =? c) || (b =? d)) l (memchr2 c d l)) →
  (∀ c d e l, first_hit (λ b, (b =? c) || (b =? d) || (b =? e)) l (memchr3 c d e l)) →
  from_utf8 data ≠ None → 6 * Z.of_nat (length data) ≤ ISIZE_MAX →
  align_rt_html_escape memchr2 memchr3 data = Ret (map Some (spelled_by html_spell data)) ∧
  Forall (λ b, markup_byte b = false) (spelled_by html_spell data) ∧
  (∀ data', spelled_by html_spell data' = spelled_by html_spell data → data' = data).
Proof.
  intros H2 H3 Hu H. split_and!; [|clear; induction data as [|b data IH]; [constructor|apply Forall_app; split; [apply html_spell_safe|done]]|intros data'; apply spelled_html_inj].
  assert (Z.of_nat (length (spelled_by html_spell data)) ≤ ISIZE_MAX) as Hfit.
  { rewrite html_spelled_length. pose proof (total_weight_bounds html_weight 5 html_weight_bounds data). lia. }
  unfold align_rt_html_escape. destruct (from_utf8 data); [|done]. rewrite html_len_ok by done. cbn [res_bind or_abort].
  apply exact_fill; [done..|]. intros _. destruct (Z.eqb_spec (Z.of_nat (length (spelled_by html_spell data))) (Z.of_nat (length data))) as [He|He].
  - rewrite html_spelled_length in He. rewrite spelled_literal; [apply copy_slice_fresh; by rewrite length_replicate|].
    apply zero_weight_literal. lia.
  - apply html_into_ok; [done..|]. by rewrite length_replicate.
Qed.
Lemma html_escape_exact_witness :
  align_rt_html_escape (λ c d, find_byte (λ b, (b =? c) || (b =? d))) (λ c d e, find_byte (λ b, (b =? c) || (b =? d) || (b =? e))) (str "a<b&c'd>") =
  Ret (map Some (str "a&lt;b&amp;c&#39;d&gt;")).
Proof.
  refine (eq_trans (proj1 (html_escape_exact (λ c d, find_byte (λ b, (b =? c) || (b =? d)))
    (λ c d e, find_byte (λ b, (b =? c) || (b =? d) || (b =? e))) (str "a<b&c'd>") _ _ _ _)) _).
  - intros c d l. apply find_byte_hit.
  - intros c d e l. apply find_byte_hit.
  - vm_compute. discriminate.
  - vm_compute. discriminate.
  - vm_compute. reflexivity.
Defined.
