(* ===== verification/ReplEntry.v ===== *)
(** * Entries of the interactive session ([crates/align_repl/src/entry.rs], [cmd.rs])

    What one submission is: its lexical shape, whether it continues on the next
    line, its readings as declarations and as a statement, the names it binds; the
    colon commands; the classes of diagnostics the session tells apart.  The lexer
    and the parser are the modelled ones. *)
From Stdlib Require Import ZArith Lia String.
From stdpp Require Import gmap.
From S2P Require Import Prelude Utf8 Span Diag Text Token Lexer Ast Parser Depth Fmt Spelling.
Local Open Scope Z_scope.

(** ** [str] *)
(** [str::trim_start], [str::trim] *)
Definition trim_start (s : bytes) : bytes :=
  match from_utf8 s with Some cs => utf8_encode_all (drop_blank cs) | None => s end.
Definition trim (s : bytes) : bytes := trim_start (trim_end s).

(** [s.contains(p)], by its first occurrence *)
Fixpoint find_sub (p s : bytes) : option nat :=
  if bool_decide (take (length p) s = p) then Some 0%nat
  else match s with [] => None | _ :: s => S <$> find_sub p s end.
Definition contains (p s : bytes) : bool := match find_sub p s with Some _ => true | None => false end.
(** [s.rsplit_once(p)], by its last occurrence *)
Fixpoint rsplit_once (p s : bytes) : option (bytes * bytes) :=
  match s with
  | [] => None
  | b :: s' =>
      match rsplit_once p s' with
      | Some (x, y) => Some (b :: x, y)
      | None => rest ← strip_prefix p s; Some ([], rest)
      end
  end.
(** [s.lines()]: pieces ended by a newline, without it and without a carriage return before it. *)
Definition strip_cr (rev_line : bytes) : bytes := reverse (match rev_line with 13 :: l => l | l => l end).
Fixpoint lines_from (rev_line s : bytes) : list bytes :=
  match s with
  | [] => match rev_line with [] => [] | _ => [reverse rev_line] end
  | b :: s => if b =? 10 then strip_cr rev_line :: lines_from [] s else lines_from (b :: rev_line) s
  end.
Definition lines (s : bytes) : list bytes := lines_from [] s.
(** [s.parse::<u32>()] *)
Definition parse_u32 (s : bytes) : option Z :=
  match s with
  | [] => None
  | c :: s' =>
      if ((c =? "+"%u8) || (c =? "-"%u8)) && bool_decide (s' = []) then None
      else v ← Text.digits_value 10 (if c =? "+"%u8 then s' else s) 0; check_range 0 U32_MAX v
  end.
(** [parts.join(sep)] *)
Fixpoint join (sep : bytes) (parts : list bytes) : bytes :=
  match parts with [] => [] | [x] => x | x :: parts => x ++ sep ++ join sep parts end.

(** ** Entries *)
Module Region.
Inductive t := Import | Const | Decl | Main.
End Region.
Abbreviation Region := Region.t.
#[export] Instance Region_eq_dec : EqDecision Region.
Proof. solve_decision. Defined.

Module EntryKind.
Inductive t := Import | Decl | Const | Statement | Printed | ResultBound.
End EntryKind.
Abbreviation EntryKind := EntryKind.t.
#[export] Instance EntryKind_eq_dec : EqDecision EntryKind.
Proof. solve_decision. Defined.

Record Entry := MkEntry {
  ordinal : Z;
  region : Region;
  e_kind : EntryKind;
  text : bytes;
  emitted : bytes;
  names : list bytes;
  paste_group : option Z
}.
#[export] Instance Entry_eq_dec : EqDecision Entry.
Proof. solve_decision. Defined.

Definition emit_for (kind : EntryKind) (text : bytes) : bytes :=
  match kind with
  | EntryKind.Printed => str "print(" ++ text ++ str ")"
  | EntryKind.ResultBound => str "_ := (" ++ text ++ str ")"
  | EntryKind.Import | EntryKind.Decl | EntryKind.Const | EntryKind.Statement => text
  end.

(** ** Probes *)
Inductive Shape := Empty | KeywordDecl | Other.

(** Lexing in a source map of its own. *)
Definition probe_tokens (text : bytes) : res (list Token * Diagnostics) :=
  tokenize (fst (add_file source_map_new (str "<repl-probe>") text)) text diags_new.

Definition is_filler (k : TokKind) : bool :=
  match k with TokKind.Semicolon | TokKind.End_ | TokKind.Eof => true | _ => false end.
Definition shape_of_kind (k : TokKind) : Shape :=
  match k with
  | TokKind.Import_ | TokKind.Fn | TokKind.Extern => KeywordDecl
  | TokKind.Ident name => if bool_decide (name = str "resource") then KeywordDecl else Other
  | _ => Other
  end.
Definition shape_of (text : bytes) : res Shape :=
  let* '(toks, _) := probe_tokens text in
  Ret (match List.find (λ t, negb (is_filler (kind t))) toks with
       | None => Empty
       | Some t => shape_of_kind (kind t)
       end).

(** The bracket depth; [<] and [>] are not counted. *)
Definition bracket_step (depth : Z) (t : Token) : Z :=
  match kind t with
  | TokKind.LBrace | TokKind.LParen | TokKind.LBracket => depth + 1
  | TokKind.RBrace | TokKind.RParen | TokKind.RBracket => depth - 1
  | _ => depth
  end.
Definition needs_more (text : bytes) : res bool :=
  let* '(toks, diags) := probe_tokens text in
  Ret ((0 <? fold_left bracket_step toks 0) ||
       existsb (λ d, contains (str "unterminated string literal") (message d) ||
                     contains (str "unterminated character literal") (message d)) (Diag.items diags)).

Definition is_nil {A} (l : list A) : bool := match l with [] => true | _ => false end.
Definition parse_as_file (text : bytes) : res (option File) :=
  let* '(toks, diags) := probe_tokens text in
  let* '(parsed, diags) := parse_file toks diags in
  Ret (if has_errors diags || (is_nil (f_imports parsed) && is_nil (f_items parsed)) then None else Some parsed).

Definition contains_test_declaration (text : bytes) : res bool :=
  let* file := parse_as_file text in
  Ret (match file with
       | Some file => existsb (λ i, match i with It_Test _ => true | _ => false end) (f_items file)
       | None => false
       end).

(** The text as [main]'s only statement. *)
Definition probe_main (text : bytes) : bytes :=
  str "fn main() -> Result<(), Error> {" ++ [10] ++ text ++ [10] ++ str "return Ok(())" ++ [10] ++ str "}" ++ [10].
Definition parse_probe_main (text : bytes) : res (File * Diagnostics) :=
  let* '(toks, diags) := probe_tokens (probe_main text) in parse_file toks diags.
Definition parses_as_statement (text : bytes) : res bool :=
  let* '(_, diags) := parse_probe_main text in Ret (negb (has_errors diags)).

(** ** Names *)
Definition item_names (item : Item) : list bytes :=
  match item with
  | It_Fn d => [id_name (fn_name d)]
  | It_Test _ => []
  | It_Struct d => [id_name (sd_name d)]
  | It_Enum d => [id_name (ed_name d)]
  | It_Resource d => [id_name (rd_name d)]
  | It_Const d => [id_name (cd_name d)]
  | It_Extern b => map (λ f, id_name (es_name f)) (eb_fns b)
  end.
Definition declared_names (file : File) : list bytes := concat (map item_names (f_items file)).

Definition item_span (item : Item) : Span :=
  match item with
  | It_Fn d => fn_span d | It_Test d => td_span d | It_Struct d => sd_span d | It_Enum d => ed_span d
  | It_Resource d => rd_span d | It_Const d => cd_span d | It_Extern d => eb_span d
  end.
(** [source.get(lo..hi)], which wants character boundaries *)
Definition str_get (lo hi : nat) (s : bytes) : option bytes :=
  if (lo <=? hi)%nat && is_char_boundary s lo && is_char_boundary s hi then Some (slice lo hi s) else None.
Definition item_text (source : bytes) (item : Item) : bytes :=
  let span := item_span item in
  trim (default [] (str_get (Z.to_nat (lo span)) (Z.to_nat (hi span)) source)).

Definition import_path (path : Path) : bytes := join (str ".") (map id_name (segments path)).

Definition statement_names (s : Stmt) : list bytes :=
  match s with
  | St_Let _ name _ _ _ => if bool_decide (id_name name = str "_") then [] else [id_name name]
  | St_LetTuple names _ _ => List.filter (λ n, negb (bool_decide (n = str "_"))) (map id_name (omap id names))
  | _ => []
  end.
Definition main_of (file : File) : option FnDecl :=
  match List.find (λ i, match i with It_Fn f => bool_decide (id_name (fn_name f) = str "main") | _ => false end) (f_items file) with
  | Some (It_Fn f) => Some f
  | _ => None
  end.
Definition top_level_binding_names (text : bytes) : res (list bytes) :=
  let* '(parsed, diags) := parse_probe_main text in
  Ret (if has_errors diags then []
       else match main_of parsed with
            | Some f => match fn_body f with FB_Block (MkBlock stmts _ _) => concat (map statement_names stmts) | FB_Expr _ => [] end
            | None => []
            end).

(** ** Diagnostic classes *)
Definition DUPLICATE_CLASSES : list bytes :=
  map str ["is already bound in this scope chain"; "duplicate function"; "duplicate type declaration";
           "duplicate constant"; "duplicate import"]%string.

Definition diagnostic_error_message (line : bytes) : option bytes :=
  match strip_prefix (str "error:") line with
  | Some message => Some (trim_start message)
  | None =>
      if contains (str " | ") line then None
      else
        '(location, message) ← rsplit_once (str ": error:") line;
        '(location, column) ← rsplit_once (str ":") location;
        '(path, row) ← rsplit_once (str ":") location;
        if is_nil path || bool_decide (parse_u32 row = None) || bool_decide (parse_u32 column = None) then None
        else Some (trim_start message)
  end.
Definition error_messages (rendered : bytes) : list bytes := omap diagnostic_error_message (lines rendered).
Definition is_duplicate (message : bytes) : bool := existsb (λ class, contains class message) DUPLICATE_CLASSES.

Definition has_duplicate_error (rendered : bytes) : bool := existsb is_duplicate (error_messages rendered).
Definition all_errors_are_duplicates (rendered : bytes) : bool :=
  negb (is_nil (error_messages rendered)) && forallb is_duplicate (error_messages rendered).
(** [echo::only_unhandled_result] *)
Definition only_unhandled_result (rendered : bytes) : bool :=
  negb (is_nil (error_messages rendered)) && forallb (contains (str "unhandled `Result`")) (error_messages rendered).

(** ** Commands *)
Module Command.
Inductive t :=
  | Help | Quit | List_ | Type_ (expr : bytes) | Const (text : bytes) | Save (path : bytes) (force : bool) | Undo
  | Time (n : option Z) (force : bool) | Out | Clear | Drop_ (n : Z) | Unknown (message : bytes).
End Command.
Abbreviation Command := Command.t.

(** [rest.find(char::is_whitespace)], as the characters before and from it *)
Fixpoint split_blank (cs : list Z) : list Z * list Z :=
  match cs with
  | [] => ([], [])
  | c :: cs' => if is_whitespace c then ([], cs) else let '(h, t) := split_blank cs' in (c :: h, t)
  end.
Definition head_tail (rest : bytes) : bytes * bytes :=
  match from_utf8 rest with
  | Some cs => let '(h, t) := split_blank cs in (utf8_encode_all h, trim (utf8_encode_all t))
  | None => (rest, [])
  end.

Definition no_args (tail : bytes) (command : Command) (value : bytes) : Command :=
  if is_nil tail then command else Command.Unknown (str "`:" ++ value ++ str "` does not take arguments").
Definition time_command (tail : bytes) (force : bool) : Command :=
  if is_nil tail then Command.Time None force
  else match parse_u32 tail with
       | Some n => Command.Time (Some n) force
       | None => Command.Unknown (str "`:time` needs an integer count (got `" ++ tail ++ str "`)")
       end.
Definition command_of (head tail : bytes) : Command :=
  let named s := bool_decide (head = str s) in
  if named "help"%string then no_args tail Command.Help head
  else if named "quit"%string then no_args tail Command.Quit head
  else if named "list"%string then no_args tail Command.List_ head
  else if named "type"%string then
    if is_nil tail then Command.Unknown (str "`:type` needs an expression") else Command.Type_ tail
  else if named "const"%string then
    if is_nil tail then Command.Unknown (str "`:const` needs `NAME := expression`") else Command.Const tail
  else if (named "save"%string || named "save!"%string) && is_nil tail then Command.Unknown (str "`:" ++ head ++ str "` needs a path")
  else if named "save"%string then Command.Save tail false
  else if named "save!"%string then Command.Save tail true
  else if named "undo"%string then no_args tail Command.Undo head
  else if named "time"%string then time_command tail false
  else if named "time!"%string then time_command tail true
  else if named "out"%string then no_args tail Command.Out head
  else if named "clear"%string then no_args tail Command.Clear head
  else if named "drop"%string then
    match parse_u32 tail with
    | Some n => Command.Drop_ n
    | None => Command.Unknown (str ":drop needs an ordinal (got `" ++ tail ++ str "`)")
    end
  else Command.Unknown (str "unknown command `:" ++ head ++ str "`").
Definition parse_command (line : bytes) : option Command :=
  rest ← strip_prefix (str ":") line; let '(head, tail) := head_tail rest in Some (command_of head tail).

(** ** The crate's test vectors *)
Example shape_vectors :
  map (λ s, shape_of (str s)) [""; "   "; "// comment"; "import core.math"; "fn f() -> i64 = 1"; "resource Handle = drop_handle"; "x := 1"]%string =
  map Ret [Empty; Empty; Empty; KeywordDecl; KeywordDecl; KeywordDecl; Other].
Proof. vm_compute. reflexivity. Qed.
Example binding_vectors :
  map (λ s, top_level_binding_names (str s))
    ["x := 1"; "mut x := 1"; "typed: i64 := 1"; "(a, b) := (1, 2)"; "(a, _) := (1, 2)"; "_ := (1)";
     "arena { nested := 1; print(nested) }"; "x = 2"; "broken: i64 :="]%string =
  map (λ l, Ret (map str l)) [["x"]; ["x"]; ["typed"]; ["a"; "b"]; ["a"]; []; []; []; []]%string.
Proof. vm_compute. reflexivity. Qed.
Example command_vectors :
  map (λ s, parse_command (str s)) ["x := 1"; ":help"; ":type x + 1"; ":save! out.align"; ":time 7"; ":drop 12"]%string =
  [None; Some Command.Help; Some (Command.Type_ (str "x + 1")); Some (Command.Save (str "out.align") true);
   Some (Command.Time (Some 7) false); Some (Command.Drop_ 12)].
Proof. vm_compute. reflexivity. Qed.
Example message_vectors :
  map (λ s, diagnostic_error_message (str s))
    ["error: duplicate function 'f'"; "/tmp/session.align:7:3: error: undefined name"; "  1 | print(error: x)"; "x: error: y"]%string =
  [Some (str "duplicate function 'f'"); Some (str "undefined name"); None; None].
Proof. vm_compute. reflexivity. Qed.
