(* ===== verification/Repl.v ===== *)
(** * The interactive session ([crates/align_repl/src/lib.rs], [build.rs], [echo.rs])

    An editor for one growing program: entries in four regions, spliced into one
    source that is checked, built and run after each change.  The compiler and the
    runner of the built program are arguments ([Toolchain]) over a state [W] of
    their own — files, caches, the built executable — which every call may change
    and which survives a rejected entry.  A [u32] that leaves its range panics.
    Wall times ([:time]), the startup probe and [:save] are not modelled. *)
From Stdlib Require Import ZArith Lia String.
From stdpp Require Import gmap.
From S2P Require Import Prelude Utf8 Span Diag Text Token Lexer Ast Parser Depth Fmt Spelling ReplEntry.
Local Open Scope Z_scope.

(** ** Output ([build.rs]) *)
Record RunOutput := { stdout_shown : bytes; stderr_shown : bytes; diverged : bool; truncated : bool }.
Record OutputBaseline := {
  b_stdout : bytes; b_stderr : bytes; poisoned : bool;
  last_full : option (bytes * bytes); last_truncated : bool
}.
Definition baseline_default : OutputBaseline :=
  {| b_stdout := []; b_stderr := []; poisoned := false; last_full := None; last_truncated := false |}.
Definition baseline_reset (b : OutputBaseline) : OutputBaseline :=
  {| b_stdout := []; b_stderr := []; poisoned := poisoned b; last_full := last_full b; last_truncated := last_truncated b |}.
Definition baseline_clear (b : OutputBaseline) : OutputBaseline :=
  {| b_stdout := []; b_stderr := []; poisoned := false; last_full := last_full b; last_truncated := last_truncated b |}.

Definition starts_with (p s : bytes) : bool := bool_decide (take (length p) s = p).
Definition absorb (b : OutputBaseline) (out err : bytes) (cap : nat) : RunOutput * OutputBaseline :=
  if (cap <? length out)%nat || (cap <? length err)%nat then
    ({| stdout_shown := out; stderr_shown := err; diverged := false; truncated := negb (poisoned b) |},
     {| b_stdout := []; b_stderr := []; poisoned := true; last_full := None; last_truncated := true |})
  else if poisoned b then
    ({| stdout_shown := out; stderr_shown := err; diverged := false; truncated := false |},
     {| b_stdout := b_stdout b; b_stderr := b_stderr b; poisoned := true; last_full := Some (out, err); last_truncated := false |})
  else
    let result :=
      if starts_with (b_stdout b) out && starts_with (b_stderr b) err
      then {| stdout_shown := drop (length (b_stdout b)) out; stderr_shown := drop (length (b_stderr b)) err; diverged := false; truncated := false |}
      else {| stdout_shown := out; stderr_shown := err; diverged := true; truncated := false |} in
    (result, {| b_stdout := out; b_stderr := err; poisoned := false; last_full := Some (out, err); last_truncated := false |}).

(** ** What a session reads of a checked program *)
(** The type of an expression: unit, or the text the compiler displays it with. *)
Definition ShownTy : Type := option bytes.
Inductive HirStmt := HExpr (ty : ShownTy) | HLet (init_ty : ShownTy) | HOther.
Record HirFn := { hf_name : bytes; hf_locals : list bytes; hf_body : list HirStmt }.
Record Program := {
  p_fns : list HirFn; p_structs : list bytes; p_enums : list bytes; p_resources : list bytes; p_externs : list bytes
}.
Definition find_main (p : Program) : option HirFn := List.find (λ f, bool_decide (hf_name f = str "main")) (p_fns p).

Definition entry_type (p : Program) (index : nat) : option bytes :=
  main ← find_main p;
  s ← hf_body main !! index;
  match s with HExpr ty => ty | _ => None end.
Definition result_bound_type (p : Program) (index : nat) : option bytes :=
  main ← find_main p;
  s ← hf_body main !! index;
  match s with HExpr ty | HLet ty => ty | HOther => None end.

Definition declaration_hir_names (p : Program) : list bytes :=
  List.filter (λ n, negb (contains (str "$lambda") n)) (map hf_name (p_fns p)) ++
  p_structs p ++ p_enums p ++ p_resources p ++ p_externs p.

Inductive Echo := NoEcho | EchoPrinted | TypeOnly (rendered : bytes) | EchoResultBound (rendered : bytes).

Definition CANDIDATE_ORDER : list EntryKind := [EntryKind.Printed; EntryKind.Statement; EntryKind.ResultBound].

Record Checked := { had_errors : bool; c_rendered : bytes }.
Record HirChecked := { h_hir : Program; h_had_errors : bool; h_rendered : bytes }.
(** Captured streams and the exit code, [None] when a signal ended the program. *)
Record Run := { r_out : bytes; r_err : bytes; r_status : option Z }.
Definition success (status : option Z) : bool := bool_decide (status = Some 0).

Inductive Outcome :=
  | NoOp
  | Applied (ordinals replaced : list Z) (echo : Echo) (out : RunOutput)
  | CompileFailed (rendered : bytes) (replacing : list Z)
  | RegionConflict (name : bytes) (ordinal : Z)
  | RanAndFailed (status : option Z) (out : RunOutput)
  | CommandMessage (message : bytes).
Inductive Feed := NeedMore | Ready (o : Outcome).

(** ** Undo *)
Record UndoStep := { added : list Entry; removed : list (nat * Entry) }.
Definition mem (e : Entry) (l : list Entry) : bool := existsb (λ x, bool_decide (x = e)) l.
Fixpoint enumerate {A} (i : nat) (l : list A) : list (nat * A) :=
  match l with [] => [] | x :: l => (i, x) :: enumerate (S i) l end.
Definition between (before after : list Entry) : UndoStep :=
  {| added := List.filter (λ e, negb (mem e before)) after;
     removed := List.filter (λ p, negb (mem p.2 after)) (enumerate 0 before) |}.
Definition is_active (step : UndoStep) (entries : list Entry) : bool := existsb (λ a, mem a entries) (added step).
(** [restored.insert(min(index, len), entry)] *)
Definition insert_at (l : list Entry) (p : nat * Entry) : list Entry :=
  let i := Nat.min p.1 (length l) in take i l ++ p.2 :: drop i l.
Definition reverse_step (step : UndoStep) (entries : list Entry) : list Entry :=
  fold_left insert_at (removed step) (List.filter (λ e, negb (mem e (added step))) entries).

(** ** Rendering *)
Definition in_region (r : Region) (e : Entry) : bool := bool_decide (region e = r).
Definition HEADER : list bytes :=
  map str ["// generated by align-repl; every line below is real Align";
           "// `main` is fixed at `-> Result<(), Error>` so `?` works in every entry";
           "// every statement re-runs on each entry; external side effects are repeated"]%string.
Definition ended (lines : list bytes) : bytes := concat (map (λ l, l ++ [10]) lines).
Definition render_entries (entries : list Entry) : bytes :=
  ended HEADER ++
  concat (map (λ r, ended (map emitted (List.filter (in_region r) entries))) [Region.Import; Region.Const; Region.Decl]) ++
  ended [str "fn main() -> Result<(), Error> {"] ++
  concat (map (λ e, ended (map (app INDENT) (lines (emitted e)))) (List.filter (in_region Region.Main) entries)) ++
  ended [str "  return Ok(())"; str "}"].

(** ** Names *)
Definition occurrences (name : bytes) (l : list bytes) : nat := length (List.filter (λ n, bool_decide (n = name)) l).
Definition has_name (name : bytes) (l : list bytes) : bool := existsb (λ n, bool_decide (n = name)) l.
Definition shares_name (l l' : list bytes) : bool := existsb (λ n, has_name n l') l.
Definition has_ordinal (l : list Z) (o : Z) : bool := existsb (Z.eqb o) l.

(** [main_name_delta] *)
Definition main_locals (p : option Program) : list bytes :=
  match p with Some p => match find_main p with Some f => hf_locals f | None => [] end | None => [] end.
Definition main_name_delta (current : option Program) (candidate : Program) (top_level : list bytes) : list bytes :=
  fold_left (λ acc name,
    if (occurrences name (main_locals current) <? occurrences name (main_locals (Some candidate)))%nat && negb (has_name name acc)
    then acc ++ [name] else acc) top_level [].

(** [iter().min()] *)
Definition lowest_of (l : list Z) : option Z :=
  match l with [] => None | x :: l => Some (fold_left Z.min l x) end.
Fixpoint position {A} (p : A → bool) (l : list A) : option nat :=
  match l with [] => None | x :: l => if p x then Some 0%nat else S <$> position p l end.
Definition hits (r : Region) (skip : list Z) (names_ : list bytes) (entries : list Entry) : list Z :=
  map ordinal (List.filter (λ e, in_region r e && negb (has_ordinal skip (ordinal e)) && shares_name (names e) names_) entries).
(** [retain(|e| e.ordinal == keep || !hit.contains(&e.ordinal))] *)
Definition retain_lowest (keep : Z) (hit : list Z) (entries : list Entry) : list Entry :=
  List.filter (λ e, (ordinal e =? keep) || negb (has_ordinal hit (ordinal e))) entries.
(** [entries[index] = e] *)
Definition set_entry (index : nat) (e : Entry) (entries : list Entry) : res (list Entry) :=
  if (index <? length entries)%nat then Ret (<[index := e]> entries) else Panic.

(** ** The session *)
(** The compiler and the runner: results as the source gets them, [inl] a rendered failure. *)
Record Toolchain (W : Type) := {
  check_candidate : bytes → W → (bytes + Checked) * W;
  check_hir : bytes → W → (bytes + HirChecked) * W;
  build_exe : bytes → W → (bytes + unit) * W;
  run_exe : W → (bytes + Run) * W
}.
Arguments check_candidate {W} _. Arguments check_hir {W} _. Arguments build_exe {W} _. Arguments run_exe {W} _.

Inductive Resolved :=
  | ResOk (entries : list Entry) (ordinals replaced : list Z) (source : bytes) (next_ordinal : Z) (hir : Program) (diagnostics : bytes)
  | ResErr (rendered : bytes) (replacing : list Z).
Record Accepted := {
  a_entries : list Entry; a_ordinals : list Z; a_replaced : list Z; a_echo : Echo; a_source : bytes;
  a_next_ordinal : Z; a_next_paste : Z; a_hir : Program; a_diagnostics : bytes
}.
(** [MainTry] and [DeclTry] *)
Inductive Try := TryAccepted (a : Accepted) | TryRejected (rendered : bytes) (all_dup : bool) (replacing : list Z).

Section Session.
Context {W : Type} (T : Toolchain W).

Record Session := {
  s_entries : list Entry; next_ordinal : Z; next_paste : Z; baseline : OutputBaseline; output_cap : nat;
  have_binary : bool; pending : bytes; undo_steps : list UndoStep; s_hir : option Program; world : W
}.
(** What [Session::new] leaves: an empty program whose probe was built, run and checked. *)
Definition session_new (cap : nat) (hir : Program) (w : W) : Session :=
  {| s_entries := []; next_ordinal := 1; next_paste := 1; baseline := baseline_default; output_cap := cap;
     have_binary := false; pending := []; undo_steps := []; s_hir := Some hir; world := w |}.

Definition set_world (w : W) (s : Session) : Session :=
  {| s_entries := s_entries s; next_ordinal := next_ordinal s; next_paste := next_paste s; baseline := baseline s;
     output_cap := output_cap s; have_binary := have_binary s; pending := pending s; undo_steps := undo_steps s; s_hir := s_hir s; world := w |}.
Definition set_pending (p : bytes) (s : Session) : Session :=
  {| s_entries := s_entries s; next_ordinal := next_ordinal s; next_paste := next_paste s; baseline := baseline s;
     output_cap := output_cap s; have_binary := have_binary s; pending := p; undo_steps := undo_steps s; s_hir := s_hir s; world := world s |}.
Definition set_undo (u : list UndoStep) (s : Session) : Session :=
  {| s_entries := s_entries s; next_ordinal := next_ordinal s; next_paste := next_paste s; baseline := baseline s;
     output_cap := output_cap s; have_binary := have_binary s; pending := pending s; undo_steps := u; s_hir := s_hir s; world := world s |}.
Definition set_baseline (b : OutputBaseline) (s : Session) : Session :=
  {| s_entries := s_entries s; next_ordinal := next_ordinal s; next_paste := next_paste s; baseline := b;
     output_cap := output_cap s; have_binary := have_binary s; pending := pending s; undo_steps := undo_steps s; s_hir := s_hir s; world := world s |}.
(** The state a successful build commits: the program, its facts, a built binary. *)
Definition set_program (entries : list Entry) (next_ordinal_ next_paste_ : Z) (hir : Program) (s : Session) : Session :=
  {| s_entries := entries; next_ordinal := next_ordinal_; next_paste := next_paste_; baseline := baseline s;
     output_cap := output_cap s; have_binary := true; pending := pending s; undo_steps := undo_steps s; s_hir := Some hir; world := world s |}.

Definition checked_hir (source : bytes) (w : W) : (bytes + Program) * W :=
  match check_hir T source w with
  | (inl rendered, w) => (inl rendered, w)
  | (inr c, w) => if h_had_errors c then (inl (h_rendered c), w) else (inr (h_hir c), w)
  end.

(** ** Candidates *)
Definition resolve (s : Session) (r : Region) (kind : EntryKind) (text emitted : bytes) (w : W) : res (Resolved * W) :=
  let* top_level_names := top_level_binding_names text in
  let appended names := s_entries s ++ [MkEntry (next_ordinal s) r kind text emitted names None] in
  let source := render_entries (appended []) in
  match check_candidate T source w with
  | (inl rendered, w) => Ret (ResErr rendered [], w)
  | (inr first, w) =>
    match check_hir T source w with
    | (inl rendered, w) => Ret (ResErr rendered [], w)
    | (inr first_hir, w) =>
      let names := main_name_delta (s_hir s) (h_hir first_hir) top_level_names in
      if negb (had_errors first) then
        if h_had_errors first_hir then Ret (ResErr (h_rendered first_hir) [], w)
        else
          let* next := u32_incr (next_ordinal s) in
          Ret (ResOk (appended names) [next_ordinal s] [] source next (h_hir first_hir) (c_rendered first), w)
      else if negb (has_duplicate_error (c_rendered first)) then Ret (ResErr (c_rendered first) [], w)
      else
        let hit := hits r [] names (s_entries s) in
        match lowest_of hit with
        | None => Ret (ResErr (c_rendered first) [], w)
        | Some lowest =>
          match position (λ e, ordinal e =? lowest) (s_entries s) with
          | None => Ret (ResErr (c_rendered first) [], w)
          | Some index =>
            let retained := retain_lowest lowest hit (s_entries s) in
            let index := Nat.min index (length retained - 1) in
            let* replaced_entries := set_entry index (MkEntry lowest r kind text emitted names None) retained in
            let source := render_entries replaced_entries in
            match check_candidate T source w with
            | (inl rendered, w) => Ret (ResErr rendered hit, w)
            | (inr second, w) =>
              if had_errors second then Ret (ResErr (c_rendered second) hit, w)
              else
                match checked_hir source w with
                | (inl rendered, w) => Ret (ResErr rendered hit, w)
                | (inr hir, w) => Ret (ResOk replaced_entries [lowest] hit source (next_ordinal s) hir (c_rendered second), w)
                end
            end
          end
        end
    end
  end.

Definition echo_for (kind : EntryKind) (source : bytes) (index : nat) (w : W) : Echo * W :=
  match kind with
  | EntryKind.Printed => (EchoPrinted, w)
  | EntryKind.ResultBound =>
      let '(r, w) := checked_hir source w in
      (EchoResultBound (default (str "Result") (match r with inr hir => result_bound_type hir index | inl _ => None end)), w)
  | EntryKind.Statement =>
      let '(r, w) := checked_hir source w in
      (match (match r with inr hir => entry_type hir index | inl _ => None end) with Some t => TypeOnly t | None => NoEcho end, w)
  | EntryKind.Import | EntryKind.Decl | EntryKind.Const => (NoEcho, w)
  end.

(** The candidate ladder, with what candidate S failed with. *)
Fixpoint try_candidates (s : Session) (text : bytes) (kinds : list EntryKind)
    (stmt_rendered : bytes) (stmt_all_dup : bool) (stmt_replacing : list Z) (w : W) : res (Try * W) :=
  match kinds with
  | [] => Ret (TryRejected stmt_rendered stmt_all_dup stmt_replacing, w)
  | kind :: kinds =>
    let emitted := emit_for kind text in
    let* parses := (if bool_decide (kind = EntryKind.Printed) then parses_as_statement emitted else Ret true) in
    if negb parses then try_candidates s text kinds stmt_rendered stmt_all_dup stmt_replacing w
    else if bool_decide (kind = EntryKind.ResultBound) && negb (only_unhandled_result stmt_rendered)
    then Ret (TryRejected stmt_rendered stmt_all_dup stmt_replacing, w)
    else
      let* '(r, w) := resolve s Region.Main kind text emitted w in
      match r with
      | ResOk entries ordinals replaced source next hir diagnostics =>
        let* first := unwrap (ordinals !! 0%nat) in
        let index := default 0%nat (position (λ e, ordinal e =? first) (List.filter (in_region Region.Main) entries)) in
        let '(echo, w) := echo_for kind source index w in
        Ret (TryAccepted {| a_entries := entries; a_ordinals := ordinals; a_replaced := replaced; a_echo := echo; a_source := source;
                            a_next_ordinal := next; a_next_paste := next_paste s; a_hir := hir; a_diagnostics := diagnostics |}, w)
      | ResErr rendered replacing =>
        if bool_decide (kind = EntryKind.Statement)
        then try_candidates s text kinds rendered (all_errors_are_duplicates rendered) replacing w
        else try_candidates s text kinds (if is_nil stmt_rendered then rendered else stmt_rendered) stmt_all_dup stmt_replacing w
      end
  end.
Definition try_main (s : Session) (text : bytes) (w : W) : res (Try * W) :=
  try_candidates s text CANDIDATE_ORDER [] false [] w.

(** ** Declarations *)
Fixpoint add_imports (group : option Z) (imports : list Path) (proposed : list Entry) (ordinals : list Z) (next : Z)
    : res (list Entry * list Z * Z) :=
  match imports with
  | [] => Ret (proposed, ordinals, next)
  | path :: imports =>
    let rendered := str "import " ++ import_path path in
    if existsb (λ e, in_region Region.Import e && bool_decide (emitted e = rendered)) proposed
    then add_imports group imports proposed ordinals next
    else
      let* next' := u32_incr next in
      add_imports group imports (proposed ++ [MkEntry next Region.Import EntryKind.Import rendered rendered [] group])
        (ordinals ++ [next]) next'
  end.

Record Proposal := { p_entries : list Entry; p_ordinals : list Z; p_replaced : list Z; p_next : Z }.
(** One item: it replaces the declarations that own one of its names, at the lowest of their ordinals. *)
Definition add_item (s : Session) (group : option Z) (source : bytes) (item : Item) (p : Proposal) : res Proposal :=
  let names := item_names item in
  let hit := hits Region.Decl (p_replaced p) names (s_entries s) in
  let text := item_text source item in
  let new o := MkEntry o Region.Decl EntryKind.Decl text text names group in
  match lowest ← lowest_of hit; position (λ e, ordinal e =? lowest) (p_entries p) with
  | Some _ =>
    let keep := default (p_next p) (lowest_of hit) in
    let proposed := retain_lowest keep hit (p_entries p) in
    Ret {| p_entries := match position (λ e, ordinal e =? keep) proposed with
                        | Some index => <[index := new keep]> proposed
                        | None => proposed ++ [new keep]
                        end;
           p_ordinals := p_ordinals p ++ [keep]; p_replaced := p_replaced p ++ hit; p_next := p_next p |}
  | None =>
    let* next := u32_incr (p_next p) in
    Ret {| p_entries := p_entries p ++ [new (p_next p)]; p_ordinals := p_ordinals p ++ [p_next p];
           p_replaced := p_replaced p; p_next := next |}
  end.
Fixpoint add_items (s : Session) (group : option Z) (source : bytes) (items : list Item) (p : Proposal) : res Proposal :=
  match items with
  | [] => Ret p
  | item :: items => let* p := add_item s group source item p in add_items s group source items p
  end.
(** The names a declaration keeps: those the checked program has more of than before. *)
Definition retain_names (hir_names previous : list bytes) (ordinals replaced : list Z) (e : Entry) : Entry :=
  if in_region Region.Decl e && has_ordinal ordinals (ordinal e) then
    MkEntry (ordinal e) (region e) (e_kind e) (text e) (emitted e)
      (List.filter (λ name,
         let present := occurrences name hir_names in
         (occurrences name previous <? present)%nat || (has_ordinal replaced (ordinal e) && (0 <? present)%nat)) (names e))
      (paste_group e)
  else e.

Definition try_decl (s : Session) (text : bytes) (w : W) : res (Try * W) :=
  let* file := parse_as_file text in
  match file with
  | None => Ret (TryRejected (str "align-repl: this entry does not parse as a declaration" ++ [10]) false [], w)
  | Some file =>
    let group := if (1 <? length (f_imports file) + length (f_items file))%nat then Some (next_paste s) else None in
    let* '(proposed, ordinals, next) := add_imports group (f_imports file) (s_entries s) [] (next_ordinal s) in
    let* p := add_items s group text (f_items file) {| p_entries := proposed; p_ordinals := ordinals; p_replaced := []; p_next := next |} in
    let source := render_entries (p_entries p) in
    match check_candidate T source w with
    | (inl rendered, w) => Ret (TryRejected rendered false (p_replaced p), w)
    | (inr checked, w) =>
      if had_errors checked then
        Ret (TryRejected (c_rendered checked) (all_errors_are_duplicates (c_rendered checked)) (p_replaced p), w)
      else
        match checked_hir source w with
        | (inl rendered, w) => Ret (TryRejected rendered (all_errors_are_duplicates rendered) (p_replaced p), w)
        | (inr hir, w) =>
          let previous := match s_hir s with Some h => declaration_hir_names h | None => [] end in
          let entries := map (retain_names (declaration_hir_names hir) previous (p_ordinals p) (p_replaced p)) (p_entries p) in
          let* next_paste' := u32_add (next_paste s) (match group with Some _ => 1 | None => 0 end) in
          Ret (TryAccepted {| a_entries := entries; a_ordinals := p_ordinals p; a_replaced := p_replaced p; a_echo := NoEcho;
                              a_source := source; a_next_ordinal := p_next p; a_next_paste := next_paste'; a_hir := hir;
                              a_diagnostics := c_rendered checked |}, w)
        end
    end
  end.

(** ** Committing *)
Definition run_and_report (s : Session) (ordinals replaced : list Z) (echo : Echo) : Outcome * Session :=
  match run_exe T (world s) with
  | (inr run, w) =>
    let '(shown, b) := absorb (baseline s) (r_out run) (r_err run) (output_cap s) in
    let s := set_baseline b (set_world w s) in
    (if success (r_status run) then Applied ordinals replaced echo shown else RanAndFailed (r_status run) shown, s)
  | (inl rendered, w) => (CompileFailed rendered replaced, set_world w s)
  end.
(** The checks' own diagnostics come before the run's. *)
Definition prepend_stderr (diagnostics : bytes) (o : Outcome) : Outcome :=
  let with_ out := {| stdout_shown := stdout_shown out; stderr_shown := diagnostics ++ stderr_shown out;
                      diverged := diverged out; truncated := truncated out |} in
  match o with
  | Applied ordinals replaced echo out => Applied ordinals replaced echo (with_ out)
  | RanAndFailed status out => RanAndFailed status (with_ out)
  | o => o
  end.
Definition commit (s : Session) (a : Accepted) : Outcome * Session :=
  match build_exe T (a_source a) (world s) with
  | (inl rendered, w) => (CompileFailed rendered (a_replaced a), set_world w s)
  | (inr _, w) =>
    let undo := between (s_entries s) (a_entries a) in
    let s := set_program (a_entries a) (a_next_ordinal a) (a_next_paste a) (a_hir a) (set_world w s) in
    let s := if is_nil (added undo) then s else set_undo (undo :: undo_steps s) s in
    let '(outcome, s) := run_and_report s (a_ordinals a) (a_replaced a) (a_echo a) in
    (prepend_stderr (a_diagnostics a) outcome, s)
  end.
Definition finish (s : Session) (t : Try) (w : W) : Outcome * Session :=
  match t with
  | TryAccepted a => commit (set_world w s) a
  | TryRejected rendered _ replacing => (CompileFailed rendered replacing, set_world w s)
  end.

(** ** Submitting *)
Definition submit_decl (s : Session) (text : bytes) : res (Outcome * Session) :=
  let* '(t, w) := try_decl s text (world s) in Ret (finish s t w).
Definition submit_main (s : Session) (text : bytes) : res (Outcome * Session) :=
  let* '(t, w) := try_main s text (world s) in Ret (finish s t w).
Definition no_tests : Outcome :=
  CompileFailed (str "error: test declarations are not available in align-repl; use 'alignc test <entry.align>'" ++ [10]) [].

(** Both readings parse: the statement's verdict is final when it is clean or only duplicates. *)
Definition submit_either (s : Session) (text : bytes) : res (Outcome * Session) :=
  let* '(main, w) := try_main s text (world s) in
  match main with
  | TryAccepted a => Ret (commit (set_world w s) a)
  | TryRejected rendered all_dup main_replacing =>
    if all_dup then Ret (CompileFailed rendered main_replacing, set_world w s)
    else
      let* '(decl, w) := try_decl s text w in
      match decl with
      | TryAccepted a => Ret (commit (set_world w s) a)
      | TryRejected decl_rendered decl_all_dup replacing =>
        if decl_all_dup || negb (is_nil replacing) then Ret (CompileFailed decl_rendered replacing, set_world w s)
        else Ret (CompileFailed rendered main_replacing, set_world w s)
      end
  end.

(** A constant's name that a binding of the text would take. *)
Definition region_conflict (r : Region) (s : Session) (taken : list bytes) : option Outcome :=
  hit ← List.find (λ e, in_region r e && shares_name (names e) taken) (s_entries s);
  Some (RegionConflict (default [] (List.find (λ n, has_name n taken) (names hit))) (ordinal hit)).

Definition submit (s : Session) (text : bytes) : res (Outcome * Session) :=
  let text := trim_end text in
  let* shape := shape_of text in
  match shape with
  | Empty => Ret (NoOp, s)
  | KeywordDecl =>
    let* tests := contains_test_declaration text in
    if tests then Ret (no_tests, s) else submit_decl s text
  | Other =>
    let* tests := contains_test_declaration text in
    if tests then Ret (no_tests, s)
    else
      let* binding_names := top_level_binding_names text in
      match region_conflict Region.Const s binding_names with
      | Some conflict => Ret (conflict, s)
      | None =>
        let* as_file := parse_as_file text in
        let* as_stmt := parses_as_statement text in
        match as_file, as_stmt with
        | None, _ => submit_main s text
        | Some _, false => submit_decl s text
        | Some _, true => submit_either s text
        end
      end
  end.

Definition add_const (s : Session) (text : bytes) : res (Outcome * Session) :=
  let* file := parse_as_file text in
  match file with
  | None => Ret (CompileFailed (str "align-repl: `:const` takes a declaration, e.g. `:const WIDTH := 6`" ++ [10]) [], s)
  | Some file =>
    if negb (match f_items file with [It_Const _] => true | _ => false end)
    then Ret (CompileFailed (str "align-repl: `:const` takes exactly one `NAME := expr`" ++ [10]) [], s)
    else
      let names := declared_names file in
      match region_conflict Region.Main s names with
      | Some conflict => Ret (conflict, s)
      | None =>
        let hit := hits Region.Const [] names (s_entries s) in
        let o := default (next_ordinal s) (lowest_of hit) in
        let new := MkEntry o Region.Const EntryKind.Const text text names None in
        let proposed := match position (λ e, ordinal e =? o) (s_entries s) with
                        | Some index => <[index := new]> (s_entries s)
                        | None => s_entries s ++ [new]
                        end in
        let source := render_entries proposed in
        match check_candidate T source (world s) with
        | (inl rendered, w) => Ret (CompileFailed rendered hit, set_world w s)
        | (inr checked, w) =>
          if had_errors checked then Ret (CompileFailed (c_rendered checked) hit, set_world w s)
          else
            match checked_hir source w with
            | (inl rendered, w) => Ret (CompileFailed rendered hit, set_world w s)
            | (inr hir, w) =>
              let* next := u32_add (next_ordinal s) (if is_nil hit then 1 else 0) in
              Ret (commit (set_world w s)
                {| a_entries := proposed; a_ordinals := [o]; a_replaced := hit; a_echo := NoEcho; a_source := source;
                   a_next_ordinal := next; a_next_paste := next_paste s; a_hir := hir; a_diagnostics := c_rendered checked |})
            end
        end
      end
  end.

(** ** Removing *)
Definition rebuild_after_removal (s : Session) (proposed : list Entry) (clear_poison : bool) : Outcome * Session :=
  let source := render_entries proposed in
  match build_exe T source (world s) with
  | (inl rendered, w) => (CompileFailed rendered [], set_world w s)
  | (inr _, w) =>
    match checked_hir source w with
    | (inl rendered, w) => (CompileFailed rendered [], set_world w s)
    | (inr hir, w) =>
      let s := set_program proposed (next_ordinal s) (next_paste s) hir (set_world w s) in
      let s := set_baseline (if clear_poison then baseline_clear (baseline s) else baseline_reset (baseline s)) s in
      run_and_report s [] [] NoEcho
    end
  end.
Definition is_compile_failed (o : Outcome) : bool := match o with CompileFailed _ _ => true | _ => false end.

Fixpoint undo_loop (s : Session) (steps : list UndoStep) : Outcome * Session :=
  match steps with
  | [] => (CommandMessage (str "align-repl: nothing to undo"), set_undo [] s)
  | step :: steps =>
    if negb (is_active step (s_entries s)) then undo_loop s steps
    else
      let '(outcome, s) := rebuild_after_removal (set_undo steps s) (reverse_step step (s_entries s)) false in
      (outcome, if is_compile_failed outcome then set_undo (step :: steps) s else s)
  end.
Definition undo (s : Session) : Outcome * Session := undo_loop s (undo_steps s).

(** The decimal digits of an ordinal. *)
Fixpoint dec_digits (fuel : nat) (n : Z) (acc : bytes) : bytes :=
  match fuel with
  | O => acc
  | S fuel => let acc := 48 + n mod 10 :: acc in if n / 10 =? 0 then acc else dec_digits fuel (n / 10) acc
  end.
Definition drop_entry (s : Session) (o : Z) : Outcome * Session :=
  if negb (existsb (λ e, ordinal e =? o) (s_entries s))
  then (CommandMessage (str "align-repl: no entry " ++ dec_digits 10 o []), s)
  else rebuild_after_removal s (List.filter (λ e, negb (ordinal e =? o)) (s_entries s)) false.
Definition clear (s : Session) : Outcome * Session :=
  let '(outcome, s) := rebuild_after_removal s [] true in
  (outcome, if is_nil (s_entries s) then set_undo [] s else s).

(** ** Reading lines *)
Definition feed (s : Session) (line : bytes) : res (Feed * Session) :=
  if is_nil (pending s) && is_nil (trim line) then Ret (Ready NoOp, s)
  else if negb (is_nil (pending s)) && is_nil (trim line) then
    Ret (Ready (CommandMessage (str "align-repl: abandoned incomplete entry")), set_pending [] s)
  else
    let text := if is_nil (pending s) then line else pending s ++ [10] ++ line in
    let* more := needs_more text in
    if more then Ret (NeedMore, set_pending text s)
    else let* '(o, s) := submit (set_pending [] s) text in Ret (Ready o, s).

(** [:type]: a candidate that is never spliced. *)
Definition type_of (s : Session) (expr : bytes) : (bytes + bytes) * W :=
  let candidate kind := s_entries s ++ [MkEntry U32_MAX Region.Main kind expr (emit_for kind expr) [] None] in
  let index := (length (List.filter (in_region Region.Main) (candidate EntryKind.Statement)) - 1)%nat in
  let no_value := str "align-repl: that entry has no value to type" ++ [10] in
  match check_hir T (render_entries (candidate EntryKind.Statement)) (world s) with
  | (inl rendered, w) => (inl rendered, w)
  | (inr checked, w) =>
    if negb (h_had_errors checked) then (match entry_type (h_hir checked) index with Some t => inr t | None => inl no_value end, w)
    else if negb (only_unhandled_result (h_rendered checked)) then (inl (h_rendered checked), w)
    else
      match checked_hir (render_entries (candidate EntryKind.ResultBound)) w with
      | (inl rendered, w) => (inl rendered, w)
      | (inr hir, w) => (match result_bound_type hir index with Some t => inr t | None => inl no_value end, w)
      end
  end.
End Session.
