(* ===== verification/ReplUndo.v ===== *)
(** * Undo steps

    An undo step is the difference of two programs.  Applied to the later one it
    gives the earlier one back, entry for entry and in order, as long as both are in
    the order of their ordinals. *)
From Stdlib Require Import ZArith Lia Sorted.
From stdpp Require Import sorting.
From S2P Require Import Prelude ReplEntry Repl.
Local Open Scope Z_scope.

Lemma mem_spec e l : mem e l = true ↔ e ∈ l.
Proof.
  unfold mem. rewrite existsb_exists. setoid_rewrite <-list_elem_of_In. setoid_rewrite bool_decide_eq_true. naive_solver.
Qed.
Lemma mem_false e l : mem e l = false ↔ e ∉ l.
Proof. rewrite <-mem_spec. by destruct (mem e l). Qed.
Lemma elem_filter_b {A} (p : A → bool) l x : x ∈ List.filter p l ↔ x ∈ l ∧ p x = true.
Proof. rewrite !list_elem_of_In. apply filter_In. Qed.

Lemma enumerate_lookup {A} i (l : list A) x : x ∈ enumerate i l ↔ (i ≤ x.1)%nat ∧ l !! (x.1 - i)%nat = Some x.2.
Proof.
  destruct x as [n e]. simpl. revert i. induction l as [|y l IH]; intros i; simpl; [split; [by intros ?%not_elem_of_nil|by intros [_ ?]]|].
  rewrite elem_of_cons, IH. split.
  - intros [[= -> ->]|[Hi Hl]]; [split; [lia|by rewrite Nat.sub_diag]|]. split; [lia|]. by replace (n - i)%nat with (S (n - S i)) by lia.
  - intros [Hi Hl]. destruct (decide (n = i)) as [->|]; [rewrite Nat.sub_diag in Hl; simplify_eq/=; tauto|]. right. split; [lia|].
    by replace (n - i)%nat with (S (n - S i)) in Hl by lia.
Qed.

Lemma added_spec B A e : e ∈ added (between B A) ↔ e ∈ A ∧ e ∉ B.
Proof. unfold between. simpl. rewrite elem_filter_b, negb_true_iff, mem_false. done. Qed.
Lemma removed_spec B A p : p ∈ removed (between B A) ↔ B !! p.1 = Some p.2 ∧ p.2 ∉ A.
Proof. unfold between. simpl. rewrite elem_filter_b, negb_true_iff, mem_false, enumerate_lookup, Nat.sub_0_r. naive_solver lia. Qed.
Lemma is_active_spec step l : is_active step l = true ↔ ∃ e, e ∈ added step ∧ e ∈ l.
Proof. unfold is_active. rewrite existsb_exists. setoid_rewrite mem_spec. setoid_rewrite <-list_elem_of_In. done. Qed.

Lemma elem_insert_at l p e : e ∈ insert_at l p ↔ e = p.2 ∨ e ∈ l.
Proof.
  unfold insert_at. set (i := Nat.min p.1 (length l)). rewrite elem_of_app, elem_of_cons.
  assert (e ∈ l ↔ e ∈ take i l ∨ e ∈ drop i l) as -> by (by rewrite <-elem_of_app, take_drop). tauto.
Qed.
Lemma elem_insert_all ps l e : e ∈ fold_left insert_at ps l ↔ (∃ p, p ∈ ps ∧ e = p.2) ∨ e ∈ l.
Proof.
  revert l. induction ps as [|p ps IH]; intros l; simpl.
  - split; [tauto|]. intros [(p & ?%not_elem_of_nil & _)|?]; done.
  - rewrite IH, elem_insert_at. split.
    + intros [(q & Hq & He)|[He|He]]; [left; exists q|left; exists p|by right]; by rewrite elem_of_cons; auto.
    + intros [(q & [->|Hq]%elem_of_cons & He)|He]; [tauto| |tauto]. left. by exists q.
Qed.
Lemma elem_reverse_step step l e : e ∈ reverse_step step l ↔ (∃ p, p ∈ removed step ∧ e = p.2) ∨ (e ∈ l ∧ e ∉ added step).
Proof. unfold reverse_step. by rewrite elem_insert_all, elem_filter_b, negb_true_iff, mem_false. Qed.

(** Putting back what a filter took out, at the recorded places. *)
Lemma insert_back {A'} (f : A' → bool) (B : list A') pre (ins : list A' → nat * A' → list A') :
  (∀ l p, ins l p = let i := Nat.min p.1 (length l) in take i l ++ p.2 :: drop i l) →
  fold_left ins (List.filter (λ p, negb (f p.2)) (enumerate (length pre) B)) (pre ++ List.filter f B) = pre ++ B.
Proof.
  intros Hins. revert pre. induction B as [|x B IH]; intros pre; simpl; [done|]. pose proof (IH (pre ++ [x])) as IHx.
  rewrite length_app, Nat.add_1_r, <-!app_assoc in IHx. simpl in IHx. destruct (f x) eqn:Hf; simpl; [done|].
  rewrite Hins. simpl. rewrite length_app, Nat.min_l by lia. by rewrite take_app_length, drop_app_length.
Qed.

(** ** Order *)
Definition sorted (l : list Entry) : Prop := StronglySorted Z.lt (map ordinal l).
Lemma sorted_cons e l : sorted (e :: l) ↔ (∀ x, x ∈ l → ordinal e < ordinal x) ∧ sorted l.
Proof.
  unfold sorted. simpl. split.
  - intros H. inversion_clear H as [|? ? H1 H2]. split; [|done]. intros x Hx. rewrite Forall_forall in H2. apply H2. by apply list_elem_of_fmap_2.
  - intros [H1 H2]. constructor; [done|]. apply Forall_forall. intros o (x & -> & Hx)%list_elem_of_fmap. by apply H1.
Qed.
Lemma sorted_app a b : sorted (a ++ b) ↔ sorted a ∧ sorted b ∧ ∀ x y, x ∈ a → y ∈ b → ordinal x < ordinal y.
Proof.
  induction a as [|e a IH]; simpl; [split; [intros H; split_and!; [constructor|done|]; intros ? ? []%not_elem_of_nil|tauto]|].
  rewrite !sorted_cons, IH. setoid_rewrite elem_of_app. setoid_rewrite elem_of_cons. naive_solver.
Qed.
Lemma sorted_filter p l : sorted l → sorted (List.filter p l).
Proof.
  induction l as [|e l IH]; [done|]. rewrite sorted_cons. intros [H1 H2]. simpl. destruct (p e); [|by apply IH].
  rewrite sorted_cons. split; [|by apply IH]. intros x Hx. apply H1. by apply elem_filter_b in Hx as [? _].
Qed.
Lemma sorted_eq l l' : sorted l → sorted l' → (∀ e, e ∈ l ↔ e ∈ l') → l = l'.
Proof.
  revert l'. induction l as [|e l IH]; intros [|e' l'] H H' Hel; [done| | |].
  - exfalso. apply (not_elem_of_nil e'), Hel. apply elem_of_cons. tauto.
  - exfalso. apply (not_elem_of_nil e), Hel. apply elem_of_cons. tauto.
  - apply sorted_cons in H as [Hm H]. apply sorted_cons in H' as [Hm' H'].
    assert (e = e') as <-.
    { assert (e ∈ e' :: l') as [|He]%elem_of_cons by (apply Hel; rewrite elem_of_cons; tauto); [done|].
      assert (e' ∈ e :: l) as [|He']%elem_of_cons by (apply Hel; rewrite elem_of_cons; tauto); [done|].
      specialize (Hm _ He'). specialize (Hm' _ He). lia. }
    f_equal. apply IH; [done..|]. intros x. specialize (Hel x). rewrite !elem_of_cons in Hel. split; intros Hx.
    + destruct (proj1 Hel (or_intror Hx)) as [->|]; [|done]. specialize (Hm _ Hx). lia.
    + destruct (proj2 Hel (or_intror Hx)) as [->|]; [|done]. specialize (Hm' _ Hx). lia.
Qed.

Lemma reverse_between B A : sorted B → sorted A → reverse_step (between B A) A = B.
Proof.
  intros HB HA. unfold reverse_step.
  assert (List.filter (λ e, negb (mem e (added (between B A)))) A = List.filter (λ e, mem e A) B) as ->.
  { apply sorted_eq; [by apply sorted_filter..|]. intros e.
    rewrite !elem_filter_b, negb_true_iff, mem_false, added_spec, mem_spec. destruct (decide (e ∈ B)); tauto. }
  by apply (insert_back (λ e, mem e A) B []).
Qed.
