(* ===== verification/ReplSpec.v ===== *)
(** * What an accepted entry does to the session's program

    Whatever the toolchain answers, an accepted submission adds well-formed entries
    under fresh ordinals or in place of the ones it displaces, keeps constants and
    bindings apart, and leaves the order of ordinals intact. *)
From Stdlib Require Import ZArith Lia String Sorted.
From stdpp Require Import sorting.
From S2P Require Import Prelude Span Ast Parser ReplEntry Repl ReplUndo.
Local Open Scope Z_scope.

(** ** Well-formed programs *)
Definition well_formed (e : Entry) : Prop :=
  emitted e = emit_for (e_kind e) (text e) ∧
  match region e, e_kind e with
  | Region.Import, EntryKind.Import | Region.Const, EntryKind.Const | Region.Decl, EntryKind.Decl => True
  | Region.Main, (EntryKind.Statement | EntryKind.Printed | EntryKind.ResultBound) => True
  | _, _ => False
  end.

(** A program of a session whose next ordinal is [next]. *)
Record good (es : list Entry) (next : Z) : Prop := {
  g_next : 1 ≤ next;
  g_bounds : ∀ e, e ∈ es → 1 ≤ ordinal e < next;
  g_formed : ∀ e, e ∈ es → well_formed e;
  g_imports : ∀ e e', e ∈ es → e' ∈ es → region e = Region.Import → region e' = Region.Import → emitted e = emitted e' → e = e';
  g_separate : ∀ c m n, c ∈ es → m ∈ es → region c = Region.Const → region m = Region.Main → n ∈ names c → n ∈ names m → False
}.

Lemma good_subset es es' next next' : good es next → next ≤ next' → (∀ e, e ∈ es' → e ∈ es) → good es' next'.
Proof.
  intros [H1 H2 H3 H4 H5] Hn Hs. split; [lia| |auto|auto|eauto]. intros e He. specialize (H2 e (Hs e He)). lia.
Qed.

Lemma good_extend es es' next next' e : good es next → next ≤ next' → 1 ≤ ordinal e < next' → well_formed e →
  (region e = Region.Import → ∀ x, x ∈ es → region x = Region.Import → emitted x ≠ emitted e) →
  (region e = Region.Const → ∀ m n, m ∈ es → region m = Region.Main → n ∈ names e → n ∈ names m → False) →
  (region e = Region.Main → ∀ c n, c ∈ es → region c = Region.Const → n ∈ names c → n ∈ names e → False) →
  (∀ x, x ∈ es' → x = e ∨ x ∈ es) → good es' next'.
Proof.
  intros [H1 H2 H3 H4 H5] Hn Ho Hw Hi Hc Hm Hs. split; [lia| | | |].
  - intros x [->|Hx]%Hs; [done|]. specialize (H2 x Hx). lia.
  - intros x [->|Hx]%Hs; auto.
  - intros x y [->|Hx]%Hs [->|Hy]%Hs R1 R2 He; [done|exfalso; by apply (Hi R1 y Hy R2)|exfalso; by apply (Hi R2 x Hx R1)|auto].
  - intros c m n [->|Hx]%Hs [->|Hy]%Hs R1 R2 N1 N2; [congruence|eauto..].
Qed.

(** Changing only names, and those only outside the two guarded regions. *)
Lemma good_map f es next : good es next →
  (∀ e, ordinal (f e) = ordinal e ∧ region (f e) = region e ∧ emitted (f e) = emitted e ∧ (well_formed e → well_formed (f e)) ∧
    (region e ≠ Region.Decl → f e = e)) → good (map f es) next.
Proof.
  intros [H1 H2 H3 H4 H5] Hf. split; [done| | | |].
  - intros e (x & -> & Hx)%list_elem_of_fmap. destruct (Hf x) as [-> _]. auto.
  - intros e (x & -> & Hx)%list_elem_of_fmap. apply Hf. auto.
  - intros e e' (x & -> & Hx)%list_elem_of_fmap (y & -> & Hy)%list_elem_of_fmap. destruct (Hf x) as (_ & -> & -> & _), (Hf y) as (_ & -> & -> & _).
    intros R1 R2 He. f_equal. auto.
  - intros c m n (x & -> & Hx)%list_elem_of_fmap (y & -> & Hy)%list_elem_of_fmap.
    destruct (Hf x) as (_ & -> & _ & _ & Fx), (Hf y) as (_ & -> & _ & _ & Fy). intros R1 R2. rewrite Fx, Fy by congruence. eauto.
Qed.

(** ** Lists *)
Lemma in_region_spec r e : in_region r e = true ↔ region e = r.
Proof. unfold in_region. apply bool_decide_eq_true. Qed.
Lemma has_name_spec n l : has_name n l = true ↔ n ∈ l.
Proof. unfold has_name. rewrite existsb_exists. setoid_rewrite <-list_elem_of_In. setoid_rewrite bool_decide_eq_true. naive_solver. Qed.
Lemma shares_name_spec l l' : shares_name l l' = true ↔ ∃ n, n ∈ l ∧ n ∈ l'.
Proof. unfold shares_name. rewrite existsb_exists. setoid_rewrite <-list_elem_of_In. by setoid_rewrite has_name_spec. Qed.
Lemma has_ordinal_spec l o : has_ordinal l o = true ↔ o ∈ l.
Proof. unfold has_ordinal. rewrite existsb_exists. setoid_rewrite <-list_elem_of_In. setoid_rewrite Z.eqb_eq. naive_solver. Qed.

Lemma position_spec {A} (p : A → bool) l i : position p l = Some i →
  ∃ pre x post, l = pre ++ x :: post ∧ length pre = i ∧ p x = true ∧ ∀ y, y ∈ pre → p y = false.
Proof.
  revert i. induction l as [|x l IH]; intros i; simpl; [done|]. destruct (p x) eqn:Hp.
  - intros [= <-]. exists [], x, l. split_and!; [done..|]. by intros y ?%not_elem_of_nil.
  - destruct (position p l) as [j|]; [|done]. intros [= <-]. destruct (IH j eq_refl) as (pre & y & post & -> & <- & Hy & Hpre).
    exists (x :: pre), y, post. split_and!; [done..|]. intros z [->|Hz]%elem_of_cons; auto.
Qed.
Lemma position_none {A} (p : A → bool) l : position p l = None → ∀ y, y ∈ l → p y = false.
Proof.
  induction l as [|x l IH]; simpl; [by intros _ y ?%not_elem_of_nil|]. destruct (p x) eqn:Hp; [done|].
  destruct (position p l); [done|]. intros _ y [->|Hy]%elem_of_cons; auto.
Qed.
Lemma fold_min_spec l x : fold_left Z.min l x ≤ x ∧ (∀ h, h ∈ l → fold_left Z.min l x ≤ h) ∧ (fold_left Z.min l x = x ∨ fold_left Z.min l x ∈ l).
Proof.
  revert x. induction l as [|y l IH]; intros x; simpl.
  - split_and!; [lia|by intros h ?%not_elem_of_nil|by left].
  - destruct (IH (Z.min x y)) as (H1 & H2 & H3). split_and!; [lia| |].
    + intros h [->|Hh]%elem_of_cons; [lia|auto].
    + rewrite elem_of_cons. destruct H3 as [->|H3]; [|tauto]. destruct (Z.min_dec x y) as [->| ->]; tauto.
Qed.
Lemma lowest_spec l o : lowest_of l = Some o → o ∈ l ∧ ∀ h, h ∈ l → o ≤ h.
Proof.
  destruct l as [|x l]; [done|]. intros [= <-]. destruct (fold_min_spec l x) as (H1 & H2 & H3). split.
  - rewrite elem_of_cons. tauto.
  - intros h [->|Hh]%elem_of_cons; auto.
Qed.
Lemma hits_spec r skip ns es o : o ∈ hits r skip ns es ↔
  ∃ e, e ∈ es ∧ ordinal e = o ∧ region e = r ∧ (o ∉ skip) ∧ shares_name (names e) ns = true.
Proof.
  unfold hits. rewrite list_elem_of_fmap. setoid_rewrite elem_filter_b. setoid_rewrite andb_true_iff. setoid_rewrite andb_true_iff.
  setoid_rewrite negb_true_iff. setoid_rewrite in_region_spec. split.
  - intros (e & -> & He & ((Hr & Hs) & Hn)). exists e. split_and!; try done. rewrite <-has_ordinal_spec. by rewrite Hs.
  - intros (e & He & <- & Hr & Hs & Hn). exists e. split_and!; try done. rewrite <-has_ordinal_spec in Hs. by destruct (has_ordinal skip (ordinal e)).
Qed.
Lemma retain_subset keep hit es e : e ∈ retain_lowest keep hit es → e ∈ es.
Proof. unfold retain_lowest. by intros [? _]%elem_filter_b. Qed.
Lemma elem_set {A} (i : nat) (x y : A) (l : list A) : y ∈ <[i := x]> l → y = x ∨ y ∈ l.
Proof.
  intros (j & Hj)%list_elem_of_lookup. destruct (decide (i = j)) as [<-|Hne].
  - apply list_lookup_insert_Some in Hj as [(_ & -> & _)|(? & _)]; [by left|done].
  - rewrite list_lookup_insert_ne in Hj by done. right. by apply list_elem_of_lookup_2 in Hj.
Qed.

(** ** Order *)
Lemma sorted_ordinals l l' : map ordinal l = map ordinal l' → sorted l → sorted l'.
Proof. unfold sorted. by intros ->. Qed.
Lemma sorted_snoc l e : sorted l → (∀ x, x ∈ l → ordinal x < ordinal e) → sorted (l ++ [e]).
Proof.
  intros Hl He. apply sorted_app. split_and!; [done|apply sorted_cons; split; [by intros x ?%not_elem_of_nil|constructor]|].
  intros x y Hx [->|?%not_elem_of_nil]%elem_of_cons; [by apply He|done].
Qed.
Lemma set_ordinals i e x l : l !! i = Some x → ordinal x = ordinal e → map ordinal (<[i := e]> l) = map ordinal l.
Proof. intros Hl Ho. change (ordinal <$> <[i := e]> l = ordinal <$> l). rewrite list_fmap_insert. apply list_insert_id. by rewrite list_lookup_fmap, Hl, <-Ho. Qed.
Lemma lookup_middle' {A} (pre : list A) x post : (pre ++ x :: post) !! length pre = Some x.
Proof. by rewrite lookup_app_r, Nat.sub_diag by done. Qed.

(** Retaining the lowest of the displaced entries keeps the position found before. *)
Lemma retain_position es o hit i : sorted es → (∀ h, h ∈ hit → o ≤ h) → position (λ e, ordinal e =? o) es = Some i →
  ∃ x, retain_lowest o hit es !! i = Some x ∧ ordinal x = o.
Proof.
  intros Hs Hlow (pre & x & post & -> & <- & Hx & Hpre)%position_spec. apply Z.eqb_eq in Hx. exists x. split; [|done].
  unfold retain_lowest. rewrite List.filter_app.
  assert (List.filter (λ e, (ordinal e =? o) || negb (has_ordinal hit (ordinal e))) pre = pre) as ->.
  { apply sorted_app in Hs as (_ & _ & Hlt). clear Hpre. induction pre as [|y pre IH]; [done|]. simpl.
    assert (has_ordinal hit (ordinal y) = false) as ->.
    { destruct (has_ordinal hit (ordinal y)) eqn:Hh; [|done]. apply has_ordinal_spec, Hlow in Hh.
      specialize (Hlt y x ltac:(by left) ltac:(by left)). lia. }
    rewrite orb_true_r. f_equal. apply IH. intros a b Ha. apply Hlt. by right. }
  simpl. rewrite (proj2 (Z.eqb_eq _ _) Hx). simpl. apply lookup_middle'.
Qed.

(** ** Edits *)
Lemma u32_incr_ok x y : u32_incr x = Ret y → y = x + 1.
Proof. unfold u32_incr. case_if; [by intros [= <-]|done]. Qed.
Lemma u32_add_ret x y z : u32_add x y = Ret z → z = x + y.
Proof. unfold u32_add. case_if; [by intros [= <-]|done]. Qed.

Lemma delta_subset cur cand l n : n ∈ main_name_delta cur cand l → n ∈ l.
Proof.
  unfold main_name_delta. set (f := λ (acc : list bytes) (name : bytes), _).
  assert (∀ acc, n ∈ fold_left f l acc → n ∈ acc ∨ n ∈ l) as H; [|by intros [?%not_elem_of_nil|]%H].
  induction l as [|x l IH]; intros acc; simpl; [by left|]. intros [Ha|Hl]%IH; rewrite elem_of_cons; [|tauto].
  unfold f in Ha. case_match; [|tauto]. apply elem_of_app in Ha as [|Ha]; [tauto|]. apply list_elem_of_singleton in Ha. tauto.
Qed.

#[local] Opaque render_entries top_level_binding_names parses_as_statement parse_as_file.

Section Edits.
Context {W : Type} (T : Toolchain W).
Implicit Types (s : Session (W := W)).

(** What an accepted candidate makes of the session. *)
Definition edit s (es : list Entry) (next : Z) : Prop :=
  good es next ∧ next_ordinal s ≤ next ∧ (sorted (s_entries s) → sorted es).

Context (s : Session (W := W)) (Hgood : good (s_entries s) (next_ordinal s)).

(** The names a submission may bind without touching a constant. *)
Definition clear_of_constants (taken : list bytes) : Prop :=
  ∀ c n, c ∈ s_entries s → region c = Region.Const → n ∈ names c → n ∈ taken → False.

Lemma edit_append es next e : edit s es next → 1 ≤ ordinal e → ordinal e = next → well_formed e →
  (region e = Region.Import → ∀ x, x ∈ es → region x = Region.Import → emitted x ≠ emitted e) →
  (region e = Region.Const → ∀ m n, m ∈ es → region m = Region.Main → n ∈ names e → n ∈ names m → False) →
  (region e = Region.Main → ∀ c n, c ∈ es → region c = Region.Const → n ∈ names c → n ∈ names e → False) →
  edit s (es ++ [e]) (next + 1).
Proof.
  intros (Hg & Hn & Hs) H1 Ho Hw Hi Hc Hm. split_and!; [|lia|].
  - eapply (good_extend es _ next _ e); try done; try lia. intros x. rewrite elem_of_app, list_elem_of_singleton. tauto.
  - intros HS. apply sorted_snoc; [auto|]. intros x Hx. pose proof (g_bounds _ _ Hg x Hx). lia.
Qed.
Lemma edit_replace es es' next e : edit s es next → 1 ≤ ordinal e < next → well_formed e →
  (region e = Region.Import → ∀ x, x ∈ es → region x = Region.Import → emitted x ≠ emitted e) →
  (region e = Region.Const → ∀ m n, m ∈ es → region m = Region.Main → n ∈ names e → n ∈ names m → False) →
  (region e = Region.Main → ∀ c n, c ∈ es → region c = Region.Const → n ∈ names c → n ∈ names e → False) →
  (∀ x, x ∈ es' → x = e ∨ x ∈ es) → (sorted es → sorted es') → edit s es' next.
Proof.
  intros (Hg & Hn & Hs) H1 Hw Hi Hc Hm Hel Hso. split_and!; [|done|auto]. eapply (good_extend es _ next _ e); try done; lia.
Qed.
Lemma edit_id : edit s (s_entries s) (next_ordinal s).
Proof. split_and!; [done|lia|done]. Qed.
Lemma main_formed o kind text names : kind = EntryKind.Statement ∨ kind = EntryKind.Printed ∨ kind = EntryKind.ResultBound →
  well_formed (MkEntry o Region.Main kind text (emit_for kind text) names None).
Proof. intros Hk. split; [done|]. by destruct Hk as [->|[->| ->]]. Qed.
Lemma hit_bounds r skip ns o : o ∈ hits r skip ns (s_entries s) → 1 ≤ o < next_ordinal s.
Proof. intros (e & He & <- & _)%hits_spec. by apply (g_bounds _ _ Hgood). Qed.

Lemma resolve_edit kind text w es ordinals replaced source next hir diagnostics w' :
  kind = EntryKind.Statement ∨ kind = EntryKind.Printed ∨ kind = EntryKind.ResultBound →
  (∀ taken, top_level_binding_names text = Ret taken → clear_of_constants taken) →
  resolve T s Region.Main kind text (emit_for kind text) w = Ret (ResOk es ordinals replaced source next hir diagnostics, w') →
  edit s es next.
Proof.
  intros Hk Hfree H. unfold resolve in H.
  destruct (top_level_binding_names text) as [taken| |] eqn:Htop; cbn [res_bind] in H; [|discriminate H..].
  specialize (Hfree taken eq_refl).
  destruct (check_candidate T _ w) as [[r1|first] w1]; [done|]. destruct (check_hir T _ w1) as [[r2|fh] w2]; [done|].
  set (names_ := main_name_delta (s_hir s) (h_hir fh) taken) in *.
  assert (∀ c n, c ∈ s_entries s → region c = Region.Const → n ∈ names c → n ∈ names_ → False) as Hc
    by (intros c n H1 H2 H3 H4; exact (Hfree c n H1 H2 H3 (delta_subset _ _ _ _ H4))).
  pose proof (g_next _ _ Hgood) as H1.
  destruct (had_errors first) eqn:E1; cbn [negb] in H.
  - destruct (has_duplicate_error _); cbn [negb] in H; [|done].
    destruct (lowest_of _) as [lowest|] eqn:Hlow; [|done]. apply lowest_spec in Hlow as [Hin Hmin].
    destruct (position _ _) as [i|] eqn:Hpos; [|done].
    unfold set_entry in H. set (hit := hits Region.Main [] names_ (s_entries s)) in *. set (R := retain_lowest lowest hit (s_entries s)) in *.
    destruct (Nat.ltb_spec (Nat.min i (length R - 1)) (length R)) as [Hi|]; [|done]. cbn [res_bind] in H.
    destruct (check_candidate T _ w2) as [[r3|second] w3]; [done|]. destruct (had_errors second); [done|].
    destruct (checked_hir T _ w3) as [[r4|hir'] w4]; [done|]. injection H as <- <- <- <- <- <- <- <-.
    apply (edit_replace (s_entries s) _ _ (MkEntry lowest Region.Main kind text (emit_for kind text) names_ None)).
    + apply edit_id.
    + by apply (hit_bounds Region.Main [] names_).
    + by apply main_formed.
    + discriminate.
    + discriminate.
    + intros _. exact Hc.
    + intros x [->|Hx]%elem_set; [by left|right]. by apply retain_subset in Hx.
    + intros HS. destruct (retain_position _ _ hit i HS Hmin Hpos) as (x & Hx & Hox). fold R in Hx.
      assert (Nat.min i (length R - 1) = i) as -> by (apply lookup_lt_Some in Hx; lia).
      eapply sorted_ordinals; [symmetry; by apply (set_ordinals i _ x)|]. by apply sorted_filter.
  - destruct (h_had_errors fh); [done|]. destruct (u32_incr _) as [n| |] eqn:Hn; [|done..]. apply u32_incr_ok in Hn as ->.
    injection H as <- <- <- <- <- <- <- <-. apply edit_append; [apply edit_id|exact H1|reflexivity|by apply main_formed|discriminate|discriminate|].
    intros _. exact Hc.
Qed.

Lemma candidates_edit text kinds sr sd sp w a w' :
  (∀ k, k ∈ kinds → k = EntryKind.Statement ∨ k = EntryKind.Printed ∨ k = EntryKind.ResultBound) →
  (∀ taken, top_level_binding_names text = Ret taken → clear_of_constants taken) →
  try_candidates T s text kinds sr sd sp w = Ret (TryAccepted a, w') → edit s (a_entries a) (a_next_ordinal a).
Proof.
  intros Hk Hfree. revert sr sd sp w. induction kinds as [|k kinds IH]; intros sr sd sp w H; cbn [try_candidates] in H; [done|].
  assert (∀ k', k' ∈ kinds → k' = EntryKind.Statement ∨ k' = EntryKind.Printed ∨ k' = EntryKind.ResultBound) as Hk'
    by (intros k' ?; apply Hk; by right).
  destruct (if bool_decide (k = EntryKind.Printed) then _ else _) as [p| |]; [|done..]. cbn [res_bind] in H.
  destruct p; cbn [negb] in H; [|by eapply IH]. case_match; [done|].
  destruct (resolve T s Region.Main k text _ w) as [[r w1]| |] eqn:Hr; [|done..]. cbn [res_bind] in H. destruct r as [es os rs src nx hir dg|rd rp].
  - destruct (os !! 0%nat); [|done]. cbn [unwrap res_bind] in H. destruct (echo_for T k src _ w1). injection H as <- _. cbn [a_entries a_next_ordinal].
    eapply resolve_edit; [|done|exact Hr]. apply Hk. by left.
  - case_match; by eapply IH.
Qed.
Lemma try_main_edit text w a w' : (∀ taken, top_level_binding_names text = Ret taken → clear_of_constants taken) →
  try_main T s text w = Ret (TryAccepted a, w') → edit s (a_entries a) (a_next_ordinal a).
Proof. intros Hf. apply candidates_edit; [|done]. intros k Hk. repeat (apply elem_of_cons in Hk as [->|Hk]; [tauto|]). by apply not_elem_of_nil in Hk. Qed.

(** ** Declarations *)
Lemma imports_edit group imports es ordinals next r : edit s es next →
  add_imports group imports es ordinals next = Ret r → edit s r.1.1 r.2.
Proof.
  revert es ordinals next. induction imports as [|path imports IH]; intros es ordinals next He H; cbn [add_imports] in H.
  - by injection H as <-.
  - destruct (existsb _ es) eqn:Hex; [by eapply IH|].
    destruct (u32_incr next) as [n| |] eqn:Hn; [|discriminate H..]. apply u32_incr_ok in Hn as ->. eapply IH; [|exact H].
    pose proof (g_next _ _ (proj1 He)). apply edit_append; [done|done|reflexivity|done| |discriminate|discriminate].
    cbn [region emitted]. intros _ x Hx Rx Ex.
    assert (existsb (λ e, in_region Region.Import e && bool_decide (emitted e = str "import " ++ import_path path)) es = true); [|congruence].
    apply existsb_exists. exists x. split; [by apply list_elem_of_In|]. apply andb_true_intro. split; [by apply in_region_spec|by apply bool_decide_eq_true].
Qed.

Lemma decl_replace es next e : edit s es next → 1 ≤ ordinal e < next → well_formed e → region e = Region.Decl →
  ∀ es', (∀ x, x ∈ es' → x = e ∨ x ∈ es) → (sorted es → sorted es') → edit s es' next.
Proof. intros He Ho Hw Hr es' Hel Hso. eapply edit_replace; [exact He|exact Ho|exact Hw|congruence..|exact Hel|exact Hso]. Qed.

Lemma item_edit group source item p p' : edit s (p_entries p) (p_next p) → add_item s group source item p = Ret p' → edit s (p_entries p') (p_next p').
Proof.
  intros He H. unfold add_item in H. set (hit := hits Region.Decl (p_replaced p) (item_names item) (s_entries s)) in *.
  destruct (lowest_of hit) as [keep|] eqn:Hlow; cbn [mbind option_bind] in H.
  - pose proof (lowest_spec _ _ Hlow) as [Hin Hmin]. assert (1 ≤ keep < next_ordinal s) as Hkeep by (by apply hit_bounds in Hin).
    pose proof (proj1 (proj2 He)) as Hnext.
    destruct (position (λ e, ordinal e =? keep) (p_entries p)) as [i|] eqn:Hpos; cbn [from_option id] in H.
    + injection H as <-. cbn [p_entries p_next].
      eapply (decl_replace _ _ (MkEntry keep Region.Decl EntryKind.Decl (item_text source item) (item_text source item) (item_names item) group)); [exact He|simpl; lia|done|done|..].
      * intros x Hx. destruct (position (λ e, ordinal e =? keep) (retain_lowest keep hit (p_entries p))) as [j|].
        -- apply elem_set in Hx as [->|Hx]; [by left|right]. by apply retain_subset in Hx.
        -- apply elem_of_app in Hx as [Hx|Hx]; [right; by apply retain_subset in Hx|left; by apply list_elem_of_singleton in Hx].
      * intros HS. destruct (retain_position _ _ hit i HS Hmin Hpos) as (x & Hx & Hox).
        destruct (position (λ e, ordinal e =? keep) (retain_lowest keep hit (p_entries p))) as [j|] eqn:Hj.
        -- apply position_spec in Hj as (pre & y & post & Hr & <- & Hy & _). apply Z.eqb_eq in Hy.
           eapply sorted_ordinals; [symmetry; eapply set_ordinals; [rewrite Hr; apply lookup_middle'|done]|]. by apply sorted_filter.
        -- exfalso. apply list_elem_of_lookup_2 in Hx. pose proof (position_none _ _ Hj x Hx) as Hf. cbv beta in Hf. lia.
    + destruct (u32_incr _) as [n| |] eqn:Hn; [|discriminate H..]. apply u32_incr_ok in Hn as ->. injection H as <-. cbn [p_entries p_next].
      pose proof (g_next _ _ (proj1 He)). apply edit_append; [done|done|reflexivity|done|discriminate..].
  - destruct (u32_incr _) as [n| |] eqn:Hn; [|discriminate H..]. apply u32_incr_ok in Hn as ->. injection H as <-. cbn [p_entries p_next].
    pose proof (g_next _ _ (proj1 He)). apply edit_append; [done|done|reflexivity|done|discriminate..].
Qed.
Lemma items_edit group source items p p' : edit s (p_entries p) (p_next p) → add_items s group source items p = Ret p' → edit s (p_entries p') (p_next p').
Proof.
  revert p. induction items as [|item items IH]; intros p He H; cbn [add_items] in H; [by injection H as <-|].
  destruct (add_item s group source item p) as [q| |] eqn:Hq; [|discriminate H..]. cbn [res_bind] in H. eapply IH; [|exact H]. by eapply item_edit.
Qed.

Lemma retain_names_edit hir previous ordinals replaced es next : edit s es next →
  edit s (map (retain_names hir previous ordinals replaced) es) next.
Proof.
  intros (Hg & Hn & Hs). split_and!; [|done|].
  - apply good_map; [done|]. intros e. unfold retain_names. destruct (in_region Region.Decl e) eqn:Hr; cbn [andb]; [|done].
    apply in_region_spec in Hr. case_match; split_and!; done.
  - intros HS. eapply sorted_ordinals; [|by apply Hs]. rewrite map_map. apply map_ext. intros e. unfold retain_names. by case_match.
Qed.

Lemma try_decl_edit text w a w' : try_decl T s text w = Ret (TryAccepted a, w') → edit s (a_entries a) (a_next_ordinal a).
Proof.
  intros H. unfold try_decl in H. destruct (parse_as_file text) as [[file|]| |]; cbn [res_bind] in H; [|discriminate H..].
  destruct (add_imports _ _ _ _ _) as [[[es os] nx]| |] eqn:Hi; cbn [res_bind] in H; [|discriminate H..].
  destruct (add_items _ _ _ _ _) as [p| |] eqn:Hp; cbn [res_bind] in H; [|discriminate H..].
  apply imports_edit in Hi; [|apply edit_id]. apply items_edit in Hp; [|done].
  destruct (check_candidate T _ w) as [[r1|checked] w1]; [discriminate H|]. destruct (had_errors checked); [discriminate H|].
  destruct (checked_hir T _ w1) as [[r2|hir] w2]; [discriminate H|].
  destruct (u32_add _ _) as [np| |]; cbn [res_bind] in H; [|discriminate H..]. injection H as <- _. by apply retain_names_edit.
Qed.
End Edits.
