(* ===== verification/ReplSession.v ===== *)
(** * The session as a state machine

    Every event keeps the program well formed and the undo steps tied to earlier
    programs; a rejected entry leaves the session as it was; without a removal in
    between, undo walks back through the exact programs; and undoing to the end
    always arrives at the empty program. *)
From Stdlib Require Import ZArith Lia String Sorted.
From S2P Require Import Prelude Span Ast Lexer Parser Depth Diag Fmt ReplEntry Repl ReplUndo ReplSpec.
Local Open Scope Z_scope.
#[local] Opaque render_entries top_level_binding_names parses_as_statement parse_as_file shape_of contains_test_declaration needs_more no_tests.

Section Machine.
Context {W : Type} (T : Toolchain W).
Abbreviation Session := (Session (W := W)).
Implicit Types (s : Session).

(** ** Events *)
Inductive Event := EvLine (line : bytes) | EvSubmit (text : bytes) | EvConst (text : bytes) | EvUndo | EvDrop (o : Z) | EvClear.
Definition ready (r : res (Outcome * Session)) : res (Feed * Session) := let* '(o, s) := r in Ret (Ready o, s).
Definition perform (s : Session) (ev : Event) : res (Feed * Session) :=
  match ev with
  | EvLine line => feed T s line
  | EvSubmit text => ready (submit T s text)
  | EvConst text => ready (add_const T s text)
  | EvUndo => ready (Ret (undo T s))
  | EvDrop o => ready (Ret (drop_entry T s o))
  | EvClear => ready (Ret (clear T s))
  end.
Inductive reachable : Session → Prop :=
  | reach_new cap hir w : reachable (session_new cap hir w)
  | reach_step s ev f s' : reachable s → perform s ev = Ret (f, s') → reachable s'.

(** ** What an event can do to the program *)
Lemma set_world_id s : set_world (world s) s = s.
Proof. by destruct s. Qed.
Lemma set_world_twice w w' s : set_world w (set_world w' s) = set_world w s.
Proof. done. Qed.

Inductive outcome_of s : Outcome * Session → Prop :=
  | Kept o w : o = NoOp ∨ is_compile_failed o = true ∨ (∃ n k, o = RegionConflict n k) → outcome_of s (o, set_world w s)
  | Committed a w : edit s (a_entries a) (a_next_ordinal a) → outcome_of s (commit T (set_world w s) a).
Lemma kept_self s o : o = NoOp ∨ is_compile_failed o = true ∨ (∃ n k, o = RegionConflict n k) → outcome_of s (o, s).
Proof. intros H. rewrite <-(set_world_id s) at 2. by constructor. Qed.
Lemma rejected_kept s rendered replacing w : outcome_of s (CompileFailed rendered replacing, set_world w s).
Proof. constructor. tauto. Qed.

Lemma no_conflict s r taken : region_conflict r s taken = None →
  ∀ c n, c ∈ s_entries s → region c = r → n ∈ names c → n ∈ taken → False.
Proof.
  unfold region_conflict. intros H c n Hc Hr Hn Ht. destruct (List.find _ _) eqn:Hf; [done|].
  apply List.find_none with (x := c) in Hf; [|by apply list_elem_of_In]. cbv beta in Hf.
  rewrite (proj2 (in_region_spec r c) Hr) in Hf. cbn [andb] in Hf.
  assert (shares_name (names c) taken = true) as E by (apply shares_name_spec; by exists n). congruence.
Qed.
Lemma conflict_outcome r s taken o : region_conflict r s taken = Some o → ∃ n k, o = RegionConflict n k.
Proof. unfold region_conflict. destruct (List.find _ _); [|done]. cbn. intros [= <-]. by eexists _, _. Qed.

Lemma finish_shape s t w : (∀ a, t = TryAccepted a → edit s (a_entries a) (a_next_ordinal a)) → outcome_of s (finish T s t w).
Proof. intros H. destruct t as [a|rd ad rp]; simpl; [constructor; by apply H|apply rejected_kept]. Qed.

Lemma submit_shape s text r : good (s_entries s) (next_ordinal s) → submit T s text = Ret r → outcome_of s r.
Proof.
  intros Hg H. unfold submit in H. cbv zeta in H. set (tx := trim_end text) in *. clearbody tx.
  destruct (shape_of tx) as [sh| |]; cbn [res_bind] in H; [|discriminate H..].
  assert (∀ r, submit_decl T s tx = Ret r → outcome_of s r) as Hdecl.
  { intros r' Hr. unfold submit_decl in Hr. destruct (try_decl T s tx (world s)) as [[t w]| |] eqn:Ht; cbn [res_bind] in Hr; [|discriminate Hr..].
    injection Hr as <-. apply finish_shape. intros a ->. by eapply try_decl_edit. }
  assert (outcome_of s (no_tests, s)) as Htests by (apply kept_self; right; left; reflexivity).
  destruct sh.
  - injection H as <-. apply kept_self. tauto.
  - destruct (contains_test_declaration tx) as [[]| |]; cbn [res_bind] in H; [injection H as <-; exact Htests|by apply Hdecl|discriminate H..].
  - destruct (contains_test_declaration tx) as [[]| |]; cbn [res_bind] in H; [injection H as <-; exact Htests| |discriminate H..].
    destruct (top_level_binding_names tx) as [taken| |] eqn:Htop; cbn [res_bind] in H; [|discriminate H..].
    destruct (region_conflict Region.Const s taken) as [o|] eqn:Hconf; [injection H as <-; apply kept_self; right; right; by eapply conflict_outcome|].
    assert (∀ taken', top_level_binding_names tx = Ret taken' → clear_of_constants s taken') as Hfree.
    { intros taken'. rewrite Htop. intros [= <-]. intros c n Hc Hr. by eapply no_conflict. }
    destruct (parse_as_file tx) as [fl| |]; cbn [res_bind] in H; [|discriminate H..].
    destruct (parses_as_statement tx) as [st| |]; cbn [res_bind] in H; [|discriminate H..].
    assert (∀ r, submit_main T s tx = Ret r → outcome_of s r) as Hmain.
    { intros r' Hr. unfold submit_main in Hr. destruct (try_main T s tx (world s)) as [[t w]| |] eqn:Ht; cbn [res_bind] in Hr; [|discriminate Hr..].
      injection Hr as <-. apply finish_shape. intros a ->. by eapply try_main_edit. }
    destruct fl; [|by apply Hmain]. destruct st; [|by apply Hdecl].
    unfold submit_either in H. destruct (try_main T s tx (world s)) as [[[a|rd ad rp] w]| |] eqn:Ht; cbn [res_bind] in H; [|..|discriminate H|discriminate H].
    + injection H as <-. constructor. by eapply try_main_edit.
    + destruct ad; [injection H as <-; apply rejected_kept|].
      destruct (try_decl T s tx w) as [[[a|rd' ad' rp'] w']| |] eqn:Hd; cbn [res_bind] in H; [|..|discriminate H|discriminate H].
      * injection H as <-. constructor. by eapply try_decl_edit.
      * destruct (_ || _); injection H as <-; apply rejected_kept.
Qed.

Lemma const_shape s text r : good (s_entries s) (next_ordinal s) → add_const T s text = Ret r → outcome_of s r.
Proof.
  intros Hg H. unfold add_const in H. destruct (parse_as_file text) as [[file|]| |]; cbn [res_bind] in H; [| |discriminate H..].
  2: { injection H as <-. apply kept_self. right. by left. }
  destruct (negb _); [injection H as <-; apply kept_self; right; by left|].
  destruct (region_conflict Region.Main s (declared_names file)) as [o|] eqn:Hconf; [injection H as <-; apply kept_self; right; right; by eapply conflict_outcome|].
  pose proof (no_conflict _ _ _ Hconf) as Hfree. set (ns := declared_names file) in *. set (hit := hits Region.Const [] ns (s_entries s)) in *.
  set (o := default (next_ordinal s) (lowest_of hit)) in *.
  destruct (check_candidate T _ _) as [[r1|checked] w1]; [injection H as <-; apply rejected_kept|].
  destruct (had_errors checked); [injection H as <-; apply rejected_kept|].
  destruct (checked_hir T _ w1) as [[r2|hir] w2]; [injection H as <-; apply rejected_kept|].
  destruct (u32_add _ _) as [next| |] eqn:Hn; cbn [res_bind] in H; [|discriminate H..]. apply u32_add_ret in Hn as ->.
  injection H as <-. constructor. cbn [a_entries a_next_ordinal]. set (new := MkEntry o _ _ _ _ _ _).
  pose proof (g_next _ _ Hg) as H1.
  assert (∀ x n, x ∈ s_entries s → region x = Region.Main → n ∈ names new → n ∈ names x → False) as Hm by (intros x n Hx Rx N1 N2; by eapply Hfree).
  destruct (lowest_of hit) as [low|] eqn:Hlow.
  - pose proof (lowest_spec _ _ Hlow) as [Hin _]. assert (1 ≤ low < next_ordinal s) as Hb by (by eapply hit_bounds).
    assert (is_nil hit = false) as -> by (by destruct hit). rewrite Z.add_0_r.
    destruct (position (λ e, ordinal e =? o) (s_entries s)) as [i|] eqn:Hp.
    + apply position_spec in Hp as (pre & x & post & Hes & <- & Hx & _). apply Z.eqb_eq in Hx.
      apply (edit_replace s (s_entries s) _ _ new); [apply edit_id; exact Hg|exact Hb|done|discriminate| |discriminate| |].
      * intros _ m n Hme Rm. by apply Hm.
      * by intros y [->|Hy]%elem_set; [left|right].
      * intros HS. eapply sorted_ordinals; [symmetry; eapply set_ordinals; [rewrite Hes; apply lookup_middle'|exact Hx]|exact HS].
    + exfalso. apply hits_spec in Hin as (e & He & Ho & _). pose proof (position_none _ _ Hp e He) as Hf. cbv beta in Hf.
      apply Z.eqb_neq in Hf. by apply Hf.
  - assert (is_nil hit = true) as -> by (by destruct hit).
    destruct (position (λ e, ordinal e =? o) (s_entries s)) as [i|] eqn:Hp.
    + exfalso. apply position_spec in Hp as (pre & x & post & Hes & _ & Hx & _). apply Z.eqb_eq in Hx.
      assert (x ∈ s_entries s) as Hin by (rewrite Hes, elem_of_app, elem_of_cons; tauto). pose proof (g_bounds _ _ Hg x Hin).
      change o with (next_ordinal s) in Hx. lia.
    + apply edit_append; [apply edit_id; exact Hg|exact H1|reflexivity|done|discriminate| |discriminate].
      intros _ m n Hme Rm. by apply Hm.
Qed.

(** ** Undo steps remember earlier programs *)
Inductive hist (next : Z) : list Entry → list UndoStep → Prop :=
  | hist_nil es : (∀ e, e ∉ es) → hist next es []
  | hist_cons es B t steps : good B next → hist next B steps →
      (∀ e, e ∈ es → e ∈ added t ∨ e ∈ B) → (∀ p, p ∈ removed t → p.2 ∈ B) → hist next es (t :: steps).

Lemma hist_subset next es es' steps : hist next es steps → (∀ e, e ∈ es' → e ∈ es) → hist next es' steps.
Proof. intros H Hs. destruct H as [es He|es B t steps HB HS Hel Hr]; [constructor|econstructor]; eauto. intros e Hx. by apply (He e), Hs. Qed.
Lemma hist_mono next next' es steps : hist next es steps → next ≤ next' → hist next' es steps.
Proof. intros H Hn. induction H as [|es B t steps HB HS IH Hel Hr]; [by constructor|]. econstructor; eauto. by eapply good_subset. Qed.
Lemma hist_commit next next' B A steps : good B next → hist next B steps → next ≤ next' →
  hist next' A (if is_nil (added (between B A)) then steps else between B A :: steps).
Proof.
  intros HB HS Hn. destruct (is_nil (added (between B A))) eqn:He.
  - eapply hist_mono; [|done]. eapply hist_subset; [done|]. intros e Ha. destruct (decide (e ∈ B)) as [|Hb]; [done|].
    assert (e ∈ added (between B A)) as Hin by (by apply added_spec). destruct (added (between B A)); [|done]. by apply not_elem_of_nil in Hin.
  - econstructor; [eapply good_subset; [exact HB|done|done]|by eapply hist_mono| |].
    + intros e Ha. destruct (decide (e ∈ B)); [by right|left]. by apply added_spec.
    + intros p [Hp _]%removed_spec. by apply list_elem_of_lookup_2 in Hp.
Qed.
Lemma hist_discard next es t steps : hist next es (t :: steps) → is_active t es = false → hist next es steps.
Proof.
  intros H Ha. inversion_clear H as [|? B ? ? HB HS Hel Hr]. eapply hist_subset; [done|]. intros e He.
  destruct (Hel e He) as [Hadd|]; [|done]. assert (is_active t es = true); [|congruence]. apply is_active_spec. by exists e.
Qed.
Lemma hist_reverse next es t steps : hist next es (t :: steps) →
  hist next (reverse_step t es) steps ∧ good (reverse_step t es) next ∧ hist next (reverse_step t es) (t :: steps).
Proof.
  intros H. inversion_clear H as [|? B ? ? HB HS Hel Hr].
  assert (∀ e, e ∈ reverse_step t es → e ∈ B) as Hsub.
  { intros e [(p & Hp & ->)|[He Ha]]%elem_reverse_step; [by apply Hr|]. by destruct (Hel e He). }
  split_and!; [by eapply hist_subset|by eapply good_subset|]. econstructor; [done..| |done]. intros e He. right. by apply Hsub.
Qed.

(** ** The invariant *)
Definition inv s : Prop := good (s_entries s) (next_ordinal s) ∧ hist (next_ordinal s) (s_entries s) (undo_steps s).

(** Running reports; the program, its counters and the undo steps stay. *)
Lemma run_same s ordinals replaced echo : let s' := (run_and_report T s ordinals replaced echo).2 in
  s_entries s' = s_entries s ∧ next_ordinal s' = next_ordinal s ∧ undo_steps s' = undo_steps s.
Proof. unfold run_and_report. destruct (run_exe T (world s)) as [[r|run] w]; [done|]. by destruct (absorb _ _ _ _). Qed.

Lemma commit_effect s a : let s' := (commit T s a).2 in
  (∃ w, s' = set_world w s ∧ is_compile_failed (commit T s a).1 = true) ∨
  (s_entries s' = a_entries a ∧ next_ordinal s' = a_next_ordinal a ∧
   undo_steps s' = if is_nil (added (between (s_entries s) (a_entries a))) then undo_steps s else between (s_entries s) (a_entries a) :: undo_steps s).
Proof.
  unfold commit. destruct (build_exe T _ _) as [[r|[]] w]; [left; by exists w|right]. cbv zeta.
  match goal with |- context [run_and_report T ?x ?y ?z ?t] => pose proof (run_same x y z t) as H; destruct (run_and_report T x y z t) as [o s'] end.
  destruct H as (H1 & H2 & H3). cbn [snd] in *. rewrite H1, H2, H3. by destruct (is_nil _).
Qed.
Lemma rebuild_effect s es cp : let s' := (rebuild_after_removal T s es cp).2 in
  (∃ w, s' = set_world w s ∧ is_compile_failed (rebuild_after_removal T s es cp).1 = true) ∨
  (s_entries s' = es ∧ next_ordinal s' = next_ordinal s ∧ undo_steps s' = undo_steps s).
Proof.
  unfold rebuild_after_removal. destruct (build_exe T _ _) as [[r|[]] w]; [left; by exists w|].
  destruct (checked_hir T _ w) as [[r|hir] w']; [left; by exists w'|right]. cbv zeta.
  match goal with |- context [run_and_report T ?x ?y ?z ?t] => exact (run_same x y z t) end.
Qed.

Lemma commit_inv s a : inv s → edit s (a_entries a) (a_next_ordinal a) → inv (commit T s a).2.
Proof.
  intros [Hg Hh] (Hg' & Hn & _). destruct (commit_effect s a) as [(w & -> & _)|(E1 & E2 & E3)]; [by split|].
  unfold inv. rewrite E1, E2, E3. split; [done|]. by apply (hist_commit (next_ordinal s)).
Qed.
Lemma outcome_inv s r : inv s → outcome_of s r → inv r.2.
Proof. intros Hi [o w _|a w He]; [by destruct Hi|]. by apply commit_inv. Qed.

Lemma rebuild_inv s es cp : inv s → (∀ e, e ∈ es → e ∈ s_entries s) → inv (rebuild_after_removal T s es cp).2.
Proof.
  intros [Hg Hh] Hs. destruct (rebuild_effect s es cp) as [(w & -> & _)|(E1 & E2 & E3)]; [by split|].
  unfold inv. rewrite E1, E2, E3. split; [by eapply good_subset|by eapply hist_subset].
Qed.

Lemma undo_loop_inv s steps : good (s_entries s) (next_ordinal s) → hist (next_ordinal s) (s_entries s) steps → inv (undo_loop T s steps).2.
Proof.
  intros Hg. induction steps as [|t steps IH]; intros Hh; cbn [undo_loop]; [by split|].
  destruct (is_active t (s_entries s)) eqn:Ha; cbn [negb]; [|apply IH; by eapply hist_discard].
  destruct (hist_reverse _ _ _ _ Hh) as (Hr1 & Hr2 & Hr3).
  destruct (rebuild_effect (set_undo steps s) (reverse_step t (s_entries s)) false) as [(w & E & F)|(E1 & E2 & E3)];
    destruct (rebuild_after_removal T (set_undo steps s) (reverse_step t (s_entries s)) false) as [o s']; cbn [fst snd] in *.
  - subst s'. rewrite F. by split.
  - destruct (is_compile_failed o); unfold inv; cbn [set_undo s_entries next_ordinal undo_steps]; rewrite E1, E2, ?E3; by split.
Qed.

Lemma inv_pending s p : inv s → inv (set_pending p s).
Proof. done. Qed.
Lemma perform_inv s ev f s' : inv s → perform s ev = Ret (f, s') → inv s'.
Proof.
  intros Hi H. assert (∀ s0 tx r, inv s0 → submit T s0 tx = Ret r → inv r.2) as Hsub.
  { intros s0 tx r Hi0 Hr. eapply outcome_inv; [exact Hi0|]. eapply submit_shape; [apply Hi0|exact Hr]. }
  destruct ev; unfold perform, ready in H.
  - unfold feed in H. destruct (is_nil (pending s) && _); [by injection H as _ <-|]. destruct (negb _ && _); [by injection H as _ <-|].
    destruct (needs_more _) as [[]| |]; cbn [res_bind] in H; [by injection H as _ <-| |discriminate H..].
    destruct (submit T _ _) as [[o s1]| |] eqn:Hr; cbn [res_bind] in H; [|discriminate H..]. injection H as _ <-. by apply (Hsub _ _ _ (inv_pending s [] Hi) Hr).
  - destruct (submit T s text) as [[o s1]| |] eqn:Hr; cbn [res_bind] in H; [|discriminate H..]. injection H as _ <-. by apply (Hsub _ _ _ Hi Hr).
  - destruct (add_const T s text) as [[o s1]| |] eqn:Hr; cbn [res_bind] in H; [|discriminate H..]. injection H as _ <-.
    eapply (outcome_inv s (o, s1)); [done|]. eapply const_shape; [apply Hi|exact Hr].
  - cbn [res_bind] in H. pose proof (undo_loop_inv s (undo_steps s) (proj1 Hi) (proj2 Hi)) as Hu. unfold undo in H.
    destruct (undo_loop T s (undo_steps s)) as [o s1]. by injection H as _ <-.
  - cbn [res_bind] in H. unfold drop_entry in H. destruct (negb _); [by injection H as _ <-|].
    pose proof (rebuild_inv s (List.filter (λ e, negb (ordinal e =? o)) (s_entries s)) false Hi) as Hr.
    destruct (rebuild_after_removal T s _ false) as [o1 s1]. injection H as _ <-. apply Hr. by intros e [? _]%elem_filter_b.
  - cbn [res_bind] in H. unfold clear in H. pose proof (rebuild_inv s [] true Hi) as Hr.
    destruct (rebuild_after_removal T s [] true) as [o1 s1]. injection H as _ <-.
    assert (inv s1) as Hi1 by (apply Hr; by intros e ?%not_elem_of_nil). cbn [snd].
    destruct (s_entries s1) as [|e es] eqn:He; simpl; [|done]. destruct Hi1 as [Hg1 _]. split; cbn [set_undo s_entries next_ordinal undo_steps].
    + exact Hg1.
    + constructor. rewrite He. intros e. apply not_elem_of_nil.
Qed.
Lemma reachable_inv s : reachable s → inv s.
Proof.
  induction 1 as [cap hir w|s ev f s' _ IH H]; [|by eapply perform_inv]. split; cbn.
  - split; [done|..]; by intros ? ?%not_elem_of_nil || (intros ? ? ?%not_elem_of_nil) || (intros ? ? ? ?%not_elem_of_nil).
  - constructor. intros e. apply not_elem_of_nil.
Qed.
End Machine.
