(* ===== verification/ReplClaims.v ===== *)
(** * What the session promises

    The theorems on reachable sessions, and a small toolchain — the modelled front
    end with the rule that a name is bound once — to run them on. *)
From Stdlib Require Import ZArith Lia String Sorted.
From S2P Require Import Prelude Utf8 Span Diag Text Token Lexer Ast Parser Depth Fmt ReplEntry Repl ReplUndo ReplSpec ReplSession.
Local Open Scope Z_scope.

(** ** A toolchain to run the definitions with *)
Definition toy_file (source : bytes) : option File :=
  match (let* '(toks, diags) := tokenize 0 source diags_new in parse_file toks diags) with
  | Ret (file, diags) => if has_errors diags then None else Some file
  | _ => None
  end.
Definition toy_locals (file : File) : list bytes :=
  match main_of file with
  | Some f => match fn_body f with FB_Block (MkBlock stmts _ _) => concat (map statement_names stmts) | FB_Expr _ => [] end
  | None => []
  end.
Definition toy_error (source : bytes) : option bytes :=
  match toy_file source with
  | None => Some (str "error: syntax")
  | Some file => if bool_decide (NoDup (toy_locals file)) then None else Some (str "error: `x` is already bound in this scope chain")
  end.
Definition toy_program (source : bytes) : Program :=
  let locals := match toy_file source with Some file => toy_locals file | None => [] end in
  {| p_fns := [{| hf_name := str "main"; hf_locals := locals; hf_body := [] |}]; p_structs := []; p_enums := []; p_resources := []; p_externs := [] |}.
Definition toy (runs : bool) : Toolchain unit :=
  {| check_candidate source w :=
       (inr {| had_errors := bool_decide (toy_error source ≠ None); c_rendered := default [] (toy_error source) |}, w);
     check_hir source w :=
       (inr {| h_hir := toy_program source; h_had_errors := bool_decide (toy_error source ≠ None); h_rendered := default [] (toy_error source) |}, w);
     build_exe source w := (match toy_error source with Some e => inl e | None => inr () end, w);
     run_exe w := (if runs then inr {| r_out := []; r_err := []; r_status := Some 0 |} else inl (str "cannot run the session program"), w) |}.
Definition toy_new : Session (W := unit) := session_new 100 (toy_program (render_entries [])) ().
(** Events in a row. *)
Fixpoint play {W} (T : Toolchain W) (evs : list Event) (s : Session (W := W)) : res (Session (W := W)) :=
  match evs with [] => Ret s | ev :: evs => let* '(_, s) := perform T s ev in play T evs s end.
Lemma play_reachable {W} (T : Toolchain W) evs s s' : reachable T s → play T evs s = Ret s' → reachable T s'.
Proof.
  revert s. induction evs as [|ev evs IH]; intros s Hr H; simpl in H; [by injection H as <-|].
  destruct (perform T s ev) as [[f s1]| |] eqn:He; [|discriminate H..]. eapply IH; [|exact H]. by eapply reach_step.
Qed.
Definition listed {W} (r : res (Session (W := W))) : res (list (Z * bytes)) := let* s := r in Ret (map (λ e, (ordinal e, emitted e)) (s_entries s)).
Definition session_of {W} (r : res (Session (W := W))) (d : Session (W := W)) : Session (W := W) := match r with Ret s => s | _ => d end.

Definition toy_events : list Event := [EvSubmit (str "a := 1"); EvSubmit (str "b := 2"); EvConst (str "K := 7"); EvSubmit (str "a := 3")].
Definition toy_session : Session (W := unit) := Eval vm_compute in session_of (play (toy true) toy_events toy_new) toy_new.
Lemma toy_reachable : reachable (toy true) toy_session.
Proof. apply (play_reachable (toy true) toy_events toy_new); [constructor|]. vm_compute. reflexivity. Qed.
Example toy_listed : listed (Ret toy_session) = Ret [(1, str "a := 3"); (2, str "b := 2"); (3, str "K := 7")].
Proof. vm_compute. reflexivity. Qed.

Section Claims.
Context {W : Type} (T : Toolchain W).
Abbreviation Session := (Session (W := W)).
Implicit Types (s : Session).

(** ** The program *)
Lemma outcome_next s r : outcome_of T s r → next_ordinal s ≤ next_ordinal r.2.
Proof.
  intros [o w _|a w (_ & Hn & _)]; [done|]. destruct (commit_effect T (set_world w s) a) as [(w' & -> & _)|(_ & -> & _)]; [done|exact Hn].
Qed.
Lemma rebuild_next s es cp : next_ordinal (rebuild_after_removal T s es cp).2 = next_ordinal s.
Proof. by destruct (rebuild_effect T s es cp) as [(w & -> & _)|(_ & -> & _)]. Qed.
Lemma undo_loop_next s steps : next_ordinal (undo_loop T s steps).2 = next_ordinal s.
Proof.
  induction steps as [|t steps IH]; cbn [undo_loop]; [done|]. destruct (negb _); [done|].
  pose proof (rebuild_next (set_undo steps s) (reverse_step t (s_entries s)) false) as H.
  destruct (rebuild_after_removal T _ _ _) as [o s1]. cbn [snd] in *. by destruct (is_compile_failed o).
Qed.
Lemma perform_next s ev f s' : good (s_entries s) (next_ordinal s) → perform T s ev = Ret (f, s') → next_ordinal s ≤ next_ordinal s'.
Proof.
  intros Hg H. assert (∀ s0 tx r, good (s_entries s0) (next_ordinal s0) → submit T s0 tx = Ret r → next_ordinal s0 ≤ next_ordinal r.2) as Hsub.
  { intros s0 tx r Hg0 Hr. eapply outcome_next, submit_shape; [exact Hg0|exact Hr]. }
  destruct ev; unfold perform, ready in H.
  - unfold feed in H. destruct (is_nil (pending s) && _); [by injection H as _ <-|]. destruct (negb _ && _); [by injection H as _ <-|].
    destruct (needs_more _) as [[]| |]; cbn [res_bind] in H; [by injection H as _ <-| |discriminate H..].
    destruct (submit T _ _) as [[o s1]| |] eqn:Hr; cbn [res_bind] in H; [|discriminate H..]. injection H as _ <-. by apply (Hsub (set_pending [] s) _ _ Hg Hr).
  - destruct (submit T s text) as [[o s1]| |] eqn:Hr; cbn [res_bind] in H; [|discriminate H..]. injection H as _ <-. by apply (Hsub _ _ _ Hg Hr).
  - destruct (add_const T s text) as [[o s1]| |] eqn:Hr; cbn [res_bind] in H; [|discriminate H..]. injection H as _ <-.
    apply (outcome_next s (o, s1)). eapply const_shape; [exact Hg|exact Hr].
  - cbn [res_bind] in H. pose proof (undo_loop_next s (undo_steps s)) as Hu. unfold undo in H.
    destruct (undo_loop T s (undo_steps s)) as [o s1]. injection H as _ <-. simpl in Hu. lia.
  - cbn [res_bind] in H. unfold drop_entry in H. destruct (negb _); [by injection H as _ <-|].
    pose proof (rebuild_next s (List.filter (λ e, negb (ordinal e =? o)) (s_entries s)) false) as Hr.
    destruct (rebuild_after_removal T s _ false) as [o1 s1]. injection H as _ <-. simpl in Hr. lia.
  - cbn [res_bind] in H. unfold clear in H. pose proof (rebuild_next s [] true) as Hr.
    destruct (rebuild_after_removal T s [] true) as [o1 s1]. injection H as _ <-. simpl in *. destruct (is_nil _); simpl; lia.
Qed.

(** C18. Whatever the compiler and the runner answer, a session's program stays well formed:
    every ordinal is below the next one, which never falls; the text spliced into the
    program is the wrapper of the entry's kind around what was typed, in a region of that
    kind; no import is listed twice; and no constant shares a name with a binding of
    [main]. *)
Theorem session_program_good s : reachable T s →
  good (s_entries s) (next_ordinal s) ∧ ∀ ev f s', perform T s ev = Ret (f, s') → next_ordinal s ≤ next_ordinal s'.
Proof. intros H%reachable_inv. split; [apply H|]. intros ev f s'. apply perform_next, H. Qed.

(** ** Rejection *)
(** The built program can be started. *)
Definition toolchain_runs : Prop := ∀ w, ∃ run, (run_exe T w).1 = inr run.
Definition rejected (o : Outcome) : bool :=
  match o with NoOp | CompileFailed _ _ | RegionConflict _ _ => true | _ => false end.
Lemma run_accepts s ordinals replaced echo : toolchain_runs → rejected (run_and_report T s ordinals replaced echo).1 = false.
Proof.
  intros Hrun. destruct (Hrun (world s)) as [run Hr]. unfold run_and_report. destruct (run_exe T (world s)) as [[r|run'] w]; [done|].
  destruct (absorb _ _ _ _). simpl. by destruct (success _).
Qed.
Lemma outcome_rejected s r : toolchain_runs → outcome_of T s r → rejected r.1 = true → ∃ w, r.2 = set_world w s.
Proof.
  intros Hrun [o w _|a w _] Hr; [by exists w|]. unfold commit in *. destruct (build_exe T _ _) as [[rd|[]] w']; [by exists w'|]. exfalso. cbv zeta in Hr.
  match type of Hr with context [run_and_report T ?x ?y ?z ?t] =>
    pose proof (run_accepts x y z t Hrun) as Ha; destruct (run_and_report T x y z t) as [o s'] end.
  cbn [fst] in *. by destruct o.
Qed.
Lemma rebuild_rejected s es cp : toolchain_runs →
  rejected (rebuild_after_removal T s es cp).1 = true → ∃ w, (rebuild_after_removal T s es cp).2 = set_world w s.
Proof.
  intros Hrun H. unfold rebuild_after_removal in *. destruct (build_exe T _ _) as [[r|[]] w]; [by exists w|].
  destruct (checked_hir T _ w) as [[r|hir] w']; [by exists w'|]. exfalso. cbv zeta in H.
  match type of H with context [run_and_report T ?x ?y ?z ?t] =>
    pose proof (run_accepts x y z t Hrun) as Ha; destruct (run_and_report T x y z t) as [o s'] end.
  cbn [fst] in *. by destruct o.
Qed.
Lemma undo_loop_rejected s steps : toolchain_runs →
  rejected (undo_loop T s steps).1 = true → ∃ w u, (undo_loop T s steps).2 = set_undo u (set_world w s).
Proof.
  intros Hrun. induction steps as [|t steps IH]; cbn [undo_loop]; [done|]. destruct (negb _); [done|].
  pose proof (rebuild_rejected (set_undo steps s) (reverse_step t (s_entries s)) false Hrun) as H.
  destruct (rebuild_after_removal T _ _ _) as [o s1]. cbn [fst snd] in *. intros Ho. destruct (H Ho) as [w ->].
  destruct (is_compile_failed o); [by exists w, (t :: steps)|by exists w, steps].
Qed.

(** C21. Compilation is the transaction boundary: when the built program can be started, a
    submission or constant that is rejected — for its shape, a name conflict, or any failure
    to check, build or emit — leaves the session as it was but for the files of the
    toolchain; a removal that fails to rebuild keeps the program, the counters and the
    output baseline too. *)
Theorem rejection_keeps_session s ev o s' :
  toolchain_runs → reachable T s → perform T s ev = Ret (Ready o, s') → rejected o = true →
  match ev with
  | EvSubmit _ | EvConst _ | EvDrop _ => ∃ w, s' = set_world w s
  | EvUndo | EvClear => ∃ w u, s' = set_undo u (set_world w s)
  | EvLine _ => ∃ w, s' = set_pending [] (set_world w s)
  end.
Proof.
  intros Hrun [Hg _]%reachable_inv H Ho. destruct ev; unfold perform, ready in H.
  - unfold feed in H. destruct (is_nil (pending s) && is_nil (trim line)) eqn:E1.
    { injection H as _ <-. exists (world s). destruct s as [? ? ? ? ? ? [|]]; [done|discriminate E1]. }
    destruct (negb _ && _); [by injection H as <- <-|].
    destruct (needs_more _) as [[]| |]; cbn [res_bind] in H; [discriminate H| |discriminate H..].
    destruct (submit T _ _) as [[o1 s1]| |] eqn:Hr; cbn [res_bind] in H; [|discriminate H..]. injection H as -> ->.
    apply submit_shape in Hr; [|exact Hg]. apply outcome_rejected in Hr as [w Hw]; [|done..]. exists w. exact Hw.
  - destruct (submit T s text) as [[o1 s1]| |] eqn:Hr; cbn [res_bind] in H; [|discriminate H..]. injection H as -> ->.
    apply submit_shape in Hr; [|exact Hg]. by apply outcome_rejected in Hr.
  - destruct (add_const T s text) as [[o1 s1]| |] eqn:Hr; cbn [res_bind] in H; [|discriminate H..]. injection H as -> ->.
    apply const_shape in Hr; [|exact Hg]. by apply outcome_rejected in Hr.
  - cbn [res_bind] in H. pose proof (undo_loop_rejected s (undo_steps s) Hrun) as Hu. unfold undo in H.
    destruct (undo_loop T s (undo_steps s)) as [o1 s1]. injection H as -> ->. by apply Hu.
  - cbn [res_bind] in H. unfold drop_entry in H. destruct (negb _); [injection H as <- _; discriminate Ho|].
    pose proof (rebuild_rejected s (List.filter (λ e, negb (ordinal e =? o0)) (s_entries s)) false Hrun) as Hr.
    destruct (rebuild_after_removal T s _ false) as [o1 s1]. injection H as -> ->. by apply Hr.
  - cbn [res_bind] in H. unfold clear in H. pose proof (rebuild_rejected s [] true Hrun) as Hr.
    destruct (rebuild_after_removal T s [] true) as [o1 s1]. injection H as -> <-. destruct (Hr Ho) as [w Hw]. cbn [snd] in Hw. subst s1.
    exists w. destruct (is_nil _); [by exists []|]. exists (undo_steps s). by destruct s.
Qed.

(** ** Undoing *)
Definition nothing_to_undo : Outcome := CommandMessage (str "align-repl: nothing to undo").
(** The compiler does not take a program: it fails to build, or to check once built. *)
Definition rejects (program : list Entry) (w : W) : bool :=
  match build_exe T (render_entries program) w with
  | (inl _, _) => true
  | (inr _, w) => match checked_hir T (render_entries program) w with (inl _, _) => true | (inr _, _) => false end
  end.
(** The programs that undoing passes through, the nearest first: what each step that still
    has an entry to take back restores. *)
Fixpoint undone (steps : list UndoStep) (program : list Entry) : list (list Entry) :=
  match steps with
  | [] => []
  | step :: steps =>
      if is_active step program then let before := reverse_step step program in before :: undone steps before
      else undone steps program
  end.
Lemma length_undone steps program : (length (undone steps program) ≤ length steps)%nat.
Proof. revert program. induction steps as [|t steps IH]; intros program; simpl; [done|]. destruct (is_active t program); simpl; [pose proof (IH (reverse_step t program))|pose proof (IH program)]; lia. Qed.

(** A rebuild installs the program, unless the compiler does not take it. *)
Lemma rebuild_verdict s es cp : toolchain_runs → let r := rebuild_after_removal T s es cp in
  is_compile_failed r.1 = rejects es (world s) ∧ s_entries r.2 = (if rejects es (world s) then s_entries s else es) ∧ undo_steps r.2 = undo_steps s.
Proof.
  intros Hr. unfold rebuild_after_removal, rejects. destruct (build_exe T _ _) as [[e|[]] w]; [done|].
  destruct (checked_hir T _ w) as [[e|hir] w']; [done|]. cbv zeta.
  match goal with |- context [run_and_report T ?x ?y ?z ?t] =>
    pose proof (run_accepts x y z t Hr) as Ha; pose proof (run_same T x y z t) as Hs; destruct (run_and_report T x y z t) as [o s'] end.
  cbn [fst snd] in *. split_and!; [by destruct o|apply Hs..].
Qed.

(** One undo: at the end of the chain the program is empty and nothing is left; before it the
    next program is restored, or kept for later when the compiler does not take it. *)
Lemma undo_loop_next_program s steps : toolchain_runs → hist (next_ordinal s) (s_entries s) steps →
  let r := undo_loop T s steps in
  match undone steps (s_entries s) with
  | [] => r.1 = nothing_to_undo ∧ s_entries s = []
  | p :: rest =>
      is_compile_failed r.1 = rejects p (world s) ∧
      (if rejects p (world s) then s_entries r.2 = s_entries s ∧ undone (undo_steps r.2) (s_entries s) = p :: rest
       else s_entries r.2 = p ∧ undone (undo_steps r.2) p = rest)
  end.
Proof.
  intros Hw. induction steps as [|t steps IH]; intros Hh; cbn [undo_loop undone].
  - split; [done|]. inversion_clear Hh as [? He|]. destruct (s_entries s) as [|e es]; [done|]. exfalso. apply (He e). by left.
  - destruct (is_active t (s_entries s)) eqn:Ha; cbn [negb]; [|by apply IH, (hist_discard _ _ _ _ Hh)].
    pose proof (rebuild_verdict (set_undo steps s) (reverse_step t (s_entries s)) false Hw) as (H1 & H2 & H3).
    destruct (rebuild_after_removal T _ _ _) as [o s1]. cbn [fst snd set_undo world s_entries undo_steps] in *. rewrite H1. split; [done|].
    destruct (rejects _ _); [|by rewrite H2, H3]. cbn [set_undo s_entries undo_steps undone]. by rewrite H2, Ha.
Qed.

Definition undo_times (n : nat) s : Session := Nat.iter n (λ s, (undo T s).2) s.
(** Nothing is left: the program is empty, and undoing says so. *)
Definition drained s : Prop := s_entries s = [] ∧ (undo T s).1 = nothing_to_undo.
(** The compiler does not take the next program: undoing reports that and keeps the session's
    program, and the same program is still the next one. *)
Definition stopped_by s (next : list Entry) : Prop :=
  rejects next (world s) = true ∧ is_compile_failed (undo T s).1 = true ∧ s_entries (undo T s).2 = s_entries s ∧
  head (undone (undo_steps (undo T s).2) (s_entries s)) = Some next.
Lemma undo_chain s chain : toolchain_runs → inv s → undone (undo_steps s) (s_entries s) = chain →
  ∃ n, (∀ k, (k ≤ n)%nat → (s_entries s :: chain) !! k = Some (s_entries (undo_times k s))) ∧
    match chain !! n with None => drained (undo_times n s) | Some next => stopped_by (undo_times n s) next end.
Proof.
  intros Hw. revert s. induction chain as [|p rest IH]; intros s Hi Hc; pose proof (undo_loop_next_program s (undo_steps s) Hw (proj2 Hi)) as Hstep; cbv zeta in Hstep;
    rewrite Hc in Hstep; change (undo_loop T s (undo_steps s)) with (undo T s) in Hstep.
  - exists 0%nat. split; [by intros [|k] Hk; [|lia]|]. by destruct Hstep.
  - destruct Hstep as [Hf Hstep]. destruct (rejects p (world s)) eqn:Hp; destruct Hstep as [He Hu].
    + exists 0%nat. split; [by intros [|k] Hk; [|lia]|]. change (stopped_by s p). split_and!; [done|done|done|]. by rewrite Hu.
    + destruct (IH (undo T s).2) as (n & H1 & H2); [apply (undo_loop_inv T s (undo_steps s) (proj1 Hi) (proj2 Hi))|by rewrite He|].
      rewrite He in H1. exists (S n). unfold undo_times in *. rewrite Nat.iter_succ_r. split; [|done].
      intros [|k] Hk; [done|]. rewrite Nat.iter_succ_r. apply H1. lia.
Qed.

(** C20. Undoing gets to the bottom: from every reachable session — whatever was replaced,
    dropped or cleared before — whose built programs can be started, [:undo] passes through
    the programs its steps restore, one at a time and in order, until there is none left:
    the program is then empty and it answers that there is nothing to undo.  Only the
    compiler can stop it: when it does not take the next of these programs (after a drop it
    may not, see [undo_after_drop_misplaces]) the session stays where it is, with that
    program still next.  So if the compiler takes each of them, undoing as often as there
    are programs drains the session. *)
Theorem undo_drains s : reachable T s → toolchain_runs →
  let chain := undone (undo_steps s) (s_entries s) in
  (length chain ≤ length (undo_steps s))%nat ∧
  (∃ n, (∀ k, (k ≤ n)%nat → (s_entries s :: chain) !! k = Some (s_entries (undo_times k s))) ∧
    match chain !! n with None => drained (undo_times n s) | Some next => stopped_by (undo_times n s) next end) ∧
  ((∀ p w, p ∈ chain → rejects p w = false) → drained (undo_times (length chain) s)).
Proof.
  intros Hi%(reachable_inv T) Hw chain. destruct (undo_chain s chain Hw Hi eq_refl) as (n & Hn & H).
  split_and!; [apply length_undone|by exists n|]. intros Htakes. destruct (chain !! n) as [p|] eqn:Hp.
  - destruct H as [Hrej _]. rewrite (Htakes p) in Hrej; [done|]. by eapply list_elem_of_lookup_2.
  - specialize (Hn n (le_n n)). apply lookup_lt_Some in Hn. apply lookup_ge_None in Hp. cbn [length] in Hn. by replace (length chain) with n by lia.
Qed.

(** ** The history *)
(** The programs before the current one, the latest first, that the undo steps stand for. *)
Inductive history : list Entry → list UndoStep → list (list Entry) → Prop :=
  | history_new : history [] [] []
  | history_commit A B steps older : sorted A → added (between B A) ≠ [] → history B steps older →
      history A (between B A :: steps) (B :: older).
Definition tracks s (older : list (list Entry)) : Prop := inv s ∧ sorted (s_entries s) ∧ history (s_entries s) (undo_steps s) older.

(** The abstract machine: a stack of programs, on its top the current one. *)
Definition stack_step (ev : Event) (o : Feed) (cur : list Entry) (older : list (list Entry)) (cur' : list Entry) (older' : list (list Entry)) : Prop :=
  match ev with
  | EvUndo =>
      match older with
      | [] => o = Ready nothing_to_undo ∧ cur = [] ∧ cur' = [] ∧ older' = []
      | B :: rest => if (match o with Ready o => is_compile_failed o | NeedMore => true end) then cur' = cur ∧ older' = older else cur' = B ∧ older' = rest
      end
  | EvClear => (cur' = cur ∧ older' = older) ∨ (cur' = [] ∧ older' = [])
  | _ => (cur' = cur ∧ older' = older) ∨ older' = cur :: older
  end.

Lemma history_sorted es steps older : history es steps older → sorted es.
Proof. destruct 1; [constructor|done]. Qed.
Lemma between_self B : added (between B B) = [].
Proof.
  destruct (added (between B B)) as [|e l] eqn:H; [done|]. exfalso. assert (e ∈ added (between B B)) as [H1 H2]%added_spec by (rewrite H; by left). done.
Qed.
Lemma outcome_tracks s older r : tracks s older → outcome_of T s r → inv r.2 →
  (s_entries r.2 = s_entries s ∨ added (between (s_entries s) (s_entries r.2)) ≠ []) →
  ∃ older', tracks r.2 older' ∧ ((s_entries r.2 = s_entries s ∧ older' = older) ∨ older' = s_entries s :: older).
Proof.
  intros (Hi & Hs & Hh) Ho Hi' Hv. destruct Ho as [o w _|a w (Hg & Hn & Hso)]; [exists older; cbn [snd]; split; [done|by left]|].
  destruct (commit_effect T (set_world w s) a) as [(w' & E & _)|(E1 & E2 & E3)].
  - rewrite E in *. exists older. split; [done|by left].
  - rewrite E1 in *. cbn [set_world s_entries undo_steps] in E3. destruct Hv as [Hv|Hv].
    + rewrite Hv, between_self in E3. exists older. split; [|left; done]. split_and!; [done|by rewrite E1, Hv|by rewrite E1, Hv, E3].
    + destruct (is_nil (added (between (s_entries s) (a_entries a)))) eqn:Hnil; [by destruct (added _)|].
      exists (s_entries s :: older). split; [|by right]. split_and!; [done|rewrite E1; by apply Hso|].
      rewrite E1, E3. constructor; [by apply Hso|done|done].
Qed.
Lemma compile_failed_rejected o : is_compile_failed o = true → rejected o = true.
Proof. by destruct o. Qed.
Lemma history_undo s older : toolchain_runs → tracks s older →
  ∃ older', tracks (undo T s).2 older' ∧ stack_step EvUndo (Ready (undo T s).1) (s_entries s) older (s_entries (undo T s).2) older'.
Proof.
  intros Hrun ((Hg & Hh) & Hs & Hist). pose proof (undo_loop_inv T s (undo_steps s) Hg Hh) as Hi'. unfold undo.
  remember (undo_steps s) as steps eqn:Est. remember (s_entries s) as cur eqn:Ecur. destruct Hist as [|A B steps older HA Hadd HB].
  - exists []. cbn [undo_loop fst snd set_undo s_entries stack_step]. rewrite <-Ecur. split; [|done].
    split_and!; [exact Hi'|by cbn; rewrite <-Ecur|cbn; rewrite <-Ecur; constructor].
  - pose proof (history_sorted _ _ _ HB) as HBs.
    assert (is_active (between B A) (s_entries s) = true) as Hact.
    { rewrite <-Ecur. apply is_active_spec. destruct (added (between B A)) as [|e l] eqn:Ha; [done|]. exists e. split; [by left|].
      assert (e ∈ added (between B A)) as [He _]%added_spec; [rewrite Ha; by left|done]. }
    cbn [undo_loop] in *. rewrite Hact in *. cbn [negb] in *. rewrite <-Ecur in *. rewrite reverse_between in * by done.
    pose proof (rebuild_rejected (set_undo steps s) B false Hrun) as Hrej. pose proof (rebuild_effect T (set_undo steps s) B false) as Heff.
    destruct (rebuild_after_removal T (set_undo steps s) B false) as [o s1]. cbn [fst snd] in *. destruct (is_compile_failed o) eqn:Ho.
    + destruct (Hrej (compile_failed_rejected o Ho)) as [w ->]. exists (B :: older). unfold stack_step. rewrite Ho.
      cbn [set_undo set_world s_entries undo_steps] in *. rewrite <-Ecur. split; [|done].
      split_and!; [exact Hi'|by cbn; rewrite <-Ecur|cbn; rewrite <-Ecur; by constructor].
    + destruct Heff as [(w & _ & F)|(E1 & E2 & E3)]; [done|]. exists older. unfold stack_step. rewrite Ho, E1. split; [|done].
      split_and!; [exact Hi'|by rewrite E1|by rewrite E1, E3].
Qed.
Lemma history_clear s older : tracks s older → inv (clear T s).2 →
  ∃ older', tracks (clear T s).2 older' ∧ stack_step EvClear (Ready (clear T s).1) (s_entries s) older (s_entries (clear T s).2) older'.
Proof.
  intros ((Hg & Hh) & Hs & Hist) Hi'. unfold clear in *. pose proof (rebuild_effect T s [] true) as Heff.
  destruct (rebuild_after_removal T s [] true) as [o s1]. cbn [fst snd] in *. unfold stack_step.
  destruct Heff as [(w & -> & _)|(E1 & _ & _)].
  - cbn [set_world s_entries] in *. destruct (s_entries s) as [|e es] eqn:He; cbn [is_nil] in *.
    + exists []. split; [|right; done]. split_and!; [exact Hi'|cbn; rewrite He; constructor|cbn; rewrite He; constructor].
    + exists older. split; [|left; by cbn]. split_and!; [exact Hi'|cbn; by rewrite He|cbn; by rewrite He].
  - rewrite E1 in *. cbn [is_nil] in *. exists []. cbn [set_undo s_entries] in *. rewrite E1. split; [|by right].
    split_and!; [exact Hi'|cbn; rewrite E1; constructor|cbn; rewrite E1; constructor].
Qed.

(** C19. Without a [:drop], and as long as the built programs can be started, the session's
    diffs implement a stack of programs: an accepted entry pushes the program before it,
    [:undo] pops exactly that program, entry for entry and in order — or keeps everything
    when it does not rebuild — and [:clear] empties the stack.  (An edit that only removes entries records nothing, so it is set aside; that a
    drop must be is shown by [undo_after_drop_misplaces].) *)
Theorem undo_is_a_stack :
  (∀ cap hir w, tracks (session_new cap hir w) []) ∧
  ∀ s older ev f s', toolchain_runs → tracks s older → perform T s ev = Ret (f, s') →
    (∀ o, ev ≠ EvDrop o) →
    (s_entries s' = s_entries s ∨ added (between (s_entries s) (s_entries s')) ≠ [] ∨ ev = EvUndo ∨ ev = EvClear) →
    ∃ older', tracks s' older' ∧ stack_step ev f (s_entries s) older (s_entries s') older'.
Proof.
  split.
  - intros cap hir w. split_and!; [apply (reachable_inv T); constructor|constructor|constructor].
  - intros s older ev f s' Hrun Ht H Hnd Hv. pose proof (perform_inv T s ev f s' (proj1 Ht) H) as Hi'.
    assert (∀ r, outcome_of T s r → inv r.2 → s_entries r.2 = s_entries s ∨ added (between (s_entries s) (s_entries r.2)) ≠ [] →
      ∃ older', tracks r.2 older' ∧ ((s_entries r.2 = s_entries s ∧ older' = older) ∨ older' = s_entries s :: older)) as Hout by (intros r; by apply outcome_tracks).
    destruct ev; unfold perform, ready in H; [| | |clear Hv|by destruct (Hnd o)|clear Hv].
    4: { cbn [res_bind] in H. destruct (history_undo s older Hrun Ht) as (older' & H1 & H2). destruct (undo T s) as [o1 s1]. injection H as <- <-. by exists older'. }
    4: { cbn [res_bind] in H. destruct (history_clear s older Ht) as (older' & H1 & H2); destruct (clear T s) as [o1 s1]; injection H as <- <-; [done|by exists older']. }
    all: assert (s_entries s' = s_entries s ∨ added (between (s_entries s) (s_entries s')) ≠ []) as Hv' by naive_solver.
    + unfold feed in H. destruct (is_nil (pending s) && _); [injection H as _ <-; exists older; split; [done|by left]|].
      destruct (negb _ && _); [injection H as _ <-; exists older; split; [done|by left]|].
      destruct (needs_more _) as [[]| |]; cbn [res_bind] in H; [injection H as _ <-; exists older; split; [done|by left]| |discriminate H..].
      destruct (submit T _ _) as [[o s1]| |] eqn:Hr; cbn [res_bind] in H; [|discriminate H..]. injection H as _ <-.
      apply submit_shape in Hr; [|apply Ht]. exact (outcome_tracks (set_pending [] s) older (o, s1) Ht Hr Hi' Hv').
    + destruct (submit T s text) as [[o s1]| |] eqn:Hr; cbn [res_bind] in H; [|discriminate H..]. injection H as _ <-.
      apply submit_shape in Hr; [|apply Ht]. exact (Hout (o, s1) Hr Hi' Hv').
    + destruct (add_const T s text) as [[o s1]| |] eqn:Hr; cbn [res_bind] in H; [|discriminate H..]. injection H as _ <-.
      apply const_shape in Hr; [|apply Ht]. exact (Hout (o, s1) Hr Hi' Hv').
Qed.
End Claims.

Lemma session_program_good_witness : good (s_entries toy_session) (next_ordinal toy_session).
Proof. exact (proj1 (session_program_good (toy true) toy_session toy_reachable)). Defined.

Lemma toy_runs : toolchain_runs (toy true).
Proof. intros w. by eexists. Qed.
Lemma rejection_keeps_session_witness :
  ∃ o s' w, perform (toy true) toy_session (EvSubmit (str "a := (")) = Ret (Ready o, s') ∧ s' = set_world w toy_session.
Proof.
  pose (r := perform (toy true) toy_session (EvSubmit (str "a := ("))).
  destruct (rejection_keeps_session (toy true) toy_session (EvSubmit (str "a := ("))
    (match r with Ret (Ready o, _) => o | _ => NoOp end) (session_of (let* '(_, s) := r in Ret s) toy_session) toy_runs toy_reachable) as [w Hw].
  - vm_compute. reflexivity.
  - vm_compute. reflexivity.
  - eexists _, _, w. split; [|exact Hw]. vm_compute. reflexivity.
Defined.

(** A replacement and a drop before undoing: the compiler that binds a name once takes every
    program on the way down. *)
Definition dropped_events : list Event := toy_events ++ [EvDrop 2].
Definition dropped_session : Session (W := unit) := Eval vm_compute in session_of (play (toy true) dropped_events toy_new) toy_new.
Example dropped_listed : listed (Ret dropped_session) = Ret [(1, str "a := 3"); (3, str "K := 7")].
Proof. vm_compute. reflexivity. Qed.
Definition toy_undone : list (list Entry) := Eval vm_compute in undone (undo_steps dropped_session) (s_entries dropped_session).
Example toy_undone_listed : map (map emitted) toy_undone = [[str "a := 1"; str "K := 7"]; [str "a := 1"]; []].
Proof. vm_compute. reflexivity. Qed.
Lemma undo_drains_witness : drained (toy true) (undo_times (toy true) 3 dropped_session).
Proof.
  destruct (undo_drains (toy true) dropped_session) as (_ & _ & H).
  - apply (play_reachable (toy true) dropped_events toy_new); [constructor|]. vm_compute. reflexivity.
  - exact toy_runs.
  - assert (undone (undo_steps dropped_session) (s_entries dropped_session) = toy_undone) as E by (vm_compute; reflexivity). rewrite E in H. apply H.
    intros p [] Hp. assert (Forall (λ p, rejects (toy true) p () = false) toy_undone) as Hall by (repeat constructor).
    by eapply Forall_forall in Hall.
Defined.

Lemma undo_is_a_stack_witness :
  ∃ older, tracks (session_of (play (toy true) [EvSubmit (str "a := 1")] toy_new) toy_new) older ∧ (older = [] ∨ older = [[]]).
Proof.
  pose (r := perform (toy true) toy_new (EvSubmit (str "a := 1"))).
  destruct (undo_is_a_stack (toy true)) as [Hnew Hstep].
  destruct (Hstep toy_new [] (EvSubmit (str "a := 1")) (match r with Ret (f, _) => f | _ => NeedMore end)
    (session_of (play (toy true) [EvSubmit (str "a := 1")] toy_new) toy_new)) as (older & Ht & Hs).
  - exact toy_runs.
  - apply Hnew.
  - vm_compute. reflexivity.
  - discriminate.
  - right. left. vm_compute. discriminate.
  - exists older. split; [exact Ht|]. destruct Hs as [[_ ->]| ->]; [by left|by right].
Defined.

(** ** Two things the session does not promise *)
Definition misplaced_events : list Event :=
  [EvSubmit (str "a := 1"); EvSubmit (str "b := 2"); EvSubmit (str "c := b"); EvSubmit (str "b := 3"); EvDrop 1].
(** An undo step records the index of what it removed, and a [:drop] shifts what follows:
    undoing a replacement after it puts the old entry behind the entry that used it. *)
Theorem undo_after_drop_misplaces :
  listed (play (toy true) misplaced_events toy_new) = Ret [(2, str "b := 3"); (3, str "c := b")] ∧
  listed (play (toy true) (misplaced_events ++ [EvUndo]) toy_new) = Ret [(3, str "c := b"); (2, str "b := 2")].
Proof. split; vm_compute; reflexivity. Qed.

(** When the built program cannot be started, the entry is reported as a failed compile
    but stays in the program. *)
Theorem failed_start_keeps_entry :
  ∃ s', perform (toy false) toy_new (EvSubmit (str "a := 1")) = Ret (Ready (CompileFailed (str "cannot run the session program") []), s') ∧
    map emitted (s_entries s') = [str "a := 1"].
Proof. eexists. split; vm_compute; reflexivity. Qed.

(** ** Output *)
(** What a run shows determines what it wrote: all of it, or what follows the output
    remembered from the last run.  Past the retention bound nothing is remembered and the
    poison stays until [:clear], which alone lifts it. *)
Lemma absorb_shows_everything b out err cap : let '(r, b') := absorb b out err cap in
  ((stdout_shown r = out ∧ stderr_shown r = err) ∨
   (poisoned b = false ∧ diverged r = false ∧ b_stdout b ++ stdout_shown r = out ∧ b_stderr b ++ stderr_shown r = err)) ∧
  (if ((length out <=? cap) && (length err <=? cap))%nat
   then last_full b' = Some (out, err) ∧ last_truncated b' = false ∧ truncated r = false ∧ poisoned b' = poisoned b ∧
        (poisoned b = false → b_stdout b' = out ∧ b_stderr b' = err)
   else last_full b' = None ∧ last_truncated b' = true ∧ truncated r = negb (poisoned b) ∧ poisoned b' = true ∧ b_stdout b' = [] ∧ b_stderr b' = []) ∧
  poisoned (baseline_reset b') = poisoned b' ∧ poisoned (baseline_clear b') = false.
Proof.
  unfold absorb. rewrite !Nat.leb_antisym. destruct (cap <? length out)%nat, (cap <? length err)%nat; cbn [orb negb andb]; try (split_and!; [by left|done..]).
  destruct (poisoned b) eqn:Hp; [split_and!; [by left|done..]|]. unfold starts_with.
  destruct (bool_decide _) eqn:H1; cbn [andb]; [|split_and!; [by left|done..]]. destruct (bool_decide (_ = b_stderr b)) eqn:H2; [|split_and!; [by left|done..]].
  apply bool_decide_eq_true in H1, H2. split_and!; try done. right. cbn [diverged stdout_shown stderr_shown].
  split_and!; [done|done|rewrite <-H1 at 1|rewrite <-H2 at 1]; by rewrite take_drop.
Qed.
