(* ===== verification/ReplTotal.v ===== *)
(** * Submitting always returns

    On any text the front end's own bound admits, with room left in the counters, a
    submission comes back with an outcome: the probes lex and parse, no index of the
    candidate lists is out of range and no counter overflows. *)
From Stdlib Require Import ZArith Lia String.
From S2P Require Import Prelude Utf8 Span Diag Token Lexer Ast Parser Depth FileSpec Fmt FmtSpec ReplEntry Repl ReplUndo ReplSpec ReplSession ReplClaims.
Local Open Scope Z_scope.

(** ** Text *)
Lemma trim_end_length s : (length (trim_end s) ≤ length s)%nat.
Proof.
  unfold trim_end. destruct (from_utf8 s) as [cs|] eqn:H; [|lia]. apply from_utf8_inv in H as [-> _].
  destruct (trim_end_prefix cs) as [l H]. rewrite H at 2. rewrite utf8_encode_all_app, length_app. lia.
Qed.
Lemma emit_for_length k s : (length (emit_for k s) ≤ length s + 10)%nat.
Proof. unfold emit_for. destruct k; rewrite ?length_app; simpl; lia. Qed.

Definition small (extra : Z) (text : bytes) : Prop := Z.of_nat (length text) + extra < 2 ^ 30.
Lemma probe_total text : small 0 text → ∃ toks d f d', probe_tokens text = Ret (toks, d) ∧ parse_file toks d = Ret (f, d').
Proof.
  unfold small. intros H. unfold probe_tokens. set (fid := (add_file _ _ _).1). clearbody fid.
  destruct (tokenize_toks_ok fid text diags_new) as (ts & d1 & Ht & _ & Hok); [change U32_MAX with (2 ^ 32 - 1); lia|].
  destruct (parse_file_spec _ _ _ Hok d1) as (f & d2 & Hp & _). by exists ts, d1, f, d2.
Qed.
Lemma shape_total text : small 0 text → ∃ r, shape_of text = Ret r.
Proof. intros (ts & d & f & d' & H & _)%probe_total. unfold shape_of. rewrite H. by eexists. Qed.
Lemma as_file_total text : small 0 text → ∃ r, parse_as_file text = Ret r.
Proof. intros (ts & d & f & d' & H1 & H2)%probe_total. unfold parse_as_file. rewrite H1. cbn [res_bind]. rewrite H2. by eexists. Qed.
Lemma tests_total text : small 0 text → ∃ r, contains_test_declaration text = Ret r.
Proof. intros [r H]%as_file_total. unfold contains_test_declaration. rewrite H. by eexists. Qed.
Lemma probe_main_total text : small 60 text → ∃ f d, parse_probe_main text = Ret (f, d).
Proof.
  intros H. assert (small 0 (probe_main text)) as (ts & d & f & d' & H1 & H2)%probe_total.
  { unfold small, probe_main in *. rewrite !length_app. simpl. lia. }
  unfold parse_probe_main. rewrite H1. cbn [res_bind]. rewrite H2. by eexists _, _.
Qed.
Lemma statement_total text : small 60 text → ∃ r, parses_as_statement text = Ret r.
Proof. intros (f & d & H)%probe_main_total. unfold parses_as_statement. rewrite H. by eexists. Qed.
Lemma bindings_total text : small 60 text → ∃ r, top_level_binding_names text = Ret r.
Proof. intros (f & d & H)%probe_main_total. unfold top_level_binding_names. rewrite H. by eexists. Qed.

#[local] Opaque render_entries top_level_binding_names parses_as_statement parse_as_file shape_of contains_test_declaration.

Section Total.
Context {W : Type} (T : Toolchain W).
Context (s : Session (W := W)) (Hgood : good (s_entries s) (next_ordinal s)).

Lemma incr_total n : n < U32_MAX → u32_incr n = Ret (n + 1).
Proof. intros H. unfold u32_incr. by rewrite (proj2 (Z.ltb_lt _ _)). Qed.

Local Ltac yields := eexists _, _; split; [reflexivity|exact I || discriminate].
Lemma resolve_total kind text w : next_ordinal s < U32_MAX → small 60 text →
  ∃ r w', resolve T s Region.Main kind text (emit_for kind text) w = Ret (r, w') ∧
    match r with ResOk _ ordinals _ _ _ _ _ => ordinals ≠ [] | _ => True end.
Proof.
  intros Hn [taken Ht]%bindings_total. unfold resolve. rewrite Ht. cbn [res_bind].
  destruct (check_candidate T _ w) as [[r1|first] w1]; [yields|]. destruct (check_hir T _ w1) as [[r2|fh] w2]; [yields|].
  destruct (negb (had_errors first)); [destruct (h_had_errors fh); [yields|]; rewrite incr_total by exact Hn; eexists _, _; split; [reflexivity|discriminate]|].
  destruct (negb _); [yields|]. set (hit := hits _ _ _ _). destruct (lowest_of hit) as [low|]; [|yields].
  destruct (position _ _) as [i|] eqn:Hp; [|yields].
  assert (0 < length (retain_lowest low hit (s_entries s)))%nat as Hlen.
  { apply position_spec in Hp as (pre & x & post & Hes & _ & Hx & _). unfold retain_lowest. rewrite Hes, List.filter_app, length_app. simpl. rewrite Hx. simpl. lia. }
  unfold set_entry. rewrite (proj2 (Nat.ltb_lt _ _)) by lia. cbn [res_bind].
  destruct (check_candidate T _ w2) as [[r3|second] w3]; [yields|]. destruct (had_errors second); [yields|].
  destruct (checked_hir T _ w3) as [[r4|hir] w4]; yields.
Qed.
Lemma candidates_total text kinds sr sd sp w : next_ordinal s < U32_MAX → small 80 text → ∃ r, try_candidates T s text kinds sr sd sp w = Ret r.
Proof.
  intros Hn Hs. revert sr sd sp w. induction kinds as [|k kinds IH]; intros sr sd sp w; cbn [try_candidates]; [by eexists|].
  assert (small 60 text) as Hs60 by (unfold small in *; lia).
  assert (small 60 (emit_for k text)) as He by (pose proof (emit_for_length k text); unfold small in *; lia).
  assert (∃ p, (if bool_decide (k = EntryKind.Printed) then parses_as_statement (emit_for k text) else Ret true) = Ret p) as [p ->]
    by (case_match; [by apply statement_total|by eexists]).
  cbn [res_bind]. destruct (negb p); [apply IH|]. destruct (_ && _); [by eexists|].
  destruct (resolve_total k text w Hn Hs60) as (r & w' & -> & Hr). cbn [res_bind]. destruct r as [es os rs src nx hir dg|rd rp].
  - destruct os as [|o os]; [done|]. cbn [lookup list_lookup unwrap res_bind]. destruct (echo_for T k src _ w'). by eexists.
  - destruct (bool_decide _); apply IH.
Qed.

Lemma imports_total group imports es ordinals next : next + Z.of_nat (length imports) ≤ U32_MAX →
  ∃ es' os' next', add_imports group imports es ordinals next = Ret (es', os', next') ∧ next' ≤ next + Z.of_nat (length imports).
Proof.
  revert es ordinals next. induction imports as [|p imports IH]; intros es ordinals next H; cbn [add_imports length] in *; [eexists _, _, _; split; [done|lia]|].
  destruct (existsb _ es); [destruct (IH es ordinals next ltac:(lia)) as (a & b & c & -> & Hc); eexists _, _, _; split; [done|lia]|].
  rewrite incr_total by lia. cbn [res_bind].
  match goal with |- context [add_imports group imports ?x ?y ?z] => destruct (IH x y z ltac:(lia)) as (a & b & c & -> & Hc) end.
  eexists _, _, _; split; [done|lia].
Qed.
Lemma items_total group source items p : p_next p + Z.of_nat (length items) ≤ U32_MAX → ∃ p', add_items s group source items p = Ret p'.
Proof.
  revert p. induction items as [|i items IH]; intros p H; cbn [add_items length] in *; [by eexists|]. unfold add_item.
  destruct (lowest ← _; _); cbn [res_bind].
  - apply IH. cbn [p_next]. lia.
  - rewrite incr_total by lia. cbn [res_bind]. apply IH. cbn [p_next]. lia.
Qed.
(** Room for the ordinals and the paste group a text may take. *)
Definition room (text : bytes) : Prop :=
  next_ordinal s < U32_MAX ∧ 0 ≤ next_paste s < U32_MAX ∧
  ∀ f, parse_as_file text = Ret (Some f) → next_ordinal s + Z.of_nat (length (f_imports f) + length (f_items f)) ≤ U32_MAX.
Lemma decl_total text w : small 0 text → room text → ∃ r, try_decl T s text w = Ret r.
Proof.
  intros [[file|] Hf]%as_file_total (_ & Hp & Hroom); unfold try_decl; rewrite Hf; cbn [res_bind]; [|by eexists]. specialize (Hroom file Hf).
  match goal with |- context [add_imports ?g ?i ?e ?o ?n] => destruct (imports_total g i e o n ltac:(lia)) as (a & b & c & -> & Hc) end.
  cbn [res_bind]. match goal with |- context [add_items s ?g ?x ?i ?p] => destruct (items_total g x i p) as [p' ->]; [cbn [p_next]; lia|] end.
  cbn [res_bind]. destruct (check_candidate T _ w) as [[r1|c1] w1]; [by eexists|]. destruct (had_errors c1); [by eexists|].
  destruct (checked_hir T _ w1) as [[r2|hir] w2]; [by eexists|]. unfold u32_add.
  assert (next_paste s + (match (if (1 <? length (f_imports file) + length (f_items file))%nat then Some (next_paste s) else None) with Some _ => 1 | None => 0 end) ≤ U32_MAX) by (case_match; lia).
  rewrite (proj2 (Z.leb_le _ _)) by done. by eexists.
Qed.
End Total.

(** C40. Submitting is total: on every text of less than 1 GiB, with room in the ordinal and
    paste counters, [submit] returns an outcome — whatever the toolchain answers, no
    index, unwrap or counter of the candidate machinery panics and no probe runs on. *)
Theorem submit_total {W} (T : Toolchain W) s text : reachable T s → small 100 text → room s (trim_end text) →
  ∃ o s', submit T s text = Ret (o, s').
Proof.
  intros [Hg _]%reachable_inv Hs Hroom. unfold submit. cbv zeta.
  assert (small 100 (trim_end text)) as Hs' by (pose proof (trim_end_length text); unfold small in *; lia). clear Hs.
  set (tx := trim_end text) in *. clearbody tx. assert (∀ k, k ≤ 100 → small k tx) as Hsm by (unfold small in *; lia).
  pose proof (Hsm 0 ltac:(lia)) as H0. pose proof (Hsm 60 ltac:(lia)) as H60. pose proof (Hsm 80 ltac:(lia)) as H80.
  destruct (shape_total tx H0) as [sh ->]. cbn [res_bind].
  assert (∃ o s', submit_decl T s tx = Ret (o, s')) as Hdecl.
  { unfold submit_decl. destruct (decl_total T s tx (world s) H0 Hroom) as [[t w] ->]. cbn [res_bind]. destruct (finish T s t w). by eexists _, _. }
  assert (∀ w, ∃ r, try_main T s tx w = Ret r) as Hmain by (intros w; apply candidates_total; [apply Hroom|done]).
  destruct sh; [by eexists _, _| |]; destruct (tests_total tx H0) as [[] ->]; cbn [res_bind]; [by eexists _, _|exact Hdecl|by eexists _, _|].
  destruct (bindings_total tx H60) as [taken ->]. cbn [res_bind]. destruct (region_conflict _ _ _); [by eexists _, _|].
  destruct (as_file_total tx H0) as [fl ->]. cbn [res_bind]. destruct (statement_total tx H60) as [st ->]. cbn [res_bind].
  assert (∃ o s', submit_main T s tx = Ret (o, s')) as Hsm'.
  { unfold submit_main. destruct (Hmain (world s)) as [[t w] ->]. cbn [res_bind]. destruct (finish T s t w). by eexists _, _. }
  destruct fl; [|exact Hsm']. destruct st; [|exact Hdecl]. unfold submit_either. destruct (Hmain (world s)) as [[[a|rd ad rp] w] ->]; cbn [res_bind].
  - destruct (commit T _ a). by eexists _, _.
  - destruct ad; [by eexists _, _|]. destruct (decl_total T s tx w H0 Hroom) as [[[a|rd' ad' rp'] w'] ->]; cbn [res_bind].
    + destruct (commit T _ a). by eexists _, _.
    + destruct (_ || _); by eexists _, _.
Qed.
Lemma submit_total_witness : ∃ o s', submit (toy true) toy_session (str "fn f() -> i64 = 1") = Ret (o, s').
Proof.
  apply submit_total; [exact toy_reachable|vm_compute; reflexivity|]. split_and!; [vm_compute; reflexivity|vm_compute; discriminate|vm_compute; reflexivity|].
  intros f Hf. assert ((let* o := parse_as_file (trim_end (str "fn f() -> i64 = 1")) in
    Ret (match o with Some f => length (f_imports f) + length (f_items f) | None => 0 end)%nat) = Ret 1%nat) as E by (vm_compute; reflexivity).
  rewrite Hf in E. cbn [res_bind] in E. injection E as ->. vm_compute. discriminate.
Defined.
