(* ===== verification/ArenaSpec.v ===== *)
(** * What an arena promises

    The invariant of an arena's life and what follows: allocations that are not yet
    released lie inside the chunks, apart from one another, aligned as asked; a zeroed
    one reads zero; no allocation changes a byte of another; and one panics exactly when
    no chunk has room for it and the heap grants none. *)
From Stdlib Require Import ZArith Lia.
From S2P Require Import Prelude TimeFormats TimeMemory Arena.
Local Open Scope Z_scope.

(** ** Arithmetic *)
Lemma usize_inv v w : usize v = Ret w → w = v ∧ 0 ≤ v ≤ USIZE_MAX.
Proof. unfold usize. case_if; [|done]. intros [= <-]. b2p. lia. Qed.
Lemma usize_ok v : 0 ≤ v ≤ USIZE_MAX → usize v = Ret v.
Proof. intros H. unfold usize. by rewrite !(proj2 (Z.leb_le _ _)) by lia. Qed.

Lemma next_power_inv n p : 0 < n → next_power_of_two n = Ret p → ∃ k, 0 ≤ k ∧ p = 2 ^ k ∧ n ≤ p.
Proof.
  intros Hn [-> _]%usize_inv. exists (Z.log2_up n). split; [apply Z.log2_up_nonneg|]. split; [done|].
  destruct (Z.eq_dec n 1) as [->|]; [done|]. apply Z.log2_up_spec. lia.
Qed.
Lemma round_down x k : 0 ≤ k → Z.land x (Z.lnot (2 ^ k - 1)) = x - x mod 2 ^ k.
Proof.
  intros Hk. replace (2 ^ k - 1) with (Z.ones k) by (rewrite Z.ones_equiv; lia).
  rewrite <-Z.ldiff_land, Z.ldiff_ones_r, Z.shiftl_mul_pow2, Z.shiftr_div_pow2 by done.
  pose proof (Z.div_mod x (2 ^ k) ltac:(lia)). lia.
Qed.
Lemma aligned_off_inv k base o o' : 0 ≤ k → aligned_off (2 ^ k) base o = Ret o' →
  o ≤ o' < o + 2 ^ k ∧ (base + o') mod 2 ^ k = 0 ∧ 0 ≤ o'.
Proof.
  intros Hk H. unfold aligned_off in H.
  apply res_bind_Ret_inv in H as (a & [-> Ha]%usize_inv & H). apply res_bind_Ret_inv in H as (b & [-> Hb]%usize_inv & H).
  apply usize_inv in H as [-> H]. rewrite round_down in * by done.
  assert (0 < 2 ^ k) as Hp by lia. set (x := base + o + 2 ^ k - 1) in *. pose proof (Z.mod_pos_bound x (2 ^ k) Hp).
  split_and!; [lia|lia| |lia]. replace (base + (x - x mod 2 ^ k - base)) with (2 ^ k * (x / 2 ^ k)) by (pose proof (Z.div_mod x (2 ^ k)); lia).
  rewrite Z.mul_comm. apply Z.mod_mul. lia.
Qed.
Lemma aligned_off_ok k base o : 0 ≤ k → 0 < base → 0 ≤ o → base + o + 2 ^ k ≤ USIZE_MAX → ∃ o', aligned_off (2 ^ k) base o = Ret o' ∧ o' < o + 2 ^ k.
Proof.
  intros Hk Hb Ho H. unfold aligned_off. assert (0 < 2 ^ k) as Hp by lia. rewrite !usize_ok by lia. cbn [res_bind]. rewrite usize_ok by lia. cbn [res_bind].
  rewrite round_down by done. pose proof (Z.mod_pos_bound (base + o + 2 ^ k - 1) (2 ^ k) Hp). rewrite usize_ok by lia. eexists. split; [done|]. lia.
Qed.

(** The offset is the least one that is aligned. *)
Lemma aligned_off_least k base o o' x : 0 ≤ k → aligned_off (2 ^ k) base o = Ret o' → o ≤ x → (base + x) mod 2 ^ k = 0 → o' ≤ x.
Proof.
  intros Hk (Ho & Hm & _)%aligned_off_inv Hx Hmx; [|done]. assert (0 < 2 ^ k) as Hp by lia.
  apply Z.mod_divide in Hm as [q Hq], Hmx as [q' Hq']; [|lia..]. destruct (Z.le_gt_cases o' x); [done|]. exfalso. assert (0 < (q - q') * 2 ^ k < 2 ^ k) by lia. assert (0 < q - q') by nia. nia.
Qed.

(** ** Memory *)
Lemma zero_out a n m x : x < a ∨ a + n ≤ x → zero a n m x = m x.
Proof. intros H. unfold zero. destruct (Z.leb_spec a x), (Z.ltb_spec x (a + n)); simpl; try done. lia. Qed.
Lemma zero_in a n m x : a ≤ x < a + n → zero a n m x = 0.
Proof. intros H. unfold zero. by rewrite (proj2 (Z.leb_le _ _)), (proj2 (Z.ltb_lt _ _)) by lia. Qed.
Lemma store_apart addr bs m x n : disjoint_spans addr (Z.of_nat (length bs)) x n → ∀ y, x ≤ y < x + n → store addr bs m y = m y.
Proof. intros [H|H] y Hy; apply store_out; lia. Qed.

(** ** The invariant *)
Definition taken (cs : list ArenaChunk) : Prop :=
  Forall (λ c, 0 < as_ptr c ∧ 0 ≤ chunk_len c ∧ as_ptr c + chunk_len c ≤ ISIZE_MAX) cs ∧
  ∀ i j c d, i ≠ j → cs !! i = Some c → cs !! j = Some d → apart (as_ptr c) (chunk_len c) d.
(** An allocation lies in a chunk, and before the cursor if that is the last one. *)
Definition held (a : Arena) (l : Z * Z) : Prop :=
  0 < l.2 ∧ ∃ i c, chunks a !! i = Some c ∧ inside l.1 l.2 (as_ptr c) (chunk_len c) ∧
    (S i = length (chunks a) → l.1 + l.2 ≤ as_ptr c + off a).
Definition spare_zero (a : Arena) (m : Memory) : Prop :=
  ∀ b n, last (chunks a) = Some (Zeroed b n) → ∀ x, b + off a ≤ x < b + n → m x = 0.
Definition separate (ls : list (Z * Z)) : Prop :=
  ∀ i j k l, i ≠ j → ls !! i = Some k → ls !! j = Some l → disjoint_spans k.1 k.2 l.1 l.2.
Definition life_inv (s : Life) : Prop :=
  taken (chunks (arena s)) ∧ 0 ≤ off (arena s) ∧
  (∀ c, last (chunks (arena s)) = Some c → off (arena s) ≤ chunk_len c) ∧
  Forall (held (arena s)) (live s) ∧ separate (live s) ∧ spare_zero (arena s) (memory s).

(** What one allocation of some bytes does. *)
Record allocated (size align : Z) (zeroed : bool) (a : Arena) (m : Memory) (ptr : Z) (a' : Arena) (m' : Memory) : Prop := {
  al_taken : taken (chunks a');
  al_off : 0 ≤ off a';
  al_room : ∀ c, last (chunks a') = Some c → off a' ≤ chunk_len c;
  al_align : ∃ k, 0 ≤ k ∧ align ≤ 2 ^ k ∧ ptr mod 2 ^ k = 0;
  al_held : held a' (ptr, size);
  al_keep : ∀ l, held a l → held a' l ∧ disjoint_spans ptr size l.1 l.2 ∧ ∀ x, l.1 ≤ x < l.1 + l.2 → m' x = m x;
  al_zero : zeroed = true → ∀ x, ptr ≤ x < ptr + size → m' x = 0;
  al_spare : spare_zero a' m'
}.

(** A chunk of the list and its place. *)
Lemma last_place (cs : list ArenaChunk) c : last cs = Some c → cs !! (length cs - 1)%nat = Some c ∧ (0 < length cs)%nat.
Proof. intros H. rewrite last_lookup in H. rewrite <-Nat.sub_1_r in H. split; [done|]. apply lookup_lt_Some in H. lia. Qed.
Lemma inside_apart addr n c a k d : inside addr n (as_ptr c) (chunk_len c) → apart (as_ptr c) (chunk_len c) d →
  inside a k (as_ptr d) (chunk_len d) → disjoint_spans addr n a k.
Proof. unfold inside, apart, disjoint_spans. lia. Qed.

Lemma bump_spec size align zeroed a m c k o :
  0 < size → taken (chunks a) → 0 ≤ off a → spare_zero a m → last (chunks a) = Some c → 0 ≤ k → align ≤ 2 ^ k →
  aligned_off (2 ^ k) (as_ptr c) (off a) = Ret o → o + size ≤ chunk_len c →
  allocated size align zeroed a m (as_ptr c + o) (MkArena (chunks a) (o + size) (maps a))
    (if zeroed && negb (unused_suffix_is_zeroed c) then zero (as_ptr c + o) size m else m).
Proof.
  intros Hs Ht Ho Hz Hl Hk Hal (Hoo & Hm & H0)%aligned_off_inv Hfit; [|done]. destruct (last_place _ _ Hl) as [Hc Hlen].
  match goal with |- allocated _ _ _ _ _ _ _ ?x => set (m' := x) end. assert (∀ x, x < as_ptr c + o ∨ as_ptr c + (o + size) ≤ x → m' x = m x) as Hout.
  { intros x Hx. unfold m'. destruct (_ && _); [|done]. apply zero_out. lia. }
  split; cbn [chunks off].
  - done.
  - lia.
  - intros d Hd. assert (d = c) as -> by congruence. lia.
  - by exists k.
  - split; [done|]. exists (length (chunks a) - 1)%nat, c. unfold inside. cbn. split_and!; [done|lia..].
  - intros l (Hl2 & i & d & Hi & Hin & Hcur). assert (disjoint_spans (as_ptr c + o) size l.1 l.2) as Hd.
    { destruct (Nat.eq_dec (S i) (length (chunks a))) as [Hlast|Hn].
      - specialize (Hcur Hlast). replace i with (length (chunks a) - 1)%nat in Hi by lia. assert (d = c) as -> by congruence.
        unfold disjoint_spans. lia.
      - destruct Ht as [_ Ht]. eapply (inside_apart _ _ c _ _ d); [unfold inside; lia| |exact Hin]. apply (Ht (length (chunks a) - 1)%nat i); [|done..].
        apply lookup_lt_Some in Hi. lia. }
    split; [|split; [done|]].
    + split; [done|]. exists i, d. split_and!; [done..|]. intros Hlast. specialize (Hcur Hlast). cbn. lia.
    + intros x Hx. apply Hout. unfold disjoint_spans in Hd. lia.
  - intros -> x Hx. unfold m'. destruct c as [b n|b n]; cbn [unused_suffix_is_zeroed negb andb].
    + apply (Hz b n Hl). cbn [as_ptr chunk_len] in *. lia.
    + apply zero_in. cbn [as_ptr] in *. lia.
  - intros b n Hbn x Hx. cbn [chunks off] in *. assert (c = Zeroed b n) as -> by congruence. cbn [as_ptr] in *.
    rewrite Hout by lia. apply (Hz b n Hl). lia.
Qed.

Section Heap.
Context (heap : list ArenaChunk → Z → option Z) (Hheap : heap_sound heap).

Lemma taken_app cs c : taken cs → 0 < as_ptr c → 0 ≤ chunk_len c → as_ptr c + chunk_len c ≤ ISIZE_MAX →
  Forall (apart (as_ptr c) (chunk_len c)) cs → taken (cs ++ [c]).
Proof.
  intros [H1 H2] ? ? ? Hap. split; [apply Forall_app; split; [done|by constructor]|].
  intros i j x y Hij Hi Hj. rewrite Forall_lookup in Hap.
  apply lookup_app_Some in Hi as [Hi|[Hi' Hi]], Hj as [Hj|[Hj' Hj]]; [by eapply H2| | |].
  - apply list_lookup_singleton_Some in Hj as [? <-]. specialize (Hap i x Hi). unfold apart, disjoint_spans in *. lia.
  - apply list_lookup_singleton_Some in Hi as [? <-]. by eapply Hap.
  - apply list_lookup_singleton_Some in Hi as [? _]. apply list_lookup_singleton_Some in Hj as [? _]. lia.
Qed.

Lemma fresh_spec size align zeroed a m k ptr a' m' :
  0 < size → taken (chunks a) → 0 ≤ k → align ≤ 2 ^ k →
  fresh_chunk heap size (2 ^ k) zeroed a m = Ret (ptr, a', m') → allocated size align zeroed a m ptr a' m'.
Proof.
  intros Hs Ht Hk Hal H. unfold fresh_chunk in H.
  apply res_bind_Ret_inv in H as (cap0 & [-> Hcap]%usize_inv & H). cbv zeta in H. set (cap := Z.max CHUNK (size + 2 ^ k)) in H.
  apply res_bind_Ret_inv in H as (base & Hb & H). destruct (Z.ltb_spec ISIZE_MAX cap); [done|].
  destruct (heap (chunks a) cap) as [b|] eqn:Hh; [|done]. injection Hb as ->. apply Hheap in Hh as (Hb0 & Hb1 & Hap).
  apply res_bind_Ret_inv in H as (o & (Hoo & Hm & Ho0)%aligned_off_inv & H); [|done].
  apply res_bind_Ret_inv in H as (e & [-> He]%usize_inv & [= <- <- <-]). assert (size + 2 ^ k ≤ cap) by lia.
  set (c := if zeroed then Zeroed base cap else Uninit base cap). assert (as_ptr c = base ∧ chunk_len c = cap) as [Hp Hn] by (by destruct zeroed).
  assert (taken (chunks a ++ [c])) as Ht'. { apply taken_app; rewrite ?Hp, ?Hn; try done; try lia. }
  assert ((chunks a ++ [c]) !! length (chunks a) = Some c) as Hlk by (rewrite lookup_app_r, Nat.sub_diag by lia; done).
  split; cbn [chunks off].
  - done.
  - lia.
  - intros d. rewrite last_snoc. intros [= <-]. lia.
  - by exists k.
  - split; [done|]. exists (length (chunks a)), c. rewrite Hp, Hn. unfold inside. cbn. split_and!; [done|lia..].
  - intros l (Hl2 & i & d & Hi & Hin & Hcur). apply lookup_lt_Some in Hi as Hil. rewrite Forall_lookup in Hap. specialize (Hap i d Hi).
    assert (disjoint_spans base cap l.1 l.2) as Hd. { unfold apart, disjoint_spans, inside in *. lia. }
    split; [|split].
    + split; [done|]. exists i, d. cbn [chunks]. rewrite lookup_app_l by done. split_and!; [done..|]. rewrite length_app. cbn. lia.
    + unfold disjoint_spans in *. lia.
    + intros x Hx. destruct zeroed; [|done]. apply zero_out. unfold disjoint_spans in *. lia.
  - intros -> x Hx. apply zero_in. lia.
  - intros b n Hbn x Hx. cbn [chunks off] in *. rewrite last_snoc in Hbn. unfold c in Hbn. destruct zeroed; [|done]. injection Hbn as <- <-. apply zero_in. lia.
Qed.

Lemma alloc_spec size align zeroed a m ptr a' m' :
  0 < size → taken (chunks a) → 0 ≤ off a → spare_zero a m →
  alloc_class heap size align zeroed a m = Ret (ptr, a', m') → allocated size align zeroed a m ptr a' m'.
Proof.
  intros Hs Ht Ho Hz H. unfold alloc_class in H. apply res_bind_Ret_inv in H as (p & (k & Hk & -> & Hle)%next_power_inv & H); [|lia].
  rewrite (proj2 (Z.eqb_neq _ _)) in H by lia. assert (align ≤ 2 ^ k) as Hal by lia.
  destruct (last (chunks a)) as [c|] eqn:Hl; [|by eapply fresh_spec].
  apply res_bind_Ret_inv in H as (o & Hoff & H). apply res_bind_Ret_inv in H as (e & [-> He]%usize_inv & H).
  destruct (Z.leb_spec (o + size) (chunk_len c)) as [Hfit|]; [|by eapply fresh_spec]. injection H as <- <- <-.
  by eapply bump_spec.
Qed.

Lemma separate_cons ptr n ls : separate ls → Forall (λ l, disjoint_spans ptr n l.1 l.2) ls → separate ((ptr, n) :: ls).
Proof.
  intros Hs Hf. rewrite Forall_lookup in Hf. intros [|i] [|j] k l Hij Hi Hj; simpl in *; simplify_eq; [by eapply Hf| |].
  - specialize (Hf i k Hi). simpl in *. unfold disjoint_spans in *. lia.
  - apply (Hs i j); [lia|done..].
Qed.

Lemma write_keeps s addr bs : life_inv s →
  (Exists (λ l, inside addr (Z.of_nat (length bs)) l.1 l.2) (live s) ∨ Forall (apart addr (Z.of_nat (length bs))) (chunks (arena s))) →
  spare_zero (arena s) (store addr bs (memory s)).
Proof.
  intros (Ht & Ho & Hr & Hh & _ & Hz) Hw b n Hl x Hx. rewrite store_out; [by apply (Hz b n Hl)|].
  destruct (last_place _ _ Hl) as [Hc Hlen]. specialize (Hr _ Hl). cbn in Hr. destruct Hw as [(l & Hin & Hi)%Exists_exists|Hap].
  - rewrite Forall_forall in Hh. destruct (Hh l Hin) as (H2 & i & d & Hd & Hds & Hcur).
    destruct (Nat.eq_dec (S i) (length (chunks (arena s)))) as [Hlast|Hn].
    + specialize (Hcur Hlast). replace i with (length (chunks (arena s)) - 1)%nat in Hd by lia.
      assert (d = Zeroed b n) as -> by congruence. unfold inside in *. cbn in *. lia.
    + destruct Ht as [_ Ht]. apply lookup_lt_Some in Hd as Hdl. specialize (Ht i (length (chunks (arena s)) - 1)%nat d (Zeroed b n) ltac:(lia) Hd Hc).
      unfold apart, disjoint_spans, inside in *. cbn in *. lia.
  - rewrite Forall_lookup in Hap. specialize (Hap _ _ Hc). unfold apart, disjoint_spans in Hap. cbn in Hap. lia.
Qed.

Lemma empty_inv m : life_inv (MkLife align_rt_arena_begin m []).
Proof. unfold life_inv, taken, separate, spare_zero. cbn. split_and!; try done; by constructor. Qed.
Lemma alive_inv s : alive heap s → life_inv s.
Proof.
  induction 1 as [m|s op s' _ IH Hstep].
  - apply empty_inv.
  - pose proof IH as (Ht & Ho & Hr & Hh & Hs & Hz). destruct Hstep as [s size align zeroed ptr a m Hs0 _ Ha|s addr bs Hw|s].
    + destruct (Z.eqb_spec size 0) as [->|Hne].
      { unfold alloc_class in Ha. apply res_bind_Ret_inv in Ha as (p & _ & Ha). cbn in Ha. by injection Ha as <- <- <-. }
      destruct (alloc_spec size align zeroed (arena s) (memory s) ptr a m ltac:(lia) Ht Ho Hz Ha) as [A1 A2 A3 _ A5 A6 _ A8].
      split_and!; cbn; try done.
      * constructor; [done|]. eapply Forall_impl; [exact Hh|]. intros l Hl. by destruct (A6 l Hl).
      * apply separate_cons; [done|]. eapply Forall_impl; [exact Hh|]. intros l Hl. by destruct (A6 l Hl) as (_ & ? & _).
    + split_and!; cbn; try done. by apply write_keeps.
    + apply empty_inv.
Qed.
(** ** Refusals *)
(** An allocation the heap does not grant: it fits nowhere at the end of the last chunk, and
    the chunk of its own that it then needs is too large or not to be had. *)
Definition refuses (a : Arena) (size align : Z) : Prop :=
  (∀ c o, last (chunks a) = Some c → off a ≤ o → (as_ptr c + o) mod align = 0 → chunk_len c < o + size) ∧
  let cap := Z.max CHUNK (size + align) in ISIZE_MAX < cap ∨ heap (chunks a) cap = None.

Lemma fresh_panics size k zeroed a m : 0 < size ≤ ISIZE_MAX → 0 ≤ k ≤ 62 →
  fresh_chunk heap size (2 ^ k) zeroed a m = Panic ↔ ISIZE_MAX < Z.max CHUNK (size + 2 ^ k) ∨ heap (chunks a) (Z.max CHUNK (size + 2 ^ k)) = None.
Proof.
  intros Hs Hk. assert (0 < 2 ^ k ≤ 2 ^ 62) as Hp by (split; [lia|apply Z.pow_le_mono_r; lia]). unfold fresh_chunk.
  rewrite usize_ok by (unfold ISIZE_MAX, USIZE_MAX in *; lia). cbn [res_bind]. set (cap := Z.max CHUNK (size + 2 ^ k)).
  destruct (Z.ltb_spec ISIZE_MAX cap) as [Hbig|Hcap]; [split; [by left|done]|]. destruct (heap (chunks a) cap) as [base|] eqn:Hh; [|split; [by right|done]].
  apply Hheap in Hh as (Hb0 & Hb1 & _). assert (size + 2 ^ k ≤ cap) by lia. cbn [unwrap res_bind].
  destruct (aligned_off_ok k base 0) as (o & Ho & Hlt); [lia|done|lia|unfold ISIZE_MAX, USIZE_MAX in *; lia|]. rewrite Ho. cbn [res_bind].
  apply aligned_off_inv in Ho as (? & _ & ?); [|lia]. rewrite usize_ok by (unfold ISIZE_MAX, USIZE_MAX in *; lia). cbn [res_bind]. split; [done|]. intros [?|?]; [lia|done].
Qed.

(** An allocation panics exactly when it is refused. *)
Lemma alloc_panics size k zeroed s m : life_inv s → 0 < size ≤ ISIZE_MAX → 0 ≤ k ≤ 62 →
  alloc_class heap size (2 ^ k) zeroed (arena s) m = Panic ↔ refuses (arena s) size (2 ^ k).
Proof.
  intros ([Ht _] & Ho & Hr & _) Hs Hk. assert (0 < 2 ^ k ≤ 2 ^ 62) as Hp by (split; [lia|apply Z.pow_le_mono_r; lia]). unfold alloc_class, refuses.
  rewrite Z.max_l by lia. unfold next_power_of_two. rewrite Z.log2_up_pow2 by lia. rewrite usize_ok by (unfold USIZE_MAX; lia). cbn [res_bind].
  rewrite (proj2 (Z.eqb_neq _ _)) by lia. pose proof (fresh_panics size k zeroed (arena s) m Hs Hk) as Hfresh. destruct (last (chunks (arena s))) as [c|] eqn:Hl; [|rewrite Hfresh; naive_solver].
  specialize (Hr c eq_refl). rewrite Forall_lookup in Ht. destruct (Ht _ _ (proj1 (last_place _ _ Hl))) as (Hb & _ & He).
  destruct (aligned_off_ok k (as_ptr c) (off (arena s))) as (o & Hoff & Hlt); [lia|done|done|unfold ISIZE_MAX, USIZE_MAX in *; lia|]. rewrite Hoff. cbn [res_bind].
  pose proof (aligned_off_inv k _ _ _ (proj1 Hk) Hoff) as (Hge & Hm & H0).
  assert (chunk_len c < o + size → ∀ d x, Some c = Some d → off (arena s) ≤ x → (as_ptr d + x) mod 2 ^ k = 0 → chunk_len d < x + size) as Hroom.
  { intros Hfull d x [= <-] Hx Hmx. pose proof (aligned_off_least k _ _ _ x (proj1 Hk) Hoff Hx Hmx). lia. }
  unfold usize. destruct ((0 <=? o + size) && (o + size <=? USIZE_MAX)) eqn:Hu; b2p; cbn [res_bind].
  - destruct (Z.leb_spec (o + size) (chunk_len c)) as [Hfit|Hfull]; [|rewrite Hfresh; split; [intros Hno; split; [by apply Hroom|done]|by intros [_ Hno]]].
    split; [done|]. intros [Hno _]. specialize (Hno c o eq_refl (proj1 Hge) Hm). lia.
  - assert (USIZE_MAX < o + size) by (apply andb_false_iff in Hu as [?%Z.leb_gt|?%Z.leb_gt]; lia). split; [|done]. intros _.
    split; [apply Hroom|left]; unfold ISIZE_MAX, USIZE_MAX in *; lia.
Qed.
(** ** Memory of the arena's user *)
(** A span the heap never hands out. *)
Definition avoids (addr n : Z) : Prop := ∀ cs cap base, heap cs cap = Some base → disjoint_spans addr n base cap.
Lemma alloc_outside size align zeroed a m ptr a' m' addr n : 0 < size → taken (chunks a) → 0 ≤ off a → spare_zero a m →
  alloc_class heap size align zeroed a m = Ret (ptr, a', m') → Forall (apart addr n) (chunks a) → avoids addr n →
  Forall (apart addr n) (chunks a') ∧ ∀ x, addr ≤ x < addr + n → m' x = m x.
Proof.
  intros Hs Ht Ho Hz H Hap Hav. unfold alloc_class in H. apply res_bind_Ret_inv in H as (p & (k & Hk & -> & Hle)%next_power_inv & H); [|lia].
  rewrite (proj2 (Z.eqb_neq _ _)) in H by lia.
  assert (fresh_chunk heap size (2 ^ k) zeroed a m = Ret (ptr, a', m') → Forall (apart addr n) (chunks a') ∧ ∀ x, addr ≤ x < addr + n → m' x = m x) as Hfresh.
  { clear H. intros H. unfold fresh_chunk in H. apply res_bind_Ret_inv in H as (cap0 & _ & H). cbv zeta in H. set (cap := Z.max CHUNK cap0) in H.
    apply res_bind_Ret_inv in H as (base & Hb & H). destruct (Z.ltb_spec ISIZE_MAX cap); [done|]. destruct (heap (chunks a) cap) as [b|] eqn:Hh; [|done]. injection Hb as ->. apply Hav in Hh.
    apply res_bind_Ret_inv in H as (o & _ & H). apply res_bind_Ret_inv in H as (e & _ & [= <- <- <-]). cbn [chunks]. split.
    - apply Forall_app. split; [done|]. constructor; [by destruct zeroed|done].
    - intros x Hx. destruct zeroed; [|done]. apply zero_out. unfold disjoint_spans in Hh. lia. }
  destruct (last (chunks a)) as [c|] eqn:Hl; [|by apply Hfresh].
  apply res_bind_Ret_inv in H as (o & (_ & _ & H0)%aligned_off_inv & H); [|done]. apply res_bind_Ret_inv in H as (e & [-> He]%usize_inv & H).
  destruct (Z.leb_spec (o + size) (chunk_len c)) as [Hfit|]; [|by apply Hfresh]. injection H as <- <- <-. split; [done|].
  intros x Hx. destruct (_ && _); [|done]. apply zero_out. rewrite Forall_lookup in Hap. specialize (Hap _ _ (proj1 (last_place _ _ Hl))). unfold apart, disjoint_spans in Hap. lia.
Qed.
(** Memory a program may use next to its arena: inside an allocation, or elsewhere. *)
Definition owned (s : Life) (addr n : Z) : Prop :=
  Exists (λ l, inside addr n l.1 l.2) (live s) ∨ (Forall (apart addr n) (chunks (arena s)) ∧ avoids addr n).
Lemma owned_kept s addr n size align zeroed ptr a m : life_inv s → owned s addr n → 0 < size →
  alloc_class heap size align zeroed (arena s) (memory s) = Ret (ptr, a, m) →
  disjoint_spans addr n ptr size ∧ ∀ x, addr ≤ x < addr + n → m x = memory s x.
Proof.
  intros (Ht & Ho & _ & Hh & _ & Hz) Hown Hs H. pose proof (alloc_spec _ _ _ _ _ _ _ _ Hs Ht Ho Hz H) as Hal. destruct Hown as [Hin|[Hap Hav]].
  - apply Exists_exists in Hin as (l & Hl & Hin). rewrite Forall_forall in Hh. destruct (al_keep _ _ _ _ _ _ _ _ Hal l (Hh l Hl)) as (_ & Hd & Hk).
    unfold inside, disjoint_spans in *. split; [lia|]. intros x Hx. apply Hk. lia.
  - destruct (alloc_outside _ _ _ _ _ _ _ _ addr n Hs Ht Ho Hz H Hap Hav) as [Hap' Hk]. split; [|done].
    destruct (al_held _ _ _ _ _ _ _ _ Hal) as (_ & i & c & Hc & Hin & _). rewrite Forall_lookup in Hap'. specialize (Hap' _ _ Hc). unfold inside, apart, disjoint_spans in *. cbn in *. lia.
Qed.
End Heap.

(** C26. An arena never hands out a byte twice: whatever was allocated, written and reset
    before, and wherever the heap puts its chunks, an allocation of some bytes is not null,
    aligned to the power of two at or above what was asked, and apart from every allocation
    that is still held, each of which keeps its bytes; a zeroed one reads zero. *)
Theorem arena_allocations_apart heap s size align zeroed ptr a m :
  heap_sound heap → alive heap s → 0 < size →
  alloc_class heap size align zeroed (arena s) (memory s) = Ret (ptr, a, m) →
  (0 < ptr ∧ ptr + size ≤ ISIZE_MAX ∧ ∃ k, 0 ≤ k ∧ align ≤ 2 ^ k ∧ ptr mod 2 ^ k = 0) ∧
  Forall (λ l, disjoint_spans ptr size l.1 l.2 ∧ load l.1 (Z.to_nat l.2) m = load l.1 (Z.to_nat l.2) (memory s)) (live s) ∧
  (zeroed = true → load ptr (Z.to_nat size) m = replicate (Z.to_nat size) 0).
Proof.
  intros Hheap (Ht & Ho & _ & Hh & _ & Hz)%alive_inv Hs H; [|done]. apply alloc_spec in H as [A1 _ _ A4 A5 A6 A7 _]; [|done..].
  split_and!; [| |exact A4| |].
  1-2: destruct A5 as (_ & i & c & Hc & [Hi1 Hi2] & _), A1 as [A1 _]; rewrite Forall_lookup in A1; specialize (A1 i c Hc); cbn in *; lia.
  - eapply Forall_impl; [exact Hh|]. intros l Hl. destruct (A6 l Hl) as (_ & Hd & Hk). split; [done|]. apply load_agree. intros i Hi. apply Hk. lia.
  - intros Hzd. specialize (A7 Hzd). unfold load. apply list_eq. intros i. rewrite list_lookup_fmap.
    destruct (decide (i < Z.to_nat size)%nat) as [Hi|Hi].
    + rewrite lookup_seq_lt, lookup_replicate_2 by done. simpl. f_equal. apply A7. lia.
    + rewrite lookup_seq_ge by lia. symmetry. apply lookup_replicate_None. lia.
Qed.

(** A heap that goes on from the last chunk is sound once chunks only grow upwards; one that
    has room for a single chunk shows the hypotheses hold. *)
Definition one_block (cs : list ArenaChunk) (cap : Z) : option Z :=
  match cs with [] => if cap <=? 2 ^ 62 then Some 4096 else None | _ => None end.
Lemma one_block_sound : heap_sound one_block.
Proof.
  intros [|c cs] cap base; unfold one_block; [|done]. destruct (Z.leb_spec cap (2 ^ 62)); [|done]. intros [= <-]. unfold ISIZE_MAX. split_and!; [lia..|constructor].
Qed.
Definition first_ten : Arena := MkArena [Zeroed 4096 65536] 10 [].
Lemma arena_allocations_apart_witness :
  ∃ a m, alloc_class one_block 16 8 true first_ten (store 4096 [1; 2] (zero 4096 65536 (λ _, 7))) = Ret (4112, a, m) ∧
    0 < 4112 ∧ load 4096 2 m = [1; 2] ∧ load 4112 16 m = replicate 16 0.
Proof.
  eexists _, _. split; [reflexivity|]. split; [lia|].
  destruct (arena_allocations_apart one_block (MkLife first_ten (store 4096 [1; 2] (zero 4096 65536 (λ _, 7))) [(4096, 10)]) 16 8 true 4112 (MkArena [Zeroed 4096 65536] 32 [])
    (store 4096 [1; 2] (zero 4096 65536 (λ _, 7)))) as (_ & Hf & Hz).
  - exact one_block_sound.
  - eapply alive_step; [|apply (step_write one_block (MkLife first_ten (zero 4096 65536 (λ _, 7)) [(4096, 10)])); left; constructor; vm_compute; split; discriminate].
    eapply alive_step; [apply (alive_begin one_block (λ _, 7))|].
    apply (step_alloc one_block (MkLife align_rt_arena_begin (λ _, 7) []) 10 1 true 4096 first_ten); [lia..|reflexivity].
  - lia.
  - reflexivity.
  - split; [vm_compute; reflexivity|]. exact (Hz eq_refl).
Defined.
