(* ===== verification/Csv.v ===== *)
(** * CSV decoding ([crates/align_runtime/src/csv.rs])

    RFC 4180 text decoded straight into the columns of an array of structs: cells as
    ranges of the source, the record parser with its bulk searches, the header and its
    hash table, the conversion of a cell by its descriptor's tag, and the entry point,
    which reads the text twice — to validate, count and size, then to fill the one
    block it takes from the arena.  Memory is as in [TimeFormats], the arena as in
    [Arena]; the source is read once, as a slice that does not change.  The crate
    [memchr] is an argument.  Indexing and slicing out of range, and the calls of
    [align_rt_alloc_size_fail], panic. *)
From Stdlib Require Import ZArith Lia String SpecFloat.
From S2P Require Import Prelude Utf8 Text Hash TimeFormats Encoding Arena.
Local Open Scope Z_scope.

Definition STATUS_OK : Z := 0.
Definition STATUS_INVALID : Z := 1.
Definition STATUS_LIMIT : Z := 2.
Definition STATUS_BAD_ABI : Z := -1.
Definition HEADER_PRESENT : Z := 0.
Definition HEADER_ABSENT : Z := 1.
Definition EOL_CRLF : Z := 0.
Definition EOL_LF : Z := 1.
Definition HEADER_CAP : nat := 1024.
Definition HEADER_TABLE_CAP : nat := 2048.
Definition KIND_INT : Z := 0.
Definition KIND_BOOL : Z := 1.
Definition KIND_FLOAT : Z := 2.
Definition KIND_STR : Z := 3.
Definition KIND_CHAR : Z := 4.

Record CsvField := MkField { name_ptr : Z; name_len : Z; name_hash : Z; tag : Z; reserved : Z }.
Record Cell := MkCell { c_start : nat; c_end : nat; escaped : bool }.
Definition cell_default : Cell := MkCell 0 0 false.

Section Search.
Context (memchr : Z → bytes → option nat) (memchr3 : Z → Z → Z → bytes → option nat).

(** ** Searching *)
Definition PREFIX : nat := 16.
Definition next_quote (input : bytes) : option nat :=
  match find_byte (λ b, b =? dquote) (take PREFIX input) with
  | Some index => Some index
  | None => if (length input <=? PREFIX)%nat then None else Nat.add PREFIX <$> memchr dquote (drop PREFIX input)
  end.
Definition is_boundary (b : Z) : bool := (b =? ","%u8) || (b =? 13) || (b =? 10) || (b =? dquote).
Fixpoint boundary_chunks (chunks : list bytes) (offset : nat) : res (option nat) :=
  match chunks with
  | [] => Ret None
  | chunk :: chunks =>
    let delimiter := default (length chunk) (memchr3 ","%u8 13 10 chunk) in
    let* before := slice_res 0 delimiter chunk in
    match memchr dquote before with
    | Some quote => Ret (Some (offset + quote)%nat)
    | None => if (delimiter <? length chunk)%nat then Ret (Some (offset + delimiter)%nat) else boundary_chunks chunks (offset + length chunk)
    end
  end.
Definition unquoted_boundary_tail (input : bytes) : res (option nat) := boundary_chunks (slice_chunks 256 input) 0.
Definition next_unquoted_boundary (input : bytes) : res (option nat) :=
  match find_byte is_boundary (take PREFIX input) with
  | Some index => Ret (Some index)
  | None =>
      if (length input <=? PREFIX)%nat then Ret None
      else let* found := unquoted_boundary_tail (drop PREFIX input) in Ret (Nat.add PREFIX <$> found)
  end.

(** ** Cells *)
(** The loop of [decoded_len], which counts a doubled quote once. *)
Fixpoint decoded_len_loop (fuel : nat) (src : bytes) (end_ p n : nat) : res (option nat) :=
  match fuel with
  | O => OutOfFuel
  | S fuel =>
    let* input := slice_res p end_ src in
    match next_quote input with
    | None => Ret (Some n)
    | Some offset =>
      let p := (p + offset)%nat in
      if (end_ <=? p + 1)%nat then Ret None
      else
        let* b := unwrap (src !! (p + 1)%nat) in
        if negb (b =? dquote) then Ret None
        else let* n := usub n 1 in decoded_len_loop fuel src end_ (p + 2) n
    end
  end.
Definition decoded_len (cell : Cell) (src : bytes) : res (option nat) :=
  if (c_end cell <? c_start cell)%nat then Ret None
  else
    let raw := (c_end cell - c_start cell)%nat in
    if negb (escaped cell) then Ret (Some raw) else decoded_len_loop (S raw) src (c_end cell) (c_start cell) raw.

(** The slices [chunks] visits, and whether it gets to the end. *)
Fixpoint chunks_loop (fuel : nat) (src : bytes) (end_ p run : nat) : res (list bytes * bool) :=
  match fuel with
  | O => OutOfFuel
  | S fuel =>
    let* input := slice_res p end_ src in
    match next_quote input with
    | None => let* rest := slice_res run end_ src in Ret ([rest], true)
    | Some offset =>
      let p := (p + offset)%nat in
      if (end_ <=? p + 1)%nat then Ret ([], false)
      else
        let* b := unwrap (src !! (p + 1)%nat) in
        if negb (b =? dquote) then Ret ([], false)
        else
          let* part := slice_res run p src in
          let* '(rest, done_) := chunks_loop fuel src end_ (p + 2) (p + 2) in
          Ret (part :: [dquote] :: rest, done_)
    end
  end.
Definition cell_chunks (cell : Cell) (src : bytes) : res (list bytes * bool) :=
  if negb (escaped cell) then let* all := slice_res (c_start cell) (c_end cell) src in Ret ([all], true)
  else chunks_loop (S (c_end cell - c_start cell)) src (c_end cell) (c_start cell) (c_start cell).

(** [chunks(src, |chunk| valid &= stream.update(chunk))] *)
Fixpoint update_all (stream : WyHashStream) (valid : bool) (chunks : list bytes) : res (WyHashStream * bool) :=
  match chunks with
  | [] => Ret (stream, valid)
  | chunk :: chunks => let* '(ok, stream) := update stream chunk in update_all stream (valid && ok) chunks
  end.
Definition cell_hash (cell : Cell) (src : bytes) : res (option Z) :=
  let* n := decoded_len cell src in
  match n with
  | None => Ret None
  | Some n =>
    let* '(chunks, done_) := cell_chunks cell src in
    let* '(stream, valid) := update_all (for_len 0 n) true chunks in
    if negb done_ || negb valid then Ret None else finish stream
  end.

(** The closure of [equals]: where in [expected] the visited chunks end, or past it. *)
Definition match_chunk (expected : bytes) (at_ : nat) (chunk : bytes) : nat :=
  let end_ := (at_ + length chunk)%nat in
  if (end_ <=? length expected)%nat && bool_decide (slice_get at_ end_ expected = Some chunk) then end_ else S (length expected).
Definition cell_equals (cell : Cell) (src expected : bytes) : res bool :=
  let* n := decoded_len cell src in
  if negb (bool_decide (n = Some (length expected))) then Ret false
  else
    let* '(chunks, done_) := cell_chunks cell src in
    Ret (done_ && (fold_left (match_chunk expected) chunks 0 =? length expected)%nat).

(** The bytes [DecodedBytes] yields. *)
Fixpoint decoded_bytes (fuel : nat) (src : bytes) (end_ : nat) (escaped : bool) (pos : nat) : res bytes :=
  match slice_get pos end_ src with
  | Some (byte :: _) =>
    match fuel with
    | O => OutOfFuel
    | S fuel => let* rest := decoded_bytes fuel src end_ escaped (pos + (if escaped && (byte =? dquote) then 2 else 1)) in Ret (byte :: rest)
    end
  | _ => Ret []
  end.
Definition cell_bytes (cell : Cell) (src : bytes) : res bytes :=
  decoded_bytes (c_end cell - c_start cell) src (c_end cell) (escaped cell) (c_start cell).
Definition equals_cell (cell : Cell) (src : bytes) (other : Cell) : res bool :=
  let* n := decoded_len cell src in
  let* k := decoded_len other src in
  if negb (bool_decide (n = k)) then Ret false
  else let* a := cell_bytes cell src in let* b := cell_bytes other src in Ret (bool_decide (a = b)).

(** [copy_decoded]: the memory it leaves and what it counts. *)
Fixpoint copy_chunks (dst : Z) (at_ : nat) (chunks : list bytes) (m : Memory) : nat * Memory :=
  match chunks with
  | [] => (at_, m)
  | chunk :: chunks => copy_chunks dst (at_ + length chunk) chunks (store (dst + Z.of_nat at_) chunk m)
  end.
Definition copy_decoded (cell : Cell) (src : bytes) (dst : Z) (m : Memory) : res (option nat * Memory) :=
  let* '(chunks, done_) := cell_chunks cell src in
  let '(at_, m) := copy_chunks dst 0 chunks m in
  Ret (if done_ then Some at_ else None, m).

(** ** Records *)
Definition parser_start (src : bytes) : nat := if bool_decide (take 3 src = [0xef; 0xbb; 0xbf]) then 3%nat else 0%nat.

(** [None] is the error, [Some None] no line ending, [Some (Some n)] one of [n] bytes. *)
Definition at_eol (src : bytes) (eol : Z) (p : nat) : option (option nat) :=
  if eol =? EOL_LF then
    match src !! p with Some 10 => Some (Some 1%nat) | Some 13 => None | _ => Some None end
  else if eol =? EOL_CRLF then
    match src !! p with
    | Some 13 => if bool_decide (src !! (p + 1)%nat = Some 10) then Some (Some 2%nat) else None
    | Some 10 => None
    | _ => Some None
    end
  else None.

(** The two shapes of a cell: [None] is [STATUS_INVALID]. *)
Fixpoint quoted_loop (fuel : nat) (src : bytes) (pos : nat) (escaped : bool) : res (option (nat * bool)) :=
  match fuel with
  | O => OutOfFuel
  | S fuel =>
    match src !! pos with
    | None => Ret None
    | Some byte =>
      let pos := if negb (byte =? dquote) then (pos + default (length (drop pos src)) (next_quote (drop pos src)))%nat else pos in
      if negb (byte =? dquote) && (pos =? length src)%nat then Ret None
      else if bool_decide (src !! (pos + 1)%nat = Some dquote) then quoted_loop fuel src (pos + 2) true
      else Ret (Some (pos, escaped))
    end
  end.
Fixpoint unquoted_loop (fuel : nat) (src : bytes) (eol : Z) (pos : nat) : res (option nat) :=
  match src !! pos with
  | None => Ret (Some pos)
  | Some b =>
    if b =? ","%u8 then Ret (Some pos)
    else
      match at_eol src eol pos with
      | None => Ret None
      | Some (Some _) => Ret (Some pos)
      | Some None =>
        if b =? dquote then Ret None
        else
          match fuel with
          | O => OutOfFuel
          | S fuel =>
            let* found := next_unquoted_boundary (drop pos src) in
            unquoted_loop fuel src eol (pos + default (length (drop pos src)) found)
          end
      end
  end.
(** A cell and where it ends. *)
Definition next_cell (src : bytes) (eol : Z) (pos : nat) : res (option (Cell * nat)) :=
  if bool_decide (src !! pos = Some dquote) then
    let start := (pos + 1)%nat in
    let* r := quoted_loop (S (length src)) src start false in
    Ret ('(end_, esc) ← r; Some (MkCell start end_ esc, (end_ + 1)%nat))
  else
    let* r := unquoted_loop (S (length src)) src eol pos in
    Ret (end_ ← r; Some (MkCell pos end_ false, end_)).

(** The loop of [record]: an error status, or the number of fields, where the record ends
    and the visitor's state. *)
Fixpoint record_loop {St} (fuel : nat) (src : bytes) (eol : Z) (limit : option (nat * Z))
    (visit : nat → Cell → St → res (Z + St)) (ordinal pos : nat) (s : St) : res (Z + nat * nat * St) :=
  match fuel with
  | O => OutOfFuel
  | S fuel =>
    match (if bool_decide (fst <$> limit = Some ordinal) then snd <$> limit else None) with
    | Some status => Ret (inl status)
    | None =>
      let* c := next_cell src eol pos in
      match c with
      | None => Ret (inl STATUS_INVALID)
      | Some (cell, pos) =>
        let* v := visit ordinal cell s in
        match v with
        | inl e => Ret (inl e)
        | inr s =>
          let ordinal := S ordinal in
          if USIZE_MAX <? Z.of_nat ordinal then Ret (inl STATUS_INVALID)
          else
            match src !! pos with
            | None => Ret (inr (ordinal, pos, s))
            | Some b =>
              if b =? ","%u8 then record_loop fuel src eol limit visit ordinal (pos + 1) s
              else match at_eol src eol pos with
                   | Some (Some n) => Ret (inr (ordinal, (pos + n)%nat, s))
                   | _ => Ret (inl STATUS_INVALID)
                   end
            end
        end
      end
    end
  end.
Definition record {St} (src : bytes) (eol : Z) (limit : option (nat * Z))
    (visit : nat → Cell → St → res (Z + St)) (pos : nat) (s : St) : res (Z + option nat * nat * St) :=
  if (pos =? length src)%nat then Ret (inr (None, pos, s))
  else
    let* r := record_loop (S (length src)) src eol limit visit 0 pos s in
    Ret (match r with inl e => inl e | inr (n, pos, s) => inr (Some n, pos, s) end).

(** ** Descriptors *)
(** The kind, the sign and the width of a tag. *)
Definition field_shape (tag : Z) : option (Z * bool * Z) :=
  if tag <? 0 then None
  else
    let signed := Z.shiftr tag 16 in
    let kind := Z.land (Z.shiftr tag 8) 0xff in
    let width := Z.land tag 0xff in
    if negb (Z.land tag 0xff000000 =? 0) || (1 <? signed) then None
    else if ((kind =? KIND_INT) && ((width =? 1) || (width =? 2) || (width =? 4) || (width =? 8))) ||
            ((kind =? KIND_BOOL) && (width =? 1) && (signed =? 0)) ||
            ((kind =? KIND_FLOAT) && ((width =? 4) || (width =? 8)) && (signed =? 0)) ||
            ((kind =? KIND_STR) && (width =? 16) && (signed =? 0)) ||
            ((kind =? KIND_CHAR) && (width =? 4) && (signed =? 0))
         then Some (kind, negb (signed =? 0), width) else None.
Definition field_width (tag : Z) : option Z := snd <$> field_shape tag.
Definition field_kind (tag : Z) : option Z := (λ s, fst (fst s)) <$> field_shape tag.

Definition header_slot (hash : Z) : nat := Z.to_nat (Z.land hash (Z.of_nat HEADER_TABLE_CAP - 1)).

Definition KEYWORDS : list bytes :=
  map str ["as"; "arena"; "break"; "else"; "extern"; "false"; "fn"; "if"; "import"; "loop"; "match"; "module"; "mut"; "pub";
           "return"; "task_group"; "template"; "true"; "unsafe"]%string.
Definition source_identifier (bytes : bytes) : bool :=
  match bytes with
  | [] => false
  | first :: rest =>
      if negb ((first =? "_"%u8) || is_ascii_alphabetic first) || negb (forallb (λ b, (b =? "_"%u8) || is_ascii_alphanumeric b) rest)
      then false else negb (bool_decide (bytes ∈ KEYWORDS))
  end.

(** The name's bytes; [None] is [STATUS_BAD_ABI]. *)
Definition descriptor_name (field : CsvField) (m : Memory) : option bytes :=
  n ← safe_len (name_len field);
  if (n =? 0) || (name_ptr field =? 0) || (ISIZE_MAX <? n) then None
  else if USIZE_MAX <? name_ptr field + n then None
  else Some (load (name_ptr field) (Z.to_nat n) m).
Fixpoint validate_descriptors (fields : list CsvField) (m : Memory) : res bool :=
  match fields with
  | [] => Ret true
  | field :: fields =>
    match descriptor_name field m with
    | None => Ret false
    | Some name =>
      if negb (source_identifier name) then Ret false
      else
        let* hash := wyhash name 0 in
        if negb (hash =? name_hash field) then Ret false
        else if bool_decide (field_width (tag field) = None) then Ret false
        else if negb (reserved field =? 0) then Ret false
        else validate_descriptors fields m
    end
  end.

(** ** Values *)
Definition decoded_ascii (cell : Cell) (src : bytes) : res (option bytes) :=
  if escaped cell then Ret None else let* s := slice_res (c_start cell) (c_end cell) src in Ret (Some s).

Definition skip_digits (bytes : bytes) (p : nat) : nat := (p + count_while is_ascii_digit (drop p bytes))%nat.
Definition byte_at (bytes : bytes) (p : nat) (accept : Z → bool) : bool := match bytes !! p with Some b => accept b | None => false end.
Definition decimal_shape (bytes : bytes) (float : bool) : bool :=
  if bool_decide (bytes = []) then false
  else
    let int_start := if byte_at bytes 0 (λ b, b =? "-"%u8) then 1%nat else 0%nat in
    let p := skip_digits bytes int_start in
    if (p =? int_start)%nat then false
    else
      let fraction :=
        if float && byte_at bytes p (λ b, b =? "."%u8) then
          let frac := (p + 1)%nat in
          let p := skip_digits bytes frac in if (p =? frac)%nat then None else Some p
        else Some p in
      match fraction with
      | None => false
      | Some p =>
        let exponent :=
          if float && byte_at bytes p (λ b, (b =? "e"%u8) || (b =? "E"%u8)) then
            let p := (p + 1)%nat in
            let exp := if byte_at bytes p (λ b, (b =? "+"%u8) || (b =? "-"%u8)) then (p + 1)%nat else p in
            let p := skip_digits bytes exp in if (p =? exp)%nat then None else Some p
          else Some p in
        match exponent with None => false | Some p => (p =? length bytes)%nat end
      end.

Definition U128_MAX : Z := 2 ^ 128 - 1.
Definition checked_u128 (v : Z) : option Z := if v <=? U128_MAX then Some v else None.
Fixpoint magnitude_of (digits : bytes) (magnitude : Z) : option Z :=
  match digits with
  | [] => Some magnitude
  | b :: digits =>
      tens ← checked_u128 (magnitude * 10);
      sum ← checked_u128 (tens + (b - "0"%u8));
      magnitude_of digits sum
  end.
(** [u64::try_from] *)
Definition to_u64 (v : Z) : option Z := if v <? 2 ^ 64 then Some v else None.
Definition parse_integer (bytes : bytes) (signed : bool) (width : Z) : option Z :=
  if negb (decimal_shape bytes false) then None
  else
    let negative := byte_at bytes 0 (λ b, b =? "-"%u8) in
    if negative && negb signed then None
    else
      magnitude ← magnitude_of (drop (if negative then 1 else 0) bytes) 0;
      let bits := width * 8 in
      if signed then
        let max := 2 ^ (bits - 1) - 1 in
        if negative then
          if max + 1 <? magnitude then None
          else to_u64 (Z.land ((0 - magnitude) mod 2 ^ 128) (2 ^ bits - 1))
        else if magnitude <=? max then to_u64 magnitude else None
      else
        let max := 2 ^ bits - 1 in
        if magnitude <=? max then to_u64 magnitude else None.

(** [s.parse::<f32>()] and [s.parse::<f64>()] of a decimal form, as the bits of the value. *)
Definition float_bits (prec emax width : Z) (x : spec_float) : Z :=
  let pack (sign : bool) biased fraction := (if sign then 2 ^ (8 * width - 1) else 0) + biased * 2 ^ (prec - 1) + fraction in
  match x with
  | S754_zero s => pack s 0 0
  | S754_infinity s => pack s (2 * emax - 1) 0
  | S754_nan => pack false (2 * emax - 1) (2 ^ (prec - 2))
  | S754_finite s f e =>
      if Zpos f <? 2 ^ (prec - 1) then pack s 0 (Zpos f)
      else pack s (e - (3 - emax - prec) + 1) (Zpos f - 2 ^ (prec - 1))
  end.
Definition parse_float (width : Z) (text : bytes) : option Z :=
  let '(prec, emax) := if width =? 4 then (24, 128) else (53, 1024) in
  let '(negative, digits) := match text with b :: rest => if b =? "-"%u8 then (true, rest) else (false, text) | [] => (false, []) end in
  '(f, e) ← parse_decimal digits;
  let x := decimal_to_float prec emax f e in
  Some (float_bits prec emax width (if negative : bool then SFopp x else x)).

(** The only character of a well-formed string. *)
Definition one_char (bytes : bytes) : option Z :=
  match from_utf8 bytes with Some [c] => Some c | _ => None end.

Definition validate_cell (cell : Cell) (src : bytes) (field : CsvField) : res bool :=
  match field_shape (tag field) with
  | None => Ret false
  | Some (kind, signed, width) =>
    let* text := decoded_ascii cell src in
    match text with
    | None =>
        if kind =? KIND_STR then Ret true
        else if kind =? KIND_CHAR then let* n := decoded_len cell src in Ret (bool_decide (n = Some 1%nat))
        else Ret false
    | Some text =>
        Ret (if kind =? KIND_INT then bool_decide (is_Some (parse_integer text signed width))
             else if kind =? KIND_BOOL then bool_decide (text = str "true") || bool_decide (text = str "false")
             else if kind =? KIND_FLOAT then
               decimal_shape text true && bool_decide (is_Some (from_utf8 text)) && bool_decide (is_Some (parse_float width text))
             else if kind =? KIND_STR then true
             else if kind =? KIND_CHAR then bool_decide (is_Some (one_char text))
             else false)
    end
  end.

(** The value of a cell's text as the word its slot takes; a string is not a word. *)
Definition write_word (cell : Cell) (src : bytes) (kind : Z) (signed : bool) (width : Z) : res (option Z) :=
  let* text := decoded_ascii cell src in
  if kind =? KIND_INT then
    Ret (text ← text; value ← parse_integer text signed width; if value <? 2 ^ (8 * width) then Some value else None)
  else if kind =? KIND_BOOL then Ret (text ← text; Some (if bool_decide (text = str "true") then 1 else 0))
  else if kind =? KIND_FLOAT then Ret (text ← text; _ ← from_utf8 text; parse_float width text)
  else if kind =? KIND_CHAR then
    if escaped cell then let* n := decoded_len cell src in Ret (if bool_decide (n = Some 1%nat) then Some dquote else None)
    else let* s := slice_res (c_start cell) (c_end cell) src in Ret (one_char s)
  else Ret None.
(** Memory and the next free address of the text area; [None] when the cell has no value. *)
Definition write_cell (cell : Cell) (src : bytes) (src_ptr : Z) (field : CsvField) (dst : Z) (m : Memory) (text : Z)
    : res (option (Memory * Z)) :=
  match field_shape (tag field) with
  | None => Ret None
  | Some (kind, signed, width) =>
    if kind =? KIND_STR then
      let* n := decoded_len cell src in
      match n with
      | None => Ret None
      | Some len =>
        if escaped cell then
          let* '(copied, m) := copy_decoded cell src text m in
          if negb (bool_decide (copied = Some len)) then Ret None
          else Ret (_ ← to_i64 (Z.of_nat len); Some (store dst (str_bytes text (Z.of_nat len)) m, text + Z.of_nat len))
        else Ret (_ ← to_i64 (Z.of_nat len); Some (store dst (str_bytes (src_ptr + Z.of_nat (c_start cell)) (Z.of_nat len)) m, text))
      end
    else
      let* value := write_word cell src kind signed width in
      Ret (value ← value; Some (store dst (le_bytes (Z.to_nat width) value) m, text))
  end.

(** ** Columns *)
Definition soa_column_start (off width : Z) (first : bool) : option Z :=
  if first || (width <=? 1) then Some off
  else
    let mask := width - 1 in
    sum ← checked_usize (off + mask);
    Some (Z.land sum (Z.lnot mask)).
(** The end of the columns and their alignment. *)
Fixpoint column_layout_from (fields : list CsvField) (first : bool) (rows off max_align : Z) : option (Z * Z) :=
  match fields with
  | [] => Some (off, max_align)
  | field :: fields =>
      width ← field_width (tag field);
      off ← soa_column_start off width first;
      column ← checked_usize (rows * width);
      off ← checked_usize (off + column);
      column_layout_from fields false rows off (Z.max max_align width)
  end.
Definition column_layout (fields : list CsvField) (rows : Z) : option (Z * Z) := column_layout_from fields true rows 0 1.
(** Where each column starts ([present_offsets]); a step that fails aborts. *)
Fixpoint column_offsets (fields : list CsvField) (first : bool) (rows off : Z) : res (list Z) :=
  match fields with
  | [] => Ret []
  | field :: fields =>
      let* width := unwrap (field_width (tag field)) in
      let* off := unwrap (soa_column_start off width first) in
      let* column := unwrap (checked_usize (rows * width)) in
      let* next := unwrap (checked_usize (off + column)) in
      let* rest := column_offsets fields false rows next in
      Ret (off :: rest)
  end.

(** A slice of [count] values of the given size and alignment; [None] is [STATUS_BAD_ABI]. *)
Definition checked_slice (raw count size align : Z) : option Z :=
  n ← safe_len count;
  if (n =? 0) || (raw =? 0) || negb (raw mod align =? 0) then None
  else
    bytes ← checked_usize (n * size);
    if ISIZE_MAX <? bytes then None
    else if USIZE_MAX <? raw + bytes then None else Some n.
Definition load_i32 (addr : Z) (m : Memory) : Z := let v := from_le_bytes (load addr 4 m) in if v <? 2 ^ 31 then v else v - 2 ^ 32.
(** The 32 bytes of a descriptor. *)
Definition load_field (addr : Z) (m : Memory) : CsvField :=
  MkField (load_u64 addr m) (load_i64 (addr + 8) m) (load_u64 (addr + 16) m) (load_i32 (addr + 24) m) (load_i32 (addr + 28) m).

(** ** The header *)
(** The probe that stores header [i]; [None] when an equal name is there. *)
Fixpoint insert_probe (fuel : nat) (src : bytes) (physical : list Cell) (hashes : list Z) (i : nat) (table : list nat) (slot : nat)
    : res (option (list nat)) :=
  match fuel with
  | O => OutOfFuel
  | S fuel =>
    let* stored := unwrap (table !! slot) in
    if (stored =? 0)%nat then Ret (Some (<[slot := (i + 1)%nat]> table))
    else
      let prior := (stored - 1)%nat in
      let* hash := unwrap (hashes !! i) in
      let* prior_hash := unwrap (hashes !! prior) in
      let* duplicate := (if hash =? prior_hash then
                           let* cell := unwrap (physical !! i) in
                           let* other := unwrap (physical !! prior) in
                           equals_cell cell src other
                         else Ret false) in
      if duplicate : bool then Ret None
      else insert_probe fuel src physical hashes i table (Nat.land (slot + 1) (HEADER_TABLE_CAP - 1))
  end.
(** The loop over the header's cells, from [i] on: their hashes and the table; [None] is
    [STATUS_INVALID]. *)
Fixpoint insert_headers (count : nat) (src : bytes) (physical : list Cell) (i : nat) (hashes : list Z) (table : list nat)
    : res (option (list Z * list nat)) :=
  match count with
  | O => Ret (Some (hashes, table))
  | S count =>
    let* cell := unwrap (physical !! i) in
    let* n := decoded_len cell src in
    if bool_decide (n = Some 0%nat) then Ret None
    else
      let* hash := cell_hash cell src in
      match hash with
      | None => Ret None
      | Some hash =>
        let hashes := <[i := hash]> hashes in
        let* table := insert_probe (S HEADER_TABLE_CAP) src physical hashes i table (header_slot hash) in
        match table with
        | None => Ret None
        | Some table => insert_headers count src physical (S i) hashes table
        end
      end
  end.
(** The probe that looks a descriptor's name up. *)
Fixpoint lookup_probe (fuel : nat) (src : bytes) (physical : list Cell) (hashes : list Z) (table : list nat) (hash : Z) (name : bytes) (slot : nat)
    : res (option nat) :=
  match fuel with
  | O => OutOfFuel
  | S fuel =>
    let* stored := unwrap (table !! slot) in
    if (stored =? 0)%nat then Ret None
    else
      let candidate := (stored - 1)%nat in
      let* candidate_hash := unwrap (hashes !! candidate) in
      let* equal := (if candidate_hash =? hash then let* cell := unwrap (physical !! candidate) in cell_equals cell src name else Ret false) in
      if equal : bool then Ret (Some candidate)
      else lookup_probe fuel src physical hashes table hash name (Nat.land (slot + 1) (HEADER_TABLE_CAP - 1))
  end.
(** The descriptors are assigned to the header's columns; [usize::MAX] is [None] in [selected]. *)
Fixpoint select_fields (fields : list CsvField) (src : bytes) (physical : list Cell) (hashes : list Z) (table : list nat) (m : Memory)
    (field_index : nat) (selected : list (option nat)) : res (Z + list (option nat)) :=
  match fields with
  | [] => Ret (inr selected)
  | field :: fields =>
    match descriptor_name field m with
    | None => Ret (inl STATUS_BAD_ABI)
    | Some name =>
      let* found := lookup_probe (S HEADER_TABLE_CAP) src physical hashes table (name_hash field) name (header_slot (name_hash field)) in
      match found with
      | None => Ret (inl STATUS_INVALID)
      | Some found =>
        if (found <? length selected)%nat then select_fields fields src physical hashes table m (S field_index) (<[found := Some field_index]> selected)
        else Panic
      end
    end
  end.
(** [physical[ordinal] = cell] *)
Definition visit_header (ordinal : nat) (cell : Cell) (physical : list Cell) : res (Z + list Cell) :=
  if (ordinal <? length physical)%nat then Ret (inr (<[ordinal := cell]> physical)) else Panic.
(** How many columns the header has, what they select, and where the data start. *)
Definition read_header (src : bytes) (eol : Z) (fields : list CsvField) (m : Memory) : res (Z + nat * list (option nat) * nat) :=
  let* r := record src eol (Some (HEADER_CAP, STATUS_LIMIT)) visit_header (parser_start src) (replicate HEADER_CAP cell_default) in
  match r with
  | inl e => Ret (inl e)
  | inr (None, _, _) => Ret (inl STATUS_INVALID)
  | inr (Some header_count, pos, physical) =>
    let* inserted := insert_headers header_count src physical 0 (replicate HEADER_CAP 0) (replicate HEADER_TABLE_CAP 0%nat) in
    match inserted with
    | None => Ret (inl STATUS_INVALID)
    | Some (hashes, table) =>
      if (HEADER_CAP <? length fields)%nat then Ret (inl STATUS_INVALID)
      else
        let* selected := select_fields fields src physical hashes table m 0 (replicate HEADER_CAP None) in
        match selected with
        | inl e => Ret (inl e)
        | inr selected => Ret (inr (header_count, selected, pos))
        end
    end
  end.

(** ** The two passes *)
(** The descriptor's index for a column: without a header its ordinal. *)
Definition column_field (header : Z) (selected : list (option nat)) (ordinal : nat) : option nat :=
  if header =? HEADER_ABSENT then Some ordinal else (selected !! ordinal) ≫= id.

(** The first pass counts the bytes of the strings that hold a doubled quote. *)
Definition check_cell (src : bytes) (field : CsvField) (cell : Cell) (normalized : Z) : res (Z + Z) :=
  let* ok := validate_cell cell src field in
  if negb ok then Ret (inl STATUS_INVALID)
  else if bool_decide (field_kind (tag field) = Some KIND_STR) && escaped cell then
    let* n := decoded_len cell src in
    Ret (match n with
         | None => inl STATUS_INVALID
         | Some n => match checked_usize (normalized + Z.of_nat n) with None => inl STATUS_LIMIT | Some v => inr v end
         end)
  else Ret (inr normalized).
Definition visit_check (src : bytes) (header : Z) (fields : list CsvField) (selected : list (option nat))
    (ordinal : nat) (cell : Cell) (normalized : Z) : res (Z + Z) :=
  match column_field header selected ordinal with
  | None => Ret (inr normalized)
  | Some index =>
    match fields !! index with
    | None => if header =? HEADER_ABSENT then Ret (inl STATUS_INVALID) else Panic
    | Some field => check_cell src field cell normalized
    end
  end.
Fixpoint count_rows (fuel : nat) (src : bytes) (eol header : Z) (fields : list CsvField) (selected : list (option nat)) (expected : nat)
    (max_rows : Z) (pos : nat) (rows normalized : Z) : res (Z + Z * Z) :=
  match fuel with
  | O => OutOfFuel
  | S fuel =>
    let* r := record src eol None (visit_check src header fields selected) pos normalized in
    match r with
    | inl e => Ret (inl e)
    | inr (None, _, normalized) => Ret (inr (rows, normalized))
    | inr (Some columns, pos, normalized) =>
      if negb (columns =? expected)%nat then Ret (inl STATUS_INVALID)
      else if (I64_MAX <? rows) || (max_rows <=? rows) then Ret (inl STATUS_LIMIT)
      else match checked_usize (rows + 1) with
           | None => Ret (inl STATUS_LIMIT)
           | Some rows => count_rows fuel src eol header fields selected expected max_rows pos rows normalized
           end
    end
  end.

(** The second pass: its state is memory, the text cursor and, without a header, the end of
    the last column. *)
Definition visit_fill (src : bytes) (src_ptr header : Z) (fields : list CsvField) (selected : list (option nat)) (offsets : list Z)
    (base rows row : Z) (ordinal : nat) (cell : Cell) (s : Memory * Z * Z) : res (Z + Memory * Z * Z) :=
  let '(m, text, absent_off) := s in
  match column_field header selected ordinal with
  | None => Ret (inr s)
  | Some index =>
    let* field := unwrap (fields !! index) in
    match field_width (tag field) with
    | None => Ret (inl STATUS_BAD_ABI)
    | Some width =>
      let* column :=
        (if header =? HEADER_PRESENT then let* col := unwrap (offsets !! index) in Ret (Some (col, absent_off))
         else Ret (col ← soa_column_start absent_off width (ordinal =? 0)%nat;
                   size ← checked_usize (rows * width);
                   next ← checked_usize (col + size);
                   Some (col, next))) in
      match column with
      | None => Ret (inl STATUS_BAD_ABI)
      | Some (col, absent_off) =>
        let* r := write_cell cell src src_ptr field (base + (col + row * width)) m text in
        Ret (match r with Some (m, text) => inr (m, text, absent_off) | None => inl STATUS_BAD_ABI end)
      end
    end
  end.
Fixpoint fill_rows (count : nat) (src : bytes) (src_ptr eol header : Z) (fields : list CsvField) (selected : list (option nat))
    (expected : nat) (offsets : list Z) (base rows row : Z) (pos : nat) (m : Memory) (text : Z) : res (nat * Memory * Z) :=
  match count with
  | O => Ret (pos, m, text)
  | S count =>
    let* r := record src eol None (visit_fill src src_ptr header fields selected offsets base rows row) pos (m, text, 0) in
    match r with
    | inr (Some columns, pos, (m, text, _)) =>
        if (columns =? expected)%nat then fill_rows count src src_ptr eol header fields selected expected offsets base rows (row + 1) pos m text
        else Panic
    | _ => Panic
    end
  end.

(** ** The entry point *)
(** From the checked source on: a status, the arena and memory. *)
Definition decode_source (heap : list ArenaChunk → Z → option Z) (src : bytes) (src_ptr : Z) (fields : list CsvField) (header eol max_rows out : Z)
    (arena : Arena) (m : Memory) : res (Z * Arena * Memory) :=
  let* start := (if header =? HEADER_PRESENT then read_header src eol fields m
                 else Ret (inr (0%nat, replicate HEADER_CAP None, parser_start src))) in
  match start with
  | inl e => Ret (e, arena, m)
  | inr (header_count, selected, data_start) =>
    let expected := if header =? HEADER_PRESENT then header_count else length fields in
    let* counted := count_rows (S (length src)) src eol header fields selected expected max_rows data_start 0 0 in
    match counted with
    | inl e => Ret (e, arena, m)
    | inr (rows, normalized) =>
      match column_layout fields rows with
      | None => Ret (STATUS_LIMIT, arena, m)
      | Some (columns_bytes, align) =>
        match (total ← checked_usize (columns_bytes + normalized); if total <=? ISIZE_MAX then Some total else None) with
        | None => Ret (STATUS_LIMIT, arena, m)
        | Some total =>
          if rows =? 0 then Ret (STATUS_OK, arena, m)
          else
            let* '(base, arena, m) := alloc_zeroed heap total align arena m in
            let* offsets := (if header =? HEADER_PRESENT then column_offsets fields true rows 0 else Ret []) in
            let* '(pos, m, text) :=
              fill_rows (Z.to_nat rows) src src_ptr eol header fields selected expected offsets base rows 0 data_start m (base + columns_bytes) in
            if negb (pos =? length src)%nat || negb (text =? base + total) then Panic
            else Ret (STATUS_OK, arena, store out (str_bytes base rows) m)
        end
      end
    end
  end.

(** [arena_ptr] is the handle, [arena] what it points to. *)
Definition align_rt_csv_decode_soa_v1 (heap : list ArenaChunk → Z → option Z) (input input_len fields n_fields arena_ptr header line_ending max_rows out : Z)
    (arena : Arena) (m : Memory) : res (Z * Arena * Memory) :=
  if (out =? 0) || negb (out mod 8 =? 0) || (arena_ptr =? 0) || negb (arena_ptr mod 8 =? 0) then Ret (STATUS_BAD_ABI, arena, m)
  else
    let m := store out (str_bytes 0 0) m in
    if negb ((header =? HEADER_PRESENT) || (header =? HEADER_ABSENT)) || negb ((line_ending =? EOL_CRLF) || (line_ending =? EOL_LF)) || (max_rows <? 0)
    then Ret (STATUS_INVALID, arena, m)
    else
      match checked_slice fields n_fields 32 8 with
      | None => Ret (STATUS_BAD_ABI, arena, m)
      | Some n =>
        let descriptors := map (λ i, load_field (fields + 32 * Z.of_nat i) m) (seq 0 (Z.to_nat n)) in
        let* valid := validate_descriptors descriptors m in
        if negb valid then Ret (STATUS_BAD_ABI, arena, m)
        else
          match safe_len input_len with
          | None => Ret (STATUS_BAD_ABI, arena, m)
          | Some len =>
            if (0 <? len) && (input =? 0) then Ret (STATUS_BAD_ABI, arena, m)
            else if USIZE_MAX <? input + len then Ret (STATUS_BAD_ABI, arena, m)
            else
              let src := load input (Z.to_nat len) m in
              if bool_decide (from_utf8 src = None) then Ret (STATUS_BAD_ABI, arena, m)
              else decode_source heap src input descriptors header line_ending max_rows out arena m
          end
      end.
End Search.

(** A [memchr] and a [memchr3] to run the definitions with. *)
Definition memchr_ref (c : Z) (l : bytes) : option nat := find_byte (Z.eqb c) l.
Definition memchr3_ref (a b c : Z) (l : bytes) : option nat := find_byte (λ x, (x =? a) || (x =? b) || (x =? c)) l.

(** ** Vectors *)
(** The caller's memory: the text at 1024, the descriptors at 2048, the names at 3072. *)
Definition place_fields (fields : list (bytes * Z)) (m : Memory) : Memory :=
  fst (fold_left (λ '(m, (i, at_)) '(name, tag),
    let hash := match wyhash name 0 with Ret h => h | _ => 0 end in
    (store at_ name (store (2048 + 32 * i) (le_bytes 8 at_ ++ le_bytes 8 (Z.of_nat (length name)) ++ le_bytes 8 hash ++ le_bytes 4 tag ++ le_bytes 4 0) m),
     (i + 1, at_ + Z.of_nat (length name)))) fields (m, (0, 3072))).
Definition run_csv (text : bytes) (fields : list (bytes * Z)) (header eol max_rows : Z) : res (Z * Z * Z * Memory) :=
  let m := place_fields fields (store 1024 text (λ _, 0)) in
  let* '(status, _, m) := align_rt_csv_decode_soa_v1 memchr_ref memchr3_ref next_block 1024 (Z.of_nat (length text)) 2048 (Z.of_nat (length fields))
    256 header eol max_rows 512 align_rt_arena_begin m in
  Ret (status, load_u64 512 m, load_i64 520 m, m).
Definition I64_TAG : Z := 0x10008.
Definition STR_TAG : Z := 0x310.
Definition CHAR_TAG : Z := 0x404.
Definition F32_TAG : Z := 0x204.
Definition two_fields : list (bytes * Z) := [(str "x", I64_TAG); (str "name", STR_TAG)].
Definition quoted_text : bytes := str "name,x" ++ [10; dquote] ++ str "a" ++ [dquote; dquote] ++ str "b" ++ [dquote] ++ str ",-5" ++ [10] ++ str "q,7" ++ [10].

Example decode_vector :
  (let* '(status, ptr, rows, m) := run_csv quoted_text two_fields HEADER_PRESENT EOL_LF 10 in
   Ret (status, ptr, rows, load_i64 ptr m, load_i64 (ptr + 8) m, load (load_u64 (ptr + 16) m) (Z.to_nat (load_i64 (ptr + 24) m)) m,
        load (load_u64 (ptr + 32) m) (Z.to_nat (load_i64 (ptr + 40) m)) m)) =
  Ret (0, 4096, 2, -5, 7, str "a" ++ [dquote] ++ str "b", str "q").
Proof. vm_compute. reflexivity. Qed.
Definition status_of (r : res (Z * Z * Z * Memory)) : res (Z * Z * Z) := let* '(s, p, n, _) := r in Ret (s, p, n).
Example refusal_vectors :
  map (λ '(s, header, max_rows), status_of (run_csv (str s) two_fields header EOL_LF max_rows))
    [("", HEADER_PRESENT, 1); ("x,y", HEADER_PRESENT, 1); ("x,name,x", HEADER_PRESENT, 1); ("name,x", HEADER_PRESENT, 0);
     ("1,a", HEADER_ABSENT, 0); ("1,a,2", HEADER_ABSENT, 1); ("1", HEADER_ABSENT, 1); ("1x,a", HEADER_ABSENT, 1)]%string =
  map (λ s, Ret (s, 0, 0)) [1; 1; 1; 0; 2; 1; 1; 1].
Proof. vm_compute. reflexivity. Qed.
Example value_vectors :
  map (λ s, parse_float 4 (str s)) ["1.5"; "-0"; "1e400"; "16777217"; "1e-46"; "1."]%string =
    [Some 0x3fc00000; Some 0x80000000; Some 0x7f800000; Some 0x4b800000; Some 0; Some 0x3f800000] ∧
  map (λ s, parse_integer (str s) true 1) ["127"; "128"; "-128"; "-129"; "-0"; "+1"; "007"]%string =
    [Some 127; None; Some 128; None; Some 0; None; Some 7].
Proof. vm_compute. done. Qed.
