(* ===== verification/CsvSpec.v ===== *)
(** * The grammar of CSV and the record parser

    RFC 4180 as a grammar on texts, and the parser against it: the bulk searches find
    the first byte they look for, a cell decodes to the field it stands for in every
    way the code decodes it, and a record is read exactly when the text starts with
    one.  [traced] is what the rest of the development uses of the parser. *)
From Stdlib Require Import ZArith Lia FunctionalExtensionality.
From S2P Require Import Prelude Utf8 Text Hash TimeFormats TimeMemory Encoding EncodingSpec EscapeSpec Arena Csv.
Local Open Scope Z_scope.

(** ** The grammar *)
Definition eol_bytes (eol : Z) : bytes := if eol =? EOL_LF then [10] else [13; 10].
(** A field's text between quotes. *)
Definition double (d : bytes) : bytes := concat (map (λ b, if b =? dquote then [dquote; dquote] else [b]) d).
(** What a field must be followed by: a comma, a line ending or the end. *)
Definition field_end (eol : Z) (rest : bytes) : Prop :=
  rest = [] ∨ (∃ l, rest = ","%u8 :: l) ∨ ∃ l, rest = eol_bytes eol ++ l.
(** [l] is a field that stands for [d], and [rest]. *)
Inductive is_field (eol : Z) : bytes → bytes → bytes → Prop :=
  | field_quoted d rest : (∀ l, rest ≠ dquote :: l) → is_field eol (dquote :: double d ++ dquote :: rest) d rest
  | field_plain d rest : Forall (λ b, is_boundary b = false) d → field_end eol rest → is_field eol (d ++ rest) d rest.
(** [l] is a record of the fields [ds], and [rest]. *)
Inductive is_record (eol : Z) : bytes → list bytes → bytes → Prop :=
  | record_last l d : is_field eol l d [] → is_record eol l [d] []
  | record_eol l d rest : is_field eol l d (eol_bytes eol ++ rest) → is_record eol l [d] rest
  | record_more l d l' ds rest : is_field eol l d (","%u8 :: l') → is_record eol l' ds rest → is_record eol l (d :: ds) rest.
(** [l] is a table of the given rows. *)
Inductive is_table (eol : Z) : bytes → list (list bytes) → Prop :=
  | table_nil : is_table eol [] []
  | table_row l row rest rows : l ≠ [] → is_record eol l row rest → is_table eol rest rows → is_table eol l (row :: rows).

(** ** Searches *)
Lemma first_hit_find p l o : first_hit p l o → o = find_byte p l.
Proof.
  revert o. induction l as [|b l IH]; intros [i|] H; simpl in *.
  - destruct H as [(b & ? & _) _]. done.
  - done.
  - destruct H as [(x & Hx & Hp) Hf]. destruct i as [|i]; simpl in *; [by simplify_eq; rewrite Hp|].
    apply Forall_cons in Hf as [-> Hf]. by rewrite <-(IH (Some i)) by (split; [by exists x|done]).
  - apply Forall_cons in H as [-> H]. by rewrite <-(IH None).
Qed.
Lemma find_byte_app p a b : find_byte p (a ++ b) = match find_byte p a with Some i => Some i | None => Nat.add (length a) <$> find_byte p b end.
Proof.
  induction a as [|x a IH]; simpl; [by destruct (find_byte p b)|]. destruct (p x); [done|]. rewrite IH. destruct (find_byte p a); [done|]. by destruct (find_byte p b).
Qed.
Lemma find_byte_ext p q l : (∀ b, p b = q b) → find_byte p l = find_byte q l.
Proof. intros H. induction l as [|b l IH]; simpl; [done|]. by rewrite H, IH. Qed.
Lemma find_byte_lt p l i : find_byte p l = Some i → (i < length l)%nat.
Proof. intros H. pose proof (find_byte_hit p l) as Hh. rewrite H in Hh. destruct Hh as [(b & Hb & _) _]. by eapply lookup_lt_Some. Qed.
(** The first of either kind, by the first of one and the first of the other before it. *)
Lemma find_byte_either p q l :
  find_byte (λ b, p b || q b) l =
  match find_byte q (take (default (length l) (find_byte p l)) l) with Some i => Some i | None => find_byte p l end.
Proof.
  induction l as [|b l IH]; simpl; [done|]. destruct (p b); simpl; [done|]. rewrite IH.
  destruct (find_byte p l) as [i|]; simpl; (destruct (q b); [done|]); destruct (find_byte q _); done.
Qed.

Section Search.
Context (memchr : Z → bytes → option nat) (memchr3 : Z → Z → Z → bytes → option nat).
(** What the crate documents: the index of the first occurrence. *)
Context (Hmemchr : ∀ c l, first_hit (λ b, b =? c) l (memchr c l)).
Context (Hmemchr3 : ∀ a b c l, first_hit (λ x, (x =? a) || (x =? b) || (x =? c)) l (memchr3 a b c l)).
Abbreviation next_quote := (next_quote memchr).

Lemma prefix_find p l : find_byte p l = match find_byte p (take PREFIX l) with Some i => Some i | None => if (length l <=? PREFIX)%nat then None else Nat.add PREFIX <$> find_byte p (drop PREFIX l) end.
Proof.
  rewrite <-(take_drop PREFIX l) at 1. rewrite find_byte_app. destruct (find_byte p (take PREFIX l)); [done|]. destruct (Nat.leb_spec (length l) PREFIX).
  - by rewrite drop_ge by done.
  - by rewrite length_take_le by lia.
Qed.
Lemma next_quote_find l : next_quote l = find_byte (λ b, b =? dquote) l.
Proof. unfold Csv.next_quote. by rewrite (prefix_find _ l), <-(first_hit_find _ _ _ (Hmemchr dquote (drop PREFIX l))). Qed.

Lemma boundary_chunks_find cs offset : boundary_chunks memchr memchr3 cs offset = Ret (Nat.add offset <$> find_byte is_boundary (concat cs)).
Proof.
  revert offset. induction cs as [|c cs IH]; intros offset; cbn [boundary_chunks concat]; [done|].
  set (p := λ x, (x =? ","%u8) || (x =? 13) || (x =? 10)). rewrite (first_hit_find p _ _ (Hmemchr3 ","%u8 13 10 c)).
  assert (default (length c) (find_byte p c) ≤ length c)%nat as Hle. { destruct (find_byte p c) as [i|] eqn:H; simpl; [apply find_byte_lt in H; lia|lia]. }
  rewrite slice_res_ok by lia. cbn [res_bind]. unfold slice. rewrite drop_0, Nat.sub_0_r.
  rewrite (first_hit_find _ _ _ (Hmemchr dquote _)), find_byte_app.
  assert (find_byte is_boundary c = match find_byte (λ b, b =? dquote) (take (default (length c) (find_byte p c)) c) with Some i => Some i | None => find_byte p c end) as ->.
  { rewrite <-(find_byte_either p (λ b, b =? dquote)). by apply find_byte_ext. }
  destruct (find_byte (λ b, b =? dquote) _) as [i|]; [done|]. destruct (find_byte p c) as [i|] eqn:Hp; simpl default.
  - rewrite (proj2 (Nat.ltb_lt _ _)) by (by apply find_byte_lt in Hp). done.
  - rewrite Nat.ltb_irrefl, IH. f_equal. destruct (find_byte is_boundary (concat cs)); simpl; [|done]. f_equal. lia.
Qed.
Lemma next_boundary_find l : next_unquoted_boundary memchr memchr3 l = Ret (find_byte is_boundary l).
Proof.
  unfold next_unquoted_boundary. rewrite (prefix_find _ l). destruct (find_byte is_boundary _); [done|]. case_if; [done|].
  unfold unquoted_boundary_tail. rewrite boundary_chunks_find, slice_chunks_concat by lia. cbn [res_bind]. by destruct (find_byte is_boundary _).
Qed.

(** ** Quoted text *)
Definition is_quote (b : Z) : bool := b =? dquote.
Fixpoint ref_quoted (l : bytes) : option (bytes * bytes) :=
  match l with
  | [] => None
  | b :: l' =>
      if is_quote b then
        match l' with
        | b' :: l'' => if is_quote b' then '(d, rest) ← ref_quoted l''; Some (dquote :: d, rest) else Some ([], l')
        | [] => Some ([], [])
        end
      else '(d, rest) ← ref_quoted l'; Some (b :: d, rest)
  end.
Lemma double_cons b d : double (b :: d) = (if is_quote b then [dquote; dquote] else [b]) ++ double d.
Proof. done. Qed.
Lemma double_app a b : double (a ++ b) = double a ++ double b.
Proof. unfold double. by rewrite map_app, concat_app. Qed.
Lemma double_plain d : Forall (λ b, is_quote b = false) d → double d = d.
Proof. induction 1 as [|b d Hb _ IH]; [done|]. rewrite double_cons, Hb, IH. done. Qed.
Lemma double_length d : (length d ≤ length (double d))%nat.
Proof. induction d as [|b d IH]; [done|]. rewrite double_cons, length_app. destruct (is_quote b); simpl; lia. Qed.

Lemma ref_quoted_double d rest : (∀ l, rest ≠ dquote :: l) → ref_quoted (double d ++ dquote :: rest) = Some (d, rest).
Proof.
  intros Hr. induction d as [|b d IH].
  - simpl. destruct rest as [|b rest]; [done|]. destruct (is_quote b) eqn:Hb; [|done]. apply Z.eqb_eq in Hb as ->. by destruct (Hr rest).
  - rewrite double_cons. destruct (is_quote b) eqn:Hb.
    + apply Z.eqb_eq in Hb as ->. cbn. by rewrite IH.
    + cbn. by rewrite Hb, IH.
Qed.
Lemma ref_quoted_inv l d rest : ref_quoted l = Some (d, rest) → l = double d ++ dquote :: rest ∧ ∀ l', rest ≠ dquote :: l'.
Proof.
  remember (length l) as n eqn:Hn. revert l Hn d rest. induction n as [n IH] using lt_wf_ind. intros l -> d rest.
  destruct l as [|b l]; [done|]. cbn [ref_quoted]. destruct (is_quote b) eqn:Hb.
  - apply Z.eqb_eq in Hb as ->. destruct l as [|b' l]; [by intros [= <- <-]|]. destruct (is_quote b') eqn:Hb'.
    + apply Z.eqb_eq in Hb' as ->. destruct (ref_quoted l) as [[d' r']|] eqn:Hl; [|done]. intros [= <- <-].
      apply (IH (length l)) in Hl as [-> Hr]; [|simpl; lia|done]. split; [done|exact Hr].
    + intros [= <- <-]. split; [done|]. intros l' [= -> _]. done.
  - destruct (ref_quoted l) as [[d' r']|] eqn:Hl; [|done]. intros [= <- <-]. apply (IH (length l)) in Hl as [-> Hr]; [|simpl; lia|done].
    rewrite double_cons, Hb. split; [done|exact Hr].
Qed.
Lemma ref_quoted_skip a l : Forall (λ b, is_quote b = false) a → ref_quoted (a ++ l) = '(d, rest) ← ref_quoted l; Some (a ++ d, rest).
Proof.
  induction 1 as [|b a Hb _ IH]; simpl; [by destruct (ref_quoted l) as [[??]|]|]. rewrite Hb, IH. by destruct (ref_quoted l) as [[??]|].
Qed.

(** The bytes before the first quote, and the rest. *)
Lemma quote_split l : let n := default (length l) (find_byte is_quote l) in
  Forall (λ b, is_quote b = false) (take n l) ∧ (n = length l ∨ ∃ r, drop n l = dquote :: r).
Proof.
  pose proof (find_byte_hit is_quote l) as H. destruct (find_byte is_quote l) as [i|]; simpl in *.
  - destruct H as [(b & Hb & ->%Z.eqb_eq) Hf]. split; [done|]. right. exists (drop (S i) l). by apply drop_S.
  - rewrite take_ge by done. by split; [|left].
Qed.

Lemma drop_lookup {A} (l : list A) i x r : drop i l = x :: r → l !! i = Some x ∧ drop (i + 1) l = r ∧ (i < length l)%nat.
Proof.
  intros H. assert (l !! i = Some x) as Hi. { pose proof (lookup_drop l i 0) as E. rewrite H, Nat.add_0_r in E. done. }
  split; [done|]. split; [|by eapply lookup_lt_Some]. rewrite <-drop_drop, H. done.
Qed.
Lemma drop_nil {A} (l : list A) i : drop i l = [] → (length l ≤ i)%nat.
Proof. intros H. apply (f_equal length) in H. rewrite length_drop in H. simpl in H. lia. Qed.
Lemma suffix_pos {A} (src : list A) pos n : (pos + n ≤ length src)%nat → (length src - length (drop n (drop pos src)) = pos + n)%nat.
Proof. intros H. rewrite drop_drop, length_drop. lia. Qed.

(** The quoted loop ends at the closing quote, and sees whether a quote was doubled. *)
Lemma quoted_loop_ref fuel src pos esc : (length src - pos < fuel)%nat → (pos ≤ length src)%nat →
  quoted_loop memchr fuel src pos esc =
  Ret ('(d, rest) ← ref_quoted (drop pos src); Some ((length src - length rest - 1)%nat, esc || existsb is_quote d)).
Proof.
  revert pos esc. induction fuel as [|fuel IH]; intros pos esc Hf Hp; [lia|]. cbn [quoted_loop].
  destruct (src !! pos) as [byte|] eqn:Hb.
  2: { rewrite drop_ge by (by apply lookup_ge_None). done. }
  cbv zeta. rewrite next_quote_find. change (λ b, b =? dquote) with is_quote. change (byte =? dquote) with (is_quote byte).
  set (q := if negb (is_quote byte) then (pos + default (length (drop pos src)) (find_byte is_quote (drop pos src)))%nat else pos).
  assert (∃ a, drop pos src = a ++ drop q src ∧ Forall (λ b, is_quote b = false) a ∧ q = (pos + length a)%nat ∧ (q = length src ∨ ∃ r, drop q src = dquote :: r)) as (a & Ha & Hfa & Hq & Hend).
  { unfold q. apply drop_S in Hb as Hd. destruct (is_quote byte) eqn:E; cbn [negb].
    - exists []. apply Z.eqb_eq in E as ->. split_and!; [done|constructor|simpl; lia|right; by eexists].
    - destruct (quote_split (drop pos src)) as [H1 H2]. set (n := default _ _) in *. exists (take n (drop pos src)).
      rewrite <-drop_drop. rewrite take_drop. assert (n ≤ length (drop pos src))%nat as Hn.
      { unfold n. destruct (find_byte is_quote (drop pos src)) as [i|] eqn:Hi; simpl; [apply find_byte_lt in Hi; lia|lia]. }
      split_and!; [done|done|rewrite length_take_le by done; lia|]. destruct H2 as [H2|[r H2]]; [left; rewrite length_drop in *; lia|right].
      by exists r. }
  rewrite Ha, ref_quoted_skip by done. clearbody q. destruct Hend as [He|[r Hr]].
  - assert (is_quote byte = false) as E.
    { destruct a as [|x a]; simpl in *; [|apply Forall_cons in Hfa as [? _]]; apply drop_S in Hb; [|congruence].
      rewrite Hb in Ha. apply lookup_lt_Some in Hb as ? || idtac. apply (f_equal length) in Ha. rewrite He, drop_all in Ha. simpl in Ha. lia. }
    rewrite E, He, Nat.eqb_refl. cbn [negb andb]. rewrite drop_all. done.
  - apply drop_lookup in Hr as Hl. destruct Hl as (Hl & Hl2 & Hlt). replace (q =? length src)%nat with false by (symmetry; apply Nat.eqb_neq; lia).
    rewrite andb_false_r. rewrite Hr. cbn [ref_quoted]. change (is_quote dquote) with true. cbn [mbind option_bind].
    assert (existsb is_quote a = false) as Hex. { clear -Hfa. induction Hfa as [|b a H _ IH]; simpl; [done|]. by rewrite H. }
    destruct r as [|b' r].
    + rewrite lookup_ge_None_2 by (apply drop_nil in Hl2; lia). rewrite bool_decide_false by done. cbn. rewrite app_nil_r, Hex, orb_false_r.
      apply drop_nil in Hl2. repeat f_equal. lia.
    + apply drop_lookup in Hl2 as (Hb' & Hl3 & Hlt2). rewrite Hb'. destruct (is_quote b') eqn:Eb.
      * apply Z.eqb_eq in Eb as ->. rewrite bool_decide_true by done. rewrite IH by lia. replace (q + 2)%nat with (q + 1 + 1)%nat by lia. rewrite Hl3.
        destruct (ref_quoted r) as [[d rest]|]; cbn [mbind option_bind]; [|done].
        rewrite existsb_app. cbn. change (is_quote dquote) with true. by rewrite !orb_true_r.
      * rewrite bool_decide_false by (intros [= ->]; done). cbn. rewrite app_nil_r, Hex, orb_false_r.
        assert (length r = length src - (q + 1 + 1))%nat as Hlen by (rewrite <-Hl3, length_drop; lia).
        cbn [length]. repeat f_equal. lia.
Qed.

(** ** Plain text *)
Definition eol_ok (eol : Z) : Prop := eol = EOL_LF ∨ eol = EOL_CRLF.
Definition eol_at (eol : Z) (l : bytes) : option (option nat) :=
  match l with
  | 10 :: _ => if eol =? EOL_LF then Some (Some 1%nat) else None
  | 13 :: r => if eol =? EOL_LF then None else match r with 10 :: _ => Some (Some 2%nat) | _ => None end
  | _ => Some None
  end.
Lemma at_eol_drop src eol p : eol_ok eol → at_eol src eol p = eol_at eol (drop p src).
Proof.
  intros He. unfold at_eol, eol_at. destruct (src !! p) as [b|] eqn:Hb.
  - apply drop_S in Hb as ->. destruct He as [-> | ->]; cbn.
    + repeat case_match; done.
    + assert (src !! (p + 1)%nat = head (drop (S p) src)) as ->.
      { rewrite Nat.add_1_r, <-(Nat.add_0_r (S p)), <-lookup_drop, Nat.add_0_r. by destruct (drop (S p) src). }
      destruct (drop (S p) src) as [|c r]; cbn; repeat (case_match || case_bool_decide); simplify_eq; done.
  - rewrite drop_ge by (by apply lookup_ge_None). by destruct He as [-> | ->].
Qed.
Lemma eol_at_bytes eol l n : eol_ok eol → eol_at eol l = Some (Some n) ↔ n = length (eol_bytes eol) ∧ ∃ r, l = eol_bytes eol ++ r.
Proof.
  intros He. split.
  - unfold eol_at, eol_bytes. intros H. destruct He as [-> | ->]; cbn in *; repeat case_match; simplify_eq; (split; [done|]); by eexists.
  - intros [-> [r ->]]. by destruct He as [-> | ->].
Qed.
Lemma eol_at_plain eol b l : is_boundary b = false → eol_at eol (b :: l) = Some None.
Proof. unfold is_boundary, eol_at. intros H. repeat case_match; simplify_eq; done. Qed.
Lemma eol_at_other eol b l : eol_at eol (b :: l) = Some None → b ≠ 10 ∧ b ≠ 13.
Proof. unfold eol_at. intros H. split; intros ->; repeat case_match; done. Qed.

Fixpoint ref_plain (eol : Z) (l : bytes) : option nat :=
  match l with
  | [] => Some 0%nat
  | b :: l' =>
      if b =? ","%u8 then Some 0%nat
      else match eol_at eol l with
           | None => None
           | Some (Some _) => Some 0%nat
           | Some None => if is_quote b then None else S <$> ref_plain eol l'
           end
  end.
Lemma ref_plain_skip eol a l : Forall (λ b, is_boundary b = false) a → ref_plain eol (a ++ l) = Nat.add (length a) <$> ref_plain eol l.
Proof.
  induction 1 as [|b a Hb _ IH]; cbn [ref_plain app length]; [by destruct (ref_plain eol l)|]. rewrite eol_at_plain by done.
  unfold is_boundary in Hb. apply orb_false_iff in Hb as [Hb Hq]. apply orb_false_iff in Hb as [Hb _]. apply orb_false_iff in Hb as [-> _].
  unfold is_quote. rewrite Hq, IH. by destruct (ref_plain eol l).
Qed.
Lemma ref_plain_iff eol l n : eol_ok eol →
  ref_plain eol l = Some n ↔ ∃ d rest, l = d ++ rest ∧ length d = n ∧ Forall (λ b, is_boundary b = false) d ∧ field_end eol rest.
Proof.
  intros He. split.
  - revert n. induction l as [|b l IH]; intros n; cbn [ref_plain]; [intros [= <-]; exists [], []; split_and!; [done..|by left]|].
    destruct (Z.eqb_spec b ","%u8) as [->|Hc].
    { intros [= <-]. exists [], (","%u8 :: l). split_and!; [done..|]. right. left. by eexists. }
    destruct (eol_at eol (b :: l)) as [[k|]|] eqn:Hk; [| |done].
    { intros [= <-]. apply (eol_at_bytes _ _ _ He) in Hk as [_ [r Hr]]. exists [], (b :: l). split_and!; [done..|]. right. right. by exists r. }
    destruct (is_quote b) eqn:Hq; [done|]. destruct (ref_plain eol l) as [k|]; [|done]. intros [= <-].
    destruct (IH k eq_refl) as (d & rest & -> & <- & Hd & Hr). apply eol_at_other in Hk as [H10 H13].
    exists (b :: d), rest. split_and!; [done..| |done]. constructor; [|done]. unfold is_boundary. change (b =? dquote) with (is_quote b).
    by rewrite Hq, !(proj2 (Z.eqb_neq _ _)).
  - intros (d & rest & -> & <- & Hd & Hr). rewrite ref_plain_skip by done.
    assert (ref_plain eol rest = Some 0%nat) as ->; [|simpl; by rewrite Nat.add_0_r]. destruct Hr as [->|[[l ->]|[l ->]]]; [done..|].
    by destruct He as [-> | ->].
Qed.

Lemma unquoted_loop_ref fuel src eol pos : eol_ok eol → (length src - pos < fuel)%nat → (pos ≤ length src)%nat →
  unquoted_loop memchr memchr3 fuel src eol pos = Ret (Nat.add pos <$> ref_plain eol (drop pos src)).
Proof.
  intros He. revert pos. induction fuel as [|fuel IH]; intros pos Hf Hp; [lia|]. cbn [unquoted_loop].
  destruct (src !! pos) as [b|] eqn:Hb.
  2: { rewrite drop_ge by (by apply lookup_ge_None). simpl. by rewrite Nat.add_0_r. }
  apply lookup_lt_Some in Hb as Hlt. rewrite at_eol_drop, next_boundary_find by done. apply drop_S in Hb. cbn [res_bind].
  destruct (b =? ","%u8) eqn:Hc; [rewrite Hb; cbn [ref_plain]; rewrite Hc; simpl; by rewrite Nat.add_0_r|].
  destruct (eol_at eol (drop pos src)) as [[k|]|] eqn:Hk.
  - rewrite Hb in *. cbn [ref_plain]. rewrite Hc, Hk. simpl. by rewrite Nat.add_0_r.
  - change (b =? dquote) with (is_quote b). destruct (is_quote b) eqn:Hq.
    { rewrite Hb in *. cbn [ref_plain]. by rewrite Hc, Hk, Hq. }
    set (n := default (length (drop pos src)) (find_byte is_boundary (drop pos src))).
    assert (Forall (λ b, is_boundary b = false) (take n (drop pos src)) ∧ n ≤ length (drop pos src))%nat as [Hn Hle].
    { unfold n. pose proof (first_hit_prefix _ _ _ (find_byte_hit is_boundary (drop pos src))) as [??]. done. }
    assert (0 < n)%nat as Hpos.
    { unfold n. rewrite Hb in *. cbn [find_byte]. apply eol_at_other in Hk as [H10 H13]. unfold is_boundary at 1. change (b =? dquote) with (is_quote b).
      rewrite Hc, Hq, !(proj2 (Z.eqb_neq _ _)) by done. clear. destruct (find_byte is_boundary (drop (S pos) src)); cbn; lia. }
    rewrite length_drop in Hle. rewrite IH by lia. rewrite <-(take_drop n (drop pos src)). rewrite ref_plain_skip by done.
    rewrite drop_drop, length_take_le by (rewrite length_drop; lia). destruct (ref_plain eol (drop (pos + n) src)); simpl; [|done]. do 2 f_equal. lia.
  - rewrite Hb in *. cbn [ref_plain]. by rewrite Hc, Hk.
Qed.

(** ** Cells *)
(** A cell of the source that stands for [d]: between quotes with quotes doubled, or as it is. *)
Definition cell_ok (src : bytes) (cell : Cell) (d : bytes) : Prop :=
  (c_start cell ≤ c_end cell ≤ length src)%nat ∧ slice (c_start cell) (c_end cell) src = double d ∧ escaped cell = existsb is_quote d.

Definition ref_field (eol : Z) (l : bytes) : option (bytes * bytes) :=
  match l with
  | b :: l' => if is_quote b then ref_quoted l' else n ← ref_plain eol l; Some (take n l, drop n l)
  | [] => Some ([], [])
  end.
Lemma ref_field_iff eol l d rest : eol_ok eol → ref_field eol l = Some (d, rest) ↔ is_field eol l d rest.
Proof.
  intros He. split.
  - destruct l as [|b l]; [intros [= <- <-]; apply (field_plain _ [] []); [constructor|by left]|]. cbn [ref_field]. destruct (is_quote b) eqn:Hq.
    + apply Z.eqb_eq in Hq as ->. intros [-> Hr]%ref_quoted_inv. by constructor.
    + destruct (ref_plain eol (b :: l)) as [n|] eqn:Hn; [|done]. intros [= <- <-]. apply ref_plain_iff in Hn as (d & rest & -> & <- & Hd & Hr); [|done].
      rewrite take_app_length, drop_app_length. by constructor.
  - intros [d' rest' Hr|d' rest' Hd Hr].
    + cbn [ref_field]. change (is_quote dquote) with true. by apply ref_quoted_double.
    + assert (ref_plain eol (d' ++ rest') = Some (length d')) as Hn by (apply ref_plain_iff; [done|]; by exists d', rest').
      destruct (d' ++ rest') as [|b l0] eqn:E; [by apply app_eq_nil in E as [-> ->]|]. cbn [ref_field].
      assert (is_quote b = false) as ->.
      { destruct d' as [|b' d']; simpl in *; [|injection E as -> _; apply Forall_cons in Hd as [Hd _]; unfold is_boundary in Hd; by apply orb_false_iff in Hd as [_ Hd]].
        subst rest'. destruct Hr as [?|[[? [= -> _]]|[r Hr]]]; [done..|]. destruct He as [-> | ->]; by injection Hr as -> _. }
      rewrite Hn. cbn [mbind option_bind]. by rewrite <-E, take_app_length, drop_app_length.
Qed.

Lemma boundary_no_quote d : Forall (λ b, is_boundary b = false) d → Forall (λ b, is_quote b = false) d.
Proof. intros H. eapply Forall_impl; [exact H|]. intros b Hb. unfold is_boundary in Hb. by apply orb_false_iff in Hb as [_ Hb]. Qed.
Lemma no_quote_existsb d : Forall (λ b, is_quote b = false) d ↔ existsb is_quote d = false.
Proof.
  induction d as [|b d IH]; simpl; [by split|]. rewrite orb_false_iff, Forall_cons. by rewrite IH.
Qed.
Lemma slice_drop_app (src a r : bytes) p : drop p src = a ++ r → slice p (p + length a) src = a.
Proof. intros H. unfold slice. rewrite H, Nat.add_comm, Nat.add_sub, take_app_length. done. Qed.

(** A cell is read exactly when a field stands there. *)
Lemma next_cell_ref src eol pos : eol_ok eol → (pos ≤ length src)%nat →
  match ref_field eol (drop pos src) with
  | None => next_cell memchr memchr3 src eol pos = Ret None
  | Some (d, rest) => ∃ cell pos', next_cell memchr memchr3 src eol pos = Ret (Some (cell, pos')) ∧
      rest = drop pos' src ∧ cell_ok src cell d ∧ (pos ≤ pos' ≤ length src)%nat ∧ (d = [] ∨ pos < pos')%nat
  end.
Proof.
  intros He Hp. unfold next_cell. destruct (src !! pos) as [b|] eqn:Hb.
  - apply lookup_lt_Some in Hb as Hlt. apply drop_S in Hb as Hd. rewrite Hd. cbn [ref_field]. destruct (is_quote b) eqn:Hq.
    + apply Z.eqb_eq in Hq as ->. rewrite bool_decide_true, quoted_loop_ref by (done || lia). rewrite Nat.add_1_r. cbn [res_bind orb].
      destruct (ref_quoted (drop (S pos) src)) as [[d rest]|] eqn:Hr; cbn [mbind option_bind]; [|done].
      apply ref_quoted_inv in Hr as [Hl _]. apply (f_equal length) in Hl as Hlen. rewrite length_drop, length_app in Hlen. cbn [length] in Hlen.
      pose proof (double_length d) as Hdd. eexists _, _. split; [done|].
      assert (length src - length rest - 1 = S pos + length (double d))%nat as Hend by lia. unfold cell_ok. cbn [c_start c_end escaped]. rewrite Hend. split_and!; [|lia|lia| |done|lia|lia|right; lia].
      * rewrite Nat.add_1_r, <-Nat.add_succ_r, <-drop_drop, Hl. rewrite <-(Nat.add_1_r (length _)), <-drop_drop, drop_app_length. done.
      * by eapply slice_drop_app.
    + rewrite bool_decide_false by (intros [= ->]; done). rewrite unquoted_loop_ref, Hd by (done || lia). cbn [res_bind].
      destruct (ref_plain eol (b :: drop (S pos) src)) as [n|] eqn:Hn; cbn [mbind option_bind fmap option_map option_fmap]; [|done].
      apply ref_plain_iff in Hn as (d & rest & Hl & <- & Hdf & _); [|done]. rewrite <-Hd in Hl |- *. rewrite Hl, take_app_length, drop_app_length.
      apply (f_equal length) in Hl as Hlen. rewrite length_drop, length_app in Hlen. eexists _, _. split; [done|]. unfold cell_ok. cbn [c_start c_end escaped].
      apply boundary_no_quote in Hdf. split_and!; [|lia|lia| | |lia|lia|].
      * by rewrite <-drop_drop, Hl, drop_app_length.
      * rewrite double_plain by done. by eapply slice_drop_app.
      * symmetry. by apply no_quote_existsb.
      * destruct d; [by left|right; simpl; lia].
  - rewrite drop_ge by (by apply lookup_ge_None). cbn [ref_field]. rewrite bool_decide_false by done. rewrite unquoted_loop_ref by (done || lia).
    apply lookup_ge_None in Hb. assert (pos = length src) as -> by lia. rewrite drop_all. cbn [ref_plain fmap option_fmap option_map mbind option_bind res_bind]. rewrite Nat.add_0_r.
    eexists _, _. split; [done|]. unfold cell_ok. cbn [c_start c_end escaped]. rewrite slice_nil, drop_all. split_and!; try done. by left.
Qed.

(** ** Records *)
(** How the scan of a record ends: after it, in a cell that is no field, or after a field
    that nothing may follow. *)
Inductive ending := EndAt (pos : nat) | BadCell | BadEnd.
Definition over_limit (limit : option (nat * Z)) (ordinal : nat) : option Z :=
  if bool_decide (fst <$> limit = Some ordinal) then snd <$> limit else None.
(** What [record] does with the cells of a record and their visitor. *)
Fixpoint run_record {St} (limit : option (nat * Z)) (visit : nat → Cell → St → res (Z + St)) (cells : list (Cell * bytes)) (end_ : ending)
    (ordinal : nat) (s : St) : res (Z + nat * nat * St) :=
  match cells with
  | [] =>
    match end_ with
    | EndAt pos => Ret (inr (ordinal, pos, s))
    | BadCell => Ret (inl (default STATUS_INVALID (over_limit limit ordinal)))
    | BadEnd => Ret (inl STATUS_INVALID)
    end
  | (cell, _) :: cells =>
    match over_limit limit ordinal with
    | Some status => Ret (inl status)
    | None =>
      let* v := visit ordinal cell s in
      match v with inl e => Ret (inl e) | inr s => run_record limit visit cells end_ (S ordinal) s end
    end
  end.
(** The cells from a position on, and how they end. *)
Definition grammatical (src : bytes) (eol : Z) (pos : nat) (cells : list (Cell * bytes)) (end_ : ending) : Prop :=
  match end_ with
  | EndAt pos' => is_record eol (drop pos src) (map snd cells) (drop pos' src) ∧ (pos ≤ pos' ≤ length src)%nat ∧ (pos < length src → pos < pos')%nat
  | _ => ∀ ds rest, ¬ is_record eol (drop pos src) ds rest
  end.
Record traced (src : bytes) (eol : Z) (pos : nat) (cells : list (Cell * bytes)) (end_ : ending) : Prop := {
  tr_cells : Forall (λ p, cell_ok src p.1 p.2) cells;
  tr_count : (length cells ≤ length src - pos + 1)%nat;
  tr_some : match end_ with EndAt _ => cells ≠ [] | _ => True end;
  tr_grammar : grammatical src eol pos cells end_;
  tr_run : ∀ St limit (visit : nat → Cell → St → res (Z + St)) fuel ordinal s,
    (length src - pos < fuel)%nat → Z.of_nat (ordinal + length cells) ≤ USIZE_MAX →
    record_loop memchr memchr3 fuel src eol limit visit ordinal pos s = run_record limit visit cells end_ ordinal s
}.

Lemma is_record_inv eol l ds rest : eol_ok eol → is_record eol l ds rest →
  ∃ d r, ref_field eol l = Some (d, r) ∧
    ((r = [] ∧ ds = [d] ∧ rest = []) ∨ (r = eol_bytes eol ++ rest ∧ ds = [d]) ∨ ∃ l' ds', r = ","%u8 :: l' ∧ ds = d :: ds' ∧ is_record eol l' ds' rest).
Proof.
  intros He [l0 d H|l0 d r H|l0 d l' ds' r H Hr]; apply ref_field_iff in H; try done; eexists _, _; (split; [exact H|]).
  - by left.
  - right. by left.
  - right. right. by eexists _, _.
Qed.

(** One turn of the record loop on the cell [Hc] speaks of: its visit, and the count. *)
Ltac run_step :=
  intros; match goal with |- record_loop _ _ ?f _ _ _ _ _ _ _ = _ => destruct f; [lia|] end; cbn [record_loop run_record];
  match goal with |- context [if bool_decide (fst <$> ?limit = Some ?ordinal) then _ else _] => fold (over_limit limit ordinal) end.
Ltac visit_step Hc :=
  run_step; match goal with |- context [over_limit ?limit ?ordinal] => destruct (over_limit limit ordinal); [done|] end;
  rewrite Hc; cbn [res_bind];
  match goal with |- context [?visit ?ordinal ?cell ?s] =>
    match type of s with ?St => match type of (visit ordinal cell s) with res (Z + St) => destruct (visit ordinal cell s) as [[?|?]| |] end end end;
  cbn [res_bind]; try done; simpl length in *;
  match goal with |- context [USIZE_MAX <? ?n] => destruct (Z.ltb_spec USIZE_MAX n); [lia|] end.
Lemma trace_exists src eol pos : eol_ok eol → (pos ≤ length src)%nat → ∃ cells end_, traced src eol pos cells end_.
Proof.
  intros He. remember (length src - pos)%nat as n eqn:Hn. revert pos Hn. induction n as [n IH] using lt_wf_ind. intros pos -> Hp.
  pose proof (next_cell_ref src eol pos He Hp) as Hc. destruct (ref_field eol (drop pos src)) as [[d rest]|] eqn:Hf.
  2: { exists [], BadCell. split; [constructor|simpl; lia|done| |].
    - intros ds r (d & r' & Hf' & _)%is_record_inv; [congruence|done].
    - run_step. rewrite Hc. by destruct (over_limit limit ordinal). }
  destruct Hc as (cell & pos' & Hc & -> & Hcell & Hpos & Hmove). apply ref_field_iff in Hf as Hfield; [|done].
  assert (∀ ds r, is_record eol (drop pos src) ds r → (drop pos' src = [] ∧ ds = [d] ∧ r = []) ∨ (drop pos' src = eol_bytes eol ++ r ∧ ds = [d]) ∨
    ∃ l' ds', drop pos' src = ","%u8 :: l' ∧ ds = d :: ds' ∧ is_record eol l' ds' r) as Hinv.
  { intros ds r (d' & r' & Hf' & H)%is_record_inv; [|done]. rewrite Hf in Hf'. by injection Hf' as <- <-. }
  destruct (src !! pos') as [b|] eqn:Hb.
  2: { apply lookup_ge_None in Hb. exists [(cell, d)], (EndAt pos'). split; [by constructor|simpl; lia|done| |].
    - split; [|lia]. simpl. rewrite (drop_ge src pos') in * by lia. by apply record_last.
    - visit_step Hc. by rewrite lookup_ge_None_2. }
  apply lookup_lt_Some in Hb as Hlt. apply drop_S in Hb as Hd. destruct (Z.eqb_spec b ","%u8) as [->|Hne].
  - destruct (IH (length src - (pos' + 1))%nat ltac:(lia) (pos' + 1)%nat eq_refl ltac:(lia)) as (cells & end_ & [T1 T2 T3 T4 T5]).
    exists ((cell, d) :: cells), end_. split; [by constructor|simpl; lia|by destruct end_| |].
    + rewrite Nat.add_1_r in T4. destruct end_ as [q| |]; simpl in *.
      * destruct T4 as (T4 & Hq & _). split_and!; [|lia..]. eapply record_more; [|exact T4]. by rewrite <-Hd.
      * intros ds r [(E & _)|[(E & _)|(l' & ds' & E & -> & Hr)]]%Hinv; rewrite Hd in E; [done| |injection E as <-; by eapply T4].
        destruct He as [-> | ->]; done.
      * intros ds r [(E & _)|[(E & _)|(l' & ds' & E & -> & Hr)]]%Hinv; rewrite Hd in E; [done| |injection E as <-; by eapply T4].
        destruct He as [-> | ->]; done.
    + visit_step Hc. rewrite Hb. cbn. apply T5; lia.
  - assert (∀ n, at_eol src eol pos' = Some (Some n) ↔ n = length (eol_bytes eol) ∧ ∃ r, drop pos' src = eol_bytes eol ++ r) as Heol.
    { intros n. rewrite at_eol_drop by done. by apply eol_at_bytes. }
    assert ((∃ r, drop pos' src = eol_bytes eol ++ r) ∨ at_eol src eol pos' = None ∨ at_eol src eol pos' = Some None) as [[r Hr]|Hno].
    { destruct (at_eol src eol pos') as [[n|]|]; [|auto..]. left. by apply (Heol n). }
    + pose proof (proj2 (Heol _) (conj eq_refl (ex_intro _ r Hr))) as Hat. set (n := length (eol_bytes eol)) in *. assert (0 < n)%nat by (by destruct He as [-> | ->]; vm_compute; lia).
      assert (pos' + n ≤ length src)%nat as Hle. { apply (f_equal length) in Hr. rewrite length_drop, length_app in Hr. fold n in Hr. lia. }
      exists [(cell, d)], (EndAt (pos' + n)). split; [by constructor|simpl; lia|done| |].
      * split; [|lia]. simpl. apply record_eol. rewrite <-drop_drop, Hr. unfold n. rewrite drop_app_length, <-Hr. done.
      * visit_step Hc. by rewrite Hb, (proj2 (Z.eqb_neq _ _) Hne), Hat.
    + exists [(cell, d)], BadEnd. split; [by constructor|simpl; lia|done| |].
      * intros ds r [(E & _)|[(E & _)|(l' & ds' & E & _)]]%Hinv; [by rewrite Hd in E| |rewrite Hd in E; by injection E as -> _].
        pose proof (proj2 (Heol _) (conj eq_refl (ex_intro _ r E))). destruct Hno; congruence.
      * visit_step Hc. rewrite Hb, (proj2 (Z.eqb_neq _ _) Hne). by destruct Hno as [-> | ->].
Qed.

Lemma record_traced {St} src eol pos cells end_ limit (visit : nat → Cell → St → res (Z + St)) s :
  traced src eol pos cells end_ → (pos < length src)%nat → Z.of_nat (length src) ≤ ISIZE_MAX →
  record memchr memchr3 src eol limit visit pos s =
  let* r := run_record limit visit cells end_ 0 s in Ret (match r with inl e => inl e | inr (n, pos, s) => inr (Some n, pos, s) end).
Proof.
  intros [_ Hc _ _ Hr] Hp Hlen. unfold record. rewrite (proj2 (Nat.eqb_neq _ _)) by lia. rewrite Hr; [done|lia|]. unfold ISIZE_MAX, USIZE_MAX in *. lia.
Qed.
End Search.
