(* ===== verification/CsvCells.v ===== *)
(** * What a cell decodes to

    Every way the code reads a cell — its length, its chunks, its hash, its bytes, the
    comparison with a name or with another cell, the copy into memory — agrees with the
    field the cell stands for. *)
From Stdlib Require Import ZArith Lia FunctionalExtensionality.
From S2P Require Import Prelude Utf8 Text Hash TimeFormats TimeMemory Encoding EncodingSpec EscapeSpec Arena Csv CsvSpec.
Local Open Scope Z_scope.

(** ** Memory *)
Lemma store_app a x y m : store (a + Z.of_nat (length x)) y (store a x m) = store a (x ++ y) m.
Proof.
  apply functional_extensionality. intros b. unfold store. destruct (Z.leb_spec a b).
  2: { rewrite (proj2 (Z.leb_gt _ _)) by lia. done. }
  destruct (Z.leb_spec (a + Z.of_nat (length x)) b).
  - rewrite lookup_app_r by lia. replace (Z.to_nat (b - a) - length x)%nat with (Z.to_nat (b - (a + Z.of_nat (length x)))) by lia.
    destruct (y !! _); [done|]. simpl. rewrite lookup_ge_None_2 by lia. done.
  - rewrite lookup_app_l by lia. done.
Qed.
Lemma copy_chunks_concat dst at_ cs m : copy_chunks dst at_ cs m = ((at_ + length (concat cs))%nat, store (dst + Z.of_nat at_) (concat cs) m).
Proof.
  revert at_ m. induction cs as [|c cs IH]; intros at_ m; cbn [copy_chunks concat].
  - f_equal; [simpl; lia|]. apply functional_extensionality. intros b. unfold store. by destruct (_ <=? b).
  - rewrite IH, length_app, <-store_app. f_equal; [lia|]. by replace (dst + Z.of_nat (at_ + length c)) with (dst + Z.of_nat at_ + Z.of_nat (length c)) by lia.
Qed.

Section Search.
Context (memchr : Z → bytes → option nat) (Hmemchr : ∀ c l, first_hit (λ b, b =? c) l (memchr c l)).

(** A run without quotes, then the doubled quotes one by one. *)
Lemma double_split d : let n := default (length d) (find_byte is_quote d) in
  find_byte is_quote (double d) = find_byte is_quote d ∧
  (find_byte is_quote d = None → double d = d) ∧
  (∀ i, find_byte is_quote d = Some i → ∃ r, d = take i d ++ dquote :: r ∧ double d = take i d ++ dquote :: dquote :: double r ∧ drop (S i) d = r).
Proof.
  induction d as [|b d (IH1 & IH2 & IH3)]; [done|]. cbv zeta. cbn [find_byte]. rewrite double_cons. destruct (is_quote b) eqn:Hb.
  - apply Z.eqb_eq in Hb as ->. split_and!; [done|done|]. intros i [= <-]. by exists d.
  - cbn [app]. cbn [find_byte]. rewrite Hb, IH1. split; [done|]. split.
    + destruct (find_byte is_quote d); [done|]. intros _. by rewrite IH2.
    + intros i. destruct (find_byte is_quote d) as [j|]; [|done]. intros [= <-]. destruct (IH3 j eq_refl) as (r & H1 & H2 & H3).
      exists r. cbn [take app drop]. split; [by f_equal|]. split; [by f_equal|done].
Qed.

(** The rest of an escaped cell: [double d] between [p] and the cell's end. *)
Definition tail_ok (src : bytes) (end_ p : nat) (d : bytes) : Prop :=
  (p ≤ end_ ≤ length src)%nat ∧ slice p end_ src = double d.
Lemma tail_span src end_ p d : tail_ok src end_ p d → length (double d) = (end_ - p)%nat.
Proof. intros [H <-]. rewrite slice_length; lia. Qed.
Lemma tail_step src end_ p d i : tail_ok src end_ p d → find_byte is_quote d = Some i →
  slice p (p + i) src = take i d ∧ (p + i + 1 < end_)%nat ∧ src !! (p + i + 1)%nat = Some dquote ∧
  tail_ok src end_ (p + i + 2) (drop (S i) d) ∧ d = take i d ++ dquote :: drop (S i) d ∧ (i < length d)%nat.
Proof.
  intros Ht Hi. pose proof (tail_span _ _ _ _ Ht) as Hl. apply find_byte_lt in Hi as Hid. destruct (double_split d) as (_ & _ & H3).
  destruct (H3 i Hi) as (r & H4 & H5 & H6). rewrite H6. destruct Ht as [Hb Hs]. rewrite H5 in Hl, Hs. rewrite length_app, length_take_le in Hl by lia. cbn [length] in Hl.
  assert (drop p src = take i d ++ dquote :: dquote :: double r ++ drop end_ src) as Hd.
  { rewrite <-(take_drop (end_ - p) (drop p src)). fold (slice p end_ src). rewrite Hs, drop_drop. replace (p + (end_ - p))%nat with end_ by lia. by rewrite <-app_assoc. }
  assert (∀ k x, (take i d ++ dquote :: dquote :: double r ++ drop end_ src) !! k = Some x → src !! (p + k)%nat = Some x) as Hlk.
  { intros k x Hk. by rewrite <-lookup_drop, Hd. }
  split_and!; [|lia| | | |done].
  - rewrite <-(length_take_le d i) at 1 by lia. by eapply slice_drop_app.
  - rewrite <-Nat.add_assoc. apply Hlk. rewrite lookup_app_r, length_take_le by (rewrite ?length_take; lia). by replace (i + 1 - i)%nat with 1%nat by lia.
  - split; [lia|]. unfold slice. assert (drop (p + i + 2) src = double r ++ drop end_ src) as ->.
    { rewrite <-Nat.add_assoc, <-drop_drop, Hd. rewrite drop_app_ge, length_take_le by (rewrite ?length_take; lia). by replace (i + 2 - i)%nat with 2%nat by lia. }
    replace (end_ - (p + i + 2))%nat with (length (double r)) by lia. by rewrite take_app_length.
  - exact H4.
Qed.
Lemma tail_quote src end_ p d : tail_ok src end_ p d → slice_res p end_ src = Ret (double d) ∧ next_quote memchr (double d) = find_byte is_quote d.
Proof.
  intros [Hb Hs]. rewrite slice_res_ok, Hs by lia. split; [done|]. rewrite next_quote_find by done. change (λ b, b =? dquote) with is_quote. apply double_split.
Qed.
Lemma tail_plain src end_ p d : tail_ok src end_ p d → find_byte is_quote d = None → slice p end_ src = d.
Proof. intros [_ ->] Hn. by apply (double_split d). Qed.
Lemma quote_count d i : find_byte is_quote d = Some i → (length (double d) = i + 2 + length (double (drop (S i) d)))%nat.
Proof.
  intros Hi. apply find_byte_lt in Hi as Hid. destruct (double_split d) as (_ & _ & H3). destruct (H3 i Hi) as (r & _ & H5 & H6).
  rewrite H5, H6, length_app, length_take_le by lia. simpl. lia.
Qed.

Lemma decoded_len_loop_ok fuel src end_ p d n : tail_ok src end_ p d → (end_ - p < fuel)%nat → (length (double d) - length d ≤ n)%nat →
  decoded_len_loop memchr fuel src end_ p n = Ret (Some (n - (length (double d) - length d)))%nat.
Proof.
  revert p d n. induction fuel as [|fuel IH]; intros p d n Ht Hf Hn; [lia|]. cbn [decoded_len_loop]. destruct (tail_quote _ _ _ _ Ht) as [-> Hq].
  cbn [res_bind]. rewrite Hq. destruct (find_byte is_quote d) as [i|] eqn:Hi.
  - destruct (tail_step _ _ _ _ _ Ht Hi) as (_ & Hlt & Hb & Ht' & Hd & Hid). rewrite (proj2 (Nat.leb_gt _ _)) by lia. rewrite Hb. cbn [unwrap res_bind].
    rewrite Z.eqb_refl. cbn [negb]. pose proof (quote_count _ _ Hi) as Hc. pose proof (double_length (drop (S i) d)) as Hdl.
    assert (length d = i + 1 + length (drop (S i) d))%nat as Hld by (rewrite length_drop; lia).
    rewrite usub_ok by lia. cbn [res_bind]. rewrite (IH _ (drop (S i) d)); [|done|lia|lia]. do 2 f_equal. lia.
  - destruct (double_split d) as (_ & H2 & _). rewrite H2 by done. do 2 f_equal. lia.
Qed.
Lemma chunks_loop_ok fuel src end_ p d : tail_ok src end_ p d → (end_ - p < fuel)%nat →
  ∃ cs, chunks_loop memchr fuel src end_ p p = Ret (cs, true) ∧ concat cs = d.
Proof.
  revert p d. induction fuel as [|fuel IH]; intros p d Ht Hf; [lia|]. cbn [chunks_loop]. destruct (tail_quote _ _ _ _ Ht) as [Hs Hq]. rewrite Hs.
  cbn [res_bind]. rewrite Hq. destruct (find_byte is_quote d) as [i|] eqn:Hi.
  - destruct (tail_step _ _ _ _ _ Ht Hi) as (Hp & Hlt & Hb & Ht' & Hd & Hid). rewrite (proj2 (Nat.leb_gt _ _)) by lia. rewrite Hb. cbn [unwrap res_bind].
    rewrite Z.eqb_refl. cbn [negb]. rewrite slice_res_ok, Hp by (destruct Ht; lia). cbn [res_bind]. destruct (IH (p + i + 2)%nat (drop (S i) d) Ht' ltac:(lia)) as (cs & -> & Hcs).
    cbn [res_bind]. eexists. split; [done|]. cbn [concat]. rewrite Hcs. by rewrite Hd at 3.
  - exists [double d]. split; [done|]. simpl. rewrite app_nil_r. by apply double_split.
Qed.

Lemma decoded_bytes_ok fuel src end_ esc p d : tail_ok src end_ p d → (esc = true ∨ existsb is_quote d = false) → (end_ - p ≤ fuel)%nat →
  decoded_bytes fuel src end_ esc p = Ret d.
Proof.
  revert fuel p. induction d as [|b d IH]; intros fuel p Ht He Hf; pose proof (tail_span _ _ _ _ Ht) as Hl; pose proof Ht as [Hb Hs].
  - destruct fuel; cbn [decoded_bytes]; rewrite slice_get_ok, Hs by lia; done.
  - rewrite double_cons in Hs, Hl. destruct fuel as [|fuel]; [exfalso; rewrite length_app in Hl; destruct (is_quote b); simpl in Hl; lia|].
    set (w := if esc && (b =? dquote) then 2%nat else 1%nat).
    assert (length (if is_quote b then [dquote; dquote] else [b]) = w ∧ ∃ r, (if is_quote b then [dquote; dquote] else [b]) = b :: r) as [Hw [r Hr]].
    { unfold w. change (b =? dquote) with (is_quote b). destruct (is_quote b) eqn:Hq.
      - apply Z.eqb_eq in Hq as ->. destruct He as [->|He]; [|done]. split; [done|by eexists].
      - rewrite andb_false_r. split; [done|by eexists]. }
    rewrite length_app, Hw in Hl. assert (0 < w)%nat by (unfold w; destruct (esc && _); lia).
    cbn [decoded_bytes]. rewrite slice_get_ok, Hs, Hr by lia. cbn [app]. fold w. rewrite IH; [done| | |lia].
    + split; [lia|]. rewrite (slice_app p (p + w) end_) in Hs by lia. apply app_inj_1 in Hs as [_ Hs]; [done|]. rewrite slice_length; lia.
    + destruct He as [->|He]; [by left|right]. simpl in He. by apply orb_false_iff in He as [_ ?].
Qed.

(** ** All the readings of a cell *)
Context (src : bytes) (cell : Cell) (d : bytes) (Hcell : cell_ok src cell d).
Lemma cell_tail : tail_ok src (c_end cell) (c_start cell) d.
Proof. destruct Hcell as (H1 & H2 & _). by split. Qed.
Lemma cell_plain : escaped cell = false → slice (c_start cell) (c_end cell) src = d.
Proof. destruct Hcell as (_ & H2 & H3). rewrite H3. intros H%no_quote_existsb. by rewrite H2, double_plain. Qed.
Lemma decoded_len_ok : decoded_len memchr cell src = Ret (Some (length d)).
Proof.
  pose proof (tail_span _ _ _ _ cell_tail) as Hl. pose proof (double_length d) as Hd. destruct Hcell as ([H1 H2] & H3 & _).
  unfold decoded_len. rewrite (proj2 (Nat.ltb_ge _ _)) by done. destruct (escaped cell) eqn:He; cbn [negb].
  - rewrite (decoded_len_loop_ok _ _ _ _ d) by (apply cell_tail || lia). do 2 f_equal. lia.
  - rewrite <-(cell_plain He), slice_length by lia. done.
Qed.
Lemma cell_chunks_ok : ∃ cs, cell_chunks memchr cell src = Ret (cs, true) ∧ concat cs = d.
Proof.
  unfold cell_chunks. destruct (escaped cell) eqn:He; cbn [negb].
  - apply chunks_loop_ok; [apply cell_tail|lia].
  - destruct Hcell as ([H1 H2] & _). rewrite slice_res_ok, cell_plain by (done || lia). eexists. split; [done|]. simpl. by rewrite app_nil_r.
Qed.
Lemma cell_bytes_ok : cell_bytes cell src = Ret d.
Proof.
  unfold cell_bytes. apply decoded_bytes_ok; [apply cell_tail| |lia]. destruct Hcell as (_ & _ & ->). destruct (existsb is_quote d); [by left|by right].
Qed.
Lemma copy_decoded_ok dst m : copy_decoded memchr cell src dst m = Ret (Some (length d), store dst d m).
Proof.
  unfold copy_decoded. destruct cell_chunks_ok as (cs & -> & Hcs). cbn [res_bind]. rewrite copy_chunks_concat, Hcs. repeat f_equal. lia.
Qed.

Lemma feed_update_all cs st st' : feed st cs = Ret (true, st') → update_all st true cs = Ret (st', true).
Proof.
  revert st. induction cs as [|c cs IH]; intros st H; cbn [feed update_all] in *; [by injection H as <-|].
  destruct (update st c) as [[ok st1]| |]; cbn [res_bind] in *; [|done..]. destruct ok; [|done]. by apply IH.
Qed.
Lemma cell_hash_ok : ∃ h, wyhash d 0 = Ret h ∧ cell_hash memchr cell src = Ret (Some h).
Proof.
  destruct (wyhash_ret d 0) as (h & Hh & _). exists h. split; [done|]. unfold cell_hash. rewrite decoded_len_ok. cbn [res_bind].
  destruct cell_chunks_ok as (cs & -> & Hcs). cbn [res_bind].
  destruct (feed_spec d 0 cs 0 (for_len 0 (length d)) []) as (st & Hf & Hst); [by rewrite drop_0, app_nil_r|apply for_len_streamed|].
  rewrite (feed_update_all _ _ _ Hf). cbn [res_bind negb orb]. rewrite Hcs in Hst. by rewrite (finish_spec d 0), Hh by done.
Qed.

Lemma match_chunk_past e cs : fold_left (match_chunk e) cs (S (length e)) = S (length e).
Proof. induction cs as [|c cs IH]; [done|]. cbn [fold_left]. unfold match_chunk at 2. by rewrite (proj2 (Nat.leb_gt _ _)) by lia. Qed.
Lemma match_chunks e cs at_ : (at_ + length (concat cs) = length e)%nat →
  (fold_left (match_chunk e) cs at_ =? length e)%nat = bool_decide (drop at_ e = concat cs).
Proof.
  revert at_. induction cs as [|c cs IH]; intros at_ H; cbn [fold_left concat] in *.
  - simpl in H. rewrite drop_ge by lia. rewrite bool_decide_true by done. apply Nat.eqb_eq. lia.
  - rewrite length_app in H. unfold match_chunk at 2. rewrite (proj2 (Nat.leb_le _ _)), slice_get_ok by lia. cbn [andb].
    assert (drop at_ e = slice at_ (at_ + length c) e ++ drop (at_ + length c) e) as Hd.
    { unfold slice. by rewrite Nat.add_comm, Nat.add_sub, Nat.add_comm, <-drop_drop, take_drop. }
    assert (length (slice at_ (at_ + length c) e) = length c) as Hl by (rewrite slice_length; lia).
    case_bool_decide as Hc.
    + injection Hc as Hc. rewrite IH by lia. rewrite Hd, Hc. apply bool_decide_ext. split; [by intros ->|]. by intros ?%app_inv_head.
    + rewrite match_chunk_past, bool_decide_false. { apply Nat.eqb_neq. lia. }
      rewrite Hd. intros [E _]%app_inj_1; [|done]. by rewrite E in Hc.
Qed.
Lemma cell_equals_ok e : cell_equals memchr cell src e = Ret (bool_decide (d = e)).
Proof.
  unfold cell_equals. rewrite decoded_len_ok. cbn [res_bind]. case_bool_decide as Hl; cbn [negb].
  - destruct cell_chunks_ok as (cs & -> & Hcs). cbn [res_bind andb]. rewrite match_chunks by (rewrite Hcs; simplify_eq; done).
    rewrite drop_0, Hcs. f_equal. by apply bool_decide_ext.
  - rewrite bool_decide_false; [done|]. by intros ->.
Qed.
End Search.

Lemma equals_cell_ok memchr src cell other d e : (∀ c l, first_hit (λ b, b =? c) l (memchr c l)) → cell_ok src cell d → cell_ok src other e →
  equals_cell memchr cell src other = Ret (bool_decide (d = e)).
Proof.
  intros Hm H1 H2. unfold equals_cell. rewrite (decoded_len_ok _ Hm _ _ d), (decoded_len_ok _ Hm _ _ e) by done. cbn [res_bind].
  case_bool_decide as Hl; cbn [negb].
  - by rewrite (cell_bytes_ok _ _ d), (cell_bytes_ok _ _ e) by done.
  - rewrite bool_decide_false; [done|]. by intros ->.
Qed.
