(* ===== verification/CsvValues.v ===== *)
(** * The values of CSV cells

    What a field's text means under a descriptor's tag, as a function of the decoded
    text alone: the integers of a width, booleans, floats, characters, strings.  The
    conversion accepts a cell exactly when its text has a value, and writes that value. *)
From Stdlib Require Import ZArith Lia.
From S2P Require Import Prelude Utf8 Text Hash TimeFormats TimeMemory Encoding EncodingSpec EscapeSpec Arena ArenaSpec Csv CsvSpec CsvCells.
Local Open Scope Z_scope.

(** ** Integers *)
Definition digits_int (digits : bytes) : Z := fold_left (λ v b, v * 10 + (b - "0"%u8)) digits 0.
(** [d] is a decimal numeral of [n]; [neg] tells whether it has a sign. *)
Definition is_decimal (d : bytes) (neg : bool) (n : Z) : Prop :=
  ∃ digits, digits ≠ [] ∧ Forall (λ b, is_ascii_digit b = true) digits ∧
    d = (if neg then ["-"%u8] else []) ++ digits ∧ n = (if neg then - digits_int digits else digits_int digits).

Lemma count_while_all {A} (p : A → bool) l : count_while p l = length l → Forall (λ x, p x = true) l.
Proof. intros H. pose proof (count_while_take p l) as Ht. by rewrite H, firstn_all in Ht. Qed.
Lemma count_while_full {A} (p : A → bool) l : Forall (λ x, p x = true) l → count_while p l = length l.
Proof. induction 1 as [|x l Hx _ IH]; simpl; [done|]. by rewrite Hx, IH. Qed.
Lemma digit_range b : is_ascii_digit b = true → 48 ≤ b ≤ 57.
Proof. unfold is_ascii_digit. intros H. b2p. lia. Qed.

Lemma integer_shape d : decimal_shape d false = true ↔
  ∃ (neg : bool) digits, digits ≠ [] ∧ Forall (λ b, is_ascii_digit b = true) digits ∧ d = (if neg then ["-"%u8] else []) ++ digits ∧
    neg = byte_at d 0 (λ b, b =? "-"%u8).
Proof.
  unfold decimal_shape, skip_digits. split.
  - destruct d as [|b d]; [done|]. rewrite bool_decide_false by done. cbn [andb]. cbv zeta. set (start := if byte_at _ _ _ then 1%nat else 0%nat).
    destruct (Nat.eqb_spec (start + count_while is_ascii_digit (drop start (b :: d))) start); [done|]. intros H%Nat.eqb_eq.
    exists (byte_at (b :: d) 0 (λ b, b =? "-"%u8)), (drop start (b :: d)).
    assert (start ≤ length (b :: d))%nat by lia. split; [|split; [|split; [|done]]].
    + intros E. rewrite E in *. simpl in *. lia.
    + apply count_while_all. rewrite length_drop. lia.
    + unfold start. cbn. destruct (Z.eqb_spec b "-"%u8) as [->|]; done.
  - intros (neg & digits & Hne & Hd & E & Hneg). rewrite <-Hneg. rewrite bool_decide_false by (subst d; destruct neg, digits; done).
    cbn [andb]. cbv zeta. assert (drop (if neg then 1 else 0) d = digits) as Hdrop by (subst d; by destruct neg).
    assert (length d = (if neg then 1 else 0) + length digits)%nat as Hl by (subst d; by destruct neg).
    rewrite Hdrop, count_while_full by done. destruct digits as [|b digits]; [done|]. cbn [length] in *.
    rewrite (proj2 (Nat.eqb_neq _ _)) by lia. apply Nat.eqb_eq. lia.
Qed.

Lemma digits_int_from digits v : fold_left (λ v b, v * 10 + (b - "0"%u8)) digits v = v * 10 ^ Z.of_nat (length digits) + digits_int digits.
Proof.
  unfold digits_int. revert v. induction digits as [|b digits IH]; intros v; cbn [fold_left length]; [simpl; lia|].
  rewrite IH, (IH (0 * 10 + _)), Nat2Z.inj_succ, Z.pow_succ_r by lia. lia.
Qed.
Lemma digits_int_nonneg digits : Forall (λ b, is_ascii_digit b = true) digits → 0 ≤ digits_int digits.
Proof.
  induction 1 as [|b digits Hb%digit_range _ IH]; [done|]. unfold digits_int in *. cbn [fold_left]. rewrite digits_int_from. fold (digits_int digits) in *.
  assert (0 ≤ 10 ^ Z.of_nat (length digits)) by lia. nia.
Qed.
Lemma magnitude_value digits v : Forall (λ b, is_ascii_digit b = true) digits → 0 ≤ v →
  magnitude_of digits v = (if fold_left (λ v b, v * 10 + (b - "0"%u8)) digits v <=? U128_MAX then Some (fold_left (λ v b, v * 10 + (b - "0"%u8)) digits v) else None) ∨
  U128_MAX < v.
Proof.
  intros Hd. revert v. induction Hd as [|b digits Hb%digit_range Hd IH]; intros v Hv; cbn [magnitude_of fold_left].
  - destruct (Z.leb_spec v U128_MAX); [by left|by right].
  - unfold checked_u128. destruct (Z.leb_spec (v * 10) U128_MAX); cbn [mbind option_bind].
    + destruct (Z.leb_spec (v * 10 + (b - 48)) U128_MAX); cbn [mbind option_bind].
      * destruct (IH (v * 10 + (b - 48)) ltac:(lia)) as [->|]; [by left|lia].
      * left. rewrite (proj2 (Z.leb_gt _ _)); [done|]. rewrite digits_int_from. pose proof (digits_int_nonneg _ Hd).
        assert (1 ≤ 10 ^ Z.of_nat (length digits)) by (apply (Z.pow_le_mono_r 10 0); lia). nia.
    + destruct (Z.ltb_spec U128_MAX v); [by right|]. left. rewrite (proj2 (Z.leb_gt _ _)); [done|]. rewrite digits_int_from. pose proof (digits_int_nonneg _ Hd).
      assert (1 ≤ 10 ^ Z.of_nat (length digits)) by (apply (Z.pow_le_mono_r 10 0); lia). nia.
Qed.
Lemma magnitude_ok digits : Forall (λ b, is_ascii_digit b = true) digits →
  magnitude_of digits 0 = if digits_int digits <=? U128_MAX then Some (digits_int digits) else None.
Proof. intros H. destruct (magnitude_value digits 0 H ltac:(lia)) as [->|Hb]; [done|]. by vm_compute in Hb. Qed.

Definition int_width (width : Z) : Prop := width = 1 ∨ width = 2 ∨ width = 4 ∨ width = 8.
(** The integers of a width. *)
Definition int_range (signed : bool) (width n : Z) : Prop :=
  if signed then - 2 ^ (8 * width - 1) ≤ n < 2 ^ (8 * width - 1) else 0 ≤ n < 2 ^ (8 * width).
Lemma width_bounds width : int_width width → 2 ^ (8 * width) = 2 * 2 ^ (8 * width - 1) ∧ 0 < 2 ^ (8 * width - 1) ∧ 2 ^ (8 * width) ≤ 2 ^ 64.
Proof. by intros [->|[->|[->| ->]]]. Qed.

(** [parse_integer] takes exactly the numerals of the integers of the width, and gives the
    word that stands for them in two's complement. *)
Lemma parse_integer_iff d signed width v : int_width width →
  parse_integer d signed width = Some v ↔
  ∃ neg n, is_decimal d neg n ∧ (neg = true → signed = true) ∧ int_range signed width n ∧ v = n mod 2 ^ (8 * width).
Proof.
  intros Hw. destruct (width_bounds _ Hw) as (Hb & Hp & Hle). unfold parse_integer. destruct (decimal_shape d false) eqn:Hs; cbn [negb].
  2: { split; [done|]. intros (neg & n & (digits & H1 & H2 & H3 & _) & _). exfalso. apply not_true_iff_false in Hs. apply Hs. apply integer_shape.
    exists neg, digits. split_and!; [done..|]. subst d. destruct neg; [done|]. destruct digits as [|b digits]; [done|].
    apply Forall_cons in H2 as [H2%digit_range _]. simpl. symmetry. apply Z.eqb_neq. lia. }
  apply integer_shape in Hs as (neg & digits & Hne & Hd & -> & Hneg). set (dd := (if neg then ["-"%u8] else []) ++ digits) in *. rewrite <-Hneg.
  assert (drop (if neg then 1 else 0) dd = digits) as -> by (by destruct neg). rewrite magnitude_ok by done.
  pose proof (digits_int_nonneg _ Hd) as Hn. set (k := digits_int digits) in *.
  assert (∀ neg' n, is_decimal dd neg' n ↔ neg' = neg ∧ n = if neg then - k else k) as Hdec.
  { intros neg' n. split.
    - intros (digits' & H1 & H2 & H3 & ->). assert (neg' = neg ∧ digits' = digits) as [-> ->]; [|done].
      destruct digits' as [|b' digits']; [done|]. destruct digits as [|b digits]; [done|]. apply Forall_cons in H2 as [H2%digit_range _].
      apply Forall_cons in Hd as [Hd%digit_range _]. unfold dd in H3. destruct neg, neg'; simpl in H3; simplify_eq; try done; lia.
    - intros [-> ->]. by exists digits. }
  assert (2 ^ 64 ≤ U128_MAX) as Hmax by done.
  assert ((∃ neg0 n, is_decimal dd neg0 n ∧ (neg0 = true → signed = true) ∧ int_range signed width n ∧ v = n mod 2 ^ (8 * width)) ↔
    (neg = true → signed = true) ∧ int_range signed width (if neg then - k else k) ∧ v = (if neg then - k else k) mod 2 ^ (8 * width)) as ->.
  { split; [intros (neg0 & n & [-> ->]%Hdec & H); exact H|intros H]. exists neg, (if neg then - k else k). split; [by apply Hdec|exact H]. }
  rewrite (Z.mul_comm width 8). unfold int_range. destruct neg, signed; cbn [negb andb]; cbv zeta; try (split; [done|intros [H _]; by discriminate H]).
  - destruct (Z.leb_spec k U128_MAX); cbn [mbind option_bind]; [|split; [done|intros (_ & ? & _); lia]].
    destruct (Z.ltb_spec (2 ^ (8 * width - 1) - 1 + 1) k); [split; [done|intros (_ & ? & _); lia]|].
    assert (Z.land ((0 - k) mod 2 ^ 128) (2 ^ (8 * width) - 1) = (- k) mod 2 ^ (8 * width)) as ->.
    { replace (2 ^ (8 * width) - 1) with (Z.ones (8 * width)) by (rewrite Z.ones_equiv; lia). rewrite Z.land_ones by (destruct Hw as [->|[->|[->| ->]]]; lia).
      replace (0 - k) with (- k) by lia. apply Z.mod_mod_divide. exists (2 ^ (128 - 8 * width)). rewrite <-Z.pow_add_r by (destruct Hw as [->|[->|[->| ->]]]; lia). f_equal. lia. }
    pose proof (Z.mod_pos_bound (- k) (2 ^ (8 * width)) ltac:(lia)). unfold to_u64. rewrite (proj2 (Z.ltb_lt _ _)) by lia. split; [intros [= <-]; split_and!; [done|lia|lia|done]|by intros (_ & _ & ->)].
  - destruct (Z.leb_spec k U128_MAX); cbn [mbind option_bind]; [|split; [done|intros (_ & ? & _); lia]].
    destruct (Z.leb_spec k (2 ^ (8 * width - 1) - 1)); [|split; [done|intros (_ & ? & _); lia]]. unfold to_u64. rewrite (proj2 (Z.ltb_lt _ _)) by lia.
    rewrite Z.mod_small by lia. split; [intros [= <-]; split_and!; [done|lia|lia|done]|by intros (_ & _ & ->)].
  - destruct (Z.leb_spec k U128_MAX); cbn [mbind option_bind]; [|split; [done|intros (_ & ? & _); lia]].
    destruct (Z.leb_spec k (2 ^ (8 * width) - 1)); [|split; [done|intros (_ & ? & _); lia]]. unfold to_u64. rewrite (proj2 (Z.ltb_lt _ _)) by lia.
    rewrite Z.mod_small by lia. split; [intros [= <-]; split_and!; [done|lia|lia|done]|by intros (_ & _ & ->)].
Qed.

(** ** Numerals are ASCII and hold no quote *)
Definition numeral_char (b : Z) : Prop := 43 ≤ b ≤ 57 ∨ b = 69 ∨ b = 101.
Lemma skip_digits_spec d p : (p ≤ length d)%nat → Forall numeral_char (take p d) →
  (skip_digits d p ≤ length d)%nat ∧ Forall numeral_char (take (skip_digits d p) d).
Proof.
  intros Hp H. unfold skip_digits. pose proof (count_while_le is_ascii_digit (drop p d)) as Hc. rewrite length_drop in Hc. split; [lia|].
  assert (take (p + count_while is_ascii_digit (drop p d)) d = take p d ++ take (count_while is_ascii_digit (drop p d)) (drop p d)) as ->.
  { symmetry. apply take_take_drop. }
  apply Forall_app. split; [done|]. eapply Forall_impl; [apply count_while_take|]. intros b Hb%digit_range. unfold numeral_char. lia.
Qed.
Lemma byte_at_spec d p accept : byte_at d p accept = true → (∀ b, accept b = true → numeral_char b) → Forall numeral_char (take p d) →
  (p + 1 ≤ length d)%nat ∧ Forall numeral_char (take (p + 1) d).
Proof.
  unfold byte_at. intros H Ha Hf. destruct (d !! p) as [b|] eqn:Hb; [|done]. apply lookup_lt_Some in Hb as Hlt. split; [lia|].
  rewrite Nat.add_1_r, (take_S_r _ _ b) by done. apply Forall_app. split; [done|]. constructor; [by apply Ha|constructor].
Qed.
Lemma accept_sign b : (b =? "+"%u8) || (b =? "-"%u8) = true → numeral_char b.
Proof. unfold numeral_char. intros H. b2p. lia. Qed.

Lemma shape_chars d float : decimal_shape d float = true → Forall numeral_char d.
Proof.
  unfold decimal_shape. case_bool_decide; [done|]. cbv zeta.
  assert (∀ p, (p ≤ length d)%nat → Forall numeral_char (take p d) →
    match (if float && byte_at d p (λ b, (b =? "e"%u8) || (b =? "E"%u8)) then
      let exp := if byte_at d (p + 1) (λ b, (b =? "+"%u8) || (b =? "-"%u8)) then (p + 1 + 1)%nat else (p + 1)%nat in
      if (skip_digits d exp =? exp)%nat then None else Some (skip_digits d exp) else Some p) with None => false | Some p => (p =? length d)%nat end = true →
    Forall numeral_char d) as Hexp.
  { intros p Hp Hf. destruct (float && _) eqn:He.
    - apply andb_true_iff in He as [_ He]. apply byte_at_spec in He as [He1 He2]; [|intros b Hb; unfold numeral_char; b2p; lia|done].
      assert (∀ exp, (exp ≤ length d)%nat → Forall numeral_char (take exp d) →
        match (if (skip_digits d exp =? exp)%nat then None else Some (skip_digits d exp)) with None => false | Some p => (p =? length d)%nat end = true → Forall numeral_char d) as Hdig.
      { intros exp Hexp Hfe. destruct (_ =? exp)%nat; [done|]. intros Heq%Nat.eqb_eq. destruct (skip_digits_spec d exp Hexp Hfe) as [_ H']. by rewrite Heq, firstn_all in H'. }
      cbv zeta. destruct (byte_at d (p + 1) _) eqn:Hs; [|by apply Hdig].
      apply byte_at_spec in Hs as [Hs1 Hs2]; [|apply accept_sign|done]. by apply Hdig.
    - intros Heq%Nat.eqb_eq. by rewrite Heq, firstn_all in Hf. }
  set (start := if byte_at d 0 _ then 1%nat else 0%nat).
  assert ((start ≤ length d)%nat ∧ Forall numeral_char (take start d)) as [Hs Hfs].
  { unfold start. destruct (byte_at d 0 _) eqn:Hb; [|split; [lia|constructor]]. apply byte_at_spec in Hb as [H1 H2]; [by split|intros b Hb'; unfold numeral_char; b2p; lia|constructor]. }
  clearbody start. destruct (skip_digits_spec d start Hs Hfs) as [H1 H2]. destruct (_ =? start)%nat; [done|].
  set (p := skip_digits d start) in *. clearbody p. destruct (float && byte_at d p (λ b, b =? "."%u8)) eqn:Hdot; [|by apply Hexp].
  apply andb_true_iff in Hdot as [_ Hdot]. apply byte_at_spec in Hdot as [Hd1 Hd2]; [|intros b Hb'; unfold numeral_char; b2p; lia|done].
  destruct (skip_digits_spec d (p + 1) Hd1 Hd2) as [H3 H4]. destruct (_ =? p + 1)%nat; [done|]. by apply Hexp.
Qed.
Lemma shape_ascii d float : decimal_shape d float = true → from_utf8 d = Some d.
Proof. intros H%shape_chars. apply ascii_valid. eapply Forall_impl; [exact H|]. intros b Hb. unfold numeral_char in Hb. lia. Qed.
Lemma shape_no_quote d float : decimal_shape d float = true → existsb is_quote d = false.
Proof.
  intros H%shape_chars. apply no_quote_existsb. eapply Forall_impl; [exact H|]. intros b Hb. unfold numeral_char, is_quote in *. apply Z.eqb_neq. lia.
Qed.

(** A character that is written with a quote byte is the quote. *)
Lemma quote_char d : existsb is_quote d = true → one_char d = if (length d =? 1)%nat then Some dquote else None.
Proof.
  intros Hq. unfold one_char. destruct d as [|b [|b' d]]; [done| |].
  - simpl in Hq. rewrite orb_false_r in Hq. by apply Z.eqb_eq in Hq as ->.
  - cbn [length Nat.eqb]. destruct (from_utf8 (b :: b' :: d)) as [[|c [|c' cs]]|] eqn:H; try done.
    apply from_utf8_inv in H as [E Hc]. exfalso. unfold utf8_encode_all in E. simpl in E. rewrite app_nil_r in E. rewrite E in Hq.
    apply Forall_inv in Hc. unfold is_scalar in Hc. unfold utf8_encode in *. destruct (c <? 128) eqn:H1; [done|]. apply Z.ltb_ge in H1.
    assert (∀ x, 128 ≤ x → is_quote x = false) as Hx by (intros x Hx; apply Z.eqb_neq; lia).
    pose proof (Z.mod_pos_bound c 64 ltac:(lia)). pose proof (Z.mod_pos_bound (c / 64) 64 ltac:(lia)). pose proof (Z.mod_pos_bound (c / 4096) 64 ltac:(lia)).
    assert (0 ≤ c / 64 ∧ 0 ≤ c / 4096 ∧ 0 ≤ c / 262144) as (?&?&?) by (split_and!; apply Z.div_pos; lia).
    repeat case_match; cbn [existsb] in Hq; rewrite !Hx in Hq by lia; done.
Qed.

(** ** Values *)
(** The word a text stands for under a shape; a string is not a word. *)
Definition word_value (kind : Z) (signed : bool) (width : Z) (d : bytes) : option Z :=
  if kind =? KIND_INT then parse_integer d signed width
  else if kind =? KIND_BOOL then if bool_decide (d = str "true") then Some 1 else if bool_decide (d = str "false") then Some 0 else None
  else if kind =? KIND_FLOAT then if decimal_shape d true then parse_float width d else None
  else if kind =? KIND_CHAR then one_char d
  else None.
(** The text has a value under the descriptor. *)
Definition field_accepts (field : CsvField) (d : bytes) : bool :=
  match field_shape (tag field) with
  | None => false
  | Some (kind, signed, width) => (kind =? KIND_STR) || bool_decide (is_Some (word_value kind signed width d))
  end.
(** Only strings that hold a quote are copied. *)
Definition copied_text (field : CsvField) (d : bytes) : bytes :=
  if bool_decide (field_kind (tag field) = Some KIND_STR) && existsb is_quote d then d else [].

Lemma shape_cases t kind signed width : field_shape t = Some (kind, signed, width) →
  (kind = KIND_INT ∧ int_width width) ∨ (kind = KIND_BOOL ∧ width = 1) ∨ (kind = KIND_FLOAT ∧ (width = 4 ∨ width = 8)) ∨
  (kind = KIND_STR ∧ width = 16) ∨ (kind = KIND_CHAR ∧ width = 4).
Proof.
  unfold field_shape, int_width. case_if; [done|]. cbv zeta. case_if; [done|]. case_if; [|done]. intros [= <- <- <-].
  repeat match goal with H : (_ || _) = true |- _ => apply orb_true_iff in H as [H|H] end; b2p; lia.
Qed.
Lemma width_pos t kind signed width : field_shape t = Some (kind, signed, width) → 1 ≤ width ≤ 16.
Proof. intros H%shape_cases. unfold int_width in H. lia. Qed.

Section Search.
Context (memchr : Z → bytes → option nat) (Hmemchr : ∀ c l, first_hit (λ b, b =? c) l (memchr c l)).
Context (src : bytes) (cell : Cell) (d : bytes) (Hcell : cell_ok src cell d).

Lemma decoded_ascii_ok : decoded_ascii cell src = Ret (if existsb is_quote d then None else Some d).
Proof.
  unfold decoded_ascii. destruct (escaped cell) eqn:He; pose proof Hcell as ([H1 H2] & H3 & H4); rewrite He in H4; rewrite <-H4; [done|].
  rewrite slice_res_ok by lia. cbn [res_bind]. by rewrite (cell_plain src cell d Hcell He).
Qed.
Lemma bool_decide_neq_quote (t : bytes) : existsb is_quote d = true → existsb is_quote t = false → bool_decide (d = t) = false.
Proof. intros H1 H2. apply bool_decide_eq_false. intros ->. congruence. Qed.

(** The first pass accepts a cell exactly when its text has a value. *)
Lemma validate_cell_ok field : validate_cell memchr cell src field = Ret (field_accepts field d).
Proof.
  unfold validate_cell, field_accepts. destruct (field_shape (tag field)) as [[[kind signed] width]|] eqn:Hs; [|done].
  rewrite decoded_ascii_ok. cbn [res_bind]. apply shape_cases in Hs. destruct (existsb is_quote d) eqn:Hq.
  - destruct Hs as [[-> Hw]|[[-> ->]|[[-> Hw]|[[-> ->]|[-> ->]]]]]; cbn [KIND_STR KIND_CHAR Z.eqb Pos.eqb orb].
    + f_equal. symmetry. apply bool_decide_eq_false. unfold word_value, parse_integer. cbn. destruct (decimal_shape d false) eqn:Hd; [by rewrite (shape_no_quote _ _ Hd) in Hq|].
      by intros [? ?].
    + f_equal. symmetry. apply bool_decide_eq_false. unfold word_value. cbn. rewrite !bool_decide_neq_quote by done. by intros [? ?].
    + f_equal. symmetry. apply bool_decide_eq_false. unfold word_value. cbn. destruct (decimal_shape d true) eqn:Hd; [by rewrite (shape_no_quote _ _ Hd) in Hq|]. by intros [? ?].
    + done.
    + rewrite (decoded_len_ok _ Hmemchr _ _ d) by done. cbn [res_bind]. f_equal. apply bool_decide_ext. unfold word_value. cbn. rewrite quote_char by done.
      destruct (Nat.eqb_spec (length d) 1) as [->|]; split; try done; intros [= ?]; lia.
  - destruct Hs as [[-> Hw]|[[-> ->]|[[-> Hw]|[[-> ->]|[-> ->]]]]]; cbn [KIND_STR KIND_CHAR KIND_INT KIND_BOOL KIND_FLOAT Z.eqb Pos.eqb orb]; f_equal; try done.
    + unfold word_value. cbn. repeat case_bool_decide; done || (exfalso; naive_solver).
    + unfold word_value. cbn. destruct (decimal_shape d true) eqn:Hd; cbn [andb]; [|symmetry; apply bool_decide_eq_false; by intros [? ?]].
      by rewrite (shape_ascii _ _ Hd), bool_decide_true.
Qed.

(** The second pass writes the value. *)
Lemma write_word_ok kind signed width v t : field_shape t = Some (kind, signed, width) → kind ≠ KIND_STR →
  word_value kind signed width d = Some v → write_word memchr cell src kind signed width = Ret (Some v).
Proof.
  intros Hs%shape_cases Hk Hv. unfold write_word. rewrite decoded_ascii_ok. cbn [res_bind]. unfold word_value in Hv.
  destruct Hs as [[-> Hw]|[[-> ->]|[[-> Hw]|[[-> ->]|[-> ->]]]]]; cbn in Hv |- *.
  - assert (existsb is_quote d = false) as ->. { unfold parse_integer in Hv. destruct (decimal_shape d false) eqn:Hd; [by eapply shape_no_quote|done]. }
    cbn [mbind option_bind]. rewrite Hv. cbn [mbind option_bind]. apply parse_integer_iff in Hv as (neg & n & _ & _ & _ & ->); [|done]. destruct (width_bounds _ Hw) as (? & ? & _).
    by rewrite (proj2 (Z.ltb_lt _ _)) by (apply Z.mod_pos_bound; lia).
  - destruct (existsb is_quote d) eqn:Hq; [rewrite !bool_decide_neq_quote in Hv by done; done|]. cbn [mbind option_bind].
    repeat case_bool_decide; simplify_eq; done.
  - destruct (decimal_shape d true) eqn:Hd; [|done]. rewrite (shape_no_quote _ _ Hd). cbn [mbind option_bind]. rewrite (shape_ascii _ _ Hd). cbn [mbind option_bind]. by rewrite Hv.
  - done.
  - destruct (escaped cell) eqn:He.
    + destruct Hcell as (_ & _ & Hq). rewrite He in Hq. rewrite (decoded_len_ok _ Hmemchr _ _ d) by done. cbn [res_bind]. rewrite quote_char in Hv by done.
      destruct (Nat.eqb_spec (length d) 1) as [->|]; [rewrite bool_decide_true by done; by rewrite <-Hv|done].
    + destruct Hcell as ([H1 H2] & _). rewrite slice_res_ok by lia. cbn [res_bind]. by rewrite (cell_plain src cell d Hcell He), Hv.
Qed.

(** What a slot holds for a text: a word, or a view of the text's bytes. *)
Definition slot_bytes (src_ptr : Z) (field : CsvField) (text : Z) : bytes :=
  match field_shape (tag field) with
  | Some (kind, signed, width) =>
      if kind =? KIND_STR then str_bytes (if existsb is_quote d then text else src_ptr + Z.of_nat (c_start cell)) (Z.of_nat (length d))
      else le_bytes (Z.to_nat width) (default 0 (word_value kind signed width d))
  | None => []
  end.
Lemma write_cell_ok src_ptr field dst m text : field_accepts field d = true → Z.of_nat (length src) ≤ ISIZE_MAX →
  write_cell memchr cell src src_ptr field dst m text =
  Ret (Some (store dst (slot_bytes src_ptr field text) (store text (copied_text field d) m), text + Z.of_nat (length (copied_text field d)))).
Proof.
  unfold field_accepts, write_cell, slot_bytes, copied_text, field_kind. destruct (field_shape (tag field)) as [[[kind signed] width]|] eqn:Hs; [|done]. cbn [fmap option_fmap option_map fst].
  intros Ha Hlen. assert (∀ m, store text [] m = m) as Hnil. { intros m'. pose proof (copy_chunks_concat text 0 [] m') as H. simpl in H. rewrite Z.add_0_r in H. by injection H as <-. }
  destruct (Z.eqb_spec kind KIND_STR) as [->|Hk].
  - rewrite bool_decide_true by done. cbn [andb]. rewrite (decoded_len_ok _ Hmemchr _ _ d) by done. cbn [res_bind].
    pose proof Hcell as ([H1 H2] & H3 & ->). assert (length d ≤ length src)%nat as Hd.
    { pose proof (double_length d). rewrite <-H3, slice_length in H; lia. }
    assert (to_i64 (Z.of_nat (length d)) = Some (Z.of_nat (length d))) as Hi. { unfold to_i64, I64_MIN, I64_MAX. unfold ISIZE_MAX in Hlen. by rewrite !(proj2 (Z.leb_le _ _)) by lia. }
    destruct (existsb is_quote d).
    + rewrite (copy_decoded_ok _ Hmemchr _ _ d) by done. cbn [res_bind]. rewrite bool_decide_true by done. cbn [negb]. by rewrite Hi.
    + rewrite Hi, Hnil. cbn. do 3 f_equal. lia.
  - rewrite bool_decide_false by naive_solver. cbn [andb orb length] in *. apply bool_decide_eq_true in Ha as [v Hv].
    rewrite (write_word_ok kind signed width v (tag field)) by done. cbn [res_bind mbind option_bind]. rewrite Hv, Hnil, Z.add_0_r. done.
Qed.
End Search.
