(* ===== verification/CsvTable.v ===== *)
(** * The two passes over a table

    The rows of a text as a chain of records; the first pass, which accepts exactly the
    chains whose cells have values and counts what their strings need; the layout of
    the columns; and the second pass, as the writes of the table's cells one after the
    other, each in a place of its own. *)
From Stdlib Require Import ZArith Lia FunctionalExtensionality.
From S2P Require Import Prelude Utf8 Text Hash TimeFormats TimeMemory Encoding EncodingSpec EscapeSpec Arena ArenaSpec Csv CsvSpec CsvCells CsvValues.
Local Open Scope Z_scope.

(** ** Columns *)
(** Where the columns are: the start and the width of each, and their end. *)
Fixpoint layout_from (fields : list CsvField) (first : bool) (rows off : Z) : option (list (Z * Z) * Z) :=
  match fields with
  | [] => Some ([], off)
  | field :: fields =>
      width ← field_width (tag field);
      start ← soa_column_start off width first;
      column ← checked_usize (rows * width);
      next ← checked_usize (start + column);
      '(rest, end_) ← layout_from fields false rows next;
      Some ((start, width) :: rest, end_)
  end.
Lemma column_layout_from_layout fields first rows off ma e a : column_layout_from fields first rows off ma = Some (e, a) →
  ∃ cols, layout_from fields first rows off = Some (cols, e).
Proof.
  revert first off ma. induction fields as [|f fields IH]; intros first off ma; cbn [column_layout_from layout_from]; [intros [= <- <-]; by eexists|].
  destruct (field_width (tag f)) as [w|]; [|done]. cbn [mbind option_bind]. destruct (soa_column_start off w first) as [s|]; [|done]. cbn [mbind option_bind].
  destruct (checked_usize (rows * w)) as [c|]; [|done]. cbn [mbind option_bind]. destruct (checked_usize (s + c)) as [n|]; [|done]. cbn [mbind option_bind].
  intros H. destruct (IH _ _ _ H) as (cols & ->). by eexists.
Qed.
Lemma column_offsets_layout fields first rows off cols e : layout_from fields first rows off = Some (cols, e) →
  column_offsets fields first rows off = Ret (map fst cols).
Proof.
  revert first off cols. induction fields as [|f fields IH]; intros first off cols; cbn [column_offsets layout_from]; [by intros [= <- <-]|].
  destruct (field_width (tag f)) as [w|]; [|done]. cbn [mbind option_bind unwrap res_bind]. destruct (soa_column_start off w first) as [s|]; [|done]. cbn [mbind option_bind unwrap res_bind].
  destruct (checked_usize (rows * w)) as [c|]; [|done]. cbn [mbind option_bind unwrap res_bind]. destruct (checked_usize (s + c)) as [n|]; [|done]. cbn [mbind option_bind unwrap res_bind].
  destruct (layout_from fields false rows n) as [[rest e']|] eqn:H; [|done]. cbn [mbind option_bind]. intros [= <- <-]. rewrite (IH _ _ _ H). done.
Qed.

Lemma checked_usize_inv v w : checked_usize v = Some w → w = v ∧ v ≤ Encoding.USIZE_MAX.
Proof. unfold checked_usize. destruct (Z.leb_spec v Encoding.USIZE_MAX); [|done]. by intros [= <-]. Qed.
Lemma soa_column_start_ge off width first s : 1 ≤ width → (∃ k, 0 ≤ k ∧ width = 2 ^ k) → soa_column_start off width first = Some s → off ≤ s.
Proof.
  intros Hw (k & Hk & ->) H. unfold soa_column_start in H. destruct (first || _); [by injection H as <-|]. cbv zeta in H.
  destruct (checked_usize (off + (2 ^ k - 1))) as [v|] eqn:Hv; [|done]. apply checked_usize_inv in Hv as [-> _]. injection H as <-.
  rewrite round_down by done. pose proof (Z.mod_pos_bound (off + (2 ^ k - 1)) (2 ^ k) ltac:(lia)). lia.
Qed.
Lemma field_width_pow t w : field_width t = Some w → 1 ≤ w ≤ 16 ∧ ∃ k, 0 ≤ k ∧ w = 2 ^ k.
Proof.
  unfold field_width. destruct (field_shape t) as [[[kind s] w']|] eqn:H; [|done]. intros [= <-]. pose proof (width_pos _ _ _ _ H). split; [done|].
  apply shape_cases in H. unfold int_width in H.
  assert (w' = 1 ∨ w' = 2 ∨ w' = 4 ∨ w' = 8 ∨ w' = 16) as [->|[->|[->|[->| ->]]]] by lia; [exists 0|exists 1|exists 2|exists 3|exists 4]; done.
Qed.

(** The columns' alignment is a power of two, at most sixteen. *)
Lemma column_layout_align fields first rows off k e a : 0 ≤ k ≤ 4 → column_layout_from fields first rows off (2 ^ k) = Some (e, a) → ∃ k', 0 ≤ k' ≤ 4 ∧ a = 2 ^ k'.
Proof.
  revert first off k. induction fields as [|f fields IH]; intros first off k Hk; cbn [column_layout_from]; [intros [= _ <-]; by exists k|].
  destruct (field_width (tag f)) as [w|] eqn:Hw; [|done]. cbn [mbind option_bind]. destruct (soa_column_start off w first) as [s|]; [|done]. cbn [mbind option_bind].
  destruct (checked_usize (rows * w)) as [c|]; [|done]. cbn [mbind option_bind]. destruct (checked_usize (s + c)) as [n|]; [|done]. cbn [mbind option_bind].
  apply field_width_pow in Hw as (Hw & j & Hj & ->). assert (j ≤ 4) by (apply (Z.pow_le_mono_r_iff 2 j 4); lia).
  assert (Z.max (2 ^ k) (2 ^ j) = 2 ^ Z.max k j) as ->.
  { destruct (Z.max_spec k j) as [[? ->]|[? ->]]; [apply Z.max_r|apply Z.max_l]; apply Z.pow_le_mono_r; lia. }
  apply IH. lia.
Qed.

(** Columns follow one another and end where the layout says. *)
Lemma layout_bounds fields first rows off cols e : 0 ≤ rows → layout_from fields first rows off = Some (cols, e) →
  off ≤ e ∧ length cols = length fields ∧
  (∀ i s w, cols !! i = Some (s, w) → off ≤ s ∧ s + rows * w ≤ e ∧ 1 ≤ w ∧ ∃ f, fields !! i = Some f ∧ field_width (tag f) = Some w) ∧
  (∀ i j s w s' w', (i < j)%nat → cols !! i = Some (s, w) → cols !! j = Some (s', w') → s + rows * w ≤ s').
Proof.
  intros Hr. revert first off cols. induction fields as [|f fields IH]; intros first off cols; cbn [layout_from]; [intros [= <- <-]; split_and!; [lia|done|done|done]|].
  destruct (field_width (tag f)) as [w|] eqn:Hw; [|done]. cbn [mbind option_bind]. destruct (soa_column_start off w first) as [s|] eqn:Hs; [|done]. cbn [mbind option_bind].
  destruct (checked_usize (rows * w)) as [c|] eqn:Hc; [|done]. cbn [mbind option_bind]. destruct (checked_usize (s + c)) as [n|] eqn:Hn; [|done]. cbn [mbind option_bind].
  destruct (layout_from fields false rows n) as [[rest e']|] eqn:H; [|done]. cbn [mbind option_bind]. intros [= <- <-].
  destruct (field_width_pow _ _ Hw) as [Hw1 Hw2]. apply soa_column_start_ge in Hs; [|lia|done]. apply checked_usize_inv in Hc as [-> _]. apply checked_usize_inv in Hn as [-> _].
  destruct (IH _ _ _ H) as (H1 & H2 & H3 & H4). split_and!; [nia|simpl; by rewrite H2| |].
  - intros [|i] s0 w0; simpl; [intros [= <- <-]; split_and!; [done|lia|lia|by exists f]|]. intros Hi. destruct (H3 i s0 w0 Hi) as (? & ? & ? & ?). split_and!; [nia|lia|lia|done].
  - intros [|i] [|j] s0 w0 s1 w1 Hij; simpl; [lia| |lia|].
    + intros [= <- <-] Hj. by destruct (H3 j s1 w1 Hj).
    + intros Hi Hj. apply (H4 i j s0 w0 s1 w1); [lia|done..].
Qed.

(** ** The writes of a table *)
(** A cell that is kept: its row, its descriptor and the descriptor's index. *)
Record Item := MkItem { it_row : Z; it_index : nat; it_field : CsvField; it_cell : Cell; it_text : bytes }.
Section Fill.
Context (src_ptr base : Z) (cols : list (Z * Z)).
(** The address of a cell's slot. *)
Definition slot (it : Item) : Z :=
  match cols !! it_index it with Some (start, width) => base + (start + it_row it * width) | None => 0 end.
Definition item_copied (it : Item) : bytes := copied_text (it_field it) (it_text it).
Definition item_bytes (it : Item) (text : Z) : bytes := slot_bytes (it_cell it) (it_text it) src_ptr (it_field it) text.
Definition copied_len (items : list Item) : Z := foldr (λ it n, Z.of_nat (length (item_copied it)) + n) 0 items.
Fixpoint fill_items (items : list Item) (text : Z) (m : Memory) : Memory :=
  match items with
  | [] => m
  | it :: items => fill_items items (text + Z.of_nat (length (item_copied it))) (store (slot it) (item_bytes it text) (store text (item_copied it) m))
  end.

Lemma copied_len_app a b : copied_len (a ++ b) = copied_len a + copied_len b.
Proof. induction a as [|it a IH]; simpl; lia. Qed.
Lemma copied_len_nonneg a : 0 ≤ copied_len a.
Proof. induction a as [|it a IH]; simpl; lia. Qed.
Lemma fill_items_app a b text m : fill_items (a ++ b) text m = fill_items b (text + copied_len a) (fill_items a text m).
Proof.
  revert text m. induction a as [|it a IH]; intros text m; cbn [fill_items app copied_len foldr]; [by rewrite Z.add_0_r|].
  rewrite IH. fold (copied_len a). by rewrite Z.add_assoc.
Qed.

(** An item has its slot: a column, and a row of the table. *)
Definition placed (rows : Z) (it : Item) : Prop :=
  0 ≤ it_row it < rows ∧ ∃ start width, cols !! it_index it = Some (start, width) ∧ field_width (tag (it_field it)) = Some width.
Lemma item_bytes_length rows it text : placed rows it → field_accepts (it_field it) (it_text it) = true →
  ∃ start width, cols !! it_index it = Some (start, width) ∧ Z.of_nat (length (item_bytes it text)) = width.
Proof.
  intros (_ & s & w & Hc & Hw) Ha. exists s, w. split; [done|]. unfold item_bytes, slot_bytes, field_accepts, field_width in *.
  destruct (field_shape _) as [[[kind sg] w']|] eqn:Hs; [|done]. injection Hw as ->. pose proof (width_pos _ _ _ _ Hs). apply shape_cases in Hs.
  destruct (Z.eqb_spec kind KIND_STR) as [->|Hk].
  - destruct Hs as [[? _]|[[? _]|[[? _]|[[_ ->]|[? _]]]]]; done.
  - rewrite le_bytes_length. lia.
Qed.

(** Memory that no item writes is kept. *)
Lemma fill_frame items text m a n :
  Forall (λ it, disjoint_spans a (Z.of_nat n) (slot it) (Z.of_nat (length (item_bytes it 0)))) items →
  disjoint_spans a (Z.of_nat n) text (copied_len items) → load a n (fill_items items text m) = load a n m.
Proof.
  revert text m. induction items as [|it items IH]; intros text m Hs Ht; [done|]. apply Forall_cons in Hs as [Hit Hs]. cbn [fill_items copied_len foldr] in *.
  fold (copied_len items) in Ht. pose proof (copied_len_nonneg items).
  assert (length (item_bytes it text) = length (item_bytes it 0)) as Hl.
  { unfold item_bytes, slot_bytes. destruct (field_shape _) as [[[k s] w]|]; [|done]. destruct (k =? KIND_STR); [|done]. unfold str_bytes. by rewrite !length_app. }
  unfold disjoint_spans in *. rewrite IH; [|done|lia]. rewrite !load_store_disjoint; [done|unfold disjoint_spans; lia..].
Qed.

(** Two items of one table never share a byte, nor does one reach beyond the columns. *)
Context (rows end_ : Z) (Hrows : 0 ≤ rows).
Context (Hin : ∀ i s w, cols !! i = Some (s, w) → 0 ≤ s ∧ s + rows * w ≤ end_ ∧ 1 ≤ w).
Context (Hsep : ∀ i j s w s' w', (i < j)%nat → cols !! i = Some (s, w) → cols !! j = Some (s', w') → s + rows * w ≤ s').
Definition good_item (it : Item) : Prop := placed rows it ∧ field_accepts (it_field it) (it_text it) = true.
Definition item_key (it : Item) : Z * nat := (it_row it, it_index it).

Lemma item_span it text : good_item it → base ≤ slot it ∧ slot it + Z.of_nat (length (item_bytes it text)) ≤ base + end_.
Proof.
  intros [Hp Ha]. destruct (item_bytes_length rows it text Hp Ha) as (s & w & Hc & ->). destruct Hp as [Hr _]. destruct (Hin _ _ _ Hc) as (H1 & H2 & H3).
  unfold slot. rewrite Hc. assert (it_row it * w + w ≤ rows * w) by nia. nia.
Qed.
Lemma items_apart it it' : good_item it → good_item it' → item_key it ≠ item_key it' →
  disjoint_spans (slot it) (Z.of_nat (length (item_bytes it 0))) (slot it') (Z.of_nat (length (item_bytes it' 0))).
Proof.
  intros [Hp Ha] [Hp' Ha'] Hk. destruct (item_bytes_length rows it 0 Hp Ha) as (s & w & Hc & ->). destruct (item_bytes_length rows it' 0 Hp' Ha') as (s' & w' & Hc' & ->).
  destruct Hp as [Hr _], Hp' as [Hr' _]. destruct (Hin _ _ _ Hc) as (? & ? & ?), (Hin _ _ _ Hc') as (? & ? & ?). unfold slot. rewrite Hc, Hc'. unfold disjoint_spans.
  assert (it_row it * w + w ≤ rows * w ∧ it_row it' * w' + w' ≤ rows * w') as [? ?] by nia.
  destruct (Nat.lt_trichotomy (it_index it) (it_index it')) as [Hlt|[Heq|Hlt]].
  - specialize (Hsep _ _ _ _ _ _ Hlt Hc Hc'). nia.
  - rewrite Heq, Hc' in Hc. injection Hc as <- <-. assert (it_row it ≠ it_row it') as Hne by (intros E; apply Hk; unfold item_key; congruence).
    destruct (Z.lt_total (it_row it) (it_row it')) as [?|[?|?]]; [nia|done|nia].
  - specialize (Hsep _ _ _ _ _ _ Hlt Hc' Hc). nia.
Qed.

(** After the pass every item's slot holds its value, and a string that holds a quote stands
    in the text area. *)
Lemma fill_content items text m : Forall good_item items → NoDup (map item_key items) → base + end_ ≤ text →
  Forall (λ it, ∃ t, text ≤ t ∧ t + Z.of_nat (length (item_copied it)) ≤ text + copied_len items ∧
    load (slot it) (length (item_bytes it t)) (fill_items items text m) = item_bytes it t ∧
    load t (length (item_copied it)) (fill_items items text m) = item_copied it) items.
Proof.
  revert text m. induction items as [|it items IH]; intros text m Hg Hn Ht; [constructor|]. apply Forall_cons in Hg as [Hit Hg]. cbn [map] in Hn. apply NoDup_cons in Hn as [Hk Hn].
  cbn [fill_items copied_len foldr]. fold (copied_len items). pose proof (copied_len_nonneg items) as Hc0. pose proof (Nat2Z.is_nonneg (length (item_copied it))) as Hn0. set (n := Z.of_nat (length (item_copied it))) in *.
  constructor.
  - exists text. split; [done|]. split; [lia|].
    assert (∀ a k, disjoint_spans a (Z.of_nat k) (text + n) (copied_len items) →
      Forall (λ it', disjoint_spans a (Z.of_nat k) (slot it') (Z.of_nat (length (item_bytes it' 0)))) items → ∀ m', load a k (fill_items items (text + n) m') = load a k m') as Hframe.
    { intros a k H1 H2 m'. by apply fill_frame. }
    pose proof (item_span it text Hit) as [H1 H2]. split.
    + rewrite Hframe, load_store_same; [done|unfold disjoint_spans; lia|]. rewrite Forall_forall in *. intros it' Hi.
      assert (length (item_bytes it text) = length (item_bytes it 0)) as ->.
      { destruct Hit as [Hp Ha]. destruct (item_bytes_length rows it text Hp Ha) as (s & w & Hc & Hw), (item_bytes_length rows it 0 Hp Ha) as (s' & w' & Hc' & Hw'). rewrite Hc in Hc'. simplify_eq. lia. }
      apply items_apart; [done|by apply Hg|]. intros E. apply Hk. rewrite E. by apply list_elem_of_In, in_map, list_elem_of_In.
    + rewrite Hframe; [|unfold disjoint_spans; fold n; lia|].
      * rewrite load_store_disjoint by (unfold disjoint_spans; lia). apply load_store_same.
      * rewrite Forall_forall in *. intros it' Hi. pose proof (item_span it' 0 (Hg it' Hi)). unfold disjoint_spans. lia.
  - assert (base + end_ ≤ text + n) as Ht' by lia. specialize (IH (text + n) (store (slot it) (item_bytes it text) (store text (item_copied it) m)) Hg Hn Ht').
    eapply Forall_impl; [exact IH|]. intros it' (t & T1 & T2 & T3 & T4). exists t. split_and!; [lia|lia|done|done].
Qed.
End Fill.
