(* ===== verification/CsvDecode.v ===== *)
(** * The two passes agree

    A table's rows as a chain of records, what the first pass accepts, and the second
    pass as the writes of the accepted cells: it meets the same records, never fails,
    and ends where the first pass said. *)
From Stdlib Require Import ZArith Lia.
From S2P Require Import Prelude Utf8 Text Hash TimeFormats TimeMemory Encoding EncodingSpec EscapeSpec Arena ArenaSpec Csv CsvSpec CsvCells CsvValues CsvTable.
Local Open Scope Z_scope.

(** ** The grammar has one reading *)
Lemma is_field_det eol l d r d' r' : eol_ok eol → is_field eol l d r → is_field eol l d' r' → d' = d ∧ r' = r.
Proof. intros He H%ref_field_iff H'%ref_field_iff; [|done..]. rewrite H in H'. by injection H' as <- <-. Qed.
Lemma is_record_det eol l ds r ds' r' : eol_ok eol → is_record eol l ds r → is_record eol l ds' r' → ds' = ds ∧ r' = r.
Proof.
  intros He H. revert ds' r'. assert (∀ x, eol_bytes eol ++ x ≠ []) as Hne by (intros x; by destruct He as [-> | ->]).
  assert (∀ x y, eol_bytes eol ++ x ≠ ","%u8 :: y) as Hnc by (intros x y; by destruct He as [-> | ->]).
  induction H as [l d Hf|l d r Hf|l d l' ds r Hf Hr IH]; intros ds' r' H'; inversion H' as [l0 d0 Hf'|l0 d0 r0 Hf'|l0 d0 l1 ds0 r0 Hf' Hr']; subst;
    destruct (is_field_det _ _ _ _ _ _ He Hf Hf') as [-> E]; try done; try (by apply Hne in E); try (by symmetry in E; apply Hne in E);
    try (by apply Hnc in E); try (by symmetry in E; apply Hnc in E).
  - apply app_inv_head in E. done.
  - injection E as <-. destruct (IH _ _ Hr') as [-> ->]. done.
Qed.

Section Passes.
Context (memchr : Z → bytes → option nat) (memchr3 : Z → Z → Z → bytes → option nat).
Context (Hmemchr : ∀ c l, first_hit (λ b, b =? c) l (memchr c l)).
Context (Hmemchr3 : ∀ a b c l, first_hit (λ x, (x =? a) || (x =? b) || (x =? c)) l (memchr3 a b c l)).
Context (src : bytes) (eol : Z) (Heol : eol_ok eol) (Hsrc : Z.of_nat (length src) ≤ ISIZE_MAX).
Abbreviation traced := (traced memchr memchr3 src eol).

(** The rows from a position to the end of the source. *)
Inductive chain : nat → list (list (Cell * bytes)) → Prop :=
  | chain_end : chain (length src) []
  | chain_row pos row pos' rows : (pos < length src)%nat → traced pos row (EndAt pos') → chain pos' rows → chain pos (row :: rows).
Lemma traced_end pos row p : traced pos row (EndAt p) → (pos < length src)%nat →
  is_record eol (drop pos src) (map snd row) (drop p src) ∧ (pos < p ≤ length src)%nat.
Proof. intros [_ _ _ (H1 & H2 & H3) _] Hp. split; [done|]. specialize (H3 Hp). lia. Qed.
Lemma chain_table pos rows : chain pos rows → is_table eol (drop pos src) (map (map snd) rows).
Proof.
  induction 1 as [|pos row pos' rows Hp Ht Hc IH]; [rewrite drop_all; constructor|]. destruct (traced_end _ _ _ Ht Hp) as [Hr _].
  cbn [map]. econstructor; [|exact Hr|exact IH]. intros E%drop_nil. lia.
Qed.
Lemma chain_bound pos rows : chain pos rows → (length rows ≤ length src - pos)%nat ∧ (pos ≤ length src)%nat.
Proof.
  induction 1 as [|pos row pos' rows Hp Ht Hc IH]; [simpl; lia|]. destruct (traced_end _ _ _ Ht Hp) as [_ ?]. simpl. lia.
Qed.

Context (header : Z) (fields : list CsvField) (selected : list (option nat)).
(** A header's selection names descriptors, each once. *)
Definition selection_ok : Prop :=
  (header ≠ HEADER_ABSENT → ∀ o i, column_field header selected o = Some i → (i < length fields)%nat) ∧
  (∀ o o' i, column_field header selected o = Some i → column_field header selected o' = Some i → o = o').
Context (Hsel : selection_ok).

(** The columns from [o] on that are kept have values. *)
Fixpoint check_row (o : nat) (ds : list bytes) : bool :=
  match ds with
  | [] => true
  | d :: ds =>
      match column_field header selected o with
      | None => true
      | Some i => match fields !! i with None => false | Some f => field_accepts f d end
      end && check_row (S o) ds
  end.
Fixpoint copied_row (o : nat) (ds : list bytes) : Z :=
  match ds with
  | [] => 0
  | d :: ds =>
      match column_field header selected o ≫= (λ i, fields !! i) with
      | None => 0
      | Some f => Z.of_nat (length (copied_text f d))
      end + copied_row (S o) ds
  end.
Definition copied_table (rows : list (list bytes)) : Z := foldr (λ ds n, copied_row 0 ds + n) 0 rows.
Lemma copied_row_nonneg o ds : 0 ≤ copied_row o ds.
Proof. clear Hsrc. revert o. induction ds as [|d ds IH]; intros o; simpl; [done|]. specialize (IH (S o)). destruct (_ ≫= _); lia. Qed.
Lemma copied_table_nonneg rows : 0 ≤ copied_table rows.
Proof. clear Hsrc. induction rows as [|ds rows IH]; simpl; [done|]. pose proof (copied_row_nonneg 0 ds). lia. Qed.

Definition status_ok (e : Z) : Prop := e = STATUS_INVALID ∨ e = STATUS_LIMIT.
Lemma checked_usize_ok v : v ≤ Encoding.USIZE_MAX → checked_usize v = Some v.
Proof. intros H. unfold checked_usize. by rewrite (proj2 (Z.leb_le _ _)). Qed.

(** One visit of the first pass. *)
Lemma visit_check_ok o cell d n : cell_ok src cell d → 0 ≤ n ≤ Encoding.USIZE_MAX →
  visit_check memchr src header fields selected o cell n =
  Ret (match column_field header selected o with
       | None => inr n
       | Some i =>
         match fields !! i with
         | None => inl STATUS_INVALID
         | Some f => if field_accepts f d then match checked_usize (n + Z.of_nat (length (copied_text f d))) with Some v => inr v | None => inl STATUS_LIMIT end
                     else inl STATUS_INVALID
         end
       end).
Proof.
  intros Hc Hn. unfold visit_check. destruct (column_field header selected o) as [i|] eqn:Hi; [|done]. destruct (fields !! i) as [f|] eqn:Hf.
  2: { destruct (Z.eqb_spec header HEADER_ABSENT) as [|Hh]; [done|]. apply lookup_ge_None in Hf. pose proof (proj1 Hsel Hh o i Hi). lia. }
  unfold check_cell. rewrite (validate_cell_ok memchr Hmemchr src cell d Hc). cbn [res_bind]. destruct (field_accepts f d); cbn [negb]; [|done].
  unfold copied_text. pose proof Hc as (_ & _ & He). rewrite He. destruct (bool_decide _ && existsb is_quote d).
  - by rewrite (decoded_len_ok memchr Hmemchr src cell d Hc).
  - cbn [length]. rewrite Z.add_0_r, checked_usize_ok by lia. done.
Qed.

(** A record through the first pass. *)
Lemma run_check row end_ o n : Forall (λ p, cell_ok src p.1 p.2) row → 0 ≤ n ≤ Encoding.USIZE_MAX →
  ∃ r, run_record None (visit_check memchr src header fields selected) row end_ o n = Ret r ∧
    match r with
    | inr (k, p, n') => end_ = EndAt p ∧ k = (o + length row)%nat ∧ check_row o (map snd row) = true ∧ n' = n + copied_row o (map snd row) ∧ 0 ≤ n' ≤ Encoding.USIZE_MAX
    | inl e => status_ok e ∧ ((∃ p, end_ = EndAt p) → check_row o (map snd row) = true → n + copied_row o (map snd row) ≤ Encoding.USIZE_MAX → False)
    end.
Proof.
  intros Hrow. revert o n. induction Hrow as [|[cell d] row Hc Hrow IH]; intros o n Hn; cbn [run_record].
  - destruct end_ as [p| |]; eexists; (split; [done|]); cbn; [split_and!; done || lia| |]; (split; [by left|intros [p ?]; done]).
  - cbn [over_limit fmap option_fmap option_map]. replace (over_limit None o) with (@None Z) by done. rewrite (visit_check_ok o cell d n Hc Hn). cbn [res_bind map snd check_row copied_row].
    destruct (column_field header selected o) as [i|]; cbn [mbind option_bind].
    2: { destruct (IH (S o) n Hn) as (r & -> & Hr). exists r. split; [done|]. destruct r as [e|[[k p] n']]; simpl; [done|].
      destruct Hr as (? & -> & ? & ? & ?). split_and!; [done|lia|done|done|lia|lia]. }
    destruct (fields !! i) as [f|]; [|eexists; split; [done|]; cbn; split; [by left|done]].
    destruct (field_accepts f d); [|eexists; split; [done|]; cbn; split; [by left|done]].
    set (c := Z.of_nat (length (copied_text f d))). pose proof (Nat2Z.is_nonneg (length (copied_text f d))) as Hc0. fold c in Hc0. pose proof (copied_row_nonneg (S o) (map snd row)).
    destruct (checked_usize (n + c)) as [v|] eqn:Hv.
    + apply checked_usize_inv in Hv as [-> Hv]. destruct (IH (S o) (n + c) ltac:(lia)) as (r & -> & Hr). exists r. split; [done|].
      destruct r as [e|[[k p] n']]; simpl.
      * destruct Hr as [H1 H2]. split; [done|]. intros Hp Hk Hle. apply H2; [done|done|lia].
      * destruct Hr as (? & -> & ? & -> & ?). split_and!; [done|lia|done|lia|lia|lia].
    + eexists. split; [done|]. cbn. split; [by right|]. intros _ _ Hle. rewrite checked_usize_ok in Hv by lia. done.
Qed.

(** ** The first pass *)
Definition rows_ok (expected : nat) (table : list (list bytes)) : Prop := Forall (λ ds, length ds = expected ∧ check_row 0 ds = true) table.
Abbreviation texts := (map (map snd)).
Lemma table_cons pos table : (pos < length src)%nat → is_table eol (drop pos src) table →
  ∃ row rest table', table = row :: table' ∧ is_record eol (drop pos src) row rest ∧ is_table eol rest table'.
Proof.
  intros Hp Ht. inversion Ht as [E|l row rest rows Hne Hr Hrest]; subst; [symmetry in E; apply drop_nil in E; lia|]. by eexists _, _, _.
Qed.

(** The first pass accepts exactly the tables whose rows have the expected columns with a
    value each, whose number is in bounds and whose copied strings have an addressable size. *)
Lemma count_rows_ok fuel expected max_rows pos rows n :
  (length src - pos < fuel)%nat → (pos ≤ length src)%nat → 0 ≤ rows → 0 ≤ n ≤ Encoding.USIZE_MAX → rows + Z.of_nat (length src - pos) ≤ ISIZE_MAX →
  ∃ r, count_rows memchr memchr3 fuel src eol header fields selected expected max_rows pos rows n = Ret r ∧
    match r with
    | inr (rows', n') => ∃ table, chain pos table ∧ rows_ok expected (texts table) ∧ rows' = rows + Z.of_nat (length table) ∧ (rows' = rows ∨ rows' ≤ max_rows) ∧
        n' = n + copied_table (texts table) ∧ 0 ≤ n' ≤ Encoding.USIZE_MAX
    | inl e => status_ok e ∧ ∀ table, is_table eol (drop pos src) table → rows_ok expected table → rows + Z.of_nat (length table) ≤ max_rows →
        n + copied_table table ≤ Encoding.USIZE_MAX → False
    end.
Proof.
  revert pos rows n. induction fuel as [|fuel IH]; intros pos rows n Hf Hp Hr Hn Hlen; [lia|]. cbn [count_rows].
  destruct (decide (pos = length src)) as [->|Hne].
  { unfold record. rewrite Nat.eqb_refl. cbn [res_bind]. eexists. split; [done|]. exists []. split_and!; [constructor|constructor|simpl; lia|by left|simpl; lia|lia|lia]. }
  assert (pos < length src)%nat as Hlt by lia. destruct (trace_exists memchr memchr3 Hmemchr Hmemchr3 src eol pos Heol Hp) as (row & end_ & Ht).
  rewrite (record_traced memchr memchr3 src eol pos row end_) by done. destruct (run_check row end_ 0 n (tr_cells _ _ _ _ _ _ _ Ht) Hn) as (r & -> & Hrun). cbn [res_bind].
  pose proof (tr_grammar _ _ _ _ _ _ _ Ht) as Hg.
  destruct r as [e|[[k p] n']].
  - eexists. split; [done|]. destruct Hrun as [He Hno]. split; [done|]. intros table Htab Hok Hmax Hsize.
      destruct (table_cons _ _ Hlt Htab) as (ds & rest & table' & -> & Hrec & Htab'). apply Forall_cons in Hok as [[_ Hc] _]. cbn [copied_table foldr] in Hsize.
      fold (copied_table table') in Hsize. pose proof (copied_table_nonneg table'). destruct end_ as [p| |]; [|by eapply Hg..]. destruct Hg as [Hg _].
      destruct (is_record_det _ _ _ _ _ _ Heol Hrec Hg) as [<- _]. apply Hno; [by eexists|done|lia].
  - destruct Hrun as (-> & -> & Hc & -> & Hn'). destruct (traced_end _ _ _ Ht Hlt) as [Hrec Hpos]. cbn [Nat.add].
      destruct (Nat.eqb_spec (length row) expected) as [Hex|Hex]; cbn [negb].
      2: { eexists. split; [done|]. split; [by left|]. intros table Htab Hok _ _. destruct (table_cons _ _ Hlt Htab) as (ds & rest & table' & -> & Hrec' & _).
        destruct (is_record_det _ _ _ _ _ _ Heol Hrec' Hrec) as [<- _]. apply Forall_cons in Hok as [[Hl _] _]. by rewrite length_map in Hl. }
      rewrite (proj2 (Z.ltb_ge I64_MAX rows)) by (unfold I64_MAX, ISIZE_MAX in *; lia). cbn [orb].
      destruct (Z.leb_spec max_rows rows) as [Hm|Hm].
      { eexists. split; [done|]. split; [by right|]. intros table Htab _ Hmax _. destruct (table_cons _ _ Hlt Htab) as (? & ? & table' & -> & _). simpl in Hmax. lia. }
      rewrite checked_usize_ok by (unfold Encoding.USIZE_MAX, ISIZE_MAX in *; lia).
      destruct (IH p (rows + 1) (n + copied_row 0 (map snd row)) ltac:(lia) ltac:(lia) ltac:(lia) Hn' ltac:(lia)) as (r & -> & Hrest). eexists. split; [done|].
      destruct r as [e|[rows' n'']].
      * destruct Hrest as [He Hno]. split; [done|]. intros table Htab Hok Hmax Hsize. destruct (table_cons _ _ Hlt Htab) as (ds & rest & table' & -> & Hrec' & Htab').
        destruct (is_record_det _ _ _ _ _ _ Heol Hrec' Hrec) as [<- <-]. apply Forall_cons in Hok as [_ Hok]. cbn [length copied_table foldr] in *. fold (copied_table table') in Hsize.
        apply (Hno table'); [done|done|lia|lia].
      * destruct Hrest as (table & Hch & Hok & -> & Hmax & -> & Hsz). exists (row :: table). cbn [map copied_table foldr length]. fold (copied_table (texts table)).
        split_and!; [by eapply chain_row|constructor; [by rewrite length_map|done]|lia|right; lia|lia|lia|lia].
Qed.

(** ** The second pass *)
Section Fill.
Context (Hheader : header = HEADER_PRESENT ∨ header = HEADER_ABSENT).
Context (src_ptr base rows : Z) (cols : list (Z * Z)) (end_ : Z) (offsets : list Z).
Context (Hrows : 0 ≤ rows) (Hcols : layout_from fields true rows 0 = Some (cols, end_)).
Context (Hoffsets : header = HEADER_PRESENT → offsets = map fst cols).
Abbreviation fill := (fill_items src_ptr base cols).
Abbreviation visit := (visit_fill memchr src src_ptr header fields selected offsets base rows).

(** What a row's cells write. *)
Definition cell_items (o : nat) (row : Z) (cell : Cell) (d : bytes) : list Item :=
  match column_field header selected o with
  | Some i => match fields !! i with Some f => [MkItem row i f cell d] | None => [] end
  | None => []
  end.
Fixpoint row_items (o : nat) (row : Z) (cells : list (Cell * bytes)) : list Item :=
  match cells with
  | [] => []
  | (cell, d) :: cells => cell_items o row cell d ++ row_items (S o) row cells
  end.
Fixpoint table_items (row : Z) (table : list (list (Cell * bytes))) : list Item :=
  match table with
  | [] => []
  | cells :: table => row_items 0 row cells ++ table_items (row + 1) table
  end.
Lemma copied_row_items o row cells : copied_len (row_items o row cells) = copied_row o (map snd cells).
Proof.
  revert o. induction cells as [|[cell d] cells IH]; intros o; [done|]. cbn [row_items map snd copied_row]. rewrite copied_len_app, IH. unfold cell_items.
  destruct (column_field header selected o) as [i|]; [|done]. cbn [mbind option_bind]. destruct (fields !! i); [|done]. cbn [copied_len foldr]. by rewrite Z.add_0_r.
Qed.
Lemma copied_table_items row table : copied_len (table_items row table) = copied_table (texts table).
Proof.
  revert row. induction table as [|cells table IH]; intros row; [done|]. cbn [table_items map copied_table foldr]. fold (copied_table (texts table)).
  by rewrite copied_len_app, copied_row_items, IH.
Qed.

(** Without a header the columns are laid out again, row by row. *)
Definition absent_at (o : nat) (off : Z) : Prop :=
  header = HEADER_ABSENT → layout_from (drop o fields) (o =? 0)%nat rows off = Some (drop o cols, end_).
Lemma visit_fill_ok o cell d row m text off : cell_ok src cell d → check_row o [d] = true → absent_at o off →
  ∃ off', visit row o cell (m, text, off) = Ret (inr (fill (cell_items o row cell d) text m, text + copied_len (cell_items o row cell d), off')) ∧ absent_at (S o) off'.
Proof.
  intros Hc Hok Ha. cbn [check_row] in Hok. rewrite andb_true_r in Hok. unfold visit_fill, cell_items. destruct (column_field header selected o) as [i|] eqn:Hi.
  2: { exists off. simpl. rewrite Z.add_0_r. split; [done|]. intros E. unfold column_field in Hi. by rewrite E in Hi. }
  destruct (fields !! i) as [f|] eqn:Hf; [|done]. cbn [unwrap res_bind].
  destruct (layout_bounds _ _ _ _ _ _ Hrows Hcols) as (_ & Hlen & Hcol & _).
  destruct (lookup_lt_is_Some_2 cols i) as [[s w] Hs]; [rewrite Hlen; by eapply lookup_lt_Some|]. destruct (Hcol _ _ _ Hs) as (_ & _ & _ & f' & Hf' & Hw). simplify_eq. rewrite Hw.
  pose proof (write_cell_ok memchr Hmemchr src cell d Hc src_ptr f (base + (s + row * w)) m text Hok Hsrc) as Hwrite.
  assert (slot base cols (MkItem row i f cell d) = base + (s + row * w)) as Hslot by (unfold slot; cbn; by rewrite Hs).
  destruct Hheader as [Eh|Eh]; rewrite Eh; cbn [Z.eqb HEADER_PRESENT HEADER_ABSENT].
  - rewrite (Hoffsets Eh). rewrite list_lookup_fmap, Hs. cbn [fmap option_fmap option_map unwrap res_bind fst]. rewrite Hwrite. cbn [res_bind].
    exists off. split; [|intros Eh'; by rewrite Eh in Eh']. cbn [fill_items copied_len foldr]. rewrite Hslot. unfold item_copied, item_bytes. cbn. by rewrite Z.add_0_r.
  - unfold column_field in Hi. rewrite Eh in Hi. cbn in Hi. injection Hi as <-. specialize (Ha Eh). rewrite (drop_S _ _ _ Hf) in Ha. cbn [layout_from] in Ha.
    rewrite Hw in Ha. cbn [mbind option_bind] in Ha |- *. destruct (soa_column_start off w (o =? 0)%nat) as [s'|]; [|done]. cbn [mbind option_bind] in Ha |- *.
    destruct (checked_usize (rows * w)) as [c|]; [|done]. cbn [mbind option_bind] in Ha |- *. destruct (checked_usize (s' + c)) as [n|]; [|done]. cbn [mbind option_bind res_bind] in Ha |- *.
    destruct (layout_from (drop (S o) fields) false rows n) as [[rest e']|] eqn:Hrest; [|done]. cbn [mbind option_bind] in Ha. rewrite (drop_S _ _ _ Hs) in Ha. simplify_eq.
    rewrite Hwrite. cbn [res_bind]. exists n. split; [|by intros _]. cbn [fill_items copied_len foldr]. rewrite Hslot. unfold item_copied, item_bytes. cbn. by rewrite Z.add_0_r.
Qed.
Lemma run_fill p row cells o m text off : Forall (λ c, cell_ok src c.1 c.2) cells → check_row o (map snd cells) = true → absent_at o off →
  ∃ off', run_record None (visit row) cells (EndAt p) o (m, text, off) =
    Ret (inr ((o + length cells)%nat, p, (fill (row_items o row cells) text m, text + copied_len (row_items o row cells), off'))).
Proof.
  intros Hc. revert o m text off. induction Hc as [|[cell d] cells Hd Hc IH]; intros o m text off Hok Ha; cbn [run_record row_items length].
  - exists off. simpl. by rewrite Nat.add_0_r, Z.add_0_r.
  - cbn [map snd check_row] in Hok. apply andb_true_iff in Hok as [H1 H2]. replace (over_limit None o) with (@None Z) by done.
    assert (check_row o [d] = true) as H1' by (cbn [check_row]; by rewrite H1).
    destruct (visit_fill_ok o cell d row m text off Hd H1' Ha) as (off' & -> & Ha'). cbn [res_bind].
    destruct (IH (S o) (fill (cell_items o row cell d) text m) (text + copied_len (cell_items o row cell d)) off' H2 Ha') as (off'' & ->). exists off''.
    by rewrite fill_items_app, copied_len_app, Z.add_assoc, Nat.add_succ_r.
Qed.
(** The second pass meets the records of the first: it writes every kept cell, and ends
    with the source. *)
Lemma fill_rows_ok table pos row expected m text : chain pos table → rows_ok expected (texts table) →
  fill_rows memchr memchr3 (length table) src src_ptr eol header fields selected expected offsets base rows row pos m text =
  Ret (length src, fill (table_items row table) text m, text + copied_len (table_items row table)).
Proof.
  intros Hch. revert row m text. induction Hch as [|pos cells pos' table Hp Ht Hch IH]; intros row m text Hok; cbn [fill_rows length table_items].
  - simpl. by rewrite Z.add_0_r.
  - cbn [map] in Hok. apply Forall_cons in Hok as [[Hlen Hc] Hok]. rewrite length_map in Hlen.
    rewrite (record_traced memchr memchr3 src eol pos cells (EndAt pos')) by done.
    destruct (run_fill pos' row cells 0 m text 0 (tr_cells _ _ _ _ _ _ _ Ht) Hc) as (off' & ->); [by intros _; rewrite !drop_0|]. cbn [res_bind Nat.add].
    rewrite (proj2 (Nat.eqb_eq _ _) Hlen), IH by done. by rewrite fill_items_app, copied_len_app, Z.add_assoc.
Qed.

(** ** The cells' places *)
Lemma row_items_elem o row cells it : it ∈ row_items o row cells ↔
  ∃ k cell d, cells !! k = Some (cell, d) ∧ it ∈ cell_items (o + k) row cell d.
Proof.
  revert o. induction cells as [|[cell d] cells IH]; intros o; cbn [row_items].
  - split; [by intros ?%elem_of_nil|]. by intros (k & ? & ? & ? & _).
  - rewrite elem_of_app, IH. split.
    + intros [H|(k & c & e & Hk & H)]; [exists 0%nat, cell, d; by rewrite Nat.add_0_r|exists (S k), c, e; split; [done|by rewrite Nat.add_succ_r]].
    + intros ([|k] & c & e & Hk & H); [left; simpl in Hk; simplify_eq; by rewrite Nat.add_0_r in H|right; exists k, c, e; split; [done|by rewrite Nat.add_succ_r in H]].
Qed.
Lemma table_items_elem row table it : it ∈ table_items row table ↔ ∃ r cells, table !! r = Some cells ∧ it ∈ row_items 0 (row + Z.of_nat r) cells.
Proof.
  revert row. induction table as [|cells table IH]; intros row; cbn [table_items].
  - split; [by intros ?%elem_of_nil|]. by intros (r & ? & ? & _).
  - rewrite elem_of_app, IH. split.
    + intros [H|(r & c & Hr & H)]; [exists 0%nat, cells; by rewrite Z.add_0_r|]. exists (S r), c. split; [done|]. by replace (row + Z.of_nat (S r)) with (row + 1 + Z.of_nat r) by lia.
    + intros ([|r] & c & Hr & H); [left; simpl in Hr; simplify_eq; by rewrite Z.add_0_r in H|]. right. exists r, c. split; [done|]. by replace (row + Z.of_nat (S r)) with (row + 1 + Z.of_nat r) in H by lia.
Qed.
Lemma cell_items_elem o row cell d it : it ∈ cell_items o row cell d ↔
  ∃ i f, column_field header selected o = Some i ∧ fields !! i = Some f ∧ it = MkItem row i f cell d.
Proof.
  unfold cell_items. destruct (column_field header selected o) as [i|]; [|split; [by intros ?%elem_of_nil|by intros (? & ? & ? & _)]].
  destruct (fields !! i) as [f|] eqn:Hf; [|split; [by intros ?%elem_of_nil|intros (i' & ? & [= <-] & H & _); congruence]].
  rewrite list_elem_of_singleton. split; [intros ->; by exists i, f|]. intros (i' & f' & [= <-] & H & ->). by simplify_eq.
Qed.

Lemma row_keys o row cells : NoDup (map item_key (row_items o row cells)).
Proof.
  revert o. induction cells as [|[cell d] cells IH]; intros o; [constructor|]. cbn [row_items]. rewrite map_app. apply NoDup_app. split_and!; [| |apply IH].
  - unfold cell_items. destruct (column_field header selected o); [|constructor]. destruct (fields !! _); [apply NoDup_singleton|constructor].
  - intros k (it & -> & (i & f & Hi & Hf & ->)%cell_items_elem)%list_elem_of_fmap. intros (it & Hk & (j & c & e & _ & (i' & f' & Hi' & _ & ->)%cell_items_elem)%row_items_elem)%list_elem_of_fmap.
    unfold item_key in Hk. simpl in Hk. injection Hk as <-. pose proof (proj2 Hsel _ _ _ Hi Hi'). lia.
Qed.
Lemma table_keys row table : NoDup (map item_key (table_items row table)).
Proof.
  revert row. induction table as [|cells table IH]; intros row; [constructor|]. cbn [table_items]. rewrite map_app. apply NoDup_app. split_and!; [apply row_keys| |apply IH].
  intros k (it & -> & (j & c & e & _ & (i & f & _ & _ & ->)%cell_items_elem)%row_items_elem)%list_elem_of_fmap.
  intros (it & Hk & (r & cells' & _ & (j' & c' & e' & _ & (i' & f' & _ & _ & ->)%cell_items_elem)%row_items_elem)%table_items_elem)%list_elem_of_fmap.
  unfold item_key in Hk. simpl in Hk. injection Hk as E _. lia.
Qed.

(** ** What the pass leaves *)
(** The slot at [addr] holds a text's value: the bytes of the word it stands for, or a view
    of a copy of it. *)
Definition holds_text (field : CsvField) (d : bytes) (addr : Z) (m : Memory) : Prop :=
  match field_shape (tag field) with
  | Some (kind, signed, width) =>
      if kind =? KIND_STR then ∃ ptr, load addr 16 m = str_bytes ptr (Z.of_nat (length d)) ∧ load ptr (length d) m = d
      else ∃ v, word_value kind signed width d = Some v ∧ load addr (Z.to_nat width) m = le_bytes (Z.to_nat width) v
  | None => False
  end.
Lemma load_slice a n m i j : (i ≤ j ≤ n)%nat → load (a + Z.of_nat i) (j - i) m = slice i j (load a n m).
Proof.
  intros H. unfold load, slice. apply list_eq. intros k. destruct (decide (k < j - i)%nat) as [Hk|Hk].
  - rewrite lookup_take_lt, lookup_drop, !list_lookup_fmap, !lookup_seq_lt by lia. simpl. f_equal. f_equal. lia.
  - rewrite !lookup_ge_None_2; [done| |]; rewrite ?length_take, ?length_drop, ?length_map, ?length_seq; lia.
Qed.
Lemma item_holds it t m : field_accepts (it_field it) (it_text it) = true → cell_ok src (it_cell it) (it_text it) → load src_ptr (length src) m = src →
  load (slot base cols it) (length (item_bytes src_ptr it t)) m = item_bytes src_ptr it t → load t (length (item_copied it)) m = item_copied it →
  holds_text (it_field it) (it_text it) (slot base cols it) m.
Proof.
  unfold field_accepts, holds_text, item_bytes, item_copied, slot_bytes, copied_text, field_kind. intros Ha ([H1 H2] & H3 & H4) Hs Hw Ht.
  destruct (field_shape (tag (it_field it))) as [[[kind signed] width]|] eqn:Hsh; [|done]. cbn [fmap option_fmap option_map fst] in *. destruct (Z.eqb_spec kind KIND_STR) as [->|Hk].
  - rewrite bool_decide_true in Ht by done. cbn [andb] in Ht. destruct (existsb is_quote (it_text it)) eqn:Hq; eexists; (split; [exact Hw|]); [exact Ht|].
    rewrite double_plain in H3 by (by apply no_quote_existsb). assert (length (it_text it) = c_end (it_cell it) - c_start (it_cell it))%nat as -> by (rewrite <-H3, slice_length; lia).
    by rewrite (load_slice _ (length src)), Hs by lia.
  - cbn [orb] in Ha. apply bool_decide_eq_true in Ha as [v Hv]. exists v. split; [done|]. rewrite Hv in Hw. by rewrite le_bytes_length in Hw.
Qed.

(** Every kept column of every row holds its text's value, and memory outside the block is
    as it was. *)
Definition filled (table : list (list (Cell * bytes))) (m : Memory) : Prop :=
  ∀ r cells o cell d i f s w, table !! r = Some cells → cells !! o = Some (cell, d) → column_field header selected o = Some i →
    fields !! i = Some f → cols !! i = Some (s, w) → holds_text f d (base + (s + Z.of_nat r * w)) m.
Lemma chain_cells pos table : chain pos table → Forall (Forall (λ c, cell_ok src c.1 c.2)) table.
Proof. induction 1 as [|pos row pos' table Hp [? _ _ _ _] Hc IH]; by constructor. Qed.
Lemma check_row_lookup o ds k d i f : check_row o ds = true → ds !! k = Some d → column_field header selected (o + k) = Some i → fields !! i = Some f → field_accepts f d = true.
Proof.
  revert o k. induction ds as [|d' ds IH]; intros o [|k]; simpl; [done|done| |]; intros [H1 H2]%andb_true_iff Hk Hi Hf.
  - simplify_eq. rewrite Nat.add_0_r in Hi. by rewrite Hi, Hf in H1.
  - apply (IH (S o) k H2 Hk); [|done]. by replace (S o + k)%nat with (o + S k)%nat by lia.
Qed.
Lemma fill_good table expected : Forall (Forall (λ c, cell_ok src c.1 c.2)) table → rows_ok expected (texts table) → Z.of_nat (length table) ≤ rows →
  Forall (λ it, good_item cols rows it ∧ cell_ok src (it_cell it) (it_text it)) (table_items 0 table).
Proof.
  intros Hcells Hok Hlen. rewrite Forall_forall. intros it (r & cells & Hr & (k & cell & d & Hk & (i & f & Hi & Hf & ->)%cell_items_elem)%row_items_elem)%table_items_elem.
  apply lookup_lt_Some in Hr as Hlt. cbn [it_cell it_text it_field]. split.
  - split.
    + split; [simpl; lia|]. destruct (layout_bounds _ _ _ _ _ _ Hrows Hcols) as (_ & Hl & Hcol & _).
      destruct (lookup_lt_is_Some_2 cols i) as [[s w] Hs]; [rewrite Hl; by eapply lookup_lt_Some|]. destruct (Hcol _ _ _ Hs) as (_ & _ & _ & f' & Hf' & Hw). simplify_eq. by exists s, w.
    + eapply Forall_lookup_1 in Hok as [_ Hok]; [|rewrite list_lookup_fmap, Hr; done]. eapply check_row_lookup; [exact Hok|rewrite list_lookup_fmap, Hk; done|exact Hi|exact Hf].
  - eapply Forall_lookup_1 in Hcells; [|exact Hr]. eapply Forall_lookup_1 in Hcells; [|exact Hk]. done.
Qed.
Lemma cols_in i s w : cols !! i = Some (s, w) → 0 ≤ s ∧ s + rows * w ≤ end_ ∧ 1 ≤ w.
Proof. intros H. by destruct (layout_bounds _ _ _ _ _ _ Hrows Hcols) as (_ & _ & Hcol & _); destruct (Hcol _ _ _ H) as (? & ? & ? & _). Qed.
Lemma cols_end : 0 ≤ end_.
Proof. by destruct (layout_bounds _ _ _ _ _ _ Hrows Hcols) as (? & _). Qed.
(** Memory outside the block is as it was. *)
Lemma fill_outside table pos expected m addr n : chain pos table → rows_ok expected (texts table) → Z.of_nat (length table) ≤ rows →
  disjoint_spans addr (Z.of_nat n) base (end_ + copied_table (texts table)) → load addr n (fill (table_items 0 table) (base + end_) m) = load addr n m.
Proof.
  intros Hch Hok Hlen Hd. pose proof (fill_good table expected (chain_cells _ _ Hch) Hok Hlen) as Hg. apply Forall_and in Hg as [Hg _].
  pose proof cols_end as He.
  pose proof (copied_table_nonneg (texts table)) as Hn0. rewrite <-(copied_table_items 0) in Hd, Hn0. apply fill_frame; [|unfold disjoint_spans in *; lia].
  eapply Forall_impl; [exact Hg|]. intros it Hit. pose proof (item_span src_ptr base cols rows end_ Hrows cols_in it 0 Hit). unfold disjoint_spans in *. lia.
Qed.
(** Memory that agrees with the pass on the block and on the source. *)
Definition agrees (n : Z) (m m' : Memory) : Prop := ∀ x, base ≤ x < base + n ∨ src_ptr ≤ x < src_ptr + Z.of_nat (length src) → m' x = m x.
Lemma fill_holds table pos expected m m' : chain pos table → rows_ok expected (texts table) → Z.of_nat (length table) ≤ rows → load src_ptr (length src) m = src →
  disjoint_spans src_ptr (Z.of_nat (length src)) base (end_ + copied_table (texts table)) →
  agrees (end_ + copied_table (texts table)) (fill (table_items 0 table) (base + end_) m) m' → filled table m'.
Proof.
  intros Hch Hok Hlen Hs Hd Hag r cells o cell d i f s w Hr Ho Hi Hf Hc.
  pose proof (fill_good table expected (chain_cells _ _ Hch) Hok Hlen) as Hg. apply Forall_and in Hg as [Hg Hcells].
  destruct (layout_bounds _ _ _ _ _ _ Hrows Hcols) as (He & _ & _ & Hsep).
  pose proof (copied_table_nonneg (texts table)) as Hn0. rewrite <-(copied_table_items 0) in Hn0, Hag. set (items := table_items 0 table) in *.
  assert (MkItem (Z.of_nat r) i f cell d ∈ items) as Hit.
  { apply table_items_elem. exists r, cells. split; [done|]. apply row_items_elem. exists o, cell, d. split; [done|]. apply cell_items_elem. by exists i, f. }
  pose proof (fill_content src_ptr base cols rows end_ Hrows cols_in Hsep items (base + end_) m Hg (table_keys 0 table) ltac:(lia)) as Hfill.
  rewrite Forall_forall in Hfill, Hcells, Hg. set (it := MkItem (Z.of_nat r) i f cell d) in *. destruct (Hfill _ Hit) as (t & T1 & T2 & T3 & T4).
  pose proof (item_span src_ptr base cols rows end_ Hrows cols_in it t (Hg _ Hit)) as Hspan.
  assert (slot base cols it = base + (s + Z.of_nat r * w)) as Hslot by (unfold slot; cbn; by rewrite Hc).
  rewrite <-Hslot. apply (item_holds it t m').
  - apply (Hg _ Hit).
  - apply (Hcells _ Hit).
  - rewrite <-Hs at 2. etransitivity; [apply load_agree; intros k Hk; apply Hag; lia|]. by eapply fill_outside.
  - rewrite <-T3 at 2. apply load_agree. intros k Hk. apply Hag. lia.
  - rewrite <-T4 at 2. apply load_agree. intros k Hk. apply Hag. lia.
Qed.
End Fill.
End Passes.
