(* ===== verification/CsvHeader.v ===== *)
(** * The header's hash table

    Open addressing with linear probing over a table that is never more than half full:
    every probe ends, an inserted name is found from its home slot on, names that occur
    twice are noticed, and the selection assigns each descriptor to the column of its name. *)
From Stdlib Require Import ZArith Lia.
From S2P Require Import Prelude Utf8 Text Hash TimeFormats TimeMemory Encoding EncodingSpec EscapeSpec Arena ArenaSpec Csv CsvSpec CsvCells CsvValues CsvTable CsvDecode.
Local Open Scope nat_scope.

(** ** Slots *)
Lemma cap_ones : HEADER_TABLE_CAP - 1 = Nat.ones 11.
Proof. reflexivity. Qed.
Lemma cap_pow : HEADER_TABLE_CAP = 2 ^ 11.
Proof. reflexivity. Qed.
Lemma cap_pos : 0 < HEADER_TABLE_CAP.
Proof. rewrite cap_pow. apply Nat.neq_0_lt_0, Nat.pow_nonzero. done. Qed.
Lemma caps : HEADER_CAP < HEADER_TABLE_CAP.
Proof. apply Nat.ltb_lt. reflexivity. Qed.
(** The slot [j] probes after [s]. *)
Definition adv (s j : nat) : nat := (s + j) mod HEADER_TABLE_CAP.
Lemma adv_lt s j : adv s j < HEADER_TABLE_CAP.
Proof. apply Nat.mod_upper_bound. pose proof cap_pos. lia. Qed.
Lemma adv_0 s : s < HEADER_TABLE_CAP → adv s 0 = s.
Proof. intros H. unfold adv. rewrite Nat.add_0_r. by apply Nat.mod_small. Qed.
Lemma next_slot s j : adv (Nat.land (s + 1) (HEADER_TABLE_CAP - 1)) j = adv s (S j).
Proof.
  rewrite cap_ones, Nat.land_ones, <-cap_pow. unfold adv. rewrite Nat.Div0.add_mod_idemp_l. f_equal. lia.
Qed.
Lemma next_slot_lt s : Nat.land (s + 1) (HEADER_TABLE_CAP - 1) < HEADER_TABLE_CAP.
Proof. rewrite cap_ones, Nat.land_ones, <-cap_pow. apply Nat.mod_upper_bound. pose proof cap_pos. lia. Qed.
Lemma header_slot_lt h : header_slot h < HEADER_TABLE_CAP.
Proof.
  unfold header_slot. change (Z.of_nat HEADER_TABLE_CAP - 1)%Z with (Z.ones 11). rewrite Z.land_ones by lia.
  pose proof (Z.mod_pos_bound h (2 ^ 11) ltac:(lia)). change HEADER_TABLE_CAP with (Z.to_nat (2 ^ 11)). lia.
Qed.

(** ** Tables *)
Definition used (table : list nat) : nat := length (filter (λ v, v ≠ 0) table).
Lemma used_insert table s v : table !! s = Some 0 → used (<[s := S v]> table) = S (used table).
Proof.
  intros H. unfold used. rewrite <-(take_drop_middle _ _ _ H) at 2. rewrite insert_take_drop by (by eapply lookup_lt_Some).
  rewrite !filter_app, !length_app, (filter_cons_True _ _ (drop (S s) table)), (filter_cons_False _ _ (drop (S s) table)) by (simpl; lia). simpl. lia.
Qed.
Lemma used_free table : used table < length table → ∃ p, table !! p = Some 0.
Proof.
  induction table as [|v table IH]; unfold used; simpl; [lia|]. destruct v as [|v]; [by exists 0|].
  rewrite filter_cons_True by done. simpl. intros H. destruct IH as [p Hp]; [unfold used; lia|]. by exists (S p).
Qed.
Lemma least_such (P : nat → Prop) `{∀ n, Decision (P n)} n : P n → ∃ m, m ≤ n ∧ P m ∧ ∀ k, k < m → ¬ P k.
Proof.
  induction n as [n IH] using lt_wf_ind. intros Hn. destruct (decide (Exists P (seq 0 n))) as [(k & Hk%elem_of_seq & Pk)%Exists_exists|Hno].
  - destruct Hk as [_ Hk]. destruct (IH k Hk Pk) as (m & ? & ? & ?). exists m. split_and!; [lia|done|done].
  - exists n. split_and!; [lia|done|]. intros k Hk Pk. apply Hno, Exists_exists. exists k. split; [apply elem_of_seq; lia|done].
Qed.
(** From every slot the probe meets taken slots, then a free one. *)
Definition probes_to (table : list nat) (s j : nat) : Prop :=
  table !! adv s j = Some 0 ∧ ∀ j', j' < j → ∃ k, table !! adv s j' = Some (S k).
Lemma probe_ends table s : length table = HEADER_TABLE_CAP → used table < HEADER_TABLE_CAP → s < HEADER_TABLE_CAP →
  ∃ j, j < HEADER_TABLE_CAP ∧ probes_to table s j.
Proof.
  intros Hl Hu Hs. destruct (used_free table) as [p Hp]; [lia|]. apply lookup_lt_Some in Hp as Hlt. rewrite Hl in Hlt.
  assert (∃ j, j < HEADER_TABLE_CAP ∧ table !! adv s j = Some 0) as (j & Hj & Hz).
  { unfold adv. destruct (decide (s ≤ p)) as [Hle|Hle].
    - exists (p - s). split; [lia|]. replace (s + (p - s)) with p by lia. by rewrite Nat.mod_small.
    - exists (HEADER_TABLE_CAP - s + p). split; [lia|]. replace (s + (HEADER_TABLE_CAP - s + p)) with (p + 1 * HEADER_TABLE_CAP) by lia. by rewrite Nat.Div0.mod_add, Nat.mod_small. }
  destruct (least_such (λ j, table !! adv s j = Some 0) j Hz) as (m & Hm & Hmz & Hmin). exists m. split; [lia|]. split; [done|]. intros j' Hj'.
  destruct (table !! adv s j') as [[|k]|] eqn:E; [by apply Hmin in Hj'|by exists k|]. apply lookup_ge_None in E. pose proof (adv_lt s j'). lia.
Qed.

(** ** The invariant *)
Section Names.
Context (ds : list bytes) (home : bytes → nat) (Hhome : ∀ d, home d < HEADER_TABLE_CAP).
(** A table of the first [n] names: each stands behind taken slots from its home slot on. *)
Record table_ok (n : nat) (table : list nat) : Prop := {
  t_len : length table = HEADER_TABLE_CAP;
  t_val : ∀ s k, table !! s = Some (S k) → k < n;
  t_used : used table ≤ n;
  t_path : ∀ k d, k < n → ds !! k = Some d → ∃ j, table !! adv (home d) j = Some (S k) ∧ ∀ j', j' < j → ∃ k', table !! adv (home d) j' = Some (S k')
}.
Lemma empty_ok : table_ok 0 (replicate HEADER_TABLE_CAP 0).
Proof.
  split; [by rewrite length_replicate|by intros s k [? _]%lookup_replicate_1| |lia].
  generalize HEADER_TABLE_CAP. intros c. unfold used. induction c as [|c IH]; [done|]. cbn [replicate]. rewrite filter_cons_False by lia. done.
Qed.
(** A name among the first [n] is on its own path to the first free slot. *)
Lemma path_found n table k d j : table_ok n table → k < n → ds !! k = Some d → probes_to table (home d) j →
  ∃ j', j' < j ∧ table !! adv (home d) j' = Some (S k).
Proof.
  intros Ht Hk Hd [Hz Hp]. destruct (t_path _ _ Ht k d Hk Hd) as (i & Hi & Hpi). exists i. split; [|done].
  destruct (Nat.lt_trichotomy i j) as [H|[->|H]]; [done|congruence|]. destruct (Hpi j H) as [k' Hk']. congruence.
Qed.
Lemma insert_ok n table d j : table_ok n table → ds !! n = Some d → probes_to table (home d) j → table_ok (S n) (<[adv (home d) j := S n]> table).
Proof.
  intros Ht Hd [Hz Hp]. pose proof (adv_lt (home d) j) as Hlt. rewrite <-(t_len _ _ Ht) in Hlt.
  assert (∀ s k, table !! s = Some (S k) → <[adv (home d) j := S n]> table !! s = Some (S k)) as Hkeep.
  { intros s k Hs. rewrite list_lookup_insert_ne; [done|]. intros E. rewrite E in Hz. congruence. }
  split.
  - rewrite length_insert. apply Ht.
  - intros s k [(_ & [= <-] & _)|[_ H]]%list_lookup_insert_Some; [lia|]. apply (t_val _ _ Ht) in H. lia.
  - rewrite used_insert by done. pose proof (t_used _ _ Ht). lia.
  - intros k d' Hk Hd'. destruct (decide (k = n)) as [->|Hne].
    + simplify_eq. exists j. split; [by apply list_lookup_insert_eq|]. intros j' Hj'. destruct (Hp j' Hj') as [k Hs]. exists k. by apply Hkeep.
    + destruct (t_path _ _ Ht k d') as (i & Hi & Hpi); [lia|done|]. exists i. split; [by apply Hkeep|]. intros j' Hj'. destruct (Hpi j' Hj') as [k' Hs]. exists k'. by apply Hkeep.
Qed.
Lemma table_probe n table d : table_ok n table → n ≤ HEADER_CAP → ∃ j, j < S HEADER_TABLE_CAP ∧ probes_to table (home d) j.
Proof.
  intros Ht Hn. destruct (probe_ends table (home d)) as (j & Hj & Hp); [apply Ht|pose proof (t_used _ _ Ht); pose proof caps; lia|apply Hhome|]. exists j. split; [lia|done].
Qed.
End Names.

(** ** Probes *)
Definition hash_of (d : bytes) : Z := match wyhash d 0 with Ret h => h | _ => 0%Z end.
Lemma hash_of_ok d : wyhash d 0 = Ret (hash_of d).
Proof. unfold hash_of. by destruct (wyhash_ret d 0) as (h & -> & _). Qed.
Definition home (d : bytes) : nat := header_slot (hash_of d).
Lemma home_lt d : home d < HEADER_TABLE_CAP.
Proof. apply header_slot_lt. Qed.

Section Probes.
Context (memchr : Z → bytes → option nat) (Hmemchr : ∀ c l, first_hit (λ b, b =? c)%Z l (memchr c l)).
Context (src : bytes) (physical : list Cell) (ds : list bytes).
Context (Hcells : ∀ k d, ds !! k = Some d → ∃ cell, physical !! k = Some cell ∧ cell_ok src cell d).
Definition hashed (n : nat) (hashes : list Z) : Prop := ∀ k d, k < n → ds !! k = Some d → hashes !! k = Some (hash_of d).
(** The name [d] is on the path from a slot to the free one. *)
Definition on_path (table : list nat) (s j : nat) (d : bytes) (k : nat) : Prop := ds !! k = Some d ∧ ∃ j', j' < j ∧ table !! adv s j' = Some (S k).

Abbreviation next s := (Nat.land (s + 1) (HEADER_TABLE_CAP - 1)).
Lemma probes_next table s j : probes_to table s (S j) → probes_to table (next s) j.
Proof. intros [Hz Hp]. split; [by rewrite next_slot|]. intros j' Hj'. rewrite next_slot. apply Hp. lia. Qed.
Lemma on_path_next table s j d k v : s < HEADER_TABLE_CAP → table !! s = Some (S v) → ds !! v ≠ Some d → on_path table s (S j) d k ↔ on_path table (next s) j d k.
Proof.
  intros Hs Hv Hne. unfold on_path. split.
  - intros [Hk ([|j'] & Hj' & Hs')]; [rewrite adv_0 in Hs' by done; congruence|]. split; [done|]. exists j'. split; [lia|]. by rewrite next_slot.
  - intros [Hk (j' & Hj' & Hs')]. split; [done|]. exists (S j'). split; [lia|]. by rewrite <-next_slot.
Qed.
Lemma insert_probe_ok fuel hashes i d table s j : j < fuel → s < HEADER_TABLE_CAP → probes_to table s j → (∀ s k, table !! s = Some (S k) → k < i) →
  ds !! i = Some d → hashed (S i) hashes →
  (insert_probe memchr fuel src physical hashes i table s = Ret None ∧ ∃ k, on_path table s j d k) ∨
  (insert_probe memchr fuel src physical hashes i table s = Ret (Some (<[adv s j := i + 1]> table)) ∧ ∀ k, ¬ on_path table s j d k).
Proof.
  intros Hf Hs Hp Hval Hd Hh. revert s j Hf Hs Hp. induction fuel as [|fuel IH]; intros s j Hf Hs [Hz Hp]; [lia|]. cbn [insert_probe]. destruct j as [|j].
  - rewrite adv_0 in * by done. rewrite Hz. cbn [unwrap res_bind Nat.eqb]. right. split; [done|]. intros k [_ (j' & ? & _)]. lia.
  - destruct (Hp 0 ltac:(lia)) as [k Hk]. rewrite adv_0 in Hk by done. rewrite Hk. cbn [unwrap res_bind Nat.eqb Nat.sub]. rewrite Nat.sub_0_r.
    pose proof (Hval _ _ Hk) as Hki. destruct (lookup_lt_is_Some_2 ds k) as [e He]; [apply lookup_lt_Some in Hd; lia|].
    rewrite (Hh i d), (Hh k e) by (lia || done). cbn [unwrap res_bind]. destruct (Hcells _ _ Hd) as (c & -> & Hc), (Hcells _ _ He) as (c' & -> & Hc'). cbn [unwrap res_bind].
    rewrite (equals_cell_ok memchr src c c' d e) by done.
    assert ((if (hash_of d =? hash_of e)%Z then Ret (bool_decide (d = e)) else Ret false) = Ret (bool_decide (d = e))) as ->.
    { destruct (Z.eqb_spec (hash_of d) (hash_of e)); [done|]. rewrite bool_decide_false; [done|]. by intros ->. }
    cbn [res_bind]. case_bool_decide as Heq.
    + left. split; [done|]. subst e. exists k. split; [done|]. exists 0. split; [lia|]. by rewrite adv_0.
    + rewrite <-next_slot. pose proof (λ k', on_path_next table s j d k' k Hs Hk ltac:(congruence)) as Hnext.
      destruct (IH (next s) j ltac:(lia) (next_slot_lt s) (probes_next _ _ _ (conj Hz Hp))) as [[-> [k' Hk']]|[-> Hno]].
      * left. split; [done|]. exists k'. by apply Hnext.
      * right. split; [done|]. intros k' Hk'%Hnext. by apply (Hno k').
Qed.
Lemma lookup_probe_ok fuel hashes n name table s j : j < fuel → s < HEADER_TABLE_CAP → probes_to table s j → (∀ s k, table !! s = Some (S k) → k < n) →
  n = length ds → hashed n hashes →
  (∃ k, on_path table s j name k ∧ lookup_probe memchr fuel src physical hashes table (hash_of name) name s = Ret (Some k)) ∨
  (lookup_probe memchr fuel src physical hashes table (hash_of name) name s = Ret None ∧ ∀ k, ¬ on_path table s j name k).
Proof.
  intros Hf Hs Hp Hval -> Hh. revert s j Hf Hs Hp. induction fuel as [|fuel IH]; intros s j Hf Hs [Hz Hp]; [lia|]. cbn [lookup_probe]. destruct j as [|j].
  - rewrite adv_0 in * by done. rewrite Hz. cbn [unwrap res_bind Nat.eqb]. right. split; [done|]. intros k [_ (j' & ? & _)]. lia.
  - destruct (Hp 0 ltac:(lia)) as [k Hk]. rewrite adv_0 in Hk by done. rewrite Hk. cbn [unwrap res_bind Nat.eqb Nat.sub]. rewrite Nat.sub_0_r.
    pose proof (Hval _ _ Hk) as Hki. destruct (lookup_lt_is_Some_2 ds k Hki) as [e He].
    rewrite (Hh k e) by done. cbn [unwrap res_bind]. destruct (Hcells _ _ He) as (c' & -> & Hc'). cbn [unwrap res_bind].
    rewrite (cell_equals_ok memchr Hmemchr src c' e Hc').
    assert ((if (hash_of e =? hash_of name)%Z then Ret (bool_decide (e = name)) else Ret false) = Ret (bool_decide (e = name))) as ->.
    { destruct (Z.eqb_spec (hash_of e) (hash_of name)); [done|]. rewrite bool_decide_false; [done|]. by intros ->. }
    cbn [res_bind]. case_bool_decide as Heq.
    + left. exists k. split; [|done]. subst e. split; [done|]. exists 0. split; [lia|]. by rewrite adv_0.
    + pose proof (λ k', on_path_next table s j name k' k Hs Hk ltac:(congruence)) as Hnext.
      destruct (IH (next s) j ltac:(lia) (next_slot_lt s) (probes_next _ _ _ (conj Hz Hp))) as [(k' & Hk' & ->)|[-> Hno]].
      * left. exists k'. split; [by apply Hnext|done].
      * right. split; [done|]. intros k' Hk'%Hnext. by apply (Hno k').
Qed.

(** ** The header's names *)
Abbreviation table_ok := (table_ok ds home).
Definition distinct (ns : list bytes) : Prop := NoDup ns ∧ [] ∉ ns.
(** The names go in exactly when none is empty and none occurs twice. *)
Lemma insert_headers_ok count i hashes table : i + count = length ds → length ds ≤ HEADER_CAP → table_ok i table → hashed i hashes →
  length hashes = HEADER_CAP → distinct (take i ds) →
  ∃ r, insert_headers memchr count src physical i hashes table = Ret r ∧
    match r with
    | None => ¬ distinct ds
    | Some (hashes, table) => distinct ds ∧ table_ok (length ds) table ∧ hashed (length ds) hashes
    end.
Proof.
  revert i hashes table. induction count as [|count IH]; intros i hashes table Hi Hcap Ht Hh Hl Hd; cbn [insert_headers].
  - eexists. split; [done|]. rewrite take_ge in Hd by lia. replace i with (length ds) in * by lia. done.
  - destruct (lookup_lt_is_Some_2 ds i) as [d Hdi]; [lia|]. destruct (Hcells _ _ Hdi) as (c & -> & Hc). cbn [unwrap res_bind].
    rewrite (decoded_len_ok memchr Hmemchr src c d Hc). cbn [res_bind]. case_bool_decide as Hz.
    { eexists. split; [done|]. intros [_ Hne]. apply Hne. injection Hz as Hz%nil_length_inv. subst d. by eapply list_elem_of_lookup_2. }
    destruct (cell_hash_ok memchr Hmemchr src c d Hc) as (h & Hw & ->). cbn [res_bind]. rewrite hash_of_ok in Hw. injection Hw as <-.
    assert (hashed (S i) (<[i := hash_of d]> hashes)) as Hh'.
    { intros k e Hk He. destruct (decide (k = i)) as [->|Hne]; [simplify_eq; apply list_lookup_insert_eq; lia|]. rewrite list_lookup_insert_ne by done. apply Hh; [lia|done]. }
    destruct (table_probe ds home home_lt i table d Ht ltac:(lia)) as (j & Hj & Hp).
    destruct (insert_probe_ok (S HEADER_TABLE_CAP) (<[i := hash_of d]> hashes) i d table (home d) j Hj (home_lt d) Hp (t_val _ _ _ _ Ht) Hdi Hh') as [[Hins (k & Hk & j' & Hj' & Hs)]|[Hins Hno]];
      fold (home d); rewrite Hins; cbn [res_bind].
    + eexists. split; [done|]. intros [Hnd _]. pose proof (NoDup_lookup _ _ _ _ Hnd Hk Hdi) as ->. pose proof (t_val _ _ _ _ Ht _ _ Hs). lia.
    + rewrite Nat.add_1_r. apply IH; [lia|done|by apply insert_ok|done|by rewrite length_insert|]. rewrite (take_S_r _ _ _ Hdi). destruct Hd as [Hd1 Hd2]. split.
      * apply NoDup_app. split_and!; [done| |apply NoDup_singleton]. intros x (k & Hk)%list_elem_of_lookup ->%list_elem_of_singleton.
        apply lookup_take_Some in Hk as [Hk Hki]. destruct (path_found ds home i table k d j Ht Hki Hk Hp) as (j' & Hj' & Hs). apply (Hno k). split; [done|]. by exists j'.
      * intros [?|E%list_elem_of_singleton]%elem_of_app; [done|]. subst d. done.
Qed.

(** The columns that were selected have the names of their descriptors, and every descriptor
    before [n] has its column. *)
Definition selected_ok (names : list bytes) (n : nat) (selected : list (option nat)) : Prop :=
  (∀ o i, selected !! o = Some (Some i) → i < n ∧ ∃ d, ds !! o = Some d ∧ names !! i = Some d) ∧
  (∀ o d, ds !! o = Some d → d ∈ take n names → ∃ i, selected !! o = Some (Some i)).
Lemma select_fields_ok fields names m n hashes table selected all : Forall2 (λ f d, descriptor_name f m = Some d ∧ name_hash f = hash_of d) fields names →
  drop n all = names → distinct ds → table_ok (length ds) table → hashed (length ds) hashes → length ds ≤ HEADER_CAP → length selected = HEADER_CAP → selected_ok all n selected →
  ∃ r, select_fields memchr fields src physical hashes table m n selected = Ret r ∧
    match r with
    | inl e => e = STATUS_INVALID ∧ ¬ names ⊆ ds
    | inr selected => names ⊆ ds ∧ length selected = HEADER_CAP ∧ selected_ok all (length all) selected
    end.
Proof.
  intros Hf. revert n selected. induction Hf as [|f d fields names [Hname Hhash] Hf IH]; intros n selected Hall Hd Ht Hh Hcap Hl Hsel; cbn [select_fields].
  - eexists. split; [done|]. split_and!; [by intros ? ?%elem_of_nil|done|]. destruct Hsel as [H1 H2]. apply drop_nil in Hall. split.
    + intros o i Ho. destruct (H1 o i Ho) as (_ & e & ? & He). split; [by eapply lookup_lt_Some|by exists e].
    + intros o e Ho He. apply (H2 o e Ho). by rewrite take_ge in He |- * by lia.
  - rewrite Hname. destruct (drop_lookup _ _ _ _ Hall) as (Hn & Hall' & Hnl). destruct (table_probe ds home home_lt _ table d Ht Hcap) as (j & Hj & Hp).
    rewrite Hhash. fold (home d). destruct (lookup_probe_ok (S HEADER_TABLE_CAP) hashes (length ds) d table (home d) j Hj (home_lt d) Hp (t_val _ _ _ _ Ht) eq_refl Hh) as [(k & [Hk _] & ->)|[-> Hno]];
      cbn [res_bind].
    2: { eexists. split; [done|]. split; [done|]. intros Hsub. assert (d ∈ ds) as (k & Hk)%list_elem_of_lookup by (apply Hsub; left).
      destruct (path_found ds home _ table k d j Ht (lookup_lt_Some _ _ _ Hk) Hk Hp) as (j' & Hj' & Hs). apply (Hno k). split; [done|]. by exists j'. }
    apply lookup_lt_Some in Hk as Hlt. rewrite (proj2 (Nat.ltb_lt _ _)) by lia.
    destruct (IH (S n) (<[k := Some n]> selected)) as (r & -> & Hr); [by rewrite <-Nat.add_1_r|done..|by rewrite length_insert| |].
    + destruct Hsel as [H1 H2]. split.
      * intros o i [(-> & [= <-] & _)|[_ Ho]]%list_lookup_insert_Some; [split; [lia|by exists d]|]. destruct (H1 o i Ho) as [? ?]. split; [lia|done].
      * intros o e Ho He. destruct (decide (o = k)) as [->|Hne]; [exists n; apply list_lookup_insert_eq; lia|]. rewrite list_lookup_insert_ne by done.
        rewrite (take_S_r _ _ _ Hn) in He. apply elem_of_app in He as [He|He%list_elem_of_singleton]; [by apply (H2 o e)|]. subst e.
        destruct Hd as [Hd _]. by pose proof (NoDup_lookup _ _ _ _ Hd Ho Hk).
    + eexists. split; [done|]. destruct r as [e|sel].
      * destruct Hr as [? Hno]. split; [done|]. intros Hsub. apply Hno. intros x Hx. apply Hsub. by right.
      * destruct Hr as (Hsub & ? & ?). split_and!; [|done..]. intros x [->|Hx]%elem_of_cons; [by eapply list_elem_of_lookup_2|by apply Hsub].
Qed.
End Probes.

(** ** The header record *)
Lemma run_header cells end_ o physical : length physical = HEADER_CAP → o ≤ HEADER_CAP →
  ∃ r, run_record (Some (HEADER_CAP, STATUS_LIMIT)) visit_header cells end_ o physical = Ret r ∧
    match r with
    | inr (n, p, physical') => end_ = EndAt p ∧ n = o + length cells ∧ n ≤ HEADER_CAP ∧ (∀ k, k < o → physical' !! k = physical !! k) ∧
        ∀ k c d, cells !! k = Some (c, d) → physical' !! (o + k) = Some c
    | inl e => status_ok e ∧ ((∃ p, end_ = EndAt p) → HEADER_CAP < o + length cells)
    end.
Proof.
  revert o physical. induction cells as [|[c d] cells IH]; intros o physical Hl Ho; cbn [run_record].
  - destruct end_ as [p| |]; eexists; (split; [done|]); [split_and!; [done|simpl; lia|lia|done|done]| |];
      (split; [|by intros [? ?]]); [|by left]. unfold over_limit. case_bool_decide; [by right|by left].
  - unfold over_limit. cbn [fmap option_fmap option_map fst snd]. case_bool_decide as E.
    + injection E as <-. eexists. split; [done|]. split; [by right|]. intros _. cbn [length]. lia.
    + assert (o < HEADER_CAP) as Hlt. { destruct (decide (o = HEADER_CAP)) as [->|]; [done|lia]. }
      unfold visit_header. rewrite Hl, (proj2 (Nat.ltb_lt _ _) Hlt). cbn [res_bind].
      destruct (IH (S o) (<[o := c]> physical)) as (r & Hr1 & Hr); [by rewrite length_insert|lia|]. exists r. split; [exact Hr1|]. destruct r as [e|[[n p] physical']].
      * destruct Hr as [? Hr]. split; [done|]. intros Hp. specialize (Hr Hp). simpl. lia.
      * destruct Hr as (-> & -> & Hn & H1 & H2). split_and!; [done|simpl; lia|lia| |].
        -- intros k Hk. rewrite H1 by lia. apply list_lookup_insert_ne. lia.
        -- intros [|k] c' d'; simpl.
           ++ intros [= <- <-]. rewrite Nat.add_0_r, H1 by lia. apply list_lookup_insert_eq. lia.
           ++ intros Hk. rewrite Nat.add_succ_r. by eapply (H2 k).
Qed.
Lemma parser_start_le src : parser_start src ≤ length src.
Proof. unfold parser_start. case_bool_decide as H; [|lia]. apply (f_equal length) in H. rewrite length_take in H. cbn [length] in H. lia. Qed.

(** A header a set of descriptors can be read by. *)
Definition header_ok (names ds : list bytes) : Prop := distinct ds ∧ names ⊆ ds ∧ length ds ≤ HEADER_CAP ∧ length names ≤ HEADER_CAP.
Definition described (fields : list CsvField) (names : list bytes) (m : Memory) : Prop :=
  Forall2 (λ f d, descriptor_name f m = Some d ∧ name_hash f = hash_of d) fields names.
(** What a header selects are descriptors, each once. *)
Lemma header_selection fields names ds header selected : length fields = length names → NoDup ds → header ≠ HEADER_ABSENT → selected_ok ds names (length names) selected →
  selection_ok header fields selected.
Proof.
  intros Hl Hnd Hh [Hs _]. assert (∀ o i, column_field header selected o = Some i → selected !! o = Some (Some i)) as Hcol.
  { intros o i. unfold column_field. rewrite (proj2 (Z.eqb_neq _ _) Hh). destruct (selected !! o) as [[j|]|]; simpl; congruence. }
  split.
  - intros _ o i Hi%Hcol. destruct (Hs o i Hi) as [? _]. lia.
  - intros o o' i Hi%Hcol Hi'%Hcol. destruct (Hs o i Hi) as (_ & d & Hd & Hn), (Hs o' i Hi') as (_ & d' & Hd' & Hn'). simplify_eq. by eapply NoDup_lookup.
Qed.
Lemma absent_selection fields selected : selection_ok HEADER_ABSENT fields selected.
Proof. split; [done|]. unfold column_field. simpl. congruence. Qed.
Section Header.
Context (memchr : Z → bytes → option nat) (memchr3 : Z → Z → Z → bytes → option nat).
Context (Hmemchr : ∀ c l, first_hit (λ b, b =? c)%Z l (memchr c l)).
Context (Hmemchr3 : ∀ a b c l, first_hit (λ x, (x =? a) || (x =? b) || (x =? c))%Z l (memchr3 a b c l)).
Context (src : bytes) (eol : Z) (Heol : eol_ok eol) (Hsrc : (Z.of_nat (length src) ≤ ISIZE_MAX)%Z).

(** A header is read exactly when the first record is one; what it selects. *)
Lemma read_header_ok fields names m : described fields names m →
  ∃ r, read_header memchr memchr3 src eol fields m = Ret r ∧
    match r with
    | inr (count, selected, pos) => ∃ ds, is_record eol (drop (parser_start src) src) ds (drop pos src) ∧ pos ≤ length src ∧ count = length ds ∧
        header_ok names ds ∧ selected_ok ds names (length names) selected
    | inl e => status_ok e ∧ ∀ ds rest, is_record eol (drop (parser_start src) src) ds rest → ¬ header_ok names ds
    end.
Proof.
  intros Hf. unfold read_header. pose proof (parser_start_le src) as Hle. destruct (decide (parser_start src = length src)) as [E|Hne].
  { unfold record. rewrite E, Nat.eqb_refl. cbn [res_bind]. eexists. split; [done|]. split; [by left|]. intros ds rest (d & r & Hd & Hr)%is_record_inv; [|done].
    rewrite drop_all in Hd. simpl in Hd. injection Hd as <- <-. intros [[_ Hno] _]. destruct Hr as [(_ & -> & _)|[[Hr ->]|(? & ? & Hr & _)]]; [apply Hno; left|apply Hno; left|done]. }
  assert (parser_start src < length src) as Hlt by lia. destruct (trace_exists memchr memchr3 Hmemchr Hmemchr3 src eol (parser_start src) Heol Hle) as (cells & end_ & Ht).
  rewrite (record_traced memchr memchr3 src eol (parser_start src) cells end_) by done.
  destruct (run_header cells end_ 0 (replicate HEADER_CAP cell_default)) as (r & -> & Hr); [by rewrite length_replicate|lia|]. cbn [res_bind].
  pose proof (tr_grammar _ _ _ _ _ _ _ Ht) as Hg. destruct r as [e|[[n p] physical]].
  { eexists. split; [done|]. destruct Hr as [He Hr]. split; [done|]. intros ds rest Hrec (_ & _ & Hcap & _). destruct end_ as [p| |]; [|by eapply Hg..]. destruct Hg as [Hg _].
    destruct (is_record_det _ _ _ _ _ _ Heol Hg Hrec) as [-> _]. rewrite length_map in Hcap. specialize (Hr (ex_intro _ p eq_refl)). lia. }
  destruct Hr as (-> & -> & Hcap & _ & Hphys). destruct Hg as [Hg Hpos]. set (ds := map snd cells) in *. cbn [Nat.add] in *.
  assert (length ds = length cells) as Hlen by (unfold ds; by rewrite length_map). rewrite <-Hlen in *.
  assert (∀ k d, ds !! k = Some d → ∃ cell, physical !! k = Some cell ∧ cell_ok src cell d) as Hcells.
  { intros k d Hk. unfold ds in Hk. rewrite list_lookup_fmap in Hk. destruct (cells !! k) as [[c d']|] eqn:Hc; [|done]. injection Hk as <-. exists c. split; [by eapply Hphys|].
    pose proof (tr_cells _ _ _ _ _ _ _ Ht) as Hall. eapply Forall_lookup_1 in Hall; [|exact Hc]. done. }
  destruct (insert_headers_ok memchr Hmemchr src physical ds Hcells (length ds) 0 (replicate HEADER_CAP 0%Z) (replicate HEADER_TABLE_CAP 0)) as (r & -> & Hr);
    [done|done|apply empty_ok|by intros ? ? ?%Nat.nlt_0_r|by rewrite length_replicate|split; [constructor|by intros ?%elem_of_nil]|]. cbn [res_bind].
  destruct r as [[hashes table]|].
  2: { eexists. split; [done|]. split; [by left|]. intros ds' rest Hrec [Hd _]. destruct (is_record_det _ _ _ _ _ _ Heol Hg Hrec) as [-> _]. done. }
  destruct Hr as (Hd & Htab & Hh). pose proof (Forall2_length _ _ _ Hf) as Hfl. destruct (Nat.ltb_spec HEADER_CAP (length fields)) as [Hmany|Hfew].
  { eexists. split; [done|]. split; [by left|]. intros ds' rest _ (_ & _ & _ & ?). lia. }
  destruct (select_fields_ok memchr Hmemchr src physical ds Hcells fields names m 0 hashes table (replicate HEADER_CAP None) names) as (r & -> & Hr);
    [done|by rewrite drop_0|done..|by rewrite length_replicate| |].
  { split; [by intros o i [? _]%lookup_replicate_1|]. by intros ? ? _ ?%elem_of_nil. }
  cbn [res_bind]. destruct r as [e|selected]; (eexists; split; [done|]).
  - destruct Hr as [-> Hno]. split; [by left|]. intros ds' rest Hrec (_ & Hsub & _). destruct (is_record_det _ _ _ _ _ _ Heol Hg Hrec) as [-> _]. done.
  - destruct Hr as (Hsub & Hl & Hsel). exists ds. split_and!; [done|lia|done| |done]. unfold header_ok. split_and!; [done..|lia].
Qed.
End Header.
