(* ===== verification/CsvEntry.v ===== *)
(** * What a call decodes

    The abstract reading of a CSV text by a set of descriptors, the arguments of a call as
    the entry point checks them, and the whole of [decode_source] against that reading. *)
From Stdlib Require Import ZArith Lia.
From S2P Require Import Prelude Utf8 Text Hash TimeFormats TimeMemory Encoding EncodingSpec EscapeSpec Arena ArenaSpec Csv CsvSpec CsvCells CsvValues CsvTable CsvDecode CsvHeader.
Local Open Scope Z_scope.

(** ** The reading *)
Section Reading.
Context (header eol : Z) (fields : list CsvField) (names : list bytes).
(** Column [o] is the one of descriptor [i]: the column of its name, or without a header of
    its place. *)
Definition column_of (hs : list bytes) (o i : nat) : Prop :=
  if header =? HEADER_ABSENT then o = i else ∃ d, hs !! o = Some d ∧ names !! i = Some d.
Definition row_ok (hs ds : list bytes) : Prop :=
  length ds = (if header =? HEADER_ABSENT then length fields else length hs) ∧
  ∀ o i d f, column_of hs o i → ds !! o = Some d → fields !! i = Some f → field_accepts f d = true.
(** The header of a text, and the text of its rows. *)
Definition data_of (src : bytes) (hs : list bytes) (rest : bytes) : Prop :=
  if header =? HEADER_ABSENT then hs = [] ∧ rest = drop (parser_start src) src
  else is_record eol (drop (parser_start src) src) hs rest ∧ header_ok names hs.
Definition is_csv (src : bytes) (hs : list bytes) (table : list (list bytes)) : Prop :=
  ∃ rest, data_of src hs rest ∧ is_table eol rest table ∧ Forall (row_ok hs) table.
(** The columns of so many rows and a copy of the whole text have an addressable size. *)
Definition fits (src : bytes) (rows : Z) : Prop :=
  ∃ size align, column_layout fields rows = Some (size, align) ∧ size + Z.of_nat (length src) ≤ ISIZE_MAX.
End Reading.

(** A text holds its fields. *)
Definition total_length (ds : list bytes) : nat := length (concat ds).
Lemma field_length eol l d rest : is_field eol l d rest → (length d + length rest ≤ length l)%nat.
Proof. intros [d' r _|d' r _ _]; simpl; rewrite length_app; simpl; pose proof (double_length d'); lia. Qed.
Lemma record_length eol l ds rest : is_record eol l ds rest → (total_length ds + length rest ≤ length l)%nat.
Proof.
  induction 1 as [l d H|l d rest H|l d l' ds rest H Hr IH]; apply field_length in H; unfold total_length in *; cbn [concat] in *; rewrite ?length_app in *; simpl in *; lia.
Qed.
Lemma table_length eol l rows : is_table eol l rows → (total_length (concat rows) ≤ length l)%nat.
Proof.
  induction 1 as [|l row rest rows _ Hr Ht IH]; unfold total_length in *; [simpl; lia|]. apply record_length in Hr. unfold total_length in Hr.
  cbn [concat]. rewrite concat_app, length_app. lia.
Qed.
Lemma copied_row_length header fields selected o ds : copied_row header fields selected o ds ≤ Z.of_nat (total_length ds).
Proof.
  revert o. induction ds as [|d ds IH]; intros o; [done|]. specialize (IH (S o)). unfold total_length in *. cbn [copied_row concat]. rewrite length_app.
  destruct (_ ≫= _) as [f|]; [|lia]. unfold copied_text. destruct (_ && _); simpl; lia.
Qed.
Lemma copied_table_length header fields selected rows : copied_table header fields selected rows ≤ Z.of_nat (total_length (concat rows)).
Proof.
  induction rows as [|ds rows IH]; [done|]. cbn [copied_table foldr]. fold (copied_table header fields selected rows). pose proof (copied_row_length header fields selected 0 ds).
  unfold total_length in *. cbn [concat]. rewrite concat_app, length_app. lia.
Qed.
Lemma copied_fits eol l header fields selected table : is_table eol l table → copied_table header fields selected table ≤ Z.of_nat (length l).
Proof. intros H%table_length. pose proof (copied_table_length header fields selected table). lia. Qed.
(** The bound on a block's size. *)
Lemma checked_total v : (total ← checked_usize v; if total <=? ISIZE_MAX then Some total else None) = if v <=? ISIZE_MAX then Some v else None.
Proof.
  cbn [mbind option_bind]. unfold checked_usize. destruct (Z.leb_spec v ISIZE_MAX) as [H|H].
  - rewrite (proj2 (Z.leb_le _ Encoding.USIZE_MAX)) by (unfold Encoding.USIZE_MAX, ISIZE_MAX in *; lia). cbn. by rewrite (proj2 (Z.leb_le v _)).
  - destruct (_ <=? Encoding.USIZE_MAX); [|done]. cbn. by rewrite (proj2 (Z.leb_gt v _)).
Qed.

(** ** The selection and the columns *)
(** A selection that stands for a header. *)
Definition selects (header : Z) (fields : list CsvField) (names hs : list bytes) (selected : list (option nat)) : Prop :=
  ∀ o i, column_field header selected o = Some i ↔ column_of header names hs o i.
Lemma check_row_iff header fields selected o ds : check_row header fields selected o ds = true ↔
  ∀ k d i, ds !! k = Some d → column_field header selected (o + k) = Some i → ∃ f, fields !! i = Some f ∧ field_accepts f d = true.
Proof.
  revert o. induction ds as [|d ds IH]; intros o; cbn [check_row]; [split; [by intros _ k ? ? ?|done]|]. rewrite andb_true_iff, IH. split.
  - intros [H1 H2] [|k] e i; simpl.
    + intros [= <-] Hi. rewrite Nat.add_0_r in Hi. rewrite Hi in H1. destruct (fields !! i) as [f|]; [by exists f|done].
    + intros Hk Hi. apply (H2 k e i Hk). by replace (S o + k)%nat with (o + S k)%nat by lia.
  - intros H. split.
    + specialize (H 0%nat d). rewrite Nat.add_0_r in H. destruct (column_field header selected o) as [i|]; [|done]. by destruct (H i eq_refl eq_refl) as (f & -> & ?).
    + intros k e i Hk Hi. apply (H (S k) e i Hk). by replace (o + S k)%nat with (S o + k)%nat by lia.
Qed.
Lemma rows_ok_iff header fields names hs selected expected table : selects header fields names hs selected →
  length fields = length names → expected = (if header =? HEADER_ABSENT then length fields else length hs) →
  rows_ok header fields selected expected table ↔ Forall (row_ok header fields names hs) table.
Proof.
  intros Hsel Hl ->. unfold rows_ok. apply Forall_proper; [|done]. intros ds. unfold row_ok. rewrite check_row_iff. cbn [Nat.add].
  split; intros [Hlen H]; (split; [done|]).
  - intros o i d f Hc Hd Hf. apply Hsel in Hc. destruct (H o d i Hd Hc) as (f' & Hf' & Ha). by simplify_eq.
  - intros o d i Hd Hc. apply Hsel in Hc. destruct (lookup_lt_is_Some_2 fields i) as [f Hf].
    { unfold column_of in Hc. destruct (header =? HEADER_ABSENT); [subst i; rewrite <-Hlen; by eapply lookup_lt_Some|].
      destruct Hc as (e & _ & He). rewrite Hl. by eapply lookup_lt_Some. }
    exists f. split; [done|]. by apply (H o i d f).
Qed.
Lemma selects_absent fields names hs selected : selects HEADER_ABSENT fields names hs selected.
Proof. intros o i. unfold column_field, column_of. simpl. split; congruence. Qed.
Lemma selects_header header fields names hs selected : header ≠ HEADER_ABSENT → NoDup names → selected_ok hs names (length names) selected →
  selects header fields names hs selected.
Proof.
  intros Hh Hnd [H1 H2] o i. unfold column_field, column_of. rewrite (proj2 (Z.eqb_neq _ _) Hh). split.
  - intros Hi. assert (selected !! o = Some (Some i)) as Ho by (destruct (selected !! o) as [[j|]|]; simpl in Hi; congruence). by destruct (H1 o i Ho) as [_ ?].
  - intros (d & Hd & Hi). destruct (H2 o d Hd) as [j Hj]; [rewrite take_ge by done; by eapply list_elem_of_lookup_2|].
    destruct (H1 o j Hj) as (_ & e & He & Hn). simplify_eq. rewrite (NoDup_lookup _ _ _ _ Hnd Hi Hn). by rewrite Hj.
Qed.

(** ** The whole call *)
Lemma is_table_det eol l rows rows' : eol_ok eol → is_table eol l rows → is_table eol l rows' → rows' = rows.
Proof.
  intros He H. revert rows'. induction H as [|l row rest rows Hne Hr Ht IH]; intros rows' H'; inversion H' as [|l' row' rest' rows'' Hne' Hr' Ht']; subst; try done.
  destruct (is_record_det _ _ _ _ _ _ He Hr Hr') as [-> ->]. by rewrite (IH _ Ht').
Qed.
Lemma data_of_det header eol names src hs rest hs' rest' : eol_ok eol → data_of header eol names src hs rest → data_of header eol names src hs' rest' → hs' = hs ∧ rest' = rest.
Proof.
  unfold data_of. intros He. destruct (header =? HEADER_ABSENT); [by intros [-> ->] [-> ->]|]. intros [H _] [H' _]. by eapply is_record_det.
Qed.

Section Call.
Context (memchr : Z → bytes → option nat) (memchr3 : Z → Z → Z → bytes → option nat).
Context (Hmemchr : ∀ c l, first_hit (λ b, b =? c) l (memchr c l)).
Context (Hmemchr3 : ∀ a b c l, first_hit (λ x, (x =? a) || (x =? b) || (x =? c)) l (memchr3 a b c l)).
Context (heap : list ArenaChunk → Z → option Z).
Context (src : bytes) (src_ptr header eol max_rows out : Z) (fields : list CsvField) (names : list bytes) (arena : Arena) (m : Memory).
Context (Hsrc : Z.of_nat (length src) ≤ ISIZE_MAX) (Heol : eol_ok eol) (Hheader : header = HEADER_PRESENT ∨ header = HEADER_ABSENT).
Context (Hmax : 0 ≤ max_rows) (Hfields : fields ≠ []) (Hnames : described fields names m).
Abbreviation is_csv := (is_csv header eol fields names src).

Lemma start_ok :
  ∃ r, (if header =? HEADER_PRESENT then read_header memchr memchr3 src eol fields m else Ret (inr (0%nat, replicate HEADER_CAP None, parser_start src))) = Ret r ∧
    match r with
    | inl e => status_ok e ∧ ∀ hs rest, ¬ data_of header eol names src hs rest
    | inr (count, selected, pos) => ∃ hs, data_of header eol names src hs (drop pos src) ∧ (pos ≤ length src)%nat ∧ selection_ok header fields selected ∧
        (NoDup names → selects header fields names hs selected) ∧
        (if header =? HEADER_PRESENT then count else length fields) = (if header =? HEADER_ABSENT then length fields else length hs)
    end.
Proof.
  unfold data_of. destruct Hheader as [-> | ->]; cbn [Z.eqb HEADER_PRESENT HEADER_ABSENT].
  - destruct (read_header_ok memchr memchr3 Hmemchr Hmemchr3 src eol Heol Hsrc fields names m Hnames) as (r & -> & Hr). exists r. split; [done|]. destruct r as [e|[[n selected] pos]].
    + destruct Hr as [? Hr]. split; [done|]. intros hs rest [H1 H2]. by apply (Hr hs rest).
    + destruct Hr as (hs & Hrec & Hp & -> & Hok & Hsel). exists hs. split_and!; [done|done|lia| | |done].
      * eapply header_selection; [by eapply Forall2_length|apply Hok|done|exact Hsel].
      * intros Hnd. by apply selects_header.
  - eexists. split; [done|]. exists []. split_and!; [done|apply parser_start_le|apply absent_selection|intros _; apply selects_absent|done].
Qed.

(** What the two passes agreed on. *)
Record decoded (hs : list bytes) (table : list (list (Cell * bytes))) (selected : list (option nat)) (pos expected : nat) (cols : list (Z * Z)) (end_ align : Z) : Prop := {
  de_data : data_of header eol names src hs (drop pos src);
  de_sel : selection_ok header fields selected;
  de_selects : NoDup names → selects header fields names hs selected;
  de_chain : chain memchr memchr3 src eol pos table;
  de_expected : expected = (if header =? HEADER_ABSENT then length fields else length hs);
  de_rows : rows_ok header fields selected expected (map (map snd) table);
  de_max : Z.of_nat (length table) ≤ max_rows;
  de_cols : layout_from fields true (Z.of_nat (length table)) 0 = Some (cols, end_);
  de_layout : column_layout fields (Z.of_nat (length table)) = Some (end_, align);
  de_total : end_ + copied_table header fields selected (map (map snd) table) ≤ ISIZE_MAX
}.
Lemma decoded_csv hs table selected pos expected cols end_ align : NoDup names → decoded hs table selected pos expected cols end_ align → is_csv hs (map (map snd) table).
Proof.
  intros Hnd Hd. exists (drop pos src). split_and!; [apply Hd|eapply chain_table; apply Hd|]. eapply rows_ok_iff; [by apply Hd|by eapply Forall2_length|apply Hd|apply Hd].
Qed.

Abbreviation run := (decode_source memchr memchr3 heap src src_ptr fields header eol max_rows out arena m).
Definition refused (e : Z) : Prop :=
  status_ok e ∧ (NoDup names → ∀ hs table, is_csv hs table → Z.of_nat (length table) ≤ max_rows → fits fields src (Z.of_nat (length table)) → False).

(** A call refuses and leaves everything as it was, or takes one block and writes the table
    into it, or has no row to write. *)
Lemma decode_source_ok :
  (∃ e, run = Ret (e, arena, m) ∧ refused e) ∨
  ∃ hs table selected pos expected cols end_ align, decoded hs table selected pos expected cols end_ align ∧
    let total := end_ + copied_table header fields selected (map (map snd) table) in
    run = if (length table =? 0)%nat then Ret (STATUS_OK, arena, m)
      else let* '(base, a, m) := alloc_zeroed heap total align arena m in
        Ret (STATUS_OK, a, store out (str_bytes base (Z.of_nat (length table)))
          (fill_items src_ptr base cols (table_items header fields selected 0 table) (base + end_) m)).
Proof.
  destruct start_ok as (r & Hstart & Hr). unfold decode_source. rewrite Hstart. cbn [res_bind]. destruct r as [e|[[count selected] pos]].
  { left. exists e. split; [done|]. destruct Hr as [He Hno]. split; [done|]. intros _ hs table (rest & Hd & _). by apply Hno in Hd. }
  destruct Hr as (hs & Hdata & Hpos & Hsel & Hselects & Hexp). rewrite Hexp. set (expected := if header =? HEADER_ABSENT then length fields else length hs) in *.
  assert (∀ e, status_ok e → (∀ table, is_table eol (drop pos src) table → rows_ok header fields selected expected table → Z.of_nat (length table) ≤ max_rows →
    fits fields src (Z.of_nat (length table)) → False) → refused e) as Hrefuse.
  { intros e He Hno. split; [done|]. intros Hnd hs' table (rest & Hd & Ht & Hok) Hlen Hfit. destruct (data_of_det _ _ _ _ _ _ _ _ Heol Hdata Hd) as [-> ->].
    apply (Hno table); [done| |done|done]. eapply rows_ok_iff; [by apply Hselects|by eapply Forall2_length|done|done]. }
  assert (∀ table, is_table eol (drop pos src) table → copied_table header fields selected table ≤ Z.of_nat (length src)) as Hcopied.
  { intros table Ht%(copied_fits _ _ header fields selected). rewrite length_drop in Ht. lia. }
  destruct (count_rows_ok memchr memchr3 Hmemchr Hmemchr3 src eol Heol Hsrc header fields selected Hsel (S (length src)) expected max_rows pos 0 0) as (r & -> & Hr);
    [lia|done|lia|unfold Encoding.USIZE_MAX; lia|unfold ISIZE_MAX in *; lia|]. cbn [res_bind]. destruct r as [e|[rows n]].
  { left. exists e. split; [done|]. destruct Hr as [He Hno]. apply Hrefuse; [done|]. intros table Ht Hok Hlen _. apply (Hno table); [done|done|lia|].
    specialize (Hcopied table Ht). unfold Encoding.USIZE_MAX, ISIZE_MAX in *. lia. }
  destruct Hr as (table & Hch & Hok & -> & Hlen & -> & Hn). rewrite !Z.add_0_l in *. set (rows := Z.of_nat (length table)) in *. set (n := copied_table header fields selected (map (map snd) table)) in *.
  pose proof (chain_table memchr memchr3 src eol pos table Hch) as Htab.
  assert (∀ e, status_ok e → ¬ (∃ size align, column_layout fields rows = Some (size, align) ∧ size + n ≤ ISIZE_MAX) → refused e) as Hrefuse'.
  { intros e He Hno. apply Hrefuse; [done|]. intros table' Ht' _ _ (size & align & Hlay & Hfit). pose proof (is_table_det _ _ _ _ Heol Htab Ht') as ->. rewrite length_map in Hlay.
    apply Hno. exists size, align. split; [done|]. specialize (Hcopied _ Htab). lia. }
  destruct (column_layout fields rows) as [[size align]|] eqn:Hlay.
  2: { left. exists STATUS_LIMIT. split; [done|]. apply Hrefuse'; [by right|]. by intros (? & ? & ? & _). }
  destruct (column_layout_from_layout _ _ _ _ _ _ _ Hlay) as (cols & Hcols).
  rewrite checked_total. destruct (Z.leb_spec (size + n) ISIZE_MAX) as [Hfit|Hbig].
  2: { left. exists STATUS_LIMIT. split; [done|]. apply Hrefuse'; [by right|]. intros (? & ? & [= <- <-] & ?). lia. }
  right. exists hs, table, selected, pos, expected, cols, size, align. split; [split; done || lia|]. cbn zeta. fold n.
  destruct (Nat.eqb_spec (length table) 0) as [Hz|Hz]; [by rewrite (proj2 (Z.eqb_eq rows 0)) by lia|]. rewrite (proj2 (Z.eqb_neq rows 0)) by lia.
  destruct (alloc_zeroed heap (size + n) align arena m) as [[[base a] m']| |]; [|done..]. cbn [res_bind].
  set (offsets := if header =? HEADER_PRESENT then map fst cols else []).
  assert ((if header =? HEADER_PRESENT then column_offsets fields true rows 0 else Ret []) = Ret offsets) as ->.
  { unfold offsets. destruct (header =? HEADER_PRESENT); [|done]. by eapply column_offsets_layout. }
  cbn [res_bind]. unfold rows at 1. rewrite Nat2Z.id.
  rewrite (fill_rows_ok memchr memchr3 Hmemchr src eol Hsrc header fields selected Hheader src_ptr base rows cols size offsets ltac:(lia) Hcols) by (done || (intros E; unfold offsets; by rewrite E)).
  cbn [res_bind]. rewrite copied_table_items. fold n. rewrite Nat.eqb_refl. cbn [negb orb]. by rewrite <-Z.add_assoc, Z.eqb_refl.
Qed.
End Call.
