(* ===== verification/CsvClaims.v ===== *)
(** * The entry point

    The arguments [align_rt_csv_decode_soa_v1] accepts, that a call returns unless the
    block it needs is refused, which texts it accepts, and what memory holds afterwards. *)
From Stdlib Require Import ZArith Lia.
From S2P Require Import Prelude Utf8 Text Hash TimeFormats TimeMemory Encoding EncodingSpec EscapeSpec Arena ArenaSpec Csv CsvSpec CsvCells CsvValues CsvTable CsvDecode CsvHeader CsvEntry.
Local Open Scope Z_scope.

(** ** Arguments *)
Definition valid_fields (fields : list CsvField) (names : list bytes) (m : Memory) : Prop :=
  Forall2 (λ f d, descriptor_name f m = Some d ∧ source_identifier d = true ∧ name_hash f = hash_of d ∧ is_Some (field_width (tag f)) ∧ reserved f = 0) fields names.
#[export] Instance valid_fields_dec fields names m : Decision (valid_fields fields names m).
Proof. unfold valid_fields. apply _. Defined.
Lemma validate_descriptors_ok fields m : ∃ b, validate_descriptors fields m = Ret b ∧ (b = true ↔ ∃ names, valid_fields fields names m).
Proof.
  induction fields as [|f fields IH]; cbn [validate_descriptors]; [exists true; split; [done|]; split; [exists []; constructor|done]|].
  assert (∀ (P : Prop), (∀ d, descriptor_name f m = Some d → source_identifier d = true → name_hash f = hash_of d → is_Some (field_width (tag f)) → reserved f = 0 → P) → (∃ names, valid_fields (f :: fields) names m) → P) as Hno.
  { intros P H (names & Hv). unfold valid_fields in Hv. inversion Hv as [|x d l l' (? & ? & ? & ? & ?)]; subst. by eapply H. }
  destruct (descriptor_name f m) as [d|] eqn:Hn; [|exists false; split; [done|]; split; [done|by apply Hno]].
  destruct (source_identifier d) eqn:Hi; cbn [negb]; [|exists false; split; [done|]; split; [done|apply Hno; congruence]]. rewrite hash_of_ok. cbn [res_bind].
  destruct (Z.eqb_spec (hash_of d) (name_hash f)) as [Hh|Hh]; cbn [negb]; [|exists false; split; [done|]; split; [done|apply Hno; congruence]].
  case_bool_decide as Hw; [exists false; split; [done|]; split; [done|apply Hno; intros ? _ _ _ [? E]; congruence]|].
  destruct (Z.eqb_spec (reserved f) 0) as [Hr|Hr]; cbn [negb]; [|exists false; split; [done|]; split; [done|by apply Hno]].
  destruct IH as (b & Hb & Hiff). exists b. split; [done|]. rewrite Hiff. split.
  - intros (names & Hv). exists (d :: names). constructor; [|done]. split_and!; [done|done|done|by apply not_eq_None_Some|done].
  - intros (names & Hv). unfold valid_fields in Hv. inversion Hv as [|x e l l' _ Hv']; subst. by exists l'.
Qed.

(** The arguments of a call, and what the descriptors and the text are. *)
Record Args := MkArgs { a_input : Z; a_input_len : Z; a_fields : Z; a_n_fields : Z; a_arena : Z; a_header : Z; a_eol : Z; a_max_rows : Z; a_out : Z }.
(** Memory once the result is cleared, as every later read finds it. *)
Definition cleared (c : Args) (m : Memory) : Memory := store (a_out c) (str_bytes 0 0) m.
Definition call_text (c : Args) (m : Memory) : bytes := load (a_input c) (Z.to_nat (a_input_len c)) (cleared c m).
Definition call_fields (c : Args) (m : Memory) : list CsvField :=
  map (λ i, load_field (a_fields c + 32 * Z.of_nat i) (cleared c m)) (seq 0 (Z.to_nat (a_n_fields c))).
Record good_call (c : Args) (m : Memory) (names : list bytes) : Prop := {
  g_out : a_out c ≠ 0 ∧ a_out c mod 8 = 0;
  g_arena : a_arena c ≠ 0 ∧ a_arena c mod 8 = 0;
  g_header : a_header c = HEADER_PRESENT ∨ a_header c = HEADER_ABSENT;
  g_eol : eol_ok (a_eol c);
  g_rows : 0 ≤ a_max_rows c;
  g_fields : checked_slice (a_fields c) (a_n_fields c) 32 8 = Some (a_n_fields c);
  g_names : valid_fields (call_fields c m) names (cleared c m);
  g_input : 0 ≤ a_input_len c ≤ ISIZE_MAX ∧ (0 < a_input_len c → a_input c ≠ 0) ∧ a_input c + a_input_len c ≤ Encoding.USIZE_MAX;
  g_utf8 : is_Some (from_utf8 (call_text c m))
}.
Lemma checked_slice_count raw count n : checked_slice raw count 32 8 = Some n → n = count ∧ 0 < n.
Proof.
  unfold checked_slice, safe_len. destruct (_ && _) eqn:H; [|done]. cbn [mbind option_bind]. apply andb_true_iff in H as [H1 H2]. b2p.
  destruct (Z.eqb_spec count 0); [done|]. destruct (_ || _); [done|]. unfold mbind, option_bind. destruct (checked_usize _); [|done]. repeat case_if; try done. intros [= <-]. lia.
Qed.

Section Entry.
Context (memchr : Z → bytes → option nat) (memchr3 : Z → Z → Z → bytes → option nat).
Context (heap : list ArenaChunk → Z → option Z).
Definition decode (c : Args) (arena : Arena) (m : Memory) : res (Z * Arena * Memory) :=
  align_rt_csv_decode_soa_v1 memchr memchr3 heap (a_input c) (a_input_len c) (a_fields c) (a_n_fields c) (a_arena c) (a_header c) (a_eol c) (a_max_rows c) (a_out c) arena m.
Definition decode_good (c : Args) (arena : Arena) (m : Memory) : res (Z * Arena * Memory) :=
  decode_source memchr memchr3 heap (call_text c m) (a_input c) (call_fields c m) (a_header c) (a_eol c) (a_max_rows c) (a_out c) arena (cleared c m).

Definition early (c : Args) (arena : Arena) (m : Memory) (r : res (Z * Arena * Memory)) : Prop :=
  ∃ e m', r = Ret (e, arena, m') ∧ (e = STATUS_BAD_ABI ∨ e = STATUS_INVALID) ∧ (m' = m ∨ m' = cleared c m).

(** A good call gets to the text; any other is refused before it. *)
Ltac refuse := right; split; [intros ? []; unfold eol_ok in *|eexists _, _; split; [reflexivity|split; [by (left + right)|by (left + right)]]].
Lemma decode_cases c arena m :
  (∃ names, good_call c m names ∧ decode c arena m = decode_good c arena m) ∨ ((∀ names, ¬ good_call c m names) ∧ early c arena m (decode c arena m)).
Proof.
  unfold decode, align_rt_csv_decode_soa_v1. fold (cleared c m). destruct ((a_out c =? 0) || _ || _ || _) eqn:H1; [refuse; lia|]. destruct (negb _ || negb _ || (a_max_rows c <? 0)) eqn:H2; [refuse; lia|].
  destruct (checked_slice _ _ _ _) as [n|] eqn:H3; [|refuse; congruence]. apply checked_slice_count in H3 as Hn. destruct Hn as [-> Hn].
  fold (call_fields c m). destruct (validate_descriptors_ok (call_fields c m) (cleared c m)) as (b & -> & Hb). cbn [res_bind].
  destruct b; cbn [negb]; [|refuse; enough (false = true) by done; apply Hb; by exists names]. destruct Hb as [Hb _]. destruct (Hb eq_refl) as [names Hnames]. clear Hb.
  unfold safe_len. destruct ((0 <=? a_input_len c) && _) eqn:H4; [|refuse; lia]. destruct ((0 <? a_input_len c) && (_ =? 0)) eqn:H5; [refuse; lia|].
  destruct (Z.ltb_spec USIZE_MAX (a_input c + a_input_len c)) as [H6|H6]; [refuse; unfold Encoding.USIZE_MAX, USIZE_MAX in *; lia|].
  fold (call_text c m). case_bool_decide as H7; [refuse; by eapply not_eq_None_Some|]. left. exists names. split; [|done].
  split; unfold eol_ok, Encoding.USIZE_MAX, USIZE_MAX in *; try done; try lia. by apply not_eq_None_Some.
Qed.
End Entry.

(** ** Good calls *)
Lemma length_load addr n m : length (load addr n m) = n.
Proof. unfold load. by rewrite length_map, length_seq. Qed.
Lemma good_text c m names : good_call c m names → Z.of_nat (length (call_text c m)) = a_input_len c ∧ a_input_len c ≤ ISIZE_MAX.
Proof. intros []. unfold call_text. rewrite length_load. lia. Qed.
Lemma good_fields c m names : good_call c m names → call_fields c m ≠ [] ∧ described (call_fields c m) names (cleared c m).
Proof.
  intros []. split.
  - apply checked_slice_count in g_fields0 as [_ ?]. intros E%(f_equal length). unfold call_fields in E. rewrite length_map, length_seq in E. simpl in E. lia.
  - eapply Forall2_impl; [exact g_names0|]. intros f d (? & _ & ? & _). done.
Qed.
(** An allocation returns or panics. *)
Lemma usize_fuel v : usize v ≠ OutOfFuel.
Proof. unfold usize. by case_if. Qed.
Lemma alloc_fuel heap size align zeroed a m : alloc_class heap size align zeroed a m ≠ OutOfFuel.
Proof.
  assert (∀ {A B} (x : res A) (k : A → res B), x ≠ OutOfFuel → (∀ y, k y ≠ OutOfFuel) → res_bind x k ≠ OutOfFuel) as Hbind by (intros A B [] k ? ?; done || simpl; auto).
  assert (∀ al b o, aligned_off al b o ≠ OutOfFuel) as Hal by (intros; unfold aligned_off; repeat (apply Hbind; [apply usize_fuel|intros]); apply usize_fuel).
  assert (∀ al, fresh_chunk heap size al zeroed a m ≠ OutOfFuel) as Hfresh.
  { intros al. unfold fresh_chunk. apply Hbind; [apply usize_fuel|intros cap]. apply Hbind; [case_if; [done|]; by destruct (heap _ _)|intros base].
    apply Hbind; [apply Hal|intros o]. apply Hbind; [apply usize_fuel|done]. }
  unfold alloc_class, next_power_of_two. apply Hbind; [apply usize_fuel|intros al]. case_if; [done|]. destruct (last (chunks a)) as [ch|]; [|apply Hfresh].
  apply Hbind; [apply Hal|intros o]. apply Hbind; [apply usize_fuel|intros e]. case_if; [done|apply Hfresh].
Qed.

(** What the two search functions of the crate [memchr] promise: the first hit. *)
Definition finds_one (memchr : Z → bytes → option nat) : Prop := ∀ c l, first_hit (λ b, b =? c) l (memchr c l).
Definition finds_three (memchr3 : Z → Z → Z → bytes → option nat) : Prop := ∀ a b c l, first_hit (λ x, (x =? a) || (x =? b) || (x =? c)) l (memchr3 a b c l).
Lemma memchr_ref_finds : finds_one memchr_ref.
Proof. intros c l. unfold memchr_ref. rewrite (find_byte_ext _ (λ b, b =? c)) by (intros b; apply Z.eqb_sym). apply find_byte_hit. Qed.
Lemma memchr3_ref_finds : finds_three memchr3_ref.
Proof. intros a b c l. apply find_byte_hit. Qed.

(** A good call in one step. *)
Section Good.
Context (memchr : Z → bytes → option nat) (memchr3 : Z → Z → Z → bytes → option nat) (H1 : finds_one memchr) (H3 : finds_three memchr3).
Context (heap : list ArenaChunk → Z → option Z) (c : Args) (arena : Arena) (m : Memory).
Abbreviation text := (call_text c m).
Abbreviation fields := (call_fields c m).
Lemma good_outcome names : good_call c m names →
  (∃ e, decode memchr memchr3 heap c arena m = Ret (e, arena, cleared c m) ∧ refused text (a_header c) (a_eol c) (a_max_rows c) fields names e) ∨
  ∃ hs table selected pos expected cols end_ align,
    decoded memchr memchr3 text (a_header c) (a_eol c) (a_max_rows c) fields names hs table selected pos expected cols end_ align ∧
    decode memchr memchr3 heap c arena m =
      if (length table =? 0)%nat then Ret (STATUS_OK, arena, cleared c m)
      else let* '(base, a, m) := alloc_zeroed heap (end_ + copied_table (a_header c) fields selected (map (map snd) table)) align arena (cleared c m) in
        Ret (STATUS_OK, a, store (a_out c) (str_bytes base (Z.of_nat (length table)))
          (fill_items (a_input c) base cols (table_items (a_header c) fields selected 0 table) (base + end_) m)).
Proof.
  intros Hg. destruct (decode_cases memchr memchr3 heap c arena m) as [(names' & _ & ->)|[Hno _]]; [|by apply Hno in Hg].
  destruct (good_text _ _ _ Hg) as [Ht Hl], (good_fields _ _ _ Hg) as [Hne Hd]. destruct Hg. apply decode_source_ok; try done. lia.
Qed.
End Good.

(** A table with rows takes some bytes, and an allocatable number of them. *)
Lemma layout_some fields rows cols e : fields ≠ [] → 0 < rows → layout_from fields true rows 0 = Some (cols, e) → 0 < e.
Proof.
  intros Hne Hr H. destruct (layout_bounds _ _ _ _ _ _ (Z.lt_le_incl _ _ Hr) H) as (_ & Hl & Hc & _). destruct fields as [|f fields]; [done|].
  destruct cols as [|[s w] cols]; [done|]. destruct (Hc 0%nat s w eq_refl) as (? & ? & ? & _). nia.
Qed.
Lemma decoded_size memchr memchr3 src header eol max_rows fields names hs table selected pos expected cols end_ align : fields ≠ [] →
  decoded memchr memchr3 src header eol max_rows fields names hs table selected pos expected cols end_ align → length table ≠ 0%nat →
  0 < end_ + copied_table header fields selected (map (map snd) table) ≤ ISIZE_MAX.
Proof.
  intros Hf De Hne. pose proof (layout_some fields (Z.of_nat (length table)) cols end_ Hf ltac:(lia) (de_cols _ _ _ _ _ _ _ _ _ _ _ _ _ _ _ _ De)).
  pose proof (copied_table_nonneg header fields selected (map (map snd) table)). pose proof (de_total _ _ _ _ _ _ _ _ _ _ _ _ _ _ _ _ De). lia.
Qed.

(** The block of a good call over an accepted text: its columns, laid out for the rows the
    text has, and behind them what its strings need. *)
Definition wants_block (memchr : Z → bytes → option nat) (memchr3 : Z → Z → Z → bytes → option nat) (c : Args) (m : Memory) (total align : Z) : Prop :=
  ∃ names hs table selected pos expected cols end_,
    good_call c m names ∧ decoded memchr memchr3 (call_text c m) (a_header c) (a_eol c) (a_max_rows c) (call_fields c m) names hs table selected pos expected cols end_ align ∧
    table ≠ [] ∧ total = end_ + copied_table (a_header c) (call_fields c m) selected (map (map snd) table).

(** C24. A call of the CSV decoder comes back whenever the heap grants its one block: with
    whatever arguments and memory, at any point of the arena's life, it returns a status —
    no index, slice, conversion or bound it computes is out of range, and no search runs
    on — except where the call and its text are accepted, the text has rows, and the block of
    their columns and strings neither fits the arena's last chunk nor is granted by the heap
    as a chunk of its own; only then it aborts. *)
Theorem csv_decode_returns memchr memchr3 heap c s : finds_one memchr → finds_three memchr3 → heap_sound heap → alive heap s →
  match decode memchr memchr3 heap c (arena s) (memory s) with
  | Ret _ => True
  | Panic => ∃ total align, wants_block memchr memchr3 c (memory s) total align ∧ refuses heap (arena s) total align
  | OutOfFuel => False
  end.
Proof.
  intros H1 H3 Hheap Halive. pose proof (alive_inv heap Hheap s Halive) as Hi.
  destruct (decode_cases memchr memchr3 heap c (arena s) (memory s)) as [(names & Hg & _)|[_ (e & m' & -> & _)]]; [|done].
  destruct (good_outcome memchr memchr3 H1 H3 heap c (arena s) (memory s) names Hg) as [(e & -> & _)|(hs & table & selected & pos & expected & cols & end_ & align & De & ->)]; [done|].
  destruct (Nat.eqb_spec (length table) 0) as [|Hne]; [done|]. set (total := end_ + _).
  assert (0 < total ≤ ISIZE_MAX) as Htotal. { destruct (good_fields _ _ _ Hg) as [Hf _]. eapply decoded_size; [exact Hf|exact De|exact Hne]. }
  destruct (column_layout_align (call_fields c (memory s)) true (Z.of_nat (length table)) 0 0 end_ align) as (k & Hk & ->); [lia|apply De|].
  unfold alloc_zeroed. pose proof (alloc_fuel heap total (2 ^ k) true (arena s) (cleared c (memory s))) as Hfuel.
  destruct (alloc_class _ _ _ _ _ _) as [[[base a] m']| |] eqn:Ha; [done| |done].
  apply (alloc_panics heap Hheap) in Ha; [|done|done|lia]. exists total, (2 ^ k). split; [|done].
  exists names, hs, table, selected, pos, expected, cols, end_. split_and!; [done|exact De|by destruct table|done].
Qed.

(** C23. The CSV decoder accepts exactly the tables: on a good call the status is OK only for
    a text that the grammar reads, with or without a header, as rows of the expected width
    whose fields have values under their descriptors, no more of them than allowed; any
    other status leaves the arena alone and the result empty, and then the text is no such
    table, or its columns and a copy of the text exceed the address space. *)
Theorem csv_decode_accepts memchr memchr3 heap c arena m names status a m' : finds_one memchr → finds_three memchr3 →
  good_call c m names → NoDup names → decode memchr memchr3 heap c arena m = Ret (status, a, m') →
  let table_of := is_csv (a_header c) (a_eol c) (call_fields c m) names (call_text c m) in
  if decide (status = STATUS_OK) then ∃ hs table, table_of hs table ∧ Z.of_nat (length table) ≤ a_max_rows c
  else (status = STATUS_INVALID ∨ status = STATUS_LIMIT) ∧ a = arena ∧ m' = cleared c m ∧
    ∀ hs table, table_of hs table → Z.of_nat (length table) ≤ a_max_rows c → ¬ fits (call_fields c m) (call_text c m) (Z.of_nat (length table)).
Proof.
  intros H1 H3 Hg Hnd H table_of.
  destruct (good_outcome memchr memchr3 H1 H3 heap c arena m names Hg) as [(e & Hrun & He & Hno)|(hs & table & selected & pos & expected & cols & end_ & align & De & Hrun)].
  - rewrite Hrun in H. injection H as <- <- <-. rewrite decide_False by (by destruct He as [-> | ->]). split_and!; [done|done|done|]. intros hs table ? ? ?. by eapply (Hno Hnd hs table).
  - assert (status = STATUS_OK) as ->.
    { rewrite Hrun in H. destruct (length table =? 0)%nat; [by injection H|]. by apply res_bind_Ret_inv in H as ([[? ?] ?] & _ & [= <- _ _]). }
    rewrite decide_True by done. exists hs, (map (map snd) table). split; [|rewrite length_map; apply De].
    destruct (good_fields _ _ _ Hg) as [_ Hd]. by eapply decoded_csv.
Qed.

(** ** What memory holds *)
(** Clearing the result is a write of the arena's user. *)
Lemma cleared_inv heap s c : heap_sound heap → alive heap s → owned heap s (a_out c) 16 → life_inv (MkLife (arena s) (cleared c (memory s)) (live s)).
Proof.
  intros Hh Ha Ho. eapply alive_inv; [exact Hh|]. eapply alive_step; [exact Ha|]. apply (step_write heap s (a_out c) (str_bytes 0 0)).
  destruct Ho as [?|[? _]]; [by left|by right].
Qed.
(** Every descriptor has a column in a row. *)
Lemma column_exists header eol fields names src hs rest ds i f : data_of header eol names src hs rest → row_ok header fields names hs ds → length fields = length names →
  fields !! i = Some f → ∃ o d, column_of header names hs o i ∧ ds !! o = Some d.
Proof.
  unfold data_of, row_ok, column_of. intros Hd [Hlen _] Hl Hf. apply lookup_lt_Some in Hf. destruct (header =? HEADER_ABSENT).
  - destruct (lookup_lt_is_Some_2 ds i) as [d Hi]; [lia|]. by exists i, d.
  - destruct (lookup_lt_is_Some_2 names i) as [n Hn]; [lia|]. destruct Hd as [_ (_ & Hsub & _)]. assert (n ∈ hs) as (o & Ho)%list_elem_of_lookup by (apply Hsub; by eapply list_elem_of_lookup_2).
    destruct (lookup_lt_is_Some_2 ds o) as [d Hi]; [apply lookup_lt_Some in Ho; lia|]. exists o, d. split; [|done]. by exists n.
Qed.

(** The table in its block, and the result written. *)
Lemma table_stored memchr memchr3 src header eol max_rows fields names src_ptr out base m hs table selected pos expected cols end_ align :
  Z.of_nat (length src) ≤ ISIZE_MAX → header = HEADER_PRESENT ∨ header = HEADER_ABSENT → length fields = length names → NoDup names →
  decoded memchr memchr3 src header eol max_rows fields names hs table selected pos expected cols end_ align →
  let total := end_ + copied_table header fields selected (map (map snd) table) in
  let rows := Z.of_nat (length table) in
  let m' := store out (str_bytes base rows) (fill_items src_ptr base cols (table_items header fields selected 0 table) (base + end_) m) in
  load src_ptr (length src) m = src → disjoint_spans src_ptr (Z.of_nat (length src)) base total → disjoint_spans out 16 base total →
  disjoint_spans src_ptr (Z.of_nat (length src)) out 16 →
  (∀ r ds i f start width, map (map snd) table !! r = Some ds → fields !! i = Some f → cols !! i = Some (start, width) →
    ∃ o d, column_of header names hs o i ∧ ds !! o = Some d ∧ holds_text f d (base + (start + Z.of_nat r * width)) m') ∧
  ∀ addr n, disjoint_spans addr (Z.of_nat n) base total → disjoint_spans addr (Z.of_nat n) out 16 → load addr n m' = load addr n m.
Proof.
  intros Hsrc Hheader Hlen Hnd [Ddata Dsel Dselects Dch Dexp Drows _ Dcols _ _] total rows m' Hs Hd1 Hd2 Hd3. split.
  - intros r ds i f start width Hr Hf Hc. rewrite list_lookup_fmap in Hr. destruct (table !! r) as [cells|] eqn:Hcells; [|done]. injection Hr as <-.
    assert (row_ok header fields names hs (map snd cells)) as Hrow.
    { eapply Forall_lookup_1; [eapply rows_ok_iff; [by apply Dselects|done|exact Dexp|exact Drows]|]. by rewrite list_lookup_fmap, Hcells. }
    destruct (column_exists _ _ _ _ _ _ _ _ _ _ Ddata Hrow Hlen Hf) as (o & d & Ho & Hod). exists o, d. split; [done|]. split; [done|].
    rewrite list_lookup_fmap in Hod. destruct (cells !! o) as [[cell d']|] eqn:Hcell; [|done]. injection Hod as <-. apply Dselects in Ho; [|done].
    eapply (fill_holds memchr memchr3 src eol header fields selected Dsel src_ptr base rows cols end_ ltac:(lia) Dcols table pos expected m m'); try done.
    intros x Hx. apply store_out. change (length (str_bytes base rows)) with 16%nat. unfold disjoint_spans in *. lia.
  - intros addr n Hb Ho. unfold m'. rewrite load_store_disjoint by done. by apply (fill_outside memchr memchr3 src eol header fields selected src_ptr base rows cols end_ ltac:(lia) Dcols table pos expected).
Qed.

(** C22. On success the arena's block holds the table: the result is the number of rows and
    the block's address, the columns lie one after the other as the layout says, and the slot
    of every row and every descriptor holds the value of that row's field in the
    descriptor's column — of its name, or without a header of its place — an integer, a
    float, a bool or a character as its bytes, a string as a view of its text, in the source
    or, where quotes were doubled, of a copy.  Memory the program owns is not touched. *)
Theorem csv_decode_stores memchr memchr3 heap s c names a m' : finds_one memchr → finds_three memchr3 → heap_sound heap → alive heap s →
  owned heap s (a_input c) (a_input_len c) → owned heap s (a_out c) 16 → disjoint_spans (a_input c) (a_input_len c) (a_out c) 16 →
  good_call c (memory s) names → NoDup names → decode memchr memchr3 heap c (arena s) (memory s) = Ret (STATUS_OK, a, m') →
  let fields := call_fields c (memory s) in
  ∃ hs table base cols end_,
    is_csv (a_header c) (a_eol c) fields names (call_text c (memory s)) hs table ∧
    load (a_out c) 16 m' = str_bytes base (Z.of_nat (length table)) ∧
    layout_from fields true (Z.of_nat (length table)) 0 = Some (cols, end_) ∧
    (∀ r ds i f start width, table !! r = Some ds → fields !! i = Some f → cols !! i = Some (start, width) →
      ∃ o d, column_of (a_header c) names hs o i ∧ ds !! o = Some d ∧ holds_text f d (base + (start + Z.of_nat r * width)) m') ∧
    ∀ addr n, owned heap s addr (Z.of_nat n) → disjoint_spans addr (Z.of_nat n) (a_out c) 16 → load addr n m' = load addr n (memory s).
Proof.
  intros H1 H3 Hheap Halive Hown Hout Hdis Hg Hnd H fields.
  destruct (good_text _ _ _ Hg) as [Ht Hl], (good_fields _ _ _ Hg) as [Hne Hd]. fold fields in Hne, Hd. pose proof (Forall2_length _ _ _ Hd) as Hlen.
  assert (∀ addr n, disjoint_spans addr (Z.of_nat n) (a_out c) 16 → load addr n (cleared c (memory s)) = load addr n (memory s)) as Hclear by (intros; by apply load_store_disjoint).
  destruct (good_outcome memchr memchr3 H1 H3 heap c (arena s) (memory s) names Hg) as [(e & Hrun & [He|He] & _)|(hs & table & selected & pos & expected & cols & end_ & align & De & Hrun)];
    [rewrite Hrun in H; injection H as E _ _; by rewrite He in E..|]. rewrite Hrun in H. clear Hrun. fold fields in De, H. pose proof (decoded_csv _ _ _ _ _ _ _ _ _ Hd _ _ _ _ _ _ _ _ Hnd De) as Hcsv.
  pose proof De as [Ddata Dsel Dselects Dch _ Drows _ Dcols _ _]. set (rows := Z.of_nat (length table)) in *. destruct (Nat.eqb_spec (length table) 0) as [Hz|Hz].
  - injection H as <- <-. apply length_zero_iff_nil in Hz as ->. exists hs, [], 0, cols, end_. split_and!; [exact Hcsv|apply (load_store_same (a_out c) (str_bytes 0 0))|exact Dcols|done|].
    intros addr n _ Hdn. by apply Hclear.
  - apply res_bind_Ret_inv in H as ([[base a'] m1] & Ha & [= <- <-]). set (total := end_ + copied_table (a_header c) fields selected (map (map snd) table)) in *.
    assert (0 < total) as Htot. { pose proof (layout_some _ _ _ _ Hne (ltac:(lia) : 0 < rows) Dcols). pose proof (copied_table_nonneg (a_header c) fields selected (map (map snd) table)). lia. }
    assert (∀ addr n, owned heap s addr n → disjoint_spans addr n base total ∧ ∀ x, addr ≤ x < addr + n → m1 x = cleared c (memory s) x) as Hkept.
    { intros addr n Ho. eapply (owned_kept heap Hheap (MkLife (arena s) (cleared c (memory s)) (live s))); [by apply (cleared_inv heap)|exact Ho|done|exact Ha]. }
    destruct (Hkept _ _ Hown) as [Hd1 Hk1], (Hkept _ _ Hout) as [Hd2 _].
    destruct (table_stored memchr memchr3 (call_text c (memory s)) (a_header c) (a_eol c) (a_max_rows c) fields names (a_input c) (a_out c) base m1 hs table selected pos expected cols end_ align) as [Hrows Hkeep];
      try done; [lia|apply Hg| |by rewrite Ht|by rewrite Ht|].
    { unfold call_text. rewrite length_load. apply load_agree. intros i Hi. apply Hk1. lia. }
    exists hs, (map (map snd) table), base, cols, end_. rewrite !length_map. fold rows. split_and!; [exact Hcsv|apply (load_store_same (a_out c) (str_bytes base rows))|exact Dcols|exact Hrows|].
    intros addr n Ho Hdn. destruct (Hkept _ _ Ho) as [Hdb Hk]. rewrite Hkeep by done. rewrite <-Hclear by done. apply load_agree. intros i Hi. apply Hk. lia.
Qed.

(** ** Integers *)
(** The integer a slot of the given width holds. *)
Definition read_int (signed : bool) (width addr : Z) (m : Memory) : Z :=
  let v := from_le_bytes (load addr (Z.to_nat width) m) in if signed && (2 ^ (8 * width - 1) <=? v) then v - 2 ^ (8 * width) else v.
Lemma wrapped_int signed width n : int_width width → int_range signed width n →
  (if signed && (2 ^ (8 * width - 1) <=? n mod 2 ^ (8 * width)) then n mod 2 ^ (8 * width) - 2 ^ (8 * width) else n mod 2 ^ (8 * width)) = n.
Proof.
  intros Hw Hr. destruct (width_bounds _ Hw) as (Hb & Hp & _). unfold int_range in Hr. set (h := 2 ^ (8 * width - 1)) in *. rewrite Hb in *. destruct signed; cbn [andb].
  - destruct (Z.ltb_spec n 0) as [Hn|Hn].
    + replace (n mod (2 * h)) with (n + 2 * h) by (apply (Z.mod_unique_pos _ _ (-1)); lia). rewrite (proj2 (Z.leb_le _ _)); lia.
    + rewrite Z.mod_small by lia. rewrite (proj2 (Z.leb_gt _ _)); lia.
  - by rewrite Z.mod_small by lia.
Qed.

(** C25. Integer columns are exact: a field of an integer descriptor has a value exactly when
    its text is a decimal numeral — digits, after a minus sign only where the column is
    signed — of an integer in the range of the column's width, however many leading zeros
    it has; and a slot that holds the text's value reads back as that integer. *)
Theorem csv_integer_exact f d signed width : field_shape (tag f) = Some (KIND_INT, signed, width) →
  let numeral n := ∃ neg, is_decimal d neg n ∧ (neg = true → signed = true) ∧ int_range signed width n in
  (field_accepts f d = true ↔ ∃ n, numeral n) ∧ ∀ addr m, holds_text f d addr m → numeral (read_int signed width addr m).
Proof.
  intros Hs numeral. assert (int_width width) as Hw by (by apply shape_cases in Hs as [[_ ?]|[[? _]|[[? _]|[[? _]|[? _]]]]]).
  unfold field_accepts, holds_text, word_value. rewrite Hs. cbn [Z.eqb KIND_INT KIND_STR Pos.eqb orb]. split.
  - rewrite bool_decide_eq_true. split.
    + intros [v (neg & n & H1 & H2 & H3 & _)%parse_integer_iff]; [|done]. by exists n, neg.
    + intros (n & neg & H1 & H2 & H3). exists (n mod 2 ^ (8 * width)). apply parse_integer_iff; [done|]. by exists neg, n.
  - intros addr m (v & (neg & n & H1 & H2 & H3 & ->)%parse_integer_iff & Hl); [|done]. unfold numeral, read_int. rewrite Hl, from_le_bytes_le.
    + rewrite wrapped_int by done. by exists neg.
    + destruct Hw as [->|[->|[->| ->]]]; by apply Z.mod_pos_bound.
Qed.
Lemma csv_integer_exact_witness : field_shape (tag (MkField 0 0 0 I64_TAG 0)) = Some (KIND_INT, true, 8) ∧ field_accepts (MkField 0 0 0 I64_TAG 0) (str "-07") = true ∧
  ∃ neg, is_decimal (str "-07") neg (read_int true 8 64 (store 64 (le_bytes 8 (2 ^ 64 - 7)) (λ _, 0))).
Proof.
  split; [reflexivity|]. split; [reflexivity|]. destruct (csv_integer_exact (MkField 0 0 0 I64_TAG 0) (str "-07") true 8 eq_refl) as [_ H].
  destruct (H 64 (store 64 (le_bytes 8 (2 ^ 64 - 7)) (λ _, 0))) as (neg & Hd & _).
  - exists (2 ^ 64 - 7). split; vm_compute; reflexivity.
  - exists neg. exact Hd.
Defined.

(** ** A call *)
(** The text and the descriptors in the caller's memory, and an arena with nothing in it. *)
Definition example_memory (text : bytes) : Memory := place_fields two_fields (store 1024 text (λ _, 0)).
Definition example_args (text : bytes) (header max_rows : Z) : Args := MkArgs 1024 (Z.of_nat (length text)) 2048 2 256 header EOL_LF max_rows 512.
Definition two_names : list bytes := [str "x"; str "name"].
Definition short_text : bytes := str "1,a,2".
Lemma example_good text header max_rows : header = HEADER_PRESENT ∨ header = HEADER_ABSENT → 0 ≤ max_rows → Z.of_nat (length text) ≤ 100 →
  bool_decide (valid_fields (call_fields (example_args text header max_rows) (example_memory text)) two_names (cleared (example_args text header max_rows) (example_memory text))) = true →
  is_Some (from_utf8 (call_text (example_args text header max_rows) (example_memory text))) → good_call (example_args text header max_rows) (example_memory text) two_names.
Proof.
  intros Hh Hr Hl Hv%bool_decide_eq_true Hu. assert (512 ≠ 0 ∧ 512 mod 8 = 0 ∧ 256 ≠ 0 ∧ 256 mod 8 = 0 ∧ checked_slice 2048 2 32 8 = Some 2 ∧ eol_ok EOL_LF) as (H1 & H2 & H3 & H4 & H5 & H6) by (clear; split_and!; by left || done).
  split; [exact (conj H1 H2)|exact (conj H3 H4)|exact Hh|exact H6|exact Hr|exact H5|exact Hv| |exact Hu].
  cbn [example_args a_input a_input_len]. unfold ISIZE_MAX, Encoding.USIZE_MAX. lia.
Qed.
Lemma two_names_distinct : NoDup two_names.
Proof. apply (bool_decide_eq_true_1 _). by vm_compute. Qed.

Definition status (r : res (Z * Arena * Memory)) : option Z := match r with Ret (s, _, _) => Some s | _ => None end.
Lemma status_ret r st : status r = Some st → ∃ a m, r = Ret (st, a, m).
Proof. destruct r as [[[s a] m]| |]; [|done..]. intros [= <-]. by eexists _, _. Qed.
(** With room for one chunk the call returns; from a heap that grants nothing the block is
    refused. *)
Definition exhausted_heap (cs : list ArenaChunk) (cap : Z) : option Z := None.
Definition panicked (r : res (Z * Arena * Memory)) : bool := match r with Panic => true | _ => false end.
Lemma csv_decode_returns_witness :
  let c := example_args quoted_text HEADER_PRESENT 10 in let m := example_memory quoted_text in
  (∃ r, decode memchr_ref memchr3_ref one_block c align_rt_arena_begin m = Ret r) ∧
  ∃ total align, wants_block memchr_ref memchr3_ref c m total align ∧ refuses exhausted_heap align_rt_arena_begin total align.
Proof.
  intros c m. pose proof (λ heap H, csv_decode_returns memchr_ref memchr3_ref heap c (MkLife align_rt_arena_begin m []) memchr_ref_finds memchr3_ref_finds H (alive_begin heap m)) as Hcall.
  cbn [memory Arena.arena] in Hcall. split.
  - specialize (Hcall one_block one_block_sound).
    assert (panicked (decode memchr_ref memchr3_ref one_block c align_rt_arena_begin m) = false) as E by (vm_compute; reflexivity).
    destruct (decode _ _ one_block c align_rt_arena_begin m) as [r| |]; [exists r; reflexivity|discriminate E|destruct Hcall].
  - assert (heap_sound exhausted_heap) as Hnone by (intros cs cap base; discriminate). specialize (Hcall exhausted_heap Hnone).
    assert (panicked (decode memchr_ref memchr3_ref exhausted_heap c align_rt_arena_begin m) = true) as E by (vm_compute; reflexivity).
    destruct (decode _ _ exhausted_heap c align_rt_arena_begin m) as [r| |]; [discriminate E|exact Hcall|discriminate E].
Defined.
Lemma csv_decode_accepts_witness :
  let c := example_args short_text HEADER_ABSENT 10 in let m := example_memory short_text in
  ∃ a m', decode memchr_ref memchr3_ref one_block c align_rt_arena_begin m = Ret (STATUS_INVALID, a, m') ∧ a = align_rt_arena_begin ∧
    ∀ hs table, is_csv HEADER_ABSENT EOL_LF (call_fields c m) two_names short_text hs table → Z.of_nat (length table) ≤ 10 → ¬ fits (call_fields c m) short_text (Z.of_nat (length table)).
Proof.
  intros c m. assert (good_call c m two_names) as Hg by (apply example_good; [by right|lia|vm_compute; discriminate|vm_compute; reflexivity|vm_compute; by eexists]).
  destruct (status_ret (decode memchr_ref memchr3_ref one_block c align_rt_arena_begin m) STATUS_INVALID) as (a & m' & E); [vm_compute; reflexivity|].
  pose proof (csv_decode_accepts memchr_ref memchr3_ref one_block c align_rt_arena_begin m two_names STATUS_INVALID a m' memchr_ref_finds memchr3_ref_finds Hg two_names_distinct E) as H.
  rewrite decide_False in H by done. destruct H as (_ & Ha & _ & H). exists a, m'. split; [exact E|]. split; [exact Ha|].
  assert (call_text c m = short_text) as Ht by (vm_compute; reflexivity). rewrite Ht in H. exact H.
Defined.
Lemma csv_decode_stores_witness :
  let c := example_args quoted_text HEADER_PRESENT 10 in let m := example_memory quoted_text in
  ∃ a m' hs table base, decode memchr_ref memchr3_ref one_block c align_rt_arena_begin m = Ret (STATUS_OK, a, m') ∧
    is_csv HEADER_PRESENT EOL_LF (call_fields c m) two_names quoted_text hs table ∧ load 512 16 m' = str_bytes base (Z.of_nat (length table)) ∧ load 1024 33 m' = load 1024 33 m.
Proof.
  intros c m. assert (good_call c m two_names) as Hg by (apply example_good; [by left|lia|vm_compute; discriminate|vm_compute; reflexivity|vm_compute; by eexists]).
  destruct (status_ret (decode memchr_ref memchr3_ref one_block c align_rt_arena_begin m) STATUS_OK) as (a & m' & E); [vm_compute; reflexivity|].
  assert (∀ addr n, addr + n ≤ 4096 → owned one_block (MkLife align_rt_arena_begin m []) addr n) as Hown.
  { intros addr n H. right. split; [constructor|]. intros [|ch cs] cap base; unfold one_block; [|done]. destruct (cap <=? 2 ^ 62); [|done]. intros [= <-]. left. lia. }
  assert (owned one_block (MkLife align_rt_arena_begin m []) (a_input c) (a_input_len c)) as H1 by (apply Hown; vm_compute; discriminate).
  assert (owned one_block (MkLife align_rt_arena_begin m []) (a_out c) 16) as H2 by (apply Hown; vm_compute; discriminate).
  assert (disjoint_spans (a_input c) (a_input_len c) (a_out c) 16) as H3 by (right; vm_compute; discriminate).
  pose proof (csv_decode_stores memchr_ref memchr3_ref one_block (MkLife align_rt_arena_begin m []) c two_names a m' memchr_ref_finds memchr3_ref_finds one_block_sound (alive_begin one_block m) H1 H2 H3) as H.
  cbn [memory Arena.arena] in H. specialize (H Hg two_names_distinct E). cbv zeta in H.
  destruct H as (hs & table & base & cols & end_ & Hcsv & Hres & _ & _ & Hkeep).
  assert (call_text c m = quoted_text) as Ht by (vm_compute; reflexivity). rewrite Ht in Hcsv.
  exists a, m', hs, table, base. split; [exact E|]. split; [exact Hcsv|]. split; [exact Hres|]. apply (Hkeep 1024 33%nat); [apply Hown; vm_compute; discriminate|right; vm_compute; discriminate].
Defined.
