(* ===== verification/Mir.v ===== *)
(** * Mid-level IR ([crates/align_mir/src/lib.rs])

    The part of the IR the passes modelled here read: functions as graphs of basic blocks,
    whose statements define temporaries once ([Let]) and assign slots ([Store]).  Every variant
    of [Rvalue] and [Stmt] no modelled pass looks at is one constructor here, with the
    operation it is, the slots it names and the temporaries it defines beside its own. *)
From Stdlib Require Import ZArith Lia.
From stdpp Require Import gmap.
From S2P Require Import Prelude Types.
Local Open Scope nat_scope.

(** A function's logical name. *)
Abbreviation ProgramCall := bytes.
Abbreviation BlockId := nat.
Abbreviation Slot := nat.
Abbreviation ValueId := nat.

Inductive Const := CInt (v : Z) (ty : Ty) | CFloat (bits : Z) (ty : Ty) | CChar (c : Z) | CBool (b : bool) | CUnit.
(** A borrowed place keeps its root slot and the slot of its cleanup bit; the projections
    from it are not read here. *)
Inductive Operand :=
  | OConst (c : Const)
  | OValue (id : ValueId)
  | OArg (i : nat)
  | OBorrowedPlace (slot : Slot) (cleanup : option Slot)
  | OBorrowedElementPlace (slot : Slot) (cleanup : option Slot) (index : Operand)
  | OBorrowedFixedElementPlace (base : Slot) (index : nat) (cleanup : option Slot)
  | OBorrowedCleanupArg (i : nat).

Inductive StaticDataTarget :=
  | SBytes (bs : bytes) (nul_terminated : bool)
  | SFunction (target : ProgramCall)
  | SRecord (relocations : list StaticDataTarget).
(** The relocations of a static record, of which only the targets are read. *)
Record StaticData := MkStaticData { relocations : list StaticDataTarget }.

Inductive DirectCall := DProgram (target : ProgramCall) | DRuntime (key : bytes).
Inductive Rvalue :=
  | RUse (op : Operand)
  | RLoad (slot : Slot)
  | RCall (target : DirectCall) (args : list Operand)
  | RCallWithCleanup (target : ProgramCall) (args : list Operand) (cleanup : ValueId)
  | RFnAddr (target : ProgramCall)
  | RClosure (lifted : ProgramCall) (captures : list Operand)
  | RSqliteCallbackDescriptor (target : ProgramCall)
  | RStaticData (data : StaticData)
  | RParMapParallel (func : ProgramCall) (stages : list (option ProgramCall))
  | RParMapReduce (func : ProgramCall)
  | RResultErr (op : Operand)
  | ROther (op : nat) (slots : list Slot) (defs : list ValueId).
Inductive Stmt :=
  | Let (id : ValueId) (rv : Rvalue)
  | Store (slot : Slot) (op : Operand)
  | DropFlagMoveOut (slot flag : Slot)
  | Drop (slot : Slot)
  | DropField (slot : Slot) (path : list nat)
  | DropValue (op : Operand)
  | SOther (op : nat) (slots : list Slot).
Inductive Term :=
  | Goto (next : BlockId)
  | Branch (cond : Operand) (yes no : BlockId)
  | StrMatch (scrutinee : Operand) (cases : list (bytes * BlockId)) (otherwise : BlockId)
  | Return (value : option Operand)
  | ReturnWithCleanup (value cleanup : Operand)
  | Unreachable.
Record Block := MkBlock { b_id : BlockId; stmts : list Stmt; stmt_lines : list (Z * Z); term : Term }.

Inductive Successor := Then | Else.
Inductive ExceptionalKind := ResultPropagate | BoundsCheck | RangeCheck | Utf8Boundary | DivByZero | LenMismatch.
Record ExceptionalEdge := MkEdge { e_block : BlockId; unlikely : Successor; kind : ExceptionalKind }.
Record Function := MkFunction {
  name : ProgramCall; ret : Ty; slots : list Ty; value_tys : list Ty; blocks : list Block; entry : BlockId;
  exceptional_edges : list ExceptionalEdge; cold : bool; exportable : bool
}.
Record Program := MkProgram { fns : list Function }.

Definition successors (t : Term) : list BlockId :=
  match t with
  | Goto next => [next]
  | Branch _ yes no => [yes; no]
  | StrMatch _ cases otherwise => map snd cases ++ [otherwise]
  | Return _ | ReturnWithCleanup _ _ | Unreachable => []
  end.

(** The slots an operand lends to a call. *)
Definition operand_mentions_slot (operand : Operand) (slot : Slot) : bool :=
  match operand with
  | OBorrowedPlace s cleanup | OBorrowedElementPlace s cleanup _ | OBorrowedFixedElementPlace s _ cleanup =>
      (s =? slot) || bool_decide (cleanup = Some slot)
  | OArg _ | OBorrowedCleanupArg _ | OValue _ | OConst _ => false
  end.

(** The temporaries a statement defines, and the slots it may change. *)
Definition defines (s : Stmt) : list ValueId :=
  match s with
  | Let id (RCallWithCleanup _ _ cleanup) => [id; cleanup]
  | Let id (ROther _ _ defs) => id :: defs
  | Let id _ => [id]
  | _ => []
  end.
Definition may_change (s : Stmt) (slot : Slot) : bool :=
  match s with
  | Let _ (RCall _ args) | Let _ (RCallWithCleanup _ args _) => existsb (λ op, operand_mentions_slot op slot) args
  | Let _ (ROther _ slots _) | SOther _ slots => bool_decide (slot ∈ slots)
  | Let _ _ => false
  | Store s _ | DropFlagMoveOut s _ | Drop s | DropField s _ => s =? slot
  | DropValue op => operand_mentions_slot op slot
  end.

(** ** The records of exceptional branches *)
Inductive EdgeError := OutOfRange (f : ProgramCall) (b : BlockId) | NotABranch (f : ProgramCall) (b : BlockId) | Duplicate (f : ProgramCall) (b : BlockId).
Definition is_branch (t : Term) : bool := match t with Branch _ _ _ => true | _ => false end.
Fixpoint validate_edges (f : Function) (edges : list ExceptionalEdge) (seen : gset BlockId) : option EdgeError :=
  match edges with
  | [] => None
  | e :: edges =>
    match blocks f !! e_block e with
    | None => Some (OutOfRange (name f) (e_block e))
    | Some block =>
      if negb (b_id block =? e_block e) || negb (is_branch (term block)) then Some (NotABranch (name f) (e_block e))
      else if bool_decide (e_block e ∈ seen) then Some (Duplicate (name f) (e_block e))
      else validate_edges f edges ({[e_block e]} ∪ seen)
    end
  end.
Fixpoint validate_functions (fns : list Function) : option EdgeError :=
  match fns with
  | [] => None
  | f :: fns => match validate_edges f (exceptional_edges f) ∅ with Some e => Some e | None => validate_functions fns end
  end.
Definition validate_exceptional_edges (p : Program) : option EdgeError := validate_functions (fns p).

(** ** The graph of a function *)
Definition edge (f : Function) (b b' : BlockId) : Prop := ∃ block, blocks f !! b = Some block ∧ b' ∈ successors (term block).
(** The blocks of a walk, the first one included, the last one not. *)
Inductive walk (f : Function) : BlockId → list BlockId → BlockId → Prop :=
  | walk_nil b : walk f b [] b
  | walk_step b b' l c : edge f b b' → walk f b' l c → walk f b (b :: l) c.
Definition reaches (f : Function) (b : BlockId) : Prop := ∃ l, walk f (entry f) l b.
(** Every way from the entry to [b] goes through [d]. *)
Definition dominates (f : Function) (d b : BlockId) : Prop := ∀ l, walk f (entry f) l b → d ∈ l ++ [b].
(** Blocks are numbered by their places, and the entry and every target of a jump is one. *)
Record well_formed (f : Function) : Prop := {
  wf_ids : ∀ b block, blocks f !! b = Some block → b_id block = b;
  wf_entry : entry f < length (blocks f);
  wf_edges : ∀ b b', edge f b b' → b' < length (blocks f)
}.
(** The same, decided. *)
Definition well_formedb (f : Function) : bool :=
  (entry f <? length (blocks f)) && bool_decide (map b_id (blocks f) = seq 0 (length (blocks f)))
  && forallb (λ block, forallb (λ b, b <? length (blocks f)) (successors (term block))) (blocks f).
Lemma well_formedb_ok f : well_formedb f = true → well_formed f.
Proof.
  intros [[He%Nat.ltb_lt Hids%bool_decide_eq_true]%andb_true_iff Hs]%andb_true_iff. split; [|done|].
  - intros b block Hb. assert (map b_id (blocks f) !! b = Some (b_id block)) as Hm by (by rewrite list_lookup_fmap, Hb).
    rewrite Hids in Hm. by apply lookup_seq in Hm as [-> _].
  - intros b b' (block & Hb & Hin). rewrite forallb_forall in Hs. specialize (Hs block (proj1 (list_elem_of_In _ _) (list_elem_of_lookup_2 _ _ _ Hb))).
    rewrite forallb_forall in Hs. by apply Nat.ltb_lt, Hs, list_elem_of_In.
Qed.

Lemma walk_app f a l b m c : walk f a l b → walk f b m c → walk f a (l ++ m) c.
Proof. induction 1 as [|a a' l b He Hw IH]; [done|]. intros H. cbn. econstructor; [exact He|by apply IH]. Qed.
Lemma walk_snoc f a l b c : walk f a l b → edge f b c → walk f a (l ++ [b]) c.
Proof. intros H He. eapply walk_app; [exact H|]. econstructor; [exact He|constructor]. Qed.
(** A walk ends with an edge, or is empty. *)
Lemma walk_last f a l c : walk f a l c → (l = [] ∧ c = a) ∨ ∃ m b, l = m ++ [b] ∧ walk f a m b ∧ edge f b c.
Proof.
  induction 1 as [|a a' l c He Hw IH]; [by left|]. right. destruct IH as [[-> ->]|(m & b & -> & Hm & Hb)].
  - exists [], a. split_and!; [done|constructor|done].
  - exists (a :: m), b. split_and!; [done|by econstructor|done].
Qed.
Lemma reaches_edge f b c : reaches f b → edge f b c → reaches f c.
Proof. intros [l H] He. exists (l ++ [b]). by eapply walk_snoc. Qed.
Lemma reaches_entry f : reaches f (entry f).
Proof. exists []. constructor. Qed.
Lemma reaches_lt f b : well_formed f → reaches f b → b < length (blocks f).
Proof. intros Hf [l Hw]. apply walk_last in Hw as [[_ ->]|(m & a & _ & _ & He)]; [apply Hf|]. by eapply wf_edges. Qed.
