(* ===== verification/Cold.v ===== *)
(** * Cold functions ([crates/align_mir/src/cold.rs])

    The pass that marks a function cold when all it can return is an error and it is called
    only where control has left the usual path.  It computes, per function, the blocks the
    entry reaches, the blocks dominated by the unlikely side of a recorded branch, and
    whether every return yields an [Err]; and, over the program, the least set of cold
    functions.  A [HashSet] is a [gset], a [HashMap] a [gmap]; an index out of range panics. *)
From Stdlib Require Import ZArith Lia.
From stdpp Require Import gmap.
From S2P Require Import Prelude Types Mir.
Local Open Scope nat_scope.

(** ** Reachable blocks *)
(** The worklist's loop; a stack whose top comes first. *)
Fixpoint reach_loop (fuel : nat) (blocks : list Block) (pending : list BlockId) (reached : list bool) : res (list bool) :=
  match pending with
  | [] => Ret reached
  | id :: pending =>
    match fuel with
    | O => OutOfFuel
    | S fuel =>
      match reached !! id with
      | None => Ret []
      | Some true => reach_loop fuel blocks pending reached
      | Some false =>
        match blocks !! id with
        | None => Ret []
        | Some block => reach_loop fuel blocks (rev (successors (term block)) ++ pending) (<[id := true]> reached)
        end
      end
    end
  end.
Definition edge_count (blocks : list Block) : nat := sum_list (map (λ block, length (successors (term block))) blocks).
Definition reachable (f : Function) : res (list bool) :=
  reach_loop (S (edge_count (blocks f))) (blocks f) [entry f] (replicate (length (blocks f)) false).

(** ** Exceptional regions *)
Fixpoint add_targets (id : BlockId) (targets : list BlockId) (predecessors : list (list BlockId)) : option (list (list BlockId)) :=
  match targets with
  | [] => Some predecessors
  | target :: targets => incoming ← predecessors !! target; add_targets id targets (<[target := incoming ++ [id]]> predecessors)
  end.
Fixpoint add_predecessors (blocks : list Block) (predecessors : list (list BlockId)) : option (list (list BlockId)) :=
  match blocks with
  | [] => Some predecessors
  | block :: blocks => predecessors ← add_targets (b_id block) (successors (term block)) predecessors; add_predecessors blocks predecessors
  end.
(** The predecessors that are reached. *)
Fixpoint filter_reached (reached : list bool) (ids : list BlockId) : res (list BlockId) :=
  match ids with
  | [] => Ret []
  | id :: ids => let* r := unwrap (reached !! id) in let* rest := filter_reached reached ids in Ret (if r : bool then id :: rest else rest)
  end.
(** [next.retain(|candidate| dominators[predecessor].contains(candidate))] for each. *)
Fixpoint retain_all (dominators : list (gset BlockId)) (incoming : list BlockId) (next : gset BlockId) : res (gset BlockId) :=
  match incoming with
  | [] => Ret next
  | predecessor :: incoming => let* d := unwrap (dominators !! predecessor) in retain_all dominators incoming (next ∩ d)
  end.
(** One sweep over the blocks; [None] when the region is given up. *)
Fixpoint sweep (ids : list BlockId) (entry : BlockId) (reached : list bool) (predecessors : list (list BlockId))
    (dominators : list (gset BlockId)) (changed : bool) : res (option (list (gset BlockId) * bool)) :=
  match ids with
  | [] => Ret (Some (dominators, changed))
  | id :: ids =>
    let* r := unwrap (reached !! id) in
    if (id =? entry) || negb r then sweep ids entry reached predecessors dominators changed
    else
      let* preds := unwrap (predecessors !! id) in
      let* incoming := filter_reached reached preds in
      match incoming with
      | [] => Ret None
      | first :: incoming =>
        let* start := unwrap (dominators !! first) in
        let* next := retain_all dominators incoming start in
        let next := {[id]} ∪ next in
        let* current := unwrap (dominators !! id) in
        if bool_decide (next = current) then sweep ids entry reached predecessors dominators changed
        else sweep ids entry reached predecessors (<[id := next]> dominators) true
      end
  end.
Fixpoint dominator_loop (fuel : nat) (count : nat) (entry : BlockId) (reached : list bool) (predecessors : list (list BlockId))
    (dominators : list (gset BlockId)) : res (option (list (gset BlockId))) :=
  match fuel with
  | O => OutOfFuel
  | S fuel =>
    let* swept := sweep (seq 0 count) entry reached predecessors dominators false in
    match swept with
    | None => Ret None
    | Some (dominators, changed) =>
        if changed : bool then dominator_loop fuel count entry reached predecessors dominators else Ret (Some dominators)
    end
  end.
(** The unlikely successors of the recorded branches. *)
Definition edge_root (f : Function) (e : ExceptionalEdge) : option BlockId :=
  block ← blocks f !! e_block e;
  match term block with
  | Branch _ yes no => Some (match unlikely e with Then => yes | Else => no end)
  | _ => None
  end.
Definition roots (f : Function) : list BlockId := omap (edge_root f) (exceptional_edges f).
(** The blocks that a root dominates. *)
Fixpoint dominated_by (roots : list BlockId) (ids : list BlockId) (reached : list bool) (dominators : list (gset BlockId)) : res (gset BlockId) :=
  match ids with
  | [] => Ret ∅
  | id :: ids =>
    let* r := unwrap (reached !! id) in
    let* d := unwrap (dominators !! id) in
    let* rest := dominated_by roots ids reached dominators in
    Ret (if r && existsb (λ root, bool_decide (root ∈ d)) roots then {[id]} ∪ rest else rest)
  end.
Definition exceptional_region (f : Function) : res (gset BlockId) :=
  if bool_decide (exceptional_edges f = []) then Ret ∅
  else
    let count := length (blocks f) in
    let* reached := reachable f in
    if (count =? 0) || negb (length reached =? count) then Ret ∅
    else
      match add_predecessors (blocks f) (replicate count []) with
      | None => Ret ∅
      | Some predecessors =>
        let universe : gset BlockId := list_to_set (filter (λ id, reached !! id = Some true) (seq 0 count)) in
        if count <=? entry f then Ret ∅
        else
          let* found := dominator_loop (S (count * count)) count (entry f) reached predecessors (<[entry f := {[entry f]}]> (replicate count universe)) in
          match found with
          | None => Ret ∅
          | Some dominators => dominated_by (roots f) (seq 0 count) reached dominators
          end
      end.

(** ** Functions that return only errors *)
(** The definitions and the stores of a block; [None] when a temporary is defined twice. *)
Fixpoint collect_stmts (stmts : list Stmt) (values : gmap ValueId Rvalue) (stores : gmap Slot (list Operand))
    : option (gmap ValueId Rvalue * gmap Slot (list Operand)) :=
  match stmts with
  | [] => Some (values, stores)
  | Let id rv :: stmts => if bool_decide (is_Some (values !! id)) then None else collect_stmts stmts (<[id := rv]> values) stores
  | Store slot op :: stmts => collect_stmts stmts values (<[slot := default [] (stores !! slot) ++ [op]]> stores)
  | _ :: stmts => collect_stmts stmts values stores
  end.
Fixpoint collect_blocks (blocks : list Block) (reached : list bool) (values : gmap ValueId Rvalue) (stores : gmap Slot (list Operand))
    : res (option (gmap ValueId Rvalue * gmap Slot (list Operand))) :=
  match blocks with
  | [] => Ret (Some (values, stores))
  | block :: blocks =>
    let* r := unwrap (reached !! b_id block) in
    if negb r then collect_blocks blocks reached values stores
    else match collect_stmts (stmts block) values stores with
         | None => Ret None
         | Some (values, stores) => collect_blocks blocks reached values stores
         end
  end.
(** [operand_is_err] of a temporary and [slot_is_err]; what is being visited is false. *)
Inductive node := NValue (id : ValueId) | NSlot (slot : Slot).
#[export] Instance node_eq_dec : EqDecision node.
Proof. solve_decision. Defined.
Fixpoint all_true {A} (check : A → res bool) (l : list A) : res bool :=
  match l with
  | [] => Ret true
  | x :: l => let* ok := check x in if ok : bool then all_true check l else Ret false
  end.
Fixpoint node_is_err (fuel : nat) (values : gmap ValueId Rvalue) (stores : gmap Slot (list Operand)) (visiting : list node) (n : node) : res bool :=
  let operand_is_err fuel visiting op := match op with OValue id => node_is_err fuel values stores visiting (NValue id) | _ => Ret false end in
  match fuel with
  | O => OutOfFuel
  | S fuel =>
    if bool_decide (n ∈ visiting) then Ret false
    else
      let visiting := n :: visiting in
      match n with
      | NValue id =>
        match values !! id with
        | Some (RResultErr _) => Ret true
        | Some (RUse op) => operand_is_err fuel visiting op
        | Some (RLoad slot) => node_is_err fuel values stores visiting (NSlot slot)
        | _ => Ret false
        end
      | NSlot slot =>
        match stores !! slot with
        | Some writes => if bool_decide (writes = []) then Ret false else all_true (operand_is_err fuel visiting) writes
        | None => Ret false
        end
      end
  end.
Definition operand_is_err (values : gmap ValueId Rvalue) (stores : gmap Slot (list Operand)) (op : Operand) : res bool :=
  match op with
  | OValue id => node_is_err (S (S (size values + size stores))) values stores [] (NValue id)
  | _ => Ret false
  end.
(** Every reached return yields an error. *)
Fixpoint returns_err (blocks : list Block) (reached : list bool) (values : gmap ValueId Rvalue) (stores : gmap Slot (list Operand)) : res bool :=
  match blocks with
  | [] => Ret true
  | block :: blocks =>
    let* r := unwrap (reached !! b_id block) in
    if negb r then returns_err blocks reached values stores
    else
      match term block with
      | Return None => Ret false
      | Return (Some value) | ReturnWithCleanup value _ =>
          let* ok := operand_is_err values stores value in if ok : bool then returns_err blocks reached values stores else Ret false
      | Goto _ | Branch _ _ _ | StrMatch _ _ _ | Unreachable => returns_err blocks reached values stores
      end
  end.
Definition is_result (ty : Ty) : bool := match ty with Ty.Result _ _ => true | _ => false end.
Definition returns_only_err (f : Function) : res bool :=
  if negb (is_result (ret f)) || bool_decide (blocks f = []) || (length (blocks f) <=? entry f) then Ret false
  else
    let* reached := reachable f in
    if negb (length reached =? length (blocks f)) then Ret false
    else
      let* collected := collect_blocks (blocks f) reached ∅ ∅ in
      match collected with
      | None => Ret false
      | Some (values, stores) => returns_err (blocks f) reached values stores
      end.

(** ** Inference *)
Record CallSite := MkSite { caller : nat; block : BlockId }.
(** [collect_static_targets] *)
Fixpoint static_targets (t : StaticDataTarget) : list ProgramCall :=
  match t with
  | SBytes _ _ => []
  | SFunction target => [target]
  | SRecord relocations => concat (map static_targets relocations)
  end.
(** The function a statement calls, and those whose address it takes. *)
Definition called (rv : Rvalue) : option ProgramCall :=
  match rv with
  | RCall (DProgram target) _ | RCallWithCleanup target _ _ => Some target
  | _ => None
  end.
Definition addressed (rv : Rvalue) : list ProgramCall :=
  match rv with
  | RFnAddr target | RClosure target _ | RSqliteCallbackDescriptor target | RParMapReduce target => [target]
  | RStaticData data => concat (map static_targets (relocations data))
  | RParMapParallel func stages => func :: omap id stages
  | _ => []
  end.
Abbreviation Calls := (gmap ProgramCall (list CallSite)).
Definition add_statement (site : CallSite) (acc : Calls * gset ProgramCall) (s : Stmt) : Calls * gset ProgramCall :=
  match s with
  | Let _ rv =>
      let '(calls, address_taken) := acc in
      (match called rv with Some target => <[target := default [] (calls !! target) ++ [site]]> calls | None => calls end,
       address_taken ∪ list_to_set (addressed rv))
  | _ => acc
  end.
Definition add_block (i : nat) (reached : list bool) (acc : Calls * gset ProgramCall) (b : Block) : Calls * gset ProgramCall :=
  if default false (reached !! b_id b) then fold_left (add_statement (MkSite i (b_id b))) (stmts b) acc else acc.
Fixpoint add_functions (i : nat) (fns : list Function) (acc : Calls * gset ProgramCall) : res (Calls * gset ProgramCall) :=
  match fns with
  | [] => Ret acc
  | f :: fns => let* reached := reachable f in add_functions (S i) fns (fold_left (add_block i reached) (blocks f) acc)
  end.
Fixpoint collect_each {A B} (g : A → res B) (l : list A) : res (list B) :=
  match l with
  | [] => Ret []
  | x :: l => let* y := g x in let* ys := collect_each g l in Ret (y :: ys)
  end.
Definition cold_candidate (address_taken : gset ProgramCall) (f : Function) : res bool :=
  if exportable f || bool_decide (name f ∈ address_taken) then Ret false else returns_only_err f.

(** [sites.iter().all(..)], and whether a site is outside the function itself. *)
Fixpoint all_sites (callee : nat) (cold : list bool) (regions : list (gset BlockId)) (sites : list CallSite) (outside_cycle : bool) : res (bool * bool) :=
  match sites with
  | [] => Ret (true, outside_cycle)
  | site :: sites =>
    if caller site =? callee then all_sites callee cold regions sites outside_cycle
    else
      let* c := unwrap (cold !! caller site) in
      let* region := unwrap (regions !! caller site) in
      if c || bool_decide (block site ∈ region) then all_sites callee cold regions sites true else Ret (false, true)
  end.
Fixpoint cold_sweep (ids : list nat) (fns : list Function) (calls : Calls) (regions : list (gset BlockId)) (candidates : list bool)
    (cold : list bool) (changed : bool) : res (list bool * bool) :=
  match ids with
  | [] => Ret (cold, changed)
  | callee :: ids =>
    let* c := unwrap (cold !! callee) in
    let* may := unwrap (candidates !! callee) in
    if c || negb may then cold_sweep ids fns calls regions candidates cold changed
    else
      let* f := unwrap (fns !! callee) in
      match calls !! name f with
      | None => cold_sweep ids fns calls regions candidates cold changed
      | Some sites =>
        let* '(qualifies, outside_cycle) := all_sites callee cold regions sites false in
        if qualifies && outside_cycle then cold_sweep ids fns calls regions candidates (<[callee := true]> cold) true
        else cold_sweep ids fns calls regions candidates cold changed
      end
  end.
Fixpoint cold_loop (fuel : nat) (fns : list Function) (calls : Calls) (regions : list (gset BlockId)) (candidates : list bool) (cold : list bool) : res (list bool) :=
  match fuel with
  | O => OutOfFuel
  | S fuel =>
    let* '(cold, changed) := cold_sweep (seq 0 (length fns)) fns calls regions candidates cold false in
    if changed : bool then cold_loop fuel fns calls regions candidates cold else Ret cold
  end.
Definition set_cold (f : Function) (c : bool) : Function :=
  MkFunction (name f) (ret f) (slots f) (value_tys f) (blocks f) (entry f) (exceptional_edges f) c (exportable f).
Definition infer (p : Program) : res Program :=
  let fns := map (λ f, set_cold f false) (fns p) in
  let* regions := collect_each exceptional_region fns in
  let* '(calls, address_taken) := add_functions 0 fns (∅, ∅) in
  let* candidates := collect_each (cold_candidate address_taken) fns in
  let* cold := cold_loop (S (length fns)) fns calls regions candidates (replicate (length fns) false) in
  Ret (MkProgram (zip_with set_cold fns cold)).

(** The unit tests of cold.rs. *)
Module Vectors.
Definition i64 : Scalar := Scalar.Int {| it_bits := 64; it_signed := true |}.
Definition fn (n : Z) (blocks : list Block) (edges : list ExceptionalEdge) : Function := MkFunction [n] (Ty.Result i64 i64) [] [] blocks 0 edges false false.
Definition call (id : ValueId) (n : Z) : Stmt := Let id (RCall (DProgram [n]) []).
Definition fails (id : ValueId) : Stmt := Let id (RResultErr (OConst (CInt 1 Ty.Char))).
Definition err_function (n : Z) (calls : list Z) : Function :=
  fn n [MkBlock 0 (imap (λ id c, call id c) calls ++ [fails (length calls)]) [] (Return (Some (OValue (length calls))))] [].
Definition exceptional_caller (n : Z) : Function :=
  fn 0 [MkBlock 0 [] [] (Branch (OConst (CBool true)) 1 2); MkBlock 1 [] [] Unreachable; MkBlock 2 [call 0 n] [] Unreachable] [MkEdge 0 Else ResultPropagate].
Definition flags (fns : list Function) : res (list bool) := let* p := infer (MkProgram fns) in Ret (map cold (Mir.fns p)).
Definition addressor (n : Z) : Function := fn 9 [MkBlock 0 [Let 0 (RFnAddr [n])] [] Unreachable] [].
Definition export (f : Function) : Function := MkFunction (name f) (ret f) (slots f) (value_tys f) (blocks f) (entry f) (exceptional_edges f) (cold f) true.
Example two_levels : flags [exceptional_caller 1; err_function 1 [2%Z]; err_function 2 []] = Ret [false; true; true].
Proof. vm_compute. done. Qed.
Example self_recursion : flags [exceptional_caller 1; err_function 1 [1%Z]] = Ret [false; true].
Proof. vm_compute. done. Qed.
Example mixed : flags [exceptional_caller 1; err_function 1 []; err_function 2 [1%Z]] = Ret [false; false; false].
Proof. vm_compute. done. Qed.
Example exported : flags [exceptional_caller 1; export (err_function 1 [])] = Ret [false; false].
Proof. vm_compute. done. Qed.
Example address_taken : flags [exceptional_caller 1; err_function 1 []; addressor 1] = Ret [false; false; false].
Proof. vm_compute. done. Qed.
End Vectors.
