(* ===== verification/ColdGraph.v ===== *)
(** * Reachability and dominance, computed

    The worklist of [reachable] finds exactly the blocks a walk reaches; the sweeps over
    the dominator sets come down from the full sets to exactly the sets of dominators; so
    an exceptional region is what the unlikely sides of the recorded branches dominate. *)
From Stdlib Require Import ZArith Lia.
From stdpp Require Import gmap.
From S2P Require Import Prelude Types Mir Cold.
Local Open Scope nat_scope.

(** ** The worklist *)
(** The edges out of blocks not yet reached. *)
Fixpoint spare (blocks : list Block) (reached : list bool) : nat :=
  match blocks, reached with
  | block :: blocks, r :: reached => (if r : bool then 0 else length (successors (term block))) + spare blocks reached
  | _, _ => 0
  end.
Lemma spare_insert blocks reached id block : blocks !! id = Some block → reached !! id = Some false →
  spare blocks reached = length (successors (term block)) + spare blocks (<[id := true]> reached).
Proof.
  revert reached id. induction blocks as [|x blocks IH]; intros [|r reached] [|id]; try done; simpl.
  - by intros [= ->] [= ->].
  - intros Hb Hr. rewrite (IH reached id Hb Hr). lia.
Qed.
Lemma spare_all blocks : spare blocks (replicate (length blocks) false) = edge_count blocks.
Proof. induction blocks as [|x blocks IH]; [done|]. unfold edge_count in *. simpl. by rewrite IH. Qed.

Lemma reach_loop_ret fuel blocks pending reached : length pending + spare blocks reached ≤ fuel → ∃ l, reach_loop fuel blocks pending reached = Ret l.
Proof.
  revert pending reached. induction fuel as [|fuel IH]; intros [|id pending] reached; cbn [reach_loop length]; intros Hf; try lia; try (by eexists).
  destruct (reached !! id) as [[]|] eqn:Hr; [apply IH; lia| |by eexists]. destruct (blocks !! id) as [block|] eqn:Hb; [|by eexists].
  apply IH. rewrite length_app, length_rev. rewrite (spare_insert _ _ _ _ Hb Hr) in Hf. lia.
Qed.
Lemma reachable_ret f : ∃ l, reachable f = Ret l.
Proof. apply reach_loop_ret. rewrite spare_all. cbn. lia. Qed.

Section Graph.
Context (f : Function) (Hf : well_formed f).
Abbreviation count := (length (blocks f)).

(** What is pending or marked is reached, and nothing a marked block leads to is forgotten. *)
Record marked (pending : list BlockId) (reached : list bool) : Prop := {
  m_len : length reached = count;
  m_pending : Forall (reaches f) pending;
  m_sound : ∀ b, reached !! b = Some true → reaches f b;
  m_closed : ∀ b b', reached !! b = Some true → edge f b b' → reached !! b' = Some true ∨ b' ∈ pending;
  m_entry : reached !! entry f = Some true ∨ entry f ∈ pending
}.
Lemma marked_step id pending reached block : marked (id :: pending) reached → reached !! id = Some false → blocks f !! id = Some block →
  marked (rev (successors (term block)) ++ pending) (<[id := true]> reached).
Proof.
  intros [H1 H2 H3 H4 H5] Hr Hb. apply Forall_cons in H2 as [Hid H2]. apply lookup_lt_Some in Hr as Hlt.
  assert (∀ b, <[id := true]> reached !! b = Some true ↔ b = id ∨ reached !! b = Some true) as Hin.
  { intros b. destruct (decide (b = id)) as [->|Hne]; [rewrite list_lookup_insert_eq by done; naive_solver|rewrite list_lookup_insert_ne by done; naive_solver]. }
  split.
  - by rewrite length_insert.
  - apply Forall_app. split; [|done]. apply Forall_rev, Forall_forall. intros b Hs. eapply reaches_edge; [exact Hid|]. by exists block.
  - intros b [->|H]%Hin; auto.
  - intros b b' [->|H]%Hin He; rewrite Hin, elem_of_app.
    + right. left. destruct He as (block' & Hb' & Hs). simplify_eq. by apply list_elem_of_In, in_rev; rewrite rev_involutive; apply list_elem_of_In.
    + destruct (H4 b b' H He) as [?|[->|?]%elem_of_cons]; auto.
  - rewrite Hin, elem_of_app. destruct H5 as [?|[->|?]%elem_of_cons]; auto.
Qed.
Lemma marked_all reached : marked [] reached → ∀ b, reached !! b = Some true ↔ reaches f b.
Proof.
  intros [_ _ H3 H4 H5] b. split; [apply H3|]. intros [w Hw]. revert b Hw. induction w as [|a w IH] using rev_ind; intros b Hw; apply walk_last in Hw as [[E ->]|(m & c & E & Hw & He)].
  - by destruct H5 as [?|?%elem_of_nil].
  - by destruct m.
  - by destruct w.
  - apply app_inj_tail in E as [-> ->]. by destruct (H4 c b (IH c Hw) He) as [?|?%elem_of_nil].
Qed.
Lemma reach_loop_ok fuel pending reached l : marked pending reached → reach_loop fuel (blocks f) pending reached = Ret l →
  length l = count ∧ ∀ b, l !! b = Some true ↔ reaches f b.
Proof.
  revert pending reached. induction fuel as [|fuel IH]; intros [|id pending] reached Hm; cbn [reach_loop]; try done.
  1-2: intros [= <-]; split; [apply Hm|by apply marked_all].
  pose proof (m_pending _ _ Hm) as Hp. apply Forall_cons in Hp as [Hid _]. pose proof (reaches_lt f id Hf Hid) as Hlt.
  destruct (lookup_lt_is_Some_2 reached id) as [r Hr]; [by rewrite (m_len _ _ Hm)|]. destruct (lookup_lt_is_Some_2 (blocks f) id Hlt) as [block Hb]. rewrite Hr, Hb. destruct r.
  - apply IH. destruct Hm as [H1 H2 H3 H4 H5]. apply Forall_cons in H2 as [_ H2]. split; [done|done|done| |].
    + intros b b' H He. destruct (H4 b b' H He) as [?|[->|?]%elem_of_cons]; auto.
    + destruct H5 as [?|[E|?]%elem_of_cons]; [by left|left; by rewrite E|by right].
  - apply IH. by apply marked_step.
Qed.
(** What [reachable] computes. *)
Lemma reachable_ok : ∃ l, reachable f = Ret l ∧ length l = count ∧ ∀ b, l !! b = Some true ↔ reaches f b.
Proof.
  destruct (reachable_ret f) as [l Hl]. exists l. split; [done|]. eapply reach_loop_ok; [|exact Hl]. split.
  - apply length_replicate.
  - constructor; [apply reaches_entry|constructor].
  - by intros b [? _]%lookup_replicate_1.
  - by intros b b' [? _]%lookup_replicate_1.
  - right. left.
Qed.
End Graph.

(** ** Predecessors *)
Lemma add_targets_ok id targets preds : Forall (λ t, t < length preds) targets →
  ∃ preds', add_targets id targets preds = Some preds' ∧ length preds' = length preds ∧
    ∀ b l, preds !! b = Some l → ∃ l', preds' !! b = Some l' ∧ ∀ p, p ∈ l' ↔ p ∈ l ∨ (p = id ∧ b ∈ targets).
Proof.
  revert preds. induction targets as [|t targets IH]; intros preds Ht; cbn [add_targets].
  - exists preds. split_and!; [done|done|]. intros b l Hl. exists l. split; [done|]. intros p. split; [by left|]. by intros [?|[_ ?%elem_of_nil]].
  - apply Forall_cons in Ht as [Htl Ht]. destruct (lookup_lt_is_Some_2 preds t Htl) as [incoming Hin]. rewrite Hin. cbn [mbind option_bind].
    destruct (IH (<[t := incoming ++ [id]]> preds)) as (preds' & -> & Hlen & Hp); [by rewrite length_insert|]. rewrite length_insert in Hlen. exists preds'. split_and!; [done|done|].
    intros b l Hl. destruct (decide (b = t)) as [->|Hne].
    + simplify_eq. destruct (Hp t (incoming ++ [id])) as (l' & Hl' & Hiff); [by apply list_lookup_insert_eq|]. exists l'. split; [done|]. intros p. rewrite Hiff, elem_of_app, list_elem_of_singleton, elem_of_cons. naive_solver.
    + destruct (Hp b l) as (l' & Hl' & Hiff); [by rewrite list_lookup_insert_ne|]. exists l'. split; [done|]. intros p. rewrite Hiff, elem_of_cons. naive_solver.
Qed.
Lemma add_predecessors_ok bs preds : Forall (λ block, Forall (λ t, t < length preds) (successors (term block))) bs →
  ∃ preds', add_predecessors bs preds = Some preds' ∧ length preds' = length preds ∧
    ∀ b l, preds !! b = Some l → ∃ l', preds' !! b = Some l' ∧ ∀ p, p ∈ l' ↔ p ∈ l ∨ ∃ block, block ∈ bs ∧ b_id block = p ∧ b ∈ successors (term block).
Proof.
  revert preds. induction bs as [|block bs IH]; intros preds Ht; cbn [add_predecessors].
  - exists preds. split_and!; [done|done|]. intros b l Hl. exists l. split; [done|]. intros p. split; [by left|]. by intros [?|(? & ?%elem_of_nil & _)].
  - apply Forall_cons in Ht as [Htl Ht]. destruct (add_targets_ok (b_id block) _ _ Htl) as (preds1 & -> & Hlen1 & Hp1). cbn [mbind option_bind].
    destruct (IH preds1) as (preds2 & -> & Hlen2 & Hp2); [by rewrite Hlen1|]. exists preds2. split_and!; [done|lia|]. intros b l Hl.
    destruct (Hp1 b l Hl) as (l1 & Hl1 & Hiff1). destruct (Hp2 b l1 Hl1) as (l2 & Hl2 & Hiff2). exists l2. split; [done|]. intros p. rewrite Hiff2, Hiff1. split.
    + intros [[?|[-> ?]]|(x & ? & ? & ?)]; [by left|right; exists block; by split; [left|]|right; exists x; by split; [right|]].
    + intros [?|(x & [->|?]%elem_of_cons & <- & ?)]; [by left; left|by left; right|right; by exists x].
Qed.
Lemma predecessors_ok f : well_formed f → ∃ preds, add_predecessors (blocks f) (replicate (length (blocks f)) []) = Some preds ∧
  length preds = length (blocks f) ∧ ∀ b, b < length (blocks f) → ∃ l, preds !! b = Some l ∧ ∀ p, p ∈ l ↔ edge f p b.
Proof.
  intros Hf. destruct (add_predecessors_ok (blocks f) (replicate (length (blocks f)) [])) as (preds & -> & Hlen & Hp).
  { apply Forall_forall. intros block (b & Hb)%list_elem_of_lookup. apply Forall_forall. intros t Ht. rewrite length_replicate. eapply (wf_edges f Hf b). by exists block. }
  rewrite length_replicate in Hlen. exists preds. split_and!; [done|done|]. intros b Hb. destruct (Hp b []) as (l & Hl & Hiff); [by apply lookup_replicate_2|].
  exists l. split; [done|]. intros p. rewrite Hiff. split.
  - intros [?%elem_of_nil|(block & (i & Hi)%list_elem_of_lookup & <- & Hs)]; [done|]. rewrite (wf_ids f Hf i block Hi). by exists block.
  - intros (block & Hi & Hs). right. exists block. split_and!; [by eapply list_elem_of_lookup_2|by apply (wf_ids f Hf)|done].
Qed.

(** ** Dominators *)
Section Dominators.
Context (f : Function) (Hf : well_formed f) (reached : list bool) (preds : list (list BlockId)).
Abbreviation count := (length (blocks f)).
Context (Hreached_len : length reached = count) (Hreached : ∀ b, reached !! b = Some true ↔ reaches f b).
Context (Hpreds : ∀ b, b < count → ∃ l, preds !! b = Some l ∧ ∀ p, p ∈ l ↔ edge f p b).

Lemma filter_reached_ok ids : Forall (λ p, p < count) ids → ∃ l, filter_reached reached ids = Ret l ∧ ∀ p, p ∈ l ↔ p ∈ ids ∧ reaches f p.
Proof.
  induction 1 as [|id ids Hid Hids (l & Hl & Hiff)]; cbn [filter_reached]; [exists []; split; [done|]; set_solver|].
  destruct (lookup_lt_is_Some_2 reached id) as [r Hr]; [by rewrite Hreached_len|]. rewrite Hr. cbn [unwrap res_bind]. rewrite Hl. cbn [res_bind]. destruct r; (eexists; split; [done|]); intros p.
  - rewrite !elem_of_cons, Hiff. pose proof (proj1 (Hreached id) Hr). naive_solver.
  - rewrite elem_of_cons, Hiff. split; [naive_solver|]. intros [[->|?] Hx]; [|done]. apply Hreached in Hx. congruence.
Qed.
Lemma retain_all_ok doms incoming next : Forall (λ p, p < length doms) incoming →
  ∃ s, retain_all doms incoming next = Ret s ∧ ∀ d, d ∈ s ↔ d ∈ next ∧ ∀ p s', p ∈ incoming → doms !! p = Some s' → d ∈ s'.
Proof.
  intros H. revert next. induction H as [|p incoming Hp Hin IH]; intros next; cbn [retain_all]; [exists next; split; [done|]; set_solver|].
  destruct (lookup_lt_is_Some_2 doms p Hp) as [s Hs]. rewrite Hs. cbn [unwrap res_bind]. destruct (IH (next ∩ s)) as (s' & -> & Hiff). exists s'. split; [done|]. intros d. rewrite Hiff. split.
  - intros [[H1 H2]%elem_of_intersection H3]. split; [done|]. intros q t [->|Hq]%elem_of_cons Ht; [by simplify_eq|by eapply H3].
  - intros [H1 H2]. split; [apply elem_of_intersection; split; [done|]; eapply H2; [left|done]|]. intros q t Hq Ht. eapply H2; [by right|done].
Qed.

(** The equation of dominance: the block itself, and what dominates all its predecessors. *)
Definition transfer (doms : list (gset BlockId)) (b d : BlockId) : Prop := d = b ∨ ∀ p s, edge f p b → reaches f p → doms !! p = Some s → d ∈ s.
Record narrowing (doms : list (gset BlockId)) : Prop := {
  d_len : length doms = count;
  d_entry : doms !! entry f = Some {[entry f]};
  d_over : ∀ b s d, reaches f b → doms !! b = Some s → dominates f d b → d ∈ s;
  d_post : ∀ b s d, reaches f b → b ≠ entry f → doms !! b = Some s → transfer doms b d → d ∈ s
}.
Definition weight (doms : list (gset BlockId)) : nat := sum_list (map size doms).
Lemma weight_insert doms b s s' : doms !! b = Some s → size s' < size s → weight (<[b := s']> doms) < weight doms.
Proof.
  unfold weight. revert b. induction doms as [|x doms IH]; intros [|b]; simpl; [done|done|intros [= ->]; lia|]. intros Hb Hs. specialize (IH b Hb Hs). lia.
Qed.
(** A block but the entry has a reached predecessor. *)
Lemma has_pred b : reaches f b → b ≠ entry f → ∃ p, edge f p b ∧ reaches f p.
Proof. intros [l Hw] Hne. apply walk_last in Hw as [[_ ->]|(m & p & _ & Hm & He)]; [done|]. exists p. split; [done|by exists m]. Qed.
Lemma dominates_pred b d p : dominates f d b → edge f p b → reaches f p → d = b ∨ dominates f d p.
Proof.
  intros Hd He Hp. destruct (decide (d = b)) as [|Hne]; [by left|]. right. intros l Hw. specialize (Hd _ (walk_snoc _ _ _ _ _ Hw He)).
  apply elem_of_app in Hd as [?|?%list_elem_of_singleton]; [done|congruence].
Qed.
Lemma narrowing_step doms b s next : narrowing doms → reaches f b → b ≠ entry f → doms !! b = Some s → (∀ d, d ∈ next ↔ transfer doms b d) → narrowing (<[b := next]> doms) ∧ next ⊆ s.
Proof.
  intros [H1 H2 H3 H4] Hb Hne Hs Hnext. assert (next ⊆ s) as Hsub by (intros d Hd%Hnext; by eapply H4). split; [|done].
  assert (∀ a d, transfer (<[b := next]> doms) a d → transfer doms a d) as Hmono.
  { intros a d [->|Hd]; [by left|]. right. intros p t He Hp Ht. destruct (decide (p = b)) as [->|Hpb].
    - rewrite Hs in Ht. injection Ht as <-. apply Hsub. eapply (Hd b); [done|done|]. apply list_lookup_insert_eq. by eapply lookup_lt_Some.
    - eapply Hd; [done|done|]. by rewrite list_lookup_insert_ne. }
  split.
  - by rewrite length_insert.
  - by rewrite list_lookup_insert_ne.
  - intros a t d Ha [(-> & <- & _)|[_ Ht]]%list_lookup_insert_Some Hd; [|by eapply H3]. apply Hnext.
    destruct (decide (d = a)) as [->|Hda]; [by left|]. right. intros p t He Hp Ht. destruct (dominates_pred _ _ _ Hd He Hp) as [?|?]; [done|by eapply H3].
  - intros a t d Ha Hae [(-> & <- & _)|[_ Ht]]%list_lookup_insert_Some Hd%Hmono; [by apply Hnext|by eapply H4].
Qed.
Lemma sweep_ok ids doms changed : narrowing doms → Forall (λ b, b < count) ids →
  ∃ doms' changed', sweep ids (entry f) reached preds doms changed = Ret (Some (doms', changed')) ∧ narrowing doms' ∧ weight doms' ≤ weight doms ∧
    (changed' = true → changed = true ∨ weight doms' < weight doms) ∧
    (changed' = false → changed = false ∧ doms' = doms ∧
      ∀ b s d, b ∈ ids → reaches f b → b ≠ entry f → doms !! b = Some s → d ∈ s → transfer doms b d).
Proof.
  intros Hd Hids. revert doms changed Hd. induction Hids as [|b ids Hb Hids IH]; intros doms changed Hd; cbn [sweep].
  { exists doms, changed. split_and!; [done|done|lia|by left|]. intros ->. split_and!; [done|done|]. by intros ? ? ? ?%elem_of_nil. }
  destruct (lookup_lt_is_Some_2 reached b) as [r Hr]; [by rewrite Hreached_len|]. rewrite Hr. cbn [unwrap res_bind].
  destruct ((b =? entry f) || negb r) eqn:Hskip.
  { destruct (IH doms changed Hd) as (doms' & changed' & -> & H1 & H2 & H3 & H4). exists doms', changed'. split_and!; [done|done|done|done|]. intros Hc. destruct (H4 Hc) as (-> & -> & Hfix).
    split_and!; [done|done|]. intros a s d [->|Ha]%elem_of_cons Hra Hne; [|by apply Hfix]. exfalso. apply Hreached in Hra. rewrite (proj2 (Nat.eqb_neq _ _) Hne) in Hskip. destruct r; [done|congruence]. }
  apply orb_false_iff in Hskip as [Hne Hrt]. apply Nat.eqb_neq in Hne. apply negb_false_iff in Hrt as ->. apply Hreached in Hr.
  destruct (Hpreds b Hb) as (l & Hl & Hlp). rewrite Hl. cbn [unwrap res_bind].
  destruct (filter_reached_ok l) as (incoming & -> & Hin); [apply Forall_forall; intros p Hp%Hlp; destruct Hp as (block & Hp & _); by eapply lookup_lt_Some|]. cbn [res_bind].
  assert (∀ p, p ∈ incoming ↔ edge f p b ∧ reaches f p) as Hinc by (intros p; by rewrite Hin, Hlp). clear Hin.
  destruct incoming as [|first incoming]; [destruct (has_pred b Hr Hne) as [p Hp]; by apply Hinc, elem_of_nil in Hp|].
  assert (∀ p, p ∈ first :: incoming → p < length doms) as Hlt by (intros p [_ Hp]%Hinc; rewrite (d_len _ Hd); by apply reaches_lt).
  destruct (lookup_lt_is_Some_2 doms first) as [start Hstart]; [apply Hlt; left|]. rewrite Hstart. cbn [unwrap res_bind].
  destruct (retain_all_ok doms incoming start) as (kept & -> & Hkept); [apply Forall_forall; intros p Hp; apply Hlt; by right|]. cbn [res_bind].
  destruct (lookup_lt_is_Some_2 doms b) as [s Hs]; [by rewrite (d_len _ Hd)|]. rewrite Hs. cbn [unwrap res_bind]. set (next := {[b]} ∪ kept : gset BlockId).
  assert (∀ d, d ∈ next ↔ transfer doms b d) as Hnext.
  { intros d. unfold next, transfer. rewrite elem_of_union, elem_of_singleton, Hkept. split.
    - intros [?|[H1 H2]]; [by left|]. right. intros p t He Hp Ht. destruct (proj1 (elem_of_cons _ _ _) (proj2 (Hinc p) (conj He Hp))) as [->|Hx]; [by simplify_eq|by eapply H2].
    - intros [?|H]; [by left|]. right. split.
      + destruct (proj1 (Hinc first) (list_elem_of_here _ _)) as [He Hp]. by eapply H.
      + intros p t Hp Ht. destruct (proj1 (Hinc p) (list_elem_of_further _ _ _ Hp)) as [He Hrp]. by eapply H. }
  destruct (narrowing_step doms b s next Hd Hr Hne Hs Hnext) as [Hd' Hsub]. case_bool_decide as Heq.
  - destruct (IH doms changed Hd) as (doms' & changed' & -> & H1 & H2 & H3 & H4). exists doms', changed'. split_and!; [done|done|done|done|]. intros Hc. destruct (H4 Hc) as (-> & -> & Hfix).
    split_and!; [done|done|]. intros a t d [->|Ha]%elem_of_cons Hra Hnea Ht; [|by apply Hfix]. simplify_eq. apply Hnext.
  - assert (weight (<[b := next]> doms) < weight doms) as Hw by (apply (weight_insert _ _ s); [done|apply subset_size; set_solver]).
    destruct (IH (<[b := next]> doms) true Hd') as (doms' & changed' & -> & H1 & H2 & H3 & H4). exists doms', changed'. split_and!; [done|done|lia|right; lia|]. intros Hc. by destruct (H4 Hc) as [? _].
Qed.

(** The sets at the end: every block's dominators, and nothing else. *)
Definition exact (doms : list (gset BlockId)) : Prop := length doms = count ∧ ∀ b s d, reaches f b → doms !! b = Some s → d ∈ s ↔ dominates f d b.
Lemma fixed_exact doms : narrowing doms → (∀ b s d, reaches f b → b ≠ entry f → doms !! b = Some s → d ∈ s → transfer doms b d) → exact doms.
Proof.
  intros [H1 H2 H3 H4] Hfix. split; [done|]. intros b s d Hb Hs. split; [|by eapply H3]. intros Hd l Hw. clear Hb.
  revert b s d Hs Hd Hw. induction l as [|a l IH] using rev_ind; intros b s d Hs Hd Hw; apply walk_last in Hw as Hlast; destruct Hlast as [[E ->]|(m & p & E & Hm & He)].
  - rewrite H2 in Hs. injection Hs as <-. apply elem_of_singleton in Hd as ->. left.
  - by destruct m.
  - by destruct l.
  - apply app_inj_tail in E as [-> ->]. apply elem_of_app. destruct (decide (b = entry f)) as [->|Hne].
    + rewrite H2 in Hs. injection Hs as <-. apply elem_of_singleton in Hd as ->. right. left.
    + assert (reaches f p) as Hp by (by exists m). destruct (Hfix b s d) as [->|Ht]; [by eapply reaches_edge|done|done|done|right; left|]. left.
      destruct (lookup_lt_is_Some_2 doms p) as [t Hpt]; [rewrite H1; by apply reaches_lt|]. by apply (IH p t d); [|apply (Ht p t)|].
Qed.
Lemma dominator_loop_ok fuel doms : narrowing doms → weight doms < fuel →
  ∃ doms', dominator_loop fuel count (entry f) reached preds doms = Ret (Some doms') ∧ exact doms'.
Proof.
  revert doms. induction fuel as [|fuel IH]; intros doms Hd Hw; [lia|]. cbn [dominator_loop].
  destruct (sweep_ok (seq 0 count) doms false Hd) as (doms' & changed & -> & H1 & H2 & H3 & H4); [apply Forall_forall; intros b Hb%elem_of_seq; lia|]. cbn [res_bind]. destruct changed.
  - apply IH; [done|]. destruct (H3 eq_refl); [done|lia].
  - exists doms'. split; [done|]. destruct (H4 eq_refl) as (_ & -> & Hfix). apply fixed_exact; [done|]. intros b s d Hb. apply Hfix; [|done]. apply elem_of_seq. pose proof (reaches_lt f b Hf Hb). lia.
Qed.
End Dominators.

(** ** Regions *)
Lemma weight_bound n doms : Forall (λ s, size s ≤ n) doms → weight doms ≤ length doms * n.
Proof. unfold weight. induction 1 as [|s doms Hs Hd IH]; simpl; lia. Qed.
Lemma start_narrowing f (reached : list bool) (universe : gset BlockId) : well_formed f → (∀ b, b ∈ universe ↔ reaches f b) →
  narrowing f (<[entry f := {[entry f]}]> (replicate (length (blocks f)) universe)).
Proof.
  intros Hf Hu. pose proof (wf_entry f Hf) as He.
  assert (∀ b s, <[entry f := {[entry f]}]> (replicate (length (blocks f)) universe) !! b = Some s → (b = entry f ∧ s = {[entry f]}) ∨ (b ≠ entry f ∧ s = universe)) as Hin.
  { intros b s [(-> & <- & _)|[Hne [-> _]%lookup_replicate_1]]%list_lookup_insert_Some; [by left|by right]. }
  split.
  - by rewrite length_insert, length_replicate.
  - apply list_lookup_insert_eq. by rewrite length_replicate.
  - intros b s d Hb [[-> ->]|[Hne ->]]%Hin Hd.
    + specialize (Hd [] (walk_nil _ _)). apply elem_of_singleton. by apply list_elem_of_singleton in Hd.
    + apply Hu. destruct Hb as [l Hw]. specialize (Hd l Hw). apply elem_of_app in Hd as [Hd|Hd%list_elem_of_singleton]; [|subst d; by exists l].
      apply list_elem_of_split in Hd as (l1 & l2 & ->). clear -Hw. exists l1. revert Hw. generalize (entry f). induction l1 as [|a l1 IH]; intros e Hw; inversion Hw; subst; [constructor|].
      econstructor; [eassumption|]. by apply IH.
  - intros b s d Hb Hne [[? _]|[_ ->]]%Hin Ht; [done|]. apply Hu. destruct Ht as [->|Ht]; [done|]. destruct (has_pred f b Hb Hne) as (p & Hp & Hrp).
    destruct (lookup_lt_is_Some_2 (<[entry f := {[entry f]}]> (replicate (length (blocks f)) universe)) p) as [s Hs].
    { rewrite length_insert, length_replicate. by apply reaches_lt. }
    specialize (Ht p s Hp Hrp Hs). apply Hin in Hs as [[_ ->]|[_ ->]]; [|by apply Hu]. apply elem_of_singleton in Ht as ->. apply reaches_entry.
Qed.
Lemma dominated_by_ok roots ids reached doms : Forall (λ b, b < length reached ∧ b < length doms) ids →
  ∃ r, dominated_by roots ids reached doms = Ret r ∧
    ∀ b, b ∈ r ↔ b ∈ ids ∧ reached !! b = Some true ∧ ∃ root s, root ∈ roots ∧ doms !! b = Some s ∧ root ∈ s.
Proof.
  induction 1 as [|b ids [H1 H2] Hids (r & Hr & Hiff)]; cbn [dominated_by]; [exists ∅; split; [done|]; set_solver|].
  destruct (lookup_lt_is_Some_2 reached b H1) as [x Hx], (lookup_lt_is_Some_2 doms b H2) as [s Hs]. rewrite Hx, Hs. cbn [unwrap res_bind]. rewrite Hr. cbn [res_bind]. eexists. split; [done|]. intros a.
  assert (x && existsb (λ root, bool_decide (root ∈ s)) roots = true ↔ reached !! b = Some true ∧ ∃ root s, root ∈ roots ∧ doms !! b = Some s ∧ root ∈ s) as Htest.
  { rewrite andb_true_iff, existsb_exists. split.
    - intros [-> (root & Hin & Hd%bool_decide_eq_true)]. split; [done|]. exists root, s. split; [by apply list_elem_of_In|done].
    - intros [E (root & t & Hin & Ht & Hd)]. simplify_eq. split; [done|]. exists root. split; [by apply list_elem_of_In|by apply bool_decide_eq_true]. }
  destruct (x && _).
  - rewrite elem_of_union, elem_of_singleton, elem_of_cons, Hiff. pose proof (proj1 Htest eq_refl). naive_solver.
  - rewrite elem_of_cons, Hiff. split; [naive_solver|]. intros [[->|?] Hx0]; [|done]. by apply Htest in Hx0.
Qed.
Lemma region_ok f : well_formed f → ∃ r, exceptional_region f = Ret r ∧ ∀ b, b ∈ r ↔ reaches f b ∧ ∃ root, root ∈ roots f ∧ dominates f root b.
Proof.
  intros Hf. unfold exceptional_region. case_bool_decide as Hnone.
  { exists ∅. split; [done|]. intros b. unfold roots. rewrite Hnone. set_solver. }
  destruct (reachable_ok f Hf) as (reached & -> & Hlen & Hreached). cbn [res_bind]. pose proof (wf_entry f Hf) as He. rewrite (proj2 (Nat.eqb_neq _ 0)), (proj2 (Nat.eqb_eq _ _) Hlen) by lia. cbn [orb negb].
  destruct (predecessors_ok f Hf) as (preds & -> & _ & Hpreds). rewrite (proj2 (Nat.leb_gt _ _) He). set (universe := list_to_set _ : gset BlockId).
  assert (∀ b, b ∈ universe ↔ reaches f b) as Hu.
  { intros b. unfold universe. rewrite elem_of_list_to_set, list_elem_of_filter, elem_of_seq, Hreached. split; [naive_solver|]. intros Hb. pose proof (reaches_lt f b Hf Hb). split; [done|lia]. }
  pose proof (start_narrowing f reached universe Hf Hu) as Hstart.
  destruct (dominator_loop_ok f Hf reached preds Hlen Hreached Hpreds (S (length (blocks f) * length (blocks f))) _ Hstart) as (doms & -> & Hdl & Hexact).
  { apply Nat.lt_succ_r. etransitivity; [apply (weight_bound (length (blocks f)))|by rewrite length_insert, length_replicate].
    assert (size universe ≤ length (blocks f)) as Hsize.
    { rewrite <-(length_seq (length (blocks f)) 0), <-(size_list_to_set (C := gset nat) (seq 0 (length (blocks f)))) by apply NoDup_seq. apply subseteq_size.
      intros b Hb%Hu. apply elem_of_list_to_set, elem_of_seq. pose proof (reaches_lt f b Hf Hb). lia. }
    apply Forall_insert; [by apply Forall_replicate|]. rewrite size_singleton. lia. }
  cbn [res_bind]. destruct (dominated_by_ok (roots f) (seq 0 (length (blocks f))) reached doms) as (r & -> & Hr); [apply Forall_forall; intros b Hb%elem_of_seq; lia|].
  exists r. split; [done|]. intros b. rewrite Hr, Hreached, elem_of_seq. split.
  - intros (_ & Hb & root & s & Hroot & Hs & Hd). split; [done|]. exists root. split; [done|]. by eapply Hexact.
  - intros (Hb & root & Hroot & Hd). pose proof (reaches_lt f b Hf Hb). split; [lia|]. split; [done|]. destruct (lookup_lt_is_Some_2 doms b) as [s Hs]; [lia|].
    exists root, s. split_and!; [done|done|]. by eapply Hexact.
Qed.

(** ** The records of exceptional branches *)
(** A record names a branch, by the id the block has. *)
Definition names_branch (f : Function) (e : ExceptionalEdge) : Prop :=
  ∃ block, blocks f !! e_block e = Some block ∧ b_id block = e_block e ∧ is_branch (term block) = true.
Lemma validate_edges_ok f edges seen : validate_edges f edges seen = None ↔
  NoDup (map e_block edges) ∧ ∀ e, e ∈ edges → (e_block e ∉ seen) ∧ names_branch f e.
Proof.
  revert seen. induction edges as [|e edges IH]; intros seen; cbn [validate_edges map]; [split; [intros _; split; [constructor|by intros ? ?%elem_of_nil]|done]|].
  rewrite NoDup_cons. assert ((e_block e ∉ map e_block edges) ↔ ∀ x, x ∈ edges → e_block x ≠ e_block e) as Hfresh by (rewrite list_elem_of_fmap; naive_solver).
  destruct (blocks f !! e_block e) as [block|] eqn:Hb.
  - destruct (negb (b_id block =? e_block e) || negb (is_branch (term block))) eqn:Hbad.
    + split; [done|]. intros [_ H]. destruct (H e) as (_ & block' & Hb' & Hid & Hbr); [left|]. simplify_eq. rewrite Hid, Nat.eqb_refl, Hbr in Hbad. done.
    + apply orb_false_iff in Hbad as [Hid%negb_false_iff Hbr%negb_false_iff]. apply Nat.eqb_eq in Hid. assert (names_branch f e) as Hn by (by exists block). case_bool_decide as Hs.
      * split; [done|]. intros [_ H]. by destruct (H e (list_elem_of_here _ _)) as [? _].
      * rewrite IH, Hfresh. setoid_rewrite elem_of_cons. setoid_rewrite elem_of_union. setoid_rewrite elem_of_singleton. naive_solver.
  - split; [done|]. intros [_ H]. destruct (H e) as (_ & block & ? & _); [left|]. congruence.
Qed.
(** What [validate_exceptional_edges] accepts: in every function, one record a branch. *)
Lemma validate_exceptional_edges_ok p : validate_exceptional_edges p = None ↔
  ∀ f, f ∈ fns p → NoDup (map e_block (exceptional_edges f)) ∧ Forall (names_branch f) (exceptional_edges f).
Proof.
  unfold validate_exceptional_edges. induction (fns p) as [|f l IH]; cbn [validate_functions]; [split; [by intros _ ? ?%elem_of_nil|done]|].
  assert (validate_edges f (exceptional_edges f) ∅ = None ↔ NoDup (map e_block (exceptional_edges f)) ∧ Forall (names_branch f) (exceptional_edges f)) as Hf.
  { rewrite validate_edges_ok, Forall_forall. set_solver. }
  destruct (validate_edges f (exceptional_edges f) ∅) as [e|]; setoid_rewrite elem_of_cons; naive_solver.
Qed.
(** Then every record gives a root. *)
Lemma validated_roots p f : validate_exceptional_edges p = None → f ∈ fns p → length (roots f) = length (exceptional_edges f).
Proof.
  intros Hv Hf. apply (proj1 (validate_exceptional_edges_ok p) Hv) in Hf as [_ Hn]. unfold roots. induction Hn as [|e l (block & Hb & _ & Hbr) _ IH]; [done|]. cbn [omap list_omap].
  unfold edge_root at 1. rewrite Hb. cbn [mbind option_bind]. destruct (term block); try done. cbn [length]. by rewrite <-IH.
Qed.
