(* ===== verification/ColdReturn.v ===== *)
(** * Functions that return only errors

    What the search of [operand_is_err] answers, that it always ends, and, against a
    small-step semantics of the statements it reads, that a function it accepts returns
    nothing but an [Err]. *)
From Stdlib Require Import ZArith Lia.
From stdpp Require Import gmap relations.
From S2P Require Import Prelude Types Mir Cold ColdGraph.
Local Open Scope nat_scope.

(** ** What is collected *)
(** A statement of a reached block. *)
Definition reached_stmt (f : Function) (s : Stmt) : Prop := ∃ b block, reaches f b ∧ blocks f !! b = Some block ∧ s ∈ stmts block.
Definition stores_of (stores : gmap Slot (list Operand)) (slot : Slot) : list Operand := default [] (stores !! slot).
Lemma collect_stmts_ok l values stores values' stores' : collect_stmts l values stores = Some (values', stores') →
  (∀ id rv, values' !! id = Some rv ↔ values !! id = Some rv ∨ Let id rv ∈ l) ∧
  (∀ slot op, op ∈ stores_of stores' slot ↔ op ∈ stores_of stores slot ∨ Store slot op ∈ l).
Proof.
  revert values stores. induction l as [|s l IH]; intros values stores; cbn [collect_stmts].
  { intros [= <- <-]. split; intros; (split; [by left|]); by intros [?|?%elem_of_nil]. }
  assert (∀ s, (∀ id rv, s ≠ Let id rv) → (∀ slot op, s ≠ Store slot op) → collect_stmts l values stores = Some (values', stores') →
    (∀ id rv, values' !! id = Some rv ↔ values !! id = Some rv ∨ Let id rv ∈ s :: l) ∧ (∀ slot op, op ∈ stores_of stores' slot ↔ op ∈ stores_of stores slot ∨ Store slot op ∈ s :: l)) as Hother.
  { intros s' Hl Hs H. destruct (IH _ _ H) as [H1 H2]. split; intros; [rewrite H1|rewrite H2]; rewrite elem_of_cons; naive_solver. }
  destruct s as [id rv|slot op|slot flag|slot|slot path|op|op slots]; try (by apply Hother).
  - case_bool_decide as Hd; [done|]. apply eq_None_not_Some in Hd. intros H. destruct (IH _ _ H) as [H1 H2]. split.
    + intros id' rv'. rewrite H1, elem_of_cons. destruct (decide (id' = id)) as [->|Hne]; [rewrite lookup_insert_eq|rewrite lookup_insert_ne by done]; naive_solver.
    + intros slot op. rewrite H2, elem_of_cons. naive_solver.
  - intros H. destruct (IH _ _ H) as [H1 H2]. split.
    + intros id rv. rewrite H1, elem_of_cons. naive_solver.
    + intros slot' op'. rewrite H2, elem_of_cons. unfold stores_of. destruct (decide (slot' = slot)) as [->|Hne]; [rewrite lookup_insert_eq; simpl; rewrite elem_of_app, list_elem_of_singleton|rewrite lookup_insert_ne by done]; naive_solver.
Qed.
Lemma collect_blocks_ok reached bs values stores : Forall (λ block, b_id block < length reached) bs →
  ∃ o, collect_blocks bs reached values stores = Ret o ∧ ∀ values' stores', o = Some (values', stores') →
    (∀ id rv, values' !! id = Some rv ↔ values !! id = Some rv ∨ ∃ block, block ∈ bs ∧ reached !! b_id block = Some true ∧ Let id rv ∈ stmts block) ∧
    (∀ slot op, op ∈ stores_of stores' slot ↔ op ∈ stores_of stores slot ∨ ∃ block, block ∈ bs ∧ reached !! b_id block = Some true ∧ Store slot op ∈ stmts block).
Proof.
  intros H. revert values stores. induction H as [|block bs Hb Hbs IH]; intros values stores; cbn [collect_blocks].
  { eexists. split; [done|]. intros ? ? [= <- <-]. split; intros; (split; [by left|]); by intros [?|(? & ?%elem_of_nil & _)]. }
  destruct (lookup_lt_is_Some_2 _ _ Hb) as [r Hr]. rewrite Hr. cbn [unwrap res_bind].
  assert (∀ P : Block → Prop, (∃ x, x ∈ block :: bs ∧ reached !! b_id x = Some true ∧ P x) ↔ (r = true ∧ P block) ∨ ∃ x, x ∈ bs ∧ reached !! b_id x = Some true ∧ P x) as Hcons.
  { intros P. setoid_rewrite elem_of_cons. split; [|naive_solver]. intros (x & [->|?] & Hx & ?); [left; split; [congruence|done]|naive_solver]. }
  destruct r; cbn [negb].
  - destruct (collect_stmts (stmts block) values stores) as [[v1 s1]|] eqn:Hc; [|by eexists]. destruct (collect_stmts_ok _ _ _ _ _ Hc) as [H1 H2].
    destruct (IH v1 s1) as (o & -> & Ho). exists o. split; [done|]. intros v2 s2 E. destruct (Ho v2 s2 E) as [H3 H4]. split; intros; rewrite Hcons; [rewrite H3, H1|rewrite H4, H2]; naive_solver.
  - destruct (IH values stores) as (o & -> & Ho). exists o. split; [done|]. intros v2 s2 E. destruct (Ho v2 s2 E) as [H3 H4]. split; intros; rewrite Hcons; [rewrite H3|rewrite H4]; naive_solver.
Qed.

(** ** The search *)
Section Search.
Context (values : gmap ValueId Rvalue) (stores : gmap Slot (list Operand)).
(** The node is an error by a derivation of height at most [h]: constructed as one, or a
    copy of one, or loaded from a slot in which only errors are stored. *)
Fixpoint err_at (h : nat) (n : node) : bool :=
  match h with
  | O => false
  | S h =>
    match n with
    | NValue id =>
        match values !! id with
        | Some (RResultErr _) => true
        | Some (RUse (OValue id')) => err_at h (NValue id')
        | Some (RLoad slot) => err_at h (NSlot slot)
        | _ => false
        end
    | NSlot slot =>
        match stores_of stores slot with
        | [] => false
        | writes => forallb (λ op, match op with OValue id => err_at h (NValue id) | _ => false end) writes
        end
    end
  end.
Definition op_err_at (h : nat) (op : Operand) : bool := match op with OValue id => err_at h (NValue id) | _ => false end.
Lemma err_at_S h n : err_at h n = true → err_at (S h) n = true.
Proof.
  revert n. induction h as [|h IH]; intros n; [done|]. destruct n as [id|slot]; intros H.
  - cbn [err_at] in H |- *. destruct (values !! id) as [[[]| | | | | | | | | | |]|]; try done; by apply IH in H.
  - change (match stores_of stores slot with [] => false | writes => forallb (op_err_at h) writes end = true) in H.
    change (match stores_of stores slot with [] => false | writes => forallb (op_err_at (S h)) writes end = true). destruct (stores_of stores slot) as [|w ws]; [done|].
    rewrite forallb_forall in H |- *. intros op Hop. specialize (H op Hop). destruct op; try done. by apply IH.
Qed.
Lemma err_at_le h k n : h ≤ k → err_at h n = true → err_at k n = true.
Proof. induction 1 as [|k Hle IH]; [done|]. intros H. by apply err_at_S, IH. Qed.
Lemma err_least h n : err_at h n = true → ∃ k, S k ≤ h ∧ err_at (S k) n = true ∧ err_at k n = false.
Proof.
  induction h as [|h IH]; [done|]. intros H. destruct (err_at h n) eqn:E; [|by exists h]. destruct (IH eq_refl) as (k & ? & ? & ?). exists k. split; [lia|done].
Qed.

(** The nodes a search can go on from. *)
Definition nodes : list node := map NValue (elements (dom values)) ++ map NSlot (elements (dom stores)).
Lemma nodes_length : length nodes = size values + size stores.
Proof. unfold nodes. rewrite length_app, !length_map. change (length (elements (dom values))) with (size (dom values)). change (length (elements (dom stores))) with (size (dom stores)). by rewrite !size_dom. Qed.
Lemma nodes_value id : is_Some (values !! id) → NValue id ∈ nodes.
Proof. intros H. apply elem_of_app. left. apply list_elem_of_fmap. exists id. split; [done|]. by apply elem_of_elements, elem_of_dom. Qed.
Lemma nodes_slot slot : is_Some (stores !! slot) → NSlot slot ∈ nodes.
Proof. intros H. apply elem_of_app. right. apply list_elem_of_fmap. exists slot. split; [done|]. by apply elem_of_elements, elem_of_dom. Qed.

Lemma all_true_ret {A} (check : A → res bool) l : (∀ x, x ∈ l → ∃ b, check x = Ret b) → ∃ b, all_true check l = Ret b ∧ (b = true ↔ ∀ x, x ∈ l → check x = Ret true).
Proof.
  induction l as [|x l IH]; intros H; cbn [all_true]; [exists true; split; [done|]; split; [by intros _ ? ?%elem_of_nil|done]|].
  destruct (H x) as [b Hb]; [left|]. rewrite Hb. cbn [res_bind]. destruct IH as (b' & Hb' & Hiff); [intros y Hy; apply H; by right|]. destruct b.
  - exists b'. split; [done|]. rewrite Hiff. split; [intros Hl y [->|Hy]%elem_of_cons; auto|]. intros Hl y Hy. apply Hl. by right.
  - exists false. split; [done|]. split; [done|]. intros Hl. specialize (Hl x (list_elem_of_here _ _)). congruence.
Qed.

(** The search ends, and finds exactly the errors. *)
Lemma node_is_err_ret fuel visiting n : NoDup visiting → visiting ⊆ nodes → length nodes + 2 ≤ length visiting + fuel → ∃ b, node_is_err fuel values stores visiting n = Ret b.
Proof.
  revert visiting n. induction fuel as [|fuel IH]; intros visiting n Hnd Hsub Hlen.
  { exfalso. assert (length visiting ≤ length nodes) by (apply submseteq_length, NoDup_submseteq; done). lia. }
  cbn [node_is_err]. case_bool_decide as Hin; [by eexists|].
  assert (n ∈ nodes → ∀ m, ∃ b, node_is_err fuel values stores (n :: visiting) m = Ret b) as Hrec.
  { intros Hn m. apply IH; [by constructor|set_solver|cbn [length]; lia]. }
  assert (n ∈ nodes → ∀ op, ∃ b, match op with OValue id => node_is_err fuel values stores (n :: visiting) (NValue id) | _ => Ret false end = Ret b) as Hop.
  { intros Hn op. destruct op; try (by eexists). by apply Hrec. }
  destruct n as [id|slot].
  - destruct (values !! id) as [rv|] eqn:Hv; [|by eexists]. assert (NValue id ∈ nodes) as Hn by (by apply nodes_value). destruct rv; try (by eexists); [by apply Hop|by apply Hrec].
  - destruct (stores !! slot) as [writes|] eqn:Hs; [|by eexists]. assert (NSlot slot ∈ nodes) as Hn by (by apply nodes_slot). case_bool_decide; [by eexists|].
    destruct (all_true_ret (λ op, match op with OValue id => node_is_err fuel values stores (NSlot slot :: visiting) (NValue id) | _ => Ret false end) writes) as (b & -> & _); [|by eexists].
    intros op _. by apply Hop.
Qed.
Abbreviation search fuel visiting := (λ op, match op with OValue id => node_is_err fuel values stores visiting (NValue id) | _ => Ret false end).
Lemma node_is_err_sound fuel visiting n : node_is_err fuel values stores visiting n = Ret true → err_at fuel n = true.
Proof.
  revert visiting n. induction fuel as [|fuel IH]; intros visiting n; cbn [node_is_err]; [done|]. case_bool_decide as Hin; [done|].
  assert (∀ op, search fuel (n :: visiting) op = Ret true → op_err_at fuel op = true) as Hop.
  { intros op H. destruct op; try done. by eapply IH. }
  destruct n as [id|slot]; cbn [err_at].
  - destruct (values !! id) as [rv|] eqn:Hv; [|done]. destruct rv as [op|slot| | | | | | | | | |]; try done; intros H; [by apply Hop in H; destruct op|by eapply IH].
  - unfold stores_of. destruct (stores !! slot) as [writes|] eqn:Hs; [|done]. case_bool_decide as Hne; [done|]. intros H. cbn [default].
    destruct writes as [|w ws]; [done|]. apply (forallb_forall (op_err_at fuel)). revert H. generalize (w :: ws). clear Hs Hne. intros l H. induction l as [|x l IHl]; [done|].
    cbn [all_true] in H. apply res_bind_Ret_inv in H as ([] & Hx & H); [|done]. intros op [->|Hin']; [by apply Hop|by apply IHl].
Qed.
(** A derivation of least height meets no node twice. *)
Lemma node_is_err_complete h fuel visiting n b : node_is_err fuel values stores visiting n = Ret b → err_at h n = true → Forall (λ v, err_at h v = false) visiting → b = true.
Proof.
  revert fuel visiting n b. induction h as [h IH] using lt_wf_ind. intros fuel visiting n b H He Hv. destruct fuel as [|fuel]; [done|]. cbn [node_is_err] in H.
  case_bool_decide as Hin; [rewrite Forall_forall in Hv; specialize (Hv n Hin); congruence|]. destruct (err_least h n He) as (k & Hk & Hsk & Hnk).
  assert (Forall (λ v, err_at k v = false) (n :: visiting)) as Hv'.
  { constructor; [done|]. eapply Forall_impl; [exact Hv|]. intros v Hve. destruct (err_at k v) eqn:E; [|done]. apply (err_at_le k h) in E; [congruence|lia]. }
  assert (∀ op c, op_err_at k op = true → search fuel (n :: visiting) op = Ret c → c = true) as Hop.
  { intros op c Ho Hc. destruct op; try done. by eapply (IH k ltac:(lia)). }
  destruct n as [id|slot]; cbn [err_at] in Hsk.
  - destruct (values !! id) as [[op|slot| | | | | | | | | |]|]; try done; [|by eapply (IH k ltac:(lia))|by injection H]. destruct op; try done. by eapply (IH k ltac:(lia)).
  - unfold stores_of in Hsk. destruct (stores !! slot) as [[|w ws]|]; try done. rewrite bool_decide_false in H by done. cbn [default] in Hsk. change (forallb (op_err_at k) (w :: ws) = true) in Hsk.
    revert H Hsk. generalize (w :: ws). intros l. induction l as [|x l IHl]; cbn [all_true forallb]; [by intros [= <-]|]. intros H [Hx Hl]%andb_true_iff.
    apply res_bind_Ret_inv in H as (c & Hc & H). rewrite (Hop x c Hx Hc) in H. by apply IHl.
Qed.
(** [operand_is_err] is the least solution. *)
Lemma operand_is_err_ok op : ∃ b, operand_is_err values stores op = Ret b ∧ (b = true ↔ ∃ h, op_err_at h op = true).
Proof.
  unfold operand_is_err. destruct op as [|id| | | | |]; try (exists false; split; [done|]; split; [done|by intros [? ?]]).
  destruct (node_is_err_ret (S (S (size values + size stores))) [] (NValue id)) as [b Hb]; [constructor|set_solver|rewrite nodes_length; simpl; lia|].
  exists b. split; [done|]. split.
  - intros ->. eexists. by eapply node_is_err_sound.
  - intros [h Hh]. by eapply node_is_err_complete.
Qed.
End Search.

(** ** What an accepted function looks like *)
(** What a terminator returns. *)
Definition yields (t : Term) : option Operand :=
  match t with Return value => value | ReturnWithCleanup value _ => Some value | _ => None end.
Lemma returns_err_ok values stores reached bs : Forall (λ block, b_id block < length reached) bs →
  ∃ b, returns_err bs reached values stores = Ret b ∧
    (b = true → ∀ block op, block ∈ bs → reached !! b_id block = Some true → yields (term block) = Some op → ∃ h, op_err_at values stores h op = true).
Proof.
  induction 1 as [|block bs Hb Hbs (b & Hr & Hiff)]; cbn [returns_err]; [exists true; split; [done|]; by intros _ ? ? ?%elem_of_nil|].
  destruct (lookup_lt_is_Some_2 _ _ Hb) as [r Hx]. rewrite Hx. cbn [unwrap res_bind].
  assert ((∀ op, r = true → yields (term block) = Some op → ∃ h, op_err_at values stores h op = true) → b = true →
    ∀ x op, x ∈ block :: bs → reached !! b_id x = Some true → yields (term x) = Some op → ∃ h, op_err_at values stores h op = true) as Hcons.
  { intros H E x op [->|Hin]%elem_of_cons Hrx Hy; [by apply H; [congruence|]|by eapply Hiff]. }
  assert (∀ op, yields (term block) = Some op → ∃ b', (let* ok := operand_is_err values stores op in if ok : bool then returns_err bs reached values stores else Ret false) = Ret b' ∧
    (b' = true → ∀ x op, x ∈ block :: bs → reached !! b_id x = Some true → yields (term x) = Some op → ∃ h, op_err_at values stores h op = true)) as Hop.
  { intros op Hy. destruct (operand_is_err_ok values stores op) as (c & -> & Hc). cbn [res_bind]. destruct c; [|by exists false]. exists b. split; [done|]. apply Hcons. intros op' _ Hy'. simplify_eq. by apply Hc. }
  destruct r; cbn [negb]; [|exists b; split; [done|]; apply Hcons; by intros ? ?].
  destruct (term block) as [| | |[v|]|v c|]; try (exists b; split; [done|]; apply Hcons; by intros ? _ ?); [by apply Hop|by exists false|by apply Hop].
Qed.
Section Accepted.
Context (f : Function) (Hf : well_formed f).
Record accepted (values : gmap ValueId Rvalue) (stores : gmap Slot (list Operand)) : Prop := {
  a_values : ∀ id rv, values !! id = Some rv ↔ reached_stmt f (Let id rv);
  a_stores : ∀ slot op, op ∈ stores_of stores slot ↔ reached_stmt f (Store slot op);
  a_returns : ∀ b block op, reaches f b → blocks f !! b = Some block → yields (term block) = Some op → ∃ h, op_err_at values stores h op = true
}.
Lemma returns_only_err_ok : ∃ b, returns_only_err f = Ret b ∧ (b = true → is_result (ret f) = true ∧ ∃ values stores, accepted values stores).
Proof.
  unfold returns_only_err. destruct (is_result (ret f)) eqn:Hres; cbn [negb orb]; [|by exists false].
  destruct (bool_decide (blocks f = []) || (length (blocks f) <=? entry f)); [by exists false|]. destruct (reachable_ok f Hf) as (reached & -> & Hlen & Hreached). cbn [res_bind].
  rewrite (proj2 (Nat.eqb_eq _ _) Hlen). cbn [negb].
  assert (Forall (λ block, b_id block < length reached) (blocks f)) as Hids.
  { apply Forall_forall. intros block (b & Hb)%list_elem_of_lookup. rewrite (wf_ids f Hf b block Hb), Hlen. by eapply lookup_lt_Some. }
  assert (∀ block, block ∈ blocks f ∧ reached !! b_id block = Some true ↔ ∃ b, reaches f b ∧ blocks f !! b = Some block) as Hin.
  { intros block. split.
    - intros [(b & Hb)%list_elem_of_lookup Hr]. rewrite (wf_ids f Hf b block Hb), Hreached in Hr. by exists b.
    - intros (b & Hr & Hb). split; [by eapply list_elem_of_lookup_2|]. by rewrite (wf_ids f Hf b block Hb), Hreached. }
  destruct (collect_blocks_ok reached (blocks f) ∅ ∅ Hids) as (o & -> & Ho). cbn [res_bind]. destruct o as [[values stores]|]; [|by exists false].
  destruct (Ho values stores eq_refl) as [H1 H2]. destruct (returns_err_ok values stores reached (blocks f) Hids) as (b & -> & Hb). exists b. split; [done|]. intros ->. split; [done|].
  exists values, stores. split.
  - intros id rv. rewrite H1, lookup_empty. split.
    + intros [?|(block & Hbl & Hr & Hs)]; [done|]. destruct (proj1 (Hin block) (conj Hbl Hr)) as (b & ? & ?). by exists b, block.
    + intros (b & block & Hr & Hbl & Hs). right. exists block. destruct (proj2 (Hin block)) as [? ?]; [by exists b|done].
  - intros slot op. rewrite H2. unfold stores_of at 1. rewrite lookup_empty. cbn [default]. split.
    + intros [?%elem_of_nil|(block & Hbl & Hr & Hs)]; [done|]. destruct (proj1 (Hin block) (conj Hbl Hr)) as (b & ? & ?). by exists b, block.
    + intros (b & block & Hr & Hbl & Hs). right. exists block. destruct (proj2 (Hin block)) as [? ?]; [by exists b|done].
  - intros b block op Hr Hbl Hy. destruct (proj2 (Hin block)) as [? ?]; [by exists b|]. by eapply (Hb eq_refl block).
Qed.
End Accepted.

(** ** Running a function *)
(** All that is kept of a value: whether it is the error of a result. *)
Inductive val := Failed | Other.
Record frame := MkFrame { at_block : BlockId; rest : list Stmt; regs : gmap ValueId val; mem : gmap Slot val }.
Definition eval (regs : gmap ValueId val) (op : Operand) (v : val) : Prop := match op with OValue id => regs !! id = Some v | _ => True end.
(** A read of a slot before anything is written to it has no meaning. *)
Definition result (regs : gmap ValueId val) (mem : gmap Slot val) (rv : Rvalue) (v : val) : Prop :=
  match rv with
  | RUse op => eval regs op v
  | RLoad slot => mem !! slot = Some v
  | RResultErr _ => v = Failed
  | _ => True
  end.
(** What a statement does not define or may not change is kept. *)
Definition keeps_regs (s : Stmt) (before after : gmap ValueId val) : Prop := ∀ id, id ∉ defines s → after !! id = before !! id.
Definition keeps_mem (s : Stmt) (before after : gmap Slot val) : Prop := ∀ slot, may_change s slot = false → after !! slot = before !! slot.
Inductive step (f : Function) : frame → frame → Prop :=
  | step_let b id rv rest regs mem v regs' mem' : result regs mem rv v → regs' !! id = Some v → keeps_regs (Let id rv) regs regs' → keeps_mem (Let id rv) mem mem' →
      step f (MkFrame b (Let id rv :: rest) regs mem) (MkFrame b rest regs' mem')
  | step_store b slot op rest regs mem v : eval regs op v →
      step f (MkFrame b (Store slot op :: rest) regs mem) (MkFrame b rest regs (<[slot := v]> mem))
  | step_other b s rest regs mem mem' : (∀ id rv, s ≠ Let id rv) → (∀ slot op, s ≠ Store slot op) → keeps_mem s mem mem' →
      step f (MkFrame b (s :: rest) regs mem) (MkFrame b rest regs mem')
  | step_jump b block b' block' regs mem : blocks f !! b = Some block → b' ∈ successors (term block) → blocks f !! b' = Some block' →
      step f (MkFrame b [] regs mem) (MkFrame b' (stmts block') regs mem).
Definition start (f : Function) (fr : frame) : Prop := ∃ block, blocks f !! entry f = Some block ∧ fr = MkFrame (entry f) (stmts block) ∅ ∅.
Definition returns (f : Function) (fr : frame) (v : val) : Prop :=
  rest fr = [] ∧ ∃ block op, blocks f !! at_block fr = Some block ∧ yields (term block) = Some op ∧ eval (regs fr) op v.
(** A slot the search judges by its stores is changed by nothing else, and a temporary it
    judges by its definition is defined by nothing else. *)
Record undisturbed (f : Function) : Prop := {
  u_slots : ∀ slot op s, reached_stmt f (Store slot op) → reached_stmt f s → may_change s slot = true → ∃ op', s = Store slot op';
  u_values : ∀ id rv id' rv', reached_stmt f (Let id rv) → reached_stmt f (Let id' rv') → id ∈ defines (Let id' rv') → id = id'
}.

Section Run.
Context (f : Function) (Hf : well_formed f) (Hw : undisturbed f).
Context (values : gmap ValueId Rvalue) (stores : gmap Slot (list Operand)) (Ha : accepted f values stores).
(** Where the search answers yes, there is an error. *)
Record sound (fr : frame) : Prop := {
  s_reached : reaches f (at_block fr);
  s_rest : ∀ s, s ∈ rest fr → reached_stmt f s;
  s_regs : ∀ h id v, err_at values stores h (NValue id) = true → regs fr !! id = Some v → v = Failed;
  s_slots : ∀ h slot v, err_at values stores h (NSlot slot) = true → mem fr !! slot = Some v → v = Failed
}.
Lemma eval_sound fr h op v : sound fr → op_err_at values stores h op = true → eval (regs fr) op v → v = Failed.
Proof. intros Hs. destruct op; try done. apply (s_regs _ Hs). Qed.
Lemma slot_stores h slot : err_at values stores h (NSlot slot) = true → ∃ h', stores_of stores slot ≠ [] ∧ ∀ op, op ∈ stores_of stores slot → op_err_at values stores h' op = true.
Proof.
  destruct h as [|h]; [done|]. intros H. change (match stores_of stores slot with [] => false | writes => forallb (op_err_at values stores h) writes end = true) in H.
  exists h. destruct (stores_of stores slot) as [|w ws]; [done|]. split; [done|]. intros op Hin. rewrite forallb_forall in H. by apply H, list_elem_of_In.
Qed.
(** A slot the search accepts is changed by stores alone. *)
Lemma slot_kept h slot s : err_at values stores h (NSlot slot) = true → reached_stmt f s → (∀ op, s ≠ Store slot op) → may_change s slot = false.
Proof.
  intros (h' & Hne & _)%slot_stores Hr Hns. destruct (stores_of stores slot) as [|op ops] eqn:E; [done|]. destruct (may_change s slot) eqn:Hm; [|done].
  destruct (u_slots f Hw slot op s) as [op' ->]; [apply (a_stores _ _ _ Ha); rewrite E; left|done|done|by destruct (Hns op')].
Qed.
Lemma value_kept h id id' rv' : err_at values stores h (NValue id) = true → reached_stmt f (Let id' rv') → id ≠ id' → id ∉ defines (Let id' rv').
Proof.
  intros He Hr Hne Hin. destruct h as [|h]; [done|]. cbn [err_at] in He. destruct (values !! id) as [rv|] eqn:E; [|done]. apply Hne. eapply (u_values f Hw id rv); [by apply (a_values _ _ _ Ha)|exact Hr|exact Hin].
Qed.
Lemma value_defined h id rv : reached_stmt f (Let id rv) → err_at values stores h (NValue id) = true →
  match rv with RResultErr _ => True | RUse op => ∃ h, op_err_at values stores h op = true | RLoad slot => ∃ h, err_at values stores h (NSlot slot) = true | _ => False end.
Proof.
  intros Hr H. destruct h as [|h]; [done|]. cbn [err_at] in H. rewrite (proj2 (a_values _ _ _ Ha id rv) Hr) in H. destruct rv as [op|slot| | | | | | | | | |]; try done; [destruct op; try done|]; by exists h.
Qed.
Lemma sound_step fr fr' : sound fr → step f fr fr' → sound fr'.
Proof.
  intros [H1 H2 H3 H4] Hstep.
  assert (∀ op h v, op_err_at values stores h op = true → eval (regs fr) op v → v = Failed) as Hop by (intros op h v; by apply eval_sound).
  destruct Hstep as [b id rv rs gs ms v gs' ms' Hres Hid Hkg Hkm|b slot op rs gs ms v He|b s rs gs ms ms' Hnl Hns Hk|b block b' block' gs ms Hb Hs Hb']; cbn [at_block rest regs mem] in *.
  - assert (reached_stmt f (Let id rv)) as Hr by (apply H2; left). split; cbn [at_block rest regs mem]; [done|intros s Hs; apply H2; by right| |].
    + intros h id' v' He Hl. destruct (decide (id' = id)) as [->|Hne]; [|rewrite Hkg in Hl by (by eapply value_kept); by eapply H3]. rewrite Hid in Hl. injection Hl as <-.
      apply (value_defined _ _ _ Hr) in He. destruct rv as [op|slot| | | | | | | | | |]; try done; destruct He as [h' He]; [by eapply Hop|by eapply H4].
    + intros h slot v' He Hl. rewrite Hkm in Hl; [by eapply H4|]. by eapply slot_kept.
  - assert (reached_stmt f (Store slot op)) as Hr by (apply H2; left). split; cbn [at_block rest regs mem]; [done|intros s Hs; apply H2; by right|done|].
    intros h slot' v' (h' & Hne & Hall)%slot_stores; intros [[-> <-]|[_ Hl]]%lookup_insert_Some.
    + eapply Hop; [|exact He]. apply Hall. by apply (a_stores _ _ _ Ha).
    + eapply (H4 (S h')); [|exact Hl]. change (match stores_of stores slot' with [] => false | writes => forallb (op_err_at values stores h') writes end = true).
      destruct (stores_of stores slot') as [|w ws]; [done|]. apply forallb_forall. intros x Hx. by apply Hall, list_elem_of_In.
  - split; cbn [at_block rest regs mem]; [done|intros x Hx; apply H2; by right|done|]. intros h slot v He Hl. rewrite Hk in Hl; [by eapply H4|]. eapply slot_kept; [done|apply H2; left|done].
  - assert (reaches f b') as Hr by (eapply reaches_edge; [exact H1|by exists block]). split; cbn [at_block rest regs mem]; [done|intros s Hin; by exists b', block'|done|done].
Qed.
Lemma sound_start fr : start f fr → sound fr.
Proof. intros (block & Hb & ->). split; cbn; [apply reaches_entry|intros s Hs; exists (entry f), block; split; [apply reaches_entry|done]|done|done]. Qed.
End Run.

(** C29. A function [returns_only_err] accepts returns nothing but errors: whatever its calls
    answer, whichever way its branches go and whatever is in the slots they are lent, an
    execution from the entry that ends in a return ends with the error of a result; provided a slot that a
    reached statement stores to is not also changed otherwise, nor a temporary defined twice. *)
Theorem returns_only_err_sound f fr fr' v (Hf : well_formed f) (Hw : undisturbed f) (Hacc : returns_only_err f = Ret true)
    (Hs : start f fr) (Hrun : rtc (step f) fr fr') (Hret : returns f fr' v) : v = Failed.
Proof.
  destruct (returns_only_err_ok f Hf) as (b & E & Hb). rewrite Hacc in E. injection E as <-. destruct (Hb eq_refl) as (_ & values & stores & Ha).
  assert (sound f values stores fr') as Hsound.
  { apply (sound_start f values stores) in Hs. clear Hret. revert Hs. induction Hrun as [|x y z Hxy _ IH]; [done|]. intros Hx. apply IH. by apply (sound_step f Hw values stores Ha x). }
  destruct Hret as (_ & block & op & Hbl & Hy & Hev). destruct (a_returns _ _ _ Ha _ _ _ (s_reached _ _ _ _ Hsound) Hbl Hy) as [h Hh]. by eapply eval_sound.
Qed.

(** Two ways to an error, joined through slot 0, while slot 1 is lent to a call. *)
Definition joined : Function :=
  Vectors.fn 5 [MkBlock 0 [] [] (Branch (OArg 0) 1 2);
    MkBlock 1 [Vectors.fails 0; Store 0 (OValue 0)] [] (Goto 3);
    MkBlock 2 [Let 1 (RCall (DProgram [6%Z]) [OBorrowedPlace 1 None]); Vectors.fails 2; Let 3 (RUse (OValue 2)); Store 0 (OValue 3)] [] (Goto 3);
    MkBlock 3 [Let 4 (RLoad 0)] [] (Return (Some (OValue 4)))] [].
Lemma joined_stmt s : reached_stmt joined s → s ∈ concat (map stmts (blocks joined)).
Proof. intros (b & block & _ & Hb & Hs). apply list_elem_of_In, in_concat. exists (stmts block). split; [apply in_map|]; apply list_elem_of_In; [by eapply list_elem_of_lookup_2|done]. Qed.
Lemma joined_well_formed : well_formed joined.
Proof. by apply well_formedb_ok. Qed.
Lemma joined_undisturbed : undisturbed joined.
Proof.
  split.
  - intros slot op s H%joined_stmt Hs%joined_stmt Hm. assert (slot = 0) as -> by (cbn in H; rewrite ?elem_of_cons, ?elem_of_nil in H; naive_solver). clear H.
    cbn in Hs. rewrite ?elem_of_cons, ?elem_of_nil in Hs. unfold Vectors.fails in Hs. destruct_or?; simplify_eq; try done; by eexists.
  - intros id rv id' rv' _ Hs%joined_stmt. cbn in Hs. rewrite ?elem_of_cons, ?elem_of_nil in Hs. unfold Vectors.fails in Hs. destruct_or?; simplify_eq; apply list_elem_of_singleton.
Qed.
Lemma returns_only_err_sound_witness :
  returns_only_err joined = Ret true ∧
  ∃ fr', rtc (step joined) (MkFrame 0 [] ∅ ∅) fr' ∧ returns joined fr' Failed ∧ ∀ v, returns joined fr' v → v = Failed.
Proof.
  split; [vm_compute; reflexivity|].
  exists (MkFrame 3 [] (<[4 := Failed]> (<[0 := Failed]> ∅)) (<[0 := Failed]> ∅)).
  assert (rtc (step joined) (MkFrame 0 [] ∅ ∅) (MkFrame 3 [] (<[4 := Failed]> (<[0 := Failed]> ∅)) (<[0 := Failed]> ∅))) as Hrun.
  { eapply rtc_l; [eapply (step_jump _ 0 _ 1); [reflexivity|left|reflexivity]|].
    eapply rtc_l; [eapply (step_let _ _ _ _ _ _ _ Failed (<[0 := Failed]> ∅) ∅); [reflexivity|reflexivity|intros id Hid; apply lookup_insert_ne; intros <-; apply Hid; left|intros slot _; reflexivity]|].
    eapply rtc_l; [eapply (step_store _ _ _ _ _ _ _ Failed); reflexivity|].
    eapply rtc_l; [eapply (step_jump _ 1 _ 3); [reflexivity|left|reflexivity]|].
    eapply rtc_l; [eapply (step_let _ _ _ _ _ _ _ Failed (<[4 := Failed]> (<[0 := Failed]> ∅)) (<[0 := Failed]> ∅)); [reflexivity|reflexivity|intros id Hid; apply lookup_insert_ne; intros <-; apply Hid; left|intros slot _; reflexivity]|]. apply rtc_refl. }
  split; [exact Hrun|split].
  - split; [reflexivity|]. do 2 eexists. split; [reflexivity|]. split; reflexivity.
  - intros v Hv. apply (returns_only_err_sound joined (MkFrame 0 [] ∅ ∅) (MkFrame 3 [] (<[4 := Failed]> (<[0 := Failed]> ∅)) (<[0 := Failed]> ∅)) v); [apply joined_well_formed|apply joined_undisturbed|vm_compute; reflexivity| |exact Hrun|exact Hv].
    exists (MkBlock 0 [] [] (Branch (OArg 0) 1 2)). split; reflexivity.
Defined.
