(* ===== verification/ColdSpec.v ===== *)
(** * What is marked cold

    The least set of functions that return only errors and are called, from outside
    themselves, only out of exceptional regions or out of functions of the set; [infer]
    marks exactly these, in any program of well-formed functions, and so every chain of
    calls that ends in a marked function passes through an exceptional region. *)
From Stdlib Require Import ZArith Lia.
From stdpp Require Import gmap.
From S2P Require Import Prelude Types Mir Cold ColdGraph ColdReturn.
Local Open Scope nat_scope.

(** ** The specification *)
(** Block [b] is reached and calls [g]. *)
Definition calls_from (f : Function) (b : BlockId) (g : ProgramCall) : Prop :=
  reaches f b ∧ ∃ block id rv, blocks f !! b = Some block ∧ Let id rv ∈ stmts block ∧ called rv = Some g.
Definition addresses (f : Function) (g : ProgramCall) : Prop := ∃ id rv, reached_stmt f (Let id rv) ∧ g ∈ addressed rv.
Definition in_region (f : Function) (b : BlockId) : Prop := reaches f b ∧ ∃ root, root ∈ roots f ∧ dominates f root b.
Definition call_site (p : Program) (i : nat) (b : BlockId) (g : ProgramCall) : Prop := ∃ f, fns p !! i = Some f ∧ calls_from f b g.
Definition address_escapes (p : Program) (g : ProgramCall) : Prop := ∃ i f, fns p !! i = Some f ∧ addresses f g.
Definition exceptional (p : Program) (i : nat) (b : BlockId) : Prop := ∃ f, fns p !! i = Some f ∧ in_region f b.
Inductive Cold (p : Program) : nat → Prop :=
  | cold_intro i f : fns p !! i = Some f → exportable f = false → ¬ address_escapes p (name f) → returns_only_err f = Ret true →
      (∃ j b, j ≠ i ∧ call_site p j b (name f)) →
      (∀ j b, j ≠ i → call_site p j b (name f) → ¬ exceptional p j b → Cold p j) → Cold p i.
Definition all_well_formed (p : Program) : Prop := Forall well_formed (fns p).

(** ** Where functions are called *)
Definition sites_of (calls : Calls) (g : ProgramCall) : list CallSite := default [] (calls !! g).
(** What going over some statements adds to the calls and the addresses. *)
Definition adds (P : ProgramCall → CallSite → Prop) (Q : ProgramCall → Prop) (acc acc' : Calls * gset ProgramCall) : Prop :=
  (∀ g site, site ∈ sites_of (fst acc') g ↔ site ∈ sites_of (fst acc) g ∨ P g site) ∧ (∀ g, g ∈ snd acc' ↔ g ∈ snd acc ∨ Q g).
Lemma adds_trans P1 Q1 P2 Q2 P Q a b c : adds P1 Q1 a b → adds P2 Q2 b c → (∀ g s, P g s ↔ P1 g s ∨ P2 g s) → (∀ g, Q g ↔ Q1 g ∨ Q2 g) → adds P Q a c.
Proof. intros [H1 H2] [H3 H4] HP HQ. split; intros; [rewrite H3, H1, HP|rewrite H4, H2, HQ]; tauto. Qed.
Lemma add_statement_adds site acc s : adds (λ g x, x = site ∧ ∃ id rv, Let id rv = s ∧ called rv = Some g) (λ g, ∃ id rv, Let id rv = s ∧ g ∈ addressed rv) acc (add_statement site acc s).
Proof.
  destruct acc as [calls taken]. destruct s as [id rv|slot op|slot flag|slot|slot path|op|op touched]; cbn [add_statement]; try (split; intros; naive_solver). split; cbn [fst snd]; [intros g x|intros g].
  - destruct (called rv) as [target|] eqn:Hc; [|naive_solver]. unfold sites_of. destruct (decide (g = target)) as [->|Hne].
    + rewrite lookup_insert_eq. simpl. rewrite elem_of_app, list_elem_of_singleton. naive_solver.
    + rewrite lookup_insert_ne by done. naive_solver.
  - rewrite elem_of_union, elem_of_list_to_set. naive_solver.
Qed.
Lemma add_statements_adds site l acc : adds (λ g x, x = site ∧ ∃ id rv, Let id rv ∈ l ∧ called rv = Some g) (λ g, ∃ id rv, Let id rv ∈ l ∧ g ∈ addressed rv) acc (fold_left (add_statement site) l acc).
Proof.
  revert acc. induction l as [|s l IH]; intros acc; cbn [fold_left]; [split; intros; set_solver|].
  eapply adds_trans; [apply (add_statement_adds site acc s)|apply IH| |]; intros; cbn beta; setoid_rewrite elem_of_cons; naive_solver.
Qed.
Lemma add_blocks_adds i reached l acc : adds
  (λ g x, ∃ block, block ∈ l ∧ reached !! b_id block = Some true ∧ x = MkSite i (b_id block) ∧ ∃ id rv, Let id rv ∈ stmts block ∧ called rv = Some g)
  (λ g, ∃ block, block ∈ l ∧ reached !! b_id block = Some true ∧ ∃ id rv, Let id rv ∈ stmts block ∧ g ∈ addressed rv)
  acc (fold_left (add_block i reached) l acc).
Proof.
  revert acc. induction l as [|block l IH]; intros acc; cbn [fold_left]; [split; intros; set_solver|]. unfold add_block at 2. destruct (reached !! b_id block) as [[]|] eqn:Hr; cbn [default].
  - eapply adds_trans; [apply (add_statements_adds (MkSite i (b_id block)) (stmts block) acc)|apply IH| |]; intros; cbn beta; setoid_rewrite elem_of_cons; naive_solver.
  - destruct (IH acc) as [H1 H2]. split; intros; [rewrite H1|rewrite H2]; setoid_rewrite elem_of_cons; naive_solver.
  - destruct (IH acc) as [H1 H2]. split; intros; [rewrite H1|rewrite H2]; setoid_rewrite elem_of_cons; naive_solver.
Qed.
Lemma add_functions_adds i l acc : Forall well_formed l → ∃ acc', add_functions i l acc = Ret acc' ∧ adds
  (λ g x, ∃ k f, l !! k = Some f ∧ caller x = i + k ∧ calls_from f (block x) g) (λ g, ∃ f, f ∈ l ∧ addresses f g) acc acc'.
Proof.
  intros Hl. revert i acc. induction Hl as [|f l Hf Hl IH]; intros i acc; cbn [add_functions]; [exists acc; split; [done|]; split; intros; set_solver|].
  destruct (reachable_ok f Hf) as (reached & -> & _ & Hreached). cbn [res_bind]. destruct (IH (S i) (fold_left (add_block i reached) (blocks f) acc)) as (acc' & -> & Hadd). exists acc'. split; [done|].
  assert (∀ block, block ∈ blocks f ∧ reached !! b_id block = Some true ↔ ∃ b, b_id block = b ∧ reaches f b ∧ blocks f !! b = Some block) as Hin.
  { intros block. split.
    - intros [(b & Hb)%list_elem_of_lookup Hr]. pose proof (wf_ids f Hf b block Hb) as E. rewrite E, Hreached in Hr. by exists b.
    - intros (b & E & Hr & Hb). split; [by eapply list_elem_of_lookup_2|]. by rewrite E, Hreached. }
  eapply adds_trans; [apply (add_blocks_adds i reached (blocks f) acc)|exact Hadd| |].
  - intros g [c b]. cbn [caller block]. split.
    + intros ([|k] & h & Hk & -> & Hc); cbn in Hk; [|right; exists k, h; split_and!; [done|lia|done]]. injection Hk as <-. left. destruct Hc as (Hr & bl & id & rv & Hb & Hs & Hg).
      exists bl. destruct (proj2 (Hin bl)) as [? ?]; [exists b; by rewrite (wf_ids f Hf b bl Hb)|]. rewrite (wf_ids f Hf b bl Hb), Nat.add_0_r in *. split; [done|]. split; [done|]. split; [done|]. by exists id, rv.
    + intros [(bl & Hb & Hr & [= -> ->] & id & rv & Hs & Hg)|(k & h & Hk & -> & Hc)].
      * exists 0, f. destruct (proj1 (Hin bl) (conj Hb Hr)) as (b' & -> & ? & ?). split; [done|]. split; [lia|]. split; [done|by exists bl, id, rv].
      * exists (S k), h. split; [done|]. split; [lia|done].
  - intros g. setoid_rewrite elem_of_cons. split.
    + intros (h & [->|Hh] & id & rv & Hs & Hg); [left|right; exists h; split; [done|by exists id, rv]]. destruct Hs as (b & bl & Hr & Hb & Hs). exists bl.
      destruct (proj2 (Hin bl)) as [? ?]; [exists b; by rewrite (wf_ids f Hf b bl Hb)|]. split; [done|]. split; [done|]. by exists id, rv.
    + intros [(bl & Hb & Hr & id & rv & Hs & Hg)|(h & Hh & Ha)]; [|exists h; auto]. exists f. split; [by left|]. destruct (proj1 (Hin bl) (conj Hb Hr)) as (b & _ & ? & ?). exists id, rv. split; [by exists b, bl|done].
Qed.

(** ** The sweeps *)
Lemma collect_each_ok {A B} (g : A → res B) (P : A → B → Prop) l : (∀ x, x ∈ l → ∃ y, g x = Ret y ∧ P x y) → ∃ ys, collect_each g l = Ret ys ∧ Forall2 P l ys.
Proof.
  induction l as [|x l IH]; intros H; cbn [collect_each]; [by exists []|]. destruct (H x) as (y & -> & Hy); [left|]. cbn [res_bind].
  destruct IH as (ys & -> & Hys); [intros z Hz; apply H; by right|]. cbn [res_bind]. exists (y :: ys). by split; [|constructor].
Qed.
Lemma all_sites_ok callee cold regions sites outside : Forall (λ s, caller s < length cold ∧ caller s < length regions) sites →
  ∃ q o, all_sites callee cold regions sites outside = Ret (q, o) ∧
    (q && o = true ↔ (outside = true ∨ ∃ s, s ∈ sites ∧ caller s ≠ callee) ∧
      ∀ s, s ∈ sites → caller s ≠ callee → cold !! caller s = Some true ∨ ∃ r, regions !! caller s = Some r ∧ block s ∈ r).
Proof.
  intros H. revert outside. induction H as [|s sites [H1 H2] Hs IH]; intros outside; cbn [all_sites]; [exists true, outside; split; [done|]; simpl; set_solver|].
  destruct (caller s =? callee) eqn:E.
  { apply Nat.eqb_eq in E. destruct (IH outside) as (q & o & -> & Hiff). exists q, o. split; [done|]. rewrite Hiff. setoid_rewrite elem_of_cons. naive_solver. }
  apply Nat.eqb_neq in E. destruct (lookup_lt_is_Some_2 cold _ H1) as [c Hc], (lookup_lt_is_Some_2 regions _ H2) as [r Hr]. rewrite Hc, Hr. cbn [unwrap res_bind].
  assert (c || bool_decide (block s ∈ r) = true ↔ cold !! caller s = Some true ∨ ∃ r, regions !! caller s = Some r ∧ block s ∈ r) as Htest.
  { rewrite orb_true_iff, bool_decide_eq_true, Hc, Hr. naive_solver. }
  destruct (c || _).
  - destruct (IH true) as (q & o & -> & Hiff). exists q, o. split; [done|]. rewrite Hiff. pose proof (proj1 Htest eq_refl). setoid_rewrite elem_of_cons. naive_solver.
  - exists false, true. split; [done|]. split; [done|]. intros [_ Hall]. apply Htest. apply Hall; [left|done].
Qed.
Definition marks (cold : list bool) : nat := length (filter (λ b, b = true) cold).
Lemma marks_le cold : marks cold ≤ length cold.
Proof. apply length_filter. Qed.
Lemma marks_insert cold i : cold !! i = Some false → marks (<[i := true]> cold) = S (marks cold).
Proof.
  unfold marks. revert i. induction cold as [|b cold IH]; intros [|i] H; try done; cbn in H.
  - by injection H as ->.
  - cbn [list_insert insert]. specialize (IH i H). rewrite !filter_cons. destruct b; simpl; [by f_equal|done].
Qed.

Section Sweeps.
Context (p : Program) (calls : Calls) (regions : list (gset BlockId)) (candidates : list bool).
Abbreviation n := (length (fns p)).
Context (Hcalls : ∀ g s, s ∈ sites_of calls g ↔ call_site p (caller s) (block s) g).
Context (Hregions : length regions = n) (Hregion : ∀ i r b, regions !! i = Some r → b ∈ r ↔ exceptional p i b).
Context (Hlen : length candidates = n).
Context (Hcand : ∀ i f, fns p !! i = Some f → candidates !! i = Some true ↔ exportable f = false ∧ ¬ address_escapes p (name f) ∧ returns_only_err f = Ret true).

(** The rule that marks function [i], with the marks made so far. *)
Definition ready (cold : list bool) (i : nat) : Prop := candidates !! i = Some true ∧ ∃ f, fns p !! i = Some f ∧
  (∃ j b, j ≠ i ∧ call_site p j b (name f)) ∧ ∀ j b, j ≠ i → call_site p j b (name f) → exceptional p j b ∨ cold !! j = Some true.
Definition justified (cold : list bool) : Prop := length cold = n ∧ ∀ i, cold !! i = Some true → Cold p i.
Lemma call_site_lt j b g : call_site p j b g → j < n.
Proof. intros (f & Hf & _). by eapply lookup_lt_Some. Qed.
Lemma justified_insert cold i : justified cold → ready cold i → justified (<[i := true]> cold).
Proof.
  intros [H1 H2] (Hc & f & Hf & Hex & Hall). split; [by rewrite length_insert|]. intros j [[-> _]|[_ Hj]]%list_lookup_insert_Some; [|by apply H2].
  destruct (proj1 (Hcand j f Hf) Hc) as (He & Ha & Hr). econstructor; try done. intros k b Hk Hs Hne. destruct (Hall k b Hk Hs); [done|by apply H2].
Qed.
Lemma rule_ok cold i f : justified cold → fns p !! i = Some f → candidates !! i = Some true →
  ∃ q o, all_sites i cold regions (sites_of calls (name f)) false = Ret (q, o) ∧ (q && o = true ↔ ready cold i).
Proof.
  intros [H1 _] Hf Hc. destruct (all_sites_ok i cold regions (sites_of calls (name f)) false) as (q & o & -> & Hiff).
  { apply Forall_forall. intros s Hs%Hcalls%call_site_lt. lia. }
  exists q, o. split; [done|]. rewrite Hiff. split.
  - intros [[?|(s & Hs & Hne)] Hall]; [done|]. split; [done|]. exists f. split; [done|]. split; [exists (caller s), (block s); by rewrite <-Hcalls|].
    intros j b Hj Hsite. destruct (Hall (MkSite j b)) as [?|(r & Hr & Hb)]; [by apply Hcalls|done|by right|]. left. by eapply Hregion.
  - intros (_ & f' & Hf' & (j & b & Hj & Hs) & Hall). simplify_eq. split; [right; exists (MkSite j b); by rewrite Hcalls|]. intros s Hsite%Hcalls Hne.
    destruct (Hall _ _ Hne Hsite) as [He|?]; [|by left]. right. destruct (lookup_lt_is_Some_2 regions (caller s)) as [r Hr]; [rewrite Hregions; by eapply call_site_lt|]. exists r. split; [done|]. by eapply Hregion.
Qed.
Lemma cold_sweep_ok ids cold changed : justified cold → Forall (λ i, i < n) ids →
  ∃ cold' changed', cold_sweep ids (fns p) calls regions candidates cold changed = Ret (cold', changed') ∧ justified cold' ∧ marks cold ≤ marks cold' ∧
    (changed' = true → changed = true ∨ marks cold < marks cold') ∧
    (changed' = false → changed = false ∧ cold' = cold ∧ ∀ i, i ∈ ids → ready cold i → cold !! i = Some true).
Proof.
  intros Hj H. revert cold changed Hj. induction H as [|i ids Hi Hids IH]; intros cold changed Hj; cbn [cold_sweep].
  { exists cold, changed. split; [done|]. split; [done|]. split; [lia|]. split; [by left|]. intros ->. split_and!; [done|done|]. by intros ? ?%elem_of_nil. }
  destruct (lookup_lt_is_Some_2 cold i) as [c Hc]; [by rewrite (proj1 Hj)|]. destruct (lookup_lt_is_Some_2 candidates i) as [may Hmay]; [by rewrite Hlen|]. rewrite Hc, Hmay. cbn [unwrap res_bind].
  assert ((ready cold i → cold !! i = Some true) → ∃ cold' changed', cold_sweep ids (fns p) calls regions candidates cold changed = Ret (cold', changed') ∧ justified cold' ∧ marks cold ≤ marks cold' ∧
    (changed' = true → changed = true ∨ marks cold < marks cold') ∧
    (changed' = false → changed = false ∧ cold' = cold ∧ ∀ j, j ∈ i :: ids → ready cold j → cold !! j = Some true)) as Hskip.
  { intros Hno. destruct (IH cold changed Hj) as (cold' & changed' & -> & H1 & H2 & H3 & H4). exists cold', changed'. split; [done|]. split; [done|]. split; [done|]. split; [done|]. intros E.
    destruct (H4 E) as (? & ? & Hfix). split_and!; [done|done|]. intros j [->|Hin]%elem_of_cons; [done|by apply Hfix]. }
  destruct c; [apply Hskip; by rewrite Hc|]. destruct may; [|apply Hskip; intros [? _]; congruence]. cbn [orb negb].
  destruct (lookup_lt_is_Some_2 (fns p) i Hi) as [f Hf]. rewrite Hf. cbn [unwrap res_bind]. destruct (rule_ok cold i f Hj Hf Hmay) as (q & o & Hq & Hiff). unfold sites_of in Hq.
  destruct (calls !! name f) as [sites|] eqn:Hsites.
  - simpl in Hq. rewrite Hq. cbn [res_bind]. destruct (q && o) eqn:E; [|apply Hskip; intros Hr%Hiff; congruence]. pose proof (proj1 Hiff eq_refl) as Hr. pose proof (marks_insert cold i Hc) as Hm.
    destruct (IH (<[i := true]> cold) true (justified_insert _ _ Hj Hr)) as (cold' & changed' & -> & H1 & H2 & H3 & H4). exists cold', changed'. split; [done|]. split; [done|]. split; [lia|]. split; [right; lia|].
    intros E'. by destruct (H4 E') as [? _].
  - apply Hskip. simpl in Hq. injection Hq as <- <-. intros Hr%Hiff. done.
Qed.
Lemma ready_all cold : justified cold → (∀ i, ready cold i → cold !! i = Some true) → ∀ i, cold !! i = Some true ↔ Cold p i.
Proof.
  intros [H1 H2] Hfix i. split; [apply H2|]. induction 1 as [i f Hf He Ha Hr Hex Hall IH]. apply Hfix. split; [by apply (Hcand i f)|]. exists f. split; [done|]. split; [done|].
  intros j b Hj Hs. destruct (lookup_lt_is_Some_2 regions j) as [r Hjr]; [rewrite Hregions; by eapply call_site_lt|]. destruct (decide (b ∈ r)) as [Hb|Hb]; [left; by eapply Hregion|].
  right. eapply IH; [done|done|]. by intros Hbad%(Hregion j r b Hjr).
Qed.
Lemma cold_loop_ok fuel cold : justified cold → n < marks cold + fuel →
  ∃ cold', cold_loop fuel (fns p) calls regions candidates cold = Ret cold' ∧ length cold' = n ∧ ∀ i, cold' !! i = Some true ↔ Cold p i.
Proof.
  revert cold. induction fuel as [|fuel IH]; intros cold Hj Hf; cbn [cold_loop].
  { pose proof (marks_le cold) as Hm. rewrite (proj1 Hj) in Hm. lia. }
  destruct (cold_sweep_ok (seq 0 n) cold false Hj) as (cold' & changed & -> & H1 & H2 & H3 & H4); [apply Forall_forall; intros i Hi%elem_of_seq; lia|]. cbn [res_bind]. destruct changed.
  - apply IH; [done|]. destruct (H3 eq_refl); [done|lia].
  - exists cold'. destruct (H4 eq_refl) as (_ & -> & Hfix). split; [done|]. split; [apply Hj|]. apply ready_all; [done|]. intros i Hr. apply Hfix; [|done].
    destruct Hr as (_ & f & Hfi & _). apply lookup_lt_Some in Hfi. apply elem_of_seq. lia.
Qed.
End Sweeps.

(** ** The pass *)
(** No part of the pass reads the flags it resets. *)
Lemma collect_each_reset {A} (g : Function → res A) l : (∀ f c, g (set_cold f c) = g f) → collect_each g (map (λ f, set_cold f false) l) = collect_each g l.
Proof. intros Hg. induction l as [|f l IH]; [done|]. cbn [map collect_each]. by rewrite Hg, IH. Qed.
Lemma add_functions_reset i l acc : add_functions i (map (λ f, set_cold f false) l) acc = add_functions i l acc.
Proof.
  revert i acc. induction l as [|f l IH]; intros i acc; [done|]. cbn [map add_functions]. change (reachable (set_cold f false)) with (reachable f). destruct (reachable f); [|done..]. cbn [res_bind]. apply IH.
Qed.
Lemma cold_sweep_reset ids l calls regions candidates cold changed :
  cold_sweep ids (map (λ f, set_cold f false) l) calls regions candidates cold changed = cold_sweep ids l calls regions candidates cold changed.
Proof.
  revert cold changed. induction ids as [|i ids IH]; intros cold changed; [done|]. cbn [cold_sweep]. destruct (cold !! i) as [c|]; [|done]. cbn [unwrap res_bind]. destruct (candidates !! i) as [may|]; [|done]. cbn [unwrap res_bind].
  destruct (c || negb may); [apply IH|]. rewrite list_lookup_fmap. destruct (l !! i) as [f|]; [|done]. cbn [fmap option_fmap option_map unwrap res_bind]. change (name (set_cold f false)) with (name f).
  destruct (calls !! name f) as [sites|]; [|apply IH]. destruct (all_sites i cold regions sites false) as [[q o]| |]; [|done..]. cbn [res_bind]. destruct (q && o); apply IH.
Qed.
Lemma cold_loop_reset fuel l calls regions candidates cold :
  cold_loop fuel (map (λ f, set_cold f false) l) calls regions candidates cold = cold_loop fuel l calls regions candidates cold.
Proof.
  revert cold. induction fuel as [|fuel IH]; intros cold; [done|]. cbn [cold_loop]. rewrite length_map, cold_sweep_reset. destruct (cold_sweep _ _ _ _ _ _ _) as [[cold' []]| |]; [|done..]. cbn [res_bind]. apply IH.
Qed.
Lemma zip_reset l cold : zip_with set_cold (map (λ f, set_cold f false) l) cold = zip_with set_cold l cold.
Proof. revert cold. induction l as [|f l IH]; intros [|c cold]; [done..|]. cbn [map zip_with]. by rewrite IH. Qed.
Lemma cold_candidate_ok p taken f : well_formed f → (∀ g, g ∈ taken ↔ address_escapes p g) → ∃ b, cold_candidate taken f = Ret b ∧
  (b = true ↔ exportable f = false ∧ ¬ address_escapes p (name f) ∧ returns_only_err f = Ret true).
Proof.
  intros Hf Ht. unfold cold_candidate. destruct (exportable f) eqn:He; cbn [orb]; [exists false; split; [done|]; naive_solver|]. case_bool_decide as Hn.
  - exists false. split; [done|]. rewrite <-Ht. naive_solver.
  - destruct (returns_only_err_ok f Hf) as (b & -> & _). exists b. split; [done|]. rewrite <-Ht. split; [by intros ->|naive_solver].
Qed.
(** What [infer] answers: the program, with exactly the cold functions marked. *)
Lemma infer_marks p : all_well_formed p → ∃ cold, infer p = Ret (MkProgram (zip_with set_cold (fns p) cold)) ∧ length cold = length (fns p) ∧ ∀ i, cold !! i = Some true ↔ Cold p i.
Proof.
  intros Hp. unfold all_well_formed in Hp. rewrite Forall_forall in Hp. unfold infer. rewrite (collect_each_reset exceptional_region) by done.
  destruct (collect_each_ok exceptional_region (λ f r, ∀ b, b ∈ r ↔ in_region f b) (fns p)) as (regions & -> & Hregions); [intros f Hin; by apply region_ok, Hp|]. cbn [res_bind].
  rewrite add_functions_reset. destruct (add_functions_adds 0 (fns p) (∅, ∅)) as ([calls taken] & -> & [Hc Ht]); [by apply Forall_forall|]. cbn [res_bind]. cbn [fst snd] in Hc, Ht.
  rewrite (collect_each_reset (cold_candidate taken)) by done.
  assert (∀ g, g ∈ taken ↔ address_escapes p g) as Htaken.
  { intros g. rewrite Ht. split; [intros [?%elem_of_empty|(f & Hin & Hf)]; [done|]; apply list_elem_of_lookup in Hin as [i Hi]; by exists i, f|].
    intros (i & f & Hi & Hf). right. exists f. split; [by eapply list_elem_of_lookup_2|done]. }
  destruct (collect_each_ok (cold_candidate taken) (λ f b, b = true ↔ exportable f = false ∧ ¬ address_escapes p (name f) ∧ returns_only_err f = Ret true) (fns p)) as (candidates & -> & Hcand).
  { intros f Hin. by apply cold_candidate_ok; [apply Hp|]. }
  cbn [res_bind]. rewrite cold_loop_reset, length_map.
  destruct (cold_loop_ok p calls regions candidates) with (fuel := S (length (fns p))) (cold := replicate (length (fns p)) false) as (cold & -> & Hl & Hcold).
  - intros g s. rewrite Hc. unfold sites_of. rewrite lookup_empty. cbn [default]. split.
    + intros [?%elem_of_nil|(k & f & Hk & -> & Hcf)]; [done|by exists f].
    + intros (f & Hf & Hcf). right. by exists (caller s), f.
  - symmetry. by eapply Forall2_length.
  - intros i r b Hr. destruct (Forall2_lookup_r _ _ _ _ _ Hregions Hr) as (f & Hf & Hiff). rewrite Hiff. split; [by exists f|]. intros (f' & Hf' & ?). by simplify_eq.
  - symmetry. by eapply Forall2_length.
  - intros i f Hf. destruct (Forall2_lookup_l _ _ _ _ _ Hcand Hf) as (b & Hb & Hiff). rewrite Hb. rewrite <-Hiff. naive_solver.
  - split; [by rewrite length_replicate|]. by intros i [? _]%lookup_replicate_1.
  - lia.
  - cbn [res_bind]. exists cold. rewrite zip_reset. split; [done|]. split; [done|]. exact Hcold.
Qed.
Lemma infer_flag p cold i f : length cold = length (fns p) → fns p !! i = Some f → ∃ c, cold !! i = Some c ∧ zip_with set_cold (fns p) cold !! i = Some (set_cold f c).
Proof.
  intros Hl Hf. destruct (lookup_lt_is_Some_2 cold i) as [c Hc]; [rewrite Hl; by eapply lookup_lt_Some|]. exists c. split; [done|]. rewrite lookup_zip_with, Hf. cbn. by rewrite Hc.
Qed.

(** ** Theorems *)
(** C30. [exceptional_region] computes the exceptional blocks of a well-formed function, whatever
    its control flow, loops included: it does not panic nor run on, and a block is in its
    answer exactly when the entry reaches the block and every way there goes through the unlikely
    successor of one and the same recorded branch. *)
Theorem exceptional_region_exact f (Hf : well_formed f) : ∃ region, exceptional_region f = Ret region ∧
  ∀ b, b ∈ region ↔ reaches f b ∧ ∃ root, root ∈ roots f ∧ ∀ l, walk f (entry f) l b → root ∈ l ++ [b].
Proof. by apply region_ok. Qed.

(** C27. [infer] refines the inductive definition of the cold functions: on a program of
    well-formed functions it returns the program with its functions in place and no part of one
    changed but the flag, which is set, whatever it was before, exactly on the least set of functions
    that are not exported, have their address taken nowhere, return only errors, are called from
    outside themselves, and there only from exceptional regions or from functions of the set. *)
Theorem infer_least p (Hp : all_well_formed p) : ∃ p', infer p = Ret p' ∧ length (fns p') = length (fns p) ∧
  ∀ i f, fns p !! i = Some f → ∃ c, fns p' !! i = Some (set_cold f c) ∧ (c = true ↔ Cold p i).
Proof.
  destruct (infer_marks p Hp) as (cold & -> & Hl & Hiff). eexists. split; [done|]. cbn [fns]. split; [rewrite length_zip_with; lia|]. intros i f Hf.
  destruct (infer_flag p cold i f Hl Hf) as (c & Hc & Hz). exists c. split; [done|]. rewrite <-Hiff, Hc. naive_solver.
Qed.

(** A chain of calls, with the blocks it leaves from. *)
Inductive call_path (p : Program) : nat → list (nat * BlockId) → nat → Prop :=
  | path_nil i : call_path p i [] i
  | path_call i b j f l k : fns p !! j = Some f → call_site p i b (name f) → call_path p j l k → call_path p i ((i, b) :: l) k.
(** C28. A marked function is reached through an exceptional region only: in the program [infer]
    answers, a chain of calls from an unmarked function to a marked one, of any length, makes
    one of its calls from a block of an exceptional region. *)
Theorem cold_calls_exceptional p p' i k fi fk l (Hp : all_well_formed p) (Hrun : infer p = Ret p')
    (Hi : fns p' !! i = Some fi) (Hk : fns p' !! k = Some fk) (Hhot : cold fi = false) (Hcold : cold fk = true)
    (Hpath : call_path p i l k) : ∃ j b, (j, b) ∈ l ∧ exceptional p j b.
Proof.
  destruct (infer_marks p Hp) as (flags & E & Hl & Hiff). rewrite Hrun in E. injection E as ->. cbn [fns] in Hi, Hk.
  assert (∀ j fj, zip_with set_cold (fns p) flags !! j = Some fj → cold fj = true ↔ Cold p j) as Hflag.
  { intros j fj (f & c & -> & _ & Hc)%lookup_zip_with_Some. rewrite <-Hiff, Hc. cbn. naive_solver. }
  apply (Hflag k fk Hk) in Hcold. assert (¬ Cold p i) as Hni by (intros H%(Hflag i fi Hi); congruence).
  assert (∀ j, Cold p j ∨ ¬ Cold p j) as Hdec by (intros j; rewrite <-Hiff; destruct (flags !! j) as [[]|]; naive_solver).
  assert (∀ j b, exceptional p j b ∨ ¬ exceptional p j b) as Hdex.
  { intros j b. destruct (fns p !! j) as [f|] eqn:Hf; [|right; by intros (? & ? & _); simplify_eq].
    destruct (region_ok f) as (r & _ & Hr); [unfold all_well_formed in Hp; rewrite Forall_forall in Hp; by eapply Hp, list_elem_of_lookup_2|].
    destruct (decide (b ∈ r)) as [Hb|Hb]; [left; exists f; split; [done|by apply Hr]|right]. intros (f' & Hf' & Hx). simplify_eq. by apply Hb, Hr. }
  clear Hi Hk Hhot. induction Hpath as [j|j b m f l k' Hm Hs Hpath IH]; [done|]. destruct (Hdec m) as [Hcm|Hcm].
  - destruct (Hdex j b) as [Hx|Hx]; [exists j, b; by split; [left|]|]. exfalso. pose proof Hcm as Hcm'. destruct Hcm as [m f' Hf' _ _ _ _ Hall]. simplify_eq. apply Hni, (Hall j b); [|done|done]. by intros ->.
  - destruct IH as (x & y & Hin & Hx); [done..|]. exists x, y. by split; [right|].
Qed.

(** ** Witnesses *)
(** A loop whose unlikely side leaves it: blocks 3 and 4 are exceptional, 5 is not. *)
Definition looping : Function :=
  Vectors.fn 7 [MkBlock 0 [] [] (Goto 1); MkBlock 1 [] [] (Branch (OArg 0) 2 5); MkBlock 2 [] [] (Branch (OArg 1) 1 3);
    MkBlock 3 [Vectors.call 0 1] [] (Goto 4); MkBlock 4 [] [] Unreachable; MkBlock 5 [] [] Unreachable] [MkEdge 2 Else BoundsCheck].
Lemma exceptional_region_exact_witness :
  (let* r := exceptional_region looping in Ret (elements r)) = Ret [4; 3] ∧
  ∃ region, exceptional_region looping = Ret region ∧ ∀ b, b ∈ region ↔ reaches looping b ∧ ∃ root, root ∈ roots looping ∧ ∀ l, walk looping (entry looping) l b → root ∈ l ++ [b].
Proof. split; [vm_compute; reflexivity|]. apply (exceptional_region_exact looping). apply well_formedb_ok. vm_compute. reflexivity. Defined.
(** A caller that fails, the error it makes, and what that one calls, and itself. *)
Definition sample : Program := MkProgram [Vectors.exceptional_caller 1; Vectors.err_function 1 [2%Z; 1%Z]; Vectors.err_function 2 []].
Lemma sample_well_formed : all_well_formed sample.
Proof. repeat (apply Forall_cons; split; [by apply well_formedb_ok|]). apply Forall_nil. done. Qed.
Lemma infer_least_witness :
  (let* p := infer sample in Ret (map cold (fns p))) = Ret [false; true; true] ∧ ∃ p', infer sample = Ret p' ∧ length (fns p') = 3.
Proof.
  split; [vm_compute; reflexivity|]. destruct (infer_least sample sample_well_formed) as (p' & Hp & Hl & _). exists p'. split; [exact Hp|exact Hl].
Defined.
Lemma sample_site i b g f block id rv : fns sample !! i = Some f → (∃ l, walk f (entry f) l b) → blocks f !! b = Some block → Let id rv ∈ stmts block → called rv = Some g → call_site sample i b g.
Proof. intros Hf Hr Hb Hs Hc. exists f. split; [done|]. split; [exact Hr|]. by exists block, id, rv. Qed.
Lemma sample_path : call_path sample 0 [(0, 2); (1, 0)] 2.
Proof.
  eapply (path_call _ 0 2 1); [reflexivity| |eapply (path_call _ 1 0 2); [reflexivity| |constructor]].
  - eapply sample_site; [reflexivity|exists [0]; econstructor; [eexists; split; [reflexivity|right; left]|constructor]|reflexivity|left|reflexivity].
  - eapply sample_site; [reflexivity|exists []; constructor|reflexivity|left|reflexivity].
Qed.
Lemma cold_calls_exceptional_witness : ∃ j b, (j, b) ∈ [(0, 2); (1, 0)] ∧ exceptional sample j b.
Proof.
  eapply (cold_calls_exceptional sample _ 0 2 _ _ [(0, 2); (1, 0)] sample_well_formed); [vm_compute; reflexivity|reflexivity|reflexivity|reflexivity|reflexivity|exact sample_path].
Defined.
