(* ===== verification/DropState.v ===== *)
(** * Drop-state simplification ([crates/align_mir/src/lib.rs], [simplify_drop_state])

    Lowering keeps, for every owned slot, a boolean slot that says whether it is to be
    dropped, and guards each drop with it.  The pass finds by a forward analysis the
    guards whose flag is one constant on every way there, makes them jumps, takes out
    the blocks nothing reaches any more, and removes the nulling of moved-out slots that
    are not read again. *)
From Stdlib Require Import ZArith Lia.
From stdpp Require Import gmap.
From S2P Require Import Prelude Types Mir Cold.
Local Open Scope nat_scope.

Definition set_blocks (f : Function) (blocks : list Block) : Function :=
  MkFunction (name f) (ret f) (slots f) (value_tys f) blocks (entry f) (exceptional_edges f) (cold f) (exportable f).
Definition set_edges (f : Function) (edges : list ExceptionalEdge) : Function :=
  MkFunction (name f) (ret f) (slots f) (value_tys f) (blocks f) (entry f) edges (cold f) (exportable f).
Definition set_entry_block (f : Function) (entry : BlockId) : Function :=
  MkFunction (name f) (ret f) (slots f) (value_tys f) (blocks f) entry (exceptional_edges f) (cold f) (exportable f).
(** [l[i] = x] *)
Definition set_at {A} (l : list A) (i : nat) (x : A) : res (list A) := if i <? length l then Ret (<[i := x]> l) else Panic.
(** [Vec::remove] *)
Definition remove_at {A} (l : list A) (i : nat) : res (list A) := if i <? length l then Ret (delete i l) else Panic.

(** ** States of boolean slots *)
Inductive BoolState := BConst (b : bool) | Unknown.
#[export] Instance BoolState_eq_dec : EqDecision BoolState.
Proof. solve_decision. Defined.
Fixpoint merge_states (current incoming : list BoolState) : list BoolState * bool :=
  match current, incoming with
  | old :: current, new :: incoming =>
      let '(rest, changed) := merge_states current incoming in
      if negb (bool_decide (old = new)) && negb (bool_decide (old = Unknown)) then (Unknown :: rest, true) else (old :: rest, changed)
  | current, _ => (current, false)
  end.
Definition merge_dst (dst : option (list BoolState)) (incoming : list BoolState) : list BoolState * bool :=
  match dst with None => (incoming, true) | Some current => merge_states current incoming end.
Definition operand_state (op : Operand) (values : list BoolState) : BoolState :=
  match op with
  | OConst (CBool value) => BConst value
  | OValue value => default Unknown (values !! value)
  | _ => Unknown
  end.
Definition is_drop (s : Stmt) : bool := match s with Drop _ | DropField _ _ | DropValue _ => true | _ => false end.
Definition is_drop_guard (f : Function) (t : Term) : bool :=
  match t with
  | Branch _ then_bb _ => match blocks f !! then_bb ≫= (λ block, head (stmts block)) with Some s => is_drop s | None => false end
  | _ => false
  end.

(** ** Moved-out slots that are not read again *)
Definition statement_does_not_read_slot (s : Stmt) (slot : Slot) : bool :=
  match s with
  | Let _ (RLoad source) => negb (source =? slot)
  | Let _ (RUse operand) => negb (operand_mentions_slot operand slot)
  | Let _ (RCall _ operands) | Let _ (RCallWithCleanup _ operands _) => forallb (λ operand, negb (operand_mentions_slot operand slot)) operands
  | Store target operand => negb (target =? slot) && negb (operand_mentions_slot operand slot)
  | Drop target | DropField target _ => negb (target =? slot)
  | DropValue operand => negb (operand_mentions_slot operand slot)
  | _ => false
  end.
Abbreviation Memo := (gmap (BlockId * nat) bool).
Fixpoint all_targets (check : BlockId → Memo → res (bool * Memo)) (targets : list BlockId) (memo : Memo) : res (bool * Memo) :=
  match targets with
  | [] => Ret (true, memo)
  | t :: targets => let* '(ok, memo) := check t memo in if ok : bool then all_targets check targets memo else Ret (false, memo)
  end.
(** The blocks on the way are [visiting]; the code takes each out again when it is left. *)
Fixpoint all_paths_leave_slot_unread (fuel : nat) (f : Function) (slot : Slot) (visiting : gset BlockId) (block_id : BlockId) (first_statement : nat) (memo : Memo) : res (bool * Memo) :=
  match memo !! (block_id, first_statement) with
  | Some result => Ret (result, memo)
  | None =>
    if bool_decide (block_id ∈ visiting) then Ret (false, memo)
    else
      match blocks f !! block_id with
      | None => Ret (false, memo)
      | Some block =>
        if negb (forallb (λ s, statement_does_not_read_slot s slot) (drop first_statement (stmts block))) then Ret (false, memo)
        else
          match fuel with
          | O => OutOfFuel
          | S fuel =>
            let next t memo := all_paths_leave_slot_unread fuel f slot ({[block_id]} ∪ visiting) t 0 memo in
            let* '(result, memo) :=
              match term block with
              | Return value => Ret (match value with None => true | Some operand => negb (operand_mentions_slot operand slot) end, memo)
              | ReturnWithCleanup value cleanup => Ret (negb (operand_mentions_slot value slot) && negb (operand_mentions_slot cleanup slot), memo)
              | Goto target => next target memo
              | Branch condition then_block else_block =>
                  if operand_mentions_slot condition slot then Ret (false, memo) else all_targets next [then_block; else_block] memo
              | StrMatch scrutinee cases otherwise =>
                  if operand_mentions_slot scrutinee slot then Ret (false, memo) else all_targets next (map snd cases ++ [otherwise]) memo
              | Unreachable => Ret (true, memo)
              end in
            Ret (result, <[(block_id, first_statement) := result]> memo)
          end
      end
  end.
(** The statement moves a slot out, its flag is cleared next, and nothing reads the slot after. *)
Definition removable_at (f : Function) (block : Block) (index : nat) : res bool :=
  match stmts block !! index with
  | Some (DropFlagMoveOut slot flag) =>
      match stmts block !! S index with
      | Some (Store target (OConst (CBool false))) =>
          if target =? flag then
            let* '(unread, _) := all_paths_leave_slot_unread (S (length (blocks f))) f slot ∅ (b_id block) (index + 2) ∅ in Ret unread
          else Ret false
      | _ => Ret false
      end
  | _ => Ret false
  end.
Fixpoint filter_res {A} (check : A → res bool) (l : list A) : res (list A) :=
  match l with
  | [] => Ret []
  | x :: l => let* ok := check x in let* rest := filter_res check l in Ret (if ok : bool then x :: rest else rest)
  end.
Fixpoint removable (f : Function) (block_index : nat) (bs : list Block) : res (list (nat * nat)) :=
  match bs with
  | [] => Ret []
  | block :: bs =>
      let* here := filter_res (removable_at f block) (seq 0 (length (stmts block) - 1)) in
      let* rest := removable f (S block_index) bs in
      Ret (map (pair block_index) here ++ rest)
  end.
Definition remove_statement (f : Function) (at_ : nat * nat) : res Function :=
  let '(block_index, index) := at_ in
  let* block := unwrap (blocks f !! block_index) in
  let* stmts := remove_at (stmts block) index in
  let stmt_lines := if index <? length (stmt_lines block) then delete index (stmt_lines block) else stmt_lines block in
  Ret (set_blocks f (<[block_index := MkBlock (b_id block) stmts stmt_lines (term block)]> (blocks f))).
Fixpoint remove_statements (f : Function) (l : list (nat * nat)) : res Function :=
  match l with [] => Ret f | at_ :: l => let* f := remove_statement f at_ in remove_statements f l end.
Definition remove_dead_move_outs (f : Function) : res Function := let* l := removable f 0 (blocks f) in remove_statements f (rev l).

(** ** The analysis *)
Abbreviation Incoming := (list (option (list BoolState))).
Definition flow_stmt (f : Function) (slots values : list BoolState) (s : Stmt) : res (list BoolState * list BoolState) :=
  match s with
  | Let value (RLoad slot) =>
      let* ty := unwrap (Mir.slots f !! slot) in
      if bool_decide (ty = Ty.Bool) then let* state := unwrap (slots !! slot) in let* values := set_at values value state in Ret (slots, values)
      else Ret (slots, values)
  | Let value (RUse op) =>
      let* ty := unwrap (value_tys f !! value) in
      if bool_decide (ty = Ty.Bool) then let* values := set_at values value (operand_state op values) in Ret (slots, values)
      else Ret (slots, values)
  | Store slot op =>
      let* ty := unwrap (Mir.slots f !! slot) in
      if bool_decide (ty = Ty.Bool) then let* slots := set_at slots slot (operand_state op values) in Ret (slots, values)
      else Ret (slots, values)
  | _ => Ret (slots, values)
  end.
Fixpoint flow_stmts (f : Function) (slots values : list BoolState) (l : list Stmt) : res (list BoolState * list BoolState) :=
  match l with
  | [] => Ret (slots, values)
  | s :: l => let* '(slots, values) := flow_stmt f slots values s in flow_stmts f slots values l
  end.
(** What is known of the condition of a guard. *)
Definition known_term (f : Function) (t : Term) (values : list BoolState) : option bool :=
  match t with
  | Branch cond _ _ => if is_drop_guard f t then match operand_state cond values with BConst value => Some value | Unknown => None end else None
  | _ => None
  end.
(** Where control can go on. *)
Definition live_targets (t : Term) (known : option bool) : list BlockId :=
  match t, known with
  | Branch _ then_bb _, Some true => [then_bb]
  | Branch _ _ else_bb, Some false => [else_bb]
  | _, _ => successors t
  end.
Fixpoint propagate (successors : list BlockId) (slots : list BoolState) (incoming : Incoming) (work : list BlockId) : res (Incoming * list BlockId) :=
  match successors with
  | [] => Ret (incoming, work)
  | successor :: successors =>
      let* dst := unwrap (incoming !! successor) in
      let '(merged, changed) := merge_dst dst slots in
      propagate successors slots (<[successor := Some merged]> incoming) (if changed : bool then work ++ [successor] else work)
  end.
(** A visit starts with every temporary unknown: the code resets what the last one set. *)
Fixpoint flow_loop (fuel : nat) (f : Function) (work : list BlockId) (incoming : Incoming) (known_terms : list (option bool)) : res (list (option bool)) :=
  match work with
  | [] => Ret known_terms
  | block_id :: work =>
    match fuel with
    | O => OutOfFuel
    | S fuel =>
      let* slots := unwrap (mjoin (incoming !! block_id)) in
      let* block := unwrap (blocks f !! block_id) in
      let* '(slots, values) := flow_stmts f slots (replicate (length (value_tys f)) Unknown) (stmts block) in
      let known := known_term f (term block) values in
      let* known_terms := set_at known_terms block_id known in
      let* '(incoming, work) := propagate (live_targets (term block) known) slots incoming work in
      flow_loop fuel f work incoming known_terms
    end
  end.

(** ** Rewriting *)
Definition fold_branch (block : Block) (known : option bool) : Block :=
  match term block, known with
  | Branch _ then_bb _, Some true => MkBlock (b_id block) (stmts block) (stmt_lines block) (Goto then_bb)
  | Branch _ _ else_bb, Some false => MkBlock (b_id block) (stmts block) (stmt_lines block) (Goto else_bb)
  | _, _ => block
  end.
Definition keep_branches (bs : list Block) (edges : list ExceptionalEdge) : list ExceptionalEdge :=
  filter (λ e, match bs !! e_block e with Some block => is_branch (term block) | None => false end = true) edges.
Fixpoint mark_loop (fuel : nat) (blocks : list Block) (pending : list BlockId) (reachable : list bool) : res (list bool) :=
  match pending with
  | [] => Ret reachable
  | block_id :: pending =>
    match fuel with
    | O => OutOfFuel
    | S fuel =>
      let* seen := unwrap (reachable !! block_id) in
      if seen : bool then mark_loop fuel blocks pending reachable
      else
        let* block := unwrap (blocks !! block_id) in
        mark_loop fuel blocks (rev (successors (term block)) ++ pending) (<[block_id := true]> reachable)
    end
  end.
(** [u32::MAX], for a block that is taken out; [None] in the table of new ids. *)
Definition no_block (_ : unit) : nat := Z.to_nat 4294967295.
Fixpoint compact (bs : list Block) (reachable : list bool) (new_id : BlockId) : list Block * list (option BlockId) :=
  match bs, reachable with
  | block :: bs, true :: reachable =>
      let '(blocks, remap) := compact bs reachable (S new_id) in
      (MkBlock new_id (stmts block) (stmt_lines block) (term block) :: blocks, Some new_id :: remap)
  | _ :: bs, false :: reachable => let '(blocks, remap) := compact bs reachable new_id in (blocks, None :: remap)
  | _, _ => ([], [])
  end.
Definition new_target (remap : list (option BlockId)) (target : BlockId) : res BlockId :=
  let* mapped := unwrap (remap !! target) in Ret (match mapped with Some id => id | None => no_block () end).
(** The targets of a string match are left alone when they are out of range. *)
Definition new_case (remap : list (option BlockId)) (target : BlockId) : BlockId :=
  match remap !! target with Some (Some id) => id | Some None => no_block () | None => target end.
Definition remap_term (remap : list (option BlockId)) (t : Term) : res Term :=
  match t with
  | Goto target => let* target := new_target remap target in Ret (Goto target)
  | Branch cond then_bb else_bb =>
      let* then_bb := new_target remap then_bb in let* else_bb := new_target remap else_bb in Ret (Branch cond then_bb else_bb)
  | StrMatch scrutinee cases otherwise => Ret (StrMatch scrutinee (map (λ '(key, target), (key, new_case remap target)) cases) (new_case remap otherwise))
  | Return _ | ReturnWithCleanup _ _ | Unreachable => Ret t
  end.
Definition remap_block (remap : list (option BlockId)) (block : Block) : res Block :=
  let* t := remap_term remap (term block) in Ret (MkBlock (b_id block) (stmts block) (stmt_lines block) t).
Definition remap_edge (remap : list (option BlockId)) (e : ExceptionalEdge) : option ExceptionalEdge :=
  mapped ← mjoin (remap !! e_block e); Some (MkEdge mapped (unlikely e) (kind e)).
(** Each visit changes a state of the block it queues, or the block's first one. *)
Definition flow_fuel (f : Function) : nat := S (length (blocks f) * S (length (slots f))).
Definition simplify_drop_state (f : Function) : res Function :=
  let* f := remove_dead_move_outs f in
  if negb (existsb (λ block, is_drop_guard f (term block)) (blocks f)) then Ret f
  else
    let* incoming := set_at (replicate (length (blocks f)) None) (entry f) (Some (replicate (length (slots f)) Unknown)) in
    let* known_terms := flow_loop (flow_fuel f) f [entry f] incoming (replicate (length (blocks f)) None) in
    if forallb (λ known, bool_decide (known = None)) known_terms then Ret f
    else
      let f := set_blocks f (zip_with fold_branch (blocks f) known_terms) in
      let f := set_edges f (keep_branches (blocks f) (exceptional_edges f)) in
      let* reachable := mark_loop (S (edge_count (blocks f))) (blocks f) [entry f] (replicate (length (blocks f)) false) in
      if forallb id reachable then remove_dead_move_outs f
      else
        let '(blocks, remap) := compact (blocks f) reachable 0 in
        let* blocks := collect_each (remap_block remap) blocks in
        let* entry := new_target remap (entry f) in
        let f := set_entry_block (set_edges f (omap (remap_edge remap) (exceptional_edges f))) entry in
        remove_dead_move_outs (set_blocks f blocks).

(** The unit tests of the pass. *)
Module FlagVectors.
Definition fn (slots value_tys : list Ty) (blocks : list Block) (edges : list ExceptionalEdge) : Function :=
  MkFunction [1%Z] Ty.Unit slots value_tys blocks 0 edges false false.
Definition checked_cleanup : Function :=
  fn [Ty.Bool; Ty.String] [Ty.Bool]
    [MkBlock 0 [Store 0 (OConst (CBool false)); Let 0 (RLoad 0)] [(0, 0)%Z; (0, 0)%Z] (Branch (OValue 0) 1 2);
     MkBlock 1 [Drop 1] [(0, 0)%Z] (Goto 3); MkBlock 2 [] [] (Goto 3); MkBlock 3 [] [] (Branch (OConst (CBool false)) 4 5);
     MkBlock 4 [] [] (Return (Some (OConst CUnit))); MkBlock 5 [] [] Unreachable] [MkEdge 3 Then BoundsCheck].
Example remaps_exceptional_edges :
  (let* f := simplify_drop_state checked_cleanup in Ret (length (blocks f), exceptional_edges f, map term (blocks f))) =
  Ret (5, [MkEdge 2 Then BoundsCheck], [Goto 1; Goto 2; Branch (OConst (CBool false)) 3 4; Return (Some (OConst CUnit)); Unreachable]).
Proof. vm_compute. done. Qed.
Definition move_out (l : list Stmt) (t : Term) : Function := fn [Ty.String; Ty.Unit; Ty.Bool] [Ty.String] [MkBlock 0 l [] t] [].
Example read_after : let l := [DropFlagMoveOut 0 2; Store 2 (OConst (CBool false)); Let 0 (RLoad 0)] in
  (let* f := simplify_drop_state (move_out l (Return (Some (OValue 0)))) in Ret (map stmts (blocks f))) = Ret [l].
Proof. vm_compute. done. Qed.
(** A ladder of [levels] diamonds after a move. *)
Fixpoint ladder (levels id : nat) : list Block :=
  match levels with
  | O => []
  | S levels => [MkBlock id [] [] (Goto (id + 2)); MkBlock (id + 1) [] [] (Goto (id + 2));
      MkBlock (id + 2) [] [] (match levels with O => Return None | S _ => Branch (OConst (CBool true)) (id + 3) (id + 4) end)] ++ ladder levels (id + 3)
  end.
Example removed_before_diamonds :
  let f := fn [Ty.String; Ty.Unit; Ty.Bool] [] (MkBlock 0 [DropFlagMoveOut 0 2; Store 2 (OConst (CBool false))] [(0, 0)%Z; (0, 0)%Z] (Branch (OConst (CBool true)) 1 2) :: ladder 64 1) [] in
  (let* f := simplify_drop_state f in Ret (head (blocks f))) = Ret (Some (MkBlock 0 [Store 2 (OConst (CBool false))] [(0, 0)%Z] (Branch (OConst (CBool true)) 1 2))).
Proof. vm_compute. done. Qed.
End FlagVectors.
