(* ===== verification/MirSem.v ===== *)
(** * A semantics of the mid-level IR

    Frames of temporaries and slots, over a machine that gives operations their meaning:
    loads, copies and stores are defined here, every other statement is the machine's, which
    sees the slots the statement names and may change those it may change.  A slot has no
    aliases: only the statements that name it read or change it. *)
From Stdlib Require Import ZArith Lia.
From stdpp Require Import gmap.
From S2P Require Import Prelude Types Mir Cold ColdGraph.
Local Open Scope nat_scope.

(** The slots an operation of the machine sees. *)
Definition reads (s : Stmt) (slot : Slot) : bool :=
  match s with
  | Let _ (RCall _ args) | Let _ (RCallWithCleanup _ args _) | Let _ (RClosure _ args) => existsb (λ op, operand_mentions_slot op slot) args
  | Let _ (RResultErr op) | DropValue op => operand_mentions_slot op slot
  | Let _ (ROther _ slots _) | SOther _ slots => bool_decide (slot ∈ slots)
  | Drop s | DropField s _ => s =? slot
  | _ => false
  end.
(** A machine over values [V] and a world [W]: what an operand that is no temporary is, whether a
    value is a true or a false boolean, which text it is, the value a moved-out slot is
    cleared to, and what the other statements do; [None] where that is undefined. *)
Class Machine (V W : Type) := {
  atom : Operand → gmap Slot V → option V;
  truth : V → option bool;
  is_text : V → bytes → bool;
  null : Slot → V;
  operate : Stmt → gmap ValueId V → gmap Slot V → W → option (gmap ValueId V * gmap Slot V * W);
  atom_bool b m : atom (OConst (CBool b)) m ≫= truth = Some b
}.
Definition restrict {V} (P : nat → bool) (m : gmap nat V) : gmap nat V := filter (λ p, P (fst p) = true) m.
Lemma restrict_lookup {V} P (m : gmap nat V) i : restrict P m !! i = if P i then m !! i else None.
Proof. unfold restrict. destruct (P i) eqn:E; [|apply map_lookup_filter_None; right; intros x _; cbn; congruence]. destruct (m !! i) as [v|] eqn:Hm; [by apply map_lookup_filter_Some|apply map_lookup_filter_None; by left]. Qed.
Lemma restrict_ext {V} P (m m' : gmap nat V) : (∀ i, P i = true → m !! i = m' !! i) → restrict P m = restrict P m'.
Proof. intros H. apply map_eq. intros i. rewrite !restrict_lookup. destruct (P i) eqn:E; [by apply H|done]. Qed.

Section Semantics.
Context {V W : Type} `{Machine V W}.
Record state := MkState { regs : gmap ValueId V; mem : gmap Slot V; world : W }.
Definition value (op : Operand) (s : state) : option V :=
  match op with OValue id => regs s !! id | _ => atom op (restrict (operand_mentions_slot op) (mem s)) end.
Definition exec (s : Stmt) (st : state) : option state :=
  match s with
  | Let id (RLoad slot) => v ← mem st !! slot; Some (MkState (<[id := v]> (regs st)) (mem st) (world st))
  | Let id (RUse op) => v ← value op st; Some (MkState (<[id := v]> (regs st)) (mem st) (world st))
  | Store slot op => v ← value op st; Some (MkState (regs st) (<[slot := v]> (mem st)) (world st))
  | DropFlagMoveOut slot _ => Some (MkState (regs st) (<[slot := null slot]> (mem st)) (world st))
  | _ =>
      '(news, outs, w) ← operate s (regs st) (restrict (reads s) (mem st)) (world st);
      Some (MkState (restrict (λ id, bool_decide (id ∈ defines s)) news ∪ regs st) (restrict (may_change s) outs ∪ mem st) w)
  end.
Fixpoint execs (l : list Stmt) (st : state) : option state :=
  match l with [] => Some st | s :: l => st ← exec s st; execs l st end.
(** Where control goes: on to a block, or back with a value and its cleanup bit. *)
Definition next (t : Term) (st : state) : option (BlockId + option V * option V) :=
  match t with
  | Goto b => Some (inl b)
  | Branch cond yes no => v ← value cond st; b ← truth v; Some (inl (if b : bool then yes else no))
  | StrMatch scrutinee cases otherwise =>
      v ← value scrutinee st;
      Some (inl (match find (λ '(key, _), is_text v key) cases with Some (_, b) => b | None => otherwise end))
  | Return None => Some (inr (None, None))
  | Return (Some op) => v ← value op st; Some (inr (Some v, None))
  | ReturnWithCleanup op cleanup => v ← value op st; c ← value cleanup st; Some (inr (Some v, Some c))
  | Unreachable => None
  end.
(** What is seen of a run of so many blocks. *)
Inductive outcome := Exits (v cleanup : option V) (w : W) | Undefined | Running (w : W).
Fixpoint run (fuel : nat) (f : Function) (b : BlockId) (st : state) : outcome :=
  match fuel with
  | O => Running (world st)
  | S fuel =>
    match blocks f !! b with
    | None => Undefined
    | Some block =>
      match execs (stmts block) st with
      | None => Undefined
      | Some st =>
        match next (term block) st with
        | None => Undefined
        | Some (inl b) => run fuel f b st
        | Some (inr (v, cleanup)) => Exits v cleanup (world st)
        end
      end
    end
  end.
(** [g] does what [f] does, from every frame. *)
Definition same_runs (f g : Function) : Prop := ∀ fuel st, run fuel g (entry g) st = run fuel f (entry f) st.

Lemma execs_app l m st : execs (l ++ m) st = (st ← execs l st; execs m st).
Proof. revert st. induction l as [|s l IH]; intros st; [done|]. cbn [app execs]. destruct (exec s st); [apply IH|done]. Qed.
Lemma next_successor t st b : next t st = Some (inl b) → b ∈ successors t.
Proof.
  destruct t as [b'|cond yes no|scrutinee cases otherwise|[op|]|op c|]; cbn [next successors]; try done.
  - intros [= ->]. left.
  - intros (v & _ & (b' & _ & [= <-])%bind_Some)%bind_Some. destruct b'; [left|right; left].
  - intros (v & _ & [= <-])%bind_Some. apply elem_of_app. destruct (find _ cases) as [[key b']|] eqn:E; [left|right; left].
    apply find_some in E as [Hin _]. apply list_elem_of_In. by apply (in_map snd) in Hin.
  - by intros (v & _ & ?)%bind_Some.
  - by intros (v & _ & (c' & _ & ?)%bind_Some)%bind_Some.
Qed.
(** What a statement does not define or may not change is kept. *)
Lemma exec_regs s st st' id : exec s st = Some st' → id ∉ defines s → regs st' !! id = regs st !! id.
Proof.
  assert ((∃ news outs w, st' = MkState (restrict (λ id, bool_decide (id ∈ defines s)) news ∪ regs st) (restrict (may_change s) outs ∪ mem st) w) → id ∉ defines s → regs st' !! id = regs st !! id) as Hop.
  { intros (news & outs & w & ->) Hid. cbn [regs]. rewrite lookup_union, restrict_lookup, bool_decide_false by done. by destruct (regs st !! id). }
  assert (∀ v, id ∉ [v] → ∀ x, <[v := x]> (regs st) !! id = regs st !! id) as Hins.
  { intros v Hid x. apply lookup_insert_ne. intros ->. apply Hid. left. }
  intros He Hid. destruct s as [v [op|slot| | | | | | | | | |]|slot op|slot flag|slot|slot path|op|op slots]; cbn [exec] in He;
    try (apply bind_Some in He as ([[news outs] w] & _ & [= <-]); apply Hop; [by eexists _, _, _|done]).
  - apply bind_Some in He as (x & _ & [= <-]). by apply Hins.
  - apply bind_Some in He as (x & _ & [= <-]). by apply Hins.
  - by apply bind_Some in He as (x & _ & [= <-]).
  - by injection He as <-.
Qed.

Lemma exec_mem s st st' slot : exec s st = Some st' → may_change s slot = false → mem st' !! slot = mem st !! slot.
Proof.
  assert ((∃ regs outs w, st' = MkState regs (restrict (may_change s) outs ∪ mem st) w) → may_change s slot = false → mem st' !! slot = mem st !! slot) as Hop.
  { intros (regs & outs & w & ->) Hs. cbn [mem]. rewrite lookup_union, restrict_lookup, Hs. by destruct (mem st !! slot). }
  intros He Hs. destruct s as [v [op|source| | | | | | | | | |]|target op|target flag|target|target path|op|op touched]; cbn [exec] in He;
    try (apply bind_Some in He as ([[news outs] w] & _ & [= <-]); apply Hop; [by eexists _, _, _|done]).
  - by apply bind_Some in He as (x & _ & [= <-]).
  - by apply bind_Some in He as (x & _ & [= <-]).
  - apply bind_Some in He as (x & _ & [= <-]). cbn [mem may_change] in *. apply lookup_insert_ne. by apply Nat.eqb_neq.
  - injection He as <-. cbn [mem may_change] in *. apply lookup_insert_ne. by apply Nat.eqb_neq.
Qed.

(** ** Frames that differ in one slot *)
Record agree_off (d : Slot) (st st' : state) : Prop := {
  off_regs : regs st' = regs st; off_world : world st' = world st; off_mem : ∀ slot, slot ≠ d → mem st' !! slot = mem st !! slot
}.
Lemma restrict_off P d st st' : agree_off d st st' → P d = false → restrict P (mem st') = restrict P (mem st).
Proof. intros Ha Hd. apply restrict_ext. intros i Hi. apply (off_mem _ _ _ Ha). congruence. Qed.
Lemma value_off op d st st' : agree_off d st st' → operand_mentions_slot op d = false → value op st' = value op st.
Proof. intros Ha Hd. destruct op; cbn [value]; try (by rewrite (restrict_off _ d st st')). by rewrite (off_regs _ _ _ Ha). Qed.
End Semantics.
Arguments state : clear implicits.
