(* ===== verification/DropMoves.v ===== *)
(** * Removing the nulling of moved-out slots

    A slot that no path from a point reads is left alone by everything the program does
    from there, so a statement that clears it can go.  The search of
    [all_paths_leave_slot_unread] ends, and finds such paths only; removing the statements
    one after the other keeps what the function does. *)
From Stdlib Require Import ZArith Lia Sorted.
From stdpp Require Import gmap.
From S2P Require Import Prelude Types Mir Cold ColdGraph DropState MirSem.
Local Open Scope nat_scope.

(** ** Slots that are not read *)
Definition term_unread (t : Term) (d : Slot) : bool :=
  match t with
  | Branch op _ _ | StrMatch op _ _ | Return (Some op) => negb (operand_mentions_slot op d)
  | ReturnWithCleanup value cleanup => negb (operand_mentions_slot value d) && negb (operand_mentions_slot cleanup d)
  | _ => true
  end.
Definition stmts_unread (l : list Stmt) (d : Slot) : bool := forallb (λ s, statement_does_not_read_slot s d) l.
(** Every path from statement [i] of block [b] comes to an end, and none reads [d]. *)
Inductive unread (f : Function) (d : Slot) : BlockId → nat → Prop :=
  | unread_intro b i block : blocks f !! b = Some block → stmts_unread (drop i (stmts block)) d = true → term_unread (term block) d = true →
      (∀ t, t ∈ successors (term block) → unread f d t 0) → unread f d b i.

Section Search.
Context (f : Function) (Hf : well_formed f) (d : Slot).
Definition memo_sound (memo : Memo) : Prop := ∀ b i, memo !! (b, i) = Some true → unread f d b i.
(** What the search answers, given what it answers for the targets. *)
Lemma all_targets_ok (check : BlockId → Memo → res (bool * Memo)) targets memo :
  (∀ t m, t ∈ targets → memo_sound m → ∃ r m', check t m = Ret (r, m') ∧ memo_sound m' ∧ (r = true → unread f d t 0)) → memo_sound memo →
  ∃ r m', all_targets check targets memo = Ret (r, m') ∧ memo_sound m' ∧ (r = true → ∀ t, t ∈ targets → unread f d t 0).
Proof.
  intros Hc. revert memo. induction targets as [|t targets IH]; intros memo Hm; cbn [all_targets]; [exists true, memo; split_and!; [done|done|]; by intros _ ? ?%elem_of_nil|].
  destruct (Hc t memo) as (r & m & -> & Hm' & Hr); [left|done|]. cbn [res_bind]. destruct r; [|by exists false, m].
  destruct (IH) with (memo := m) as (r & m' & -> & Hm2 & Hr2); [intros t' m1 Ht; apply Hc; by right|done|]. exists r, m'. split_and!; [done|done|]. intros E t' [->|Ht]%elem_of_cons; [by apply Hr|by apply Hr2].
Qed.
Lemma search_ok fuel visiting b i memo : memo_sound memo → b < length (blocks f) → (∀ v, v ∈ visiting → v < length (blocks f)) → length (blocks f) < size visiting + fuel →
  ∃ r m, all_paths_leave_slot_unread fuel f d visiting b i memo = Ret (r, m) ∧ memo_sound m ∧ (r = true → unread f d b i).
Proof.
  revert visiting b i memo. induction fuel as [|fuel IH]; intros visiting b i memo Hm Hb Hv Hsize; cbn [all_paths_leave_slot_unread].
  { exfalso. assert (size visiting ≤ length (blocks f)); [|lia]. rewrite <-(length_seq (length (blocks f)) 0), <-(size_list_to_set (C := gset nat) (seq 0 (length (blocks f)))) by apply NoDup_seq.
    apply subseteq_size. intros v Hin. apply elem_of_list_to_set, elem_of_seq. specialize (Hv v Hin). lia. }
  destruct (memo !! (b, i)) as [r|] eqn:Hmemo; [exists r, memo; split_and!; [done|done|]; intros ->; by apply Hm|].
  case_bool_decide as Hin; [by exists false, memo|]. destruct (lookup_lt_is_Some_2 (blocks f) b Hb) as [block Hbl]. rewrite Hbl.
  destruct (forallb _ _) eqn:Hs; cbn [negb]; [|by exists false, memo].
  assert (∀ t m, t ∈ successors (term block) → memo_sound m → ∃ r m', all_paths_leave_slot_unread fuel f d ({[b]} ∪ visiting) t 0 m = Ret (r, m') ∧ memo_sound m' ∧ (r = true → unread f d t 0)) as Hnext.
  { intros t m Ht Hm'. apply IH; [done|by eapply wf_edges; [|by exists block]|set_solver|]. rewrite size_union by set_solver. rewrite size_singleton. lia. }
  set (check := λ t m, all_paths_leave_slot_unread fuel f d ({[b]} ∪ visiting) t 0 m) in *.
  assert (∀ (r : bool) m, memo_sound m → (r = true → term_unread (term block) d = true ∧ ∀ t, t ∈ successors (term block) → unread f d t 0) →
    ∃ r' m', Ret (r, <[(b, i) := r]> m) = Ret (r', m') ∧ memo_sound m' ∧ (r' = true → unread f d b i)) as Hend.
  { intros r m Hm' Hr. assert (r = true → unread f d b i) as Hu by (intros E; destruct (Hr E); by econstructor).
    exists r, (<[(b, i) := r]> m). split_and!; [done| |done]. intros b' i' [[[= <- <-] ->]|[_ Hl]]%lookup_insert_Some; [by apply Hu|by apply Hm']. }
  assert (∀ (ok : bool) targets, successors (term block) = targets → (ok = true → term_unread (term block) d = true) →
    ∃ r m, (let* '(result, memo) := (if negb ok then Ret (false, memo) else all_targets check targets memo) in Ret (result, <[(b, i) := result]> memo)) = Ret (r, m) ∧ memo_sound m ∧ (r = true → unread f d b i)) as Hall.
  { intros ok targets <- Hok. destruct ok; cbn [negb]; [|cbn [res_bind]; apply Hend; [done|by intros ?]].
    destruct (all_targets_ok check (successors (term block)) memo Hnext Hm) as (r & m & -> & Hm' & Hr). cbn [res_bind]. apply Hend; [done|]. intros E. split; [by apply Hok|by apply Hr]. }
  destruct (term block) as [t|c y n|c cases o|[v|]|v c|]; cbn [term_unread successors] in *.
  - destruct (Hnext t memo) as (r & m & -> & Hm' & Hr); [left|done|]. cbn [res_bind]. apply Hend; [done|]. intros E. split; [done|]. intros t' ->%list_elem_of_singleton. by apply Hr.
  - specialize (Hall (negb (operand_mentions_slot c d)) [y; n] eq_refl (λ H, H)). by rewrite negb_involutive in Hall.
  - specialize (Hall (negb (operand_mentions_slot c d)) _ eq_refl (λ H, H)). by rewrite negb_involutive in Hall.
  - cbn [res_bind]. apply Hend; [done|]. intros E. split; [done|]. by intros t ?%elem_of_nil.
  - cbn [res_bind]. apply Hend; [done|]. intros E. split; [done|]. by intros t ?%elem_of_nil.
  - cbn [res_bind]. apply Hend; [done|]. intros E. split; [done|]. by intros t ?%elem_of_nil.
  - cbn [res_bind]. apply Hend; [done|]. intros E. split; [done|]. by intros t ?%elem_of_nil.
Qed.
End Search.

(** ** Which statements are removed *)
Record dead_move_out (f : Function) (b : BlockId) (i : nat) (slot flag : Slot) (block : Block) : Prop := {
  dm_block : blocks f !! b = Some block;
  dm_move : stmts block !! i = Some (DropFlagMoveOut slot flag);
  dm_store : stmts block !! S i = Some (Store flag (OConst (CBool false)));
  dm_unread : unread f slot b (i + 2)
}.
Definition dead_at (f : Function) (p : nat * nat) : Prop := ∃ slot flag block, dead_move_out f (fst p) (snd p) slot flag block.
Lemma removable_at_ok f b block i : well_formed f → blocks f !! b = Some block → ∃ r, removable_at f block i = Ret r ∧ (r = true → dead_at f (b, i)).
Proof.
  intros Hf Hb. unfold removable_at. destruct (stmts block !! i) as [[|?|slot flag| | | |]|] eqn:Hi; try by eexists.
  destruct (stmts block !! S i) as [[|target [[|? ?|?|[]|]| | | | | |]| | | | |]|] eqn:Hs; try by eexists. destruct (target =? flag) eqn:E; [|by eexists]. apply Nat.eqb_eq in E as ->.
  rewrite (wf_ids f Hf b block Hb). destruct (search_ok f Hf slot (S (length (blocks f))) ∅ b (i + 2) ∅) as (r & m & -> & _ & Hr).
  - intros ? ?. by rewrite lookup_empty.
  - by eapply lookup_lt_Some.
  - set_solver.
  - rewrite size_empty. lia.
  - exists r. split; [done|]. intros E. exists slot, flag, block. split; [done|done|done|by apply Hr].
Qed.
(** Positions in order, the last first. *)
Definition before (p q : nat * nat) : Prop := fst p < fst q ∨ (fst p = fst q ∧ snd p < snd q).
Lemma filter_res_ok {A} (check : A → res bool) (P : A → Prop) l : (∀ x, x ∈ l → ∃ r, check x = Ret r ∧ (r = true → P x)) →
  ∃ l', filter_res check l = Ret l' ∧ sublist l' l ∧ Forall P l'.
Proof.
  induction l as [|x l IH]; intros H; cbn [filter_res]; [exists []; split_and!; [done|constructor|constructor]|].
  destruct (H x) as (r & -> & Hr); [left|]. cbn [res_bind]. destruct IH as (l' & -> & Hs & Hp); [intros y Hy; apply H; by right|]. cbn [res_bind]. eexists. split; [done|].
  destruct r; (split; [by constructor|]); [constructor; [by apply Hr|done]|done].
Qed.
Lemma removable_ok f bs k : well_formed f → (∀ i block, bs !! i = Some block → blocks f !! (k + i) = Some block) →
  ∃ l, removable f k bs = Ret l ∧ StronglySorted before l ∧ Forall (λ p, k ≤ fst p ∧ dead_at f p) l.
Proof.
  intros Hf. revert k. induction bs as [|block bs IH]; intros k Hbs; cbn [removable]; [exists []; split_and!; [done|constructor|constructor]|].
  assert (blocks f !! k = Some block) as Hb by (rewrite <-(Nat.add_0_r k); by apply Hbs).
  destruct (filter_res_ok (removable_at f block) (λ i, dead_at f (k, i)) (seq 0 (length (stmts block) - 1))) as (here & -> & Hsub & Hhere); [intros i _; by apply removable_at_ok|]. cbn [res_bind].
  destruct (IH (S k)) as (rest & -> & Hsort & Hrest); [intros i x Hx; rewrite Nat.add_succ_comm; by apply Hbs|]. cbn [res_bind]. eexists. split; [done|]. split.
  - assert (StronglySorted lt here) as Hlt.
    { assert (∀ n a, StronglySorted lt (seq a n)) as Hseq.
      { induction n as [|n IHn]; intros a; cbn [seq]; constructor; [apply IHn|]. apply Forall_forall. intros x Hx%elem_of_seq. lia. }
      clear -Hsub Hseq. specialize (Hseq (length (stmts block) - 1) 0). revert Hsub Hseq. generalize (seq 0 (length (stmts block) - 1)). intros l Hsub Hs.
      induction Hsub as [|x l1 l2 Hsub IH|x l1 l2 Hsub IH]; [done| |]; apply StronglySorted_inv in Hs as [Hs Hx]; [constructor; [by apply IH|]|by apply IH].
      apply Forall_forall. intros y Hy. rewrite Forall_forall in Hx. apply Hx. by eapply sublist_subseteq. }
    clear -Hlt Hsort Hrest. induction Hlt as [|i here Hlt IH Hi]; cbn [map app]; [done|]. constructor; [done|]. apply Forall_app. split.
    + apply Forall_map. eapply Forall_impl; [exact Hi|]. intros j Hj. by right.
    + eapply Forall_impl; [exact Hrest|]. intros p [Hp _]. left. cbn. lia.
  - apply Forall_app. split; [apply Forall_map; eapply Forall_impl; [exact Hhere|]; intros i Hi; split; [cbn; lia|done]|eapply Forall_impl; [exact Hrest|]; intros p [? ?]; split; [lia|done]].
Qed.

(** ** Runs that differ in a slot nobody reads *)
Section Off.
Context {V W : Type} `{M : Machine V W}.
Lemma exec_off s d (st st' : state V W) : statement_does_not_read_slot s d = true → agree_off d st st' →
  match exec s st, exec s st' with Some a, Some a' => agree_off d a a' | None, None => True | _, _ => False end.
Proof.
  intros Hd Ha. pose proof (off_regs _ _ _ Ha) as Hr. pose proof (off_world _ _ _ Ha) as Hw.
  assert (∀ id (o o' : option V), o' = o → match (v ← o; Some (MkState (<[id := v]> (regs st)) (mem st) (world st))), (v ← o'; Some (MkState (<[id := v]> (regs st')) (mem st') (world st'))) with
    Some a, Some a' => agree_off d a a' | None, None => True | _, _ => False end) as Hset.
  { intros id o o' ->. destruct o as [v|]; cbn [mbind option_bind]; [|done]. split; cbn [regs world mem]; [by rewrite Hr|done|apply (off_mem _ _ _ Ha)]. }
  assert (reads s d = false → match ('(news, outs, w) ← operate s (regs st) (restrict (reads s) (mem st)) (world st); Some (MkState (restrict (λ id, bool_decide (id ∈ defines s)) news ∪ regs st) (restrict (may_change s) outs ∪ mem st) w)),
    ('(news, outs, w) ← operate s (regs st') (restrict (reads s) (mem st')) (world st'); Some (MkState (restrict (λ id, bool_decide (id ∈ defines s)) news ∪ regs st') (restrict (may_change s) outs ∪ mem st') w)) with
    Some a, Some a' => agree_off d a a' | None, None => True | _, _ => False end) as Hop.
  { intros Hn. rewrite (restrict_off _ d st st') by done. rewrite Hr, Hw. destruct (operate _ _ _ _) as [[[news outs] w]|]; cbn [mbind option_bind]; [|done].
    split; cbn [regs world mem]; [done|done|]. intros slot Hne. rewrite !lookup_union, (off_mem _ _ _ Ha) by done. done. }
  assert (∀ args, forallb (λ op, negb (operand_mentions_slot op d)) args = true → existsb (λ op, operand_mentions_slot op d) args = false) as Hargs.
  { intros args H. apply not_true_iff_false. intros (op & Hin & Hm)%existsb_exists. rewrite forallb_forall in H. specialize (H op Hin). by rewrite Hm in H. }
  destruct s as [id [op|slot|t args|t args c| | | | | | | |]|slot op|slot flag|slot|slot path|op|op slots]; cbn [statement_does_not_read_slot] in Hd; try done; cbn [exec]; try (apply Hop; cbn [reads]; by apply Hargs).
  - apply Hset. apply (value_off op d); [done|]. by apply negb_true_iff.
  - apply Hset. apply (off_mem _ _ _ Ha). intros ->. by rewrite Nat.eqb_refl in Hd.
  - apply andb_true_iff in Hd as [_ Hd%negb_true_iff]. rewrite (value_off op d st st') by done. destruct (value op st) as [v|]; cbn [mbind option_bind]; [|done].
    split; cbn [regs world mem]; [done|done|]. intros s Hs. destruct (decide (s = slot)) as [->|Hne]; [by rewrite !lookup_insert_eq|rewrite !lookup_insert_ne by done; by apply (off_mem _ _ _ Ha)].
  - apply Hop. cbn [reads]. by apply negb_true_iff in Hd.
  - apply Hop. cbn [reads]. by apply negb_true_iff in Hd.
  - apply Hop. cbn [reads]. by apply negb_true_iff in Hd.
Qed.
Lemma execs_off l d (st st' : state V W) : stmts_unread l d = true → agree_off d st st' →
  match execs l st, execs l st' with Some a, Some a' => agree_off d a a' | None, None => True | _, _ => False end.
Proof.
  revert st st'. induction l as [|s l IH]; intros st st' Hl Ha; cbn [execs]; [done|]. apply andb_true_iff in Hl as [Hs Hl]. pose proof (exec_off s d st st' Hs Ha) as He.
  destruct (exec s st), (exec s st'); try done. cbn [mbind option_bind]. by apply IH.
Qed.
Lemma next_off t d (st st' : state V W) : term_unread t d = true → agree_off d st st' → next t st' = next t st.
Proof.
  intros Ht Ha. destruct t as [b|c y n|c cases o|[v|]|v c|]; cbn [next term_unread] in *; try done.
  1-3: by rewrite (value_off _ d st st') by (done || by apply negb_true_iff).
  apply andb_true_iff in Ht as [Hv%negb_true_iff Hc%negb_true_iff]. by rewrite !(value_off _ d st st').
Qed.
End Off.

(** ** One removal *)
Section One.
Context (f g : Function) (b i : nat) (slot flag : Slot) (block block' : Block).
Context (Hd : dead_move_out f b i slot flag block) (Hg : blocks g = <[b := block']> (blocks f)).
Context (Hstmts : stmts block' = delete i (stmts block)) (Hterm : term block' = term block).
Lemma dead_unread_after s j : unread f s b j → i < j.
Proof using Hd.
  clear Hg Hstmts Hterm. intros Hu. destruct (decide (i < j)) as [|Hle]; [done|]. exfalso. destruct Hu as [c j block0 Hb Hs _ _]. rewrite (dm_block _ _ _ _ _ _ Hd) in Hb. injection Hb as <-.
  unfold stmts_unread in Hs. rewrite forallb_forall in Hs. specialize (Hs (DropFlagMoveOut slot flag)). cbn in Hs. assert (false = true); [|done]. apply Hs, list_elem_of_In, list_elem_of_lookup.
  exists (i - j). rewrite lookup_drop. replace (j + (i - j)) with i by lia. apply (dm_move _ _ _ _ _ _ Hd).
Qed.
Lemma lookup_other c : c ≠ b → blocks g !! c = blocks f !! c.
Proof. intros Hne. rewrite Hg. by apply list_lookup_insert_ne. Qed.
(** A way along which a slot is not read meets no removed statement. *)
Lemma unread_kept s c j : unread f s c j → c ≠ b → unread g s c j.
Proof.
  induction 1 as [c j blk Hb Hs Ht Hn IH]. intros Hne. econstructor; [by rewrite lookup_other|done|done|]. intros t Hin. apply IH; [done|]. intros ->. apply Hn, dead_unread_after in Hin. lia.
Qed.
Lemma stmts_split : stmts block = take i (stmts block) ++ DropFlagMoveOut slot flag :: Store flag (OConst (CBool false)) :: drop (i + 2) (stmts block).
Proof.
  rewrite <-(take_drop_middle (stmts block) i (DropFlagMoveOut slot flag)) at 1 by apply (dm_move _ _ _ _ _ _ Hd). do 2 f_equal.
  rewrite (drop_S (stmts block) (Store flag (OConst (CBool false))) (S i)) by apply (dm_store _ _ _ _ _ _ Hd). by replace (i + 2) with (S (S i)) by lia.
Qed.
Lemma stmts_left : stmts block' = take i (stmts block) ++ Store flag (OConst (CBool false)) :: drop (i + 2) (stmts block).
Proof.
  rewrite Hstmts, delete_take_drop. f_equal. rewrite (drop_S (stmts block) (Store flag (OConst (CBool false))) (S i)) by apply (dm_store _ _ _ _ _ _ Hd). by replace (i + 2) with (S (S i)) by lia.
Qed.
Context {V W : Type} `{M : Machine V W}.
Lemma run_off fuel c (st st' : state V W) : unread f slot c 0 → agree_off slot st st' → run fuel g c st' = run fuel f c st.
Proof.
  revert c st st'. induction fuel as [|fuel IH]; intros c st st' Hu Ha; cbn [run]; [by rewrite (off_world _ _ _ Ha)|].
  assert (c ≠ b) as Hne by (intros ->; apply dead_unread_after in Hu; lia). rewrite lookup_other by done. inversion_clear Hu as [? ? blk Hb Hs Ht Hn]. rewrite Hb. cbn [drop] in Hs.
  pose proof (execs_off (stmts blk) slot st st' Hs Ha) as He. destruct (execs (stmts blk) st) as [a|], (execs (stmts blk) st') as [a'|]; try done.
  rewrite (next_off (term blk) slot a a') by done. destruct (next (term blk) a) as [[t|[v w]]|] eqn:E; [|by rewrite (off_world _ _ _ He)|done]. apply IH; [|done]. by eapply Hn, next_successor.
Qed.
(** The value stored next is a constant, so it does not matter where the slot is cleared. *)
Lemma clear_off (st : state V W) : ∃ o, exec (Store flag (OConst (CBool false))) st = o ∧
  match o, exec (Store flag (OConst (CBool false))) (MkState (regs st) (<[slot := null slot]> (mem st)) (world st)) with
  | Some a', Some a => agree_off slot a a' | None, None => True | _, _ => False end.
Proof.
  eexists. split; [done|]. cbn [exec value mem]. assert (∀ m : gmap Slot V, restrict (operand_mentions_slot (OConst (CBool false))) m = ∅) as Hm by (intros m; apply map_eq; intros j; by rewrite restrict_lookup, lookup_empty).
  rewrite !Hm. destruct (atom _ ∅) as [v|]; cbn [mbind option_bind]; [|done]. split; cbn [regs world mem]; [done|done|]. intros s Hs.
  destruct (decide (s = flag)) as [->|Hne]; [by rewrite !lookup_insert_eq|]. by rewrite !lookup_insert_ne by done.
Qed.
Lemma run_one fuel c (st : state V W) : run fuel g c st = run fuel f c st.
Proof.
  revert c st. induction fuel as [|fuel IH]; intros c st; cbn [run]; [done|]. destruct (decide (c = b)) as [->|Hne].
  - rewrite (dm_block _ _ _ _ _ _ Hd), Hg, list_lookup_insert_eq by (eapply lookup_lt_Some, (dm_block _ _ _ _ _ _ Hd)).
    pose proof (f_equal (λ l, execs l st) stmts_split) as Hsplit. cbn beta in Hsplit. rewrite Hsplit, stmts_left, !execs_app, Hterm. clear Hsplit.
    destruct (execs (take i (stmts block)) st) as [a|]; cbn [mbind option_bind]; [|done]. cbn [execs]. change (exec (DropFlagMoveOut slot flag) a) with (Some (MkState (regs a) (<[slot := null slot]> (mem a)) (world a))). cbn [mbind option_bind].
    destruct (clear_off a) as (o & -> & Ho). destruct o as [a'|], (exec (Store flag _) _) as [a0|]; try done. cbn [mbind option_bind].
    pose proof (dm_unread _ _ _ _ _ _ Hd) as Hu. inversion_clear Hu as [? ? blk Hb Hs Ht Hn]. rewrite (dm_block _ _ _ _ _ _ Hd) in Hb. injection Hb as <-.
    pose proof (execs_off (drop (i + 2) (stmts block)) slot a0 a' Hs Ho) as He. destruct (execs _ a0) as [z|], (execs _ a') as [z'|]; try done.
    rewrite (next_off (term block) slot z z') by done. destruct (next (term block) z) as [[t|[v w]]|] eqn:E; [|by rewrite (off_world _ _ _ He)|done]. apply run_off; [|done]. by eapply Hn, next_successor.
  - rewrite lookup_other by done. destruct (blocks f !! c) as [blk|]; [|done]. destruct (execs (stmts blk) st) as [a|]; [|done]. by destruct (next (term blk) a) as [[t|[v w]]|].
Qed.
End One.

(** ** All removals *)
(** [g] is [f] with statements left out. *)
Record slimmer (f g : Function) : Prop := {
  sl_rest : g = set_blocks f (blocks g);
  sl_blocks : Forall2 (λ x y, b_id y = b_id x ∧ term y = term x ∧ sublist (stmts y) (stmts x)) (blocks f) (blocks g)
}.
#[export] Instance slimmer_refl : Reflexive slimmer.
Proof. intros f. split; [by destruct f|]. induction (blocks f) as [|x l IH]; by constructor. Qed.
#[export] Instance slimmer_trans : Transitive slimmer.
Proof.
  intros f g h [Hg H1] [Hh H2]. split; [by rewrite Hh, Hg|]. clear Hg Hh. revert H2. generalize (blocks h). induction H1 as [|x y l k (E1 & E2 & E3) H IH]; intros m H2; inversion H2 as [|? z ? m' (E4 & E5 & E6) H3]; subst; [constructor|].
  constructor; [split_and!; [congruence|congruence|by etransitivity]|by apply IH].
Qed.
Lemma slimmer_lookup f g b y : slimmer f g → blocks g !! b = Some y → ∃ x, blocks f !! b = Some x ∧ b_id y = b_id x ∧ term y = term x ∧ sublist (stmts y) (stmts x).
Proof. intros [_ H] Hy. destruct (Forall2_lookup_r _ _ _ _ _ H Hy) as (x & Hx & ?). by exists x. Qed.
Lemma slimmer_lookup_l f g b x : slimmer f g → blocks f !! b = Some x → ∃ y, blocks g !! b = Some y ∧ b_id y = b_id x ∧ term y = term x ∧ sublist (stmts y) (stmts x).
Proof. intros [_ H] Hx. destruct (Forall2_lookup_l _ _ _ _ _ H Hx) as (y & Hy & ?). by exists y. Qed.
Lemma slimmer_edge f g a b : slimmer f g → edge g a b ↔ edge f a b.
Proof.
  intros H. split.
  - intros (y & Hy & Hs). destruct (slimmer_lookup _ _ _ _ H Hy) as (x & Hx & _ & E & _). exists x. by rewrite <-E.
  - intros (x & Hx & Hs). destruct (slimmer_lookup_l _ _ _ _ H Hx) as (y & Hy & _ & E & _). exists y. by rewrite E.
Qed.
Lemma slimmer_length f g : slimmer f g → length (blocks g) = length (blocks f).
Proof. intros [_ H]. symmetry. by eapply Forall2_length. Qed.
Lemma slimmer_well_formed f g : slimmer f g → well_formed f → well_formed g.
Proof.
  intros H [H1 H2 H3]. split.
  - intros b y Hy. destruct (slimmer_lookup _ _ _ _ H Hy) as (x & Hx & -> & _). by apply H1.
  - rewrite (slimmer_length _ _ H), (sl_rest _ _ H). done.
  - intros b b' He%(slimmer_edge f g); [|done]. rewrite (slimmer_length _ _ H). by eapply H3.
Qed.
(** On every machine [g] does what [f] does. *)
Definition preserves (f g : Function) : Prop := ∀ (V W : Type) (M : Machine V W), same_runs f g.
#[export] Instance preserves_refl : Reflexive preserves.
Proof. by intros f V W M fuel st. Qed.
#[export] Instance preserves_trans : Transitive preserves.
Proof. intros f g h H1 H2 V W M fuel st. by rewrite (H2 V W M), (H1 V W M). Qed.

Lemma remove_one_ok f p : dead_at f p → ∃ g, remove_statement f p = Ret g ∧ slimmer f g ∧ preserves f g ∧ ∀ q, before q p → dead_at f q → dead_at g q.
Proof.
  destruct p as [b i]. intros (slot & flag & block & Hd). cbn [fst snd] in Hd. unfold remove_statement. rewrite (dm_block _ _ _ _ _ _ Hd). cbn [unwrap res_bind]. unfold remove_at.
  pose proof (lookup_lt_Some _ _ _ (dm_move _ _ _ _ _ _ Hd)) as Hi. apply Nat.ltb_lt in Hi as Hi'. rewrite Hi'. cbn [res_bind].
  set (block' := MkBlock (b_id block) (delete i (stmts block)) _ (term block)). set (g := set_blocks f (<[b := block']> (blocks f))). exists g. split; [done|]. split_and!.
  - split; [done|]. cbn [blocks g set_blocks]. apply Forall2_same_length_lookup. split; [by rewrite length_insert|]. intros c x y Hx [(<- & <- & _)|[_ Hy]]%list_lookup_insert_Some.
    + rewrite (dm_block _ _ _ _ _ _ Hd) in Hx. injection Hx as <-. split_and!; [done|done|apply sublist_delete].
    + by simplify_eq.
  - intros V W M fuel st. cbn [entry g set_blocks]. by eapply (run_one f g b i slot flag block block').
  - intros [c j] Hq (slot' & flag' & blk & Hdq). cbn [fst snd] in *. unfold before in Hq. cbn [fst snd] in Hq. destruct Hq as [Hc|[-> Hj]].
    + exists slot', flag', blk. split; cbn [fst snd]; [|apply Hdq|apply Hdq|].
      * rewrite (lookup_other f g b block') by (done || lia). apply Hdq.
      * eapply unread_kept; [exact Hd|done|apply Hdq|lia].
    + exfalso. pose proof (dead_unread_after f b i slot flag block Hd slot' _ (dm_unread _ _ _ _ _ _ Hdq)) as Hlt. assert (i = S j) as -> by lia.
      pose proof (dm_store _ _ _ _ _ _ Hdq) as H1. pose proof (dm_block _ _ _ _ _ _ Hdq) as H2. rewrite (dm_block _ _ _ _ _ _ Hd) in H2. injection H2 as <-. rewrite (dm_move _ _ _ _ _ _ Hd) in H1. done.
Qed.
Lemma remove_statements_ok f l : StronglySorted (λ p q, before q p) l → Forall (dead_at f) l → ∃ g, remove_statements f l = Ret g ∧ slimmer f g ∧ preserves f g.
Proof.
  intros Hs. revert f. induction Hs as [|p l Hs IH Hp]; intros f Hl; cbn [remove_statements]; [by exists f|]. apply Forall_cons in Hl as [Hd Hl].
  destruct (remove_one_ok f p Hd) as (g & -> & H1 & H2 & H3). cbn [res_bind]. destruct (IH g) as (h & -> & H4 & H5).
  - rewrite Forall_forall in Hl, Hp |- *. intros q Hq. by apply H3; [apply Hp|apply Hl].
  - exists h. split; [done|]. split; by etransitivity.
Qed.
Lemma StronglySorted_rev {A} (R : A → A → Prop) l : StronglySorted R l → StronglySorted (λ x y, R y x) (rev l).
Proof.
  induction 1 as [|x l Hs IH Hx]; [constructor|]. cbn [rev]. assert (Forall (R x) (rev l)) as Hr by (by apply Forall_rev). clear Hx. induction IH as [|y m Hm IH Hy]; cbn [app]; [repeat constructor|].
  apply Forall_cons in Hr as [Hxy Hr]. constructor; [by apply IH|]. apply Forall_app. split; [done|by repeat constructor].
Qed.
Lemma remove_dead_move_outs_ok f : well_formed f → ∃ g, remove_dead_move_outs f = Ret g ∧ slimmer f g ∧ preserves f g.
Proof.
  intros Hf. unfold remove_dead_move_outs. destruct (removable_ok f (blocks f) 0 Hf) as (l & -> & Hs & Hl); [done|]. cbn [res_bind].
  apply remove_statements_ok; [by apply StronglySorted_rev|]. apply Forall_rev. eapply Forall_impl; [exact Hl|]. by intros p [_ ?].
Qed.
