(* ===== verification/DropFlow.v ===== *)
(** * What is known of boolean slots

    The worklist of [simplify_drop_state] ends, within the fuel it gets here, with states that
    every visited block passes on to those control can go to; in a run the slots hold what the
    states say, so a guard folded by them goes where it went. *)
From Stdlib Require Import ZArith Lia.
From stdpp Require Import gmap.
From S2P Require Import Prelude Types Mir Cold ColdGraph DropState MirSem.
Local Open Scope nat_scope.

(** ** States and their merge *)
(** [st'] claims no more than [st]. *)
Definition claims_less (st st' : list BoolState) : Prop := ∀ i b, st' !! i = Some (BConst b) → st !! i = Some (BConst b).
#[export] Instance claims_less_refl : Reflexive claims_less.
Proof. by intros st i b. Qed.
#[export] Instance claims_less_trans : Transitive claims_less.
Proof. intros st1 st2 st3 H1 H2 i b H. by apply H1, H2. Qed.
Lemma claims_less_cons x y l k : (∀ b, y = BConst b → x = y) → claims_less l k → claims_less (x :: l) (y :: k).
Proof. intros Hxy Hl [|i] b; cbn; [intros [= ->]; by rewrite (Hxy b)|apply Hl]. Qed.
Definition is_const (x : BoolState) : nat := match x with BConst _ => 1 | Unknown => 0 end.
Definition consts (st : list BoolState) : nat := sum_list (map is_const st).
Lemma consts_le st : consts st ≤ length st.
Proof. unfold consts. induction st as [|[b|] st IH]; simpl; lia. Qed.
Lemma merge_states_ok cur inc : length inc = length cur → ∃ out changed, merge_states cur inc = (out, changed) ∧ length out = length cur ∧
  claims_less cur out ∧ claims_less inc out ∧ (if changed : bool then consts out < consts cur else out = cur).
Proof.
  revert inc. induction cur as [|old cur IH]; intros [|new inc] Hlen; try done; cbn [merge_states]; [by exists [], false|].
  injection Hlen as Hlen. destruct (IH inc Hlen) as (out & changed & -> & H1 & H2 & H3 & H4). unfold consts in *.
  destruct (decide (old = new)) as [->|Hne]; [rewrite bool_decide_true by done|rewrite bool_decide_false by done; destruct (decide (old = Unknown)) as [->|Hu]; [rewrite bool_decide_true by done|rewrite bool_decide_false by done]]; cbn [negb andb].
  - exists (new :: out), changed. split_and!; [done|by cbn; rewrite H1|by apply claims_less_cons|by apply claims_less_cons|]. destruct changed; [simpl; lia|by subst].
  - exists (Unknown :: out), changed. split_and!; [done|by cbn; rewrite H1|by apply claims_less_cons|by apply claims_less_cons|]. destruct changed; [simpl; lia|by subst].
  - exists (Unknown :: out), true. split_and!; [done|by cbn; rewrite H1|by apply claims_less_cons|by apply claims_less_cons|].
    assert (sum_list (map is_const out) ≤ sum_list (map is_const cur)) by (destruct changed; [lia|by subst]). destruct old; [simpl; lia|done].
Qed.

(** ** Visiting a block *)
Definition stmt_typed (f : Function) (s : Stmt) : Prop :=
  match s with
  | Let id (RLoad slot) => id < length (value_tys f) ∧ slot < length (slots f)
  | Let id (RUse _) => id < length (value_tys f)
  | Store slot _ => slot < length (slots f)
  | _ => True
  end.
(** Slots and temporaries have types. *)
Definition typed (f : Function) : Prop := ∀ b block, blocks f !! b = Some block → Forall (stmt_typed f) (stmts block).
Lemma set_at_ret {A} (l : list A) i x : i < length l → set_at l i x = Ret (<[i := x]> l).
Proof. intros H. unfold set_at. by rewrite (proj2 (Nat.ltb_lt _ _) H). Qed.
Lemma flow_stmt_ret f st vals s : stmt_typed f s → length st = length (slots f) → length vals = length (value_tys f) →
  ∃ st' vals', flow_stmt f st vals s = Ret (st', vals') ∧ length st' = length st ∧ length vals' = length vals.
Proof.
  intros Hs Hst Hv. destruct s as [id [op|slot| | | | | | | | | |]|slot op|slot flag|slot|slot path|op|op slots]; cbn [flow_stmt stmt_typed] in *; try by exists st, vals.
  - destruct (lookup_lt_is_Some_2 _ _ Hs) as [ty ->]. cbn [unwrap res_bind]. case_bool_decide; [|by exists st, vals]. rewrite set_at_ret by lia. cbn [res_bind]. eexists _, _. split; [done|]. by rewrite length_insert.
  - destruct Hs as [Hid Hs]. destruct (lookup_lt_is_Some_2 _ _ Hs) as [ty ->]. cbn [unwrap res_bind]. case_bool_decide; [|by exists st, vals].
    destruct (lookup_lt_is_Some_2 st slot) as [x ->]; [lia|]. cbn [unwrap res_bind]. rewrite set_at_ret by lia. cbn [res_bind]. eexists _, _. split; [done|]. by rewrite length_insert.
  - destruct (lookup_lt_is_Some_2 _ _ Hs) as [ty ->]. cbn [unwrap res_bind]. case_bool_decide; [|by exists st, vals]. rewrite set_at_ret by lia. cbn [res_bind]. eexists _, _. split; [done|]. by rewrite length_insert.
Qed.
Lemma flow_stmts_ret f l st vals : Forall (stmt_typed f) l → length st = length (slots f) → length vals = length (value_tys f) →
  ∃ st' vals', flow_stmts f st vals l = Ret (st', vals') ∧ length st' = length st.
Proof.
  intros Hl. revert st vals. induction Hl as [|s l Hs Hl IH]; intros st vals Hst Hv; cbn [flow_stmts]; [by exists st, vals|].
  destruct (flow_stmt_ret f st vals s Hs Hst Hv) as (st1 & v1 & -> & H1 & H2). cbn [res_bind]. destruct (IH st1 v1) as (st2 & v2 & -> & H3); [lia|lia|]. exists st2, v2. split; [done|lia].
Qed.

(** ** The worklist *)
Section Worklist.
Context (f : Function) (Hf : well_formed f) (Ht : typed f).
Abbreviation count := (length (blocks f)).
Abbreviation width := (length (slots f)).
Abbreviation unknowns := (replicate (length (value_tys f)) Unknown).
Definition room (o : option (list BoolState)) : nat := match o with None => S width | Some st => consts st end.
(** How many changes the states have left. *)
Definition potential (incoming : Incoming) : nat := sum_list (map room incoming).
Lemma potential_insert incoming i o o' : incoming !! i = Some o → potential (<[i := o']> incoming) + room o = potential incoming + room o'.
Proof.
  unfold potential. revert i. induction incoming as [|x l IH]; intros [|i] H; try done; cbn in H.
  - injection H as ->. simpl. lia.
  - specialize (IH i H). simpl. lia.
Qed.
(** Block [b], whose state is [st], has passed on what it makes of it. *)
Definition settled (incoming : Incoming) (known : list (option bool)) (b : BlockId) (st : list BoolState) : Prop :=
  ∃ block slots values, blocks f !! b = Some block ∧ flow_stmts f st unknowns (stmts block) = Ret (slots, values) ∧
    known !! b = Some (known_term f (term block) values) ∧
    ∀ t, t ∈ live_targets (term block) (known_term f (term block) values) → ∃ st', incoming !! t = Some (Some st') ∧ claims_less slots st'.
Record sized (incoming : Incoming) : Prop := {
  sz_len : length incoming = count;
  sz_states : ∀ b st, incoming !! b = Some (Some st) → length st = width
}.
Record flowing (work : list BlockId) (incoming : Incoming) (known : list (option bool)) : Prop := {
  fl_sized : sized incoming;
  fl_known : length known = count;
  fl_work : ∀ b, b ∈ work → ∃ st, incoming !! b = Some (Some st);
  fl_entry : ∃ st, incoming !! entry f = Some (Some st) ∧ ∀ i b, st !! i ≠ Some (BConst b);
  fl_settled : ∀ b st, incoming !! b = Some (Some st) → b ∈ work ∨ settled incoming known b st
}.
(** What was there only claims less, and what changed is queued. *)
Record advance (incoming incoming' : Incoming) (work work' : list BlockId) : Prop := {
  ad_more : ∀ c st, incoming !! c = Some (Some st) → ∃ st', incoming' !! c = Some (Some st') ∧ claims_less st st';
  ad_new : ∀ c st', incoming' !! c = Some (Some st') → incoming !! c = Some (Some st') ∨ c ∈ work';
  ad_work : ∀ c, c ∈ work → c ∈ work';
  ad_queued : ∀ c, c ∈ work' → c ∈ work ∨ ∃ st, incoming' !! c = Some (Some st)
}.
Lemma propagate_ok targets slots incoming work : sized incoming → length slots = width → Forall (λ t, t < count) targets →
  ∃ incoming' work', propagate targets slots incoming work = Ret (incoming', work') ∧ sized incoming' ∧ advance incoming incoming' work work' ∧
    (∀ t, t ∈ targets → ∃ st', incoming' !! t = Some (Some st') ∧ claims_less slots st') ∧ length work' + potential incoming' ≤ length work + potential incoming.
Proof.
  intros Hs Hl Htg. revert incoming work Hs. induction Htg as [|t targets Hlt Htg IH]; intros incoming work Hs; cbn [propagate].
  { exists incoming, work. split_and!; [done|done| |by intros ? ?%elem_of_nil|done]. split; [intros c st H; by exists st|by left|done|by left]. }
  destruct (lookup_lt_is_Some_2 incoming t) as [dst Hdst]; [by rewrite (sz_len _ Hs)|]. rewrite Hdst. cbn [unwrap res_bind].
  assert (∃ merged changed, merge_dst dst slots = (merged, changed) ∧ length merged = width ∧ claims_less slots merged ∧
    (∀ cur, dst = Some cur → claims_less cur merged) ∧ (if changed : bool then consts merged < room dst else dst = Some merged)) as (merged & changed & Hmg & H1 & H2 & H3 & H4).
  { destruct dst as [cur|]; cbn [merge_dst].
    - pose proof (sz_states _ Hs t cur Hdst) as Hcur. destruct (merge_states_ok cur slots) as (out & changed & -> & ? & ? & ? & Hch); [lia|]. exists out, changed. split_and!; [done|lia|done|by intros ? [= <-]|]. destruct changed; [done|by subst].
    - exists slots, true. split_and!; [done|done|done|done|]. cbn [room]. pose proof (consts_le slots). lia. }
  rewrite Hmg. cbn [res_bind].
  assert (sized (<[t := Some merged]> incoming)) as Hs'.
  { split; [rewrite length_insert; apply Hs|]. intros b st [(-> & [= <-] & _)|[_ H]]%list_lookup_insert_Some; [done|by eapply sz_states]. }
  destruct (IH (<[t := Some merged]> incoming) (if changed then work ++ [t] else work) Hs') as (incoming' & work' & -> & Hsz & Had & Htgs & Hpot).
  exists incoming', work'. split; [done|]. split; [done|]. pose proof (potential_insert incoming t dst (Some merged) Hdst) as Hp. cbn [room] in Hp.
  assert (t < length incoming) as Htl by (by eapply lookup_lt_Some). assert (<[t := Some merged]> incoming !! t = Some (Some merged)) as Hat by (by apply list_lookup_insert_eq).
  assert (t ∈ work' ∨ changed = false) as Hq by (destruct changed; [left; apply (ad_work _ _ _ _ Had), elem_of_app; right; left|by right]).
  split_and!.
  - split.
    + intros c st Hc. destruct (decide (c = t)) as [->|Hne].
      * rewrite Hdst in Hc. injection Hc as ->. destruct (ad_more _ _ _ _ Had t merged Hat) as (st' & ? & ?). exists st'. split; [done|]. etransitivity; [by apply H3|done].
      * apply (ad_more _ _ _ _ Had). by rewrite list_lookup_insert_ne.
    + intros c st' Hc. destruct (ad_new _ _ _ _ Had c st' Hc) as [Hi|?]; [|by right]. destruct (decide (c = t)) as [->|Hne]; [|left; by rewrite list_lookup_insert_ne in Hi].
      destruct Hq as [Hq|Hq]; [by right|left]. rewrite Hat in Hi. injection Hi as <-. rewrite Hdst. f_equal. by subst changed.
    + intros c Hc. apply (ad_work _ _ _ _ Had). destruct changed; [apply elem_of_app; by left|done].
    + intros c Hc. destruct (ad_queued _ _ _ _ Had c Hc) as [Hin|?]; [|by right]. destruct changed; [|by left]. apply elem_of_app in Hin as [?| ->%list_elem_of_singleton]; [by left|right].
      destruct (ad_more _ _ _ _ Had t merged Hat) as (st' & ? & _). by exists st'.
  - intros t' [->|Hin]%elem_of_cons; [|by apply Htgs]. destruct (ad_more _ _ _ _ Had t merged Hat) as (st' & ? & ?). exists st'. split; [done|by etransitivity].
  - destruct changed; [rewrite length_app in Hpot; cbn [length] in Hpot; lia|subst dst; cbn [room] in *; lia].
Qed.
Lemma live_targets_sub t k b : b ∈ live_targets t k → b ∈ successors t.
Proof. destruct t, k as [[]|]; cbn [live_targets successors]; set_solver. Qed.
Lemma settled_kept incoming incoming' known b st work work' : settled incoming known b st → advance incoming incoming' work work' → settled incoming' known b st.
Proof.
  intros (block & slots & values & H1 & H2 & H3 & H4) Had. exists block, slots, values. split_and!; [done|done|done|]. intros t Hin. destruct (H4 t Hin) as (st1 & Hst1 & Hc1).
  destruct (ad_more _ _ _ _ Had t st1 Hst1) as (st2 & ? & ?). exists st2. split; [done|by etransitivity].
Qed.
Lemma flow_loop_ok fuel work incoming known : flowing work incoming known → length work + potential incoming ≤ fuel →
  ∃ incoming' known', flow_loop fuel f work incoming known = Ret known' ∧ flowing [] incoming' known'.
Proof.
  revert work incoming known. induction fuel as [|fuel IH]; intros [|b work] incoming known Hfl Hfuel; cbn [flow_loop length] in *; try (by exists incoming, known); [lia|].
  destruct (fl_work _ _ _ Hfl b) as [st Hst]; [left|]. rewrite Hst. cbn [mjoin option_join unwrap res_bind]. assert (b < count) as Hb by (rewrite <-(sz_len _ (fl_sized _ _ _ Hfl)); by eapply lookup_lt_Some).
  destruct (lookup_lt_is_Some_2 _ _ Hb) as [block Hbl]. rewrite Hbl. cbn [unwrap res_bind].
  pose proof (sz_states _ (fl_sized _ _ _ Hfl) b st Hst) as Hw. destruct (flow_stmts_ret f (stmts block) st unknowns) as (slots & values & Hv & Hsl); [by eapply Ht|done|by rewrite length_replicate|]. rewrite Hv. cbn [res_bind].
  set (k := known_term f (term block) values). rewrite set_at_ret by (by rewrite (fl_known _ _ _ Hfl)). cbn [res_bind].
  destruct (propagate_ok (live_targets (term block) k) slots incoming work) as (incoming' & work' & -> & Hsz & Had & Htg & Hpot).
  - apply Hfl.
  - lia.
  - apply Forall_forall. intros t Hin%live_targets_sub. eapply wf_edges; [done|]. by exists block.
  - cbn [res_bind]. apply IH; [|lia]. split.
    + done.
    + rewrite length_insert. apply Hfl.
    + intros c Hc. destruct (ad_queued _ _ _ _ Had c Hc) as [Hin|?]; [|done]. destruct (fl_work _ _ _ Hfl c) as [s Hs]; [by right|]. destruct (ad_more _ _ _ _ Had c s Hs) as (s' & ? & _). by exists s'.
    + destruct (fl_entry _ _ _ Hfl) as (s & Hs & Hno). destruct (ad_more _ _ _ _ Had _ s Hs) as (s' & Hs' & Hc). exists s'. split; [done|]. intros i b' Hi%Hc. by eapply Hno.
    + intros c s' Hc. destruct (ad_new _ _ _ _ Had c s' Hc) as [Hold|?]; [|by left]. destruct (decide (c = b)) as [->|Hne].
      * right. rewrite Hst in Hold. injection Hold as <-. exists block, slots, values. split_and!; [done|done|by apply list_lookup_insert_eq; rewrite (fl_known _ _ _ Hfl)|done].
      * destruct (fl_settled _ _ _ Hfl c s' Hold) as [[->|Hin]%elem_of_cons|Hse]; [done|left; by apply (ad_work _ _ _ _ Had)|right].
        destruct (settled_kept _ _ _ _ _ _ _ Hse Had) as (bl & sl & vs & G1 & G2 & G3 & G4). exists bl, sl, vs. split_and!; [done|done|by rewrite list_lookup_insert_ne|done].
Qed.
(** What the analysis ends with. *)
Lemma analysis_ok : ∃ start known incoming, set_at (replicate count None) (entry f) (Some (replicate width Unknown)) = Ret start ∧
  flow_loop (flow_fuel f) f [entry f] start (replicate count None) = Ret known ∧ flowing [] incoming known.
Proof.
  pose proof (wf_entry f Hf) as He. assert (entry f < length (replicate (A := option (list BoolState)) count None)) as He' by (by rewrite length_replicate). rewrite set_at_ret by done.
  set (start := <[entry f := Some (replicate width Unknown)]> (replicate count None)). assert (replicate (A := option (list BoolState)) count None !! entry f = Some None) as Hn by (by apply lookup_replicate_2).
  destruct (flow_loop_ok (flow_fuel f) [entry f] start (replicate count None)) as (incoming & known & Hl & Hfl).
  - assert (∀ b st, start !! b = Some (Some st) → b = entry f ∧ st = replicate width Unknown) as Hin.
    { intros b st [(-> & [= <-] & _)|[_ [? _]%lookup_replicate_1]]%list_lookup_insert_Some; done. }
    assert (start !! entry f = Some (Some (replicate width Unknown))) as Hat by (by apply list_lookup_insert_eq). split.
    + split; [unfold start; by rewrite length_insert, length_replicate|]. intros b st [_ ->]%Hin. apply length_replicate.
    + apply length_replicate.
    + intros b ->%list_elem_of_singleton. by eexists.
    + eexists. split; [done|]. by intros i b [? _]%lookup_replicate_1.
    + intros b st [-> _]%Hin. left. left.
  - pose proof (potential_insert _ _ _ (Some (replicate width Unknown)) Hn) as Hp. fold start in Hp. cbn [room] in Hp.
    assert (∀ n, consts (replicate n Unknown) = 0) as Hc by (intros n; unfold consts; induction n as [|n IH]; [done|by simpl]).
    assert (∀ n, potential (replicate n None) = n * S width) as Hr by (intros n; unfold potential; induction n as [|n IH]; [done|simpl in *; lia]).
    rewrite Hr, Hc in Hp. unfold flow_fuel. cbn [length]. lia.
  - exists start, known, incoming. done.
Qed.
End Worklist.

(** ** In a run *)
(** Within a block a temporary is defined once. *)
Definition own_values (f : Function) : Prop := ∀ b block, blocks f !! b = Some block → NoDup (concat (map defines (stmts block))).
Section Sound.
Context {V W : Type} `{M : Machine V W}.
(** Boolean slots are changed by stores alone, or at least keep their truth. *)
Definition flags_kept (f : Function) : Prop := ∀ b block s st st' slot, blocks f !! b = Some block → s ∈ stmts block → (∀ op, s ≠ Store slot op) →
  slots f !! slot = Some Ty.Bool → exec s st = Some st' → mem st' !! slot ≫= truth = mem st !! slot ≫= truth.
Context (f : Function) (Hkept : flags_kept f).
Definition flags_hold (s : list BoolState) (m : gmap Slot V) : Prop := ∀ i b, s !! i = Some (BConst b) → slots f !! i = Some Ty.Bool ∧ m !! i ≫= truth = Some b.
Definition values_hold (s : list BoolState) (r : gmap ValueId V) : Prop := ∀ i b, s !! i = Some (BConst b) → r !! i ≫= truth = Some b.
Definition unclaimed (s : list BoolState) (ids : list ValueId) : Prop := ∀ i b, i ∈ ids → s !! i ≠ Some (BConst b).
Lemma flags_hold_less s s' m : flags_hold s m → claims_less s s' → flags_hold s' m.
Proof. intros Hs Hc i b H%Hc. by apply Hs. Qed.
Lemma operand_state_sound op vals b (st : state V W) : values_hold vals (regs st) → operand_state op vals = BConst b → value op st ≫= truth = Some b.
Proof.
  intros Hv H. destruct op as [[| | |c|]|id| | | | |]; try done; cbn [operand_state value] in *.
  - injection H as ->. apply atom_bool.
  - destruct (vals !! id) as [x|] eqn:E; [|done]. simpl in H. subst x. by apply Hv.
Qed.
Lemma flow_stmt_sound block bid s ids (st st' : state V W) sl vals sl' vals' : blocks f !! bid = Some block → s ∈ stmts block → NoDup (defines s ++ ids) →
  flow_stmt f sl vals s = Ret (sl', vals') → exec s st = Some st' → flags_hold sl (mem st) → values_hold vals (regs st) → unclaimed vals (defines s ++ ids) →
  flags_hold sl' (mem st') ∧ values_hold vals' (regs st') ∧ unclaimed vals' ids.
Proof.
  intros Hb Hs Hnd Hv He Hf Hr Hu.
  assert ((∀ op slot, s ≠ Store slot op) → flags_hold sl (mem st')) as Hslots.
  { intros Hno i b Hi. destruct (Hf i b Hi) as [Hty Hm]. split; [done|]. by rewrite (Hkept bid block s st st' i). }
  assert (values_hold vals (regs st')) as Hregs.
  { intros i b Hi. rewrite (exec_regs s st st') by (first [done|intros Hin; eapply Hu; [apply elem_of_app; by left|done]]). by apply Hr. }
  assert (unclaimed vals ids) as Hun by (intros i b Hi; apply Hu, elem_of_app; by right).
  assert (∀ id x (v : V), defines s = [id] → (∀ b, x = BConst b → truth v = Some b) → regs st' !! id = Some v → ∀ vals1, set_at vals id x = Ret vals1 → values_hold vals1 (regs st') ∧ unclaimed vals1 ids) as Hset.
  { intros id x v Hd Hx Hid vals1 H. unfold set_at in H. destruct (id <? length vals) eqn:Hlt; [|done]. injection H as <-. rewrite Hd in Hnd. apply NoDup_cons in Hnd as [Hni _]. split.
    - intros i b [(-> & E & _)|[_ Hi]]%list_lookup_insert_Some; [|by apply Hregs]. rewrite Hid. by apply Hx.
    - intros i b Hi [(-> & _ & _)|[_ H]]%list_lookup_insert_Some; [done|by eapply Hun]. }
  destruct s as [id rv|slot op|slot flag|slot|slot path|op|op touched]; cbn [flow_stmt] in Hv.
  - assert (flags_hold sl (mem st')) as Hsl by (by apply Hslots).
    assert (Ret (sl, vals) = Ret (sl', vals') → flags_hold sl' (mem st') ∧ values_hold vals' (regs st') ∧ unclaimed vals' ids) as Hsame by (by intros [= <- <-]).
    destruct rv as [op|slot| | | | | | | | | |]; try (by apply Hsame).
    + cbn [exec] in He. apply bind_Some in He as (v & Hval & [= <-]). cbn [regs mem] in *. apply res_bind_Ret_inv in Hv as (ty & _ & Hv). case_bool_decide; [|by apply Hsame]. apply res_bind_Ret_inv in Hv as (vals1 & Hset1 & [= <- <-]). split; [done|].
      eapply (Hset id (operand_state op vals) v); [done| |by rewrite lookup_insert_eq|done]. intros b Hx. pose proof (operand_state_sound op vals b st Hr Hx) as Ho. by rewrite Hval in Ho.
    + cbn [exec] in He. apply bind_Some in He as (v & Hval & [= <-]). cbn [regs mem] in *. apply res_bind_Ret_inv in Hv as (ty & _ & Hv). case_bool_decide; [|by apply Hsame].
      apply res_bind_Ret_inv in Hv as (x & Hx & Hv). apply res_bind_Ret_inv in Hv as (vals1 & Hset1 & [= <- <-]). split; [done|].
      eapply (Hset id x v); [done| |by rewrite lookup_insert_eq|done]. intros b ->. destruct (sl !! slot) eqn:Hsl0; [|done]. injection Hx as ->. destruct (Hf slot b Hsl0) as [_ Hm]. by rewrite Hval in Hm.
  - cbn [exec] in He. apply bind_Some in He as (v & Hval & [= <-]). cbn [regs mem] in *. apply res_bind_Ret_inv in Hv as (ty & Hty & Hv). destruct (slots f !! slot) as [ty'|] eqn:Hslot; [|done]. injection Hty as ->.
    assert (∀ i b, sl !! i = Some (BConst b) → i ≠ slot → slots f !! i = Some Ty.Bool ∧ (<[slot := v]> (mem st) !! i) ≫= truth = Some b) as Hother by (intros i b Hi Hne; rewrite lookup_insert_ne by done; by apply Hf).
    case_bool_decide as Hbool.
    + apply res_bind_Ret_inv in Hv as (sl1 & Hset1 & [= <- <-]). unfold set_at in Hset1. destruct (slot <? length sl); [|done]. injection Hset1 as <-. split; [|done].
      intros i b [(<- & E & _)|[Hne Hi]]%list_lookup_insert_Some; [|by apply Hother]. split; [by rewrite Hslot, Hbool|]. rewrite lookup_insert_eq. pose proof (operand_state_sound op vals b st Hr E) as Ho. by rewrite Hval in Ho.
    + injection Hv as <- <-. split; [|done]. intros i b Hi. apply Hother; [done|]. intros ->. destruct (Hf slot b Hi) as [Ht _]. congruence.
  - injection Hv as <- <-. split; [by apply Hslots|done].
  - injection Hv as <- <-. split; [by apply Hslots|done].
  - injection Hv as <- <-. split; [by apply Hslots|done].
  - injection Hv as <- <-. split; [by apply Hslots|done].
  - injection Hv as <- <-. split; [by apply Hslots|done].
Qed.
Lemma flow_stmts_sound block bid l (st st' : state V W) sl vals sl' vals' : blocks f !! bid = Some block → (∀ s, s ∈ l → s ∈ stmts block) → NoDup (concat (map defines l)) →
  flow_stmts f sl vals l = Ret (sl', vals') → execs l st = Some st' → flags_hold sl (mem st) → values_hold vals (regs st) → unclaimed vals (concat (map defines l)) →
  flags_hold sl' (mem st') ∧ values_hold vals' (regs st').
Proof.
  intros Hb. revert st sl vals. induction l as [|s l IH]; intros st sl vals Hin Hnd Hv He Hf Hr Hu; cbn [flow_stmts execs map concat] in *; [by simplify_eq|].
  apply res_bind_Ret_inv in Hv as ([sl1 v1] & Hv1 & Hv2). apply bind_Some in He as (st1 & He1 & He2).
  destruct (flow_stmt_sound block bid s _ _ _ _ _ _ _ Hb (Hin s (list_elem_of_here _ _)) Hnd Hv1 He1 Hf Hr Hu) as (H1 & H2 & H3). apply NoDup_app in Hnd as (_ & _ & Hnd).
  eapply (IH st1 sl1 v1); try done. intros x Hx. apply Hin. by right.
Qed.

(** ** Folding the guards *)
Context (Hown : own_values f) (incoming : Incoming) (known : list (option bool)) (Hfl : flowing f [] incoming known).
Definition folded : Function := set_blocks f (zip_with fold_branch (blocks f) known).
Lemma fold_branch_stmts block k : stmts (fold_branch block k) = stmts block ∧ b_id (fold_branch block k) = b_id block.
Proof. unfold fold_branch. destruct (term block) eqn:E, k as [[]|]; cbn; done. Qed.
Lemma folded_lookup b block k : blocks f !! b = Some block → known !! b = Some k → blocks folded !! b = Some (fold_branch block k).
Proof. intros Hb Hk. cbn [folded set_blocks blocks]. by rewrite lookup_zip_with, Hb, Hk. Qed.
Lemma run_folded fuel b st s : incoming !! b = Some (Some s) → flags_hold s (mem st) → run fuel folded b st = run fuel f b st.
Proof.
  revert b st s. induction fuel as [|fuel IH]; intros b st s Hs Hh; cbn [run]; [done|].
  destruct (fl_settled _ _ _ _ Hfl b s Hs) as [?%elem_of_nil|(block & sl & vals & Hb & Hv & Hk & Hnext)]; [done|]. rewrite Hb, (folded_lookup b block _ Hb Hk).
  destruct (fold_branch_stmts block (known_term f (term block) vals)) as [-> _]. destruct (execs (stmts block) st) as [st'|] eqn:He; [|done].
  destruct (flow_stmts_sound block b (stmts block) st st' s (replicate (length (value_tys f)) Unknown) sl vals) as [H1 H2]; try done.
  - by apply (Hown b).
  - by intros i b' [? _]%lookup_replicate_1.
  - by intros i b' _ [? _]%lookup_replicate_1.
  - set (k := known_term f (term block) vals) in *.
    assert (next (term (fold_branch block k)) st' = next (term block) st' ∧ ∀ t, next (term block) st' = Some (inl t) → t ∈ live_targets (term block) k) as [-> Hlive].
    { unfold k, known_term, fold_branch. destruct (term block) as [t|c y n|c cases o|v|v c|] eqn:Et; try (split; [by rewrite Et|]; intros t'; apply next_successor).
      destruct (is_drop_guard f (Branch c y n)); [|split; [by rewrite Et|]; intros t'; apply next_successor].
      destruct (operand_state c vals) as [x|] eqn:Hc; [|split; [by rewrite Et|]; intros t'; apply next_successor]. pose proof (operand_state_sound c vals x st' H2 Hc) as Ht.
      assert (next (Branch c y n) st' = Some (inl (if x then y else n))) as Hn. { cbn [next]. apply bind_Some in Ht as (v & -> & Ht). cbn [mbind option_bind]. by rewrite Ht. }
      rewrite Hn. destruct x; cbn [term next live_targets]; (split; [done|]; intros t' [= <-]; left). }
    destruct (next (term block) st') as [[t|[v w]]|] eqn:En; [|done..]. destruct (Hnext t (Hlive t eq_refl)) as (s' & Hs' & Hless). eapply IH; [exact Hs'|]. by eapply flags_hold_less.
Qed.
Lemma folded_same_runs : same_runs f folded.
Proof. intros fuel st. destruct (fl_entry _ _ _ _ Hfl) as (s & Hs & Hno). apply (run_folded fuel (entry f) st s Hs). intros i b Hi. by destruct (Hno i b). Qed.
End Sound.
