(* ===== verification/DropStateSpec.v ===== *)
(** * Drop-state simplification keeps what a function does

    Folding, renumbering and removal put together: on a well-formed function the pass returns,
    what it returns runs as the function did, on any machine that changes boolean
    slots by stores only, and is well formed, with no block left that nothing reaches. *)
From Stdlib Require Import ZArith Lia.
From stdpp Require Import gmap.
From S2P Require Import Prelude Types Mir Cold ColdGraph DropState MirSem DropMoves DropFlow.
Local Open Scope nat_scope.

(** ** Reached blocks *)
(** The marking of [simplify_drop_state] is that of [reachable], but for panics. *)
Lemma mark_loop_ret fuel bs pending reached l : reach_loop fuel bs pending reached = Ret l → l ≠ [] → mark_loop fuel bs pending reached = Ret l.
Proof.
  revert pending reached. induction fuel as [|fuel IH]; intros [|b pending] reached H Hl; cbn [reach_loop mark_loop] in *; try done.
  destruct (reached !! b) as [[]|]; cbn [unwrap res_bind]; [by apply IH| |by injection H as <-]. destruct (bs !! b) as [block|]; cbn [unwrap res_bind]; [by apply IH|by injection H as <-].
Qed.
Lemma marked_ok f : well_formed f → ∃ l, mark_loop (S (edge_count (blocks f))) (blocks f) [entry f] (replicate (length (blocks f)) false) = Ret l ∧
  length l = length (blocks f) ∧ ∀ b, l !! b = Some true ↔ reaches f b.
Proof.
  intros Hf. destruct (reachable_ok f Hf) as (l & Hl & Hlen & Hr). exists l. split; [|done]. apply mark_loop_ret; [done|]. intros ->. pose proof (wf_entry f Hf) as He. cbn in Hlen. lia.
Qed.

(** ** Renumbering *)
Definition map_targets (g : BlockId → BlockId) (t : Term) : Term :=
  match t with
  | Goto b => Goto (g b)
  | Branch cond yes no => Branch cond (g yes) (g no)
  | StrMatch scrutinee cases otherwise => StrMatch scrutinee (map (λ '(key, b), (key, g b)) cases) (g otherwise)
  | Return _ | ReturnWithCleanup _ _ | Unreachable => t
  end.
Lemma map_targets_successors g t : successors (map_targets g t) = map g (successors t).
Proof. destruct t as [b|c y n|c cases o|v|v c|]; cbn; try done. rewrite map_app, !map_map. cbn. f_equal. apply map_ext. by intros [key b]. Qed.
Lemma map_targets_next {V W} `{Machine V W} g t (st : state V W) : next (map_targets g t) st = match next t st with Some (inl b) => Some (inl (g b)) | o => o end.
Proof.
  destruct t as [b|c y n|c cases o|[v|]|v c|]; cbn [map_targets next]; try done.
  - destruct (value c st) as [v|]; [|done]. cbn [mbind option_bind]. destruct (truth v) as [[]|]; done.
  - destruct (value c st) as [v|]; [|done]. cbn [mbind option_bind]. induction cases as [|[key b] cases IH]; cbn [map find]; [done|]. by destruct (is_text v key).
  - by destruct (value v st).
  - destruct (value v st); [|done]. cbn [mbind option_bind]. by destruct (value c st).
Qed.
Definition placed (remap : list (option BlockId)) (b : BlockId) : BlockId := match remap !! b with Some (Some id) => id | _ => b end.
Lemma remap_term_ok remap t : (∀ b, b ∈ successors t → ∃ id, remap !! b = Some (Some id)) → remap_term remap t = Ret (map_targets (placed remap) t).
Proof.
  intros H. assert (∀ b, b ∈ successors t → new_target remap b = Ret (placed remap b)) as Ht by (intros b (id & E)%H; unfold new_target, placed; by rewrite E).
  assert (∀ b, b ∈ successors t → new_case remap b = placed remap b) as Hc by (intros b (id & E)%H; unfold new_case, placed; by rewrite E).
  destruct t as [b|c y n|c cases o|v|v c|]; cbn [remap_term map_targets successors] in *; try done.
  - rewrite Ht by left. done.
  - rewrite (Ht y) by left. cbn [res_bind]. rewrite (Ht n) by (right; left). done.
  - rewrite (Hc o) by (apply elem_of_app; right; left). do 2 f_equal. clear Ht H. induction cases as [|[key b] cases IH]; cbn [map] in *; [done|]. rewrite (Hc b) by left. f_equal. apply IH. intros b' Hb. apply Hc. by right.
Qed.
(** Where [compact] puts the blocks that are kept, in their order. *)
Record compacted (bs : list Block) (reached : list bool) (n : BlockId) (bs' : list Block) (remap : list (option BlockId)) : Prop := {
  cp_kept : ∀ b block, bs !! b = Some block → reached !! b = Some true → ∃ j, remap !! b = Some (Some (n + j)) ∧ bs' !! j = Some (MkBlock (n + j) (stmts block) (stmt_lines block) (term block));
  cp_dropped : ∀ b id, remap !! b = Some (Some id) → reached !! b = Some true ∧ n ≤ id;
  cp_from : ∀ j y, bs' !! j = Some y → ∃ b block, bs !! b = Some block ∧ reached !! b = Some true ∧ remap !! b = Some (Some (n + j)) ∧ y = MkBlock (n + j) (stmts block) (stmt_lines block) (term block);
  cp_once : ∀ b c id, remap !! b = Some (Some id) → remap !! c = Some (Some id) → b = c
}.
Lemma compact_ok bs reached n : length bs = length reached → ∃ bs' remap, compact bs reached n = (bs', remap) ∧ compacted bs reached n bs' remap.
Proof.
  revert reached n. induction bs as [|x bs IH]; intros [|r reached] n Hlen; try done; cbn [compact].
  { exists [], []. split; [done|]. split; intros; done. }
  injection Hlen as Hlen. destruct r.
  - destruct (IH reached (S n) Hlen) as (bs' & remap & -> & [H1 H2 H3 H4]). eexists _, _. split; [done|]. split.
    + intros [|b] block Hb Hr; cbn in Hb, Hr.
      * injection Hb as ->. exists 0. rewrite Nat.add_0_r. done.
      * destruct (H1 b block Hb Hr) as (j & E & Hj). exists (S j). rewrite Nat.add_succ_r. done.
    + intros [|b] id E; cbn in E |- *; [injection E as <-; split; [done|lia]|]. destruct (H2 b id E). split; [done|lia].
    + intros [|j] y Hj; cbn in Hj; [injection Hj as <-; exists 0, x; rewrite Nat.add_0_r; done|]. destruct (H3 j y Hj) as (b & block & ? & ? & ? & ->). exists (S b), block. rewrite Nat.add_succ_r. done.
    + intros [|b] [|c] id E1 E2; cbn in E1, E2; [done|injection E1 as <-; destruct (H2 c n E2); lia|injection E2 as <-; destruct (H2 b n E1); lia|f_equal; by eapply H4].
  - destruct (IH reached n Hlen) as (bs' & remap & -> & [H1 H2 H3 H4]). eexists _, _. split; [done|]. split.
    + intros [|b] block Hb Hr; cbn in Hb, Hr; [done|]. by apply (H1 b block).
    + intros [|b] id E; cbn in E |- *; [done|]. by apply H2.
    + intros j y Hj. destruct (H3 j y Hj) as (b & block & ? & ? & ? & ->). by exists (S b), block.
    + intros [|b] [|c] id E1 E2; cbn in E1, E2; try done. f_equal. by eapply H4.
Qed.
Lemma collect_each_map {A B} (g : A → res B) (h : A → B) l : (∀ x, x ∈ l → g x = Ret (h x)) → collect_each g l = Ret (map h l).
Proof. induction l as [|x l IH]; intros H; cbn [collect_each map]; [done|]. rewrite H by left. cbn [res_bind]. rewrite IH by (intros y Hy; apply H; by right). done. Qed.

Section Renumber.
Context (f : Function) (Hf : well_formed f) (reached : list bool) (Hlen : length reached = length (blocks f)) (Hreached : ∀ b, reached !! b = Some true ↔ reaches f b).
Context (bs : list Block) (remap : list (option BlockId)) (Hcp : compacted (blocks f) reached 0 bs remap).
Definition moved_block (block : Block) : Block := MkBlock (b_id block) (stmts block) (stmt_lines block) (map_targets (placed remap) (term block)).
Definition renumbered : Function :=
  set_blocks (set_entry_block (set_edges f (omap (remap_edge remap) (exceptional_edges f))) (placed remap (entry f))) (map moved_block bs).
Lemma reached_placed b : reaches f b → remap !! b = Some (Some (placed remap b)) ∧
  ∃ block, blocks f !! b = Some block ∧ blocks renumbered !! placed remap b = Some (MkBlock (placed remap b) (stmts block) (stmt_lines block) (map_targets (placed remap) (term block))).
Proof.
  intros Hb. destruct (lookup_lt_is_Some_2 (blocks f) b) as [block Hbl]; [by apply reaches_lt|]. destruct (cp_kept _ _ _ _ _ Hcp b block Hbl) as (j & E & Hj); [by apply Hreached|].
  assert (placed remap b = 0 + j) as Hp by (unfold placed; by rewrite E). rewrite Hp. split; [done|]. exists block. split; [done|]. cbn [renumbered set_blocks blocks]. cbn [Nat.add] in *. by rewrite list_lookup_fmap, Hj.
Qed.
Lemma compact_blocks : collect_each (remap_block remap) bs = Ret (map moved_block bs).
Proof.
  apply collect_each_map. intros y [j Hj]%list_elem_of_lookup. destruct (cp_from _ _ _ _ _ Hcp j y Hj) as (b & block & Hb & Hr & _ & ->). unfold remap_block, moved_block. cbn [term b_id stmts stmt_lines].
  rewrite remap_term_ok; [done|]. intros t Ht. eexists. apply reached_placed. apply Hreached in Hr. eapply reaches_edge; [exact Hr|]. by exists block.
Qed.
Lemma compact_entry : new_target remap (entry f) = Ret (placed remap (entry f)).
Proof. unfold new_target. destruct (reached_placed (entry f) (reaches_entry f)) as [-> _]. done. Qed.
Lemma renumbered_edge a b : edge f a b → reaches f a → edge renumbered (placed remap a) (placed remap b).
Proof.
  intros (block & Hb & Hs) Ha. destruct (reached_placed a Ha) as (_ & block' & Hb' & Hp). simplify_eq. eexists. split; [exact Hp|]. cbn [term]. rewrite map_targets_successors. apply list_elem_of_fmap. by exists b.
Qed.
Lemma renumbered_block j y : blocks renumbered !! j = Some y → ∃ b, reaches f b ∧ placed remap b = j ∧ b_id y = j ∧ ∀ t, t ∈ successors (term y) → ∃ c, edge f b c ∧ t = placed remap c.
Proof.
  cbn [renumbered set_blocks blocks]. rewrite list_lookup_fmap. intros (x & Hx & ->)%fmap_Some_1. destruct (cp_from _ _ _ _ _ Hcp j x Hx) as (b & block & Hb & Hr & E & ->). cbn [Nat.add] in *.
  exists b. split; [by apply Hreached|]. split; [unfold placed; by rewrite E|]. split; [done|]. intros t. cbn [moved_block term]. rewrite map_targets_successors. intros (c & -> & Hc)%list_elem_of_fmap. exists c. split; [|done]. by exists block.
Qed.
Lemma renumbered_well_formed : well_formed renumbered.
Proof.
  split.
  - intros j y Hy. by destruct (renumbered_block j y Hy) as (b & _ & _ & ? & _).
  - destruct (reached_placed (entry f) (reaches_entry f)) as (_ & block & _ & Hp). by eapply lookup_lt_Some.
  - intros a t (y & Hy & Ht). destruct (renumbered_block a y Hy) as (b & Hb & _ & _ & Hs). destruct (Hs t Ht) as (c & Hc & ->). destruct (reached_placed c) as (_ & block & _ & Hp); [by eapply reaches_edge|]. by eapply lookup_lt_Some.
Qed.
Lemma renumbered_reaches j : j < length (blocks renumbered) → reaches renumbered j.
Proof.
  intros [y Hy]%lookup_lt_is_Some_2. destruct (renumbered_block j y Hy) as (b & [l Hw] & <- & _). clear y Hy. revert b Hw. induction l as [|a l IH] using rev_ind; intros b Hw; apply walk_last in Hw as [[E ->]|(m & c & E & Hw & He)].
  - apply reaches_entry.
  - by destruct m.
  - by destruct l.
  - apply app_inj_tail in E as [-> ->]. eapply reaches_edge; [by apply IH|]. apply renumbered_edge; [done|by exists m].
Qed.
Lemma renumbered_edges : NoDup (map e_block (exceptional_edges f)) → Forall (names_branch f) (exceptional_edges f) →
  NoDup (map e_block (exceptional_edges renumbered)) ∧ Forall (names_branch renumbered) (exceptional_edges renumbered).
Proof.
  cbn [renumbered set_blocks set_entry_block set_edges exceptional_edges]. intros Hnd Hn.
  assert (∀ e e', remap_edge remap e = Some e' → remap !! e_block e = Some (Some (e_block e'))) as Hre.
  { intros e e' (m & Hm & [= <-])%bind_Some. cbn [e_block]. by destruct (remap !! e_block e) as [[?|]|]; simplify_eq/=. }
  split.
  - revert Hnd. clear Hn. induction (exceptional_edges f) as [|e l IH]; cbn [map omap list_omap]; [constructor|]. intros [Hni Hnd]%NoDup_cons. destruct (remap_edge remap e) as [e'|] eqn:E; [|by apply IH].
    cbn [map]. apply NoDup_cons. split; [|by apply IH]. intros (x & Hx & Hin)%list_elem_of_fmap. apply list_elem_of_omap in Hin as (y & Hy & Hyx). apply Hni, list_elem_of_fmap. exists y. split; [|done].
    apply Hre in E, Hyx. eapply (cp_once _ _ _ _ _ Hcp); [exact E|]. by rewrite Hx.
  - apply Forall_forall. intros e' (e & Hin & E)%list_elem_of_omap. rewrite Forall_forall in Hn. destruct (Hn e Hin) as (block & Hb & Hid & Hbr). apply Hre in E. destruct (cp_dropped _ _ _ _ _ Hcp _ _ E) as [Hr _]. apply Hreached in Hr.
    destruct (reached_placed _ Hr) as (E' & block' & Hb' & Hp). rewrite E in E'. injection E' as E'. rewrite <-E' in Hp. rewrite Hb in Hb'. injection Hb' as <-. eexists. split; [exact Hp|]. split; [done|]. by destruct (term block).
Qed.
Context {V W : Type} `{M : Machine V W}.
Lemma run_renumbered fuel b st : reaches f b → run fuel renumbered (placed remap b) st = run fuel f b st.
Proof.
  revert b st. induction fuel as [|fuel IH]; intros b st Hb; cbn [run]; [done|]. destruct (reached_placed b Hb) as (_ & block & Hbl & Hp). rewrite Hbl, Hp. cbn [stmts term].
  destruct (execs (stmts block) st) as [st'|]; [|done]. rewrite map_targets_next. destruct (next (term block) st') as [[t|[v w]]|] eqn:E; [|done..]. apply IH. eapply reaches_edge; [exact Hb|]. exists block. split; [done|]. by eapply next_successor.
Qed.
End Renumber.

(** ** The steps of the pass *)
Definition valid_edges (f : Function) : Prop := NoDup (map e_block (exceptional_edges f)) ∧ Forall (names_branch f) (exceptional_edges f).
Lemma valid_edges_ok f : validate_edges f (exceptional_edges f) ∅ = None ↔ valid_edges f.
Proof. rewrite validate_edges_ok. unfold valid_edges. rewrite Forall_forall. set_solver. Qed.
Section Slimmer.
Context (f g : Function) (H : slimmer f g).
Lemma slimmer_typed : typed f → typed g.
Proof.
  intros Ht b y Hy. destruct (slimmer_lookup _ _ _ _ H Hy) as (x & Hx & _ & _ & Hs). specialize (Ht b x Hx). rewrite (sl_rest _ _ H). rewrite Forall_forall in Ht |- *. intros s Hin. apply (Ht s). by eapply sublist_subseteq.
Qed.
Lemma slimmer_own_values : own_values f → own_values g.
Proof.
  intros Ho b y Hy. destruct (slimmer_lookup _ _ _ _ H Hy) as (x & Hx & _ & _ & Hs). eapply sublist_NoDup; [by apply (Ho b x)|]. clear -Hs. induction Hs as [|s l k Hs IH|s l k Hs IH]; cbn [map concat]; [done|by apply sublist_app|by apply sublist_inserts_l].
Qed.
Lemma slimmer_flags_kept {V W} `{Machine V W} : flags_kept f → flags_kept g.
Proof.
  intros Hk b y s st st' slot Hy Hs Hno Hty He. destruct (slimmer_lookup _ _ _ _ H Hy) as (x & Hx & _ & _ & Hsub). rewrite (sl_rest _ _ H) in Hty. eapply (Hk b x); [done|by eapply sublist_subseteq|done|done|done].
Qed.
Lemma slimmer_reaches b : reaches f b → reaches g b.
Proof.
  intros [l Hw]. revert b Hw. induction l as [|a l IH] using rev_ind; intros b Hw; apply walk_last in Hw as [[E ->]|(m & c & E & Hw & He)].
  - assert (entry g = entry f) as <- by (by rewrite (sl_rest _ _ H)). apply reaches_entry.
  - by destruct m.
  - by destruct l.
  - apply app_inj_tail in E as [-> ->]. eapply reaches_edge; [by apply IH|]. by apply (slimmer_edge f g).
Qed.
Lemma slimmer_terms : map term (blocks g) = map term (blocks f).
Proof. destruct H as [_ H']. induction H' as [|x y l k (_ & E & _) _ IH]; cbn [map]; [done|]. by rewrite E, IH. Qed.
Lemma slimmer_valid_edges : valid_edges f → valid_edges g.
Proof.
  intros [H1 H2]. unfold valid_edges. assert (exceptional_edges g = exceptional_edges f) as -> by (by rewrite (sl_rest _ _ H)). split; [done|]. eapply Forall_impl; [exact H2|]. intros e (x & Hx & Hid & Hbr).
  destruct (slimmer_lookup_l _ _ _ _ H Hx) as (y & Hy & E1 & E2 & _). exists y. by rewrite E1, E2.
Qed.
End Slimmer.

(** The function with its known guards folded and the records of branches that are left. *)
Definition cut (f : Function) (known : list (option bool)) : Function := let g := folded f known in set_edges g (keep_branches (blocks g) (exceptional_edges g)).
Section Cut.
Context (f : Function) (known : list (option bool)) (Hf : well_formed f) (Hk : length known = length (blocks f)).
Lemma cut_lookup b y : blocks (cut f known) !! b = Some y → ∃ x k, blocks f !! b = Some x ∧ y = fold_branch x k.
Proof. cbn [cut set_edges blocks folded set_blocks]. rewrite lookup_zip_with. intros (x & Hx & (k & _ & [= <-])%bind_Some)%bind_Some. by exists x, k. Qed.
Lemma cut_length : length (blocks (cut f known)) = length (blocks f).
Proof. cbn [cut set_edges blocks folded set_blocks]. rewrite length_zip_with. lia. Qed.
Lemma fold_branch_successors x k b : b ∈ successors (term (fold_branch x k)) → b ∈ successors (term x).
Proof. unfold fold_branch. destruct (term x) eqn:E, k as [[]|]; rewrite ?E; try done; cbn [term successors]; set_solver. Qed.
Lemma cut_well_formed : well_formed (cut f known).
Proof.
  split.
  - intros b y Hy. destruct (cut_lookup b y Hy) as (x & k & Hx & ->). destruct (fold_branch_stmts x k) as [_ ->]. by apply (wf_ids f Hf).
  - rewrite cut_length. apply Hf.
  - intros a b (y & Hy & Hb). destruct (cut_lookup a y Hy) as (x & k & Hx & ->). rewrite cut_length. apply (wf_edges f Hf a). exists x. split; [done|]. by eapply fold_branch_successors.
Qed.
Lemma cut_run {V W} `{Machine V W} fuel b st : run fuel (cut f known) b st = run fuel (folded f known) b st.
Proof. revert b st. induction fuel as [|fuel IH]; intros b st; cbn [run]; [done|]. change (blocks (cut f known)) with (blocks (folded f known)). destruct (blocks (folded f known) !! b) as [y|]; [|done]. destruct (execs (stmts y) st) as [st'|]; [|done]. by destruct (next (term y) st') as [[t|[v w]]|]. Qed.
Lemma cut_valid_edges : NoDup (map e_block (exceptional_edges f)) → valid_edges (cut f known).
Proof.
  intros Hnd. pose proof cut_well_formed as Hg. split.
  - cbn [cut set_edges exceptional_edges folded set_blocks]. unfold keep_branches. eapply sublist_NoDup; [exact Hnd|]. apply (fmap_sublist e_block), sublist_filter.
  - apply Forall_forall. intros e [Hbr _]%list_elem_of_filter. change (blocks (folded f known)) with (blocks (cut f known)) in Hbr. destruct (blocks (cut f known) !! e_block e) as [y|] eqn:E; [|done]. exists y. split_and!; [done|by apply (wf_ids _ Hg)|done].
Qed.
End Cut.

(** Everything there is to say of the pass. *)
Record simplified (f g : Function) : Prop := {
  sp_wf : well_formed g;
  sp_edges : valid_edges f → valid_edges g;
  sp_form : map term (blocks g) = map term (blocks f) ∨ ∀ b, b < length (blocks g) → reaches g b;
  sp_runs : ∀ (V W : Type) (M : Machine V W), flags_kept f → same_runs f g
}.
Lemma simplified_slimmer f g h : simplified f g → slimmer g h → preserves g h → simplified f h.
Proof.
  intros [H1 H2 H3 H4] Hs Hp. split.
  - by eapply slimmer_well_formed.
  - intros Hv. by apply (slimmer_valid_edges g), H2.
  - destruct H3 as [H3|H3]; [left; by rewrite (slimmer_terms _ _ Hs)|right]. intros b Hb. apply (slimmer_reaches g h Hs), H3. by rewrite <-(slimmer_length _ _ Hs).
  - intros V W M Hk fuel st. by rewrite (Hp V W M), (H4 V W M).
Qed.
Lemma simplify_ok f : well_formed f → typed f → own_values f → ∃ g, simplify_drop_state f = Ret g ∧ simplified f g.
Proof.
  intros Hf Ht Ho. unfold simplify_drop_state. destruct (remove_dead_move_outs_ok f Hf) as (f1 & -> & Hs1 & Hp1). cbn [res_bind].
  assert (well_formed f1) as Hf1 by (by eapply slimmer_well_formed).
  assert (simplified f f1) as Hsp1 by (apply (simplified_slimmer f f); [split; [done|done|by left|done]|done|done]).
  destruct (negb _); [by exists f1|]. destruct (analysis_ok f1 Hf1 (slimmer_typed f f1 Hs1 Ht)) as (start & known & incoming & -> & E & Hfl). cbn [res_bind]. rewrite E. cbn [res_bind]. clear E.
  destruct (forallb _ known); [by exists f1|]. fold (folded f1 known). fold (cut f1 known). change (set_edges (folded f1 known) _) with (cut f1 known).
  pose proof (fl_known _ _ _ _ Hfl) as Hk. pose proof (cut_well_formed f1 known Hf1 Hk) as Hf2.
  assert (∀ (V W : Type) (M : Machine V W), flags_kept f → same_runs f (cut f1 known)) as Hr2.
  { intros V W M Hkept fuel st. rewrite <-(Hp1 V W M), cut_run. apply (folded_same_runs f1 (slimmer_flags_kept f f1 Hs1 Hkept) (slimmer_own_values f f1 Hs1 Ho) incoming known Hfl). }
  destruct (marked_ok (cut f1 known) Hf2) as (reached & Hm & Hlen & Hreached). rewrite Hm. cbn [res_bind]. destruct (forallb id reached) eqn:Hall.
  - destruct (remove_dead_move_outs_ok _ Hf2) as (g & -> & Hs & Hp). exists g. split; [done|]. apply (simplified_slimmer f (cut f1 known)); [split|done|done].
    + done.
    + intros [Hnd _]. apply (cut_valid_edges f1 known Hf1 Hk). by rewrite (sl_rest _ _ Hs1).
    + right. intros b Hb. apply Hreached. destruct (lookup_lt_is_Some_2 reached b) as [r Hr]; [lia|]. rewrite forallb_forall in Hall. rewrite Hr. f_equal. apply (Hall r), list_elem_of_In. by eapply list_elem_of_lookup_2.
    + done.
  - destruct (compact_ok (blocks (cut f1 known)) reached 0) as (bs & remap & -> & Hcp); [done|]. rewrite (compact_blocks _ Hf2 reached Hreached bs remap Hcp). cbn [res_bind].
    rewrite (compact_entry _ Hf2 reached Hreached bs remap Hcp). cbn [res_bind]. fold (renumbered (cut f1 known) bs remap). set (f3 := renumbered (cut f1 known) bs remap).
    assert (well_formed f3) as Hf3 by (by apply (renumbered_well_formed _ Hf2 reached)). destruct (remove_dead_move_outs_ok f3 Hf3) as (g & Hg & Hs & Hp). exists g. split; [exact Hg|]. apply (simplified_slimmer f f3); [split|done|done].
    + done.
    + intros [Hnd _]. apply (renumbered_edges _ Hf2 reached Hreached bs remap Hcp); apply (cut_valid_edges f1 known Hf1 Hk); by rewrite (sl_rest _ _ Hs1).
    + right. by apply (renumbered_reaches _ Hf2 reached).
    + intros V W M Hkept fuel st. rewrite <-(Hr2 V W M Hkept). apply (run_renumbered _ Hf2 reached Hreached bs remap Hcp). apply reaches_entry.
Qed.

(** ** Theorems *)
(** No statement but a store changes a boolean slot: then no machine does. *)
Definition flags_private (f : Function) : Prop := ∀ b block s slot, blocks f !! b = Some block → s ∈ stmts block → slots f !! slot = Some Ty.Bool → may_change s slot = true → ∃ op, s = Store slot op.
Lemma flags_private_kept f : flags_private f → ∀ (V W : Type) (M : Machine V W), flags_kept f.
Proof.
  intros Hp V W M b block s st st' slot Hb Hs Hno Hty He. rewrite (exec_mem s st st' slot He); [done|]. destruct (may_change s slot) eqn:E; [|done]. destruct (Hp b block s slot Hb Hs Hty E) as [op ->]. by destruct (Hno op).
Qed.

(** C31. [simplify_drop_state] returns, and what it returns does what the function did: on every
    machine, from every frame and after however many blocks, it is still running in the same world,
    or has returned the same value and cleanup bit in the same world, or its behaviour is
    undefined, exactly when that holds of the function, provided the statements the analysis
    takes no account of leave the truth of the boolean slots alone. *)
Theorem simplify_drop_state_preserves f (Hf : well_formed f) (Ht : typed f) (Ho : own_values f) : ∃ g, simplify_drop_state f = Ret g ∧
  ∀ (V W : Type) (M : Machine V W), flags_kept f → ∀ fuel st, run fuel g (entry g) st = run fuel f (entry f) st.
Proof. destruct (simplify_ok f Hf Ht Ho) as (g & Hg & Hs). exists g. split; [exact Hg|]. intros V W M Hk. by apply (sp_runs f g Hs V W M). Qed.

(** C32. What [simplify_drop_state] returns is a well-formed function again; the records of exceptional
    branches still pass [validate_exceptional_edges] when they did; and unless no guard
    was folded, every block left is reached from the entry. *)
Theorem simplify_drop_state_form f g (Hf : well_formed f) (Ht : typed f) (Ho : own_values f) (Hg : simplify_drop_state f = Ret g) :
  well_formed g ∧ (validate_edges f (exceptional_edges f) ∅ = None → validate_edges g (exceptional_edges g) ∅ = None) ∧
  (map term (blocks g) = map term (blocks f) ∨ ∀ b, b < length (blocks g) → reaches g b).
Proof. destruct (simplify_ok f Hf Ht Ho) as (g' & E & [H1 H2 H3 _]). rewrite Hg in E. injection E as <-. rewrite !valid_edges_ok. done. Qed.

(** ** Witnesses *)
(** Two owned slots, 1 moved out and 3 kept, with the flags 0 and 2. *)
Definition owned : Function :=
  FlagVectors.fn [Ty.Bool; Ty.String; Ty.Bool; Ty.String] [Ty.Bool; Ty.Bool]
    [MkBlock 0 [DropFlagMoveOut 1 0; Store 0 (OConst (CBool false)); Store 2 (OConst (CBool true)); Let 0 (RLoad 0)] [] (Branch (OValue 0) 1 2);
     MkBlock 1 [Drop 1] [] (Goto 2); MkBlock 2 [Let 1 (RLoad 2)] [] (Branch (OValue 1) 3 4); MkBlock 3 [Drop 3] [] (Goto 4); MkBlock 4 [] [] (Return None)]
    [MkEdge 2 Else LenMismatch].
(** A machine of booleans whose world counts drops; a call clears the slots it is lent. *)
#[export] Instance counting : Machine bool nat := {
  atom op _ := match op with OConst (CBool b) => Some b | _ => None end;
  truth b := Some b;
  is_text _ _ := false;
  null _ := false;
  operate s _ m w :=
    match s with
    | Drop _ => Some (∅, ∅, S w)
    | Let id (RCall _ _) => Some ({[id := false]}, (λ _, false) <$> m, w)
    | _ => Some (∅, ∅, w)
    end;
  atom_bool b m := eq_refl
}.
Lemma block_stmt f b block s : blocks f !! b = Some block → s ∈ stmts block → s ∈ concat (map stmts (blocks f)).
Proof. intros Hb Hs. apply list_elem_of_In, in_concat. exists (stmts block). split; [apply in_map|]; apply list_elem_of_In; [by eapply list_elem_of_lookup_2|done]. Qed.
Lemma owned_typed : typed owned.
Proof. intros b block Hb. apply Forall_forall. intros s Hs. apply (block_stmt owned b block s Hb) in Hs. cbn in Hs. rewrite ?elem_of_cons, ?elem_of_nil in Hs. destruct_or?; subst; cbn; lia || done. Qed.
Lemma owned_values : own_values owned.
Proof. intros b block Hb. do 5 (destruct b as [|b]; [injection Hb as <-; cbn; apply (bool_decide_unpack _); vm_compute; exact I|]). done. Qed.
Lemma owned_flags : flags_private owned.
Proof.
  intros b block s slot Hb Hs Hty Hm. apply (block_stmt owned b block s Hb) in Hs. cbn in Hs. rewrite ?elem_of_cons, ?elem_of_nil in Hs. destruct slot as [|[|[|[|slot]]]]; try done; destruct_or?; subst; try done; by eexists.
Qed.
Lemma simplify_drop_state_preserves_witness : ∃ g, simplify_drop_state owned = Ret g ∧ length (blocks g) = 4 ∧ run 9 g (entry g) (MkState ∅ ∅ 0) = Exits None None 1.
Proof.
  destruct (simplify_drop_state_preserves owned) as (g & Hg & Hr); [by apply well_formedb_ok|exact owned_typed|exact owned_values|]. exists g. split; [exact Hg|]. split; [|rewrite (Hr bool nat counting (flags_private_kept _ owned_flags _ _ _)); vm_compute; reflexivity].
  vm_compute in Hg. injection Hg as <-. reflexivity.
Defined.
Lemma simplify_drop_state_form_witness : ∃ g, simplify_drop_state owned = Ret g ∧ exceptional_edges g = [] ∧ well_formed g.
Proof.
  eexists. split; [vm_compute; reflexivity|]. split; [reflexivity|]. eapply (simplify_drop_state_form owned); [by apply well_formedb_ok|exact owned_typed|exact owned_values|vm_compute; reflexivity].
Defined.
(** A flag lent to a call is taken to be what it was before: here the call clears it, and the folded
    function drops what the function does not. *)
Definition lent : Function :=
  FlagVectors.fn [Ty.Bool; Ty.String] [Ty.Unit; Ty.Bool]
    [MkBlock 0 [Store 0 (OConst (CBool true)); Let 0 (RCall (DProgram [7%Z]) [OBorrowedPlace 1 (Some 0)]); Let 1 (RLoad 0)] [] (Branch (OValue 1) 1 2);
     MkBlock 1 [Drop 1] [] (Goto 2); MkBlock 2 [] [] (Return None)] [].
Lemma lent_flag_folded : ∃ g, simplify_drop_state lent = Ret g ∧ run 5 lent (entry lent) (MkState ∅ ∅ 0) = Exits None None 0 ∧ run 5 g (entry g) (MkState ∅ ∅ 0) = Exits None None 1.
Proof. eexists. split; [vm_compute; reflexivity|]. split; vm_compute; reflexivity. Qed.
